(* ===== verification/_CoqProject ===== *)
-Q . S2P
Prelude.v
RaftPB.v
Proto.v
RaftCodec.v
Storage.v
Unstable.v
RaftLog.v
Progress.v
Raft.v
RaftSpec.v
Quorum.v
RaftRefine.v
RaftStep.v
RaftAlone.v
RaftFrame.v
RaftProps.v
RaftTick.v
RaftNet.v
RaftStart.v
RawNode.v
Delivery.v
NodeLoop.v
RaftSystem.v
RaftExamples.v
NodeExamples.v
OrderedMap.v
Revision.v
KeyIndex.v
TreeIndex.v
StorePB.v
Backend.v
Lessor.v
KVStore.v
KVHistory.v
KVSpec.v
KVDisk.v
KVRefine.v
KVCompact.v
KVRun.v
KVLease.v
KVRestart.v
WalPB.v
FileSys.v
Wal.v
WalStream.v
WalLog.v
WalFiles.v
WalSegs.v
WalRead.v
WalWrite.v
WalSave.v
Snap.v
ServerStorage.v
Standalone.v
WalRecover.v
ServerRecover.v
WalExamples.v
GoPath.v
TTLHeap.v
V2Event.v
WatcherHub.v
V2Store.v
V2Tree.v
V2Spec.v
V2Refine.v
V2Ops.v
V2OpsSpec.v
V2Run.v
V2Expire.v
V2Watch.v
V2Get.v
V2Reach.v
V2Clone.v
V2Json.v
V2Examples.v
