(* ===== verification/Prelude.v ===== *)
(** * etcd 2.3: a model of its core and what is proved of it

    etcd is a replicated key-value store.  Clients' requests are proposed to
    the raft state machine ([src/raft]), which replicates them in a log; the
    server ([src/etcdserver]) keeps that log on disk, in the write-ahead log
    ([src/wal]) and the snapshot files ([src/snap]), and applies what raft has
    committed to two stores: the version 2 store, a tree in memory with watches
    and expiring keys ([src/store]), and the multi-version store on a database
    ([src/storage]) with leases ([src/lease]).  These parts are modelled here,
    function by function, with the names of the source.

    ** How the code is modelled

    A function that can panic returns an [outcome]: [Ok], or [Panic] with the
    message; [let! x := m in k] goes on after [Ok].  Errors that the code
    returns are values.  Methods take the struct and return it with their
    results.  A struct is a record, updated with [r <| f := v |>].  Where
    pointers are shared (nodes and watchers of the version 2 store) the objects
    live in a map from pointers.  A [uint64] is an integer with wrap-around
    written out ([u64], [⊞], [⊟]); [int64] likewise ([i64]).  A byte string is a
    list of numbers.  The order in which a loop visits a map is a parameter
    [range], any permutation of the map; random numbers, clocks, and the
    capacity [append] gives a slice are arguments.  What an operation does under
    a lock is one step, and steps interleave in any order.

    ** Raft: [src/raft]

    - [RaftPB], [Proto], [RaftCodec]: the messages of [raftpb/raft.pb.go] and
      their wire format.  Every message round-trips, [Marshal] fills exactly
      [Size()] bytes, and [Unmarshal] ends on every input.
    - [Storage]: the interface of [storage.go] as a class, its contract
      [StorageSpec] over the abstract log [alog], and [MemoryStorage], which
      meets it.
    - [Unstable], [RaftLog], [Progress]: [log_unstable.go], [log.go],
      [progress.go].  The log refines [alog] ([append_refines],
      [slice_refines], [maybeAppend_spec], [nextEnts_spec]); the inflights
      refine a queue, and the leader's view of a follower keeps its bounds
      whatever arrives, late rejections included ([progress_invariant]).
    - [Raft]: [raft.go], with every message handler, ticks and [newRaft].
    - [RaftSpec], [Quorum], [RaftRefine], [RaftStep], [RaftFrame], [RaftProps],
      [RaftTick]: the abstract node, and that [Step] and [tick] take steps of it
      ([Step_refines], [tick_refines], which also says what happens at each
      timeout); hence votes, terms, the commit index and the leader's log only
      change as they may.
    - [RaftAlone]: the only member of a cluster is elected within two election
      timeouts and commits what is proposed to it ([lone_member_progress]).
    - [RaftNet], [RaftStart], [RaftSystem]: clusters over a lossy network whose
      nodes crash and restart.  No two nodes lead in a term
      ([election_safety]).
    - [RawNode], [Delivery], [NodeLoop]: [rawnode.go] and the rounds of
      [node.go].  Committed entries reach the application once each, in order
      ([RawNode_delivers]); the two drivers do the same ([node_batch_agrees]).
    - [RaftExamples], [NodeExamples]: concrete nodes and a cluster of three.

    ** The multi-version store: [src/storage], [src/lease]

    - [OrderedMap]: the B-tree and the database's buckets, which are libraries,
      as ordered maps given by laws.
    - [Revision], [KeyIndex], [TreeIndex]: [revision.go], [key_index.go],
      [index.go].  The index answers as the list of changes does
      ([index_history]).
    - [StorePB], [Backend], [Lessor], [KVStore]: the stored messages,
      [backend/batch_tx.go], [lessor.go], [kvstore.go] and
      [kvstore_compaction.go].  The lessor is also modelled on its own, with the
      function that deletes the keys of a revoked lease as a parameter: a lease
      lives its time ([lease_lives]) and comes back after a restart
      ([lessor_recovers]).
    - [KVHistory], [KVSpec], [KVDisk], [KVRefine], [KVCompact], [KVRun]: the
      abstract store, a map for each revision, and that any run of the store
      answers as it does ([store_run_refines]); reads at a revision repeat
      ([reads_repeat]).
    - [KVLease], [KVRestart]: a revoked lease takes its keys with it
      ([revoke_deletes]); after a crash the store comes back as it was after the
      requests up to the last commit ([restart_recovers], for requests without
      leases and a newest revision that is not compacted; what happens otherwise
      is shown by examples).

    ** Stable storage: [src/wal], [src/snap], [src/etcdserver]

    - [FileSys]: files, directories and crashes between any two system calls.
    - [WalPB], [Wal]: the records and [wal.go], [encoder.go], [decoder.go],
      [repair.go].
    - [WalStream], [WalLog], [WalFiles], [WalSegs], [WalRead], [WalWrite],
      [WalSave], [WalRecover]: the log as a stream of frames, as a list of
      operations and as files; a crash loses nothing that was synced, and the
      log reads back from every snapshot that it has not jumped over
      ([wal_recovers]).  [entries_read] says exactly which entries come back:
      those of the log, or overwritten ones when the log has none left.
    - [Snap]: [snapshotter.go], [db.go]; the newest whole snapshot with a
      checksum other than 0 loads ([snapshots_survive], [SaveSnap_Load]).
    - [ServerStorage], [Standalone], [ServerRecover]: [storage.go] and the
      restart functions of [raft.go]; a node's storage is rebuilt from both
      directories after a crash, under the same condition ([server_recovers]).
    - [WalExamples]: witnesses, and runs outside the hypotheses.

    ** The version 2 store: [src/store]

    - [GoPath]: paths and strings of Go's library.
    - [TTLHeap], [V2Event], [WatcherHub], [V2Store]: the heap of expiring keys,
      events and their history, watchers, and the store itself: [node.go] and
      [store.go] over a heap of nodes.
    - [V2Tree], [V2Spec], [V2Refine], [V2Ops], [V2OpsSpec], [V2Run]: the pointer
      structure as a tree of paths, the store as a map from paths, and that
      every sequence of operations returns what the map says
      ([v2_store_refines]).
    - [V2Expire], [V2Watch], [V2Get], [V2Reach]: expiry removes what is due,
      reads list what is visible, and all reachable states are well formed
      ([expired_keys_removed], [Get_spec], [v2_store_well_formed]).  A watch
      gives an event that concerns it and is no later than any it sees, and is
      told when its key goes ([watch_gets_first_event]; [sees] says which past
      events the search of the history can pass over).
    - [V2Clone], [V2Json]: cloning, the JSON documents of [Save] and how
      [Recovery] decodes them into a store; a saved store comes back in a store
      without events of its own ([save_recover]).
    - [V2Examples]: witnesses, and behaviours the comments do not lead one to
      expect.

    ** Fuel and bounds

    Recursion that is not structural carries fuel: the length of the input for
    the codecs, the number of nodes for the tree of the version 2 store, the
    size of the heap for its sifting and for the expiry loop, the number of
    files and records for reading the log.  Running out is an error of its own,
    and the theorems say that a result is returned, so it does not happen.
    Theorems about indices and terms assume room below the largest [uint64];
    what happens at some other widths is proved ([Entry_Unmarshal_length_overflow],
    [Grant_ttl_overflow]).

    ** Not modelled

    - Network, HTTP and gRPC: the peer transport, the APIs, the clients, proxy
      and discovery; the server's loops and channels around the parts above.
    - The watchers of the multi-version store, whose goroutines move them
      between groups while the store changes; hashing, snapshots and
      defragmentation of the backend.
    - JSON text.  The documents of the version 2 store are trees of the fields
      that the source encodes, with the encoder's treatment of strings and
      times.  When a document is decoded into a history that has events, these
      objects change in place; that they are also in channels of watchers is
      not modelled.
    - System calls that fail, and directories that lose an entry that was not
      synced; the database's own errors.
    - Generated [String] and descriptor methods, metrics and logging.

    Of a cluster it is proved that a term has one leader, and of a node that
    what it has committed stays; that two nodes commit the same entries is not
    proved here. *)

From Stdlib Require Export ZArith Lia.
From stdpp Require Export base numbers gmap strings sorting option list.

#[export] Set Default Goal Selector "!".
#[global] Open Scope Z_scope.
Create HintDb raft.
Create Rewrite HintDb raft.

(** ** Outcomes: a Go computation returns or panics *)

Inductive outcome (A : Type) : Type :=
| Ok (a : A)
| Panic (why : string).
Arguments Ok {_} _.
Arguments Panic {_} _.

Definition gobind {A B} (m : outcome A) (f : A -> outcome B) : outcome B :=
  match m with Ok a => f a | Panic w => Panic w end.

Declare Scope go_scope.
Delimit Scope go_scope with go.
Notation "'let!' x := m 'in' k" := (gobind m (fun x => k))
  (at level 10, x name, m at level 100, k at level 200,
   format "'[v' 'let!'  x  :=  m  'in' '/' k ']'") : go_scope.
Notation "'let!' ' p := m 'in' k" :=
  (gobind m (fun x => match x with p => k end))
  (at level 10, p strict pattern, m at level 100, k at level 200) : go_scope.
#[global] Open Scope go_scope.

Definition is_Ok {A} (m : outcome A) : Prop := exists a, m = Ok a.

Lemma bind_Ok_inv {A B} (m : outcome A) (f : A -> outcome B) b :
  gobind m f = Ok b -> exists a, m = Ok a /\ f a = Ok b.
Proof. destruct m as [a|w]; simpl; [eauto | discriminate]. Qed.

Lemma bind_Ok_intro {A B} (m : outcome A) (f : A -> outcome B) a b :
  m = Ok a -> f a = Ok b -> gobind m f = Ok b.
Proof. by intros -> <-. Qed.

(** Run the monadic glue of a computation whose parts have been rewritten. *)
Ltac gosimpl := cbn [gobind fst snd].
Tactic Notation "gosimpl" "in" hyp(H) :=
  cbn [gobind fst snd] in H.

(** Run the first step of a computation by an equation for it, which holds up
    to conversion. *)
Ltac gorun H :=
  match type of H with _ = ?rhs => match goal with |- context [gobind ?m _] => rewrite (H : m = rhs); cbn [gobind] end end.

Fixpoint foldM {A S} (f : S -> A -> outcome S) (l : list A) (s : S) : outcome S :=
  match l with
  | [] => Ok s
  | a :: l' => let! s' := f s a in foldM f l' s'
  end.

Lemma foldM_app {A S} (f : S -> A -> outcome S) l1 l2 s :
  foldM f (l1 ++ l2) s = let! s' := foldM f l1 s in foldM f l2 s'.
Proof.
  revert s. induction l1 as [|x l1 IH]; intros s; simpl; [done|]. destruct (f s x); [apply IH|done].
Qed.

Lemma foldM_inv {A S} (P : S -> Prop) (f : S -> A -> outcome S) l s s' :
  (forall s a s', P s -> f s a = Ok s' -> P s') ->
  foldM f l s = Ok s' -> P s -> P s'.
Proof.
  intros Hf. revert s. induction l as [|a l IH]; simpl; intros s H Hs.
  - by injection H as <-.
  - apply bind_Ok_inv in H as (s1 & H1 & H2). eauto.
Qed.

(** ** Record update *)

Class Upd {R T : Type} (getter : R -> T) : Type := upd : (T -> T) -> R -> R.
Arguments upd {R T} getter {_} _ _.
#[export] Hint Mode Upd + + + : typeclass_instances.

(** The eta expansion of a record type; each modelled struct has one. *)
Class Eta (R : Type) : Type := eta : R -> R.
Arguments eta R {_} _.

Ltac derive_upd getter :=
  lazymatch type of getter with
  | ?R -> _ =>
      let e := eval cbv [eta] in (eta R) in
      let e := eval hnf in e in
      lazymatch e with
      | (fun r : R => @?body r) =>
          let f := eval pattern getter in e in
          lazymatch f with
          | ?g getter => exact (fun u r => g (fun r' => u (getter r')) r)
          end
      end
  end.
#[export] Hint Extern 1 (Upd ?getter) => derive_upd getter : typeclass_instances.

Notation "r <| f := v |>" := (upd f (fun _ => v) r)
  (at level 1, f at level 9, v at level 99, left associativity,
   format "r  <| f  :=  v |>") : go_scope.
Notation "r <| f ::= g |>" := (upd f g r)
  (at level 1, f at level 9, g at level 99, left associativity,
   format "r  <| f  ::=  g |>") : go_scope.


(** ** Machine integers: Go's [uint64] as [Z] with wrap-around written out *)

Abbreviation MaxUint64 := 18446744073709551615 (only parsing).
Abbreviation two64 := 18446744073709551616 (only parsing).

Definition u64 (z : Z) : Z := z mod two64.
Arguments u64 : simpl never.
Notation "a ⊞ b" := (u64 (a + b)) (at level 50, left associativity) : go_scope.
Notation "a ⊟ b" := (u64 (a - b)) (at level 50, left associativity) : go_scope.

Definition is_u64 (z : Z) : Prop := 0 <= z < two64.

Lemma u64_small z : 0 <= z < two64 -> u64 z = z.
Proof. intros. by apply Z.mod_small. Qed.

Lemma u64_range z : 0 <= u64 z < two64.
Proof. by apply Z.mod_pos_bound. Qed.

(** [u64_simp] removes every wrap-around that [lia] shows cannot happen. *)
Ltac u64_simp :=
  repeat match goal with
  | |- context [u64 ?z] => rewrite (u64_small z) by lia
  | H : context [u64 ?z] |- _ => rewrite (u64_small z) in H by lia
  end.

(** Case analysis on the integer comparisons of the code. *)
Ltac zcase :=
  match goal with
  | |- context [?a <? ?b] => destruct (Z.ltb_spec a b)
  | |- context [?a <=? ?b] => destruct (Z.leb_spec a b)
  | |- context [?a =? ?b] => destruct (Z.eqb_spec a b)
  | |- context [?a >? ?b] => rewrite (Z.gtb_ltb a b)
  | |- context [?a >=? ?b] => rewrite (Z.geb_leb a b)
  end.
Tactic Notation "zcase" "in" hyp(H) :=
  match type of H with
  | context [?a <? ?b] => destruct (Z.ltb_spec a b)
  | context [?a <=? ?b] => destruct (Z.leb_spec a b)
  | context [?a =? ?b] => destruct (Z.eqb_spec a b)
  | context [?a >? ?b] => rewrite (Z.gtb_ltb a b) in H
  | context [?a >=? ?b] => rewrite (Z.geb_leb a b) in H
  end.

(** Case analysis on the outermost test of a conditional. *)
Ltac zif_on c :=
  lazymatch c with
  | ?a <? ?b => destruct (Z.ltb_spec a b)
  | ?a <=? ?b => destruct (Z.leb_spec a b)
  | ?a =? ?b => destruct (Z.eqb_spec a b)
  | ?a >? ?b => rewrite (Z.gtb_ltb a b); destruct (Z.ltb_spec b a)
  | ?a >=? ?b => rewrite (Z.geb_leb a b); destruct (Z.leb_spec b a)
  | negb ?d => zif_on d
  | ?d && _ => zif_on d
  | ?d || _ => zif_on d
  | bool_decide ?P => destruct (bool_decide_reflect P)
  | _ => let E := fresh "E" in destruct c eqn:E
  end; cbn [negb andb orb].
Ltac zif :=
  match goal with
  | |- context [if ?c then _ else _] =>
      lazymatch type of c with bool => zif_on c end
  end.

Ltac zif_on_in c H :=
  lazymatch c with
  | ?a <? ?b => destruct (Z.ltb_spec a b)
  | ?a <=? ?b => destruct (Z.leb_spec a b)
  | ?a =? ?b => destruct (Z.eqb_spec a b)
  | ?a >? ?b => rewrite (Z.gtb_ltb a b) in H; destruct (Z.ltb_spec b a)
  | ?a >=? ?b => rewrite (Z.geb_leb a b) in H; destruct (Z.leb_spec b a)
  | negb ?d => zif_on_in d H
  | ?d && _ => zif_on_in d H
  | ?d || _ => zif_on_in d H
  | bool_decide ?P => destruct (bool_decide_reflect P)
  | _ => let E := fresh "E" in destruct c eqn:E
  end; cbn [negb andb orb] in H.
Tactic Notation "zif" "in" hyp(H) :=
  match type of H with
  | context [if ?c then _ else _] =>
      lazymatch type of c with bool => zif_on_in c H end
  end.

(** ** Slices: indexing and slicing with Go's bounds checks *)

Abbreviation zlen l := (Z.of_nat (length l)).

Section slices.
  Context {A : Type}.
  Implicit Types (s : list A) (i lo hi : Z).

  (** [s[i]] *)
Definition at_ s i : outcome A :=
  match (if 0 <=? i then s !! Z.to_nat i else None) with
  | Some x => Ok x
  | None => Panic "index out of range"
  end.

  (** [s[i] = x] *)
Definition set_at s i (x : A) : outcome (list A) :=
  if (0 <=? i) && (i <? zlen s) then Ok (<[Z.to_nat i := x]> s) else Panic "index out of range".

  (** [s[lo:]] *)
Definition slice_from s lo : outcome (list A) :=
  if (0 <=? lo) && (lo <=? zlen s) then Ok (drop (Z.to_nat lo) s)
  else Panic "slice bounds out of range".

  (** [s[lo:hi]] *)
Definition slice2 s lo hi : outcome (list A) :=
  if (0 <=? lo) && (lo <=? hi) && (hi <=? zlen s)
  then Ok (take (Z.to_nat (hi - lo)) (drop (Z.to_nat lo) s))
  else Panic "slice bounds out of range".

Lemma at_head x s : at_ (x :: s) 0 = Ok x.
Proof. done. Qed.

Lemma at_Ok s i x : at_ s i = Ok x <-> 0 <= i /\ s !! Z.to_nat i = Some x.
Proof.
  unfold at_. zcase; [|split; [discriminate|lia]].
  destruct (s !! Z.to_nat i); naive_solver.
Qed.

Lemma at_in_range s i : 0 <= i < zlen s -> exists x, at_ s i = Ok x /\ s !! Z.to_nat i = Some x.
Proof.
  intros Hi. destruct (lookup_lt_is_Some_2 s (Z.to_nat i)) as [x Hx]; [lia|].
  exists x. split; [|done]. apply at_Ok. split; [lia|done].
Qed.

Lemma set_at_Ok s i x : 0 <= i < zlen s -> set_at s i x = Ok (<[Z.to_nat i := x]> s).
Proof. intros. unfold set_at. repeat zcase; try done; lia. Qed.

Lemma slice_from_Ok s lo : 0 <= lo <= zlen s -> slice_from s lo = Ok (drop (Z.to_nat lo) s).
Proof. intros. unfold slice_from. repeat zcase; try done; lia. Qed.

Lemma slice2_Ok s lo hi : 0 <= lo <= hi -> hi <= zlen s ->
  slice2 s lo hi = Ok (take (Z.to_nat (hi - lo)) (drop (Z.to_nat lo) s)).
Proof. intros. unfold slice2. repeat zcase; try done; lia. Qed.
End slices.

(** The first element without a property splits a list in one way. *)
Lemma first_split_unique {A} (P : A -> Prop) l x r l' x' r' :
  l ++ x :: r = l' ++ x' :: r' -> Forall P l -> ~ P x -> Forall P l' -> ~ P x' -> l = l' /\ x = x' /\ r = r'.
Proof.
  revert l'. induction l as [|y l IH]; intros [|y' l'] E Hl Hx Hl' Hx'; simplify_eq/=; try done.
  - by apply Forall_cons in Hl' as [? _].
  - by apply Forall_cons in Hl as [? _].
  - apply Forall_cons in Hl as [_ Hl]. apply Forall_cons in Hl' as [_ Hl'].
    destruct (IH l') as (-> & -> & ->); done.
Qed.
