(* ===== verification/RaftPB.v ===== *)
(** * raftpb: the messages of the raft package

    The structs and enums of [src/raft/raftpb/raft.pb.go], the encoded sizes
    the raft package reads off them, and [limitSize] of [src/raft/util.go],
    the only place where raft looks at a size.  A [[]byte] that may be nil is
    an [option (list Z)]; an enum is an inductive with one more constructor
    for the numbers the wire format lets through without a name. *)

From S2P Require Import Prelude.

(** ** Enums *)

Inductive EntryType : Type :=
| EntryNormal
| EntryConfChange
| EntryType_other (n : Z).

Inductive MessageType : Type :=
| MsgHup
| MsgBeat
| MsgProp
| MsgApp
| MsgAppResp
| MsgVote
| MsgVoteResp
| MsgSnap
| MsgHeartbeat
| MsgHeartbeatResp
| MsgUnreachable
| MsgSnapStatus
| MsgCheckQuorum
| MessageType_other (n : Z).

Inductive ConfChangeType : Type :=
| ConfChangeAddNode
| ConfChangeRemoveNode
| ConfChangeUpdateNode
| ConfChangeType_other (n : Z).

#[export] Instance EntryType_eq_dec : EqDecision EntryType.
Proof. solve_decision. Defined.
#[export] Instance MessageType_eq_dec : EqDecision MessageType.
Proof. solve_decision. Defined.
#[export] Instance ConfChangeType_eq_dec : EqDecision ConfChangeType.
Proof. solve_decision. Defined.

(** The number of an enum value, and the value with a given number. *)
Definition EntryType_num (t : EntryType) : Z :=
  match t with EntryNormal => 0 | EntryConfChange => 1 | EntryType_other n => n end.

Definition EntryType_of (n : Z) : EntryType :=
  if n =? 0 then EntryNormal else if n =? 1 then EntryConfChange else EntryType_other n.

(** ** Structs *)

Record Entry : Type := mkEntry {
  eType : EntryType;
  eTerm : Z;
  eIndex : Z;
  eData : option (list Z);
  eXXX_unrecognized : option (list Z)
}.

Record ConfState : Type := mkConfState {
  csNodes : list Z;
  csXXX_unrecognized : option (list Z)
}.

Record SnapshotMetadata : Type := mkSnapshotMetadata {
  smConfState : ConfState;
  smIndex : Z;
  smTerm : Z;
  smXXX_unrecognized : option (list Z)
}.

Record Snapshot : Type := mkSnapshot {
  sData : option (list Z);
  sMetadata : SnapshotMetadata;
  sXXX_unrecognized : option (list Z)
}.

Record Message : Type := mkMessage {
  mType : MessageType;
  mTo : Z;
  mFrom : Z;
  mTerm : Z;
  mLogTerm : Z;
  mIndex : Z;
  mEntries : list Entry;
  mCommit : Z;
  mSnapshot : Snapshot;
  mReject : bool;
  mRejectHint : Z;
  mXXX_unrecognized : option (list Z)
}.

Record HardState : Type := mkHardState {
  hsTerm : Z;
  hsVote : Z;
  hsCommit : Z;
  hsXXX_unrecognized : option (list Z)
}.

Record ConfChange : Type := mkConfChange {
  ccID : Z;
  ccType : ConfChangeType;
  ccNodeID : Z;
  ccContext : option (list Z);
  ccXXX_unrecognized : option (list Z)
}.

#[export] Instance Entry_eq_dec : EqDecision Entry.
Proof. solve_decision. Defined.
#[export] Instance ConfState_eq_dec : EqDecision ConfState.
Proof. solve_decision. Defined.
#[export] Instance SnapshotMetadata_eq_dec : EqDecision SnapshotMetadata.
Proof. solve_decision. Defined.
#[export] Instance Snapshot_eq_dec : EqDecision Snapshot.
Proof. solve_decision. Defined.
#[export] Instance Message_eq_dec : EqDecision Message.
Proof. solve_decision. Defined.

#[export] Instance eta_Entry : Eta Entry := fun r =>
  mkEntry (eType r) (eTerm r) (eIndex r) (eData r) (eXXX_unrecognized r).
#[export] Instance eta_ConfState : Eta ConfState := fun r =>
  mkConfState (csNodes r) (csXXX_unrecognized r).
#[export] Instance eta_SnapshotMetadata : Eta SnapshotMetadata := fun r =>
  mkSnapshotMetadata (smConfState r) (smIndex r) (smTerm r) (smXXX_unrecognized r).
#[export] Instance eta_Snapshot : Eta Snapshot := fun r =>
  mkSnapshot (sData r) (sMetadata r) (sXXX_unrecognized r).
#[export] Instance eta_Message : Eta Message := fun r =>
  mkMessage (mType r) (mTo r) (mFrom r) (mTerm r) (mLogTerm r) (mIndex r)
    (mEntries r) (mCommit r) (mSnapshot r) (mReject r) (mRejectHint r)
    (mXXX_unrecognized r).
#[export] Instance eta_HardState : Eta HardState := fun r =>
  mkHardState (hsTerm r) (hsVote r) (hsCommit r) (hsXXX_unrecognized r).
#[export] Instance eta_ConfChange : Eta ConfChange := fun r =>
  mkConfChange (ccID r) (ccType r) (ccNodeID r) (ccContext r) (ccXXX_unrecognized r).

(** The zero values Go gives an uninitialised struct. *)
Definition Entry0 : Entry := mkEntry EntryNormal 0 0 None None.
Definition ConfState0 : ConfState := mkConfState [] None.
Definition SnapshotMetadata0 : SnapshotMetadata := mkSnapshotMetadata ConfState0 0 0 None.
Definition Snapshot0 : Snapshot := mkSnapshot None SnapshotMetadata0 None.
Definition Message0 : Message :=
  mkMessage MsgHup 0 0 0 0 0 [] 0 Snapshot0 false 0 None.
Definition HardState0 : HardState := mkHardState 0 0 0 None.
Definition ConfChange0 : ConfChange := mkConfChange 0 ConfChangeAddNode 0 None None.

(** ** Encoded sizes *)

(** [sovRaft]: the length of a varint.  Seven bits go per round, so ten rounds
    empty any 64-bit number; [encodeVarint_len] of [Proto] relates it to the
    bytes written. *)
Fixpoint sovRaft_loop (fuel : nat) (x : Z) : Z :=
  match fuel with
  | O => 0
  | S f => let x' := Z.shiftr x 7 in
           if x' =? 0 then 1 else 1 + sovRaft_loop f x'
  end.

Definition sovRaft (x : Z) : Z := sovRaft_loop 10 x.

Definition size_unrecognized (u : option (list Z)) : Z :=
  match u with Some b => zlen b | None => 0 end.

(** [1 + l + sovRaft(uint64(l))] for a field that is a byte string. *)
Definition size_bytes (d : option (list Z)) : Z :=
  match d with Some b => 1 + zlen b + sovRaft (zlen b) | None => 0 end.

(** [uint64(m.Type)] sign-extends the [int32]. *)
Definition Entry_Size (m : Entry) : Z :=
  (1 + sovRaft (u64 (EntryType_num (eType m)))) +
  (1 + sovRaft (eTerm m)) +
  (1 + sovRaft (eIndex m)) +
  size_bytes (eData m) +
  size_unrecognized (eXXX_unrecognized m).

Lemma sovRaft_loop_pos f x : (0 < f)%nat -> 1 <= sovRaft_loop f x.
Proof.
  revert x. induction f as [|f IH]; intros x Hf; [lia|]. simpl. zcase; [lia|].
  destruct f as [|f]; [simpl; lia|]. specialize (IH (Z.shiftr x 7)). lia.
Qed.

Lemma sovRaft_loop_le f x : sovRaft_loop f x <= Z.of_nat f.
Proof. revert x. induction f as [|f IH]; intros x; simpl; [done|]. specialize (IH (Z.shiftr x 7)). zcase; lia. Qed.

Lemma sovRaft_pos x : 1 <= sovRaft x.
Proof. apply sovRaft_loop_pos. lia. Qed.

Lemma Entry_Size_pos e : 0 < Entry_Size e.
Proof.
  unfold Entry_Size, size_bytes, size_unrecognized.
  pose proof (sovRaft_pos (u64 (EntryType_num (eType e)))).
  pose proof (sovRaft_pos (eTerm e)). pose proof (sovRaft_pos (eIndex e)).
  destruct (eData e) as [d|]; [pose proof (sovRaft_pos (zlen d))|];
    destruct (eXXX_unrecognized e); lia.
Qed.

(** ** [limitSize] *)

(** The loop of [limitSize] from [limit] on: [size] is the running total, kept
    as the 64-bit number the comparison reads. *)
Fixpoint limitSize_loop (maxSize size : Z) (ents : list Entry) : list Entry :=
  match ents with
  | [] => []
  | e :: es =>
      let size' := u64 (size + Entry_Size e) in
      if maxSize <? size' then [] else e :: limitSize_loop maxSize size' es
  end.

Definition limitSize (ents : list Entry) (maxSize : Z) : list Entry :=
  match ents with
  | [] => []
  | e :: es => e :: limitSize_loop maxSize (u64 (Entry_Size e)) es
  end.

Definition noLimit : Z := MaxUint64.

Lemma limitSize_loop_noLimit size ents : limitSize_loop noLimit size ents = ents.
Proof.
  revert size. induction ents as [|e es IH]; intros size; simpl; [done|].
  pose proof (u64_range (size + Entry_Size e)). zcase; [unfold noLimit in *; lia|].
  by rewrite IH.
Qed.

Lemma limitSize_noLimit ents : limitSize ents noLimit = ents.
Proof. destruct ents as [|e es]; simpl; [done|]. by rewrite limitSize_loop_noLimit. Qed.

Lemma limitSize_loop_prefix maxSize size ents : limitSize_loop maxSize size ents `prefix_of` ents.
Proof.
  revert size. induction ents as [|e es IH]; intros size; simpl; [done|].
  zcase; [apply prefix_nil|]. by apply prefix_cons.
Qed.

Lemma limitSize_prefix maxSize ents : limitSize ents maxSize `prefix_of` ents.
Proof.
  destruct ents; simpl; [done|]. apply prefix_cons, limitSize_loop_prefix.
Qed.

Lemma limitSize_nonempty maxSize ents : ents <> [] -> limitSize ents maxSize <> [].
Proof. by destruct ents. Qed.

Definition total_size (ents : list Entry) : Z := foldr (fun e n => Entry_Size e + n) 0 ents.

Lemma total_size_nonneg ents : 0 <= total_size ents.
Proof. induction ents as [|e es IH]; simpl; [lia|]. pose proof (Entry_Size_pos e). lia. Qed.

Lemma limitSize_loop_bound maxSize size ents :
  0 <= size -> size + total_size ents < two64 -> size <= maxSize ->
  size + total_size (limitSize_loop maxSize size ents) <= maxSize.
Proof.
  revert size. induction ents as [|e es IH]; intros size Hs Ht Hm; simpl in *; [lia|].
  pose proof (Entry_Size_pos e). pose proof (total_size_nonneg es). u64_simp.
  zcase; simpl; [lia|]. specialize (IH (size + Entry_Size e)). lia.
Qed.

(** The result fits in [maxSize], except that one entry is always returned. *)
Lemma limitSize_bound maxSize ents :
  total_size ents < two64 ->
  total_size (limitSize ents maxSize) <= maxSize \/ length (limitSize ents maxSize) = 1%nat
  \/ ents = [].
Proof.
  destruct ents as [|e es]; intros Ht; simpl in *; [auto|].
  pose proof (Entry_Size_pos e). pose proof (total_size_nonneg es). u64_simp.
  destruct (decide (Entry_Size e <= maxSize)) as [Hle|Hgt].
  - left. apply limitSize_loop_bound; lia.
  - right; left. f_equal. destruct es as [|e' es]; simpl in *; [done|].
    pose proof (Entry_Size_pos e'). pose proof (total_size_nonneg es). u64_simp.
    zcase; [done|lia].
Qed.

#[export] Hint Rewrite limitSize_noLimit : raft.
