(* ===== verification/Proto.v ===== *)
(** * Protocol buffers: what the generated code inlines

    The [Marshal], [Size] and [Unmarshal] methods of
    [src/raft/raftpb/raft.pb.go] are generated and repeat one pattern: varint
    loops, length-delimited fields, a loop over the fields that keeps unknown
    ones.  The pattern is modelled here once; [RaftCodec] instantiates it.

    Bytes are numbers below 256; positions and lengths are Go's [int], 64-bit
    and signed, with wrap-around written out, because the position a length
    field leads to may overflow.  Loops carry a fuel; [DFuel] marks running
    out of it and is shown not to occur. *)

From S2P Require Import Prelude RaftPB.

Inductive perror : Type :=
| ErrIntOverflow
| ErrUnexpectedEOF
| ErrInvalidLength
| ErrEndGroup
| ErrIllegalTag
| ErrWrongWireType
| ErrIllegalWireType.

(** A decoder returns a value or an error, or panics. *)
Inductive dec (A : Type) : Type :=
| DOk (a : A)
| DErr (e : perror)
| DPanic
| DFuel.
Arguments DOk {_} _.
Arguments DErr {_} _.
Arguments DPanic {_}.
Arguments DFuel {_}.

Definition dbind {A B} (m : dec A) (f : A -> dec B) : dec B :=
  match m with DOk a => f a | DErr e => DErr e | DPanic => DPanic | DFuel => DFuel end.

Notation "'let?' x := m 'in' k" := (dbind m (fun x => k))
  (at level 10, x name, m at level 100, k at level 200) : go_scope.
Notation "'let?' ' p := m 'in' k" := (dbind m (fun x => match x with p => k end))
  (at level 10, p strict pattern, m at level 100, k at level 200) : go_scope.

(** Conversions to [int] (64 bits) and [int32]. *)
Definition i64 (z : Z) : Z := (z + 9223372036854775808) mod two64 - 9223372036854775808.
Definition i32 (z : Z) : Z := (z + 2147483648) mod 4294967296 - 2147483648.
Arguments i64 : simpl never.
Arguments i32 : simpl never.

(** ** Varints *)

(** [for shift := uint(0); ; shift += 7 { ... }]; [wrap] is the conversion to
    the type of the variable the bits are or-ed into. *)
Fixpoint varint_loop (fuel : nat) (wrap : Z -> Z) (data : list Z) (i shift acc : Z) : dec (Z * Z) :=
  match fuel with
  | O => DFuel
  | S f =>
      if shift >=? 64 then DErr ErrIntOverflow else
      if i >=? zlen data then DErr ErrUnexpectedEOF else
      match at_ data i with
      | Panic _ => DPanic
      | Ok b =>
          let acc := Z.lor acc (wrap (Z.shiftl (Z.land b 127) shift)) in
          if b <? 128 then DOk (acc, i + 1) else varint_loop f wrap data (i + 1) (shift + 7) acc
      end
  end.

(** Ten rounds reach [shift >= 64]. *)
Definition varint (wrap : Z -> Z) (data : list Z) (i : Z) : dec (Z * Z) := varint_loop 11 wrap data i 0 0.

(** [encodeVarintRaft] *)
Fixpoint encodeVarint_loop (fuel : nat) (v : Z) : list Z :=
  match fuel with
  | O => []
  | S f => if v >=? 128 then Z.lor (Z.land v 127) 128 :: encodeVarint_loop f (Z.shiftr v 7) else [v]
  end.

Definition encodeVarint (v : Z) : list Z := encodeVarint_loop 10 v.

(** ** Length-delimited fields *)

(** The length, the check that it is not negative, the end position and the
    check against the end of the data; then [data[iNdEx:postIndex]]. *)
Definition delimited (data : list Z) (i : Z) : dec (list Z * Z) :=
  let? '(len, i) := varint i64 data i in
  if len <? 0 then DErr ErrInvalidLength else
  let postIndex := i64 (i + len) in
  if postIndex >? zlen data then DErr ErrUnexpectedEOF else
  match slice2 data i postIndex with
  | Panic _ => DPanic
  | Ok bytes => DOk (bytes, postIndex)
  end.

(** ** Skipping an unknown field: [skipRaft] *)

Fixpoint skip (fuel : nat) (data : list Z) : dec Z :=
  match fuel with
  | O => DFuel
  | S f =>
      if negb (0 <? zlen data) then DPanic else
      let? '(wire, i) := varint u64 data 0 in
      let wireType := Z.land wire 7 in
      if wireType =? 0 then let? '(_, i) := varint u64 data i in DOk i else
      if wireType =? 1 then DOk (i64 (i + 8)) else
      if wireType =? 2 then
        let? '(len, i) := varint i64 data i in
        if len <? 0 then DErr ErrInvalidLength else DOk (i64 (i + len)) else
      if wireType =? 3 then skip_group f data i else
      if wireType =? 4 then DOk i else
      if wireType =? 5 then DOk (i64 (i + 4)) else DErr ErrIllegalWireType
  end
(** the loop over the fields of a group, from [start] on *)
with skip_group (fuel : nat) (data : list Z) (start : Z) : dec Z :=
  match fuel with
  | O => DFuel
  | S f =>
      let? '(inner, i) := varint u64 data start in
      if Z.land inner 7 =? 4 then DOk i else
      match slice_from data start with
      | Panic _ => DPanic
      | Ok rest => let? next := skip f rest in skip_group f data (i64 (start + next))
      end
  end.

Definition skipRaft (data : list Z) : dec Z := skip (S (2 * length data)) data.

(** ** The loop over the fields of a message *)

Section fields.
  Context {M : Type}.
  (** one case of [switch fieldNum]: [None] for an unknown field *)
  Context (field : Z -> Z -> list Z -> Z -> M -> dec (option (M * Z))).
  (** [m.XXX_unrecognized = append(m.XXX_unrecognized, ...)] *)
  Context (keep : list Z -> M -> M).

Definition unknown (data : list Z) (preIndex : Z) (m : M) : dec (M * Z) :=
  match slice_from data preIndex with
  | Panic _ => DPanic
  | Ok rest =>
      let? skippy := skipRaft rest in
      if skippy <? 0 then DErr ErrInvalidLength else
      let next := i64 (preIndex + skippy) in
      if next >? zlen data then DErr ErrUnexpectedEOF else
      match slice2 data preIndex next with
      | Panic _ => DPanic
      | Ok bytes => DOk (keep bytes m, next)
      end
  end.

Fixpoint fields (fuel : nat) (data : list Z) (i : Z) (m : M) : dec M :=
  match fuel with
  | O => DFuel
  | S f =>
      if i <? zlen data then
        let? '(wire, j) := varint u64 data i in
        let fieldNum := i32 (Z.shiftr wire 3) in
        let wireType := Z.land wire 7 in
        if wireType =? 4 then DErr ErrEndGroup else
        if fieldNum <=? 0 then DErr ErrIllegalTag else
        let? known := field fieldNum wireType data j m in
        match known with
        | Some (m', j') => fields f data j' m'
        | None => let? '(m', j') := unknown data i m in fields f data j' m'
        end
      else if i >? zlen data then DErr ErrUnexpectedEOF else DOk m
  end.

Definition unmarshal (data : list Z) (m : M) : dec M := fields (S (length data)) data 0 m.
End fields.

Definition keep_unrecognized (old : option (list Z)) (bytes : list Z) : option (list Z) :=
  Some (default [] old ++ bytes).

(** The cases of the generated switches. *)
Section cases.
  Context {M : Type}.

Definition case_varint (wrap : Z -> Z) (set : Z -> M) (wireType : Z) (data : list Z) (i : Z)
  : dec (option (M * Z)) :=
  if negb (wireType =? 0) then DErr ErrWrongWireType else
  let? '(v, i) := varint wrap data i in DOk (Some (set v, i)).

Definition case_bytes (set : list Z -> M) (wireType : Z) (data : list Z) (i : Z) : dec (option (M * Z)) :=
  if negb (wireType =? 2) then DErr ErrWrongWireType else
  let? '(bytes, i) := delimited data i in DOk (Some (set bytes, i)).

Definition case_message {N : Type} (un : list Z -> dec N) (set : N -> M) (wireType : Z) (data : list Z) (i : Z)
  : dec (option (M * Z)) :=
  if negb (wireType =? 2) then DErr ErrWrongWireType else
  let? '(bytes, i) := delimited data i in
  let? n := un bytes in DOk (Some (set n, i)).
End cases.

(** ** Positions

    [at_pos data i s]: what [data] holds from position [i] on is [s]. *)

Definition at_pos (data : list Z) (i : Z) (s : list Z) : Prop := exists p, data = p ++ s /\ i = zlen p.

Create HintDb codec.

Lemma at_pos_0 s : at_pos s 0 s.
Proof. by exists []. Qed.

Lemma at_pos_le data i s : at_pos data i s -> 0 <= i /\ i + zlen s = zlen data.
Proof. intros (p & -> & ->). rewrite length_app. lia. Qed.

Lemma at_pos_app data i b s : at_pos data i (b ++ s) -> at_pos data (i + zlen b) s.
Proof.
  intros (p & -> & ->). exists (p ++ b). rewrite <- app_assoc. split; [done|].
  rewrite length_app. lia.
Qed.

Lemma at_pos_cons data i b s :
  at_pos data i (b :: s) -> at_ data i = Ok b /\ i < zlen data /\ at_pos data (i + 1) s.
Proof.
  intros H. pose proof (at_pos_le _ _ _ H) as [? Hl]. apply (at_pos_app _ _ [b]) in H as Ht.
  split_and!; [|rewrite length_cons in Hl; lia|exact Ht].
  destruct H as (p & -> & ->). apply at_Ok. split; [done|].
  by rewrite Nat2Z.id, list_lookup_middle.
Qed.

Lemma at_pos_slice data i b s : at_pos data i (b ++ s) -> slice2 data i (i + zlen b) = Ok b.
Proof.
  intros H. pose proof (at_pos_le _ _ _ H) as [? Hl]. rewrite length_app in Hl.
  rewrite slice2_Ok by lia. f_equal.
  destruct H as (p & -> & ->). replace (Z.to_nat (_ + _ - _)) with (length b) by lia.
  rewrite Nat2Z.id, drop_app_length. apply take_app_length.
Qed.

(** ** Wrapping is bitwise *)

(** A conversion to a machine integer type acts on each bit position by itself,
    so it commutes with the [|=] of the decoding loops. *)
Definition bitwise (wrap : Z -> Z) : Prop :=
  wrap 0 = 0 /\ forall a b, wrap (Z.lor a b) = Z.lor (wrap a) (wrap b).

Lemma u64_bitwise : bitwise u64.
Proof.
  split; [done|]. intros a b. unfold u64. change two64 with (2 ^ 64).
  rewrite <- !Z.land_ones by lia. apply Z.land_lor_distr_l.
Qed.

Lemma high_bits k x n : 0 <= k <= n -> - 2 ^ k <= x < 2 ^ k -> Z.testbit x n = (x <? 0).
Proof.
  intros Hk Hx. assert (2 ^ k <= 2 ^ n) by (apply Z.pow_le_mono_r; lia).
  rewrite Z.testbit_odd, Z.shiftr_div_pow2 by lia. zcase.
  - replace (x / 2 ^ n) with (-1); [done|]. apply (Z.div_unique_pos x (2 ^ n) (-1) (x + 2 ^ n)); lia.
  - by rewrite Z.div_small by lia.
Qed.

Lemma signed_bits w z n :
  0 < w -> 0 <= n ->
  Z.testbit ((z + 2 ^ (w - 1)) mod 2 ^ w - 2 ^ (w - 1)) n = Z.testbit z (Z.min n (w - 1)).
Proof.
  intros Hw Hn. set (h := 2 ^ (w - 1)). set (x := (z + h) mod 2 ^ w - h).
  assert (2 ^ w = 2 * h) as Hh by (unfold h; rewrite <- Z.pow_succ_r by lia; f_equal; lia).
  assert (0 < h) by (unfold h; lia).
  assert (- h <= x < h) as Hx.
  { unfold x. pose proof (Z.mod_pos_bound (z + h) (2 ^ w)). lia. }
  assert (forall k, 0 <= k < w -> Z.testbit x k = Z.testbit z k) as Hlow.
  { intros k Hk. rewrite <- (Z.mod_pow2_bits_low x w k), <- (Z.mod_pow2_bits_low z w k) by lia. f_equal.
    unfold x. rewrite Zminus_mod_idemp_l. f_equal. lia. }
  destruct (decide (n < w)).
  - rewrite Hlow by lia. destruct (decide (n = w - 1)); f_equal; lia.
  - rewrite Z.min_r by lia. rewrite <- (Hlow (w - 1)) by lia.
    rewrite !(high_bits (w - 1)); unfold h in *; lia || done.
Qed.

Lemma signed_bitwise w : 0 < w -> bitwise (fun z => (z + 2 ^ (w - 1)) mod 2 ^ w - 2 ^ (w - 1)).
Proof.
  intros Hw. split.
  - apply Z.bits_inj'. intros n Hn. by rewrite signed_bits, !Z.bits_0 by lia.
  - intros a b. apply Z.bits_inj'. intros n Hn. rewrite Z.lor_spec, !signed_bits by lia. apply Z.lor_spec.
Qed.

Lemma i64_bitwise : bitwise i64.
Proof. exact (signed_bitwise 64 ltac:(lia)). Qed.

Lemma i32_bitwise : bitwise i32.
Proof. exact (signed_bitwise 32 ltac:(lia)). Qed.

#[export] Hint Resolve u64_bitwise i64_bitwise i32_bitwise : codec.

Lemma i64_small z : - 9223372036854775808 <= z < 9223372036854775808 -> i64 z = z.
Proof. intros. unfold i64. rewrite Z.mod_small; lia. Qed.

(** An [int64] survives the conversion to [uint64] and back. *)
Lemma i64_u64 z : -9223372036854775808 <= z < 9223372036854775808 -> i64 (u64 z) = z.
Proof.
  intros Hz. unfold i64, u64. rewrite Z.add_mod_idemp_l by done.
  rewrite Z.mod_small by lia. lia.
Qed.

(** An [int32] survives the way over the 64-bit wire format. *)
Lemma i32_u64 z : - 2147483648 <= z < 2147483648 -> i32 (u64 z) = z.
Proof.
  intros. unfold i32, u64.
  replace ((z mod two64 + 2147483648) mod 4294967296) with ((z + 2147483648) mod 4294967296).
  - rewrite Z.mod_small; lia.
  - rewrite <- (Zplus_mod_idemp_l (z mod two64)). change two64 with (4294967296 * 4294967296).
    rewrite Z.mod_mod_divide by by exists 4294967296. by rewrite Zplus_mod_idemp_l.
Qed.

(** ** Varints round trip *)

Lemma encodeVarint_loop_len f v : 0 <= v -> zlen (encodeVarint_loop f v) = sovRaft_loop f v.
Proof.
  revert v. induction f as [|f IH]; intros v Hv; simpl; [done|].
  rewrite Z.shiftr_div_pow2 by lia. change (2 ^ 7) with 128.
  destruct (decide (v < 128)).
  - rewrite Z.div_small by lia. by repeat (zif; [lia|]).
  - assert (1 <= v / 128) by (apply Z.div_le_lower_bound; lia).
    zif; [|lia]. zif; [lia|]. rewrite length_cons, <- IH by lia. lia.
Qed.

Lemma encodeVarint_loop_small f v : v < 128 -> encodeVarint_loop (S f) v = [v].
Proof. intros. cbn [encodeVarint_loop]. by zif; [lia|]. Qed.

(** [sovRaft] is the length of what [encodeVarintRaft] writes. *)
Lemma encodeVarint_len v : 0 <= v -> zlen (encodeVarint v) = sovRaft v.
Proof. apply encodeVarint_loop_len. Qed.

(** The low seven bits and the rest. *)
Lemma split7 v s : 0 <= s ->
  Z.shiftl v s = Z.lor (Z.shiftl (Z.land v 127) s) (Z.shiftl (Z.shiftr v 7) (s + 7)).
Proof.
  intros Hs. apply Z.bits_inj'. intros n Hn. rewrite Z.lor_spec, !Z.shiftl_spec by lia.
  destruct (decide (n < s)); [by rewrite !(Z.testbit_neg_r _ (_ - _)) by lia|].
  rewrite Z.land_spec. change 127 with (Z.ones 7).
  destruct (decide (n < s + 7)).
  - rewrite (Z.testbit_neg_r _ (n - (s + 7))) by lia. rewrite Z.ones_spec_low by lia. by rewrite andb_true_r, orb_false_r.
  - rewrite Z.shiftr_spec, Z.ones_spec_high by lia. rewrite !andb_false_r. simpl. f_equal. lia.
Qed.

Lemma varint_loop_encode wrap f g v data i s acc rest :
  bitwise wrap -> (0 < f <= g)%nat -> 0 <= v < 2 ^ (7 * Z.of_nat f) -> 0 <= s -> s + 7 * (Z.of_nat f - 1) < 64 ->
  at_pos data i (encodeVarint_loop f v ++ rest) ->
  varint_loop g wrap data i s acc =
    DOk (Z.lor acc (wrap (Z.shiftl v s)), i + zlen (encodeVarint_loop f v)).
Proof.
  intros Hw. revert g v i s acc. induction f as [|f IH]; intros g v i s acc Hfg Hv Hs Hsf Hp; [lia|].
  destruct g as [|g]; [lia|]. cbn [encodeVarint_loop varint_loop] in *.
  zif; [lia|]. destruct (v >=? 128) eqn:Hv7.
  - cbn [app] in Hp. apply at_pos_cons in Hp as (Hb & Hi & Hp). rewrite Hb.
    zif; [lia|]. assert (128 <= Z.lor (Z.land v 127) 128) as Hge.
    { apply Z.ldiff_le; [rewrite Z.lor_nonneg, Z.land_nonneg; lia|]. apply Z.bits_inj'. intros n Hn.
      rewrite Z.ldiff_spec, Z.lor_spec, Z.bits_0. destruct (Z.testbit 128 n); [|done].
      by rewrite orb_true_r. }
    zif; [lia|]. assert (f <> 0)%nat by (intros ->; simpl in Hv; lia).
    erewrite IH; [|lia| |lia|lia|exact Hp].
    + rewrite length_cons. f_equal. f_equal; [|lia]. rewrite <- Z.lor_assoc, <- (proj2 Hw). do 2 f_equal.
      rewrite (split7 v s) by lia. do 2 f_equal. apply Z.bits_inj'. intros n Hn.
      rewrite !Z.land_spec, Z.lor_spec, Z.land_spec. destruct (decide (n = 7)) as [->|].
      { change (Z.testbit 127 7) with false. by rewrite !andb_false_r. }
      change 128 with (2 ^ 7). rewrite Z.pow2_bits_false by lia. rewrite orb_false_r.
      by destruct (Z.testbit 127 n), (Z.testbit v n).
    + rewrite Z.shiftr_div_pow2 by lia. split; [apply Z.div_pos; lia|]. apply Z.div_lt_upper_bound; [lia|].
      rewrite <- Z.pow_add_r by lia. replace (7 + 7 * Z.of_nat f) with (7 * Z.of_nat (S f)) by lia. lia.
  - cbn [app] in Hp. apply at_pos_cons in Hp as (Hb & Hi & Hp). rewrite Hb.
    zif; [lia|]. zif; [|lia]. do 4 f_equal. change 127 with (Z.ones 7).
    rewrite Z.land_ones by lia. by rewrite Z.mod_small by lia.
Qed.

Lemma varint_encode wrap v data i rest :
  bitwise wrap -> is_u64 v -> at_pos data i (encodeVarint v ++ rest) ->
  varint wrap data i = DOk (wrap v, i + zlen (encodeVarint v)).
Proof.
  intros Hw Hv Hp. unfold varint. erewrite varint_loop_encode; [|done| | |done| |exact Hp]; [|lia| |lia].
  - by rewrite Z.lor_0_l, Z.shiftl_0_r.
  - unfold is_u64 in Hv. change (2 ^ (7 * Z.of_nat 10)) with (2 ^ 70). lia.
Qed.

(** A tag is one byte. *)
Lemma varint_tag tag data i rest :
  0 <= tag < 128 -> at_pos data i (tag :: rest) ->
  varint u64 data i = DOk (tag, i + 1) /\ i < zlen data /\ at_pos data (i + 1) rest.
Proof.
  intros Ht Hp. assert (encodeVarint tag = [tag]) as He by (apply encodeVarint_loop_small; lia).
  pose proof (varint_encode u64 tag data i rest u64_bitwise) as Hv. rewrite He in Hv.
  apply at_pos_cons in Hp as Hc. rewrite Hv; [|unfold is_u64; lia|done].
  rewrite u64_small by lia. tauto.
Qed.

Lemma delimited_encode b data i rest :
  zlen data < 9223372036854775808 -> at_pos data i (encodeVarint (zlen b) ++ b ++ rest) ->
  delimited data i = DOk (b, i + zlen (encodeVarint (zlen b)) + zlen b).
Proof.
  intros Hd Hp. pose proof (at_pos_le _ _ _ Hp) as [Hi Hl]. rewrite !length_app in Hl.
  unfold delimited. rewrite (varint_encode i64 (zlen b) data i (b ++ rest)); [|apply i64_bitwise|unfold is_u64; lia|exact Hp].
  cbn [dbind]. apply at_pos_app in Hp. apply at_pos_slice in Hp.
  rewrite !i64_small by lia. zif; [lia|]. zif; [lia|]. by rewrite Hp.
Qed.

(** ** The field loop reads what was written

    [decodes s m m']: over the bytes [s], wherever they are in the data, the
    loop takes [m] to [m'], in at most one round for each byte. *)

Section decodes.
  Context {M : Type} (field : Z -> Z -> list Z -> Z -> M -> dec (option (M * Z))) (keep : list Z -> M -> M).

Definition decodes (s : list Z) (m m' : M) : Prop :=
  exists k, (k <= length s)%nat /\
    forall data i rest f, zlen data < 9223372036854775808 -> at_pos data i (s ++ rest) ->
      fields field keep (k + f) data i m = fields field keep f data (i + zlen s) m'.

Lemma decodes_nil m : decodes [] m m.
Proof. exists 0%nat. split; [done|]. intros. f_equal. simpl. lia. Qed.

Lemma decodes_app s1 s2 m1 m2 m3 : decodes s1 m1 m2 -> decodes s2 m2 m3 -> decodes (s1 ++ s2) m1 m3.
Proof.
  intros (k1 & Hk1 & H1) (k2 & Hk2 & H2). exists (k1 + k2)%nat. split; [rewrite length_app; lia|].
  intros data i rest f Hd Hp. rewrite <- app_assoc in Hp. rewrite <- Nat.add_assoc.
  erewrite H1 by done. apply at_pos_app in Hp. erewrite H2 by done. f_equal. rewrite length_app. lia.
Qed.

(** A list of fields of the same number is read element by element. *)
Lemma decodes_concat {A} (put : A -> list Z) (add : M -> A -> M) (P : A -> Prop) l m :
  (forall m a, P a -> decodes (put a) m (add m a)) -> Forall P l ->
  decodes (concat (put <$> l)) m (foldl add m l).
Proof.
  intros Hput Hl. revert m. induction Hl as [|a l Ha Hl IH]; intros m; simpl; [apply decodes_nil|].
  eapply decodes_app; [by apply Hput|apply IH].
Qed.

Lemma decodes_field tag num w s m m' :
  0 <= tag < 128 -> Z.land tag 7 = w -> w <> 4 -> i32 (Z.shiftr tag 3) = num -> 0 < num ->
  (forall data i rest, zlen data < 9223372036854775808 -> at_pos data i (s ++ rest) ->
     field num w data i m = DOk (Some (m', i + zlen s))) ->
  decodes (tag :: s) m m'.
Proof.
  intros Ht Hw Hw4 Hn Hn0 Hf. exists 1%nat. split; [simpl; lia|]. intros data i rest f Hd Hp.
  destruct (varint_tag tag data i (s ++ rest)) as (Hv & Hi & Hp'); [done|done|].
  cbn [fields Nat.add]. zif; [|lia]. rewrite Hv. cbn [dbind]. rewrite Hw, Hn.
  zif; [lia|]. zif; [lia|]. erewrite Hf by done. cbn [dbind]. f_equal. rewrite length_cons. lia.
Qed.

Lemma decodes_varint tag num wrap set v m :
  0 <= tag < 128 -> Z.land tag 7 = 0 -> i32 (Z.shiftr tag 3) = num -> 0 < num ->
  bitwise wrap -> is_u64 v ->
  (forall data i, field num 0 data i m = case_varint wrap set 0 data i) ->
  decodes (tag :: encodeVarint v) m (set (wrap v)).
Proof.
  intros Ht Hw Hn Hn0 Hb Hv Hf. eapply decodes_field; [done..|]. intros data i rest Hd Hp.
  rewrite Hf. unfold case_varint. change (negb (0 =? 0)) with false. cbv iota. by erewrite varint_encode by done.
Qed.

Lemma decodes_bytes tag num set b m :
  0 <= tag < 128 -> Z.land tag 7 = 2 -> i32 (Z.shiftr tag 3) = num -> 0 < num ->
  (forall data i, field num 2 data i m = case_bytes set 2 data i) ->
  decodes (tag :: encodeVarint (zlen b) ++ b) m (set b).
Proof.
  intros Ht Hw Hn Hn0 Hf. eapply decodes_field; [done..|]. intros data i rest Hd Hp.
  rewrite Hf. unfold case_bytes. change (negb (2 =? 2)) with false. cbv iota. rewrite <- app_assoc in Hp. erewrite delimited_encode by done. cbn [dbind].
  do 3 f_equal. rewrite length_app. lia.
Qed.

Lemma decodes_message {N} tag num (un : list Z -> dec N) set b n m :
  0 <= tag < 128 -> Z.land tag 7 = 2 -> i32 (Z.shiftr tag 3) = num -> 0 < num ->
  (zlen b < 9223372036854775808 -> un b = DOk n) ->
  (forall data i, field num 2 data i m = case_message un set 2 data i) ->
  decodes (tag :: encodeVarint (u64 (zlen b)) ++ b) m (set n).
Proof.
  intros Ht Hw Hn Hn0 Hu Hf. eapply decodes_field; [done..|]. intros data i rest Hd Hp.
  pose proof (at_pos_le _ _ _ Hp) as [? Hl]. rewrite !length_app in Hl. rewrite u64_small in * by lia.
  rewrite Hf. unfold case_message. change (negb (2 =? 2)) with false. cbv iota.
  rewrite <- app_assoc in Hp. erewrite delimited_encode by done. cbn [dbind].
  rewrite Hu by lia. cbn [dbind]. do 3 f_equal. rewrite length_app. lia.
Qed.

Lemma decodes_unmarshal s m m' :
  zlen s < 9223372036854775808 -> decodes s m m' -> unmarshal field keep s m = DOk m'.
Proof.
  intros Hs (k & Hk & H). unfold unmarshal. replace (S (length s)) with (k + S (length s - k))%nat by lia.
  erewrite H; [|done|rewrite app_nil_r; apply at_pos_0].
  cbn [fields]. rewrite Z.add_0_l. zif; [lia|]. by zif; [lia|].
Qed.
End decodes.

(** ** The loops end

    A decoder never runs out of its fuel. *)

Definition ends {A} (d : dec A) : Prop := d <> DFuel.

Lemma ends_bind {A B} (d : dec A) (f : A -> dec B) :
  ends d -> (forall a, d = DOk a -> ends (f a)) -> ends (dbind d f).
Proof. unfold ends. destruct d; naive_solver. Qed.

Lemma bind_DOk {A B} (d : dec A) (f : A -> dec B) b :
  dbind d f = DOk b -> exists a, d = DOk a /\ f a = DOk b.
Proof. destruct d; naive_solver. Qed.

Lemma varint_loop_ends f wrap data i s acc : 64 <= s + 7 * (Z.of_nat f - 1) -> (0 < f)%nat ->
  ends (varint_loop f wrap data i s acc).
Proof.
  revert i s acc. induction f as [|f IH]; intros i s acc Hs Hf; [lia|]. cbn [varint_loop].
  zif; [done|]. zif; [done|]. destruct (at_ data i); [|done]. zif; [done|]. apply IH; lia.
Qed.

Lemma varint_ends wrap data i : ends (varint wrap data i).
Proof. apply varint_loop_ends; lia. Qed.

Lemma varint_neg wrap data i : i < 0 -> varint wrap data i = DPanic.
Proof.
  intros Hi. unfold varint. cbn [varint_loop]. zif; [lia|]. zif; [lia|].
  destruct (at_ data i) eqn:Ha; [|done]. apply at_Ok in Ha. lia.
Qed.

Lemma varint_loop_pos f wrap data i s acc v j :
  varint_loop f wrap data i s acc = DOk (v, j) -> 0 <= i < j /\ j <= zlen data.
Proof.
  revert i s acc. induction f as [|f IH]; intros i s acc; [done|]. cbn [varint_loop].
  zif; [done|]. zif; [done|]. destruct (at_ data i) eqn:Ha; [|done]. apply at_Ok in Ha as [? _].
  zif; [intros [= <- <-]; lia|]. intros [? ?]%IH. lia.
Qed.

Lemma varint_pos wrap data i v j : varint wrap data i = DOk (v, j) -> 0 <= i < j /\ j <= zlen data.
Proof. apply varint_loop_pos. Qed.

Lemma i64_cases z : 0 <= z < two64 ->
  i64 z = z /\ z < 9223372036854775808 \/ i64 z = z - two64 /\ 9223372036854775808 <= z.
Proof.
  intros Hz. unfold i64. destruct (decide (z < 9223372036854775808)).
  - left. rewrite Z.mod_small; lia.
  - right. split; [|lia]. rewrite <- (Z_mod_plus_full _ (-1)), Z.mod_small; lia.
Qed.

(** The wrapped end position passes the check and the slice panics. *)
Lemma delimited_overflow data i len rest :
  len < 9223372036854775808 <= i + sovRaft len + len -> i < two64 - 9223372036854775818 ->
  at_pos data i (encodeVarint len ++ rest) -> delimited data i = DPanic.
Proof.
  intros [Hlt Hge] Hi Hp. pose proof (sovRaft_loop_le 10 len). fold (sovRaft len) in *.
  unfold delimited. rewrite (varint_encode i64 len data i rest); [|apply i64_bitwise|unfold is_u64; lia|done].
  cbn [dbind]. rewrite encodeVarint_len, i64_small by lia. zif; [lia|].
  destruct (i64_cases (i + sovRaft len + len)) as [[? ?]|[-> ?]]; [lia..|].
  zif; [lia|]. unfold slice2. repeat zcase; done || lia.
Qed.

(** No data is longer than this; a length field may still say so. *)
Notation max_data := 2305843009213693952.

Lemma i64_forward i n : 0 <= i <= max_data + 8 -> 0 <= n < 9223372036854775808 -> 1 <= i + n ->
  1 <= i64 (i + n) \/ i64 (i + n) <= i - 9223372036854775808.
Proof. intros. destruct (i64_cases (i + n)) as [[-> ?]|[-> ?]]; lia. Qed.

Lemma i64_range z : - 9223372036854775808 <= i64 z < 9223372036854775808.
Proof. unfold i64. pose proof (Z.mod_pos_bound (z + 9223372036854775808) two64). lia. Qed.

(** What a successful skip says: the position moves on, unless it overflowed,
    and then it is far below zero. *)
Definition moves (data : list Z) (n : Z) : Prop :=
  1 <= n < 9223372036854775808 \/ - 9223372036854775808 <= n <= zlen data + 8 - 9223372036854775808.

Lemma moves_i64 data i n : zlen data < max_data -> 0 < i <= zlen data -> 0 <= n < 9223372036854775808 ->
  moves data (i64 (i + n)).
Proof. intros. pose proof (i64_range (i + n)). pose proof (i64_forward i n). unfold moves. lia. Qed.

Lemma varint_loop_i64 f data i s acc v j :
  i64 acc = acc -> varint_loop f i64 data i s acc = DOk (v, j) -> v < 9223372036854775808.
Proof.
  revert i s acc. induction f as [|f IH]; intros i s acc Hacc; [done|]. cbn [varint_loop].
  zif; [done|]. zif; [done|]. destruct (at_ data i) as [b|]; [|done].
  assert (i64 (Z.lor acc (i64 (Z.shiftl (Z.land b 127) s))) = Z.lor acc (i64 (Z.shiftl (Z.land b 127) s))) as Hl.
  { rewrite (proj2 i64_bitwise), Hacc. f_equal. apply i64_small, i64_range. }
  zif; [|by apply IH]. intros [= <- <-]. rewrite <- Hl. apply i64_range.
Qed.

Lemma varint_i64 data i v j : varint i64 data i = DOk (v, j) -> v < 9223372036854775808.
Proof. by apply varint_loop_i64. Qed.

Lemma skip_group_moves f data start n :
  zlen data < max_data -> skip_group f data start = DOk n -> moves data n.
Proof.
  intros Hd. revert start. induction f as [|f IH]; intros start; [done|]. cbn [skip_group].
  intros ([inner i] & Hw%varint_pos & Hi)%bind_DOk. zif in Hi.
  - injection Hi as <-. unfold moves. lia.
  - destruct (slice_from data start); [|done]. by apply bind_DOk in Hi as (next & Hn & ?%IH).
Qed.

Lemma skip_moves f data n : zlen data < max_data -> skip f data = DOk n -> moves data n.
Proof.
  intros Hd. destruct f as [|f]; [done|]. cbn [skip]. zif; [|done].
  intros ([wire i] & Hw%varint_pos & Hi)%bind_DOk. repeat (zif in Hi; [|]); try done.
  - apply bind_DOk in Hi as ([? j] & Hj%varint_pos & [= <-]). unfold moves. lia.
  - injection Hi as <-. apply moves_i64; lia.
  - apply bind_DOk in Hi as ([len j] & Hj & Hn). zif in Hn; [done|]. injection Hn as <-.
    pose proof (varint_i64 _ _ _ _ Hj). apply varint_pos in Hj. apply moves_i64; lia.
  - by apply skip_group_moves in Hi.
  - injection Hi as <-. unfold moves. lia.
  - injection Hi as <-. apply moves_i64; lia.
Qed.

(** Each nested skip starts at least one byte later: two units of fuel per byte
    are enough. *)
Lemma skip_ends f : forall data, zlen data < max_data ->
  ((2 * length data + 1 <= f)%nat -> ends (skip f data)) /\
  (forall start, 1 <= start -> 2 * (zlen data - start) + 2 <= Z.of_nat f -> (0 < f)%nat ->
     ends (skip_group f data start)).
Proof.
  induction f as [|f IH]; intros data Hd; [split; intros; lia|]. split.
  - intros Hf. cbn [skip]. zif; [|done]. apply ends_bind; [apply varint_ends|].
    intros [wire i] Hi%varint_pos. repeat (zif; [|]); try done.
    + apply ends_bind; [apply varint_ends|]. by intros [].
    + apply ends_bind; [apply varint_ends|]. intros [len j] _. by zif.
    + apply IH; lia.
  - intros start Hs Hf _. cbn [skip_group]. apply ends_bind; [apply varint_ends|].
    intros [inner i] Hi%varint_pos. zif; [done|]. rewrite slice_from_Ok by lia.
    set (rest := drop (Z.to_nat start) data).
    assert (zlen rest = zlen data - start) as Hr by (unfold rest; rewrite length_drop; lia).
    apply ends_bind; [apply IH; lia|]. intros next Hn. apply skip_moves in Hn; [|lia].
    destruct Hn as [Hn|Hn].
    + destruct (i64_cases (start + next)) as [[-> ?]|[He ?]]; [lia| |].
      * apply IH; lia.
      * destruct f as [|f]; [lia|]. cbn [skip_group]. rewrite varint_neg by lia. done.
    + destruct f as [|f]; [lia|]. cbn [skip_group]. rewrite varint_neg; [done|]. rewrite i64_small; lia.
Qed.

Lemma skipRaft_ends data : zlen data < max_data -> ends (skipRaft data).
Proof. intros. apply skip_ends; [done|lia]. Qed.

(** What the loop needs of the cases of the switch. *)
Definition case_ends {M} (j : Z) (r : dec (option (M * Z))) : Prop :=
  ends r /\ forall m' j', r = DOk (Some (m', j')) -> j < j'.

Definition field_ends {M} (field : Z -> Z -> list Z -> Z -> M -> dec (option (M * Z))) : Prop :=
  forall num w data j m, zlen data < max_data -> case_ends j (field num w data j m).

Lemma slice2_bounds (s b : list Z) lo hi : slice2 s lo hi = Ok b -> 0 <= lo <= hi /\ zlen b = hi - lo /\ hi <= zlen s.
Proof.
  unfold slice2. repeat zcase; try done. simpl. intros [= <-]. rewrite length_take, length_drop. lia.
Qed.

Lemma delimited_ends data i : ends (delimited data i).
Proof.
  apply ends_bind; [apply varint_ends|]. intros [len j] _. zif; [done|]. zif; [done|].
  by destruct (slice2 data j _).
Qed.

Lemma delimited_pos data i b j : delimited data i = DOk (b, j) -> i < j /\ zlen b <= zlen data.
Proof.
  intros ([len k] & Hk%varint_pos & H)%bind_DOk. zif in H; [done|]. zif in H; [done|].
  destruct (slice2 data k _) eqn:Hs; [|done]. injection H as <- <-. apply slice2_bounds in Hs. lia.
Qed.

Section ends.
  Context {M : Type}.

Lemma case_varint_ends wrap (set : Z -> M) w data i : case_ends i (case_varint wrap set w data i).
Proof.
  unfold case_varint. zif; [|done]. split.
  - apply ends_bind; [apply varint_ends|]. by intros [].
  - intros m' j' ([v j] & Hv%varint_pos & [= <- <-])%bind_DOk. lia.
Qed.

Lemma case_bytes_ends (set : list Z -> M) w data i : case_ends i (case_bytes set w data i).
Proof.
  unfold case_bytes. zif; [|done]. split.
  - apply ends_bind; [apply delimited_ends|]. by intros [].
  - intros m' j' ([v j] & Hv%delimited_pos & [= <- <-])%bind_DOk. lia.
Qed.

Lemma case_message_ends {N} (un : list Z -> dec N) (set : N -> M) w data i :
  (forall b, zlen b < max_data -> ends (un b)) -> zlen data < max_data ->
  case_ends i (case_message un set w data i).
Proof.
  intros Hu Hd. unfold case_message. zif; [|done]. split.
  - apply ends_bind; [apply delimited_ends|]. intros [b j] [? ?]%delimited_pos.
    apply ends_bind; [apply Hu; lia|done].
  - intros m' j' ([b j] & Hv%delimited_pos & (n & _ & [= <- <-])%bind_DOk)%bind_DOk. lia.
Qed.

Lemma case_none_ends i : case_ends i (DOk (None : option (M * Z))).
Proof. done. Qed.

Context (field : Z -> Z -> list Z -> Z -> M -> dec (option (M * Z))) (keep : list Z -> M -> M).
Hypothesis Hfield : field_ends field.

Lemma unknown_ends data i m : zlen data < max_data -> ends (unknown keep data i m).
Proof using.
  intros Hd. unfold unknown. destruct (slice_from data i) as [rest|] eqn:Hr; [|done].
  assert (zlen rest <= zlen data).
  { revert Hr. unfold slice_from. repeat zcase; try done. simpl. intros [= <-]. rewrite length_drop. lia. }
  apply ends_bind; [apply skipRaft_ends; lia|]. intros n _. zif; [done|]. zif; [done|].
  by destruct (slice2 data i _).
Qed.

Lemma unknown_pos data i m m' j : zlen data < max_data -> unknown keep data i m = DOk (m', j) -> i < j.
Proof using.
  intros Hd. unfold unknown. destruct (slice_from data i) as [rest|] eqn:Hr; [|done].
  assert (zlen rest <= zlen data /\ 0 <= i <= zlen data).
  { revert Hr. unfold slice_from. repeat zcase; try done. simpl. intros [= <-]. rewrite length_drop. lia. }
  intros (n & Hn & H')%bind_DOk. apply skip_moves in Hn; [|lia]. zif in H'; [done|]. zif in H'; [done|].
  destruct (slice2 data i _) eqn:Hs; [|done]. injection H' as _ <-. apply slice2_bounds in Hs.
  unfold moves in Hn. destruct (i64_cases (i + n)) as [[? ?]|[? ?]]; lia.
Qed.

Lemma fields_ends f data i m :
  zlen data < max_data -> zlen data - i < Z.of_nat f -> (0 < f)%nat -> ends (fields field keep f data i m).
Proof using Hfield.
  intros Hd. revert i m. induction f as [|f IH]; intros i m Hf ?; [lia|]. cbn [fields].
  zif; [|by zif]. apply ends_bind; [apply varint_ends|]. intros [wire j] Hj%varint_pos.
  zif; [done|]. zif; [done|].
  destruct (Hfield (i32 (Z.shiftr wire 3)) (Z.land wire 7) data j m Hd) as [He Hp].
  apply ends_bind; [done|]. intros [[m' j']|] Hk.
  - apply Hp in Hk. apply IH; lia.
  - apply ends_bind; [by apply unknown_ends|]. intros [m' j'] Hu%unknown_pos; [|done]. apply IH; lia.
Qed.

Lemma unmarshal_ends data m : zlen data < max_data -> ends (unmarshal field keep data m).
Proof using Hfield. intros. apply fields_ends; lia. Qed.
End ends.

#[export] Hint Resolve case_varint_ends case_bytes_ends case_message_ends case_none_ends unmarshal_ends : codec.
