(* ===== verification/RaftCodec.v ===== *)
(** * The wire format of the raft messages

    [Size], [MarshalTo], [Marshal] and [Unmarshal] of the structs of
    [src/raft/raftpb/raft.pb.go].  [MarshalTo] fills its buffer from the left
    without gaps, so it is the list of bytes it writes; [Marshal] gives it a
    buffer of [Size()] bytes, which [Message_roundtrip] shows to be filled
    exactly. *)

From S2P Require Import Prelude RaftPB Proto.

(** ** Enum numbers *)

Definition MessageType_num (t : MessageType) : Z :=
  match t with
  | MsgHup => 0 | MsgBeat => 1 | MsgProp => 2 | MsgApp => 3 | MsgAppResp => 4 | MsgVote => 5
  | MsgVoteResp => 6 | MsgSnap => 7 | MsgHeartbeat => 8 | MsgHeartbeatResp => 9 | MsgUnreachable => 10
  | MsgSnapStatus => 11 | MsgCheckQuorum => 12 | MessageType_other n => n
  end.

Definition MessageType_of (n : Z) : MessageType :=
  if n =? 0 then MsgHup else if n =? 1 then MsgBeat else if n =? 2 then MsgProp else
  if n =? 3 then MsgApp else if n =? 4 then MsgAppResp else if n =? 5 then MsgVote else
  if n =? 6 then MsgVoteResp else if n =? 7 then MsgSnap else if n =? 8 then MsgHeartbeat else
  if n =? 9 then MsgHeartbeatResp else if n =? 10 then MsgUnreachable else
  if n =? 11 then MsgSnapStatus else if n =? 12 then MsgCheckQuorum else MessageType_other n.

Definition ConfChangeType_num (t : ConfChangeType) : Z :=
  match t with
  | ConfChangeAddNode => 0 | ConfChangeRemoveNode => 1 | ConfChangeUpdateNode => 2
  | ConfChangeType_other n => n
  end.

Definition ConfChangeType_of (n : Z) : ConfChangeType :=
  if n =? 0 then ConfChangeAddNode else if n =? 1 then ConfChangeRemoveNode else
  if n =? 2 then ConfChangeUpdateNode else ConfChangeType_other n.

(** ** Sizes *)

(** [1 + l + sovRaft(uint64(l))] for a field that is a message of size [l]. *)
Definition size_message (l : Z) : Z := 1 + l + sovRaft (u64 l).

Definition ConfState_Size (m : ConfState) : Z :=
  foldr (fun e n => 1 + sovRaft e + n) 0 (csNodes m) + size_unrecognized (csXXX_unrecognized m).

Definition SnapshotMetadata_Size (m : SnapshotMetadata) : Z :=
  size_message (ConfState_Size (smConfState m)) + (1 + sovRaft (smIndex m)) + (1 + sovRaft (smTerm m)) +
  size_unrecognized (smXXX_unrecognized m).

Definition Snapshot_Size (m : Snapshot) : Z :=
  size_bytes (sData m) + size_message (SnapshotMetadata_Size (sMetadata m)) +
  size_unrecognized (sXXX_unrecognized m).

Definition Message_Size (m : Message) : Z :=
  (1 + sovRaft (u64 (MessageType_num (mType m)))) + (1 + sovRaft (mTo m)) + (1 + sovRaft (mFrom m)) +
  (1 + sovRaft (mTerm m)) + (1 + sovRaft (mLogTerm m)) + (1 + sovRaft (mIndex m)) +
  foldr (fun e n => size_message (Entry_Size e) + n) 0 (mEntries m) +
  (1 + sovRaft (mCommit m)) + size_message (Snapshot_Size (mSnapshot m)) + 2 +
  (1 + sovRaft (mRejectHint m)) + size_unrecognized (mXXX_unrecognized m).

Definition HardState_Size (m : HardState) : Z :=
  (1 + sovRaft (hsTerm m)) + (1 + sovRaft (hsVote m)) + (1 + sovRaft (hsCommit m)) +
  size_unrecognized (hsXXX_unrecognized m).

Definition ConfChange_Size (m : ConfChange) : Z :=
  (1 + sovRaft (ccID m)) + (1 + sovRaft (u64 (ConfChangeType_num (ccType m)))) + (1 + sovRaft (ccNodeID m)) +
  size_bytes (ccContext m) + size_unrecognized (ccXXX_unrecognized m).

(** ** Encoding *)

Definition put_varint (tag v : Z) : list Z := tag :: encodeVarint v.

Definition put_bytes (tag : Z) (d : option (list Z)) : list Z :=
  match d with Some b => tag :: encodeVarint (zlen b) ++ b | None => [] end.

Definition put_message (tag size : Z) (bytes : list Z) : list Z := tag :: encodeVarint (u64 size) ++ bytes.

Definition put_unrecognized (u : option (list Z)) : list Z := default [] u.

Definition Entry_MarshalTo (m : Entry) : list Z :=
  put_varint 8 (u64 (EntryType_num (eType m))) ++ put_varint 16 (eTerm m) ++ put_varint 24 (eIndex m) ++
  put_bytes 34 (eData m) ++ put_unrecognized (eXXX_unrecognized m).

Definition ConfState_MarshalTo (m : ConfState) : list Z :=
  concat (put_varint 8 <$> csNodes m) ++ put_unrecognized (csXXX_unrecognized m).

Definition SnapshotMetadata_MarshalTo (m : SnapshotMetadata) : list Z :=
  put_message 10 (ConfState_Size (smConfState m)) (ConfState_MarshalTo (smConfState m)) ++
  put_varint 16 (smIndex m) ++ put_varint 24 (smTerm m) ++ put_unrecognized (smXXX_unrecognized m).

Definition Snapshot_MarshalTo (m : Snapshot) : list Z :=
  put_bytes 10 (sData m) ++
  put_message 18 (SnapshotMetadata_Size (sMetadata m)) (SnapshotMetadata_MarshalTo (sMetadata m)) ++
  put_unrecognized (sXXX_unrecognized m).

Definition Message_MarshalTo (m : Message) : list Z :=
  put_varint 8 (u64 (MessageType_num (mType m))) ++ put_varint 16 (mTo m) ++ put_varint 24 (mFrom m) ++
  put_varint 32 (mTerm m) ++ put_varint 40 (mLogTerm m) ++ put_varint 48 (mIndex m) ++
  concat ((fun e => put_message 58 (Entry_Size e) (Entry_MarshalTo e)) <$> mEntries m) ++
  put_varint 64 (mCommit m) ++
  put_message 74 (Snapshot_Size (mSnapshot m)) (Snapshot_MarshalTo (mSnapshot m)) ++
  [80; if mReject m then 1 else 0] ++ put_varint 88 (mRejectHint m) ++
  put_unrecognized (mXXX_unrecognized m).

Definition HardState_MarshalTo (m : HardState) : list Z :=
  put_varint 8 (hsTerm m) ++ put_varint 16 (hsVote m) ++ put_varint 24 (hsCommit m) ++
  put_unrecognized (hsXXX_unrecognized m).

Definition ConfChange_MarshalTo (m : ConfChange) : list Z :=
  put_varint 8 (ccID m) ++ put_varint 16 (u64 (ConfChangeType_num (ccType m))) ++
  put_varint 24 (ccNodeID m) ++ put_bytes 34 (ccContext m) ++ put_unrecognized (ccXXX_unrecognized m).

(** [Marshal]: a buffer of [size] bytes, filled; [data[:n]]. *)
Definition marshal (size : Z) (bytes : list Z) : outcome (list Z) :=
  if zlen bytes <=? size then Ok bytes else Panic "index out of range".

Definition Entry_Marshal (m : Entry) : outcome (list Z) := marshal (Entry_Size m) (Entry_MarshalTo m).
Definition ConfState_Marshal (m : ConfState) : outcome (list Z) := marshal (ConfState_Size m) (ConfState_MarshalTo m).
Definition SnapshotMetadata_Marshal (m : SnapshotMetadata) : outcome (list Z) :=
  marshal (SnapshotMetadata_Size m) (SnapshotMetadata_MarshalTo m).
Definition Snapshot_Marshal (m : Snapshot) : outcome (list Z) := marshal (Snapshot_Size m) (Snapshot_MarshalTo m).
Definition Message_Marshal (m : Message) : outcome (list Z) := marshal (Message_Size m) (Message_MarshalTo m).
Definition HardState_Marshal (m : HardState) : outcome (list Z) := marshal (HardState_Size m) (HardState_MarshalTo m).
Definition ConfChange_Marshal (m : ConfChange) : outcome (list Z) :=
  marshal (ConfChange_Size m) (ConfChange_MarshalTo m).

(** ** Decoding *)

Definition Entry_field (fieldNum w : Z) (data : list Z) (i : Z) (m : Entry) : dec (option (Entry * Z)) :=
  if fieldNum =? 1 then case_varint i32 (fun v => m <| eType := EntryType_of v |>) w data i else
  if fieldNum =? 2 then case_varint u64 (fun v => m <| eTerm := v |>) w data i else
  if fieldNum =? 3 then case_varint u64 (fun v => m <| eIndex := v |>) w data i else
  if fieldNum =? 4 then case_bytes (fun b => m <| eData := Some b |>) w data i else DOk None.

Definition Entry_Unmarshal (data : list Z) (m : Entry) : dec Entry :=
  unmarshal Entry_field
    (fun b m => m <| eXXX_unrecognized := keep_unrecognized (eXXX_unrecognized m) b |>) data m.

Definition ConfState_field (fieldNum w : Z) (data : list Z) (i : Z) (m : ConfState) : dec (option (ConfState * Z)) :=
  if fieldNum =? 1 then case_varint u64 (fun v => m <| csNodes := csNodes m ++ [v] |>) w data i else DOk None.

Definition ConfState_Unmarshal (data : list Z) (m : ConfState) : dec ConfState :=
  unmarshal ConfState_field
    (fun b m => m <| csXXX_unrecognized := keep_unrecognized (csXXX_unrecognized m) b |>) data m.

Definition SnapshotMetadata_field (fieldNum w : Z) (data : list Z) (i : Z) (m : SnapshotMetadata)
  : dec (option (SnapshotMetadata * Z)) :=
  if fieldNum =? 1 then
    case_message (fun b => ConfState_Unmarshal b (smConfState m)) (fun c => m <| smConfState := c |>) w data i else
  if fieldNum =? 2 then case_varint u64 (fun v => m <| smIndex := v |>) w data i else
  if fieldNum =? 3 then case_varint u64 (fun v => m <| smTerm := v |>) w data i else DOk None.

Definition SnapshotMetadata_Unmarshal (data : list Z) (m : SnapshotMetadata) : dec SnapshotMetadata :=
  unmarshal SnapshotMetadata_field
    (fun b m => m <| smXXX_unrecognized := keep_unrecognized (smXXX_unrecognized m) b |>) data m.

Definition Snapshot_field (fieldNum w : Z) (data : list Z) (i : Z) (m : Snapshot) : dec (option (Snapshot * Z)) :=
  if fieldNum =? 1 then case_bytes (fun b => m <| sData := Some b |>) w data i else
  if fieldNum =? 2 then
    case_message (fun b => SnapshotMetadata_Unmarshal b (sMetadata m)) (fun c => m <| sMetadata := c |>) w data i
  else DOk None.

Definition Snapshot_Unmarshal (data : list Z) (m : Snapshot) : dec Snapshot :=
  unmarshal Snapshot_field
    (fun b m => m <| sXXX_unrecognized := keep_unrecognized (sXXX_unrecognized m) b |>) data m.

(** Fields 1 to 6 of a message. *)
Definition Message_header (fieldNum w : Z) (data : list Z) (i : Z) (m : Message) : dec (option (Message * Z)) :=
  if fieldNum =? 1 then case_varint i32 (fun v => m <| mType := MessageType_of v |>) w data i else
  if fieldNum =? 2 then case_varint u64 (fun v => m <| mTo := v |>) w data i else
  if fieldNum =? 3 then case_varint u64 (fun v => m <| mFrom := v |>) w data i else
  if fieldNum =? 4 then case_varint u64 (fun v => m <| mTerm := v |>) w data i else
  if fieldNum =? 5 then case_varint u64 (fun v => m <| mLogTerm := v |>) w data i else
  case_varint u64 (fun v => m <| mIndex := v |>) w data i.

Definition Message_field (fieldNum w : Z) (data : list Z) (i : Z) (m : Message) : dec (option (Message * Z)) :=
  if (1 <=? fieldNum) && (fieldNum <=? 6) then Message_header fieldNum w data i m else
  if fieldNum =? 7 then
    case_message (fun b => Entry_Unmarshal b Entry0) (fun e => m <| mEntries := mEntries m ++ [e] |>) w data i else
  if fieldNum =? 8 then case_varint u64 (fun v => m <| mCommit := v |>) w data i else
  if fieldNum =? 9 then
    case_message (fun b => Snapshot_Unmarshal b (mSnapshot m)) (fun s => m <| mSnapshot := s |>) w data i else
  if fieldNum =? 10 then case_varint i64 (fun v => m <| mReject := negb (v =? 0) |>) w data i else
  if fieldNum =? 11 then case_varint u64 (fun v => m <| mRejectHint := v |>) w data i else DOk None.

Definition Message_Unmarshal (data : list Z) (m : Message) : dec Message :=
  unmarshal Message_field
    (fun b m => m <| mXXX_unrecognized := keep_unrecognized (mXXX_unrecognized m) b |>) data m.

Definition HardState_field (fieldNum w : Z) (data : list Z) (i : Z) (m : HardState) : dec (option (HardState * Z)) :=
  if fieldNum =? 1 then case_varint u64 (fun v => m <| hsTerm := v |>) w data i else
  if fieldNum =? 2 then case_varint u64 (fun v => m <| hsVote := v |>) w data i else
  if fieldNum =? 3 then case_varint u64 (fun v => m <| hsCommit := v |>) w data i else DOk None.

Definition HardState_Unmarshal (data : list Z) (m : HardState) : dec HardState :=
  unmarshal HardState_field
    (fun b m => m <| hsXXX_unrecognized := keep_unrecognized (hsXXX_unrecognized m) b |>) data m.

Definition ConfChange_field (fieldNum w : Z) (data : list Z) (i : Z) (m : ConfChange) : dec (option (ConfChange * Z)) :=
  if fieldNum =? 1 then case_varint u64 (fun v => m <| ccID := v |>) w data i else
  if fieldNum =? 2 then case_varint i32 (fun v => m <| ccType := ConfChangeType_of v |>) w data i else
  if fieldNum =? 3 then case_varint u64 (fun v => m <| ccNodeID := v |>) w data i else
  if fieldNum =? 4 then case_bytes (fun b => m <| ccContext := Some b |>) w data i else DOk None.

Definition ConfChange_Unmarshal (data : list Z) (m : ConfChange) : dec ConfChange :=
  unmarshal ConfChange_field
    (fun b m => m <| ccXXX_unrecognized := keep_unrecognized (ccXXX_unrecognized m) b |>) data m.

(** ** Messages the Go types can hold

    The integers fit their types, an enum is named by its constructor, and no
    unknown fields were kept from an earlier decoding. *)

Definition is_i32 (z : Z) : Prop := - 2147483648 <= z < 2147483648.

Definition Entry_wf (m : Entry) : Prop :=
  is_i32 (EntryType_num (eType m)) /\ EntryType_of (EntryType_num (eType m)) = eType m /\
  is_u64 (eTerm m) /\ is_u64 (eIndex m) /\ eXXX_unrecognized m = None.

Definition ConfState_wf (m : ConfState) : Prop := Forall is_u64 (csNodes m) /\ csXXX_unrecognized m = None.

Definition SnapshotMetadata_wf (m : SnapshotMetadata) : Prop :=
  ConfState_wf (smConfState m) /\ is_u64 (smIndex m) /\ is_u64 (smTerm m) /\ smXXX_unrecognized m = None.

Definition Snapshot_wf (m : Snapshot) : Prop := SnapshotMetadata_wf (sMetadata m) /\ sXXX_unrecognized m = None.

Definition Message_wf (m : Message) : Prop :=
  (is_i32 (MessageType_num (mType m)) /\ MessageType_of (MessageType_num (mType m)) = mType m) /\
  (is_u64 (mTo m) /\ is_u64 (mFrom m) /\ is_u64 (mTerm m) /\ is_u64 (mLogTerm m) /\ is_u64 (mIndex m)) /\
  Forall Entry_wf (mEntries m) /\ is_u64 (mCommit m) /\ Snapshot_wf (mSnapshot m) /\
  is_u64 (mRejectHint m) /\ mXXX_unrecognized m = None.

Definition HardState_wf (m : HardState) : Prop :=
  is_u64 (hsTerm m) /\ is_u64 (hsVote m) /\ is_u64 (hsCommit m) /\ hsXXX_unrecognized m = None.

Definition ConfChange_wf (m : ConfChange) : Prop :=
  is_u64 (ccID m) /\ (is_i32 (ConfChangeType_num (ccType m)) /\
    ConfChangeType_of (ConfChangeType_num (ccType m)) = ccType m) /\
  is_u64 (ccNodeID m) /\ ccXXX_unrecognized m = None.

(** ** [Size] is the number of bytes written *)

Lemma put_varint_len tag v : 0 <= v -> zlen (put_varint tag v) = 1 + sovRaft v.
Proof. intros. unfold put_varint. rewrite length_cons, <- encodeVarint_len by done. lia. Qed.

Lemma put_bytes_len tag d : zlen (put_bytes tag d) = size_bytes d.
Proof.
  destruct d as [b|]; simpl; [|done]. rewrite length_app, <- encodeVarint_len by lia. lia.
Qed.

Lemma put_message_len tag b : zlen (put_message tag (zlen b) b) = size_message (zlen b).
Proof.
  unfold put_message, size_message. rewrite length_cons, length_app, <- encodeVarint_len; [lia|].
  apply u64_range.
Qed.

Lemma put_unrecognized_len u : zlen (put_unrecognized u) = size_unrecognized u.
Proof. by destruct u. Qed.

Lemma concat_len {A} (put : A -> list Z) (size : A -> Z) (P : A -> Prop) l :
  (forall a, P a -> zlen (put a) = size a) -> Forall P l ->
  zlen (concat (put <$> l)) = foldr (fun a n => size a + n) 0 l.
Proof.
  intros H. induction 1 as [|a l Ha Hl IH]; [done|]. rewrite fmap_cons. cbn [concat foldr].
  by rewrite length_app, Nat2Z.inj_add, H, IH by done.
Qed.

Lemma is_u64_nonneg z : is_u64 z -> 0 <= z.
Proof. unfold is_u64. lia. Qed.
Lemma u64_nonneg z : 0 <= u64 z.
Proof. apply u64_range. Qed.
#[export] Hint Resolve is_u64_nonneg u64_nonneg : codec.

Ltac size_step :=
  rewrite ?length_app, ?Nat2Z.inj_add, ?put_bytes_len, ?put_unrecognized_len;
  repeat rewrite put_varint_len by eauto with codec.

Lemma Entry_len m : Entry_wf m -> zlen (Entry_MarshalTo m) = Entry_Size m.
Proof.
  intros (_ & _ & ? & ? & _). unfold Entry_MarshalTo, Entry_Size. size_step. lia.
Qed.

Lemma ConfState_len m : ConfState_wf m -> zlen (ConfState_MarshalTo m) = ConfState_Size m.
Proof.
  intros (Hn & _). unfold ConfState_MarshalTo, ConfState_Size. size_step. f_equal.
  apply (concat_len _ (fun e => 1 + sovRaft e) is_u64); [|done]. intros. apply put_varint_len. eauto with codec.
Qed.

Lemma SnapshotMetadata_len m : SnapshotMetadata_wf m -> zlen (SnapshotMetadata_MarshalTo m) = SnapshotMetadata_Size m.
Proof.
  intros (Hc & ? & ? & _). unfold SnapshotMetadata_MarshalTo, SnapshotMetadata_Size.
  rewrite <- ConfState_len by done. size_step. rewrite put_message_len. lia.
Qed.

Lemma Snapshot_len m : Snapshot_wf m -> zlen (Snapshot_MarshalTo m) = Snapshot_Size m.
Proof.
  intros (Hc & _). unfold Snapshot_MarshalTo, Snapshot_Size.
  rewrite <- SnapshotMetadata_len by done. size_step. rewrite put_message_len. lia.
Qed.

Lemma Message_len m : Message_wf m -> zlen (Message_MarshalTo m) = Message_Size m.
Proof.
  intros (_ & (? & ? & ? & ? & ?) & He & ? & Hs & ? & _). unfold Message_MarshalTo, Message_Size.
  rewrite <- Snapshot_len by done. size_step. rewrite put_message_len.
  rewrite (concat_len _ (fun e => size_message (Entry_Size e)) Entry_wf); [|intros e Hw|done].
  - simpl. lia.
  - rewrite <- Entry_len by done. apply put_message_len.
Qed.

Lemma HardState_len m : HardState_wf m -> zlen (HardState_MarshalTo m) = HardState_Size m.
Proof. intros (? & ? & ? & _). unfold HardState_MarshalTo, HardState_Size. size_step. lia. Qed.

Lemma ConfChange_len m : ConfChange_wf m -> zlen (ConfChange_MarshalTo m) = ConfChange_Size m.
Proof. intros (? & _ & ? & _). unfold ConfChange_MarshalTo, ConfChange_Size. size_step. lia. Qed.

Lemma marshal_Ok bytes size : zlen bytes = size -> marshal size bytes = Ok bytes.
Proof. intros <-. unfold marshal. by zif; [|lia]. Qed.

(** ** [Unmarshal] reads what [Marshal] wrote *)

Lemma i32_enum {A} (num : A -> Z) (mk : Z -> A) t : is_i32 (num t) -> mk (num t) = t -> mk (i32 (u64 (num t))) = t.
Proof. intros Hr Ho. by rewrite i32_u64. Qed.

Lemma u64_is_u64 z : is_u64 (u64 z).
Proof. apply u64_range. Qed.
#[export] Hint Resolve u64_is_u64 : codec.

Lemma u64_id z : is_u64 z -> u64 z = z.
Proof. apply u64_small. Qed.

Lemma decodes_done {M} (field : Z -> Z -> list Z -> Z -> M -> dec (option (M * Z))) keep m m' :
  m = m' -> decodes field keep [] m m'.
Proof. intros ->. apply decodes_nil. Qed.

(** Read the next field; the state is brought back to a constructor. *)
Ltac settle :=
  lazymatch goal with
  | |- decodes _ _ _ ?m _ =>
      let m' := eval cbv -[u64 i32 i64 EntryType_of MessageType_of ConfChangeType_of EntryType_num
        MessageType_num ConfChangeType_num app negb Z.eqb] in m in
      change m with m'
  end; rewrite ?u64_id by eauto with codec; rewrite ?i32_enum by done.
Ltac read_varint :=
  eapply decodes_app;
  [eapply decodes_varint; [| |vm_compute; reflexivity| | | |intros; reflexivity];
   [lia|reflexivity|lia|eauto with codec|eauto with codec]
  |settle].
Ltac read_bytes :=
  eapply decodes_app;
  [eapply decodes_bytes; [| |vm_compute; reflexivity| |intros; reflexivity]; [lia|reflexivity|lia]|settle].
Ltac read_message :=
  eapply decodes_app;
  [eapply decodes_message; [| |vm_compute; reflexivity| | |intros; reflexivity]; [lia|reflexivity|lia|]|settle].
Ltac read_done := apply decodes_done; reflexivity.

Lemma Entry_decodes m : Entry_wf m ->
  zlen (Entry_MarshalTo m) < 9223372036854775808 -> Entry_Unmarshal (Entry_MarshalTo m) Entry0 = DOk m.
Proof.
  intros (Hr & Ho & Ht & Hi & Hx) Hl. apply decodes_unmarshal; [done|].
  destruct m as [t term idx d u]; simpl in Hr, Ho, Ht, Hi, Hx. subst u.
  unfold Entry_MarshalTo, put_varint; cbn [eType eTerm eIndex eData eXXX_unrecognized].
  do 3 read_varint. destruct d as [d|]; [read_bytes|]; read_done.
Qed.

Lemma ConfState_decodes m : ConfState_wf m ->
  zlen (ConfState_MarshalTo m) < 9223372036854775808 -> ConfState_Unmarshal (ConfState_MarshalTo m) ConfState0 = DOk m.
Proof.
  intros (Hn & Hx) Hl. apply decodes_unmarshal; [done|]. destruct m as [l u]; simpl in Hn, Hx. subst u.
  unfold ConfState_MarshalTo; cbn [csNodes csXXX_unrecognized]. eapply decodes_app.
  - apply (decodes_concat _ _ (put_varint 8) (fun m v => m <| csNodes := csNodes m ++ [u64 v] |>) is_u64); [|done].
    intros m v Hv.
    by apply (decodes_varint _ _ 8 1 u64 (fun v => m <| csNodes := csNodes m ++ [v] |>) v m); eauto with codec.
  - apply decodes_done. unfold ConfState0.
    enough (forall pre, foldl (fun m v => m <| csNodes := csNodes m ++ [u64 v] |>) (mkConfState pre None) l =
      mkConfState (pre ++ l) None) as Hf by apply Hf.
    clear Hl. induction Hn as [|v l Hv Hn IH]; intros pre; cbn [foldl]; [by rewrite app_nil_r|].
    rewrite u64_id by done. etrans; [apply (IH (pre ++ [v]))|by rewrite <- app_assoc].
Qed.

Lemma SnapshotMetadata_decodes m : SnapshotMetadata_wf m ->
  zlen (SnapshotMetadata_MarshalTo m) < 9223372036854775808 ->
  SnapshotMetadata_Unmarshal (SnapshotMetadata_MarshalTo m) SnapshotMetadata0 = DOk m.
Proof.
  intros (Hc & Hi & Ht & Hx) Hl. apply decodes_unmarshal; [done|].
  destruct m as [c idx t u]; simpl in Hc, Hi, Ht, Hx. subst u.
  unfold SnapshotMetadata_MarshalTo, put_message; cbn [smConfState smIndex smTerm smXXX_unrecognized].
  rewrite <- ConfState_len by done. read_message; [by apply ConfState_decodes|].
  do 2 read_varint. read_done.
Qed.

Lemma Snapshot_decodes m : Snapshot_wf m ->
  zlen (Snapshot_MarshalTo m) < 9223372036854775808 -> Snapshot_Unmarshal (Snapshot_MarshalTo m) Snapshot0 = DOk m.
Proof.
  intros (Hc & Hx) Hl. apply decodes_unmarshal; [done|].
  destruct m as [d c u]; simpl in Hc, Hx. subst u.
  unfold Snapshot_MarshalTo, put_message; cbn [sData sMetadata sXXX_unrecognized].
  rewrite <- SnapshotMetadata_len by done.
  destruct d as [d|]; [read_bytes|eapply decodes_app; [apply decodes_nil|]]; (read_message; [by apply SnapshotMetadata_decodes|]; read_done).
Qed.

Lemma HardState_decodes m : HardState_wf m ->
  zlen (HardState_MarshalTo m) < 9223372036854775808 -> HardState_Unmarshal (HardState_MarshalTo m) HardState0 = DOk m.
Proof.
  intros (Ht & Hv & Hc & Hx) Hl. apply decodes_unmarshal; [done|].
  destruct m as [t v c u]; simpl in Ht, Hv, Hc, Hx. subst u.
  unfold HardState_MarshalTo, put_varint; cbn [hsTerm hsVote hsCommit hsXXX_unrecognized].
  do 3 read_varint. read_done.
Qed.

Lemma ConfChange_decodes m : ConfChange_wf m ->
  zlen (ConfChange_MarshalTo m) < 9223372036854775808 ->
  ConfChange_Unmarshal (ConfChange_MarshalTo m) ConfChange0 = DOk m.
Proof.
  intros (Hi & (Hr & Ho) & Hn & Hx) Hl. apply decodes_unmarshal; [done|].
  destruct m as [id t n c u]; simpl in Hi, Hr, Ho, Hn, Hx. subst u.
  unfold ConfChange_MarshalTo, put_varint; cbn [ccID ccType ccNodeID ccContext ccXXX_unrecognized].
  do 3 read_varint. destruct c as [c|]; [read_bytes|]; read_done.
Qed.

(** The repeated entries. *)
Lemma Entries_decodes t to fr term lt i pre l : Forall Entry_wf l ->
  decodes Message_field
    (fun b m => m <| mXXX_unrecognized := keep_unrecognized (mXXX_unrecognized m) b |>)
    (concat ((fun e => put_message 58 (Entry_Size e) (Entry_MarshalTo e)) <$> l))
    (mkMessage t to fr term lt i pre 0 Snapshot0 false 0 None)
    (mkMessage t to fr term lt i (pre ++ l) 0 Snapshot0 false 0 None).
Proof.
  intros Hl. replace (mkMessage t to fr term lt i (pre ++ l) 0 Snapshot0 false 0 None) with
    (foldl (fun m e => m <| mEntries := mEntries m ++ [e] |>) (mkMessage t to fr term lt i pre 0 Snapshot0 false 0 None) l).
  - apply (decodes_concat _ _ _ _ Entry_wf); [|done]. intros m e He. rewrite <- Entry_len by done.
    apply (decodes_message _ _ 58 7 (fun b => Entry_Unmarshal b Entry0)
      (fun e => m <| mEntries := mEntries m ++ [e] |>)); [lia|done|done|lia| |done].
    by apply Entry_decodes.
  - clear Hl. revert pre. induction l as [|e l IH]; intros pre; cbn [foldl]; [by rewrite app_nil_r|].
    etrans; [apply (IH (pre ++ [e]))|by rewrite <- app_assoc].
Qed.

Lemma Reject_decodes (b : bool) m :
  decodes Message_field
    (fun b m => m <| mXXX_unrecognized := keep_unrecognized (mXXX_unrecognized m) b |>)
    [80; if b then 1 else 0] m (m <| mReject := b |>).
Proof.
  assert ([80; if b then 1 else 0] = 80 :: encodeVarint (if b then 1 else 0)) as -> by by destruct b.
  pose proof (decodes_varint Message_field (fun b m => m <| mXXX_unrecognized := keep_unrecognized (mXXX_unrecognized m) b |>)
    80 10 i64 (fun v => m <| mReject := negb (v =? 0) |>) (if b then 1 else 0) m) as H.
  destruct b; apply H; try done; eauto with codec.
Qed.

Lemma Message_decodes m : Message_wf m ->
  zlen (Message_MarshalTo m) < 9223372036854775808 -> Message_Unmarshal (Message_MarshalTo m) Message0 = DOk m.
Proof.
  intros ((Hr & Ho) & (H1 & H2 & H3 & H4 & H5) & He & Hc & Hs & Hh & Hx) Hl. apply decodes_unmarshal; [done|].
  clear Hl. destruct m as [t to fr term lt i es c s rj hint u];
    simpl in Hr, Ho, H1, H2, H3, H4, H5, He, Hc, Hs, Hh, Hx. subst u.
  unfold Message_MarshalTo;
    cbn [mType mTo mFrom mTerm mLogTerm mIndex mEntries mCommit mSnapshot mReject mRejectHint mXXX_unrecognized].
  do 6 read_varint. eapply decodes_app; [by apply Entries_decodes|]. rewrite (app_nil_l es).
  read_varint. rewrite <- Snapshot_len by done. read_message; [by apply Snapshot_decodes|].
  eapply decodes_app; [apply Reject_decodes|settle]. read_varint. read_done.
Qed.

(** ** The interface: a message type with its encoding

    What the code that stores or sends messages relies on. *)

Class Wire (M : Type) : Type := {
  wire_zero : M;
  wire_wf : M -> Prop;
  wire_Size : M -> Z;
  wire_Marshal : M -> outcome (list Z);
  wire_Unmarshal : list Z -> M -> dec M;
  wire_roundtrip m : wire_wf m -> wire_Size m < 9223372036854775808 ->
    exists bytes, wire_Marshal m = Ok bytes /\ zlen bytes = wire_Size m /\ wire_Unmarshal bytes wire_zero = DOk m
}.

Lemma wire_law {M} (wf : M -> Prop) (size : M -> Z) (to : M -> list Z) (un : list Z -> M -> dec M) zero :
  (forall m, wf m -> zlen (to m) = size m) ->
  (forall m, wf m -> zlen (to m) < 9223372036854775808 -> un (to m) zero = DOk m) ->
  forall m, wf m -> size m < 9223372036854775808 ->
  exists bytes, marshal (size m) (to m) = Ok bytes /\ zlen bytes = size m /\ un bytes zero = DOk m.
Proof.
  intros Hlen Hdec m Hm Hs. specialize (Hlen m Hm). exists (to m).
  split_and!; [by apply marshal_Ok|done|]. apply Hdec; [done|lia].
Qed.

#[export] Program Instance Wire_Entry : Wire Entry := {|
  wire_zero := Entry0; wire_wf := Entry_wf; wire_Size := Entry_Size;
  wire_Marshal := Entry_Marshal; wire_Unmarshal := Entry_Unmarshal |}.
Next Obligation. exact (wire_law _ _ _ _ _ Entry_len Entry_decodes). Qed.

#[export] Program Instance Wire_Snapshot : Wire Snapshot := {|
  wire_zero := Snapshot0; wire_wf := Snapshot_wf; wire_Size := Snapshot_Size;
  wire_Marshal := Snapshot_Marshal; wire_Unmarshal := Snapshot_Unmarshal |}.
Next Obligation. exact (wire_law _ _ _ _ _ Snapshot_len Snapshot_decodes). Qed.

#[export] Program Instance Wire_HardState : Wire HardState := {|
  wire_zero := HardState0; wire_wf := HardState_wf; wire_Size := HardState_Size;
  wire_Marshal := HardState_Marshal; wire_Unmarshal := HardState_Unmarshal |}.
Next Obligation. exact (wire_law _ _ _ _ _ HardState_len HardState_decodes). Qed.

#[export] Program Instance Wire_ConfChange : Wire ConfChange := {|
  wire_zero := ConfChange0; wire_wf := ConfChange_wf; wire_Size := ConfChange_Size;
  wire_Marshal := ConfChange_Marshal; wire_Unmarshal := ConfChange_Unmarshal |}.
Next Obligation. exact (wire_law _ _ _ _ _ ConfChange_len ConfChange_decodes). Qed.

(** C35. Encoding any raft message the Go types can hold does not panic, writes
    exactly [Size()] bytes, and decoding these bytes into an empty message
    gives the message back: entries, snapshot and configuration included. *)
Theorem Message_roundtrip (m : Message) :
  Message_wf m -> Message_Size m < 9223372036854775808 ->
  exists bytes, Message_Marshal m = Ok bytes /\ zlen bytes = Message_Size m /\
    Message_Unmarshal bytes Message0 = DOk m.
Proof. exact (wire_law _ _ _ _ _ Message_len Message_decodes m). Qed.

Definition ex_message : Message :=
  mkMessage MsgApp 2 1 MaxUint64 300 7
    [mkEntry EntryConfChange 300 8 (Some [1; 2; 3]) None; mkEntry (EntryType_other (-5)) 300 9 None None] 6
    (mkSnapshot (Some []) (mkSnapshotMetadata (mkConfState [1; 2; MaxUint64] None) 3 4 None) None) true 200 None.

Lemma Message_roundtrip_witness :
  exists bytes, Message_Marshal ex_message = Ok bytes /\ zlen bytes = Message_Size ex_message /\
    Message_Unmarshal bytes Message0 = DOk ex_message.
Proof.
  apply (Message_roundtrip ex_message); [|reflexivity].
  repeat (split || constructor || reflexivity || (unfold is_u64, is_i32; simpl; lia)).
Defined.

(** ** Decoding ends *)

Ltac switch_ends := intros num w d j m' Hd; repeat zif; by eauto with codec.

Lemma Entry_ends data m : zlen data < max_data -> ends (Entry_Unmarshal data m).
Proof. apply unmarshal_ends. unfold Entry_field. switch_ends. Qed.

Lemma ConfState_ends data m : zlen data < max_data -> ends (ConfState_Unmarshal data m).
Proof. apply unmarshal_ends. unfold ConfState_field. switch_ends. Qed.
#[export] Hint Resolve Entry_ends ConfState_ends : codec.

Lemma SnapshotMetadata_ends data m : zlen data < max_data -> ends (SnapshotMetadata_Unmarshal data m).
Proof. apply unmarshal_ends. unfold SnapshotMetadata_field. switch_ends. Qed.
#[export] Hint Resolve SnapshotMetadata_ends : codec.

Lemma Snapshot_ends data m : zlen data < max_data -> ends (Snapshot_Unmarshal data m).
Proof. apply unmarshal_ends. unfold Snapshot_field. switch_ends. Qed.
#[export] Hint Resolve Snapshot_ends : codec.

(** C36. Decoding a message ends on every input: the loop over the fields, the
    varint loops and the recursive skipping of unknown groups, at every level
    of nesting, use no more rounds than the data has bytes, whatever lengths
    the data claims. *)
Theorem Message_Unmarshal_ends (data : list Z) (m : Message) :
  zlen data < max_data -> Message_Unmarshal data m <> DFuel.
Proof. apply unmarshal_ends. unfold Message_field, Message_header. switch_ends. Qed.

Lemma Message_Unmarshal_ends_witness : Message_Unmarshal [99; 8; 200; 100] Message0 <> DFuel.
Proof. apply (Message_Unmarshal_ends [99; 8; 200; 100] Message0). reflexivity. Defined.

(** A length field near the end of the [int] range makes the decoder panic
    instead of returning an error: the end position [iNdEx + byteLen] wraps
    around to a negative number, passes the check against the end of the data,
    and slices out of range. *)
Theorem Entry_Unmarshal_length_overflow (len : Z) (m : Entry) :
  len < 9223372036854775808 <= 1 + sovRaft len + len ->
  Entry_Unmarshal (34 :: encodeVarint len) m = DPanic.
Proof.
  intros Hlen. pose proof (at_pos_0 (34 :: encodeVarint len)) as Hp.
  apply varint_tag in Hp as (Hv & Hi & Hp); [|lia].
  unfold Entry_Unmarshal, unmarshal. cbn [fields]. zif; [|lia]. rewrite Hv. cbn [dbind].
  change (i32 (Z.shiftr 34 3)) with 4. change (Z.land 34 7) with 2.
  change (Entry_field 4 2) with (fun data i m => case_bytes (fun b => m <| eData := Some b |>) 2 data i).
  zif; [lia|]. zif; [lia|]. unfold case_bytes. zif; [|lia].
  rewrite <- (app_nil_r (encodeVarint len)) in Hp at 2. by rewrite (delimited_overflow _ _ len []) by (lia || done).
Qed.

Lemma Entry_Unmarshal_length_overflow_witness :
  Entry_Unmarshal (34 :: encodeVarint 9223372036854775800) Entry0 = DPanic.
Proof. apply (Entry_Unmarshal_length_overflow 9223372036854775800 Entry0). vm_compute. split; [reflexivity|discriminate]. Defined.
