(* ===== verification/Storage.v ===== *)
(** * The raft [Storage] interface and [MemoryStorage]

    [src/raft/storage.go].  The interface is the class [Storage]; what raft
    relies on is the class [StorageSpec], stated over the abstract log [alog]:
    a compaction point (index and term) followed by contiguous entries.
    [MemoryStorage] implements the interface and discharges the laws. *)

From S2P Require Import Prelude RaftPB.

(** ** Errors *)

Inductive error : Type :=
| ErrCompacted
| ErrSnapOutOfDate
| ErrUnavailable
| ErrSnapshotTemporarilyUnavailable
| ErrOther (msg : string).

#[export] Instance error_eq_dec : EqDecision error.
Proof. solve_decision. Defined.

(** ** Contiguous runs of entries *)

Definition contiguous (n : Z) (ents : list Entry) : Prop :=
  forall k e, ents !! k = Some e -> eIndex e = n + Z.of_nat k.

Lemma contiguous_nil n : contiguous n [].
Proof. intros k e H. by rewrite lookup_nil in H. Qed.

Lemma contiguous_cons n e ents :
  contiguous n (e :: ents) <-> eIndex e = n /\ contiguous (n + 1) ents.
Proof.
  split.
  - intros H. split.
    + specialize (H 0%nat e eq_refl). lia.
    + intros k e' Hk. specialize (H (S k) e' Hk). lia.
  - intros [He H] [|k] e' Hk; simpl in Hk.
    + injection Hk as <-. lia.
    + specialize (H k e' Hk). lia.
Qed.

Lemma contiguous_app n l1 l2 :
  contiguous n (l1 ++ l2) <-> contiguous n l1 /\ contiguous (n + zlen l1) l2.
Proof.
  revert n. induction l1 as [|e l1 IH]; intros n; simpl.
  - rewrite Z.add_0_r. pose proof (contiguous_nil n). tauto.
  - rewrite !contiguous_cons, IH, Nat2Z.inj_succ.
    replace (n + 1 + zlen l1) with (n + Z.succ (zlen l1)) by lia. tauto.
Qed.

Lemma contiguous_take n k ents : contiguous n ents -> contiguous n (take k ents).
Proof. intros H i e [He _]%lookup_take_Some. by apply H. Qed.

Lemma contiguous_drop n k ents :
  contiguous n ents -> contiguous (n + Z.of_nat k) (drop k ents).
Proof. intros H i e He. rewrite lookup_drop in He. specialize (H _ _ He). lia. Qed.

Lemma contiguous_drop_eq n n' k ents :
  contiguous n ents -> n' = n + Z.of_nat k -> contiguous n' (drop k ents).
Proof. intros H ->. by apply contiguous_drop. Qed.

Lemma contiguous_head n e ents : contiguous n (e :: ents) -> eIndex e = n.
Proof. by intros [? _]%contiguous_cons. Qed.

#[export] Hint Resolve contiguous_nil contiguous_take contiguous_drop : raft.

(** ** The abstract log *)

Record alog : Type := mkAlog {
  a_off : Z;          (** index of the last compacted entry *)
  a_offterm : Z;      (** its term, kept for matching *)
  a_ents : list Entry (** the entries after it *)
}.

Definition a_last (a : alog) : Z := a_off a + zlen (a_ents a).

Definition a_entry (a : alog) (i : Z) : option Entry :=
  if i <=? a_off a then None else a_ents a !! Z.to_nat (i - a_off a - 1).

Definition a_term (a : alog) (i : Z) : option Z :=
  if i =? a_off a then Some (a_offterm a) else eTerm <$> a_entry a i.

(** The entries with indices in [[lo, hi)]. *)
Definition a_slice (a : alog) (lo hi : Z) : list Entry :=
  take (Z.to_nat (hi - lo)) (drop (Z.to_nat (lo - a_off a - 1)) (a_ents a)).

(** Replace everything from the first index of [ents] on by [ents]. *)
Definition a_append (a : alog) (ents : list Entry) : alog :=
  match ents with
  | [] => a
  | e :: _ => mkAlog (a_off a) (a_offterm a)
                (take (Z.to_nat (eIndex e - a_off a - 1)) (a_ents a) ++ ents)
  end.

Arguments a_last : simpl never.
Arguments a_entry : simpl never.
Arguments a_term : simpl never.
Arguments a_slice : simpl never.

(** Well-formed: indices are contiguous and leave room for one more. *)
Definition alog_wf (a : alog) : Prop :=
  0 <= a_off a /\ a_last a < MaxUint64 /\ contiguous (a_off a + 1) (a_ents a).

Lemma a_entry_index a i e : alog_wf a -> a_entry a i = Some e -> eIndex e = i.
Proof.
  intros (_ & _ & Hc). unfold a_entry. zcase; [done|]. intros H'.
  specialize (Hc _ _ H'). lia.
Qed.

Lemma a_entry_is_Some a i : is_Some (a_entry a i) <-> a_off a < i <= a_last a.
Proof.
  unfold a_entry, a_last. zcase.
  - split; [by intros [? ?]|lia].
  - rewrite lookup_lt_is_Some. lia.
Qed.

Lemma a_entry_in_range a i : a_off a < i <= a_last a -> exists e, a_entry a i = Some e.
Proof. intros H. by apply a_entry_is_Some in H. Qed.

Lemma a_term_is_Some a i : is_Some (a_term a i) <-> a_off a <= i <= a_last a.
Proof.
  unfold a_term. zcase.
  - split; [unfold a_last; lia|by eexists].
  - rewrite fmap_is_Some, a_entry_is_Some. lia.
Qed.

Lemma a_term_in_range a i : a_off a <= i <= a_last a -> exists t, a_term a i = Some t.
Proof. intros H. by apply a_term_is_Some in H. Qed.

Lemma a_term_entry a i : a_off a < i -> a_term a i = eTerm <$> a_entry a i.
Proof. intros H. unfold a_term. zcase; [lia|done]. Qed.

(** Entry [i] of an appended log. *)
Lemma a_entry_append a ents i n :
  alog_wf a -> contiguous n ents -> a_off a < n <= a_last a + 1 -> ents <> [] ->
  a_entry (a_append a ents) i =
    if i <? n then a_entry a i else ents !! Z.to_nat (i - n).
Proof.
  intros Hwf Hc Hn Hne. destruct ents as [|e ents]; [done|].
  pose proof (contiguous_head _ _ _ Hc) as He.
  unfold a_entry; simpl. rewrite He. unfold a_last in Hn.
  assert (Hlen : length (take (Z.to_nat (n - a_off a - 1)) (a_ents a))
                 = Z.to_nat (n - a_off a - 1)) by (rewrite length_take; lia).
  destruct (Z.leb_spec i (a_off a)); destruct (Z.ltb_spec i n); try done; try lia.
  - rewrite lookup_app_l by lia. rewrite lookup_take_lt by lia. done.
  - rewrite lookup_app_r by lia. rewrite Hlen. f_equal. lia.
Qed.

Lemma a_last_append a ents n :
  contiguous n ents -> a_off a < n <= a_last a + 1 -> ents <> [] ->
  a_last (a_append a ents) = n + zlen ents - 1.
Proof.
  intros Hc Hn Hne. destruct ents as [|e ents]; [done|].
  pose proof (contiguous_head _ _ _ Hc); subst n. unfold a_last in *.
  cbn [a_append a_off a_ents]. rewrite length_app, length_take.
  cbn [length] in *. lia.
Qed.

Lemma a_append_wf a ents n :
  alog_wf a -> contiguous n ents -> a_off a < n <= a_last a + 1 ->
  n + zlen ents - 1 < MaxUint64 -> alog_wf (a_append a ents).
Proof.
  intros Hwf Hcn Hn Hm. destruct ents as [|e ents]; [done|].
  destruct Hwf as (H0 & Hl & Hc). assert (Hne : e :: ents <> []) by done.
  pose proof (a_last_append a _ n Hcn Hn Hne) as Hlast.
  split_and!; [done|lia|]. pose proof (contiguous_head _ _ _ Hcn); subst n.
  cbn [a_append a_off a_ents]. apply contiguous_app. split; [by apply contiguous_take|].
  unfold a_last in *. rewrite length_take.
  eassert (a_off a + 1 + _ = eIndex e) as ->; [|done]. lia.
Qed.

Lemma a_off_append a ents : a_off (a_append a ents) = a_off a.
Proof. by destruct ents. Qed.

Lemma a_offterm_append a ents : a_offterm (a_append a ents) = a_offterm a.
Proof. by destruct ents. Qed.

Lemma a_slice_lookup a lo hi k :
  a_off a < lo -> lo <= hi ->
  a_slice a lo hi !! k = if Z.of_nat k <? hi - lo then a_entry a (lo + Z.of_nat k) else None.
Proof.
  intros Hlo Hhi. unfold a_slice, a_entry. rewrite lookup_take. zcase.
  - rewrite decide_True by lia. zcase; [lia|]. rewrite lookup_drop. f_equal. lia.
  - rewrite decide_False by lia. done.
Qed.

Lemma a_slice_length a lo hi :
  a_off a < lo -> lo <= hi -> hi <= a_last a + 1 -> zlen (a_slice a lo hi) = hi - lo.
Proof.
  intros. unfold a_slice, a_last in *. rewrite length_take, length_drop. lia.
Qed.

Lemma a_slice_nonempty a lo hi :
  a_off a < lo -> lo < hi -> hi <= a_last a + 1 -> a_slice a lo hi <> [].
Proof.
  intros Hlo Hlt Hhi E. pose proof (a_slice_length a lo hi ltac:(lia) ltac:(lia) Hhi) as Hl.
  rewrite E in Hl. cbn in Hl. lia.
Qed.

Lemma a_slice_empty a lo : a_slice a lo lo = [].
Proof. unfold a_slice. by rewrite Z.sub_diag. Qed.

(** Two logs with the same entries, compaction point and end are equal. *)
Lemma alog_ext a b :
  a_off a = a_off b -> a_offterm a = a_offterm b -> a_last a = a_last b ->
  (forall i, a_off a < i <= a_last a -> a_entry a i = a_entry b i) -> a = b.
Proof.
  destruct a as [o t l], b as [o' t' l']; unfold a_last; simpl. intros -> -> Hlen H.
  f_equal. apply list_eq_same_length with (length l); [lia|done|].
  intros k x y Hk Hx Hy. specialize (H (o' + 1 + Z.of_nat k) ltac:(lia)).
  unfold a_entry in H; simpl in H.
  replace (Z.to_nat (o' + 1 + Z.of_nat k - o' - 1)) with k in H by lia.
  zcase in H; [lia|congruence].
Qed.

(** ** The interface and its contract *)

Class Storage (S : Type) : Type := {
  InitialState : S -> outcome (HardState * ConfState * option error);
  Entries : S -> Z -> Z -> Z -> outcome (list Entry * option error);
  Term : S -> Z -> outcome (Z * option error);
  LastIndex : S -> outcome (Z * option error);
  FirstIndex : S -> outcome (Z * option error);
  SnapshotOf : S -> outcome (Snapshot * option error)
}.

(** What the comments of the interface promise, over the log a storage holds:
    [Term] answers on [[FirstIndex()-1, LastIndex()]], [Entries] returns a
    prefix of the range that is not empty and is all of it when no limit is
    given, and both report [ErrCompacted] below the compaction point. *)
Class StorageSpec (S : Type) `{Storage S} : Type := {
  sto_inv : S -> Prop;
  sto_log : S -> alog;
  sto_wf s : sto_inv s -> alog_wf (sto_log s);
  InitialState_spec s : sto_inv s -> exists hs cs, InitialState s = Ok (hs, cs, None);
  FirstIndex_spec s : sto_inv s -> FirstIndex s = Ok (a_off (sto_log s) + 1, None);
  LastIndex_spec s : sto_inv s -> LastIndex s = Ok (a_last (sto_log s), None);
  Term_spec s i t : sto_inv s -> a_term (sto_log s) i = Some t -> Term s i = Ok (t, None);
  Term_compacted s i :
    sto_inv s -> 0 <= i < a_off (sto_log s) -> Term s i = Ok (0, Some ErrCompacted);
  Entries_spec s lo hi max :
    sto_inv s -> a_off (sto_log s) < lo -> lo < hi -> hi <= a_last (sto_log s) + 1 ->
    exists ents, Entries s lo hi max = Ok (ents, None) /\
      ents `prefix_of` a_slice (sto_log s) lo hi /\ ents <> [] /\
      (max = noLimit -> ents = a_slice (sto_log s) lo hi);
  Entries_compacted s lo hi max :
    sto_inv s -> 0 <= lo <= a_off (sto_log s) -> Entries s lo hi max = Ok ([], Some ErrCompacted);
  SnapshotOf_spec s : sto_inv s -> exists sn, SnapshotOf s = Ok (sn, None) \/
    SnapshotOf s = Ok (sn, Some ErrSnapshotTemporarilyUnavailable)
}.

(** ** [MemoryStorage] *)

Record MemoryStorage : Type := mkMemoryStorage {
  ms_hardState : HardState;
  ms_snapshot : Snapshot;
  ms_ents : list Entry
}.

#[export] Instance eta_MemoryStorage : Eta MemoryStorage := fun r =>
  mkMemoryStorage (ms_hardState r) (ms_snapshot r) (ms_ents r).

Definition NewMemoryStorage : MemoryStorage := mkMemoryStorage HardState0 Snapshot0 [Entry0].

Definition ms_InitialState (ms : MemoryStorage) : outcome (HardState * ConfState * option error) :=
  Ok (ms_hardState ms, smConfState (sMetadata (ms_snapshot ms)), None).

Definition ms_SetHardState (ms : MemoryStorage) (st : HardState) : MemoryStorage :=
  ms <| ms_hardState := st |>.

Definition ms_lastIndex (ms : MemoryStorage) : outcome Z :=
  let! e0 := at_ (ms_ents ms) 0 in Ok (u64 (eIndex e0 + zlen (ms_ents ms) - 1)).

Definition ms_LastIndex (ms : MemoryStorage) : outcome (Z * option error) :=
  let! i := ms_lastIndex ms in Ok (i, None).

Definition ms_firstIndex (ms : MemoryStorage) : outcome Z :=
  let! e0 := at_ (ms_ents ms) 0 in Ok (eIndex e0 ⊞ 1).

Definition ms_FirstIndex (ms : MemoryStorage) : outcome (Z * option error) :=
  let! i := ms_firstIndex ms in Ok (i, None).

Definition ms_Entries (ms : MemoryStorage) (lo hi maxSize : Z)
  : outcome (list Entry * option error) :=
  let! e0 := at_ (ms_ents ms) 0 in
  let offset := eIndex e0 in
  if lo <=? offset then Ok ([], Some ErrCompacted) else
  let! last := ms_lastIndex ms in
  if hi >? last ⊞ 1 then Panic "entries' hi is out of bound lastindex" else
  if zlen (ms_ents ms) =? 1 then Ok ([], Some ErrUnavailable) else
  let! ents := slice2 (ms_ents ms) (lo ⊟ offset) (hi ⊟ offset) in
  Ok (limitSize ents maxSize, None).

Definition ms_Term (ms : MemoryStorage) (i : Z) : outcome (Z * option error) :=
  let! e0 := at_ (ms_ents ms) 0 in
  let offset := eIndex e0 in
  if i <? offset then Ok (0, Some ErrCompacted) else
  let! e := at_ (ms_ents ms) (i ⊟ offset) in
  Ok (eTerm e, None).

Definition ms_Snapshot (ms : MemoryStorage) : outcome (Snapshot * option error) :=
  Ok (ms_snapshot ms, None).

Definition ms_ApplySnapshot (ms : MemoryStorage) (snap : Snapshot) : MemoryStorage :=
  ms <| ms_snapshot := snap |>
     <| ms_ents := [Entry0 <| eTerm := smTerm (sMetadata snap) |>
                           <| eIndex := smIndex (sMetadata snap) |>] |>.

Definition ms_CreateSnapshot (ms : MemoryStorage) (i : Z) (cs : option ConfState)
    (data : option (list Z)) : outcome (MemoryStorage * Snapshot * option error) :=
  if i <=? smIndex (sMetadata (ms_snapshot ms))
  then Ok (ms, Snapshot0, Some ErrSnapOutOfDate) else
  let! e0 := at_ (ms_ents ms) 0 in
  let offset := eIndex e0 in
  let! last := ms_lastIndex ms in
  if i >? last then Panic "snapshot is out of bound lastindex" else
  let! e := at_ (ms_ents ms) (i ⊟ offset) in
  let md := (sMetadata (ms_snapshot ms)) <| smIndex := i |> <| smTerm := eTerm e |> in
  let md := match cs with Some c => md <| smConfState := c |> | None => md end in
  let sn := (ms_snapshot ms) <| sMetadata := md |> <| sData := data |> in
  Ok (ms <| ms_snapshot := sn |>, sn, None).

Definition ms_Compact (ms : MemoryStorage) (compactIndex : Z)
  : outcome (MemoryStorage * option error) :=
  let! e0 := at_ (ms_ents ms) 0 in
  let offset := eIndex e0 in
  if compactIndex <=? offset then Ok (ms, Some ErrCompacted) else
  let! last := ms_lastIndex ms in
  if compactIndex >? last then Panic "compact is out of bound lastindex" else
  let i := compactIndex ⊟ offset in
  let! ei := at_ (ms_ents ms) i in
  let d := Entry0 <| eIndex := eIndex ei |> <| eTerm := eTerm ei |> in
  let! rest := slice_from (ms_ents ms) (i ⊞ 1) in
  Ok (ms <| ms_ents := d :: rest |>, None).

(** The switch at the end of [Append], on the entries that are not compacted. *)
Definition ms_Append_switch (ms : MemoryStorage) (entries : list Entry)
  : outcome (MemoryStorage * option error) :=
  let! e0 := at_ (ms_ents ms) 0 in
  let! n0 := at_ entries 0 in
  let offset := eIndex n0 ⊟ eIndex e0 in
  if zlen (ms_ents ms) >? offset then
    let! pre := slice2 (ms_ents ms) 0 offset in
    Ok (ms <| ms_ents := pre ++ entries |>, None)
  else if zlen (ms_ents ms) =? offset then
    Ok (ms <| ms_ents := ms_ents ms ++ entries |>, None)
  else Panic "missing log entry".

Definition ms_Append (ms : MemoryStorage) (entries : list Entry)
  : outcome (MemoryStorage * option error) :=
  if zlen entries =? 0 then Ok (ms, None) else
  let! e0 := at_ (ms_ents ms) 0 in
  let! n0 := at_ entries 0 in
  let first := eIndex e0 ⊞ 1 in
  let last := u64 (eIndex n0 + zlen entries - 1) in
  if last <? first then Ok (ms, None) else
  let! entries :=
    (if first >? eIndex n0 then slice_from entries (first ⊟ eIndex n0) else Ok entries) in
  ms_Append_switch ms entries.

#[export] Instance Storage_MemoryStorage : Storage MemoryStorage := {
  InitialState := ms_InitialState;
  Entries := ms_Entries;
  Term := ms_Term;
  LastIndex := ms_LastIndex;
  FirstIndex := ms_FirstIndex;
  SnapshotOf := ms_Snapshot
}.

(** ** [MemoryStorage] meets the contract *)

Definition ms_log (ms : MemoryStorage) : alog :=
  match ms_ents ms with
  | [] => mkAlog 0 0 []
  | d :: rest => mkAlog (eIndex d) (eTerm d) rest
  end.

(** [ents[i]] has log position [i + ents[0].Index]; there is always a dummy. *)
Definition ms_inv (ms : MemoryStorage) : Prop :=
  ms_ents ms <> [] /\ alog_wf (ms_log ms).

Lemma NewMemoryStorage_inv : ms_inv NewMemoryStorage.
Proof. by repeat split. Qed.

Section memory_storage.
  Context (ms : MemoryStorage) (Hinv : ms_inv ms).

Lemma ms_shape : exists d rest, ms_ents ms = d :: rest /\
  ms_log ms = mkAlog (eIndex d) (eTerm d) rest /\ alog_wf (mkAlog (eIndex d) (eTerm d) rest) /\
  eIndex d + zlen rest = a_last (ms_log ms) /\ 0 <= eIndex d.
Proof.
  destruct Hinv as [Hne Hwf]. unfold ms_log in *.
  destruct (ms_ents ms) as [|d rest]; [done|]. exists d, rest.
  split_and!; try done. apply Hwf.
Qed.

Lemma ms_lastIndex_eq : ms_lastIndex ms = Ok (a_last (ms_log ms)).
Proof.
  destruct ms_shape as (d & rest & He & _ & (_ & Hl & _) & <- & Hd).
  unfold ms_lastIndex. rewrite He, at_head. gosimpl. unfold a_last in Hl; cbn [a_off a_ents length] in *. u64_simp. f_equal. lia.
Qed.

Lemma ms_firstIndex_eq : ms_firstIndex ms = Ok (a_off (ms_log ms) + 1).
Proof.
  destruct ms_shape as (d & rest & He & -> & (_ & Hl & _) & _ & Hd).
  unfold ms_firstIndex. rewrite He, at_head. gosimpl. unfold a_last in Hl; cbn [a_off a_ents length] in *. by u64_simp.
Qed.

(** Position [i] of the array is entry [i] of the log, the dummy included. *)
Lemma ms_at i : a_off (ms_log ms) <= i <= a_last (ms_log ms) ->
  exists e, ms_ents ms !! Z.to_nat (i - a_off (ms_log ms)) = Some e /\
    a_term (ms_log ms) i = Some (eTerm e) /\ eIndex e = i /\
    (a_off (ms_log ms) < i -> a_entry (ms_log ms) i = Some e).
Proof.
  destruct ms_shape as (d & rest & He & Hlog & Hwf & Hl & Hd). rewrite He.
  intros Hi. destruct (decide (i = eIndex d)) as [->|Hne].
  - rewrite Hlog in *; cbn in *. rewrite Z.sub_diag. exists d. split_and!; try done; [|lia].
    unfold a_term; simpl. by rewrite Z.eqb_refl.
  - rewrite Hlog in *; cbn [a_off] in *.
    destruct (a_entry_in_range (mkAlog (eIndex d) (eTerm d) rest) i) as [e Hent]; [cbn; lia|].
    exists e. assert (Hent' := Hent). unfold a_entry in Hent; simpl in Hent. zcase in Hent; [lia|].
    replace (Z.to_nat (i - eIndex d)) with (S (Z.to_nat (i - eIndex d - 1))) by lia.
    split_and!; [done| |by eapply a_entry_index|done].
    rewrite a_term_entry by (cbn; lia). by rewrite Hent'.
Qed.

Lemma ms_Term_eq i t : a_term (ms_log ms) i = Some t -> ms_Term ms i = Ok (t, None).
Proof.
  intros Ht. assert (Hi : a_off (ms_log ms) <= i <= a_last (ms_log ms)).
  { apply a_term_is_Some. by rewrite Ht. }
  destruct (ms_at i Hi) as (e & Hat & Hte & _).
  destruct ms_shape as (d & rest & He & Hlog & (_ & Hmax & _) & Hl & Hd).
  unfold ms_Term. rewrite Hlog in *; cbn [a_off] in *. unfold a_last in *. cbn in Hmax, Hi, Hl.
  rewrite He at 1. rewrite at_head. gosimpl. zcase; [lia|]. u64_simp.
  rewrite (proj2 (at_Ok _ _ e)); [|split; [lia|done]]. gosimpl. congruence.
Qed.

Lemma ms_Term_below i : 0 <= i < a_off (ms_log ms) -> ms_Term ms i = Ok (0, Some ErrCompacted).
Proof.
  destruct ms_shape as (d & rest & He & Hlog & _). rewrite Hlog; cbn. intros Hi.
  unfold ms_Term. rewrite He, at_head. gosimpl. zcase; [done|lia].
Qed.

Lemma ms_Entries_eq lo hi max :
  a_off (ms_log ms) < lo -> lo < hi -> hi <= a_last (ms_log ms) + 1 ->
  ms_Entries ms lo hi max = Ok (limitSize (a_slice (ms_log ms) lo hi) max, None).
Proof.
  intros Hlo Hlt Hhi. pose proof ms_lastIndex_eq as Hli. unfold ms_Entries.
  destruct ms_shape as (d & rest & He & Hlog & (_ & Hmax & _) & Hl & Hd).
  rewrite Hli, Hlog in *. unfold a_last, a_slice in *; cbn [a_off a_ents] in *.
  rewrite He in *. rewrite at_head. gosimpl. cbn [length] in *. zcase; [lia|].
  u64_simp. rewrite Z.gtb_ltb. zcase; [lia|]. zcase; [lia|].
  rewrite slice2_Ok by (cbn [length]; lia). gosimpl. do 3 f_equal.
  replace (hi - eIndex d - (lo - eIndex d)) with (hi - lo) by lia. f_equal.
  replace (Z.to_nat (lo - eIndex d)) with (S (Z.to_nat (lo - eIndex d - 1))) by lia. done.
Qed.

Lemma ms_Entries_below lo hi max :
  0 <= lo <= a_off (ms_log ms) -> ms_Entries ms lo hi max = Ok ([], Some ErrCompacted).
Proof.
  destruct ms_shape as (d & rest & He & Hlog & _). rewrite Hlog; cbn. intros Hi.
  unfold ms_Entries. rewrite He, at_head. gosimpl. zcase; [done|lia].
Qed.
End memory_storage.

#[export] Program Instance StorageSpec_MemoryStorage : StorageSpec MemoryStorage := {
  sto_inv := ms_inv;
  sto_log := ms_log
}.
Next Obligation. by intros ms [_ H]. Qed.
Next Obligation. intros ms _. do 2 eexists. reflexivity. Qed.
Next Obligation. intros ms H. cbn. unfold ms_FirstIndex. by rewrite ms_firstIndex_eq by done. Qed.
Next Obligation. intros ms H. cbn. unfold ms_LastIndex. by rewrite ms_lastIndex_eq by done. Qed.
Next Obligation. intros ms i t H Ht. by apply ms_Term_eq. Qed.
Next Obligation. intros ms i H Ht. by apply ms_Term_below. Qed.
Next Obligation.
  intros ms lo hi max H Hlo Hlt Hhi. cbn. rewrite ms_Entries_eq by done.
  eexists. split_and!; [done|apply limitSize_prefix| |].
  - by apply limitSize_nonempty, a_slice_nonempty.
  - intros ->. apply limitSize_noLimit.
Qed.
Next Obligation. intros ms lo hi max H Hlo. by apply ms_Entries_below. Qed.
Next Obligation. intros ms _. eexists. by left. Qed.

(** ** The operations that change a [MemoryStorage] *)

Lemma ms_log_rebuild (d : Entry) (rest : list Entry) (hs : HardState) (sn : Snapshot) :
  ms_log (mkMemoryStorage hs sn (d :: rest)) = mkAlog (eIndex d) (eTerm d) rest.
Proof. done. Qed.

Lemma a_append_take_drop (d : Entry) (rest ents : list Entry) n :
  contiguous n ents -> ents <> [] -> eIndex d < n <= eIndex d + zlen rest + 1 ->
  exists rest', take (Z.to_nat (n - eIndex d)) (d :: rest) ++ ents = d :: rest' /\
    mkAlog (eIndex d) (eTerm d) rest' = a_append (mkAlog (eIndex d) (eTerm d) rest) ents.
Proof.
  intros Hc Hne Hn. destruct ents as [|e ents]; [done|].
  pose proof (contiguous_head _ _ _ Hc); subst n. simpl.
  replace (Z.to_nat (eIndex e - eIndex d)) with (S (Z.to_nat (eIndex e - eIndex d - 1))) by lia.
  eexists. split; reflexivity.
Qed.

Lemma ms_Append_switch_eq ms ents n :
  ms_inv ms -> contiguous n ents -> ents <> [] -> a_off (ms_log ms) < n ->
  n + zlen ents - 1 < MaxUint64 ->
  (n <= a_last (ms_log ms) + 1 ->
     exists ms', ms_Append_switch ms ents = Ok (ms', None) /\ ms_inv ms' /\
       ms_log ms' = a_append (ms_log ms) ents) /\
  (a_last (ms_log ms) + 1 < n -> ms_Append_switch ms ents = Panic "missing log entry").
Proof.
  intros Hinv Hc Hne Hn Hmax.
  destruct (ms_shape ms Hinv) as (d & rest & He & Hlog & Hwf & Hl & Hd).
  destruct ms as [hs sn es]; cbn in He; subst es.
  pose proof (proj1 (proj2 Hwf)) as Hlast. rewrite Hlog in *. unfold a_last in *.
  cbn [a_off a_ents] in *.
  assert (Hok : n <= eIndex d + zlen rest + 1 ->
     let ms' := mkMemoryStorage hs sn (take (Z.to_nat (n - eIndex d)) (d :: rest) ++ ents) in
     ms_inv ms' /\ ms_log ms' = a_append (mkAlog (eIndex d) (eTerm d) rest) ents).
  { intros Hle. destruct (a_append_take_drop d rest ents n) as (rest' & -> & Heq); try done.
    cbv zeta. rewrite ms_log_rebuild. split; [|done].
    split; [done|]. rewrite ms_log_rebuild, Heq.
    apply a_append_wf with n; try done. }
  destruct ents as [|e ents]; [done|]. pose proof (contiguous_head _ _ _ Hc) as Hidx.
  unfold ms_Append_switch. cbn [ms_ents]. rewrite !at_head. gosimpl. rewrite Hidx.
  cbn [length] in *. u64_simp. rewrite Z.gtb_ltb. zcase.
  - split; [|lia]. intros Hle. rewrite slice2_Ok by (cbn [length]; lia). gosimpl.
    rewrite Z.sub_0_r. eexists. split; [done|]. by apply Hok.
  - zcase; [|split; [lia|done]]. split; [|lia]. intros Hle. eexists. split; [done|].
    specialize (Hok ltac:(lia)). rewrite take_ge in Hok by (cbn [length]; lia). done.
Qed.

Lemma ms_Append_eq ms ents n :
  ms_inv ms -> contiguous n ents -> ents <> [] -> 0 <= n -> n + zlen ents - 1 < MaxUint64 ->
  (n <= a_last (ms_log ms) + 1 ->
     exists ms', ms_Append ms ents = Ok (ms', None) /\ ms_inv ms' /\
       ms_log ms' = a_append (ms_log ms) (drop (Z.to_nat (a_off (ms_log ms) + 1 - n)) ents)) /\
  (a_last (ms_log ms) + 1 < n -> ms_Append ms ents = Panic "missing log entry").
Proof.
  intros Hinv Hc Hne Hn0 Hmax.
  destruct (ms_shape ms Hinv) as (d & rest & He & Hlog & Hwf & Hl & Hd).
  pose proof (proj1 (proj2 Hwf)) as Hlast. unfold a_last in Hlast; cbn in Hlast.
  assert (Hoff : a_off (ms_log ms) = eIndex d) by by rewrite Hlog. rewrite Hoff.
  set (k := Z.to_nat (eIndex d + 1 - n)).
  pose proof (contiguous_drop _ k _ Hc) as Hc'.
  unfold ms_Append. destruct ents as [|e ents]; [done|]. rewrite He, !at_head. gosimpl.
  rewrite (contiguous_head _ _ _ Hc).
  destruct (Z.eqb_spec (zlen (e :: ents)) 0); [cbn [length] in *; lia|].
  cbn [length] in *. u64_simp. destruct (Z.ltb_spec (n + Z.of_nat (S (length ents)) - 1) (eIndex d + 1)).
  { split; [intros _; exists ms; split_and!; [done..|]|lia].
    rewrite drop_ge by (cbn [length]; lia). done. }
  assert (Hsl : (if eIndex d + 1 >? n then slice_from (e :: ents) (eIndex d + 1 ⊟ n)
                 else Ok (e :: ents)) = Ok (drop k (e :: ents))).
  { rewrite Z.gtb_ltb. zcase; [u64_simp; by rewrite slice_from_Ok by (cbn [length]; lia)|].
    subst k. replace (Z.to_nat (eIndex d + 1 - n)) with 0%nat by lia. done. }
  rewrite Hsl. gosimpl.
  destruct (ms_Append_switch_eq ms (drop k (e :: ents)) (n + Z.of_nat k)) as [HA HB]; try done.
  { intros Hd'. apply (f_equal length) in Hd'. rewrite length_drop in Hd'. cbn [length] in *. lia. }
  { lia. }
  { rewrite length_drop. cbn [length]. lia. }
  split; intros; [apply HA|apply HB]; lia.
Qed.

(** [MemoryStorage.Append] is the abstract append: given contiguous
    entries starting at [n], it drops the part that is already compacted and
    replaces the log from there on; it succeeds, keeps the invariant, and
    panics exactly when the entries would leave a gap after the last index. *)
Theorem ms_Append_refines ms ents n :
  ms_inv ms -> contiguous n ents -> ents <> [] -> 0 <= n -> n + zlen ents - 1 < MaxUint64 ->
  (n <= a_last (ms_log ms) + 1 ->
     exists ms', ms_Append ms ents = Ok (ms', None) /\ ms_inv ms' /\
       ms_log ms' = a_append (ms_log ms) (drop (Z.to_nat (a_off (ms_log ms) + 1 - n)) ents)) /\
  (a_last (ms_log ms) + 1 < n -> ms_Append ms ents = Panic "missing log entry").
Proof. apply ms_Append_eq. Qed.

(** [Append] touches only the entries. *)
Lemma ms_Append_rest ms ents ms' err :
  ms_Append ms ents = Ok (ms', err) -> ms_snapshot ms' = ms_snapshot ms /\ ms_hardState ms' = ms_hardState ms.
Proof.
  unfold ms_Append, ms_Append_switch. intros H. zif in H; [by injection H as <- <-|].
  apply bind_Ok_inv in H as (e0 & _ & H). apply bind_Ok_inv in H as (n0 & _ & H).
  zif in H; [by injection H as <- <-|]. apply bind_Ok_inv in H as (es & _ & H).
  apply bind_Ok_inv in H as (e1 & _ & H). apply bind_Ok_inv in H as (n1 & _ & H). zif in H.
  - apply bind_Ok_inv in H as (pre & _ & H). by injection H as <- <-.
  - zif in H; [by injection H as <- <-|done].
Qed.

(** A small storage for the examples: entries 3, 4, 5 after compaction at 2. *)
Definition ent (i t : Z) : Entry := mkEntry EntryNormal t i None None.
Definition ms345 : MemoryStorage :=
  mkMemoryStorage HardState0 Snapshot0 [ent 2 1; ent 3 1; ent 4 2; ent 5 2].

Lemma contiguous_dec n ents :
  Forall2 (fun k e => eIndex e = k) (seqZ n (zlen ents)) ents -> contiguous n ents.
Proof.
  intros H k e He. destruct (Forall2_lookup_r _ _ _ _ _ H He) as (z & Hz & ->).
  apply lookup_seqZ in Hz. lia.
Qed.

Ltac solve_contiguous := apply contiguous_dec; vm_compute; repeat constructor.

Lemma ms345_inv : ms_inv ms345.
Proof. split; [done|]. split_and!; [done..|]. solve_contiguous. Qed.

Lemma ms_Append_refines_witness :
  exists ms', ms_Append ms345 [ent 1 1; ent 2 1; ent 3 1; ent 4 3] = Ok (ms', None) /\ ms_inv ms' /\
    ms_log ms' = mkAlog 2 1 [ent 3 1; ent 4 3].
Proof.
  apply (ms_Append_refines ms345 [ent 1 1; ent 2 1; ent 3 1; ent 4 3] 1 ms345_inv);
    [solve_contiguous|done|done|done|].
  vm_compute. discriminate.
Defined.

(** [Compact] as an abstract operation: move the compaction point to [i]. *)
Definition a_compact (a : alog) (i t : Z) : alog :=
  mkAlog i t (drop (Z.to_nat (i - a_off a)) (a_ents a)).

Lemma a_entry_compact a i t j : a_off a <= i -> i < j ->
  a_entry (a_compact a i t) j = a_entry a j.
Proof.
  intros. unfold a_entry; cbn. repeat zcase; try lia.
  rewrite lookup_drop. f_equal. lia.
Qed.

Lemma a_compact_wf a i t : alog_wf a -> a_off a <= i <= a_last a ->
  alog_wf (a_compact a i t) /\ a_last (a_compact a i t) = a_last a.
Proof.
  intros (H0 & Hm & Hc) Hi. unfold alog_wf, a_last in *; cbn. rewrite length_drop.
  split_and!; try lia. eapply contiguous_drop_eq; [done|lia].
Qed.

(** [MemoryStorage.Compact] fails with [ErrCompacted] at or below the
    compaction point and panics past the last index; otherwise it moves the
    compaction point to the given index, remembering that entry's term, keeps
    every later entry, and keeps the invariant. *)
Theorem ms_Compact_spec ms i :
  ms_inv ms -> is_u64 i ->
  (i <= a_off (ms_log ms) -> ms_Compact ms i = Ok (ms, Some ErrCompacted)) /\
  (a_last (ms_log ms) < i -> ms_Compact ms i = Panic "compact is out of bound lastindex") /\
  (a_off (ms_log ms) < i <= a_last (ms_log ms) ->
     exists ms' t, ms_Compact ms i = Ok (ms', None) /\ a_term (ms_log ms) i = Some t /\
       ms_inv ms' /\ ms_log ms' = a_compact (ms_log ms) i t /\
       a_last (ms_log ms') = a_last (ms_log ms) /\
       forall j, i < j -> a_entry (ms_log ms') j = a_entry (ms_log ms) j).
Proof.
  intros Hinv Hi. pose proof (ms_lastIndex_eq ms Hinv) as Hli.
  pose proof (ms_at ms Hinv i) as Hat.
  destruct (ms_shape ms Hinv) as (d & rest & He & Hlog & Hwf & Hl & Hd).
  pose proof (proj1 (proj2 Hwf)) as Hlast. unfold a_last in Hlast; cbn in Hlast.
  unfold is_u64 in Hi. assert (Hoff : a_off (ms_log ms) = eIndex d) by by rewrite Hlog.
  rewrite Hoff in *. unfold ms_Compact. rewrite Hli. gosimpl.
  rewrite He, at_head, <- He. gosimpl.
  split_and!; intros Hc; (zif; [try done; lia|zif; try done; try lia]).
  destruct (Hat ltac:(lia)) as (e & Hk & Ht & Hidx & Hent). u64_simp.
  rewrite (proj2 (at_Ok _ _ e)) by (split; [lia|done]). gosimpl.
  assert (Hn : zlen (ms_ents ms) = zlen rest + 1) by (rewrite He; cbn [length]; lia).
  rewrite slice_from_Ok by lia. gosimpl. eexists _, (eTerm e).
  destruct (a_compact_wf (ms_log ms) i (eTerm e)) as [Hwf' Hlast']; [apply Hinv|lia|].
  assert (Hlog' : forall d', eIndex d' = i -> eTerm d' = eTerm e ->
     ms_log (ms <| ms_ents := d' :: drop (Z.to_nat (i - eIndex d + 1)) (ms_ents ms) |>)
       = a_compact (ms_log ms) i (eTerm e)).
  { intros d' H1 H2. unfold ms_log; cbn. unfold a_compact. rewrite He; cbn.
    replace (Z.to_nat (i - eIndex d + 1)) with (S (Z.to_nat (i - eIndex d))) by lia.
    cbn. congruence. }
  split_and!; [done|done| |by apply Hlog'|by rewrite Hlog'|].
  - split; [done|by rewrite Hlog'].
  - intros j Hj. rewrite Hlog' by done. apply a_entry_compact; lia.
Qed.

Lemma ms_Compact_spec_witness :
  exists ms' t, ms_Compact ms345 4 = Ok (ms', None) /\ a_term (ms_log ms345) 4 = Some t /\
    ms_inv ms' /\ ms_log ms' = a_compact (ms_log ms345) 4 t /\
    a_last (ms_log ms') = a_last (ms_log ms345) /\
    forall j, 4 < j -> a_entry (ms_log ms') j = a_entry (ms_log ms345) j.
Proof.
  apply (ms_Compact_spec ms345 4 ms345_inv); [split; done|]. vm_compute. split; [done|discriminate].
Defined.

(** [ApplySnapshot] forgets the log and restarts it at the snapshot. *)
Lemma ms_ApplySnapshot_spec ms sn :
  0 <= smIndex (sMetadata sn) < MaxUint64 ->
  ms_inv (ms_ApplySnapshot ms sn) /\
  ms_log (ms_ApplySnapshot ms sn) = mkAlog (smIndex (sMetadata sn)) (smTerm (sMetadata sn)) [].
Proof.
  intros H. split; [|done]. split; [done|]. unfold alog_wf, a_last; cbn.
  split_and!; try lia. apply contiguous_nil.
Qed.

(** [MemoryStorage.CreateSnapshot] refuses an index that is not newer than
    the current snapshot, panics past the last index, and otherwise returns
    and stores a snapshot with the asked index, the term of that log entry,
    the given data and (when given) configuration; the log is untouched. *)
Theorem ms_CreateSnapshot_spec ms i cs data :
  ms_inv ms -> is_u64 i ->
  (i <= smIndex (sMetadata (ms_snapshot ms)) ->
     ms_CreateSnapshot ms i cs data = Ok (ms, Snapshot0, Some ErrSnapOutOfDate)) /\
  (smIndex (sMetadata (ms_snapshot ms)) < i -> a_last (ms_log ms) < i ->
     ms_CreateSnapshot ms i cs data = Panic "snapshot is out of bound lastindex") /\
  (smIndex (sMetadata (ms_snapshot ms)) < i -> a_off (ms_log ms) <= i <= a_last (ms_log ms) ->
     exists ms' sn t, ms_CreateSnapshot ms i cs data = Ok (ms', sn, None) /\
       ms_snapshot ms' = sn /\ a_term (ms_log ms) i = Some t /\
       smIndex (sMetadata sn) = i /\ smTerm (sMetadata sn) = t /\ sData sn = data /\
       smConfState (sMetadata sn) = default (smConfState (sMetadata (ms_snapshot ms))) cs /\
       ms_log ms' = ms_log ms /\ ms_hardState ms' = ms_hardState ms).
Proof.
  intros Hinv Hi. pose proof (ms_lastIndex_eq ms Hinv) as Hli.
  pose proof (ms_at ms Hinv i) as Hat.
  destruct (ms_shape ms Hinv) as (d & rest & He & Hlog & Hwf & Hl & Hd).
  pose proof (proj1 (proj2 Hwf)) as Hlast. unfold a_last in Hlast; cbn in Hlast.
  unfold is_u64 in Hi. assert (Hoff : a_off (ms_log ms) = eIndex d) by by rewrite Hlog.
  rewrite Hoff in *. unfold ms_CreateSnapshot. rewrite Hli. gosimpl.
  rewrite He, at_head, <- He. gosimpl.
  split_and!; intros Hc; try intros Hc'; (zif; [try done; lia|zif; try done; try lia]).
  destruct (Hat Hc') as (e & Hk & Ht & Hidx & Hent). u64_simp.
  rewrite (proj2 (at_Ok _ _ e)) by (split; [lia|done]). gosimpl.
  eexists _, _, (eTerm e). split_and!; try done; by destruct cs.
Qed.

Lemma ms_CreateSnapshot_spec_witness :
  exists ms' sn t, ms_CreateSnapshot ms345 4 None (Some [7]) = Ok (ms', sn, None) /\
    ms_snapshot ms' = sn /\ a_term (ms_log ms345) 4 = Some t /\
    smIndex (sMetadata sn) = 4 /\ smTerm (sMetadata sn) = t /\ sData sn = Some [7] /\
    smConfState (sMetadata sn) = default (smConfState (sMetadata (ms_snapshot ms345))) None /\
    ms_log ms' = ms_log ms345 /\ ms_hardState ms' = ms_hardState ms345.
Proof.
  apply (ms_CreateSnapshot_spec ms345 4 None (Some [7]) ms345_inv); [split; done|done|].
  vm_compute. split; discriminate.
Defined.
