(* ===== verification/Unstable.v ===== *)
(** * The unstable part of the raft log

    [src/raft/log_unstable.go]: the entries and the incoming snapshot that are
    not yet in [Storage].  [u_entries[i]] has log position [i + u_offset]. *)

From S2P Require Import Prelude RaftPB Storage.

Record unstable : Type := mkUnstable {
  u_snapshot : option Snapshot;
  u_entries : list Entry;
  u_offset : Z
}.

#[export] Instance eta_unstable : Eta unstable := fun r =>
  mkUnstable (u_snapshot r) (u_entries r) (u_offset r).

(** The pairs [(uint64, bool)] of the code are options here. *)

Definition maybeFirstIndex (u : unstable) : option Z :=
  match u_snapshot u with
  | Some s => Some (smIndex (sMetadata s) ⊞ 1)
  | None => None
  end.

Definition maybeLastIndex (u : unstable) : option Z :=
  let l := zlen (u_entries u) in
  if negb (l =? 0) then Some (u64 (u_offset u + l - 1)) else
  match u_snapshot u with
  | Some s => Some (smIndex (sMetadata s))
  | None => None
  end.

Definition maybeTerm (u : unstable) (i : Z) : outcome (option Z) :=
  if i <? u_offset u then
    match u_snapshot u with
    | None => Ok None
    | Some s => if smIndex (sMetadata s) =? i then Ok (Some (smTerm (sMetadata s))) else Ok None
    end
  else
    match maybeLastIndex u with
    | None => Ok None
    | Some last =>
        if i >? last then Ok None else
        let! e := at_ (u_entries u) (i ⊟ u_offset u) in Ok (Some (eTerm e))
    end.

Definition stableTo (u : unstable) (i t : Z) : outcome unstable :=
  let! r := maybeTerm u i in
  match r with
  | None => Ok u
  | Some gt =>
      if (gt =? t) && (i >=? u_offset u) then
        let! ents := slice_from (u_entries u) (u64 (i + 1 - u_offset u)) in
        Ok (u <| u_entries := ents |> <| u_offset := i ⊞ 1 |>)
      else Ok u
  end.

Definition stableSnapTo (u : unstable) (i : Z) : unstable :=
  match u_snapshot u with
  | Some s => if smIndex (sMetadata s) =? i then u <| u_snapshot := None |> else u
  | None => u
  end.

Definition restore (u : unstable) (s : Snapshot) : unstable :=
  u <| u_offset := smIndex (sMetadata s) ⊞ 1 |> <| u_entries := [] |> <| u_snapshot := Some s |>.

Definition mustCheckOutOfBounds (u : unstable) (lo hi : Z) : outcome unit :=
  if lo >? hi then Panic "invalid unstable.slice" else
  let upper := u_offset u ⊞ zlen (u_entries u) in
  if (lo <? u_offset u) || (hi >? upper) then Panic "unstable.slice out of bound" else Ok tt.

Definition slice (u : unstable) (lo hi : Z) : outcome (list Entry) :=
  let! _ := mustCheckOutOfBounds u lo hi in
  slice2 (u_entries u) (lo ⊟ u_offset u) (hi ⊟ u_offset u).

Definition truncateAndAppend (u : unstable) (ents : list Entry) : outcome unstable :=
  let! e0 := at_ ents 0 in
  let after := eIndex e0 ⊟ 1 in
  if after =? u64 (u_offset u + zlen (u_entries u) - 1) then
    Ok (u <| u_entries := u_entries u ++ ents |>)
  else if after <? u_offset u then
    Ok (u <| u_offset := after ⊞ 1 |> <| u_entries := ents |>)
  else
    let! pre := slice u (u_offset u) (after ⊞ 1) in
    Ok (u <| u_entries := pre ++ ents |>).
