(* ===== verification/RaftLog.v ===== *)
(** * The raft log

    [src/raft/log.go]: the view over [Storage] and the unstable entries.  The
    operations are proved against the [StorageSpec] contract; the abstract
    value of a log is an [alog], [log_abs], and [log_inv] is the invariant. *)

From S2P Require Import Prelude RaftPB Storage Unstable.

Section raft_log.
  Context {St : Type} `{Storage St}.

Record raftLog : Type := mkRaftLog {
  l_storage : St;
  l_unstable : unstable;
  l_committed : Z;
  l_applied : Z
}.

#[export] Instance eta_raftLog : Eta raftLog := fun r =>
  mkRaftLog (l_storage r) (l_unstable r) (l_committed r) (l_applied r).

(** Calls whose error the code turns into a panic. *)
Definition must {A} (m : outcome (A * option error)) : outcome A :=
  let! '(a, err) := m in
  match err with None => Ok a | Some _ => Panic "storage error" end.

(** [newLog]; [nil] is not a value of the type [St], so the nil check is vacuous. *)
Definition newLog (storage : St) : outcome raftLog :=
  let! first := must (FirstIndex storage) in
  let! last := must (LastIndex storage) in
  Ok (mkRaftLog storage (mkUnstable None [] (last ⊞ 1)) (first ⊟ 1) (first ⊟ 1)).

Definition firstIndex (l : raftLog) : outcome Z :=
  match maybeFirstIndex (l_unstable l) with
  | Some i => Ok i
  | None => must (FirstIndex (l_storage l))
  end.

Definition lastIndex (l : raftLog) : outcome Z :=
  match maybeLastIndex (l_unstable l) with
  | Some i => Ok i
  | None => must (LastIndex (l_storage l))
  end.

Definition term (l : raftLog) (i : Z) : outcome (Z * option error) :=
  let! first := firstIndex l in
  let dummyIndex := first ⊟ 1 in
  let! last := lastIndex l in
  if (i <? dummyIndex) || (i >? last) then Ok (0, None) else
  let! r := maybeTerm (l_unstable l) i in
  match r with
  | Some t => Ok (t, None)
  | None =>
      let! '(t, err) := Term (l_storage l) i in
      match err with
      | None => Ok (t, None)
      | Some ErrCompacted => Ok (0, Some ErrCompacted)
      | Some _ => Panic "storage error"
      end
  end.

Definition zeroTermOnErrCompacted (r : Z * option error) : outcome Z :=
  match snd r with
  | None => Ok (fst r)
  | Some ErrCompacted => Ok 0
  | Some _ => Panic "unexpected error"
  end.

Definition lastTerm (l : raftLog) : outcome Z :=
  let! last := lastIndex l in
  let! '(t, err) := term l last in
  match err with
  | None => Ok t
  | Some _ => Panic "unexpected error when getting the last term"
  end.

Definition matchTerm (l : raftLog) (i t : Z) : outcome bool :=
  let! '(t', err) := term l i in
  match err with
  | None => Ok (t' =? t)
  | Some _ => Ok false
  end.

Definition isUpToDate (l : raftLog) (lasti t : Z) : outcome bool :=
  let! lt := lastTerm l in
  if t >? lt then Ok true else
  if t =? lt then let! li := lastIndex l in Ok (lasti >=? li) else Ok false.

(** The error of [mustCheckOutOfBounds], [None] for nil. *)
Definition mustCheckOutOfBounds (l : raftLog) (lo hi : Z) : outcome (option error) :=
  if lo >? hi then Panic "invalid slice" else
  let! fi := firstIndex l in
  if lo <? fi then Ok (Some ErrCompacted) else
  let! last := lastIndex l in
  let length := u64 (last - fi + 1) in
  if (lo <? fi) || (hi >? fi ⊞ length) then Panic "slice out of bound" else Ok None.

(** The unstable half of [slice]: append the unstable part and limit the size. *)
Definition slice_unstable (l : raftLog) (lo hi maxSize : Z) (ents : list Entry)
  : outcome (list Entry * option error) :=
  let off := u_offset (l_unstable l) in
  if hi >? off then
    let! us := Unstable.slice (l_unstable l) (Z.max lo off) hi in
    let ents := if 0 <? zlen ents then ents ++ us else us in
    Ok (limitSize ents maxSize, None)
  else Ok (limitSize ents maxSize, None).

Definition slice (l : raftLog) (lo hi maxSize : Z) : outcome (list Entry * option error) :=
  let! err := mustCheckOutOfBounds l lo hi in
  match err with
  | Some e => Ok ([], Some e)
  | None =>
      if lo =? hi then Ok ([], None) else
      let off := u_offset (l_unstable l) in
      if lo <? off then
        let! '(stored, err) := Entries (l_storage l) lo (Z.min hi off) maxSize in
        match err with
        | Some ErrCompacted => Ok ([], Some ErrCompacted)
        | Some ErrUnavailable => Panic "entries are unavailable from storage"
        | Some _ => Panic "storage error"
        | None =>
            if zlen stored <? (Z.min hi off) ⊟ lo then Ok (stored, None)
            else slice_unstable l lo hi maxSize stored
        end
      else slice_unstable l lo hi maxSize []
  end.

Definition entries (l : raftLog) (i maxSize : Z) : outcome (list Entry * option error) :=
  let! last := lastIndex l in
  if i >? last then Ok ([], None) else slice l i (last ⊞ 1) maxSize.

(** [allEntries] retries on [ErrCompacted]; each retry reads the storage again,
    and here the storage does not change in between, so one retry decides. *)
Fixpoint allEntries_loop (fuel : nat) (l : raftLog) : outcome (list Entry) :=
  match fuel with
  | O => Panic "allEntries: does not return"
  | S f =>
      let! fi := firstIndex l in
      let! '(ents, err) := entries l fi noLimit in
      match err with
      | None => Ok ents
      | Some ErrCompacted => allEntries_loop f l
      | Some _ => Panic "storage error"
      end
  end.

Definition unstableEntries (l : raftLog) : list Entry :=
  if zlen (u_entries (l_unstable l)) =? 0 then [] else u_entries (l_unstable l).

Definition hasNextEnts (l : raftLog) : outcome bool :=
  let! fi := firstIndex l in
  let off := Z.max (l_applied l ⊞ 1) fi in
  Ok (l_committed l ⊞ 1 >? off).

Definition nextEnts (l : raftLog) : outcome (list Entry) :=
  let! fi := firstIndex l in
  let off := Z.max (l_applied l ⊞ 1) fi in
  if l_committed l ⊞ 1 >? off then
    let! '(ents, err) := slice l off (l_committed l ⊞ 1) noLimit in
    match err with
    | None => Ok ents
    | Some _ => Panic "unexpected error when getting unapplied entries"
    end
  else Ok [].

Definition snapshot (l : raftLog) : outcome (Snapshot * option error) :=
  match u_snapshot (l_unstable l) with
  | Some s => Ok (s, None)
  | None => SnapshotOf (l_storage l)
  end.

Definition commitTo (l : raftLog) (tocommit : Z) : outcome raftLog :=
  if l_committed l <? tocommit then
    let! last := lastIndex l in
    if last <? tocommit then Panic "tocommit is out of range [lastIndex]"
    else Ok (l <| l_committed := tocommit |>)
  else Ok l.

Definition appliedTo (l : raftLog) (i : Z) : outcome raftLog :=
  if i =? 0 then Ok l else
  if (l_committed l <? i) || (i <? l_applied l)
  then Panic "applied is out of range [prevApplied, committed]"
  else Ok (l <| l_applied := i |>).

Definition stableTo (l : raftLog) (i t : Z) : outcome raftLog :=
  let! u := Unstable.stableTo (l_unstable l) i t in Ok (l <| l_unstable := u |>).

Definition stableSnapTo (l : raftLog) (i : Z) : raftLog :=
  l <| l_unstable := Unstable.stableSnapTo (l_unstable l) i |>.

(** [append] returns the new last index along with the log. *)
Definition append (l : raftLog) (ents : list Entry) : outcome (raftLog * Z) :=
  if zlen ents =? 0 then let! last := lastIndex l in Ok (l, last) else
  let! e0 := at_ ents 0 in
  let after := eIndex e0 ⊟ 1 in
  if after <? l_committed l then Panic "after is out of range [committed]" else
  let! u := truncateAndAppend (l_unstable l) ents in
  let l' := l <| l_unstable := u |> in
  let! last := lastIndex l' in
  Ok (l', last).

(** The log line evaluates [lastIndex] and the existing term before returning. *)
Fixpoint findConflict (l : raftLog) (ents : list Entry) : outcome Z :=
  match ents with
  | [] => Ok 0
  | ne :: ents' =>
      let! m := matchTerm l (eIndex ne) (eTerm ne) in
      if negb m then
        let! last := lastIndex l in
        if eIndex ne <=? last then
          let! t := term l (eIndex ne) in
          let! _ := zeroTermOnErrCompacted t in
          Ok (eIndex ne)
        else Ok (eIndex ne)
      else findConflict l ents'
  end.

Definition maybeAppend (l : raftLog) (index logTerm committed : Z) (ents : list Entry)
  : outcome (raftLog * option Z) :=
  let lastnewi := index ⊞ zlen ents in
  let! m := matchTerm l index logTerm in
  if m then
    let! ci := findConflict l ents in
    let! l1 :=
      (if ci =? 0 then Ok l
       else if ci <=? l_committed l then Panic "entry conflicts with committed entry"
       else
         let offset := index ⊞ 1 in
         let! tail := slice_from ents (ci ⊟ offset) in
         let! '(l', _) := append l tail in Ok l') in
    let! l2 := commitTo l1 (Z.min committed lastnewi) in
    Ok (l2, Some lastnewi)
  else Ok (l, None).

(** Go evaluates the right operand of [&&] only when [maxIndex > committed]. *)
Definition maybeCommit (l : raftLog) (maxIndex t : Z) : outcome (raftLog * bool) :=
  if maxIndex >? l_committed l then
    let! r := term l maxIndex in
    let! t' := zeroTermOnErrCompacted r in
    if t' =? t then let! l' := commitTo l maxIndex in Ok (l', true) else Ok (l, false)
  else Ok (l, false).

Definition restore (l : raftLog) (s : Snapshot) : raftLog :=
  l <| l_committed := smIndex (sMetadata s) |>
    <| l_unstable := Unstable.restore (l_unstable l) s |>.
End raft_log.
Arguments raftLog : clear implicits.

(** ** The abstract log and the invariant *)

Section raft_log_spec.
  Context {St : Type} `{StorageSpec St}.
  Implicit Types (l : raftLog St) (i t lo hi : Z) (ents : list Entry).

(** The compaction point: the incoming snapshot's, else the storage's. *)
Definition log_base l : Z * Z :=
  match u_snapshot (l_unstable l) with
  | Some s => (smIndex (sMetadata s), smTerm (sMetadata s))
  | None => (a_off (sto_log (l_storage l)), a_offterm (sto_log (l_storage l)))
  end.

Definition log_abs l : alog :=
  mkAlog (fst (log_base l)) (snd (log_base l))
    (take (Z.to_nat (u_offset (l_unstable l) - 1 - fst (log_base l)))
       (a_ents (sto_log (l_storage l))) ++ u_entries (l_unstable l)).

#[global] Arguments log_base : simpl never.
#[global] Arguments log_abs : simpl never.

(** The unstable entries continue the snapshot or a part of the storage; when
    there is neither entry nor snapshot, they continue all of the storage. *)
Record log_inv l : Prop := {
  li_sto : sto_inv (l_storage l);
  li_contig : contiguous (u_offset (l_unstable l)) (u_entries (l_unstable l));
  li_max : u_offset (l_unstable l) + zlen (u_entries (l_unstable l)) <= MaxUint64;
  li_join : match u_snapshot (l_unstable l) with
            | None => let a := sto_log (l_storage l) in
                a_off a < u_offset (l_unstable l) <= a_last a + 1 /\
                (u_entries (l_unstable l) = [] -> u_offset (l_unstable l) = a_last a + 1)
            | Some s => 0 <= smIndex (sMetadata s) /\
                u_offset (l_unstable l) = smIndex (sMetadata s) + 1
            end
}.

(** [applied <= committed], both inside the log. *)
Record log_ptrs l : Prop := {
  lp_committed : a_off (log_abs l) <= l_committed l <= a_last (log_abs l);
  lp_applied : 0 <= l_applied l <= l_committed l
}.

Definition log_ok l : Prop := log_inv l /\ log_ptrs l.

Section with_inv.
  Context l (Hinv : log_inv l).

Lemma log_prefix_length :
  zlen (take (Z.to_nat (u_offset (l_unstable l) - 1 - fst (log_base l)))
       (a_ents (sto_log (l_storage l)))) = u_offset (l_unstable l) - 1 - fst (log_base l).
Proof.
  pose proof (li_join l Hinv) as Hj. unfold log_base, a_last in *.
  destruct (u_snapshot (l_unstable l)) as [s|]; cbn in *; rewrite length_take; lia.
Qed.

Lemma log_base_range : 0 <= fst (log_base l) < u_offset (l_unstable l).
Proof.
  pose proof (li_join l Hinv) as Hj. pose proof (sto_wf _ (li_sto l Hinv)) as (Ho & _).
  unfold log_base. destruct (u_snapshot (l_unstable l)) as [s|]; cbn in *; lia.
Qed.

Lemma log_off_range : 0 <= a_off (log_abs l) < u_offset (l_unstable l).
Proof. exact log_base_range. Qed.

Lemma log_last_eq :
  a_last (log_abs l) = u_offset (l_unstable l) + zlen (u_entries (l_unstable l)) - 1.
Proof.
  pose proof log_prefix_length. unfold a_last, log_abs; cbn [a_off a_ents].
  rewrite length_app. lia.
Qed.

Lemma log_entry_unstable i : u_offset (l_unstable l) <= i ->
  a_entry (log_abs l) i = u_entries (l_unstable l) !! Z.to_nat (i - u_offset (l_unstable l)).
Proof.
  intros Hi. pose proof log_prefix_length as Hp. pose proof log_base_range.
  unfold a_entry, log_abs; cbn [a_off a_ents]. zif; [lia|].
  rewrite lookup_app_r by lia. f_equal. lia.
Qed.

Lemma log_entry_stable i :
  a_off (log_abs l) < i < u_offset (l_unstable l) ->
  u_snapshot (l_unstable l) = None /\ a_off (log_abs l) = a_off (sto_log (l_storage l)) /\
  a_offterm (log_abs l) = a_offterm (sto_log (l_storage l)) /\
  a_entry (log_abs l) i = a_entry (sto_log (l_storage l)) i.
Proof.
  intros Hi. pose proof log_prefix_length as Hp. pose proof (li_join l Hinv) as Hj.
  unfold a_entry. unfold log_abs, log_base in *; cbn [a_off a_ents a_offterm] in *.
  destruct (u_snapshot (l_unstable l)) as [s|]; cbn in *; [lia|].
  split_and!; try done. zif; [done|].
  rewrite lookup_app_l, lookup_take_lt by lia. done.
Qed.

Lemma log_abs_wf : alog_wf (log_abs l).
Proof.
  pose proof log_base_range. pose proof log_last_eq. pose proof (li_max l Hinv).
  split_and!; [unfold log_abs; cbn [a_off]; lia|lia|].
  intros k e Hk. destruct (decide (fst (log_base l) + 1 + Z.of_nat k < u_offset (l_unstable l))).
  - destruct (log_entry_stable (fst (log_base l) + 1 + Z.of_nat k)) as (_ & Ho & _ & Hs); [unfold log_abs; cbn [a_off]; lia|].
    unfold a_entry in Hs at 1. unfold log_abs in Hs, Hk |- *; cbn [a_off a_ents] in Hs, Hk |- *.
    revert Hs. zif; [lia|]. intros Hs.
    replace (Z.to_nat (fst (log_base l) + 1 + Z.of_nat k - fst (log_base l) - 1)) with k in Hs by lia.
    rewrite Hs in Hk. eapply a_entry_index in Hk; [done|]. apply sto_wf, Hinv.
  - pose proof (log_entry_unstable (fst (log_base l) + 1 + Z.of_nat k) ltac:(lia)) as Hs.
    unfold a_entry in Hs. unfold log_abs in Hs, Hk |- *; cbn [a_off a_ents] in Hs, Hk |- *. revert Hs. zif; [lia|]. intros Hs.
    replace (Z.to_nat (fst (log_base l) + 1 + Z.of_nat k - fst (log_base l) - 1)) with k in Hs by lia.
    rewrite Hs in Hk. apply (li_contig l Hinv) in Hk. lia.
Qed.

Lemma firstIndex_eq : firstIndex l = Ok (a_off (log_abs l) + 1).
Proof.
  pose proof (li_join l Hinv) as Hj. pose proof (li_max l Hinv).
  unfold firstIndex, maybeFirstIndex, log_abs, log_base; cbn [a_off].
  destruct (u_snapshot (l_unstable l)) as [s|]; cbn in *.
  - by u64_simp.
  - by rewrite FirstIndex_spec by apply Hinv.
Qed.

Lemma lastIndex_eq : lastIndex l = Ok (a_last (log_abs l)).
Proof.
  pose proof (li_join l Hinv) as Hj. pose proof (li_max l Hinv).
  pose proof log_base_range. rewrite log_last_eq. unfold lastIndex, maybeLastIndex. zif.
  - destruct (u_entries (l_unstable l)) eqn:E; [|done].
    destruct (u_snapshot (l_unstable l)) as [s|]; cbn in *; [f_equal; lia|].
    rewrite LastIndex_spec by apply Hinv. cbn. f_equal.
    destruct Hj as [_ Hj]. specialize (Hj eq_refl). lia.
  - u64_simp. done.
Qed.

(** Reading a term never fails: outside the log it is zero. *)
Lemma term_eq i : 0 <= i -> term l i = Ok (default 0 (a_term (log_abs l) i), None).
Proof.
  intros Hi. pose proof log_abs_wf as (Ho & Hm & _).
  pose proof log_last_eq as Hlast. pose proof log_off_range as Hb.
  unfold term. rewrite firstIndex_eq, lastIndex_eq by done. gosimpl.
  assert (a_off (log_abs l) <= a_last (log_abs l)) by (unfold a_last; lia). u64_simp.
  replace (a_off (log_abs l) + 1 - 1) with (a_off (log_abs l)) by lia.
  assert (Hout : ~ (a_off (log_abs l) <= i <= a_last (log_abs l)) -> a_term (log_abs l) i = None).
  { intros Hn. destruct (a_term _ _) eqn:E; [|done]. destruct Hn. apply a_term_is_Some. by rewrite E. }
  zif; [by rewrite Hout by lia|]. zif; [by rewrite Hout by lia|].
  unfold maybeTerm. zif.
  - destruct (decide (i = a_off (log_abs l))) as [->|Hne].
    + unfold a_term. rewrite Z.eqb_refl. pose proof (li_join l Hinv) as Hj.
      unfold log_abs, log_base; cbn [a_off a_offterm]. destruct (u_snapshot (l_unstable l)); cbn.
      * by rewrite Z.eqb_refl.
      * erewrite Term_spec; [|apply Hinv|unfold a_term; by rewrite Z.eqb_refl]. done.
    + destruct (log_entry_stable i) as (Hs & Hoff & Hot & He); [lia|]. rewrite Hs. gosimpl.
      rewrite a_term_entry, He, <- a_term_entry by lia.
      destruct (a_term_in_range (sto_log (l_storage l)) i) as [t Ht].
      { pose proof (li_join l Hinv) as Hj. rewrite Hs in Hj. cbn in Hj. lia. }
      rewrite Ht. erewrite Term_spec; [|apply Hinv|done]. done.
  - unfold maybeLastIndex. zif; [lia|]. u64_simp. zif; [lia|].
    rewrite a_term_entry, log_entry_unstable by lia.
    destruct (at_in_range (u_entries (l_unstable l)) (i - u_offset (l_unstable l))) as (e & He & ->);
      [lia|]. u64_simp. by rewrite He.
Qed.

Lemma matchTerm_eq i t : 0 <= i ->
  matchTerm l i t = Ok (default 0 (a_term (log_abs l) i) =? t).
Proof. intros. unfold matchTerm. by rewrite term_eq. Qed.

Lemma lastTerm_eq : lastTerm l = Ok (default 0 (a_term (log_abs l) (a_last (log_abs l)))).
Proof.
  pose proof log_abs_wf as (Ho & Hm & _).
  unfold lastTerm. rewrite lastIndex_eq by done. gosimpl. rewrite term_eq; [done|].
  unfold a_last. lia.
Qed.

Lemma mustCheckOutOfBounds_eq lo hi : lo <= hi -> hi <= a_last (log_abs l) + 1 ->
  mustCheckOutOfBounds l lo hi = Ok (if lo <=? a_off (log_abs l) then Some ErrCompacted else None).
Proof.
  intros Hlo Hhi. pose proof log_abs_wf as (Ho & Hm & _).
  assert (a_off (log_abs l) <= a_last (log_abs l)) by (unfold a_last; lia).
  unfold mustCheckOutOfBounds. zif; [lia|]. rewrite firstIndex_eq, lastIndex_eq by done. gosimpl.
  u64_simp. zif; [destruct (Z.leb_spec lo (a_off (log_abs l))); [done|lia]|].
  zif; [lia|]. destruct (Z.leb_spec lo (a_off (log_abs l))); [lia|done].
Qed.
Lemma log_slice_stable lo hi :
  a_off (log_abs l) < lo -> lo < hi -> hi <= u_offset (l_unstable l) ->
  a_off (log_abs l) = a_off (sto_log (l_storage l)) /\
  hi <= a_last (sto_log (l_storage l)) + 1 /\
  a_slice (log_abs l) lo hi = a_slice (sto_log (l_storage l)) lo hi.
Proof.
  intros Hlo Hlt Hhi. destruct (log_entry_stable lo) as (Hs & Ho & _); [lia|].
  pose proof (li_join l Hinv) as Hj. rewrite Hs in Hj; cbn in Hj. split_and!; [done|lia|].
  apply list_eq. intros k. rewrite !a_slice_lookup by lia. zif; [|done].
  apply log_entry_stable. lia.
Qed.

Lemma log_slice_unstable lo hi :
  u_offset (l_unstable l) <= lo -> lo <= hi -> hi <= a_last (log_abs l) + 1 ->
  Unstable.slice (l_unstable l) lo hi = Ok (a_slice (log_abs l) lo hi).
Proof.
  intros Hlo Hlt Hhi. pose proof log_last_eq. pose proof log_off_range. pose proof (li_max l Hinv).
  unfold Unstable.slice, Unstable.mustCheckOutOfBounds. zif; [lia|]. u64_simp.
  zif; [lia|]. zif; [lia|]. gosimpl. rewrite slice2_Ok by lia. f_equal.
  apply list_eq. intros k. rewrite a_slice_lookup by lia. rewrite lookup_take, lookup_drop.
  zif.
  - rewrite decide_True by lia. rewrite log_entry_unstable by lia. f_equal. lia.
  - rewrite decide_False by lia. done.
Qed.
End with_inv.

Lemma a_slice_app (a : alog) lo mid hi :
  a_off a < lo -> lo <= mid -> mid <= hi -> hi <= a_last a + 1 ->
  a_slice a lo hi = a_slice a lo mid ++ a_slice a mid hi.
Proof.
  intros. apply list_eq. intros k.
  pose proof (a_slice_length a lo mid). destruct (decide (Z.of_nat k < mid - lo)).
  - rewrite lookup_app_l by lia. rewrite !a_slice_lookup by lia. repeat zif; done || lia.
  - rewrite lookup_app_r by lia. rewrite !a_slice_lookup by lia. repeat zif; try done; try lia.
    f_equal. lia.
Qed.

Lemma slice_unstable_eq l lo hi max ents :
  log_inv l -> a_off (log_abs l) < lo -> lo < hi -> hi <= a_last (log_abs l) + 1 ->
  ents = a_slice (log_abs l) lo (Z.max lo (Z.min hi (u_offset (l_unstable l)))) ->
  slice_unstable l lo hi max ents = Ok (limitSize (a_slice (log_abs l) lo hi) max, None).
Proof.
  intros Hinv Hlo Hlt Hhi ->. unfold slice_unstable. set (off := u_offset (l_unstable l)).
  zif.
  - rewrite log_slice_unstable by (try done; lia). gosimpl. do 3 f_equal.
    replace (Z.max lo (Z.min hi off)) with (Z.max lo off) by lia.
    rewrite (a_slice_app _ lo (Z.max lo off) hi) by lia.
    pose proof (a_slice_length (log_abs l) lo (Z.max lo off)). zif; [done|].
    destruct (a_slice (log_abs l) lo (Z.max lo off)); cbn in *; [done|lia].
  - do 3 f_equal. f_equal. lia.
Qed.

Lemma slice_in_range l lo hi max :
  log_inv l -> a_off (log_abs l) < lo -> lo <= hi -> hi <= a_last (log_abs l) + 1 ->
  exists ents, slice l lo hi max = Ok (ents, None) /\
    ents `prefix_of` a_slice (log_abs l) lo hi /\ (lo < hi -> ents <> []) /\
    (max = noLimit -> ents = a_slice (log_abs l) lo hi).
Proof.
  intros Hinv Hlo Hle Hhi. pose proof (log_abs_wf l Hinv) as (Ho & Hm & _).
  unfold slice. rewrite mustCheckOutOfBounds_eq by (try done; lia). gosimpl.
  rewrite (proj2 (Z.leb_gt _ _)) by lia.
  destruct (Z.eqb_spec lo hi) as [->|Hne].
  { eexists. split_and!; [done|apply prefix_nil|lia|].
    intros _. by rewrite a_slice_empty. }
  assert (Hlim : forall ents, ents = limitSize (a_slice (log_abs l) lo hi) max ->
    ents `prefix_of` a_slice (log_abs l) lo hi /\ (lo < hi -> ents <> []) /\
    (max = noLimit -> ents = a_slice (log_abs l) lo hi)).
  { intros ents ->. split_and!; [apply limitSize_prefix| |by intros ->; apply limitSize_noLimit].
    intros _. apply limitSize_nonempty, a_slice_nonempty; lia. }
  zif.
  + set (mid := Z.min hi (u_offset (l_unstable l))) in *.
    destruct (log_slice_stable l Hinv lo mid) as (Hoff & Hmid & Hsl); [lia..|].
    destruct (Entries_spec (l_storage l) lo mid max) as (st & -> & Hpre & Hst & Hfull);
      [apply Hinv|lia|lia|lia|]. gosimpl. rewrite <- Hsl in *.
    pose proof (log_last_eq l Hinv). pose proof (li_max l Hinv). u64_simp. zif.
    * eexists. split_and!; [done| |done|].
      -- etrans; [done|]. rewrite (a_slice_app _ lo mid hi) by lia. by apply prefix_app_r.
      -- intros Hn. rewrite (Hfull Hn), a_slice_length in *; lia.
    * eexists. split; [|by apply Hlim].
      apply slice_unstable_eq; try done; [lia|].
      replace (Z.max lo _) with mid by lia.
      pose proof (a_slice_length (log_abs l) lo mid ltac:(lia) ltac:(lia) ltac:(lia)) as Hlen.
      destruct Hpre as [k Hk]. rewrite Hk in Hlen |- *. rewrite length_app in Hlen.
      destruct k; [by rewrite app_nil_r|cbn [length] in Hlen; lia].
  + eexists. split; [|by apply Hlim]. apply slice_unstable_eq; try done; [lia|].
    replace (Z.max lo _) with lo by lia. by rewrite a_slice_empty.
Qed.

(** C29. [slice] is total on the log: below the first index it returns
    [ErrCompacted]; inside, it returns a prefix of exactly the asked entries,
    crossing from storage to the unstable entries, that is not empty and is
    complete when there is no size limit; and a range that is backwards or
    ends past the last index panics. *)
Theorem slice_refines l lo hi max :
  log_inv l -> 0 <= lo -> hi < MaxUint64 ->
  (hi < lo \/ (a_off (log_abs l) < lo /\ a_last (log_abs l) + 1 < hi) ->
     exists w, slice l lo hi max = Panic w) /\
  (lo <= hi -> lo <= a_off (log_abs l) -> slice l lo hi max = Ok ([], Some ErrCompacted)) /\
  (a_off (log_abs l) < lo -> lo <= hi -> hi <= a_last (log_abs l) + 1 ->
     exists ents, slice l lo hi max = Ok (ents, None) /\
       ents `prefix_of` a_slice (log_abs l) lo hi /\ (lo < hi -> ents <> []) /\
       (max = noLimit -> ents = a_slice (log_abs l) lo hi)).
Proof.
  intros Hinv H0lo Hhimax. pose proof (log_abs_wf l Hinv) as (Ho & Hm & _).
  assert (a_off (log_abs l) <= a_last (log_abs l)) by (unfold a_last; lia).
  split_and!.
  - intros Hbad. unfold slice, mustCheckOutOfBounds. rewrite firstIndex_eq, lastIndex_eq by done.
    gosimpl. u64_simp. zif; [by eexists|]. zif; [lia|]. zif; [by eexists|lia].
  - intros Hle Hlo. unfold slice, mustCheckOutOfBounds. rewrite firstIndex_eq by done. gosimpl.
    zif; [lia|]. zif; [done|lia].
  - intros. by apply slice_in_range.
Qed.

Lemma isUpToDate_eq l lasti t :
  log_inv l ->
  let lt := default 0 (a_term (log_abs l) (a_last (log_abs l))) in
  isUpToDate l lasti t = Ok ((lt <? t) || ((t =? lt) && (a_last (log_abs l) <=? lasti))).
Proof.
  intros Hinv lt. unfold isUpToDate. rewrite lastTerm_eq, lastIndex_eq by done. gosimpl. fold lt.
  zif; [done|]. zif; [by rewrite Z.geb_leb|done].
Qed.

(** [isUpToDate] never panics and is the lexicographic comparison of raft
    section 5.4.1: a candidate's last term is larger than the log's, or equal
    with a last index that is not smaller. *)
Theorem isUpToDate_spec l lasti t :
  log_inv l ->
  exists b, isUpToDate l lasti t = Ok b /\
    (b = true <->
       let lt := default 0 (a_term (log_abs l) (a_last (log_abs l))) in
       lt < t \/ (t = lt /\ a_last (log_abs l) <= lasti)).
Proof.
  intros Hinv. rewrite isUpToDate_eq by done. eexists. split; [done|]. cbv zeta.
  rewrite orb_true_iff, andb_true_iff, Z.ltb_lt, Z.eqb_eq, Z.leb_le. done.
Qed.


(** ** Appending *)

Lemma truncateAndAppend_eq (u : unstable) ents n :
  contiguous (u_offset u) (u_entries u) -> 0 < u_offset u ->
  u_offset u + zlen (u_entries u) <= MaxUint64 ->
  contiguous n ents -> ents <> [] -> 0 < n <= u_offset u + zlen (u_entries u) ->
  exists u', truncateAndAppend u ents = Ok u' /\
    u_snapshot u' = u_snapshot u /\ u_offset u' = Z.min (u_offset u) n /\
    contiguous (u_offset u') (u_entries u') /\
    u_offset u' + zlen (u_entries u') = n + zlen ents /\
    forall i, u_offset u' <= i -> u_entries u' !! Z.to_nat (i - u_offset u') =
      if i <? n then u_entries u !! Z.to_nat (i - u_offset u) else ents !! Z.to_nat (i - n).
Proof.
  intros Hcu Hoff Hmax Hc Hne Hn. destruct ents as [|e ents]; [done|].
  pose proof (contiguous_head _ _ _ Hc) as He.
  unfold truncateAndAppend. rewrite at_head. gosimpl. rewrite He. u64_simp.
  assert (Happ : forall pre, contiguous (u_offset u) pre -> u_offset u + zlen pre = n ->
     (forall i, u_offset u <= i < n ->
        pre !! Z.to_nat (i - u_offset u) = u_entries u !! Z.to_nat (i - u_offset u)) ->
     exists u', Ok (u <| u_entries := pre ++ e :: ents |>) = Ok u' /\
    u_snapshot u' = u_snapshot u /\ u_offset u' = Z.min (u_offset u) n /\
    contiguous (u_offset u') (u_entries u') /\
    u_offset u' + zlen (u_entries u') = n + zlen (e :: ents) /\
    forall i, u_offset u' <= i -> u_entries u' !! Z.to_nat (i - u_offset u') =
      if i <? n then u_entries u !! Z.to_nat (i - u_offset u) else (e :: ents) !! Z.to_nat (i - n)).
  { intros pre Hcp Hlp Hlk. eexists. split; [done|]. cbn [u_snapshot u_offset u_entries upd].
    split_and!; [done|cbn; lia| | |].
    - apply contiguous_app. split; [done|]. cbn. by rewrite Hlp.
    - cbn. rewrite length_app. cbn [length]. lia.
    - cbn. intros i Hi. zif.
      + rewrite lookup_app_l by lia. apply Hlk. lia.
      + rewrite lookup_app_r by lia. f_equal. lia. }
  zif; [apply Happ; [done|lia|done]|]. zif.
  - eexists. split; [done|]. cbn. replace (n - 1 + 1) with n by lia.
    split_and!; [done|lia|done|cbn [length]; lia|]. intros i Hi. zif; [lia|done].
  - unfold Unstable.slice, Unstable.mustCheckOutOfBounds. rewrite Z.gtb_ltb.
    replace (n - 1 + 1) with n by lia. zif; [lia|]. u64_simp. zif; [lia|]. zif; [lia|].
    gosimpl. rewrite slice2_Ok by lia. gosimpl. rewrite Z.sub_diag. cbn [Z.to_nat]. rewrite drop_0.
    rewrite Z.sub_0_r. apply Happ.
    + by apply contiguous_take.
    + rewrite length_take. lia.
    + intros i Hi. rewrite lookup_take_lt by lia. done.
Qed.

(** Only the unstable part changes: committed, applied and storage stay. *)
Definition same_rest l l' : Prop :=
  l_storage l' = l_storage l /\ l_committed l' = l_committed l /\ l_applied l' = l_applied l.

(** Putting back what [truncateAndAppend] returns is the abstract append. *)
Lemma log_abs_append l u' ents n :
  log_inv l -> contiguous n ents -> ents <> [] ->
  a_off (log_abs l) < n <= a_last (log_abs l) + 1 -> n + zlen ents - 1 < MaxUint64 ->
  u_snapshot u' = u_snapshot (l_unstable l) ->
  u_offset u' = Z.min (u_offset (l_unstable l)) n ->
  contiguous (u_offset u') (u_entries u') -> u_offset u' + zlen (u_entries u') = n + zlen ents ->
  (forall i, u_offset u' <= i -> u_entries u' !! Z.to_nat (i - u_offset u') =
      if i <? n then u_entries (l_unstable l) !! Z.to_nat (i - u_offset (l_unstable l))
      else ents !! Z.to_nat (i - n)) ->
  log_inv (l <| l_unstable := u' |>) /\
  log_abs (l <| l_unstable := u' |>) = a_append (log_abs l) ents.
Proof.
  intros Hinv Hc Hne Hn Hmax Hsn Hoff Hcu Hlen Hlk.
  pose proof (log_abs_wf l Hinv) as Hwf. pose proof (log_last_eq l Hinv) as Hlast.
  assert (Hlene : 0 < zlen ents) by (destruct ents; [done|cbn [length]; lia]).
  assert (Hbase : log_base (l <| l_unstable := u' |>) = log_base l).
  { unfold log_base; cbn. by rewrite Hsn. }
  assert (Hinv' : log_inv (l <| l_unstable := u' |>)).
  { pose proof (li_join l Hinv) as Hj. constructor; cbn; [apply Hinv|done|lia|].
    unfold log_abs, log_base in Hn; cbn [a_off] in Hn. rewrite Hsn.
    destruct (u_snapshot (l_unstable l)); cbn in *; [lia|].
    split; [lia|]. intros Hnil. rewrite Hnil in Hlen. cbn in Hlen. lia. }
  split; [done|]. pose proof (log_last_eq _ Hinv') as Hlast'. cbn in Hlast'.
  apply alog_ext.
  - by rewrite a_off_append; unfold log_abs; rewrite Hbase.
  - by rewrite a_offterm_append; unfold log_abs; rewrite Hbase.
  - rewrite (a_last_append _ _ n) by done. rewrite Hlast'. lia.
  - intros i Hi. rewrite (a_entry_append _ _ _ n) by done.
    assert (Hao : a_off (log_abs (l <| l_unstable := u' |>)) = a_off (log_abs l))
      by (unfold log_abs; cbn [a_off]; by rewrite Hbase).
    rewrite Hao in Hi. destruct (Z.ltb_spec i (u_offset u')).
    + destruct (log_entry_stable _ Hinv' i) as (_ & _ & _ & ->); [rewrite Hao; cbn; lia|]. cbn.
      zif; [|lia]. symmetry. apply log_entry_stable; [done|lia].
    + rewrite (log_entry_unstable _ Hinv') by (cbn; lia). cbn. rewrite Hlk by lia.
      zif; [|done]. symmetry. apply log_entry_unstable; [done|lia].
Qed.

Lemma append_eq l ents n :
  log_inv l -> contiguous n ents -> ents <> [] ->
  a_off (log_abs l) < n <= a_last (log_abs l) + 1 -> n + zlen ents - 1 < MaxUint64 ->
  l_committed l < n ->
  exists l', append l ents = Ok (l', n + zlen ents - 1) /\ log_inv l' /\
    log_abs l' = a_append (log_abs l) ents /\ same_rest l l'.
Proof.
  intros Hinv Hc Hne Hn Hmax Hcom.
  pose proof (log_abs_wf l Hinv) as (Ho & _). pose proof (log_last_eq l Hinv) as Hlast.
  pose proof (log_off_range l Hinv) as Hb.
  destruct (truncateAndAppend_eq (l_unstable l) ents n) as (u' & Hu & Hsn & Hoff & Hcu & Hlen & Hlk);
    [apply Hinv|lia|apply Hinv|done|done|lia|].
  destruct (log_abs_append l u' ents n) as [Hinv' Habs]; try done.
  exists (l <| l_unstable := u' |>). split; [|done].
  unfold append. destruct ents as [|e ents]; [done|].
  zif; [cbn [length] in *; lia|]. rewrite at_head. gosimpl. rewrite (contiguous_head _ _ _ Hc).
  u64_simp. zif; [lia|]. rewrite Hu. gosimpl. rewrite lastIndex_eq by done. gosimpl.
  by rewrite Habs, (a_last_append _ _ n).
Qed.

(** C28. [append] with contiguous entries starting inside the log or right
    after it replaces the log from there on and leaves storage, committed and
    applied alone; starting at or below the committed index it panics. *)
Theorem append_refines l ents n :
  log_inv l -> contiguous n ents -> ents <> [] -> 0 < n ->
  n <= a_last (log_abs l) + 1 -> n + zlen ents - 1 < MaxUint64 -> a_off (log_abs l) <= l_committed l ->
  (l_committed l < n ->
   exists l', append l ents = Ok (l', n + zlen ents - 1) /\ log_inv l' /\ same_rest l l' /\
     a_last (log_abs l') = n + zlen ents - 1 /\
     forall i, a_entry (log_abs l') i =
       if i <? n then a_entry (log_abs l) i else ents !! Z.to_nat (i - n)) /\
  (n <= l_committed l -> append l ents = Panic "after is out of range [committed]").
Proof.
  intros Hinv Hc Hne Hn0 Hn Hmax Hoc. split.
  - intros Hcom. destruct (append_eq l ents n) as (l' & -> & Hinv' & Habs & Hsame); try done; [lia|].
    exists l'. split_and!; [done..| |].
    + rewrite Habs. apply a_last_append; try done. lia.
    + intros i. rewrite Habs. apply a_entry_append; try done; [by apply log_abs_wf|lia].
  - intros Hcom. unfold append. destruct ents as [|e ents]; [done|].
    zif; [cbn [length] in *; lia|]. rewrite at_head. gosimpl. rewrite (contiguous_head _ _ _ Hc).
    pose proof (log_abs_wf l Hinv) as (_ & Hm & _). cbn [length] in Hmax. u64_simp. zif; [done|lia].
Qed.

(** ** Finding conflicts *)

(** Entry [e] of an incoming message agrees with the log. *)
Definition agrees (a : alog) (e : Entry) : bool := default 0 (a_term a (eIndex e)) =? eTerm e.

Lemma findConflict_eq l ents :
  log_inv l -> Forall (fun e => 0 <= eIndex e) ents ->
  findConflict l ents = Ok (match List.find (fun e => negb (agrees (log_abs l) e)) ents with
                         | Some e => eIndex e | None => 0 end).
Proof.
  intros Hinv. induction 1 as [|e ents He Hents IH]; [done|].
  cbn [findConflict List.find]. rewrite matchTerm_eq by done. gosimpl. unfold agrees at 1.
  destruct (negb _) eqn:Hm; rewrite ?Hm; [|done].
  rewrite lastIndex_eq by done. gosimpl. zif; [|done]. rewrite term_eq by done. done.
Qed.

(** The entries before the conflict agree, the one found does not. *)
Lemma find_conflict_split (a : alog) n ents :
  contiguous n ents -> 0 < n ->
  match List.find (fun e => negb (agrees a e)) ents with
  | None => Forall (fun e => agrees a e = true) ents
  | Some e => exists pre post, ents = pre ++ e :: post /\ agrees a e = false /\
      Forall (fun e => agrees a e = true) pre /\ eIndex e = n + zlen pre
  end.
Proof.
  revert n. induction ents as [|e ents IH]; intros n Hc Hn; cbn [List.find]; [done|].
  apply contiguous_cons in Hc as [He Hc]. destruct (agrees a e) eqn:Ea; cbn.
  - specialize (IH (n + 1) Hc ltac:(lia)). destruct (List.find _ ents) as [c|].
    + destruct IH as (pre & post & -> & ? & ? & ?). exists (e :: pre), post.
      split_and!; try done; [by constructor|]. cbn [length]. lia.
    + by constructor.
  - exists [], ents. split_and!; try done. cbn. lia.
Qed.

(** ** Pointers *)

Lemma commitTo_eq l c : log_inv l -> c <= a_last (log_abs l) ->
  commitTo l c = Ok (l <| l_committed := Z.max (l_committed l) c |>).
Proof.
  intros Hinv Hc. unfold commitTo. zif.
  - rewrite lastIndex_eq by done. gosimpl. zif; [lia|]. by rewrite Z.max_r by lia.
  - rewrite Z.max_l by lia. by destruct l.
Qed.

Lemma commitTo_panic l c : log_inv l -> l_committed l <= a_last (log_abs l) < c ->
  commitTo l c = Panic "tocommit is out of range [lastIndex]".
Proof.
  intros Hinv Hc. unfold commitTo. zif; [|lia].
  rewrite lastIndex_eq by done. gosimpl. zif; [done|lia].
Qed.

Lemma log_inv_committed l c : log_inv l ->
  log_inv (l <| l_committed := c |>) /\ log_abs (l <| l_committed := c |>) = log_abs l.
Proof. intros [A B C D]. by repeat split. Qed.

(** ** [maybeAppend] *)

Lemma agrees_Some (a : alog) e :
  agrees a e = true -> 0 < eTerm e -> a_term a (eIndex e) = Some (eTerm e).
Proof.
  unfold agrees. rewrite Z.eqb_eq. intros Ha Ht.
  destruct (a_term a (eIndex e)); cbn in Ha; [congruence|lia].
Qed.

Lemma agree_in_log (a : alog) n ents :
  contiguous n ents -> Forall (fun e => 0 < eTerm e) ents ->
  Forall (fun e => agrees a e = true) ents -> n - 1 <= a_last a -> n + zlen ents - 1 <= a_last a.
Proof.
  intros Hc Ht Ha Hn. destruct ents as [|e pre _] using rev_ind; [cbn; lia|].
  apply contiguous_app in Hc as [_ Hc%contiguous_head].
  rewrite Forall_app, Forall_singleton in Ht, Ha. destruct Ht as [_ Ht], Ha as [_ Ha].
  pose proof (mk_is_Some _ _ (agrees_Some a e Ha Ht)) as Hr.
  apply a_term_is_Some in Hr. rewrite length_app. cbn [length]. lia.
Qed.

(** What a successful [maybeAppend] makes of the log. *)
Definition appended (a : alog) (ents : list Entry) (a' : alog) : Prop :=
  (Forall (fun e => agrees a e = true) ents /\ a' = a) \/
  (exists pre e post, ents = pre ++ e :: post /\ Forall (fun e => agrees a e = true) pre /\
     agrees a e = false /\ a' = a_append a (e :: post)).

Section maybe_append.
  Context l (index logTerm committed : Z) ents.
  Context (Hok : log_ok l) (Hc : contiguous (index + 1) ents).
  Context (Ht : Forall (fun e => 0 < eTerm e) ents).
  Context (Hidx : a_off (log_abs l) <= index) (Hmax : index + zlen ents < MaxUint64).
  Context (Hzero : index <= a_last (log_abs l) \/ logTerm <> 0).

Lemma maybeAppend_index : default 0 (a_term (log_abs l) index) = logTerm ->
  index <= a_last (log_abs l).
Proof.
  intros Hm. destruct Hzero; [done|].
  destruct (a_term (log_abs l) index) eqn:E; cbn in Hm; [|lia].
  pose proof (mk_is_Some _ _ E) as Hr. apply a_term_is_Some in Hr. lia.
Qed.

Lemma maybeAppend_reject : default 0 (a_term (log_abs l) index) <> logTerm ->
  maybeAppend l index logTerm committed ents = Ok (l, None).
Proof.
  intros Hm. destruct Hok as [Hinv _]. pose proof (log_off_range l Hinv).
  unfold maybeAppend. rewrite matchTerm_eq by (try done; lia). gosimpl. zif; done.
Qed.

Lemma maybeAppend_findConflict :
  findConflict l ents
    = Ok (match List.find (fun e => negb (agrees (log_abs l) e)) ents with
                         | Some e => eIndex e | None => 0 end).
Proof.
  destruct Hok as [Hinv _]. pose proof (log_off_range l Hinv). apply findConflict_eq; [done|].
  apply Forall_lookup. intros k e He. specialize (Hc _ _ He). lia.
Qed.

Lemma maybeAppend_accept :
  default 0 (a_term (log_abs l) index) = logTerm ->
  Forall (fun e => eIndex e <= l_committed l -> agrees (log_abs l) e = true) ents ->
  exists l', maybeAppend l index logTerm committed ents = Ok (l', Some (index + zlen ents)) /\
    log_inv l' /\ l_storage l' = l_storage l /\ l_applied l' = l_applied l /\
    l_committed l' = Z.max (l_committed l) (Z.min committed (index + zlen ents)) /\
    appended (log_abs l) ents (log_abs l') /\ index + zlen ents <= a_last (log_abs l').
Proof.
  intros Hm Hcom. pose proof (maybeAppend_index Hm) as Hil. pose proof maybeAppend_findConflict as Hfc.
  destruct Hok as [Hinv Hptr]. pose proof (log_off_range l Hinv).
  pose proof (log_abs_wf l Hinv) as (_ & Hlm & _).
  unfold maybeAppend. rewrite matchTerm_eq by (try done; lia). rewrite Hm, Z.eqb_refl. gosimpl.
  rewrite Hfc. gosimpl. u64_simp.
  pose proof (find_conflict_split (log_abs l) (index + 1) ents Hc ltac:(lia)) as Hsplit.
  destruct (List.find _ ents) as [e|]; cbn match.
  - destruct Hsplit as (pre & post & -> & Hdis & Hpre & He).
    rewrite Forall_app in Ht, Hcom. destruct Ht as [Htp _], Hcom as [_ Hcom].
    apply Forall_cons_1 in Hcom as [Hcom _].
    assert (l_committed l < eIndex e).
    { destruct (decide (eIndex e <= l_committed l)) as [Hle|]; [|lia]. rewrite Hcom in Hdis; done. }
    apply contiguous_app in Hc as [Hcp Hce]. rewrite length_app in *. cbn [length] in *.
    pose proof (agree_in_log _ _ _ Hcp Htp Hpre ltac:(lia)) as Hlen.
    zif; [lia|]. zif; [lia|]. u64_simp.
    rewrite slice_from_Ok by (rewrite length_app; cbn [length]; lia). gosimpl.
    replace (Z.to_nat (eIndex e - (index + 1))) with (length pre) by lia. rewrite drop_app_length.
    destruct (append_eq l (e :: post) (eIndex e)) as (l1 & -> & Hinv1 & Habs1 & Hst & Hco & Hap);
      try done; [by rewrite He|lia|cbn [length]; lia|]. gosimpl.
    assert (Hl1 : a_last (log_abs l1) = index + (zlen pre + 1 + zlen post)).
    { rewrite Habs1, (a_last_append _ _ (eIndex e)); cbn [length]; try done; [lia|by rewrite He|lia]. }
    rewrite commitTo_eq by (try done; lia). gosimpl.
    destruct (log_inv_committed l1 (Z.max (l_committed l1) (Z.min committed (index + Z.of_nat (length pre + S (length post))))) Hinv1) as [Hinv2 Habs2].
    eexists. split_and!; [done|done|done|done|cbn; lia| |rewrite Habs2; lia].
    right. exists pre, e, post. by rewrite Habs2.
  - pose proof (agree_in_log _ _ _ Hc Ht Hsplit ltac:(lia)) as Hlen.
    zif; [|done]. gosimpl. rewrite commitTo_eq by (try done; lia). gosimpl.
    destruct (log_inv_committed l (Z.max (l_committed l) (Z.min committed (index + zlen ents))) Hinv) as [Hinv2 Habs2].
    eexists. split_and!; [done|done|done|done|done| |rewrite Habs2; lia]. left. by rewrite Habs2.
Qed.

Lemma maybeAppend_conflict :
  default 0 (a_term (log_abs l) index) = logTerm ->
  Exists (fun e => eIndex e <= l_committed l /\ agrees (log_abs l) e = false) ents ->
  maybeAppend l index logTerm committed ents = Panic "entry conflicts with committed entry".
Proof.
  intros Hm Hex. pose proof maybeAppend_findConflict as Hfc.
  destruct Hok as [Hinv _]. pose proof (log_off_range l Hinv).
  unfold maybeAppend. rewrite matchTerm_eq by (try done; lia). rewrite Hm, Z.eqb_refl. gosimpl.
  rewrite Hfc. gosimpl.
  pose proof (find_conflict_split (log_abs l) (index + 1) ents Hc ltac:(lia)) as Hsplit.
  apply Exists_exists in Hex as (e' & Hin & Hle & Hdis').
  destruct (List.find _ ents) as [e|]; cbn match.
  - destruct Hsplit as (pre & post & -> & Hdis & Hpre & He). zif; [lia|].
    assert (eIndex e <= eIndex e').
    { apply elem_of_app in Hin as [Hin|Hin].
      - rewrite Forall_forall in Hpre. specialize (Hpre _ Hin). congruence.
      - apply list_elem_of_lookup in Hin as [k Hk].
        apply contiguous_app in Hc as [_ Hce]. specialize (Hce _ _ Hk). lia. }
    zif; [done|lia].
  - rewrite Forall_forall in Hsplit. specialize (Hsplit _ Hin). congruence.
Qed.
End maybe_append.

Section appended_facts.
  Context (a a' : alog) n ents (Hwf : alog_wf a) (Hc : contiguous n ents).
  Context (Hn : a_off a < n <= a_last a + 1) (Ht : Forall (fun e => 0 < eTerm e) ents).
  Context (Ha : appended a ents a').

Lemma appended_off : a_off a' = a_off a.
Proof. destruct Ha as [[_ ->]|(pre & e & post & _ & _ & _ & ->)]; [done|]. apply a_off_append. Qed.

(** The point where the new entries take over, when there is a conflict. *)
Lemma appended_conflict pre e post :
  ents = pre ++ e :: post -> Forall (fun e => agrees a e = true) pre ->
  contiguous (eIndex e) (e :: post) /\ a_off a < eIndex e <= a_last a + 1.
Proof using Hc Hn Ht.
  clear Ha. intros -> Hp. apply contiguous_app in Hc as [Hcp Hce]. pose proof (contiguous_head _ _ _ Hce) as He.
  rewrite Forall_app in Ht. pose proof (agree_in_log a n pre Hcp (proj1 Ht) Hp ltac:(lia)).
  rewrite He. split; [done|lia].
Qed.

(** Entries below every conflict are the ones the log had. *)
Lemma appended_before i :
  (forall e, e ∈ ents -> agrees a e = false -> i < eIndex e) -> a_entry a' i = a_entry a i.
Proof.
  intros Hi. destruct Ha as [[_ ->]|(pre & e & post & Heq & Hp & Hd & ->)]; [done|].
  destruct (appended_conflict pre e post Heq Hp) as [Hce He].
  rewrite (a_entry_append _ _ _ (eIndex e)) by done.
  pose proof (Hi e) as Hie. rewrite Heq in Hie. specialize (Hie ltac:(set_solver) Hd). zif; [done|lia].
Qed.

(** From the first conflict on the log holds exactly the given entries. *)
Lemma appended_after pre e post : ents = pre ++ e :: post -> Forall (fun e => agrees a e = true) pre -> agrees a e = false ->
  a_last a' = n + zlen ents - 1 /\
  forall i, a_entry a' i = if i <? eIndex e then a_entry a i else (e :: post) !! Z.to_nat (i - eIndex e).
Proof.
  intros Heq Hp Hd. destruct Ha as [[Hall _]|(pre' & e' & post' & Heq' & Hp' & Hd' & ->)].
  { rewrite Heq, Forall_app, Forall_cons in Hall. destruct Hall as (_ & ? & _). congruence. }
  destruct (first_split_unique (fun e => agrees a e = true) pre e post pre' e' post') as (-> & -> & ->);
    [congruence|done|by rewrite Hd|done|by rewrite Hd'|].
  destruct (appended_conflict pre' e' post' Heq Hp) as [Hce He]. split.
  - rewrite (a_last_append _ _ (eIndex e')) by done. rewrite Heq, length_app. cbn [length].
    rewrite Heq in Hc. apply contiguous_app in Hc as [_ Hcc%contiguous_head]. lia.
  - intros i. by rewrite (a_entry_append _ _ _ (eIndex e')).
Qed.

(** Every given entry is matched, index and term, by the new log. *)
Lemma appended_terms e : e ∈ ents -> a_term a' (eIndex e) = Some (eTerm e).
Proof.
  intros Hin. pose proof Ht as Ht'. rewrite Forall_forall in Ht'.
  destruct Ha as [[Hall ->]|(pre & c & post & Heq & Hp & Hd & ->)].
  { rewrite Forall_forall in Hall. apply agrees_Some; auto. }
  destruct (appended_conflict pre c post Heq Hp) as [Hce Hcr].
  pose proof Hin as Hk. apply list_elem_of_lookup in Hk as [k Hk].
  pose proof (Hc _ _ Hk) as Hei. pose proof Hc as Hc'.
  rewrite Heq, contiguous_app in Hc'. destruct Hc' as [_ Hcc%contiguous_head].
  rewrite a_term_entry by (rewrite a_off_append; lia).
  rewrite (a_entry_append _ _ _ (eIndex c)) by done. rewrite Heq in Hk. zif.
  - rewrite <- a_term_entry by lia. rewrite Forall_forall in Hp. apply agrees_Some; [|by apply Ht'].
    apply Hp. rewrite lookup_app_l in Hk by lia. apply list_elem_of_lookup; eauto.
  - rewrite lookup_app_r in Hk by lia. replace (Z.to_nat _) with (k - length pre)%nat by lia.
    by rewrite Hk.
Qed.
End appended_facts.

(** C14. The follower's consistency check.  For contiguous entries with
    non-zero terms after an index inside the log, [maybeAppend] (1) rejects and
    changes nothing when the term at [index] differs; (2) panics when an entry
    conflicts with a committed one; and (3) otherwise succeeds with last new
    index [index + len(ents)]: afterwards every given entry is matched by the
    log, everything up to [index] and up to the old commit index is the entry
    it was, and the commit index is raised to [min(committed, lastnewi)], never
    lowered.  A message that brings nothing new leaves the log as it is; when
    there is a first entry that conflicts, the log keeps what is before it,
    holds the given entries, data included, from it on, and ends with them. *)
Theorem maybeAppend_spec l index logTerm committed ents :
  log_ok l -> contiguous (index + 1) ents -> Forall (fun e => 0 < eTerm e) ents ->
  a_off (log_abs l) <= index -> index + zlen ents < MaxUint64 ->
  index <= a_last (log_abs l) \/ logTerm <> 0 ->
  let a := log_abs l in
  let matches := default 0 (a_term a index) = logTerm in
  (~ matches -> maybeAppend l index logTerm committed ents = Ok (l, None)) /\
  (matches -> Exists (fun e => eIndex e <= l_committed l /\ agrees a e = false) ents ->
     maybeAppend l index logTerm committed ents = Panic "entry conflicts with committed entry") /\
  (matches -> Forall (fun e => eIndex e <= l_committed l -> agrees a e = true) ents ->
     exists l', maybeAppend l index logTerm committed ents = Ok (l', Some (index + zlen ents)) /\
       log_ok l' /\ l_applied l' = l_applied l /\
       l_committed l' = Z.max (l_committed l) (Z.min committed (index + zlen ents)) /\
       (forall e, e ∈ ents -> a_term (log_abs l') (eIndex e) = Some (eTerm e)) /\
       (forall i, i <= index \/ i <= l_committed l -> a_entry (log_abs l') i = a_entry a i) /\
       (Forall (fun e => agrees a e = true) ents -> log_abs l' = a) /\
       (forall pre e post, ents = pre ++ e :: post -> Forall (fun e => agrees a e = true) pre -> agrees a e = false ->
          a_last (log_abs l') = index + zlen ents /\
          forall i, a_entry (log_abs l') i = if i <? eIndex e then a_entry a i else (e :: post) !! Z.to_nat (i - eIndex e))).
Proof.
  intros Hok Hc Ht Hidx Hmax Hzero a matches; subst a matches. split_and!.
  - intros Hm. by apply maybeAppend_reject.
  - intros Hm Hex. by apply maybeAppend_conflict.
  - intros Hm Hcom. assert (Hil : index <= a_last (log_abs l)) by by eapply maybeAppend_index.
    destruct (maybeAppend_accept l index logTerm committed ents)
      as (l' & Heq & Hinv' & _ & Hap & Hco & Happ & Hlast); try done.
    pose proof (log_abs_wf l (proj1 Hok)) as Hwf. destruct (proj2 Hok) as [Hcr Har].
    assert (Hbefore : forall i, i <= index \/ i <= l_committed l -> a_entry (log_abs l') i = a_entry (log_abs l) i).
    { intros i Hi. eapply appended_before; try done; [lia|].
      intros e He Hd. pose proof He as Hk. apply list_elem_of_lookup in Hk as [k Hk].
      specialize (Hc _ _ Hk). destruct Hi as [Hi|Hi]; [lia|].
      rewrite Forall_forall in Hcom. specialize (Hcom e He).
      destruct (decide (eIndex e <= l_committed l)); [|lia]. rewrite Hcom in Hd; done. }
    pose proof (appended_off _ _ _ Happ) as Hoff.
    assert (Hcl : l_committed l <= a_last (log_abs l')).
    { destruct (decide (l_committed l = a_off (log_abs l))) as [E|]; [rewrite E, <- Hoff; unfold a_last; lia|].
      assert (Hs : is_Some (a_entry (log_abs l') (l_committed l))).
      { rewrite Hbefore by lia. apply a_entry_is_Some. lia. }
      apply a_entry_is_Some in Hs. lia. }
    exists l'. split_and!; try done.
    + split; [done|]. constructor; [rewrite Hoff; lia|lia].
    + intros e He. eapply appended_terms; try done. lia.
    + intros Hall. destruct Happ as [[_ ->]|(pre & e & post & -> & _ & Hd & _)]; [done|].
      rewrite Forall_forall in Hall. rewrite Hall in Hd by set_solver. done.
    + intros pre e post Hs Hp Hd. destruct (appended_after (log_abs l) (log_abs l') (index + 1) ents Hwf Hc ltac:(lia) Ht Happ pre e post Hs Hp Hd) as [-> ?].
      split; [lia|done].
Qed.

(** ** Committing and applying *)

Lemma maybeCommit_eq l m t :
  log_inv l -> 0 <= m -> t <> 0 ->
  maybeCommit l m t =
    Ok (if (l_committed l <? m) && bool_decide (a_term (log_abs l) m = Some t)
        then (l <| l_committed := m |>, true) else (l, false)).
Proof.
  intros Hinv Hm Ht. unfold maybeCommit. zif; [|done].
  rewrite term_eq by done. cbn. destruct (a_term (log_abs l) m) as [t'|] eqn:E; cbn.
  - zif; [|by rewrite bool_decide_eq_false_2 by congruence].
    rewrite bool_decide_eq_true_2 by congruence.
    pose proof (mk_is_Some _ _ E) as Hr. apply a_term_is_Some in Hr.
    rewrite commitTo_eq by (try done; lia). gosimpl. by rewrite Z.max_r by lia.
  - rewrite bool_decide_eq_false_2 by done. by destruct t.
Qed.

Lemma nextEnts_eq l :
  log_ok l ->
  let lo := Z.max (l_applied l) (a_off (log_abs l)) + 1 in
  nextEnts l = Ok (a_slice (log_abs l) lo (l_committed l + 1)) /\
  hasNextEnts l = Ok (lo <=? l_committed l) /\
  (lo <= l_committed l <-> a_slice (log_abs l) lo (l_committed l + 1) <> []) /\
  (forall i, l_applied l < i <= l_committed l -> a_off (log_abs l) < i ->
     exists e, e ∈ a_slice (log_abs l) lo (l_committed l + 1) /\ a_entry (log_abs l) i = Some e /\ eIndex e = i).
Proof.
  intros [Hinv [Hc Ha]] lo. pose proof (log_abs_wf l Hinv) as Hwf. pose proof Hwf as (Ho & Hm & _).
  unfold nextEnts, hasNextEnts. rewrite firstIndex_eq by done. gosimpl. u64_simp.
  replace (Z.max (l_applied l + 1) (a_off (log_abs l) + 1)) with lo by lia.
  assert (Hempty : ~ lo <= l_committed l -> a_slice (log_abs l) lo (l_committed l + 1) = []).
  { intros. unfold a_slice. replace (Z.to_nat _) with 0%nat by lia. done. }
  assert (Hiff : lo <= l_committed l <-> a_slice (log_abs l) lo (l_committed l + 1) <> []).
  { split; [intros; apply a_slice_nonempty; lia|]. intros Hne.
    destruct (decide (lo <= l_committed l)); [done|]. by destruct Hne; apply Hempty. }
  split_and!; [|rewrite Z.gtb_ltb; f_equal; lia|done|].
  - zif; [|by rewrite Hempty by lia].
    destruct (slice_in_range l lo (l_committed l + 1) noLimit) as (ents & -> & _ & _ & Hf);
      [done|lia..|]. gosimpl. by rewrite Hf.
  - intros i Hi Hoi. destruct (a_entry_in_range (log_abs l) i) as [e He]; [lia|].
    exists e. split_and!; [|done|by eapply a_entry_index]. apply list_elem_of_lookup.
    exists (Z.to_nat (i - lo)). rewrite a_slice_lookup by lia. zif; [|lia].
    by replace (lo + Z.of_nat (Z.to_nat (i - lo))) with i by lia.
Qed.

(** C30. [nextEnts] hands the application exactly the committed entries it has
    not applied (from the first one still in the log), and [hasNextEnts] says
    whether there are any. *)
Theorem nextEnts_spec l :
  log_ok l ->
  let lo := Z.max (l_applied l) (a_off (log_abs l)) + 1 in
  nextEnts l = Ok (a_slice (log_abs l) lo (l_committed l + 1)) /\
  hasNextEnts l = Ok (lo <=? l_committed l) /\
  (lo <= l_committed l <-> a_slice (log_abs l) lo (l_committed l + 1) <> []) /\
  (forall i, l_applied l < i <= l_committed l -> a_off (log_abs l) < i ->
     exists e, e ∈ a_slice (log_abs l) lo (l_committed l + 1) /\ a_entry (log_abs l) i = Some e /\ eIndex e = i).
Proof. apply nextEnts_eq. Qed.

(** A log opened on a storage is exactly the stored log, committed and
    applied up to the compaction point, and satisfies the invariant. *)
Lemma newLog_spec (st : St) :
  sto_inv st ->
  exists l, newLog st = Ok l /\ log_ok l /\ log_abs l = sto_log st /\
    l_committed l = a_off (sto_log st) /\ l_applied l = a_off (sto_log st) /\
    l_storage l = st /\ u_snapshot (l_unstable l) = None.
Proof.
  intros Hst. pose proof (sto_wf _ Hst) as (Ho & Hm & Hc).
  assert (Hle : a_off (sto_log st) <= a_last (sto_log st)) by (unfold a_last; lia).
  unfold newLog. rewrite FirstIndex_spec, LastIndex_spec by done. cbn. u64_simp.
  replace (a_off (sto_log st) + 1 - 1) with (a_off (sto_log st)) by lia.
  set (l := mkRaftLog _ _ _ _).
  assert (Hinv : log_inv l) by (constructor; cbn; [done|apply contiguous_nil|lia|lia]).
  assert (Habs : log_abs l = sto_log st).
  { unfold log_abs, log_base; cbn. rewrite app_nil_r, take_ge by (unfold a_last in *; lia).
    by destruct (sto_log st). }
  exists l. split_and!; try done.
  split; [done|]. constructor; rewrite ?Habs; cbn; lia.
Qed.

(** [restore] replaces the log by the snapshot and commits it. *)
Lemma restore_spec l (s : Snapshot) :
  log_inv l -> 0 <= smIndex (sMetadata s) < MaxUint64 ->
  log_inv (restore l s) /\
  log_abs (restore l s) = mkAlog (smIndex (sMetadata s)) (smTerm (sMetadata s)) [] /\
  l_committed (restore l s) = smIndex (sMetadata s) /\ l_applied (restore l s) = l_applied l /\
  l_storage (restore l s) = l_storage l.
Proof.
  intros Hinv Hs. unfold restore, Unstable.restore. cbn. split_and!; try done.
  - constructor; cbn; u64_simp; [apply Hinv|apply contiguous_nil|lia|lia].
  - unfold log_abs, log_base; cbn. u64_simp.
    replace (Z.to_nat (smIndex (sMetadata s) + 1 - 1 - smIndex (sMetadata s))) with 0%nat by lia.
    by rewrite take_0.
Qed.

(** Moving entries that storage already holds out of the unstable part does
    not change the log. *)
Lemma log_abs_shift l i :
  log_inv l -> u_snapshot (l_unstable l) = None ->
  u_offset (l_unstable l) <= i <= a_last (log_abs l) ->
  i <= a_last (sto_log (l_storage l)) ->
  (i = a_last (log_abs l) -> a_last (sto_log (l_storage l)) = i) ->
  (forall j, u_offset (l_unstable l) <= j <= i ->
     a_entry (sto_log (l_storage l)) j = a_entry (log_abs l) j) ->
  let u' := mkUnstable None (drop (Z.to_nat (i + 1 - u_offset (l_unstable l)))
                              (u_entries (l_unstable l))) (i + 1) in
  log_inv (l <| l_unstable := u' |>) /\ log_abs (l <| l_unstable := u' |>) = log_abs l.
Proof.
  intros Hinv Hsn Hi Hil Hend Hsame u'.
  pose proof (log_last_eq l Hinv) as Hlast. pose proof (log_off_range l Hinv) as Hb.
  pose proof (li_max l Hinv) as Hmax.
  assert (Hlen : zlen (u_entries u') = a_last (log_abs l) - i) by (cbn; rewrite length_drop; lia).
  assert (Hbase : log_base (l <| l_unstable := u' |>) = log_base l)
    by (unfold log_base; cbn; by rewrite Hsn).
  assert (Hao : a_off (log_abs (l <| l_unstable := u' |>)) = a_off (log_abs l))
    by (unfold log_abs; cbn [a_off]; by rewrite Hbase).
  assert (Hinv' : log_inv (l <| l_unstable := u' |>)).
  { pose proof (li_join l Hinv) as Hj. rewrite Hsn in Hj; cbn in Hj.
    constructor; cbn; cbn in Hlen; [apply Hinv| |lia|].
    - eapply contiguous_drop_eq; [apply Hinv|lia].
    - split; [lia|]. intros E. rewrite E in Hlen. cbn in Hlen. rewrite Hend; lia. }
  split; [done|]. pose proof (log_last_eq _ Hinv') as Hlast'. cbn in Hlast', Hlen.
  apply alog_ext; [done| |lia|].
  { unfold log_abs; cbn [a_offterm]; by rewrite Hbase. }
  intros j Hj. rewrite Hao in Hj. destruct (Z.ltb_spec j (i + 1)).
  - destruct (log_entry_stable _ Hinv' j) as (_ & _ & _ & ->); [rewrite Hao; cbn; lia|]. cbn.
    destruct (Z.ltb_spec j (u_offset (l_unstable l))); [|apply Hsame; lia].
    symmetry. apply log_entry_stable; [done|lia].
  - rewrite (log_entry_unstable _ Hinv') by (cbn; lia). rewrite log_entry_unstable by (try done; lia).
    cbn. rewrite lookup_drop. f_equal. lia.
Qed.

(** [stableTo] does that when the term matches, and nothing for a stale
    notification. *)
Lemma stableTo_spec l i t :
  log_inv l -> u_snapshot (l_unstable l) = None -> 0 <= i ->
  (u_offset (l_unstable l) <= i -> a_term (log_abs l) i = Some t ->
     i <= a_last (sto_log (l_storage l)) /\
     (i = a_last (log_abs l) -> a_last (sto_log (l_storage l)) = i) /\
     forall j, u_offset (l_unstable l) <= j <= i ->
       a_entry (sto_log (l_storage l)) j = a_entry (log_abs l) j) ->
  exists l', stableTo l i t = Ok l' /\ log_inv l' /\ log_abs l' = log_abs l /\ same_rest l l' /\
    u_snapshot (l_unstable l') = None /\
    (a_term (log_abs l) i = Some t -> u_offset (l_unstable l) <= i ->
       u_offset (l_unstable l') = i + 1).
Proof.
  intros Hinv Hsn Hi Hsto. pose proof (log_last_eq l Hinv) as Hlast.
  pose proof (log_off_range l Hinv) as Hb. pose proof (li_max l Hinv) as Hmax.
  assert (Hnop : ~ (u_offset (l_unstable l) <= i /\ a_term (log_abs l) i = Some t) ->
    forall l0, l0 = l -> exists l', Ok l0 = Ok l' /\ log_inv l' /\ log_abs l' = log_abs l /\
      same_rest l l' /\ u_snapshot (l_unstable l') = None /\ (a_term (log_abs l) i = Some t ->
        u_offset (l_unstable l) <= i -> u_offset (l_unstable l') = i + 1)).
  { intros Hn ? ->. exists l. split_and!; try done. tauto. }
  assert (Hout : a_last (log_abs l) < i -> a_term (log_abs l) i <> Some t).
  { intros ? Ht%mk_is_Some%a_term_is_Some. lia. }
  unfold stableTo, Unstable.stableTo, maybeTerm. zif.
  { rewrite Hsn. apply Hnop; [lia|by destruct l]. }
  unfold maybeLastIndex. zif.
  { rewrite Hsn. apply Hnop; [|by destruct l]. intros [? ?]. apply Hout; [lia|done]. }
  u64_simp. zif.
  { apply Hnop; [|by destruct l]. intros [? ?]. apply Hout; [lia|done]. }
  u64_simp.
  destruct (at_in_range (u_entries (l_unstable l)) (i - u_offset (l_unstable l))) as (e & -> & He); [lia|].
  assert (Hte : a_term (log_abs l) i = Some (eTerm e)).
  { rewrite a_term_entry, log_entry_unstable by (try done; lia). by rewrite He. }
  gosimpl. destruct (Z.eqb_spec (eTerm e) t) as [<-|Hne]; cbn [andb].
  2: { apply Hnop; [|by destruct l]. rewrite Hte. intros [? [= ?]]. done. }
  rewrite (proj2 (Z.geb_le _ _)) by lia. rewrite slice_from_Ok by lia. gosimpl.
  destruct (Hsto ltac:(lia) Hte) as (Hil & Hend & Hsame).
  destruct (log_abs_shift l i) as [Hinv' Habs']; try done; [lia|].
  rewrite <- Hsn in Hinv', Habs'. u64_simp. eexists. split; [done|]. by split_and!.
Qed.
End raft_log_spec.

(** ** A concrete log: storage 3..5 over compaction at 2, unstable 6, 7 *)

Definition log37 : raftLog MemoryStorage :=
  mkRaftLog ms345 (mkUnstable None [ent 6 2; ent 7 3] 6) 4 3.

Lemma log37_ok : log_ok log37.
Proof.
  split; constructor; cbn; try (vm_compute; split; done); try done.
  - apply ms345_inv.
  - solve_contiguous.
Qed.

Lemma isUpToDate_spec_witness :
  exists b, isUpToDate log37 7 3 = Ok b /\
    (b = true <->
       let lt := default 0 (a_term (log_abs log37) (a_last (log_abs log37))) in
       lt < 3 \/ (3 = lt /\ a_last (log_abs log37) <= 7)).
Proof. apply (isUpToDate_spec log37 7 3), log37_ok. Defined.

Lemma slice_refines_witness :
  exists ents, slice log37 4 8 noLimit = Ok (ents, None) /\
    ents `prefix_of` a_slice (log_abs log37) 4 8 /\ (4 < 8 -> ents <> []) /\
    (noLimit = noLimit -> ents = a_slice (log_abs log37) 4 8).
Proof. apply (slice_refines log37 4 8 noLimit (proj1 log37_ok)); done. Defined.

Lemma append_refines_witness :
  exists l', append log37 [ent 5 4; ent 6 4] = Ok (l', 6) /\ log_inv l' /\ same_rest log37 l' /\
    a_last (log_abs l') = 6 /\
    forall i, a_entry (log_abs l') i =
      if i <? 5 then a_entry (log_abs log37) i else [ent 5 4; ent 6 4] !! Z.to_nat (i - 5).
Proof.
  apply (append_refines log37 [ent 5 4; ent 6 4] 5 (proj1 log37_ok)); try done.
  solve_contiguous.
Defined.

Lemma maybeAppend_spec_witness :
  exists l', maybeAppend log37 5 2 9 [ent 6 2; ent 7 4] = Ok (l', Some 7) /\
    log_ok l' /\ l_applied l' = 3 /\ l_committed l' = 7 /\ a_last (log_abs l') = 7 /\
    a_entry (log_abs l') 6 = a_entry (log_abs log37) 6 /\ a_entry (log_abs l') 7 = Some (ent 7 4).
Proof.
  destruct (maybeAppend_spec log37 5 2 9 [ent 6 2; ent 7 4] log37_ok) as (_ & _ & H); try done.
  - solve_contiguous.
  - by repeat constructor.
  - by left.
  - destruct H as (l' & H1 & H2 & H3 & H4 & _ & _ & _ & H5); [done|repeat constructor; vm_compute; done|].
    destruct (H5 [ent 6 2] (ent 7 4) []) as [H6 H7]; [done|by repeat constructor|by vm_compute|].
    exists l'. split_and!; [exact H1|exact H2|exact H3|exact H4|exact H6|by rewrite H7|by rewrite H7].
Defined.

Lemma nextEnts_spec_witness :
  nextEnts log37 = Ok [ent 4 2] /\ hasNextEnts log37 = Ok true.
Proof.
  destruct (nextEnts_spec log37 log37_ok) as (H1 & H2 & _). split; [exact H1|exact H2].
Defined.

