(* ===== verification/Progress.v ===== *)
(** * Replication progress

    [src/raft/progress.go]: the leader's view of a follower, with the ring
    buffer [inflights] that bounds the messages in flight.  The ring buffer is
    proved to refine a bounded queue. *)

From S2P Require Import Prelude.

(** ** The ring buffer *)

Record inflights : Type := mkInflights {
  in_start : Z;
  in_count : Z;
  in_size : Z;
  in_buffer : list Z
}.

#[export] Instance eta_inflights : Eta inflights := fun r =>
  mkInflights (in_start r) (in_count r) (in_size r) (in_buffer r).

(** [make] panics on a negative length. *)
Definition newInflights (size : Z) : inflights :=
  mkInflights 0 0 size (replicate (Z.to_nat size) 0).

Definition full (ins : inflights) : bool := in_count ins =? in_size ins.

Definition add (ins : inflights) (inflight : Z) : outcome inflights :=
  if full ins then Panic "cannot add into a full inflights" else
  let next := in_start ins + in_count ins in
  let next := if next >=? in_size ins then next - in_size ins else next in
  let! b := set_at (in_buffer ins) next inflight in
  Ok (ins <| in_buffer := b |> <| in_count := in_count ins + 1 |>).

(** The loop of [freeTo] with [n] rounds left: the index it stops at and the
    number of inflights it passed. *)
Fixpoint freeTo_loop (ins : inflights) (to : Z) (n : nat) (i idx : Z) : outcome (Z * Z) :=
  match n with
  | O => Ok (i, idx)
  | S n' =>
      let! b := at_ (in_buffer ins) idx in
      if to <? b then Ok (i, idx) else
      let idx := idx + 1 in
      let idx := if idx >=? in_size ins then idx - in_size ins else idx in
      freeTo_loop ins to n' (i + 1) idx
  end.

Definition freeTo (ins : inflights) (to : Z) : outcome inflights :=
  if in_count ins =? 0 then Ok ins else
  let! b := at_ (in_buffer ins) (in_start ins) in
  if to <? b then Ok ins else
  let! '(i, idx) := freeTo_loop ins to (Z.to_nat (in_count ins)) 0 (in_start ins) in
  Ok (ins <| in_count := in_count ins - i |> <| in_start := idx |>).

Definition freeFirstOne (ins : inflights) : outcome inflights :=
  let! b := at_ (in_buffer ins) (in_start ins) in freeTo ins b.

Definition reset (ins : inflights) : inflights := ins <| in_count := 0 |> <| in_start := 0 |>.

(** ** A follower's progress *)

Inductive ProgressStateType : Type :=
| ProgressStateProbe
| ProgressStateReplicate
| ProgressStateSnapshot.

#[export] Instance ProgressStateType_eq_dec : EqDecision ProgressStateType.
Proof. solve_decision. Defined.

Record Progress : Type := mkProgress {
  pr_Match : Z;
  pr_Next : Z;
  pr_State : ProgressStateType;
  pr_Paused : bool;
  pr_PendingSnapshot : Z;
  pr_RecentActive : bool;
  pr_ins : inflights
}.

#[export] Instance eta_Progress : Eta Progress := fun r =>
  mkProgress (pr_Match r) (pr_Next r) (pr_State r) (pr_Paused r) (pr_PendingSnapshot r)
    (pr_RecentActive r) (pr_ins r).

(** [&Progress{Next: next, Match: match, ins: newInflights(size)}] *)
Definition Progress_new (match_ next size : Z) : Progress :=
  mkProgress match_ next ProgressStateProbe false 0 false (newInflights size).

Definition resetState (pr : Progress) (state : ProgressStateType) : Progress :=
  pr <| pr_Paused := false |> <| pr_RecentActive := false |> <| pr_PendingSnapshot := 0 |>
     <| pr_State := state |> <| pr_ins := reset (pr_ins pr) |>.

Definition becomeProbe (pr : Progress) : Progress :=
  if bool_decide (pr_State pr = ProgressStateSnapshot) then
    let pendingSnapshot := pr_PendingSnapshot pr in
    let pr := resetState pr ProgressStateProbe in
    pr <| pr_Next := Z.max (pr_Match pr ⊞ 1) (pendingSnapshot ⊞ 1) |>
  else
    let pr := resetState pr ProgressStateProbe in
    pr <| pr_Next := pr_Match pr ⊞ 1 |>.

Definition becomeReplicate (pr : Progress) : Progress :=
  let pr := resetState pr ProgressStateReplicate in
  pr <| pr_Next := pr_Match pr ⊞ 1 |>.

Definition becomeSnapshot (pr : Progress) (snapshoti : Z) : Progress :=
  let pr := resetState pr ProgressStateSnapshot in
  pr <| pr_PendingSnapshot := snapshoti |>.

Definition pause (pr : Progress) : Progress := pr <| pr_Paused := true |>.
Definition resume (pr : Progress) : Progress := pr <| pr_Paused := false |>.

Definition maybeUpdate (pr : Progress) (n : Z) : Progress * bool :=
  let '(pr, updated) :=
    if pr_Match pr <? n then (resume (pr <| pr_Match := n |>), true) else (pr, false) in
  let pr := if pr_Next pr <? n ⊞ 1 then pr <| pr_Next := n ⊞ 1 |> else pr in
  (pr, updated).

Definition optimisticUpdate (pr : Progress) (n : Z) : Progress := pr <| pr_Next := n ⊞ 1 |>.

Definition maybeDecrTo (pr : Progress) (rejected last : Z) : Progress * bool :=
  if bool_decide (pr_State pr = ProgressStateReplicate) then
    if rejected <=? pr_Match pr then (pr, false)
    else (pr <| pr_Next := pr_Match pr ⊞ 1 |>, true)
  else if negb (pr_Next pr ⊟ 1 =? rejected) then (pr, false)
  else
    let pr := pr <| pr_Next := Z.min rejected (last ⊞ 1) |> in
    let pr := if pr_Next pr <? 1 then pr <| pr_Next := 1 |> else pr in
    (resume pr, true).

Definition isPaused (pr : Progress) : bool :=
  match pr_State pr with
  | ProgressStateProbe => pr_Paused pr
  | ProgressStateReplicate => full (pr_ins pr)
  | ProgressStateSnapshot => true
  end.

Definition snapshotFailure (pr : Progress) : Progress := pr <| pr_PendingSnapshot := 0 |>.

Definition maybeSnapshotAbort (pr : Progress) : bool :=
  bool_decide (pr_State pr = ProgressStateSnapshot) && (pr_Match pr >=? pr_PendingSnapshot pr).

(** ** The queue the ring buffer implements *)

(** The [k]-th oldest inflight is at this index of the buffer. *)
Definition slot (ins : inflights) (k : nat) : nat :=
  Z.to_nat ((in_start ins + Z.of_nat k) mod in_size ins).

Definition queue (ins : inflights) : list Z :=
  (fun k => default 0 (in_buffer ins !! slot ins k)) <$> seq 0 (Z.to_nat (in_count ins)).

Record inf_ok (ins : inflights) : Prop := {
  io_size : 0 < in_size ins;
  io_start : 0 <= in_start ins < in_size ins;
  io_count : 0 <= in_count ins <= in_size ins;
  io_buffer : zlen (in_buffer ins) = in_size ins
}.

Fixpoint drop_while (p : Z -> bool) (l : list Z) : list Z :=
  match l with
  | [] => []
  | x :: l' => if p x then drop_while p l' else l
  end.

Lemma newInflights_ok size : 0 < size -> inf_ok (newInflights size) /\ queue (newInflights size) = [].
Proof.
  intros Hs. split; [|done]. constructor; cbn; try lia. rewrite length_replicate. lia.
Qed.

Section ring.
  Context (ins : inflights) (Hok : inf_ok ins).

Lemma queue_length : zlen (queue ins) = in_count ins.
Proof. destruct Hok. unfold queue. rewrite length_fmap, length_seq. lia. Qed.

Lemma slot_lt k : (slot ins k < length (in_buffer ins))%nat.
Proof.
  destruct Hok. unfold slot. pose proof (Z.mod_pos_bound (in_start ins + Z.of_nat k) (in_size ins)). lia.
Qed.

(** The code's wrap by subtraction is the modulus. *)
Lemma wrap_mod z : 0 <= z < 2 * in_size ins ->
  (if z >=? in_size ins then z - in_size ins else z) = z mod in_size ins.
Proof.
  destruct Hok. intros Hz. zif; [|by rewrite Z.mod_small by lia].
  replace z with (z - in_size ins + 1 * in_size ins) at 2 by lia.
  rewrite Z.mod_add by lia. by rewrite Z.mod_small by lia.
Qed.

Lemma queue_lookup k : (k < Z.to_nat (in_count ins))%nat ->
  exists x, queue ins !! k = Some x /\ in_buffer ins !! slot ins k = Some x.
Proof.
  intros Hk. destruct (lookup_lt_is_Some_2 (in_buffer ins) (slot ins k)) as [x Hx]; [apply slot_lt|].
  exists x. split; [|done]. unfold queue. rewrite list_lookup_fmap, lookup_seq_lt by done. cbn.
  by rewrite Hx.
Qed.

(** Two slots of a window no longer than the buffer are different. *)
Lemma slot_inj k1 k2 : Z.of_nat k1 < in_size ins -> Z.of_nat k2 < in_size ins ->
  slot ins k1 = slot ins k2 -> k1 = k2.
Proof.
  destruct Hok as [Hs Hst _ _]. intros H1 H2. unfold slot. rewrite <- !wrap_mod by lia.
  repeat zif; lia.
Qed.
End ring.

Lemma add_queue ins x : inf_ok ins -> full ins = false ->
  exists ins', add ins x = Ok ins' /\ inf_ok ins' /\ in_size ins' = in_size ins /\
    queue ins' = queue ins ++ [x].
Proof.
  intros Hok Hf. pose proof (queue_length ins Hok) as Hl. pose proof Hok as [Hs Hst Hc Hb].
  unfold add. rewrite Hf. unfold full in Hf. apply Z.eqb_neq in Hf.
  rewrite wrap_mod by (try done; lia). unfold set_at.
  pose proof (Z.mod_pos_bound (in_start ins + in_count ins) (in_size ins) Hs).
  zif; [|lia]. zif; [|lia]. gosimpl. eexists. split; [done|]. split_and!; [|done|].
  { constructor; cbn; try lia. rewrite length_insert. lia. }
  apply list_eq_same_length with (S (Z.to_nat (in_count ins))).
  { rewrite length_app. cbn. lia. }
  { unfold queue; cbn. rewrite length_fmap, length_seq. lia. }
  intros k a b Hk Ha Hb'.
  unfold queue in Ha. rewrite list_lookup_fmap in Ha. cbn in Ha.
  rewrite lookup_seq_lt in Ha by lia. cbn in Ha. injection Ha as <-.
  assert (Hsl : slot (ins <| in_buffer := <[Z.to_nat ((in_start ins + in_count ins) mod in_size ins):=x]>
     (in_buffer ins) |> <| in_count := in_count ins + 1 |>) k = slot ins k) by done.
  rewrite Hsl. assert (Hnew : Z.to_nat ((in_start ins + in_count ins) mod in_size ins)
                             = slot ins (Z.to_nat (in_count ins))) by (unfold slot; do 3 f_equal; lia).
  rewrite Hnew. destruct (decide (k = Z.to_nat (in_count ins))) as [->|Hne].
  - rewrite list_lookup_insert_eq by by apply slot_lt.
    rewrite lookup_app_r in Hb' by lia. replace (_ - _)%nat with 0%nat in Hb' by lia. by injection Hb'.
  - rewrite lookup_app_l in Hb' by lia. rewrite list_lookup_insert_ne.
    + destruct (queue_lookup ins Hok k) as (y & Hy1 & Hy2); [lia|]. rewrite Hy2. cbn. congruence.
    + intros Hsi. apply Hne. symmetry. eapply slot_inj; [exact Hok|lia|lia|done].
Qed.

(** Advancing the start by [j] and dropping [j] from the count drops [j]
    elements of the queue. *)
Lemma queue_advance ins j : inf_ok ins -> 0 <= j <= in_count ins ->
  let ins' := ins <| in_count := in_count ins - j |>
                  <| in_start := (in_start ins + j) mod in_size ins |> in
  inf_ok ins' /\ queue ins' = drop (Z.to_nat j) (queue ins).
Proof.
  intros Hok Hj ins'. pose proof Hok as [Hs Hst Hc Hb].
  pose proof (Z.mod_pos_bound (in_start ins + j) (in_size ins) Hs). split.
  { constructor; cbn; lia. }
  pose proof (queue_length ins Hok).
  apply list_eq_same_length with (Z.to_nat (in_count ins - j)).
  { rewrite length_drop. lia. }
  { unfold queue; cbn. by rewrite length_fmap, length_seq. }
  intros k a b Hk Ha Hb'. rewrite lookup_drop in Hb'.
  destruct (queue_lookup ins Hok (Z.to_nat j + k)) as (y & Hy1 & Hy2); [lia|].
  unfold queue in Ha. rewrite list_lookup_fmap, lookup_seq_lt in Ha by (cbn; lia).
  cbn in Ha. assert (Hsl : slot ins' k = slot ins (Z.to_nat j + k)).
  { unfold slot; cbn. rewrite Zplus_mod_idemp_l. do 2 f_equal. lia. }
  rewrite Hsl, Hy2 in Ha. cbn in Ha. congruence.
Qed.

Lemma freeTo_loop_spec ins to n i : inf_ok ins ->
  0 <= i -> i + Z.of_nat n = in_count ins ->
  exists j, freeTo_loop ins to n i ((in_start ins + i) mod in_size ins)
              = Ok (j, (in_start ins + j) mod in_size ins) /\
    i <= j <= in_count ins /\
    drop (Z.to_nat j) (queue ins) = drop_while (fun x => x <=? to) (drop (Z.to_nat i) (queue ins)).
Proof.
  intros Hok. pose proof Hok as [Hs Hst Hc Hb]. pose proof (queue_length ins Hok).
  revert i. induction n as [|n IH]; intros i Hi Hn; cbn [freeTo_loop].
  - exists i. split_and!; [done|lia|lia|]. rewrite drop_ge by lia. done.
  - destruct (queue_lookup ins Hok (Z.to_nat i)) as (x & Hq & Hx); [lia|].
    pose proof (Z.mod_pos_bound (in_start ins + i) (in_size ins) Hs).
    rewrite (proj2 (at_Ok _ _ x)); [gosimpl|].
    2: { split; [lia|]. rewrite <- Hx. unfold slot. do 2 f_equal. do 2 f_equal. lia. }
    rewrite (drop_S _ _ _ Hq). cbn [drop_while]. zif.
    + exists i. split_and!; [done|lia|lia|].
      rewrite (drop_S _ _ _ Hq). rewrite (proj2 (Z.leb_gt x to)) by lia. done.
    + rewrite (proj2 (Z.leb_le x to)) by lia. rewrite wrap_mod by (try done; lia).
      rewrite Zplus_mod_idemp_l, <- Z.add_assoc.
      destruct (IH (i + 1)) as (j & Hj1 & Hj2 & Hj3); [lia|lia|].
      exists j. split_and!; [done|lia|lia|]. rewrite Hj3.
      by replace (Z.to_nat (i + 1)) with (S (Z.to_nat i)) by lia.
Qed.

Lemma freeTo_queue ins to : inf_ok ins ->
  exists ins', freeTo ins to = Ok ins' /\ inf_ok ins' /\ in_size ins' = in_size ins /\
    queue ins' = drop_while (fun x => x <=? to) (queue ins).
Proof.
  intros Hok. pose proof Hok as [Hs Hst Hc Hb]. pose proof (queue_length ins Hok) as Hl.
  unfold freeTo. zif.
  { exists ins. split_and!; try done. destruct (queue ins); [done|]. cbn [length] in Hl. lia. }
  destruct (queue_lookup ins Hok 0) as (x & Hq & Hx); [lia|].
  assert (Hslot : slot ins 0 = Z.to_nat (in_start ins)).
  { unfold slot. rewrite Z.add_0_r, Z.mod_small by lia. done. }
  rewrite (proj2 (at_Ok _ _ x)) by (split; [lia|by rewrite <- Hslot]). gosimpl. zif.
  { exists ins. split_and!; try done. destruct (queue ins) as [|y q]; [done|].
    injection Hq as ->. cbn. by rewrite (proj2 (Z.leb_gt x to)) by lia. }
  destruct (freeTo_loop_spec ins to (Z.to_nat (in_count ins)) 0 Hok) as (j & Hj1 & Hj2 & Hj3); [lia|lia|].
  rewrite Z.add_0_r, Z.mod_small in Hj1 by lia. rewrite Hj1. gosimpl.
  destruct (queue_advance ins j Hok) as [Hok' Hq']; [lia|].
  eexists. split_and!; [done|done|done|]. rewrite Hq', Hj3. done.
Qed.

Lemma reset_ok ins : inf_ok ins -> inf_ok (reset ins) /\ queue (reset ins) = [].
Proof. intros [? ? ? ?]. split; [|done]. constructor; cbn; lia. Qed.

Lemma drop_while_sorted_head x q :
  StronglySorted Z.lt (x :: q) -> drop_while (fun y => y <=? x) (x :: q) = q.
Proof.
  intros H. cbn. rewrite Z.leb_refl. apply StronglySorted_inv in H as [_ H].
  destruct q as [|y q]; [done|]. apply Forall_cons_1 in H as [H _]. cbn.
  by rewrite (proj2 (Z.leb_gt y x)).
Qed.

(** C31. The ring buffer is a bounded FIFO queue: [add] enqueues unless the
    queue is full, when it panics; [freeTo] removes exactly the leading
    inflights up to the given index, whatever the rotation; [freeFirstOne]
    removes the oldest one of an increasing queue; [full] says that the queue
    has [size] elements, and [reset] empties it.  All keep the invariant. *)
Theorem inflights_refines_queue ins x :
  inf_ok ins ->
  (full ins = true <-> zlen (queue ins) = in_size ins) /\
  (full ins = true -> add ins x = Panic "cannot add into a full inflights") /\
  (full ins = false -> exists ins', add ins x = Ok ins' /\ inf_ok ins' /\
     in_size ins' = in_size ins /\ queue ins' = queue ins ++ [x]) /\
  (exists ins', freeTo ins x = Ok ins' /\ inf_ok ins' /\ in_size ins' = in_size ins /\
     queue ins' = drop_while (fun y => y <=? x) (queue ins)) /\
  (queue ins <> [] -> StronglySorted Z.lt (queue ins) ->
     exists ins', freeFirstOne ins = Ok ins' /\ inf_ok ins' /\ queue ins' = tail (queue ins)) /\
  (inf_ok (reset ins) /\ queue (reset ins) = []).
Proof.
  intros Hok. pose proof (queue_length ins Hok) as Hl. split_and!.
  - unfold full. rewrite Z.eqb_eq. lia.
  - intros Hf. unfold add. by rewrite Hf.
  - intros Hf. by apply add_queue.
  - by apply freeTo_queue.
  - intros Hne Hsort. pose proof Hok as [Hs Hst Hc Hb].
    destruct (queue ins) as [|y q] eqn:Eq; [done|]. cbn [length] in Hl.
    destruct (queue_lookup ins Hok 0) as (z & Hq & Hz); [lia|]. rewrite Eq in Hq. injection Hq as <-.
    unfold freeFirstOne, slot in *. rewrite Z.add_0_r, Z.mod_small in Hz by lia.
    rewrite (proj2 (at_Ok _ _ y)) by (split; [lia|done]). gosimpl.
    destruct (freeTo_queue ins y Hok) as (ins' & -> & Hok' & _ & Hq').
    exists ins'. split_and!; [done..|]. by rewrite Hq', Eq, drop_while_sorted_head.
  - by apply reset_ok.
  - done.
Qed.

Definition ring_ex : inflights := mkInflights 3 3 4 [8; 9; 0; 7].

Lemma inflights_refines_queue_witness :
  queue ring_ex = [7; 8; 9] /\
  exists ins', freeTo ring_ex 8 = Ok ins' /\ inf_ok ins' /\ in_size ins' = 4 /\ queue ins' = [9].
Proof.
  split; [reflexivity|]. apply (inflights_refines_queue ring_ex 8). by constructor; cbn.
Defined.

(** ** Progress as a state machine *)

(** In replicate state the next index is above the acknowledged one; in the
    other states it is only known to be positive. *)
Record pr_ok (pr : Progress) : Prop := {
  po_match : 0 <= pr_Match pr < MaxUint64;
  po_next : 1 <= pr_Next pr <= MaxUint64;
  po_replicate : pr_State pr = ProgressStateReplicate -> pr_Match pr < pr_Next pr;
  po_pending : 0 <= pr_PendingSnapshot pr < MaxUint64;
  po_ins : inf_ok (pr_ins pr)
}.

(** A rejection is timely when it is for an index above the acknowledged one
    and its hint is not below it, as is every rejection the follower sends
    after the acknowledgement. *)
Definition timely (pr : Progress) (rejected last : Z) : Prop :=
  pr_Match pr < rejected /\ pr_Match pr <= last.

(** The calls the leader makes on a progress, with any acknowledgement or
    rejection a message may carry; [delivered] says which rejections arrive.
    [sendAppend] calls [optimisticUpdate] in replicate state, with the index
    of the last of the entries it read from [Next] on. *)
Inductive pr_step (delivered : Progress -> Z -> Z -> Prop) : Progress -> Progress -> Prop :=
| ps_update pr n : 0 <= n < MaxUint64 -> pr_step delivered pr (fst (maybeUpdate pr n))
| ps_decr pr rejected last :
    0 <= rejected < MaxUint64 -> 0 <= last < MaxUint64 -> delivered pr rejected last ->
    pr_step delivered pr (fst (maybeDecrTo pr rejected last))
| ps_probe pr : pr_step delivered pr (becomeProbe pr)
| ps_replicate pr : pr_step delivered pr (becomeReplicate pr)
| ps_snapshot pr i : 0 <= i < MaxUint64 -> pr_step delivered pr (becomeSnapshot pr i)
| ps_pause pr : pr_step delivered pr (pause pr)
| ps_resume pr : pr_step delivered pr (resume pr)
| ps_active pr b : pr_step delivered pr (pr <| pr_RecentActive := b |>)
| ps_failure pr : pr_step delivered pr (snapshotFailure pr)
| ps_optimistic pr last ins' :
    pr_State pr = ProgressStateReplicate -> pr_Next pr <= last < MaxUint64 ->
    add (pr_ins pr) last = Ok ins' ->
    pr_step delivered pr ((optimisticUpdate pr last) <| pr_ins := ins' |>)
| ps_free pr n ins' : freeTo (pr_ins pr) n = Ok ins' -> pr_step delivered pr (pr <| pr_ins := ins' |>)
| ps_free_one pr ins' :
    freeFirstOne (pr_ins pr) = Ok ins' -> pr_step delivered pr (pr <| pr_ins := ins' |>).

Lemma add_ok ins x ins' : inf_ok ins -> add ins x = Ok ins' -> inf_ok ins'.
Proof.
  intros Hok Ha. destruct (full ins) eqn:E.
  - unfold add in Ha. by rewrite E in Ha.
  - destruct (add_queue ins x Hok E) as (i & Hi & ? & _). congruence.
Qed.

Lemma freeTo_ok ins x ins' : inf_ok ins -> freeTo ins x = Ok ins' -> inf_ok ins'.
Proof. intros Hok Ha. destruct (freeTo_queue ins x Hok) as (i & Hi & ? & _). congruence. Qed.

Lemma freeFirstOne_ok ins ins' : inf_ok ins -> freeFirstOne ins = Ok ins' -> inf_ok ins'.
Proof.
  intros Hok Ha. unfold freeFirstOne in Ha. apply bind_Ok_inv in Ha as (b & _ & Ha).
  by eapply freeTo_ok.
Qed.

#[export] Hint Resolve add_ok freeTo_ok freeFirstOne_ok : raft.

Ltac solve_pr_ok :=
  split_and!;
  [constructor; cbn; u64_simp; first [done | lia | by apply reset_ok | (intros; simplify_eq; naive_solver lia) | eauto with raft]|cbn; lia|
   cbn; u64_simp; intros; try lia].

Lemma pr_step_ok delivered pr pr' : pr_step delivered pr pr' -> pr_ok pr ->
  pr_ok pr' /\ pr_Match pr <= pr_Match pr' /\
  ((forall rejected last, delivered pr rejected last -> timely pr rejected last) ->
   pr_Match pr < pr_Next pr -> pr_Match pr' < pr_Next pr').
Proof.
  intros Hstep [Hm Hn Hr Hp Hi]. destruct Hstep as [pr n Hn'|pr rejected last Hrej Hlast Hd| | | | | | | | | |].
  - unfold maybeUpdate. zif; cbn; u64_simp; zif; solve_pr_ok.
  - unfold maybeDecrTo, timely. zif; [zif; cbn; u64_simp; solve_pr_ok|].
    u64_simp. zif; cbn [fst]; [|solve_pr_ok].
    zif; cbn in *; (split_and!; [constructor; cbn; first [done|lia]|lia|]); intros Hf _;
      destruct (Hf _ _ Hd); lia.
  - unfold becomeProbe. zif; cbn; u64_simp; solve_pr_ok.
  - unfold becomeReplicate; cbn; u64_simp. solve_pr_ok.
  - solve_pr_ok.
  - solve_pr_ok.
  - solve_pr_ok.
  - solve_pr_ok.
  - solve_pr_ok.
  - solve_pr_ok.
  - solve_pr_ok.
  - solve_pr_ok.
Qed.

(** C32. Whatever the leader does to a follower's progress, and whatever
    acknowledgements and rejections arrive, late ones included: the
    acknowledged index never goes back, the next index to send stays at least
    1, in replicate state it is above the acknowledged one, and the window of
    in-flight messages stays within its bound.  If moreover every rejection
    that arrives is for an index above the acknowledged one, with a hint not
    below it, the acknowledged index stays below the next one in every
    state. *)
Theorem progress_invariant delivered pr pr' :
  rtc (pr_step delivered) pr pr' -> pr_ok pr ->
  pr_Match pr <= pr_Match pr' /\ 1 <= pr_Next pr' <= MaxUint64 /\
  (pr_State pr' = ProgressStateReplicate -> pr_Match pr' < pr_Next pr') /\
  0 <= zlen (queue (pr_ins pr')) <= in_size (pr_ins pr') /\
  ((forall q rejected last, delivered q rejected last -> timely q rejected last) ->
   pr_Match pr < pr_Next pr -> pr_Match pr' < pr_Next pr').
Proof.
  intros Hsteps Hok. assert (H : pr_ok pr' /\ pr_Match pr <= pr_Match pr' /\
    ((forall q rejected last, delivered q rejected last -> timely q rejected last) ->
     pr_Match pr < pr_Next pr -> pr_Match pr' < pr_Next pr')).
  { induction Hsteps as [|pr pr1 pr' H1 _ IH]; [done|].
    destruct (pr_step_ok _ _ _ H1 Hok) as (Hok1 & Hle & Hlt). destruct (IH Hok1) as (? & ? & Hlt').
    split_and!; [done|lia|auto]. }
  destruct H as (Hok' & Hle & Hlt).
  split_and!; [done|apply Hok'|apply Hok'|apply Hok'|lia| |exact Hlt].
  rewrite queue_length by apply Hok'. apply Hok'.
Qed.

Lemma progress_invariant_witness :
  let pr' := becomeReplicate (fst (maybeUpdate (fst (maybeDecrTo (Progress_new 0 8 4) 7 5)) 5)) in
  0 <= pr_Match pr' /\ 1 <= pr_Next pr' <= MaxUint64 /\ 0 <= zlen (queue (pr_ins pr')) <= 4 /\
  pr_Match pr' < pr_Next pr'.
Proof.
  intros pr'. destruct (progress_invariant timely (Progress_new 0 8 4) pr') as (H1 & H2 & _ & H3 & H4).
  - eapply rtc_l; [by apply (ps_decr _ _ 7 5)|].
    eapply rtc_l; [by apply (ps_update _ _ 5)|]. apply rtc_once, ps_replicate.
  - by constructor; cbn; try done; apply newInflights_ok.
  - split_and!; [exact H1|apply H2|apply H2|apply H3|apply H3|]. by apply H4.
Defined.

(** The last condition is needed: [stepLeader] passes the index and the hint
    of a rejection on unchecked, and in probe state [maybeDecrTo] takes one
    for [Next-1] also when [Next-1] is the acknowledged index.  The leader has
    the acknowledgement of 7, and probes after a report of the follower as
    unreachable; a rejection of 7 sent before the acknowledgement, whose hint
    is 3, takes [Next] to 4, and the leader sends again what the follower has
    acknowledged. *)
Lemma late_rejection_below_match :
  let pr := becomeProbe (fst (maybeUpdate (becomeReplicate (Progress_new 0 8 4)) 7)) in
  pr_Match pr = 7 /\ pr_Next pr = 8 /\
  exists pr', maybeDecrTo pr 7 3 = (pr', true) /\ pr_Match pr' = 7 /\ pr_Next pr' = 4.
Proof. vm_compute. by split_and!; [..|eexists]. Qed.

(** A rejection moves the probe back.  [maybeDecrTo] ignores a rejection
    that is stale (in replicate state, not above [Match]; otherwise, not for
    [Next-1]); one it accepts takes [Next] to [Match+1] in replicate state and
    else to [max(1, min(rejected, last+1))], which is smaller than before
    unless [Next] is already 1, so that probing ends. *)
Theorem maybeDecrTo_spec pr rejected last :
  0 <= pr_Match pr < pr_Next pr -> pr_Next pr <= MaxUint64 ->
  0 <= rejected < MaxUint64 -> 0 <= last < MaxUint64 ->
  let replicate := pr_State pr = ProgressStateReplicate in
  let stale := (replicate /\ rejected <= pr_Match pr) \/ (~ replicate /\ rejected <> pr_Next pr - 1) in
  (stale -> maybeDecrTo pr rejected last = (pr, false)) /\
  (~ stale -> exists pr', maybeDecrTo pr rejected last = (pr', true) /\
     pr_Match pr' = pr_Match pr /\ pr_State pr' = pr_State pr /\
     (replicate -> pr_Next pr' = pr_Match pr + 1 /\ pr_Next pr' <= pr_Next pr) /\
     (~ replicate -> pr_Paused pr' = false /\ pr_Next pr' = Z.max 1 (Z.min rejected (last + 1)) /\
        (pr_Next pr' < pr_Next pr \/ pr_Next pr' = 1))).
Proof.
  intros Hm Hn Hr Hl replicate stale; subst replicate stale. unfold maybeDecrTo.
  destruct (decide (pr_State pr = ProgressStateReplicate)) as [E|E].
  - rewrite bool_decide_eq_true_2 by done. zif; (split; [intros [[_ ?]|[? _]]; done || lia|intros Hs]).
    + destruct Hs. by left.
    + eexists. split; [done|]. cbn. u64_simp. split_and!; try done. intros _. lia.
  - rewrite bool_decide_eq_false_2 by done. u64_simp. zif; (split; [intros Hs|intros Hs]).
    + destruct Hs as [[? _]|[_ Hs]]; [done|lia].
    + cbn. zif; (eexists; split; [done|]; cbn; split_and!; [done|done|done|]; intros _;
        split_and!; [done|lia|lia]).
    + done.
    + destruct Hs. right. split; [done|lia].
Qed.

Lemma maybeDecrTo_spec_witness :
  exists pr', maybeDecrTo (Progress_new 2 8 4) 7 4 = (pr', true) /\
    pr_Match pr' = 2 /\ pr_State pr' = ProgressStateProbe /\
    (ProgressStateProbe = ProgressStateReplicate -> pr_Next pr' = 2 + 1 /\ pr_Next pr' <= 8) /\
    (ProgressStateProbe <> ProgressStateReplicate ->
       pr_Paused pr' = false /\ pr_Next pr' = 5 /\ (pr_Next pr' < 8 \/ pr_Next pr' = 1)).
Proof.
  apply (maybeDecrTo_spec (Progress_new 2 8 4) 7 4); cbn; try done. naive_solver.
Defined.
