(* ===== verification/Raft.v ===== *)
(** * The raft state machine

    [src/raft/raft.go].  The struct [raft] is a record over the storage type;
    each method is a function from state to state (or to a state and its
    results) in [outcome], a panic being the only other way out.  The logger
    has no effect beyond the arguments it evaluates, which may panic and are
    kept.  [tick] and [step], which hold functions, hold their names.

    Two things of the run-time are parameters.  [range] is the order in which
    one [for id := range r.prs] visits the peers: any permutation of the keys
    (no call below has two loops whose order can be observed).  The number
    [rand.Int()] returns is the argument [draw] of a tick. *)

From S2P Require Import Prelude RaftPB Storage Unstable RaftLog Progress.

Definition None_ : Z := 0.

Inductive StateType : Type := StateFollower | StateCandidate | StateLeader.

#[export] Instance StateType_eq_dec : EqDecision StateType.
Proof. solve_decision. Defined.

(** The functions stored in [raft.tick] and [raft.step]. *)
Inductive tickFunc : Type := f_tickElection | f_tickHeartbeat.
Inductive stepFunc : Type := f_stepFollower | f_stepCandidate | f_stepLeader.

Section raft_machine.
  Context {St : Type} `{Storage St}.

Record Config : Type := mkConfig {
  c_ID : Z;
  c_peers : list Z;
  c_ElectionTick : Z;
  c_HeartbeatTick : Z;
  c_Storage : St;
  c_Applied : Z;
  c_MaxSizePerMsg : Z;
  c_MaxInflightMsgs : Z;
  c_CheckQuorum : bool
}.

(** The storage and the logger are never nil here. *)
Definition validate (c : Config) : option string :=
  if c_ID c =? None_ then Some "cannot use none as id" else
  if c_HeartbeatTick c <=? 0 then Some "heartbeat tick must be greater than 0" else
  if c_ElectionTick c <=? c_HeartbeatTick c
  then Some "election tick must be greater than heartbeat tick" else
  if c_MaxInflightMsgs c <=? 0 then Some "max inflight messages must be greater than 0" else None.

Record raft : Type := mkRaft {
  r_id : Z;
  r_Term : Z;
  r_Vote : Z;
  r_raftLog : raftLog St;
  r_maxInflight : Z;
  r_maxMsgSize : Z;
  r_prs : gmap Z Progress;
  r_state : StateType;
  r_votes : gmap Z bool;
  r_msgs : list Message;
  r_lead : Z;
  r_pendingConf : bool;
  r_electionElapsed : Z;
  r_heartbeatElapsed : Z;
  r_checkQuorum : bool;
  r_heartbeatTimeout : Z;
  r_electionTimeout : Z;
  r_tick : tickFunc;
  r_step : stepFunc
}.

#[export] Instance eta_raft : Eta raft := fun r =>
  mkRaft (r_id r) (r_Term r) (r_Vote r) (r_raftLog r) (r_maxInflight r) (r_maxMsgSize r)
    (r_prs r) (r_state r) (r_votes r) (r_msgs r) (r_lead r) (r_pendingConf r)
    (r_electionElapsed r) (r_heartbeatElapsed r) (r_checkQuorum r) (r_heartbeatTimeout r)
    (r_electionTimeout r) (r_tick r) (r_step r).

Implicit Types (r : raft) (m : Message) (id to : Z).

(** [r.prs[id]] used as a pointer: a missing key is nil, and using it panics. *)
Definition progress r id : outcome Progress :=
  match r_prs r !! id with
  | Some pr => Ok pr
  | None => Panic "invalid memory address or nil pointer dereference"
  end.

Definition put_progress r id (pr : Progress) : raft := r <| r_prs := <[id := pr]> (r_prs r) |>.

Definition hasLeader r : bool := negb (r_lead r =? None_).

Definition hardState r : HardState :=
  mkHardState (r_Term r) (r_Vote r) (l_committed (r_raftLog r)) None.

Definition quorum r : Z := Z.of_nat (size (r_prs r)) / 2 + 1.

Definition nodes r : list Z := merge_sort Z.le (elements (dom (r_prs r))).

Definition send r m : raft :=
  let m := m <| mFrom := r_id r |> in
  let m := if negb (bool_decide (mType m = MsgProp)) then m <| mTerm := r_Term r |> else m in
  r <| r_msgs := r_msgs r ++ [m] |>.

Definition IsEmptySnap (sp : Snapshot) : bool := smIndex (sMetadata sp) =? 0.

(** [sendAppend] when the term or the entries could not be read. *)
Definition sendAppend_snapshot r to (pr : Progress) : outcome raft :=
  if negb (pr_RecentActive pr) then Ok r else
  let! '(snap, err) := RaftLog.snapshot (r_raftLog r) in
  match err with
  | Some ErrSnapshotTemporarilyUnavailable => Ok r
  | Some _ => Panic "storage error"
  | None =>
      if IsEmptySnap snap then Panic "need non-empty snapshot" else
      let! _ := RaftLog.firstIndex (r_raftLog r) in
      let pr := becomeSnapshot pr (smIndex (sMetadata snap)) in
      Ok (send (put_progress r to pr)
            (Message0 <| mTo := to |> <| mType := MsgSnap |> <| mSnapshot := snap |>))
  end.

(** [sendAppend] with the entries at hand. *)
Definition sendAppend_entries r to (pr : Progress) (term : Z) (ents : list Entry) : outcome raft :=
  let m := Message0 <| mTo := to |> <| mType := MsgApp |> <| mIndex := pr_Next pr ⊟ 1 |>
             <| mLogTerm := term |> <| mEntries := ents |>
             <| mCommit := l_committed (r_raftLog r) |> in
  let n := zlen ents in
  let! r1 :=
    (if negb (n =? 0) then
       match pr_State pr with
       | ProgressStateReplicate =>
           let! e := at_ ents (n - 1) in
           let last := eIndex e in
           let pr := optimisticUpdate pr last in
           let! ins := add (pr_ins pr) last in
           Ok (put_progress r to (pr <| pr_ins := ins |>))
       | ProgressStateProbe => Ok (put_progress r to (pause pr))
       | ProgressStateSnapshot => Panic "sending append in unhandled state"
       end
     else Ok r) in
  Ok (send r1 m).

Definition sendAppend r to : outcome raft :=
  let! pr := progress r to in
  if isPaused pr then Ok r else
  let! '(term, errt) := RaftLog.term (r_raftLog r) (pr_Next pr ⊟ 1) in
  let! '(ents, erre) := RaftLog.entries (r_raftLog r) (pr_Next pr) (r_maxMsgSize r) in
  match errt, erre with
  | None, None => sendAppend_entries r to pr term ents
  | _, _ => sendAppend_snapshot r to pr
  end.

Definition sendHeartbeat r to : outcome raft :=
  let! pr := progress r to in
  let commit := Z.min (pr_Match pr) (l_committed (r_raftLog r)) in
  Ok (send r (Message0 <| mTo := to |> <| mType := MsgHeartbeat |> <| mCommit := commit |>)).

(** [mis] sorted in decreasing order, element [quorum() - 1]. *)
Definition quorum_match r : outcome Z :=
  let mis := reverse (merge_sort Z.le (pr_Match <$> (map_to_list (r_prs r)).*2)) in
  at_ mis (quorum r - 1).

Definition maybeCommit r : outcome (raft * bool) :=
  let! mci := quorum_match r in
  let! '(l, b) := RaftLog.maybeCommit (r_raftLog r) mci (r_Term r) in
  Ok (r <| r_raftLog := l |>, b).

Definition reset r (term : Z) : outcome raft :=
  let r := if negb (r_Term r =? term) then r <| r_Term := term |> <| r_Vote := None_ |> else r in
  let r := r <| r_lead := None_ |> <| r_electionElapsed := 0 |> <| r_heartbeatElapsed := 0 |>
             <| r_votes := ∅ |> in
  let! r :=
    (if bool_decide (r_prs r = ∅) then Ok r else
     let! li := RaftLog.lastIndex (r_raftLog r) in
     Ok (r <| r_prs := map_imap (fun id _ =>
            Some (Progress_new (if id =? r_id r then li else 0) (li ⊞ 1) (r_maxInflight r))) (r_prs r) |>)) in
  Ok (r <| r_pendingConf := false |>).

(** [es[i].Term = r.Term; es[i].Index = li + 1 + i]. *)
Fixpoint stamp (term li : Z) (es : list Entry) : list Entry :=
  match es with
  | [] => []
  | e :: es' => (e <| eTerm := term |> <| eIndex := li ⊞ 1 |>) :: stamp term (li ⊞ 1) es'
  end.

Definition appendEntry r (es : list Entry) : outcome raft :=
  let! li := RaftLog.lastIndex (r_raftLog r) in
  let! '(l, _) := RaftLog.append (r_raftLog r) (stamp (r_Term r) li es) in
  let r := r <| r_raftLog := l |> in
  let! pr := progress r (r_id r) in
  let! last := RaftLog.lastIndex (r_raftLog r) in
  let r := put_progress r (r_id r) (fst (maybeUpdate pr last)) in
  let! '(r, _) := maybeCommit r in
  Ok r.

Definition promotable r : bool := bool_decide (is_Some (r_prs r !! r_id r)).

Definition becomeFollower r (term lead : Z) : outcome raft :=
  let r := r <| r_step := f_stepFollower |> in
  let! r := reset r term in
  Ok (r <| r_tick := f_tickElection |> <| r_lead := lead |> <| r_state := StateFollower |>).

Definition becomeCandidate r : outcome raft :=
  if bool_decide (r_state r = StateLeader) then Panic "invalid transition [leader -> candidate]" else
  let r := r <| r_step := f_stepCandidate |> in
  let! r := reset r (r_Term r ⊞ 1) in
  Ok (r <| r_tick := f_tickElection |> <| r_Vote := r_id r |> <| r_state := StateCandidate |>).

(** The loop over the uncommitted entries: is a configuration change pending? *)
Fixpoint scan_conf (ents : list Entry) (pending : bool) : outcome bool :=
  match ents with
  | [] => Ok pending
  | e :: ents' =>
      if negb (bool_decide (eType e = EntryConfChange)) then scan_conf ents' pending else
      if pending then Panic "unexpected double uncommitted config entry" else scan_conf ents' true
  end.

Definition becomeLeader r : outcome raft :=
  if bool_decide (r_state r = StateFollower) then Panic "invalid transition [follower -> leader]" else
  let r := r <| r_step := f_stepLeader |> in
  let! r := reset r (r_Term r) in
  let r := r <| r_tick := f_tickHeartbeat |> <| r_lead := r_id r |> <| r_state := StateLeader |> in
  let! '(ents, err) := RaftLog.entries (r_raftLog r) (l_committed (r_raftLog r) ⊞ 1) noLimit in
  match err with
  | Some _ => Panic "unexpected error getting uncommitted entries"
  | None =>
      let! pending := scan_conf ents (r_pendingConf r) in
      let r := r <| r_pendingConf := pending |> in
      appendEntry r [Entry0]
  end.

(** [poll]: the first vote of a peer counts. *)
Definition poll r id (v : bool) : raft * Z :=
  let votes := match r_votes r !! id with Some _ => r_votes r | None => <[id := v]> (r_votes r) end in
  (r <| r_votes := votes |>, Z.of_nat (size (filter (fun kv => snd kv = true) votes))).

Definition setProgress r id (match_ next : Z) : raft :=
  r <| r_prs := <[id := Progress_new match_ next (r_maxInflight r)]> (r_prs r) |>.

Definition delProgress r id : raft := r <| r_prs := delete id (r_prs r) |>.

Definition resetPendingConf r : raft := r <| r_pendingConf := false |>.

Definition addNode r id : outcome raft :=
  match r_prs r !! id with
  | Some _ => Ok r
  | None =>
      let! li := RaftLog.lastIndex (r_raftLog r) in
      Ok ((setProgress r id 0 (li ⊞ 1)) <| r_pendingConf := false |>)
  end.

Definition loadState r (state : HardState) : outcome raft :=
  let! last := RaftLog.lastIndex (r_raftLog r) in
  if (hsCommit state <? l_committed (r_raftLog r)) || (hsCommit state >? last)
  then Panic "state.commit is out of range"
  else Ok (r <| r_raftLog := (r_raftLog r) <| l_committed := hsCommit state |> |>
             <| r_Term := hsTerm state |> <| r_Vote := hsVote state |>).

(** [%] panics on zero. *)
Definition isElectionTimeout r (draw : Z) : outcome bool :=
  let d := r_electionElapsed r - r_electionTimeout r in
  if d <? 0 then Ok false else
  if r_electionTimeout r =? 0 then Panic "integer divide by zero" else
  Ok (d >? Z.rem draw (r_electionTimeout r)).

(** [checkQuorumActive] also clears every other peer's [RecentActive]. *)
Definition checkQuorumActive r : raft * bool :=
  let act := filter (fun kv => kv.1 = r_id r \/ pr_RecentActive kv.2 = true) (r_prs r) in
  let prs := map_imap (fun id pr =>
               Some (if id =? r_id r then pr else pr <| pr_RecentActive := false |>)) (r_prs r) in
  (r <| r_prs := prs |>, Z.of_nat (size act) >=? quorum r).

(** ** Followers *)

Definition handleAppendEntries r m : outcome raft :=
  if mIndex m <? l_committed (r_raftLog r) then
    Ok (send r (Message0 <| mTo := mFrom m |> <| mType := MsgAppResp |>
                         <| mIndex := l_committed (r_raftLog r) |>))
  else
    let! '(l, res) := maybeAppend (r_raftLog r) (mIndex m) (mLogTerm m) (mCommit m) (mEntries m) in
    let r := r <| r_raftLog := l |> in
    match res with
    | Some mlastIndex =>
        Ok (send r (Message0 <| mTo := mFrom m |> <| mType := MsgAppResp |> <| mIndex := mlastIndex |>))
    | None =>
        let! t := RaftLog.term (r_raftLog r) (mIndex m) in
        let! _ := zeroTermOnErrCompacted t in
        let! last := RaftLog.lastIndex (r_raftLog r) in
        Ok (send r (Message0 <| mTo := mFrom m |> <| mType := MsgAppResp |> <| mIndex := mIndex m |>
                             <| mReject := true |> <| mRejectHint := last |>))
    end.

Definition handleHeartbeat r m : outcome raft :=
  let! l := commitTo (r_raftLog r) (mCommit m) in
  Ok (send (r <| r_raftLog := l |>) (Message0 <| mTo := mFrom m |> <| mType := MsgHeartbeatResp |>)).

(** The log lines of [restore] evaluate the last index and term. *)
Definition log_last r : outcome unit :=
  let! _ := RaftLog.lastIndex (r_raftLog r) in
  let! _ := lastTerm (r_raftLog r) in Ok tt.

Definition restore r (s : Snapshot) : outcome (raft * bool) :=
  let sm := sMetadata s in
  if smIndex sm <=? l_committed (r_raftLog r) then Ok (r, false) else
  let! mt := matchTerm (r_raftLog r) (smIndex sm) (smTerm sm) in
  let! _ := log_last r in
  if mt then
    let! l := commitTo (r_raftLog r) (smIndex sm) in
    Ok (r <| r_raftLog := l |>, false)
  else
    let r := r <| r_raftLog := RaftLog.restore (r_raftLog r) s |> <| r_prs := ∅ |> in
    let! r := foldM (fun r n =>
                let! last := RaftLog.lastIndex (r_raftLog r) in
                let next := last ⊞ 1 in
                let match_ := if n =? r_id r then next ⊟ 1 else 0 in
                Ok (setProgress r n match_ next)) (csNodes (smConfState sm)) r in
    Ok (r, true).

Definition handleSnapshot r m : outcome raft :=
  let! '(r, ok) := restore r (mSnapshot m) in
  if ok then
    let! last := RaftLog.lastIndex (r_raftLog r) in
    Ok (send r (Message0 <| mTo := mFrom m |> <| mType := MsgAppResp |> <| mIndex := last |>))
  else
    Ok (send r (Message0 <| mTo := mFrom m |> <| mType := MsgAppResp |>
                         <| mIndex := l_committed (r_raftLog r) |>)).

(** The log lines of the vote handlers evaluate [lastTerm] and [lastIndex]. *)
Definition log_vote r : outcome unit :=
  let! _ := lastTerm (r_raftLog r) in
  let! _ := RaftLog.lastIndex (r_raftLog r) in Ok tt.

Definition rejectVote r m : outcome raft :=
  let! _ := log_vote r in
  Ok (send r (Message0 <| mTo := mFrom m |> <| mType := MsgVoteResp |> <| mReject := true |>)).

Definition stepFollower r m : outcome raft :=
  match mType m with
  | MsgProp =>
      if r_lead r =? None_ then Ok r else Ok (send r (m <| mTo := r_lead r |>))
  | MsgApp =>
      handleAppendEntries (r <| r_electionElapsed := 0 |> <| r_lead := mFrom m |>) m
  | MsgHeartbeat =>
      handleHeartbeat (r <| r_electionElapsed := 0 |> <| r_lead := mFrom m |>) m
  | MsgSnap => handleSnapshot (r <| r_electionElapsed := 0 |>) m
  | MsgVote =>
      let! grant :=
        (if (r_Vote r =? None_) || (r_Vote r =? mFrom m)
         then isUpToDate (r_raftLog r) (mIndex m) (mLogTerm m) else Ok false) in
      if grant then
        let r := r <| r_electionElapsed := 0 |> in
        let! _ := log_vote r in
        Ok (send (r <| r_Vote := mFrom m |>) (Message0 <| mTo := mFrom m |> <| mType := MsgVoteResp |>))
      else rejectVote r m
  | _ => Ok r
  end.
End raft_machine.
Arguments raft : clear implicits.
Arguments Config : clear implicits.

(** ** Broadcasting, elections and leaders *)

Section raft_range.
  Context {St : Type} `{Storage St}.
  Context (range : gmap Z Progress -> list Z).
  Implicit Types (r : raft St) (m : Message) (id to : Z).

(** The peers other than the node itself, in the order of the loop. *)
Definition others r : list Z := filter (fun id => id <> r_id r) (range (r_prs r)).

Definition bcastAppend r : outcome (raft St) := foldM sendAppend (others r) r.

Definition bcastHeartbeat r : outcome (raft St) :=
  foldM (fun r id =>
    let! r := sendHeartbeat r id in
    let! pr := progress r id in
    Ok (put_progress r id (resume pr))) (others r) r.

Definition removeNode r id : outcome (raft St) :=
  let r := resetPendingConf (delProgress r id) in
  if Z.of_nat (size (r_prs r)) =? 0 then Ok r else
  let! '(r, b) := maybeCommit r in
  if b then bcastAppend r else Ok r.

Definition campaign r : outcome (raft St) :=
  let! r := becomeCandidate r in
  let '(r, granted) := poll r (r_id r) true in
  if quorum r =? granted then becomeLeader r else
  foldM (fun r id =>
    let! lt := lastTerm (r_raftLog r) in
    let! li := RaftLog.lastIndex (r_raftLog r) in
    Ok (send r (Message0 <| mTo := id |> <| mType := MsgVote |> <| mIndex := li |> <| mLogTerm := lt |>)))
    (others r) r.

Definition stepCandidate r m : outcome (raft St) :=
  match mType m with
  | MsgProp => Ok r
  | MsgApp => let! r := becomeFollower r (r_Term r) (mFrom m) in handleAppendEntries r m
  | MsgHeartbeat => let! r := becomeFollower r (r_Term r) (mFrom m) in handleHeartbeat r m
  | MsgSnap => let! r := becomeFollower r (mTerm m) (mFrom m) in handleSnapshot r m
  | MsgVote => rejectVote r m
  | MsgVoteResp =>
      let '(r, gr) := poll r (mFrom m) (negb (mReject m)) in
      if quorum r =? gr then let! r := becomeLeader r in bcastAppend r
      else if quorum r =? Z.of_nat (size (r_votes r)) - gr then becomeFollower r (r_Term r) None_
      else Ok r
  | _ => Ok r
  end.

(** The proposal loop: only one configuration change may be pending. *)
Fixpoint propose_conf (es : list Entry) (pending : bool) : list Entry * bool :=
  match es with
  | [] => ([], pending)
  | e :: es' =>
      if bool_decide (eType e = EntryConfChange) then
        let e := if pending then Entry0 else e in
        let '(es', p) := propose_conf es' true in (e :: es', p)
      else let '(es', p) := propose_conf es' pending in (e :: es', p)
  end.

Definition stepLeader_prop r m : outcome (raft St) :=
  if zlen (mEntries m) =? 0 then Panic "stepped empty MsgProp" else
  match r_prs r !! r_id r with
  | None => Ok r
  | Some _ =>
      let '(es, p) := propose_conf (mEntries m) (r_pendingConf r) in
      let! r := appendEntry (r <| r_pendingConf := p |>) es in
      bcastAppend r
  end.

(** [MsgAppResp] with [m.Reject]. *)
Definition stepLeader_reject r m (pr : Progress) : outcome (raft St) :=
  let '(pr, ok) := maybeDecrTo pr (mIndex m) (mRejectHint m) in
  if ok then
    let pr := if bool_decide (pr_State pr = ProgressStateReplicate) then becomeProbe pr else pr in
    sendAppend (put_progress r (mFrom m) pr) (mFrom m)
  else Ok (put_progress r (mFrom m) pr).

(** The switch on the state of a progress that advanced. *)
Definition advance_state (pr : Progress) (index : Z) : outcome Progress :=
  match pr_State pr with
  | ProgressStateProbe => Ok (becomeReplicate pr)
  | ProgressStateSnapshot => Ok (if maybeSnapshotAbort pr then becomeProbe pr else pr)
  | ProgressStateReplicate =>
      let! ins := freeTo (pr_ins pr) index in Ok (pr <| pr_ins := ins |>)
  end.

(** [MsgAppResp] without [m.Reject]. *)
Definition stepLeader_accept r m (pr : Progress) : outcome (raft St) :=
  let oldPaused := isPaused pr in
  let '(pr, updated) := maybeUpdate pr (mIndex m) in
  if updated then
    let! pr := advance_state pr (mIndex m) in
    let! '(r, b) := maybeCommit (put_progress r (mFrom m) pr) in
    if b then bcastAppend r
    else if oldPaused then sendAppend r (mFrom m) else Ok r
  else Ok (put_progress r (mFrom m) pr).

Definition stepLeader_heartbeatResp r m (pr : Progress) : outcome (raft St) :=
  let pr := pr <| pr_RecentActive := true |> in
  let! pr :=
    (if bool_decide (pr_State pr = ProgressStateReplicate) && full (pr_ins pr)
     then let! ins := freeFirstOne (pr_ins pr) in Ok (pr <| pr_ins := ins |>)
     else Ok pr) in
  let r := put_progress r (mFrom m) pr in
  let! last := RaftLog.lastIndex (r_raftLog r) in
  if pr_Match pr <? last then sendAppend r (mFrom m) else Ok r.

Definition stepLeader_snapStatus r m (pr : Progress) : outcome (raft St) :=
  if negb (bool_decide (pr_State pr = ProgressStateSnapshot)) then Ok r else
  let pr := if negb (mReject m) then becomeProbe pr else becomeProbe (snapshotFailure pr) in
  Ok (put_progress r (mFrom m) (pause pr)).

Definition stepLeader r m : outcome (raft St) :=
  match mType m with
  | MsgBeat => bcastHeartbeat r
  | MsgCheckQuorum =>
      let '(r, active) := checkQuorumActive r in
      if negb active then becomeFollower r (r_Term r) None_ else Ok r
  | MsgProp => stepLeader_prop r m
  | MsgVote => rejectVote r m
  | _ =>
      match r_prs r !! mFrom m with
      | None => Ok r
      | Some pr =>
          match mType m with
          | MsgAppResp =>
              let pr := pr <| pr_RecentActive := true |> in
              if mReject m then stepLeader_reject r m pr else stepLeader_accept r m pr
          | MsgHeartbeatResp => stepLeader_heartbeatResp r m pr
          | MsgSnapStatus => stepLeader_snapStatus r m pr
          | MsgUnreachable =>
              if bool_decide (pr_State pr = ProgressStateReplicate)
              then Ok (put_progress r (mFrom m) (becomeProbe pr)) else Ok r
          | _ => Ok r
          end
      end
  end.

(** [r.step(r, m)] *)
Definition call_step r m : outcome (raft St) :=
  match r_step r with
  | f_stepFollower => stepFollower r m
  | f_stepCandidate => stepCandidate r m
  | f_stepLeader => stepLeader r m
  end.

Definition Step r m : outcome (raft St) :=
  if bool_decide (mType m = MsgHup) then
    if negb (bool_decide (r_state r = StateLeader)) then campaign r else Ok r
  else if mTerm m =? 0 then call_step r m
  else if mTerm m >? r_Term r then
    let lead := if bool_decide (mType m = MsgVote) then None_ else mFrom m in
    let! r := becomeFollower r (mTerm m) lead in
    call_step r m
  else if mTerm m <? r_Term r then Ok r
  else call_step r m.

Definition tickElection r (draw : Z) : outcome (raft St) :=
  if negb (promotable r) then Ok (r <| r_electionElapsed := 0 |>) else
  let r := r <| r_electionElapsed := r_electionElapsed r + 1 |> in
  let! timeout := isElectionTimeout r draw in
  if timeout then
    Step (r <| r_electionElapsed := 0 |>) (Message0 <| mFrom := r_id r |> <| mType := MsgHup |>)
  else Ok r.

Definition tickHeartbeat r : outcome (raft St) :=
  let r := r <| r_heartbeatElapsed := r_heartbeatElapsed r + 1 |>
             <| r_electionElapsed := r_electionElapsed r + 1 |> in
  let! r :=
    (if r_electionElapsed r >=? r_electionTimeout r then
       let r := r <| r_electionElapsed := 0 |> in
       if r_checkQuorum r
       then Step r (Message0 <| mFrom := r_id r |> <| mType := MsgCheckQuorum |>) else Ok r
     else Ok r) in
  if negb (bool_decide (r_state r = StateLeader)) then Ok r else
  if r_heartbeatElapsed r >=? r_heartbeatTimeout r then
    Step (r <| r_heartbeatElapsed := 0 |>) (Message0 <| mFrom := r_id r |> <| mType := MsgBeat |>)
  else Ok r.

(** [r.tick()] *)
Definition tick r (draw : Z) : outcome (raft St) :=
  match r_tick r with
  | f_tickElection => tickElection r draw
  | f_tickHeartbeat => tickHeartbeat r
  end.
End raft_range.

(** ** Starting a node *)

Section raft_new.
  Context {St : Type} `{Storage St}.

Definition isHardStateEqual (a b : HardState) : bool :=
  (hsTerm a =? hsTerm b) && (hsVote a =? hsVote b) && (hsCommit a =? hsCommit b).

Definition newRaft (c : Config St) : outcome (raft St) :=
  match validate c with Some err => Panic err | None =>
  let! raftlog := newLog (c_Storage c) in
  let! '(hs, cs, err) := InitialState (c_Storage c) in
  match err with Some _ => Panic "storage error" | None =>
  let! peers :=
    (if 0 <? zlen (csNodes cs) then
       if 0 <? zlen (c_peers c) then Panic "cannot specify both newRaft(peers) and ConfState.Nodes)"
       else Ok (csNodes cs)
     else Ok (c_peers c)) in
  (** the fields the literal leaves out are zero; [step] and [tick] are set by
      [becomeFollower] before anything reads them *)
  let r := mkRaft (c_ID c) 0 0 raftlog (c_MaxInflightMsgs c) (c_MaxSizePerMsg c) ∅ StateFollower ∅ []
             None_ false 0 0 (c_CheckQuorum c) (c_HeartbeatTick c) (c_ElectionTick c)
             f_tickElection f_stepFollower in
  let r := foldl (fun r p => setProgress r p 0 1) r peers in
  let! r := (if negb (isHardStateEqual hs HardState0) then loadState r hs else Ok r) in
  let! r := (if c_Applied c >? 0
             then let! l := appliedTo (r_raftLog r) (c_Applied c) in Ok (r <| r_raftLog := l |>)
             else Ok r) in
  let! r := becomeFollower r (r_Term r) None_ in
  let! _ := log_last r in
  Ok r
  end end.
End raft_new.
