(* ===== verification/RaftSpec.v ===== *)
(** * The abstract raft node

    What [src/raft/raft.go] promises, without its machinery: a node is its
    term, vote, role, log, commit index, the acknowledged index of each peer
    and the messages it has sent; [astep m] lists what it may do while it
    handles the message [m].  [RaftRefine] shows that the code does nothing
    else; the properties of the protocol are proved on this relation. *)

From S2P Require Import Prelude RaftPB Storage Unstable RaftLog Progress Raft.

Record anode : Type := mkAnode {
  n_id : Z;
  n_term : Z;
  n_vote : Z;
  n_role : StateType;
  n_votes : gmap Z bool;
  n_log : alog;
  n_commit : Z;
  n_match : gmap Z Z; (** peer to acknowledged index; its domain is the membership *)
  n_out : list Message
}.

#[export] Instance eta_anode : Eta anode := fun r =>
  mkAnode (n_id r) (n_term r) (n_vote r) (n_role r) (n_votes r) (n_log r) (n_commit r)
    (n_match r) (n_out r).

Definition majority (n : nat) : Z := Z.of_nat n / 2 + 1.

(** How many peers satisfy [P]. *)
Definition count_peers {A} (P : A -> Prop) `{forall x, Decision (P x)} (m : gmap Z A) : Z :=
  Z.of_nat (size (filter (fun kv => P kv.2) m)).

Definition granted (votes : gmap Z bool) : Z := count_peers (fun b => b = true) votes.

(** The acknowledged indices a change of role starts from. *)
Definition fresh_match (id last : Z) (ms : gmap Z Z) : gmap Z Z :=
  map_imap (fun i _ => Some (if i =? id then last else 0)) ms.

Definition emit (m : Message) (n : anode) : anode := n <| n_out := n_out n ++ [m] |>.

Definition follow (n : anode) : anode :=
  n <| n_role := StateFollower |> <| n_votes := ∅ |>
    <| n_match := fresh_match (n_id n) (a_last (n_log n)) (n_match n) |>.

(** A message of the node's own, at its term. *)
Definition own (n : anode) (t : MessageType) (to : Z) : Message :=
  Message0 <| mTo := to |> <| mType := t |> <| mFrom := n_id n |> <| mTerm := n_term n |>.

Definition last_term (a : alog) : Z := default 0 (a_term a (a_last a)).

(** A leader's [MsgApp]: a stretch of its log and the term before it. *)
Definition app_of_log (a : alog) (commit : Z) (m : Message) : Prop :=
  mCommit m = commit /\
  (mEntries m <> [] -> a_term a (mIndex m) = Some (mLogTerm m)) /\
  mLogTerm m = default 0 (a_term a (mIndex m)) /\
  (forall k e, mEntries m !! k = Some e -> a_entry a (mIndex m + 1 + Z.of_nat k) = Some e).

Definition leader_msg (n : anode) (m : Message) : Prop :=
  mFrom m = n_id n /\ mTerm m = n_term n /\
  match mType m with
  | MsgApp => app_of_log (n_log n) (n_commit n) m
  | MsgSnap => 0 < smIndex (sMetadata (mSnapshot m))
  | MsgHeartbeat => exists k, n_match n !! mTo m = Some k /\ mCommit m = Z.min k (n_commit n)
  | _ => False
  end.

(** Replies that neither grant nor acknowledge anything. *)
Definition harmless (n : anode) (m : Message) : Prop :=
  match mType m with
  | MsgProp => True
  | MsgHeartbeatResp => mTerm m = n_term n /\ mFrom m = n_id n
  | MsgVoteResp | MsgAppResp => mTerm m = n_term n /\ mFrom m = n_id n /\ mReject m = true
  | _ => False
  end.

Definition up_to_date (a : alog) (lasti t : Z) : Prop :=
  last_term a < t \/ (t = last_term a /\ a_last a <= lasti).

(** What a node may do while it handles [m]. *)
Inductive astep (m : Message) : anode -> anode -> Prop :=
| as_newterm n :
    n_term n < mTerm m ->
    astep m n ((follow n) <| n_term := mTerm m |> <| n_vote := 0 |>)
| as_stepdown n : astep m n (follow n)
| as_campaign n :
    mType m = MsgHup -> n_role n <> StateLeader ->
    astep m n ((follow n) <| n_term := n_term n + 1 |> <| n_vote := n_id n |>
                 <| n_role := StateCandidate |> <| n_votes := {[n_id n := true]} |>)
| as_request n to :
    n_role n = StateCandidate -> to <> n_id n ->
    astep m n (emit ((own n MsgVote to) <| mIndex := a_last (n_log n) |>
                       <| mLogTerm := last_term (n_log n) |>) n)
| as_count n :
    n_role n = StateCandidate -> mType m = MsgVoteResp -> mTerm m = n_term n ->
    n_votes n !! mFrom m = None ->
    astep m n (n <| n_votes := <[mFrom m := negb (mReject m)]> (n_votes n) |>)
| as_win n :
    n_role n = StateCandidate -> granted (n_votes n) = majority (size (n_match n)) ->
    astep m n ((follow n) <| n_role := StateLeader |>)
| as_append n es :
    n_role n = StateLeader -> es <> [] -> contiguous (a_last (n_log n) + 1) es ->
    Forall (fun e => eTerm e = n_term n) es -> a_last (n_log n) + zlen es < MaxUint64 ->
    is_Some (n_match n !! n_id n) ->
    astep m n (n <| n_log := a_append (n_log n) es |>
                 <| n_match ::= alter (Z.max (a_last (n_log n) + zlen es)) (n_id n) |>)
| as_ack n k :
    n_role n = StateLeader -> mType m = MsgAppResp -> mTerm m = n_term n -> mReject m = false ->
    n_match n !! mFrom m = Some k -> k < mIndex m ->
    astep m n (n <| n_match := <[mFrom m := mIndex m]> (n_match n) |>)
| as_commit n i :
    n_role n = StateLeader -> n_commit n < i -> a_term (n_log n) i = Some (n_term n) ->
    majority (size (n_match n)) <= count_peers (fun k => i <= k) (n_match n) ->
    astep m n (n <| n_commit := i |>)
| as_send n out :
    n_role n = StateLeader -> leader_msg n out -> astep m n (emit out n)
| as_reply n out : harmless n out -> astep m n (emit out n)
| as_grant n :
    n_role n = StateFollower -> mType m = MsgVote -> mTerm m = n_term n ->
    n_vote n = 0 \/ n_vote n = mFrom m -> up_to_date (n_log n) (mIndex m) (mLogTerm m) ->
    astep m n (emit (own n MsgVoteResp (mFrom m)) (n <| n_vote := mFrom m |>))
| as_stale n :
    n_role n = StateFollower -> mTerm m = n_term n ->
    (mType m = MsgApp /\ mIndex m < n_commit n) \/
    (mType m = MsgSnap /\ smIndex (sMetadata (mSnapshot m)) <= n_commit n) ->
    astep m n (emit ((own n MsgAppResp (mFrom m)) <| mIndex := n_commit n |>) n)
| as_accept n a' c' :
    n_role n = StateFollower -> mType m = MsgApp -> mTerm m = n_term n -> n_commit n <= mIndex m ->
    default 0 (a_term (n_log n) (mIndex m)) = mLogTerm m ->
    Forall (fun e => eIndex e <= n_commit n -> agrees (n_log n) e = true) (mEntries m) ->
    appended (n_log n) (mEntries m) a' ->
    c' = Z.max (n_commit n) (Z.min (mCommit m) (mIndex m + zlen (mEntries m))) -> c' <= a_last a' ->
    astep m n (emit ((own n MsgAppResp (mFrom m)) <| mIndex := mIndex m + zlen (mEntries m) |>)
                 (n <| n_log := a' |> <| n_commit := c' |>))
| as_heartbeat n :
    n_role n = StateFollower -> mType m = MsgHeartbeat -> mTerm m = n_term n ->
    Z.max (n_commit n) (mCommit m) <= a_last (n_log n) ->
    astep m n (n <| n_commit := Z.max (n_commit n) (mCommit m) |>)
| as_forward n :
    let s := sMetadata (mSnapshot m) in
    n_role n = StateFollower -> mType m = MsgSnap -> mTerm m = n_term n ->
    n_commit n < smIndex s -> default 0 (a_term (n_log n) (smIndex s)) = smTerm s ->
    smIndex s <= a_last (n_log n) ->
    astep m n (emit ((own n MsgAppResp (mFrom m)) <| mIndex := smIndex s |>)
                 (n <| n_commit := smIndex s |>))
| as_restore n :
    let s := sMetadata (mSnapshot m) in
    n_role n = StateFollower -> mType m = MsgSnap -> mTerm m = n_term n ->
    n_commit n < smIndex s -> default 0 (a_term (n_log n) (smIndex s)) <> smTerm s ->
    astep m n (emit ((own n MsgAppResp (mFrom m)) <| mIndex := smIndex s |>)
                 (n <| n_log := mkAlog (smIndex s) (smTerm s) [] |> <| n_commit := smIndex s |>
                    <| n_match := fresh_match (n_id n) (smIndex s)
                         (list_to_map ((fun i => (i, 0)) <$> csNodes (smConfState s))) |>)).

Definition asteps (m : Message) : relation anode := rtc (astep m).

Lemma fresh_match_dom id last ms : dom (fresh_match id last ms) = dom ms.
Proof.
  apply set_eq. intros i. unfold fresh_match. rewrite !elem_of_dom, map_lookup_imap.
  destruct (ms !! i); cbn; split; intros [? ?]; eauto; done.
Qed.
