(* ===== verification/Quorum.v ===== *)
(** * Majorities

    The index a leader may commit is an order statistic of the acknowledged
    indices ([maybeCommit] of [src/raft/raft.go]); two majorities of one
    membership share a member. *)

From S2P Require Import Prelude RaftPB Storage Unstable RaftLog Progress Raft RaftSpec.

(** ** The [q]-th largest element *)

Lemma sorted_split (ys : list Z) q x :
  StronglySorted Z.le ys -> reverse ys !! q = Some x ->
  exists lo hi, ys = lo ++ x :: hi /\ length hi = q /\ Forall (fun y => y <= x) lo /\ Forall (Z.le x) hi.
Proof.
  intros Hs Hq. pose proof (lookup_lt_Some _ _ _ Hq) as Hlt. rewrite length_reverse in Hlt.
  rewrite reverse_lookup in Hq by done.
  pose proof (take_drop_middle _ _ _ Hq) as Hys. rewrite <- Hys in Hs.
  exists (take (length ys - S q) ys), (drop (S (length ys - S q)) ys).
  apply StronglySorted_app in Hs as (Hc & _ & Hr). apply StronglySorted_inv in Hr as [_ Hr].
  split_and!; [done|rewrite length_drop; lia| |done].
  apply Forall_forall. intros y Hy. apply Hc; [done|left].
Qed.

Lemma filter_all {A} (P : A -> Prop) `{forall x, Decision (P x)} l : Forall P l -> filter P l = l.
Proof.
  induction 1 as [|x l Hx _ IH]; [done|]. by rewrite filter_cons_True, IH.
Qed.

Lemma filter_none {A} (P : A -> Prop) `{forall x, Decision (P x)} l :
  Forall (fun x => ~ P x) l -> filter P l = [].
Proof.
  induction 1 as [|x l Hx _ IH]; [done|]. by rewrite filter_cons_False, IH.
Qed.

(** At least [q+1] elements reach the [q]-th of the decreasing order, and at
    most [q] exceed it. *)
Lemma nth_largest (xs : list Z) (q : nat) (x j : Z) :
  reverse (merge_sort Z.le xs) !! q = Some x ->
  (S q <= length (filter (fun y => (x <= y)%Z) xs))%nat /\
  (x < j -> (length (filter (fun y => (j <= y)%Z) xs) <= q)%nat).
Proof.
  intros Hq. pose proof (StronglySorted_merge_sort Z.le xs) as Hs.
  destruct (sorted_split _ _ _ Hs Hq) as (lo & hi & Hys & Hlen & Hlo & Hhi).
  assert (Hf : forall P `{forall y, Decision (P y)},
    length (filter P xs) = length (filter P (lo ++ x :: hi))).
  { intros P ?. apply Permutation_length, filter_Permutation. rewrite <- Hys.
    symmetry. apply merge_sort_Permutation. }
  rewrite Hf. split.
  - rewrite filter_app, length_app, filter_cons_True by lia. cbn.
    rewrite (filter_all _ hi) by done. lia.
  - intros Hj. rewrite Hf, filter_app, filter_cons_False by lia. rewrite length_app.
    rewrite (filter_none _ lo) by (eapply Forall_impl; [done|cbn; lia]). cbn.
    pose proof (length_filter (fun y => j <= y) hi). lia.
Qed.

(** ** Counting peers *)

Lemma map_filter_length {A} (P : A -> Prop) `{forall x, Decision (P x)} (m : gmap Z A) :
  size (filter (fun kv => P kv.2) m) = length (filter P (map_to_list m).*2).
Proof.
  induction m as [|i x m Hi IH] using map_ind.
  - by rewrite map_filter_empty, map_to_list_empty.
  - rewrite (Permutation_length (filter_Permutation P _ _ (fmap_Permutation snd _ _ (map_to_list_insert m i x Hi)))).
    rewrite fmap_cons. cbn [snd]. destruct (decide (P x)).
    + rewrite map_filter_insert_True, filter_cons_True by done. cbn [length].
      rewrite map_size_insert_None; [by rewrite IH|]. by apply map_lookup_filter_None_2; left.
    + rewrite map_filter_insert_not' by naive_solver. by rewrite filter_cons_False.
Qed.

Lemma count_peers_fmap {A} (f : A -> Z) (P : Z -> Prop) `{forall x, Decision (P x)} (m : gmap Z A) :
  count_peers P (f <$> m) = Z.of_nat (length (filter P (f <$> (map_to_list m).*2))).
Proof.
  unfold count_peers. rewrite map_filter_length. do 3 f_equal.
  rewrite map_to_list_fmap, <- !list_fmap_compose. done.
Qed.

(** ** The leader's commit rule *)

Section quorum.
  Context {St : Type} `{Storage St}.
  Implicit Types r : raft St.

Lemma quorum_majority r : quorum r = majority (size (pr_Match <$> r_prs r)).
Proof. unfold quorum, majority. by rewrite map_size_fmap. Qed.

Lemma quorum_match_Ok r mci : quorum_match r = Ok mci ->
  let matches := pr_Match <$> r_prs r in
  (exists id pr, r_prs r !! id = Some pr /\ pr_Match pr = mci) /\
  quorum r <= count_peers (fun k => mci <= k) matches /\
  forall j, mci < j -> count_peers (fun k => j <= k) matches < quorum r.
Proof.
  intros Hq. unfold quorum_match in Hq. apply at_Ok in Hq as [Hr Hq]. split_and!.
  - apply list_elem_of_lookup_2 in Hq. rewrite elem_of_reverse, merge_sort_Permutation in Hq.
    apply list_elem_of_fmap in Hq as (pr & -> & Hq). apply list_elem_of_fmap in Hq as ([id pr'] & -> & Hq).
    apply elem_of_map_to_list in Hq. eauto.
  - rewrite count_peers_fmap. destruct (nth_largest _ _ _ 0 Hq) as [Hge _]. lia.
  - intros j Hj. rewrite count_peers_fmap. destruct (nth_largest _ _ _ j Hq) as [_ Hlt].
    specialize (Hlt Hj). lia.
Qed.

Lemma quorum_match_total r : r_prs r <> ∅ -> is_Ok (quorum_match r).
Proof.
  intros Hne. unfold quorum_match.
  destruct (at_in_range (reverse (merge_sort Z.le (pr_Match <$> (map_to_list (r_prs r)).*2))) (quorum r - 1))
    as (x & -> & _); [|by eexists].
  rewrite length_reverse, merge_sort_Permutation, !length_fmap, length_map_to_list.
  apply map_size_non_empty_iff in Hne. unfold quorum.
  pose proof (Z.div_lt_upper_bound (Z.of_nat (size (r_prs r))) 2 (Z.of_nat (size (r_prs r)))).
  pose proof (Z.div_pos (Z.of_nat (size (r_prs r))) 2). lia.
Qed.

(** C17. The index [maybeCommit] computes by sorting the acknowledged indices
    is the largest one a quorum of the members has reached: at least
    [quorum()] members acknowledged it, and fewer acknowledged any larger one.
    Only an empty membership makes it panic. *)
Theorem quorum_match_spec r :
  (r_prs r = ∅ -> exists w, quorum_match r = Panic w) /\
  (r_prs r <> ∅ -> exists mci, quorum_match r = Ok mci /\
     (exists id pr, r_prs r !! id = Some pr /\ pr_Match pr = mci) /\
     quorum r <= count_peers (fun k => mci <= k) (pr_Match <$> r_prs r) /\
     forall j, mci < j -> count_peers (fun k => j <= k) (pr_Match <$> r_prs r) < quorum r).
Proof.
  split.
  - intros He. unfold quorum_match, quorum. rewrite He. cbn. by eexists.
  - intros Hne. destruct (quorum_match_total r Hne) as [mci Hm]. exists mci. split; [done|].
    by apply quorum_match_Ok.
Qed.
End quorum.

(** ** Majorities intersect *)

Lemma majorities_intersect (X A B : gset Z) :
  A ⊆ X -> B ⊆ X -> majority (size X) <= Z.of_nat (size A) -> majority (size X) <= Z.of_nat (size B) ->
  exists x, x ∈ A /\ x ∈ B.
Proof.
  intros HA HB Ha Hb. destruct (decide (A ∩ B = ∅)) as [E|E].
  - assert (Hd : A ## B) by set_solver.
    assert (Hs : (size (A ∪ B) <= size X)%nat) by (apply subseteq_size; set_solver).
    rewrite size_union in Hs by done. unfold majority in *.
    pose proof (Z.div_mod (Z.of_nat (size X)) 2). pose proof (Z.mod_pos_bound (Z.of_nat (size X)) 2). lia.
  - apply set_choose_L in E as [x Hx]. set_solver.
Qed.

Lemma another_member (A : gset Z) i : (1 < size A)%nat -> exists j, j ∈ A /\ j <> i.
Proof.
  intros Hs. destruct (decide (A ∖ {[i]} = ∅)) as [E|E].
  - assert (Hsub : A ⊆ {[i]}).
    { intros x Hx. destruct (decide (x = i)) as [->|]; set_solver. }
    apply subseteq_size in Hsub. rewrite size_singleton in Hsub. lia.
  - apply set_choose_L in E as [j Hj]. exists j. set_solver.
Qed.

Lemma majority_two n : (1 < n)%nat -> 1 < majority n.
Proof. intros Hn. unfold majority. assert (1 <= Z.of_nat n / 2) by (apply Z.div_le_lower_bound; lia). lia. Qed.
