(* ===== verification/RaftRefine.v ===== *)
(** * The code refines the abstract node

    [abs] reads the abstract node off a [raft] struct; [Step_refines] shows
    that handling a message is a sequence of abstract steps and keeps the
    representation invariant [raft_inv]. *)

From S2P Require Import Prelude RaftPB Storage Unstable RaftLog Progress Raft RaftSpec Quorum.

Definition snap_ok (s : Snapshot) : Prop :=
  0 <= smIndex (sMetadata s) < MaxUint64 /\ (0 < smIndex (sMetadata s) -> 0 < smTerm (sMetadata s)).

(** What holds of every message a node sends; local messages are free. *)
Definition msg_ok (m : Message) : Prop :=
  is_u64 (mTerm m) /\
  match mType m with
  | MsgApp =>
      0 < mTerm m /\ 0 <= mIndex m /\ contiguous (mIndex m + 1) (mEntries m) /\
      Forall (fun e => 0 < eTerm e) (mEntries m) /\ mIndex m + zlen (mEntries m) < MaxUint64 /\
      (mEntries m = [] \/ mIndex m = 0 \/ mLogTerm m <> 0)
  | MsgSnap => 0 < mTerm m /\ 0 < smIndex (sMetadata (mSnapshot m)) /\ snap_ok (mSnapshot m)
  | MsgAppResp => 0 < mTerm m /\ is_u64 (mIndex m) /\ is_u64 (mRejectHint m)
  | MsgVote | MsgVoteResp | MsgHeartbeat | MsgHeartbeatResp => 0 < mTerm m
  | _ => True
  end.

(** Every entry has a term, and so has a snapshot that is not empty. *)
Definition terms_ok (a : alog) : Prop :=
  (0 < a_off a -> 0 < a_offterm a) /\ Forall (fun e => 0 < eTerm e) (a_ents a).

Definition step_of (s : StateType) : stepFunc :=
  match s with
  | StateFollower => f_stepFollower
  | StateCandidate => f_stepCandidate
  | StateLeader => f_stepLeader
  end.

Definition tick_of (s : StateType) : tickFunc :=
  match s with StateLeader => f_tickHeartbeat | _ => f_tickElection end.

Definition pr_u64 (pr : Progress) : Prop := is_u64 (pr_Match pr) /\ is_u64 (pr_Next pr).

(** Split a successful computation into its parts. *)
Ltac inv_ok :=
  repeat match goal with
  | H : gobind _ _ = Ok _ |- _ =>
      let a := fresh "a" in let Ha := fresh "Ha" in apply bind_Ok_inv in H as (a & Ha & H)
  | H : Panic _ = Ok _ |- _ => discriminate H
  | H : Ok _ = Ok _ |- _ => injection H; clear H; intros; subst
  | H : (let '(_, _) := ?p in _) = Ok _ |- _ => destruct p eqn:?
  end.

Lemma alter_Some (f : Z -> Z) i (ms : gmap Z Z) x :
  ms !! i = Some x -> alter f i ms = <[i := f x]> ms.
Proof.
  intros Hi. apply map_eq. intros j. destruct (decide (i = j)) as [<-|Hne].
  - by rewrite lookup_alter_eq, lookup_insert_eq, Hi.
  - by rewrite lookup_alter_ne, lookup_insert_ne.
Qed.

Lemma astep_eq m (n n1 n2 : anode) : astep m n n1 -> n1 = n2 -> astep m n n2.
Proof. by intros ? <-. Qed.

Section refine.
  Context {St : Type} `{StorageSpec St}.
  Implicit Types (r : raft St) (m : Message) (n : anode).

Definition abs r : anode :=
  mkAnode (r_id r) (r_Term r) (r_Vote r) (r_state r) (r_votes r) (log_abs (r_raftLog r))
    (l_committed (r_raftLog r)) (pr_Match <$> r_prs r) (r_msgs r).

Record raft_inv r : Prop := {
  ri_log : log_ok (r_raftLog r);
  ri_terms : terms_ok (log_abs (r_raftLog r));
  ri_snap : forall s e, RaftLog.snapshot (r_raftLog r) = Ok (s, e) -> snap_ok s;
  ri_term : is_u64 (r_Term r);
  ri_prs : map_Forall (fun _ pr => pr_u64 pr) (r_prs r);
  ri_step : r_step r = step_of (r_state r);
  ri_tick : r_tick r = tick_of (r_state r);
  ri_role : r_state r <> StateFollower -> 0 < r_Term r /\ r_Vote r = r_id r;
  ri_out : Forall msg_ok (r_msgs r)
}.

(** Handling [m] takes [r] to [r']. *)
Definition sim m r r' : Prop := raft_inv r -> raft_inv r' /\ asteps m (abs r) (abs r').

Lemma sim_refl m r : sim m r r.
Proof. intros Hr. split; [done|apply rtc_refl]. Qed.

Lemma sim_trans m r1 r2 r3 : sim m r1 r2 -> (raft_inv r2 -> sim m r2 r3) -> sim m r1 r3.
Proof.
  intros H1 H2 Hr. destruct (H1 Hr) as [Hr2 S1]. destruct (H2 Hr2 Hr2) as [Hr3 S2].
  split; [done|by etrans].
Qed.

(** One abstract step. *)
Lemma sim_once m r r' : (raft_inv r -> raft_inv r' /\ astep m (abs r) (abs r')) -> sim m r r'.
Proof. intros Hs Hr. destruct (Hs Hr). split; [done|by apply rtc_once]. Qed.

(** No abstract step. *)
Lemma sim_same m r r' : (raft_inv r -> raft_inv r') -> abs r = abs r' -> sim m r r'.
Proof. intros Hi Ha Hr. split; [by apply Hi|]. rewrite Ha. apply rtc_refl. Qed.

Lemma sim_foldM {A} (Q : raft St -> Prop) m (f : raft St -> A -> outcome (raft St)) l r r' :
  (forall r a r', a ∈ l -> Q r -> f r a = Ok r' -> Q r' /\ sim m r r') ->
  foldM f l r = Ok r' -> Q r -> Q r' /\ sim m r r'.
Proof.
  revert r. induction l as [|a l IH]; cbn; intros r Hf Ho Hq.
  - injection Ho as <-. split; [done|apply sim_refl].
  - inv_ok. destruct (Hf r a a0) as [Hq1 Hs1]; [left|done|done|].
    destruct (IH a0) as [Hq2 Hs2]; [intros; eapply Hf; eauto; by right|done|done|].
    split; [done|by eapply sim_trans].
Qed.

(** ** Sending *)

Lemma abs_send r m : mType m <> MsgProp ->
  abs (send r m) = emit (m <| mFrom := r_id r |> <| mTerm := r_Term r |>) (abs r).
Proof. intros Ht. unfold send. cbn. by rewrite bool_decide_eq_false_2. Qed.

Lemma abs_send_prop r m : mType m = MsgProp ->
  abs (send r m) = emit (m <| mFrom := r_id r |>) (abs r).
Proof. intros Ht. unfold send. cbn. by rewrite bool_decide_eq_true_2. Qed.

Lemma inv_send r m : raft_inv r ->
  (mType m <> MsgProp -> msg_ok (m <| mFrom := r_id r |> <| mTerm := r_Term r |>)) ->
  (mType m = MsgProp -> is_u64 (mTerm m)) -> raft_inv (send r m).
Proof.
  intros [] Hm Hp. constructor; try done. cbn. apply Forall_app. split; [done|].
  apply Forall_singleton. destruct (decide (mType m = MsgProp)) as [E|E].
  - rewrite bool_decide_eq_true_2 by done. split; cbn; [auto|by rewrite E].
  - rewrite bool_decide_eq_false_2 by done. by apply Hm.
Qed.

(** Changing what is sent to one peer, but not what it has acknowledged. *)
Lemma abs_put_same r to pr pr0 :
  r_prs r !! to = Some pr0 -> pr_Match pr = pr_Match pr0 -> abs (put_progress r to pr) = abs r.
Proof.
  intros Hl Hm. unfold abs, put_progress; cbn. f_equal. rewrite fmap_insert, Hm.
  apply insert_id. by rewrite lookup_fmap, Hl.
Qed.

Lemma inv_put r to pr : raft_inv r -> pr_u64 pr -> raft_inv (put_progress r to pr).
Proof. intros [] Hp. constructor; try done. cbn. by apply map_Forall_insert_2. Qed.

Lemma progress_Ok r to pr : progress r to = Ok pr <-> r_prs r !! to = Some pr.
Proof. unfold progress. destruct (r_prs r !! to); naive_solver. Qed.

(** ** What a leader sends *)

(** [entries]: nothing beyond the end, an error below the start. *)
Lemma entries_cases (l : raftLog St) i max ents err :
  log_inv l -> 0 <= i -> entries l i max = Ok (ents, err) ->
  (err = None /\ a_last (log_abs l) < i /\ ents = []) \/
  (err = Some ErrCompacted /\ i <= a_off (log_abs l)) \/
  (err = None /\ a_off (log_abs l) < i <= a_last (log_abs l) /\
     ents `prefix_of` a_slice (log_abs l) i (a_last (log_abs l) + 1)).
Proof.
  intros Hinv Hi. pose proof (log_abs_wf l Hinv) as (? & ? & _). unfold entries.
  rewrite lastIndex_eq by done. gosimpl. zif; [intros; inv_ok; naive_solver|].
  assert (0 <= a_last (log_abs l)) by (unfold a_last in *; lia). u64_simp.
  destruct (Z.le_gt_cases i (a_off (log_abs l))).
  - unfold slice. rewrite mustCheckOutOfBounds_eq by (try done; lia). gosimpl. zif; [|lia].
    intros; inv_ok. by right; left.
  - destruct (slice_in_range l i (a_last (log_abs l) + 1) max) as (es & -> & ? & _ & _); [done|lia..|].
    intros; inv_ok. right; right. split_and!; [done|lia|lia|done].
Qed.

Lemma a_slice_entry (a : alog) lo k e :
  a_off a < lo -> a_slice a lo (a_last a + 1) !! k = Some e ->
  a_entry a (lo + Z.of_nat k) = Some e.
Proof.
  intros Hlo Hk. destruct (Z.le_gt_cases lo (a_last a + 1)).
  - rewrite a_slice_lookup in Hk by lia. by destruct (_ <? _).
  - apply lookup_lt_Some in Hk. unfold a_slice in Hk. rewrite length_take in Hk. lia.
Qed.

Lemma terms_ok_term (a : alog) i t : terms_ok a -> a_term a i = Some t -> 0 <= i -> i = 0 \/ 0 < t.
Proof.
  intros [Ho Hf] Ht Hi. unfold a_term in Ht. zcase in Ht.
  - injection Ht as <-. lia.
  - apply fmap_Some in Ht as (e & He & ->). right. unfold a_entry in He. zcase in He; [done|].
    by eapply Forall_lookup_1 in Hf.
Qed.

(** The entries [sendAppend] puts in a message. *)
Lemma app_message r (pr : Progress) ents max t :
  raft_inv r -> pr_u64 pr ->
  RaftLog.term (r_raftLog r) (pr_Next pr ⊟ 1) = Ok (t, None) ->
  entries (r_raftLog r) (pr_Next pr) max = Ok (ents, None) ->
  let i := pr_Next pr ⊟ 1 in
  t = default 0 (a_term (log_abs (r_raftLog r)) i) /\ 0 <= i /\
  (ents <> [] -> a_term (log_abs (r_raftLog r)) i = Some t) /\
  (forall k e, ents !! k = Some e -> a_entry (log_abs (r_raftLog r)) (i + 1 + Z.of_nat k) = Some e) /\
  i + zlen ents < MaxUint64.
Proof.
  cbv zeta. intros Hr [_ Hn] Ht He. destruct (ri_log r Hr) as [Hinv _]. pose proof (log_abs_wf _ Hinv) as (Ho & Hl & _).
  pose proof (u64_range (pr_Next pr - 1)). rewrite term_eq in Ht by (try done; lia). injection Ht as <-.
  destruct Hn. apply entries_cases in He as [(_ & Hlt & ->)|[[? _]|(_ & Hin & Hp)]]; [|done| |done|lia].
  - assert (0 <= a_last (log_abs (r_raftLog r))) by (unfold a_last; lia).
    u64_simp. split_and!; try done; cbn; lia.
  - u64_simp. destruct (a_term_in_range (log_abs (r_raftLog r)) (pr_Next pr - 1)) as [t Ht]; [lia|].
    rewrite Ht. cbn [default]. assert (Hk : forall k e, ents !! k = Some e ->
      a_entry (log_abs (r_raftLog r)) (pr_Next pr - 1 + 1 + Z.of_nat k) = Some e).
    { intros k e Hk. replace (pr_Next pr - 1 + 1) with (pr_Next pr) by lia.
      apply a_slice_entry; [lia|]. by eapply prefix_lookup_Some. }
    apply prefix_length in Hp.
    pose proof (a_slice_length (log_abs (r_raftLog r)) (pr_Next pr) (a_last (log_abs (r_raftLog r)) + 1)) as Hlen.
    specialize (Hlen ltac:(lia) ltac:(lia) (Z.le_refl _)). split_and!; try done; lia.
Qed.

Lemma terms_ok_entry (a : alog) i e : terms_ok a -> a_entry a i = Some e -> 0 < eTerm e.
Proof.
  intros [_ Hf] He. unfold a_entry in He. zcase in He; [done|]. by eapply Forall_lookup_1 in Hf.
Qed.

(** A message that carries a stretch of the log of a leader. *)
Definition app_ready (a : alog) (i t : Z) (ents : list Entry) : Prop :=
  t = default 0 (a_term a i) /\ 0 <= i /\ (ents <> [] -> a_term a i = Some t) /\
  (forall k e, ents !! k = Some e -> a_entry a (i + 1 + Z.of_nat k) = Some e) /\
  i + zlen ents < MaxUint64.

Lemma app_ready_ok (a : alog) m :
  alog_wf a -> terms_ok a -> app_ready a (mIndex m) (mLogTerm m) (mEntries m) ->
  mType m = MsgApp -> is_u64 (mTerm m) -> 0 < mTerm m -> msg_ok m.
Proof.
  intros Hwf Ht (Hd & Hi & Hs & Hk & Hmax) Ety Hu Hpos. split; [done|]. rewrite Ety.
  split_and!; try done.
  - intros k e He. apply (a_entry_index a); auto.
  - apply Forall_lookup. intros k e He. eapply terms_ok_entry; eauto.
  - destruct (mEntries m); [by left|right]. specialize (Hs ltac:(done)).
    destruct (terms_ok_term a _ _ Ht Hs Hi); [by left|right; lia].
Qed.

(** A leader's message goes out. *)
Lemma sim_send m r out :
  let out' := out <| mFrom := r_id r |> <| mTerm := r_Term r |> in
  mType out <> MsgProp -> (raft_inv r -> msg_ok out' /\ astep m (abs r) (emit out' (abs r))) ->
  sim m r (send r out).
Proof.
  intros out' Ht Ho. apply sim_once. intros Hr. destruct (Ho Hr) as [Hm Hl]. split.
  - by apply inv_send.
  - by rewrite abs_send.
Qed.

(** The leader changes what it does about a peer, not what the peer acknowledged. *)
Lemma sim_put m r to pr pr' :
  r_prs r !! to = Some pr -> pr_Match pr' = pr_Match pr -> (pr_u64 pr -> is_u64 (pr_Next pr')) ->
  sim m r (put_progress r to pr').
Proof.
  intros Hpr Hm Hu. apply sim_same.
  - intros Hr. pose proof (ri_prs r Hr to pr Hpr) as [? ?]. apply inv_put; [done|].
    split; [by rewrite Hm|by apply Hu].
  - by erewrite abs_put_same.
Qed.

Lemma sim_put_u64 m r to pr pr' :
  r_prs r !! to = Some pr -> (pr_u64 pr -> pr_Match pr' = pr_Match pr /\ pr_u64 pr') ->
  sim m r (put_progress r to pr').
Proof.
  intros Hpr Hu Hr. pose proof (ri_prs r Hr to pr Hpr) as Hp. destruct (Hu Hp) as [Hm Hp'].
  eapply sim_put; try done. intros _. apply Hp'.
Qed.

Lemma sendAppend_entries_sim m r to pr t ents r' :
  r_state r = StateLeader -> r_prs r !! to = Some pr ->
  (raft_inv r -> app_ready (log_abs (r_raftLog r)) (pr_Next pr ⊟ 1) t ents) ->
  sendAppend_entries r to pr t ents = Ok r' ->
  r_state r' = StateLeader /\ sim m r r'.
Proof.
  intros Hs Hpr Happ Ho. unfold sendAppend_entries in Ho. apply bind_Ok_inv in Ho as (r1 & H1 & Ho).
  injection Ho as <-.
  assert (Hput : r1 = r \/ exists pr', r1 = put_progress r to pr' /\ pr_Match pr' = pr_Match pr /\
                   (pr_u64 pr -> is_u64 (pr_Next pr'))).
  { zif in H1; [inv_ok; by left|]. right. destruct (pr_State pr); inv_ok; eexists; split; eauto.
    - split; [done|]. by intros [].
    - split; [done|]. intros _. apply u64_range. }
  assert (H2 : r_state r1 = StateLeader /\ abs r1 = abs r /\ r_id r1 = r_id r /\ r_Term r1 = r_Term r /\
               sim m r r1).
  { destruct Hput as [->|(pr' & -> & Hm & Hu)]; [by split_and!; try apply sim_refl|].
    split_and!; try done; [by eapply abs_put_same|by eapply sim_put]. }
  destruct H2 as (Hs1 & Ha & Hid & Htm & Hsim). split; [done|]. intros Hr. pose proof (Happ Hr) as Hap. revert Hr.
  eapply sim_trans; [done|]. intros Hr1. apply sim_send; [done|]. intros _. cbn.
  pose proof (f_equal n_log Ha) as Hl. cbn in Hl. rewrite <- Hl in Hap.
  destruct (ri_role r1 Hr1) as [Hpos _]; [by rewrite Hs1|]. split.
  - eapply (app_ready_ok (log_abs (r_raftLog r1))); try done; [apply log_abs_wf, ri_log, Hr1|apply ri_terms, Hr1|].
    apply ri_term, Hr1.
  - apply as_send; [done|]. destruct Hap as (? & ? & ? & ? & ?). split_and!; try done.
    cbn. pose proof (f_equal n_commit Ha) as Hc. by split_and!.
Qed.

Lemma sendAppend_snapshot_sim m r to pr r' :
  r_state r = StateLeader -> r_prs r !! to = Some pr -> sendAppend_snapshot r to pr = Ok r' ->
  r_state r' = StateLeader /\ sim m r r'.
Proof.
  intros Hs Hpr Ho. unfold sendAppend_snapshot in Ho.
  zif in Ho; [|inv_ok; split; [done|apply sim_refl]].
  apply bind_Ok_inv in Ho as ([snap err] & Hsn & Ho). cbn in Ho.
  destruct err as [[]|]; inv_ok; try (split; [done|apply sim_refl]).
  zif in Ho; [done|]. inv_ok. split; [done|].
  eapply sim_trans; [eapply (sim_put m r to pr (becomeSnapshot pr _)); [done|done|by intros []]|].
  intros Hr1. apply sim_send; [done|].
  intros _. pose proof (ri_snap _ Hr1 _ _ Hsn) as Hok. destruct Hok as [Hi Ht].
  destruct (ri_role _ Hr1) as [Hpos _]; [cbn; by rewrite Hs|]. split.
  - split; [apply Hr1|]. cbn. unfold IsEmptySnap in *. split_and!; try done; lia.
  - apply as_send; [done|]. cbn. unfold IsEmptySnap in *. split_and!; try done; cbn; lia.
Qed.

Lemma sendAppend_sim m r to r' :
  r_state r = StateLeader -> sendAppend r to = Ok r' -> r_state r' = StateLeader /\ sim m r r'.
Proof.
  intros Hs Ho. unfold sendAppend in Ho. apply bind_Ok_inv in Ho as (pr & Hpr & Ho).
  apply progress_Ok in Hpr. zif in Ho; [inv_ok; split; [done|apply sim_refl]|].
  apply bind_Ok_inv in Ho as ([t errt] & Ht & Ho). apply bind_Ok_inv in Ho as ([ents erre] & He & Ho).
  cbn in Ho. destruct errt, erre; try by eapply sendAppend_snapshot_sim.
  eapply sendAppend_entries_sim; try done. intros Hr. pose proof (ri_prs r Hr _ _ Hpr).
  by eapply app_message.
Qed.

Lemma sendHeartbeat_sim m r to r' :
  r_state r = StateLeader -> sendHeartbeat r to = Ok r' -> r_state r' = StateLeader /\ sim m r r'.
Proof.
  intros Hs Ho. unfold sendHeartbeat in Ho. apply bind_Ok_inv in Ho as (pr & Hpr & Ho).
  apply progress_Ok in Hpr. inv_ok. split; [done|]. apply sim_send; [done|]. intros Hr.
  destruct (ri_role _ Hr) as [Hpos _]; [by rewrite Hs|]. split.
  - split; [apply Hr|done].
  - apply as_send; [done|]. split_and!; try done. cbn. exists (pr_Match pr). by rewrite lookup_fmap, Hpr.
Qed.

(** ** Committing *)

Lemma inv_log r l :
  raft_inv r -> log_ok l -> terms_ok (log_abs l) ->
  l_storage l = l_storage (r_raftLog r) ->
  u_snapshot (l_unstable l) = u_snapshot (l_unstable (r_raftLog r)) ->
  raft_inv (r <| r_raftLog := l |>).
Proof.
  intros [] Hl Ht Hs Hu. constructor; try done. cbn. unfold snapshot in *. by rewrite Hs, Hu.
Qed.

(** Moving the commit index inside the log. *)
Lemma inv_commit r c :
  raft_inv r -> l_committed (r_raftLog r) <= c <= a_last (log_abs (r_raftLog r)) ->
  raft_inv (r <| r_raftLog := (r_raftLog r) <| l_committed := c |> |>) /\
  abs (r <| r_raftLog := (r_raftLog r) <| l_committed := c |> |>) = (abs r) <| n_commit := c |>.
Proof.
  intros Hr Hc. destruct (ri_log r Hr) as [Hinv [Hp1 Hp2]].
  destruct (log_inv_committed _ c Hinv) as [Hinv' Habs]. split.
  - apply inv_log; try done.
    + split; [done|]. constructor; rewrite ?Habs; cbn; lia.
    + rewrite Habs. apply ri_terms, Hr.
  - unfold abs. cbn. by rewrite Habs.
Qed.

Lemma maybeCommit_sim m r r' b :
  r_state r = StateLeader -> maybeCommit r = Ok (r', b) ->
  r_state r' = StateLeader /\ r_id r' = r_id r /\ r_prs r' = r_prs r /\ sim m r r'.
Proof.
  intros Hs Ho. unfold maybeCommit in Ho. apply bind_Ok_inv in Ho as (mci & Hq & Ho).
  apply bind_Ok_inv in Ho as ([l b'] & Hl & Ho). injection Ho as <- <-. split_and!; try done.
  intros Hr. pose proof (ri_log r Hr) as [Hinv Hp].
  apply quorum_match_Ok in Hq as ((id & pr & Hpr & <-) & Hq & _).
  pose proof (ri_prs r Hr _ _ Hpr) as [[Hm _] _].
  destruct (ri_role r Hr) as [Hpos _]; [by rewrite Hs|].
  rewrite maybeCommit_eq in Hl by (try done; lia). zif in Hl; cycle 1.
  { injection Hl as <- <-. split; [by destruct Hr|apply rtc_refl]. }
  destruct (bool_decide_reflect (a_term (log_abs (r_raftLog r)) (pr_Match pr) = Some (r_Term r))) as [Ht|];
    injection Hl as <- <-; [|split; [by destruct Hr|apply rtc_refl]].
  pose proof (mk_is_Some _ _ Ht) as Hin. apply a_term_is_Some in Hin.
  destruct (inv_commit r (pr_Match pr) Hr) as [Hr' Ha]; [lia|]. split; [done|]. rewrite Ha.
  apply rtc_once, as_commit; try done. by rewrite quorum_majority in Hq.
Qed.

(** ** Changing role *)

Lemma fresh_match_fmap id last size next prs :
  pr_Match <$> map_imap (fun i _ => Some (Progress_new (if i =? id then last else 0) next size)) prs
  = fresh_match id last (pr_Match <$> prs).
Proof.
  apply map_eq. intros i. unfold fresh_match. rewrite lookup_fmap, !map_lookup_imap, lookup_fmap.
  by destruct (prs !! i).
Qed.

Lemma reset_eq r t : log_inv (r_raftLog r) ->
  let last := a_last (log_abs (r_raftLog r)) in
  reset r t = Ok (r <| r_Term := t |> <| r_Vote := if r_Term r =? t then r_Vote r else None_ |>
    <| r_lead := None_ |> <| r_electionElapsed := 0 |> <| r_heartbeatElapsed := 0 |> <| r_votes := ∅ |>
    <| r_prs := map_imap (fun id _ =>
        Some (Progress_new (if id =? r_id r then last else 0) (last ⊞ 1) (r_maxInflight r))) (r_prs r) |>
    <| r_pendingConf := false |>).
Proof.
  intros Hinv last. subst last. unfold reset. destruct r; cbn in *.
  destruct (Z.eqb_spec r_Term t) as [->|Hne]; cbn [negb]; (case_bool_decide as He; cbn in He |- *).
  - by rewrite He.
  - rewrite lastIndex_eq by done. done.
  - by rewrite He.
  - rewrite lastIndex_eq by done. done.
Qed.

Lemma fresh_prs_u64 (prs : gmap Z Progress) id last next size :
  is_u64 last -> is_u64 next ->
  map_Forall (fun _ pr => pr_u64 pr)
    (map_imap (fun i _ => Some (Progress_new (if i =? id then last else 0) next size)) prs).
Proof.
  intros Hl Hn i pr Hi. rewrite map_lookup_imap in Hi. destruct (prs !! i); [|done].
  injection Hi as <-. split; cbn; [by zcase|done].
Qed.

Lemma last_u64 r : raft_inv r -> is_u64 (a_last (log_abs (r_raftLog r))).
Proof.
  intros Hr. destruct (ri_log r Hr) as [Hinv _]. destruct (log_abs_wf _ Hinv) as (? & ? & _).
  unfold a_last in *. split; lia.
Qed.

Lemma becomeFollower_abs r t lead r' :
  raft_inv r -> is_u64 t -> becomeFollower r t lead = Ok r' ->
  raft_inv r' /\ r_state r' = StateFollower /\ r_Term r' = t /\ r_id r' = r_id r /\
  abs r' = (follow (abs r)) <| n_term := t |>
             <| n_vote := if r_Term r =? t then r_Vote r else 0 |>.
Proof.
  intros Hr Ht Ho. pose proof (last_u64 r Hr). destruct (ri_log r Hr) as [Hinv _].
  unfold becomeFollower in Ho. rewrite reset_eq in Ho by done. gosimpl in Ho. injection Ho as <-.
  split_and!; try done.
  - destruct Hr. constructor; try done. cbn. apply fresh_prs_u64; [done|apply u64_range].
  - unfold abs, follow. cbn. by rewrite fresh_match_fmap.
Qed.

(** Stepping down inside a term. *)
Lemma becomeFollower_same m r lead r' :
  becomeFollower r (r_Term r) lead = Ok r' ->
  (raft_inv r -> r_state r' = StateFollower /\ r_Term r' = r_Term r /\ r_id r' = r_id r) /\ sim m r r'.
Proof.
  intros Ho. split.
  - intros Hr. apply becomeFollower_abs in Ho as (_ & ? & ? & ? & _); [done|done|apply Hr].
  - apply sim_once. intros Hr. apply becomeFollower_abs in Ho as (? & _ & _ & _ & ->); [|done|apply Hr].
    split; [done|]. rewrite Z.eqb_refl. apply as_stepdown.
Qed.

(** Following a message of a higher term. *)
Lemma becomeFollower_newer m r lead r' :
  is_u64 (mTerm m) -> r_Term r < mTerm m -> becomeFollower r (mTerm m) lead = Ok r' ->
  (raft_inv r -> r_state r' = StateFollower /\ r_Term r' = mTerm m) /\ sim m r r'.
Proof.
  intros Hu Hlt Ho. split.
  - intros Hr. apply becomeFollower_abs in Ho as (_ & ? & ? & _); done.
  - apply sim_once. intros Hr. apply becomeFollower_abs in Ho as (? & _ & _ & _ & ->); [|done..].
    split; [done|]. zcase; [lia|]. by apply as_newterm.
Qed.

(** A campaign starts: the node votes for itself. *)
Lemma campaign_abs r r' :
  raft_inv r -> r_Term r < MaxUint64 -> becomeCandidate r = Ok r' ->
  let r1 := fst (poll r' (r_id r') true) in
  r_state r <> StateLeader /\ raft_inv r1 /\ r_state r1 = StateCandidate /\ r_id r1 = r_id r /\
  abs r1 = (follow (abs r)) <| n_term := r_Term r + 1 |> <| n_vote := r_id r |>
             <| n_role := StateCandidate |> <| n_votes := {[r_id r := true]} |>.
Proof.
  intros Hr Hmax Ho. pose proof (last_u64 r Hr). destruct (ri_log r Hr) as [Hinv _].
  destruct (ri_term r Hr) as [Ht _].
  unfold becomeCandidate in Ho. zif in Ho; [done|]. rewrite reset_eq in Ho by done. gosimpl in Ho.
  injection Ho as <-. unfold poll. cbn. rewrite lookup_empty. u64_simp. split_and!; try done.
  - destruct Hr. constructor; try done.
    + cbn. by split; lia.
    + cbn. apply fresh_prs_u64; [done|apply u64_range].
    + cbn. intros _. split; [lia|done].
  - unfold abs, follow. cbn. by rewrite fresh_match_fmap.
Qed.

(** ** Appending to the leader's log *)

Lemma stamp_spec t li es : 0 <= li -> li + zlen es < MaxUint64 ->
  contiguous (li + 1) (stamp t li es) /\ Forall (fun e => eTerm e = t) (stamp t li es) /\
  length (stamp t li es) = length es.
Proof.
  revert li. induction es as [|e es IH]; cbn [stamp length]; intros li Hli Hmax.
  - split_and!; [apply contiguous_nil|constructor|done].
  - u64_simp. destruct (IH (li + 1)) as (Hc & Hf & Hl); [lia..|]. split_and!.
    + intros [|k] e' He; cbn in He.
      * injection He as <-. cbn. lia.
      * apply Hc in He. lia.
    + constructor; [done|exact Hf].
    + cbn. by rewrite Hl.
Qed.

Lemma maybeUpdate_facts pr (n : Z) : is_u64 n -> pr_u64 pr ->
  pr_Match (fst (maybeUpdate pr n)) = Z.max (pr_Match pr) n /\ pr_u64 (fst (maybeUpdate pr n)).
Proof.
  intros Hn [Hm Hx]. unfold maybeUpdate.
  zif; cbn; zif; cbn; (split; [lia|]); split; cbn; try done; apply u64_range.
Qed.

Lemma terms_ok_append (a : alog) es : terms_ok a -> Forall (fun e => 0 < eTerm e) es -> terms_ok (a_append a es).
Proof.
  intros [Ho Hf] He. destruct es as [|e es]; [done|]. split; [done|]. cbn.
  apply Forall_app. split; [by apply Forall_take|done].
Qed.

(** No append touches the snapshot that waits to be saved. *)
Lemma truncateAndAppend_snapshot u es u' : truncateAndAppend u es = Ok u' -> u_snapshot u' = u_snapshot u.
Proof.
  unfold truncateAndAppend. intros Ho. apply bind_Ok_inv in Ho as (e & _ & Ho).
  zif in Ho; [by injection Ho as <-|]. zif in Ho; [by injection Ho as <-|]. by inv_ok.
Qed.

Lemma append_snapshot (l l' : raftLog St) es i :
  append l es = Ok (l', i) -> u_snapshot (l_unstable l') = u_snapshot (l_unstable l).
Proof.
  unfold append. intros Ho. zif in Ho; [by inv_ok|]. apply bind_Ok_inv in Ho as (e & _ & Ho).
  zif in Ho; [done|]. inv_ok. by eapply truncateAndAppend_snapshot.
Qed.

Lemma commitTo_snapshot (l l' : raftLog St) c :
  commitTo l c = Ok l' -> u_snapshot (l_unstable l') = u_snapshot (l_unstable l).
Proof.
  unfold commitTo. intros Ho. zif in Ho; [|by inv_ok]. apply bind_Ok_inv in Ho as (last & _ & Ho).
  zif in Ho; [done|]. by injection Ho as <-.
Qed.

Lemma maybeAppend_snapshot (l l' : raftLog St) i t c es res :
  maybeAppend l i t c es = Ok (l', res) -> u_snapshot (l_unstable l') = u_snapshot (l_unstable l).
Proof.
  unfold maybeAppend. intros Ho. apply bind_Ok_inv in Ho as (b & _ & Ho). destruct b; [|by inv_ok].
  apply bind_Ok_inv in Ho as (ci & _ & Ho). apply bind_Ok_inv in Ho as (l1 & H1 & Ho).
  apply bind_Ok_inv in Ho as (l2 & H2 & Ho). injection Ho as <- <-.
  rewrite (commitTo_snapshot _ _ _ H2). zif in H1; [by injection H1 as <-|]. zif in H1; [done|].
  apply bind_Ok_inv in H1 as (tl & _ & H1). apply bind_Ok_inv in H1 as ([l3 i3] & Hap & H1).
  injection H1 as <-. by eapply append_snapshot.
Qed.

Lemma appendEntry_log r es l i :
  raft_inv r -> r_state r = StateLeader -> es <> [] ->
  a_last (log_abs (r_raftLog r)) + zlen es < MaxUint64 ->
  append (r_raftLog r) (stamp (r_Term r) (a_last (log_abs (r_raftLog r))) es) = Ok (l, i) ->
  let es' := stamp (r_Term r) (a_last (log_abs (r_raftLog r))) es in
  raft_inv (r <| r_raftLog := l |>) /\ log_abs l = a_append (log_abs (r_raftLog r)) es' /\
  l_committed l = l_committed (r_raftLog r) /\
  a_last (log_abs l) = a_last (log_abs (r_raftLog r)) + zlen es.
Proof.
  intros Hr Hs Hne Hmax Ho. pose proof (ri_log r Hr) as [Hinv [Hp1 Hp2]].
  destruct (last_u64 r Hr) as [Hlo _]. destruct (ri_role r Hr) as [Hpos _]; [by rewrite Hs|].
  destruct (stamp_spec (r_Term r) _ es Hlo Hmax) as (Hc & Hf & Hl).
  set (es' := stamp _ _ _) in *. assert (Hne' : es' <> []) by (destruct es, es'; done).
  pose proof (log_abs_wf _ Hinv) as Hwf. destruct Hwf as (Ho1 & Hm & _).
  pose proof (append_snapshot _ _ _ _ Ho) as Hsn.
  edestruct (append_eq (r_raftLog r) es') as (l' & Happ & Hinv' & Habs & Hst & Hcm & Hap);
    [done|done|done|unfold a_last in *; lia|lia|lia|].
  rewrite Happ in Ho. injection Ho as <- <-.
  assert (Hlast : a_last (log_abs l') = a_last (log_abs (r_raftLog r)) + zlen es).
  { rewrite Habs. erewrite a_last_append; [rewrite Hl|..]; try done; unfold a_last in *; lia. }
  split_and!; try done. apply inv_log; try done.
  - split; [done|]. constructor; rewrite ?Hcm, ?Hap, Hlast || rewrite ?Hcm, ?Hap; try lia.
    rewrite Habs. destruct es'; [done|]. cbn. lia.
  - rewrite Habs. apply terms_ok_append; [apply Hr|]. eapply Forall_impl; [done|cbn; lia].
Qed.

Lemma appendEntry_sim m r es r' :
  r_state r = StateLeader -> es <> [] ->
  (raft_inv r -> a_last (log_abs (r_raftLog r)) + zlen es < MaxUint64) ->
  appendEntry r es = Ok r' -> r_state r' = StateLeader /\ r_id r' = r_id r /\
    dom (r_prs r') = dom (r_prs r) /\ sim m r r'.
Proof.
  intros Hs Hne Hmax Ho. unfold appendEntry in Ho.
  apply bind_Ok_inv in Ho as (li & Hli & Ho). apply bind_Ok_inv in Ho as ([l i] & Hl & Ho).
  apply bind_Ok_inv in Ho as (pr & Hpr & Ho). apply progress_Ok in Hpr. cbn in Hpr.
  apply bind_Ok_inv in Ho as (last & Hlast & Ho). apply bind_Ok_inv in Ho as ([r2 b] & Hmc & Ho).
  injection Ho as <-. cbn in Hmc. pose proof Hmc as Hdom.
  apply (maybeCommit_sim m) in Hmc as (Hs2 & Hid2 & Hp2 & Hsim2); [|done].
  split_and!; [done|done|rewrite Hp2; cbn; apply elem_of_dom_2 in Hpr; set_solver|].
  eapply sim_trans; [|done]. apply sim_once. intros Hr. pose proof (ri_log r Hr) as [Hinv _].
  rewrite lastIndex_eq in Hli by done. injection Hli as <-.
  destruct (appendEntry_log r es l i Hr Hs Hne (Hmax Hr) Hl) as (Hr1 & Habs & Hcm & Hla).
  cbn in Hlast. pose proof (ri_log _ Hr1) as [Hinv1 _]. cbn in Hinv1.
  rewrite lastIndex_eq in Hlast by done. injection Hlast as <-.
  pose proof (ri_prs r Hr _ _ Hpr) as Hpu. pose proof (last_u64 _ Hr1) as Hlu. cbn in Hlu.
  destruct (maybeUpdate_facts pr _ Hlu Hpu) as [Hm Hu]. split.
  - by apply inv_put.
  - destruct (last_u64 r Hr) as [Hlo _].
    destruct (stamp_spec (r_Term r) _ es Hlo (Hmax Hr)) as (Hc & Hf & Hlen).
    eapply astep_eq; [eapply (as_append _ (abs r) (stamp (r_Term r) _ es)); try done|].
    + by destruct es.
    + cbn. rewrite Hlen. by apply Hmax.
    + cbn. by rewrite lookup_fmap, Hpr.
    + unfold abs, put_progress. cbn. rewrite fmap_insert, Hm, Habs, Hcm, <- Habs, Hla, Hlen. cbv [upd]. cbn. f_equal.
      rewrite Z.max_comm. apply alter_Some. by rewrite lookup_fmap, Hpr.
Qed.

(** ** Elections *)

(** The leader before it appends its first entry. *)
Definition leading r1 (id : Z) : raft St :=
  r1 <| r_tick := f_tickHeartbeat |> <| r_lead := id |> <| r_state := StateLeader |>.

Lemma becomeLeader_inv r r1 :
  raft_inv r -> r_state r = StateCandidate ->
  reset (r <| r_step := f_stepLeader |>) (r_Term r) = Ok r1 -> raft_inv (leading r1 (r_id r)).
Proof.
  intros Hr Hs Ho. destruct (ri_log r Hr) as [Hinv _]. pose proof (last_u64 r Hr).
  rewrite reset_eq in Ho by done. injection Ho as <-.
  destruct Hr as [? ? ? ? ? ? ? Hrole ?]. constructor; try done.
  - cbn. apply fresh_prs_u64; [done|apply u64_range].
  - intros _. cbn. rewrite Z.eqb_refl. apply Hrole. by rewrite Hs.
Qed.

Lemma becomeLeader_win m r r1 :
  raft_inv r -> r_state r = StateCandidate -> granted (r_votes r) = quorum r ->
  reset (r <| r_step := f_stepLeader |>) (r_Term r) = Ok r1 ->
  astep m (abs r) (abs (leading r1 (r_id r))).
Proof.
  intros Hr Hs Hg Ho. destruct (ri_log r Hr) as [Hinv _].
  rewrite reset_eq in Ho by done. injection Ho as <-.
  eapply astep_eq; [apply as_win; [exact Hs|cbn; rewrite <- quorum_majority; exact Hg]|].
  unfold abs, follow. cbn. by rewrite Z.eqb_refl, fresh_match_fmap.
Qed.

Lemma inv_pendingConf r b : raft_inv r -> raft_inv (r <| r_pendingConf := b |>).
Proof. intros []. by constructor. Qed.

Lemma becomeLeader_sim m r r' :
  raft_inv r -> r_state r = StateCandidate -> granted (r_votes r) = quorum r ->
  a_last (log_abs (r_raftLog r)) + 1 < MaxUint64 ->
  becomeLeader r = Ok r' -> r_state r' = StateLeader /\ sim m r r'.
Proof.
  intros Hr Hs Hg Hmax Ho. unfold becomeLeader in Ho. zif in Ho; [done|].
  apply bind_Ok_inv in Ho as (r1 & H1 & Ho). apply bind_Ok_inv in Ho as ([ents err] & He & Ho).
  destruct err; [done|]. apply bind_Ok_inv in Ho as (pending & _ & Ho).
  assert (Hid : r_id r1 = r_id r /\ r_raftLog r1 = r_raftLog r).
  { destruct (ri_log r Hr) as [Hinv _]. rewrite reset_eq in H1 by done. by injection H1 as <-. }
  destruct Hid as [Hid Hlog]. pose proof (becomeLeader_inv r r1 Hr Hs H1) as Hr2.
  pose proof (becomeLeader_win m r r1 Hr Hs Hg H1) as Hstep. rewrite <- Hid in Hr2, Hstep.
  apply (appendEntry_sim m) in Ho as (Hs' & _ & _ & Hsim); [|done|done|].
  - split; [done|]. intros _. destruct (Hsim (inv_pendingConf _ pending Hr2)) as [Hr' Hsteps].
    split; [done|]. by eapply rtc_l.
  - intros _. cbn. rewrite Hlog. cbn. lia.
Qed.
End refine.
