(* ===== verification/RaftStep.v ===== *)
(** * Handling a message refines the abstract node

    The message handlers of [src/raft/raft.go], one by one, and [Step] and
    [tick] that dispatch to them. *)

From S2P Require Import Prelude RaftPB Storage Unstable RaftLog Progress Raft RaftSpec Quorum RaftRefine.

Section handlers.
  Context {St : Type} `{StorageSpec St}.
  Implicit Types (r : raft St) (m : Message) (l : raftLog St).

(** ** Followers *)

(** A successful [maybeAppend], whatever the message. *)
Lemma maybeAppend_cases l m l' res :
  log_ok l -> mType m = MsgApp -> msg_ok m -> l_committed l <= mIndex m ->
  maybeAppend l (mIndex m) (mLogTerm m) (mCommit m) (mEntries m) = Ok (l', res) ->
  (res = None /\ l' = l) \/
  (res = Some (mIndex m + zlen (mEntries m)) /\
   default 0 (a_term (log_abs l) (mIndex m)) = mLogTerm m /\
   Forall (fun e => eIndex e <= l_committed l -> agrees (log_abs l) e = true) (mEntries m) /\
   log_ok l' /\ l_storage l' = l_storage l /\ appended (log_abs l) (mEntries m) (log_abs l') /\
   l_committed l' = Z.max (l_committed l) (Z.min (mCommit m) (mIndex m + zlen (mEntries m)))).
Proof.
  intros Hok Ety [_ Hm] Hi Ho. rewrite Ety in Hm. destruct Hm as (_ & Hi0 & Hc & Ht & Hmax & Hz).
  pose proof Hok as [Hinv [Hp1 Hp2]].
  destruct (Z.eq_dec (default 0 (a_term (log_abs l) (mIndex m))) (mLogTerm m)) as [Em|Em]; cycle 1.
  { rewrite maybeAppend_reject in Ho by (try done; lia). left. by injection Ho as <- <-. }
  right. destruct Hz as [Hz|Hz].
  - rewrite Hz in *. unfold maybeAppend in Ho. rewrite matchTerm_eq in Ho by (try done; lia).
    rewrite Em, Z.eqb_refl in Ho. cbn [findConflict gobind length] in Ho. u64_simp.
    cbn [Z.eqb gobind] in Ho. apply bind_Ok_inv in Ho as (l2 & Hct & Ho). injection Ho as <- <-.
    destruct (Z.le_gt_cases (Z.min (mCommit m) (mIndex m + Z.of_nat 0)) (a_last (log_abs l))) as [Hle|Hgt].
    + rewrite commitTo_eq in Hct by done. injection Hct as <-.
      destruct (log_inv_committed l (Z.max (l_committed l) (Z.min (mCommit m) (mIndex m + Z.of_nat 0))) Hinv)
        as [Hinv2 Habs2].
      split_and!; try done; [|left; by rewrite Habs2].
      split; [done|]. constructor; rewrite ?Habs2; cbn; lia.
    + rewrite commitTo_panic in Hct by (try done; lia). done.
  - assert (Hzero : mIndex m <= a_last (log_abs l) \/ mLogTerm m <> 0)
      by (destruct Hz; [left; unfold a_last in *; lia|by right]).
    destruct (decide (Exists (fun e => eIndex e <= l_committed l /\ agrees (log_abs l) e = false) (mEntries m)))
      as [Hex|Hex].
    { rewrite maybeAppend_conflict in Ho by (try done; lia). done. }
    apply not_Exists_Forall in Hex; [|tc_solve].
    assert (Hf : Forall (fun e => eIndex e <= l_committed l -> agrees (log_abs l) e = true) (mEntries m)).
    { eapply Forall_impl; [done|]. cbn. intros e He Hle. destruct (agrees (log_abs l) e); naive_solver. }
    destruct (maybeAppend_accept l (mIndex m) (mLogTerm m) (mCommit m) (mEntries m))
      as (l2 & Hl2 & Hinv2 & Hst & Hap & Hcm & Happ & Hla); try done; [lia|].
    rewrite Hl2 in Ho. injection Ho as <- <-. split_and!; try done. split; [done|].
    constructor; rewrite ?Hap, Hcm; [|lia]. split; [|lia].
    rewrite (appended_off _ _ _ Happ). lia.
Qed.

Lemma commit_u64 r : raft_inv r -> is_u64 (l_committed (r_raftLog r)).
Proof.
  intros Hr. destruct (ri_log r Hr) as [Hinv [Hp1 Hp2]]. destruct (last_u64 r Hr). split; lia.
Qed.

Lemma terms_ok_appended (a a' : alog) es :
  terms_ok a -> Forall (fun e => 0 < eTerm e) es -> appended a es a' -> terms_ok a'.
Proof.
  intros Ha He [[_ ->]|(pre & e & post & -> & _ & _ & ->)]; [done|].
  apply terms_ok_append; [done|]. by apply Forall_app in He as [_ He].
Qed.

Lemma handleAppendEntries_sim r m r' :
  r_state r = StateFollower -> mType m = MsgApp -> msg_ok m -> mTerm m = r_Term r ->
  handleAppendEntries r m = Ok r' -> sim m r r'.
Proof.
  intros Hs Ety Hm Htm Ho. pose proof Hm as [Hu Hm']. rewrite Ety, Htm in Hm'.
  destruct Hm' as (Hpos & Hi0 & _ & Het & Hmax & _). intros Hr. pose proof (commit_u64 r Hr) as Hcu.
  pose proof (last_u64 r Hr) as Hlu. unfold handleAppendEntries in Ho. zif in Ho.
  - injection Ho as <-. revert Hr. apply sim_send; [done|]. intros Hr. split.
    + split; [apply Hr|]. by split_and!.
    + apply as_stale; [done|done|by left].
  - apply bind_Ok_inv in Ho as ([l res] & Hl & Ho). pose proof (maybeAppend_snapshot _ _ _ _ _ _ _ Hl) as Hsn.
    apply maybeAppend_cases in Hl as [[-> ->]|(-> & Hmt & Hf & Hok & Hst & Happ & Hcm)];
      [| |apply Hr|done|done|lia]; cbn in Ho.
    + inv_ok. rewrite lastIndex_eq in Ha1 by apply Hr. injection Ha1 as <-. destruct r; cbn in *.
      revert Hr. apply sim_send; [done|]. intros Hr. split.
      * split; [apply Hr|]. split_and!; try done; unfold is_u64; cbn; lia.
      * by apply as_reply.
    + injection Ho as <-. assert (Hr1 : raft_inv (r <| r_raftLog := l |>)).
      { apply inv_log; try done. eapply terms_ok_appended; try done. apply Hr. }
      split.
      * apply inv_send; [done| |done]. intros _. split; [apply Hr|]. split_and!; try done; unfold is_u64; cbn; lia.
      * apply rtc_once. rewrite abs_send by done. eapply astep_eq.
        { eapply (as_accept m (abs r) (log_abs l) (l_committed l)); try done. apply Hok. }
        done.
Qed.

Lemma handleHeartbeat_sim r m r' :
  r_state r = StateFollower -> mType m = MsgHeartbeat -> msg_ok m -> mTerm m = r_Term r ->
  handleHeartbeat r m = Ok r' -> sim m r r'.
Proof.
  intros Hs Ety [Hu Hm'] Htm Ho Hr. rewrite Ety, Htm in Hm'. unfold handleHeartbeat in Ho.
  pose proof (ri_log r Hr) as [Hinv [Hp1 Hp2]].
  apply bind_Ok_inv in Ho as (l & Hl & Ho). injection Ho as <-.
  destruct (Z.le_gt_cases (mCommit m) (a_last (log_abs (r_raftLog r)))) as [Hle|Hgt]; cycle 1.
  { rewrite commitTo_panic in Hl by (try done; lia). done. }
  rewrite commitTo_eq in Hl by done. injection Hl as <-.
  destruct (inv_commit r (Z.max (l_committed (r_raftLog r)) (mCommit m)) Hr) as [Hr1 Ha]; [lia|].
  split.
  - apply inv_send; [done| |done]. intros _. split; [apply Hr|done].
  - rewrite abs_send, Ha by done. eapply rtc_l; [apply as_heartbeat; try done; cbn; lia|].
    apply rtc_once, as_reply. done.
Qed.

(** ** Snapshots *)

(** The loop of [restore] over the nodes of the snapshot. *)
Lemma restore_loop last nodes r :
  is_u64 last -> last < MaxUint64 -> lastIndex (r_raftLog r) = Ok last ->
  exists prs, foldM (fun r n =>
      let! last := RaftLog.lastIndex (r_raftLog r) in
      let next := last ⊞ 1 in
      let match_ := if n =? r_id r then next ⊟ 1 else 0 in
      Ok (setProgress r n match_ next)) nodes r = Ok (r <| r_prs := prs |>) /\
    forall i, prs !! i =
      if decide (i ∈ nodes)
      then Some (Progress_new (if i =? r_id r then last else 0) (last + 1) (r_maxInflight r))
      else r_prs r !! i.
Proof.
  intros [Hl1 Hl2] Hl3 Hlast. revert r Hlast. induction nodes as [|n nodes IH]; intros r Hlast.
  - exists (r_prs r). split; [by destruct r|]. done.
  - cbn [foldM]. rewrite Hlast. gosimpl. u64_simp. replace (last + 1 - 1) with last by lia. u64_simp.
    destruct (IH (setProgress r n (if n =? r_id r then last else 0) (last + 1))) as (prs & Hf & Hp); [done|].
    exists prs. split; [done|]. intros i. rewrite Hp. cbn. destruct (decide (i ∈ nodes)) as [Hin|Hin].
    + by rewrite decide_True by (by right).
    + destruct (decide (i = n)) as [->|Hne].
      * by rewrite lookup_insert_eq, decide_True by left.
      * rewrite lookup_insert_ne, decide_False by set_solver. done.
Qed.

Lemma nodes_fresh_match id last next size nodes (prs : gmap Z Progress) :
  (forall i, prs !! i = if decide (i ∈ nodes)
     then Some (Progress_new (if i =? id then last else 0) next size) else None) ->
  pr_Match <$> prs = fresh_match id last (list_to_map ((fun i => (i, 0)) <$> nodes)).
Proof.
  intros Hp. apply map_eq. intros i. unfold fresh_match. rewrite lookup_fmap, map_lookup_imap, Hp.
  destruct (decide (i ∈ nodes)) as [Hin|Hin].
  - assert (Hx : (list_to_map ((fun i : Z => (i, 0)) <$> nodes) : gmap Z Z) !! i = Some 0).
    { clear Hp. induction nodes as [|n nodes IH]; [by apply not_elem_of_nil in Hin|]. cbn.
      destruct (decide (n = i)) as [->|Hne]; [apply lookup_insert_eq|].
      rewrite lookup_insert_ne by done. apply IH. set_solver. }
    by rewrite Hx.
  - rewrite (not_elem_of_list_to_map_1 _ i); [done|]. rewrite <- list_fmap_compose.
    intros Hin'. apply list_elem_of_fmap in Hin' as (j & -> & Hj). done.
Qed.

(** The state a restored snapshot leaves. *)
Lemma inv_restored r s prs :
  raft_inv r -> snap_ok s -> l_committed (r_raftLog r) < smIndex (sMetadata s) ->
  r_state r = StateFollower -> map_Forall (fun _ pr => pr_u64 pr) prs ->
  raft_inv (r <| r_raftLog := RaftLog.restore (r_raftLog r) s |> <| r_prs := prs |>).
Proof.
  intros Hr [Hi Ht] Hlt Hs Hp. pose proof (ri_log r Hr) as [Hinv [Hp1 Hp2]].
  destruct (restore_spec (r_raftLog r) s Hinv Hi) as (Hinv' & Habs & Hcm & Hap & Hst).
  destruct Hr. constructor; try done; cbn.
  - split; [done|]. constructor; rewrite ?Habs, Hcm, ?Hap; unfold a_last; cbn; lia.
  - rewrite Habs. split; [done|constructor].
  - intros s' e' Hs'. injection Hs' as <- <-. by split.
Qed.

Lemma restore_cases r s r' ok :
  raft_inv r -> snap_ok s -> 0 < smIndex (sMetadata s) -> restore r s = Ok (r', ok) ->
  let i := smIndex (sMetadata s) in
  let tm := default 0 (a_term (log_abs (r_raftLog r)) i) in
  (ok = false /\ i <= l_committed (r_raftLog r) /\ r' = r) \/
  (ok = false /\ l_committed (r_raftLog r) < i <= a_last (log_abs (r_raftLog r)) /\
     tm = smTerm (sMetadata s) /\
     r' = r <| r_raftLog := (r_raftLog r) <| l_committed := i |> |>) \/
  (ok = true /\ l_committed (r_raftLog r) < i /\ tm <> smTerm (sMetadata s) /\
     exists prs, r' = r <| r_raftLog := RaftLog.restore (r_raftLog r) s |> <| r_prs := prs |> /\
       map_Forall (fun _ pr => pr_u64 pr) prs /\
       pr_Match <$> prs = fresh_match (r_id r) i
         (list_to_map ((fun i => (i, 0)) <$> csNodes (smConfState (sMetadata s))))).
Proof.
  cbv zeta. intros Hr [Hi Ht] Hi0 Ho. pose proof (ri_log r Hr) as [Hinv [Hp1 Hp2]]. unfold restore in Ho.
  zif in Ho; [injection Ho as <- <-; by left|right].
  rewrite matchTerm_eq in Ho by (try done; lia). gosimpl in Ho.
  apply bind_Ok_inv in Ho as ([] & _ & Ho). zif in Ho.
  - left. apply bind_Ok_inv in Ho as (l & Hl & Ho). injection Ho as <- <-.
    assert (Hin : is_Some (a_term (log_abs (r_raftLog r)) (smIndex (sMetadata s)))).
    { destruct (a_term _ _); [done|]. cbn in *. lia. }
    apply a_term_is_Some in Hin. rewrite commitTo_eq in Hl by (try done; lia). injection Hl as <-.
    split_and!; try done; [lia..|]. by rewrite Z.max_r by lia.
  - right. apply bind_Ok_inv in Ho as (r1 & Hr1 & Ho). injection Ho as <- <-.
    destruct (restore_spec (r_raftLog r) s Hinv Hi) as (Hinv' & Habs & _).
    destruct (restore_loop (smIndex (sMetadata s)) (csNodes (smConfState (sMetadata s)))
      (r <| r_raftLog := RaftLog.restore (r_raftLog r) s |> <| r_prs := ∅ |>)) as (prs & Hf & Hp).
    { split; lia. } { lia. }
    { cbn. rewrite lastIndex_eq by done. rewrite Habs. unfold a_last. cbn. f_equal. lia. }
    pose proof (eq_trans (eq_sym Hf) Hr1) as E. injection E as <-. cbn in Hp.
    split_and!; [done|lia|done|]. exists prs. split_and!; [done| |by eapply nodes_fresh_match].
    intros i pr Hl. rewrite Hp in Hl. destruct (decide _); [|done]. injection Hl as <-.
    split; unfold is_u64; cbn; [zif; lia|lia].
Qed.

Lemma handleSnapshot_sim r m r' :
  r_state r = StateFollower -> mType m = MsgSnap -> msg_ok m -> mTerm m = r_Term r ->
  handleSnapshot r m = Ok r' -> sim m r r'.
Proof.
  intros Hs Ety [Hu Hm] Htm Ho Hr. rewrite Ety, Htm in Hm. destruct Hm as (Hpos & Hi0 & Hsn).
  pose proof (commit_u64 r Hr) as Hcu. unfold handleSnapshot in Ho.
  apply bind_Ok_inv in Ho as ([r1 ok] & Hre & Ho).
  apply restore_cases in Hre as [(-> & Hle & ->)|[(-> & Hlt & Hti & ->)|(-> & Hlt & Hti & prs & -> & Hpu & Hpm)]];
    try done; cbn in Ho.
  - injection Ho as <-. revert Hr. apply sim_send; [done|]. intros Hr. split.
    + split; [apply Hr|]. by split_and!.
    + apply as_stale; [done|done|by right].
  - injection Ho as <-. destruct (inv_commit r (smIndex (sMetadata (mSnapshot m))) Hr) as [Hr1 Ha]; [lia|].
    destruct Hsn as [Hin _]. split.
    + apply inv_send; [done| |done]. intros _. split; [apply Hr|].
      split_and!; try done; unfold is_u64; cbn; lia.
    + rewrite abs_send, Ha by done. apply rtc_once. by eapply (as_forward m (abs r)); try done; cbn; lia.
  - pose proof (inv_restored r (mSnapshot m) prs Hr Hsn Hlt Hs Hpu) as Hr1.
    destruct (ri_log r Hr) as [Hinv _]. destruct Hsn as [Hin Hst].
    destruct (restore_spec (r_raftLog r) (mSnapshot m) Hinv Hin) as (Hinv' & Habs & Hcm & _).
    rewrite lastIndex_eq in Ho by done. rewrite Habs in Ho. gosimpl in Ho. unfold a_last in Ho; cbn in Ho.
    injection Ho as <-. rewrite Z.add_0_r. split.
    + apply inv_send; [done| |done]. intros _. split; [apply Hr|].
      split_and!; try done; unfold is_u64; cbn; lia.
    + rewrite abs_send by done. apply rtc_once. eapply astep_eq; [by eapply (as_restore m (abs r))|].
      unfold abs, emit. cbn. by rewrite Habs, Hpm.
Qed.

Lemma sim_timer m r e lead r' :
  (raft_inv (r <| r_electionElapsed := e |> <| r_lead := lead |>) ->
   sim m (r <| r_electionElapsed := e |> <| r_lead := lead |>) r') -> sim m r r'.
Proof.
  intros Hs. eapply sim_trans; [|exact Hs]. apply sim_same; [|done]. intros []. by constructor.
Qed.

Lemma sim_elapsed m r e r' :
  sim m (r <| r_electionElapsed := e |>) r' -> sim m r r'.
Proof. intros Hs. apply (sim_timer m r e (r_lead r)). intros _. by destruct r. Qed.

Lemma rejectVote_sim r m r' :
  mType m = MsgVote -> msg_ok m -> mTerm m = r_Term r -> rejectVote r m = Ok r' -> sim m r r'.
Proof.
  intros Ety [_ Hm] Htm Ho. rewrite Ety, Htm in Hm. unfold rejectVote in Ho.
  apply bind_Ok_inv in Ho as ([] & _ & Ho). injection Ho as <-. apply sim_send; [done|]. intros Hr. split.
  - split; [apply Hr|done].
  - by apply as_reply.
Qed.

Lemma vote_sim r m r' :
  r_state r = StateFollower -> mType m = MsgVote -> msg_ok m -> mTerm m = r_Term r ->
  stepFollower r m = Ok r' -> sim m r r'.
Proof.
  intros Hs Ety Hm Htm Ho. pose proof Hm as [_ Hm']. rewrite Ety, Htm in Hm'. unfold stepFollower in Ho.
  rewrite Ety in Ho. apply bind_Ok_inv in Ho as (grant & Hg & Ho).
  destruct grant; [|by eapply rejectVote_sim].
  apply bind_Ok_inv in Ho as ([] & _ & Ho). injection Ho as <-. intros Hr.
  assert (Hvote : (r_Vote r = 0 \/ r_Vote r = mFrom m) /\ isUpToDate (r_raftLog r) (mIndex m) (mLogTerm m) = Ok true).
  { unfold None_ in Hg. destruct (Z.eqb_spec (r_Vote r) 0), (Z.eqb_spec (r_Vote r) (mFrom m));
      cbn in Hg; first [done | auto]. }
  destruct Hvote as [Hv Hup]. destruct (ri_log r Hr) as [Hinv _]. rewrite isUpToDate_eq in Hup by done.
  injection Hup as Hup. rewrite orb_true_iff, andb_true_iff, Z.ltb_lt, Z.eqb_eq, Z.leb_le in Hup.
  split.
  - apply inv_send; [|intros _; split; [apply Hr|done]|done].
    destruct Hr. by constructor.
  - apply rtc_once. rewrite abs_send by done. by eapply astep_eq; [apply as_grant|].
Qed.

(** The message types that only [Step]'s term rules admit: they carry a term. *)
Definition termed m : Prop :=
  match mType m with
  | MsgApp | MsgSnap | MsgHeartbeat | MsgVote | MsgAppResp | MsgVoteResp | MsgHeartbeatResp => True
  | _ => False
  end.

Lemma termed_pos m : msg_ok m -> termed m -> 0 < mTerm m.
Proof. intros [_ Hm]. unfold termed. destruct (mType m); try done; intros _; by destruct Hm || done. Qed.

Lemma stepFollower_sim r m r' :
  r_state r = StateFollower -> msg_ok m -> (termed m -> mTerm m = r_Term r) ->
  stepFollower r m = Ok r' -> sim m r r'.
Proof.
  intros Hs Hm Htm Ho. unfold termed in Htm.
  destruct (mType m) eqn:Ety; try specialize (Htm I);
    try (eapply vote_sim; by eauto); unfold stepFollower in Ho; rewrite Ety in Ho;
    try (injection Ho as <-; apply sim_refl).
  - zif in Ho; injection Ho as <-; [apply sim_refl|]. apply sim_once. intros Hr. split.
    + apply inv_send; [done|by intros []|]. intros _. apply Hm.
    + rewrite abs_send_prop by done. apply as_reply. unfold harmless. cbn. by rewrite Ety.
  - eapply sim_timer. intros _. by eapply handleAppendEntries_sim in Ho.
  - eapply sim_elapsed. by eapply handleSnapshot_sim in Ho.
  - eapply sim_timer. intros _. by eapply handleHeartbeat_sim in Ho.
Qed.
End handlers.

Section dispatch.
  Context {St : Type} `{StorageSpec St}.
  Context (range : gmap Z Progress -> list Z).
  Implicit Types (r : raft St) (m : Message).

(** ** Leaders *)

Lemma bcastAppend_sim r m r' :
  r_state r = StateLeader -> bcastAppend range r = Ok r' -> r_state r' = StateLeader /\ sim m r r'.
Proof.
  intros Hs Ho. eapply (sim_foldM (fun r => r_state r = StateLeader)); [|exact Ho|done].
  intros r1 to r2 _ Hs1 Ho1. by apply (sendAppend_sim m) in Ho1.
Qed.

Lemma bcastHeartbeat_sim r m r' :
  r_state r = StateLeader -> bcastHeartbeat range r = Ok r' -> r_state r' = StateLeader /\ sim m r r'.
Proof.
  intros Hs Ho. eapply (sim_foldM (fun r => r_state r = StateLeader)); [|exact Ho|done].
  intros r1 to r2 _ Hs1 Ho1. apply bind_Ok_inv in Ho1 as (r3 & Ho3 & Ho1).
  apply (sendHeartbeat_sim m) in Ho3 as [Hs3 Hsim]; [|done].
  apply bind_Ok_inv in Ho1 as (pr & Hpr & Ho1). apply progress_Ok in Hpr. injection Ho1 as <-.
  split; [done|]. eapply sim_trans; [done|]. intros _. eapply sim_put; [done|done|by intros []].
Qed.

Lemma maybeDecrTo_facts pr i hint : pr_u64 pr -> is_u64 i ->
  pr_Match (fst (maybeDecrTo pr i hint)) = pr_Match pr /\ pr_u64 (fst (maybeDecrTo pr i hint)).
Proof.
  intros [Hm Hn] Hi. unfold maybeDecrTo, pr_u64. pose proof (u64_range (pr_Match pr + 1)).
  pose proof (u64_range (hint + 1)). unfold is_u64 in *.
  zif; [zif; cbn; lia|]. zif; [|cbn; lia]. zif; cbn in *; lia.
Qed.

Lemma becomeProbe_facts pr : pr_u64 pr -> pr_Match (becomeProbe pr) = pr_Match pr /\ pr_u64 (becomeProbe pr).
Proof.
  intros [Hm Hn]. unfold becomeProbe, pr_u64. pose proof (u64_range (pr_Match pr + 1)).
  pose proof (u64_range (pr_PendingSnapshot pr + 1)). unfold is_u64 in *. zif; cbn; lia.
Qed.

Lemma advance_state_facts pr i pr' : pr_u64 pr -> advance_state pr i = Ok pr' ->
  pr_Match pr' = pr_Match pr /\ pr_u64 pr'.
Proof.
  intros Hu Ho. unfold advance_state in Ho. destruct (pr_State pr).
  - injection Ho as <-. split; [done|]. split; [apply Hu|apply u64_range].
  - apply bind_Ok_inv in Ho as (ins & _ & Ho). by injection Ho as <-.
  - injection Ho as <-. destruct (maybeSnapshotAbort pr); [by apply becomeProbe_facts|done].
Qed.

Lemma stepLeader_reject_sim r m pr r' :
  r_state r = StateLeader -> r_prs r !! mFrom m = Some pr -> is_u64 (mIndex m) ->
  stepLeader_reject r m (pr <| pr_RecentActive := true |>) = Ok r' -> sim m r r'.
Proof.
  intros Hs Hpr Hi Ho. unfold stepLeader_reject in Ho.
  pose proof (maybeDecrTo_facts (pr <| pr_RecentActive := true |>) (mIndex m) (mRejectHint m)) as Hd.
  destruct (maybeDecrTo _ _ _) as [pr1 ok]. cbn [fst] in Hd. destruct ok.
  - eapply sim_trans; [|intros _; eapply sendAppend_sim in Ho; [apply Ho|done]].
    eapply sim_put_u64; [done|]. intros Hu. destruct (Hd Hu Hi) as [Hm Hu1].
    zif; [|done]. destruct (becomeProbe_facts pr1 Hu1) as [-> ?]. done.
  - injection Ho as <-. eapply sim_put_u64; [done|]. intros Hu. by apply Hd.
Qed.

(** An acknowledgement that tells something new. *)
Lemma ack_sim r m pr pr' :
  r_state r = StateLeader -> mType m = MsgAppResp -> mTerm m = r_Term r -> mReject m = false ->
  r_prs r !! mFrom m = Some pr -> pr_Match pr < mIndex m ->
  (pr_u64 pr -> pr_Match pr' = mIndex m /\ pr_u64 pr') -> sim m r (put_progress r (mFrom m) pr').
Proof.
  intros Hs Ety Htm Hrej Hpr Hlt Hu. apply sim_once. intros Hr.
  destruct (Hu (ri_prs r Hr _ _ Hpr)) as [Hm Hp]. split; [by apply inv_put|].
  eapply astep_eq; [eapply (as_ack m (abs r) (pr_Match pr)); try done|].
  - cbn. by rewrite lookup_fmap, Hpr.
  - unfold abs, put_progress. cbn. by rewrite fmap_insert, Hm.
Qed.

Lemma stepLeader_accept_sim r m pr r' :
  r_state r = StateLeader -> mType m = MsgAppResp -> mTerm m = r_Term r -> mReject m = false ->
  r_prs r !! mFrom m = Some pr -> is_u64 (mIndex m) ->
  stepLeader_accept range r m (pr <| pr_RecentActive := true |>) = Ok r' -> sim m r r'.
Proof.
  intros Hs Ety Htm Hrej Hpr Hi Ho. unfold stepLeader_accept in Ho.
  pose proof (maybeUpdate_facts (pr <| pr_RecentActive := true |>) (mIndex m) Hi) as Hd.
  assert (Hup : snd (maybeUpdate (pr <| pr_RecentActive := true |>) (mIndex m)) = (pr_Match pr <? mIndex m)).
  { unfold maybeUpdate. cbn. by zcase. }
  destruct (maybeUpdate _ _) as [pr1 up]. cbn [fst snd] in Hd, Hup. subst up. zif in Ho.
  - apply bind_Ok_inv in Ho as (pr2 & Hadv & Ho). apply bind_Ok_inv in Ho as ([r1 b] & Hmc & Ho).
    apply (maybeCommit_sim m) in Hmc as (Hs1 & _ & _ & Hsim1); [|done].
    eapply sim_trans; [eapply (ack_sim _ _ _ pr2); try done|intros _; eapply sim_trans; [done|]].
    + intros Hu. destruct (Hd Hu) as [Hm1 Hu1]. apply advance_state_facts in Hadv as [-> ?]; [|done].
      cbn in Hm1. split; [lia|done].
    + intros _. destruct b; [by apply (bcastAppend_sim _ m) in Ho as [_ ?]|].
      destruct (isPaused _); [by apply (sendAppend_sim m) in Ho as [_ ?]|].
      injection Ho as <-. apply sim_refl.
  - injection Ho as <-. eapply sim_put_u64; [done|]. intros Hu. destruct (Hd Hu) as [-> ?]. cbn. split; [lia|done].
Qed.

Lemma stepLeader_heartbeatResp_sim r m pr r' :
  r_state r = StateLeader -> r_prs r !! mFrom m = Some pr ->
  stepLeader_heartbeatResp r m pr = Ok r' -> sim m r r'.
Proof.
  intros Hs Hpr Ho. unfold stepLeader_heartbeatResp in Ho. apply bind_Ok_inv in Ho as (pr1 & H1 & Ho).
  apply bind_Ok_inv in Ho as (last & _ & Ho).
  eapply (sim_trans _ _ (put_progress r (mFrom m) pr1)).
  - eapply sim_put_u64; [done|]. intros Hu. destruct (_ && _); [|by injection H1 as <-].
    apply bind_Ok_inv in H1 as (ins & _ & H1). by injection H1 as <-.
  - intros _. destruct (_ <? _); [by apply (sendAppend_sim m) in Ho as [_ ?]|].
    injection Ho as <-. apply sim_refl.
Qed.

Lemma stepLeader_snapStatus_sim r m pr r' :
  r_prs r !! mFrom m = Some pr -> stepLeader_snapStatus r m pr = Ok r' -> sim m r r'.
Proof.
  intros Hpr Ho. unfold stepLeader_snapStatus in Ho. zif in Ho; [|injection Ho as <-; apply sim_refl].
  injection Ho as <-. eapply sim_put_u64; [done|]. intros Hu. destruct (negb (mReject m)).
  - destruct (becomeProbe_facts pr Hu) as [? ?]. done.
  - destruct (becomeProbe_facts (snapshotFailure pr) Hu) as [? ?]. done.
Qed.

Lemma propose_conf_length es p : length (fst (propose_conf es p)) = length es.
Proof.
  revert p. induction es as [|e es IH]; intros p; [done|]. cbn. zif.
  - specialize (IH true). by destruct (propose_conf es true); cbn in *; rewrite IH.
  - specialize (IH p). by destruct (propose_conf es p); cbn in *; rewrite IH.
Qed.

Lemma stepLeader_prop_sim r m r' :
  r_state r = StateLeader -> raft_inv r ->
  a_last (log_abs (r_raftLog r)) + zlen (mEntries m) < MaxUint64 ->
  stepLeader_prop range r m = Ok r' -> sim m r r'.
Proof.
  intros Hs Hr Hroom Ho. unfold stepLeader_prop in Ho. zif in Ho; [done|].
  destruct (r_prs r !! r_id r); [|injection Ho as <-; apply sim_refl].
  pose proof (propose_conf_length (mEntries m) (r_pendingConf r)) as Hlen.
  destruct (propose_conf _ _) as [es pend]. cbn [fst] in Hlen.
  apply bind_Ok_inv in Ho as (r1 & H1 & Ho).
  apply (appendEntry_sim m) in H1 as (Hs1 & _ & _ & Hsim1); [|done|by destruct es, (mEntries m)|cbn; lia].
  apply (bcastAppend_sim _ m) in Ho as [_ Hsim2]; [|done].
  intros _. destruct (Hsim1 (inv_pendingConf r pend Hr)) as [Hr1 S1]. destruct (Hsim2 Hr1) as [Hr2 S2].
  split; [done|]. by etrans.
Qed.

Lemma checkQuorum_sim r m r' :
  stepLeader range r m = Ok r' -> mType m = MsgCheckQuorum -> sim m r r'.
Proof.
  intros Ho Ety. unfold stepLeader in Ho. rewrite Ety in Ho.
  destruct (checkQuorumActive r) as [r1 act] eqn:E.
  assert (Hs : sim m r r1 /\ r_Term r1 = r_Term r).
  { unfold checkQuorumActive in E. injection E as <- <-. split; [|done]. apply sim_same.
    - intros Hr. pose proof (ri_prs r Hr) as Hp. destruct Hr. constructor; try done. intros i pr Hi. cbn in Hi. rewrite map_lookup_imap in Hi.
      destruct (r_prs r !! i) eqn:Ei; [|done]. injection Hi as <-. specialize (Hp _ _ Ei). by zcase.
    - unfold abs. cbn. f_equal. apply map_eq. intros i. rewrite !lookup_fmap, map_lookup_imap.
      destruct (r_prs r !! i); [|done]. cbn. by zcase. }
  destruct Hs as [Hs Ht]. eapply sim_trans; [done|]. intros _. zif in Ho.
  - injection Ho as <-. apply sim_refl.
  - by apply (becomeFollower_same m) in Ho as [_ ?].
Qed.

Definition room r (k : Z) : Prop := a_last (log_abs (r_raftLog r)) + k < MaxUint64.

Lemma stepLeader_sim r m r' :
  raft_inv r -> r_state r = StateLeader -> msg_ok m -> (termed m -> mTerm m = r_Term r) ->
  room r (zlen (mEntries m)) -> stepLeader range r m = Ok r' -> sim m r r'.
Proof.
  intros Hr Hs Hm Htm Hroom Ho. pose proof Hm as [_ Hm']. unfold termed in Htm.
  destruct (mType m) eqn:Ety; try specialize (Htm I); pose proof Ho as Ho';
    unfold stepLeader in Ho; rewrite Ety in Ho;
    try (by apply (bcastHeartbeat_sim _ m) in Ho as [_ ?]);
    try (by eapply checkQuorum_sim); try (by eapply stepLeader_prop_sim);
    try (by eapply rejectVote_sim);
    (destruct (r_prs r !! mFrom m) as [pr|] eqn:Hpr; [|injection Ho as <-; apply sim_refl]);
    try (injection Ho as <-; apply sim_refl).
  - destruct Hm' as (_ & Hi & _). destruct (mReject m) eqn:Hrej;
      [by eapply stepLeader_reject_sim|by eapply stepLeader_accept_sim].
  - by eapply stepLeader_heartbeatResp_sim.
  - zif in Ho; injection Ho as <-; [|apply sim_refl]. eapply sim_put_u64; [done|]. apply becomeProbe_facts.
  - by eapply stepLeader_snapStatus_sim.
Qed.

(** ** Candidates *)

Lemma poll_sim r m :
  r_state r = StateCandidate -> mType m = MsgVoteResp -> mTerm m = r_Term r ->
  let '(r1, gr) := poll r (mFrom m) (negb (mReject m)) in
  sim m r r1 /\ r_state r1 = StateCandidate /\ r_raftLog r1 = r_raftLog r /\ r_Term r1 = r_Term r /\
  gr = granted (r_votes r1).
Proof.
  intros Hs Ety Htm. unfold poll. split_and!; try done.
  destruct (r_votes r !! mFrom m) eqn:Ev; [by apply sim_same; [destruct r|]|].
  apply sim_once. intros Hr. split; [by destruct Hr; constructor|]. by eapply astep_eq; [apply as_count|].
Qed.

Lemma stepCandidate_sim r m r' :
  raft_inv r -> r_state r = StateCandidate -> msg_ok m -> (termed m -> mTerm m = r_Term r) ->
  room r 1 -> stepCandidate range r m = Ok r' -> sim m r r'.
Proof.
  intros Hr Hs Hm Htm Hroom Ho. pose proof Hm as [_ Hm']. unfold termed in Htm.
  destruct (mType m) eqn:Ety; try specialize (Htm I); unfold stepCandidate in Ho; rewrite Ety in Ho;
    try (injection Ho as <-; apply sim_refl); try (by eapply rejectVote_sim);
    try (apply bind_Ok_inv in Ho as (r1 & Hf & Ho); try rewrite Htm in Hf;
         apply (becomeFollower_same m) in Hf as [Hfr Hfs]; destruct (Hfr Hr) as (Hs1 & Ht1 & _);
         rewrite <- Ht1 in Htm; eapply sim_trans; [done|]; intros _).
  - by eapply handleAppendEntries_sim.
  - pose proof (poll_sim r m Hs Ety Htm) as Hp. destruct (poll _ _ _) as [r1 gr].
    destruct Hp as (Hsim & Hs1 & Hl1 & Ht1 & Hgr). eapply sim_trans; [done|]. intros Hr1. zif in Ho.
    + apply bind_Ok_inv in Ho as (r2 & H2 & Ho).
      apply (becomeLeader_sim m) in H2 as [Hs2 Hsim2]; [|done|done|congruence|by rewrite Hl1].
      eapply sim_trans; [done|]. intros _. by apply (bcastAppend_sim _ m) in Ho as [_ ?].
    + zif in Ho; [by apply (becomeFollower_same m) in Ho as [_ ?]|]. injection Ho as <-. apply sim_refl.
  - by eapply handleSnapshot_sim.
  - by eapply handleHeartbeat_sim.
Qed.

(** ** Campaigns *)

Lemma campaign_sim r m r' :
  raft_inv r -> mType m = MsgHup -> r_Term r < MaxUint64 -> room r 1 ->
  campaign range r = Ok r' -> sim m r r'.
Proof.
  intros Hr Ety Hmax Hroom Ho. unfold campaign in Ho. apply bind_Ok_inv in Ho as (r0 & H0' & Ho).
  destruct (campaign_abs r r0 Hr Hmax H0') as (Hnl & Hr1 & Hs1 & Hid1 & Ha1).
  assert (Hgr : snd (poll r0 (r_id r0) true) = granted (r_votes (fst (poll r0 (r_id r0) true)))) by done.
  destruct (poll r0 (r_id r0) true) as [r1 gr]. cbn [fst snd] in *.
  pose proof (f_equal n_log Ha1) as Hlog. cbn in Hlog. apply (sim_trans _ _ r1).
  { apply sim_once. intros _. split; [done|]. rewrite Ha1. by apply (as_campaign m (abs r)). }
  intros _. zif in Ho.
  - apply (becomeLeader_sim m) in Ho as [_ ?]; [done|done|done|congruence|by rewrite Hlog; apply Hroom].
  - eapply (sim_foldM (fun r2 => r_state r2 = StateCandidate /\ r_id r2 = r_id r1)) in Ho as [_ ?]; [done| |done].
    intros r2 to r3 Hto [Hs2 Hid2] Ho3. apply bind_Ok_inv in Ho3 as (lt & Hlt & Ho3).
    apply bind_Ok_inv in Ho3 as (li & Hli & Ho3). injection Ho3 as <-. split; [done|].
    apply sim_send; [done|]. intros Hr2. destruct (ri_log r2 Hr2) as [Hinv2 _].
    rewrite lastTerm_eq in Hlt by done. rewrite lastIndex_eq in Hli by done. injection Hlt as <-. injection Hli as <-.
    destruct (ri_role r2 Hr2) as [Hpos _]; [by rewrite Hs2|]. split.
    + split; [apply Hr2|done].
    + apply (as_request m (abs r2)); [done|]. cbn. rewrite Hid2. unfold others in Hto.
      by apply list_elem_of_filter in Hto as [? _].
Qed.

(** ** [Step] and [tick] *)

(** No term or index is about to overflow. *)
Definition headroom r m : Prop := r_Term r < MaxUint64 /\ room r (zlen (mEntries m) + 1).

Lemma call_step_sim r m r' :
  raft_inv r -> msg_ok m -> (termed m -> mTerm m = r_Term r) -> room r (zlen (mEntries m) + 1) ->
  call_step range r m = Ok r' -> sim m r r'.
Proof.
  intros Hr Hm Htm Hroom Ho. unfold call_step in Ho. rewrite (ri_step r Hr) in Ho. unfold room in Hroom.
  destruct (r_state r) eqn:Hs; cbn in Ho.
  - by eapply stepFollower_sim.
  - eapply stepCandidate_sim; try done. unfold room. lia.
  - eapply stepLeader_sim; try done. unfold room. lia.
Qed.

Lemma Step_sim r m r' :
  raft_inv r -> msg_ok m -> headroom r m -> Step range r m = Ok r' -> sim m r r'.
Proof.
  intros Hr Hm [Hmax Hroom] Ho. pose proof (termed_pos m Hm) as Hpos. unfold Step in Ho. zif in Ho.
  { zif in Ho; [injection Ho as <-; apply sim_refl|]. eapply campaign_sim; try done. unfold room in *. lia. }
  zif in Ho; [eapply call_step_sim; try done; intros Ht; specialize (Hpos Ht); lia|].
  zif in Ho.
  - apply bind_Ok_inv in Ho as (r1 & Hf & Ho). pose proof Hf as Hf'.
    apply becomeFollower_newer in Hf as [Hfr Hsim]; [|apply Hm|done].
    destruct (Hfr Hr) as [Hs1 Ht1]. eapply sim_trans; [done|]. intros Hr1.
    apply becomeFollower_abs in Hf' as (_ & _ & _ & _ & Ha); [|done|apply Hm].
    apply (f_equal n_log) in Ha. cbn in Ha.
    eapply call_step_sim; try done. unfold room in *. by rewrite Ha.
  - zif in Ho; [injection Ho as <-; apply sim_refl|]. eapply call_step_sim; try done. intros _. lia.
Qed.

(** C7. The message handler refines the abstract node: from a state that
    satisfies the representation invariant, handling a well-formed message
    keeps the invariant (which includes that every message sent is
    well-formed) and does only what [astep] allows, on every path that does
    not panic: one vote per term, granted to an up-to-date candidate only;
    commits of a leader only at its own term and a quorum; messages that are
    stretches of the log. *)
Theorem Step_refines r m r' :
  raft_inv r -> msg_ok m -> headroom r m -> Step range r m = Ok r' ->
  raft_inv r' /\ asteps m (abs r) (abs r').
Proof. intros Hr Hm Hh Ho. by eapply Step_sim. Qed.

Definition ticking (t : MessageType) : Prop := t = MsgHup \/ t = MsgCheckQuorum \/ t = MsgBeat.

(** What a node may do by itself when its clock ticks. *)
Definition local_step (n n' : anode) : Prop :=
  exists m, astep m n n' /\ mTerm m = 0 /\ ticking (mType m).

Lemma local_steps m n n' :
  asteps m n n' -> mTerm m = 0 -> ticking (mType m) -> rtc local_step n n'.
Proof.
  intros Hs Ht Hty. induction Hs as [|n1 n2 n3 H1 _ IH]; [apply rtc_refl|]. eapply rtc_l; [|exact IH]. by exists m.
Qed.

Lemma inv_elapsed r e h : raft_inv r ->
  raft_inv (r <| r_heartbeatElapsed := h |> <| r_electionElapsed := e |>).
Proof. intros []. by constructor. Qed.

Lemma local_Step r m r' :
  raft_inv r -> headroom r Message0 -> mTerm m = 0 -> ticking (mType m) ->
  mEntries m = [] -> Step range r m = Ok r' -> raft_inv r' /\ rtc local_step (abs r) (abs r').
Proof.
  intros Hr Hh Ht Hty He Ho. eapply Step_sim in Ho; [|done| |].
  - destruct (Ho Hr) as [? ?]. split; [done|]. by eapply local_steps.
  - split; [by rewrite Ht|]. by destruct Hty as [->|[->| ->]].
  - unfold headroom in *. by rewrite He.
Qed.

Lemma checkQuorum_headroom r m r' :
  raft_inv r -> headroom r Message0 -> Step range r m = Ok r' -> mType m = MsgCheckQuorum -> mTerm m = 0 ->
  r_state r = StateLeader -> headroom r' Message0.
Proof.
  intros Hr Hh Ho Ety Ht Hs. unfold Step in Ho. rewrite Ety, Ht in Ho.
  rewrite bool_decide_eq_false_2 in Ho by done. cbn in Ho. unfold call_step in Ho.
  rewrite (ri_step r Hr), Hs in Ho. cbn in Ho. unfold stepLeader in Ho. rewrite Ety in Ho.
  destruct (checkQuorumActive r) as [r1 act] eqn:E. unfold checkQuorumActive in E. injection E as <- _.
  zif in Ho; [by injection Ho as <-|]. destruct (ri_log r Hr) as [Hinv _].
  unfold becomeFollower in Ho. rewrite reset_eq in Ho by done. gosimpl in Ho. by injection Ho as <-.
Qed.

Lemma tickElection_local r draw r' :
  raft_inv r -> headroom r Message0 -> tickElection range r draw = Ok r' ->
  raft_inv r' /\ rtc local_step (abs r) (abs r') /\
  (promotable r = false -> abs r' = abs r).
Proof.
  intros Hr Hh Ho. pose proof (inv_elapsed r) as Hel. unfold tickElection in Ho.
  destruct (promotable r) eqn:Hp; cbn [negb] in Ho.
  - apply bind_Ok_inv in Ho as (b & _ & Ho). destruct b.
    + apply local_Step in Ho as [? Hl]; [|destruct Hr; by constructor|done|done|by left|done].
      by split_and!.
    + injection Ho as <-. split_and!; [destruct Hr; by constructor|apply rtc_refl|done].
  - injection Ho as <-. split_and!; [destruct Hr; by constructor|apply rtc_refl|done].
Qed.

Lemma tickHeartbeat_local r r' :
  raft_inv r -> r_state r = StateLeader -> headroom r Message0 -> tickHeartbeat range r = Ok r' ->
  raft_inv r' /\ rtc local_step (abs r) (abs r').
Proof.
  intros Hr Hs Hh Ho. unfold tickHeartbeat in Ho. cbv zeta in Ho. apply bind_Ok_inv in Ho as (r1 & Hq & Ho).
  assert (H1' : raft_inv r1 /\ rtc local_step (abs r) (abs r1) /\ headroom r1 Message0).
  { zif in Hq; [|injection Hq as <-; split_and!; [by apply inv_elapsed|apply rtc_refl|done]].
    zif in Hq; [|injection Hq as <-; split_and!; [destruct Hr; by constructor|apply rtc_refl|done]].
    pose proof Hq as Hq'. eapply checkQuorum_headroom in Hq'; [|destruct Hr; by constructor|done..].
    by apply local_Step in Hq as [? ?]; [|destruct Hr; by constructor|done|done|by right; left|done]. }
  destruct H1' as (Hr1 & Hl1 & Hh1). zif in Ho; [|by injection Ho as <-].
  zif in Ho; [|by injection Ho as <-].
  apply local_Step in Ho as [? Hl2]; [|destruct Hr1; by constructor|done|done|by right; right|done].
  split; [done|]. by etrans.
Qed.

Lemma tick_local r draw r' :
  raft_inv r -> headroom r Message0 -> tick range r draw = Ok r' ->
  raft_inv r' /\ rtc local_step (abs r) (abs r').
Proof.
  intros Hr Hh Ho. unfold tick in Ho. rewrite (ri_tick r Hr) in Ho.
  destruct (r_state r) eqn:Hs; cbn in Ho; [..|by eapply tickHeartbeat_local];
    by destruct (tickElection_local _ _ _ Hr Hh Ho) as (? & ? & ?).
Qed.

End dispatch.
