(* ===== verification/RaftAlone.v ===== *)
(** * A node that is the only member of its cluster

    Progress of [src/raft/raft.go] where it needs nobody else: the node's clock
    makes it the leader, with everything in its log committed, and what is
    proposed to it then is committed in the same step. *)

From S2P Require Import Prelude RaftPB Storage Unstable RaftLog Progress Raft RaftSpec Quorum RaftRefine RaftStep.

Section alone.
  Context {St : Type} `{StorageSpec St}.
  Implicit Types (r : raft St) (m : Message).

Notation last_of r := (a_last (log_abs (r_raftLog r))).

(** The entries that are not committed yet. *)
Definition uncommitted r : list Entry := a_slice (log_abs (r_raftLog r)) (l_committed (r_raftLog r) + 1) (last_of r + 1).
Definition conf_changes (es : list Entry) : nat := length (filter (fun e => eType e = EntryConfChange) es).

Definition only_member r : Prop := exists pr, r_prs r = {[r_id r := pr]} /\ pr_Match pr <= last_of r.

(** ** Quorums of one *)

Lemma quorum_alone r pr : r_prs r = {[r_id r := pr]} -> quorum r = 1 /\ quorum_match r = Ok (pr_Match pr).
Proof.
  intros Hp. unfold quorum_match, quorum. rewrite Hp, map_size_singleton, map_to_list_singleton. split; [done|]. done.
Qed.

Lemma others_alone range r : (forall prs i, i ∈ range prs -> is_Some (prs !! i)) -> only_member r -> others range r = [].
Proof.
  intros Hrange (pr & Hp & _). unfold others. rewrite Hp. destruct (filter _ _) as [|i l] eqn:E; [done|].
  assert (i ∈ i :: l) as Hi by left. rewrite <- E in Hi. apply list_elem_of_filter in Hi as [Hne Hi].
  apply Hrange in Hi as [? Hi]. by apply lookup_singleton_Some in Hi as [<- _].
Qed.

(** ** Appending *)

Lemma appendEntry_alone r es :
  raft_inv r -> r_state r = StateLeader -> only_member r -> es <> [] -> last_of r + zlen es < MaxUint64 ->
  exists r', appendEntry r es = Ok r' /\ raft_inv r' /\ r_state r' = StateLeader /\ r_id r' = r_id r /\ r_Term r' = r_Term r /\
    only_member r' /\ log_abs (r_raftLog r') = a_append (log_abs (r_raftLog r)) (stamp (r_Term r) (last_of r) es) /\
    last_of r' = last_of r + zlen es /\ l_committed (r_raftLog r') = last_of r'.
Proof.
  intros Hr Hs (pr & Hp & Hm) Hne Hmax. pose proof (ri_log r Hr) as [Hinv [Hcom _]].
  destruct (last_u64 r Hr) as [Hlo _]. destruct (ri_role r Hr) as [Hpos _]; [by rewrite Hs|].
  destruct (stamp_spec (r_Term r) _ es Hlo Hmax) as (Hc & Hf & Hl). set (es' := stamp _ _ _) in *.
  assert (es' <> []) as Hne' by (destruct es, es'; done). pose proof (log_abs_wf _ Hinv) as Hwf. pose proof Hwf as (Ho1 & Hm1 & _).
  assert (0 < zlen es) as Hpos' by (destruct es; [done|cbn; lia]).
  destruct (append_eq (r_raftLog r) es' (last_of r + 1)) as (l & Happ & _); [done|done|done|unfold a_last in *; lia|lia|lia|].
  destruct (appendEntry_log r es l _ Hr Hs Hne Hmax Happ) as (Hr1 & Habs & Hcm & Hla).
  pose proof (ri_log _ Hr1) as [Hinv1 _]. cbn in Hinv1.
  assert (is_u64 (a_last (log_abs l))) as Hu by exact (last_u64 _ Hr1).
  pose proof (ri_prs r Hr (r_id r) pr) as Hpu. rewrite Hp, lookup_singleton_eq in Hpu. specialize (Hpu eq_refl).
  destruct (maybeUpdate_facts pr _ Hu Hpu) as [Hm' _]. rewrite Z.max_r in Hm' by lia.
  assert (a_term (log_abs l) (a_last (log_abs l)) = Some (r_Term r)) as Hterm.
  { rewrite Habs at 1. unfold a_term. rewrite a_off_append. zif; [unfold a_last in *; lia|].
    rewrite (a_entry_append _ es' _ (last_of r + 1)) by (try done; unfold a_last in *; lia). zif; [lia|].
    destruct (lookup_lt_is_Some_2 es' (Z.to_nat (a_last (log_abs l) - (last_of r + 1)))) as [e He]; [lia|].
    rewrite He. cbn. f_equal. rewrite Forall_lookup in Hf. by eapply Hf. }
  set (r2 := put_progress (r <| r_raftLog := l |>) (r_id r) (maybeUpdate pr (a_last (log_abs l))).1).
  assert (r_prs r2 = {[r_id r2 := (maybeUpdate pr (a_last (log_abs l))).1]}) as Hp2.
  { change (<[r_id r := (maybeUpdate pr (a_last (log_abs l))).1]> (r_prs r) = {[r_id r := (maybeUpdate pr (a_last (log_abs l))).1]}). rewrite Hp. apply insert_singleton_eq. }
  set (r' := r2 <| r_raftLog := l <| l_committed := a_last (log_abs l) |> |>).
  assert (maybeCommit r2 = Ok (r', true)) as Hmc.
  { unfold maybeCommit. destruct (quorum_alone r2 _ Hp2) as [_ ->]. cbn [gobind]. rewrite Hm'. change (r_raftLog r2) with l. change (r_Term r2) with (r_Term r).
    rewrite maybeCommit_eq by (try done; lia). zif; [|lia]. by rewrite bool_decide_true. }
  assert (appendEntry r es = Ok r') as Hrun.
  { unfold appendEntry. rewrite lastIndex_eq by done. cbn [gobind]. fold es'. rewrite Happ. cbn [gobind].
    assert (progress (r <| r_raftLog := l |>) (r_id (r <| r_raftLog := l |>)) = Ok pr) as -> by (apply progress_Ok; cbn; by rewrite Hp, lookup_singleton_eq).
    cbn [gobind]. assert (RaftLog.lastIndex l = Ok (a_last (log_abs l))) as Hli by by apply lastIndex_eq. gorun Hli. gorun Hmc. done. }
  pose proof (appendEntry_sim Message0 r es r' Hs Hne (fun _ => Hmax) Hrun) as (Hs' & Hid' & _ & Hsim).
  destruct (Hsim Hr) as [Hr' _]. exists r'. split_and!; try done.
  eexists. split; [exact Hp2|]. rewrite Hm'. done.
Qed.
(** ** Elections *)

Lemma scan_conf_ok es (pending : bool) : (conf_changes es + (if pending then 1 else 0) <= 1)%nat -> is_Ok (scan_conf es pending).
Proof.
  unfold conf_changes. revert pending. induction es as [|e es IH]; intros pending; cbn [scan_conf]; [by eexists|].
  rewrite filter_cons. destruct (decide _) as [He|He].
  - rewrite bool_decide_true by done. cbn [negb length]. destruct pending; [lia|]. intros Hn. apply IH. lia.
  - rewrite bool_decide_false by done. cbn [negb]. apply IH.
Qed.

Lemma entries_uncommitted r : raft_inv r ->
  RaftLog.entries (r_raftLog r) (l_committed (r_raftLog r) ⊞ 1) noLimit = Ok (uncommitted r, None).
Proof.
  intros Hr. pose proof (ri_log r Hr) as [Hinv [Hcom _]]. pose proof (log_abs_wf _ Hinv) as (Ho1 & Hm1 & _).
  unfold entries. rewrite lastIndex_eq by done. cbn [gobind]. u64_simp. unfold uncommitted. zif.
  - unfold a_slice. replace (Z.to_nat _) with 0%nat by lia. done.
  - destruct (slice_in_range (r_raftLog r) (l_committed (r_raftLog r) + 1) (last_of r + 1) noLimit) as (ents & -> & _ & _ & He); [done|lia..|].
    by rewrite He.
Qed.

(** [reset] of the progress of one member. *)
Lemma reset_alone id (pr : Progress) last next sz :
  map_imap (fun i _ => Some (Progress_new (if i =? id then last else 0) next sz)) ({[id := pr]} : gmap Z Progress) = ({[id := Progress_new last next sz]} : gmap Z Progress).
Proof.
  apply map_eq. intros i. rewrite map_lookup_imap. destruct (decide (i = id)) as [->|Hne].
  - rewrite !lookup_singleton_eq. cbn. by rewrite Z.eqb_refl.
  - by rewrite !lookup_singleton_ne.
Qed.

(** The only member of the cluster, as leader, with nothing left to commit. *)
Record leads_alone r : Prop := {
  la_inv : raft_inv r;
  la_state : r_state r = StateLeader;
  la_member : only_member r;
  la_committed : l_committed (r_raftLog r) = last_of r
}.

Lemma becomeLeader_alone r : raft_inv r -> r_state r = StateCandidate -> (exists pr, r_prs r = {[r_id r := pr]}) ->
  (conf_changes (uncommitted r) <= 1)%nat -> last_of r + 1 < MaxUint64 ->
  exists r', becomeLeader r = Ok r' /\ leads_alone r' /\ r_Term r' = r_Term r /\
    log_abs (r_raftLog r') = a_append (log_abs (r_raftLog r)) (stamp (r_Term r) (last_of r) [Entry0]).
Proof.
  intros Hr Hs (pr & Hp) Hconf Hmax. pose proof (ri_log r Hr) as [Hinv _]. unfold becomeLeader. rewrite Hs. cbn [bool_decide].
  rewrite bool_decide_false by done. pose proof (reset_eq (r <| r_step := f_stepLeader |>) (r_Term r)) as Hreset. cbv zeta in Hreset. specialize (Hreset Hinv).
  pose proof (becomeLeader_inv r _ Hr Hs Hreset) as Hr1. gorun Hreset. set (r1 := leading _ _) in Hr1.
  pose proof (entries_uncommitted r1 Hr1) as Hents. gorun Hents. change (uncommitted r1) with (uncommitted r).
  destruct (scan_conf_ok (uncommitted r) false) as [pending Hpending]; [lia|]. gorun Hpending.
  destruct (appendEntry_alone (r1 <| r_pendingConf := pending |>) [Entry0]) as (r' & Hrun & Hr' & Hs' & _ & Ht & Hm & Habs & Hlast & Hc);
    [by apply inv_pendingConf|done| |done|exact Hmax|].
  - exists (Progress_new (last_of r) (last_of r ⊞ 1) (r_maxInflight r)). split; [|done].
    etrans; [|apply (reset_alone (r_id r) pr)]. by rewrite <- Hp.
  - exists r'. split_and!; [exact Hrun|by constructor|exact Ht|exact Habs].
Qed.

Section ticks.
  Context (range : gmap Z Progress -> list Z) (Hrange : forall prs i, i ∈ range prs -> is_Some (prs !! i)).

(** What a node needs to be elected alone. *)
Record can_lead r : Prop := {
  cl_inv : raft_inv r;
  cl_state : r_state r <> StateLeader;
  cl_member : exists pr, r_prs r = {[r_id r := pr]};
  cl_conf : (conf_changes (uncommitted r) <= 1)%nat;
  cl_room : r_Term r < MaxUint64 /\ last_of r + 1 < MaxUint64
}.

Definition elected r r' : Prop := leads_alone r' /\ r_Term r' = r_Term r + 1 /\
  log_abs (r_raftLog r') = a_append (log_abs (r_raftLog r)) (stamp (r_Term r + 1) (last_of r) [Entry0]).

Lemma campaign_alone r : can_lead r -> exists r', campaign range r = Ok r' /\ elected r r'.
Proof.
  intros [Hr Hs (pr & Hp) Hconf [Ht Hmax]]. pose proof (ri_log r Hr) as [Hinv _]. destruct (ri_term r Hr) as [Ht0 _].
  assert (exists r0, becomeCandidate r = Ok r0 /\ r_prs r0 = {[r_id r := Progress_new (last_of r) (last_of r ⊞ 1) (r_maxInflight r)]} /\
    r_votes r0 = ∅ /\ r_raftLog r0 = r_raftLog r /\ r_id r0 = r_id r /\ r_Term r0 = r_Term r + 1) as (r0 & H0' & Hp0 & Hv0 & Hl0 & Hid0 & Ht0').
  { unfold becomeCandidate. rewrite bool_decide_false by done. pose proof (reset_eq (r <| r_step := f_stepCandidate |>) (r_Term r ⊞ 1)) as Hreset. cbv zeta in Hreset. specialize (Hreset Hinv).
    gorun Hreset. eexists. split; [done|]. split_and!; try done.
    - etrans; [|apply (reset_alone (r_id r) pr)]. by rewrite <- Hp.
    - cbn. u64_simp. done. }
  unfold campaign. rewrite H0'. cbn [gobind]. destruct (campaign_abs r r0 Hr Ht H0') as (_ & Hr1 & Hs1 & Hid1 & _).
  assert (snd (poll r0 (r_id r0) true) = 1) as Hg.
  { unfold poll. rewrite Hv0, lookup_empty. cbn [snd]. rewrite insert_empty, map_filter_singleton. case_decide; [|done]. by rewrite map_size_singleton. }
  assert (r_prs (fst (poll r0 (r_id r0) true)) = r_prs r0 /\ r_raftLog (fst (poll r0 (r_id r0) true)) = r_raftLog r0 /\
    r_Term (fst (poll r0 (r_id r0) true)) = r_Term r0) as (Hp1 & Hl1 & Ht1) by done.
  destruct (poll r0 (r_id r0) true) as [r1 gr]. cbn [fst snd] in *. subst gr.
  destruct (quorum_alone r1 (Progress_new (last_of r) (last_of r ⊞ 1) (r_maxInflight r))) as [-> _]; [by rewrite Hp1, Hp0, Hid1|]. cbn [Z.eqb].
  destruct (becomeLeader_alone r1) as (r' & Hrun & Hlead & Ht' & Habs).
  - done.
  - done.
  - rewrite Hp1, Hp0, Hid1. eauto.
  - unfold uncommitted. by rewrite Hl1, Hl0.
  - by rewrite Hl1, Hl0.
  - exists r'. split; [exact Hrun|]. split; [done|]. rewrite Ht', Ht1, Ht0', Habs, Hl1, Hl0. split; [done|]. by rewrite Ht1, Ht0'.
Qed.
Lemma can_lead_elapsed r e : can_lead r -> can_lead (r <| r_electionElapsed := e |>).
Proof. intros [Hr Hs Hp Hc Hm]. constructor; try done. destruct Hr. by constructor. Qed.

(** One tick: the node is elected, or waits on. *)
Lemma tick_alone r draw : can_lead r -> 0 < r_electionTimeout r -> 0 <= r_electionElapsed r -> 0 <= draw ->
  (exists r', tick range r draw = Ok r' /\ elected r r') \/
  (tick range r draw = Ok (r <| r_electionElapsed := r_electionElapsed r + 1 |>) /\ r_electionElapsed r + 1 < 2 * r_electionTimeout r).
Proof.
  intros Hcl Hto Hel Hd. pose proof (cl_state _ Hcl) as Hs. unfold tick. rewrite (ri_tick r (cl_inv _ Hcl)).
  assert (tick_of (r_state r) = f_tickElection) as -> by (by destruct (r_state r)). unfold tickElection.
  assert (promotable r = true) as ->.
  { apply bool_decide_true. destruct (cl_member _ Hcl) as [pr ->]. by rewrite lookup_singleton_eq. }
  cbn [negb]. assert (0 <= Z.rem draw (r_electionTimeout r) < r_electionTimeout r) as Hrem by (by apply Z.rem_bound_pos).
  assert (isElectionTimeout (r <| r_electionElapsed := r_electionElapsed r + 1 |>) draw =
    Ok (r_electionElapsed r + 1 - r_electionTimeout r >? Z.rem draw (r_electionTimeout r))) as Htime.
  { unfold isElectionTimeout. cbn. zif; [|zif; [lia|done]]. f_equal. symmetry. rewrite Z.gtb_ltb. apply Z.ltb_ge. lia. }
  gorun Htime. zif.
  - left. unfold Step. rewrite bool_decide_true, bool_decide_false by done. cbn [negb].
    destruct (campaign_alone _ (can_lead_elapsed r 0 Hcl)) as (r' & Hrun & He). exists r'. split; [exact Hrun|exact He].
  - right. split; [done|lia].
Qed.

Lemma ticks_alone draws r : can_lead r -> 0 < r_electionTimeout r -> 0 <= r_electionElapsed r -> Forall (fun d => 0 <= d) draws ->
  2 * r_electionTimeout r <= r_electionElapsed r + zlen draws -> 0 < zlen draws ->
  exists k r', (k <= length draws)%nat /\ foldM (tick range) (take k draws) r = Ok r' /\ elected r r'.
Proof.
  revert r. induction draws as [|d draws IH]; intros r Hcl Hto Hel Hd Hlen Hpos; [done|]. apply Forall_cons in Hd as [Hd0 Hd].
  destruct (tick_alone r d Hcl Hto Hel Hd0) as [(r' & Hrun & He)|[Hrun Hlt]].
  - exists 1%nat, r'. split; [cbn; lia|]. split; [|done]. cbn. rewrite take_0. cbn. by rewrite Hrun.
  - cbn [length] in Hlen. destruct (IH (r <| r_electionElapsed := r_electionElapsed r + 1 |>)) as (k & r' & Hk & Hrun' & He);
      [by apply can_lead_elapsed|done|cbn; lia|done|cbn; lia|lia|].
    exists (S k), r'. split; [cbn; lia|]. split; [|exact He]. cbn [take foldM]. rewrite Hrun. exact Hrun'.
Qed.

(** A proposal to the node that leads alone. *)
Definition proposed r m : list Entry := (propose_conf (mEntries m) (r_pendingConf r)).1.

Lemma propose_alone r m : leads_alone r -> mType m = MsgProp -> mTerm m = 0 -> mEntries m <> [] -> last_of r + zlen (mEntries m) < MaxUint64 ->
  exists r', Step range r m = Ok r' /\ leads_alone r' /\ r_Term r' = r_Term r /\
    log_abs (r_raftLog r') = a_append (log_abs (r_raftLog r)) (stamp (r_Term r) (last_of r) (proposed r m)).
Proof.
  intros [Hr Hs Hm Hc] Ety Et Hne Hmax. unfold Step. rewrite Ety, Et. cbn [bool_decide]. rewrite bool_decide_false by done. cbn [Z.eqb].
  unfold call_step. rewrite (ri_step r Hr), Hs. cbn [step_of]. unfold stepLeader. rewrite Ety. unfold stepLeader_prop.
  zif; [destruct (mEntries m); cbn in *; [done|lia]|]. destruct Hm as (pr & Hp & Hm). rewrite Hp, lookup_singleton_eq.
  pose proof (propose_conf_length (mEntries m) (r_pendingConf r)) as Hlen. unfold proposed. destruct (propose_conf _ _) as [es p]. cbn [fst] in *.
  destruct (appendEntry_alone (r <| r_pendingConf := p |>) es) as (r' & Hrun & Hr' & Hs' & _ & Ht & Hm' & Habs & Hlast & Hc').
  - by apply inv_pendingConf.
  - done.
  - by exists pr.
  - destruct es, (mEntries m); done.
  - by rewrite Hlen.
  - exists r'. rewrite Hrun. cbn [gobind]. unfold bcastAppend. rewrite (others_alone range r' Hrange Hm'). cbn [foldM]. split_and!; [done|by constructor|exact Ht|exact Habs].
Qed.

(** C11. The only member of a cluster makes progress on its own.  Whatever its
    clock draws, it is the leader of the next term within two election timeouts
    of ticks, with the log it had and an entry of its own all committed; and
    from then on each proposal is appended and committed in the step that
    handles it.  Not more than one configuration change may be uncommitted in
    its log, for which [becomeLeader] panics. *)
Theorem lone_member_progress r draws :
  raft_inv r -> r_state r <> StateLeader -> (exists pr, r_prs r = {[r_id r := pr]}) -> (conf_changes (uncommitted r) <= 1)%nat ->
  headroom r Message0 -> 0 < r_electionTimeout r -> 0 <= r_electionElapsed r ->
  Forall (fun d => 0 <= d) draws -> zlen draws = 2 * r_electionTimeout r ->
  exists k r', (k <= length draws)%nat /\ foldM (tick range) (take k draws) r = Ok r' /\ r_Term r' = r_Term r + 1 /\
    log_abs (r_raftLog r') = a_append (log_abs (r_raftLog r)) (stamp (r_Term r') (last_of r) [Entry0]) /\ leads_alone r' /\
    forall r1 m, leads_alone r1 -> mType m = MsgProp -> mTerm m = 0 -> mEntries m <> [] -> room r1 (zlen (mEntries m)) ->
      exists r2, Step range r1 m = Ok r2 /\ leads_alone r2 /\ r_Term r2 = r_Term r1 /\
        log_abs (r_raftLog r2) = a_append (log_abs (r_raftLog r1)) (stamp (r_Term r1) (last_of r1) (proposed r1 m)).
Proof.
  intros Hr Hs Hp Hconf [Ht Hroom] Hto Hel Hd Hlen.
  destruct (ticks_alone draws r) as (k & r' & Hk & Hrun & Hlead & Ht' & Habs); [by constructor|done..|lia|lia|].
  exists k, r'. split_and!; [done|done|done|by rewrite Ht'|done|]. intros r1 m. apply propose_alone.
Qed.
End ticks.
End alone.
