(* ===== verification/RaftFrame.v ===== *)
(** * What handling a message leaves alone

    [Step] and [tick] of [src/raft/raft.go] never touch the storage nor the
    applied index, never lower the commit index, and replace the incoming
    snapshot only by one above the commit index: these belong to the
    application, which moves them with [Advance] ([RawNode]). *)

From S2P Require Import Prelude RaftPB Storage Unstable RaftLog Progress Raft RaftSpec Quorum RaftRefine RaftStep.

Section frame.
  Context {St : Type} `{Storage St}.
  Implicit Types (l : raftLog St) (r : raft St) (m : Message).

Record lframe l l' : Prop := {
  lf_applied : l_applied l' = l_applied l;
  lf_storage : l_storage l' = l_storage l;
  lf_committed : l_committed l <= l_committed l';
  lf_snapshot : u_snapshot (l_unstable l') = u_snapshot (l_unstable l) \/
    exists s, u_snapshot (l_unstable l') = Some s /\ l_committed l < smIndex (sMetadata s)
}.

#[export] Instance lframe_preorder : PreOrder lframe.
Proof.
  split.
  - intros l. constructor; try done. by left.
  - intros l1 l2 l3 [A1 S1 C1 U1] [A2 S2 C2 U2]. constructor; [congruence..|lia|].
    destruct U2 as [U2|(s & U2 & Hs)]; [|right; exists s; split; [done|lia]].
    rewrite U2. destruct U1 as [U1|(s & U1 & Hs)]; [by left|by right; exists s].
Qed.

Lemma commitTo_frame l c l' : commitTo l c = Ok l' -> lframe l l'.
Proof.
  unfold commitTo. intros Ho. zif in Ho; [|by injection Ho as <-]. inv_ok. zif in Ho; [done|]. inv_ok.
  constructor; cbn; try done; [lia|by left].
Qed.

Lemma append_frame l es l' i : append l es = Ok (l', i) -> lframe l l'.
Proof.
  unfold append. intros Ho. zif in Ho; inv_ok; [done|]. zif in Ho; [done|]. inv_ok.
  match goal with Ht : truncateAndAppend _ _ = Ok _ |- _ => apply truncateAndAppend_snapshot in Ht as Hs end.
  constructor; cbn; try done. by left.
Qed.

Lemma maybeAppend_frame l i t c es l' res : maybeAppend l i t c es = Ok (l', res) -> lframe l l'.
Proof.
  unfold maybeAppend. intros Ho. inv_ok. zif in Ho; [|by inv_ok]. inv_ok.
  match goal with Hc : commitTo ?l1 _ = Ok _, Hx : _ = Ok ?l1 |- _ =>
    apply commitTo_frame in Hc; etrans; [|exact Hc]; clear Hc; rename Hx into Hl end.
  zif in Hl; [by injection Hl as <-|]. zif in Hl; [done|]. inv_ok. by eapply append_frame.
Qed.

Lemma log_maybeCommit_frame l i t l' b : RaftLog.maybeCommit l i t = Ok (l', b) -> lframe l l'.
Proof.
  unfold RaftLog.maybeCommit. intros Ho. zif in Ho; [|by inv_ok]. inv_ok. zif in Ho; inv_ok; [|done].
  by eapply commitTo_frame.
Qed.

Lemma log_restore_frame l s : l_committed l < smIndex (sMetadata s) -> lframe l (RaftLog.restore l s).
Proof. intros Hs. constructor; cbn; try done; [lia|]. right. by exists s. Qed.

(** ** The node *)

Definition frame r r' : Prop := lframe (r_raftLog r) (r_raftLog r').

#[export] Instance frame_preorder : PreOrder frame.
Proof. unfold frame. split; [by intros r|]. intros r1 r2 r3 H1 H2. by etrans. Qed.

(** A step that leaves the log alone. *)
Lemma frame_same r r' : r_raftLog r' = r_raftLog r -> frame r r'.
Proof. unfold frame. by intros ->. Qed.

Lemma foldM_frame {A} (f : raft St -> A -> outcome (raft St)) xs r r' :
  (forall r x r', f r x = Ok r' -> frame r r') -> foldM f xs r = Ok r' -> frame r r'.
Proof.
  intros Hf. revert r. induction xs as [|x xs IH]; cbn; intros r Ho; inv_ok; [done|].
  etrans; [by eapply Hf|by apply IH].
Qed.

Lemma sendAppend_snapshot_frame r to pr r' : sendAppend_snapshot r to pr = Ok r' -> frame r r'.
Proof.
  unfold sendAppend_snapshot. intros Hs. zif in Hs; [|by inv_ok]. apply bind_Ok_inv in Hs as ([sn err] & _ & Hs).
  destruct err as [[]|]; try (by inv_ok). zif in Hs; [done|]. inv_ok. by apply frame_same.
Qed.

Lemma sendAppend_entries_frame r to pr t ents r' : sendAppend_entries r to pr t ents = Ok r' -> frame r r'.
Proof.
  unfold sendAppend_entries. intros Ho. apply bind_Ok_inv in Ho as (r1 & Hr & Ho). injection Ho as <-.
  zif in Hr; [inv_ok; by apply frame_same|]. destruct (pr_State pr); inv_ok; by apply frame_same.
Qed.

Lemma sendAppend_frame r to r' : sendAppend r to = Ok r' -> frame r r'.
Proof.
  unfold sendAppend. intros Ho. apply bind_Ok_inv in Ho as (pr & _ & Ho). zif in Ho; [by inv_ok|].
  apply bind_Ok_inv in Ho as ([t errt] & _ & Ho). apply bind_Ok_inv in Ho as ([ents erre] & _ & Ho).
  destruct errt, erre; first [by eapply sendAppend_snapshot_frame|by eapply sendAppend_entries_frame].
Qed.

Lemma bcastAppend_frame range r r' : bcastAppend range r = Ok r' -> frame r r'.
Proof. apply foldM_frame. intros. by eapply sendAppend_frame. Qed.

Lemma sendHeartbeat_frame r to r' : sendHeartbeat r to = Ok r' -> frame r r'.
Proof. unfold sendHeartbeat. intros Ho. inv_ok. by apply frame_same. Qed.

Lemma bcastHeartbeat_frame range r r' : bcastHeartbeat range r = Ok r' -> frame r r'.
Proof.
  apply foldM_frame. intros r1 x r2 Ho. inv_ok.
  match goal with Hs : sendHeartbeat _ _ = Ok _ |- _ => apply sendHeartbeat_frame in Hs; etrans; [exact Hs|] end.
  by apply frame_same.
Qed.

Lemma maybeCommit_frame r r' b : maybeCommit r = Ok (r', b) -> frame r r'.
Proof. unfold maybeCommit. intros Ho. inv_ok. by eapply log_maybeCommit_frame. Qed.

Lemma reset_log r t r' : reset r t = Ok r' -> r_raftLog r' = r_raftLog r.
Proof.
  unfold reset. intros Ho. apply bind_Ok_inv in Ho as (r1 & H1 & Ho). injection Ho as <-. cbn.
  zif in H1; inv_ok; by zif.
Qed.

Lemma reset_frame r t r' : reset r t = Ok r' -> frame r r'.
Proof. intros Ho%reset_log. by apply frame_same. Qed.

Lemma becomeFollower_log r t lead r' : becomeFollower r t lead = Ok r' -> r_raftLog r' = r_raftLog r.
Proof. unfold becomeFollower. intros Ho. apply bind_Ok_inv in Ho as (r1 & Hr%reset_log & Ho). injection Ho as <-. exact Hr. Qed.

Lemma becomeFollower_frame r t lead r' : becomeFollower r t lead = Ok r' -> frame r r'.
Proof. intros Ho%becomeFollower_log. by apply frame_same. Qed.

Lemma becomeCandidate_frame r r' : becomeCandidate r = Ok r' -> frame r r'.
Proof.
  unfold becomeCandidate. intros Ho. zif in Ho; [done|].
  apply bind_Ok_inv in Ho as (r1 & Hr%reset_frame & Ho). injection Ho as <-. exact Hr.
Qed.

Lemma appendEntry_frame r es r' : appendEntry r es = Ok r' -> frame r r'.
Proof.
  unfold appendEntry. intros Ho. apply bind_Ok_inv in Ho as (li & _ & Ho).
  apply bind_Ok_inv in Ho as ([l i] & Ha%append_frame & Ho). do 2 apply bind_Ok_inv in Ho as (? & _ & Ho).
  apply bind_Ok_inv in Ho as ([r1 b] & Hc%maybeCommit_frame & Ho). injection Ho as <-.
  unfold frame in *. etrans; [exact Ha|exact Hc].
Qed.

Lemma becomeLeader_frame r r' : becomeLeader r = Ok r' -> frame r r'.
Proof.
  unfold becomeLeader. intros Ho. zif in Ho; [done|]. apply bind_Ok_inv in Ho as (r1 & Hr%reset_frame & Ho).
  apply bind_Ok_inv in Ho as ([ents err] & _ & Ho). destruct err; [done|].
  apply bind_Ok_inv in Ho as (p & _ & Ho%appendEntry_frame). etrans; [exact Hr|exact Ho].
Qed.

Lemma poll_frame r id v : frame r (poll r id v).1.
Proof. by apply frame_same. Qed.

Lemma campaign_frame range r r' : campaign range r = Ok r' -> frame r r'.
Proof.
  unfold campaign. intros Ho. apply bind_Ok_inv in Ho as (r1 & Hr%becomeCandidate_frame & Ho). etrans; [exact Hr|].
  pose proof (poll_frame r1 (r_id r1) true) as Hp. destruct (poll _ _ _) as [r2 g]. etrans; [exact Hp|].
  zif in Ho; [by apply becomeLeader_frame|]. revert Ho. apply foldM_frame. intros. inv_ok. by apply frame_same.
Qed.

Lemma handleAppendEntries_frame r m r' : handleAppendEntries r m = Ok r' -> frame r r'.
Proof.
  unfold handleAppendEntries. intros Ho. zif in Ho; [inv_ok; by apply frame_same|].
  apply bind_Ok_inv in Ho as ([l res] & Hm%maybeAppend_frame & Ho). destruct res; inv_ok; exact Hm.
Qed.

Lemma handleHeartbeat_frame r m r' : handleHeartbeat r m = Ok r' -> frame r r'.
Proof. unfold handleHeartbeat. intros Ho. apply bind_Ok_inv in Ho as (l & Hl%commitTo_frame & Ho). by inv_ok. Qed.

Lemma restore_frame r s r' b : restore r s = Ok (r', b) -> frame r r'.
Proof.
  unfold restore. intros Ho. zif in Ho; [by inv_ok|]. do 2 apply bind_Ok_inv in Ho as (? & _ & Ho). zif in Ho.
  - apply bind_Ok_inv in Ho as (l & Hl%commitTo_frame & Ho). by inv_ok.
  - apply bind_Ok_inv in Ho as (r1 & Hf & Ho). injection Ho as <- <-.
    apply foldM_frame in Hf; [|intros; inv_ok; by apply frame_same].
    etrans; [|exact Hf]. by apply log_restore_frame.
Qed.

Lemma handleSnapshot_frame r m r' : handleSnapshot r m = Ok r' -> frame r r'.
Proof.
  unfold handleSnapshot. intros Ho. apply bind_Ok_inv in Ho as ([r1 b] & Hr%restore_frame & Ho).
  destruct b; inv_ok; exact Hr.
Qed.

Lemma rejectVote_frame r m r' : rejectVote r m = Ok r' -> frame r r'.
Proof. unfold rejectVote. intros Ho. inv_ok. by apply frame_same. Qed.

Lemma stepFollower_frame r m r' : stepFollower r m = Ok r' -> frame r r'.
Proof.
  unfold stepFollower. intros Ho. destruct (mType m); try (inv_ok; by apply frame_same).
  - zif in Ho; inv_ok; by apply frame_same.
  - by apply handleAppendEntries_frame in Ho.
  - apply bind_Ok_inv in Ho as (g & _ & Ho). destruct g; [inv_ok; by apply frame_same|by apply rejectVote_frame in Ho].
  - by apply handleSnapshot_frame in Ho.
  - by apply handleHeartbeat_frame in Ho.
Qed.

Lemma stepCandidate_frame range r m r' : stepCandidate range r m = Ok r' -> frame r r'.
Proof.
  unfold stepCandidate. intros Ho. destruct (mType m); try (inv_ok; by apply frame_same).
  - apply bind_Ok_inv in Ho as (r1 & Hr%becomeFollower_frame & Ho%handleAppendEntries_frame). by etrans.
  - by apply rejectVote_frame in Ho.
  - pose proof (poll_frame r (mFrom m) (negb (mReject m))) as Hp. destruct (poll _ _ _) as [r2 g]. etrans; [exact Hp|].
    zif in Ho; [apply bind_Ok_inv in Ho as (r1 & Hr%becomeLeader_frame & Ho%bcastAppend_frame); by etrans|].
    zif in Ho; [by apply becomeFollower_frame in Ho|by inv_ok].
  - apply bind_Ok_inv in Ho as (r1 & Hr%becomeFollower_frame & Ho%handleSnapshot_frame). by etrans.
  - apply bind_Ok_inv in Ho as (r1 & Hr%becomeFollower_frame & Ho%handleHeartbeat_frame). by etrans.
Qed.

Lemma stepLeader_prop_frame range r m r' : stepLeader_prop range r m = Ok r' -> frame r r'.
Proof.
  unfold stepLeader_prop. intros Ho. zif in Ho; [done|]. destruct (r_prs r !! r_id r) as [pr|]; [|by inv_ok].
  destruct (propose_conf _ _) as [es p]. apply bind_Ok_inv in Ho as (r1 & Ha%appendEntry_frame & Ho%bcastAppend_frame).
  etrans; [exact Ha|exact Ho].
Qed.

Lemma stepLeader_accept_frame range r m pr r' : stepLeader_accept range r m pr = Ok r' -> frame r r'.
Proof.
  unfold stepLeader_accept. intros Ho. destruct (maybeUpdate _ _) as [pr' u]. destruct u; [|inv_ok; by apply frame_same].
  apply bind_Ok_inv in Ho as (pr2 & _ & Ho). apply bind_Ok_inv in Ho as ([r1 b] & Hc%maybeCommit_frame & Ho).
  etrans; [exact Hc|]. destruct b; [by apply bcastAppend_frame in Ho|]. zif in Ho; [by apply sendAppend_frame in Ho|by inv_ok].
Qed.

Lemma stepLeader_frame range r m r' : stepLeader range r m = Ok r' -> frame r r'.
Proof.
  unfold stepLeader. intros Ho.
  destruct (mType m); try (destruct (r_prs r !! mFrom m) as [pr|]; [|by inv_ok]); try (inv_ok; by apply frame_same).
  - by apply bcastHeartbeat_frame in Ho.
  - by apply stepLeader_prop_frame in Ho.
  - zif in Ho; [|by apply stepLeader_accept_frame in Ho]. unfold stepLeader_reject in Ho.
    destruct (maybeDecrTo _ _ _) as [pr' b]. destruct b; [|inv_ok; by apply frame_same].
    apply sendAppend_frame in Ho. exact Ho.
  - by apply rejectVote_frame in Ho.
  - unfold stepLeader_heartbeatResp in Ho. do 2 apply bind_Ok_inv in Ho as (? & _ & Ho).
    zif in Ho; [apply sendAppend_frame in Ho; exact Ho|inv_ok; by apply frame_same].
  - zif in Ho; inv_ok; by apply frame_same.
  - unfold stepLeader_snapStatus in Ho. zif in Ho; inv_ok; by apply frame_same.
  - destruct (checkQuorumActive r) as [r1 b] eqn:E. assert (frame r r1) as Hf by (injection E as <- _; by apply frame_same).
    etrans; [exact Hf|]. zif in Ho; [by inv_ok|by apply becomeFollower_frame in Ho].
Qed.

Lemma call_step_frame range r m r' : call_step range r m = Ok r' -> frame r r'.
Proof.
  unfold call_step. destruct (r_step r).
  - apply stepFollower_frame.
  - apply stepCandidate_frame.
  - apply stepLeader_frame.
Qed.

Lemma Step_frame range r m r' : Step range r m = Ok r' -> frame r r'.
Proof.
  unfold Step. intros Ho. zif in Ho; [zif in Ho; [by inv_ok|by apply campaign_frame in Ho]|].
  zif in Ho; [by apply call_step_frame in Ho|]. zif in Ho.
  - apply bind_Ok_inv in Ho as (r1 & Hr%becomeFollower_frame & Ho%call_step_frame). by etrans.
  - zif in Ho; [by inv_ok|by apply call_step_frame in Ho].
Qed.

Lemma tick_frame range r draw r' : tick range r draw = Ok r' -> frame r r'.
Proof.
  unfold tick. destruct (r_tick r).
  - unfold tickElection. intros Ho. zif in Ho; [|inv_ok; by apply frame_same].
    apply bind_Ok_inv in Ho as (b & _ & Ho). destruct b; [|inv_ok; by apply frame_same].
    apply Step_frame in Ho. exact Ho.
  - unfold tickHeartbeat. intros Ho. apply bind_Ok_inv in Ho as (r1 & H1 & Ho).
    assert (frame r r1) as Hf.
    { zif in H1; [|inv_ok; by apply frame_same]. zif in H1; [|inv_ok; by apply frame_same].
      apply Step_frame in H1. exact H1. }
    etrans; [exact Hf|]. zif in Ho; [|by inv_ok]. zif in Ho; [|by inv_ok]. apply Step_frame in Ho. exact Ho.
Qed.
End frame.
