(* ===== verification/RaftProps.v ===== *)
(** * What holds of one node, whatever it is sent

    Properties of [astep], carried over to [Step] of [src/raft/raft.go] by
    the refinement: terms and votes, the commit index, the leader's log. *)

From S2P Require Import Prelude RaftPB Storage Unstable RaftLog Progress Raft RaftSpec Quorum RaftRefine RaftStep.

(** ** Terms and votes *)

(** The order on (term, vote) that a node may only climb. *)
Definition ballot_le (t v t' v' : Z) : Prop := t < t' \/ (t = t' /\ (v = 0 \/ v' = v)).

Lemma ballot_le_refl t v : ballot_le t v t v.
Proof. unfold ballot_le. auto. Qed.

Lemma ballot_le_trans t1 v1 t2 v2 t3 v3 :
  ballot_le t1 v1 t2 v2 -> ballot_le t2 v2 t3 v3 -> ballot_le t1 v1 t3 v3.
Proof. unfold ballot_le. intros. lia. Qed.

Lemma astep_ballot m n n' : astep m n n' -> ballot_le (n_term n) (n_vote n) (n_term n') (n_vote n').
Proof. unfold ballot_le. intros Hs. destruct Hs; cbn; try lia. Qed.

Lemma asteps_ballot m n n' : asteps m n n' -> ballot_le (n_term n) (n_vote n) (n_term n') (n_vote n').
Proof.
  induction 1 as [|n1 n2 n3 H1 _ IH]; [apply ballot_le_refl|].
  eapply ballot_le_trans; [by eapply astep_ballot|done].
Qed.

(** ** The log and the commit index *)

Definition node_ok (n : anode) : Prop :=
  alog_wf (n_log n) /\ a_off (n_log n) <= n_commit n <= a_last (n_log n).

(** The first index and the commit index only grow, and what is committed and
    still held stays. *)
Definition keeps (n n' : anode) : Prop :=
  a_off (n_log n) <= a_off (n_log n') /\ n_commit n <= n_commit n' /\
  forall i, a_off (n_log n') < i <= n_commit n -> a_entry (n_log n') i = a_entry (n_log n) i.

Lemma keeps_refl n : keeps n n.
Proof. split_and!; try done; lia. Qed.

Lemma keeps_trans n1 n2 n3 : keeps n1 n2 -> keeps n2 n3 -> keeps n1 n3.
Proof.
  intros (O1 & C1 & E1) (O2 & C2 & E2). split_and!; [lia|lia|]. intros i Hi. rewrite E2, E1; [done|lia..].
Qed.

(** Same log, a commit index inside it. *)
Lemma keeps_commit n n' : n_log n' = n_log n -> n_commit n <= n_commit n' <= a_last (n_log n) ->
  node_ok n -> node_ok n' /\ keeps n n'.
Proof.
  intros Hl Hc [Hwf Hr]. unfold node_ok, keeps. rewrite Hl. split_and!; try done; lia.
Qed.

Lemma a_append_end (a : alog) es :
  alog_wf a -> es <> [] -> contiguous (a_last a + 1) es -> a_last a + zlen es < MaxUint64 ->
  alog_wf (a_append a es) /\ a_off (a_append a es) = a_off a /\
  a_last (a_append a es) = a_last a + zlen es /\
  forall i, i <= a_last a -> a_entry (a_append a es) i = a_entry a i.
Proof.
  intros Hwf Hne Hc Hmax. pose proof Hwf as (Ho & Hm & _).
  assert (a_off a <= a_last a) by (unfold a_last; lia).
  assert (Hlast : a_last (a_append a es) = a_last a + zlen es).
  { rewrite (a_last_append a es (a_last a + 1)) by (done || lia). lia. }
  split_and!; [|apply a_off_append|done|].
  - apply (a_append_wf a es (a_last a + 1)); try done; lia.
  - intros i Hi. rewrite (a_entry_append a es i (a_last a + 1)) by (done || lia). zif; [done|lia].
Qed.

Section accept.
  Context (m : Message) (n : anode) (a' : alog).
  Context (Hm : msg_ok m) (Ety : mType m = MsgApp) (Hok : node_ok n) (Hi : n_commit n <= mIndex m).
  Context (Hmt : default 0 (a_term (n_log n) (mIndex m)) = mLogTerm m).
  Context (Hf : Forall (fun e => eIndex e <= n_commit n -> agrees (n_log n) e = true) (mEntries m)).
  Context (Happ : appended (n_log n) (mEntries m) a').

(** A follower overwrites only what is not committed. *)
Lemma accept_keeps :
  alog_wf a' /\ a_off a' = a_off (n_log n) /\ n_commit n <= a_last a' /\
  forall i, i <= n_commit n -> a_entry a' i = a_entry (n_log n) i.
Proof.
  destruct Hm as [_ Hm']. rewrite Ety in Hm'. destruct Hm' as (_ & Hi0 & Hc & Ht & Hmax & Hz).
  pose proof Hok as [Hwf Hr]. pose proof Hwf as (Ho & _ & _).
  destruct Happ as [[_ ->]|(pre & e & post & Heq & Hp & Hd & ->)]; [split_and!; try done; lia|].
  assert (Hin : mIndex m <= a_last (n_log n)).
  { destruct Hz as [Hz|[Hz|Hz]]; [by rewrite Hz in Heq; destruct pre|unfold a_last in *; lia|].
    destruct (a_term (n_log n) (mIndex m)) eqn:E; cbn in Hmt; [|lia].
    pose proof (mk_is_Some _ _ E) as Hs. apply a_term_is_Some in Hs. lia. }
  pose proof (appended_conflict (n_log n) (mIndex m + 1) (mEntries m) Hc) as Hconf.
  destruct (Hconf ltac:(lia) Ht pre e post Heq Hp) as [Hce He].
  assert (Hgt : n_commit n < eIndex e).
  { rewrite Heq, Forall_app, Forall_cons in Hf. destruct Hf as (_ & Hfe & _).
    destruct (Z.le_gt_cases (eIndex e) (n_commit n)) as [Hle|]; [|done]. rewrite Hfe in Hd by done. done. }
  assert (Hei : eIndex e = mIndex m + 1 + zlen pre).
  { rewrite Heq, contiguous_app in Hc. destruct Hc as [_ Hc2]. by apply contiguous_head in Hc2. }
  rewrite Heq, length_app in Hmax. cbn [length] in Hmax.
  assert (Hwf' : alog_wf (a_append (n_log n) (e :: post))).
  { apply (a_append_wf _ _ (eIndex e)); try done. cbn [length]. lia. }
  split_and!; [done|apply a_off_append| |].
  - rewrite (a_last_append _ _ (eIndex e)) by done. cbn [length]. lia.
  - intros i Hle. rewrite (a_entry_append _ _ _ (eIndex e)) by done. zif; [done|lia].
Qed.
End accept.

Lemma astep_keeps m n n' : msg_ok m -> node_ok n -> astep m n n' -> node_ok n' /\ keeps n n'.
Proof.
  intros Hm Hok Hs. pose proof Hok as [Hwf Hr]. destruct Hs;
    try (apply keeps_commit; cbn; [done|lia|done]).
  - destruct (a_append_end (n_log n) es) as (Hwf' & Hoff & Hla & He); try done.
    split; [split; cbn; [done|lia]|]. split_and!; cbn; [lia|lia|]. intros i Hi. apply He. lia.
  - apply keeps_commit; cbn; [done| |done].
    match goal with Ht : a_term _ i = Some _ |- _ => pose proof (mk_is_Some _ _ Ht) as Hin end.
    apply a_term_is_Some in Hin. lia.
  - edestruct (accept_keeps m n a') as (Hwf' & Hoff & Hla & He); try done. subst c'.
    split; [split; cbn; [done|lia]|]. split_and!; cbn; [lia|lia|]. intros i Hi. apply He. lia.
  - subst s. destruct Hm as [_ Hm]. match goal with E : mType m = MsgSnap |- _ => rewrite E in Hm end.
    destruct Hm as (_ & Hi & Hrange & _). split.
    + split; cbn; unfold alog_wf, a_last; cbn; [|lia]. split_and!; [lia|lia|apply contiguous_nil].
    + split_and!; cbn; [lia|lia|]. intros i Hi'. lia.
Qed.

Lemma asteps_keeps m n n' : msg_ok m -> node_ok n -> asteps m n n' -> node_ok n' /\ keeps n n'.
Proof.
  intros Hm Hok Hs. induction Hs as [|n1 n2 n3 H1 _ IH]; [split; [done|apply keeps_refl]|].
  destruct (astep_keeps _ _ _ Hm Hok H1) as [Hok2 K1]. destruct (IH Hok2) as [Hok3 K2].
  split; [done|by eapply keeps_trans].
Qed.

(** ** Leaders *)

(** Having left the role of leader, a node does not lead again in the term. *)
Definition not_leading (t : Z) (n : anode) : Prop :=
  t < n_term n \/ (n_term n = t /\ n_role n = StateFollower).

Lemma astep_not_leading m t n n' : not_leading t n -> astep m n n' -> not_leading t n'.
Proof.
  unfold not_leading. intros Hn Hs.
  destruct Hs; cbn; try done; try (intuition lia); destruct Hn as [?|[? Hf]]; try (by left; lia); try (right; by split); congruence.
Qed.

Lemma astep_leader m n n' : node_ok n -> n_role n = StateLeader -> astep m n n' ->
  not_leading (n_term n) n' \/
  (n_role n' = StateLeader /\ n_term n' = n_term n /\ a_off (n_log n') = a_off (n_log n) /\
   a_last (n_log n) <= a_last (n_log n') /\
   forall i, i <= a_last (n_log n) -> a_entry (n_log n') i = a_entry (n_log n) i).
Proof.
  intros [Hwf _] Hl Hs. destruct Hs; cbn; try congruence;
    try (by right; split_and!; try done; lia); try (by left; left; cbn; lia); try (by left; right).
  destruct (a_append_end (n_log n) es) as (Hwf' & Hoff & Hla & He); try done.
  right. split_and!; try done. lia.
Qed.

Lemma asteps_not_leading m t n n' : not_leading t n -> asteps m n n' -> not_leading t n'.
Proof. intros Hn Hs. induction Hs; [done|]. eauto using astep_not_leading. Qed.

Lemma asteps_leader m n n' : msg_ok m -> node_ok n -> n_role n = StateLeader -> asteps m n n' ->
  not_leading (n_term n) n' \/
  (n_role n' = StateLeader /\ n_term n' = n_term n /\ a_off (n_log n') = a_off (n_log n) /\
   a_last (n_log n) <= a_last (n_log n') /\
   forall i, i <= a_last (n_log n) -> a_entry (n_log n') i = a_entry (n_log n) i).
Proof.
  intros Hm Hok Hl Hs. induction Hs as [|n1 n2 n3 H1 H2 IH]; [by right; split_and!|].
  destruct (astep_leader _ _ _ Hok Hl H1) as [Hn|(Hl2 & Ht2 & Ho2 & Hla2 & He2)].
  { left. by eapply asteps_not_leading. }
  destruct (astep_keeps _ _ _ Hm Hok H1) as [Hok2 _].
  destruct (IH Hok2 Hl2) as [Hn|(Hl3 & Ht3 & Ho3 & Hla3 & He3)]; [left; by rewrite <- Ht2|].
  right. split_and!; try congruence; [lia|]. intros i Hi. rewrite He3, He2; [done|lia..].
Qed.

(** ** Roles *)

(** Without a campaign nobody comes to lead. *)
Lemma astep_role m n n' : mType m <> MsgHup -> astep m n n' -> n_role n <> StateCandidate ->
  n_role n' <> StateCandidate /\ (n_role n' = StateLeader -> n_role n = StateLeader /\ n_term n' = n_term n).
Proof. intros Hm Hs Hn. destruct Hs; cbn; try done; split; congruence. Qed.

Lemma asteps_role m n n' : mType m <> MsgHup -> asteps m n n' -> n_role n <> StateCandidate ->
  n_role n' <> StateCandidate /\ (n_role n' = StateLeader -> n_role n = StateLeader /\ n_term n' = n_term n).
Proof.
  intros Hm. induction 1 as [|n1 n2 n3 H1 _ IH]; intros Hn; [done|].
  destruct (astep_role m n1 n2 Hm H1 Hn) as [Hn2 Hl2]. destruct (IH Hn2) as [Hn3 Hl3]. split; [done|].
  intros Hl. destruct (Hl3 Hl) as [Hl' ->]. by apply Hl2.
Qed.

Section node_properties.
  Context {St : Type} `{StorageSpec St}.
  Context (range : gmap Z Progress -> list Z).
  Implicit Types (r : raft St) (m : Message).

Lemma abs_node_ok r : raft_inv r -> node_ok (abs r).
Proof. intros Hr. destruct (ri_log r Hr) as [Hinv [Hp _]]. split; [by apply log_abs_wf|done]. Qed.

(** C15. Handling a message never lowers the term, and within a term a vote,
    once given, is not given to another candidate. *)
Theorem Step_one_vote_per_term r m r' :
  raft_inv r -> msg_ok m -> headroom r m -> Step range r m = Ok r' ->
  r_Term r <= r_Term r' /\ (r_Term r' = r_Term r -> r_Vote r <> 0 -> r_Vote r' = r_Vote r).
Proof.
  intros Hr Hm Hh Ho. destruct (Step_sim range r m r' Hr Hm Hh Ho Hr) as [_ Hs].
  pose proof (asteps_ballot _ _ _ Hs) as Hb. unfold ballot_le in Hb. cbn in Hb. split; lia.
Qed.

(** C8. Handling a message never moves the commit index or the first index
    back and never changes an entry that was committed and is still in the
    log: whatever leader, election or snapshot is involved. *)
Theorem Step_commit_stable r m r' :
  raft_inv r -> msg_ok m -> headroom r m -> Step range r m = Ok r' ->
  let a := log_abs (r_raftLog r) in let a' := log_abs (r_raftLog r') in
  a_off a <= a_off a' /\ l_committed (r_raftLog r) <= l_committed (r_raftLog r') <= a_last a' /\
  forall i, a_off a' < i <= l_committed (r_raftLog r) -> a_entry a' i = a_entry a i.
Proof.
  intros Hr Hm Hh Ho. destruct (Step_sim range r m r' Hr Hm Hh Ho Hr) as [_ Hs].
  destruct (asteps_keeps _ _ _ Hm (abs_node_ok r Hr) Hs) as [[_ [_ ?]] (? & ? & ?)].
  cbn in *. by split_and!.
Qed.

(** C16. A leader that handles a message and still leads is in the term it was
    in and has only appended to its log: every entry it had stays where it
    was. *)
Theorem Step_leader_append_only r m r' :
  raft_inv r -> msg_ok m -> headroom r m -> Step range r m = Ok r' ->
  r_state r = StateLeader -> r_state r' = StateLeader ->
  let a := log_abs (r_raftLog r) in let a' := log_abs (r_raftLog r') in
  r_Term r' = r_Term r /\ a_off a' = a_off a /\ a_last a <= a_last a' /\
  forall i, i <= a_last a -> a_entry a' i = a_entry a i.
Proof.
  intros Hr Hm Hh Ho Hl Hl'. destruct (decide (mType m = MsgHup)) as [Ht|Ht].
  { unfold Step in Ho. rewrite Ht, Hl in Ho. by injection Ho as <-. }
  destruct (Step_sim range r m r' Hr Hm Hh Ho Hr) as [_ Hs]. pose proof (abs_node_ok r Hr) as Hok.
  destruct (asteps_role m _ _ Ht Hs) as [_ Hrole]; [by cbn; rewrite Hl|]. destruct (Hrole Hl') as [_ Hterm].
  destruct (asteps_leader _ _ _ Hm Hok Hl Hs) as [[Hn|[_ Hn]]|(_ & _ & ? & ? & ?)]; cbn in *;
    [lia|congruence|done].
Qed.
End node_properties.
