(* ===== verification/RaftTick.v ===== *)
(** * What a tick of the clock does

    [tickElection] and [tickHeartbeat] of [src/raft/raft.go], tied to their
    timeouts: when a node campaigns, when a leader steps down because it has
    lost its quorum, and when it sends heartbeats. *)

From S2P Require Import Prelude RaftPB Storage Unstable RaftLog Progress Raft RaftSpec Quorum RaftRefine RaftStep.

Section ticks.
  Context {St : Type} `{StorageSpec St}.
  Context (range : gmap Z Progress -> list Z).
  Implicit Types (r : raft St) (m : Message).




(** ** Campaigns *)







(** ** Heartbeats *)







End ticks.
