(* ===== verification/RaftNet.v ===== *)
(** * A cluster of abstract nodes: at most one leader per term

    The cluster runs over a network that loses, duplicates and reorders
    messages, and its nodes crash and restart.  A node hands its output over
    in batches, as [raftNode.start] of [src/etcdserver/raft.go] does: the term
    and vote of a batch are saved before its messages leave, except that a
    leader's messages leave first.  The membership [X] is fixed. *)

From S2P Require Import Prelude RaftPB Storage Unstable RaftLog Progress Raft RaftSpec Quorum RaftRefine RaftStep RaftProps.

(** ** Ballots *)

(** The vote a message stands for: voter, term and candidate.  A request is
    the candidate's vote for itself. *)
Definition ballot (m : Message) : option (Z * Z * Z) :=
  match mType m with
  | MsgVote => Some (mFrom m, mTerm m, mFrom m)
  | MsgVoteResp => if mReject m then None else Some (mFrom m, mTerm m, mTo m)
  | _ => None
  end.

(** A message only a leader sends. *)
Definition from_leader (m : Message) : bool :=
  match mType m with MsgApp | MsgSnap | MsgHeartbeat => true | _ => false end.

(** A node at term [fst h] with vote [snd h] has voted for [c] at [t], or is past it. *)
Definition cast (h : Z * Z) (t c : Z) : Prop := t < fst h \/ (t = fst h /\ snd h = c).

Lemma cast_mono h h' t c : cast h t c -> c <> 0 -> ballot_le (fst h) (snd h) (fst h') (snd h') -> cast h' t c.
Proof. unfold cast, ballot_le. intros. lia. Qed.

Definition hard (n : anode) : Z * Z := (n_term n, n_vote n).

(** ** What one abstract step does to terms, votes and output *)

Definition role_ok (n : anode) : Prop :=
  0 <= n_term n /\ (n_role n <> StateFollower -> 0 < n_term n /\ n_vote n = n_id n).

Definition new_output (m : Message) (n' : anode) (b : Message) : Prop :=
  (ballot b = None /\ from_leader b = false) \/
  (ballot b = Some (n_id n', n_term n', n_id n') /\ from_leader b = false /\ n_vote n' = n_id n') \/
  (ballot b = Some (n_id n', n_term n', mFrom m) /\ from_leader b = false /\ n_vote n' = mFrom m /\
     mType m = MsgVote /\ mTerm m = n_term n') \/
  (ballot b = None /\ n_role n' = StateLeader /\ mFrom b = n_id n' /\ mTerm b = n_term n').

Lemma astep_role_ok m n n' : role_ok n -> astep m n n' -> role_ok n' /\ n_id n' = n_id n.
Proof.
  intros [Ht Hr] Hs. split; [|by destruct Hs]. unfold role_ok.
  destruct Hs; cbn; try done; try (by split; [lia|]); (split; [lia|]); try done;
    try (intros _; by apply Hr; congruence); try (intros _; lia).
Qed.

Lemma astep_output m n n' b : role_ok n -> astep m n n' -> b ∈ n_out n' ->
  b ∈ n_out n \/ new_output m n' b.
Proof.
  intros [Ht Hr] Hs Hb. destruct Hs; cbn in Hb; try (by left);
    apply elem_of_app in Hb as [Hb|Hb]; try (by left); right;
    apply list_elem_of_singleton in Hb as ->; unfold new_output; cbn; try (by left).
  - right. left. split_and!; try done. apply Hr. congruence.
  - match goal with Hm : leader_msg _ _ |- _ => destruct Hm as (Hf & Htm & Hty) end.
    unfold ballot, from_leader. do 3 right. destruct (mType out); done.
  - left. unfold harmless, ballot, from_leader in *. destruct (mType out); try done.
    match goal with Hm : _ /\ _ /\ mReject _ = true |- _ => by destruct Hm as (_ & _ & ->) end.
  - by do 2 right; left.
Qed.

Lemma astep_votes m n n' j : astep m n n' -> n_role n' = StateCandidate -> n_votes n' !! j = Some true ->
  (n_role n = StateCandidate /\ n_term n' = n_term n /\ n_votes n !! j = Some true) \/ j = n_id n \/
  (j = mFrom m /\ mType m = MsgVoteResp /\ mReject m = false /\ mTerm m = n_term n').
Proof.
  intros Hs Hr Hv. destruct Hs; cbn in *; try congruence; try (by left).
  - right; left. by apply lookup_singleton_Some in Hv as [-> _].
  - apply lookup_insert_Some in Hv as [[<- Hv]|[_ Hv]]; [|by left].
    right; right. split_and!; try done. by destruct (mReject m).
Qed.

Lemma astep_wins m n n' : astep m n n' -> n_role n' = StateLeader ->
  n_term n' = n_term n /\
  (n_role n = StateLeader \/
   (n_role n = StateCandidate /\ granted (n_votes n) = majority (size (n_match n)))).
Proof. intros Hs Hr. destruct Hs; cbn in *; try congruence; split; try done; auto. Qed.

(** ** The cluster *)

Record cell : Type := mkCell {
  c_node : anode;
  c_disk : Z * Z; (** the term and vote last saved *)
  c_saving : option ((Z * Z) * list Message) (** the batch being saved, and what leaves after it *)
}.

#[export] Instance eta_cell : Eta cell := fun r => mkCell (c_node r) (c_disk r) (c_saving r).

Record anet : Type := mkNet {
  w_cells : gmap Z cell;
  w_msgs : list Message (** everything ever sent *)
}.

Definition put_cell (w : anet) (i : Z) (c : cell) : anet := mkNet (<[i := c]> (w_cells w)) (w_msgs w).

Section network.
  Context (X : gset Z) (Hzero : 0 ∉ X).

(** A node just started from its saved term and vote. *)
Definition booted (i : Z) (h : Z * Z) (n : anode) : Prop :=
  n_id n = i /\ hard n = h /\ n_role n = StateFollower /\ n_votes n = ∅ /\ n_out n = [] /\
  dom (n_match n) = X.

(** What a node may handle: a message of the network that is addressed to it,
    or a local one. *)
Definition admissible (w : anet) (i : Z) (m : Message) : Prop :=
  (m ∈ w_msgs w /\ mTo m = i) \/ (mTerm m = 0 /\ ~ termed m).

Inductive anet_step : anet -> anet -> Prop :=
| nt_handle w i c m n' :
    w_cells w !! i = Some c -> admissible w i m -> astep m (c_node c) n' -> dom (n_match n') = X ->
    anet_step w (put_cell w i (c <| c_node := n' |>))
| nt_log w i c a k : (** saved entries, compaction: the log only *)
    w_cells w !! i = Some c ->
    anet_step w (put_cell w i (c <| c_node := (c_node c) <| n_log := a |> <| n_commit := k |> |>))
| nt_ready w i c :
    w_cells w !! i = Some c -> c_saving c = None ->
    let n := c_node c in
    let lead := bool_decide (n_role n = StateLeader) in
    anet_step w (mkNet (<[i := mkCell (n <| n_out := [] |>) (c_disk c)
                                 (Some (hard n, if lead then [] else n_out n))]> (w_cells w))
                   (w_msgs w ++ if lead then n_out n else []))
| nt_saved w i c h ms :
    w_cells w !! i = Some c -> c_saving c = Some (h, ms) ->
    anet_step w (mkNet (<[i := mkCell (c_node c) h None]> (w_cells w)) (w_msgs w ++ ms))
| nt_crash w i c n' :
    w_cells w !! i = Some c -> booted i (c_disk c) n' ->
    anet_step w (put_cell w i (mkCell n' (c_disk c) None)).

(** Every member starts as a follower that has not voted. *)
Definition anet_init (w : anet) : Prop :=
  dom (w_cells w) = X /\ w_msgs w = [] /\
  forall i c, w_cells w !! i = Some c -> c_disk c = (0, 0) /\ c_saving c = None /\
    booted i (n_term (c_node c), 0) (c_node c) /\ 0 <= n_term (c_node c).

(** ** The invariant *)

(** [c] has the votes of a majority at [t], its own included. *)
Definition supported (ms : list Message) (c t : Z) : Prop :=
  (exists b, b ∈ ms /\ ballot b = Some (c, t, c)) /\
  exists Q : gset Z, Q ⊆ X /\ majority (size X) <= Z.of_nat (size Q) /\
    forall j, j ∈ Q -> exists b, b ∈ ms /\ ballot b = Some (j, t, c).

(** Output of a node that has not left it. *)
Definition held (c : cell) (b : Message) : Prop :=
  b ∈ n_out (c_node c) \/ exists h ms, c_saving c = Some (h, ms) /\ b ∈ ms.

Record cell_inv (ms : list Message) (i : Z) (c : cell) : Prop := {
  ci_id : n_id (c_node c) = i;
  ci_dom : dom (n_match (c_node c)) = X;
  ci_role : role_ok (c_node c);
  ci_disk : ballot_le (fst (c_disk c)) (snd (c_disk c)) (n_term (c_node c)) (n_vote (c_node c)) /\
            0 <= fst (c_disk c);
  ci_saving : forall h l, c_saving c = Some (h, l) ->
    ballot_le (fst (c_disk c)) (snd (c_disk c)) (fst h) (snd h) /\
    ballot_le (fst h) (snd h) (n_term (c_node c)) (n_vote (c_node c)) /\
    forall b v t k, b ∈ l -> ballot b = Some (v, t, k) -> cast h t k;
  ci_out : forall b v t k, b ∈ n_out (c_node c) -> ballot b = Some (v, t, k) -> cast (hard (c_node c)) t k;
  ci_voter : forall b v t k, held c b -> ballot b = Some (v, t, k) ->
    v = i /\ k ∈ X /\ (v = k \/ exists b0, b0 ∈ ms /\ ballot b0 = Some (k, t, k));
  ci_lead_out : forall b, held c b -> from_leader b = true ->
    mFrom b = i /\ ((1 < size X)%nat -> supported ms i (mTerm b));
  ci_unique : forall b b' v t k k', held c b -> held c b' \/ b' ∈ ms ->
    ballot b = Some (v, t, k) -> ballot b' = Some (v, t, k') -> k = k';
  ci_votes : n_role (c_node c) = StateCandidate -> forall j, n_votes (c_node c) !! j = Some true ->
    j ∈ X /\ (j = i \/ exists b, b ∈ ms /\ ballot b = Some (j, n_term (c_node c), i));
  ci_leads : n_role (c_node c) = StateLeader -> (1 < size X)%nat -> supported ms i (n_term (c_node c))
}.

Record net_inv (w : anet) : Prop := {
  ni_dom : dom (w_cells w) = X;
  ni_cells : forall i c, w_cells w !! i = Some c -> cell_inv (w_msgs w) i c;
  ni_ballot : forall b v t k, b ∈ w_msgs w -> ballot b = Some (v, t, k) ->
    k ∈ X /\ (v = k \/ exists b0, b0 ∈ w_msgs w /\ ballot b0 = Some (k, t, k)) /\
    exists c, w_cells w !! v = Some c /\ cast (c_disk c) t k;
  ni_unique : forall b b' v t k k', b ∈ w_msgs w -> b' ∈ w_msgs w ->
    ballot b = Some (v, t, k) -> ballot b' = Some (v, t, k') -> k = k';
  ni_lead : forall b, b ∈ w_msgs w -> from_leader b = true ->
    mFrom b ∈ X /\ ((1 < size X)%nat -> supported (w_msgs w) (mFrom b) (mTerm b))
}.

(** ** Safety of the invariant *)

Lemma supported_unique w c c' t :
  net_inv w -> supported (w_msgs w) c t -> supported (w_msgs w) c' t -> c = c'.
Proof.
  intros Hw [_ (Q & HQ & Hq & HbQ)] [_ (Q' & HQ' & Hq' & HbQ')].
  destruct (majorities_intersect X Q Q') as (j & Hj & Hj'); try done.
  destruct (HbQ j Hj) as (b & Hb & Eb). destruct (HbQ' j Hj') as (b' & Hb' & Eb').
  by eapply (ni_unique w Hw b b').
Qed.

Lemma supported_mono ms ms' c t : (forall b, b ∈ ms -> b ∈ ms') -> supported ms c t -> supported ms' c t.
Proof.
  intros Hm [(b & Hb & Eb) (Q & HQ & Hq & HbQ)]. split; [by eauto|]. exists Q. split_and!; try done.
  intros j Hj. destruct (HbQ j Hj) as (b' & ? & ?). by eauto.
Qed.

Lemma single_member i j : i ∈ X -> j ∈ X -> ~ (1 < size X)%nat -> i = j.
Proof.
  intros Hi Hj Hs. destruct (decide (i = j)) as [|Hne]; [done|].
  assert (Hsub : ({[i; j]} : gset Z) ⊆ X) by set_solver. apply subseteq_size in Hsub.
  rewrite size_union, !size_singleton in Hsub by set_solver. lia.
Qed.

(** ** Handling a message *)

Section handle.
  Context (w : anet) (i : Z) (c : cell) (m : Message) (n' : anode).
  Context (Hw : net_inv w) (Hc : w_cells w !! i = Some c) (Hadm : admissible w i m).
  Context (Hs : astep m (c_node c) n') (Hdom : dom (n_match n') = X).

Lemma handle_in_X : i ∈ X.
Proof. rewrite <- (ni_dom w Hw). by apply elem_of_dom_2 in Hc. Qed.

(** Every vote of node [i] is one its term and vote account for. *)
Lemma voter_cast b t k : held c b \/ b ∈ w_msgs w -> ballot b = Some (i, t, k) ->
  cast (hard (c_node c)) t k /\ k ∈ X.
Proof.
  intros Hb Eb. pose proof (ni_cells w Hw i c Hc) as Hci. assert (Hk : k ∈ X).
  { destruct Hb as [Hb|Hb]; [by eapply ci_voter|by eapply (ni_ballot w Hw)]. }
  split; [|done]. assert (k <> 0) by (by intros ->). destruct Hb as [[Hb|(h & l & Hsv & Hb)]|Hb].
  - by eapply ci_out.
  - destruct (ci_saving _ _ _ Hci _ _ Hsv) as (_ & Hle & Hcast). by eapply cast_mono; [eapply Hcast| |].
  - destruct (ni_ballot w Hw _ _ _ _ Hb Eb) as (_ & _ & c0 & Hc0 & Hcast).
    rewrite Hc in Hc0. injection Hc0 as <-. eapply cast_mono; [done|done|]. by destruct (ci_disk _ _ _ Hci).
Qed.

(** A request or a response that is handled came over the network. *)
Lemma handled_ballot : mType m = MsgVote \/ mType m = MsgVoteResp -> m ∈ w_msgs w /\ mTo m = i.
Proof. intros Hty. destruct Hadm as [?|[_ Hn]]; [done|]. destruct Hn. unfold termed. by destruct Hty as [-> | ->]. Qed.

Lemma handle_role : role_ok n' /\ n_id n' = i.
Proof.
  pose proof (ni_cells w Hw i c Hc) as Hci.
  destruct (astep_role_ok _ _ _ (ci_role _ _ _ Hci) Hs) as [? ->]. split; [done|]. by eapply ci_id.
Qed.

(** Ballots of the node after the step: old ones, or new ones for its vote. *)
Lemma handle_ballot b v t k :
  held (c <| c_node := n' |>) b -> ballot b = Some (v, t, k) ->
  held c b \/ (v = i /\ t = n_term n' /\ k = n_vote n' /\ k ∈ X /\
               (v = k \/ exists b0, b0 ∈ w_msgs w /\ ballot b0 = Some (k, t, k))).
Proof.
  intros [Hb|Hb] Eb; [|by left; right]. cbn in Hb. pose proof (ni_cells w Hw i c Hc) as Hci.
  destruct handle_role as [_ Hid]. pose proof handle_in_X as HiX.
  destruct (astep_output _ _ _ _ (ci_role _ _ _ Hci) Hs Hb) as [Ho|Hn]; [by left; left|right].
  unfold new_output in Hn. rewrite Hid in Hn. destruct Hn as [[E _]|[(E & _ & Hv)|[(E & _ & Hv & Hty & Htm)|[E _]]]]; try congruence;
    rewrite E in Eb; injection Eb as <- <- <-; split_and!; try done; try (by left).
  - destruct (handled_ballot (or_introl Hty)) as [Hm _].
    assert (Eb : ballot m = Some (mFrom m, mTerm m, mFrom m)) by (unfold ballot; by rewrite Hty).
    by destruct (ni_ballot w Hw _ _ _ _ Hm Eb).
  - right. exists m. destruct (handled_ballot (or_introl Hty)) as [Hm _]. split; [done|].
    unfold ballot. by rewrite Hty, Htm.
Qed.

(** The whole of the votes after the step. *)
Lemma handle_cast b t k :
  held (c <| c_node := n' |>) b \/ b ∈ w_msgs w -> ballot b = Some (i, t, k) -> cast (hard n') t k /\ k ∈ X.
Proof.
  intros Hb Eb. assert (Hold : held c b \/ b ∈ w_msgs w -> cast (hard n') t k /\ k ∈ X).
  { intros Ho. destruct (voter_cast b t k Ho Eb) as [Hct Hk]. split; [|done].
    eapply cast_mono; [done|by intros ->|]. by eapply astep_ballot. }
  destruct Hb as [Hb|Hb]; [|by auto]. destruct (handle_ballot _ _ _ _ Hb Eb) as [?|(_ & -> & -> & ? & _)]; [by auto|].
  split; [by right|done].
Qed.

Lemma handle_unique b b' v t k k' :
  held (c <| c_node := n' |>) b -> held (c <| c_node := n' |>) b' \/ b' ∈ w_msgs w ->
  ballot b = Some (v, t, k) -> ballot b' = Some (v, t, k') -> k = k'.
Proof.
  intros Hb Hb' Eb Eb'. pose proof (ni_cells w Hw i c Hc) as Hci.
  assert (v = i) as ->.
  { destruct (handle_ballot _ _ _ _ Hb Eb) as [Ho|(-> & _)]; [|done]. by destruct (ci_voter _ _ _ Hci _ _ _ _ Ho Eb). }
  destruct (handle_cast b t k (or_introl Hb) Eb) as [Hk _]. destruct (handle_cast b' t k' Hb' Eb') as [Hk' _].
  destruct (Z.eq_dec t (n_term n')) as [->|Hne].
  { unfold cast in *. cbn in *. lia. }
  assert (Ho : held c b) by (destruct (handle_ballot _ _ _ _ Hb Eb) as [?|(_ & ? & _)]; done).
  eapply (ci_unique _ _ _ Hci b b'); try done. destruct Hb' as [Hb'|?]; [left|by right].
  by destruct (handle_ballot _ _ _ _ Hb' Eb') as [?|(_ & ? & _)].
Qed.

Lemma handle_votes j :
  n_role n' = StateCandidate -> n_votes n' !! j = Some true ->
  j ∈ X /\ (j = i \/ exists b, b ∈ w_msgs w /\ ballot b = Some (j, n_term n', i)).
Proof.
  intros Hr Hv. pose proof (ni_cells w Hw i c Hc) as Hci. pose proof (ci_id _ _ _ Hci) as Hid.
  destruct (astep_votes _ _ _ _ Hs Hr Hv) as [(Hr0 & -> & Hv0)|[->|(-> & Hty & Hrj & Htm)]].
  - by apply (ci_votes _ _ _ Hci).
  - rewrite Hid. split; [apply handle_in_X|by left].
  - destruct (handled_ballot (or_intror Hty)) as [Hm Hto].
    assert (Eb : ballot m = Some (mFrom m, n_term n', i)) by (unfold ballot; by rewrite Hty, Hrj, Htm, Hto).
    destruct (ni_ballot w Hw _ _ _ _ Hm Eb) as (_ & _ & c0 & Hc0 & _). split; [|by eauto].
    rewrite <- (ni_dom w Hw). by apply elem_of_dom_2 in Hc0.
Qed.

(** Winning an election of more than one member: the votes are in the network. *)
Lemma win_supported :
  n_role (c_node c) = StateCandidate ->
  granted (n_votes (c_node c)) = majority (size (n_match (c_node c))) ->
  (1 < size X)%nat -> supported (w_msgs w) i (n_term (c_node c)).
Proof.
  intros Hr Hg HX. pose proof (ni_cells w Hw i c Hc) as Hci.
  pose proof (ci_votes _ _ _ Hci Hr) as Hv.
  set (A := dom (filter (fun kv => kv.2 = true) (n_votes (c_node c)))).
  assert (HA : forall j, j ∈ A -> n_votes (c_node c) !! j = Some true).
  { intros j Hj. apply elem_of_dom in Hj as [b Hb]. apply map_lookup_filter_Some in Hb as [Hb Hb2].
    cbn in Hb2. by rewrite Hb2 in Hb. }
  assert (HsA : Z.of_nat (size A) = majority (size X)).
  { rewrite <- (ci_dom _ _ _ Hci), size_dom, <- Hg. unfold A. by rewrite size_dom. }
  clearbody A. destruct (another_member A i) as (j & Hj & Hji); [pose proof (majority_two _ HX); lia|].
  destruct (Hv j (HA j Hj)) as [_ [?|(b & Hb & Eb)]]; [done|].
  destruct (ni_ballot w Hw _ _ _ _ Hb Eb) as (_ & [?|(b0 & Hb0 & Eb0)] & _); [done|].
  split; [by eauto|]. exists A. split_and!; [|lia|].
  - intros k Hk. by apply Hv, HA.
  - intros k Hk. destruct (Hv k (HA k Hk)) as [_ [->|?]]; [by eauto|done].
Qed.

Lemma handle_leads : n_role n' = StateLeader -> (1 < size X)%nat -> supported (w_msgs w) i (n_term n').
Proof.
  intros Hr HX. pose proof (ni_cells w Hw i c Hc) as Hci.
  destruct (astep_wins _ _ _ Hs Hr) as [-> [Hl|[Hcd Hg]]]; [by apply (ci_leads _ _ _ Hci)|by apply win_supported].
Qed.

Lemma handle_lead_out b : held (c <| c_node := n' |>) b -> from_leader b = true ->
  mFrom b = i /\ ((1 < size X)%nat -> supported (w_msgs w) i (mTerm b)).
Proof.
  intros Hb Hl. pose proof (ni_cells w Hw i c Hc) as Hci. destruct handle_role as [_ Hid].
  assert (Hold : held c b \/ new_output m n' b).
  { destruct Hb as [Hb|Hb]; [|by left; right]. cbn in Hb.
    destruct (astep_output _ _ _ _ (ci_role _ _ _ Hci) Hs Hb); [by left; left|by right]. }
  destruct Hold as [Ho|Hn]; [by apply (ci_lead_out _ _ _ Hci)|]. unfold new_output in Hn.
  destruct Hn as [[_ E]|[(_ & E & _)|[(_ & E & _)|(_ & Hr & Hf & Ht)]]]; try congruence.
  rewrite Hf, Ht, Hid. split; [done|]. by apply handle_leads.
Qed.

Lemma handle_cell : cell_inv (w_msgs w) i (c <| c_node := n' |>).
Proof.
  pose proof (ni_cells w Hw i c Hc) as Hci. pose proof (astep_ballot _ _ _ Hs) as Hle.
  destruct handle_role as [Hrole Hid]. constructor; cbn [c_node c_disk c_saving].
  - done.
  - done.
  - done.
  - destruct (ci_disk _ _ _ Hci) as [Hd ?]. split; [by eapply ballot_le_trans|done].
  - intros h l Hsv. destruct (ci_saving _ _ _ Hci h l Hsv) as (? & ? & ?). split_and!; try done.
    by eapply ballot_le_trans.
  - intros b v t k Hb Eb. assert (Hh : held (c <| c_node := n' |>) b) by by left.
    assert (v = i) as ->.
    { destruct (handle_ballot _ _ _ _ Hh Eb) as [Ho|(-> & _)]; [|done]. by destruct (ci_voter _ _ _ Hci _ _ _ _ Ho Eb). }
    by destruct (handle_cast b t k (or_introl Hh) Eb).
  - intros b v t k Hb Eb. destruct (handle_ballot _ _ _ _ Hb Eb) as [Ho|(? & ? & ? & ? & ?)]; [|done].
    by apply (ci_voter _ _ _ Hci b).
  - apply handle_lead_out.
  - apply handle_unique.
  - intros Hr j Hj. by apply handle_votes.
  - apply handle_leads.
Qed.
End handle.

(** ** The invariant is kept *)

(** The messages stay, and one cell changes without losing saved votes. *)
Lemma put_cell_inv w i c c' :
  net_inv w -> w_cells w !! i = Some c -> cell_inv (w_msgs w) i c' -> c_disk c' = c_disk c ->
  net_inv (put_cell w i c').
Proof.
  intros Hw Hc Hc' Hd. destruct Hw as [Hdom Hcells Hbal Huniq Hlead]. constructor; cbn; try done.
  - rewrite dom_insert_L. apply elem_of_dom_2 in Hc. set_solver.
  - intros j cj Hj. apply lookup_insert_Some in Hj as [[<- <-]|[_ Hj]]; [done|by apply Hcells].
  - intros b v t k Hb Eb. destruct (Hbal b v t k Hb Eb) as (? & ? & cv & Hcv & Hct). split_and!; try done.
    destruct (decide (i = v)) as [<-|Hne].
    + exists c'. rewrite lookup_insert_eq, Hd. rewrite Hc in Hcv. by injection Hcv as ->.
    + exists cv. by rewrite lookup_insert_ne.
Qed.

Lemma crash_cell ms i c n' :
  cell_inv ms i c -> booted i (c_disk c) n' -> cell_inv ms i (mkCell n' (c_disk c) None).
Proof.
  intros Hci (Hid & Hh & Hr & Hv & Ho & Hdm). unfold hard in Hh. destruct (c_disk c) as [t0 v0] eqn:Ed.
  injection Hh as Ht Hvt. destruct (ci_disk _ _ _ Hci) as [_ Hpos]. rewrite Ed in Hpos. cbn in Hpos.
  assert (Hnh : forall b, ~ held (mkCell n' (t0, v0) None) b).
  { intros b [Hb|(? & ? & ? & _)]; [|done]. cbn in Hb. rewrite Ho in Hb. by apply not_elem_of_nil in Hb. }
  constructor; cbn; try done; try congruence; try (by intros ? ? ? ? Hb; destruct (Hnh _ Hb));
    try (by intros ? Hb; destruct (Hnh _ Hb)).
  - split; [lia|]. congruence.
  - rewrite Ht, Hvt. split; [apply ballot_le_refl|done].
  - intros b v t k Hb. destruct (Hnh b). by left.
  - intros b b' v t k k' Hb. destruct (Hnh _ Hb).
Qed.

(** ** Messages leave a node *)

Section release.
  Context (w : anet) (i : Z) (c c' : cell) (l : list Message).
  Context (Hw : net_inv w) (Hc : w_cells w !! i = Some c).
  Context (Hl : forall b, b ∈ l -> held c b) (Hheld : forall b, held c' b -> held c b).
  Context (Hnode : c_node c' = (c_node c) <| n_out := n_out (c_node c') |>).
  Context (Hdisk : ballot_le (fst (c_disk c)) (snd (c_disk c)) (fst (c_disk c')) (snd (c_disk c'))).
  Context (Hdn : ballot_le (fst (c_disk c')) (snd (c_disk c')) (n_term (c_node c)) (n_vote (c_node c))).
  Context (Hcast : forall b v t k, b ∈ l -> ballot b = Some (v, t, k) -> cast (c_disk c') t k).
  Context (Hsav : forall h ms, c_saving c' = Some (h, ms) ->
    ballot_le (fst (c_disk c')) (snd (c_disk c')) (fst h) (snd h) /\
    ballot_le (fst h) (snd h) (n_term (c_node c)) (n_vote (c_node c)) /\
    forall b v t k, b ∈ ms -> ballot b = Some (v, t, k) -> cast h t k).

Lemma release_sub b : b ∈ w_msgs w -> b ∈ w_msgs w ++ l.
Proof. intros Hb. apply elem_of_app. by left. Qed.

Lemma release_requested k t :
  (exists b0, b0 ∈ w_msgs w /\ ballot b0 = Some (k, t, k)) ->
  exists b0, b0 ∈ w_msgs w ++ l /\ ballot b0 = Some (k, t, k).
Proof. intros (b0 & Hb & E). exists b0. split; [by apply release_sub|done]. Qed.

(** Other cells only see more messages, none of them theirs. *)
Lemma release_other j cj : cell_inv (w_msgs w) j cj -> j <> i -> cell_inv (w_msgs w ++ l) j cj.
Proof.
  intros Hj Hne. pose proof (ni_cells w Hw i c Hc) as Hci. destruct Hj. constructor; try done.
  - intros b v t k Hb Eb. edestruct ci_voter0 as (? & ? & Hr); try done. split_and!; try done.
    destruct Hr; [by left|right; by apply release_requested].
  - intros b Hb Hf. edestruct ci_lead_out0 as [? Hsup]; try done. split; [done|]. intros HX.
    eapply supported_mono; [apply release_sub|by apply Hsup].
  - intros b b' v t k k' Hb [Hb'|Hb'] Eb Eb'; [by eauto|]. apply elem_of_app in Hb' as [Hb'|Hb']; [by eauto|].
    destruct (ci_voter0 _ _ _ _ Hb Eb) as [-> _].
    destruct (ci_voter _ _ _ Hci _ _ _ _ (Hl _ Hb') Eb') as [? _]. done.
  - intros Hr j' Hj'. edestruct ci_votes0 as [? [?|(b & Hb & Eb)]]; try done; [by auto|]. split; [done|].
    right. exists b. split; [by apply release_sub|done].
  - intros Hr HX. eapply supported_mono; [apply release_sub|by apply ci_leads0].
Qed.

Lemma release_cell : cell_inv (w_msgs w ++ l) i c'.
Proof.
  pose proof (ni_cells w Hw i c Hc) as Hci. destruct Hci.
  assert (Hrole' : role_ok (c_node c')) by (rewrite Hnode; exact ci_role0).
  constructor; try (rewrite Hnode; cbn; done).
  - rewrite Hnode. cbn. split; [done|]. destruct ci_disk0 as [_ ?]. unfold ballot_le in *. lia.
  - intros b v t k Hb Eb. assert (Hh : held c b) by (apply Hheld; by left).
    assert (hard (c_node c') = hard (c_node c)) as -> by (by rewrite Hnode).
    destruct (ci_voter0 _ _ _ _ Hh Eb) as (-> & _). by eapply (voter_cast w i c Hw Hc b); [left|].
  - intros b v t k Hb Eb. edestruct ci_voter0 as (? & ? & Hr); [by apply Hheld|done|]. split_and!; try done.
    destruct Hr; [by left|right; by apply release_requested].
  - intros b Hb Hf. edestruct ci_lead_out0 as [? Hsup]; [by apply Hheld|done|]. split; [done|]. intros HX.
    eapply supported_mono; [apply release_sub|by apply Hsup].
  - intros b b' v t k k' Hb Hb' Eb Eb'. eapply (ci_unique0 b b'); try done; [by apply Hheld|].
    destruct Hb' as [?|Hb']; [left; by apply Hheld|]. apply elem_of_app in Hb' as [?|?]; [by right|left; by apply Hl].
  - rewrite Hnode. cbn. intros Hr j Hj. edestruct ci_votes0 as [? [?|(b & Hb & Eb)]]; try done; [by auto|].
    split; [done|]. right. exists b. split; [by apply release_sub|done].
  - rewrite Hnode. cbn. intros Hr HX. eapply supported_mono; [apply release_sub|by apply ci_leads0].
Qed.

Lemma release_inv : net_inv (mkNet (<[i := c']> (w_cells w)) (w_msgs w ++ l)).
Proof.
  pose proof (ni_cells w Hw i c Hc) as Hci. pose proof release_cell as Hc'.
  assert (HiX : i ∈ X) by (rewrite <- (ni_dom w Hw); by apply elem_of_dom_2 in Hc).
  constructor; cbn.
  - rewrite dom_insert_L, (ni_dom w Hw). set_solver +HiX.
  - intros j cj Hj. apply lookup_insert_Some in Hj as [[<- <-]|[Hne Hj]]; [done|].
    apply release_other; [by apply (ni_cells w Hw)|done].
  - intros b v t k Hb Eb. apply elem_of_app in Hb as [Hb|Hb].
    + destruct (ni_ballot w Hw _ _ _ _ Hb Eb) as (Hk & Hr & cv & Hcv & Hct). split_and!; try done.
      { destruct Hr; [by left|right; by apply release_requested]. }
      destruct (decide (i = v)) as [<-|Hne]; [|exists cv; by rewrite lookup_insert_ne].
      exists c'. rewrite lookup_insert_eq. split; [done|]. rewrite Hc in Hcv. injection Hcv as <-.
      eapply cast_mono; [done| |done]. by intros ->.
    + destruct (ci_voter _ _ _ Hci _ _ _ _ (Hl _ Hb) Eb) as (-> & Hk & Hr). split_and!; try done.
      { destruct Hr; [by left|right; by apply release_requested]. }
      exists c'. rewrite lookup_insert_eq. split; [done|]. by eapply Hcast.
  - intros b b' v t k k' Hb Hb' Eb Eb'. apply elem_of_app in Hb as [Hb|Hb], Hb' as [Hb'|Hb'].
    + by eapply (ni_unique w Hw b b').
    + symmetry. eapply (ci_unique _ _ _ Hci b' b); try done; [by apply Hl|by right].
    + eapply (ci_unique _ _ _ Hci b b'); try done; [by apply Hl|by right].
    + eapply (ci_unique _ _ _ Hci b b'); try done; [by apply Hl|left; by apply Hl].
  - intros b Hb Hf. apply elem_of_app in Hb as [Hb|Hb].
    + destruct (ni_lead w Hw b Hb Hf) as [? Hsup]. split; [done|]. intros HX.
      eapply supported_mono; [apply release_sub|by apply Hsup].
    + destruct (ci_lead_out _ _ _ Hci b (Hl b Hb) Hf) as [-> Hsup]. split; [done|]. intros HX.
      eapply supported_mono; [apply release_sub|by apply Hsup].
Qed.
End release.

(** A leader of a cluster of several members has saved its term and vote:
    without that its requests would not have left. *)
Lemma leader_saved w i c :
  net_inv w -> w_cells w !! i = Some c -> n_role (c_node c) = StateLeader -> (1 < size X)%nat ->
  c_disk c = hard (c_node c).
Proof.
  intros Hw Hc Hr HX. pose proof (ni_cells w Hw i c Hc) as Hci.
  destruct (ci_leads _ _ _ Hci Hr HX) as [(b & Hb & Eb) _].
  destruct (ni_ballot w Hw _ _ _ _ Hb Eb) as (HiX & _ & c0 & Hc0 & Hct). rewrite Hc in Hc0. injection Hc0 as <-.
  destruct (ci_disk _ _ _ Hci) as [Hd _]. destruct (ci_role _ _ _ Hci) as [_ Hv].
  destruct Hv as [_ Hv]; [by rewrite Hr|]. rewrite (ci_id _ _ _ Hci) in Hv.
  unfold hard. destruct (c_disk c) as [t0 v0]. unfold cast, ballot_le in *. cbn in *. f_equal; lia.
Qed.

Lemma ready_inv w i c :
  net_inv w -> w_cells w !! i = Some c -> c_saving c = None -> (1 < size X)%nat ->
  let n := c_node c in
  let lead := bool_decide (n_role n = StateLeader) in
  net_inv (mkNet (<[i := mkCell (n <| n_out := [] |>) (c_disk c)
                           (Some (hard n, if lead then [] else n_out n))]> (w_cells w))
             (w_msgs w ++ if lead then n_out n else [])).
Proof.
  cbv zeta. intros Hw Hc Hsv HX. pose proof (ni_cells w Hw i c Hc) as Hci.
  destruct (ci_disk _ _ _ Hci) as [Hd _].
  apply release_inv with (c := c); try done.
  - intros b Hb. case_bool_decide; [by left|by apply not_elem_of_nil in Hb].
  - intros b [Hb|(h & ms & E & Hb)]; [by apply not_elem_of_nil in Hb|]. cbn in E. injection E as <- <-.
    case_bool_decide; [by apply not_elem_of_nil in Hb|by left].
  - apply ballot_le_refl.
  - intros b v t k Hb Eb. case_bool_decide as Hr; [|by apply not_elem_of_nil in Hb]. cbn.
    rewrite (leader_saved w i c Hw Hc Hr HX). by eapply ci_out.
  - intros h ms E. cbn in E. injection E as <- <-. split_and!; [done|apply ballot_le_refl|].
    intros b v t k Hb Eb. case_bool_decide; [by apply not_elem_of_nil in Hb|]. by eapply ci_out.
Qed.

Lemma saved_inv w i c h ms :
  net_inv w -> w_cells w !! i = Some c -> c_saving c = Some (h, ms) ->
  net_inv (mkNet (<[i := mkCell (c_node c) h None]> (w_cells w)) (w_msgs w ++ ms)).
Proof.
  intros Hw Hc Hsv. pose proof (ni_cells w Hw i c Hc) as Hci.
  destruct (ci_saving _ _ _ Hci _ _ Hsv) as (Hdh & Hhn & Hct).
  apply release_inv with (c := c); try done.
  - intros b Hb. right. by eauto.
  - intros b [Hb|(? & ? & ? & _)]; [by left|done].
  - by destruct (c_node c).
Qed.

Lemma anet_step_inv w w' : (1 < size X)%nat -> net_inv w -> anet_step w w' -> net_inv w'.
Proof.
  intros HX Hw Hs. destruct Hs as [w i c m n' Hc Hadm Hs Hdm|w i c a k Hc|w i c Hc Hsv|w i c h ms Hc Hsv|w i c n' Hc Hb].
  - eapply put_cell_inv; try done. by eapply handle_cell.
  - eapply put_cell_inv; try done. destruct (ni_cells w Hw i c Hc). by constructor.
  - by apply ready_inv.
  - by apply saved_inv.
  - eapply put_cell_inv; try done. apply crash_cell; [by apply (ni_cells w Hw)|done].
Qed.

Lemma anet_init_inv w : anet_init w -> net_inv w.
Proof.
  intros (Hd & Hm & Hcells). constructor; try (rewrite Hm; by intros ? ? ? ? ?%not_elem_of_nil); try done.
  - intros i c Hc. destruct (Hcells i c Hc) as (Hdk & Hsv & (Hid & Hh & Hr & Hv & Ho & Hdm) & Ht).
    assert (Hnh : forall b, ~ held c b).
    { intros b [Hb|(? & ? & Hx & _)]; [|congruence]. rewrite Ho in Hb. by apply not_elem_of_nil in Hb. }
    assert (n_vote (c_node c) = 0) by (unfold hard in Hh; congruence).
    constructor; try done; try congruence; try (by intros ? ? ? ? Hb; destruct (Hnh _ Hb));
      try (by intros ? Hb; destruct (Hnh _ Hb)).
    + rewrite Hdk. cbn. unfold ballot_le. split; lia.
    + intros b v t k Hb. rewrite Ho in Hb. by apply not_elem_of_nil in Hb.
    + intros b b' v t k k' Hb. destruct (Hnh _ Hb).
  - rewrite Hm. by intros ? ? ? ? ? ? ?%not_elem_of_nil.
  - rewrite Hm. by intros ? ?%not_elem_of_nil.
Qed.

(** At most one leader per term: now, and over the whole run as the messages
    that only leaders send show. *)
Definition one_leader_per_term (w : anet) : Prop :=
  (forall i j ci cj, w_cells w !! i = Some ci -> w_cells w !! j = Some cj ->
     n_role (c_node ci) = StateLeader -> n_role (c_node cj) = StateLeader ->
     n_term (c_node ci) = n_term (c_node cj) -> i = j) /\
  (forall b b', b ∈ w_msgs w -> b' ∈ w_msgs w -> from_leader b = true -> from_leader b' = true ->
     mTerm b = mTerm b' -> mFrom b = mFrom b').

Lemma net_inv_one_leader w : (1 < size X)%nat -> net_inv w -> one_leader_per_term w.
Proof.
  intros HX Hw. split.
  - intros i j ci cj Hi Hj Ri Rj Ht. eapply supported_unique; [done| |].
    + by apply (ci_leads _ _ _ (ni_cells w Hw i ci Hi)).
    + rewrite Ht. by apply (ci_leads _ _ _ (ni_cells w Hw j cj Hj)).
  - intros b b' Hb Hb' Hf Hf' Ht. eapply supported_unique; [done|by apply (ni_lead w Hw)|].
    rewrite Ht. by apply (ni_lead w Hw).
Qed.

Lemma anet_reachable_inv w w' :
  (1 < size X)%nat -> anet_init w -> rtc anet_step w w' -> net_inv w'.
Proof.
  intros HX Hi Hs. apply anet_init_inv in Hi. induction Hs; [done|]. eauto using anet_step_inv.
Qed.
End network.
