(* ===== verification/RaftStart.v ===== *)
(** * Starting and restarting a node

    [newRaft] of [src/raft/raft.go]: the node resumes from what its storage
    holds. *)

From S2P Require Import Prelude RaftPB Storage Unstable RaftLog Progress Raft RaftSpec Quorum RaftRefine RaftStep RaftProps.

Section start.
  Context {St : Type} `{StorageSpec St}.
  Implicit Types (c : Config St) (r : raft St).

(** The members a node starts with. *)
Definition start_peers c (cs : ConfState) : list Z :=
  if 0 <? zlen (csNodes cs) then csNodes cs else c_peers c.

(** A configuration [newRaft] accepts: the storage is consistent, its hard
    state lies inside its log, and what was applied lies below the commit. *)
Record config_ok c (hs : HardState) (cs : ConfState) : Prop := {
  co_valid : validate c = None;
  co_sto : sto_inv (c_Storage c);
  co_init : InitialState (c_Storage c) = Ok (hs, cs, None);
  co_terms : terms_ok (sto_log (c_Storage c));
  co_snap : forall s e, SnapshotOf (c_Storage c) = Ok (s, e) -> snap_ok s;
  co_peers : csNodes cs = [] \/ c_peers c = [];
  co_term : is_u64 (hsTerm hs);
  co_commit : a_off (sto_log (c_Storage c)) <= hsCommit hs <= a_last (sto_log (c_Storage c));
  co_applied : c_Applied c <= 0 \/ a_off (sto_log (c_Storage c)) <= c_Applied c <= hsCommit hs
}.

Lemma foldl_setProgress peers r :
  let r' := foldl (fun r p => setProgress r p 0 1) r peers in
  exists prs, r' = r <| r_prs := prs |> /\ dom prs = dom (r_prs r) ∪ list_to_set peers /\
    (map_Forall (fun _ pr => pr_u64 pr) (r_prs r) -> map_Forall (fun _ pr => pr_u64 pr) prs).
Proof.
  cbv zeta. revert r. induction peers as [|p peers IH]; intros r; cbn [foldl].
  - exists (r_prs r). split_and!; [by destruct r|set_solver|done].
  - destruct (IH (setProgress r p 0 1)) as (prs & -> & Hd & Hf). exists prs. split_and!; [done| |].
    + rewrite Hd. cbn. rewrite dom_insert_L. set_solver.
    + intros Hr. apply Hf. cbn. by apply map_Forall_insert_2.
Qed.

(** The struct literal of [newRaft] with the members added. *)
Definition new_struct c (l : raftLog St) (prs : gmap Z Progress) : raft St :=
  mkRaft (c_ID c) 0 0 l (c_MaxInflightMsgs c) (c_MaxSizePerMsg c) prs StateFollower ∅ []
    None_ false 0 0 (c_CheckQuorum c) (c_HeartbeatTick c) (c_ElectionTick c)
    f_tickElection f_stepFollower.

Lemma new_struct_inv c hs cs l prs :
  config_ok c hs cs -> log_ok l -> log_abs l = sto_log (c_Storage c) -> l_storage l = c_Storage c ->
  u_snapshot (l_unstable l) = None -> map_Forall (fun _ pr => pr_u64 pr) prs ->
  raft_inv (new_struct c l prs).
Proof.
  intros [] Hl Ha Hs Hu Hp. constructor; try done; cbn.
  - by rewrite Ha.
  - unfold snapshot. by rewrite Hu, Hs.
Qed.

Lemma load_inv r hs :
  raft_inv r -> r_state r = StateFollower -> is_u64 (hsTerm hs) ->
  l_committed (r_raftLog r) <= hsCommit hs <= a_last (log_abs (r_raftLog r)) ->
  exists r', loadState r hs = Ok r' /\ raft_inv r' /\
    abs r' = (abs r) <| n_term := hsTerm hs |> <| n_vote := hsVote hs |> <| n_commit := hsCommit hs |> /\
    r_raftLog r' = (r_raftLog r) <| l_committed := hsCommit hs |>.
Proof.
  intros Hr Hs Ht Hc. pose proof (ri_log r Hr) as [Hinv _]. destruct (inv_commit r (hsCommit hs) Hr Hc) as [Hr' Ha].
  unfold loadState. rewrite lastIndex_eq by done. gosimpl. zif; [lia|]. zif; [lia|].
  eexists. split_and!; [done| | |done].
  - destruct Hr'. by constructor.
  - pose proof (f_equal n_log Ha) as Hl. unfold abs. cbn in *. by rewrite Hl.
Qed.

Lemma applied_inv r i : raft_inv r -> l_applied (r_raftLog r) <= i <= l_committed (r_raftLog r) ->
  exists l, appliedTo (r_raftLog r) i = Ok l /\ raft_inv (r <| r_raftLog := l |>) /\
    abs (r <| r_raftLog := l |>) = abs r.
Proof.
  intros Hr Hi. pose proof (ri_log r Hr) as [Hinv [Hp1 Hp2]]. unfold appliedTo.
  zif; [exists (r_raftLog r); split_and!; try done; by destruct r|]. zif; [lia|]. zif; [lia|].
  eexists. split_and!; [done| |done]. apply inv_log; try done; [|apply Hr].
  split; [by destruct Hinv|]. constructor; [done|cbn; lia].
Qed.

(** The steps of [newRaft] after the struct literal. *)
Lemma newRaft_tail c hs cs r0 :
  config_ok c hs cs -> raft_inv r0 -> r_state r0 = StateFollower -> r_Term r0 = 0 -> r_Vote r0 = 0 ->
  log_abs (r_raftLog r0) = sto_log (c_Storage c) ->
  l_committed (r_raftLog r0) = a_off (sto_log (c_Storage c)) ->
  l_applied (r_raftLog r0) = a_off (sto_log (c_Storage c)) ->
  exists r, (let! r := (if negb (isHardStateEqual hs HardState0) then loadState r0 hs else Ok r0) in
     let! r := (if c_Applied c >? 0
                then let! l := appliedTo (r_raftLog r) (c_Applied c) in Ok (r <| r_raftLog := l |>)
                else Ok r) in Ok r) = Ok r /\
    raft_inv r /\
    abs r = (abs r0) <| n_term := hsTerm hs |> <| n_vote := hsVote hs |> <| n_commit := hsCommit hs |>.
Proof.
  intros Hco Hr Hs Ht Hv Hlog Hcm Hap. pose proof (co_commit _ _ _ Hco) as Hrange.
  pose proof (co_applied _ _ _ Hco) as Happ.
  assert (H1' : exists r1, (if negb (isHardStateEqual hs HardState0) then loadState r0 hs else Ok r0) = Ok r1 /\
    raft_inv r1 /\ l_applied (r_raftLog r1) = a_off (sto_log (c_Storage c)) /\
    l_committed (r_raftLog r1) = hsCommit hs /\
    abs r1 = (abs r0) <| n_term := hsTerm hs |> <| n_vote := hsVote hs |> <| n_commit := hsCommit hs |>).
  { destruct (isHardStateEqual hs HardState0) eqn:E; cbn [negb].
    - unfold isHardStateEqual in E. cbn in E. rewrite !andb_true_iff, !Z.eqb_eq in E.
      destruct E as [[Et Ev] Ec]. exists r0. split_and!; try done; [|].
      + pose proof (sto_wf _ (co_sto _ _ _ Hco)) as (? & _). lia.
      + unfold abs. cbn. pose proof (sto_wf _ (co_sto _ _ _ Hco)) as (? & _).
        replace (hsCommit hs) with (l_committed (r_raftLog r0)) by lia. by rewrite Et, Ev, Ht, Hv.
    - destruct (load_inv r0 hs Hr Hs (co_term _ _ _ Hco)) as (r1 & -> & Hr1 & Ha1 & Hl1).
      { rewrite Hcm, Hlog. done. }
      exists r1. split_and!; try done; by rewrite Hl1. }
  destruct H1' as (r1 & -> & Hr1 & Hap1 & Hcm1 & Ha1). gosimpl. zif.
  - destruct (applied_inv r1 (c_Applied c) Hr1) as (l & -> & Hr2 & Ha2); [lia|]. gosimpl.
    eexists. split; [done|]. split; [done|]. by rewrite Ha2.
  - by exists r1.
Qed.

Lemma newRaft_restarts c hs cs :
  config_ok c hs cs ->
  exists r, newRaft c = Ok r /\ raft_inv r /\
    r_id r = c_ID c /\ r_state r = StateFollower /\ r_Term r = hsTerm hs /\ r_Vote r = hsVote hs /\
    log_abs (r_raftLog r) = sto_log (c_Storage c) /\ l_committed (r_raftLog r) = hsCommit hs /\
    dom (r_prs r) = list_to_set (start_peers c cs) /\ r_votes r = ∅ /\ r_msgs r = [].
Proof.
  intros Hco. destruct (newLog_spec (c_Storage c) (co_sto _ _ _ Hco)) as (l & Hl & Hlok & Hla & Hlc & Hlap & Hls & Hlu).
  destruct (foldl_setProgress (start_peers c cs) (new_struct c l ∅)) as (prs & Hf & Hd & Hu).
  pose proof (new_struct_inv c hs cs l prs Hco Hlok Hla Hls Hlu (Hu (map_Forall_empty _))) as Hr0.
  destruct (newRaft_tail c hs cs (new_struct c l prs)) as (r2 & Ht & Hr2 & Ha2); try done.
  assert (Hb : exists r, becomeFollower r2 (r_Term r2) None_ = Ok r).
  { unfold becomeFollower. rewrite reset_eq by apply Hr2. by eexists. }
  destruct Hb as [r Hb]. pose proof Hb as Hb'.
  apply becomeFollower_abs in Hb' as (Hr & Hs & Hterm & Hid & Ha); [|done|apply Hr2].
  rewrite Ha2 in Ha. rewrite Z.eqb_refl in Ha.
  exists r. split.
  - unfold newRaft. rewrite (co_valid _ _ _ Hco), Hl, (co_init _ _ _ Hco). gosimpl.
    assert (Hpeers : (if 0 <? zlen (csNodes cs) then
        if 0 <? zlen (c_peers c) then Panic "cannot specify both newRaft(peers) and ConfState.Nodes)"
        else Ok (csNodes cs) else Ok (c_peers c)) = Ok (start_peers c cs)).
    { unfold start_peers. destruct (co_peers _ _ _ Hco) as [-> | ->]; [done|]. by destruct (0 <? zlen (csNodes cs)). }
    rewrite Hpeers. gosimpl. fold (new_struct c l ∅). rewrite Hf.
    change ((new_struct c l ∅) <| r_prs := prs |>) with (new_struct c l prs).
    apply bind_Ok_inv in Ht as (ra & -> & Ht). gosimpl. apply bind_Ok_inv in Ht as (rb & -> & Ht). gosimpl.
    injection Ht as ->. rewrite Hb. gosimpl. destruct (ri_log r Hr) as [Hinv _].
    unfold log_last. by rewrite lastIndex_eq, lastTerm_eq.
  - assert (Hn2 : r_Term r2 = hsTerm hs /\ r_Vote r2 = hsVote hs)
      by (split; [exact (f_equal n_term Ha2)|exact (f_equal n_vote Ha2)]).
    destruct Hn2 as [Et2 Ev2]. split_and!; try done.
    + exact (f_equal n_id Ha).
    + congruence.
    + rewrite <- Ev2. exact (f_equal n_vote Ha).
    + rewrite <- Hla. exact (f_equal n_log Ha).
    + exact (f_equal n_commit Ha).
    + pose proof (f_equal n_match Ha) as Hm. cbn in Hm. apply (f_equal dom) in Hm.
      rewrite fresh_match_dom, !dom_fmap_L in Hm. rewrite Hm, Hd. cbn. set_solver.
    + exact (f_equal n_votes Ha).
    + exact (f_equal n_out Ha).
Qed.

(** C27. A node restarts from what its storage holds: for every acceptable
    configuration [newRaft] returns (it does not panic), and the node it
    returns satisfies the representation invariant and is a follower with the
    saved term and vote, the stored log and commit index, the members of the
    configuration, no votes counted and nothing to send. *)
Theorem newRaft_spec c hs cs :
  config_ok c hs cs ->
  exists r, newRaft c = Ok r /\ raft_inv r /\
    r_id r = c_ID c /\ r_state r = StateFollower /\ r_Term r = hsTerm hs /\ r_Vote r = hsVote hs /\
    log_abs (r_raftLog r) = sto_log (c_Storage c) /\ l_committed (r_raftLog r) = hsCommit hs /\
    dom (r_prs r) = list_to_set (start_peers c cs) /\ r_votes r = ∅ /\ r_msgs r = [].
Proof. apply newRaft_restarts. Qed.
End start.
