(* ===== verification/RawNode.v ===== *)
(** * The node the application drives

    [src/raft/rawnode.go], and of [src/raft/node.go] the [Ready] struct, the
    start of a node and the loop [node.run], one select case at a time.

    The application takes a [Ready], saves it, and calls [Advance]; the
    storage inside the log is the one it saves to.  Proved for [RawNode]:
    however inputs and batches alternate, the committed entries reach the
    application once each, in order, without gaps ([RawNode_delivers]). *)

From S2P Require Import Prelude RaftPB Proto RaftCodec Storage Unstable RaftLog Progress Raft RaftSpec Quorum RaftRefine RaftStep RaftFrame RaftProps RaftStart.

Definition IsLocalMsg (m : Message) : bool :=
  match mType m with
  | MsgHup | MsgBeat | MsgUnreachable | MsgSnapStatus | MsgCheckQuorum => true
  | _ => false
  end.

Definition IsResponseMsg (m : Message) : bool :=
  match mType m with
  | MsgAppResp | MsgVoteResp | MsgHeartbeatResp | MsgUnreachable => true
  | _ => false
  end.

Record SoftState : Type := mkSoftState {
  ss_Lead : Z;
  ss_RaftState : StateType
}.

Definition SoftState_equal (a b : SoftState) : bool :=
  (ss_Lead a =? ss_Lead b) && bool_decide (ss_RaftState a = ss_RaftState b).

Record Ready : Type := mkReady {
  rd_SoftState : option SoftState;
  rd_HardState : HardState;
  rd_Entries : list Entry;
  rd_Snapshot : Snapshot;
  rd_CommittedEntries : list Entry;
  rd_Messages : list Message
}.

Definition IsEmptyHardState (st : HardState) : bool := isHardStateEqual st HardState0.

Definition containsUpdates (rd : Ready) : bool :=
  bool_decide (is_Some (rd_SoftState rd)) || negb (IsEmptyHardState (rd_HardState rd)) ||
  negb (IsEmptySnap (rd_Snapshot rd)) || (zlen (rd_Entries rd) >? 0) ||
  (zlen (rd_CommittedEntries rd) >? 0) || (zlen (rd_Messages rd) >? 0).

Record Peer : Type := mkPeer {
  peer_ID : Z;
  peer_Context : option (list Z)
}.

Inductive SnapshotStatus : Type := SnapshotFinish | SnapshotFailure.

Inductive step_error : Type := ErrStepLocalMsg | ErrStepPeerNotFound.

Section rawnode.
  Context {St : Type} `{Storage St}.
  Context (range : gmap Z Progress -> list Z).
  Implicit Types (r : raft St) (m : Message) (rd : Ready).

Definition softState r : SoftState := mkSoftState (r_lead r) (r_state r).

Definition newReady r (prevSoftSt : SoftState) (prevHardSt : HardState) : outcome Ready :=
  let! committed := nextEnts (r_raftLog r) in
  let softSt := softState r in
  let hardSt := hardState r in
  Ok (mkReady (if negb (SoftState_equal softSt prevSoftSt) then Some softSt else None)
        (if negb (isHardStateEqual hardSt prevHardSt) then hardSt else HardState0)
        (unstableEntries (r_raftLog r))
        (match u_snapshot (l_unstable (r_raftLog r)) with Some s => s | None => Snapshot0 end)
        committed (r_msgs r)).

Record Status : Type := mkStatus {
  st_ID : Z;
  st_HardState : HardState;
  st_SoftState : SoftState;
  st_Applied : Z;
  st_Progress : option (gmap Z Progress)
}.

Definition getStatus r : Status :=
  mkStatus (r_id r) (hardState r) (softState r) (l_applied (r_raftLog r))
    (if bool_decide (r_state r = StateLeader) then Some (r_prs r) else None).

(** ** [RawNode] *)

Record RawNode : Type := mkRawNode {
  rn_raft : raft St;
  rn_prevSoftSt : SoftState;
  rn_prevHardSt : HardState
}.

#[export] Instance eta_RawNode : Eta RawNode := fun n =>
  mkRawNode (rn_raft n) (rn_prevSoftSt n) (rn_prevHardSt n).

Implicit Type rn : RawNode.

(** The second half of [commitReady]: what happens to the log. *)
Definition commitReady_log (l : raftLog St) (commit : Z) rd : outcome (raftLog St) :=
  let! l := (if negb (commit =? 0) then appliedTo l commit else Ok l) in
  let! l := (if zlen (rd_Entries rd) >? 0 then
               let! e := at_ (rd_Entries rd) (zlen (rd_Entries rd) - 1) in stableTo l (eIndex e) (eTerm e)
             else Ok l) in
  Ok (if negb (IsEmptySnap (rd_Snapshot rd)) then stableSnapTo l (smIndex (sMetadata (rd_Snapshot rd))) else l).

Definition commitReady rn rd : outcome RawNode :=
  let rn := match rd_SoftState rd with Some s => rn <| rn_prevSoftSt := s |> | None => rn end in
  let rn := if negb (IsEmptyHardState (rd_HardState rd)) then rn <| rn_prevHardSt := rd_HardState rd |> else rn in
  let! l := commitReady_log (r_raftLog (rn_raft rn)) (hsCommit (rn_prevHardSt rn)) rd in
  Ok (rn <| rn_raft := (rn_raft rn) <| r_raftLog := l |> |>).

(** The initial entries: one [ConfChangeAddNode] for each peer. *)
Fixpoint boot_entries (peers : list Peer) (i : Z) : outcome (list Entry) :=
  match peers with
  | [] => Ok []
  | peer :: peers' =>
      let cc := ConfChange0 <| ccType := ConfChangeAddNode |> <| ccNodeID := peer_ID peer |>
                  <| ccContext := peer_Context peer |> in
      let! data := ConfChange_Marshal cc in
      let! rest := boot_entries peers' (i + 1) in
      Ok (Entry0 <| eType := EntryConfChange |> <| eTerm := 1 |> <| eIndex := u64 (i + 1) |>
            <| eData := Some data |> :: rest)
  end.

Definition NewRawNode (config : Config St) (peers : list Peer) : outcome RawNode :=
  if c_ID config =? 0 then Panic "config.ID must not be zero" else
  let! r := newRaft config in
  let! '(lastIndex, err) := LastIndex (c_Storage config) in
  match err with
  | Some _ => Panic "storage error"
  | None =>
      let! r :=
        (if lastIndex =? 0 then
           let! r := becomeFollower r 1 None_ in
           let! ents := boot_entries peers 0 in
           let! '(l, _) := append (r_raftLog r) ents in
           let r := r <| r_raftLog := l <| l_committed := u64 (zlen ents) |> |> in
           foldM (fun r peer => addNode r (peer_ID peer)) peers r
         else Ok r) in
      Ok (mkRawNode r (softState r) (hardState r))
  end.

(** Run the raft state machine inside. *)
Definition on_raft rn (f : raft St -> outcome (raft St)) : outcome RawNode :=
  let! r := f (rn_raft rn) in Ok (rn <| rn_raft := r |>).

Definition Tick rn (draw : Z) : outcome RawNode := on_raft rn (fun r => tick range r draw).

Definition Campaign rn : outcome RawNode :=
  on_raft rn (fun r => Step range r (Message0 <| mType := MsgHup |>)).

Definition Propose rn (data : option (list Z)) : outcome RawNode :=
  on_raft rn (fun r => Step range r (Message0 <| mType := MsgProp |> <| mFrom := r_id r |>
    <| mEntries := [Entry0 <| eData := data |>] |>)).

Definition ProposeConfChange rn (cc : ConfChange) : outcome RawNode :=
  let! data := ConfChange_Marshal cc in
  on_raft rn (fun r => Step range r (Message0 <| mType := MsgProp |>
    <| mEntries := [Entry0 <| eType := EntryConfChange |> <| eData := Some data |>] |>)).

(** What [RawNode.ApplyConfChange] and the [confc] case of [node.run] share. *)
Definition applyConfChange r (cc : ConfChange) : outcome (raft St) :=
  if ccNodeID cc =? None_ then Ok (resetPendingConf r) else
  match ccType cc with
  | ConfChangeAddNode => addNode r (ccNodeID cc)
  | ConfChangeRemoveNode => removeNode range r (ccNodeID cc)
  | ConfChangeUpdateNode => Ok (resetPendingConf r)
  | ConfChangeType_other _ => Panic "unexpected conf type"
  end.

Definition ApplyConfChange rn (cc : ConfChange) : outcome (RawNode * ConfState) :=
  let! r := applyConfChange (rn_raft rn) cc in
  Ok (rn <| rn_raft := r |>, mkConfState (nodes r) None).

Definition rn_Step rn m : outcome (RawNode * option step_error) :=
  if IsLocalMsg m then Ok (rn, Some ErrStepLocalMsg) else
  if bool_decide (is_Some (r_prs (rn_raft rn) !! mFrom m)) || negb (IsResponseMsg m) then
    let! rn' := on_raft rn (fun r => Step range r m) in Ok (rn', None)
  else Ok (rn, Some ErrStepPeerNotFound).

Definition rn_Ready rn : outcome (Ready * RawNode) :=
  let! rd := newReady (rn_raft rn) (rn_prevSoftSt rn) (rn_prevHardSt rn) in
  Ok (rd, rn <| rn_raft := (rn_raft rn) <| r_msgs := [] |> |>).

Definition HasReady rn : outcome bool :=
  let r := rn_raft rn in
  if negb (SoftState_equal (softState r) (rn_prevSoftSt rn)) then Ok true else
  if negb (IsEmptyHardState (hardState r)) && negb (isHardStateEqual (hardState r) (rn_prevHardSt rn)) then Ok true else
  if match u_snapshot (l_unstable (r_raftLog r)) with Some s => negb (IsEmptySnap s) | None => false end then Ok true else
  if (zlen (r_msgs r) >? 0) || (zlen (unstableEntries (r_raftLog r)) >? 0) then Ok true else
  hasNextEnts (r_raftLog r).

Definition Advance rn rd : outcome RawNode := commitReady rn rd.

Definition ReportUnreachable rn (id : Z) : outcome RawNode :=
  on_raft rn (fun r => Step range r (Message0 <| mType := MsgUnreachable |> <| mFrom := id |>)).

Definition ReportSnapshot rn (id : Z) (status : SnapshotStatus) : outcome RawNode :=
  let rej := match status with SnapshotFailure => true | SnapshotFinish => false end in
  on_raft rn (fun r => Step range r (Message0 <| mType := MsgSnapStatus |> <| mFrom := id |> <| mReject := rej |>)).
End rawnode.
Arguments RawNode : clear implicits.

(** ** [node.run]

    The variables of the loop; [n_propc] is whether the field [n.propc] is
    non-nil, [n_prop] whether the variable [propc] is. *)

Section node_loop.
  Context {St : Type} `{Storage St}.
  Context (range : gmap Z Progress -> list Z).

Record node : Type := mkNode {
  n_raft : raft St;
  n_propc : bool;
  n_prop : bool;
  n_advancec : bool;
  n_prevLastUnstablei : Z;
  n_prevLastUnstablet : Z;
  n_havePrevLastUnstablei : bool;
  n_prevSnapi : Z;
  n_lead : Z;
  n_prevSoftSt : SoftState;
  n_prevHardSt : HardState
}.

#[export] Instance eta_node : Eta node := fun n =>
  mkNode (n_raft n) (n_propc n) (n_prop n) (n_advancec n) (n_prevLastUnstablei n) (n_prevLastUnstablet n)
    (n_havePrevLastUnstablei n) (n_prevSnapi n) (n_lead n) (n_prevSoftSt n) (n_prevHardSt n).

(** The start of [run]. *)
Definition run_init (r : raft St) : node :=
  mkNode r true false false 0 0 false 0 None_ (softState r) HardState0.

(** What a round of the loop computes before the [select]: the batch on
    offer, if any, and whether proposals are taken. *)
Definition run_offer (n : node) : outcome (option Ready) :=
  if n_advancec n then Ok None else
  let! rd := newReady (n_raft n) (n_prevSoftSt n) (n_prevHardSt n) in
  Ok (if containsUpdates rd then Some rd else None).

Definition run_lead (n : node) : node :=
  if negb (n_lead n =? r_lead (n_raft n)) then
    (if hasLeader (n_raft n) then n <| n_prop := n_propc n |> else n <| n_prop := false |>)
      <| n_lead := r_lead (n_raft n) |>
  else n.

(** The cases of the [select]. *)
Inductive event : Type :=
| EvProp (m : Message)
| EvRecv (m : Message)
| EvConf (cc : ConfChange)
| EvTick (draw : Z)
| EvReady
| EvAdvance.

Definition run_ready (n : node) (rd : Ready) : outcome node :=
  let n := match rd_SoftState rd with Some s => n <| n_prevSoftSt := s |> | None => n end in
  let! n :=
    (if zlen (rd_Entries rd) >? 0 then
       let! e := at_ (rd_Entries rd) (zlen (rd_Entries rd) - 1) in
       Ok (n <| n_prevLastUnstablei := eIndex e |> <| n_prevLastUnstablet := eTerm e |>
             <| n_havePrevLastUnstablei := true |>)
     else Ok n) in
  let n := if negb (IsEmptyHardState (rd_HardState rd)) then n <| n_prevHardSt := rd_HardState rd |> else n in
  let n := if negb (IsEmptySnap (rd_Snapshot rd))
           then n <| n_prevSnapi := smIndex (sMetadata (rd_Snapshot rd)) |> else n in
  Ok (n <| n_raft := (n_raft n) <| r_msgs := [] |> |> <| n_advancec := true |>).

Definition run_advance (n : node) : outcome node :=
  let l := r_raftLog (n_raft n) in
  let! l := (if negb (hsCommit (n_prevHardSt n) =? 0) then appliedTo l (hsCommit (n_prevHardSt n)) else Ok l) in
  let! l := (if n_havePrevLastUnstablei n
             then stableTo l (n_prevLastUnstablei n) (n_prevLastUnstablet n) else Ok l) in
  let l := stableSnapTo l (n_prevSnapi n) in
  Ok (n <| n_raft := (n_raft n) <| r_raftLog := l |> |> <| n_havePrevLastUnstablei := false |>
        <| n_advancec := false |>).

Definition run_conf (n : node) (cc : ConfChange) : outcome node :=
  let! r := applyConfChange range (n_raft n) cc in
  let n := n <| n_raft := r |> in
  Ok (match ccType cc with
      | ConfChangeRemoveNode =>
          if negb (ccNodeID cc =? None_) && (ccNodeID cc =? r_id r) then n <| n_propc := false |> else n
      | _ => n
      end).

(** The [recvc] case: responses from unknown nodes are dropped. *)
Definition receive (r : raft St) (m : Message) : outcome (raft St) :=
  if bool_decide (is_Some (r_prs r !! mFrom m)) || negb (IsResponseMsg m) then Step range r m else Ok r.

(** One round; [None]: the case is not enabled. *)
Definition run_round (n : node) (ev : event) : outcome (option node) :=
  let! offer := run_offer n in
  let n := run_lead n in
  match ev with
  | EvProp m =>
      if n_prop n then
        let! r := Step range (n_raft n) (m <| mFrom := r_id (n_raft n) |>) in Ok (Some (n <| n_raft := r |>))
      else Ok None
  | EvRecv m => let! r := receive (n_raft n) m in Ok (Some (n <| n_raft := r |>))
  | EvConf cc => let! n := run_conf n cc in Ok (Some n)
  | EvTick draw => let! r := tick range (n_raft n) draw in Ok (Some (n <| n_raft := r |>))
  | EvReady =>
      match offer with
      | Some rd => let! n := run_ready n rd in Ok (Some n)
      | None => Ok None
      end
  | EvAdvance => if n_advancec n then let! n := run_advance n in Ok (Some n) else Ok None
  end.
End node_loop.
Arguments node : clear implicits.

(** ** Starting a [node] *)

Section node_start.
  Context {St : Type} `{Storage St}.

Definition start_entry (r : raft St) (peer : Peer) : outcome (raft St) :=
  let cc := ConfChange0 <| ccType := ConfChangeAddNode |> <| ccNodeID := peer_ID peer |>
              <| ccContext := peer_Context peer |> in
  let! d := ConfChange_Marshal cc in
  let! last := RaftLog.lastIndex (r_raftLog r) in
  let e := Entry0 <| eType := EntryConfChange |> <| eTerm := 1 |> <| eIndex := last ⊞ 1 |> <| eData := Some d |> in
  let! '(l, _) := append (r_raftLog r) [e] in
  Ok (r <| r_raftLog := l |>).

Definition StartNode (c : Config St) (peers : list Peer) : outcome (node St) :=
  let! r := newRaft c in
  let! r := becomeFollower r 1 None_ in
  let! r := foldM start_entry peers r in
  let! last := RaftLog.lastIndex (r_raftLog r) in
  let r := r <| r_raftLog := (r_raftLog r) <| l_committed := last |> |> in
  let! r := foldM (fun r peer => addNode r (peer_ID peer)) peers r in
  Ok (run_init r).

Definition RestartNode (c : Config St) : outcome (node St) :=
  let! r := newRaft c in Ok (run_init r).
End node_start.
