(* ===== verification/Delivery.v ===== *)
(** * Batches: what the application gets, saves and acknowledges

    The application drives a [RawNode] ([src/raft/rawnode.go]) over a
    [MemoryStorage] the way [raftNode.start] of [src/etcdserver/raft.go] does:
    take a [Ready], apply what is committed, put the snapshot and the entries
    into the storage, call [Advance]. *)

From S2P Require Import Prelude RaftPB Proto RaftCodec Storage Unstable RaftLog Progress Raft RaftSpec Quorum RaftRefine RaftStep RaftFrame RaftProps RaftStart RawNode.

(** The part of [raftNode.start] that fills the in-memory storage. *)
Definition save_ready (ms : MemoryStorage) (rd : Ready) : outcome MemoryStorage :=
  let ms := if negb (IsEmptySnap (rd_Snapshot rd)) then ms_ApplySnapshot ms (rd_Snapshot rd) else ms in
  let! '(ms, _) := ms_Append ms (rd_Entries rd) in Ok ms.

Section delivery.
  Context (range : gmap Z Progress -> list Z).
  Implicit Types (l : raftLog MemoryStorage) (r : raft MemoryStorage) (rn : RawNode MemoryStorage) (rd : Ready).

(** The incoming snapshot of a log is above everything applied; without one,
    what is applied is still in the log or at its start. *)
Definition fresh_snapshot l : Prop :=
  match u_snapshot (l_unstable l) with
  | None => a_off (log_abs l) <= l_applied l
  | Some s => l_applied l < smIndex (sMetadata s)
  end.

(** The invariant of a node between calls; [pos] is the index of the last
    entry the application has applied. *)
Record rn_ok rn (pos : Z) : Prop := {
  rn_inv : raft_inv (rn_raft rn);
  rn_pos : l_applied (r_raftLog (rn_raft rn)) = pos;
  rn_fresh : fresh_snapshot (r_raftLog (rn_raft rn));
  rn_prev : 0 <= hsCommit (rn_prevHardSt rn) <= l_committed (r_raftLog (rn_raft rn))
}.

(** ** Saving *)

Lemma log_abs_empty_unstable l :
  log_inv l -> u_snapshot (l_unstable l) = None -> u_entries (l_unstable l) = [] -> log_abs l = ms_log (l_storage l).
Proof.
  intros Hl Hs He. pose proof (li_join l Hl) as Hj. rewrite Hs in Hj. destruct Hj as [_ Hj]. specialize (Hj He).
  unfold log_abs, log_base. rewrite Hs, He, Hj. cbn. rewrite app_nil_r, take_ge by (unfold a_last; lia).
  by destruct (ms_log _).
Qed.

(** The unstable entries put after the part of the storage they continue. *)
Lemma append_unstable (ms : MemoryStorage) o es base bt pre :
  ms_inv ms -> contiguous o es -> es <> [] -> o + zlen es <= MaxUint64 -> ms_log ms = mkAlog base bt pre ->
  base < o <= base + zlen pre + 1 ->
  exists ms', ms_Append ms es = Ok (ms', None) /\ ms_inv ms' /\ ms_snapshot ms' = ms_snapshot ms /\
    ms_log ms' = mkAlog base bt (take (Z.to_nat (o - 1 - base)) pre ++ es).
Proof.
  intros Hms Hc Hne Hmax Hlog Ho. pose proof (proj2 Hms) as (Hb & _). rewrite Hlog in Hb. cbn in Hb.
  destruct (ms_Append_eq ms es o Hms Hc Hne ltac:(lia) ltac:(lia)) as [Ha _].
  destruct Ha as (ms' & Ha & Hi & Hl); [rewrite Hlog; unfold a_last; cbn; lia|].
  destruct (ms_Append_rest _ _ _ _ Ha) as [Hs _].
  exists ms'. split_and!; try done. rewrite Hl, Hlog. cbn [a_off].
  replace (Z.to_nat (base + 1 - o)) with 0%nat by lia. rewrite drop_0.
  destruct es as [|e es]; [done|]. cbn. rewrite (contiguous_head _ _ _ Hc).
  by replace (o - base - 1) with (o - 1 - base) by lia.
Qed.
(** Everything unstable, saved: the storage then holds the whole log. *)
Lemma save_ready_spec l rd :
  log_inv l -> rd_Entries rd = u_entries (l_unstable l) ->
  rd_Snapshot rd = default Snapshot0 (u_snapshot (l_unstable l)) ->
  (forall s, u_snapshot (l_unstable l) = Some s -> 0 < smIndex (sMetadata s) < MaxUint64) ->
  exists ms', save_ready (l_storage l) rd = Ok ms' /\ ms_inv ms' /\ ms_log ms' = log_abs l /\
    ms_snapshot ms' = default (ms_snapshot (l_storage l)) (u_snapshot (l_unstable l)).
Proof.
  intros Hl He Hsn Hpos. pose proof (li_join l Hl) as Hj. pose proof (li_max l Hl) as Hmax.
  pose proof (li_contig l Hl) as Hc. pose proof (li_sto l Hl) as Hms. cbn in Hms.
  unfold save_ready. rewrite Hsn, He. destruct (u_snapshot (l_unstable l)) as [s|] eqn:Es; cbn [default from_option id].
  - destruct Hj as [_ Ho]. specialize (Hpos s eq_refl). unfold IsEmptySnap. zif; [lia|].
    destruct (ms_ApplySnapshot_spec (l_storage l) s) as [Hi1 Hl1]; [lia|].
    assert (Habs : log_abs l = mkAlog (smIndex (sMetadata s)) (smTerm (sMetadata s)) (u_entries (l_unstable l))).
    { unfold log_abs, log_base. rewrite Es, Ho. cbn. by replace (Z.to_nat _) with 0%nat by lia. }
    destruct (decide (u_entries (l_unstable l) = [])) as [En|En].
    + rewrite En in *. eexists. split; [done|]. by rewrite Habs.
    + destruct (append_unstable (ms_ApplySnapshot (l_storage l) s) _ _ _ _ _ Hi1 Hc En Hmax Hl1) as (ms' & -> & Hi & Hss & Hlog).
      { cbn. lia. }
      exists ms'. split_and!; try done. by rewrite Hlog, Habs, take_nil.
  - cbn [IsEmptySnap Snapshot0 sMetadata SnapshotMetadata0 smIndex]. zif; [|done].
    destruct (decide (u_entries (l_unstable l) = [])) as [En|En].
    + rewrite En. eexists. split; [done|]. split_and!; [done| |done]. by rewrite log_abs_empty_unstable.
    + destruct Hj as [Ho _]. cbn in Ho. destruct (ms_log (l_storage l)) as [b bt pre] eqn:El.
      destruct (append_unstable (l_storage l) _ _ _ _ _ Hms Hc En Hmax El) as (ms' & -> & Hi & Hss & Hlog).
      { unfold a_last in Ho; cbn in Ho. lia. }
      exists ms'. split_and!; try done. rewrite Hlog. unfold log_abs, log_base. rewrite Es. cbn. by rewrite El.
Qed.
(** ** Acknowledging *)

(** Nothing unstable is left. *)
Definition settled (ms : MemoryStorage) (c : Z) : raftLog MemoryStorage :=
  mkRaftLog ms (mkUnstable None [] (a_last (ms_log ms) + 1)) c c.

Lemma settled_ok ms c : ms_inv ms -> a_off (ms_log ms) <= c <= a_last (ms_log ms) ->
  log_ok (settled ms c) /\ log_abs (settled ms c) = ms_log ms.
Proof.
  intros Hms Hc. pose proof (proj2 Hms) as (Ho & Hm & _).
  assert (Hinv : log_inv (settled ms c)) by (constructor; cbn; [done|apply contiguous_nil|lia|lia]).
  assert (Habs : log_abs (settled ms c) = ms_log ms) by by rewrite log_abs_empty_unstable.
  split; [|done]. split; [done|]. constructor; rewrite ?Habs; cbn; lia.
Qed.

Lemma last_at (es : list Entry) : es <> [] ->
  exists e, at_ es (zlen es - 1) = Ok e /\ es !! Z.to_nat (zlen es - 1) = Some e.
Proof. intros Hne. apply at_in_range. destruct es; [done|]. rewrite length_cons. lia. Qed.

(** All entries of the unstable part are reported stable. *)
Lemma stableTo_all l e :
  let u := l_unstable l in
  contiguous (u_offset u) (u_entries u) -> 0 <= u_offset u -> u_offset u + zlen (u_entries u) <= MaxUint64 ->
  u_entries u <> [] -> at_ (u_entries u) (zlen (u_entries u) - 1) = Ok e ->
  stableTo l (eIndex e) (eTerm e) =
    Ok (l <| l_unstable := mkUnstable (u_snapshot u) [] (u_offset u + zlen (u_entries u)) |>).
Proof.
  intros u Hc Ho Hmax Hne He. pose proof He as He'. apply at_Ok in He' as [_ Hi%Hc].
  assert (0 < zlen (u_entries u)) by (destruct (u_entries u); [done|rewrite length_cons; lia]).
  replace (eIndex e) with (u_offset u + zlen (u_entries u) - 1) by lia.
  unfold stableTo, Unstable.stableTo, maybeTerm, maybeLastIndex. fold u. zif; [lia|]. zif; [lia|].
  u64_simp. zif; [lia|].
  replace (u_offset u + zlen (u_entries u) - 1 - u_offset u) with (zlen (u_entries u) - 1) by lia.
  rewrite He. gosimpl. zif; [|lia]. zif; [|lia]. rewrite slice_from_Ok by lia. gosimpl.
  rewrite drop_ge by lia. replace (u_offset u + zlen (u_entries u) - 1 + 1) with (u_offset u + zlen (u_entries u)) by lia.
  unfold u. by destruct l as [? [] ? ?].
Qed.

(** The hard state remembered after a batch has the current commit index. *)
Lemma prev_commit rn rd :
  let hs0 := hardState (rn_raft rn) in
  0 <= hsCommit (rn_prevHardSt rn) <= l_committed (r_raftLog (rn_raft rn)) ->
  rd_HardState rd = (if negb (isHardStateEqual hs0 (rn_prevHardSt rn)) then hs0 else HardState0) ->
  exists hs, (if negb (IsEmptyHardState (rd_HardState rd)) then rd_HardState rd else rn_prevHardSt rn) = hs /\
    hsCommit hs = l_committed (r_raftLog (rn_raft rn)).
Proof.
  intros hs0 Hp ->. eexists. split; [done|]. unfold IsEmptyHardState.
  destruct (isHardStateEqual hs0 (rn_prevHardSt rn)) eqn:E; cbn [negb].
  - change (isHardStateEqual HardState0 HardState0) with true. cbn [negb].
    unfold isHardStateEqual in E. apply andb_true_iff in E as [_ E]. apply Z.eqb_eq in E. by rewrite <- E.
  - destruct (isHardStateEqual hs0 HardState0) eqn:E0; cbn [negb]; [|done].
    unfold isHardStateEqual in E0. apply andb_true_iff in E0 as [_ E0]. apply Z.eqb_eq in E0. cbn in E0. lia.
Qed.

Lemma apply_committed l : 0 <= l_applied l <= l_committed l ->
  (if negb (l_committed l =? 0) then appliedTo l (l_committed l) else Ok l) = Ok (l <| l_applied := l_committed l |>).
Proof.
  intros Ha. destruct (Z.eqb_spec (l_committed l) 0) as [E|E]; cbn [negb].
  - replace (l_committed l) with (l_applied l) by lia. by destruct l.
  - unfold appliedTo. zif; [lia|]. zif; [lia|]. by zif; [lia|].
Qed.

(** On a log whose unstable part the storage has taken over. *)
Lemma commitReady_log_settles l rd ms :
  log_ok l -> (forall s, u_snapshot (l_unstable l) = Some s -> 0 < smIndex (sMetadata s)) ->
  rd_Entries rd = u_entries (l_unstable l) -> rd_Snapshot rd = default Snapshot0 (u_snapshot (l_unstable l)) ->
  ms_log ms = log_abs l ->
  commitReady_log (l <| l_storage := ms |>) (l_committed l) rd = Ok (settled ms (l_committed l)).
Proof.
  intros [Hinv [Hc Ha]] Hpos He Hsn Hlog. pose proof (log_last_eq l Hinv) as Hlast.
  pose proof (log_off_range l Hinv) as Hoff. pose proof (li_max l Hinv) as Hmax.
  unfold commitReady_log. pose proof (apply_committed (l <| l_storage := ms |>)) as Hap. cbn in Hap.
  rewrite Hap by lia. gosimpl. rewrite He, Hsn.
  set (l1 := (l <| l_storage := ms |>) <| l_applied := l_committed l |>).
  assert (Hst : (if zlen (u_entries (l_unstable l)) >? 0 then
      let! e := at_ (u_entries (l_unstable l)) (zlen (u_entries (l_unstable l)) - 1) in stableTo l1 (eIndex e) (eTerm e)
    else Ok l1) = Ok (l1 <| l_unstable := mkUnstable (u_snapshot (l_unstable l)) [] (a_last (log_abs l) + 1) |>)).
  { rewrite Hlast. zif.
    - destruct (u_entries (l_unstable l)) eqn:Eu; [done|]. rewrite <- Eu in *.
      destruct (last_at (u_entries (l_unstable l))) as (e' & Hat & _); [by rewrite Eu|]. rewrite Hat. gosimpl.
      rewrite (stableTo_all l1); [|apply Hinv|cbn; lia|done|cbn; by rewrite Eu|done].
      cbn. by replace (u_offset (l_unstable l) + zlen (u_entries (l_unstable l)) - 1 + 1)
        with (u_offset (l_unstable l) + zlen (u_entries (l_unstable l))) by lia.
    - destruct (u_entries (l_unstable l)) eqn:Eu; [|cbn in *; lia]. cbn.
      replace (u_offset (l_unstable l) + Z.of_nat 0 - 1 + 1) with (u_offset (l_unstable l)) by lia.
      unfold l1. clear -Eu. destruct l as [? [? es ?] ? ?]. cbn in *. by subst. }
  rewrite Hst. gosimpl. f_equal. unfold settled. rewrite Hlog.
  destruct (u_snapshot (l_unstable l)) as [s|] eqn:Es; cbn [default from_option id].
  - specialize (Hpos s eq_refl). unfold IsEmptySnap. zif; [lia|]. unfold stableSnapTo, Unstable.stableSnapTo. cbn.
    by zif; [|lia].
  - done.
Qed.

Lemma commitReady_settles rn rd ms :
  let l := r_raftLog (rn_raft rn) in
  let rn' := rn <| rn_raft := (rn_raft rn) <| r_raftLog := l <| l_storage := ms |> |> |> in
  log_ok l -> (forall s, u_snapshot (l_unstable l) = Some s -> 0 < smIndex (sMetadata s)) ->
  0 <= hsCommit (rn_prevHardSt rn) <= l_committed l ->
  rd_HardState rd = (if negb (isHardStateEqual (hardState (rn_raft rn)) (rn_prevHardSt rn))
                     then hardState (rn_raft rn) else HardState0) ->
  rd_Entries rd = u_entries (l_unstable l) -> rd_Snapshot rd = default Snapshot0 (u_snapshot (l_unstable l)) ->
  ms_log ms = log_abs l ->
  exists rn2, commitReady rn' rd = Ok rn2 /\
    rn_raft rn2 = (rn_raft rn) <| r_raftLog := settled ms (l_committed l) |> /\
    hsCommit (rn_prevHardSt rn2) = l_committed l.
Proof.
  intros l rn' Hl Hpos Hprev Hhs He Hsn Hlog. destruct (prev_commit rn rd Hprev Hhs) as (hs & Hhs2 & Hcm).
  unfold commitReady. cbn zeta.
  set (rn1 := match rd_SoftState rd with Some s => _ | None => _ end).
  assert (Hr1 : rn_raft rn1 = rn_raft rn' /\ rn_prevHardSt rn1 = rn_prevHardSt rn)
    by (unfold rn1; by destruct (rd_SoftState rd)).
  set (rn2 := if negb (IsEmptyHardState (rd_HardState rd)) then _ else _).
  assert (Hr2 : rn_raft rn2 = rn_raft rn' /\ rn_prevHardSt rn2 = hs).
  { destruct Hr1 as [E1 E2]. unfold rn2. rewrite <- Hhs2.
    destruct (negb (IsEmptyHardState (rd_HardState rd))); cbn; by rewrite E1. }
  clearbody rn2. clear rn1 Hr1. destruct Hr2 as [Er2 Eh2]. rewrite Eh2, Hcm, Er2.
  change (r_raftLog (rn_raft rn')) with (l <| l_storage := ms |>). fold l.
  rewrite commitReady_log_settles by done. gosimpl. eexists. split; [done|]. split; [done|]. cbn. by rewrite Eh2.
Qed.
(** ** One batch *)

Definition with_storage rn (ms : MemoryStorage) : RawNode MemoryStorage :=
  rn <| rn_raft := (rn_raft rn) <| r_raftLog := (r_raftLog (rn_raft rn)) <| l_storage := ms |> |> |>.

(** Take a [Ready], save it, acknowledge it. *)
Definition batch rn rd rn' : Prop :=
  exists rn1 ms, rn_Ready rn = Ok (rd, rn1) /\
    save_ready (l_storage (r_raftLog (rn_raft rn1))) rd = Ok ms /\
    Advance (with_storage rn1 ms) rd = Ok rn'.

(** Where the committed entries of a batch start: after the snapshot it
    brings, or after what is applied. *)
Definition delivered_from (pos : Z) rd : Z :=
  if IsEmptySnap (rd_Snapshot rd) then pos else smIndex (sMetadata (rd_Snapshot rd)).

(** What a batch delivers to an application that has applied up to [pos]. *)
Record delivers l (pos : Z) rd : Prop := {
  dl_from : pos <= delivered_from pos rd <= l_committed l;
  dl_snapshot : IsEmptySnap (rd_Snapshot rd) = false -> pos < smIndex (sMetadata (rd_Snapshot rd));
  dl_entries : rd_CommittedEntries rd = a_slice (log_abs l) (delivered_from pos rd + 1) (l_committed l + 1);
  dl_off : a_off (log_abs l) <= delivered_from pos rd
}.

Lemma inv_settled r ms : raft_inv r -> ms_inv ms -> ms_log ms = log_abs (r_raftLog r) ->
  ms_snapshot ms = default (ms_snapshot (l_storage (r_raftLog r))) (u_snapshot (l_unstable (r_raftLog r))) ->
  raft_inv (r <| r_msgs := [] |> <| r_raftLog := settled ms (l_committed (r_raftLog r)) |>).
Proof.
  intros Hr Hms Hlog Hsn. destruct (ri_log r Hr) as [_ [Hc _]].
  destruct (settled_ok ms (l_committed (r_raftLog r)) Hms) as [Hok Habs]; [by rewrite Hlog|].
  pose proof (ri_snap r Hr) as Hs. destruct Hr. constructor; cbn; try done.
  - by rewrite Habs, Hlog.
  - intros s e [= <- <-]. rewrite Hsn. unfold RaftLog.snapshot in Hs.
    destruct (u_snapshot (l_unstable (r_raftLog r))); by eapply Hs.
Qed.

(** The batch a node has on offer. *)
Definition ready_of rn : Ready :=
  let r := rn_raft rn in let l := r_raftLog r in
  mkReady (if negb (SoftState_equal (softState r) (rn_prevSoftSt rn)) then Some (softState r) else None)
    (if negb (isHardStateEqual (hardState r) (rn_prevHardSt rn)) then hardState r else HardState0)
    (u_entries (l_unstable l)) (default Snapshot0 (u_snapshot (l_unstable l)))
    (a_slice (log_abs l) (Z.max (l_applied l) (a_off (log_abs l)) + 1) (l_committed l + 1)) (r_msgs r).

Lemma unstableEntries_eq l : unstableEntries l = u_entries (l_unstable l).
Proof. unfold unstableEntries. by destruct (u_entries (l_unstable l)). Qed.

Lemma newReady_eq rn : log_ok (r_raftLog (rn_raft rn)) ->
  newReady (rn_raft rn) (rn_prevSoftSt rn) (rn_prevHardSt rn) = Ok (ready_of rn).
Proof.
  intros Hl. destruct (nextEnts_eq _ Hl) as (Hne & _). unfold newReady. rewrite Hne, unstableEntries_eq. gosimpl. unfold ready_of.
  by destruct (u_snapshot (l_unstable (r_raftLog (rn_raft rn)))).
Qed.

Lemma pending_snapshot rn pos s : rn_ok rn pos ->
  let l := r_raftLog (rn_raft rn) in u_snapshot (l_unstable l) = Some s ->
  0 < smIndex (sMetadata s) < MaxUint64 /\ a_off (log_abs l) = smIndex (sMetadata s) /\ pos < smIndex (sMetadata s).
Proof.
  intros [Hr Hpos Hfr _] l Es. pose proof (ri_log _ Hr) as [_ [_ Ha]]. fold l in Hpos, Hfr, Ha.
  unfold fresh_snapshot in Hfr. rewrite Es in Hfr.
  pose proof (ri_snap _ Hr) as Hs. unfold RaftLog.snapshot in Hs. fold l in Hs. rewrite Es in Hs.
  destruct (Hs s None eq_refl) as [[_ ?] _]. split_and!; [lia|lia| |lia]. unfold log_abs, log_base. by rewrite Es.
Qed.

Lemma ready_delivers rn pos : rn_ok rn pos -> delivers (r_raftLog (rn_raft rn)) pos (ready_of rn).
Proof.
  intros Hok. pose proof Hok as [Hr Hpos Hfr _]. pose proof (ri_log _ Hr) as [_ [Hc Ha]].
  pose proof (fun s => pending_snapshot rn pos s Hok) as Hsn. cbn in Hsn.
  set (l := r_raftLog (rn_raft rn)) in *.
  assert (Hfrom : delivered_from pos (ready_of rn) = Z.max (l_applied l) (a_off (log_abs l))).
  { unfold delivered_from, ready_of, fresh_snapshot, IsEmptySnap in *. cbn. fold l.
    destruct (u_snapshot (l_unstable l)) as [s|]; cbn.
    - destruct (Hsn s eq_refl) as (? & ? & ?). zif; lia.
    - lia. }
  constructor; rewrite ?Hfrom; try done; try lia. unfold ready_of, IsEmptySnap; cbn. fold l.
  destruct (u_snapshot (l_unstable l)) as [s|]; cbn; [|done]. by destruct (Hsn s eq_refl) as (? & ? & ?).
Qed.

Lemma batch_ok rn pos :
  rn_ok rn pos ->
  let l := r_raftLog (rn_raft rn) in
  exists rn', batch rn (ready_of rn) rn' /\ rn_ok rn' (l_committed l) /\
    abs (rn_raft rn') = (abs (rn_raft rn)) <| n_out := [] |> /\
    ms_log (l_storage (r_raftLog (rn_raft rn'))) = log_abs l.
Proof.
  intros Hok l. pose proof Hok as [Hr Hpos Hfr Hprev]. fold l in Hpos, Hfr, Hprev. pose proof (ri_log _ Hr) as Hl.
  pose proof (fun s => pending_snapshot rn pos s Hok) as Hsn. cbn in Hsn. fold l in Hl, Hsn.
  pose proof Hl as [Hinv [Hc Ha]]. set (rn1 := rn <| rn_raft := (rn_raft rn) <| r_msgs := [] |> |>).
  destruct (save_ready_spec l (ready_of rn)) as (ms & Hsave & Hms & Hlog & Hss); try done; [apply Hsn|].
  destruct (commitReady_settles rn1 (ready_of rn) ms) as (rn2 & Hadv & Hr2 & Hh2); try done; [apply Hsn|].
  pose proof (inv_settled (rn_raft rn) ms Hr Hms Hlog Hss) as Hinv2. fold l in Hinv2.
  destruct (settled_ok ms (l_committed l) Hms) as [Hok2 Habs2]; [by rewrite Hlog|].
  exists rn2. split_and!.
  - exists rn1, ms. split_and!; try done. unfold rn_Ready. by rewrite newReady_eq.
  - constructor; rewrite ?Hr2, ?Hh2; cbn; fold l; [done|done| |lia]. unfold fresh_snapshot. cbn. rewrite Habs2, Hlog. lia.
  - rewrite Hr2. unfold abs. cbn. fold l. by rewrite Habs2, Hlog.
  - by rewrite Hr2.
Qed.

(** A batch is determined by the node. *)
Lemma batch_inv rn pos rd rn' :
  rn_ok rn pos -> batch rn rd rn' -> let l := r_raftLog (rn_raft rn) in
  rd = ready_of rn /\ rn_ok rn' (l_committed l) /\ abs (rn_raft rn') = (abs (rn_raft rn)) <| n_out := [] |>.
Proof.
  intros Hok (rn1 & ms & Hrd & Hs & Ha). destruct (batch_ok rn pos Hok) as (rn2 & (rn1' & ms' & Hrd' & Hs' & Ha') & ? & ? & _).
  rewrite Hrd' in Hrd. injection Hrd as <- <-. rewrite Hs' in Hs. injection Hs as <-.
  rewrite Ha' in Ha. injection Ha as <-. done.
Qed.
(** ** Inputs *)

(** What the raft code does keeps the invariant when it keeps the
    representation, leaves the application's part alone and keeps what is
    committed. *)
Definition lawful r r' : Prop := raft_inv r' /\ frame r r' /\ keeps (abs r) (abs r').

Lemma lawful_fresh l l' : lframe l l' -> l_applied l <= l_committed l -> fresh_snapshot l -> fresh_snapshot l'.
Proof.
  intros [Ha Hs _ Hu] Hc. unfold fresh_snapshot, log_abs, log_base. cbn.
  destruct Hu as [->|(s & -> & Hlt)]; rewrite Ha; [|lia]. by rewrite Hs.
Qed.

Lemma lawful_ok rn pos r' : rn_ok rn pos -> lawful (rn_raft rn) r' -> rn_ok (rn <| rn_raft := r' |>) pos.
Proof.
  intros [Hr Hpos Hfr Hprev] (Hr' & Hf & _). pose proof (ri_log _ Hr) as [_ [_ Ha]].
  constructor; cbn; [done| | |].
  - by rewrite (lf_applied _ _ Hf).
  - eapply lawful_fresh; [done|lia|done].
  - pose proof (lf_committed _ _ Hf). lia.
Qed.

Lemma Step_lawful r m r' :
  raft_inv r -> msg_ok m -> headroom r m -> Step range r m = Ok r' -> lawful r r'.
Proof.
  intros Hr Hm Hh Ho. destruct (Step_sim range r m r' Hr Hm Hh Ho Hr) as [Hr' Hs].
  split_and!; [done|by eapply Step_frame|]. by destruct (asteps_keeps _ _ _ Hm (abs_node_ok r Hr) Hs).
Qed.

Lemma tick_lawful r draw r' :
  raft_inv r -> headroom r Message0 -> tick range r draw = Ok r' -> lawful r r'.
Proof.
  intros Hr Hh Ho. destruct (tick_local range r draw r' Hr Hh Ho) as [Hr' Hs].
  split_and!; [done|by eapply tick_frame|]. pose proof (abs_node_ok r Hr) as Hok. clear Ho Hr'. revert Hok.
  generalize (abs r), (abs r'), Hs. clear. intros n n' Hs Hok. induction Hs as [|n n1 n2 (m & H1 & Ht & Hty) _ IH]; [apply keeps_refl|].
  assert (msg_ok m) as Hm by (split; [by rewrite Ht|by destruct Hty as [->|[->| ->]]]).
  destruct (astep_keeps m n n1 Hm Hok H1) as [Hok1 K1]. eapply keeps_trans; [exact K1|]. by apply IH.
Qed.

(** A configuration change that moves the commit index of a leader only.
    [removeNode] of the code runs [maybeCommit] in every state, so that on a
    node that is not the leader the progress its map still holds from an
    earlier leadership could commit; [quiet_change] leaves that out. *)
Definition quiet_change r (cc : ConfChange) : Prop :=
  ccType cc = ConfChangeRemoveNode -> r_state r <> StateLeader ->
  forall r1 b, maybeCommit (resetPendingConf (delProgress r (ccNodeID cc))) = Ok (r1, b) -> b = false.

Lemma keeps_same_log r r' : r_raftLog r' = r_raftLog r -> keeps (abs r) (abs r').
Proof. intros Hl. unfold keeps. cbn. rewrite Hl. split_and!; done || lia. Qed.

Lemma maybeCommit_false r r' : maybeCommit r = Ok (r', false) -> r' = r.
Proof.
  unfold maybeCommit, RaftLog.maybeCommit. intros Ho. inv_ok.
  match goal with Hx : _ = Ok (_, false) |- _ => rename Hx into Hl end.
  zif in Hl; [|injection Hl as <-; by destruct r]. inv_ok. zif in Hl; inv_ok; [done|by destruct r].
Qed.

Lemma inv_delProgress r id : raft_inv r -> raft_inv (resetPendingConf (delProgress r id)).
Proof. intros []. constructor; cbn; try done. by apply map_Forall_delete. Qed.

Lemma removeNode_lawful r id r' :
  raft_inv r -> quiet_change r (ConfChange0 <| ccType := ConfChangeRemoveNode |> <| ccNodeID := id |>) ->
  removeNode range r id = Ok r' -> lawful r r'.
Proof.
  intros Hr Hq Ho. pose proof (inv_delProgress r id Hr) as Hr1. unfold removeNode in Ho.
  set (r1 := resetPendingConf (delProgress r id)) in *. assert (r_raftLog r1 = r_raftLog r) as El by done.
  assert (frame r r1 /\ keeps (abs r) (abs r1)) as [Hf1 K1] by (split; [by apply frame_same|by apply keeps_same_log]).
  zif in Ho; [by injection Ho as <-|]. apply bind_Ok_inv in Ho as ([r2 b] & Hc & Ho).
  destruct (decide (r_state r = StateLeader)) as [Hs|Hs].
  - pose proof Hc as Hc'. apply (maybeCommit_sim Message0) in Hc' as (Hs2 & _ & _ & Hsim); [|done].
    destruct (Hsim Hr1) as [Hr2 Hst2].
    assert (raft_inv r' /\ asteps Message0 (abs r1) (abs r') /\ frame r1 r') as (Hr' & Hst & Hf).
    { apply maybeCommit_frame in Hc. destruct b; [|by injection Ho as <-].
      pose proof Ho as Ho'. apply (bcastAppend_sim range _ Message0) in Ho' as [_ Hsim2]; [|done].
      destruct (Hsim2 Hr2) as [? Hst3]. apply bcastAppend_frame in Ho.
      split_and!; [done|etrans; [exact Hst2|exact Hst3]|etrans; [exact Hc|exact Ho]]. }
    split_and!; [done|by etrans|]. eapply keeps_trans; [exact K1|].
    by destruct (asteps_keeps Message0 _ _ ltac:(done) (abs_node_ok r1 Hr1) Hst).
  - specialize (Hq eq_refl Hs r2 b Hc) as ->. apply maybeCommit_false in Hc as ->. by injection Ho as <-.
Qed.
Lemma lawful_refl r : raft_inv r -> lawful r r.
Proof. intros Hr. split_and!; [done|done|apply keeps_refl]. Qed.

Lemma inv_resetPendingConf r : raft_inv r -> lawful r (resetPendingConf r).
Proof.
  intros Hr. split_and!; [by apply inv_pendingConf|by apply frame_same|by apply keeps_same_log].
Qed.

Lemma addNode_lawful r id r' : raft_inv r -> addNode r id = Ok r' -> lawful r r'.
Proof.
  intros Hr Ho. unfold addNode in Ho. destruct (r_prs r !! id); [injection Ho as <-; by apply lawful_refl|].
  apply bind_Ok_inv in Ho as (li & _ & Ho). injection Ho as <-.
  split_and!; [|by apply frame_same|by apply keeps_same_log]. destruct Hr. constructor; cbn; try done.
  apply map_Forall_insert_2; [|done]. split; [done|]. cbn. apply u64_range.
Qed.

Lemma applyConfChange_lawful r cc r' :
  raft_inv r -> quiet_change r cc -> applyConfChange range r cc = Ok r' -> lawful r r'.
Proof.
  intros Hr Hq Ho. unfold applyConfChange in Ho. zif in Ho; [injection Ho as <-; by apply inv_resetPendingConf|].
  destruct (ccType cc) eqn:E; try done.
  - by apply addNode_lawful in Ho.
  - apply removeNode_lawful in Ho; try done. intros _ Hs. by apply Hq.
  - injection Ho as <-. by apply inv_resetPendingConf.
Qed.

(** What the application may call between batches, every call of [RawNode]:
    with one exception, the application of a removal by which a node that is
    not the leader would commit ([quiet_change]), and as long as terms and
    indices stay below the largest uint64 ([headroom]). *)
Inductive input rn : RawNode MemoryStorage -> Prop :=
| in_Step m rn' err :
    msg_ok m -> headroom (rn_raft rn) m -> rn_Step range rn m = Ok (rn', err) -> input rn rn'
| in_Tick draw rn' : headroom (rn_raft rn) Message0 -> Tick range rn draw = Ok rn' -> input rn rn'
| in_Campaign rn' : headroom (rn_raft rn) Message0 -> Campaign range rn = Ok rn' -> input rn rn'
| in_Propose data rn' :
    headroom (rn_raft rn) (Message0 <| mEntries := [Entry0] |>) -> Propose range rn data = Ok rn' -> input rn rn'
| in_ProposeConfChange cc rn' :
    headroom (rn_raft rn) (Message0 <| mEntries := [Entry0] |>) -> ProposeConfChange range rn cc = Ok rn' -> input rn rn'
| in_ApplyConfChange cc rn' cs :
    quiet_change (rn_raft rn) cc -> ApplyConfChange range rn cc = Ok (rn', cs) -> input rn rn'
| in_ReportUnreachable id rn' :
    headroom (rn_raft rn) Message0 -> ReportUnreachable range rn id = Ok rn' -> input rn rn'
| in_ReportSnapshot id st rn' :
    headroom (rn_raft rn) Message0 -> ReportSnapshot range rn id st = Ok rn' -> input rn rn'.

Lemma on_raft_Step rn m rn' :
  raft_inv (rn_raft rn) -> msg_ok m -> headroom (rn_raft rn) m -> on_raft rn (fun r => Step range r m) = Ok rn' ->
  exists r', lawful (rn_raft rn) r' /\ rn' = rn <| rn_raft := r' |>.
Proof.
  intros Hr Hm Hh Ho. apply bind_Ok_inv in Ho as (r' & Ho & E). injection E as <-.
  exists r'. split; [by eapply Step_lawful|done].
Qed.

Lemma input_lawful rn rn' : raft_inv (rn_raft rn) -> input rn rn' ->
  exists r', lawful (rn_raft rn) r' /\ rn' = rn <| rn_raft := r' |>.
Proof.
  intros Hr Hi. destruct Hi as [m rn' err Hm Hh Ho|draw rn' Hh Ho|rn' Hh Ho|data rn' Hh Ho|cc rn' Hh Ho
    |cc rn' cs Hq Ho|id rn' Hh Ho|id st rn' Hh Ho].
  - unfold rn_Step in Ho. assert (rn = rn <| rn_raft := rn_raft rn |>) as Hid by by destruct rn.
    zif in Ho; [injection Ho as <- <-; exists (rn_raft rn); by split; [apply lawful_refl|]|].
    destruct (_ || _); [|injection Ho as <- <-; exists (rn_raft rn); by split; [apply lawful_refl|]].
    apply bind_Ok_inv in Ho as (rn1 & Ho & Er). injection Er as <- <-. by eapply on_raft_Step.
  - apply bind_Ok_inv in Ho as (r' & Ho & Er). injection Er as <-. exists r'. split; [by eapply tick_lawful|done].
  - by eapply on_raft_Step in Ho.
  - apply bind_Ok_inv in Ho as (r' & Ho & E). injection E as <-. exists r'. split; [by eapply Step_lawful in Ho|done].
  - apply bind_Ok_inv in Ho as (d & _ & Ho). by eapply on_raft_Step in Ho.
  - apply bind_Ok_inv in Ho as (r' & Ho & E). injection E as <- _. exists r'.
    split; [by eapply applyConfChange_lawful|done].
  - by eapply on_raft_Step in Ho.
  - by eapply on_raft_Step in Ho.
Qed.
(** ** Runs *)

(** The application's position after a batch. *)
Definition after (pos : Z) rd : Z := delivered_from pos rd + zlen (rd_CommittedEntries rd).

(** A run from [rn0]: inputs and batches in any order; [rds] are the batches,
    [pos] is where the application is. *)
Inductive run (rn0 : RawNode MemoryStorage) (p0 : Z) : list Ready -> RawNode MemoryStorage -> Z -> Prop :=
| run_start : run rn0 p0 [] rn0 p0
| run_input rds rn rn' pos : run rn0 p0 rds rn pos -> input rn rn' -> run rn0 p0 rds rn' pos
| run_batch rds rn rd rn' pos :
    run rn0 p0 rds rn pos -> batch rn rd rn' -> run rn0 p0 (rds ++ [rd]) rn' (after pos rd).

(** A sequence of batches delivers entries one after the other: the entries of
    each follow on those of the batches before it, or on the newer snapshot it
    brings. *)
Fixpoint in_order (pos : Z) (rds : list Ready) : Prop :=
  match rds with
  | [] => True
  | rd :: rds' =>
      (IsEmptySnap (rd_Snapshot rd) = false -> pos < smIndex (sMetadata (rd_Snapshot rd))) /\
      contiguous (delivered_from pos rd + 1) (rd_CommittedEntries rd) /\ in_order (after pos rd) rds'
  end.

Definition end_pos (pos : Z) (rds : list Ready) : Z := foldl after pos rds.

Lemma in_order_snoc pos rds rd : in_order pos (rds ++ [rd]) <-> in_order pos rds /\ in_order (end_pos pos rds) [rd].
Proof.
  revert pos. induction rds as [|rd' rds IH]; intros pos; cbn [app in_order end_pos foldl]; [tauto|].
  rewrite IH. unfold end_pos. cbn [in_order foldl]. tauto.
Qed.

Lemma slice_entries (a : alog) lo hi e :
  alog_wf a -> a_off a < lo <= hi -> e ∈ a_slice a lo hi -> lo <= eIndex e < hi /\ a_entry a (eIndex e) = Some e.
Proof.
  intros Hwf Hlo [k Hk]%list_elem_of_lookup. rewrite a_slice_lookup in Hk by lia. zif in Hk; [|done].
  pose proof (a_entry_index _ _ _ Hwf Hk) as Hi. rewrite Hi. split; [lia|done].
Qed.

Lemma slice_contiguous (a : alog) lo hi : alog_wf a -> a_off a < lo <= hi -> contiguous lo (a_slice a lo hi).
Proof.
  intros Hwf Hlo k e Hk. rewrite a_slice_lookup in Hk by lia. zif in Hk; [|done].
  pose proof (a_entry_index _ _ _ Hwf Hk). lia.
Qed.

(** What was delivered and is still in the log is still what the log has. *)
Definition undisturbed rn (pos : Z) (rds : list Ready) : Prop :=
  forall rd e, rd ∈ rds -> e ∈ rd_CommittedEntries rd ->
    eIndex e <= pos /\
    (a_off (log_abs (r_raftLog (rn_raft rn))) < eIndex e ->
       a_entry (log_abs (r_raftLog (rn_raft rn))) (eIndex e) = Some e).

Lemma after_ready rn pos : rn_ok rn pos -> after pos (ready_of rn) = l_committed (r_raftLog (rn_raft rn)).
Proof.
  intros Hok. destruct (ready_delivers rn pos Hok) as [Hf _ He Ho]. pose proof (ri_log _ (rn_inv _ _ Hok)) as [Hi [Hc _]].
  unfold after. rewrite He, a_slice_length; lia.
Qed.

Lemma run_ok rn0 p0 rds rn pos :
  rn_ok rn0 p0 -> run rn0 p0 rds rn pos ->
  rn_ok rn pos /\ pos = end_pos p0 rds /\ in_order p0 rds /\ undisturbed rn pos rds.
Proof.
  intros Hok0 Hrun. induction Hrun as [|rds rn rn' pos Hrun IH Hin|rds rn rd rn' pos Hrun IH Hb].
  - split_and!; try done. intros rd e Hrd. by apply elem_of_nil in Hrd.
  - destruct IH as (Hok & Hp & Ho & Hu). destruct (input_lawful rn rn') as (r' & Hlaw & ->); [apply Hok|done|].
    split_and!; try done; [by apply lawful_ok|]. intros rd e Hrd He. destruct (Hu rd e Hrd He) as [Hle Hent].
    split; [done|]. cbn. destruct Hlaw as (_ & _ & Hk1 & _ & Hk3). cbn in Hk1, Hk3. intros Hoff.
    pose proof (ri_log _ (rn_inv _ _ Hok)) as [_ [_ Ha]]. rewrite (rn_pos _ _ Hok) in Ha.
    rewrite Hk3 by lia. apply Hent. lia.
  - destruct IH as (Hok & Hp & Ho & Hu). destruct (batch_inv rn pos rd rn' Hok Hb) as (-> & Hok' & Habs).
    pose proof (after_ready rn pos Hok) as Hafter. pose proof (f_equal n_log Habs) as Hlog. cbn in Hlog.
    destruct (ready_delivers rn pos Hok) as [Hf Hs He Hoff].
    pose proof (log_abs_wf _ (proj1 (ri_log _ (rn_inv _ _ Hok)))) as Hwf.
    rewrite Hafter. split_and!; [done| | |].
    + unfold end_pos. rewrite foldl_app. cbn. fold (end_pos p0 rds). by rewrite <- Hp.
    + apply in_order_snoc. rewrite <- Hp. cbn [in_order]. split_and!; try done.
      rewrite He. apply slice_contiguous; [done|lia].
    + intros rd e [Hrd| ->%list_elem_of_singleton]%elem_of_app Hin; rewrite Hlog.
      * destruct (Hu rd e Hrd Hin). split; [lia|done].
      * rewrite He in Hin. apply slice_entries in Hin as [? ?]; [|done|lia]. split; [lia|done].
Qed.

(** C2. Exactly-once, in-order delivery.  However the calls of an application
    that saves every batch before it acknowledges it alternate with inputs
    (messages, ticks, proposals, configuration changes), the committed entries
    it is handed continue each other without gap or repetition, only a newer
    snapshot skips ahead; what it was handed stays in the node's log as long
    as the log reaches back; and at any time taking, saving and acknowledging
    the next batch succeeds and brings the application to the commit index. *)
Theorem RawNode_delivers rn0 p0 rds rn pos :
  rn_ok rn0 p0 -> run rn0 p0 rds rn pos ->
  pos = end_pos p0 rds /\ in_order p0 rds /\ undisturbed rn pos rds /\
  exists rd rn', batch rn rd rn' /\ after pos rd = l_committed (r_raftLog (rn_raft rn)) /\
    rn_ok rn' (after pos rd).
Proof.
  intros Hok0 Hrun. destruct (run_ok _ _ _ _ _ Hok0 Hrun) as (Hok & ? & ? & ?). split_and!; try done.
  destruct (batch_ok rn pos Hok) as (rn' & Hb & Hok' & _). exists (ready_of rn), rn'.
  rewrite after_ready by done. done.
Qed.
End delivery.

(** ** Starting *)

Section start.
  Implicit Types (c : Config MemoryStorage) (r : raft MemoryStorage).

Lemma setProgress_log (peers : list Z) r :
  r_raftLog (foldl (fun r p => setProgress r p 0 1) r peers) = r_raftLog r.
Proof. revert r. induction peers as [|p peers IH]; intros r; cbn; [done|]. by rewrite IH. Qed.

(** The log of a new node is the one opened on its storage; what the
    configuration says is applied, is. *)
Lemma newRaft_log c r : newRaft c = Ok r ->
  exists l, newLog (c_Storage c) = Ok l /\ l_storage (r_raftLog r) = l_storage l /\
    l_unstable (r_raftLog r) = l_unstable l /\
    l_applied (r_raftLog r) = if c_Applied c >? 0 then c_Applied c else l_applied l.
Proof.
  unfold newRaft. destruct (validate c); [done|]. intros Ho. apply bind_Ok_inv in Ho as (l & Hl & Ho).
  apply bind_Ok_inv in Ho as ([[hs cs] err] & _ & Ho). destruct err; [done|].
  apply bind_Ok_inv in Ho as (peers & _ & Ho). exists l. split; [done|].
  set (r0 := foldl _ _ _) in Ho. assert (r_raftLog r0 = l) as E0 by (unfold r0; by rewrite setProgress_log).
  clearbody r0. apply bind_Ok_inv in Ho as (r1 & H1 & Ho). apply bind_Ok_inv in Ho as (r2 & H2 & Ho).
  apply bind_Ok_inv in Ho as (r3 & H3%becomeFollower_log & Ho). apply bind_Ok_inv in Ho as (u & _ & Ho).
  injection Ho as <-. rewrite H3. subst l.
  assert (l_storage (r_raftLog r1) = l_storage (r_raftLog r0) /\ l_unstable (r_raftLog r1) = l_unstable (r_raftLog r0) /\
    l_applied (r_raftLog r1) = l_applied (r_raftLog r0)) as (E1 & E2 & E3).
  { zif in H1; [by injection H1 as <-|]. unfold loadState in H1. inv_ok. zif in H1; [done|]. zif in H1; [done|].
    by injection H1 as <-. }
  destruct (c_Applied c >? 0) eqn:Eap; [|by injection H2 as <-]. apply bind_Ok_inv in H2 as (l2 & H2 & E). injection E as <-. cbn.
  unfold appliedTo in H2. zif in H2; [lia|]. zif in H2; [done|]. zif in H2; [done|]. injection H2 as <-. cbn. by split_and!.
Qed.

Definition start_applied c : Z := if c_Applied c >? 0 then c_Applied c else a_off (ms_log (c_Storage c)).

(** A restarted node is ready for an application that has applied what the
    configuration says. *)
Lemma restart_ok c hs cs r :
  config_ok c hs cs -> newRaft c = Ok r -> 0 <= hsCommit hs ->
  rn_ok (mkRawNode r (softState r) (hardState r)) (start_applied c).
Proof.
  intros Hco Ho Hc0. destruct (newRaft_restarts c hs cs Hco) as (r' & Ho' & Hr & _ & _ & _ & _ & Hlog & Hcm & _).
  rewrite Ho in Ho'. injection Ho' as <-. destruct (newRaft_log c r Ho) as (l & Hl & Hst & Hu & Ha).
  destruct (newLog_spec (c_Storage c) (co_sto _ _ _ Hco)) as (l' & Hl' & _ & _ & _ & Hap & _ & Hus).
  rewrite Hl in Hl'. injection Hl' as <-. rewrite Hap in Ha.
  constructor; cbn; [done|done| |lia]. unfold fresh_snapshot. rewrite Hu, Hus, Hlog, Ha. cbn.
  pose proof (co_applied _ _ _ Hco) as Hap'. cbn in Hap'. zif; lia.
Qed.
(** ** The first start *)

(** The configuration change that adds a peer, and the entry it is in at
    index [k + 1]. *)
Definition add_conf (p : Peer) : ConfChange :=
  ConfChange0 <| ccType := ConfChangeAddNode |> <| ccNodeID := peer_ID p |> <| ccContext := peer_Context p |>.

Definition boot_entry (k : nat) (p : Peer) : Entry :=
  Entry0 <| eType := EntryConfChange |> <| eTerm := 1 |> <| eIndex := Z.of_nat k + 1 |>
         <| eData := Some (ConfChange_MarshalTo (add_conf p)) |>.

(** The peer's identity is a uint64, and its change fits in a Go slice. *)
Definition peer_fits (p : Peer) : Prop :=
  is_u64 (peer_ID p) /\ zlen (ConfChange_MarshalTo (add_conf p)) < 9223372036854775808.

Lemma add_conf_wf p : peer_fits p -> ConfChange_wf (add_conf p).
Proof. intros [Hid _]. by split_and!. Qed.

Lemma boot_entries_eq peers k : Forall peer_fits peers -> Z.of_nat k + zlen peers < MaxUint64 ->
  boot_entries peers (Z.of_nat k) = Ok (imap (fun j p => boot_entry (k + j) p) peers).
Proof.
  revert k. induction peers as [|p peers IH]; intros k Hp Hmax; cbn; [done|].
  apply Forall_cons in Hp as [Hp Hps]. rewrite length_cons in Hmax. fold (add_conf p).
  unfold ConfChange_Marshal. rewrite marshal_Ok by by apply ConfChange_len, add_conf_wf. gosimpl.
  replace (Z.of_nat k + 1) with (Z.of_nat (S k)) by lia. rewrite IH by (try done; lia). gosimpl.
  rewrite u64_small by lia. f_equal. f_equal.
  - unfold boot_entry. rewrite Nat.add_0_r. replace (Z.of_nat k + 1) with (Z.of_nat (S k)) by lia. done.
  - apply imap_ext. intros j q _. cbn. by rewrite Nat.add_succ_r.
Qed.

Lemma boot_entry_ok peers k : contiguous (Z.of_nat k + 1) (imap (fun j p => boot_entry (k + j) p) peers) /\
  Forall (fun e => eTerm e = 1) (imap (fun j p => boot_entry (k + j) p) peers).
Proof.
  revert k. induction peers as [|p peers IH]; intros k; cbn; [split; [apply contiguous_nil|constructor]|].
  destruct (IH (S k)) as [Hc Ht].
  assert (imap ((fun j p => boot_entry (k + j) p) ∘ S) peers = imap (fun j p => boot_entry (S k + j) p) peers) as ->
    by (apply imap_ext; intros; cbn; by rewrite Nat.add_succ_r).
  split; [apply contiguous_cons; split; [cbn; lia|]|by constructor].
  by replace (Z.of_nat k + 1 + 1) with (Z.of_nat (S k) + 1) by lia.
Qed.

(** Adding the initial members. *)
Lemma addNodes_lawful (peers : list Peer) r :
  raft_inv r -> exists r', foldM (fun r peer => addNode r (peer_ID peer)) peers r = Ok r' /\
  lawful r r' /\ r_Term r' = r_Term r /\ r_Vote r' = r_Vote r /\ r_raftLog r' = r_raftLog r /\
  r_state r' = r_state r /\ r_lead r' = r_lead r /\
  dom (r_prs r') = dom (r_prs r) ∪ list_to_set (peer_ID <$> peers).
Proof.
  revert r. induction peers as [|p peers IH]; cbn; intros r Hr.
  - exists r. split; [done|]. split; [by apply lawful_refl|]. split_and!; [done..|set_solver].
  - assert (exists r1, addNode r (peer_ID p) = Ok r1 /\ r_Term r1 = r_Term r /\ r_Vote r1 = r_Vote r /\
      r_raftLog r1 = r_raftLog r /\ r_state r1 = r_state r /\ r_lead r1 = r_lead r /\
      dom (r_prs r1) = dom (r_prs r) ∪ {[peer_ID p]}) as (r1 & H1 & E1 & E2 & E3 & E4 & E5 & E6).
    { unfold addNode. destruct (r_prs r !! peer_ID p) eqn:E.
      - exists r. split_and!; try done. apply elem_of_dom_2 in E. set_solver.
      - rewrite lastIndex_eq by apply (ri_log r Hr). gosimpl. eexists. split_and!; try done.
        cbn. rewrite dom_insert_L. set_solver. }
    rewrite H1. gosimpl. destruct (addNode_lawful r _ r1 Hr H1) as (Hr1 & Hf1 & K1).
    destruct (IH r1 Hr1) as (r' & Ho & (Hr' & Hf & K) & Et & Ev & El & Es & Ed & Ep).
    exists r'. split; [done|]. split; [split_and!; [done|by etrans|by eapply keeps_trans]|].
    split_and!; try congruence. rewrite Ep, E6. set_solver.
Qed.

(** The initial entries, appended and committed. *)
Lemma boot_append r ents :
  raft_inv r -> log_abs (r_raftLog r) = mkAlog 0 0 [] -> contiguous 1 ents -> Forall (fun e => eTerm e = 1) ents ->
  zlen ents < MaxUint64 -> l_committed (r_raftLog r) = 0 -> u_snapshot (l_unstable (r_raftLog r)) = None ->
  exists l i, append (r_raftLog r) ents = Ok (l, i) /\
  raft_inv (r <| r_raftLog := l <| l_committed := zlen ents |> |>) /\
  l_applied l = l_applied (r_raftLog r) /\ u_snapshot (l_unstable l) = None /\ log_abs l = mkAlog 0 0 ents.
Proof.
  intros Hr Hlog Hc Ht Hmax Hcm Hsn. pose proof (ri_log r Hr) as [Hinv [_ Ha]].
  assert (exists l i, append (r_raftLog r) ents = Ok (l, i) /\
    log_inv l /\ log_abs l = a_append (log_abs (r_raftLog r)) ents /\ same_rest (r_raftLog r) l)
    as (l & i & Ho & Hinv' & Habs & Es & Ec & Ea).
  { destruct ents as [|e ents].
    - unfold append. cbn. rewrite lastIndex_eq by done. gosimpl. by do 2 eexists.
    - destruct (append_eq (r_raftLog r) (e :: ents) 1) as (l' & Ho' & ?); try done;
        [rewrite Hlog; unfold a_last; cbn; lia|lia|lia|]. by do 2 eexists. }
  exists l, i. split; [done|]. pose proof (append_snapshot _ _ _ _ Ho) as Hu.
  assert (log_abs l = mkAlog 0 0 ents) as E.
  { rewrite Habs, Hlog. destruct ents; [done|]. cbn. by rewrite take_nil. }
  destruct (log_inv_committed l (zlen ents) Hinv') as [Hinv2 Habs2].
  split_and!; [|done|congruence|done]. apply inv_log; try done.
  - split; [done|]. constructor; rewrite ?Habs2; cbn; unfold a_last; rewrite ?E; cbn; lia.
  - rewrite Habs2, E. split; [cbn; lia|]. cbn. eapply Forall_impl; [done|]. cbn. lia.
Qed.

(** A storage without entries. *)
Definition empty_log c : Prop := ms_log (c_Storage c) = mkAlog 0 0 [] /\ c_Applied c <= 0.

Lemma newRaft_empty c hs cs :
  config_ok c hs cs -> empty_log c ->
  exists r, newRaft c = Ok r /\ raft_inv r /\ r_Term r = hsTerm hs /\ r_Vote r = hsVote hs /\
  log_abs (r_raftLog r) = mkAlog 0 0 [] /\ l_committed (r_raftLog r) = 0 /\
  l_applied (r_raftLog r) = 0 /\ u_snapshot (l_unstable (r_raftLog r)) = None /\
  dom (r_prs r) = list_to_set (start_peers c cs).
Proof.
  intros Hco [Hlog Hap]. destruct (newRaft_restarts c hs cs Hco) as (r & Ho & Hr & _ & _ & Ht & Hv & Hl & Hcm & Hd & _).
  exists r. destruct (newRaft_log c r Ho) as (l & Hnl & _ & Hu & Ha).
  destruct (newLog_spec (c_Storage c) (co_sto _ _ _ Hco)) as (l' & Hnl' & _ & _ & _ & Hla & _ & Hus).
  rewrite Hnl in Hnl'. injection Hnl' as <-. pose proof (co_commit _ _ _ Hco) as Hc. cbn in *.
  rewrite Hlog in *. unfold a_last in Hc. cbn in *. split_and!; try done; [lia| |congruence].
  rewrite Ha. zif; lia.
Qed.

Lemma becomeFollower_start r t : raft_inv r -> is_u64 t ->
  exists r', becomeFollower r t None_ = Ok r' /\ raft_inv r' /\ r_state r' = StateFollower /\ r_lead r' = None_ /\
  r_Term r' = t /\ r_Vote r' = (if r_Term r =? t then r_Vote r else None_) /\
  r_raftLog r' = r_raftLog r /\ dom (r_prs r') = dom (r_prs r).
Proof.
  intros Hr Ht. assert (exists r', becomeFollower r t None_ = Ok r') as [r' Ho].
  { unfold becomeFollower. rewrite reset_eq by apply (ri_log r Hr). by eexists. }
  exists r'. split; [done|]. pose proof (becomeFollower_abs r t None_ r' Hr Ht Ho) as (Hr' & Hs & Ht' & _ & Ha).
  pose proof (becomeFollower_log _ _ _ _ Ho). unfold becomeFollower in Ho.
  rewrite reset_eq in Ho by apply (ri_log r Hr). gosimpl in Ho. injection Ho as <-.
  do 6 (split; [done|]). cbn. apply set_eq. intros x. rewrite !elem_of_dom, map_lookup_imap.
  by destruct (r_prs r !! x).
Qed.

(** C34. Starting on an empty log.  [NewRawNode] returns a follower at term 1
    without a leader, ready to deliver from the start.  Its log is exactly one
    configuration change for each initial peer, at indices 1, 2, ..., of term
    1, which decodes to the addition of that peer with its context; all are
    committed, none is applied.  Its members are those of the configuration
    and the peers.  A term and vote saved earlier are dropped: the term is 1
    whatever the storage holds, and the vote is gone unless it was cast in
    term 1. *)
Theorem NewRawNode_empty_log c hs cs peers :
  config_ok c hs cs -> empty_log c -> zlen peers < MaxUint64 -> Forall peer_fits peers ->
  exists rn, NewRawNode c peers = Ok rn /\ rn_ok rn 0 /\
    r_state (rn_raft rn) = StateFollower /\ r_lead (rn_raft rn) = None_ /\
    log_abs (r_raftLog (rn_raft rn)) = mkAlog 0 0 (imap boot_entry peers) /\
    l_committed (r_raftLog (rn_raft rn)) = zlen peers /\
    Forall (fun p => ConfChange_Unmarshal (ConfChange_MarshalTo (add_conf p)) ConfChange0 = DOk (add_conf p)) peers /\
    dom (r_prs (rn_raft rn)) = list_to_set (start_peers c cs) ∪ list_to_set (peer_ID <$> peers) /\
    r_Term (rn_raft rn) = 1 /\ r_Vote (rn_raft rn) = if hsTerm hs =? 1 then hsVote hs else None_.
Proof.
  intros Hco Hemp Hmax Hp. unfold NewRawNode. pose proof (co_valid _ _ _ Hco) as Hid. unfold validate in Hid.
  destruct (c_ID c =? None_) eqn:E0; [done|]. change (c_ID c =? 0) with (c_ID c =? None_). rewrite E0. clear Hid E0.
  destruct (newRaft_empty c hs cs Hco Hemp) as (r & Hr & Hinv & Hte & Hv & Hlog & Hcm & Hap & Hsn & Hd).
  pose proof (becomeFollower_start r 1 Hinv ltac:(done)) as (r1 & H1 & Hr1 & Hs1 & Hl1 & Ht1 & Hv1 & El & Hd1).
  pose proof (boot_entries_eq peers 0 Hp ltac:(lia)) as Hb. pose proof (boot_entry_ok peers 0) as [Hc Ht].
  change (imap _ peers) with (imap boot_entry peers) in Hb, Hc, Ht. change (Z.of_nat 0) with 0 in Hb.
  assert (zlen (imap boot_entry peers) = zlen peers) as Hlen by by rewrite length_imap.
  pose proof (boot_append r1 (imap boot_entry peers) Hr1) as Happ. rewrite El in Happ.
  specialize (Happ Hlog Hc Ht ltac:(lia) Hcm Hsn) as (l & i & Hl & Hr2 & Ha2 & Hs2 & Ho2).
  pose proof (addNodes_lawful peers _ Hr2) as (r3 & Ho & (Hr3 & _) & Et3 & Ev3 & El3 & Es3 & Ed3 & Ep3).
  gorun Hr. gorun (LastIndex_spec (c_Storage c) (co_sto _ _ _ Hco)). cbn [sto_log StorageSpec_MemoryStorage].
  rewrite (proj1 Hemp). change (a_last _ =? 0) with true. cbn match.
  gorun H1. gorun Hb. rewrite El. gorun Hl. rewrite u64_small by lia. gorun Ho.
  exists (mkRawNode r3 (softState r3) (hardState r3)). cbn [rn_raft]. cbn in Et3, Ev3, El3, Es3, Ed3, Ep3.
  assert (log_abs (r_raftLog r3) = mkAlog 0 0 (imap boot_entry peers)) as Ha3 by (rewrite El3; exact Ho2).
  assert (l_applied (r_raftLog r3) = 0) as Hap3 by (rewrite El3; cbn; congruence).
  split; [done|]. split; [|split_and!; try congruence].
  - constructor; cbn; [done|done| |rewrite El3; cbn; lia]. unfold fresh_snapshot.
    rewrite Ha3, Hap3, El3. cbn. by rewrite Hs2.
  - rewrite El3. exact Hlen.
  - eapply Forall_impl; [exact Hp|]. intros p Hf. apply ConfChange_decodes; [by apply add_conf_wf|apply Hf].
  - by rewrite Ev3, Hv1, Hte, Hv.
Qed.
End start.
