(* ===== verification/NodeLoop.v ===== *)
(** * The two drivers agree

    [HasReady] of [src/raft/rawnode.go] announces exactly the batches that
    have something in them, and a round of Ready and Advance through the loop
    [node.run] of [src/raft/node.go] does to the raft state what the same round
    through a [RawNode] does. *)

From S2P Require Import Prelude RaftPB Proto RaftCodec Storage Unstable RaftLog Progress Raft RaftSpec Quorum RaftRefine RaftStep RaftFrame RaftProps RaftStart RawNode Delivery.

Section ready.
  Implicit Types (rn : RawNode MemoryStorage) (rd : Ready).

Lemma zlen_pos {A} (l : list A) : (zlen l >? 0) = negb (bool_decide (l = [])).
Proof. by destruct l. Qed.

(** [HasReady] returns without panic and is true exactly when the [Ready]
    that would be handed out contains updates. *)
Theorem HasReady_spec rn pos :
  rn_ok rn pos ->
  exists rd rn', rn_Ready rn = Ok (rd, rn') /\ HasReady rn = Ok (containsUpdates rd).
Proof.
  intros Hok. pose proof (ri_log _ (rn_inv _ _ Hok)) as Hl. destruct (nextEnts_eq _ Hl) as (_ & Hhas & Hiff & _).
  exists (ready_of rn), (rn <| rn_raft := (rn_raft rn) <| r_msgs := [] |> |>).
  split; [unfold rn_Ready; by rewrite newReady_eq|].
  unfold HasReady, containsUpdates, ready_of. rewrite Hhas, unstableEntries_eq. cbn. rewrite !zlen_pos.
  set (lo := Z.max _ _ + 1) in *. set (s := a_slice _ lo _) in *.
  assert ((lo <=? l_committed (r_raftLog (rn_raft rn))) = negb (bool_decide (s = []))) as ->.
  { destruct (Z.leb_spec lo (l_committed (r_raftLog (rn_raft rn)))), (bool_decide_reflect (s = [])); cbn; try done;
      [by destruct (proj1 Hiff)|exfalso; by pose proof (proj2 Hiff n); lia]. }
  destruct (SoftState_equal (softState (rn_raft rn)) (rn_prevSoftSt rn)); cbn [negb]; [|done].
  destruct (isHardStateEqual (hardState (rn_raft rn)) (rn_prevHardSt rn)); cbn [negb andb].
  - rewrite andb_false_r. change (IsEmptyHardState HardState0) with true. cbn [negb orb].
    destruct (u_snapshot _) as [sn|]; cbn; [destruct (IsEmptySnap sn); cbn; [|done]|];
      destruct (bool_decide (r_msgs _ = [])), (bool_decide (u_entries _ = [])), (bool_decide (s = [])); done.
  - rewrite andb_true_r. destruct (IsEmptyHardState (hardState (rn_raft rn))); cbn; [|done].
    destruct (u_snapshot _) as [sn|]; cbn; [destruct (IsEmptySnap sn); cbn; [|done]|];
      destruct (bool_decide (r_msgs _ = [])), (bool_decide (u_entries _ = [])), (bool_decide (s = [])); done.
Qed.
End ready.

(** ** [node.run] against [RawNode] *)

Section loop.
  Context (range : gmap Z Progress -> list Z).
  Implicit Types (n : node MemoryStorage) (rn : RawNode MemoryStorage) (rd : Ready).

(** The loop and the [RawNode] hold the same node, no batch is out. *)
Record agree n rn : Prop := {
  ag_raft : n_raft n = rn_raft rn;
  ag_soft : n_prevSoftSt n = rn_prevSoftSt rn;
  ag_hard : n_prevHardSt n = rn_prevHardSt rn;
  ag_idle : n_advancec n = false;
  ag_have : n_havePrevLastUnstablei n = false
}.

(** Both succeed with the same node, or both panic. *)
Definition agree_outcome (o : outcome (option (node MemoryStorage))) (o' : outcome (RawNode MemoryStorage)) : Prop :=
  match o, o' with
  | Ok (Some n), Ok rn => agree n rn
  | Panic _, Panic _ => True
  | _, _ => False
  end.

Definition node_storage n (ms : MemoryStorage) : node MemoryStorage :=
  n <| n_raft := (n_raft n) <| r_raftLog := (r_raftLog (n_raft n)) <| l_storage := ms |> |> |>.

(** A round with no batch on offer. *)
Lemma run_lead_fields n : n_raft (run_lead n) = n_raft n /\ n_prevSoftSt (run_lead n) = n_prevSoftSt n /\
  n_prevHardSt (run_lead n) = n_prevHardSt n /\ n_advancec (run_lead n) = n_advancec n /\
  n_havePrevLastUnstablei (run_lead n) = n_havePrevLastUnstablei n /\ n_prevSnapi (run_lead n) = n_prevSnapi n /\
  n_prevLastUnstablei (run_lead n) = n_prevLastUnstablei n /\ n_prevLastUnstablet (run_lead n) = n_prevLastUnstablet n.
Proof. unfold run_lead. zif; [done|]. by destruct (hasLeader _). Qed.

(** What the loop remembers of a batch until it is acknowledged. *)
Record remembers n rn rd : Prop := {
  rm_raft : n_raft n = rn_raft rn;
  rm_soft : n_prevSoftSt n = match rd_SoftState rd with Some s => s | None => rn_prevSoftSt rn end;
  rm_hard : n_prevHardSt n = if negb (IsEmptyHardState (rd_HardState rd)) then rd_HardState rd else rn_prevHardSt rn;
  rm_busy : n_advancec n = true;
  rm_entries : if zlen (rd_Entries rd) >? 0
    then n_havePrevLastUnstablei n = true /\ exists e, at_ (rd_Entries rd) (zlen (rd_Entries rd) - 1) = Ok e /\
           n_prevLastUnstablei n = eIndex e /\ n_prevLastUnstablet n = eTerm e
    else n_havePrevLastUnstablei n = false;
  rm_snap : IsEmptySnap (rd_Snapshot rd) = false -> n_prevSnapi n = smIndex (sMetadata (rd_Snapshot rd))
}.

Lemma run_ready_remembers n rn rd :
  agree n rn -> exists n', run_ready n rd = Ok n' /\
    remembers n' (rn <| rn_raft := (rn_raft rn) <| r_msgs := [] |> |>) rd.
Proof.
  intros [Hr Hs Hh Hi Hv]. unfold run_ready.
  set (n1 := match rd_SoftState rd with Some s => _ | None => _ end).
  assert (n_raft n1 = rn_raft rn /\ n_prevSoftSt n1 = match rd_SoftState rd with Some s => s | None => rn_prevSoftSt rn end /\
    n_prevHardSt n1 = rn_prevHardSt rn /\ n_havePrevLastUnstablei n1 = false) as (E1 & E2 & E3 & E4)
    by (unfold n1; by destruct (rd_SoftState rd)).
  clearbody n1. destruct (zlen (rd_Entries rd) >? 0) eqn:Ez.
  - destruct (last_at (rd_Entries rd)) as (e & He & _); [by destruct (rd_Entries rd)|]. rewrite He. gosimpl.
    eexists. split; [done|]. destruct (negb (IsEmptyHardState (rd_HardState rd))) eqn:Eh, (IsEmptySnap (rd_Snapshot rd)) eqn:Es;
      constructor; cbn; rewrite ?Ez, ?Eh, ?Es, ?E1, ?E2, ?E3; try done; (split; [done|by exists e]).
  - gosimpl. eexists. split; [done|].
    destruct (negb (IsEmptyHardState (rd_HardState rd))) eqn:Eh, (IsEmptySnap (rd_Snapshot rd)) eqn:Es;
      constructor; cbn; rewrite ?Ez, ?Eh, ?Es, ?E1, ?E2, ?E3, ?E4; done.
Qed.
Lemma appliedTo_snapshot (l l' : raftLog MemoryStorage) i : appliedTo l i = Ok l' -> u_snapshot (l_unstable l') = u_snapshot (l_unstable l).
Proof.
  unfold appliedTo. intros Ho. zif in Ho; [by injection Ho as <-|]. zif in Ho; [done|]. zif in Ho; [done|]. by injection Ho as <-.
Qed.

Lemma stableTo_snapshot (l l' : raftLog MemoryStorage) i t : stableTo l i t = Ok l' -> u_snapshot (l_unstable l') = u_snapshot (l_unstable l).
Proof.
  unfold stableTo, Unstable.stableTo. intros Ho. apply bind_Ok_inv in Ho as (u & Hu & Ho). injection Ho as <-. cbn.
  apply bind_Ok_inv in Hu as ([g|] & _ & Hu); [|by injection Hu as <-]. zif in Hu; [|by injection Hu as <-].
  zif in Hu; [|by injection Hu as <-]. inv_ok. done.
Qed.

(** Acknowledging through the loop and through a [RawNode]. *)
Lemma run_advance_agrees n rn rd :
  remembers n rn rd ->
  (IsEmptySnap (rd_Snapshot rd) = true -> u_snapshot (l_unstable (r_raftLog (rn_raft rn))) = None) ->
  match run_advance n, Advance rn rd with
  | Ok n', Ok rn' => agree n' rn'
  | Panic _, Panic _ => True
  | _, _ => False
  end.
Proof.
  intros [Hr Hs Hh Hb He Hsn] Hnone. unfold run_advance, Advance, commitReady.
  set (rn1 := match rd_SoftState rd with Some s => _ | None => _ end).
  set (rn2 := if negb (IsEmptyHardState (rd_HardState rd)) then _ else _).
  assert (rn_raft rn2 = rn_raft rn /\ rn_prevSoftSt rn2 = n_prevSoftSt n /\ rn_prevHardSt rn2 = n_prevHardSt n) as (E1 & E2 & E3).
  { rewrite Hs, Hh. unfold rn2, rn1. by destruct (negb _), (rd_SoftState rd). }
  clearbody rn2. clear rn1 Hs Hh. rewrite E3, E1, Hr. unfold commitReady_log.
  set (l := r_raftLog (rn_raft rn)) in *.
  destruct (if negb (hsCommit (n_prevHardSt n) =? 0) then _ else _) as [l1|] eqn:E4; gosimpl; [|done].
  assert (Hu1 : u_snapshot (l_unstable l1) = u_snapshot (l_unstable l)).
  { zif in E4; [by injection E4 as <-|by eapply appliedTo_snapshot]. }
  assert (Hst : (if n_havePrevLastUnstablei n then stableTo l1 (n_prevLastUnstablei n) (n_prevLastUnstablet n) else Ok l1) =
    (if zlen (rd_Entries rd) >? 0 then
       let! e := at_ (rd_Entries rd) (zlen (rd_Entries rd) - 1) in stableTo l1 (eIndex e) (eTerm e) else Ok l1)).
  { destruct (zlen (rd_Entries rd) >? 0); [|by rewrite He]. destruct He as (-> & e & -> & -> & ->). done. }
  rewrite Hst. destruct (if zlen (rd_Entries rd) >? 0 then _ else _) as [l2|] eqn:E5; gosimpl; [|done].
  assert (Hu2 : u_snapshot (l_unstable l2) = u_snapshot (l_unstable l)).
  { rewrite <- Hu1. zif in E5; [|by injection E5 as <-]. inv_ok. by eapply stableTo_snapshot. }
  assert (Hl : stableSnapTo l2 (n_prevSnapi n) =
    if negb (IsEmptySnap (rd_Snapshot rd)) then stableSnapTo l2 (smIndex (sMetadata (rd_Snapshot rd))) else l2).
  { destruct (IsEmptySnap (rd_Snapshot rd)); cbn [negb]; [|by rewrite Hsn].
    unfold stableSnapTo, Unstable.stableSnapTo. rewrite Hu2, Hnone by done. by destruct l2. }
  rewrite Hl. by constructor.
Qed.

Lemma remembers_storage n rn rd ms : remembers n rn rd -> remembers (run_lead (node_storage n ms)) (with_storage rn ms) rd.
Proof.
  intros [Hr Hs Hh Hb He Hsn].
  destruct (run_lead_fields (node_storage n ms)) as (F1 & F2 & F3 & F4 & F5 & F6 & F7 & F8).
  constructor; rewrite ?F1, ?F2, ?F3, ?F4, ?F5, ?F6, ?F7, ?F8; try done. cbn. by rewrite Hr.
Qed.

(** C33. A batch through the loop [node.run] is a batch through a [RawNode]: the
    select case for Ready is enabled exactly when there is something to hand
    out, hands out the same [Ready] and leaves the same node; after the
    application has put anything into the storage, the case for Advance leaves
    the same log, or panics where the other does. *)
Theorem node_batch_agrees n rn pos :
  agree n rn -> rn_ok rn pos ->
  exists rd rn1, rn_Ready rn = Ok (rd, rn1) /\
  if containsUpdates rd then
    exists n1, run_round range n EvReady = Ok (Some n1) /\ n_raft n1 = rn_raft rn1 /\
      forall ms, agree_outcome (run_round range (node_storage n1 ms) EvAdvance) (Advance (with_storage rn1 ms) rd)
  else run_round range n EvReady = Ok None.
Proof.
  intros Hag Hok. pose proof (ri_log _ (rn_inv _ _ Hok)) as Hl. pose proof Hag as [Hr Hs Hh Hi Hv].
  set (rn1 := rn <| rn_raft := (rn_raft rn) <| r_msgs := [] |> |>). exists (ready_of rn), rn1.
  split; [unfold rn_Ready; by rewrite newReady_eq|].
  assert (Hoffer : run_offer n = Ok (if containsUpdates (ready_of rn) then Some (ready_of rn) else None)).
  { unfold run_offer. rewrite Hi, Hr, Hs, Hh, newReady_eq by done. done. }
  unfold run_round at 1 3. rewrite Hoffer. gosimpl. destruct (containsUpdates (ready_of rn)); [|done].
  destruct (run_ready_remembers (run_lead n) rn (ready_of rn)) as (n1 & -> & Hrm).
  { destruct (run_lead_fields n) as (F1 & F2 & F3 & F4 & F5 & _). constructor; congruence. }
  gosimpl. exists n1. split; [done|]. split; [apply Hrm|]. intros ms.
  unfold run_round, run_offer. change (n_advancec (node_storage n1 ms)) with (n_advancec n1).
  rewrite (rm_busy _ _ _ Hrm). gosimpl. apply (remembers_storage _ _ _ ms) in Hrm. rewrite (rm_busy _ _ _ Hrm).
  pose proof (run_advance_agrees _ _ _ Hrm) as Hadv.
  assert (Hnone : IsEmptySnap (rd_Snapshot (ready_of rn)) = true ->
    u_snapshot (l_unstable (r_raftLog (rn_raft (with_storage rn1 ms)))) = None).
  { pose proof (fun s => pending_snapshot rn pos s Hok) as Hp. cbn in Hp |- *. unfold IsEmptySnap.
    destruct (u_snapshot _) as [s|]; [|done]. cbn. destruct (Hp s eq_refl) as (? & _). intros ?%Z.eqb_eq. lia. }
  specialize (Hadv Hnone). fold rn1 in Hadv.
  destruct (run_advance _) as [n2|], (Advance (with_storage rn1 ms) (ready_of rn)) as [rn2|]; done.
Qed.
End loop.
