(* ===== verification/RaftSystem.v ===== *)
(** * A cluster of [raft] structs

    The cluster of [RaftNet] with the code of [src/raft/raft.go] at its nodes:
    a node handles a message with [Step] behind the filter of [node.run]
    ([src/raft/node.go]), ticks with [tick], hands over batches as
    [raftNode.start] ([src/etcdserver/raft.go]) does, and restarts with
    [newRaft] from the term and vote it saved.  Every run of it is a run of
    the abstract cluster, so at most one node leads per term. *)

From S2P Require Import Prelude RaftPB Storage Unstable RaftLog Progress Raft RaftSpec Quorum RaftRefine RaftStep RaftProps RaftNet RaftStart RawNode.


Section system.
  Context {St : Type} `{StorageSpec St}.
  Context (X : gset Z) (range : gmap Z Progress -> list Z).
  Implicit Types (r : raft St) (m : Message).

Record member : Type := mkMember {
  p_raft : raft St;
  p_disk : Z * Z;
  p_saving : option ((Z * Z) * list Message)
}.

Record system : Type := mkSystem {
  s_members : gmap Z member;
  s_msgs : list Message
}.

Definition set_raft (s : system) (i : Z) (p : member) r : system :=
  mkSystem (<[i := mkMember r (p_disk p) (p_saving p)]> (s_members s)) (s_msgs s).

Definition hard_of r : Z * Z := (r_Term r, r_Vote r).

(** Snapshots carry the members. *)
Definition same_members m : Prop :=
  mType m = MsgSnap -> list_to_set (csNodes (smConfState (sMetadata (mSnapshot m)))) = X.

Inductive sys_step : system -> system -> Prop :=
| ss_receive s i p m r' :
    s_members s !! i = Some p -> m ∈ s_msgs s -> mTo m = i -> same_members m ->
    headroom (p_raft p) m -> receive range (p_raft p) m = Ok r' ->
    sys_step s (set_raft s i p r')
| ss_local s i p m r' : (** proposals, [Campaign], [ReportUnreachable], [ReportSnapshot] *)
    s_members s !! i = Some p -> mTerm m = 0 -> ~ termed m ->
    headroom (p_raft p) m -> Step range (p_raft p) m = Ok r' ->
    sys_step s (set_raft s i p r')
| ss_tick s i p draw r' :
    s_members s !! i = Some p -> headroom (p_raft p) Message0 -> tick range (p_raft p) draw = Ok r' ->
    sys_step s (set_raft s i p r')
| ss_log s i p l : (** [Advance], compaction: whatever keeps the log consistent *)
    s_members s !! i = Some p -> raft_inv ((p_raft p) <| r_raftLog := l |>) ->
    sys_step s (set_raft s i p ((p_raft p) <| r_raftLog := l |>))
| ss_ready s i p :
    s_members s !! i = Some p -> p_saving p = None ->
    let r := p_raft p in
    let islead := bool_decide (r_state r = StateLeader) in
    sys_step s (mkSystem (<[i := mkMember (r <| r_msgs := [] |>) (p_disk p)
                                   (Some (hard_of r, if islead then [] else r_msgs r))]> (s_members s))
                  (s_msgs s ++ if islead then r_msgs r else []))
| ss_saved s i p h ms :
    s_members s !! i = Some p -> p_saving p = Some (h, ms) ->
    sys_step s (mkSystem (<[i := mkMember (p_raft p) h None]> (s_members s)) (s_msgs s ++ ms))
| ss_restart s i p c hs cs r' :
    s_members s !! i = Some p -> config_ok c hs cs -> c_ID c = i ->
    (hsTerm hs, hsVote hs) = p_disk p -> list_to_set (start_peers c cs) = X ->
    newRaft c = Ok r' ->
    sys_step s (mkSystem (<[i := mkMember r' (p_disk p) None]> (s_members s)) (s_msgs s)).

(** The members start with nothing saved, at any term, without a vote. *)
Definition sys_init (s : system) : Prop :=
  dom (s_members s) = X /\ s_msgs s = [] /\
  forall i p, s_members s !! i = Some p -> p_disk p = (0, 0) /\ p_saving p = None /\
    raft_inv (p_raft p) /\ r_id (p_raft p) = i /\ r_Vote (p_raft p) = 0 /\
    r_state (p_raft p) = StateFollower /\ r_votes (p_raft p) = ∅ /\ r_msgs (p_raft p) = [] /\
    dom (r_prs (p_raft p)) = X.

(** ** The abstract cluster it stands for *)

Definition abs_member (p : member) : cell := mkCell (abs (p_raft p)) (p_disk p) (p_saving p).
Definition abs_sys (s : system) : anet := mkNet (abs_member <$> s_members s) (s_msgs s).

Record sys_inv (s : system) : Prop := {
  si_raft : forall i p, s_members s !! i = Some p -> raft_inv (p_raft p) /\ dom (r_prs (p_raft p)) = X;
  si_saving : forall i p h ms, s_members s !! i = Some p -> p_saving p = Some (h, ms) -> Forall msg_ok ms;
  si_msgs : Forall msg_ok (s_msgs s)
}.

Lemma abs_lookup s i p : s_members s !! i = Some p -> w_cells (abs_sys s) !! i = Some (abs_member p).
Proof. intros Hp. cbn. by rewrite lookup_fmap, Hp. Qed.

Lemma astep_dom m n n' : astep m n n' -> same_members m -> dom (n_match n) = X -> dom (n_match n') = X.
Proof.
  intros Hs Hm Hd. destruct Hs; cbn; rewrite ?fresh_match_dom, ?dom_alter_L; try done.
  - rewrite dom_insert_L. match goal with Hk : n_match n !! mFrom m = Some _ |- _ => apply elem_of_dom_2 in Hk end.
    set_solver.
  - rewrite dom_list_to_map_L, <- list_fmap_compose. cbn. rewrite <- Hm by done. f_equal. apply list_fmap_id.
Qed.

(** Abstract steps at a node are abstract steps of the cluster. *)
Lemma lift_asteps w i c m n' :
  w_cells w !! i = Some c -> admissible w i m -> same_members m -> dom (n_match (c_node c)) = X ->
  asteps m (c_node c) n' -> rtc (anet_step X) w (put_cell w i (c <| c_node := n' |>)) /\ dom (n_match n') = X.
Proof.
  intros Hc Hadm Hm Hd Hs. remember (c_node c) as n eqn:En. revert w c Hc Hadm Hd En.
  induction Hs as [n|n n1 n2 H1 _ IH]; intros w c Hc Hadm Hd ->.
  - split; [|done]. replace (put_cell w i _) with w; [apply rtc_refl|].
    unfold put_cell. destruct c, w; cbn in *. by rewrite insert_id.
  - pose proof (astep_dom _ _ _ H1 Hm Hd) as Hd1.
    destruct (IH (put_cell w i (c <| c_node := n1 |>)) (c <| c_node := n1 |>)) as [Hr Hd2]; try done.
    { cbn. by rewrite lookup_insert_eq. }
    split; [|done]. eapply rtc_l; [by eapply nt_handle|]. unfold put_cell in *. cbn in Hr.
    by rewrite insert_insert_eq in Hr.
Qed.

Lemma abs_set_raft s i p r :
  abs_sys (set_raft s i p r) = put_cell (abs_sys s) i ((abs_member p) <| c_node := abs r |>).
Proof. unfold abs_sys, set_raft, put_cell. cbn. by rewrite fmap_insert. Qed.

Lemma inv_set_raft s i p r :
  sys_inv s -> s_members s !! i = Some p -> raft_inv r -> dom (r_prs r) = X -> sys_inv (set_raft s i p r).
Proof.
  intros Hs Hp Hr Hd. constructor; cbn; [| |apply Hs].
  - intros j q Hq. apply lookup_insert_Some in Hq as [[<- <-]|[_ Hq]]; [done|by eapply (si_raft s Hs)].
  - intros j q h ms Hq Hsv. apply lookup_insert_Some in Hq as [[<- <-]|[_ Hq]]; by eapply (si_saving s Hs).
Qed.

Lemma abs_dom r : dom (n_match (abs r)) = dom (r_prs r).
Proof. cbn. apply dom_fmap_L. Qed.

(** A node that takes abstract steps for an admissible message. *)
Lemma lift_node s i p m r' :
  sys_inv s -> s_members s !! i = Some p -> admissible (abs_sys s) i m -> same_members m ->
  raft_inv r' -> asteps m (abs (p_raft p)) (abs r') ->
  sys_inv (set_raft s i p r') /\ rtc (anet_step X) (abs_sys s) (abs_sys (set_raft s i p r')).
Proof.
  intros Hs Hp Hadm Hm Hr' Hst. destruct (si_raft s Hs i p Hp) as [Hr Hd].
  destruct (lift_asteps (abs_sys s) i (abs_member p) m (abs r')) as [Hrt Hd']; try done.
  - by apply abs_lookup.
  - cbn [c_node abs_member]. by rewrite abs_dom.
  - rewrite abs_dom in Hd'. split; [by apply inv_set_raft|]. by rewrite abs_set_raft.
Qed.

Lemma local_msg_ok m : mTerm m = 0 -> ~ termed m -> msg_ok m.
Proof. intros Ht Hn. split; [by rewrite Ht|]. unfold termed in Hn. by destruct (mType m). Qed.

Lemma local_not_snap m : ~ termed m -> same_members m.
Proof. intros Hn E. destruct Hn. unfold termed. by rewrite E. Qed.

(** A tick is a sequence of local messages. *)
Lemma lift_local s i p n' :
  sys_inv s -> s_members s !! i = Some p -> rtc local_step (abs (p_raft p)) n' ->
  rtc (anet_step X) (abs_sys s) (put_cell (abs_sys s) i ((abs_member p) <| c_node := n' |>)) /\
  dom (n_match n') = X.
Proof.
  intros Hs Hp Hst. destruct (si_raft s Hs i p Hp) as [_ Hd]. rewrite <- abs_dom in Hd.
  assert (Hc : w_cells (abs_sys s) !! i = Some (abs_member p)) by by apply abs_lookup.
  clear Hs Hp. remember (abs (p_raft p)) as n eqn:En.
  assert (Hcn : c_node (abs_member p) = n) by (by rewrite En). generalize dependent (abs_member p). clear En.
  generalize (abs_sys s) as w. induction Hst as [n|n n1 n2 (m & H1 & Ht & Hty) _ IH]; intros w c Hc Hcn.
  - split; [|done]. replace (put_cell w i _) with w; [apply rtc_refl|].
    unfold put_cell. destruct c, w; cbn in *. subst. by rewrite insert_id.
  - assert (Hn : ~ termed m) by (unfold termed; intros Hx; destruct Hty as [E|[E|E]]; by rewrite E in Hx).
    pose proof (astep_dom _ _ _ H1 (local_not_snap m Hn) Hd) as Hd1.
    destruct (IH Hd1 (put_cell w i (c <| c_node := n1 |>)) (c <| c_node := n1 |>)) as [Hr Hd2]; try done.
    { cbn. by rewrite lookup_insert_eq. }
    split; [|done]. eapply rtc_l.
    + eapply (nt_handle X w i c m n1); [done|by right|by rewrite Hcn|done].
    + unfold put_cell in *. cbn in Hr. by rewrite insert_insert_eq in Hr.
Qed.

(** Messages that leave are well-formed. *)
Lemma inv_release s i p p' l :
  sys_inv s -> s_members s !! i = Some p -> raft_inv (p_raft p') -> dom (r_prs (p_raft p')) = X ->
  (forall h ms, p_saving p' = Some (h, ms) -> Forall msg_ok ms) -> Forall msg_ok l ->
  sys_inv (mkSystem (<[i := p']> (s_members s)) (s_msgs s ++ l)).
Proof.
  intros Hs Hp Hr Hd Hsv Hl. constructor; cbn.
  - intros j q Hq. apply lookup_insert_Some in Hq as [[<- <-]|[_ Hq]]; [done|by eapply (si_raft s Hs)].
  - intros j q h ms Hq Hsq. apply lookup_insert_Some in Hq as [[<- <-]|[_ Hq]]; [by eapply Hsv|by eapply (si_saving s Hs)].
  - apply Forall_app. split; [apply Hs|done].
Qed.

Lemma inv_clear r : raft_inv r -> raft_inv (r <| r_msgs := [] |>).
Proof. intros []. by constructor. Qed.

Lemma receive_sim s i p m r' :
  sys_inv s -> s_members s !! i = Some p -> m ∈ s_msgs s -> headroom (p_raft p) m ->
  receive range (p_raft p) m = Ok r' -> raft_inv r' /\ asteps m (abs (p_raft p)) (abs r').
Proof.
  intros Hs Hp Hm Hh Ho. destruct (si_raft s Hs i p Hp) as [Hr _].
  pose proof (proj1 (Forall_forall _ _) (si_msgs s Hs) m Hm) as Hmo. unfold receive in Ho.
  destruct (_ || _).
  - by apply (Step_sim range _ m).
  - injection Ho as <-. split; [done|apply rtc_refl].
Qed.

(** One step of the system is a sequence of steps of the abstract cluster. *)
Lemma sys_step_sim s s' : sys_inv s -> sys_step s s' ->
  sys_inv s' /\ rtc (anet_step X) (abs_sys s) (abs_sys s').
Proof.
  intros Hs Hst. destruct Hst as [s i p m r' Hp Hm Hto Hsm Hh Ho|s i p m r' Hp Ht Hn Hh Ho|s i p draw r' Hp Hh Ho
    |s i p l Hp Hl|s i p Hp Hsv|s i p h ms Hp Hsv|s i p c hs cs r' Hp Hco Hid Hhs Hpe Ho];
    destruct (si_raft s Hs i p Hp) as [Hr Hd].
  - destruct (receive_sim _ _ _ _ _ Hs Hp Hm Hh Ho). apply (lift_node s i p m); try done. by left.
  - destruct (Step_sim range _ m _ Hr (local_msg_ok m Ht Hn) Hh Ho Hr).
    apply (lift_node s i p m); try done; [by right|by apply local_not_snap].
  - destruct (tick_local range _ _ _ Hr Hh Ho) as [Hr' Hl]. destruct (lift_local s i p _ Hs Hp Hl) as [Hrt Hd'].
    rewrite abs_dom in Hd'. split; [by apply inv_set_raft|by rewrite abs_set_raft].
  - split; [by apply inv_set_raft|]. rewrite abs_set_raft. apply rtc_once.
    by apply (nt_log X (abs_sys s) i (abs_member p)), abs_lookup.
  - split.
    + apply inv_release with (p := p); try done; [by apply inv_clear| |].
      * intros h ms E. cbn [p_saving] in E. destruct islead; injection E as <- <-; [constructor|apply Hr].
      * destruct islead; [apply Hr|constructor].
    + apply rtc_once. unfold abs_sys at 2. cbn. rewrite fmap_insert. 
      by apply (nt_ready X (abs_sys s) i (abs_member p)); [apply abs_lookup|].
  - split.
    + apply inv_release with (p := p); try done. by eapply (si_saving s Hs).
    + apply rtc_once. unfold abs_sys at 2. cbn. rewrite fmap_insert.
      by eapply (nt_saved X (abs_sys s) i (abs_member p)); [apply abs_lookup|].
  - destruct (newRaft_restarts c hs cs Hco) as (r & Ho' & Hr' & Hid' & Hst & Hte & Hvo & _ & _ & Hdm & Hvs & Hms).
    rewrite Ho in Ho'. injection Ho' as <-. split.
    + rewrite <- (app_nil_r (s_msgs s)). apply inv_release with (p := p); try done. by cbn; rewrite Hdm.
    + apply rtc_once. unfold abs_sys at 2. cbn. rewrite fmap_insert.
      apply (nt_crash X (abs_sys s) i (abs_member p)); [by apply abs_lookup|].
      unfold booted, hard. rewrite abs_dom. cbn. rewrite Hdm, Hte, Hvo, Hid'. by split_and!.
Qed.

Lemma sys_init_inv s : sys_init s -> sys_inv s /\ anet_init X (abs_sys s).
Proof.
  intros (Hd & Hm & Hs). split.
  - constructor.
    + intros i p Hp. by destruct (Hs i p Hp) as (_ & _ & ? & _ & _ & _ & _ & _ & ?).
    + intros i p h ms Hp Hsv. destruct (Hs i p Hp) as (_ & ? & _). congruence.
    + rewrite Hm. constructor.
  - split_and!; [cbn; by rewrite dom_fmap_L|done|]. intros i c Hc. cbn in Hc. rewrite lookup_fmap in Hc.
    destruct (s_members s !! i) as [p|] eqn:Hp; [|done]. injection Hc as <-.
    destruct (Hs i p Hp) as (? & ? & Hr & ? & Hv & ? & ? & ? & ?). split_and!; try done; [|].
    + unfold booted, hard. cbn. rewrite Hv, dom_fmap_L. by split_and!.
    + cbn. apply Hr.
Qed.

(** The cluster and its abstraction run in step. *)
Lemma sys_steps_sim s s' : sys_inv s -> rtc sys_step s s' ->
  sys_inv s' /\ rtc (anet_step X) (abs_sys s) (abs_sys s').
Proof.
  intros Hi Hs. induction Hs as [|s1 s2 s3 H1 _ IH]; [split; [done|apply rtc_refl]|].
  destruct (sys_step_sim _ _ Hi H1) as [Hi2 S1]. destruct (IH Hi2) as [Hi3 S2]. split; [done|by etrans].
Qed.

(** C1. Election safety of the implementation.  In every run of a cluster of
    at least two members, whatever messages are lost, duplicated, reordered or
    delayed and whichever nodes crash and restart, no two nodes lead in the
    same term; and all messages ever sent that only leaders send (appends,
    snapshots, heartbeats) of one term come from one node. *)
Theorem election_safety s s' :
  0 ∉ X -> (1 < size X)%nat -> sys_init s -> rtc sys_step s s' ->
  (forall i j p q, s_members s' !! i = Some p -> s_members s' !! j = Some q ->
     r_state (p_raft p) = StateLeader -> r_state (p_raft q) = StateLeader ->
     r_Term (p_raft p) = r_Term (p_raft q) -> i = j) /\
  (forall b b', b ∈ s_msgs s' -> b' ∈ s_msgs s' -> from_leader b = true -> from_leader b' = true ->
     mTerm b = mTerm b' -> mFrom b = mFrom b').
Proof.
  intros H0X HX Hi Hs. destruct (sys_init_inv s Hi) as [Hinv Hai].
  destruct (sys_steps_sim _ _ Hinv Hs) as [_ Hsteps].
  pose proof (anet_reachable_inv X H0X _ _ HX Hai Hsteps) as Hn.
  destruct (net_inv_one_leader X _ HX Hn) as [Hcells Hmsgs]. split; [|exact Hmsgs].
  intros i j p q Hp Hq. apply abs_lookup in Hp, Hq. exact (Hcells i j _ _ Hp Hq).
Qed.
End system.
