(* ===== verification/RaftExamples.v ===== *)
(** * Concrete nodes

    A three-node cluster's node with the log of [RaftLog], as follower and as
    leader and on its own, on which the theorems about one node are
    instantiated; and a cluster of three that starts from empty storages and
    elects a leader. *)

From S2P Require Import Prelude RaftPB Storage Unstable RaftLog Progress Raft RaftSpec Quorum RaftRefine RaftStep RaftAlone RaftProps RaftTick RaftNet RaftStart RawNode RaftSystem.

Definition ex_range (prs : gmap Z Progress) : list Z := (map_to_list prs).*1.

(** Node 1 of {1, 2, 3} at term 3, log 3..7 over a compaction at 2, committed 4. *)
Definition ex_raft (s : StateType) : raft MemoryStorage :=
  mkRaft 1 3 1 log37 4 noLimit
    (<[1 := Progress_new 7 8 4]> (<[2 := Progress_new 0 8 4]> (<[3 := Progress_new 5 8 4]> ∅)))
    s ∅ [] (if bool_decide (s = StateLeader) then 1 else 2) false 0 0 false 1 10 (tick_of s) (step_of s).

Lemma ex_raft_inv s : raft_inv (ex_raft s).
Proof.
  constructor; try done.
  - apply log37_ok.
  - split; [done|]. by repeat constructor.
  - cbn. intros sn e Hs. injection Hs as <- <-. done.
  - cbn. repeat (apply map_Forall_insert_2; [done|]). apply map_Forall_empty.
Qed.

Definition ex_Step (s : StateType) (m : Message) : raft MemoryStorage :=
  match Step ex_range (ex_raft s) m with Ok r => r | Panic _ => ex_raft s end.

(** The same node when it is the only one. *)
Definition ex_alone : raft MemoryStorage := (ex_raft StateFollower) <| r_prs := {[ 1 := Progress_new 0 8 4 ]} |>.

Lemma lone_member_progress_witness : exists k r',
  foldM (tick ex_range) (take k (replicate 20 3)) ex_alone = Ok r' /\ r_Term r' = 4 /\ leads_alone r' /\
  log_abs (r_raftLog r') = a_append (log_abs log37) (stamp (r_Term r') 7 [Entry0]).
Proof.
  destruct (lone_member_progress ex_range) with (r := ex_alone) (draws := replicate 20 3) as (k & r' & _ & Hrun & Ht & Hlog & Hlead & _).
  - intros prs i Hi. unfold ex_range in Hi. apply list_elem_of_fmap in Hi as ([j pr] & -> & Hi). exists pr. by apply elem_of_map_to_list.
  - pose proof (ex_raft_inv StateFollower) as []. constructor; try done. cbn. apply map_Forall_insert_2; [done|]. apply map_Forall_empty.
  - done.
  - by eexists.
  - vm_compute. lia.
  - split; vm_compute; reflexivity.
  - reflexivity.
  - done.
  - by apply Forall_replicate.
  - reflexivity.
  - exists k, r'. exact (conj Hrun (conj Ht (conj Hlead Hlog))).
Defined.

(** Entries 6 (which it has) and 7 (which conflicts), from leader 2 at term 4. *)
Definition ex_app : Message :=
  Message0 <| mType := MsgApp |> <| mFrom := 2 |> <| mTo := 1 |> <| mTerm := 4 |> <| mIndex := 5 |>
    <| mLogTerm := 2 |> <| mEntries := [ent 6 2; ent 7 4] |> <| mCommit := 6 |>.

Lemma ex_app_ok : msg_ok ex_app.
Proof. split; [done|]. cbn. split_and!; try done; [solve_contiguous|by repeat constructor|by right; right]. Qed.

(** Peer 3 acknowledges index 7. *)
Definition ex_ack : Message :=
  Message0 <| mType := MsgAppResp |> <| mFrom := 3 |> <| mTo := 1 |> <| mTerm := 3 |> <| mIndex := 7 |>.

(** A proposal. *)
Definition ex_prop : Message := Message0 <| mType := MsgProp |> <| mEntries := [Entry0] |>.

(** A vote request of node 2 at term 4. *)
Definition ex_vote : Message :=
  Message0 <| mType := MsgVote |> <| mFrom := 2 |> <| mTo := 1 |> <| mTerm := 4 |> <| mIndex := 7 |>
    <| mLogTerm := 3 |>.

Lemma Step_refines_witness :
  raft_inv (ex_Step StateFollower ex_app) /\
  asteps ex_app (abs (ex_raft StateFollower)) (abs (ex_Step StateFollower ex_app)).
Proof.
  apply (Step_refines ex_range); [apply ex_raft_inv|apply ex_app_ok|by vm_compute|by vm_compute].
Defined.


Lemma Step_one_vote_per_term_witness :
  3 <= r_Term (ex_Step StateFollower ex_vote) /\
  (r_Term (ex_Step StateFollower ex_vote) = 3 -> 1 <> 0 -> r_Vote (ex_Step StateFollower ex_vote) = 1).
Proof.
  apply (Step_one_vote_per_term ex_range (ex_raft StateFollower) ex_vote);
    [apply ex_raft_inv|by split|by vm_compute|by vm_compute].
Defined.

Lemma Step_commit_stable_witness :
  let a := log_abs log37 in let a' := log_abs (r_raftLog (ex_Step StateFollower ex_app)) in
  a_off a <= a_off a' /\
  4 <= l_committed (r_raftLog (ex_Step StateFollower ex_app)) <= a_last a' /\
  forall i, a_off a' < i <= 4 -> a_entry a' i = a_entry a i.
Proof.
  apply (Step_commit_stable ex_range (ex_raft StateFollower) ex_app);
    [apply ex_raft_inv|apply ex_app_ok|by vm_compute|by vm_compute].
Defined.

Lemma Step_leader_append_only_witness :
  let a := log_abs log37 in let a' := log_abs (r_raftLog (ex_Step StateLeader ex_prop)) in
  r_Term (ex_Step StateLeader ex_prop) = 3 /\ a_off a' = a_off a /\ a_last a <= a_last a' /\
  forall i, i <= a_last a -> a_entry a' i = a_entry a i.
Proof.
  apply (Step_leader_append_only ex_range (ex_raft StateLeader) ex_prop);
    [apply ex_raft_inv|by split|by vm_compute|by vm_compute|done|by vm_compute].
Defined.

(** The sample runs do what the comments above say. *)
Example ex_runs :
  l_committed (r_raftLog (ex_Step StateFollower ex_app)) = 6 /\
  a_last (log_abs (r_raftLog (ex_Step StateLeader ex_prop))) = 8 /\
  l_committed (r_raftLog (ex_Step StateLeader ex_ack)) = 7 /\
  r_Vote (ex_Step StateFollower ex_vote) = 2.
Proof. by vm_compute. Qed.

(** ** A cluster elects node 1 *)

Definition ex_config (i : Z) : Config MemoryStorage :=
  mkConfig i [1; 2; 3] 10 1 NewMemoryStorage 0 noLimit 4 false.

Lemma ex_config_ok i : i <> 0 -> config_ok (ex_config i) HardState0 ConfState0.
Proof.
  intros Hi. constructor; try done.
  - unfold validate. cbn. zcase; [done|done].
  - cbn. intros s e Hs. by injection Hs as <- <-.
  - by left.
  - by left.
Qed.

Lemma newRaft_spec_witness :
  exists r, newRaft (ex_config 1) = Ok r /\ raft_inv r /\
    r_id r = 1 /\ r_state r = StateFollower /\ r_Term r = 0 /\ r_Vote r = 0 /\
    log_abs (r_raftLog r) = sto_log NewMemoryStorage /\ l_committed (r_raftLog r) = 0 /\
    dom (r_prs r) = list_to_set [1; 2; 3] /\ r_votes r = ∅ /\ r_msgs r = [].
Proof. apply (newRaft_spec (ex_config 1) HardState0 ConfState0). by apply ex_config_ok. Defined.

Definition ok_or {A} (d : A) (o : outcome A) : A := match o with Ok a => a | Panic _ => d end.

Definition boot (i : Z) : raft MemoryStorage := ok_or (ex_raft StateFollower) (newRaft (ex_config i)).

Definition ex_members : gset Z := {[1; 2; 3]}.

Definition fresh (i : Z) : member := mkMember (boot i) (0, 0) None.

Definition sys0 : system :=
  mkSystem (<[1 := fresh 1]> (<[2 := fresh 2]> (<[3 := fresh 3]> ∅))) [].

Lemma sys0_init : sys_init ex_members sys0.
Proof.
  split_and!; [by vm_compute|done|]. intros i p Hp.
  assert (Hc : i <> 0 /\ p = fresh i).
  { cbn in Hp. rewrite !lookup_insert_Some, lookup_empty in Hp. naive_solver. }
  destruct Hc as [Hi ->]. split; [done|]. split; [done|].
  destruct (newRaft_restarts (ex_config i) HardState0 ConfState0 (ex_config_ok i Hi))
    as (r & Hn & Hr & Hid & Hs & _ & Hv & _ & _ & Hd & Hvs & Hm).
  cbn [fresh p_raft]. unfold boot. rewrite Hn. cbn [ok_or]. by split_and!.
Qed.

Definition hup : Message := Message0 <| mType := MsgHup |>.

(** The states the run goes through: node 1 campaigns and sends its requests,
    node 2 grants its vote, node 1 counts it and leads. *)
Definition member_of (s : system) (i : Z) : member := default (fresh i) (s_members s !! i).

Definition do_step (s : system) (i : Z) (m : Message) : system :=
  let p := member_of s i in set_raft s i p (ok_or (p_raft p) (Step ex_range (p_raft p) m)).
Definition do_receive (s : system) (i : Z) (m : Message) : system :=
  let p := member_of s i in set_raft s i p (ok_or (p_raft p) (receive ex_range (p_raft p) m)).
Definition do_ready (s : system) (i : Z) : system :=
  let p := member_of s i in let r := p_raft p in
  let islead := bool_decide (r_state r = StateLeader) in
  mkSystem (<[i := mkMember (r <| r_msgs := [] |>) (p_disk p)
                     (Some (hard_of r, if islead then [] else r_msgs r))]> (s_members s))
    (s_msgs s ++ if islead then r_msgs r else []).
Definition do_saved (s : system) (i : Z) : system :=
  let p := member_of s i in
  match p_saving p with
  | Some (h, ms) => mkSystem (<[i := mkMember (p_raft p) h None]> (s_members s)) (s_msgs s ++ ms)
  | None => s
  end.
Definition sent (s : @system MemoryStorage) (k : nat) : Message := default hup (s_msgs s !! k).

Definition sys1 : system := do_saved (do_ready (do_step sys0 1 hup) 1) 1.
Definition sys2 : system := do_saved (do_ready (do_receive sys1 2 (sent sys1 1)) 2) 2.
Definition sys3 : system := do_receive sys2 1 (sent sys2 2).

Example sys3_leads :
  r_state (p_raft (member_of sys3 1)) = StateLeader /\ r_Term (p_raft (member_of sys3 1)) = 1 /\
  r_Vote (p_raft (member_of sys3 2)) = 1 /\ (mType <$> s_msgs sys3) = [MsgVote; MsgVote; MsgVoteResp].
Proof. by vm_compute. Qed.

Definition succeeds {A} (o : outcome A) : bool := match o with Ok _ => true | Panic _ => false end.

Lemma succeeds_Ok {A} (o : outcome A) : succeeds o = true -> is_Ok o.
Proof. destruct o; [by eexists|done]. Qed.

Lemma run_step s i m : is_Some (s_members s !! i) -> mTerm m = 0 -> ~ termed m ->
  headroom (p_raft (member_of s i)) m -> succeeds (Step ex_range (p_raft (member_of s i)) m) = true ->
  sys_step ex_members ex_range s (do_step s i m).
Proof.
  intros [p Hp] Ht Hn Hh [r Hr]%succeeds_Ok. unfold do_step, member_of in *. rewrite Hp in *. cbn in *. rewrite Hr. cbn.
  by eapply ss_local.
Qed.

Lemma run_receive s i m : is_Some (s_members s !! i) -> m ∈ s_msgs s -> mTo m = i -> mType m <> MsgSnap ->
  headroom (p_raft (member_of s i)) m -> succeeds (receive ex_range (p_raft (member_of s i)) m) = true ->
  sys_step ex_members ex_range s (do_receive s i m).
Proof.
  intros [p Hp] Hm Hto Hn Hh [r Hr]%succeeds_Ok. unfold do_receive, member_of in *. rewrite Hp in *. cbn in *. rewrite Hr. cbn.
  eapply ss_receive; try done. by intros E.
Qed.

Lemma run_ready s i : is_Some (s_members s !! i) -> p_saving (member_of s i) = None ->
  sys_step ex_members ex_range s (do_ready s i).
Proof. intros [p Hp] Hs. unfold do_ready, member_of in *. rewrite Hp in *. cbn in *. by apply ss_ready. Qed.

Lemma run_saved s i : is_Some (s_members s !! i) -> is_Some (p_saving (member_of s i)) ->
  sys_step ex_members ex_range s (do_saved s i).
Proof.
  intros [p Hp] [[h ms] Hs]. unfold do_saved, member_of in *. rewrite Hp in *. cbn in *. rewrite Hs.
  by apply ss_saved.
Qed.

Lemma sys3_reachable : rtc (sys_step ex_members ex_range) sys0 sys3.
Proof.
  eapply rtc_l; [apply (run_step sys0 1 hup); [by vm_compute; eauto|done|by intros []|by vm_compute|by vm_compute]|].
  eapply rtc_l; [apply (run_ready _ 1); [by vm_compute; eauto|by vm_compute]|].
  eapply rtc_l; [apply (run_saved _ 1); [by vm_compute; eauto|by vm_compute; eauto]|]. fold sys1.
  eapply rtc_l; [apply (run_receive sys1 2 (sent sys1 1)); [by vm_compute; eauto| |by vm_compute|by vm_compute|by vm_compute|by vm_compute]|].
  { apply (list_elem_of_lookup_2 _ 1). by vm_compute. }
  eapply rtc_l; [apply (run_ready _ 2); [by vm_compute; eauto|by vm_compute]|].
  eapply rtc_l; [apply (run_saved _ 2); [by vm_compute; eauto|by vm_compute; eauto]|]. fold sys2.
  apply rtc_once, (run_receive sys2 1 (sent sys2 2)); [by vm_compute; eauto| |by vm_compute|by vm_compute|by vm_compute|by vm_compute].
  apply (list_elem_of_lookup_2 _ 2). by vm_compute.
Qed.

Lemma election_safety_witness :
  r_state (p_raft (member_of sys3 1)) = StateLeader /\
  (forall i j p q, s_members sys3 !! i = Some p -> s_members sys3 !! j = Some q ->
     r_state (p_raft p) = StateLeader -> r_state (p_raft q) = StateLeader ->
     r_Term (p_raft p) = r_Term (p_raft q) -> i = j) /\
  (forall b b', b ∈ s_msgs sys3 -> b' ∈ s_msgs sys3 -> from_leader b = true -> from_leader b' = true ->
     mTerm b = mTerm b' -> mFrom b = mFrom b').
Proof.
  split; [by vm_compute|].
  apply (election_safety ex_members ex_range sys0 sys3); [unfold ex_members; set_solver|by vm_compute; lia|
    apply sys0_init|apply sys3_reachable].
Defined.
