(* ===== verification/NodeExamples.v ===== *)
(** * A node of one, driven by an application

    A [RawNode] that campaigns, proposes and takes batches, on which the
    theorems of [Delivery] and [NodeLoop] are instantiated. *)

From S2P Require Import Prelude RaftPB Proto RaftCodec Storage Unstable RaftLog Progress Raft RaftSpec Quorum RaftRefine RaftStep RaftProps RaftStart RawNode Delivery NodeLoop RaftExamples.

Notation rawnode := (RawNode MemoryStorage).

Definition solo_config : Config MemoryStorage := mkConfig 1 [1] 10 1 NewMemoryStorage 0 noLimit 4 false.

Lemma solo_config_ok : config_ok solo_config HardState0 ConfState0.
Proof. constructor; try done; [|by left|by left]. cbn. intros s e Hs. by injection Hs as <- <-. Qed.

Definition solo_raft : raft MemoryStorage := ok_or (ex_raft StateFollower) (newRaft solo_config).
Definition solo0 : rawnode := mkRawNode solo_raft (softState solo_raft) (hardState solo_raft).

Lemma solo0_ok : rn_ok solo0 0.
Proof. apply (restart_ok solo_config HardState0 ConfState0); [apply solo_config_ok|by vm_compute|done]. Qed.

(** Take, save and acknowledge a batch. *)
Definition do_batch (rn : rawnode) : Ready * rawnode :=
  match rn_Ready rn with
  | Ok (rd, rn1) =>
      match save_ready (l_storage (r_raftLog (rn_raft rn1))) rd with
      | Ok ms => (rd, ok_or rn (Advance (with_storage rn1 ms) rd))
      | Panic _ => (rd, rn)
      end
  | Panic _ => (ready_of rn, rn)
  end.

Definition batch_runs (rn : rawnode) : bool :=
  match rn_Ready rn with
  | Ok (rd, rn1) =>
      match save_ready (l_storage (r_raftLog (rn_raft rn1))) rd with
      | Ok ms => succeeds (Advance (with_storage rn1 ms) rd)
      | Panic _ => false
      end
  | Panic _ => false
  end.

Lemma do_batch_batch rn : batch_runs rn = true -> batch rn (do_batch rn).1 (do_batch rn).2.
Proof.
  unfold batch_runs, do_batch. destruct (rn_Ready rn) as [[rd rn1]|] eqn:Er; [|done].
  destruct (save_ready _ rd) as [ms|] eqn:Es; [|done]. intros [rn' Ha]%succeeds_Ok. rewrite Ha. by exists rn1, ms.
Qed.

Definition solo1 : rawnode := ok_or solo0 (Campaign ex_range solo0).
Definition solo2 : rawnode := (do_batch solo1).2.
Definition solo3 : rawnode := ok_or solo2 (Propose ex_range solo2 (Some [7; 8])).
Definition solo4 : rawnode := (do_batch solo3).2.

Definition solo_batches : list Ready := [(do_batch solo1).1; (do_batch solo3).1].

(** It becomes leader, and its own entry and the proposal come out, committed. *)
Example solo_runs :
  r_state (rn_raft solo1) = StateLeader /\ containsUpdates (ready_of solo4) = false /\
  (fun rd => (fun e => (eIndex e, eData e)) <$> rd_CommittedEntries rd) <$> solo_batches = [[(1, None)]; [(2, Some [7; 8])]].
Proof. by vm_compute. Qed.

Lemma solo_run : run ex_range solo0 0 solo_batches solo4 2.
Proof.
  assert (run ex_range solo0 0 [] solo1 0) as R1.
  { eapply run_input; [apply run_start|]. apply in_Campaign; by vm_compute. }
  assert (run ex_range solo0 0 [(do_batch solo1).1] solo2 1) as R2.
  { apply (run_batch ex_range solo0 0 [] solo1 (do_batch solo1).1 solo2 0); [done|]. apply do_batch_batch. by vm_compute. }
  assert (run ex_range solo0 0 [(do_batch solo1).1] solo3 1) as R3.
  { eapply run_input; [exact R2|]. apply (in_Propose ex_range solo2 (Some [7; 8])); by vm_compute. }
  apply (run_batch ex_range solo0 0 [(do_batch solo1).1] solo3 (do_batch solo3).1 solo4 1); [done|].
  apply do_batch_batch. by vm_compute.
Qed.

Lemma RawNode_delivers_witness :
  2 = end_pos 0 solo_batches /\ in_order 0 solo_batches /\ undisturbed solo4 2 solo_batches /\
  exists rd rn', batch solo4 rd rn' /\ after 2 rd = l_committed (r_raftLog (rn_raft solo4)) /\
    rn_ok rn' (after 2 rd).
Proof. apply (RawNode_delivers ex_range solo0 0 solo_batches solo4 2); [apply solo0_ok|apply solo_run]. Defined.

Lemma HasReady_spec_witness :
  exists rd rn', rn_Ready solo0 = Ok (rd, rn') /\ HasReady solo0 = Ok (containsUpdates rd).
Proof. apply (HasReady_spec solo0 0), solo0_ok. Defined.

Definition solo_node : node MemoryStorage :=
  (run_init solo_raft) <| n_prevHardSt := hardState solo_raft |>.

Lemma node_batch_agrees_witness :
  exists rd rn1, rn_Ready solo0 = Ok (rd, rn1) /\
  if containsUpdates rd then
    exists n1, run_round ex_range solo_node EvReady = Ok (Some n1) /\ n_raft n1 = rn_raft rn1 /\
      forall ms, agree_outcome (run_round ex_range (node_storage n1 ms) EvAdvance) (Advance (with_storage rn1 ms) rd)
  else run_round ex_range solo_node EvReady = Ok None.
Proof. apply (node_batch_agrees ex_range solo_node solo0 0); [by constructor|apply solo0_ok]. Defined.

(** ** A node that voted before it had a log *)

Definition voted_config : Config MemoryStorage :=
  mkConfig 1 [] 10 1 (ms_SetHardState NewMemoryStorage (mkHardState 5 2 0 None)) 0 noLimit 4 false.

Lemma voted_config_ok : config_ok voted_config (mkHardState 5 2 0 None) ConfState0.
Proof. constructor; try done; [|by left|by left]. cbn. intros s e Hs. by injection Hs as <- <-. Qed.

Definition voted_peers : list Peer := [mkPeer 1 None; mkPeer 2 (Some [7])].

Lemma NewRawNode_empty_log_witness :
  exists rn, NewRawNode voted_config voted_peers = Ok rn /\ rn_ok rn 0 /\
    log_abs (r_raftLog (rn_raft rn)) = mkAlog 0 0 [boot_entry 0 (mkPeer 1 None); boot_entry 1 (mkPeer 2 (Some [7]))] /\
    l_committed (r_raftLog (rn_raft rn)) = 2 /\ dom (r_prs (rn_raft rn)) = {[1; 2]} /\
    r_Term (rn_raft rn) = 1 /\ r_Vote (rn_raft rn) = 0.
Proof.
  destruct (NewRawNode_empty_log voted_config (mkHardState 5 2 0 None) ConfState0 voted_peers)
    as (rn & H1 & H2 & _ & _ & H3 & H4 & _ & H5 & H6 & H7);
    [apply voted_config_ok|by split|by vm_compute|by repeat constructor|].
  exists rn. by split_and!.
Defined.
