(* ===== verification/OrderedMap.v ===== *)
(** Byte strings in the order of [bytes.Compare], the big-endian integers of
    [encoding/binary], and the ordered maps the storage layer stands on.

    The key index lives in a B-tree (google/btree) and the data in the buckets
    of a bolt database.  Both are libraries; what the code relies on is the
    interface [OMap] with its laws [OMapLaws]: a finite map from byte strings
    that is visited in the order of its keys.  [gmap_omap] is an instance. *)

From S2P Require Import Prelude.

(** ** [bytes.Compare] *)

Fixpoint bytes_compare (a b : list Z) : comparison :=
  match a, b with
  | [], [] => Eq
  | [], _ :: _ => Lt
  | _ :: _, [] => Gt
  | x :: a', y :: b' => match x ?= y with Eq => bytes_compare a' b' | c => c end
  end.

(** [bytes.Compare(a, b) < 0] *)
Definition bytes_ltb (a b : list Z) : bool :=
  match bytes_compare a b with Lt => true | _ => false end.

Definition bytes_lt (a b : list Z) : Prop := bytes_compare a b = Lt.
#[global] Instance bytes_lt_dec a b : Decision (bytes_lt a b) := decide (bytes_compare a b = Lt).

Lemma bytes_ltb_lt a b : bytes_ltb a b = true <-> bytes_lt a b.
Proof. unfold bytes_ltb, bytes_lt. destruct (bytes_compare a b); naive_solver. Qed.

Lemma bytes_ltb_reflect a b : reflect (bytes_lt a b) (bytes_ltb a b).
Proof. apply iff_reflect. by rewrite bytes_ltb_lt. Qed.

Lemma bytes_compare_eq a b : bytes_compare a b = Eq <-> a = b.
Proof.
  revert b. induction a as [|x a IH]; intros [|y b]; simpl; try naive_solver.
  destruct (Z.compare_spec x y); [subst; rewrite IH; naive_solver| |];
    split; intros ?; simplify_eq; lia.
Qed.

Lemma bytes_compare_refl a : bytes_compare a a = Eq.
Proof. by apply bytes_compare_eq. Qed.

Lemma bytes_compare_antisym a b : bytes_compare b a = CompOpp (bytes_compare a b).
Proof.
  revert b. induction a as [|x a IH]; intros [|y b]; simpl; try done.
  rewrite (Z.compare_antisym x y). destruct (x ?= y); simpl; auto.
Qed.

#[global] Instance bytes_lt_irrefl : Irreflexive bytes_lt.
Proof. intros a. unfold complement, bytes_lt. by rewrite bytes_compare_refl. Qed.

#[global] Instance bytes_lt_trans : Transitive bytes_lt.
Proof.
  unfold bytes_lt. intros a. induction a as [|x a IH]; intros [|y b] [|z c]; simpl; try done.
  destruct (Z.compare_spec x y), (Z.compare_spec y z), (Z.compare_spec x z);
    subst; try done; try lia. apply IH.
Qed.

Lemma bytes_lt_total a b : bytes_lt a b \/ a = b \/ bytes_lt b a.
Proof.
  unfold bytes_lt. rewrite (bytes_compare_antisym a b), <- (bytes_compare_eq a b).
  destruct (bytes_compare a b); auto.
Qed.

Lemma bytes_lt_asym a b : bytes_lt a b -> ~ bytes_lt b a.
Proof. intros H1 H2. by apply (bytes_lt_irrefl a), (bytes_lt_trans _ b). Qed.

Lemma bytes_compare_app a b c : bytes_compare (a ++ b) (a ++ c) = bytes_compare b c.
Proof. induction a as [|x a IH]; simpl; [done|]. by rewrite Z.compare_refl. Qed.

(** The comparison is decided by the first part when the parts have equal lengths. *)
Lemma bytes_compare_app_2 a b c d : length a = length b ->
  bytes_compare (a ++ c) (b ++ d)
  = match bytes_compare a b with Eq => bytes_compare c d | r => r end.
Proof.
  revert b. induction a as [|x a IH]; intros [|y b] Hl; try done; simpl.
  destruct (x ?= y); try done. apply IH. naive_solver.
Qed.

(** ** [binary.BigEndian] *)

(** The low [n] bytes of [v], the highest first. *)
Fixpoint be_bytes (n : nat) (v : Z) : list Z :=
  match n with
  | O => []
  | S k => (Z.shiftr v (8 * Z.of_nat k) mod 256) :: be_bytes k v
  end.

(** [PutUint64] *)
Definition PutUint64 (v : Z) : list Z := be_bytes 8 v.

Definition be_value (l : list Z) : Z := foldl (fun acc b => acc * 256 + b) 0 l.

(** [Uint64] reads the first eight bytes. *)
Definition Uint64 (b : list Z) : outcome Z :=
  if zlen b <? 8 then Panic "index out of range" else Ok (be_value (take 8 b)).

Lemma be_bytes_length n v : length (be_bytes n v) = n.
Proof. induction n; simpl; auto. Qed.

Lemma PutUint64_length v : length (PutUint64 v) = 8%nat.
Proof. apply be_bytes_length. Qed.

Lemma be_bytes_mod n v m : (n <= m)%nat -> be_bytes n (v mod 256 ^ Z.of_nat m) = be_bytes n v.
Proof.
  induction n as [|n IH]; intros Hm; simpl; [done|]. rewrite IH by lia. f_equal.
  rewrite !Z.shiftr_div_pow2 by lia. rewrite Z.pow_mul_r by lia.
  change (2 ^ 8) with 256.
  replace (Z.of_nat m) with (Z.of_nat n + (1 + (Z.of_nat m - Z.of_nat n - 1))) by lia.
  rewrite Z.pow_add_r, Z.pow_add_r by lia. change (256 ^ 1) with 256.
  assert (0 < 256 ^ Z.of_nat n) by (apply Z.pow_pos_nonneg; lia).
  assert (0 < 256 ^ (Z.of_nat m - Z.of_nat n - 1)) by (apply Z.pow_pos_nonneg; lia).
  rewrite Z.rem_mul_r by lia.
  rewrite Z.add_comm, Z.mul_comm, Z.div_add_l by lia.
  rewrite (Z.div_small (v mod _)) by (apply Z.mod_pos_bound; lia).
  rewrite Z.add_0_r, Z.rem_mul_r by lia.
  rewrite (Z.mul_comm 256), Z.mod_add by lia. by rewrite Z.mod_mod.
Qed.

(** The high byte and the rest of a value below [256 ^ (n + 1)]. *)
Lemma be_bytes_S n v : 0 <= v < 256 ^ Z.of_nat (S n) ->
  be_bytes (S n) v = v / 256 ^ Z.of_nat n :: be_bytes n (v mod 256 ^ Z.of_nat n).
Proof.
  intros Hv. rewrite be_bytes_mod by lia. simpl. f_equal.
  rewrite Z.shiftr_div_pow2, Z.pow_mul_r by lia. change (2 ^ 8) with 256.
  assert (0 < 256 ^ Z.of_nat n) by (apply Z.pow_pos_nonneg; lia).
  apply Z.mod_small. split; [apply Z.div_pos; lia|].
  apply Z.div_lt_upper_bound; [lia|].
  rewrite Nat2Z.inj_succ, Z.pow_succ_r in Hv by lia. lia.
Qed.

(** Big-endian encoding keeps the order. *)
Lemma be_bytes_compare n x y : 0 <= x < 256 ^ Z.of_nat n -> 0 <= y < 256 ^ Z.of_nat n ->
  bytes_compare (be_bytes n x) (be_bytes n y) = (x ?= y).
Proof.
  revert x y. induction n as [|n IH]; intros x y Hx Hy.
  { rewrite Z.pow_0_r in *. by replace y with x by lia; rewrite Z.compare_refl. }
  rewrite !be_bytes_S by done. simpl.
  assert (0 < 256 ^ Z.of_nat n) as Hp by (apply Z.pow_pos_nonneg; lia).
  pose proof (Z.mod_pos_bound x _ Hp). pose proof (Z.mod_pos_bound y _ Hp).
  pose proof (Z.div_mod x (256 ^ Z.of_nat n)). pose proof (Z.div_mod y (256 ^ Z.of_nat n)).
  rewrite IH by done. symmetry.
  destruct (Z.compare_spec (x / 256 ^ Z.of_nat n) (y / 256 ^ Z.of_nat n)) as [E|E|E].
  - destruct (Z.compare_spec (x mod 256 ^ Z.of_nat n) (y mod 256 ^ Z.of_nat n));
      [apply Z.compare_eq_iff|apply Z.compare_lt_iff|apply Z.compare_gt_iff]; nia.
  - apply Z.compare_lt_iff. nia.
  - apply Z.compare_gt_iff. nia.
Qed.

Lemma be_value_app l x : be_value (l ++ [x]) = be_value l * 256 + x.
Proof. unfold be_value. by rewrite foldl_app. Qed.

Lemma be_value_cons x l : be_value (x :: l) = x * 256 ^ zlen l + be_value l.
Proof.
  induction l as [|y l IH] using rev_ind; [unfold be_value; simpl; lia|].
  rewrite app_comm_cons, !be_value_app, IH, length_app. simpl length.
  replace (Z.of_nat (length l + 1)) with (zlen l + 1) by lia.
  rewrite Z.pow_add_r by lia. lia.
Qed.

Lemma be_value_bytes n v : 0 <= v < 256 ^ Z.of_nat n -> be_value (be_bytes n v) = v.
Proof.
  revert v. induction n as [|n IH]; intros v Hv.
  { rewrite Z.pow_0_r in Hv. cbn. lia. }
  assert (0 < 256 ^ Z.of_nat n) as Hp by (apply Z.pow_pos_nonneg; lia).
  rewrite be_bytes_S by done. rewrite be_value_cons, be_bytes_length, IH.
  - rewrite (Z.div_mod v (256 ^ Z.of_nat n)) at 3; lia.
  - by apply Z.mod_pos_bound.
Qed.

Lemma Uint64_PutUint64 v rest : is_u64 v -> Uint64 (PutUint64 v ++ rest) = Ok v.
Proof.
  intros Hv. unfold Uint64. rewrite length_app, PutUint64_length.
  zif; [lia|]. rewrite take_app_length' by (by rewrite PutUint64_length).
  unfold PutUint64. by rewrite be_value_bytes.
Qed.

(** ** Ordered maps *)

(** [om_items] lists the map in the order of its keys. *)
Class OMap (M : Type -> Type) : Type := {
  om_empty : forall {A}, M A;
  om_get : forall {A}, list Z -> M A -> option A;
  om_put : forall {A}, list Z -> A -> M A -> M A;
  om_del : forall {A}, list Z -> M A -> M A;
  om_items : forall {A}, M A -> list (list Z * A);
}.

Class OMapLaws (M : Type -> Type) `{OMap M} : Prop := {
  om_get_empty A k : om_get k (om_empty : M A) = None;
  om_get_put A k (v : A) m : om_get k (om_put k v m) = Some v;
  om_get_put_ne A k k' (v : A) m : k <> k' -> om_get k' (om_put k v m) = om_get k' m;
  om_get_del A k (m : M A) : om_get k (om_del k m) = None;
  om_get_del_ne A k k' (m : M A) : k <> k' -> om_get k' (om_del k m) = om_get k' m;
  om_items_get A k (v : A) m : (k, v) ∈ om_items m <-> om_get k m = Some v;
  om_items_sorted A (m : M A) : StronglySorted bytes_lt (om_items m).*1;
}.

(** The items a cursor visits from [k] on ([Cursor.Seek] and [Next] of bolt,
    [AscendGreaterOrEqual] of the B-tree). *)
Definition om_seek `{OMap M} {A} (k : list Z) (m : M A) : list (list Z * A) :=
  filter (fun p => ~ bytes_lt p.1 k) (om_items m).

(** Two sorted association lists with the same items are equal. *)
Lemma sorted_items_eq {A} (l1 l2 : list (list Z * A)) :
  StronglySorted bytes_lt l1.*1 -> StronglySorted bytes_lt l2.*1 ->
  (forall p, p ∈ l1 <-> p ∈ l2) -> l1 = l2.
Proof.
  revert l2. induction l1 as [|[k1 v1] l1 IH]; intros [|[k2 v2] l2] H1 H2 Heq; [done| | |].
  - by destruct (not_elem_of_nil (k2, v2)); apply Heq; left.
  - by destruct (not_elem_of_nil (k1, v1)); apply Heq; left.
  - simpl in *. apply StronglySorted_inv in H1 as [H1 F1]. apply StronglySorted_inv in H2 as [H2 F2].
    rewrite Forall_forall in F1. rewrite Forall_forall in F2.
    assert (Hin : forall k v (l : list (list Z * A)), (k, v) ∈ l -> k ∈ l.*1)
      by (intros k v l Hl; by apply (list_elem_of_fmap_2 fst) in Hl).
    assert ((k1, v1) = (k2, v2)) as [= <- <-].
    { assert ((k1, v1) ∈ (k2, v2) :: l2) as E1 by (apply Heq; left).
      assert ((k2, v2) ∈ (k1, v1) :: l1) as E2 by (apply Heq; left).
      apply elem_of_cons in E1 as [E1|E1]; [done|]. apply elem_of_cons in E2 as [E2|E2]; [done|].
      destruct (bytes_lt_asym k1 k2); eauto. }
    f_equal. apply IH; [done..|]. intros [k v]. specialize (Heq (k, v)).
    rewrite !elem_of_cons in Heq. split; intros Hp.
    + destruct Heq as [[E|?] _]; [by right| |done].
      injection E as -> ->. by destruct (bytes_lt_irrefl k1); eauto.
    + destruct Heq as [_ [E|?]]; [by right| |done].
      injection E as -> ->. by destruct (bytes_lt_irrefl k1); eauto.
Qed.

Lemma sorted_NoDup (l : list (list Z)) : StronglySorted bytes_lt l -> NoDup l.
Proof.
  induction 1 as [|k l Hs IH HF]; [constructor|].
  constructor; [|done]. intros Hk. rewrite Forall_forall in HF.
  by apply (bytes_lt_irrefl k), HF.
Qed.

Section omap_lemmas.
  Context `{OMapLaws M}.

Lemma om_items_NoDup A (m : M A) : NoDup (om_items m).*1.
Proof. apply sorted_NoDup, om_items_sorted. Qed.

Lemma om_items_ext A (m1 m2 : M A) :
  (forall k, om_get k m1 = om_get k m2) -> om_items m1 = om_items m2.
Proof.
  intros Hg. apply sorted_items_eq; [apply om_items_sorted..|].
  intros [k v]. by rewrite !om_items_get, Hg.
Qed.

Lemma om_items_empty A : om_items (om_empty : M A) = [].
Proof.
  destruct (om_items om_empty) as [|[k v] l] eqn:E; [done|].
  assert ((k, v) ∈ om_items (om_empty : M A)) as Hin by (rewrite E; left).
  apply om_items_get in Hin. by rewrite om_get_empty in Hin.
Qed.

Lemma om_seek_get A k0 k (v : A) m :
  (k, v) ∈ om_seek k0 m <-> ~ bytes_lt k k0 /\ om_get k m = Some v.
Proof. unfold om_seek. by rewrite list_elem_of_filter, om_items_get. Qed.

Lemma om_get_put_case A k k' (v : A) m :
  om_get k' (om_put k v m) = if decide (k = k') then Some v else om_get k' m.
Proof. destruct (decide (k = k')) as [<-|Hne]; [apply om_get_put|by apply om_get_put_ne]. Qed.

Lemma om_get_del_case A k k' (m : M A) :
  om_get k' (om_del k m) = if decide (k = k') then None else om_get k' m.
Proof. destruct (decide (k = k')) as [<-|Hne]; [apply om_get_del|by apply om_get_del_ne]. Qed.
End omap_lemmas.

(** Part of a sorted list is sorted. *)
Lemma sorted_filter {A} (P : list Z * A -> Prop) `{forall p, Decision (P p)} l :
  StronglySorted bytes_lt l.*1 -> StronglySorted bytes_lt (filter P l).*1.
Proof.
  induction l as [|p l IH]; intros Hs; [done|]. simpl in Hs.
  apply StronglySorted_inv in Hs as [Hs HF]. rewrite filter_cons.
  destruct (decide (P p)); [|by apply IH]. simpl. constructor; [by apply IH|].
  rewrite Forall_forall in *. intros k (q & -> & Hq)%list_elem_of_fmap.
  apply list_elem_of_filter in Hq as [_ Hq]. apply HF. by apply list_elem_of_fmap_2.
Qed.

Lemma filter_fst {K V : Type} (P : K -> Prop) `{forall a, Decision (P a)} (l : list (K * V)) :
  filter P l.*1 = (filter (fun p => P p.1) l).*1.
Proof.
  induction l as [|[a b] l IH]; [done|]. rewrite fmap_cons, !filter_cons. cbn [fst].
  destruct (decide (P a)); rewrite ?fmap_cons; by rewrite IH.
Qed.

(** ** An instance *)

Definition key_le {A} (p q : list Z * A) : Prop := ~ bytes_lt q.1 p.1.
#[global] Instance key_le_dec {A} (p q : list Z * A) : Decision (key_le p q) := _.

#[global] Instance key_le_total {A} : Total (@key_le A).
Proof.
  intros p q. unfold key_le. destruct (decide (bytes_lt q.1 p.1)) as [Hlt|]; [right|by left].
  by apply bytes_lt_asym.
Qed.

#[global] Instance key_le_trans {A} : Transitive (@key_le A).
Proof.
  unfold key_le. intros p q r Hpq Hqr Hrp.
  destruct (bytes_lt_total q.1 p.1) as [?|[E|?]]; [done| |].
  - rewrite <- E in Hrp. done.
  - apply Hqr. by transitivity p.1.
Qed.

#[global] Instance gmap_omap : OMap (gmap (list Z)) := {
  om_empty _ := ∅;
  om_get _ k m := m !! k;
  om_put _ k v m := <[k := v]> m;
  om_del _ k m := delete k m;
  om_items _ m := merge_sort key_le (map_to_list m);
}.

Lemma key_sorted_strict {A} (l : list (list Z * A)) :
  StronglySorted key_le l -> NoDup l.*1 -> StronglySorted bytes_lt l.*1.
Proof.
  induction l as [|p l IH]; intros Hs Hn; simpl; [constructor|].
  apply StronglySorted_inv in Hs as [Hs HF]. apply NoDup_cons in Hn as [Hp Hn].
  constructor; [by apply IH|]. apply Forall_forall.
  intros k (q & -> & Hq)%list_elem_of_fmap. rewrite Forall_forall in HF. specialize (HF q Hq).
  destruct (bytes_lt_total p.1 q.1) as [?|[E|?]]; [done| |done].
  destruct Hp. rewrite E. by apply list_elem_of_fmap_2.
Qed.

#[global] Instance gmap_omap_laws : OMapLaws (gmap (list Z)).
Proof.
  split; intros; simpl.
  - apply lookup_empty.
  - by rewrite lookup_insert_eq.
  - by apply lookup_insert_ne.
  - by rewrite lookup_delete_eq.
  - by apply lookup_delete_ne.
  - by rewrite merge_sort_Permutation, elem_of_map_to_list.
  - apply key_sorted_strict; [apply (StronglySorted_merge_sort key_le)|].
    rewrite (merge_sort_Permutation key_le (map_to_list m)). apply NoDup_fst_map_to_list.
Qed.
