(* ===== verification/Revision.v ===== *)
(** Revisions of the multi-version store (storage/revision.go) and their
    encoding as keys of the backend (storage/kvstore.go).  A revision is a pair
    of [int64]s; the encoding keeps the order of revisions, so that a scan of
    the bucket visits the changes in the order they happened. *)

From S2P Require Import Prelude RaftPB Proto OrderedMap.

Record revision := Revision { rv_main : Z; rv_sub : Z }.
#[global] Instance revision_eta : Eta revision := fun r => Revision (rv_main r) (rv_sub r).
#[global] Instance revision_eq_dec : EqDecision revision.
Proof. solve_decision. Defined.
#[global] Instance revision_countable : Countable revision.
Proof.
  refine (inj_countable' (fun r => (rv_main r, rv_sub r)) (fun p => Revision p.1 p.2) _).
  by intros [].
Defined.
Definition revision0 : revision := Revision 0 0.

Definition GreaterThan (a b : revision) : bool :=
  if rv_main a >? rv_main b then true
  else if rv_main a <? rv_main b then false
  else rv_sub a >? rv_sub b.

(** [revToBytes(rev, newRevBytes())] *)
Definition revToBytes (rev : revision) : list Z :=
  PutUint64 (u64 (rv_main rev)) ++ [95] ++ PutUint64 (u64 (rv_sub rev)).

Definition bytesToRev (bytes : list Z) : outcome revision :=
  let! b := slice2 bytes 0 8 in
  let! m := Uint64 b in
  let! b := slice_from bytes 9 in
  let! s := Uint64 b in
  Ok (Revision (i64 m) (i64 s)).

Definition revBytesLen : Z := 8 + 1 + 8.
Definition markedRevBytesLen : Z := revBytesLen + 1.
Definition markBytePosition : Z := markedRevBytesLen - 1.
Definition markTombstone : Z := 116.

Definition appendMarkTombstone (b : list Z) : outcome (list Z) :=
  if negb (zlen b =? revBytesLen) then Panic "cannot append mark to non normal revision bytes"
  else Ok (b ++ [markTombstone]).

Definition isTombstone (b : list Z) : outcome bool :=
  if zlen b =? markedRevBytesLen then
    let! x := at_ b markBytePosition in Ok (x =? markTombstone)
  else Ok false.

Definition revBytesRange (rev : revision) : list Z * list Z :=
  (revToBytes rev, revToBytes (rev <| rv_sub := i64 (rv_sub rev + 1) |>)).

(** ** The order of revisions *)

Definition rev_lt (a b : revision) : Prop :=
  rv_main a < rv_main b \/ rv_main a = rv_main b /\ rv_sub a < rv_sub b.

(** Revisions the store hands out: both parts are non-negative [int64]s. *)
Definition is_rev (r : revision) : Prop :=
  0 <= rv_main r < 9223372036854775808 /\ 0 <= rv_sub r < 9223372036854775808.

Lemma GreaterThan_spec a b : reflect (rev_lt b a) (GreaterThan a b).
Proof.
  unfold GreaterThan, rev_lt. apply iff_reflect. repeat zif; try rewrite Z.gtb_lt; try naive_solver lia.
Qed.

#[global] Instance rev_lt_dec a b : Decision (rev_lt a b).
Proof. unfold rev_lt. apply _. Defined.

#[global] Instance rev_lt_irrefl : Irreflexive rev_lt.
Proof. intros a. unfold complement, rev_lt. lia. Qed.

#[global] Instance rev_lt_trans : Transitive rev_lt.
Proof. intros a b c. unfold rev_lt. lia. Qed.

Lemma rev_lt_main a b : rev_lt a b -> rv_main a <= rv_main b.
Proof. unfold rev_lt. lia. Qed.

(** ** Encoding *)

Lemma revToBytes_length r : length (revToBytes r) = 17%nat.
Proof. unfold revToBytes. by rewrite !length_app, !PutUint64_length. Qed.

Lemma revToBytes_zlen r : zlen (revToBytes r) = revBytesLen.
Proof. by rewrite revToBytes_length. Qed.

(** The encoding of a revision, with or without a tombstone mark after it, is
    read back. *)
Lemma bytesToRev_revToBytes r rest :
  -9223372036854775808 <= rv_main r < 9223372036854775808 ->
  -9223372036854775808 <= rv_sub r < 9223372036854775808 ->
  bytesToRev (revToBytes r ++ rest) = Ok r.
Proof.
  intros Hm Hs. unfold bytesToRev, revToBytes. rewrite <- !(assoc_L (++)).
  set (bm := PutUint64 (u64 (rv_main r))). set (bs := PutUint64 (u64 (rv_sub r))).
  assert (length bm = 8%nat) as Lm by apply PutUint64_length.
  assert (length bs = 8%nat) as Ls by apply PutUint64_length.
  rewrite slice2_Ok by (rewrite ?length_app; simpl; lia).
  change (Z.to_nat (8 - 0)) with 8%nat. rewrite drop_0, take_app_length' by done. gosimpl.
  rewrite <- (app_nil_r bm). unfold bm at 1. rewrite Uint64_PutUint64 by apply u64_range. gosimpl.
  rewrite slice_from_Ok by (rewrite ?length_app; simpl; lia).
  rewrite app_nil_r, (assoc_L (++) bm), drop_app_length' by (by rewrite length_app, Lm). gosimpl.
  unfold bs. rewrite Uint64_PutUint64 by apply u64_range. gosimpl.
  rewrite !i64_u64 by done. by destruct r.
Qed.

Definition rev_compare (a b : revision) : comparison :=
  match rv_main a ?= rv_main b with Eq => rv_sub a ?= rv_sub b | c => c end.

Lemma rev_compare_lt a b : rev_compare a b = Lt <-> rev_lt a b.
Proof.
  unfold rev_compare, rev_lt.
  destruct (Z.compare_spec (rv_main a) (rv_main b)), (Z.compare_spec (rv_sub a) (rv_sub b));
    naive_solver lia.
Qed.

Lemma revToBytes_compare a b ra rb : is_rev a -> is_rev b ->
  bytes_compare (revToBytes a ++ ra) (revToBytes b ++ rb)
  = match rev_compare a b with Eq => bytes_compare ra rb | c => c end.
Proof.
  intros [Ha1 Ha2] [Hb1 Hb2].
  rewrite bytes_compare_app_2 by (by rewrite !revToBytes_length).
  unfold revToBytes, rev_compare. rewrite bytes_compare_app_2 by (by rewrite !PutUint64_length).
  rewrite bytes_compare_app. unfold PutUint64. rewrite !u64_small by lia.
  rewrite !be_bytes_compare by (simpl; lia). by destruct (rv_main a ?= rv_main b).
Qed.

(** The backend visits revisions in their order: the encoding is monotone. *)
Lemma revToBytes_lt a b ra rb : is_rev a -> is_rev b -> rev_lt a b ->
  bytes_lt (revToBytes a ++ ra) (revToBytes b ++ rb).
Proof.
  intros Ha Hb Hlt%rev_compare_lt. unfold bytes_lt.
  by rewrite revToBytes_compare, Hlt.
Qed.

Lemma revToBytes_inj a b : is_rev a -> is_rev b -> revToBytes a = revToBytes b -> a = b.
Proof.
  intros [Ha1 Ha2] [Hb1 Hb2] E.
  pose proof (bytesToRev_revToBytes a []) as Ea. pose proof (bytesToRev_revToBytes b []) as Eb.
  rewrite app_nil_r in Ea, Eb. rewrite E in Ea.
  rewrite Eb in Ea by lia. symmetry. enough (Ok b = Ok a) by congruence. apply Ea; lia.
Qed.

Lemma isTombstone_normal r : isTombstone (revToBytes r) = Ok false.
Proof. unfold isTombstone. by rewrite revToBytes_length. Qed.

Lemma isTombstone_marked r : isTombstone (revToBytes r ++ [markTombstone]) = Ok true.
Proof.
  unfold isTombstone. rewrite length_app, revToBytes_length. cbn [length].
  change (Z.of_nat (17 + 1) =? markedRevBytesLen) with true. cbv iota.
  assert (at_ (revToBytes r ++ [markTombstone]) markBytePosition = Ok markTombstone) as ->; [|done].
  apply at_Ok. split; [done|]. by rewrite lookup_app_r; rewrite revToBytes_length.
Qed.
