(* ===== verification/KeyIndex.v ===== *)
(** The history of one key in memory: storage/key_index.go.

    A [keyIndex] keeps the revisions at which a key was changed, cut into
    generations; a generation ends with the revision that deleted the key.  The
    last generation is empty when the key is deleted.  Methods of [keyIndex]
    carry the prefix [ki_], methods of [generation] the prefix [g_].  The
    Prometheus gauges are left out.

    What a key index means is its answers: [ki_get] at every main revision.
    [put_get], [tombstone_get] and [compact_get] say how each operation changes
    these answers, and [keyIndex_history] puts them together: after any sequence
    of puts, tombstones and compactions the index answers as the list of the
    changes does. *)

From S2P Require Import Prelude RaftPB Proto OrderedMap Revision.

Inductive storage_error :=
| ErrRevisionNotFound | ErrTxnIDMismatch | ErrCompacted | ErrFutureRev | ErrCanceled.
#[global] Instance storage_error_eq_dec : EqDecision storage_error.
Proof. solve_decision. Defined.

Record generation := Generation {
  g_ver : Z;
  g_created : revision;
  g_revs : list revision;
}.
#[global] Instance generation_eta : Eta generation := fun g =>
  Generation (g_ver g) (g_created g) (g_revs g).
Definition generation0 : generation := Generation 0 revision0 [].

Record keyIndex := KeyIndex {
  ki_key : list Z;
  ki_modified : revision;
  ki_generations : list generation;
}.
#[global] Instance keyIndex_eta : Eta keyIndex := fun ki =>
  KeyIndex (ki_key ki) (ki_modified ki) (ki_generations ki).
(** [&keyIndex{key: key}] *)
Definition new_keyIndex (key : list Z) : keyIndex := KeyIndex key revision0 [].

(** ** Methods of [generation] *)

(** The receiver of [isEmpty] may be nil. *)
Definition g_isEmpty (g : option generation) : bool :=
  match g with None => true | Some g => zlen (g_revs g) =? 0 end.

(** [walk] calls [f] on the revisions from the newest to the oldest until [f]
    returns false; [f] may change the state [S].  [n] revisions are left. *)
Fixpoint walk_loop {S} (revs : list revision) (f : revision -> S -> bool * S) (n : nat) (s : S)
  : outcome (Z * S) :=
  match n with
  | O => Ok (-1, s)
  | Datatypes.S k =>
      let! rev := at_ revs (Z.of_nat k) in
      let '(ok, s) := f rev s in
      if negb ok then Ok (Z.of_nat k, s) else walk_loop revs f k s
  end.

Definition g_walk {S} (g : generation) (f : revision -> S -> bool * S) (s : S) : outcome (Z * S) :=
  walk_loop (g_revs g) f (length (g_revs g)) s.

Definition g_equal (a b : generation) : bool :=
  (g_ver a =? g_ver b) && (zlen (g_revs a) =? zlen (g_revs b)) && bool_decide (g_revs a = g_revs b).

(** ** Methods of [keyIndex] *)

Definition ki_isEmpty (ki : keyIndex) : outcome bool :=
  if zlen (ki_generations ki) =? 1 then
    let! g := at_ (ki_generations ki) 0 in Ok (g_isEmpty (Some g))
  else Ok false.

Definition ki_put (ki : keyIndex) (main sub : Z) : outcome keyIndex :=
  let rev := Revision main sub in
  if negb (GreaterThan rev (ki_modified ki)) then
    Panic "store.keyindex: put with unexpected smaller revision"
  else
    let gens := if zlen (ki_generations ki) =? 0 then [generation0] else ki_generations ki in
    let! g := at_ gens (zlen gens - 1) in
    let g := if zlen (g_revs g) =? 0 then g <| g_created := rev |> else g in
    let g := g <| g_revs := g_revs g ++ [rev] |> <| g_ver := i64 (g_ver g + 1) |> in
    Ok (ki <| ki_generations := <[pred (length gens) := g]> gens |> <| ki_modified := rev |>).

Definition ki_restore (ki : keyIndex) (created modified : revision) (ver : Z) : outcome keyIndex :=
  if negb (zlen (ki_generations ki) =? 0) then
    Panic "store.keyindex: cannot restore non-empty keyIndex"
  else
    Ok (ki <| ki_modified := modified |>
           <| ki_generations := ki_generations ki ++ [Generation ver created [modified]] |>).

Definition ki_tombstone (ki : keyIndex) (main sub : Z) : outcome (keyIndex * option storage_error) :=
  let! e := ki_isEmpty ki in
  if e then Panic "store.keyindex: unexpected tombstone on empty keyIndex" else
  let! g := at_ (ki_generations ki) (zlen (ki_generations ki) - 1) in
  if g_isEmpty (Some g) then Ok (ki, Some ErrRevisionNotFound) else
  let! ki := ki_put ki main sub in
  Ok (ki <| ki_generations := ki_generations ki ++ [generation0] |>, None).

(** The loop of [findGeneration]; [n] is [cg + 1]. *)
Fixpoint findGeneration_loop (gens : list generation) (lastg rev : Z) (n : nat) : outcome (option generation) :=
  match n with
  | O => Ok None
  | S k =>
      let! g := at_ gens (Z.of_nat k) in
      if zlen (g_revs g) =? 0 then findGeneration_loop gens lastg rev k else
      let! dead :=
        (if negb (Z.of_nat k =? lastg) then
           let! tomb := at_ (g_revs g) (zlen (g_revs g) - 1) in Ok (rv_main tomb <=? rev)
         else Ok false) in
      if dead then Ok None else
      let! first := at_ (g_revs g) 0 in
      if rv_main first <=? rev then Ok (Some g) else findGeneration_loop gens lastg rev k
  end.

Definition ki_findGeneration (ki : keyIndex) (rev : Z) : outcome (option generation) :=
  findGeneration_loop (ki_generations ki) (zlen (ki_generations ki) - 1) rev (length (ki_generations ki)).

(** [(modified, created, ver)], or the error. *)
Definition ki_get (ki : keyIndex) (atRev : Z) : outcome (storage_error + revision * revision * Z) :=
  let! e := ki_isEmpty ki in
  if e then Panic "store.keyindex: unexpected get on empty keyIndex" else
  let! og := ki_findGeneration ki atRev in
  match og with
  | Some g =>
      if g_isEmpty (Some g) then Ok (inl ErrRevisionNotFound) else
      let! '(n, _) := g_walk g (fun rev (_ : unit) => (negb (rv_main rev <=? atRev), tt)) tt in
      if negb (n =? -1) then
        let! rev := at_ (g_revs g) n in
        Ok (inr (rev, g_created g, i64 (g_ver g - i64 (zlen (g_revs g) - n - 1))))
      else Ok (inl ErrRevisionNotFound)
  | None => Ok (inl ErrRevisionNotFound)
  end.

(** The first loop of [since]: the index of the generation to start with. *)
Fixpoint since_start (gens : list generation) (since : revision) (gi : nat) : outcome nat :=
  match gi with
  | O => Ok O
  | S gi' =>
      let! g := at_ gens (Z.of_nat gi) in
      if g_isEmpty (Some g) then since_start gens since gi'
      else if GreaterThan since (g_created g) then Ok gi else since_start gens since gi'
  end.

(** One revision of the second loop; the state is [(revs, last)]. *)
Definition since_rev (since : revision) (st : list revision * Z) (r : revision)
  : outcome (list revision * Z) :=
  let '(revs, last) := st in
  if GreaterThan since r then Ok (revs, last) else
  if rv_main r =? last then
    let! _ := at_ revs (zlen revs - 1) in
    Ok (<[pred (length revs) := r]> revs, last)
  else Ok (revs ++ [r], rv_main r).

Definition ki_since (ki : keyIndex) (rev : Z) : outcome (list revision) :=
  let! e := ki_isEmpty ki in
  if e then Panic "store.keyindex: unexpected get on empty keyIndex" else
  let since := Revision rev 0 in
  let gens := ki_generations ki in
  (* without generations the second loop starts at index -1 *)
  let! _ := at_ gens (zlen gens - 1) in
  let! gi := since_start gens since (pred (length gens)) in
  let! '(revs, _) := foldM (fun st g => foldM (since_rev since) (g_revs g) st) (drop gi gens) ([], 0) in
  Ok revs.

(** The loop of [compact]: the first generation that includes [atRev] or was
    created after it; [n] bounds the generations left. *)
Fixpoint compact_loop (gens : list generation) (atRev : Z) (i n : nat) : outcome nat :=
  match n with
  | O => Ok i
  | S n' =>
      let! g := at_ gens (Z.of_nat i) in
      let! tomb := at_ (g_revs g) (zlen (g_revs g) - 1) in
      if rv_main tomb >? atRev then Ok i else compact_loop gens atRev (S i) n'
  end.

Definition ki_compact (ki : keyIndex) (atRev : Z) (available : gset revision)
  : outcome (keyIndex * gset revision) :=
  let! e := ki_isEmpty ki in
  if e then Panic "store.keyindex: unexpected compact on empty keyIndex" else
  let f := fun rev (av : gset revision) =>
    if rv_main rev <=? atRev then (false, {[rev]} ∪ av) else (true, av) in
  let gens := ki_generations ki in
  let! _ := at_ gens 0 in
  let! i := compact_loop gens atRev 0 (pred (length gens)) in
  let! g := at_ gens (Z.of_nat i) in
  let! '(gens, i, available) :=
    (if negb (g_isEmpty (Some g)) then
       let! '(n, av) := g_walk g f available in
       let! revs := (if negb (n =? -1) then slice_from (g_revs g) n else Ok (g_revs g)) in
       let gens := <[i := g <| g_revs := revs |>]> gens in
       if (zlen revs =? 1) && negb (Z.of_nat i =? zlen gens - 1) then
         let! r := at_ revs 0 in Ok (gens, S i, av ∖ {[r]})
       else Ok (gens, i, av)
     else Ok (gens, i, available)) in
  let! gens := slice_from gens (Z.of_nat i) in
  Ok (ki <| ki_generations := gens |>, available).

Definition ki_Less (a b : keyIndex) : bool := bytes_ltb (ki_key a) (ki_key b).

Fixpoint gens_equal (a b : list generation) : bool :=
  match a, b with
  | g :: a', h :: b' => g_equal g h && gens_equal a' b'
  | _, _ => true
  end.

Definition ki_equal (a b : keyIndex) : bool :=
  bool_decide (ki_key a = ki_key b) && bool_decide (ki_modified a = ki_modified b) &&
  (zlen (ki_generations a) =? zlen (ki_generations b)) &&
  gens_equal (ki_generations a) (ki_generations b).

(** ** What a key index answers *)

(** The main revisions not after [at]. *)
Abbreviation upto revs at_rev := (filter (fun r => rv_main r <= at_rev) revs).

(** The newest revision of a generation at [at_rev], with the creation revision
    and the version it has. *)
Definition g_answer (g : generation) (at_rev : Z) : option (revision * revision * Z) :=
  rev ← last (upto (g_revs g) at_rev);
  Some (rev, g_created g, g_ver g - (zlen (g_revs g) - zlen (upto (g_revs g) at_rev))).

Definition g_dead (g : generation) (at_rev : Z) : bool :=
  match last (g_revs g) with Some tomb => rv_main tomb <=? at_rev | None => false end.

(** The answer of the closed generations, the newest first. *)
Fixpoint closed_answer (gens : list generation) (at_rev : Z) : option (revision * revision * Z) :=
  match gens with
  | [] => None
  | g :: gens' =>
      if g_dead g at_rev then None else
      match g_answer g at_rev with Some x => Some x | None => closed_answer gens' at_rev end
  end.

(** The answer of all generations, the newest first. *)
Definition gens_answer (gens : list generation) (at_rev : Z) : option (revision * revision * Z) :=
  match gens with
  | [] => None
  | g :: gens' => match g_answer g at_rev with Some x => Some x | None => closed_answer gens' at_rev end
  end.

Definition ki_answer (ki : keyIndex) (at_rev : Z) : option (revision * revision * Z) :=
  gens_answer (reverse (ki_generations ki)) at_rev.

(** ** The invariant *)

Definition MaxInt64 : Z := 9223372036854775807.

Definition gen_ok (g : generation) : Prop :=
  (g_revs g = [] -> g_ver g = 0) /\ zlen (g_revs g) <= g_ver g <= MaxInt64.

Definition gens_revs (gens : list generation) : list revision := concat (g_revs <$> gens).

Record gens_ok (gens : list generation) : Prop := {
  gens_sorted : StronglySorted rev_lt (gens_revs gens);
  gens_closed : forall pre g, gens = pre ++ [g] -> Forall (fun g => 2 <= length (g_revs g))%nat pre;
  gens_gen : Forall gen_ok gens;
}.

Record ki_ok (ki : keyIndex) : Prop := {
  ki_gens_ok : gens_ok (ki_generations ki);
  ki_last : last (gens_revs (ki_generations ki)) = Some (ki_modified ki);
}.

Lemma gens_revs_app a b : gens_revs (a ++ b) = gens_revs a ++ gens_revs b.
Proof. unfold gens_revs. by rewrite fmap_app, concat_app. Qed.

Lemma gens_revs_one g : gens_revs [g] = g_revs g.
Proof. unfold gens_revs. simpl. apply app_nil_r. Qed.

(** ** Sorted lists of revisions *)

Lemma sorted_app_inv (l1 l2 : list revision) : StronglySorted rev_lt (l1 ++ l2) ->
  StronglySorted rev_lt l1 /\ StronglySorted rev_lt l2
  /\ (forall r1 r2, r1 ∈ l1 -> r2 ∈ l2 -> rev_lt r1 r2).
Proof.
  intros Hs. split; [by eapply StronglySorted_app_1_l|]. split; [by eapply StronglySorted_app_1_r|].
  intros r1 r2 H1 H2. by apply (StronglySorted_app_1_elem_of _ l1 l2).
Qed.

Lemma sorted_app (l1 l2 : list revision) :
  StronglySorted rev_lt l1 -> StronglySorted rev_lt l2 ->
  (forall r1 r2, r1 ∈ l1 -> r2 ∈ l2 -> rev_lt r1 r2) -> StronglySorted rev_lt (l1 ++ l2).
Proof. intros. by apply StronglySorted_app. Qed.

Lemma sorted_last l r : StronglySorted rev_lt l -> last l = Some r ->
  forall x, x ∈ l -> rv_main x <= rv_main r.
Proof.
  intros Hs (l' & ->)%last_Some x Hx. apply sorted_app_inv in Hs as (_ & _ & Hlt).
  apply elem_of_app in Hx as [Hx|Hx%list_elem_of_singleton]; [|by subst].
  apply rev_lt_main, Hlt; [done|]. by apply list_elem_of_singleton.
Qed.

Lemma upto_all l n : Forall (fun r => rv_main r <= n) l -> upto l n = l.
Proof.
  induction 1 as [|r l Hr Hl IH]; [done|]. rewrite filter_cons_True by done. by rewrite IH.
Qed.

Lemma upto_none l n : Forall (fun r => n < rv_main r) l -> upto l n = [].
Proof.
  induction 1 as [|r l Hr Hl IH]; [done|]. rewrite filter_cons_False by lia. done.
Qed.

(** A sorted list is its revisions up to [n] followed by the later ones. *)
Lemma sorted_split_at l n : StronglySorted rev_lt l ->
  exists l2, l = upto l n ++ l2 /\ Forall (fun r => n < rv_main r) l2.
Proof.
  induction l as [|r l IH]; intros Hs; [by exists []|].
  apply StronglySorted_inv in Hs as [Hs HF]. rewrite filter_cons.
  destruct (decide (rv_main r <= n)) as [Hr|Hr].
  - destruct (IH Hs) as (l2 & E & H2). exists l2. split; [|done]. simpl. by rewrite E at 1.
  - exists (r :: l). rewrite Forall_forall in HF.
    assert (Forall (fun r => n < rv_main r) l) as Hl.
    { apply Forall_forall. intros x Hx. pose proof (rev_lt_main _ _ (HF x Hx)). lia. }
    split; [|constructor; [lia|done]].
    by rewrite upto_none.
Qed.

(** ** [get] *)

(** [walk] with a callback that stops at the first main revision not after
    [at_rev] finds the newest one. *)
Lemma walk_upto {S} revs at_rev (f : revision -> S -> bool * S) (h : revision -> S -> S) s :
  StronglySorted rev_lt revs ->
  (forall rev s, f rev s = if rv_main rev <=? at_rev then (false, h rev s) else (true, s)) ->
  walk_loop revs f (length revs) s
  = Ok (match last (upto revs at_rev) with
        | Some r => (zlen (upto revs at_rev) - 1, h r s)
        | None => (-1, s)
        end).
Proof.
  intros Hs Hf. destruct (sorted_split_at revs at_rev Hs) as (l2 & E & H2).
  assert (forall n, (length (upto revs at_rev) <= n <= length revs)%nat ->
    walk_loop revs f n s = walk_loop revs f (length (upto revs at_rev)) s) as Hw.
  { intros n. induction n as [|n IH]; intros Hn; [by replace (length (upto revs at_rev)) with 0%nat by lia|].
    destruct (decide (length (upto revs at_rev) = Datatypes.S n)) as [->|Hne]; [done|].
    simpl. destruct (at_in_range revs (Z.of_nat n)) as (x & -> & Hx); [lia|]. gosimpl.
    rewrite Nat2Z.id, E, lookup_app_r in Hx by lia.
    rewrite Forall_forall in H2. specialize (H2 x (list_elem_of_lookup_2 _ _ _ Hx)).
    rewrite Hf. zif; [lia|]. apply IH. lia. }
  rewrite Hw by (rewrite E at 2; rewrite length_app; lia).
  assert (Forall (fun r => rv_main r <= at_rev) (upto revs at_rev)) as H1.
  { apply Forall_forall. intros x. rewrite list_elem_of_filter. tauto. }
  destruct (last (upto revs at_rev)) as [r|] eqn:El; [|by apply last_None in El as ->].
  apply last_Some in El as (l1 & El). rewrite El in *.
  rewrite Forall_app, Forall_singleton in H1. rewrite length_app, Nat.add_1_r. cbn [walk_loop].
  assert (at_ revs (zlen l1) = Ok r) as ->.
  { apply at_Ok. split; [lia|]. rewrite Nat2Z.id, E, <- (assoc_L (++)).
    by apply list_lookup_middle. }
  gosimpl. rewrite Hf. zif; [|lia]. f_equal. f_equal. lia.
Qed.

Definition answer_result (a : option (revision * revision * Z)) : storage_error + revision * revision * Z :=
  match a with Some x => inr x | None => inl ErrRevisionNotFound end.

Lemma g_dead_at g at_rev : g_revs g <> [] ->
  (let! tomb := at_ (g_revs g) (zlen (g_revs g) - 1) in Ok (rv_main tomb <=? at_rev))
  = Ok (g_dead g at_rev).
Proof.
  intros Hne. unfold g_dead. destruct (last (g_revs g)) as [r|] eqn:El; [|by apply last_None in El].
  assert (at_ (g_revs g) (zlen (g_revs g) - 1) = Ok r) as ->; [|done].
  rewrite last_lookup in El. apply at_Ok. destruct (g_revs g); [done|]. simpl in *. split; [lia|].
  by replace (Z.to_nat _) with (length l) by lia.
Qed.

Lemma g_answer_None g at_rev : StronglySorted rev_lt (g_revs g) -> g_revs g <> [] ->
  exists first, at_ (g_revs g) 0 = Ok first
  /\ (rv_main first <= at_rev <-> g_answer g at_rev <> None).
Proof.
  intros Hs Hne. unfold g_answer. destruct (g_revs g) as [|r l] eqn:E; [done|].
  exists r. split; [done|]. destruct (sorted_split_at (r :: l) at_rev Hs) as (l2 & E2 & H2).
  split.
  - intros Hr. rewrite filter_cons_True by done. rewrite last_cons.
    by destruct (last _).
  - intros Ha. destruct (upto (r :: l) at_rev) as [|x l1] eqn:Eu; [done|].
    simpl in E2. injection E2 as -> _.
    assert (x ∈ upto (x :: l) at_rev) as Hx by (rewrite Eu; left).
    apply list_elem_of_filter in Hx. tauto.
Qed.

(** The part of [get] after [findGeneration], on the generation found. *)
Definition get_in (g : generation) (atRev : Z) : outcome (storage_error + revision * revision * Z) :=
  if g_isEmpty (Some g) then Ok (inl ErrRevisionNotFound) else
  let! '(n, _) := g_walk g (fun rev (_ : unit) => (negb (rv_main rev <=? atRev), tt)) tt in
  if negb (n =? -1) then
    let! rev := at_ (g_revs g) n in
    Ok (inr (rev, g_created g, i64 (g_ver g - i64 (zlen (g_revs g) - n - 1))))
  else Ok (inl ErrRevisionNotFound).

Lemma get_in_eq g at_rev : StronglySorted rev_lt (g_revs g) -> gen_ok g ->
  get_in g at_rev = Ok (answer_result (g_answer g at_rev)).
Proof.
  intros Hs [_ Hv]. unfold get_in, g_isEmpty. zif.
  { unfold g_answer. by destruct (g_revs g). }
  unfold g_walk. rewrite (walk_upto _ at_rev _ (fun _ _ => tt)) by (done || (intros rev []; by destruct (rv_main rev <=? at_rev))).
  unfold g_answer. destruct (last (upto (g_revs g) at_rev)) as [r|] eqn:El; [|done].
  destruct (sorted_split_at _ at_rev Hs) as (l2 & E2 & _).
  apply last_Some in El as (l1 & El).
  gosimpl. rewrite El in *. rewrite length_app. simpl length. zif; [lia|].
  assert (at_ (g_revs g) (Z.of_nat (length l1 + 1) - 1) = Ok r) as ->.
  { apply at_Ok. split; [lia|]. rewrite E2, <- (assoc_L (++)).
    replace (Z.to_nat _) with (length l1) by lia. by apply list_lookup_middle. }
  gosimpl. simpl. do 2 f_equal. f_equal.
  assert (length (g_revs g) = length l1 + 1 + length l2)%nat as EL
    by (rewrite E2, !length_app; simpl; lia).
  unfold MaxInt64 in Hv. rewrite (i64_small (_ - _ - 1)) by lia. rewrite i64_small by lia. lia.
Qed.

Lemma closed_nonempty pre g : gens_ok (pre ++ [g]) -> Forall (fun g => g_revs g <> []) pre.
Proof.
  intros Hok. eapply Forall_impl; [by eapply gens_closed|]. intros h Hh E. simpl in Hh. rewrite E in Hh. simpl in Hh. lia.
Qed.

Definition get_found (og : option generation) (atRev : Z) : outcome (storage_error + revision * revision * Z) :=
  match og with Some g => get_in g atRev | None => Ok (inl ErrRevisionNotFound) end.

Definition sorted_gen (g : generation) : Prop := StronglySorted rev_lt (g_revs g) /\ gen_ok g.

Lemma gens_ok_sorted gens : gens_ok gens -> Forall sorted_gen gens.
Proof.
  intros [Hs _ Hg]. apply Forall_forall. intros g Hin. split; [|by eapply Forall_forall in Hg].
  apply list_elem_of_split in Hin as (l1 & l2 & ->).
  rewrite gens_revs_app in Hs. apply sorted_app_inv in Hs as (_ & Hs & _).
  unfold gens_revs in Hs. simpl in Hs. by apply sorted_app_inv in Hs as (Hs & _ & _).
Qed.

(** One round of the loop on a generation that is not empty. *)
Lemma find_round g at_rev (rest : outcome (option generation)) a : sorted_gen g -> g_revs g <> [] ->
  (let! og := rest in get_found og at_rev) = Ok (answer_result a) ->
  (let! og := (let! first := at_ (g_revs g) 0 in
     if rv_main first <=? at_rev then Ok (Some g) else rest) in get_found og at_rev)
  = Ok (answer_result (match g_answer g at_rev with Some x => Some x | None => a end)).
Proof.
  intros [Hs Hg] Hne Hr. destruct (g_answer_None g at_rev Hs Hne) as (first & -> & Hf). gosimpl.
  zif.
  - simpl. rewrite get_in_eq by done. destruct (g_answer g at_rev); [done|]. tauto.
  - destruct (g_answer g at_rev); [|done]. enough (rv_main first <= at_rev) by lia. by apply Hf.
Qed.

Lemma find_loop_closed gens lastg at_rev k : Z.of_nat k <= lastg -> (k <= length gens)%nat ->
  Forall sorted_gen (take k gens) -> Forall (fun g => g_revs g <> []) (take k gens) ->
  (let! og := findGeneration_loop gens lastg at_rev k in get_found og at_rev)
  = Ok (answer_result (closed_answer (reverse (take k gens)) at_rev)).
Proof.
  induction k as [|k IH]; intros Hl Hk Hs Hn; [done|]. cbn [findGeneration_loop].
  destruct (at_in_range gens (Z.of_nat k)) as (g & -> & Hg); [lia|]. rewrite Nat2Z.id in Hg. gosimpl.
  rewrite (take_S_r _ _ _ Hg) in Hs, Hn |- *. rewrite Forall_app, Forall_singleton in Hs, Hn.
  destruct Hs as [Hs Hsg], Hn as [Hn Hng]. rewrite reverse_snoc.
  zif; [by destruct (g_revs g)|]. zif; [lia|]. rewrite g_dead_at by done. gosimpl. cbn [closed_answer].
  destruct (g_dead g at_rev); [done|]. apply find_round; [done..|]. apply IH; [lia..|done|done].
Qed.

Lemma ki_get_unfold ki at_rev :
  ki_get ki at_rev =
  let! e := ki_isEmpty ki in
  if e then Panic "store.keyindex: unexpected get on empty keyIndex" else
  let! og := ki_findGeneration ki at_rev in get_found og at_rev.
Proof. done. Qed.

Lemma ki_ok_last ki : ki_ok ki -> exists pre g,
  ki_generations ki = pre ++ [g] /\ Forall (fun g => g_revs g <> []) pre /\ Forall sorted_gen pre /\ sorted_gen g.
Proof.
  intros [Hok Hl]. destruct (ki_generations ki) as [|g0 gens _] eqn:E using rev_ind; [done|].
  pose proof (closed_nonempty _ _ Hok). apply gens_ok_sorted in Hok.
  rewrite Forall_app, Forall_singleton in Hok. destruct Hok. by exists gens, g0.
Qed.

Lemma ki_ok_not_empty ki : ki_ok ki -> ki_isEmpty ki = Ok false.
Proof.
  intros [_ Hl]. unfold ki_isEmpty. destruct (ki_generations ki) as [|g [|g' gens]]; [done| |].
  - rewrite gens_revs_one in Hl. simpl. by destruct (g_revs g).
  - zif; [simpl in *; lia|done].
Qed.

(** [get] computes the answer. *)
Lemma ki_get_eq ki at_rev : ki_ok ki -> ki_get ki at_rev = Ok (answer_result (ki_answer ki at_rev)).
Proof.
  intros Hok. rewrite ki_get_unfold, (ki_ok_not_empty _ Hok). gosimpl.
  destruct (ki_ok_last _ Hok) as (pre & g & E & Hn & Hs & Hg).
  unfold ki_findGeneration, ki_answer. rewrite E, length_app, Nat.add_1_r. cbn [length findGeneration_loop].
  rewrite reverse_snoc. unfold gens_answer.
  assert (at_ (pre ++ [g]) (zlen pre) = Ok g) as ->.
  { apply at_Ok. split; [lia|]. rewrite Nat2Z.id. by apply list_lookup_middle. }
  gosimpl.
  assert (forall l, take (length pre) (pre ++ l) = pre) as Ht by (intros; by apply take_app_length').
  assert ((let! og := findGeneration_loop (pre ++ [g]) (Z.of_nat (S (length pre)) - 1) at_rev (length pre) in
             get_found og at_rev) = Ok (answer_result (closed_answer (reverse pre) at_rev))) as Hc.
  { rewrite find_loop_closed; rewrite ?Ht; auto; [lia|rewrite length_app; lia]. }
  zif.
  - rewrite Hc. unfold g_answer. by destruct (g_revs g).
  - zif; [|lia]. gosimpl. apply find_round; [done|by destruct (g_revs g)|done].
Qed.

(** ** [put], [restore] and [tombstone] *)

(** The answer after a put at [rev] where it was [a]. *)
Definition bump (a : option (revision * revision * Z)) (rev : revision) : revision * revision * Z :=
  match a with Some (_, c, v) => (rev, c, v + 1) | None => (rev, rev, 1) end.

Definition answer_ver (a : option (revision * revision * Z)) : Z :=
  match a with Some (_, _, v) => v | None => 0 end.

Definition g_bump (g : generation) (rev : revision) : generation :=
  Generation (i64 (g_ver g + 1)) (if decide (g_revs g = []) then rev else g_created g) (g_revs g ++ [rev]).

Lemma ki_put_Ok ki pre g main sub :
  rev_lt (ki_modified ki) (Revision main sub) ->
  (if zlen (ki_generations ki) =? 0 then [generation0] else ki_generations ki) = pre ++ [g] ->
  ki_put ki main sub = Ok (KeyIndex (ki_key ki) (Revision main sub) (pre ++ [g_bump g (Revision main sub)])).
Proof.
  intros Hlt Hg. unfold ki_put. destruct (GreaterThan_spec (Revision main sub) (ki_modified ki)); [|done].
  cbn [negb]. rewrite Hg, length_app, Nat.add_1_r. cbn [length pred].
  assert (at_ (pre ++ [g]) (Z.of_nat (S (length pre)) - 1) = Ok g) as ->.
  { apply at_Ok. split; [lia|]. replace (Z.to_nat _) with (length pre) by lia. by apply list_lookup_middle. }
  gosimpl. rewrite insert_app_r_alt, Nat.sub_diag by lia. cbn [insert list_insert].
  unfold g_bump. f_equal. destruct ki; destruct g as [v c revs]; by destruct revs.
Qed.

Lemma g_answer_all g at_rev r : last (g_revs g) = Some r ->
  Forall (fun r => rv_main r <= at_rev) (g_revs g) -> g_answer g at_rev = Some (r, g_created g, g_ver g).
Proof. intros Hl Ha. unfold g_answer. rewrite upto_all, Hl by done. simpl. do 2 f_equal. lia. Qed.

Lemma g_answer_empty g at_rev : g_revs g = [] -> g_answer g at_rev = None.
Proof. intros E. unfold g_answer. by rewrite E. Qed.

Lemma g_answer_bump_new g rev at_rev : sorted_gen g -> g_ver g < MaxInt64 ->
  Forall (fun r => rev_lt r rev) (g_revs g) -> rv_main rev <= at_rev ->
  g_answer (g_bump g rev) at_rev = Some (bump (g_answer g at_rev) rev).
Proof.
  intros [Hs [He Hv]] Hm Hlt Hat.
  assert (Forall (fun r => rv_main r <= at_rev) (g_revs g)) as Ha.
  { eapply Forall_impl; [exact Hlt|]. intros r Hr%rev_lt_main. lia. }
  rewrite (g_answer_all (g_bump g rev) _ rev); [|by simpl; rewrite last_snoc|by simpl; apply Forall_app; auto].
  simpl. unfold MaxInt64 in *. rewrite i64_small by lia. f_equal.
  destruct (decide (g_revs g = [])) as [E|E].
  - by rewrite g_answer_empty, He.
  - destruct (last (g_revs g)) as [r|] eqn:El; [|by apply last_None in El].
    by rewrite (g_answer_all g _ r).
Qed.

Lemma g_answer_bump_old g rev at_rev : sorted_gen g -> g_ver g < MaxInt64 -> at_rev < rv_main rev ->
  g_answer (g_bump g rev) at_rev = g_answer g at_rev.
Proof.
  intros [Hs [He Hv]] Hm Hat. unfold g_answer. simpl.
  rewrite filter_app, (filter_cons_False _ rev) by lia. rewrite filter_nil, app_nil_r, length_app.
  unfold MaxInt64 in *. rewrite i64_small by lia.
  destruct (last (upto (g_revs g) at_rev)) as [r|] eqn:El; [|done]. simpl. f_equal.
  destruct (decide (g_revs g = [])) as [E|E]; [by rewrite E in El|]. f_equal. lia.
Qed.

Lemma closed_answer_dead gens at_rev : Forall (fun g => g_revs g <> []) gens ->
  Forall (fun g => Forall (fun r => rv_main r <= at_rev) (g_revs g)) gens -> closed_answer gens at_rev = None.
Proof.
  intros Hn Hd. destruct gens as [|g gens]; [done|]. simpl. unfold g_dead.
  apply Forall_inv in Hn. apply Forall_inv in Hd.
  destruct (last (g_revs g)) as [r|] eqn:El; [|by apply last_None in El].
  apply last_Some in El as (l & El). rewrite El, Forall_app, Forall_singleton in Hd.
  zif; [done|lia].
Qed.

(** [put] and [tombstone] on the generations [pre ++ [g]] of a good index. *)
Record putting (ki : keyIndex) (rev : revision) (pre : list generation) (g : generation) : Prop := {
  pt_gens : (if zlen (ki_generations ki) =? 0 then [generation0] else ki_generations ki) = pre ++ [g];
  pt_ok : gens_ok (pre ++ [g]);
  pt_mod : rev_lt (ki_modified ki) rev;
  pt_lt : Forall (fun r => rev_lt r rev) (gens_revs (pre ++ [g]));
  pt_ver : g_ver g < MaxInt64;
}.

Lemma put_gens_ok pre g rev : gens_ok (pre ++ [g]) -> g_ver g < MaxInt64 ->
  Forall (fun r => rev_lt r rev) (gens_revs (pre ++ [g])) -> gens_ok (pre ++ [g_bump g rev]).
Proof.
  intros [Hs Hc Hg] Hv Hlt. rewrite gens_revs_app, gens_revs_one in *.
  split.
  - rewrite gens_revs_app, gens_revs_one. simpl. rewrite (assoc_L (++)).
    apply sorted_app; [done|repeat constructor|].
    intros r1 r2 H1 ->%list_elem_of_singleton. rewrite Forall_forall in Hlt. auto.
  - intros pre' g' [-> _]%app_inj_2; [|done]. by apply (Hc _ g).
  - rewrite Forall_app, Forall_singleton in *. destruct Hg as [Hg [Hg1 Hg2]]. split; [done|].
    unfold gen_ok, MaxInt64 in *. simpl. rewrite length_app. cbn [length]. rewrite i64_small by lia.
    split; [|lia]. by intros [_ ?]%app_eq_nil.
Qed.

Lemma sorted_lt_last l r : StronglySorted rev_lt l -> last l = Some r ->
  Forall (fun x => x = r \/ rev_lt x r) l.
Proof.
  intros Hs (l' & ->)%last_Some. apply sorted_app_inv in Hs as (_ & _ & Hlt).
  apply Forall_app. split; [|by repeat constructor].
  apply Forall_forall. intros x Hx. right. apply Hlt; [done|]. by apply list_elem_of_singleton.
Qed.

Lemma forall_gens_revs (P : revision -> Prop) gens :
  Forall P (gens_revs gens) <-> Forall (fun g => Forall P (g_revs g)) gens.
Proof. unfold gens_revs. by rewrite Forall_concat, Forall_fmap. Qed.

Lemma Forall_main_le l rev at_rev : Forall (fun r => rev_lt r rev) l -> rv_main rev <= at_rev ->
  Forall (fun r => rv_main r <= at_rev) l.
Proof. intros Hl Hat. eapply Forall_impl; [exact Hl|]. intros r Hr%rev_lt_main. lia. Qed.

(** At a revision after all its changes the index answers as its last generation. *)
Lemma gens_answer_now pre g rev at_rev : gens_ok (pre ++ [g]) ->
  Forall (fun r => rev_lt r rev) (gens_revs (pre ++ [g])) -> rv_main rev <= at_rev ->
  gens_answer (reverse (pre ++ [g])) at_rev = g_answer g at_rev.
Proof.
  intros Hok Hlt Hat. rewrite reverse_snoc. cbn [gens_answer]. destruct (g_answer g at_rev); [done|].
  pose proof (closed_nonempty _ _ Hok) as Hn.
  rewrite forall_gens_revs, Forall_app in Hlt. destruct Hlt as [Hlt _].
  apply closed_answer_dead.
  - by apply Forall_reverse.
  - apply Forall_reverse. eapply Forall_impl; [exact Hlt|]. intros g' Hg'. by apply (Forall_main_le _ rev).
Qed.

Lemma putting_intro ki rev : ki_ok ki \/ ki_generations ki = [] -> rev_lt (ki_modified ki) rev ->
  answer_ver (ki_answer ki (rv_main rev)) < MaxInt64 ->
  exists pre g, putting ki rev pre g
  /\ forall at_rev, ki_answer ki at_rev = gens_answer (reverse (pre ++ [g])) at_rev.
Proof.
  intros [Hok|E] Hlt Hv.
  - destruct (ki_ok_last ki Hok) as (pre & g & E & Hn & Hs & Hg). exists pre, g.
    unfold ki_answer in *. rewrite E in *. split; [|done]. destruct Hok as [Hok Hl]. rewrite E in *.
    assert (Forall (fun r => rev_lt r rev) (gens_revs (pre ++ [g]))) as HF.
    { eapply Forall_impl; [apply (sorted_lt_last _ _ (gens_sorted _ Hok) Hl)|].
      simpl. intros x [->|Hx]; [done|by etrans]. }
    split; [|done..|].
    + rewrite E. zif; [|done]. rewrite length_app in *. simpl in *. lia.
    + rewrite (gens_answer_now _ _ rev) in Hv by done.
      rewrite gens_revs_app, Forall_app, gens_revs_one in HF. destruct HF as [_ HF].
      destruct (last (g_revs g)) as [r|] eqn:El.
      * rewrite (g_answer_all _ _ _ El) in Hv; [done|by eapply Forall_main_le; [exact HF|]].
      * apply last_None in El. destruct Hg as [_ [-> _]]; done.
  - exists [], generation0. split.
    + split; simpl; [by rewrite E| |done|by constructor|done].
      split; [by constructor|intros [|? pre] g'; [by constructor|by destruct pre]|].
      by repeat constructor.
    + intros at_rev. unfold ki_answer. by rewrite E.
Qed.

Lemma ki_put_spec ki rev : ki_ok ki \/ ki_generations ki = [] -> rev_lt (ki_modified ki) rev ->
  answer_ver (ki_answer ki (rv_main rev)) < MaxInt64 ->
  exists ki', ki_put ki (rv_main rev) (rv_sub rev) = Ok ki' /\ ki_ok ki'
  /\ ki_key ki' = ki_key ki /\ ki_modified ki' = rev
  /\ forall at_rev, ki_answer ki' at_rev =
       if rv_main rev <=? at_rev then Some (bump (ki_answer ki at_rev) rev) else ki_answer ki at_rev.
Proof.
  intros Hok Hlt Hv. destruct (putting_intro _ _ Hok Hlt Hv) as (pre & g & [E Hg Hm HF Hgv] & Ha).
  destruct rev as [main sub] eqn:Er. cbn [rv_main rv_sub]. rewrite <- Er in *.
  assert (sorted_gen g) as Hsg.
  { apply gens_ok_sorted in Hg. rewrite Forall_app, Forall_singleton in Hg. tauto. }
  eexists. split; [rewrite Er in Hm; by apply ki_put_Ok|]. rewrite <- Er.
  split; [split; simpl; [by apply put_gens_ok|]|].
  { rewrite gens_revs_app, gens_revs_one. simpl. by rewrite (assoc_L (++)), last_snoc. }
  split; [done|]. split; [done|]. intros at_rev. unfold ki_answer at 1. simpl.
  rewrite Ha, reverse_snoc. cbn [gens_answer].
  assert (Forall (fun r => rev_lt r rev) (g_revs g)) as HFg.
  { rewrite gens_revs_app, gens_revs_one, Forall_app in HF. tauto. }
  replace main with (rv_main rev) by (by subst). zif.
  - rewrite g_answer_bump_new by done. by rewrite (gens_answer_now _ _ rev).
  - rewrite g_answer_bump_old by (done || lia). by rewrite reverse_snoc.
Qed.

(** The last generation is empty exactly when the key is deleted now. *)
Lemma ki_deleted ki pre g rev : ki_ok ki -> ki_generations ki = pre ++ [g] ->
  rev_lt (ki_modified ki) rev -> (g_revs g = [] <-> ki_answer ki (rv_main rev) = None).
Proof.
  intros [Hok Hl] E Hlt. unfold ki_answer. rewrite E in *.
  assert (Forall (fun r => rev_lt r rev) (gens_revs (pre ++ [g]))) as HF.
  { eapply Forall_impl; [apply (sorted_lt_last _ _ (gens_sorted _ Hok) Hl)|].
    simpl. intros x [->|Hx]; [done|by etrans]. }
  rewrite (gens_answer_now _ _ rev) by done. split; [apply g_answer_empty|].
  rewrite gens_revs_app, Forall_app, gens_revs_one in HF.
  destruct (last (g_revs g)) as [r|] eqn:El; [|by apply last_None in El].
  rewrite (g_answer_all _ _ _ El); [done|]. destruct HF. by apply (Forall_main_le _ rev).
Qed.

(** After its last change the answers of an index stay the same. *)
Lemma ki_answer_stable ki rev at_rev : ki_ok ki -> rev_lt (ki_modified ki) rev -> rv_main rev <= at_rev ->
  ki_answer ki at_rev = ki_answer ki (rv_main rev).
Proof.
  intros Hok Hlt Hat. destruct (ki_ok_last ki Hok) as (pre & g & E & _). destruct Hok as [Hok Hl].
  unfold ki_answer. rewrite E in *.
  assert (Forall (fun r => rev_lt r rev) (gens_revs (pre ++ [g]))) as HF.
  { eapply Forall_impl; [apply (sorted_lt_last _ _ (gens_sorted _ Hok) Hl)|].
    simpl. intros x [->|Hx]; [done|by etrans]. }
  rewrite !(gens_answer_now _ _ rev) by done.
  rewrite gens_revs_app, Forall_app, gens_revs_one in HF. destruct HF as [_ HF].
  destruct (last (g_revs g)) as [r|] eqn:El; [|by apply last_None in El; rewrite !g_answer_empty].
  rewrite !(g_answer_all _ _ _ El); [done|by apply (Forall_main_le _ rev)..].
Qed.

Lemma g_dead_bump g rev at_rev : g_dead (g_bump g rev) at_rev = (rv_main rev <=? at_rev).
Proof. unfold g_dead. simpl. by rewrite last_snoc. Qed.

Lemma ki_tombstone_spec ki rev : ki_ok ki -> rev_lt (ki_modified ki) rev ->
  answer_ver (ki_answer ki (rv_main rev)) < MaxInt64 ->
  if decide (ki_answer ki (rv_main rev) = None)
  then ki_tombstone ki (rv_main rev) (rv_sub rev) = Ok (ki, Some ErrRevisionNotFound)
  else exists ki', ki_tombstone ki (rv_main rev) (rv_sub rev) = Ok (ki', None) /\ ki_ok ki'
    /\ ki_key ki' = ki_key ki /\ ki_modified ki' = rev
    /\ forall at_rev, ki_answer ki' at_rev = if rv_main rev <=? at_rev then None else ki_answer ki at_rev.
Proof.
  intros Hok Hlt Hv. unfold ki_tombstone. rewrite ki_ok_not_empty by done. gosimpl.
  destruct (ki_ok_last ki Hok) as (pre & g & E & Hn & Hs & Hg).
  pose proof (ki_deleted _ _ _ _ Hok E Hlt) as Hdel.
  assert (at_ (ki_generations ki) (zlen (ki_generations ki) - 1) = Ok g) as ->.
  { apply at_Ok. rewrite E, length_app. simpl length. split; [lia|].
    replace (Z.to_nat _) with (length pre) by lia. by apply list_lookup_middle. }
  gosimpl. unfold g_isEmpty. destruct (decide _) as [Hd|Hd].
  { apply Hdel in Hd. by rewrite Hd. }
  zif; [destruct Hd, (g_revs g); [by apply Hdel|done]|].
  destruct (putting_intro ki rev (or_introl Hok) Hlt Hv) as (pre' & g' & [E' Hg' Hm HF Hgv] & Ha).
  assert ((if zlen (ki_generations ki) =? 0 then [generation0] else ki_generations ki) = ki_generations ki) as En.
  { rewrite E, length_app. simpl length. zif; [lia|done]. }
  rewrite En, E in E'. apply app_inj_2 in E' as [<- [= <-]]; [|done]. destruct rev as [main sub] eqn:Er.
  cbn [rv_main rv_sub]. rewrite (ki_put_Ok ki pre g) by (congruence || done). gosimpl. rewrite <- Er in *.
  eexists. split; [reflexivity|]. pose proof (put_gens_ok _ _ _ Hg' Hgv HF) as [Hs' Hc' Hgen'].
  assert (gens_revs ((pre ++ [g_bump g rev]) ++ [generation0]) = gens_revs (pre ++ [g_bump g rev])) as Er'.
  { by rewrite (gens_revs_app (pre ++ _)), gens_revs_one, app_nil_r. }
  split; [split; simpl; [split|]|].
  - by rewrite Er'.
  - intros pre2 g2 [<- _]%app_inj_2; [|done]. rewrite Forall_app, Forall_singleton. split; [by eapply gens_closed|].
    simpl. rewrite length_app. simpl. lia.
  - rewrite Forall_app, Forall_singleton. split; [done|]. by repeat constructor.
  - rewrite Er', gens_revs_app, gens_revs_one. simpl. by rewrite (assoc_L (++)), last_snoc.
  - split; [done|]. split; [done|]. intros at_rev. unfold ki_answer at 1. simpl.
    rewrite !reverse_snoc. cbn [gens_answer closed_answer]. rewrite g_answer_empty by done.
    rewrite g_dead_bump. replace main with (rv_main rev) by (by subst). zif; [done|].
    rewrite g_answer_bump_old by (done || lia). by rewrite Ha, reverse_snoc.
Qed.

Lemma ki_restore_spec ki created modified ver : ki_generations ki = [] -> 1 <= ver <= MaxInt64 ->
  exists ki', ki_restore ki created modified ver = Ok ki' /\ ki_ok ki'
  /\ ki_key ki' = ki_key ki /\ ki_modified ki' = modified
  /\ forall at_rev, ki_answer ki' at_rev =
       if rv_main modified <=? at_rev then Some (modified, created, ver) else None.
Proof.
  intros E Hv. unfold ki_restore. rewrite E. cbn [length negb Z.of_nat Z.eqb app].
  eexists. split; [reflexivity|]. simpl. split; [split; simpl; [split|]|].
  - by repeat constructor.
  - intros [|? pre] g'; [by constructor|by destruct pre].
  - repeat constructor; simpl; [done|lia..].
  - done.
  - split; [done|]. split; [done|]. intros at_rev.
    change (ki_answer _ at_rev) with
      (match g_answer (Generation ver created [modified]) at_rev with Some x => Some x | None => None end).
    unfold g_answer. cbn [g_revs g_created g_ver]. rewrite filter_cons, filter_nil.
    zif; [rewrite decide_True by done|by rewrite decide_False by lia].
    simpl. do 2 f_equal. lia.
Qed.

(** ** Answers at earlier revisions *)

Lemma upto_mono (l : list revision) c at_rev : c <= at_rev -> upto (upto l at_rev) c = upto l c.
Proof.
  intros Hc. rewrite list_filter_filter. apply list_filter_iff. intros r. lia.
Qed.

Lemma g_answer_None_mono g c at_rev : c <= at_rev -> g_answer g at_rev = None -> g_answer g c = None.
Proof.
  intros Hc. unfold g_answer. destruct (last (upto (g_revs g) at_rev)) eqn:E; [done|].
  apply last_None in E. rewrite <- (upto_mono _ c at_rev) by done. by rewrite E.
Qed.

(** Where the newest change at [at_rev] is not after [c], it is the newest at [c]. *)
Lemma g_answer_back g c at_rev r cr v : StronglySorted rev_lt (g_revs g) -> c <= at_rev -> rv_main r <= c ->
  g_answer g at_rev = Some (r, cr, v) -> g_answer g c = Some (r, cr, v).
Proof.
  intros Hs Hc Hr. unfold g_answer. destruct (last (upto (g_revs g) at_rev)) as [r'|] eqn:E; [|done].
  simpl. intros [= -> <- <-].
  assert (upto (g_revs g) c = upto (g_revs g) at_rev) as ->; [|by rewrite E].
  rewrite <- (upto_mono _ c at_rev) by done. apply upto_all.
  destruct (sorted_split_at _ at_rev Hs) as (l2 & E2 & _). rewrite E2 in Hs. apply sorted_app_inv in Hs as (Hs & _).
  apply Forall_forall. intros x Hx. pose proof (sorted_last _ _ Hs E x Hx). lia.
Qed.

Lemma closed_answer_back gens c at_rev r cr v : Forall sorted_gen gens -> c <= at_rev -> rv_main r <= c ->
  closed_answer gens at_rev = Some (r, cr, v) -> closed_answer gens c = Some (r, cr, v).
Proof.
  intros Hs Hc Hr. induction Hs as [|g gens [Hg _] Hs IH]; simpl; [done|].
  destruct (g_dead g at_rev) eqn:Ed; [done|].
  assert (g_dead g c = false) as ->.
  { unfold g_dead in *. destruct (last (g_revs g)); [|done]. zcase in Ed; [done|]. zcase; [lia|done]. }
  destruct (g_answer g at_rev) as [x|] eqn:Eg.
  - intros [= ->]. by rewrite (g_answer_back g c at_rev r cr v).
  - intros Hx. rewrite (g_answer_None_mono g c at_rev) by done. auto.
Qed.

Lemma ki_answer_back ki c at_rev r cr v : ki_ok ki -> c <= at_rev -> rv_main r <= c ->
  ki_answer ki at_rev = Some (r, cr, v) -> ki_answer ki c = Some (r, cr, v).
Proof.
  intros [Hok _] Hc Hr. unfold ki_answer. apply gens_ok_sorted in Hok. apply Forall_reverse in Hok.
  destruct (reverse (ki_generations ki)) as [|g gens]; simpl; [done|].
  apply Forall_cons in Hok as [[Hg _] Hok]. destruct (g_answer g at_rev) as [x|] eqn:Eg.
  - intros [= ->]. by rewrite (g_answer_back g c at_rev r cr v).
  - intros Hx. rewrite (g_answer_None_mono g c at_rev) by done. by apply (closed_answer_back gens c at_rev).
Qed.

(** ** [compact] *)

(** The generations before the result ended by [c]; the result did not. *)
Lemma compact_loop_eq gens c n i :
  (i + n <= length gens)%nat -> Forall (fun g => g_revs g <> []) (take (i + n) gens) ->
  Forall (fun g => g_dead g c = true) (take i gens) ->
  exists i', compact_loop gens c i n = Ok i' /\ (i <= i' <= i + n)%nat
  /\ Forall (fun g => g_dead g c = true) (take i' gens)
  /\ ((i' < i + n)%nat -> forall g, gens !! i' = Some g -> g_dead g c = false).
Proof.
  revert i. induction n as [|n IH]; intros i Hl Hn Hd; cbn [compact_loop].
  { exists i. split; [done|]. split; [lia|]. split; [done|lia]. }
  destruct (at_in_range gens (Z.of_nat i)) as (g & -> & Hg); [lia|]. rewrite Nat2Z.id in Hg. gosimpl.
  assert (g_revs g <> []) as Hne.
  { rewrite Forall_lookup in Hn. apply (Hn i). rewrite lookup_take_lt by lia. done. }
  pose proof (g_dead_at g c Hne) as Hat.
  destruct (at_ (g_revs g) (zlen (g_revs g) - 1)) as [tomb|]; [|done]. gosimpl in Hat. gosimpl.
  injection Hat as Hat. rewrite Z.gtb_ltb, Z.ltb_antisym, Hat. destruct (g_dead g c) eqn:Edg; simpl.
  - rewrite Nat.add_succ_r, <- Nat.add_succ_l in *. destruct (IH (S i)) as (i' & -> & Hi & Hd' & Hlt).
    + lia.
    + done.
    + rewrite (take_S_r _ _ _ Hg). by apply Forall_app_2; [|constructor].
    + exists i'. split; [done|]. split; [lia|]. done.
  - exists i. split; [done|]. split; [lia|]. split; [done|]. intros _ g' Hg'. by simplify_eq.
Qed.

(** A generation after compaction. *)
Definition g_trim (g : generation) (c : Z) : generation :=
  g <| g_revs := drop (pred (length (upto (g_revs g) c))) (g_revs g) |>.

Lemma drop_pred_split l c : StronglySorted rev_lt l ->
  exists l1 l2, l = l1 ++ drop (pred (length (upto l c))) l
  /\ Forall (fun r => rv_main r <= c) l1
  /\ drop (pred (length (upto l c))) l
     = match last (upto l c) with Some r => [r] | None => [] end ++ l2
  /\ Forall (fun r => c < rv_main r) l2.
Proof.
  intros Hs. destruct (sorted_split_at l c Hs) as (l2 & E & H2).
  assert (Forall (fun r => rv_main r <= c) (upto l c)) as H1.
  { apply Forall_forall. intros x. rewrite list_elem_of_filter. tauto. }
  destruct (upto l c) as [|x u _] eqn:Eu using rev_ind.
  - exists [], l2. simpl in *. by rewrite E.
  - rewrite last_snoc, length_app, Nat.add_1_r. cbn [length pred]. exists u, l2.
    rewrite Forall_app in H1.
    assert (drop (length u) l = [x] ++ l2) as Ed.
    { by rewrite E, <- (assoc_L (++)), drop_app_length. }
    rewrite Ed. split; [by rewrite E at 1; rewrite (assoc_L (++))|]. tauto.
Qed.

Lemma upto_prefix l1 l2 c at_rev : Forall (fun r => rv_main r <= c) l1 -> c <= at_rev ->
  upto (l1 ++ l2) at_rev = l1 ++ upto l2 at_rev.
Proof.
  intros H1 Hc. rewrite filter_app, (upto_all l1); [done|].
  eapply Forall_impl; [exact H1|]. simpl. lia.
Qed.

(** Compaction at [c] does not change the answers from [c] on. *)
Lemma g_answer_trim g c at_rev : StronglySorted rev_lt (g_revs g) -> c <= at_rev ->
  g_answer (g_trim g c) at_rev = g_answer g at_rev.
Proof.
  intros Hs Hc. destruct (drop_pred_split _ c Hs) as (l1 & l2 & E & H1 & Ed & H2).
  unfold g_answer, g_trim. cbn [g_revs g_ver g_created upd].
  set (d := drop _ _) in *. assert (upto (g_revs g) at_rev = l1 ++ upto d at_rev) as Eu.
  { rewrite E at 1. by apply (upto_prefix _ _ c). }
  assert (length (g_revs g) = (length l1 + length d)%nat) as EL by (rewrite E at 1; apply length_app).
  rewrite Eu, length_app, EL, last_app.
  destruct (last (upto d at_rev)) as [r|] eqn:El; simpl; [do 2 f_equal; lia|].
  destruct (last (upto (g_revs g) c)) as [r|] eqn:Er.
  - assert (r ∈ upto d at_rev) as Hr; [|apply last_None in El; rewrite El in Hr; by apply not_elem_of_nil in Hr].
    apply list_elem_of_filter. split; [|rewrite Ed; left].
    apply last_Some in Er as (u & Er). assert (r ∈ upto (g_revs g) c) as Hr by (rewrite Er; set_solver).
    apply list_elem_of_filter in Hr. lia.
  - apply last_None in Er.
    destruct l1 as [|x l1]; [done|]. apply Forall_inv in H1. exfalso.
    assert (x ∈ upto (g_revs g) c) as Hx; [|rewrite Er in Hx; by apply not_elem_of_nil in Hx].
    apply list_elem_of_filter. split; [done|]. rewrite E. left.
Qed.

Lemma g_dead_mono g c at_rev : c <= at_rev -> g_dead g c = true -> g_dead g at_rev = true.
Proof. unfold g_dead. intros Hc. destruct (last (g_revs g)); [|done]. repeat zcase; try done; lia. Qed.

Lemma closed_answer_ended gens c at_rev : c <= at_rev -> Forall (fun g => g_dead g c = true) gens ->
  closed_answer gens at_rev = None.
Proof.
  intros Hc Hd. destruct gens as [|g gens]; [done|]. apply Forall_inv in Hd. simpl.
  by rewrite (g_dead_mono g c).
Qed.

Lemma g_trim_last g c : StronglySorted rev_lt (g_revs g) -> last (g_revs (g_trim g c)) = last (g_revs g).
Proof.
  intros Hs. destruct (drop_pred_split _ c Hs) as (l1 & l2 & E & H1 & Ed & H2).
  unfold g_trim. cbn [g_revs upd]. set (d := drop _ _) in *. rewrite E at 1. rewrite last_app.
  destruct (last d) eqn:El; [done|]. apply last_None in El. rewrite El in *.
  destruct (last (upto (g_revs g) c)) eqn:Eu; [done|]. apply last_None in Eu.
  destruct l1 as [|x l1]; [done|]. apply Forall_inv in H1.
  assert (x ∈ upto (g_revs g) c) as Hx; [|rewrite Eu in Hx; by apply not_elem_of_nil in Hx].
  apply list_elem_of_filter. split; [done|]. rewrite E. left.
Qed.

Lemma g_dead_trim g c at_rev : StronglySorted rev_lt (g_revs g) -> g_dead (g_trim g c) at_rev = g_dead g at_rev.
Proof. intros Hs. unfold g_dead. by rewrite g_trim_last. Qed.

Lemma closed_answer_trim newer g older c at_rev : StronglySorted rev_lt (g_revs g) -> c <= at_rev ->
  Forall (fun g => g_dead g c = true) older ->
  closed_answer (newer ++ [g_trim g c]) at_rev = closed_answer (newer ++ g :: older) at_rev.
Proof.
  intros Hs Hc Hd. induction newer as [|h newer IH]; simpl.
  - rewrite g_dead_trim, g_answer_trim by done. by rewrite (closed_answer_ended older c).
  - destruct (g_dead h at_rev); [done|]. by rewrite IH.
Qed.

(** Dropping ended generations and trimming the next one keeps the answers
    from [c] on. *)
Lemma gens_answer_trim older g newer c at_rev : StronglySorted rev_lt (g_revs g) -> c <= at_rev ->
  Forall (fun g => g_dead g c = true) older ->
  gens_answer (reverse (g_trim g c :: newer)) at_rev = gens_answer (reverse (older ++ g :: newer)) at_rev.
Proof.
  intros Hs Hc Hd. apply Forall_reverse in Hd.
  rewrite reverse_cons, reverse_app, reverse_cons, <- (assoc_L (++)). simpl.
  destruct (reverse newer) as [|h l]; simpl.
  - rewrite g_answer_trim by done. by rewrite (closed_answer_ended (reverse older) c).
  - by rewrite (closed_answer_trim l g (reverse older)).
Qed.

Lemma closed_answer_later newer rest c : Forall (fun g => Forall (fun r => c < rv_main r) (g_revs g)) newer ->
  closed_answer (newer ++ rest) c = closed_answer rest c.
Proof.
  induction 1 as [|g newer Hg Hn IH]; [done|]. simpl. unfold g_dead, g_answer. rewrite upto_none by done. simpl.
  destruct (last (g_revs g)) as [r|] eqn:El; [|done].
  apply last_Some in El as (l & El). rewrite El, Forall_app, Forall_singleton in Hg. zif; [lia|done].
Qed.

(** The answer at [c] is that of the first generation that did not end by [c]. *)
Lemma gens_answer_here older g newer c : gens_ok (older ++ g :: newer) ->
  Forall (fun g => g_dead g c = true) older -> newer = [] \/ g_dead g c = false ->
  gens_answer (reverse (older ++ g :: newer)) c = g_answer g c.
Proof.
  intros Hok Hd Hg. apply Forall_reverse in Hd. rewrite reverse_app, reverse_cons, <- (assoc_L (++)). simpl.
  destruct (decide (newer = [])) as [->|Hne].
  { simpl. destruct (g_answer g c); [done|]. by apply (closed_answer_ended _ c). }
  destruct Hg as [?|Hg]; [done|].
  assert (Forall (fun g => Forall (fun r => c < rv_main r) (g_revs g)) newer) as Hlater.
  { apply forall_gens_revs, Forall_forall. intros r Hr.
    pose proof (gens_sorted _ Hok) as Hs. change (g :: newer) with ([g] ++ newer) in Hs.
    rewrite !gens_revs_app, gens_revs_one in Hs. apply sorted_app_inv in Hs as (_ & Hs & _).
    apply sorted_app_inv in Hs as (_ & _ & Hlt). unfold g_dead in Hg.
    destruct newer as [|h nw _] using rev_ind; [done|].
    pose proof (closed_nonempty (older ++ g :: nw) h) as Hn. rewrite <- (assoc_L (++)) in Hn.
    specialize (Hn Hok). rewrite Forall_app, Forall_cons in Hn. destruct Hn as (_ & Hn & _).
    destruct (last (g_revs g)) as [t|] eqn:El; [|by apply last_None in El].
    apply last_Some in El as (l & El). assert (t ∈ g_revs g) as Ht by (rewrite El; set_solver).
    specialize (Hlt t r Ht Hr). apply rev_lt_main in Hlt. zcase in Hg; [done|lia]. }
  apply Forall_reverse in Hlater. destruct (reverse newer) as [|h l] eqn:Er.
  { apply (f_equal reverse) in Er. rewrite reverse_involutive in Er. done. }
  simpl. apply Forall_cons in Hlater as [Hh Hl]. unfold g_answer at 1. rewrite upto_none by done. simpl.
  rewrite closed_answer_later by done. simpl. rewrite Hg.
  destruct (g_answer g c); [done|]. by apply (closed_answer_ended _ c).
Qed.

(** What [compact] keeps of the generation that includes [c]. *)
Definition kept (a : option (revision * revision * Z)) (available : gset revision) : gset revision :=
  match a with Some (r, _, _) => {[r]} ∪ available | None => available end.

Lemma walk_compact g c av : StronglySorted rev_lt (g_revs g) ->
  exists n, g_walk g (fun rev (av : gset revision) =>
     if rv_main rev <=? c then (false, {[rev]} ∪ av) else (true, av)) av = Ok (n, kept (g_answer g c) av)
  /\ (if negb (n =? -1) then slice_from (g_revs g) n else Ok (g_revs g)) = Ok (g_revs (g_trim g c)).
Proof.
  intros Hs. unfold g_walk. rewrite (walk_upto _ c _ (fun r av => {[r]} ∪ av)) by done.
  unfold g_answer, g_trim. cbn [g_revs upd].
  destruct (last (upto (g_revs g) c)) as [r|] eqn:El; eexists; (split; [reflexivity|]); simpl.
  - apply last_Some in El as (u & El). rewrite El, length_app. simpl length.
    zif; [lia|]. destruct (sorted_split_at _ c Hs) as (l2 & E & _). rewrite El in E.
    rewrite slice_from_Ok by (rewrite E, !length_app; simpl; lia).
    do 2 f_equal. lia.
  - apply last_None in El. by rewrite El.
Qed.

(** The branch of [compact] that removes a generation left with its tombstone
    only is never taken: such a generation has been skipped by the loop. *)
Lemma trim_two g c : StronglySorted rev_lt (g_revs g) -> (2 <= length (g_revs g))%nat ->
  g_dead g c = false -> (2 <= length (g_revs (g_trim g c)))%nat.
Proof.
  intros Hs H2 Hd. destruct (drop_pred_split _ c Hs) as (l1 & l2 & E & H1 & Ed & Hl2).
  unfold g_trim. cbn [g_revs upd]. rewrite Ed.
  destruct (last (upto (g_revs g) c)) as [r|] eqn:Er.
  - destruct l2 as [|x l2]; [|simpl; lia]. exfalso. unfold g_dead in Hd.
    rewrite E, Ed, app_nil_r, last_snoc in Hd. zcase in Hd; [done|].
    apply last_Some in Er as (u & Er). assert (r ∈ upto (g_revs g) c) as Hr by (rewrite Er; set_solver).
    apply list_elem_of_filter in Hr. lia.
  - apply last_None in Er. rewrite Er in Ed. simpl in Ed. rewrite drop_0 in Ed. rewrite Ed in H2. done.
Qed.

Lemma gens_ok_suffix older g newer c : gens_ok (older ++ g :: newer) -> newer = [] \/ g_dead g c = false ->
  gens_ok (g_trim g c :: newer).
Proof.
  intros Hok Hg. pose proof (gens_ok_sorted _ Hok) as Hsg. rewrite Forall_app, Forall_cons in Hsg.
  destruct Hsg as (_ & [Hgs Hgo] & _). destruct Hok as [Hs Hc Hgen].
  destruct (drop_pred_split _ c Hgs) as (l1 & l2 & E & H1 & Ed & H2).
  rewrite gens_revs_app in Hs. apply sorted_app_inv in Hs as (_ & Hs & _). split.
  - change (gens_revs (g :: newer)) with (g_revs g ++ gens_revs newer) in Hs.
    change (gens_revs (g_trim g c :: newer)) with (g_revs (g_trim g c) ++ gens_revs newer).
    rewrite E, <- (assoc_L (++)) in Hs. by apply sorted_app_inv in Hs as (_ & Hs & _).
  - intros [|h pre] g' Eg; simpl in Eg; simplify_eq; [by constructor|].
    specialize (Hc (older ++ g :: pre) g'). rewrite <- (assoc_L (++)) in Hc. specialize (Hc eq_refl).
    rewrite Forall_app, Forall_cons in Hc. destruct Hc as (_ & Hc1 & Hc2). constructor; [|done].
    destruct Hg as [?%app_nil|Hg]; [naive_solver|]. by apply trim_two.
  - rewrite Forall_app, Forall_cons in Hgen. destruct Hgen as (_ & _ & Hgen). constructor; [|done].
    destruct Hgo as [Hg1 Hg2]. unfold gen_ok, g_trim. cbn [g_revs g_ver upd]. rewrite length_drop. split; [|lia].
    intros Hd. apply Hg1. destruct (last (upto (g_revs g) c)) eqn:El; [by rewrite Ed in Hd|].
    apply last_None in El. by rewrite El in Hd.
Qed.

(** The end of [compact], with [i] the index of the generation [g]. *)
Definition compact_end (ki : keyIndex) (c : Z) (g : generation) (i : nat) (available : gset revision)
  : outcome (keyIndex * gset revision) :=
  let f := fun rev (av : gset revision) =>
    if rv_main rev <=? c then (false, {[rev]} ∪ av) else (true, av) in
  let gens := ki_generations ki in
  let! '(gens, i, available) :=
    (if negb (g_isEmpty (Some g)) then
       let! '(n, av) := g_walk g f available in
       let! revs := (if negb (n =? -1) then slice_from (g_revs g) n else Ok (g_revs g)) in
       let gens := <[i := g <| g_revs := revs |>]> gens in
       if (zlen revs =? 1) && negb (Z.of_nat i =? zlen gens - 1) then
         let! r := at_ revs 0 in Ok (gens, S i, av ∖ {[r]})
       else Ok (gens, i, av)
     else Ok (gens, i, available)) in
  let! gens := slice_from gens (Z.of_nat i) in
  Ok (ki <| ki_generations := gens |>, available).

Lemma compact_end_eq ki c older g newer av : ki_generations ki = older ++ g :: newer ->
  gens_ok (older ++ g :: newer) -> newer = [] \/ g_dead g c = false ->
  compact_end ki c g (length older) av
  = Ok (KeyIndex (ki_key ki) (ki_modified ki) (g_trim g c :: newer), kept (g_answer g c) av).
Proof.
  intros E Hok Hg. pose proof (gens_ok_sorted _ Hok) as Hsg. rewrite Forall_app, Forall_cons in Hsg.
  destruct Hsg as (_ & [Hgs Hgo] & _).
  assert (forall h, slice_from (older ++ h :: newer) (zlen older) = Ok (h :: newer)) as Hsl.
  { intros h. rewrite slice_from_Ok by (rewrite length_app; lia). by rewrite Nat2Z.id, drop_app_length. }
  unfold compact_end. cbn [g_isEmpty]. zif.
  - destruct (g_revs g) as [|? ?] eqn:Er; [|done]. gosimpl. rewrite E, Hsl. gosimpl.
    rewrite g_answer_empty by done. destruct ki, g as [v cr revs]. simpl in Er. subst revs. done.
  - destruct (walk_compact g c av Hgs) as (m & -> & Hm). gosimpl. rewrite Hm. gosimpl.
    rewrite E, insert_app_r_alt, Nat.sub_diag, !length_app by lia. cbn [insert list_insert length].
    match goal with |- context [if ?b then _ else _] => assert (b = false) as -> end.
    + destruct newer as [|h nw _] using rev_ind.
      { apply andb_false_intro2. simpl. zcase; [done|lia]. }
      destruct Hg as [[_ ?]%app_eq_nil|Hg]; [done|]. apply andb_false_intro1.
      pose proof (gens_closed _ Hok (older ++ g :: nw) h) as Hc. rewrite <- (assoc_L (++)) in Hc.
      specialize (Hc eq_refl). rewrite Forall_app, Forall_cons in Hc. destruct Hc as (_ & Hc & _).
      pose proof (trim_two _ _ Hgs Hc Hg). zcase; [lia|done].
    + gosimpl. rewrite Hsl. gosimpl. by destruct ki, g.
Qed.

(** Compaction at [c] keeps the answers from [c] on, and adds to [available]
    the revision that is visible at [c].  An index without revisions is left
    empty, for the tree to remove. *)
Lemma ki_compact_spec ki c av : ki_ok ki ->
  exists ki', ki_compact ki c av = Ok (ki', kept (ki_answer ki c) av)
  /\ ki_key ki' = ki_key ki /\ ki_modified ki' = ki_modified ki
  /\ (forall at_rev, c <= at_rev -> ki_answer ki' at_rev = ki_answer ki at_rev)
  /\ (ki_ok ki' \/ ki_isEmpty ki' = Ok true /\ forall at_rev, ki_answer ki' at_rev = None).
Proof.
  intros Hok. unfold ki_compact. rewrite ki_ok_not_empty by done. gosimpl.
  destruct (ki_ok_last ki Hok) as (pre & gl & E & Hn & _). destruct Hok as [Hok Hlast].
  destruct (at_in_range (ki_generations ki) 0) as (g0 & -> & _); [rewrite E, length_app; simpl; lia|]. gosimpl.
  assert (pred (length (ki_generations ki)) = length pre) as -> by (rewrite E, length_app; simpl; lia).
  destruct (compact_loop_eq (ki_generations ki) c (length pre) 0) as (i & -> & Hi & Hd & Hlt).
  { rewrite E, length_app. simpl. lia. }
  { by rewrite E; simpl; rewrite take_app_length. }
  { constructor. }
  gosimpl. destruct (at_in_range (ki_generations ki) (Z.of_nat i)) as (g & -> & Hg);
    [rewrite E, length_app; simpl; lia|]. rewrite Nat2Z.id in Hg. gosimpl.
  pose proof (take_drop_middle _ _ _ Hg) as Es.
  set (older := take i (ki_generations ki)) in *. set (newer := drop (S i) (ki_generations ki)) in *.
  assert (length older = i) as Lo by (unfold older; rewrite length_take, E, length_app; simpl; lia).
  assert (newer = [] \/ g_dead g c = false) as Hnew.
  { destruct (decide (i < length pre)%nat); [right; apply Hlt; [lia|done]|left].
    unfold newer. apply drop_ge. rewrite E, length_app. simpl. lia. }
  rewrite <- Es in Hok, E. pose proof (gens_ok_sorted _ Hok) as Hsg. rewrite Forall_app, Forall_cons in Hsg.
  destruct Hsg as (_ & [Hgs Hgo] & _).
  assert (ki_answer ki c = g_answer g c) as Ea.
  { unfold ki_answer. rewrite <- Es. by apply gens_answer_here. }
  exists (KeyIndex (ki_key ki) (ki_modified ki) (g_trim g c :: newer)). split.
  - rewrite Ea. rewrite <- (compact_end_eq ki c older) by done. by rewrite Lo.
  - split; [done|]. split; [done|]. split.
    + intros at_rev Hat. unfold ki_answer. simpl. rewrite <- Es. by apply gens_answer_trim.
    + pose proof (gens_ok_suffix _ _ _ _ Hok Hnew) as Hok'.
      destruct (last (gens_revs (g_trim g c :: newer))) as [r|] eqn:El.
      * left. split; [done|]. simpl. rewrite El, <- Hlast, <- Es.
        destruct (drop_pred_split _ c Hgs) as (l1 & l2 & Eg & _).
        change (g :: newer) with ([g] ++ newer). rewrite !gens_revs_app, gens_revs_one, Eg.
        change (gens_revs (g_trim g c :: newer)) with (g_revs (g_trim g c) ++ gens_revs newer) in El.
        unfold g_trim in El. cbn [g_revs upd] in El.
        by rewrite <- (assoc_L (++)), !(last_app _ (_ ++ _)), El.
      * right. apply last_None in El.
        change (gens_revs (g_trim g c :: newer)) with (g_revs (g_trim g c) ++ gens_revs newer) in El.
        apply app_eq_nil in El as [El _].
        destruct newer as [|h nw _] using rev_ind.
        -- split; [change (ki_isEmpty _) with (Ok (zlen (g_revs (g_trim g c)) =? 0)); by rewrite El|].
           intros at_rev. unfold ki_answer. simpl. by rewrite g_answer_empty.
        -- pose proof (gens_closed _ Hok' (g_trim g c :: nw) h eq_refl) as Hc.
           apply Forall_inv in Hc. rewrite El in Hc. simpl in Hc. lia.
Qed.
