(* ===== verification/TreeIndex.v ===== *)
(** The key index of the store: storage/index.go.

    [treeIndex] is a B-tree of key indexes in the order of their keys; the tree
    itself is an ordered map (OrderedMap).  Methods carry the prefix [ti_].
    [ti_view] is what the index knows about a key at a main revision.
    [index_history] shows that, from the empty index, any sequence of puts,
    tombstones and compactions leaves an index that answers every revision not
    compacted as the sequence of changes itself does. *)

From S2P Require Import Prelude RaftPB Proto OrderedMap Revision KeyIndex.

Section index.
  Context {M : Type -> Type} {om : OMap M}.

  (** The tree maps [ki_key ki] to [ki]. *)
Definition treeIndex : Type := M keyIndex.

  Implicit Types (ti : treeIndex) (key : list Z) (rev : revision).

Definition newTreeIndex : treeIndex := om_empty.

Definition ti_Put ti key rev : outcome treeIndex :=
  match om_get key ti with
  | None =>
      let! keyi := ki_put (new_keyIndex key) (rv_main rev) (rv_sub rev) in
      Ok (om_put (ki_key keyi) keyi ti)
  | Some okeyi =>
      let! okeyi := ki_put okeyi (rv_main rev) (rv_sub rev) in
      Ok (om_put key okeyi ti)
  end.

Definition ti_Restore ti key (created modified : revision) (ver : Z) : outcome treeIndex :=
  match om_get key ti with
  | None =>
      let! keyi := ki_restore (new_keyIndex key) created modified ver in
      Ok (om_put (ki_key keyi) keyi ti)
  | Some okeyi =>
      let! okeyi := ki_put okeyi (rv_main modified) (rv_sub modified) in
      Ok (om_put key okeyi ti)
  end.

Definition ti_Get ti key (atRev : Z) : outcome (storage_error + revision * revision * Z) :=
  match om_get key ti with
  | None => Ok (inl ErrRevisionNotFound)
  | Some keyi => ki_get keyi atRev
  end.

(** The callback of [Range]: it stops at [end] unless [end] is empty. *)
Fixpoint range_loop (items : list (list Z * keyIndex)) (endk : list Z) (atRev : Z)
    (keys : list (list Z)) (revs : list revision) : outcome (list (list Z) * list revision) :=
  match items with
  | [] => Ok (keys, revs)
  | (_, curKeyi) :: items' =>
      if (zlen endk >? 0) && negb (bytes_ltb (ki_key curKeyi) endk) then Ok (keys, revs) else
      let! r := ki_get curKeyi atRev in
      match r with
      | inl _ => range_loop items' endk atRev keys revs
      | inr (rev, _, _) => range_loop items' endk atRev (keys ++ [ki_key curKeyi]) (revs ++ [rev])
      end
  end.

Definition ti_Range ti key (endk : option (list Z)) (atRev : Z) : outcome (list (list Z) * list revision) :=
  match endk with
  | None =>
      let! r := ti_Get ti key atRev in
      match r with
      | inl _ => Ok ([], [])
      | inr (rev, _, _) => Ok ([key], [rev])
      end
  | Some endk => range_loop (om_seek key ti) endk atRev [] []
  end.

Definition ti_Tombstone ti key rev : outcome (treeIndex * option storage_error) :=
  match om_get key ti with
  | None => Ok (ti, Some ErrRevisionNotFound)
  | Some ki =>
      let! '(ki, err) := ki_tombstone ki (rv_main rev) (rv_sub rev) in
      Ok (om_put key ki ti, err)
  end.

Fixpoint rangeSince_loop (items : list (list Z * keyIndex)) (endk : list Z) (rev : Z)
    (revs : list revision) : outcome (list revision) :=
  match items with
  | [] => Ok revs
  | (_, curKeyi) :: items' =>
      if (zlen endk >? 0) && negb (bytes_ltb (ki_key curKeyi) endk) then Ok revs else
      let! rs := ki_since curKeyi rev in
      rangeSince_loop items' endk rev (revs ++ rs)
  end.

Definition ti_RangeSince ti key (endk : option (list Z)) (rev : Z) : outcome (list revision) :=
  match endk with
  | None => match om_get key ti with None => Ok [] | Some keyi => ki_since keyi rev end
  | Some endk =>
      let! revs := rangeSince_loop (om_seek key ti) endk rev [] in
      Ok (merge_sort (fun a b => ~ rev_lt b a) revs)
  end.

(** [compactIndex]: the callback of [Compact], on one item.  The state is the
    tree, the available revisions and the keys of the emptied indexes. *)
Definition compactIndex (rev : Z) (st : treeIndex * gset revision * list (list Z))
    (item : list Z * keyIndex) : outcome (treeIndex * gset revision * list (list Z)) :=
  let '(ti, available, emptyki) := st in
  let! '(keyi, available) := ki_compact item.2 rev available in
  let! e := ki_isEmpty keyi in
  Ok (om_put item.1 keyi ti, available, if e then emptyki ++ [ki_key keyi] else emptyki).

Definition compact_delete ti (key : list Z) : outcome treeIndex :=
  match om_get key ti with
  | None => Panic "store.index: unexpected delete failure during compaction"
  | Some _ => Ok (om_del key ti)
  end.

Definition ti_Compact ti (rev : Z) : outcome (treeIndex * gset revision) :=
  let! '(ti, available, emptyki) := foldM (compactIndex rev) (om_items ti) (ti, ∅, []) in
  let! ti := foldM compact_delete emptyki ti in
  Ok (ti, available).

(** [b.tree.Get(item).( *keyIndex)] panics when the other tree has no such key. *)
Fixpoint equal_loop (items : list (list Z * keyIndex)) (b : treeIndex) : outcome bool :=
  match items with
  | [] => Ok true
  | (k, aki) :: items' =>
      match om_get k b with
      | None => Panic "interface conversion: interface is nil"
      | Some bki => if negb (ki_equal aki bki) then Ok false else equal_loop items' b
      end
  end.

Definition ti_Equal (a b : treeIndex) : outcome bool :=
  if negb (zlen (om_items a) =? zlen (om_items b)) then Ok false else equal_loop (om_items a) b.
End index.

(** ** The meaning of the index *)

Section view.
  Context {M : Type -> Type} {om : OMap M} {laws : OMapLaws M}.
  Implicit Types (ti : treeIndex (M := M)) (key : list Z) (rev : revision).

Definition ti_view ti key (at_rev : Z) : option (revision * revision * Z) :=
  match om_get key ti with Some ki => ki_answer ki at_rev | None => None end.

Definition ti_ok ti : Prop :=
  forall k ki, om_get k ti = Some ki -> ki_key ki = k /\ ki_ok ki.

(** All changes known to the index are before [rev]. *)
Definition ti_before ti rev : Prop :=
  forall k ki, om_get k ti = Some ki -> rev_lt (ki_modified ki) rev.

Lemma new_ok : ti_ok newTreeIndex.
Proof. intros k ki. unfold newTreeIndex. by rewrite om_get_empty. Qed.

Lemma new_before rev : ti_before newTreeIndex rev.
Proof. intros k ki. unfold newTreeIndex. by rewrite om_get_empty. Qed.

Lemma new_view key at_rev : ti_view newTreeIndex key at_rev = None.
Proof. unfold ti_view, newTreeIndex. by rewrite om_get_empty. Qed.

Lemma ti_Get_eq ti key at_rev : ti_ok ti -> ti_Get ti key at_rev = Ok (answer_result (ti_view ti key at_rev)).
Proof.
  intros Hok. unfold ti_Get, ti_view. destruct (om_get key ti) as [ki|] eqn:E; [|done].
  apply ki_get_eq. by destruct (Hok _ _ E).
Qed.

Lemma ti_before_le ti r1 r2 : ti_before ti r1 -> rev_lt r1 r2 -> ti_before ti r2.
Proof. intros Hb Hlt k ki E. etrans; [by eapply Hb|done]. Qed.

Lemma ti_view_stable ti rev k at_rev : ti_ok ti -> ti_before ti rev -> rv_main rev <= at_rev ->
  ti_view ti k at_rev = ti_view ti k (rv_main rev).
Proof.
  intros Hok Hb Hat. unfold ti_view. destruct (om_get k ti) as [ki|] eqn:E; [|done].
  apply ki_answer_stable; [by destruct (Hok _ _ E)|by eapply Hb|done].
Qed.

Lemma ti_view_back ti k c at_rev r cr v : ti_ok ti -> c <= at_rev -> rv_main r <= c ->
  ti_view ti k at_rev = Some (r, cr, v) -> ti_view ti k c = Some (r, cr, v).
Proof.
  intros Hok Hc Hr. unfold ti_view. destruct (om_get k ti) as [ki|] eqn:E; [|done].
  apply ki_answer_back; [by destruct (Hok _ _ E)|done|done].
Qed.

(** What a put, a restored put or a tombstone does to a tree: one key has a new
    index. *)
Lemma ti_update ti key ki rev : ti_ok ti -> ti_before ti rev ->
  ki_ok ki -> ki_key ki = key -> ki_modified ki = rev ->
  ti_ok (om_put key ki ti)
  /\ (forall r', rev_lt rev r' -> ti_before (om_put key ki ti) r')
  /\ forall k at_rev, ti_view (om_put key ki ti) k at_rev =
       if decide (key = k) then ki_answer ki at_rev else ti_view ti k at_rev.
Proof.
  intros Hok Hb Hki Hkey Hmod. split; [|split].
  - intros k ki'. rewrite om_get_put_case. destruct (decide (key = k)) as [<-|]; [|apply Hok].
    by intros [= <-].
  - intros r' Hr' k ki'. rewrite om_get_put_case. destruct (decide (key = k)) as [<-|].
    + intros [= <-]. by rewrite Hmod.
    + intros E. etrans; [by eapply Hb|done].
  - intros k at_rev. unfold ti_view. rewrite om_get_put_case. by destruct (decide (key = k)).
Qed.

Lemma ti_Put_spec ti key rev : ti_ok ti -> ti_before ti rev -> rev_lt revision0 rev ->
  answer_ver (ti_view ti key (rv_main rev)) < MaxInt64 ->
  exists ti', ti_Put ti key rev = Ok ti' /\ ti_ok ti'
  /\ (forall r', rev_lt rev r' -> ti_before ti' r')
  /\ forall k at_rev, ti_view ti' k at_rev =
       if decide (key = k) then
         if rv_main rev <=? at_rev then Some (bump (ti_view ti k at_rev) rev) else ti_view ti k at_rev
       else ti_view ti k at_rev.
Proof.
  intros Hok Hb H0 Hv. unfold ti_Put, ti_view in *. destruct (om_get key ti) as [ki|] eqn:E.
  - destruct (Hok _ _ E) as [Hk Hki].
    destruct (ki_put_spec ki rev (or_introl Hki)) as (ki' & -> & Hki' & Hk' & Hm' & Ha'); [by eapply Hb|done|].
    gosimpl. destruct (ti_update ti key ki' rev) as (H1 & H2 & H3); [first [done|congruence]..|].
    eexists. split; [done|]. split; [done|]. split; [done|]. intros k at_rev. etrans; [apply H3|].
    destruct (decide (key = k)) as [<-|]; [by rewrite Ha', E|done].
  - destruct (ki_put_spec (new_keyIndex key) rev (or_intror eq_refl)) as (ki' & -> & Hki' & Hk' & Hm' & Ha'); [done..|].
    gosimpl. simpl in Hk'. destruct (ti_update ti key ki' rev) as (H1 & H2 & H3); [first [done|congruence]..|].
    rewrite Hk'. eexists. split; [done|]. split; [done|]. split; [done|]. intros k at_rev. etrans; [apply H3|].
    destruct (decide (key = k)) as [<-|]; [by rewrite Ha', E|done].
Qed.

Lemma ti_Restore_spec ti key created rev ver : ti_ok ti -> ti_before ti rev ->
  answer_ver (ti_view ti key (rv_main rev)) < MaxInt64 -> 1 <= ver <= MaxInt64 ->
  exists ti', ti_Restore ti key created rev ver = Ok ti' /\ ti_ok ti'
  /\ (forall r', rev_lt rev r' -> ti_before ti' r')
  /\ (forall k, om_get k ti' = None <-> k <> key /\ om_get k ti = None)
  /\ forall k at_rev, ti_view ti' k at_rev =
       if decide (key = k) then
         if rv_main rev <=? at_rev then
           Some (match om_get key ti with None => (rev, created, ver) | Some _ => bump (ti_view ti k at_rev) rev end)
         else ti_view ti k at_rev
       else ti_view ti k at_rev.
Proof.
  intros Hok Hb Hv Hver. unfold ti_Restore, ti_view in *. destruct (om_get key ti) as [ki|] eqn:E.
  - destruct (Hok _ _ E) as [Hk Hki].
    destruct (ki_put_spec ki rev (or_introl Hki)) as (ki' & -> & Hki' & Hk' & Hm' & Ha'); [by eapply Hb|done|].
    gosimpl. destruct (ti_update ti key ki' rev) as (H1 & H2 & H3); [first [done|congruence]..|].
    eexists. split; [done|]. split; [done|]. split; [done|]. split.
    { intros k. rewrite om_get_put_case. destruct (decide (key = k)) as [<-|]; [rewrite E|]; naive_solver. }
    intros k at_rev. etrans; [apply H3|]. destruct (decide (key = k)) as [<-|]; [by rewrite Ha', E|done].
  - destruct (ki_restore_spec (new_keyIndex key) created rev ver) as (ki' & -> & Hki' & Hk' & Hm' & Ha'); [done..|].
    gosimpl. simpl in Hk'. destruct (ti_update ti key ki' rev) as (H1 & H2 & H3); [first [done|congruence]..|].
    rewrite Hk'. eexists. split; [done|]. split; [done|]. split; [done|]. split.
    { intros k. rewrite om_get_put_case. destruct (decide (key = k)) as [<-|]; naive_solver. }
    intros k at_rev. etrans; [apply H3|]. destruct (decide (key = k)) as [<-|]; [by rewrite Ha', E|done].
Qed.

Lemma ti_Tombstone_spec ti key rev : ti_ok ti -> ti_before ti rev ->
  answer_ver (ti_view ti key (rv_main rev)) < MaxInt64 ->
  exists ti', ti_Tombstone ti key rev
    = Ok (ti', match ti_view ti key (rv_main rev) with None => Some ErrRevisionNotFound | Some _ => None end)
  /\ ti_ok ti' /\ (forall r', rev_lt rev r' -> ti_before ti' r')
  /\ forall k at_rev, ti_view ti' k at_rev =
       if decide (key = k /\ ti_view ti key (rv_main rev) <> None) then
         if rv_main rev <=? at_rev then None else ti_view ti k at_rev
       else ti_view ti k at_rev.
Proof.
  intros Hok Hb Hv. unfold ti_Tombstone. destruct (om_get key ti) as [ki|] eqn:E.
  - assert (forall a, ti_view ti key a = ki_answer ki a) as Hview by (intros a; unfold ti_view; by rewrite E).
    rewrite Hview in *. destruct (Hok _ _ E) as [Hk Hki].
    pose proof (ki_tombstone_spec ki rev Hki (Hb _ _ E) Hv) as Hs.
    destruct (decide (ki_answer ki (rv_main rev) = None)) as [Hn|Hn].
    + rewrite Hs, Hn. gosimpl. exists (om_put key ki ti).
      assert (forall k, om_get k (om_put key ki ti) = om_get k ti) as Heq.
      { intros k. rewrite om_get_put_case. by destruct (decide (key = k)) as [<-|]. }
      split; [done|]. split; [intros k ki'; rewrite Heq; apply Hok|].
      split; [intros r' Hr' k ki'; rewrite Heq; intros ?; etrans; [by eapply Hb|done]|].
      intros k a. rewrite decide_False by tauto. unfold ti_view. by rewrite Heq.
    + destruct Hs as (ki' & -> & Hki' & Hk' & Hm' & Ha'). gosimpl.
      destruct (ti_update ti key ki' rev) as (H1 & H2 & H3); [first [done|congruence]..|].
      destruct (ki_answer ki (rv_main rev)) eqn:Ea; [|done].
      eexists. split; [done|]. split; [done|]. split; [done|]. intros k a. etrans; [apply H3|].
      destruct (decide (key = k)) as [<-|]; [rewrite decide_True by done|rewrite decide_False by tauto; done].
      by rewrite Ha', Hview.
  - assert (ti_view ti key (rv_main rev) = None) as -> by (unfold ti_view; by rewrite E).
    exists ti. split; [done|]. split; [done|]. split; [intros; by eapply ti_before_le|].
    intros k a. by rewrite decide_False by tauto.
Qed.

Lemma ti_Tombstone_keys ti key rev ti' err k : ti_Tombstone ti key rev = Ok (ti', err) ->
  om_get k ti' = None <-> om_get k ti = None.
Proof.
  unfold ti_Tombstone. destruct (om_get key ti) as [ki|] eqn:E; [|by intros [= <- _]].
  intros H. apply bind_Ok_inv in H as ([ki' err'] & _ & [= <- _]). rewrite om_get_put_case.
  destruct (decide (key = k)) as [<-|]; [|done]. by rewrite E.
Qed.

(** ** [Range] *)

(** The keys a request with [key] and [end] addresses: the key itself without an
    [end], all keys from [key] on with an empty one. *)
Definition in_range key (endk : option (list Z)) (k : list Z) : Prop :=
  match endk with
  | None => k = key
  | Some [] => ~ bytes_lt k key
  | Some e => ~ bytes_lt k key /\ bytes_lt k e
  end.

Definition range_hit (endk : list Z) (at_rev : Z) (p : list Z * keyIndex) : option (list Z * revision) :=
  if decide (endk = [] \/ bytes_lt p.1 endk) then
    match ki_answer p.2 at_rev with Some (r, _, _) => Some (p.1, r) | None => None end
  else None.

Lemma range_hit_end endk at_rev k items : endk <> [] -> ~ bytes_lt k endk ->
  Forall (bytes_lt k) items.*1 -> omap (range_hit endk at_rev) items = [].
Proof.
  intros He Hk. induction items as [|[k' ki] items IH]; intros HF; [done|].
  apply Forall_cons in HF as [Hk' HF]. simpl in *. unfold range_hit at 1. simpl.
  rewrite decide_False by (intros [?|Hlt]; [done|destruct Hk; by etrans]). by apply IH.
Qed.

Lemma omap_cons {A B} (f : A -> option B) x l :
  omap f (x :: l) = match f x with Some y => y :: omap f l | None => omap f l end.
Proof. done. Qed.

Lemma range_loop_eq items endk at_rev keys revs :
  StronglySorted bytes_lt items.*1 -> Forall (fun p => ki_key p.2 = p.1 /\ ki_ok p.2) items ->
  range_loop items endk at_rev keys revs
  = Ok (keys ++ (omap (range_hit endk at_rev) items).*1, revs ++ (omap (range_hit endk at_rev) items).*2).
Proof.
  revert keys revs. induction items as [|[k ki] items IH]; intros keys revs Hs HF.
  { simpl. by rewrite !app_nil_r. }
  simpl in Hs. apply StronglySorted_inv in Hs as [Hs Hlt]. apply Forall_cons in HF as [[Hk Hok] HF].
  rewrite omap_cons. cbn [range_loop]. simpl in Hk, Hok. rewrite Hk.
  assert (endk = [] \/ bytes_lt k endk ->
    (let! r := ki_get ki at_rev in
     match r with
     | inl _ => range_loop items endk at_rev keys revs
     | inr (rev, _, _) => range_loop items endk at_rev (keys ++ [k]) (revs ++ [rev])
     end) =
    let l := match range_hit endk at_rev (k, ki) with
             | Some y => y :: omap (range_hit endk at_rev) items
             | None => omap (range_hit endk at_rev) items end in Ok (keys ++ l.*1, revs ++ l.*2)) as Hin.
  { intros Hd. unfold range_hit at 1. rewrite decide_True by done. rewrite ki_get_eq by done. gosimpl. simpl.
    destruct (ki_answer ki at_rev) as [[[r c] v]|]; simpl; rewrite IH by done; [|done].
    by rewrite <- !(assoc_L (++)). }
  destruct (bytes_ltb_reflect k endk) as [Hb|Hb].
  - rewrite andb_false_r. by apply Hin; right.
  - zif.
    + assert (range_hit endk at_rev (k, ki) = None) as ->.
      { unfold range_hit. by rewrite decide_False by (intros [->|?]; done). }
      rewrite (range_hit_end _ _ k) by (done || by intros ->). simpl. by rewrite !app_nil_r.
    + destruct endk; [|simpl in *; lia]. by apply Hin; left.
Qed.

Lemma omap_hit_sorted endk at_rev items : StronglySorted bytes_lt items.*1 ->
  StronglySorted bytes_lt (omap (range_hit endk at_rev) items).*1.
Proof.
  induction items as [|[k ki] items IH]; intros Hs; simpl; [constructor|].
  simpl in Hs. apply StronglySorted_inv in Hs as [Hs HF].
  destruct (range_hit endk at_rev (k, ki)) as [[k' r]|] eqn:E; [|by apply IH]. simpl.
  assert (k' = k) as ->.
  { unfold range_hit in E. destruct (decide _); [|done]. simpl in E.
    destruct (ki_answer ki at_rev) as [[[? ?] ?]|]; by simplify_eq. }
  constructor; [by apply IH|]. rewrite Forall_forall in *.
  intros x (p & -> & (q & Hq & Hp)%list_elem_of_omap)%list_elem_of_fmap.
  unfold range_hit in Hp. destruct (decide _); [|done].
  destruct (ki_answer q.2 at_rev) as [[[? ?] ?]|]; simplify_eq. simpl. apply HF.
  by apply list_elem_of_fmap_2.
Qed.

(** [Range] gives the keys of the range that exist at the revision, in order,
    each with the revision of its last change. *)
Lemma ti_Range_spec ti key endk at_rev : ti_ok ti ->
  exists l, ti_Range ti key endk at_rev = Ok (l.*1, l.*2)
  /\ StronglySorted bytes_lt l.*1
  /\ forall k r, (k, r) ∈ l <-> in_range key endk k /\ exists c v, ti_view ti k at_rev = Some (r, c, v).
Proof.
  intros Hok. destruct endk as [endk|]; simpl.
  - exists (omap (range_hit endk at_rev) (om_seek key ti)).
    assert (StronglySorted bytes_lt (om_seek key ti).*1) as Hs by apply sorted_filter, om_items_sorted.
    split; [|split; [by apply omap_hit_sorted|]].
    + rewrite range_loop_eq; [done|done|]. apply Forall_forall. intros [k ki] [_ Hk]%om_seek_get. by apply Hok.
    + intros k r. rewrite list_elem_of_omap. split.
      * intros ([k' ki] & [Hk Hg]%om_seek_get & Hh). unfold range_hit in Hh. simpl in Hh.
        destruct (decide _) as [Hd|]; [|done].
        destruct (ki_answer ki at_rev) as [[[r' c] v]|] eqn:Ea; simplify_eq.
        split; [destruct endk; [done|]; destruct Hd; [done|by split]|].
        exists c, v. unfold ti_view. by rewrite Hg.
      * intros [Hr (c & v & Hv)]. unfold ti_view in Hv. destruct (om_get k ti) as [ki|] eqn:Eg; [|done].
        exists (k, ki). rewrite om_seek_get. unfold range_hit. simpl. rewrite Hv.
        destruct endk as [|x endk]; [rewrite decide_True by auto; done|].
        destruct Hr as [Hr1 Hr2]. by rewrite decide_True by auto.
  - rewrite ti_Get_eq by done. gosimpl. destruct (ti_view ti key at_rev) as [[[r c] v]|] eqn:Ev; simpl.
    + exists [(key, r)]. split; [done|]. split; [repeat constructor|].
      intros k r'. rewrite list_elem_of_singleton. naive_solver.
    + exists []. split; [done|]. split; [constructor|]. intros k r. split; [by intros ?%not_elem_of_nil|].
      naive_solver.
Qed.

(** ** [Compact] *)

(** What compaction at [c] does to one key index. *)
Definition compacted (c : Z) (ki ki' : keyIndex) : Prop :=
  ki_key ki' = ki_key ki /\ ki_modified ki' = ki_modified ki
  /\ (forall at_rev, c <= at_rev -> ki_answer ki' at_rev = ki_answer ki at_rev)
  /\ (ki_isEmpty ki' = Ok false /\ ki_ok ki'
      \/ ki_isEmpty ki' = Ok true /\ forall at_rev, ki_answer ki' at_rev = None).

Lemma ki_compacted ki c av : ki_ok ki ->
  exists ki', ki_compact ki c av = Ok (ki', kept (ki_answer ki c) av) /\ compacted c ki ki'.
Proof.
  intros Hok. destruct (ki_compact_spec ki c av Hok) as (ki' & E & H1 & H2 & H3 & H4).
  exists ki'. split; [done|]. split; [done|]. split; [done|]. split; [done|].
  destruct H4 as [H4|H4]; [left; split; [by apply ki_ok_not_empty|done]|by right].
Qed.

(** The callback of [Compact] over a list of items. *)
Lemma compact_fold c items ti av em : NoDup items.*1 ->
  (forall k ki, (k, ki) ∈ items -> om_get k ti = Some ki /\ ki_key ki = k /\ ki_ok ki) ->
  exists ti' av' em', foldM (compactIndex c) items (ti, av, em) = Ok (ti', av', em ++ em')
  /\ (forall k, k ∉ items.*1 -> om_get k ti' = om_get k ti)
  /\ (forall k ki, (k, ki) ∈ items -> exists ki', om_get k ti' = Some ki' /\ compacted c ki ki'
        /\ (k ∈ em' <-> ki_isEmpty ki' = Ok true))
  /\ (forall k, k ∈ em' -> k ∈ items.*1) /\ NoDup em'
  /\ (forall r, r ∈ av' <-> r ∈ av \/ exists k ki cr v, (k, ki) ∈ items /\ ki_answer ki c = Some (r, cr, v)).
Proof.
  revert ti av em. induction items as [|[k ki] items IH]; intros ti av em Hnd Hit.
  { exists ti, av, []. simpl. rewrite app_nil_r. split; [done|]. split; [done|].
    split; [by intros ? ? ?%not_elem_of_nil|]. split; [by intros ? ?%not_elem_of_nil|].
    split; [constructor|]. intros r. split; [by left|]. intros [?|(? & ? & ? & ? & []%not_elem_of_nil & _)]; done. }
  apply NoDup_cons in Hnd as [Hk Hnd]. simpl in Hk.
  destruct (Hit k ki) as (Hg & Hkey & Hok); [left|].
  destruct (ki_compacted ki c av Hok) as (ki' & Ec & Hc). cbn [foldM]. unfold compactIndex at 1. cbn [fst snd].
  rewrite Ec. gosimpl.
  assert (exists b, ki_isEmpty ki' = Ok b) as [b Eb] by (destruct Hc as (_ & _ & _ & [[? _]|[? _]]); eauto).
  rewrite Eb. gosimpl. destruct (IH (om_put k ki' ti) (kept (ki_answer ki c) av)
    (if b then em ++ [ki_key ki'] else em)) as (ti' & av' & em' & Ef & H1 & H2 & H3 & H4 & H5); [done| |].
  { intros k2 ki2 Hin. destruct (Hit k2 ki2) as (? & ? & ?); [by right|].
    rewrite om_get_put_ne; [done|]. intros <-. destruct Hk. by apply (list_elem_of_fmap_2 fst) in Hin. }
  assert (k ∉ em') as Hkem by (intros Hin; by apply Hk, H3).
  exists ti', av', (if b then k :: em' else em').
  assert (ki_key ki' = k) as Ek by (destruct Hc as (-> & _); done). rewrite Ek in Ef |- *.
  split; [etrans; [exact Ef|]; destruct b; by rewrite <- ?(assoc_L (++))|]. split; [|split; [|split; [|split]]].
  - intros k2 Hk2. simpl in Hk2. apply not_elem_of_cons in Hk2 as [Hne Hk2].
    rewrite H1 by done. by apply om_get_put_ne.
  - intros k2 ki2 [[= -> ->]|Hin]%elem_of_cons.
    + exists ki'. split; [by rewrite H1, om_get_put|]. split; [done|]. rewrite Eb. destruct b; [|naive_solver].
      split; [done|]. intros _. left.
    + destruct (H2 _ _ Hin) as (ki3 & ? & ? & Hem). exists ki3. split; [done|]. split; [done|]. rewrite <- Hem.
      destruct b; [|done]. rewrite elem_of_cons. split; [|tauto]. intros [->|?]; [|done].
      destruct Hk. by apply (list_elem_of_fmap_2 fst) in Hin.
  - intros k2 Hin. simpl. apply elem_of_cons. destruct b; [apply elem_of_cons in Hin as [->|Hin]|]; auto.
  - destruct b; [by constructor|done].
  - intros r. rewrite H5. unfold kept. split.
    + intros [Hr|(k2 & ki2 & cr & v & Hin & Ha)]; [|right; exists k2, ki2, cr, v; split; [by right|done]].
      destruct (ki_answer ki c) as [[[r0 cr] v]|] eqn:Ea; [|by left].
      apply elem_of_union in Hr as [->%elem_of_singleton|Hr]; [|by left]. right. exists k, ki, cr, v. split; [left|done].
    + intros [Hr|(k2 & ki2 & cr & v & [[= -> ->]|Hin]%elem_of_cons & Ha)].
      * left. destruct (ki_answer ki c) as [[[r0 cr] v]|]; [set_solver|done].
      * left. rewrite Ha. set_solver.
      * right. by exists k2, ki2, cr, v.
Qed.

Lemma delete_fold em ti : NoDup em -> (forall k, k ∈ em -> om_get k ti <> None) ->
  exists ti', foldM compact_delete em ti = Ok ti'
  /\ forall k, om_get k ti' = if decide (k ∈ em) then None else om_get k ti.
Proof.
  revert ti. induction em as [|k em IH]; intros ti Hnd Hin.
  { exists ti. split; [done|]. intros k. by rewrite decide_False by (by intros ?%not_elem_of_nil). }
  apply NoDup_cons in Hnd as [Hk Hnd]. cbn [foldM]. unfold compact_delete at 1.
  destruct (om_get k ti) eqn:Eg; [|destruct (Hin k); [left|done]]. gosimpl.
  destruct (IH (om_del k ti)) as (ti' & -> & Hg); [done| |].
  { intros k2 Hk2. rewrite om_get_del_ne by (by intros <-). apply Hin. by right. }
  exists ti'. split; [done|]. intros k2. rewrite Hg, om_get_del_case.
  destruct (decide (k2 ∈ em)), (decide (k2 ∈ k :: em)) as [Hd|Hd], (decide (k = k2));
    rewrite elem_of_cons in Hd; try done; naive_solver.
Qed.

(** Compaction at [c] keeps the answers from [c] on; the revisions it reports as
    available are those visible at [c]. *)
Lemma ti_Compact_spec ti c : ti_ok ti ->
  exists ti' av, ti_Compact ti c = Ok (ti', av) /\ ti_ok ti'
  /\ (forall rev, ti_before ti rev -> ti_before ti' rev)
  /\ (forall k at_rev, c <= at_rev -> ti_view ti' k at_rev = ti_view ti k at_rev)
  /\ (forall r, r ∈ av <-> exists k cr v, ti_view ti k c = Some (r, cr, v)).
Proof.
  intros Hok. unfold ti_Compact.
  destruct (compact_fold c (om_items ti) ti ∅ []) as (ti1 & av & em & -> & H1 & H2 & H3 & H4 & H5).
  { apply om_items_NoDup. }
  { intros k ki Hin. apply om_items_get in Hin. destruct (Hok _ _ Hin). done. }
  gosimpl. simpl.
  assert (forall k, om_get k ti = None -> om_get k ti1 = None) as Hnone.
  { intros k Hk. rewrite H1; [done|]. intros ([k' ki] & -> & Hin)%list_elem_of_fmap.
    apply om_items_get in Hin. simpl in Hk. congruence. }
  assert (forall k ki, om_get k ti = Some ki -> exists ki', om_get k ti1 = Some ki' /\ compacted c ki ki'
    /\ (k ∈ em <-> ki_isEmpty ki' = Ok true)) as Hsome.
  { intros k ki Hk. apply H2. by apply om_items_get. }
  destruct (delete_fold em ti1) as (ti' & -> & Hg); [done| |].
  { intros k Hk%H3. apply list_elem_of_fmap in Hk as ([k' ki] & -> & Hin). apply om_items_get in Hin.
    destruct (Hsome _ _ Hin) as (ki' & E & _). simpl. by rewrite E. }
  gosimpl. exists ti', av. split; [done|].
  assert (forall k ki', om_get k ti' = Some ki' -> exists ki, om_get k ti = Some ki /\ compacted c ki ki' /\ ki_ok ki') as Hback.
  { intros k ki' E. rewrite Hg in E. destruct (decide (k ∈ em)) as [|Hn]; [done|].
    destruct (om_get k ti) as [ki|] eqn:Ek; [|by rewrite Hnone in E].
    destruct (Hsome _ _ Ek) as (ki2 & E2 & Hc & Hem). simplify_eq. exists ki. split; [done|]. split; [done|].
    destruct Hc as (_ & _ & _ & [[_ ?]|[? _]]); [done|]. tauto. }
  split; [|split; [|split]].
  - intros k ki' E. destruct (Hback _ _ E) as (ki & Ek & (Hkey & _) & Hki). rewrite Hkey. by destruct (Hok _ _ Ek).
  - intros rev Hb k ki' E. destruct (Hback _ _ E) as (ki & Ek & (_ & -> & _) & _). by eapply Hb.
  - intros k at_rev Hat. unfold ti_view. rewrite Hg. destruct (om_get k ti) as [ki|] eqn:Ek.
    + destruct (Hsome _ _ Ek) as (ki' & -> & (_ & _ & Ha & Hc) & Hem). destruct (decide (k ∈ em)) as [Hd|Hd].
      * rewrite <- Ha by done. destruct Hc as [[? _]|[_ ?]]; [|done]. apply Hem in Hd. congruence.
      * by apply Ha.
    + rewrite Hnone by done. by destruct (decide _).
  - intros r. rewrite H5. unfold ti_view. split.
    + intros [[]%not_elem_of_empty|(k & ki & cr & v & Hin%om_items_get & Ha)]. exists k, cr, v. by rewrite Hin.
    + intros (k & cr & v & Hv). destruct (om_get k ti) as [ki|] eqn:Ek; [|done].
      right. exists k, ki, cr, v. split; [by apply om_items_get|done].
Qed.

(** ** Histories *)

Inductive index_op := IPut (key : list Z) (rev : revision) | ITombstone (key : list Z) (rev : revision) | ICompact (rev : Z).

Definition apply_op ti (op : index_op) : outcome treeIndex :=
  match op with
  | IPut key rev => ti_Put ti key rev
  | ITombstone key rev => let! '(ti, _) := ti_Tombstone ti key rev in Ok ti
  | ICompact rev => let! '(ti, _) := ti_Compact ti rev in Ok ti
  end.

(** One change, seen at [at_rev]. *)
Definition see key (at_rev : Z) (a : option (revision * revision * Z)) (op : index_op) :=
  match op with
  | IPut k rev => if bool_decide (k = key) && (rv_main rev <=? at_rev) then Some (bump a rev) else a
  | ITombstone k rev => if bool_decide (k = key) && (rv_main rev <=? at_rev) then None else a
  | ICompact _ => a
  end.

(** What the changes up to [at_rev] made of the key: its last revision, the
    revision that created it and the number of puts since. *)
Definition visible (ops : list index_op) key (at_rev : Z) : option (revision * revision * Z) :=
  foldl (see key at_rev) None ops.

Definition compacted_to (ops : list index_op) : Z :=
  foldl (fun c op => match op with ICompact c' => Z.max c c' | _ => c end) (-1) ops.

(** Revisions grow, and changes are not before a compaction. *)
Fixpoint ops_ok (last : revision) (c : Z) (ops : list index_op) : Prop :=
  match ops with
  | [] => True
  | (IPut _ rev | ITombstone _ rev) :: ops' => rev_lt last rev /\ c <= rv_main rev /\ ops_ok rev c ops'
  | ICompact c' :: ops' => ops_ok last (Z.max c c') ops'
  end.

Lemma see_ver key at_rev a op : answer_ver (see key at_rev a op) <= Z.max 0 (answer_ver a) + 1.
Proof.
  destruct op; simpl; [| |lia]; (destruct (_ && _); simpl; [|lia]); [|lia].
  destruct a as [[[? ?] ?]|]; simpl; lia.
Qed.

Lemma visible_ver ops key at_rev : answer_ver (visible ops key at_rev) <= zlen ops.
Proof.
  induction ops as [|op ops IH] using rev_ind; [done|].
  unfold visible in *. rewrite foldl_app, length_app. simpl.
  pose proof (see_ver key at_rev (foldl (see key at_rev) None ops) op). lia.
Qed.

Definition history_inv ti (last : revision) (ops : list index_op) : Prop :=
  ti_ok ti /\ (forall r, rev_lt last r -> ti_before ti r)
  /\ (revision0 = last \/ rev_lt revision0 last)
  /\ forall key at_rev, compacted_to ops <= at_rev -> ti_view ti key at_rev = visible ops key at_rev.

Lemma visible_snoc ops op key at_rev : visible (ops ++ [op]) key at_rev = see key at_rev (visible ops key at_rev) op.
Proof. unfold visible. by rewrite foldl_app. Qed.

Lemma compacted_to_snoc ops op : compacted_to (ops ++ [op])
  = match op with ICompact c => Z.max (compacted_to ops) c | _ => compacted_to ops end.
Proof. unfold compacted_to. by rewrite foldl_app. Qed.

Lemma history_put ti last ops key rev : history_inv ti last ops -> rev_lt last rev ->
  compacted_to ops <= rv_main rev -> zlen ops < MaxInt64 ->
  exists ti', ti_Put ti key rev = Ok ti' /\ history_inv ti' rev (ops ++ [IPut key rev]).
Proof.
  intros (Hok & Hb & H0 & Hv) Hlt Hc Hl. assert (rev_lt revision0 rev) as H0' by (destruct H0 as [->|]; [done|by etrans]).
  destruct (ti_Put_spec ti key rev) as (ti' & E & Hok' & Hb' & Hv'); [done|by apply Hb|done| |].
  { rewrite Hv by done. pose proof (visible_ver ops key (rv_main rev)). lia. }
  exists ti'. split; [done|]. split; [done|]. split; [done|]. split; [by right|].
  intros k a Ha. rewrite compacted_to_snoc in Ha. rewrite visible_snoc, Hv', Hv by done. simpl.
  destruct (decide (key = k)); [by rewrite bool_decide_true|by rewrite bool_decide_false].
Qed.

Lemma history_tombstone ti last ops key rev : history_inv ti last ops -> rev_lt last rev ->
  compacted_to ops <= rv_main rev -> zlen ops < MaxInt64 ->
  exists ti' err, ti_Tombstone ti key rev = Ok (ti', err) /\ history_inv ti' rev (ops ++ [ITombstone key rev]).
Proof.
  intros (Hok & Hb & H0 & Hv) Hlt Hc Hl.
  destruct (ti_Tombstone_spec ti key rev) as (ti' & E & Hok' & Hb' & Hv'); [done|by apply Hb| |].
  { rewrite Hv by done. pose proof (visible_ver ops key (rv_main rev)). lia. }
  exists ti'. eexists. split; [done|]. split; [done|]. split; [done|].
  split; [right; destruct H0 as [->|]; [done|by etrans]|].
  intros k a Ha. rewrite compacted_to_snoc in Ha. rewrite visible_snoc, Hv', <- (Hv k) by done. simpl.
  destruct (decide (_ /\ _)) as [[-> Hn]|Hn]; [by rewrite bool_decide_true|].
  destruct (bool_decide_reflect (key = k)) as [->|]; [|done]. simpl. zif; [|done].
  rewrite (ti_view_stable ti rev) by auto. destruct (ti_view ti k (rv_main rev)); [|done]. by destruct Hn.
Qed.

Lemma history_compact ti last ops c : history_inv ti last ops ->
  exists ti' av, ti_Compact ti c = Ok (ti', av) /\ history_inv ti' last (ops ++ [ICompact c]).
Proof.
  intros (Hok & Hb & H0 & Hv). destruct (ti_Compact_spec ti c Hok) as (ti' & av & E & Hok' & Hb' & Hv' & _).
  exists ti', av. split; [done|]. split; [done|]. split; [auto|]. split; [done|].
  intros k a Ha. rewrite compacted_to_snoc in Ha. rewrite visible_snoc, Hv', Hv by lia. done.
Qed.

Lemma history_run ops done ti last : history_inv ti last done ->
  ops_ok last (compacted_to done) ops -> zlen done + zlen ops <= MaxInt64 ->
  exists ti' last', foldM apply_op ops ti = Ok ti' /\ history_inv ti' last' (done ++ ops).
Proof.
  revert done ti last. induction ops as [|op ops IH]; intros dn ti last Hinv Hops Hl.
  { exists ti, last. by rewrite app_nil_r. }
  cbn [foldM length] in *. change (op :: ops) with ([op] ++ ops). rewrite (assoc_L (++)).
  destruct op as [key rev|key rev|c]; cbn [ops_ok apply_op] in *.
  - destruct Hops as (H1 & H2 & H3).
    destruct (history_put ti last dn key rev) as (ti1 & -> & Hinv1); [done..|lia|]. gosimpl.
    apply (IH _ _ rev); [done|by rewrite compacted_to_snoc|rewrite length_app; simpl; lia].
  - destruct Hops as (H1 & H2 & H3).
    destruct (history_tombstone ti last dn key rev) as (ti1 & err & -> & Hinv1); [done..|lia|]. gosimpl.
    apply (IH _ _ rev); [done|by rewrite compacted_to_snoc|rewrite length_app; simpl; lia].
  - destruct (history_compact ti last dn c Hinv) as (ti1 & av & -> & Hinv1). gosimpl.
    apply (IH _ _ last); [done|by rewrite compacted_to_snoc|rewrite length_app; simpl; lia].
Qed.

(** C20. From the empty index, any sequence of puts, tombstones and compactions
    with growing revisions runs without a panic, and the index then answers
    every key at every revision not before the last compaction as the sequence
    of changes does: the newest change not after the revision, with the creation
    revision and the version counted from the changes. *)
Theorem index_history (ops : list index_op) :
  ops_ok revision0 (-1) ops -> zlen ops <= MaxInt64 ->
  exists ti, foldM apply_op ops newTreeIndex = Ok ti
  /\ forall key at_rev, compacted_to ops <= at_rev ->
       ti_Get ti key at_rev = Ok (answer_result (visible ops key at_rev)).
Proof.
  intros Hops Hl. destruct (history_run ops [] newTreeIndex revision0) as (ti & last & E & (Hok & _ & _ & Hv)); [|done..|].
  { split; [apply new_ok|]. split; [intros; apply new_before|]. split; [by left|].
    intros key a _. apply new_view. }
  exists ti. split; [done|]. intros key a Ha. by rewrite ti_Get_eq, Hv.
Qed.
End view.

(** A key is created, changed, deleted and created again; revision 4 is
    compacted. *)
Definition ex_ops : list index_op :=
  [IPut [1] (Revision 2 0); IPut [2] (Revision 3 0); IPut [1] (Revision 4 0); ICompact 4;
   ITombstone [1] (Revision 5 0); IPut [1] (Revision 6 0); IPut [1] (Revision 6 1)].

Lemma index_history_witness :
  exists ti : treeIndex (M := gmap (list Z)), foldM apply_op ex_ops newTreeIndex = Ok ti
  /\ forall key at_rev, compacted_to ex_ops <= at_rev ->
       ti_Get ti key at_rev = Ok (answer_result (visible ex_ops key at_rev)).
Proof.
  apply (index_history ex_ops).
  - simpl. unfold rev_lt. simpl. lia.
  - vm_compute. discriminate.
Defined.
