(* ===== verification/StorePB.v ===== *)
(** * The wire format of the stored values

    The messages kept in the backend: [KeyValue] and [Event] of
    [src/storage/storagepb/kv.pb.go], [Lease] of [src/lease/leasepb/lease.pb.go].
    They are proto3 messages: a field with its zero value is not written, and
    unknown fields are skipped and dropped.  A byte field that is nil and one
    that is empty are written alike, so both are the empty list here. *)

From S2P Require Import Prelude RaftPB Proto RaftCodec.

(** ** Fields that are written unless zero *)

(** [1 + sovKv(uint64(v))] *)
Definition size3_varint (v : Z) : Z := if negb (v =? 0) then 1 + sovRaft (u64 v) else 0.

(** [1 + l + sovKv(uint64(l))] *)
Definition size3_bytes (b : list Z) : Z := if zlen b >? 0 then 1 + zlen b + sovRaft (zlen b) else 0.

Definition put3_varint (tag v : Z) : list Z := if negb (v =? 0) then put_varint tag (u64 v) else [].

Definition put3_bytes (tag : Z) (b : list Z) : list Z :=
  if zlen b >? 0 then tag :: encodeVarint (zlen b) ++ b else [].

Lemma put3_varint_len tag v : zlen (put3_varint tag v) = size3_varint v.
Proof.
  unfold put3_varint, size3_varint. zif; [done|]. apply put_varint_len. apply u64_range.
Qed.

Lemma put3_bytes_len tag b : zlen (put3_bytes tag b) = size3_bytes b.
Proof.
  unfold put3_bytes, size3_bytes. zif; [|done].
  rewrite length_cons, length_app, <- encodeVarint_len by lia. lia.
Qed.

(** A varint read into a field that was zero. *)
Lemma decodes3_varint {M} (field : Z -> Z -> list Z -> Z -> M -> dec (option (M * Z))) keep tag num wrap set v m :
  0 <= tag < 128 -> Z.land tag 7 = 0 -> i32 (Z.shiftr tag 3) = num -> 0 < num ->
  bitwise wrap -> wrap (u64 v) = v ->
  (forall data i, field num 0 data i m = case_varint wrap set 0 data i) -> set 0 = m ->
  decodes field keep (put3_varint tag v) m (set v).
Proof.
  intros Ht Hw Hn Hn0 Hb Hv Hf H0. unfold put3_varint, put_varint. zif.
  - subst. apply decodes_nil.
  - rewrite <- Hv at 2. by eapply decodes_varint; eauto with codec.
Qed.

Lemma decodes3_bytes {M} (field : Z -> Z -> list Z -> Z -> M -> dec (option (M * Z))) keep tag num set b m :
  0 <= tag < 128 -> Z.land tag 7 = 2 -> i32 (Z.shiftr tag 3) = num -> 0 < num ->
  (forall data i, field num 2 data i m = case_bytes set 2 data i) -> set [] = m ->
  decodes field keep (put3_bytes tag b) m (set b).
Proof.
  intros Ht Hw Hn Hn0 Hf H0. unfold put3_bytes. zif.
  - by eapply decodes_bytes.
  - destruct b; [|simpl in *; lia]. rewrite H0. apply decodes_nil.
Qed.

(** ** Messages *)

Record KeyValue := mkKeyValue {
  kvKey : list Z;
  kvCreateRevision : Z;
  kvModRevision : Z;
  kvVersion : Z;
  kvValue : list Z;
  kvLease : Z;
}.
#[global] Instance KeyValue_eta : Eta KeyValue := fun m =>
  mkKeyValue (kvKey m) (kvCreateRevision m) (kvModRevision m) (kvVersion m) (kvValue m) (kvLease m).
Definition KeyValue0 : KeyValue := mkKeyValue [] 0 0 0 [] 0.
#[global] Instance KeyValue_eq_dec : EqDecision KeyValue.
Proof. solve_decision. Defined.

Inductive Event_EventType := PUT | DELETE | EXPIRE | EventType_other (n : Z).
#[global] Instance EventType_eq_dec : EqDecision Event_EventType.
Proof. solve_decision. Defined.

Definition EventType_num (t : Event_EventType) : Z :=
  match t with PUT => 0 | DELETE => 1 | EXPIRE => 2 | EventType_other n => n end.

Definition EventType_of (n : Z) : Event_EventType :=
  if n =? 0 then PUT else if n =? 1 then DELETE else if n =? 2 then EXPIRE else EventType_other n.

(** [Kv] is a pointer. *)
Record Event := mkEvent { evType : Event_EventType; evKv : option KeyValue }.
#[global] Instance Event_eta : Eta Event := fun m => mkEvent (evType m) (evKv m).
Definition Event0 : Event := mkEvent PUT None.

(** [leasepb.Lease] *)
Record LeasePB := mkLeasePB { lpbID : Z; lpbTTL : Z }.
#[global] Instance LeasePB_eta : Eta LeasePB := fun m => mkLeasePB (lpbID m) (lpbTTL m).
Definition LeasePB0 : LeasePB := mkLeasePB 0 0.

Definition KeyValue_Size (m : KeyValue) : Z :=
  size3_bytes (kvKey m) + size3_varint (kvCreateRevision m) + size3_varint (kvModRevision m) +
  size3_varint (kvVersion m) + size3_bytes (kvValue m) + size3_varint (kvLease m).

Definition KeyValue_MarshalTo (m : KeyValue) : list Z :=
  put3_bytes 10 (kvKey m) ++ put3_varint 16 (kvCreateRevision m) ++ put3_varint 24 (kvModRevision m) ++
  put3_varint 32 (kvVersion m) ++ put3_bytes 42 (kvValue m) ++ put3_varint 48 (kvLease m).

Definition KeyValue_Marshal (m : KeyValue) : outcome (list Z) := marshal (KeyValue_Size m) (KeyValue_MarshalTo m).

Definition KeyValue_field (fieldNum w : Z) (data : list Z) (i : Z) (m : KeyValue) : dec (option (KeyValue * Z)) :=
  if fieldNum =? 1 then case_bytes (fun b => m <| kvKey := b |>) w data i else
  if fieldNum =? 2 then case_varint i64 (fun v => m <| kvCreateRevision := v |>) w data i else
  if fieldNum =? 3 then case_varint i64 (fun v => m <| kvModRevision := v |>) w data i else
  if fieldNum =? 4 then case_varint i64 (fun v => m <| kvVersion := v |>) w data i else
  if fieldNum =? 5 then case_bytes (fun b => m <| kvValue := b |>) w data i else
  if fieldNum =? 6 then case_varint i64 (fun v => m <| kvLease := v |>) w data i else DOk None.

(** Unknown fields are dropped.  (Where the position behind one wraps around,
    the next round indexes the data at a negative position and panics, as the
    slice of [unknown] does.) *)
Definition KeyValue_Unmarshal (data : list Z) (m : KeyValue) : dec KeyValue :=
  unmarshal KeyValue_field (fun _ m => m) data m.

Definition Event_Size (m : Event) : Z :=
  size3_varint (EventType_num (evType m)) +
  match evKv m with Some kv => size_message (KeyValue_Size kv) | None => 0 end.

Definition Event_MarshalTo (m : Event) : list Z :=
  put3_varint 8 (EventType_num (evType m)) ++
  match evKv m with Some kv => put_message 18 (KeyValue_Size kv) (KeyValue_MarshalTo kv) | None => [] end.

Definition Event_Marshal (m : Event) : outcome (list Z) := marshal (Event_Size m) (Event_MarshalTo m).

Definition Event_field (fieldNum w : Z) (data : list Z) (i : Z) (m : Event) : dec (option (Event * Z)) :=
  if fieldNum =? 1 then case_varint i32 (fun v => m <| evType := EventType_of v |>) w data i else
  if fieldNum =? 2 then
    case_message (fun b => KeyValue_Unmarshal b (default KeyValue0 (evKv m))) (fun kv => m <| evKv := Some kv |>) w data i
  else DOk None.

Definition Event_Unmarshal (data : list Z) (m : Event) : dec Event := unmarshal Event_field (fun _ m => m) data m.

Definition LeasePB_Size (m : LeasePB) : Z := size3_varint (lpbID m) + size3_varint (lpbTTL m).

Definition LeasePB_MarshalTo (m : LeasePB) : list Z := put3_varint 8 (lpbID m) ++ put3_varint 16 (lpbTTL m).

Definition LeasePB_Marshal (m : LeasePB) : outcome (list Z) := marshal (LeasePB_Size m) (LeasePB_MarshalTo m).

Definition LeasePB_field (fieldNum w : Z) (data : list Z) (i : Z) (m : LeasePB) : dec (option (LeasePB * Z)) :=
  if fieldNum =? 1 then case_varint i64 (fun v => m <| lpbID := v |>) w data i else
  if fieldNum =? 2 then case_varint i64 (fun v => m <| lpbTTL := v |>) w data i else DOk None.

Definition LeasePB_Unmarshal (data : list Z) (m : LeasePB) : dec LeasePB :=
  unmarshal LeasePB_field (fun _ m => m) data m.

(** ** Round trips *)

Definition is_i64 (z : Z) : Prop := -9223372036854775808 <= z < 9223372036854775808.

Definition KeyValue_wf (m : KeyValue) : Prop :=
  is_i64 (kvCreateRevision m) /\ is_i64 (kvModRevision m) /\ is_i64 (kvVersion m) /\ is_i64 (kvLease m).

Definition LeasePB_wf (m : LeasePB) : Prop := is_i64 (lpbID m) /\ is_i64 (lpbTTL m).

Definition Event_wf (m : Event) : Prop :=
  (is_i32 (EventType_num (evType m)) /\ EventType_of (EventType_num (evType m)) = evType m) /\
  match evKv m with Some kv => KeyValue_wf kv | None => True end.

Lemma KeyValue_len m : KeyValue_wf m -> zlen (KeyValue_MarshalTo m) = KeyValue_Size m.
Proof.
  intros _. unfold KeyValue_MarshalTo, KeyValue_Size.
  rewrite !length_app, !Nat2Z.inj_add, !put3_bytes_len, !put3_varint_len. lia.
Qed.

Lemma LeasePB_len m : LeasePB_wf m -> zlen (LeasePB_MarshalTo m) = LeasePB_Size m.
Proof.
  intros _. unfold LeasePB_MarshalTo, LeasePB_Size. rewrite length_app, Nat2Z.inj_add, !put3_varint_len. lia.
Qed.

Lemma Event_len m : Event_wf m -> zlen (Event_MarshalTo m) = Event_Size m.
Proof.
  intros [_ Hk]. unfold Event_MarshalTo, Event_Size. rewrite length_app, Nat2Z.inj_add, put3_varint_len. f_equal.
  destruct (evKv m) as [kv|]; [|done]. rewrite <- KeyValue_len by done. apply put_message_len.
Qed.

(** Read the next field of a proto3 message. *)
Ltac settle3 :=
  lazymatch goal with
  | |- decodes _ _ _ ?m _ => let m' := eval cbv -[app EventType_of EventType_num] in m in change m with m'
  end.
Ltac read3_varint :=
  eapply decodes_app;
  [eapply decodes3_varint; [| |vm_compute; reflexivity| | | |intros; reflexivity|reflexivity];
   [lia|reflexivity|lia|eauto with codec|by first [apply i64_u64|apply i32_u64]]|settle3].
Ltac read3_bytes :=
  eapply decodes_app;
  [eapply decodes3_bytes; [| |vm_compute; reflexivity| |intros; reflexivity|reflexivity]; [lia|reflexivity|lia]|settle3].

Lemma KeyValue_decodes m : KeyValue_wf m -> zlen (KeyValue_MarshalTo m) < 9223372036854775808 ->
  KeyValue_Unmarshal (KeyValue_MarshalTo m) KeyValue0 = DOk m.
Proof.
  intros (H1 & H2 & H3 & H4) Hl. apply decodes_unmarshal; [done|].
  destruct m as [k c mo v va l]; simpl in H1, H2, H3, H4. unfold KeyValue_MarshalTo.
  cbn [kvKey kvCreateRevision kvModRevision kvVersion kvValue kvLease]. rewrite <- (app_nil_r (put3_varint 48 l)).
  read3_bytes. do 3 read3_varint. read3_bytes. read3_varint. read_done.
Qed.

Lemma LeasePB_decodes m : LeasePB_wf m -> zlen (LeasePB_MarshalTo m) < 9223372036854775808 ->
  LeasePB_Unmarshal (LeasePB_MarshalTo m) LeasePB0 = DOk m.
Proof.
  intros (H1 & H2) Hl. apply decodes_unmarshal; [done|]. destruct m as [i t]; simpl in H1, H2.
  unfold LeasePB_MarshalTo. cbn [lpbID lpbTTL]. rewrite <- (app_nil_r (put3_varint 16 t)).
  do 2 read3_varint. read_done.
Qed.

Lemma Event_decodes m : Event_wf m -> zlen (Event_MarshalTo m) < 9223372036854775808 ->
  Event_Unmarshal (Event_MarshalTo m) Event0 = DOk m.
Proof.
  intros ((Hr & Ho) & Hk) Hl. apply decodes_unmarshal; [done|]. clear Hl. destruct m as [t o]; simpl in Hr, Ho, Hk.
  unfold Event_MarshalTo. cbn [evType evKv]. read3_varint. rewrite Ho. destruct o as [kv|]; [|read_done].
  rewrite <- KeyValue_len by done. unfold put_message.
  rewrite <- (app_nil_r (_ :: _)). read_message; [by apply KeyValue_decodes|]. read_done.
Qed.

#[export] Program Instance Wire_KeyValue : Wire KeyValue := {|
  wire_zero := KeyValue0; wire_wf := KeyValue_wf; wire_Size := KeyValue_Size;
  wire_Marshal := KeyValue_Marshal; wire_Unmarshal := KeyValue_Unmarshal |}.
Next Obligation. exact (wire_law _ _ _ _ _ KeyValue_len KeyValue_decodes). Qed.

#[export] Program Instance Wire_Event : Wire Event := {|
  wire_zero := Event0; wire_wf := Event_wf; wire_Size := Event_Size;
  wire_Marshal := Event_Marshal; wire_Unmarshal := Event_Unmarshal |}.
Next Obligation. exact (wire_law _ _ _ _ _ Event_len Event_decodes). Qed.

#[export] Program Instance Wire_LeasePB : Wire LeasePB := {|
  wire_zero := LeasePB0; wire_wf := LeasePB_wf; wire_Size := LeasePB_Size;
  wire_Marshal := LeasePB_Marshal; wire_Unmarshal := LeasePB_Unmarshal |}.
Next Obligation. exact (wire_law _ _ _ _ _ LeasePB_len LeasePB_decodes). Qed.
