(* ===== verification/Backend.v ===== *)
(** The batching backend: storage/backend/batch_tx.go and backend.go.

    Buckets are ordered maps (OrderedMap), as bolt promises; opening files,
    bolt's own I/O errors (the code answers them with [log.Fatal]), snapshots
    and defragmentation are left out.  A batch transaction collects changes and
    is committed when its number reaches [batchLimit], when the commit interval
    passes, or on request.  [b_tx] is what the open transaction sees, [b_db] what
    has been committed and survives a crash.  [log.Fatalf] is a panic. *)

From S2P Require Import Prelude OrderedMap.

Section backend.
  Context {M : Type -> Type} {om : OMap M}.

  (** The buckets by name. *)
  Local Abbreviation buckets := (gmap (list Z) (M (list Z))).

Record backend := Backend {
  b_db : buckets;
  b_tx : buckets;
  b_pending : Z;
  b_batchLimit : Z;
  b_commits : Z;
}.
#[global] Instance backend_eta : Eta backend := fun b =>
  Backend (b_db b) (b_tx b) (b_pending b) (b_batchLimit b) (b_commits b).

  Implicit Types (b : backend) (bucketName key endKey value : list Z).

(** [commit(false)] *)
Definition commit b : backend :=
  if b_pending b =? 0 then b else
  b <| b_db := b_tx b |> <| b_commits := b_commits b + 1 |> <| b_pending := 0 |>.

Definition ForceCommit b : backend := commit b.

(** [Unlock] *)
Definition Unlock b : backend :=
  if b_pending b >=? b_batchLimit b then (commit b) <| b_pending := 0 |> else b.

(** A crash loses the open transaction. *)
Definition crash b : backend := b <| b_tx := b_db b |> <| b_pending := 0 |>.

Definition tx_bucket b bucketName : outcome (M (list Z)) :=
  match b_tx b !! bucketName with
  | Some m => Ok m
  | None => Panic "storage: bucket does not exist"
  end.

Definition put_bucket b bucketName (m : M (list Z)) : backend :=
  b <| b_tx := <[bucketName := m]> (b_tx b) |> <| b_pending := b_pending b + 1 |>.

Definition UnsafeCreateBucket b bucketName : backend :=
  match b_tx b !! bucketName with
  | Some _ => b <| b_pending := b_pending b + 1 |>
  | None => put_bucket b bucketName om_empty
  end.

(** [UnsafePut] and [UnsafeSeqPut] differ in the fill percent of the pages. *)
Definition unsafePut b bucketName key value : outcome backend :=
  let! m := tx_bucket b bucketName in
  Ok (put_bucket b bucketName (om_put key value m)).

(** The cursor loop of [UnsafeRange]; the keys and values come in pairs. *)
Fixpoint cursor_loop (items : list (list Z * list Z)) (endKey : list Z) (limit : Z)
    (kvs : list (list Z * list Z)) : list (list Z * list Z) :=
  match items with
  | [] => kvs
  | (ck, cv) :: items' =>
      if bytes_ltb ck endKey then
        let kvs := kvs ++ [(ck, cv)] in
        if (limit >? 0) && (limit =? zlen kvs) then kvs else cursor_loop items' endKey limit kvs
      else kvs
  end.

Definition UnsafeRange b bucketName key endKey (limit : Z) : outcome (list (list Z * list Z)) :=
  let! m := tx_bucket b bucketName in
  if zlen endKey =? 0 then
    Ok (match om_get key m with None => [] | Some v => [(key, v)] end)
  else Ok (cursor_loop (om_seek key m) endKey limit []).

Definition UnsafeDelete b bucketName key : outcome backend :=
  let! m := tx_bucket b bucketName in
  Ok (put_bucket b bucketName (om_del key m)).

(** ** What a range reads *)

Lemma cursor_loop_app items endKey limit kvs :
  exists l, cursor_loop items endKey limit kvs = kvs ++ l /\ l `prefix_of` items.
Proof.
  revert kvs. induction items as [|[ck cv] items IH]; intros kvs; simpl.
  { exists []. by rewrite app_nil_r. }
  destruct (bytes_ltb ck endKey); [|exists []; rewrite app_nil_r; split; [done|apply prefix_nil]].
  zif.
  - zif; [exists [(ck, cv)]; split; [done|apply prefix_cons, prefix_nil]|].
    destruct (IH (kvs ++ [(ck, cv)])) as (l & -> & Hl). exists ((ck, cv) :: l).
    rewrite <- (assoc_L (++)). split; [done|by apply prefix_cons].
  - destruct (IH (kvs ++ [(ck, cv)])) as (l & -> & Hl). exists ((ck, cv) :: l).
    rewrite <- (assoc_L (++)). split; [done|by apply prefix_cons].
Qed.

(** Without a limit the loop reads the keys below [endKey]. *)
Lemma cursor_loop_all items endKey kvs : StronglySorted bytes_lt items.*1 ->
  cursor_loop items endKey 0 kvs = kvs ++ filter (fun p => bytes_lt p.1 endKey) items.
Proof.
  revert kvs. induction items as [|[ck cv] items IH]; intros kvs Hs; simpl.
  { by rewrite app_nil_r. }
  simpl in Hs. apply StronglySorted_inv in Hs as [Hs HF].
  rewrite filter_cons. simpl. destruct (bytes_ltb_reflect ck endKey) as [Hlt|Hlt].
  - rewrite decide_True by done. rewrite IH by done. by rewrite <- (assoc_L (++)).
  - rewrite decide_False by done. rewrite <- (app_nil_r kvs) at 1. f_equal. symmetry.
    clear IH. induction items as [|[k v] items IH2]; [done|]. simpl in *.
    apply StronglySorted_inv in Hs as [Hs _]. apply Forall_cons in HF as [Hk HF].
    rewrite filter_cons, decide_False; [by apply IH2|]. simpl. intros Hk'. destruct Hlt. by transitivity k.
Qed.
End backend.

Arguments backend : clear implicits.

Lemma commit_tx {M} (b : backend M) : b_tx (commit b) = b_tx b.
Proof. unfold commit. by destruct (b_pending b =? 0). Qed.

Lemma Unlock_tx {M} (b : backend M) : b_tx (Unlock b) = b_tx b.
Proof. unfold Unlock. destruct (_ >=? _); [|done]. simpl. apply commit_tx. Qed.

(** ** What is on disk

    A commit copies the open transaction to disk.  Without pending changes the
    two agree. *)
Section disk.
  Context {M : Type -> Type} {om : OMap M}.
  Implicit Types (b : backend M).

Definition b_ok b : Prop := 0 <= b_pending b /\ (b_pending b = 0 -> b_db b = b_tx b).

(** Changes of the open transaction. *)
Definition writes b b' : Prop := b_db b' = b_db b /\ (b_ok b -> b_ok b') /\
  forall name, is_Some (b_tx b !! name) -> is_Some (b_tx b' !! name).

#[global] Instance writes_preorder : PreOrder writes.
Proof. split; [by split|]. intros b1 b2 b3 (? & ? & ?) (? & ? & ?). split; [congruence|auto]. Qed.

Lemma put_bucket_writes b name m : writes b (put_bucket b name m).
Proof.
  split; [done|]. split; [intros [? _]; split; simpl; lia|]. intros name' Hb. unfold put_bucket. cbn [b_tx upd].
  destruct (decide (name = name')) as [<-|]; [by rewrite lookup_insert_eq|by rewrite lookup_insert_ne].
Qed.

Lemma unsafePut_writes b name k v b' : unsafePut b name k v = Ok b' -> writes b b'.
Proof. intros (m & _ & [= <-])%bind_Ok_inv. apply put_bucket_writes. Qed.

Lemma UnsafeDelete_writes b name k b' : UnsafeDelete b name k = Ok b' -> writes b b'.
Proof. intros (m & _ & [= <-])%bind_Ok_inv. apply put_bucket_writes. Qed.

Lemma ForceCommit_disk b : b_ok b -> b_ok (ForceCommit b) /\ b_db (ForceCommit b) = b_tx (ForceCommit b).
Proof.
  intros [H0 Hb]. unfold ForceCommit, commit. zif; [|done]. split; [done|auto].
Qed.

Lemma Unlock_disk b : b_ok b ->
  b_ok (Unlock b) /\ (b_db (Unlock b) = b_db b \/ b_db (Unlock b) = b_tx (Unlock b)).
Proof.
  intros Hb. unfold Unlock. zif; [|auto]. destruct (ForceCommit_disk b Hb) as [_ Hd]. unfold ForceCommit in Hd.
  split; [split; [done|]; intros _; exact Hd|by right].
Qed.

(** What an operation does: it changes the open transaction, and may commit it at
    the end. *)
Definition flushes b b' : Prop := b_ok b -> b_ok b' /\ (b_db b' = b_db b \/ b_db b' = b_tx b').

Lemma writes_flushes b b' : writes b b' -> flushes b (Unlock b').
Proof.
  intros (Hd & Hok & _) Hb. destruct (Unlock_disk b' (Hok Hb)) as [? [E|E]]; (split; [done|]); [left; congruence|by right].
Qed.
End disk.
