(* ===== verification/Lessor.v ===== *)
(** Leases: lease/lessor.go.

    Times are nanoseconds ([Z]); the clock is an argument of the operations that
    read it.  [forever], a time beyond all clocks, is [None].  [Revoke] deletes
    the attached keys through the [RangeDeleter] of the lessor, a parameter here
    ([le_Revoke]); KVStore has it with the store as the deleter.  The
    goroutine of [runLoop] is one round, [runLoop_round].  Items of a lease are
    keys ([LeaseItem] has one field). *)

From S2P Require Import Prelude RaftPB Proto RaftCodec OrderedMap StorePB Backend.

Definition NoLease : Z := 0.
Definition minLeaseTTL : Z := 5.
Definition second : Z := 1000000000.

Inductive lease_error := ErrNotPrimary | ErrLeaseNotFound | ErrLeaseExists.
#[global] Instance lease_error_eq_dec : EqDecision lease_error.
Proof. solve_decision. Defined.

Record Lease := mkLease {
  l_ID : Z;
  l_TTL : Z;
  l_itemSet : gset (list Z);
  l_expiry : option Z;
}.
#[global] Instance Lease_eta : Eta Lease := fun l => mkLease (l_ID l) (l_TTL l) (l_itemSet l) (l_expiry l).

Record lessor := mkLessor {
  le_primary : bool;
  le_leaseMap : gmap Z Lease;
  le_expiredC : list (list Lease);
}.
#[global] Instance lessor_eta : Eta lessor := fun le => mkLessor (le_primary le) (le_leaseMap le) (le_expiredC le).

(** ** Leases *)

(** [time.Duration] is an [int64]: the sum and the product wrap around. *)
Definition refresh (l : Lease) (now extend : Z) : Lease :=
  let l := if l_TTL l <? minLeaseTTL then l <| l_TTL := minLeaseTTL |> else l in
  l <| l_expiry := Some (now + i64 (extend + i64 (second * l_TTL l))) |>.

Definition forever (l : Lease) : Lease :=
  let l := if l_TTL l <? minLeaseTTL then l <| l_TTL := minLeaseTTL |> else l in
  l <| l_expiry := None |>.

Definition int64ToBytes (n : Z) : list Z := PutUint64 (u64 n).

(** [l.expiry.Sub(now) <= 0] *)
Definition expired (l : Lease) (now : Z) : bool :=
  match l_expiry l with Some t => t - now <=? 0 | None => false end.

Section lessor.
  Context {M : Type -> Type} {om : OMap M}.
  Implicit Types (le : lessor) (b : backend M) (id : Z).

(** [[]byte("lease")] *)
Definition leaseBucketName : list Z := [108; 101; 97; 115; 101].

Definition persistTo (l : Lease) b : outcome (backend M) :=
  let! val := LeasePB_Marshal (mkLeasePB (l_ID l) (l_TTL l)) in
  let! b := unsafePut b leaseBucketName (int64ToBytes (l_ID l)) val in
  Ok (Unlock b).

Definition removeFrom (l : Lease) b : outcome (backend M) :=
  let! b := UnsafeDelete b leaseBucketName (int64ToBytes (l_ID l)) in
  Ok (Unlock b).

(** ** Methods of [lessor] *)

Definition Grant le b (now id ttl : Z) : outcome (lessor * backend M * (lease_error + Lease)) :=
  if id =? NoLease then Ok (le, b, inl ErrLeaseNotFound) else
  let l := mkLease id ttl ∅ (Some 0) in
  match le_leaseMap le !! id with
  | Some _ => Ok (le, b, inl ErrLeaseExists)
  | None =>
      let l := if le_primary le then refresh l now 0 else forever l in
      let! b := persistTo l b in
      Ok (le <| le_leaseMap := <[id := l]> (le_leaseMap le) |>, b, inr l)
  end.

Definition Renew le (now id : Z) : lessor * (lease_error + Z) :=
  if negb (le_primary le) then (le, inl ErrNotPrimary) else
  match le_leaseMap le !! id with
  | None => (le, inl ErrLeaseNotFound)
  | Some l =>
      let l := refresh l now 0 in
      (le <| le_leaseMap := <[id := l]> (le_leaseMap le) |>, inr (l_TTL l))
  end.

Definition Lookup le id : option Lease := le_leaseMap le !! id.

Definition Promote le (now extend : Z) : lessor :=
  le <| le_primary := true |> <| le_leaseMap := (fun l => refresh l now extend) <$> le_leaseMap le |>.

Definition Demote le : lessor :=
  le <| le_leaseMap := forever <$> le_leaseMap le |> <| le_primary := false |>.

Definition Attach le id (items : list (list Z)) : lessor * option lease_error :=
  match le_leaseMap le !! id with
  | None => (le, Some ErrLeaseNotFound)
  | Some l =>
      let l := l <| l_itemSet := list_to_set items ∪ l_itemSet l |> in
      (le <| le_leaseMap := <[id := l]> (le_leaseMap le) |>, None)
  end.

Definition Detach le id (items : list (list Z)) : lessor * option lease_error :=
  match le_leaseMap le !! id with
  | None => (le, Some ErrLeaseNotFound)
  | Some l =>
      let l := l <| l_itemSet := l_itemSet l ∖ list_to_set items |> in
      (le <| le_leaseMap := <[id := l]> (le_leaseMap le) |>, None)
  end.

(** The order of the leases found is that of a Go map. *)
Definition findExpiredLeases le (now : Z) : list Lease :=
  filter (fun l => expired l now = true) (map_to_list (le_leaseMap le)).*2.

(** One round of [runLoop]: the buffered channel holds sixteen lists. *)
Definition runLoop_round le (now : Z) : lessor :=
  let ls := if le_primary le then findExpiredLeases le now else [] in
  if negb (zlen ls =? 0) then
    if zlen (le_expiredC le) <? 16 then le <| le_expiredC := le_expiredC le ++ [ls] |> else le
  else le.

Definition recover_lease (leaseMap : gmap Z Lease) (v : list Z) : outcome (gmap Z Lease) :=
  match LeasePB_Unmarshal v LeasePB0 with
  | DOk lpb => Ok (<[lpbID lpb := mkLease (lpbID lpb) (lpbTTL lpb) ∅ None]> leaseMap)
  | _ => Panic "failed to unmarshal lease proto item"
  end.

Definition initAndRecover le b : outcome (lessor * backend M) :=
  let b := UnsafeCreateBucket b leaseBucketName in
  let! vs := UnsafeRange b leaseBucketName (int64ToBytes 0) (int64ToBytes 9223372036854775807) 0 in
  let! m := foldM recover_lease vs.*2 (le_leaseMap le) in
  Ok (le <| le_leaseMap := m |>, ForceCommit (Unlock b)).

Definition newLessor b : outcome (lessor * backend M) :=
  initAndRecover (mkLessor false ∅ []) b.

Definition Recover le b : outcome (lessor * backend M) :=
  initAndRecover (le <| le_leaseMap := ∅ |>) b.

(** [le.rd]: nil, or the method of the interface.  [X] is the state behind the
    interface; while it runs the lessor is not locked.  The number is what the
    deleter draws for the call. *)
Definition range_deleter (X : Type) : Type :=
  option (Z * list Z -> X * lessor * backend M -> outcome (X * lessor * backend M)).

(** [items] is the order in which Go ranges over the item set of the lease. *)
Definition le_Revoke {X} (rd : range_deleter X) (x : X) le b id (items : list (Z * list Z))
  : outcome (X * lessor * backend M * option lease_error) :=
  match le_leaseMap le !! id with
  | None => Ok (x, le, b, Some ErrLeaseNotFound)
  | Some l =>
      let! '(x, le, b) := match rd with
                          | Some DeleteRange => foldM (fun st it => DeleteRange it st) items (x, le, b)
                          | None => Ok (x, le, b)
                          end in
      let! b := removeFrom l b in
      Ok (x, le <| le_leaseMap := delete (l_ID l) (le_leaseMap le) |>, b, None)
  end.

(** What the lessor relies on: deleting keys touches leases only by detaching
    keys from them, and leaves their records alone. *)
Definition bare (l : Lease) : Lease := l <| l_itemSet := ∅ |>.
Definition same_leases le le' : Prop :=
  le_primary le' = le_primary le /\ forall id, bare <$> le_leaseMap le' !! id = bare <$> le_leaseMap le !! id.
Definition keeps_leases {X} (rd : range_deleter X) : Prop :=
  forall DeleteRange it x le b x' le' b', rd = Some DeleteRange -> DeleteRange it (x, le, b) = Ok (x', le', b') ->
  same_leases le le' /\ b_tx b' !! leaseBucketName = b_tx b !! leaseBucketName.

Lemma delete_items_keep {X} (rd : range_deleter X) DeleteRange items x le b x' le' b' :
  keeps_leases rd -> rd = Some DeleteRange -> foldM (fun st it => DeleteRange it st) items (x, le, b) = Ok (x', le', b') ->
  same_leases le le' /\ b_tx b' !! leaseBucketName = b_tx b !! leaseBucketName.
Proof.
  intros Hrd E. revert x le b. induction items as [|it items IH]; intros x le b; cbn [foldM]; [by intros [= <- <- <-]|].
  intros ([[x1 le1] b1] & H1 & H2)%bind_Ok_inv. destruct (Hrd _ _ _ _ _ _ _ _ E H1) as [[Hp1 Hl1] Hb1].
  destruct (IH _ _ _ H2) as [[Hp2 Hl2] Hb2]. split; [split; [congruence|]|congruence]. intros id. by rewrite Hl2, Hl1.
Qed.

(** What [Revoke] does to the lessor and to the records of leases. *)
Lemma le_Revoke_inv {X} (rd : range_deleter X) x le b id items x' le' b' e :
  keeps_leases rd -> le_Revoke rd x le b id items = Ok (x', le', b', e) ->
  le' = le /\ b' = b \/
  exists l le1 b1, le_leaseMap le !! id = Some l /\ same_leases le le1 /\
    b_tx b1 !! leaseBucketName = b_tx b !! leaseBucketName /\ removeFrom l b1 = Ok b' /\
    le' = le1 <| le_leaseMap := delete (l_ID l) (le_leaseMap le1) |>.
Proof.
  intros Hrd. unfold le_Revoke. destruct (le_leaseMap le !! id) as [l|]; [|intros [= <- <- <- <-]; by left].
  intros ([[x1 le1] b1] & H1 & H2)%bind_Ok_inv. apply bind_Ok_inv in H2 as (b2 & H2 & [= <- <- <- <-]).
  right. exists l, le1, b1. assert (same_leases le le1 /\ b_tx b1 !! leaseBucketName = b_tx b !! leaseBucketName) as [? ?]; [|done].
  destruct rd as [DeleteRange|] eqn:E; [by eapply (delete_items_keep (Some DeleteRange))|by injection H1 as <- <- <-].
Qed.
End lessor.

(** ** Leases live as long as their TTL *)

(** The operations of a lessor, with the time they run at.  [Recover] is given
    another backend, and a range deleter in another state. *)
Inductive lessor_op (M : Type -> Type) (X : Type) :=
| OGrant (id ttl : Z) | ORenew (id : Z) | OPromote (extend : Z) | ODemote
| OAttach (id : Z) (items : list (list Z)) | ODetach (id : Z) (items : list (list Z)) | ORound
| ORevoke (id : Z) (items : list (Z * list Z)) | ORecover (x : X) (b : backend M).
Arguments OGrant {M X}. Arguments ORenew {M X}. Arguments OPromote {M X}. Arguments ODemote {M X}.
Arguments OAttach {M X}. Arguments ODetach {M X}. Arguments ORound {M X}. Arguments ORevoke {M X}. Arguments ORecover {M X}.

Section lives.
  Context {M : Type -> Type} {om : OMap M} {X : Type} (rd : @range_deleter M X) (Hrd : keeps_leases rd).

Definition lessor_step (st : X * lessor * backend M) (now : Z) (op : lessor_op M X) : outcome (X * lessor * backend M) :=
  let '(x, le, b) := st in
  match op with
  | OGrant id ttl => let! '(le, b, _) := Grant le b now id ttl in Ok (x, le, b)
  | ORenew id => Ok (x, (Renew le now id).1, b)
  | OPromote extend => Ok (x, Promote le now extend, b)
  | ODemote => Ok (x, Demote le, b)
  | OAttach id items => Ok (x, (Attach le id items).1, b)
  | ODetach id items => Ok (x, (Detach le id items).1, b)
  | ORound => Ok (x, runLoop_round le now, b)
  | ORevoke id items => let! '(x, le, b, _) := le_Revoke rd x le b id items in Ok (x, le, b)
  | ORecover x b => let! '(le, b) := Recover le b in Ok (x, le, b)
  end.

Fixpoint lessor_run (st : X * lessor * backend M) (ops : list (Z * lessor_op M X)) : outcome (X * lessor * backend M) :=
  match ops with
  | [] => Ok st
  | (now, op) :: ops' => let! st := lessor_step st now op in lessor_run st ops'
  end.

(** Lease [id] has TTL [ttl] and does not expire before [deadline]. *)
Definition lives (id ttl deadline : Z) (le : lessor) : Prop :=
  exists l, le_leaseMap le !! id = Some l /\ l_ID l = id /\ l_TTL l = ttl
  /\ match l_expiry l with Some t => deadline <= t | None => True end.

(** Times do not go back, a promotion extends the leases by a bounded duration,
    the lease [id] is not revoked and the lessor does not move to another
    backend. *)
Definition later (id t0 bound : Z) (p : Z * lessor_op M X) : Prop :=
  t0 <= p.1 /\ match p.2 with
               | OPromote extend => 0 <= extend < bound
               | ORevoke id' _ => id' <> id
               | ORecover _ _ => False
               | _ => True
               end.

Lemma refresh_lives l now extend t0 : 5 <= l_TTL l -> t0 <= now -> 0 <= extend ->
  extend + second * l_TTL l < 9223372036854775808 ->
  l_ID (refresh l now extend) = l_ID l /\ l_TTL (refresh l now extend) = l_TTL l
  /\ match l_expiry (refresh l now extend) with Some t => t0 + second * l_TTL l <= t | None => True end.
Proof.
  intros Ht Hn He Hb. unfold refresh, minLeaseTTL, second in *. zif; [lia|]. simpl.
  rewrite (i64_small (1000000000 * _)) by lia. rewrite i64_small by lia. lia.
Qed.

Lemma lives_update id ttl deadline le id' l l' : lives id ttl deadline le ->
  le_leaseMap le !! id' = Some l ->
  (id' = id -> l_ID l' = l_ID l /\ l_TTL l' = l_TTL l /\
     (match l_expiry l with Some t => deadline <= t | None => True end ->
      match l_expiry l' with Some t => deadline <= t | None => True end)) ->
  lives id ttl deadline (le <| le_leaseMap := <[id' := l']> (le_leaseMap le) |>).
Proof.
  intros (l0 & Hl & Hi & Ht & He) Hl' Hsame. unfold lives. simpl.
  destruct (decide (id' = id)) as [->|Hne].
  - destruct (Hsame eq_refl) as (H1 & H2 & H3). simplify_eq. exists l'. rewrite lookup_insert_eq.
    split; [done|]. split; [congruence|]. split; [congruence|by apply H3].
  - exists l0. by rewrite lookup_insert_ne.
Qed.

(** Leases are filed under their ID and have at least the minimal TTL. *)
Definition lessor_ok (le : lessor) : Prop :=
  forall id l, le_leaseMap le !! id = Some l -> l_ID l = id /\ 5 <= l_TTL l.

Lemma refresh_ok l now extend : l_ID (refresh l now extend) = l_ID l /\ 5 <= l_TTL (refresh l now extend).
Proof. unfold refresh, minLeaseTTL. zif; simpl; lia. Qed.

Lemma forever_ok l : l_ID (forever l) = l_ID l /\ 5 <= l_TTL (forever l).
Proof. unfold forever, minLeaseTTL. zif; simpl; lia. Qed.

Lemma TTL_kept l now extend : 5 <= l_TTL l -> l_TTL (refresh l now extend) = l_TTL l /\ l_TTL (forever l) = l_TTL l.
Proof. intros Ht. unfold refresh, forever, minLeaseTTL. zif; [lia|done]. Qed.

Lemma lessor_ok_insert le id l : lessor_ok le -> l_ID l = id -> 5 <= l_TTL l ->
  lessor_ok (le <| le_leaseMap := <[id := l]> (le_leaseMap le) |>).
Proof.
  intros Hok Hi Ht id' l'. simpl. rewrite lookup_insert. destruct (decide (id = id')) as [<-|]; [|apply Hok].
  by intros [= <-].
Qed.

Lemma lessor_ok_fmap le f : lessor_ok le -> (forall l, l_ID (f l) = l_ID l /\ 5 <= l_TTL (f l)) ->
  lessor_ok (le <| le_leaseMap := f <$> le_leaseMap le |>).
Proof.
  intros Hok Hf id l. simpl. rewrite lookup_fmap. destruct (le_leaseMap le !! id) as [l0|] eqn:E; [|done].
  intros [= <-]. destruct (Hok _ _ E), (Hf l0). split; [congruence|done].
Qed.

Lemma lessor_ok_same le le' : lessor_ok le -> same_leases le le' -> lessor_ok le'.
Proof using.
  intros Hok [_ Hs] id l Hl. specialize (Hs id). rewrite Hl in Hs.
  destruct (le_leaseMap le !! id) as [l0|] eqn:E; [|done]. injection Hs as E1 E2 _. rewrite E1, E2. by apply Hok.
Qed.

Lemma lessor_ok_delete le id : lessor_ok le -> lessor_ok (le <| le_leaseMap := delete id (le_leaseMap le) |>).
Proof using. intros Hok id' l. simpl. intros [_ H]%lookup_delete_Some. by apply Hok. Qed.

Lemma lives_same id ttl deadline le le' : lives id ttl deadline le -> same_leases le le' -> lives id ttl deadline le'.
Proof using.
  intros (l & Hl & Hi & Ht & He) [_ Hs]. specialize (Hs id). rewrite Hl in Hs. unfold lives.
  destruct (le_leaseMap le' !! id) as [l'|]; [|done]. injection Hs as E1 E2 E3. exists l'. by rewrite E1, E2, E3.
Qed.

Lemma lives_step id ttl t0 bound x le b now op x' le' b' :
  5 <= ttl -> bound + second * ttl < 9223372036854775808 -> 0 <= bound -> later id t0 bound (now, op) ->
  lessor_ok le -> lives id ttl (t0 + second * ttl) le -> lessor_step (x, le, b) now op = Ok (x', le', b') ->
  lives id ttl (t0 + second * ttl) le'.
Proof using Hrd.
  intros H5 Hb Hb0 [Hn Hop] Hok Hl Hs. pose proof Hl as (l0 & Hg & Hi & Ht & He). simpl in Hn, Hop.
  destruct op as [id' ttl'|id'|extend| |id' items|id' items| |id' items|x1 b1]; simpl in Hs; [..|done].
  - unfold Grant in Hs. destruct (id' =? NoLease); [gosimpl in Hs; by simplify_eq|].
    destruct (le_leaseMap le !! id') eqn:E; [gosimpl in Hs; by simplify_eq|].
    apply bind_Ok_inv in Hs as ([[le1 b1] r] & Hs & ?). apply bind_Ok_inv in Hs as (b2 & _ & ?). simplify_eq.
    exists l0. simpl. rewrite lookup_insert_ne by congruence. done.
  - unfold Renew in Hs. destruct (le_primary le); [|by simplify_eq]. simpl in Hs.
    destruct (le_leaseMap le !! id') as [l|] eqn:E; [|by simplify_eq]. simplify_eq. simpl.
    eapply lives_update; [done|done|]. intros ->. simplify_eq.
    destruct (refresh_lives l now 0 t0) as (? & ? & ?); [lia..|]. done.
  - injection Hs as <- <- <-. exists (refresh l0 now extend).
    split; [change (((fun l => refresh l now extend) <$> le_leaseMap le) !! id = Some (refresh l0 now extend));
            by rewrite lookup_fmap, Hg|].
    destruct (refresh_lives l0 now extend t0) as (? & ? & ?); [lia..|]. split; [congruence|]. split; [congruence|].
    by rewrite <- Ht.
  - injection Hs as <- <- <-. exists (forever l0). simpl. rewrite lookup_fmap, Hg. split; [done|].
    unfold forever, minLeaseTTL. zif; [lia|done].
  - unfold Attach in Hs. destruct (le_leaseMap le !! id') as [l|] eqn:E; simplify_eq; [|done].
    by eapply lives_update.
  - unfold Detach in Hs. destruct (le_leaseMap le !! id') as [l|] eqn:E; simplify_eq; [|done].
    by eapply lives_update.
  - simplify_eq. unfold runLoop_round. repeat (destruct (negb _) || destruct (_ <? _)); done.
  - apply bind_Ok_inv in Hs as ([[[x1 le1] b1] e] & Hs & E). injection E as -> -> ->.
    apply le_Revoke_inv in Hs as [[-> _]|(l & le1 & b1 & Hl1 & Hsame & _ & _ & ->)]; [done| |done].
    destruct (lives_same _ _ _ _ _ Hl Hsame) as (l2 & Hl2 & ? & ? & ?). exists l2. split; [|done]. simpl.
    rewrite lookup_delete_ne; [done|]. destruct (Hok _ _ Hl1). congruence.
Qed.

Lemma lessor_ok_step x le b now op x' le' b' : lessor_ok le ->
  match op with ORecover _ _ => False | _ => True end ->
  lessor_step (x, le, b) now op = Ok (x', le', b') -> lessor_ok le'.
Proof using Hrd.
  intros Hok Hop Hs. destruct op as [id' ttl'|id'|extend| |id' items|id' items| |id' items|x1 b1]; simpl in Hs; [..|done].
  - unfold Grant in Hs. destruct (id' =? NoLease); [gosimpl in Hs; by simplify_eq|].
    destruct (le_leaseMap le !! id') eqn:E; [gosimpl in Hs; by simplify_eq|].
    apply bind_Ok_inv in Hs as ([[le1 b1] r] & Hs & ?). apply bind_Ok_inv in Hs as (b2 & _ & ?). simplify_eq.
    apply lessor_ok_insert; [done|..]; destruct (le_primary le); (apply refresh_ok || apply forever_ok).
  - unfold Renew in Hs. destruct (le_primary le); [|by simplify_eq]. simpl in Hs.
    destruct (le_leaseMap le !! id') as [l|] eqn:E; simplify_eq; [|done].
    apply lessor_ok_insert; [done|..]; destruct (Hok _ _ E), (refresh_ok l now 0); congruence.
  - simplify_eq. apply (lessor_ok_fmap le); [done|]. intros. apply refresh_ok.
  - simplify_eq. apply (lessor_ok_fmap le); [done|]. intros. apply forever_ok.
  - unfold Attach in Hs. destruct (le_leaseMap le !! id') as [l|] eqn:E; simplify_eq; [|done].
    by apply lessor_ok_insert; [done|..]; destruct (Hok _ _ E).
  - unfold Detach in Hs. destruct (le_leaseMap le !! id') as [l|] eqn:E; simplify_eq; [|done].
    by apply lessor_ok_insert; [done|..]; destruct (Hok _ _ E).
  - simplify_eq. unfold runLoop_round. repeat (destruct (negb _) || destruct (_ <? _)); done.
  - apply bind_Ok_inv in Hs as ([[[x1 le1] b1] e] & Hs & E). injection E as -> -> ->.
    apply le_Revoke_inv in Hs as [[-> _]|(l & le1 & b1 & Hl1 & Hsame & _ & _ & ->)]; [done| |done].
    apply lessor_ok_delete. by eapply lessor_ok_same.
Qed.

Lemma lives_run id ttl t0 bound x le b ops x' le' b' :
  5 <= ttl -> bound + second * ttl < 9223372036854775808 -> 0 <= bound -> Forall (later id t0 bound) ops ->
  lessor_ok le -> lives id ttl (t0 + second * ttl) le -> lessor_run (x, le, b) ops = Ok (x', le', b') ->
  lessor_ok le' /\ lives id ttl (t0 + second * ttl) le'.
Proof using Hrd.
  intros H5 Hb Hb0 Hops. revert x le b. induction Hops as [|[now op] ops Hop Hops IH]; intros x le b Hok Hl Hr; simpl in Hr.
  { by simplify_eq. }
  apply bind_Ok_inv in Hr as ([[x1 le1] b1] & Hs & Hr). eapply IH; [|by eapply lives_step|done].
  eapply lessor_ok_step; [done| |done]. destruct op; try done. by destruct Hop.
Qed.

(** At [t0] the lease [id] is granted with the TTL [ttl], at least the minimal
    one, or it is renewed. *)
Inductive started (x : X) (le : lessor) (b : backend M) (t0 id ttl : Z) (le1 : lessor) (b1 : backend M) : Prop :=
| start_grant asked l : Grant le b t0 id asked = Ok (le1, b1, inr l) -> ttl = Z.max 5 asked -> started x le b t0 id ttl le1 b1
| start_renew : Renew le t0 id = (le1, inr ttl) -> b1 = b -> started x le b t0 id ttl le1 b1.

Lemma started_lives x le b t0 id ttl le1 b1 : lessor_ok le -> second * ttl < 9223372036854775808 ->
  started x le b t0 id ttl le1 b1 -> 5 <= ttl /\ lessor_ok le1 /\ lives id ttl (t0 + second * ttl) le1.
Proof using Hrd.
  intros Hok Hb [asked l Hg ->|Hr ->].
  - split; [lia|]. split.
    { apply (lessor_ok_step x le b t0 (OGrant id asked) x le1 b1); [done|done|]. simpl. by rewrite Hg. }
    unfold Grant in Hg. destruct (id =? NoLease); [by simplify_eq|].
    destruct (le_leaseMap le !! id) eqn:E; [by simplify_eq|].
    apply bind_Ok_inv in Hg as (b3 & _ & ?). simplify_eq. eexists. simpl. rewrite lookup_insert_eq.
    split; [done|]. unfold refresh, forever, minLeaseTTL, second in *. destruct (le_primary le); simpl.
    + zif; simpl; rewrite ?(i64_small (1000000000 * _)) by lia; rewrite i64_small by lia; lia.
    + zif; simpl; lia.
  - assert (lessor_ok le1) as Hok1.
    { apply (lessor_ok_step x le b t0 (ORenew id) x le1 b); [done|done|]. simpl. by rewrite Hr. }
    unfold Renew in Hr. destruct (negb (le_primary le)); [done|]. destruct (le_leaseMap le !! id) as [l|] eqn:E; [|done].
    destruct (Hok _ _ E) as [Hid H5]. destruct (TTL_kept l t0 0 H5) as [Ek _].
    injection Hr as <- Et. change (l_TTL (refresh l t0 0) = ttl) in Et. rewrite Ek in Et. subst ttl. split; [done|]. split; [done|]. eexists. simpl. rewrite lookup_insert_eq. split; [done|].
    destruct (refresh_lives l t0 0 t0) as (? & ? & ?); [lia..|]. split; [congruence|done].
Qed.

(** C24. A lease lives at least its TTL after it was granted, by a primary
    lessor or not, or renewed.  The TTL is the one asked for, at least five
    seconds; with the longest extension of a promotion it must fit a
    [time.Duration].  Whatever the lessor does next (other grants and renewals,
    promotions, demotions, attaching and detaching keys, rounds of the expiry
    loop, revoking other leases with any range deleter that touches leases only
    by detaching keys), as long as this lease is not revoked and the lessor is
    not given another backend: until its TTL has passed the lease is there and
    not among the expired ones. *)
Theorem lease_lives x le b t0 id ttl le1 b1 bound ops x2 le2 b2 now :
  lessor_ok le -> started x le b t0 id ttl le1 b1 ->
  0 <= bound -> bound + second * ttl < 9223372036854775808 ->
  Forall (later id t0 bound) ops -> lessor_run (x, le1, b1) ops = Ok (x2, le2, b2) ->
  now < t0 + second * ttl ->
  le_leaseMap le2 !! id <> None /\ Forall (fun l => l_ID l <> id) (findExpiredLeases le2 now).
Proof using Hrd.
  intros Hok Hst Hb0 Hb Hops Hr Hnow. destruct (started_lives x le b t0 id ttl le1 b1 Hok ltac:(lia) Hst) as (H5 & Hok1 & Hl1).
  destruct (lives_run id ttl t0 bound _ _ _ _ _ _ _ H5 Hb Hb0 Hops Hok1 Hl1 Hr) as [Hok2 (l2 & Hl2 & Hi & Ht & He)].
  split; [by rewrite Hl2|]. apply Forall_forall.
  intros l' [Hx ([id' l''] & -> & Hin%elem_of_map_to_list)%list_elem_of_fmap]%list_elem_of_filter.
  intros Hid. simpl in *. destruct (Hok2 _ _ Hin) as [Hid' _].
  assert (id' = id) as -> by congruence. simplify_eq. unfold expired in Hx.
  destruct (l_expiry l2); [|done]. zcase in Hx; [lia|done].
Qed.
End lives.

(** A primary lessor grants a lease with a TTL beyond the range of
    [time.Duration] that has expired when it is granted: the product of the TTL
    and a second wraps around to a negative duration. *)
Theorem Grant_ttl_overflow {M} {om : OMap M} (le le1 : lessor) (b b1 : backend M) (l : Lease) (now id ttl : Z) :
  le_primary le = true -> 9223372037 <= ttl <= 18446744073 ->
  Grant le b now id ttl = Ok (le1, b1, inr l) -> l_TTL l = ttl /\ expired l now = true.
Proof.
  intros Hp Ht Hg. unfold Grant in Hg. destruct (id =? NoLease); [by simplify_eq|].
  destruct (le_leaseMap le !! id); [by simplify_eq|]. rewrite Hp in Hg.
  apply bind_Ok_inv in Hg as (b3 & _ & ?). simplify_eq. unfold refresh, minLeaseTTL, second. simpl.
  zif; [lia|]. split; [done|]. unfold expired. simpl.
  assert (i64 (1000000000 * ttl) = 1000000000 * ttl - two64) as ->.
  { unfold i64. rewrite <- (Z.mod_add _ (-1)) by done. rewrite Z.mod_small; lia. }
  rewrite i64_small by lia. zcase; [done|lia].
Qed.

(** ** Recovery *)

Section recovery.
  Context {M : Type -> Type} {om : OMap M} {laws : OMapLaws M} {X : Type} (rd : @range_deleter M X) (Hrd : keeps_leases rd).

(** The record of a lease in the backend. *)
Definition lease_record (id : Z) (l : Lease) : list Z := LeasePB_MarshalTo (mkLeasePB id (l_TTL l)).

(** The identities [initAndRecover] asks the backend for. *)
Definition scanned (id : Z) : Prop := 0 <= id < 9223372036854775807.
#[local] Instance scanned_dec id : Decision (scanned id).
Proof using. unfold scanned. apply _. Defined.

Definition records_ok (m : M (list Z)) : Prop :=
  forall k v, om_get k m = Some v ->
  exists id l, is_i64 id /\ is_i64 (l_TTL l) /\ 5 <= l_TTL l /\ k = int64ToBytes id /\ v = lease_record id l.

(** The lease bucket, if there is one, holds records of leases. *)
Definition bucket_ok (b : backend M) : Prop := forall m, b_tx b !! leaseBucketName = Some m -> records_ok m.

(** It has a record for each lease in the scanned range and for no other
    identity of that range. *)
Definition persisted (le : lessor) (b : backend M) : Prop :=
  exists m, b_tx b !! leaseBucketName = Some m /\ records_ok m
  /\ (forall id, scanned id -> om_get (int64ToBytes id) m = lease_record id <$> le_leaseMap le !! id)
  /\ forall id l, le_leaseMap le !! id = Some l -> is_i64 id /\ is_i64 (l_TTL l).

Lemma int64ToBytes_inj a b : is_i64 a -> is_i64 b -> int64ToBytes a = int64ToBytes b -> a = b.
Proof.
  unfold is_i64, int64ToBytes. intros Ha Hb E. pose proof (Uint64_PutUint64 (u64 a) []) as Ea.
  rewrite E, Uint64_PutUint64 in Ea by apply u64_range.
  assert (u64 a = u64 b) as Eu by (enough (Ok (u64 b) = Ok (u64 a)) by congruence; apply Ea, u64_range).
  rewrite <- (i64_u64 a), <- (i64_u64 b) by done. by rewrite Eu.
Qed.

Lemma LeasePB_record id l : is_i64 id -> is_i64 (l_TTL l) ->
  LeasePB_Marshal (mkLeasePB id (l_TTL l)) = Ok (lease_record id l)
  /\ LeasePB_Unmarshal (lease_record id l) LeasePB0 = DOk (mkLeasePB id (l_TTL l)).
Proof.
  intros Hi Ht. assert (LeasePB_wf (mkLeasePB id (l_TTL l))) as Hw by done.
  pose proof (LeasePB_len _ Hw) as Hl. split; [by apply marshal_Ok|].
  apply LeasePB_decodes; [done|]. rewrite Hl. unfold LeasePB_Size, size3_varint. cbn [lpbID lpbTTL].
  assert (forall v, 0 <= sovRaft (u64 v) <= 10) as Hsov.
  { intros v. split; [pose proof (sovRaft_pos (u64 v)); lia|apply sovRaft_loop_le]. }
  pose proof (Hsov id). pose proof (Hsov (l_TTL l)). repeat zif; lia.
Qed.

Lemma persisted_ext le le' b b' : persisted le b -> b_tx b' !! leaseBucketName = b_tx b !! leaseBucketName ->
  (forall id, l_TTL <$> le_leaseMap le' !! id = l_TTL <$> le_leaseMap le !! id) -> persisted le' b'.
Proof using.
  intros (m & Hm & Hg & Hr & Hi) Hb Hx. exists m. rewrite Hb. split; [done|]. split; [done|]. split.
  - intros id Hs. rewrite (Hr id Hs). unfold lease_record. specialize (Hx id).
    destruct (le_leaseMap le !! id), (le_leaseMap le' !! id); simpl in *; congruence.
  - intros id l Hl. specialize (Hx id). rewrite Hl in Hx. destruct (le_leaseMap le !! id) as [l0|] eqn:E; [|done].
    injection Hx as ->. by apply Hi.
Qed.

Lemma same_leases_TTL le le' : same_leases le le' ->
  forall id, l_TTL <$> le_leaseMap le' !! id = l_TTL <$> le_leaseMap le !! id.
Proof using.
  intros [_ Hs] id. specialize (Hs id). destruct (le_leaseMap le !! id), (le_leaseMap le' !! id); try done.
  injection Hs as _ E _. simpl. by rewrite E.
Qed.

Lemma persisted_insert le b id l l' : persisted le b -> le_leaseMap le !! id = Some l -> l_TTL l' = l_TTL l ->
  persisted (le <| le_leaseMap := <[id := l']> (le_leaseMap le) |>) b.
Proof.
  intros Hp Hl Ht. eapply persisted_ext; [done..|]. intros id'. simpl. rewrite lookup_insert.
  destruct (decide (id = id')) as [<-|]; [|done]. rewrite Hl. simpl. by rewrite Ht.
Qed.

Lemma persisted_fmap le b f : persisted le b -> (forall id l, le_leaseMap le !! id = Some l -> l_TTL (f l) = l_TTL l) ->
  persisted (le <| le_leaseMap := f <$> le_leaseMap le |>) b.
Proof.
  intros Hp Hf. eapply persisted_ext; [done..|]. intros id. simpl. rewrite lookup_fmap.
  destruct (le_leaseMap le !! id) as [l|] eqn:E; [|done]. simpl. by rewrite (Hf id).
Qed.

(** A new lease is written to the backend. *)
Lemma persist_new le b l : persisted le b -> is_i64 (l_ID l) -> is_i64 (l_TTL l) -> 5 <= l_TTL l ->
  exists b', persistTo l b = Ok b' /\ persisted (le <| le_leaseMap := <[l_ID l := l]> (le_leaseMap le) |>) b'.
Proof using laws.
  intros (m & Hm & Hg & Hr & Hi) Hid Ht H5. unfold persistTo. destruct (LeasePB_record _ l Hid Ht) as [-> _]. gosimpl.
  unfold unsafePut, tx_bucket. rewrite Hm. gosimpl. eexists. split; [done|].
  exists (om_put (int64ToBytes (l_ID l)) (lease_record (l_ID l) l) m). rewrite Unlock_tx. unfold put_bucket. cbn [b_tx upd].
  split; [apply lookup_insert_eq|]. cbn [le_leaseMap upd]. split_and!.
  - intros k v. rewrite om_get_put_case. destruct (decide (int64ToBytes (l_ID l) = k)) as [<-|Hne]; [|apply Hg].
    intros [= <-]. by exists (l_ID l), l.
  - intros id Hs. rewrite om_get_put_case, lookup_insert. destruct (decide (l_ID l = id)) as [->|Hne].
    + by rewrite decide_True.
    + rewrite decide_False; [by apply Hr|]. intros E%int64ToBytes_inj; [done|done|]. unfold scanned, is_i64 in *. lia.
  - intros id l' Hl'. rewrite lookup_insert in Hl'. destruct (decide (l_ID l = id)) as [<-|]; [by simplify_eq|by eapply Hi].
Qed.

(** The record of a revoked lease is removed. *)
Lemma persist_remove le b l : persisted le b -> is_i64 (l_ID l) ->
  exists b', removeFrom l b = Ok b' /\ persisted (le <| le_leaseMap := delete (l_ID l) (le_leaseMap le) |>) b'.
Proof using laws.
  intros (m & Hm & Hg & Hr & Hi) Hid. unfold removeFrom, UnsafeDelete, tx_bucket. rewrite Hm. gosimpl.
  eexists. split; [done|]. exists (om_del (int64ToBytes (l_ID l)) m). rewrite Unlock_tx. unfold put_bucket. cbn [b_tx upd].
  split; [apply lookup_insert_eq|]. cbn [le_leaseMap upd]. split_and!.
  - intros k v. rewrite om_get_del_case. destruct (decide (int64ToBytes (l_ID l) = k)) as [<-|Hne]; [done|apply Hg].
  - intros id Hs. rewrite om_get_del_case, lookup_delete. destruct (decide (l_ID l = id)) as [->|Hne].
    + by rewrite decide_True.
    + rewrite decide_False; [by apply Hr|]. intros E%int64ToBytes_inj; [done|done|]. unfold scanned, is_i64 in *. lia.
  - intros id l' [_ Hl']%lookup_delete_Some. by eapply Hi.
Qed.

Definition op_i64 (p : Z * lessor_op M X) : Prop :=
  match p.2 with
  | OGrant id ttl => is_i64 id /\ is_i64 ttl
  | ORecover _ b => bucket_ok b
  | _ => True
  end.

Lemma record_inj id l id' l' : is_i64 id -> is_i64 (l_TTL l) -> is_i64 id' -> is_i64 (l_TTL l') ->
  lease_record id l = lease_record id' l' -> id = id' /\ l_TTL l = l_TTL l'.
Proof.
  intros H1 H2 H3 H4 E. destruct (LeasePB_record id l H1 H2) as [_ E1].
  destruct (LeasePB_record id' l' H3 H4) as [_ E2]. rewrite E in E1. split; congruence.
Qed.

(** Reading a list of lease records. *)
Lemma recover_fold vs m0 : (forall v, v ∈ vs -> exists id l, is_i64 id /\ is_i64 (l_TTL l) /\ v = lease_record id l) ->
  exists m, foldM recover_lease vs m0 = Ok m
  /\ (forall id x, m !! id = Some x -> m0 !! id = Some x \/
        exists l, is_i64 id /\ is_i64 (l_TTL l) /\ lease_record id l ∈ vs /\ x = mkLease id (l_TTL l) ∅ None)
  /\ (forall id l, is_i64 id -> is_i64 (l_TTL l) -> lease_record id l ∈ vs -> is_Some (m !! id))
  /\ (forall id, is_Some (m0 !! id) -> is_Some (m !! id)).
Proof.
  revert m0. induction vs as [|v vs IH]; intros m0 Hvs; cbn [foldM].
  { exists m0. split; [done|]. split; [by left|]. split; [by intros ? ? ? ? ?%not_elem_of_nil|done]. }
  destruct (Hvs v) as (id & l & Hid & Ht & ->); [left|].
  unfold recover_lease at 1. destruct (LeasePB_record id l Hid Ht) as [_ ->]. gosimpl. cbn [lpbID lpbTTL].
  destruct (IH (<[id := mkLease id (l_TTL l) ∅ None]> m0)) as (m & -> & H1 & H2 & H3); [by intros; apply Hvs; right|].
  exists m. split; [done|]. split; [|split].
  - intros id' x Hx. destruct (H1 _ _ Hx) as [Hx'|(l' & ? & ? & ? & ->)];
      [|right; exists l'; split; [done|]; split; [done|]; split; [by right|done]].
    rewrite lookup_insert in Hx'. destruct (decide (id = id')) as [<-|]; [|by left].
    simplify_eq. right. exists l. split; [done|]. split; [done|]. split; [left|done].
  - intros id' l' Hid' Ht' [E|Hin]%elem_of_cons; [|by eapply H2].
    apply H3. enough (id = id') as -> by (rewrite lookup_insert_eq; eauto).
    destruct (LeasePB_record id l Hid Ht) as [_ E1]. destruct (LeasePB_record id' l' Hid' Ht') as [_ E2].
    rewrite E in E2. congruence.
  - intros id' Hs. apply H3. rewrite lookup_insert. by destruct (decide (id = id')).
Qed.

(** The keys of the range scan: leases with IDs from 0 on, below the largest. *)
Lemma int64ToBytes_range id : is_i64 id ->
  (~ bytes_lt (int64ToBytes id) (int64ToBytes 0) /\ bytes_lt (int64ToBytes id) (int64ToBytes 9223372036854775807)
   <-> 0 <= id < 9223372036854775807).
Proof.
  intros Hi. unfold bytes_lt, int64ToBytes, PutUint64. pose proof (u64_range id).
  rewrite !be_bytes_compare by (apply u64_range || done). change (u64 0) with 0.
  change (u64 9223372036854775807) with 9223372036854775807. rewrite !Z.compare_lt_iff.
  unfold is_i64 in Hi. destruct (Z_lt_dec id 0).
  - assert (u64 id = id + two64) as ->; [|lia]. unfold u64. rewrite <- (Z.mod_add _ 1) by done. apply Z.mod_small. lia.
  - rewrite u64_small by lia. lia.
Qed.

Lemma scan_leases b m : b_tx b !! leaseBucketName = Some m ->
  exists vs, UnsafeRange b leaseBucketName (int64ToBytes 0) (int64ToBytes 9223372036854775807) 0 = Ok vs /\
  (records_ok m -> forall k v, (k, v) ∈ vs <->
     exists id, scanned id /\ k = int64ToBytes id /\ om_get k m = Some v).
Proof using laws.
  intros Hm. unfold UnsafeRange, tx_bucket. rewrite Hm. gosimpl.
  change (zlen (int64ToBytes 9223372036854775807) =? 0) with false. cbv iota.
  rewrite cursor_loop_all by apply sorted_filter, om_items_sorted. rewrite app_nil_l.
  eexists. split; [done|]. intros Hg k v. rewrite list_elem_of_filter, om_seek_get. cbn [fst]. split.
  - intros (H1 & H2 & H3). destruct (Hg _ _ H3) as (id & l & Hi & _ & _ & -> & ->). exists id. split; [|done].
    by apply int64ToBytes_range.
  - intros (id & Hs & -> & H3). apply int64ToBytes_range in Hs as [? ?]; [done|]. unfold scanned, is_i64 in *. lia.
Qed.

(** What recovery makes of the records. *)
Lemma initAndRecover_eq le0 b : bucket_ok b -> le_leaseMap le0 = ∅ ->
  exists le' b' m, initAndRecover le0 b = Ok (le', b') /\ b_tx (UnsafeCreateBucket b leaseBucketName) !! leaseBucketName = Some m /\
  lessor_ok le' /\ persisted le' b' /\
  forall id l, le_leaseMap le' !! id = Some l <->
    scanned id /\ exists l0, is_i64 (l_TTL l0) /\ om_get (int64ToBytes id) m = Some (lease_record id l0) /\ l = mkLease id (l_TTL l0) ∅ None.
Proof using laws.
  intros Hok H0. unfold initAndRecover. set (b1 := UnsafeCreateBucket b leaseBucketName).
  assert (exists m, b_tx b1 !! leaseBucketName = Some m /\ records_ok m) as (m & Hm & Hg).
  { unfold b1, UnsafeCreateBucket. destruct (b_tx b !! leaseBucketName) as [m|] eqn:E; [exists m; split; [done|by apply Hok]|].
    exists om_empty. unfold put_bucket. cbn [b_tx upd]. rewrite lookup_insert_eq. split; [done|]. intros k v. by rewrite om_get_empty. }
  destruct (scan_leases b1 m Hm) as (vs & -> & Hvs). specialize (Hvs Hg). gosimpl.
  destruct (recover_fold vs.*2 (le_leaseMap le0)) as (m' & -> & H1 & H2 & _).
  { intros v ([k v'] & -> & Hin)%list_elem_of_fmap. apply Hvs in Hin as (id & _ & _ & Hv).
    destruct (Hg _ _ Hv) as (id' & l & ? & ? & _ & _ & ->). by exists id', l. }
  gosimpl. rewrite H0 in H1.
  assert (forall id l, is_i64 id -> is_i64 (l_TTL l) -> lease_record id l ∈ vs.*2 <->
    scanned id /\ om_get (int64ToBytes id) m = Some (lease_record id l)) as Hin.
  { intros id l Hi Ht. rewrite list_elem_of_fmap. split.
    - intros ([k v] & E & Hv). simpl in E. subst v. apply Hvs in Hv as (id' & Hs & -> & Hv).
      destruct (Hg _ _ Hv) as (id2 & l2 & ? & ? & _ & Ek & Ev). apply record_inj in Ev as [<- _]; [|done..].
      apply int64ToBytes_inj in Ek as ->; [done|unfold scanned, is_i64 in *; lia|done].
    - intros [Hs Hv]. exists (int64ToBytes id, lease_record id l). split; [done|]. apply Hvs. by exists id. }
  assert (forall id l, m' !! id = Some l <-> scanned id /\ exists l0, is_i64 (l_TTL l0) /\
    om_get (int64ToBytes id) m = Some (lease_record id l0) /\ l = mkLease id (l_TTL l0) ∅ None) as Hchar.
  { intros id l. split.
    - intros Hx. destruct (H1 _ _ Hx) as [?|(l0 & Hid & Ht & [Hs Hv]%Hin & ->)]; [by rewrite lookup_empty in *| |done..].
      split; [done|]. by exists l0.
    - intros (Hs & l0 & Ht & Hv & ->). assert (is_i64 id) as Hi by (unfold scanned, is_i64 in *; lia).
      destruct (H2 id l0 Hi Ht) as [x Hx]; [by apply Hin|]. rewrite Hx. f_equal.
      destruct (H1 _ _ Hx) as [?|(l1 & _ & Ht1 & [_ Hv1]%Hin & ->)]; [by rewrite lookup_empty in *| |done..].
      rewrite Hv in Hv1. injection Hv1 as E. by apply record_inj in E as [_ ->]. }
  eexists _, _, m. split; [done|]. split; [done|]. cbn [le_leaseMap upd]. split_and!; [| |done].
  - intros id l. cbn [le_leaseMap upd]. intros (Hs & l0 & Ht & Hv & ->)%Hchar. split; [done|]. simpl.
    destruct (Hg _ _ Hv) as (id2 & l2 & ? & ? & H5 & _ & Ev). apply record_inj in Ev as [_ ->]; [done..|unfold scanned, is_i64 in *; lia|done|done|done].
  - exists m. unfold ForceCommit. rewrite commit_tx, Unlock_tx. split; [done|]. split; [done|]. cbn [le_leaseMap upd]. split.
    + intros id Hs. destruct (m' !! id) as [l|] eqn:E; [by apply Hchar in E as (_ & l0 & _ & -> & ->)|].
      destruct (om_get (int64ToBytes id) m) as [v|] eqn:Ev; [|done]. destruct (Hg _ _ Ev) as (id2 & l2 & ? & ? & _ & Ek & ->).
      apply int64ToBytes_inj in Ek as <-; [|unfold scanned, is_i64 in *; lia|done].
      assert (m' !! id = Some (mkLease id (l_TTL l2) ∅ None)) by (apply Hchar; split; [done|]; by exists l2). congruence.
    + intros id l (Hs & l0 & Ht & _ & ->)%Hchar. split; [unfold scanned, is_i64 in *; lia|done].
Qed.

Lemma Recover_eq le b : bucket_ok b -> exists le' b', Recover le b = Ok (le', b') /\ lessor_ok le' /\ persisted le' b'.
Proof using laws.
  intros Hb. unfold Recover. set (le0 := le <| le_leaseMap := _ |>).
  destruct (initAndRecover_eq le0 b Hb ltac:(done)) as (le' & b' & _ & H1 & _ & H2 & H3 & _). by exists le', b'.
Qed.

Lemma newLessor_eq b : bucket_ok b ->
  exists le' b' m, newLessor b = Ok (le', b') /\ b_tx (UnsafeCreateBucket b leaseBucketName) !! leaseBucketName = Some m /\
  lessor_ok le' /\ persisted le' b' /\
  forall id l, le_leaseMap le' !! id = Some l <->
    scanned id /\ exists l0, is_i64 (l_TTL l0) /\ om_get (int64ToBytes id) m = Some (lease_record id l0) /\ l = mkLease id (l_TTL l0) ∅ None.
Proof using laws. intros Hb. unfold newLessor. set (le0 := mkLessor _ _ _). by apply initAndRecover_eq. Qed.

Lemma persisted_step x le b now op x' le' b' : lessor_ok le -> persisted le b -> op_i64 (now, op) ->
  lessor_step rd (x, le, b) now op = Ok (x', le', b') -> persisted le' b'.
Proof using laws Hrd.
  intros Hok Hp Hop Hs. destruct op as [id' ttl'|id'|extend| |id' items|id' items| |id' items|x1 b1]; simpl in Hs, Hop.
  - unfold Grant in Hs. destruct (id' =? NoLease); [gosimpl in Hs; by simplify_eq|].
    destruct (le_leaseMap le !! id') eqn:E; [gosimpl in Hs; by simplify_eq|]. destruct Hop as [H1 H2].
    set (l := if le_primary le then _ else _) in Hs.
    assert (l_ID l = id' /\ l_TTL l = Z.max 5 ttl') as [Hid Ht].
    { unfold l, refresh, forever, minLeaseTTL. destruct (le_primary le); simpl; zif; simpl; split; try done; lia. }
    clearbody l. subst id'.
    destruct (persist_new le b l) as (b2 & Hb2 & Hp2); [done|done|rewrite Ht; unfold is_i64 in *; lia|lia|].
    rewrite Hb2 in Hs. gosimpl in Hs. by simplify_eq.
  - unfold Renew in Hs. destruct (le_primary le); [|by simplify_eq]. simpl in Hs.
    destruct (le_leaseMap le !! id') as [l|] eqn:E; injection Hs as <- <- <-; [|done].
    eapply persisted_insert; [done|done|]. apply (TTL_kept l now 0). by destruct (Hok _ _ E).
  - injection Hs as <- <- <-.
    eapply persisted_ext; [apply (persisted_fmap le b (fun l => refresh l now extend)); [done|]|done|done].
    intros id l Hl. apply (TTL_kept l now extend). by destruct (Hok _ _ Hl).
  - injection Hs as <- <- <-. eapply persisted_ext; [apply (persisted_fmap le b forever); [done|]|done|done].
    intros id l Hl. apply (TTL_kept l 0 0). by destruct (Hok _ _ Hl).
  - unfold Attach in Hs. destruct (le_leaseMap le !! id') as [l|] eqn:E; injection Hs as <- <- <-; [|done].
    by eapply persisted_insert.
  - unfold Detach in Hs. destruct (le_leaseMap le !! id') as [l|] eqn:E; injection Hs as <- <- <-; [|done].
    by eapply persisted_insert.
  - injection Hs as <- <- <-. unfold runLoop_round. repeat (destruct (negb _) || destruct (_ <? _)); [|done..].
    by eapply persisted_ext.
  - apply bind_Ok_inv in Hs as ([[[x1 le1] b1] e] & Hs & E). injection E as -> -> ->.
    apply le_Revoke_inv in Hs as [[-> ->]|(l & le1 & b1 & Hl1 & Hsame & Hb1 & Hrm & ->)]; [done| |done].
    assert (persisted le1 b1) as Hp1 by (eapply persisted_ext; [exact Hp|exact Hb1|by apply same_leases_TTL]).
    assert (is_i64 (l_ID l)) as Hid.
    { destruct Hp as (_ & _ & _ & _ & Hi). destruct (Hok _ _ Hl1) as [-> _]. by destruct (Hi _ _ Hl1). }
    destruct (persist_remove le1 b1 l Hp1 Hid) as (b2 & E2 & Hp2). rewrite Hrm in E2. injection E2 as ->. exact Hp2.
  - apply bind_Ok_inv in Hs as ([le1 b2] & Hs & E). injection E as <- <- <-.
    destruct (Recover_eq le b1 Hop) as (le3 & b3 & Hn & _ & Hp3). rewrite Hn in Hs. by injection Hs as <- <-.
Qed.

Lemma persisted_run x le b ops x' le' b' : lessor_ok le -> persisted le b -> Forall op_i64 ops ->
  lessor_run rd (x, le, b) ops = Ok (x', le', b') -> lessor_ok le' /\ persisted le' b'.
Proof using laws Hrd.
  intros Hok Hp Hops. revert x le b Hok Hp. induction Hops as [|[now op] ops Hop Hops IH]; intros x le b Hok Hp Hr; cbn [lessor_run] in Hr.
  { by simplify_eq. }
  apply bind_Ok_inv in Hr as ([[x1 le1] b1] & Hs & Hr).
  eapply IH; [|by eapply persisted_step|done]. destruct op as [| | | | | | | |x2 b2];
    try (refine (lessor_ok_step rd Hrd _ _ _ _ _ _ _ _ Hok _ Hs); exact I).
  simpl in Hs. apply bind_Ok_inv in Hs as ([le2 b3] & Hs & E). injection E as <- <- <-.
  destruct (Recover_eq le b2 Hop) as (le3 & b4 & Hn & Hok3 & _). rewrite Hn in Hs. by injection Hs as <- <-.
Qed.

(** C25. Leases survive a restart.  A lessor starts on a backend whose lease
    bucket, if it has one, holds records of leases; after any operations
    (grants, renewals, promotions, demotions, attaching and detaching keys,
    rounds of the expiry loop, revoking leases with any range deleter that
    touches leases only by detaching keys, and recovering on another such
    backend), the lessor opened on the backend it leaves has the same leases
    with the same TTLs, expiring never until the next promotion, except that
    leases with a negative ID or the largest one are gone. *)
Theorem lessor_recovers x b0 le1 b1 ops x2 le2 b2 :
  bucket_ok b0 -> newLessor b0 = Ok (le1, b1) ->
  Forall op_i64 ops -> lessor_run rd (x, le1, b1) ops = Ok (x2, le2, b2) ->
  exists le3 b3, newLessor b2 = Ok (le3, b3) /\
  forall id, le_leaseMap le3 !! id =
    if bool_decide (0 <= id < 9223372036854775807)
    then (fun l => mkLease id (l_TTL l) ∅ None) <$> le_leaseMap le2 !! id else None.
Proof using laws Hrd.
  intros Hb0 Hn Hops Hr.
  destruct (newLessor_eq b0 Hb0) as (le1' & b1' & m1 & Hn' & _ & Hok & Hp & _).
  rewrite Hn in Hn'. injection Hn' as <- <-.
  destruct (persisted_run _ _ _ _ _ _ _ Hok Hp Hops Hr) as (Hok2 & m & Hm & Hg & Hrec & Hi).
  destruct (newLessor_eq b2) as (le3 & b3 & m3 & Hn3 & Hm3 & _ & _ & Hchar).
  { intros m' Hm'. rewrite Hm in Hm'. by injection Hm' as <-. }
  unfold UnsafeCreateBucket in Hm3. rewrite Hm in Hm3. cbn [b_tx upd] in Hm3. rewrite Hm in Hm3. injection Hm3 as <-.
  exists le3, b3. split; [done|]. intros id. case_bool_decide as Hs.
  - specialize (Hrec id Hs). destruct (le_leaseMap le2 !! id) as [l|] eqn:E; simpl in *.
    + apply Hchar. split; [done|]. exists l. by destruct (Hi _ _ E).
    + destruct (le_leaseMap le3 !! id) as [l|] eqn:E3; [|done]. apply Hchar in E3 as (_ & l0 & _ & Hv & _). congruence.
  - destruct (le_leaseMap le3 !! id) as [l|] eqn:E3; [|done]. by apply Hchar in E3 as (? & _).
Qed.
End recovery.

(** ** Examples *)

Definition ex_backend : backend (gmap (list Z)) := Backend ∅ ∅ 0 10000 0.
(** A range deleter that counts the keys it deletes and detaches them. *)
Definition ex_deleter : @range_deleter (gmap (list Z)) Z :=
  Some (fun it st => let '(n, le, b) := st in
    Ok (n + 1, le <| le_leaseMap := (fun l => l <| l_itemSet := l_itemSet l ∖ {[it.2]} |>) <$> le_leaseMap le |>, b)).

Lemma ex_deleter_keeps : keeps_leases ex_deleter.
Proof.
  intros D it n le b n' le' b' [= <-] [= <- <- <-]. split; [|done]. split; [done|].
  intros id. cbn [le_leaseMap upd]. rewrite lookup_fmap. by destruct (le_leaseMap le !! id).
Qed.

Definition ex_lessor_ops : list (Z * lessor_op (gmap (list Z)) Z) :=
  [(10, OGrant 8 3); (11, ORenew 7); (12, OPromote 1000); (13, OAttach 7 [[1]; [2]]); (14, ODemote); (15, ORound);
   (16, OAttach 8 [[3]; [4]]); (17, ORevoke 8 [(1, [4]); (2, [3])])].

Lemma lease_lives_witness :
  exists le1 b1 l le2 b2,
    Grant (mkLessor true ∅ []) (UnsafeCreateBucket ex_backend leaseBucketName) 5 7 60 = Ok (le1, b1, inr l)
    /\ lessor_run ex_deleter (0, le1, b1) ex_lessor_ops = Ok (2, le2, b2)
    /\ le_leaseMap le2 !! 7 <> None /\ Forall (fun l => l_ID l <> 7) (findExpiredLeases le2 60000000004).
Proof.
  do 5 eexists. split; [reflexivity|]. split; [reflexivity|].
  eapply (lease_lives ex_deleter ex_deleter_keeps 0 (mkLessor true ∅ []) (UnsafeCreateBucket ex_backend leaseBucketName) 5 7 60
            _ _ 1000000 ex_lessor_ops _ _ _ 60000000004).
  - by intros ? ?.
  - eapply (start_grant _ _ _ _ _ _ _ _ 60); reflexivity.
  - lia.
  - unfold second. lia.
  - unfold later. repeat constructor; simpl; lia.
  - reflexivity.
  - unfold second. lia.
Defined.

Lemma Grant_ttl_overflow_witness :
  exists le1 b1 l,
    Grant (mkLessor true ∅ []) (UnsafeCreateBucket ex_backend leaseBucketName) 5 7 9223372037 = Ok (le1, b1, inr l)
    /\ l_TTL l = 9223372037 /\ expired l 5 = true.
Proof.
  do 3 eexists. split; [reflexivity|].
  eapply (Grant_ttl_overflow (mkLessor true ∅ []) _ (UnsafeCreateBucket ex_backend leaseBucketName) _ _ 5 7 9223372037);
    [reflexivity|lia|reflexivity].
Defined.

Definition ex_recover_ops : list (Z * lessor_op (gmap (list Z)) Z) := (1, OGrant (-3) 60) :: (2, OGrant 7 60) :: ex_lessor_ops.

Lemma ex_recover_run : exists le1 b1 n le2 b2, newLessor ex_backend = Ok (le1, b1)
  /\ lessor_run ex_deleter (0, le1, b1) ex_recover_ops = Ok (n, le2, b2)
  /\ l_TTL <$> le_leaseMap le2 !! 7 = Some 60 /\ le_leaseMap le2 !! 8 = None.
Proof.
  assert (match newLessor ex_backend with
    | Ok (le1, b1) =>
        match lessor_run ex_deleter (0, le1, b1) ex_recover_ops with
        | Ok (_, le2, _) =>
            bool_decide (l_TTL <$> le_leaseMap le2 !! 7 = Some 60) && match le_leaseMap le2 !! 8 with None => true | _ => false end
        | Panic _ => false
        end
    | Panic _ => false
    end = true) as H by (vm_compute; reflexivity).
  destruct (newLessor ex_backend) as [[le1 b1]|]; [|done].
  destruct (lessor_run ex_deleter (0, le1, b1) ex_recover_ops) as [[[n le2] b2]|] eqn:E; [|done].
  exists le1, b1, n, le2, b2. apply andb_true_iff in H as [H7%bool_decide_eq_true H8].
  by destruct (le_leaseMap le2 !! 8).
Qed.

Lemma lessor_recovers_witness :
  exists le1 b1 n le2 b2 le3 b3,
    newLessor ex_backend = Ok (le1, b1)
    /\ lessor_run ex_deleter (0, le1, b1) ex_recover_ops = Ok (n, le2, b2)
    /\ newLessor b2 = Ok (le3, b3) /\ le_leaseMap le3 !! 7 = Some (mkLease 7 60 ∅ None)
    /\ le_leaseMap le3 !! 8 = None /\ le_leaseMap le3 !! (-3) = None.
Proof.
  destruct ex_recover_run as (le1 & b1 & n & le2 & b2 & H1 & H2 & H7 & H8).
  destruct (lessor_recovers ex_deleter ex_deleter_keeps 0 ex_backend le1 b1 ex_recover_ops n le2 b2)
    as (le3 & b3 & H3 & H4).
  - by intros m Hm.
  - exact H1.
  - unfold op_i64, is_i64. repeat constructor; simpl; lia.
  - exact H2.
  - exists le1, b1, n, le2, b2, le3, b3. do 3 (split; [done|]). rewrite !H4, H8. split; [|done].
    destruct (le_leaseMap le2 !! 7) as [l|]; [|done]. injection H7 as H7. simpl. by rewrite H7.
Defined.
