(* ===== verification/KVStore.v ===== *)
(** The multi-version store: storage/kvstore.go and kvstore_compaction.go.

    Every change gets a revision; its record goes to the key bucket of the
    backend under the revision, and the revision into the key index.  The store
    also keeps leases attached to keys.  Methods of [store] whose names are taken
    by the index carry the prefix [store_].

    Locks are not modelled: an operation between [TxnBegin] and [TxnEnd] runs
    alone, and so does every other operation.  Random transaction IDs are
    arguments.  A compaction that was scheduled is a [job]; [compaction_step] is
    one batch of the job at the head of the queue, so that batches interleave
    with other operations.  Metrics and logging are left out; [log.Fatalf] is a
    panic. *)

From S2P Require Import Prelude RaftPB Proto RaftCodec OrderedMap Revision KeyIndex TreeIndex StorePB Backend Lessor.

(** [[]byte("key")], [[]byte("meta")] and the keys of the meta bucket *)
Definition keyBucketName : list Z := [107; 101; 121].
Definition metaBucketName : list Z := [109; 101; 116; 97].
Definition scheduledCompactKeyName : list Z :=
  [115; 99; 104; 101; 100; 117; 108; 101; 100; 67; 111; 109; 112; 97; 99; 116; 82; 101; 118].
Definition finishedCompactKeyName : list Z :=
  [102; 105; 110; 105; 115; 104; 101; 100; 67; 111; 109; 112; 97; 99; 116; 82; 101; 118].

(** A scheduled compaction: [scheduleCompaction(rev, keep)] with the key its
    next batch starts at. *)
Record job := Job { j_rev : Z; j_keep : gset revision; j_last : list Z }.

Definition kv_unmarshal (v : list Z) : outcome KeyValue :=
  match KeyValue_Unmarshal v KeyValue0 with
  | DOk kv => Ok kv
  | _ => Panic "storage: cannot unmarshal event"
  end.

Section store.
  Context {M : Type -> Type} {om : OMap M}.

Record store := Store {
  s_b : backend M;
  s_kvindex : treeIndex (M := M);
  s_le : option lessor;
  s_currentRev : revision;
  s_compactMainRev : Z;
  s_txnID : Z;
  s_changes : list KeyValue;
  s_jobs : list job;
}.
#[global] Instance store_eta : Eta store := fun s =>
  Store (s_b s) (s_kvindex s) (s_le s) (s_currentRev s) (s_compactMainRev s) (s_txnID s) (s_changes s) (s_jobs s).

  Implicit Types (s : store) (key value : list Z) (endk : option (list Z)).

(** [s.currentRev.main], and the revision of the changes of the open transaction. *)
Definition cur_main s : Z := rv_main (s_currentRev s).

Definition Rev s : Z := cur_main s.
Definition FirstRev s : Z := s_compactMainRev s.

(** ** Leases of keys *)

Definition detach s (id : Z) key (why : string) : outcome store :=
  match s_le s with
  | None => Panic why
  | Some le =>
      let '(le, err) := Detach le id [key] in
      match err with
      | Some _ => Panic why
      | None => Ok (s <| s_le := Some le |>)
      end
  end.

Definition attach s (id : Z) key (why : string) : outcome store :=
  match s_le s with
  | None => Panic why
  | Some le =>
      let '(le, err) := Attach le id [key] in
      match err with
      | Some _ => Panic why
      | None => Ok (s <| s_le := Some le |>)
      end
  end.

(** ** Reading *)

(** The loop of [rangeKeys] over the revisions of the keys. *)
Fixpoint rangeKeys_loop (b : backend M) (revpairs : list revision) (limit : Z) (kvs : list KeyValue)
  : outcome (list KeyValue) :=
  match revpairs with
  | [] => Ok kvs
  | revpair :: revpairs' =>
      let '(start, endb) := revBytesRange revpair in
      let! vs := UnsafeRange b keyBucketName start endb 0 in
      match vs with
      | [(_, v)] =>
          let! kv := kv_unmarshal v in
          let kvs := kvs ++ [kv] in
          if (limit >? 0) && (zlen kvs >=? limit) then Ok kvs
          else rangeKeys_loop b revpairs' limit kvs
      | _ => Panic "storage: range cannot find rev"
      end
  end.

Definition rangeKeys s key endk (limit rangeRev : Z) : outcome (list KeyValue * Z * option storage_error) :=
  let curRev := if rv_sub (s_currentRev s) >? 0 then i64 (cur_main s + 1) else cur_main s in
  if rangeRev >? curRev then Ok ([], cur_main s, Some ErrFutureRev) else
  let rev := if rangeRev <=? 0 then curRev else rangeRev in
  if rev <=? s_compactMainRev s then Ok ([], 0, Some ErrCompacted) else
  let! '(_, revpairs) := ti_Range (s_kvindex s) key endk rev in
  if zlen revpairs =? 0 then Ok ([], curRev, None) else
  let! kvs := rangeKeys_loop (s_b s) revpairs limit [] in
  Ok (kvs, curRev, None).

(** ** Writing *)

(** The record of revision [rev] in the key bucket: [vs[0]]. *)
Definition read_rev s (rev : revision) : outcome KeyValue :=
  let! vs := UnsafeRange (s_b s) keyBucketName (revToBytes rev) [] 0 in
  let! v := at_ vs 0 in
  kv_unmarshal v.2.

Definition store_put s key value (leaseID : Z) : outcome store :=
  let rev := i64 (cur_main s + 1) in
  let! got := ti_Get (s_kvindex s) key rev in
  let! '(c, ver, oldLease) :=
    (match got with
     | inr (grev, created, ver) =>
         let! kv := read_rev s grev in Ok (rv_main created, ver, kvLease kv)
     | inl _ => Ok (rev, 0, NoLease)
     end) in
  let r := Revision rev (rv_sub (s_currentRev s)) in
  let kv := mkKeyValue key c rev (i64 (ver + 1)) value leaseID in
  let! d := KeyValue_Marshal kv in
  let! b := unsafePut (s_b s) keyBucketName (revToBytes r) d in
  let! ti := ti_Put (s_kvindex s) key r in
  let s := s <| s_b := b |> <| s_kvindex := ti |> <| s_changes := s_changes s ++ [kv] |>
             <| s_currentRev := (s_currentRev s) <| rv_sub := i64 (rv_sub (s_currentRev s) + 1) |> |> in
  let! s := (if negb (oldLease =? NoLease) then detach s oldLease key "unexpected error from lease detach" else Ok s) in
  if negb (leaseID =? NoLease) then attach s leaseID key "unexpected error from lease Attach" else Ok s.

Definition store_delete s key (rev : revision) : outcome store :=
  let r := Revision (i64 (cur_main s + 1)) (rv_sub (s_currentRev s)) in
  let! ibytes := appendMarkTombstone (revToBytes r) in
  let kv := KeyValue0 <| kvKey := key |> in
  let! d := KeyValue_Marshal kv in
  let! b := unsafePut (s_b s) keyBucketName ibytes d in
  let! '(ti, err) := ti_Tombstone (s_kvindex s) key r in
  match err with
  | Some _ => Panic "storage: cannot tombstone an existing key"
  | None =>
      let s := s <| s_b := b |> <| s_kvindex := ti |> <| s_changes := s_changes s ++ [kv] |>
                 <| s_currentRev := (s_currentRev s) <| rv_sub := i64 (rv_sub (s_currentRev s) + 1) |> |> in
      let! kv := read_rev s rev in
      if negb (kvLease kv =? NoLease) then detach s (kvLease kv) (kvKey kv) "storage: cannot detach" else Ok s
  end.

Fixpoint delete_loop s (krs : list (list Z * revision)) : outcome store :=
  match krs with
  | [] => Ok s
  | (key, rev) :: krs' => let! s := store_delete s key rev in delete_loop s krs'
  end.

Definition deleteRange s key endk : outcome (store * Z) :=
  let rrev := if rv_sub (s_currentRev s) >? 0 then i64 (cur_main s + 1) else cur_main s in
  let! '(keys, revs) := ti_Range (s_kvindex s) key endk rrev in
  if zlen keys =? 0 then Ok (s, 0) else
  let! s := delete_loop s (zip keys revs) in
  Ok (s, zlen keys).

(** ** Transactions *)

Definition TxnBegin s (id : Z) : store :=
  s <| s_currentRev := (s_currentRev s) <| rv_sub := 0 |> |> <| s_txnID := id |>.

Definition txnEnd s (txnID : Z) : store * option storage_error :=
  if negb (txnID =? s_txnID s) then (s, Some ErrTxnIDMismatch) else
  let s := s <| s_b := Unlock (s_b s) |> in
  let main := if negb (rv_sub (s_currentRev s) =? 0) then i64 (cur_main s + 1) else cur_main s in
  (s <| s_currentRev := Revision main 0 |>, None).

Definition TxnEnd s (txnID : Z) : store * option storage_error := txnEnd s txnID.

Definition Put s (id : Z) key value (leaseID : Z) : outcome (store * Z) :=
  let s := TxnBegin s id in
  let! s := store_put s key value leaseID in
  let '(s, _) := txnEnd s id in
  Ok (s, cur_main s).

Definition Range s (id : Z) key endk (limit rangeRev : Z)
  : outcome (store * (list KeyValue * Z * option storage_error)) :=
  let s := TxnBegin s id in
  let! r := rangeKeys s key endk limit rangeRev in
  let '(s, _) := txnEnd s id in
  Ok (s, r).

Definition DeleteRange s (id : Z) key endk : outcome (store * (Z * Z)) :=
  let s := TxnBegin s id in
  let! '(s, n) := deleteRange s key endk in
  let '(s, _) := txnEnd s id in
  Ok (s, (n, cur_main s)).

Definition TxnRange s (txnID : Z) key endk (limit rangeRev : Z)
  : outcome (list KeyValue * Z * option storage_error) :=
  if negb (txnID =? s_txnID s) then Ok ([], 0, Some ErrTxnIDMismatch)
  else rangeKeys s key endk limit rangeRev.

Definition TxnPut s (txnID : Z) key value (leaseID : Z) : outcome (store * (Z * option storage_error)) :=
  if negb (txnID =? s_txnID s) then Ok (s, (0, Some ErrTxnIDMismatch)) else
  let! s := store_put s key value leaseID in
  Ok (s, (i64 (cur_main s + 1), None)).

Definition TxnDeleteRange s (txnID : Z) key endk : outcome (store * (Z * Z * option storage_error)) :=
  if negb (txnID =? s_txnID s) then Ok (s, (0, 0, Some ErrTxnIDMismatch)) else
  let! '(s, n) := deleteRange s key endk in
  let rev := if negb (n =? 0) || negb (rv_sub (s_currentRev s) =? 0) then i64 (cur_main s + 1) else cur_main s in
  Ok (s, (n, rev, None)).

Definition getChanges s : store * list KeyValue := (s <| s_changes := [] |>, s_changes s).

(** [Revoke] of the lessor, with the store as its range deleter: [items] is the
    order in which Go ranges over the item set of the lease, with the IDs of the
    transactions. *)
Definition Revoke s (id : Z) (items : list (Z * list Z)) : outcome (store * option lease_error) :=
  match s_le s with
  | None => Panic "nil pointer dereference"
  | Some le =>
      match le_leaseMap le !! id with
      | None => Ok (s, Some ErrLeaseNotFound)
      | Some l =>
          let! s := foldM (fun s it => let! '(s, _) := DeleteRange s it.1 it.2 None in Ok s) items s in
          let! b := removeFrom l (s_b s) in
          Ok (s <| s_le := (fun le => le <| le_leaseMap := delete (l_ID l) (le_leaseMap le) |>) <$> s_le s |>
                <| s_b := b |>, None)
      end
  end.

(** ** Compaction *)

Definition store_Compact s (rev : Z) : outcome (store * option storage_error) :=
  if rev <=? s_compactMainRev s then Ok (s, Some ErrCompacted) else
  if rev >? cur_main s then Ok (s, Some ErrFutureRev) else
  let! b := unsafePut (s_b s) metaBucketName scheduledCompactKeyName (revToBytes (Revision rev 0)) in
  let b := ForceCommit (Unlock b) in
  let! '(ti, keep) := ti_Compact (s_kvindex s) rev in
  Ok (s <| s_compactMainRev := rev |> <| s_b := b |> <| s_kvindex := ti |>
        <| s_jobs := s_jobs s ++ [Job rev keep (replicate 17 0)] |>, None).

(** The loop over the keys of a batch: the backend and the last revision. *)
Definition compact_key (keep : gset revision) (st : backend M * revision) (key : list Z)
  : outcome (backend M * revision) :=
  let! rev := bytesToRev key in
  if bool_decide (rev ∈ keep) then Ok (st.1, rev) else
  let! b := UnsafeDelete st.1 keyBucketName key in
  Ok (b, rev).

Definition batchsize : Z := 10000.

(** One round of the loop of [scheduleCompaction] of the first job. *)
Definition compaction_step s : outcome store :=
  match s_jobs s with
  | [] => Ok s
  | j :: jobs =>
      let endb := PutUint64 (u64 (j_rev j + 1)) in
      let! kvs := UnsafeRange (s_b s) keyBucketName (j_last j) endb batchsize in
      let! '(b, rev) := foldM (compact_key (j_keep j)) kvs.*1 (s_b s, revision0) in
      if zlen kvs <? batchsize then
        let! b := unsafePut b metaBucketName finishedCompactKeyName (revToBytes (Revision (j_rev j) 0)) in
        Ok (s <| s_b := Unlock b |> <| s_jobs := jobs |>)
      else
        let last := revToBytes (rev <| rv_sub := i64 (rv_sub rev + 1) |>) in
        Ok (s <| s_b := Unlock b |> <| s_jobs := Job (j_rev j) (j_keep j) last :: jobs |>)
  end.

Definition Commit s : store := s <| s_b := ForceCommit (s_b s) |>.

(** ** Recovery *)

(** The lessor of [restore]: a lease that is gone is ignored. *)
Definition restore_lease s (f : lessor -> lessor * option lease_error) (why : string) : outcome store :=
  match s_le s with
  | None => Panic why
  | Some le =>
      let '(le, err) := f le in
      match err with
      | None | Some ErrLeaseNotFound => Ok (s <| s_le := Some le |>)
      | Some _ => Panic why
      end
  end.

(** One round of the loop of [restore] over the records of the key bucket. *)
Definition restore_key s (p : list Z * list Z) : outcome store :=
  let '(key, val) := p in
  let! kv := kv_unmarshal val in
  let! kb := slice2 key 0 revBytesLen in
  let! rev := bytesToRev kb in
  let! tombstone := isTombstone key in
  let! s :=
    (if tombstone then
       let! '(ti, _) := ti_Tombstone (s_kvindex s) (kvKey kv) rev in
       let s := s <| s_kvindex := ti |> in
       if negb (kvLease kv =? NoLease)
       then restore_lease s (fun le => Detach le (kvLease kv) [kvKey kv]) "storage: unexpected Detach error"
       else Ok s
     else
       let! ti := ti_Restore (s_kvindex s) (kvKey kv) (Revision (kvCreateRevision kv) 0) rev (kvVersion kv) in
       let s := s <| s_kvindex := ti |> in
       if negb (kvLease kv =? NoLease)
       then restore_lease s (fun le => Attach le (kvLease kv) [kvKey kv]) "unexpected Attach error"
       else Ok s) in
  Ok (s <| s_currentRev := rev |>).

(** [restore]; the second result is the revision of the interrupted compaction
    that a goroutine is started for. *)
Definition restore s : outcome (store * option Z) :=
  let min := revToBytes (Revision 1 0) in
  let max := revToBytes (Revision 9223372036854775807 9223372036854775807) in
  let! finished := UnsafeRange (s_b s) metaBucketName finishedCompactKeyName [] 0 in
  let! s :=
    (match finished with
     | [] => Ok s
     | (_, v) :: _ => let! rev := bytesToRev v in Ok (s <| s_compactMainRev := rv_main rev |>)
     end) in
  let! kvs := UnsafeRange (s_b s) keyBucketName min max 0 in
  let! s := foldM restore_key kvs s in
  let! scheduled := UnsafeRange (s_b s) metaBucketName scheduledCompactKeyName [] 0 in
  let! resume :=
    (match scheduled with
     | [] => Ok None
     | (_, v) :: _ =>
         let! rev := bytesToRev v in
         Ok (if rv_main rev >? s_compactMainRev s then Some (rv_main rev) else None)
     end) in
  Ok (s <| s_b := Unlock (s_b s) |>, resume).

Definition NewStore (b : backend M) (le : option lessor) : outcome (store * option Z) :=
  let b := UnsafeCreateBucket b keyBucketName in
  let b := UnsafeCreateBucket b metaBucketName in
  let b := ForceCommit (Unlock b) in
  restore (Store b newTreeIndex le (Revision 1 0) (-1) 0 [] []).

Definition Restore s (b : backend M) : outcome (store * option Z) :=
  restore (s <| s_b := b |> <| s_kvindex := newTreeIndex |> <| s_currentRev := Revision 1 0 |>
             <| s_compactMainRev := -1 |> <| s_txnID := -1 |> <| s_jobs := [] |>).

Definition store_Equal (a b : store) : outcome bool :=
  if negb (bool_decide (s_currentRev a = s_currentRev b)) then Ok false else
  if negb (s_compactMainRev a =? s_compactMainRev b) then Ok false else
  ti_Equal (s_kvindex a) (s_kvindex b).
End store.
Arguments store : clear implicits.
