(* ===== verification/KVHistory.v ===== *)
(** Histories of changes.

    The key bucket is a list of records, one for each change, in the order of
    the revisions.  [restore] rebuilds the key index by replaying the records.
    [replay_spec]: the index then answers with the newest record of the key,
    also when a compaction has removed older records. *)

From S2P Require Import Prelude RaftPB Proto RaftCodec OrderedMap Revision KeyIndex TreeIndex StorePB Backend Lessor KVStore.

(** A record of the key bucket: a put or a tombstone. *)
Record hrec := HRec { h_rev : revision; h_kv : KeyValue; h_tomb : bool }.

Definition h_key (r : hrec) : list Z := kvKey (h_kv r).
Definition h_main (r : hrec) : Z := rv_main (h_rev r).

Definition h_bytes (r : hrec) : list Z * list Z :=
  (if h_tomb r then revToBytes (h_rev r) ++ [markTombstone] else revToBytes (h_rev r), KeyValue_MarshalTo (h_kv r)).

Lemma h_bytes_fst r : (h_bytes r).1 = revToBytes (h_rev r) ++ (if h_tomb r then [markTombstone] else []).
Proof. unfold h_bytes. cbn [fst]. destruct (h_tomb r); [done|by rewrite app_nil_r]. Qed.

(** The records of key [k], and the newest of them at revision [n]. *)
Definition on (k : list Z) (l : list hrec) : list hrec := filter (fun r => h_key r = k) l.
Definition seen (l : list hrec) (k : list Z) (n : Z) : option hrec :=
  last (filter (fun r => h_main r <= n) (on k l)).

(** The value a history shows. *)
Definition shown (o : option hrec) : option KeyValue :=
  match o with Some r => if h_tomb r then None else Some (h_kv r) | None => None end.
Definition h_view (l : list hrec) (k : list Z) (n : Z) : option KeyValue := shown (seen l k n).

Definition h_sorted (l : list hrec) : Prop := StronglySorted rev_lt (h_rev <$> l).

(** What follows record [q] of the same key. *)
Definition follows (q r : hrec) : Prop :=
  if h_tomb q then
    h_tomb r = false /\ kvVersion (h_kv r) = 1 /\ kvCreateRevision (h_kv r) = h_main r
  else h_tomb r = true \/
    kvVersion (h_kv r) = kvVersion (h_kv q) + 1 /\ kvCreateRevision (h_kv r) = kvCreateRevision (h_kv q).

Definition coherent (l : list hrec) : Prop :=
  forall pre q r post, l = pre ++ q :: r :: post -> follows q r.

Lemma coherent_suffix l l' : l' `suffix_of` l -> coherent l -> coherent l'.
Proof. intros [p ->] Hc pre q r post ->. apply (Hc (p ++ pre) q r post). by rewrite (assoc_L (++)). Qed.

Lemma coherent_snoc l r : coherent (l ++ [r]) <-> coherent l /\ forall q, last l = Some q -> follows q r.
Proof.
  split.
  - intros Hc. split.
    + intros pre q r' post ->. apply (Hc pre q r' (post ++ [r])). by rewrite <- (assoc_L (++)).
    + intros q [l' ->]%last_Some. apply (Hc l' q r []). by rewrite <- (assoc_L (++)).
  - intros [Hc Hl] pre q r' post E. destruct post as [|x post _] using rev_ind.
    + change (q :: r' :: []) with ([q] ++ [r']) in E. rewrite (assoc_L (++)) in E. apply app_inj_tail in E as [-> ->].
      apply Hl. apply last_snoc.
    + assert (l ++ [r] = (pre ++ q :: r' :: post) ++ [x]) as E' by (rewrite E, <- (assoc_L (++)); done).
      apply app_inj_tail in E' as [-> _]. by eapply Hc.
Qed.

Lemma on_app k l1 l2 : on k (l1 ++ l2) = on k l1 ++ on k l2.
Proof. apply filter_app. Qed.

Lemma on_one k r : on k [r] = if decide (h_key r = k) then [r] else [].
Proof. unfold on. rewrite filter_cons, filter_nil. done. Qed.

Lemma seen_snoc l r k n :
  seen (l ++ [r]) k n = if decide (h_key r = k /\ h_main r <= n) then Some r else seen l k n.
Proof.
  unfold seen. rewrite on_app, on_one, filter_app. destruct (decide (h_key r = k)) as [Hk|Hk].
  - rewrite filter_cons, filter_nil. destruct (decide (h_main r <= n)) as [Hn|Hn].
    + rewrite decide_True by done. apply last_snoc.
    + rewrite decide_False by tauto. by rewrite app_nil_r.
  - rewrite decide_False by tauto. by rewrite filter_nil, app_nil_r.
Qed.

Lemma seen_elem l k n r : seen l k n = Some r -> r ∈ l /\ h_key r = k /\ h_main r <= n.
Proof.
  intros [l' E]%last_Some. assert (r ∈ filter (fun r => h_main r <= n) (on k l)) as Hin by (rewrite E; set_solver).
  apply list_elem_of_filter in Hin as [? [? ?]%list_elem_of_filter]. done.
Qed.

(** A suffix of the records of each key shows the same, or nothing. *)
Lemma seen_suffix l l' k n : on k l' `suffix_of` on k l ->
  seen l' k n = seen l k n \/ seen l' k n = None /\ forall r, r ∈ l' -> h_key r = k -> n < h_main r.
Proof.
  intros [p E]. unfold seen. rewrite E, filter_app. destruct (filter (fun r => h_main r <= n) (on k l')) as [|x y] eqn:Ef.
  - right. split; [done|]. intros r Hr Hk. destruct (decide (h_main r <= n)) as [Hn|]; [|lia]. exfalso.
    assert (r ∈ filter (fun r => h_main r <= n) (on k l')) as Hin; [|rewrite Ef in Hin; by apply not_elem_of_nil in Hin].
    apply list_elem_of_filter. split; [done|]. by apply list_elem_of_filter.
  - left. rewrite <- Ef. assert (filter (fun r => h_main r <= n) (on k l') <> []) as Hne by by rewrite Ef.
    destruct (filter (fun r => h_main r <= n) (on k l')) as [|z w _] using rev_ind; [done|].
    by rewrite (assoc_L (++)), !last_snoc.
Qed.

(** At the time of the newest record, all records of the key are seen. *)
Lemma seen_all l k n : (forall r, r ∈ l -> h_main r <= n) -> seen l k n = last (on k l).
Proof.
  intros Hl. unfold seen. f_equal.
  assert (forall r, r ∈ on k l -> h_main r <= n) as Ho by (intros r [_ Hr]%list_elem_of_filter; by apply Hl).
  induction (on k l) as [|r o IH]; [done|]. rewrite filter_cons, decide_True by (apply Ho; left).
  f_equal. apply IH. intros r' Hr'. apply Ho. by right.
Qed.

(** A filter that lets everything after its first hit pass keeps a suffix. *)
Lemma filter_suffix {A} (P : A -> Prop) `{!forall x, Decision (P x)} (l : list A) :
  (forall pre x mid y post, l = pre ++ x :: mid ++ y :: post -> P x -> P y) -> filter P l `suffix_of` l.
Proof.
  induction l as [|x l IH]; intros Hup; [done|]. rewrite filter_cons. destruct (decide (P x)) as [Hx|Hx].
  - assert (Forall P l) as HF.
    { apply Forall_forall. intros y (mid & post & ->)%list_elem_of_split. by apply (Hup [] x mid y post). }
    assert (filter P l = l) as ->; [|done]. clear -HF. induction HF as [|y l Hy _ IH]; [done|].
    rewrite filter_cons, decide_True by done. by rewrite IH.
  - apply suffix_cons_r, IH. intros pre y mid z post -> Hy. by apply (Hup (x :: pre) y mid z post).
Qed.

Lemma on_filter k (P : hrec -> Prop) `{!forall x, Decision (P x)} l : on k (filter P l) = filter P (on k l).
Proof.
  unfold on. induction l as [|r l IH]; [done|]. rewrite !filter_cons.
  destruct (decide (P r)) as [HP|HP], (decide (h_key r = k)) as [Hk|Hk]; rewrite ?filter_cons.
  - by rewrite !decide_True, IH by done.
  - by rewrite decide_False, IH by done.
  - by rewrite decide_False, IH by done.
  - done.
Qed.

Lemma filter_fmap {A B} (f : A -> B) (P : B -> Prop) `{!forall x, Decision (P x)} (l : list A) :
  filter P (f <$> l) = f <$> filter (fun x => P (f x)) l.
Proof.
  induction l as [|x l IH]; [done|]. rewrite fmap_cons, !filter_cons.
  destruct (decide (P (f x))); rewrite ?fmap_cons; by rewrite IH.
Qed.

(** No record of the key is between the newest one and the revision. *)
Lemma seen_max l k n r r' : h_sorted l -> seen l k n = Some r -> r' ∈ l -> h_key r' = k -> h_main r' <= n ->
  ~ rev_lt (h_rev r) (h_rev r').
Proof.
  induction l as [|x l IH] using rev_ind; [done|]. unfold h_sorted. rewrite fmap_app.
  intros (Hs & _ & Hlt)%sorted_app_inv. rewrite seen_snoc, elem_of_app, list_elem_of_singleton.
  intros Hseen Hr' Hk Hn Hc. destruct (decide (h_key x = k /\ h_main x <= n)) as [_|Hx].
  - injection Hseen as <-. destruct Hr' as [Hr'| ->]; [|by destruct (irreflexivity rev_lt _ Hc)].
    assert (rev_lt (h_rev r') (h_rev x)) as Hc' by (apply Hlt; [by apply list_elem_of_fmap_2|left]).
    destruct (irreflexivity rev_lt (h_rev x)). by etrans.
  - destruct Hr' as [Hr'| ->]; [|by destruct Hx]. by apply (IH Hs Hseen Hr' Hk Hn).
Qed.

(** ** Replay *)

(** A revision whose sub revision can be counted on. *)
Definition rev_ok (r : revision) : Prop := is_rev r /\ rv_sub r < MaxInt64.

(** A value that fits the wire format. *)
Definition kv_fits (kv : KeyValue) : Prop := KeyValue_wf kv /\ KeyValue_Size kv < 9223372036854775808.

Definition rec_ok (r : hrec) : Prop :=
  rev_ok (h_rev r) /\ 1 < h_main r /\ kv_fits (h_kv r) /\ 
  (h_tomb r = false -> 1 <= kvVersion (h_kv r) < MaxInt64 /\ kvModRevision (h_kv r) = h_main r).

Section replay.
  Context {M : Type -> Type} {om : OMap M} {laws : OMapLaws M}.
  Implicit Types (ti : treeIndex (M := M)) (l : list hrec) (r : hrec).

(** What [restore] does to the index for a record. *)
Definition replay_rec ti r : outcome (treeIndex (M := M)) :=
  if h_tomb r then let! '(ti, _) := ti_Tombstone ti (h_key r) (h_rev r) in Ok ti
  else ti_Restore ti (h_key r) (Revision (kvCreateRevision (h_kv r)) 0) (h_rev r) (kvVersion (h_kv r)).

(** The index answers with the newest record. *)
Definition answers (a : option (revision * revision * Z)) (o : option hrec) : Prop :=
  match o with
  | Some r => if h_tomb r then a = None
      else exists c, a = Some (h_rev r, c, kvVersion (h_kv r)) /\ rv_main c = kvCreateRevision (h_kv r)
  | None => a = None
  end.

Record replayed ti l : Prop := {
  rp_ok : ti_ok ti;
  rp_before : forall r' : revision, Forall (fun r => rev_lt (h_rev r) r') l -> ti_before ti r';
  rp_view : forall k n, answers (ti_view ti k n) (seen l k n);
  rp_known : forall k, om_get k ti <> None -> on k l <> [];
}.

(** What the index knows of the key before the record. *)
Lemma replay_before ti l r n : replayed ti l -> Forall rec_ok l ->
  Forall (fun q => rev_lt (h_rev q) (h_rev r)) l -> h_main r <= n ->
  answers (ti_view ti (h_key r) n) (last (on (h_key r) l)) /\ answer_ver (ti_view ti (h_key r) n) < MaxInt64.
Proof.
  intros Hrp Hl Hlt Hn. pose proof (rp_view _ _ Hrp (h_key r) n) as Ha. rewrite seen_all in Ha.
  - split; [done|]. destruct (last (on (h_key r) l)) as [q|] eqn:E; simpl in Ha; [|by rewrite Ha].
    destruct (h_tomb q) eqn:Eq; [by rewrite Ha|]. destruct Ha as (c & -> & _). simpl.
    apply last_Some_elem_of in E. apply list_elem_of_filter in E as [_ E]. rewrite Forall_forall in Hl.
    destruct (Hl q E) as (_ & _ & _ & Hv). specialize (Hv Eq). lia.
  - intros q Hq. rewrite Forall_forall in Hlt. specialize (Hlt q Hq). unfold h_main, rev_lt in *. lia.
Qed.

Lemma replayed_snoc ti ti' l r : replayed ti l -> ti_ok ti' -> (forall r' : revision, rev_lt (h_rev r) r' -> ti_before ti' r') ->
  (forall k n, k <> h_key r \/ n < h_main r -> ti_view ti' k n = ti_view ti k n) ->
  (forall n, h_main r <= n -> answers (ti_view ti' (h_key r) n) (Some r)) ->
  (forall k, k <> h_key r -> om_get k ti' = None <-> om_get k ti = None) ->
  replayed ti' (l ++ [r]).
Proof.
  intros Hrp Hok Hb Hold Hnew Hk. split; [done| | |].
  - intros r' [_ Hr']%Forall_app. refine (Hb r' _). by rewrite Forall_singleton in Hr'.
  - intros k n. rewrite seen_snoc. destruct (decide (h_key r = k /\ h_main r <= n)) as [[<- Hn]|Hn]; [by apply Hnew|].
    rewrite Hold; [apply (rp_view _ _ Hrp)|]. destruct (decide (k = h_key r)) as [->|]; [right|by left]. destruct (decide (h_main r <= n)); [by destruct Hn|lia].
  - intros k. rewrite on_app, on_one. destruct (decide (h_key r = k)) as [<-|Hne]; [intros _ E; by destruct (on (h_key r) l)|].
    rewrite app_nil_r, Hk by done. apply (rp_known _ _ Hrp).
Qed.

Lemma replay_tomb ti l r : replayed ti l -> Forall rec_ok l -> h_tomb r = true ->
  Forall (fun q => rev_lt (h_rev q) (h_rev r)) l -> (forall q, last (on (h_key r) l) = Some q -> follows q r) ->
  exists ti', replay_rec ti r = Ok ti' /\ replayed ti' (l ++ [r]).
Proof.
  intros Hrp Hl Ht Hlt Hf. unfold replay_rec. rewrite Ht.
  pose proof (fun n => replay_before ti l r n Hrp Hl Hlt) as Hbef.
  destruct (Hbef (h_main r)) as [Ha Hv]; [done|].
  destruct (ti_Tombstone_spec ti (h_key r) (h_rev r)) as (ti' & E & Hok' & Hb' & Hview);
    [apply (rp_ok _ _ Hrp)|by apply (rp_before _ _ Hrp)|done|].
  pose proof (fun k => ti_Tombstone_keys _ _ _ _ _ k E) as Hkeys. rewrite E. gosimpl.
  exists ti'. split; [done|]. eapply replayed_snoc; [done|done|done| | |by intros; apply Hkeys].
  - intros k n Hk. rewrite Hview. destruct (decide _) as [[<- _]|]; [|done]. zif; [|done].
    destruct Hk; [done|unfold h_main in *; lia].
  - intros n Hn. cbn [answers]. rewrite Ht, Hview. fold (h_main r). destruct (decide _) as [|Hn'].
    + zif; [done|lia].
    + assert (ti_view ti (h_key r) (h_main r) = None) as E0 by (destruct (ti_view ti (h_key r) (h_main r)); [|done]; destruct Hn'; by split).
      rewrite E0 in Ha. destruct (last (on (h_key r) l)) as [q|] eqn:Eq.
      * specialize (Hf q eq_refl). unfold follows in Hf. simpl in Ha. destruct (h_tomb q); [|by destruct Ha as (c & ? & _)].
        destruct Hf as [Hf _]. congruence.
      * destruct (Hbef n Hn) as [Ha' _]. exact Ha'.
Qed.

Lemma replay_put ti l r : replayed ti l -> rec_ok r -> Forall rec_ok l -> h_tomb r = false ->
  Forall (fun q => rev_lt (h_rev q) (h_rev r)) l -> (forall q, last (on (h_key r) l) = Some q -> follows q r) ->
  exists ti', replay_rec ti r = Ok ti' /\ replayed ti' (l ++ [r]).
Proof.
  intros Hrp (_ & _ & _ & Hver) Hl Ht Hlt Hf. unfold replay_rec. rewrite Ht. specialize (Hver Ht).
  pose proof (fun n => replay_before ti l r n Hrp Hl Hlt) as Hbef.
  destruct (Hbef (h_main r)) as [_ Hv]; [done|].
  destruct (ti_Restore_spec ti (h_key r) (Revision (kvCreateRevision (h_kv r)) 0) (h_rev r) (kvVersion (h_kv r)))
    as (ti' & -> & Hok' & Hb' & Hkeys & Hview); [apply (rp_ok _ _ Hrp)|by apply (rp_before _ _ Hrp)|done|lia|].
  exists ti'. split; [done|]. eapply replayed_snoc; [done|done|done| | |by intros k Hk; rewrite Hkeys; tauto].
  - intros k n Hk. rewrite Hview. destruct (decide _) as [<-|]; [|done]. zif; [|done].
    destruct Hk; [done|unfold h_main in *; lia].
  - intros n Hn. cbn [answers]. rewrite Ht, Hview. fold (h_main r). rewrite decide_True by done. zif; [|lia].
    pose proof (rp_known _ _ Hrp (h_key r)) as Hkn. destruct (om_get (h_key r) ti); [|by eexists].
    destruct (Hbef n Hn) as [Ha _]. destruct (last (on (h_key r) l)) as [q|] eqn:Eq.
    + specialize (Hf q eq_refl). unfold follows in Hf. simpl in Ha. destruct (h_tomb q).
      * rewrite Ha. destruct Hf as (_ & -> & ->). by eexists.
      * destruct Ha as (c & -> & Hc). destruct Hf as [Hf|[-> ->]]; [congruence|]. by eexists.
    + apply last_None in Eq. by destruct Hkn.
Qed.

(** Replaying the records of a history, of which the oldest ones of some keys may
    be missing, gives an index that answers with the newest record. *)
Lemma replay_spec l : Forall rec_ok l -> h_sorted l -> (forall k, coherent (on k l)) ->
  exists ti, foldM replay_rec l newTreeIndex = Ok ti /\ replayed ti l.
Proof.
  induction l as [|r l IH] using rev_ind; intros Hl Hs Hc.
  { exists newTreeIndex. split; [done|]. split; [apply new_ok|intros; apply new_before| |].
    - intros k n. apply new_view.
    - intros k. unfold newTreeIndex. by rewrite om_get_empty. }
  apply Forall_app in Hl as [Hl Hr]. rewrite Forall_singleton in Hr. unfold h_sorted in Hs. rewrite fmap_app in Hs.
  apply sorted_app_inv in Hs as (Hs & _ & Hlt). destruct IH as (ti & E & Hrp); [done|done| |].
  { intros k. specialize (Hc k). rewrite on_app, on_one in Hc. destruct (decide (h_key r = k)).
    - by apply coherent_snoc in Hc as [? _].
    - by rewrite app_nil_r in Hc. }
  rewrite foldM_app, E. gosimpl.
  assert (Forall (fun q => rev_lt (h_rev q) (h_rev r)) l) as HF.
  { apply Forall_forall. intros q Hq. apply Hlt; [by apply list_elem_of_fmap_2|by left]. }
  assert (forall q, last (on (h_key r) l) = Some q -> follows q r) as Hf.
  { specialize (Hc (h_key r)). rewrite on_app, on_one, decide_True in Hc by done. by apply coherent_snoc in Hc as [_ ?]. }
  assert (exists ti', replay_rec ti r = Ok ti' /\ replayed ti' (l ++ [r])) as (ti' & E' & ?).
  { destruct (h_tomb r) eqn:Et; [by apply replay_tomb|by apply replay_put]. }
  exists ti'. cbn [foldM]. by rewrite E'.
Qed.
End replay.
