(* ===== verification/KVSpec.v ===== *)
(** What the multi-version store promises.

    The abstract store is a sequence of maps from keys to values, one for each
    revision: [a_at a r] is the content at revision [r].  A change makes a new
    revision, and the changes of one transaction make one revision together.
    [kv_ok s a] relates the store of KVStore with the abstract store; the
    theorems that the operations preserve the relation are in KVRefine. *)

From S2P Require Import Prelude RaftPB Proto RaftCodec OrderedMap Revision KeyIndex TreeIndex StorePB Backend Lessor KVStore KVHistory.

(** [a_rev] is the current revision; changes of an open transaction are seen
    from the next one on.  [a_dirty]: the transaction has changed something.
    [a_named] lists the leases that puts have named. *)
Record akv := AKV {
  a_rev : Z;
  a_dirty : bool;
  a_compact : Z;
  a_at : Z -> gmap (list Z) KeyValue;
  a_named : list Z;
}.
#[global] Instance akv_eta : Eta akv := fun a => AKV (a_rev a) (a_dirty a) (a_compact a) (a_at a) (a_named a).

Definition a_next (a : akv) : Z := a_rev a + 1.

(** The content including the changes of the open transaction. *)
Definition a_now (a : akv) : gmap (list Z) KeyValue := a_at a (a_next a).

(** The revision an operation of the transaction reads by default. *)
Definition a_cur (a : akv) : Z := if a_dirty a then a_next a else a_rev a.

Definition a_change (a : akv) (lease : Z) (f : gmap (list Z) KeyValue -> gmap (list Z) KeyValue) : akv :=
  a <| a_at := fun r => if a_next a <=? r then f (a_at a r) else a_at a r |> <| a_dirty := true |>
    <| a_named := lease :: a_named a |>.

(** The value a put writes: created now unless the key exists. *)
Definition a_value (a : akv) (key value : list Z) (lease : Z) : KeyValue :=
  match a_now a !! key with
  | Some old => mkKeyValue key (kvCreateRevision old) (a_next a) (kvVersion old + 1) value lease
  | None => mkKeyValue key (a_next a) (a_next a) 1 value lease
  end.

Definition a_put (a : akv) (key value : list Z) (lease : Z) : akv :=
  a_change a lease (fun m => <[key := a_value a key value lease]> m).

Definition a_delete (a : akv) (key : list Z) : akv := a_change a NoLease (delete key).

#[global] Instance in_range_dec key endk k : Decision (in_range key endk k).
Proof. destruct endk as [[|x e]|]; simpl; apply _. Defined.

(** The keys a range request addresses, in order. *)
Definition a_list (m : gmap (list Z) KeyValue) (key : list Z) (endk : option (list Z)) : list KeyValue :=
  (merge_sort key_le (filter (fun p => in_range key endk p.1) (map_to_list m))).*2.

Definition a_deleteRange (a : akv) (key : list Z) (endk : option (list Z)) : akv :=
  foldl a_delete a (kvKey <$> a_list (a_now a) key endk).

Definition a_limit (limit : Z) (l : list KeyValue) : list KeyValue :=
  if limit >? 0 then take (Z.to_nat limit) l else l.

(** The answer to a range request. *)
Definition a_range (a : akv) (key : list Z) (endk : option (list Z)) (limit rangeRev : Z)
  : list KeyValue * Z * option storage_error :=
  if rangeRev >? a_cur a then ([], a_rev a, Some ErrFutureRev) else
  let rev := if rangeRev <=? 0 then a_cur a else rangeRev in
  if rev <=? a_compact a then ([], 0, Some ErrCompacted) else
  (a_limit limit (a_list (a_at a rev) key endk), a_cur a, None).

(** The end of a transaction. *)
Definition a_end (a : akv) : akv :=
  a <| a_rev := (if a_dirty a then a_next a else a_rev a) |> <| a_dirty := false |>.

(** ** Requests *)

Inductive txn_op :=
| TRange (key : list Z) (endk : option (list Z)) (limit rangeRev : Z)
| TPut (key value : list Z) (lease : Z)
| TDelete (key : list Z) (endk : option (list Z)).

(** [id] is the random ID of the transaction; [KBatch] is one batch of a
    scheduled compaction. *)
Inductive kv_op :=
| KRange (id : Z) (key : list Z) (endk : option (list Z)) (limit rangeRev : Z)
| KPut (id : Z) (key value : list Z) (lease : Z)
| KDelete (id : Z) (key : list Z) (endk : option (list Z))
| KTxn (id : Z) (ops : list txn_op)
| KCompact (rev : Z)
| KBatch
| KCommit.

Inductive reply :=
| ReplyRange (r : list KeyValue * Z * option storage_error)
| ReplyPut (rev : Z)
| ReplyDelete (n rev : Z)
| ReplyTxn (rs : list reply)
| ReplyCompact (err : option storage_error)
| ReplyNone.

Definition a_txn_step (a : akv) (op : txn_op) : akv * reply :=
  match op with
  | TRange key endk limit rev => (a, ReplyRange (a_range a key endk limit rev))
  | TPut key value lease => (a_put a key value lease, ReplyPut (a_next a))
  | TDelete key endk =>
      let n := zlen (a_list (a_now a) key endk) in
      let a' := a_deleteRange a key endk in (a', ReplyDelete n (a_cur a'))
  end.

Fixpoint a_txn (a : akv) (ops : list txn_op) : akv * list reply :=
  match ops with
  | [] => (a, [])
  | op :: ops' => let '(a, r) := a_txn_step a op in let '(a, rs) := a_txn a ops' in (a, r :: rs)
  end.

Definition a_step (a : akv) (op : kv_op) : akv * reply :=
  match op with
  | KRange _ key endk limit rev => (a_end a, ReplyRange (a_range a key endk limit rev))
  | KPut _ key value lease => let a := a_end (a_put a key value lease) in (a, ReplyPut (a_rev a))
  | KDelete _ key endk =>
      let n := zlen (a_list (a_now a) key endk) in
      let a := a_end (a_deleteRange a key endk) in (a, ReplyDelete n (a_rev a))
  | KTxn _ ops => let '(a, rs) := a_txn a ops in (a_end a, ReplyTxn rs)
  | KCompact rev =>
      if rev <=? a_compact a then (a, ReplyCompact (Some ErrCompacted)) else
      if rev >? a_rev a then (a, ReplyCompact (Some ErrFutureRev)) else
      (a <| a_compact := rev |>, ReplyCompact None)
  | KBatch | KCommit => (a, ReplyNone)
  end.

Fixpoint a_run (a : akv) (ops : list kv_op) : akv * list reply :=
  match ops with
  | [] => (a, [])
  | op :: ops' => let '(a, r) := a_step a op in let '(a, rs) := a_run a ops' in (a, r :: rs)
  end.

(** The same requests to the store. *)
Section requests.
  Context {M : Type -> Type} {om : OMap M}.
  Implicit Types (s : store M).

Definition txn_step s (id : Z) (op : txn_op) : outcome (store M * reply) :=
  match op with
  | TRange key endk limit rev => let! r := TxnRange s id key endk limit rev in Ok (s, ReplyRange r)
  | TPut key value lease => let! '(s, (rev, _)) := TxnPut s id key value lease in Ok (s, ReplyPut rev)
  | TDelete key endk => let! '(s, (n, rev, _)) := TxnDeleteRange s id key endk in Ok (s, ReplyDelete n rev)
  end.

Fixpoint txn_steps s (id : Z) (ops : list txn_op) : outcome (store M * list reply) :=
  match ops with
  | [] => Ok (s, [])
  | op :: ops' =>
      let! '(s, r) := txn_step s id op in
      let! '(s, rs) := txn_steps s id ops' in Ok (s, r :: rs)
  end.

Definition kv_step s (op : kv_op) : outcome (store M * reply) :=
  match op with
  | KRange id key endk limit rev => let! '(s, r) := Range s id key endk limit rev in Ok (s, ReplyRange r)
  | KPut id key value lease => let! '(s, rev) := Put s id key value lease in Ok (s, ReplyPut rev)
  | KDelete id key endk => let! '(s, (n, rev)) := DeleteRange s id key endk in Ok (s, ReplyDelete n rev)
  | KTxn id ops =>
      let s := TxnBegin s id in
      let! '(s, rs) := txn_steps s id ops in
      let '(s, _) := TxnEnd s id in Ok (s, ReplyTxn rs)
  | KCompact rev => let! '(s, err) := store_Compact s rev in Ok (s, ReplyCompact err)
  | KBatch => let! s := compaction_step s in Ok (s, ReplyNone)
  | KCommit => Ok (Commit s, ReplyNone)
  end.

Fixpoint kv_run s (ops : list kv_op) : outcome (store M * list reply) :=
  match ops with
  | [] => Ok (s, [])
  | op :: ops' =>
      let! '(s, r) := kv_step s op in
      let! '(s, rs) := kv_run s ops' in Ok (s, r :: rs)
  end.
End requests.

(** ** The relation *)

Section relation.
  Context {M : Type -> Type} {om : OMap M}.
  Implicit Types (s : store M) (a : akv).

(** Lease [id] exists, and key [key] is attached to it. *)
Definition lease_known s (id : Z) : Prop :=
  exists le l, s_le s = Some le /\ le_leaseMap le !! id = Some l.

Definition attached s (id : Z) (key : list Z) : Prop :=
  exists le l, s_le s = Some le /\ le_leaseMap le !! id = Some l /\ key ∈ l_itemSet l.

(** What the key bucket holds for the change [r] of a key. *)
Definition stored (m : M (list Z)) (key : list Z) (x : revision * revision * Z) (kv : KeyValue) : Prop :=
  let '(r, c, v) := x in
  rev_ok r /\ om_get (revToBytes r) m = Some (KeyValue_MarshalTo kv) /\ kv_fits kv /\
  kvKey kv = key /\ kvModRevision kv = rv_main r /\ kvCreateRevision kv = rv_main c /\ kvVersion kv = v.

(** All changes so far are before the frontier. *)
Definition frontier s : revision :=
  if rv_sub (s_currentRev s) =? 0 then Revision (cur_main s) 9223372036854775808
  else Revision (cur_main s + 1) (rv_sub (s_currentRev s)).

(** The history of changes [H] and the records [L] that compactions have left in
    the bucket: the newest ones of each key. *)
Record hist s a (H L : list hrec) : Prop := {
  hs_sorted : h_sorted H;
  hs_recs : Forall (fun r => rec_ok r /\ rev_lt (h_rev r) (frontier s)) H;
  hs_coherent : forall k, coherent (on k H);
  hs_shown : forall k n, a_at a n !! k = h_view H k n;
  hs_index : forall k n, a_compact a <= n -> answers (ti_view (s_kvindex s) k n) (seen H k n);
  hs_sub : L `sublist_of` H;
  hs_suffix : forall k, on k L `suffix_of` on k H;
  hs_recent : forall r, r ∈ H -> a_compact a < h_main r -> r ∈ L;
  hs_visible : forall k n r, a_compact a <= n -> seen H k n = Some r -> h_tomb r = false -> r ∈ L;
  hs_last : a_cur a = 1 \/ exists r, r ∈ H /\ h_main r = a_cur a;
  hs_leases : forall r, r ∈ H -> kvLease (h_kv r) ∈ a_named a;
}.

(** A scheduled compaction keeps what can be seen at its revision, and has
    removed the other records before its next key. *)
Record job_hist (H L : list hrec) (j : job) : Prop := {
  jh_revs : forall q, q ∈ j_keep j -> rv_main q <= j_rev j;
  jh_keep : forall r, r ∈ H -> h_rev r ∈ j_keep j -> seen H (h_key r) (j_rev j) = Some r;
  jh_done : forall r, r ∈ L -> bytes_lt (h_bytes r).1 (j_last j) -> h_rev r ∈ j_keep j;
  jh_ahead : forall r rest, is_rev r -> j_rev j < rv_main r -> ~ bytes_lt (revToBytes r ++ rest) (j_last j);
}.

(** The compaction marks of the meta bucket: [f] is the last finished one. *)
Definition mark (f : Z) : option (list Z) := if f <? 0 then None else Some (revToBytes (Revision f 0)).

Definition meta_ok s a (mm : M (list Z)) : Prop :=
  om_get scheduledCompactKeyName mm = mark (a_compact a) /\
  exists f, -1 <= f /\ om_get finishedCompactKeyName mm = mark f /\
    StronglySorted Z.lt (f :: (j_rev <$> s_jobs s)) /\ last (f :: (j_rev <$> s_jobs s)) = Some (a_compact a).

Record kv_core s a (m : M (list Z)) : Prop := {
  k_main : cur_main s = a_rev a /\ 1 <= a_rev a;
  k_sub : 0 <= rv_sub (s_currentRev s) <= MaxInt64 /\ a_dirty a = (rv_sub (s_currentRev s) >? 0);
  k_compact : s_compactMainRev s = a_compact a /\ -1 <= a_compact a <= a_rev a;
  k_index : ti_ok (s_kvindex s) /\ ti_before (s_kvindex s) (frontier s);
  k_bucket : b_tx (s_b s) !! keyBucketName = Some m;
  k_meta : exists mm, b_tx (s_b s) !! metaBucketName = Some mm /\ meta_ok s a mm;
  k_jobs : forall j, j ∈ s_jobs s -> 0 <= j_rev j <= a_compact a /\
    forall key at_rev r c v, a_compact a <= at_rev ->
      ti_view (s_kvindex s) key at_rev = Some (r, c, v) -> rv_main r <= j_rev j -> r ∈ j_keep j;
  k_hist : exists H L, hist s a H L /\ om_items m = h_bytes <$> L /\ forall j, j ∈ s_jobs s -> job_hist H L j;
}.

(** Exactly the keys with a lease are attached to it. *)
Definition leases_ok s a : Prop := forall id key, attached s id key <->
  id <> NoLease /\ exists kv, a_now a !! key = Some kv /\ kvLease kv = id.

Definition kv_ok s a : Prop := (exists m, kv_core s a m) /\ leases_ok s a.
End relation.
