(* ===== verification/KVDisk.v ===== *)
(** What the operations of the store write.

    An operation changes the buckets of the open transaction, and commits at its
    end if at all: a crash loses whole operations. *)

From S2P Require Import Prelude RaftPB Proto RaftCodec OrderedMap Revision KeyIndex TreeIndex StorePB Backend Lessor KVStore KVHistory KVSpec.

Section disk.
  Context {M : Type -> Type} {om : OMap M}.
  Implicit Types (s : store M).

Lemma store_le_writes s s' (f : lessor -> lessor * option lease_error) why :
  match s_le s with
  | None => Panic why
  | Some le => let '(le, err) := f le in match err with Some _ => Panic why | None => Ok (s <| s_le := Some le |>) end
  end = Ok s' -> s_b s' = s_b s.
Proof. destruct (s_le s); [|done]. destruct (f _) as [le [|]]; [done|]. by intros [= <-]. Qed.

Lemma store_put_writes s key value lease s' : store_put s key value lease = Ok s' -> writes (s_b s) (s_b s').
Proof.
  unfold store_put. intros (got & _ & H)%bind_Ok_inv. apply bind_Ok_inv in H as ([[c ver] old] & _ & H).
  apply bind_Ok_inv in H as (d & _ & H). apply bind_Ok_inv in H as (b & Hb & H). apply bind_Ok_inv in H as (ti & _ & H).
  apply bind_Ok_inv in H as (s1 & H1 & H). apply unsafePut_writes in Hb. assert (s_b s1 = b) as Es1.
  { destruct (negb _) in H1; [by apply store_le_writes in H1|by injection H1 as <-]. }
  assert (s_b s' = s_b s1) as -> by (destruct (negb _) in H; [by apply store_le_writes in H|by injection H as <-]).
  by rewrite Es1.
Qed.

Lemma store_delete_writes s key rev s' : store_delete s key rev = Ok s' -> writes (s_b s) (s_b s').
Proof.
  unfold store_delete. intros (ib & _ & H)%bind_Ok_inv. apply bind_Ok_inv in H as (d & _ & H).
  apply bind_Ok_inv in H as (b & Hb & H). apply bind_Ok_inv in H as ([ti err] & _ & H). destruct err; [done|].
  apply bind_Ok_inv in H as (kv & _ & H). apply unsafePut_writes in Hb.
  assert (s_b s' = b) as -> by (destruct (negb _) in H; [by apply store_le_writes in H|by injection H as <-]). done.
Qed.

Lemma deleteRange_writes s key endk s' n : deleteRange s key endk = Ok (s', n) -> writes (s_b s) (s_b s').
Proof.
  unfold deleteRange. intros ([keys revs] & _ & H)%bind_Ok_inv. destruct (zlen keys =? 0); [by injection H as <- _|].
  apply bind_Ok_inv in H as (s1 & H1 & H). injection H as -> _. revert s H1.
  induction (zip keys revs) as [|[k r] krs IH]; intros s H1; [by injection H1 as <-|].
  apply bind_Ok_inv in H1 as (s2 & H2 & H1). apply store_delete_writes in H2. etrans; [exact H2|by apply IH].
Qed.

Lemma txn_step_writes s id op s' r : txn_step s id op = Ok (s', r) -> writes (s_b s) (s_b s').
Proof.
  destruct op as [key endk limit rev|key value lease|key endk]; simpl; intros H.
  - apply bind_Ok_inv in H as (x & _ & H). by injection H as <- _.
  - apply bind_Ok_inv in H as ([s1 [rv err]] & H1 & H). injection H as -> _. unfold TxnPut in H1.
    destruct (negb _); [by injection H1 as <- _|]. apply bind_Ok_inv in H1 as (s2 & H2 & H1). injection H1 as <- _.
    by eapply store_put_writes.
  - apply bind_Ok_inv in H as ([s1 [[n rv] err]] & H1 & H). injection H as -> _. unfold TxnDeleteRange in H1.
    destruct (negb _); [by injection H1 as <- _|]. apply bind_Ok_inv in H1 as ([s2 n2] & H2 & H1). injection H1 as <- _.
    by eapply deleteRange_writes.
Qed.

Lemma txn_steps_writes ops s id s' rs : txn_steps s id ops = Ok (s', rs) -> writes (s_b s) (s_b s').
Proof.
  revert s s' rs. induction ops as [|op ops IH]; intros s s' rs H; simpl in H; [by injection H as <- _|].
  apply bind_Ok_inv in H as ([s1 r1] & H1 & H). apply bind_Ok_inv in H as ([s2 rs2] & H2 & H). injection H as <- _.
  apply txn_step_writes in H1. etrans; [exact H1|by eapply IH].
Qed.

Lemma txnEnd_flushes s s1 id s2 err : writes (s_b s) (s_b s1) -> txnEnd s1 id = (s2, err) -> flushes (s_b s) (s_b s2).
Proof.
  intros Hw. unfold txnEnd. destruct (negb _); intros [= <- _]; [|by apply writes_flushes].
  intros Hb. destruct Hw as (Hd & Hok & _). auto.
Qed.

Lemma compact_key_writes keep ks (b : backend M) rev0 b' rev' : foldM (compact_key keep) ks (b, rev0) = Ok (b', rev') -> writes b b'.
Proof.
  revert b rev0. induction ks as [|k ks IH]; intros b rev0 H; [by injection H as <- _|]. cbn [foldM] in H.
  apply bind_Ok_inv in H as ([b1 rev1] & H1 & H). unfold compact_key in H1. apply bind_Ok_inv in H1 as (r & _ & H1).
  destruct (bool_decide _); [injection H1 as <- _; by eapply IH|]. apply bind_Ok_inv in H1 as (b2 & H2 & H1).
  injection H1 as <- _. apply UnsafeDelete_writes in H2. etrans; [exact H2|by eapply IH].
Qed.

Lemma kv_step_flushes s op s' r : kv_step s op = Ok (s', r) -> flushes (s_b s) (s_b s').
Proof.
  destruct op as [id key endk limit rev|id key value lease|id key endk|id ops|rev| |]; cbn [kv_step]; intros H.
  - apply bind_Ok_inv in H as ([s1 x] & H1 & H). injection H as -> _. apply bind_Ok_inv in H1 as (y & _ & H1).
    destruct (txnEnd (TxnBegin s id) id) as [s2 err] eqn:E. injection H1 as <- _. by eapply txnEnd_flushes; [|exact E].
  - apply bind_Ok_inv in H as ([s1 x] & H1 & H). injection H as -> _. apply bind_Ok_inv in H1 as (s2 & H2 & H1).
    destruct (txnEnd s2 id) as [s3 err] eqn:E. injection H1 as <- _. eapply txnEnd_flushes; [|exact E].
    by apply store_put_writes in H2.
  - apply bind_Ok_inv in H as ([s1 [n rv]] & H1 & H). injection H as -> _. apply bind_Ok_inv in H1 as ([s2 n2] & H2 & H1).
    destruct (txnEnd s2 id) as [s3 err] eqn:E. injection H1 as <- _. eapply txnEnd_flushes; [|exact E].
    by apply deleteRange_writes in H2.
  - apply bind_Ok_inv in H as ([s1 rs] & H1 & H). unfold TxnEnd in H. destruct (txnEnd s1 id) as [s3 err] eqn:E.
    injection H as <- _. eapply txnEnd_flushes; [|exact E]. by apply txn_steps_writes in H1.
  - apply bind_Ok_inv in H as ([s1 err] & H1 & H). injection H as -> _. unfold store_Compact in H1.
    destruct (rev <=? _); [injection H1 as <- _; by split; [|left]|]. destruct (rev >? _); [injection H1 as <- _; by split; [|left]|].
    apply bind_Ok_inv in H1 as (b & Hb & H1). apply bind_Ok_inv in H1 as ([ti keep] & _ & H1). injection H1 as <- _.
    apply unsafePut_writes in Hb as (_ & Hok & _). intros Hb. destruct (Unlock_disk b (Hok Hb)) as [Hu _].
    destruct (ForceCommit_disk _ Hu) as [Hf Hd]. split; [done|by right].
  - apply bind_Ok_inv in H as (s1 & H1 & H). injection H as -> _. unfold compaction_step in H1.
    destruct (s_jobs s) as [|j jobs]; [injection H1 as <-; by split; [|left]|].
    apply bind_Ok_inv in H1 as (kvs & _ & H1). apply bind_Ok_inv in H1 as ([b rev'] & Hb & H1). apply compact_key_writes in Hb.
    destruct (zlen kvs <? batchsize).
    + apply bind_Ok_inv in H1 as (b2 & Hb2 & H1). injection H1 as <-. apply unsafePut_writes in Hb2. simpl.
      apply writes_flushes. by etrans.
    + injection H1 as <-. simpl. by apply writes_flushes.
  - injection H as <- _. intros Hb. destruct (ForceCommit_disk _ Hb). split; [done|by right].
Qed.

(** No bucket is lost. *)
Lemma DeleteRange_buckets s id key endk s' x name : DeleteRange s id key endk = Ok (s', x) ->
  is_Some (b_tx (s_b s) !! name) -> is_Some (b_tx (s_b s') !! name).
Proof.
  unfold DeleteRange. intros ([s2 n2] & H2 & H1)%bind_Ok_inv Hb. apply deleteRange_writes in H2 as (_ & _ & Hk).
  specialize (Hk name Hb). unfold txnEnd in H1. destruct (negb _); injection H1 as <- _; [done|]. simpl. by rewrite Unlock_tx.
Qed.
End disk.
