(* ===== verification/KVRefine.v ===== *)
(** The store implements its specification: every operation of KVStore keeps
    the relation [kv_ok] of KVSpec with the abstract operation, and a range
    request returns what the abstract store holds at the revision. *)

From S2P Require Import Prelude RaftPB Proto RaftCodec OrderedMap Revision KeyIndex TreeIndex StorePB Backend Lessor KVStore KVHistory KVSpec.

Section refine.
  Context {M : Type -> Type} {om : OMap M} {laws : OMapLaws M}.
  Implicit Types (s : store M) (a : akv) (m : M (list Z)).

(** ** The records of the bucket *)

(** A record of the bucket is one of the history. *)
Lemma bucket_rec s a m k v : kv_core s a m -> om_get k m = Some v ->
  exists H L r, hist s a H L /\ om_items m = h_bytes <$> L /\ r ∈ L /\ r ∈ H /\ h_bytes r = (k, v)
  /\ rec_ok r /\ rev_lt (h_rev r) (frontier s).
Proof.
  intros Hok Hk. destruct (k_hist _ _ _ Hok) as (H & L & Hh & El & _). apply om_items_get in Hk. rewrite El in Hk.
  apply list_elem_of_fmap in Hk as (r & E & Hr). pose proof (sublist_subseteq _ _ (hs_sub _ _ _ _ Hh) _ Hr) as HrH.
  pose proof (hs_recs _ _ _ _ Hh) as HF. rewrite Forall_forall in HF. destruct (HF r HrH). exists H, L, r. done.
Qed.

Lemma k_keys s a m : kv_core s a m -> forall k v, om_get k m = Some v ->
  exists r, rev_ok r /\ rev_lt r (frontier s) /\ (k = revToBytes r \/ k = revToBytes r ++ [markTombstone]).
Proof.
  intros Hok k v Hk. destruct (bucket_rec _ _ _ _ _ Hok Hk) as (H & L & r & _ & _ & _ & _ & E & Hr & Hf).
  exists (h_rev r). split; [apply Hr|]. split; [done|]. apply pair_equal_spec in E as [<- _].
  destruct (h_tomb r); [by right|by left].
Qed.

Lemma sorted_rev_inj l r1 r2 : h_sorted l -> r1 ∈ l -> r2 ∈ l -> h_rev r1 = h_rev r2 -> r1 = r2.
Proof.
  unfold h_sorted. induction l as [|r l IH]; [by intros _ ?%not_elem_of_nil|]. rewrite fmap_cons.
  intros [Hs HF]%StronglySorted_inv H1 H2 E. rewrite Forall_forall in HF.
  assert (forall r', r' ∈ l -> h_rev r' <> h_rev r) as Hne.
  { intros r' Hr' E'. specialize (HF (h_rev r')). rewrite E' in HF.
    destruct (irreflexivity rev_lt (h_rev r)). apply HF. rewrite <- E'. by apply list_elem_of_fmap_2. }
  apply elem_of_cons in H1 as [->|H1], H2 as [->|H2]; [done| | |by apply IH].
  - by destruct (Hne r2).
  - by destruct (Hne r1).
Qed.

Lemma k_once s a m : kv_core s a m -> forall r v, om_get (revToBytes r) m = Some v ->
  om_get (revToBytes r ++ [markTombstone]) m = None.
Proof.
  intros Hok r v H1. destruct (om_get (revToBytes r ++ [markTombstone]) m) as [v'|] eqn:H2; [exfalso|done].
  destruct (k_hist _ _ _ Hok) as (H & L & Hh & El & _). apply om_items_get in H1, H2. rewrite El in H1, H2.
  apply list_elem_of_fmap in H1 as (r1 & E1 & Hr1), H2 as (r2 & E2 & Hr2).
  apply (sublist_subseteq _ _ (hs_sub _ _ _ _ Hh)) in Hr1, Hr2.
  apply (f_equal fst) in E1, E2. rewrite h_bytes_fst in E1, E2. cbn [fst] in E1, E2.
  apply (f_equal (take 17)) in E1 as E1', E2 as E2'.
  rewrite !take_app_length' in E2' by (by rewrite revToBytes_length).
  rewrite take_app_length', (firstn_all2 (revToBytes r)) in E1' by (by rewrite revToBytes_length).
  pose proof (hs_recs _ _ _ _ Hh) as HF. rewrite Forall_forall in HF.
  destruct (HF r1 Hr1) as [[[? _] _] _], (HF r2 Hr2) as [[[? _] _] _].
  assert (r1 = r2) as <-.
  { eapply sorted_rev_inj; [apply (hs_sorted _ _ _ _ Hh)|done|done|]. apply revToBytes_inj; [done..|congruence]. }
  apply (f_equal length) in E1, E2. rewrite !length_app, !revToBytes_length in *. simpl in *. lia.
Qed.

(** What the index shows is in the bucket. *)
Lemma k_view s a m : kv_core s a m -> forall key at_rev, a_compact a <= at_rev ->
  match ti_view (s_kvindex s) key at_rev with
  | None => a_at a at_rev !! key = None
  | Some x => exists kv, a_at a at_rev !! key = Some kv /\ stored m key x kv
  end.
Proof.
  intros Hok key n Hn. destruct (k_hist _ _ _ Hok) as (H & L & Hh & El & _).
  pose proof (hs_index _ _ _ _ Hh key n Hn) as Ha. rewrite (hs_shown _ _ _ _ Hh). unfold h_view.
  destruct (seen H key n) as [r|] eqn:E; simpl in *; [|by rewrite Ha]. destruct (h_tomb r) eqn:Et; [by rewrite Ha|].
  destruct Ha as (c & -> & Hc). exists (h_kv r). split; [done|].
  pose proof (hs_visible _ _ _ _ Hh key n r Hn E Et) as HL. apply seen_elem in E as (HrH & Hk & _).
  pose proof (hs_recs _ _ _ _ Hh) as HF. rewrite Forall_forall in HF. destruct (HF r HrH) as [(Hr & _ & Hf & Hv) _].
  destruct (Hv Et) as [_ Hmod]. split; [done|]. split; [|done]. apply om_items_get. rewrite El.
  apply list_elem_of_fmap. exists r. split; [|done]. unfold h_bytes. by rewrite Et.
Qed.

(** ** Reading a record *)

Lemma kv_unmarshal_Ok kv : kv_fits kv -> kv_unmarshal (KeyValue_MarshalTo kv) = Ok kv.
Proof.
  intros [Hw Hs]. unfold kv_unmarshal. rewrite KeyValue_decodes; [done|done|].
  by rewrite KeyValue_len.
Qed.

Lemma kv_marshal_Ok kv : kv_fits kv -> KeyValue_Marshal kv = Ok (KeyValue_MarshalTo kv).
Proof. intros [Hw Hs]. apply marshal_Ok. by apply KeyValue_len. Qed.

Lemma kv_fits_inj kv kv' : kv_fits kv -> kv_fits kv' -> KeyValue_MarshalTo kv = KeyValue_MarshalTo kv' -> kv = kv'.
Proof.
  intros H1 H2 E. pose proof (kv_unmarshal_Ok _ H1) as E1. rewrite E, kv_unmarshal_Ok in E1 by done. by injection E1.
Qed.

(** A visible change determines the value. *)
Lemma stored_inj m key x kv kv' : stored m key x kv -> stored m key x kv' -> kv = kv'.
Proof.
  destruct x as [[r c] v]. intros (_ & H1 & F1 & _) (_ & H2 & F2 & _). apply kv_fits_inj; [done..|congruence].
Qed.

Lemma read_rev_Ok s m key r c v kv : b_tx (s_b s) !! keyBucketName = Some m -> stored m key (r, c, v) kv ->
  read_rev s r = Ok kv.
Proof.
  intros Hb (_ & Hg & Hf & _). unfold read_rev, UnsafeRange, tx_bucket. rewrite Hb. gosimpl. simpl. rewrite Hg.
  gosimpl. change (at_ [(revToBytes r, KeyValue_MarshalTo kv)] 0) with (Ok (revToBytes r, KeyValue_MarshalTo kv)).
  gosimpl. by apply kv_unmarshal_Ok.
Qed.

Lemma rev_compare_refl r : rev_compare r r = Eq.
Proof. unfold rev_compare. by rewrite !Z.compare_refl. Qed.

Lemma rev_compare_eq r r' : rev_compare r r' = Eq -> r = r'.
Proof.
  unfold rev_compare. destruct r as [m1 s1], r' as [m2 s2]. simpl.
  destruct (Z.compare_spec m1 m2), (Z.compare_spec s1 s2); intros ?; congruence.
Qed.

Lemma rev_compare_antisym r r' : rev_compare r' r = CompOpp (rev_compare r r').
Proof.
  unfold rev_compare. rewrite (Z.compare_antisym (rv_main r)), (Z.compare_antisym (rv_sub r)).
  destruct (rv_main r ?= rv_main r'); done.
Qed.

(** The keys between a revision and the next sub revision: the revision with or
    without a mark. *)
Lemma between_revs r r' rest : rev_ok r -> rev_ok r' ->
  ~ bytes_lt (revToBytes r' ++ rest) (revToBytes r) ->
  bytes_lt (revToBytes r' ++ rest) (revToBytes (r <| rv_sub := rv_sub r + 1 |>)) -> r' = r.
Proof.
  intros [Hr Hs] [Hr' _] H1 H2. unfold bytes_lt, MaxInt64 in *.
  assert (is_rev (r <| rv_sub := rv_sub r + 1 |>)) as Hn by (destruct Hr; split; simpl; lia).
  rewrite <- (app_nil_r (revToBytes r)), revToBytes_compare in H1 by done.
  rewrite <- (app_nil_r (revToBytes (r <| rv_sub := _ |>))), revToBytes_compare in H2 by done.
  destruct (rev_compare r' r) eqn:E1; [by apply rev_compare_eq in E1|done|]. exfalso.
  rewrite rev_compare_antisym in E1. destruct (rev_compare r r') eqn:E3; try done. apply rev_compare_lt in E3.
  assert (rev_compare r' (r <| rv_sub := rv_sub r + 1 |>) <> Gt) as Hle.
  { destruct (rev_compare r' (r <| rv_sub := rv_sub r + 1 |>)); done. }
  unfold rev_compare in Hle, H2. unfold rev_lt in E3. simpl in *.
  destruct (Z.compare_spec (rv_main r') (rv_main r)), (Z.compare_spec (rv_sub r') (rv_sub r + 1)); try done; try lia.
  - destruct rest; done.
Qed.

(** The scan of [rangeKeys] for a visible revision finds its record. *)
Lemma range_rev_Ok s a m key x kv : kv_core s a m -> stored m key x kv ->
  UnsafeRange (s_b s) keyBucketName (revBytesRange x.1.1).1 (revBytesRange x.1.1).2 0
  = Ok [(revToBytes x.1.1, KeyValue_MarshalTo kv)].
Proof.
  intros Hok Hst. destruct x as [[r c] v]. destruct Hst as ([Hr Hrs] & Hg & _). cbn [fst snd revBytesRange].
  unfold UnsafeRange, tx_bucket. rewrite (k_bucket _ _ _ Hok). gosimpl.
  rewrite revToBytes_zlen. change (revBytesLen =? 0) with false. cbv iota. f_equal.
  rewrite cursor_loop_all by apply sorted_filter, om_items_sorted. rewrite app_nil_l.
  apply sorted_items_eq; [apply sorted_filter, sorted_filter, om_items_sorted|by repeat constructor|].
  assert (i64 (rv_sub r + 1) = rv_sub r + 1) as ->.
  { unfold MaxInt64 in Hrs. destruct Hr. by rewrite i64_small by lia. }
  intros [k w]. rewrite list_elem_of_filter, om_seek_get, list_elem_of_singleton. cbn [fst]. split.
  - intros (Hlt & Hge & Hk). destruct (k_keys _ _ _ Hok _ _ Hk) as (r' & Hr' & _ & Hk').
    assert (r' = r) as ->.
    { destruct Hk' as [->| ->]; [rewrite <- (app_nil_r (revToBytes r')) in Hlt, Hge|];
        by eapply (between_revs r r'). }
    destruct Hk' as [->| ->]; [by rewrite Hg in Hk; simplify_eq|].
    by rewrite (k_once _ _ _ Hok _ _ Hg) in Hk.
  - intros [= -> ->]. split; [|split; [apply irreflexivity, _|done]].
    rewrite <- (app_nil_r (revToBytes r)), <- (app_nil_r (revToBytes (r <| rv_sub := _ |>))).
    apply revToBytes_lt; [done| |]; unfold MaxInt64 in *; destruct Hr; [split; simpl; lia|right; simpl; lia].
Qed.

(** ** Range requests *)

(** The loop of [rangeKeys] stops after [limit] values. *)
Lemma rangeKeys_loop_Ok s a m krs limit kvs got : kv_core s a m ->
  Forall2 (fun (p : list Z * revision) kv => exists c v, stored m p.1 (p.2, c, v) kv) krs got ->
  (0 < limit -> zlen kvs < limit) ->
  rangeKeys_loop (s_b s) krs.*2 limit kvs
  = Ok (kvs ++ (if limit >? 0 then take (Z.to_nat (limit - zlen kvs)) got else got)).
Proof.
  intros Hok Hf. revert kvs. induction Hf as [|[key r] kv krs got (c & v & Hst) Hf IH]; intros kvs Hl.
  { simpl. destruct (limit >? 0); by rewrite ?take_nil, app_nil_r. }
  cbn [fmap list_fmap rangeKeys_loop snd].
  pose proof (range_rev_Ok _ _ _ _ _ _ Hok Hst) as E. cbn [fst snd] in E.
  destruct (revBytesRange r) as [start endb]. cbn [fst snd] in E. rewrite E. gosimpl.
  rewrite kv_unmarshal_Ok by (by destruct Hst as (_ & _ & ? & _)). gosimpl.
  rewrite length_app. simpl length. zif.
  - zif; [f_equal; f_equal; replace (Z.to_nat (limit - zlen kvs)) with 1%nat by lia; done|].
    rewrite IH by (rewrite length_app; simpl; lia). rewrite <- (assoc_L (++)), length_app. simpl length.
    replace (limit >? 0) with true by (symmetry; by apply Z.gtb_lt). do 2 f_equal.
    replace (Z.to_nat (limit - zlen kvs)) with (S (Z.to_nat (limit - Z.of_nat (length kvs + 1)))) by lia. done.
  - rewrite IH by lia. rewrite <- (assoc_L (++)). replace (limit >? 0) with false; [done|].
    symmetry. rewrite Z.gtb_ltb. apply Z.ltb_ge. lia.
Qed.

Lemma sorted_keys_eq (l1 l2 : list (list Z)) : StronglySorted bytes_lt l1 -> StronglySorted bytes_lt l2 ->
  (forall k, k ∈ l1 <-> k ∈ l2) -> l1 = l2.
Proof.
  assert (forall l : list (list Z), ((fun k => (k, tt)) <$> l).*1 = l) as Hid.
  { intros l. rewrite <- list_fmap_compose. induction l as [|k l IH]; [done|]. by rewrite fmap_cons, IH. }
  intros H1 H2 Heq. rewrite <- (Hid l1), <- (Hid l2). f_equal.
  apply sorted_items_eq; [by rewrite Hid..|]. intros [k []].
  rewrite !list_elem_of_fmap. setoid_rewrite Heq. done.
Qed.

(** The sorted values of a map. *)
Lemma a_list_spec (c : gmap (list Z) KeyValue) key endk :
  exists P, a_list c key endk = P.*2 /\ StronglySorted bytes_lt P.*1
  /\ forall k kv, (k, kv) ∈ P <-> in_range key endk k /\ c !! k = Some kv.
Proof.
  exists (merge_sort key_le (filter (fun p => in_range key endk p.1) (map_to_list c))). split; [done|].
  assert (forall p, p ∈ merge_sort key_le (filter (fun p => in_range key endk p.1) (map_to_list c))
    <-> in_range key endk p.1 /\ c !! p.1 = Some p.2) as Hin.
  { intros [k kv]. rewrite merge_sort_Permutation, list_elem_of_filter, elem_of_map_to_list. done. }
  split.
  - apply key_sorted_strict; [apply (StronglySorted_merge_sort key_le)|].
    rewrite (merge_sort_Permutation key_le).
    assert (NoDup (map_to_list c).*1) as Hn by apply NoDup_fst_map_to_list.
    clear Hin. induction (map_to_list c) as [|p l IH]; [done|]. simpl in Hn. apply NoDup_cons in Hn as [Hp Hn].
    rewrite filter_cons. destruct (decide _); [|by apply IH]. simpl. constructor; [|by apply IH].
    intros (q & E & [_ Hq]%list_elem_of_filter)%list_elem_of_fmap. apply Hp. rewrite E. by apply list_elem_of_fmap_2.
  - intros k kv. apply (Hin (k, kv)).
Qed.

Lemma range_values s a m key endk at_rev : kv_core s a m -> a_compact a <= at_rev ->
  exists l, ti_Range (s_kvindex s) key endk at_rev = Ok (l.*1, l.*2)
  /\ Forall2 (fun (p : list Z * revision) kv => exists c v, stored m p.1 (p.2, c, v) kv)
       l (a_list (a_at a at_rev) key endk)
  /\ kvKey <$> a_list (a_at a at_rev) key endk = l.*1 /\ NoDup l.*1
  /\ (forall k r, (k, r) ∈ l <-> in_range key endk k /\ exists c v, ti_view (s_kvindex s) k at_rev = Some (r, c, v)).
Proof.
  intros Hok Hat. destruct (k_index _ _ _ Hok) as [Hti _].
  destruct (ti_Range_spec (s_kvindex s) key endk at_rev Hti) as (l & El & Hs & Hin).
  destruct (a_list_spec (a_at a at_rev) key endk) as (P & -> & HsP & HinP).
  exists l. split; [done|].
  assert (l.*1 = P.*1) as Ekeys.
  { apply sorted_keys_eq; [done..|]. intros k. rewrite !list_elem_of_fmap. split.
    - intros ([k' r] & -> & [Hr (c & v & Hv)]%Hin). pose proof (k_view _ _ _ Hok k' at_rev Hat) as Hk.
      rewrite Hv in Hk. destruct Hk as (kv & Ha & _). exists (k', kv). split; [done|]. by apply HinP.
    - intros ([k' kv] & -> & [Hr Ha]%HinP). pose proof (k_view _ _ _ Hok k' at_rev Hat) as Hk.
      destruct (ti_view (s_kvindex s) k' at_rev) as [[[r c] v]|] eqn:Ev; [|simpl in *; congruence].
      exists (k', r). split; [done|]. apply Hin. eauto. }
  assert (Forall2 (fun (p : list Z * revision) kv => exists c v, stored m p.1 (p.2, c, v) kv) l P.*2) as HF.
  { apply Forall2_fmap_r, Forall2_same_length_lookup_2.
    { apply (f_equal length) in Ekeys. by rewrite !length_fmap in Ekeys. }
    intros i [k r] [k' kv] Hl HP. simpl.
    assert (k' = k) as ->.
    { assert (l.*1 !! i = Some k) as E1 by (by rewrite list_lookup_fmap, Hl).
      assert (P.*1 !! i = Some k') as E2 by (by rewrite list_lookup_fmap, HP). congruence. }
    apply list_elem_of_lookup_2 in Hl, HP. apply Hin in Hl as (_ & c & v & Hv). apply HinP in HP as [_ Ha].
    pose proof (k_view _ _ _ Hok k at_rev Hat) as Hk. rewrite Hv in Hk. destruct Hk as (kv' & Ha' & Hst).
    simplify_eq. eauto. }
  split; [done|]. split; [|split; [by apply sorted_NoDup|done]]. clear -HF. induction HF as [|p kv l l' (c & v & Hst) HF IH]; [done|].
  rewrite !fmap_cons, IH. f_equal. by destruct Hst as (_ & _ & _ & ? & _).
Qed.

(** The content seen by the next operation of the transaction. *)
Lemma view_now s a m k : kv_core s a m ->
  ti_view (s_kvindex s) k (a_cur a) = ti_view (s_kvindex s) k (a_next a)
  /\ forall at_rev, a_next a <= at_rev -> ti_view (s_kvindex s) k at_rev = ti_view (s_kvindex s) k (a_next a).
Proof.
  intros Hok. destruct (k_index _ _ _ Hok) as [Hti Hb], (k_main _ _ _ Hok) as [Hm H1], (k_sub _ _ _ Hok) as [H0 Hd].
  unfold a_cur, a_next in *. rewrite Hd. unfold frontier in Hb. rewrite Hm in Hb. destruct (Z.eqb_spec (rv_sub (s_currentRev s)) 0) as [E|E].
  - rewrite E. simpl. pose proof (fun at_rev => ti_view_stable _ _ k at_rev Hti Hb) as Hst. simpl in Hst.
    rewrite (Hst (a_rev a + 1)) by lia. split; [done|]. intros at_rev Hat. apply Hst. lia.
  - replace (rv_sub (s_currentRev s) >? 0) with true by (symmetry; apply Z.gtb_lt; lia). split; [done|].
    intros at_rev Hat. by apply (ti_view_stable _ _ k at_rev Hti Hb).
Qed.

Lemma a_at_of_view s a m r1 r2 : kv_core s a m -> a_compact a <= r1 -> a_compact a <= r2 ->
  (forall k, ti_view (s_kvindex s) k r1 = ti_view (s_kvindex s) k r2) -> a_at a r1 = a_at a r2.
Proof.
  intros Hok H1 H2 Hv. apply map_eq. intros k.
  pose proof (k_view _ _ _ Hok k r1 H1) as V1. pose proof (k_view _ _ _ Hok k r2 H2) as V2. rewrite Hv in V1.
  destruct (ti_view (s_kvindex s) k r2); [|congruence].
  destruct V1 as (kv1 & -> & S1), V2 as (kv2 & -> & S2). f_equal. by eapply stored_inj.
Qed.

(** A range request of the store returns what the abstract store holds: the
    values of the keys in the range at the requested revision, in the order of
    the keys and cut at the limit, with the current revision; a revision that is
    in the future or compacted is refused. *)
Lemma rangeKeys_eq s a m key endk limit rangeRev : kv_core s a m -> a_rev a < MaxInt64 ->
  rangeKeys s key endk limit rangeRev = Ok (a_range a key endk limit rangeRev).
Proof.
  intros Hok Hmax. destruct (k_main _ _ _ Hok) as [Hm H1], (k_sub _ _ _ Hok) as [H0 Hd], (k_compact _ _ _ Hok) as [Hc _].
  unfold rangeKeys, a_range. rewrite Hm, Hc, <- Hd. unfold MaxInt64 in Hmax. rewrite i64_small by lia.
  fold (a_next a). fold (a_cur a). zif; [done|]. zif; [done|].
  set (rev := if rangeRev <=? 0 then a_cur a else rangeRev) in *.
  destruct (range_values s a m key endk rev Hok) as (l & -> & HF & _); [lia|]. gosimpl.
  pose proof (Forall2_length _ _ _ HF) as Hlen. unfold a_limit.
  rewrite length_fmap. zif.
  { destruct l; [|simpl in *; lia]. destruct (a_list _ _ _); [|done]. by rewrite take_nil; destruct (limit >? 0). }
  rewrite (rangeKeys_loop_Ok s a m l limit [] _ Hok HF) by (simpl; lia). gosimpl. simpl. by rewrite Z.sub_0_r.
Qed.

(** ** Changes *)

(** The revision of the next change of the transaction. *)
Definition next_rev s a : revision := Revision (a_next a) (rv_sub (s_currentRev s)).

(** Room for one more revision. *)
Definition roomy s a : Prop := a_next a < MaxInt64 /\ rv_sub (s_currentRev s) + 1 < MaxInt64.

Lemma next_rev_ok s a m : kv_core s a m -> roomy s a -> rev_ok (next_rev s a) /\ 1 < rv_main (next_rev s a).
Proof.
  intros Hok [H1 H2]. destruct (k_main _ _ _ Hok), (k_sub _ _ _ Hok).
  unfold next_rev, rev_ok, is_rev, a_next, MaxInt64 in *. simpl. lia.
Qed.

Lemma before_next s a m x : kv_core s a m -> rev_lt x (frontier s) -> rev_lt x (next_rev s a).
Proof.
  intros Hok. destruct (k_main _ _ _ Hok) as [Hm _], (k_sub _ _ _ Hok) as [H0 _].
  unfold frontier, next_rev, rev_lt, a_next. rewrite Hm. zif; simpl; lia.
Qed.

Lemma marked_inj r r' : is_rev r -> is_rev r' ->
  revToBytes r ++ [markTombstone] = revToBytes r' ++ [markTombstone] -> r = r'.
Proof. intros H1 H2 E. apply app_inj_2 in E as [E _]; [|done]. by apply revToBytes_inj. Qed.

Lemma marked_ne r r' : revToBytes r ++ [markTombstone] <> revToBytes r'.
Proof. intros E. apply (f_equal length) in E. rewrite length_app, !revToBytes_length in E. done. Qed.

(** The next revision is not in the bucket yet. *)
Lemma fresh_key s a m : kv_core s a m -> roomy s a ->
  om_get (revToBytes (next_rev s a)) m = None /\ om_get (revToBytes (next_rev s a) ++ [markTombstone]) m = None.
Proof.
  intros Hok Hroom. destruct (next_rev_ok _ _ _ Hok Hroom) as [[Hr _] _].
  assert (forall k v, om_get k m = Some v -> k <> revToBytes (next_rev s a) /\ k <> revToBytes (next_rev s a) ++ [markTombstone]) as Hne.
  { intros k v Hk. destruct (k_keys _ _ _ Hok _ _ Hk) as (r & [Hr' _] & Hlt & Hc).
    apply (before_next _ _ _ _ Hok) in Hlt. destruct Hc as [->| ->]; split.
    - intros ->%revToBytes_inj; [by destruct (irreflexivity rev_lt _ Hlt)|done..].
    - by intros E%eq_sym%marked_ne.
    - by intros E%marked_ne.
    - intros ->%marked_inj; [by destruct (irreflexivity rev_lt _ Hlt)|done..]. }
  split.
  - destruct (om_get (revToBytes (next_rev s a)) m) as [v|] eqn:E; [|done]. by destruct (Hne _ _ E).
  - destruct (om_get (revToBytes (next_rev s a) ++ [markTombstone]) m) as [v|] eqn:E; [|done]. by destruct (Hne _ _ E).
Qed.

Lemma stored_put m key x kv k d : om_get k m = None -> stored m key x kv -> stored (om_put k d m) key x kv.
Proof.
  destruct x as [[r c] v]. intros Hk (H1 & H2 & H3). split; [done|]. split; [|done].
  rewrite om_get_put_ne; [done|]. by intros ->; congruence.
Qed.

(** A change recorded as [x] in the bucket and as [ti'] in the index. *)
Record changed s (x : hrec) (ti' : treeIndex (M := M)) s' : Prop := {
  c_main : cur_main s' = cur_main s;
  c_sub : rv_sub (s_currentRev s') = rv_sub (s_currentRev s) + 1;
  c_compact : s_compactMainRev s' = s_compactMainRev s;
  c_jobs : s_jobs s' = s_jobs s;
  c_index : s_kvindex s' = ti';
  c_bucket : forall m, b_tx (s_b s) !! keyBucketName = Some m ->
    b_tx (s_b s') !! keyBucketName = Some (om_put (h_bytes x).1 (h_bytes x).2 m);
  c_meta : b_tx (s_b s') !! metaBucketName = b_tx (s_b s) !! metaBucketName;
  c_le : s_le s' = s_le s;
}.

(** Record [x] is the next change of the history, and [f] what it does. *)
Record appends s a (x : hrec) (lz : Z) (f : gmap (list Z) KeyValue -> gmap (list Z) KeyValue) : Prop := {
  ap_rev : h_rev x = next_rev s a;
  ap_ok : rec_ok x;
  ap_does : forall c, f c = if h_tomb x then delete (h_key x) c else <[h_key x := h_kv x]> c;
  ap_follows : if h_tomb x then a_now a !! h_key x <> None
    else (kvVersion (h_kv x), kvCreateRevision (h_kv x)) =
      match a_now a !! h_key x with Some old => (kvVersion old + 1, kvCreateRevision old) | None => (1, a_next a) end;
  ap_lease : kvLease (h_kv x) = lz;
}.

(** The index after the change. *)
Definition indexes s a (x : hrec) (ti' : treeIndex (M := M)) : Prop :=
  forall k n, ti_view ti' k n =
    if decide (h_key x = k /\ a_next a <= n) then
      if h_tomb x then None else Some (bump (ti_view (s_kvindex s) k n) (next_rev s a))
    else ti_view (s_kvindex s) k n.

Lemma view_case {A} (key k : list Z) (n at_rev : Z) (x y : A) :
  (if decide (key = k) then if n <=? at_rev then x else y else y)
  = if decide (key = k /\ n <= at_rev) then x else y.
Proof.
  destruct (decide (key = k)) as [<-|Hne]; [|by rewrite decide_False by tauto].
  zif; [by rewrite decide_True by done|by rewrite decide_False by lia].
Qed.

Lemma changed_frontier s a m x ti' s' : kv_core s a m -> changed s x ti' s' ->
  frontier s' = Revision (a_next a) (rv_sub (s_currentRev s) + 1) /\ rev_lt (next_rev s a) (frontier s').
Proof.
  intros Hok Hch. destruct (k_main _ _ _ Hok) as [Hm _], (k_sub _ _ _ Hok) as [H0 _].
  assert (frontier s' = Revision (a_next a) (rv_sub (s_currentRev s) + 1)) as Hfr.
  { unfold frontier. rewrite (c_sub _ _ _ _ Hch), (c_main _ _ _ _ Hch), Hm. zif; [lia|done]. }
  split; [done|]. rewrite Hfr. right. simpl. lia.
Qed.

Lemma hist_before s a m H L r : kv_core s a m -> hist s a H L -> r ∈ H -> rev_lt (h_rev r) (next_rev s a) /\ h_main r <= a_next a.
Proof.
  intros Hok Hh Hr. pose proof (hs_recs _ _ _ _ Hh) as HF. rewrite Forall_forall in HF. destruct (HF r Hr) as [_ Hlt].
  assert (rev_lt (h_rev r) (next_rev s a)) as Hn by (by eapply before_next). split; [done|].
  unfold rev_lt, next_rev, h_main in *. simpl in Hn. lia.
Qed.

Lemma hist_follows s a m H L x lz f : kv_core s a m -> hist s a H L -> appends s a x lz f ->
  forall q, last (on (h_key x) H) = Some q -> follows q x.
Proof.
  intros Hok Hh Hap q Hq. pose proof (ap_follows _ _ _ _ _ Hap) as Hf.
  assert (a_now a !! h_key x = shown (Some q)) as E.
  { unfold a_now. rewrite (hs_shown _ _ _ _ Hh). unfold h_view. rewrite seen_all; [by rewrite Hq|].
    intros r Hr. by eapply hist_before. }
  rewrite E in Hf. unfold follows. unfold shown in Hf. destruct (h_tomb x) eqn:Ex, (h_tomb q); try done; [by left| |].
  - injection Hf as -> ->. rewrite <- Ex. unfold h_main. by rewrite (ap_rev _ _ _ _ _ Hap).
  - injection Hf as -> ->. by right.
Qed.

Lemma hist_now s a m H L k n : kv_core s a m -> hist s a H L -> a_next a <= n -> seen H k n = last (on k H).
Proof.
  intros Hok Hh Hn. apply seen_all. intros r Hr. destruct (hist_before _ _ _ _ _ _ Hok Hh Hr). lia.
Qed.

Lemma hist_answers s a m H L x lz f n : kv_core s a m -> hist s a H L -> appends s a x lz f -> a_next a <= n ->
  answers (if h_tomb x then None else Some (bump (ti_view (s_kvindex s) (h_key x) n) (next_rev s a))) (Some x).
Proof.
  intros Hok Hh Hap Hn. simpl. pose proof (ap_follows _ _ _ _ _ Hap) as Hf. destruct (h_tomb x) eqn:Ex; [done|].
  unfold a_now in Hf. rewrite (hs_shown _ _ _ _ Hh) in Hf. unfold h_view in Hf.
  rewrite (hist_now s a m H L) in Hf by done. destruct (k_compact _ _ _ Hok) as [_ Hc].
  assert (a_compact a <= n) as Hcn by (unfold a_next in *; lia).
  pose proof (hs_index _ _ _ _ Hh (h_key x) n Hcn) as Ha. rewrite (hist_now s a m H L) in Ha by done.
  rewrite (ap_rev _ _ _ _ _ Hap). destruct (last (on (h_key x) H)) as [q|]; simpl in *; [destruct (h_tomb q)|].
  - rewrite Ha. injection Hf as -> ->. by eexists.
  - destruct Ha as (c & -> & Hc'). injection Hf as -> ->. by eexists.
  - rewrite Ha. injection Hf as -> ->. by eexists.
Qed.

Lemma hist_change s a m s' (x : hrec) ti' lz f H L : kv_core s a m -> hist s a H L -> changed s x ti' s' ->
  appends s a x lz f -> indexes s a x ti' -> hist s' (a_change a lz f) (H ++ [x]) (L ++ [x]).
Proof.
  intros Hok Hh Hch Hap Hix. destruct (changed_frontier _ _ _ _ _ _ Hok Hch) as [_ Hfr].
  assert (h_main x = a_next a) as Hmx by (unfold h_main; by rewrite (ap_rev _ _ _ _ _ Hap)).
  split.
  - unfold h_sorted. rewrite fmap_app. apply sorted_app; [apply (hs_sorted _ _ _ _ Hh)|by repeat constructor|].
    intros r1 r2 (r & -> & Hr)%list_elem_of_fmap ->%list_elem_of_singleton.
    rewrite (ap_rev _ _ _ _ _ Hap). by eapply hist_before.
  - apply Forall_app. split.
    + eapply Forall_impl; [apply (hs_recs _ _ _ _ Hh)|]. intros r [? Hlt]. split; [done|].
      etrans; [by eapply before_next|done].
    + apply Forall_singleton. split; [apply (ap_ok _ _ _ _ _ Hap)|]. by rewrite (ap_rev _ _ _ _ _ Hap).
  - intros k. rewrite on_app, on_one. destruct (decide (h_key x = k)) as [<-|]; [|rewrite app_nil_r; apply (hs_coherent _ _ _ _ Hh)].
    apply coherent_snoc. split; [apply (hs_coherent _ _ _ _ Hh)|by eapply hist_follows].
  - intros k n. unfold h_view. rewrite seen_snoc, Hmx. unfold a_change. cbn [a_at upd].
    destruct (decide (h_key x = k /\ a_next a <= n)) as [[<- Hn]|Hn].
    + zif; [|lia]. rewrite (ap_does _ _ _ _ _ Hap). unfold shown. destruct (h_tomb x); [apply lookup_delete_eq|apply lookup_insert_eq].
    + change (shown (seen H k n)) with (h_view H k n). rewrite <- (hs_shown _ _ _ _ Hh). zif; [|done]. rewrite (ap_does _ _ _ _ _ Hap).
      assert (h_key x <> k) by (intros ?; by destruct Hn).
      destruct (h_tomb x); [by apply lookup_delete_ne|by apply lookup_insert_ne].
  - intros k n Hn. rewrite (c_index _ _ _ _ Hch), Hix, seen_snoc, Hmx.
    destruct (decide (h_key x = k /\ a_next a <= n)) as [[<- Hle]|]; [|by apply (hs_index _ _ _ _ Hh)].
    by eapply hist_answers.
  - apply sublist_app; [apply (hs_sub _ _ _ _ Hh)|done].
  - intros k. rewrite !on_app. destruct (hs_suffix _ _ _ _ Hh k) as [p ->]. exists p. by rewrite (assoc_L (++)).
  - intros r [Hr|Hr]%elem_of_app Hc; apply elem_of_app; [left|by right]. by apply (hs_recent _ _ _ _ Hh).
  - intros k n r Hn. rewrite seen_snoc. destruct (decide _); [intros [= <-] _; set_solver|].
    intros Hs Ht. apply elem_of_app. left. by eapply (hs_visible _ _ _ _ Hh).
  - right. exists x. split; [set_solver|done].
  - intros r [Hr|Hr%list_elem_of_singleton]%elem_of_app; simpl.
    + right. by apply (hs_leases _ _ _ _ Hh).
    + subst r. rewrite (ap_lease _ _ _ _ _ Hap). left.
Qed.

Lemma job_change s a m s' (x : hrec) ti' lz f H L j : kv_core s a m -> hist s a H L -> changed s x ti' s' ->
  appends s a x lz f -> j ∈ s_jobs s -> job_hist H L j -> job_hist (H ++ [x]) (L ++ [x]) j.
Proof.
  intros Hok Hh Hch Hap Hj Hjh. destruct (k_jobs _ _ _ Hok j Hj) as [Hj1 _]. destruct (k_compact _ _ _ Hok) as [_ Hc].
  assert (h_main x = a_next a) as Hmx by (unfold h_main; by rewrite (ap_rev _ _ _ _ _ Hap)).
  destruct (ap_ok _ _ _ _ _ Hap) as ([Hrx _] & _). split; [apply (jh_revs _ _ _ Hjh)| | |apply (jh_ahead _ _ _ Hjh)].
  - intros r [Hr|Hr%list_elem_of_singleton]%elem_of_app Hk; rewrite seen_snoc, decide_False;
      try (rewrite Hmx; unfold a_next; lia).
    + by apply (jh_keep _ _ _ Hjh).
    + subst r. apply (jh_revs _ _ _ Hjh) in Hk. fold (h_main x) in Hk. unfold a_next in *. lia.
  - intros r [Hr|Hr%list_elem_of_singleton]%elem_of_app Hlt; [by apply (jh_done _ _ _ Hjh)|].
    subst r. exfalso. rewrite h_bytes_fst in Hlt. eapply (jh_ahead _ _ _ Hjh); [exact Hrx| |exact Hlt]. fold (h_main x). unfold a_next in *. lia.
Qed.

Lemma om_items_put_last (m : M (list Z)) k d : (forall k' v, om_get k' m = Some v -> bytes_lt k' k) ->
  om_items (om_put k d m) = om_items m ++ [(k, d)].
Proof.
  intros Hlt. apply sorted_items_eq.
  - apply om_items_sorted.
  - rewrite fmap_app. apply StronglySorted_app_2; [|apply om_items_sorted|by repeat constructor].
    intros k1 k2 ([k' v] & -> & Hin)%list_elem_of_fmap ->%list_elem_of_singleton. apply om_items_get in Hin. by eapply Hlt.
  - intros [k' v]. rewrite elem_of_app, list_elem_of_singleton, !om_items_get, om_get_put_case.
    destruct (decide (k = k')) as [<-|Hne]; [|naive_solver]. split; [intros [= ->]; by right|].
    intros [Hk|[= ->]]; [|done]. destruct (irreflexivity bytes_lt k). by eapply Hlt.
Qed.

Lemma core_change s a m s' (x : hrec) (ti' : treeIndex (M := M)) (lz : Z) (f : gmap (list Z) KeyValue -> gmap (list Z) KeyValue) :
  kv_core s a m -> roomy s a -> changed s x ti' s' -> appends s a x lz f ->
  ti_ok ti' -> (forall r', rev_lt (next_rev s a) r' -> ti_before ti' r') ->
  indexes s a x ti' ->
  kv_core s' (a_change a lz f) (om_put (h_bytes x).1 (h_bytes x).2 m).
Proof.
  intros Hok Hroom Hch Hap Hti Hbef Hix.
  destruct (k_main _ _ _ Hok) as [Hm H1], (k_sub _ _ _ Hok) as [H0 Hd], (k_compact _ _ _ Hok) as [Hc Hcr].
  destruct (next_rev_ok _ _ _ Hok Hroom) as [Hr _]. destruct (changed_frontier _ _ _ _ _ _ Hok Hch) as [Hfr Hlt].
  split.
  - rewrite (c_main _ _ _ _ Hch). done.
  - rewrite (c_sub _ _ _ _ Hch). split; [destruct Hroom; lia|]. simpl. symmetry. apply Z.gtb_lt. lia.
  - rewrite (c_compact _ _ _ _ Hch). done.
  - rewrite (c_index _ _ _ _ Hch). auto.
  - by apply (c_bucket _ _ _ _ Hch), (k_bucket _ _ _ Hok).
  - rewrite (c_meta _ _ _ _ Hch). destruct (k_meta _ _ _ Hok) as (mm & Hmm & Hmeta). exists mm. split; [done|].
    unfold meta_ok. by rewrite (c_jobs _ _ _ _ Hch).
  - rewrite (c_jobs _ _ _ _ Hch), (c_index _ _ _ _ Hch). intros j Hj.
    destruct (k_jobs _ _ _ Hok j Hj) as [Hj1 Hj2]. split; [done|]. simpl.
    intros key at_rev r c v Hat Hv Hrj. rewrite Hix in Hv. destruct (decide _); [|by eapply Hj2].
    destruct (h_tomb x); [done|]. assert (r = next_rev s a) as ->.
    { destruct (ti_view (s_kvindex s) key at_rev) as [[[? ?] ?]|]; simpl in Hv; congruence. }
    unfold next_rev, a_next in Hrj. simpl in Hrj. lia.
  - destruct (k_hist _ _ _ Hok) as (H & L & Hh & El & Hj). exists (H ++ [x]), (L ++ [x]).
    split; [by eapply hist_change|]. split.
    + rewrite om_items_put_last, El, fmap_app; [done|]. intros k' v Hk'.
      destruct (k_keys _ _ _ Hok _ _ Hk') as (r & [Hr' _] & Hlt' & Ek'). rewrite h_bytes_fst, (ap_rev _ _ _ _ _ Hap). destruct Hr as [Hr _]. apply (before_next _ _ _ _ Hok) in Hlt'.
      destruct Ek' as [->| ->]; [rewrite <- (app_nil_r (revToBytes r))|]; by apply revToBytes_lt.
    + rewrite (c_jobs _ _ _ _ Hch). intros j Hj'. eapply job_change; [done..|]. by apply Hj.
Qed.

(** ** Leases of keys *)

(** Lease [id] of [le] with another set of items. *)
Definition with_items (le : lessor) (id : Z) (l : Lease) (items : gset (list Z)) : lessor :=
  le <| le_leaseMap := <[id := l <| l_itemSet := items |>]> (le_leaseMap le) |>.

Lemma with_items_attached s le id l items id' k' : s_le s = Some le -> le_leaseMap le !! id = Some l ->
  (attached (s <| s_le := Some (with_items le id l items) |>) id' k' <->
   if decide (id = id') then k' ∈ items else attached s id' k')
  /\ (lease_known (s <| s_le := Some (with_items le id l items) |>) id' <-> lease_known s id').
Proof.
  intros Hs Hl. unfold attached, lease_known, with_items. simpl. rewrite Hs.
  destruct (decide (id = id')) as [<-|Hne]; split; split.
  - intros (? & ? & [= <-] & Hx & Hin). simpl in Hx. rewrite lookup_insert_eq in Hx. by simplify_eq.
  - intros Hin. eexists _, _. split; [done|]. simpl. by rewrite lookup_insert_eq.
  - intros _. eauto.
  - intros _. eexists _, _. split; [done|]. simpl. by rewrite lookup_insert_eq.
  - intros (? & ? & [= <-] & Hx & Hin). simpl in Hx. rewrite lookup_insert_ne in Hx by done. eauto.
  - intros (? & ? & [= <-] & Hx & Hin). eexists _, _. split; [done|]. simpl. by rewrite lookup_insert_ne.
  - intros (? & ? & [= <-] & Hx). simpl in Hx. rewrite lookup_insert_ne in Hx by done. eauto.
  - intros (? & ? & [= <-] & Hx). eexists _, _. split; [done|]. simpl. by rewrite lookup_insert_ne.
Qed.

Lemma detach_spec s id key why : lease_known s id ->
  exists le', detach s id key why = Ok (s <| s_le := Some le' |>)
  /\ (forall id' k', attached (s <| s_le := Some le' |>) id' k' <-> attached s id' k' /\ ~ (id' = id /\ k' = key))
  /\ (forall id', lease_known (s <| s_le := Some le' |>) id' <-> lease_known s id').
Proof.
  intros (le & l & Hs & Hl). unfold detach, Detach. rewrite Hs, Hl.
  exists (with_items le id l (l_itemSet l ∖ list_to_set [key])). split; [done|].
  split; intros; [|by eapply with_items_attached]. rewrite (proj1 (with_items_attached _ _ _ _ _ _ _ Hs Hl)).
  destruct (decide (id = id')) as [<-|Hne]; [|naive_solver].
  unfold attached. rewrite Hs. split; [intros [Hin Hni]%elem_of_difference; split; [eauto|set_solver]|].
  intros [(? & ? & [= <-] & Hx & Hin) Hni]. simplify_eq. set_solver.
Qed.

Lemma attach_spec s id key why : lease_known s id ->
  exists le', attach s id key why = Ok (s <| s_le := Some le' |>)
  /\ (forall id' k', attached (s <| s_le := Some le' |>) id' k' <-> attached s id' k' \/ (id' = id /\ k' = key))
  /\ (forall id', lease_known (s <| s_le := Some le' |>) id' <-> lease_known s id').
Proof.
  intros (le & l & Hs & Hl). unfold attach, Attach. rewrite Hs, Hl.
  exists (with_items le id l (list_to_set [key] ∪ l_itemSet l)). split; [done|].
  split; intros; [|by eapply with_items_attached]. rewrite (proj1 (with_items_attached _ _ _ _ _ _ _ Hs Hl)).
  destruct (decide (id = id')) as [<-|Hne]; [|naive_solver].
  unfold attached. rewrite Hs. split.
  - intros [Hin|Hin]%elem_of_union; [right; set_solver|left; eauto].
  - intros [(? & ? & [= <-] & Hx & Hin)|[_ ->]]; [simplify_eq; set_solver|set_solver].
Qed.

(** Lessor changes do not matter to the rest of the relation. *)
Lemma core_le s a m le : kv_core s a m -> kv_core (s <| s_le := le |>) a m.
Proof. intros [? ? ? ? ? ? ? (H & L & [] & ? & ?)]. split; try done. by exists H, L. Qed.

(** The lease of key [key] changes from [old] to [new]. *)
Definition move_lease s (old new : Z) key (w1 w2 : string) : outcome (store M) :=
  let! s := (if negb (old =? NoLease) then detach s old key w1 else Ok s) in
  if negb (new =? NoLease) then attach s new key w2 else Ok s.

Lemma move_lease_spec s old new key w1 w2 :
  (old <> NoLease -> lease_known s old) -> (new <> NoLease -> lease_known s new) ->
  exists le', move_lease s old new key w1 w2 = Ok (s <| s_le := le' |>)
  /\ (forall id' k', attached (s <| s_le := le' |>) id' k' <->
        attached s id' k' /\ ~ (id' = old /\ old <> NoLease /\ k' = key) \/ (id' = new /\ new <> NoLease /\ k' = key))
  /\ (forall id', lease_known (s <| s_le := le' |>) id' <-> lease_known s id').
Proof.
  intros Hold Hnew. unfold move_lease.
  assert (exists le1, (if negb (old =? NoLease) then detach s old key w1 else Ok s) = Ok (s <| s_le := le1 |>)
    /\ (forall id' k', attached (s <| s_le := le1 |>) id' k' <->
          attached s id' k' /\ ~ (id' = old /\ old <> NoLease /\ k' = key))
    /\ (forall id', lease_known (s <| s_le := le1 |>) id' <-> lease_known s id')) as (le1 & -> & A1 & K1).
  { zif.
    - exists (s_le s). destruct s; simpl. split; [done|]. split; [naive_solver|done].
    - destruct (detach_spec s old key w1) as (le1 & E & A1 & K1); [auto|]. exists (Some le1). split; [done|].
      split; [|done]. intros. rewrite A1. naive_solver. }
  gosimpl. zif.
  - exists le1. split; [done|]. split; [|done]. intros. rewrite A1. naive_solver.
  - destruct (attach_spec (s <| s_le := le1 |>) new key w2) as (le2 & E & A2 & K2); [by apply K1, Hnew|].
    exists (Some le2). split; [done|]. split; [|by intros; rewrite K2]. intros. rewrite A2, A1. naive_solver.
Qed.

(** ** [put] *)

Lemma KeyValue_Size_bound kv : KeyValue_Size kv <= zlen (kvKey kv) + zlen (kvValue kv) + 66.
Proof.
  assert (forall v, size3_varint v <= 11) as Hv.
  { intros v. unfold size3_varint. pose proof (sovRaft_loop_le 10 (u64 v)) as H. fold (sovRaft (u64 v)) in H. zif; lia. }
  assert (forall b, size3_bytes b <= zlen b + 11) as Hb.
  { intros b. unfold size3_bytes. pose proof (sovRaft_loop_le 10 (zlen b)) as H. fold (sovRaft (zlen b)) in H. zif; lia. }
  unfold KeyValue_Size. pose proof (Hb (kvKey kv)). pose proof (Hb (kvValue kv)).
  pose proof (Hv (kvCreateRevision kv)). pose proof (Hv (kvModRevision kv)).
  pose proof (Hv (kvVersion kv)). pose proof (Hv (kvLease kv)). lia.
Qed.

Definition version_of (o : option KeyValue) : Z := match o with Some kv => kvVersion kv | None => 0 end.

(** A put the store can take. *)
Record put_ok s a (key value : list Z) (lease : Z) : Prop := {
  po_room : roomy s a;
  po_size : zlen key + zlen value < 1000000000000000000;
  po_lease : is_i64 lease /\ (lease <> NoLease -> lease_known s lease);
  po_version : version_of (a_now a !! key) + 1 < MaxInt64;
}.

(** What the store knows about the key before the put. *)
Lemma put_reads s a m key : kv_core s a m ->
  match ti_view (s_kvindex s) key (a_next a) with
  | None => a_now a !! key = None
  | Some (r, c, v) => exists kv, a_now a !! key = Some kv /\ read_rev s r = Ok kv
      /\ kvCreateRevision kv = rv_main c /\ kvVersion kv = v /\ kv_fits kv
  end.
Proof.
  intros Hok. destruct (k_compact _ _ _ Hok) as [_ Hc].
  pose proof (k_view _ _ _ Hok key (a_next a)) as Hv. unfold a_next at 1 in Hv. specialize (Hv ltac:(lia)).
  destruct (ti_view (s_kvindex s) key (a_next a)) as [[[r c] v]|]; [|done].
  destruct Hv as (kv & Ha & Hst). exists kv. split; [done|].
  pose proof (read_rev_Ok s m key r c v kv (k_bucket _ _ _ Hok) Hst). destruct Hst as (_ & _ & Hf & _ & _ & ? & ?). done.
Qed.

Lemma a_value_fits s a m key value lease : kv_core s a m -> put_ok s a key value lease ->
  kv_fits (a_value a key value lease) /\ kvKey (a_value a key value lease) = key.
Proof.
  intros Hok [[Hr1 Hr2] Hs [Hl _] Hv]. destruct (k_main _ _ _ Hok) as [_ H1].
  assert (KeyValue_wf (a_value a key value lease) /\ kvKey (a_value a key value lease) = key
          /\ kvValue (a_value a key value lease) = value) as (Hw & Hk & Hval).
  { pose proof (put_reads s a m key Hok) as Hp. unfold a_value, a_next, MaxInt64, KeyValue_wf, is_i64 in *.
    destruct (a_now a !! key) as [kv|] eqn:Ea; simpl; [|split_and!; (done || lia)].
    destruct (ti_view _ _ _) as [[[r c] v]|]; [|done]. destruct Hp as (kv' & [= <-] & _ & _ & _ & [(? & ? & ? & ?) _]).
    simpl in Hv. unfold is_i64 in *. split_and!; (done || lia). }
  split; [split; [done|]|done]. pose proof (KeyValue_Size_bound (a_value a key value lease)) as Hb. rewrite Hk, Hval in Hb. lia.
Qed.

Lemma put_bucket_tx (b : backend M) k d m : b_tx b !! keyBucketName = Some m ->
  unsafePut b keyBucketName k d = Ok (put_bucket b keyBucketName (om_put k d m)).
Proof. intros Hb. unfold unsafePut, tx_bucket. by rewrite Hb. Qed.

(** The store after the index and the bucket have the change. *)
Definition record_change s (b : backend M) (ti : treeIndex (M := M)) (kv : KeyValue) : store M :=
  s <| s_b := b |> <| s_kvindex := ti |> <| s_changes := s_changes s ++ [kv] |>
    <| s_currentRev := (s_currentRev s) <| rv_sub := i64 (rv_sub (s_currentRev s) + 1) |> |>.

Lemma record_changed s a m x ti : kv_core s a m -> roomy s a ->
  changed s x ti (record_change s (put_bucket (s_b s) keyBucketName (om_put (h_bytes x).1 (h_bytes x).2 m)) ti (h_kv x)).
Proof.
  intros Hok [_ Hr]. destruct (k_sub _ _ _ Hok) as [H0 _]. unfold MaxInt64 in Hr.
  split; simpl; try done.
  - apply i64_small. lia.
  - intros m' Hm'. rewrite (k_bucket _ _ _ Hok) in Hm'. injection Hm' as <-. apply lookup_insert_eq.
  - by apply lookup_insert_ne.
Qed.

(** A value is that of a record. *)
Lemma shown_rec s a m k n kv : kv_core s a m -> a_at a n !! k = Some kv ->
  exists r, rec_ok r /\ h_tomb r = false /\ h_kv r = kv /\ h_key r = k.
Proof.
  intros Hok Hk. destruct (k_hist _ _ _ Hok) as (H & L & Hh & _). rewrite (hs_shown _ _ _ _ Hh) in Hk.
  unfold h_view in Hk. destruct (seen H k n) as [r|] eqn:E; [|done]. apply seen_elem in E as (Hr & Ek & _).
  simpl in Hk. destruct (h_tomb r) eqn:Et; [done|]. injection Hk as <-. pose proof (hs_recs _ _ _ _ Hh) as HF.
  rewrite Forall_forall in HF. destruct (HF r Hr). by exists r.
Qed.

Lemma put_appends s a m key value lease : kv_core s a m -> put_ok s a key value lease ->
  appends s a (HRec (next_rev s a) (a_value a key value lease) false) lease (fun c => <[key := a_value a key value lease]> c).
Proof.
  intros Hok Hpo. destruct (a_value_fits _ _ _ _ _ _ Hok Hpo) as [Hfit Hkey].
  destruct (next_rev_ok _ _ _ Hok (po_room _ _ _ _ _ Hpo)) as [Hnr Hnr1]. destruct Hpo as [_ _ [_ Hl] Hv].
  split; [done| |intros c; unfold h_key; simpl; by rewrite Hkey| |].
  - split; [done|]. split; [done|]. split; [done|]. intros _. simpl. split; [|unfold a_value; by destruct (a_now a !! key)]. unfold a_value.
    destruct (a_now a !! key) as [old|] eqn:E; simpl in *; [|unfold MaxInt64; lia].
    destruct (shown_rec _ _ _ _ _ _ Hok E) as (r & (_ & _ & _ & Hr) & Ht & <- & _). destruct (Hr Ht). lia.
  - unfold h_key. simpl. rewrite Hkey. unfold a_value. by destruct (a_now a !! key).
  - simpl. unfold a_value. by destruct (a_now a !! key).
Qed.

Lemma store_put_unfold s key value leaseID :
  store_put s key value leaseID =
  (let rev := i64 (cur_main s + 1) in
   let! got := ti_Get (s_kvindex s) key rev in
   let! '(c, ver, oldLease) :=
     (match got with
      | inr (grev, created, ver) =>
          let! kv := read_rev s grev in Ok (rv_main created, ver, kvLease kv)
      | inl _ => Ok (rev, 0, NoLease)
      end) in
   let r := Revision rev (rv_sub (s_currentRev s)) in
   let kv := mkKeyValue key c rev (i64 (ver + 1)) value leaseID in
   let! d := KeyValue_Marshal kv in
   let! b := unsafePut (s_b s) keyBucketName (revToBytes r) d in
   let! ti := ti_Put (s_kvindex s) key r in
   move_lease (record_change s b ti kv) oldLease leaseID key
     "unexpected error from lease detach" "unexpected error from lease Attach").
Proof. done. Qed.

(** The answers of the index after the put. *)
Lemma a_change_now a lz f : a_now (a_change a lz f) = f (a_now a).
Proof.
  unfold a_now. change (a_next (a_change a lz f)) with (a_next a). unfold a_change. cbn [a_at upd]. by zif; [|lia].
Qed.

(** Moving the lease of a put or deleted key keeps the leases in order. *)
Lemma leases_moved s s1 a (key : list Z) (old new : Z) (m' : gmap (list Z) KeyValue) lz f :
  leases_ok s a -> a_now (a_change a lz f) = m' ->
  (forall k, k <> key -> m' !! k = a_now a !! k) ->
  (old <> NoLease <-> exists kv, a_now a !! key = Some kv /\ kvLease kv <> NoLease) ->
  (forall kv, a_now a !! key = Some kv -> kvLease kv = old) ->
  (new <> NoLease <-> exists kv, m' !! key = Some kv /\ kvLease kv <> NoLease) ->
  (forall kv, m' !! key = Some kv -> kvLease kv = new) ->
  (forall id' k', attached s1 id' k' <->
        attached s id' k' /\ ~ (id' = old /\ old <> NoLease /\ k' = key) \/ (id' = new /\ new <> NoLease /\ k' = key)) ->
  leases_ok s1 (a_change a lz f).
Proof.
  intros Hok Hm Hother Hold1 Hold2 Hnew1 Hnew2 Hat id k. unfold leases_ok in Hok. rewrite Hat, (Hok id k), Hm.
  destruct (decide (k = key)) as [->|Hne].
  - split.
    + intros [[[Hid (kv & Hkv & <-)] Hn]|(-> & Hn & _)].
      * destruct Hn. split; [by apply Hold2|]. split; [|done]. apply Hold1. by exists kv.
      * split; [done|]. apply Hnew1 in Hn as (kv & Hkv & Hn). exists kv. split; [done|by apply Hnew2].
    + intros [Hid (kv & Hkv & <-)]. right. split; [by apply Hnew2|]. split; [|done].
      rewrite <- (Hnew2 _ Hkv). done.
  - rewrite Hother by done. naive_solver.
Qed.

(** The created revision, the version and the lease that a put finds. *)
Lemma put_version s a m key value lease : kv_core s a m -> version_of (a_now a !! key) + 1 < MaxInt64 ->
  exists c ver,
    (match answer_result (ti_view (s_kvindex s) key (a_next a)) with
     | inr (grev, created, ver) => let! kv := read_rev s grev in Ok (rv_main created, ver, kvLease kv)
     | inl _ => Ok (a_next a, 0, NoLease)
     end) = Ok (c, ver, match a_now a !! key with Some kv => kvLease kv | None => NoLease end)
    /\ mkKeyValue key c (a_next a) (i64 (ver + 1)) value lease = a_value a key value lease
    /\ answer_ver (ti_view (s_kvindex s) key (a_next a)) < MaxInt64.
Proof.
  intros Hok Hver. pose proof (put_reads s a m key Hok) as Hp. unfold a_value.
  destruct (ti_view (s_kvindex s) key (a_next a)) as [[[r c] v]|]; simpl.
  - destruct Hp as (kv & Ha & -> & Hc & Hv & [(? & ? & Hw & ?) _]). rewrite Ha in Hver |- *. gosimpl. simpl in Hver.
    eexists _, _. split; [done|]. split; [|simpl; lia].
    unfold MaxInt64, is_i64 in *. rewrite i64_small by lia. by rewrite Hc, Hv.
  - rewrite Hp. eexists _, _. split; done.
Qed.

(** The leases after a put. *)
Lemma leases_put s s1 a key value lease : leases_ok s a ->
  let old := match a_now a !! key with Some kv => kvLease kv | None => NoLease end in
  (forall id' k', attached s1 id' k' <->
        attached s id' k' /\ ~ (id' = old /\ old <> NoLease /\ k' = key) \/ (id' = lease /\ lease <> NoLease /\ k' = key)) ->
  leases_ok s1 (a_put a key value lease).
Proof.
  intros Hle old Hat. assert (kvLease (a_value a key value lease) = lease) as El by (unfold a_value; by destruct (a_now a !! key)).
  eapply (leases_moved s _ a key old lease); [done|apply a_change_now| | | | | |exact Hat].
  - intros k Hk. by rewrite lookup_insert_ne.
  - unfold old. destruct (a_now a !! key) as [kv|]; naive_solver.
  - intros kv Hkv. unfold old. by rewrite Hkv.
  - rewrite lookup_insert_eq. split; [intros; eexists; split; [done|by rewrite El]|]. intros (? & [= <-] & Hx). by rewrite El in Hx.
  - rewrite lookup_insert_eq. by intros ? [= <-].
Qed.

(** [put] implements the abstract put. *)
Lemma store_put_spec s a key value lease : kv_ok s a -> put_ok s a key value lease ->
  exists s', store_put s key value lease = Ok s' /\ kv_ok s' (a_put a key value lease)
  /\ (forall id, lease_known s' id <-> lease_known s id) /\ s_txnID s' = s_txnID s
  /\ s_changes s' = s_changes s ++ [a_value a key value lease]
  /\ rv_sub (s_currentRev s') = rv_sub (s_currentRev s) + 1.
Proof.
  intros [[m Hok] Hle] Hpo. destruct (a_value_fits _ _ _ _ _ _ Hok Hpo) as [Hfit Hkey].
  destruct (k_main _ _ _ Hok) as [Hm H1], (k_index _ _ _ Hok) as [Hti Hbef].
  destruct (next_rev_ok _ _ _ Hok (po_room _ _ _ _ _ Hpo)) as [Hnr Hnr1].
  destruct Hpo as [Hroom Hsz [Hl Hlk] Hver]. rewrite store_put_unfold. cbv zeta. rewrite Hm.
  assert (i64 (a_rev a + 1) = a_next a) as -> by (destruct Hroom; unfold a_next, MaxInt64 in *; apply i64_small; lia).
  fold (next_rev s a). rewrite ti_Get_eq by done. gosimpl.
  destruct (put_version s a m key value lease Hok Hver) as (c & ver & -> & Ekv & Hav). set (view := ti_view (s_kvindex s) key (a_next a)) in *.
  set (old := match a_now a !! key with Some kv => kvLease kv | None => NoLease end).
  gosimpl. rewrite Ekv, kv_marshal_Ok by done. gosimpl. rewrite (put_bucket_tx _ _ _ m) by apply (k_bucket _ _ _ Hok). gosimpl.
  destruct (ti_Put_spec (s_kvindex s) key (next_rev s a)) as (ti' & -> & Hti' & Hbef' & Hview').
  { done. }
  { intros k ki Hk. eapply before_next; [done|]. by eapply Hbef. }
  { left. simpl in *. lia. }
  { done. }
  gosimpl. set (s1 := record_change _ _ _ _).
  set (x := HRec (next_rev s a) (a_value a key value lease) false).
  pose proof (record_changed s a m x ti' Hok Hroom) as Hch.
  change (record_change _ _ _ _) with s1 in Hch.
  assert (kv_core s1 (a_put a key value lease) (om_put (revToBytes (next_rev s a)) (KeyValue_MarshalTo (a_value a key value lease)) m)) as Hok1.
  { eapply (core_change s a m s1 x); [done|done|done| |done|done|].
    - by apply (put_appends s a m).
    - intros k n. rewrite Hview'. change (h_key x) with (kvKey (a_value a key value lease)). rewrite Hkey. by apply view_case. }
  destruct (move_lease_spec s1 old lease key "unexpected error from lease detach" "unexpected error from lease Attach")
    as (le' & -> & Hat & Hkn).
  { intros Hold. assert (attached s old key) as (le & l & ? & ? & _) by
      (apply Hle; split; [done|]; unfold old in *; destruct (a_now a !! key) as [kv|]; [eauto|done]).
    by exists le, l. }
  { exact Hlk. }
  exists (s1 <| s_le := le' |>). split; [done|]. split; [split; [eexists; by apply core_le|]|].
  - by eapply leases_put.
  - split; [exact Hkn|]. split; [done|]. split; [done|]. apply (c_sub _ _ _ _ Hch).
Qed.

(** ** [delete] *)

Lemma tombstone_fits kv : kv_fits kv -> kv_fits (KeyValue0 <| kvKey := kvKey kv |>).
Proof.
  intros [_ Hs]. split; [unfold KeyValue_wf, is_i64; simpl; lia|]. unfold KeyValue_Size in *. simpl.
  assert (forall v, 0 <= size3_varint v) as Hv.
  { intros v. unfold size3_varint. pose proof (sovRaft_pos (u64 v)). zif; lia. }
  assert (0 <= size3_bytes (kvValue kv)) as Hb.
  { unfold size3_bytes. pose proof (sovRaft_pos (zlen (kvValue kv))). zif; lia. }
  pose proof (Hv (kvCreateRevision kv)). pose proof (Hv (kvModRevision kv)).
  pose proof (Hv (kvVersion kv)). pose proof (Hv (kvLease kv)).
  change (size3_varint 0) with 0. change (size3_bytes []) with 0. lia.
Qed.

Lemma delete_appends s a m key kv : kv_core s a m -> roomy s a -> a_now a !! key = Some kv -> kvKey kv = key -> kv_fits kv ->
  appends s a (HRec (next_rev s a) (KeyValue0 <| kvKey := key |>) true) NoLease (delete key).
Proof.
  intros Hok Hroom Hnow Hkey Hfit. destruct (next_rev_ok _ _ _ Hok Hroom) as [Hnr Hnr1].
  split; [done| |done| |done].
  - split; [done|]. split; [done|]. split; [|done]. simpl. rewrite <- Hkey. by apply tombstone_fits.
  - unfold h_key. simpl. by rewrite Hnow.
Qed.

Lemma bind_Ok_r {A} (x : outcome A) : (let! y := x in Ok y) = x.
Proof. by destruct x. Qed.

(** [delete] of an existing key implements the abstract one. *)
Lemma store_delete_spec s a key r c v : kv_ok s a -> roomy s a ->
  ti_view (s_kvindex s) key (a_next a) = Some (r, c, v) -> v < MaxInt64 ->
  exists s', store_delete s key r = Ok s' /\ kv_ok s' (a_delete a key)
  /\ (forall id, lease_known s' id <-> lease_known s id) /\ s_txnID s' = s_txnID s
  /\ s_changes s' = s_changes s ++ [KeyValue0 <| kvKey := key |>]
  /\ rv_sub (s_currentRev s') = rv_sub (s_currentRev s) + 1
  /\ (forall k at_rev, k <> key -> ti_view (s_kvindex s') k at_rev = ti_view (s_kvindex s) k at_rev).
Proof.
  intros [[m Hok] Hle] Hroom Hview Hv.
  destruct (k_main _ _ _ Hok) as [Hm H1], (k_index _ _ _ Hok) as [Hti Hbef], (k_compact _ _ _ Hok) as [_ Hc].
  destruct (next_rev_ok _ _ _ Hok Hroom) as [Hnr Hnr1]. destruct (fresh_key _ _ _ Hok Hroom) as [_ Hf].
  pose proof (k_view _ _ _ Hok key (a_next a)) as Hkv. unfold a_next at 1 in Hkv. specialize (Hkv ltac:(lia)).
  rewrite Hview in Hkv. destruct Hkv as (kv & Hnow & Hst). fold (a_now a) in Hnow.
  pose proof Hst as (_ & _ & Hfit & Hkey & _).
  unfold store_delete. rewrite Hm.
  assert (i64 (a_rev a + 1) = a_next a) as -> by (destruct Hroom; unfold a_next, MaxInt64 in *; apply i64_small; lia).
  fold (next_rev s a). unfold appendMarkTombstone. rewrite revToBytes_zlen. change (negb (revBytesLen =? revBytesLen)) with false.
  cbv iota. gosimpl. rewrite kv_marshal_Ok by (rewrite <- Hkey; by apply tombstone_fits). gosimpl.
  rewrite (put_bucket_tx _ _ _ m) by apply (k_bucket _ _ _ Hok). gosimpl.
  destruct (ti_Tombstone_spec (s_kvindex s) key (next_rev s a)) as (ti' & -> & Hti' & Hbef' & Hview').
  { done. }
  { intros k ki Hk. eapply before_next; [done|]. by eapply Hbef. }
  { simpl. by rewrite Hview. }
  gosimpl. change (rv_main (next_rev s a)) with (a_next a) in *. rewrite Hview in Hview' |- *.
  set (d := KeyValue_MarshalTo _). set (k0 := revToBytes _ ++ _) in *.
  assert (forall k at_rev, ti_view ti' k at_rev =
     if decide (key = k) then if a_next a <=? at_rev then None else ti_view (s_kvindex s) k at_rev
     else ti_view (s_kvindex s) k at_rev) as Hview2 by (intros k at_rev; rewrite Hview'; by destruct (decide (key = k)) as [<-|];
      [rewrite decide_True by done|rewrite decide_False by tauto]).
  set (x := HRec (next_rev s a) (KeyValue0 <| kvKey := key |>) true).
  pose proof (record_changed s a m x ti' Hok Hroom) as Hch.
  set (s1 := record_change _ _ _ _) in Hch.
  change (s <| s_b := _ |> <| s_kvindex := _ |> <| s_changes := _ |> <| s_currentRev := _ |>) with s1.
  assert (kv_core s1 (a_delete a key) (om_put k0 d m)) as Hok1.
  { eapply (core_change s a m s1 x); [done|done|done| |done|done|].
    - by apply (delete_appends s a m key kv).
    - intros k n. rewrite Hview2. by apply view_case. }
  rewrite (read_rev_Ok s1 (om_put k0 d m) key r c v kv); [|by apply (k_bucket _ _ _ Hok1)|by apply stored_put]. gosimpl. rewrite Hkey.
  destruct (move_lease_spec s1 (kvLease kv) NoLease key "storage: cannot detach" EmptyString)
    as (le' & Emv & Hat & Hkn).
  { intros Hold. assert (attached s (kvLease kv) key) as (le & l & ? & ? & _) by (apply Hle; eauto). by exists le, l. }
  { done. }
  unfold move_lease in Emv. change (negb (NoLease =? NoLease)) with false in Emv. cbv iota in Emv. rewrite bind_Ok_r in Emv.
  exists (s1 <| s_le := le' |>). split; [exact Emv|]. split; [split; [eexists; by apply core_le|]|].
  - eapply (leases_moved s _ a key (kvLease kv) NoLease); [done|apply a_change_now|by intros k Hk; rewrite lookup_delete_ne|..|exact Hat];
      rewrite ?Hnow, ?lookup_delete_eq; naive_solver.
  - split; [exact Hkn|]. split; [done|]. split; [done|]. split; [apply (c_sub _ _ _ _ Hch)|].
    intros k at_rev Hk. change (s_kvindex (s1 <| s_le := le' |>)) with ti'. rewrite Hview2. by rewrite decide_False.
Qed.

(** ** [deleteRange] *)

Lemma foldl_delete_next a ks : a_next (foldl a_delete a ks) = a_next a /\ a_rev (foldl a_delete a ks) = a_rev a
  /\ a_compact (foldl a_delete a ks) = a_compact a.
Proof. revert a. induction ks as [|k ks IH]; intros a; [done|]. simpl. by destruct (IH (a_delete a k)) as (-> & -> & ->). Qed.

Lemma delete_loop_spec s a krs : kv_ok s a ->
  a_next a < MaxInt64 -> rv_sub (s_currentRev s) + zlen krs + 1 < MaxInt64 -> NoDup krs.*1 ->
  Forall (fun p => exists c v, ti_view (s_kvindex s) p.1 (a_next a) = Some (p.2, c, v) /\ v < MaxInt64) krs ->
  exists s', delete_loop s krs = Ok s' /\ kv_ok s' (foldl a_delete a krs.*1)
  /\ (forall id, lease_known s' id <-> lease_known s id) /\ s_txnID s' = s_txnID s
  /\ s_changes s' = s_changes s ++ ((fun k => KeyValue0 <| kvKey := k |>) <$> krs.*1)
  /\ rv_sub (s_currentRev s') = rv_sub (s_currentRev s) + zlen krs.
Proof.
  revert s a. induction krs as [|[k r] krs IH]; intros s a Hok Hn Hs Hnd HF.
  { exists s. simpl. rewrite app_nil_r. split; [done|]. split; [done|]. split; [done|]. split; [done|]. split; [done|lia]. }
  simpl in Hnd. apply NoDup_cons in Hnd as [Hk Hnd]. apply Forall_cons in HF as [(c & v & Hv & Hm) HF].
  cbn [length] in Hs. destruct (store_delete_spec s a k r c v) as (s1 & E & Hok1 & Hl1 & Ht1 & Hc1 & Hs1 & Hv1);
    [done|split; [done|lia]|done|done|].
  cbn [delete_loop]. rewrite E. gosimpl.
  destruct (IH s1 (a_delete a k)) as (s2 & -> & Hok2 & Hl2 & Ht2 & Hc2 & Hs2); [done|done|lia|done| |].
  { rewrite Forall_forall in *. intros [k' r'] Hin. destruct (HF _ Hin) as (c' & v' & Hv' & Hm').
    exists c', v'. split; [|done]. simpl in *. rewrite Hv1; [done|]. intros ->. apply Hk.
    by apply (list_elem_of_fmap_2 fst) in Hin. }
  exists s2. split; [done|]. split; [done|]. split; [by intros; rewrite Hl2|]. split; [congruence|].
  split; [rewrite Hc2, Hc1, <- (assoc_L (++)); done|]. rewrite Hs2, Hs1, length_cons. lia.
Qed.

(** A state in which a request for [n] deletions has room. *)
Definition delete_room s a (n : Z) : Prop :=
  a_next a < MaxInt64 /\ rv_sub (s_currentRev s) + n + 1 < MaxInt64
  /\ forall k kv, a_now a !! k = Some kv -> kvVersion kv < MaxInt64.

Lemma cur_compact s a m : kv_core s a m -> a_compact a <= a_cur a /\ a_at a (a_cur a) = a_now a.
Proof.
  intros Hok. destruct (k_compact _ _ _ Hok) as [_ Hc]. assert (a_compact a <= a_cur a) as Hcc.
  { unfold a_cur, a_next. destruct (a_dirty a); lia. }
  split; [done|]. eapply a_at_of_view; [done|done|unfold a_next; lia|]. intros k. exact (proj1 (view_now s a m k Hok)).
Qed.

Lemma deleteRange_spec s a key endk : kv_ok s a -> delete_room s a (zlen (a_list (a_now a) key endk)) ->
  let n := zlen (a_list (a_now a) key endk) in
  exists s', deleteRange s key endk = Ok (s', n) /\ kv_ok s' (a_deleteRange a key endk)
  /\ (forall id, lease_known s' id <-> lease_known s id) /\ s_txnID s' = s_txnID s
  /\ s_changes s' = s_changes s ++ ((fun kv => KeyValue0 <| kvKey := kvKey kv |>) <$> a_list (a_now a) key endk)
  /\ rv_sub (s_currentRev s') = rv_sub (s_currentRev s) + n.
Proof.
  intros Hkv (Hn & Hs & Hver) n. pose proof Hkv as [[m Hok] Hle].
  destruct (k_main _ _ _ Hok) as [Hm H1], (k_sub _ _ _ Hok) as [H0 Hd].
  destruct (cur_compact _ _ _ Hok) as [Hcc Hnow].
  unfold deleteRange. rewrite Hm, <- Hd. unfold MaxInt64 in Hn, Hs.
  rewrite i64_small by (unfold a_next in Hn; lia). fold (a_next a). fold (a_cur a).
  destruct (range_values s a m key endk (a_cur a) Hok Hcc) as (l & -> & HF & Hkeys & Hnd & Hin).
  rewrite Hnow in HF, Hkeys. gosimpl.
  pose proof (Forall2_length _ _ _ HF) as Hlen. fold n in Hs. assert (zlen l = n) as El by (unfold n; lia).
  rewrite length_fmap, El. zif.
  - exists s. assert (a_list (a_now a) key endk = []) as E by (destruct (a_list _ _ _); [done|simpl in *; lia]).
    unfold a_deleteRange. rewrite E. simpl. rewrite app_nil_r. split; [f_equal; f_equal; lia|]. do 4 (split; [done|]). lia.
  - rewrite zip_fst_snd. destruct (delete_loop_spec s a l) as (s' & -> & Hok' & Hl' & Ht' & Hc' & Hs').
    + done.
    + done.
    + unfold MaxInt64. lia.
    + done.
    + apply Forall_forall. intros [k r] Hkr. apply Hin in Hkr as (_ & c & v & Hv). exists c, v.
      rewrite (proj1 (view_now s a m k Hok)) in Hv. split; [done|].
      pose proof (put_reads s a m k Hok) as Hp. rewrite Hv in Hp. destruct Hp as (kv & Ha & _ & _ & <- & _). by eapply Hver.
    + gosimpl. exists s'. split; [done|]. split; [unfold a_deleteRange; by rewrite Hkeys|]. split; [done|]. split; [done|].
      split; [|lia]. rewrite Hc', <- Hkeys. f_equal. by rewrite <- list_fmap_compose.
Qed.
End refine.
