(* ===== verification/KVCompact.v ===== *)
(** Transactions and compaction of the store.

    The relation with the abstract store is kept by the start and the end of a
    transaction, by scheduling a compaction, and by every batch of a scheduled
    compaction. *)

From S2P Require Import Prelude RaftPB Proto RaftCodec OrderedMap Revision KeyIndex TreeIndex StorePB Backend Lessor KVStore KVHistory KVSpec KVRefine.

Section compact.
  Context {M : Type -> Type} {om : OMap M} {laws : OMapLaws M}.
  Implicit Types (s : store M) (a : akv) (m : M (list Z)).

(** The history does not depend on how far the store counts. *)
Lemma hist_weaken s s' a a' H L : hist s a H L ->
  (forall r, rev_lt r (frontier s) -> rev_lt r (frontier s')) -> a_named a' = a_named a ->
  a_at a' = a_at a -> a_cur a' = a_cur a -> a_compact a <= a_compact a' ->
  (forall k n, a_compact a' <= n -> ti_view (s_kvindex s') k n = ti_view (s_kvindex s) k n) -> hist s' a' H L.
Proof.
  intros [] Hf Hl Ha Hcur Hc Hv. split; try done.
  - eapply Forall_impl; [done|]. intros r [? ?]. auto.
  - by rewrite Ha.
  - intros k n Hn. rewrite Hv by done. apply hs_index. lia.
  - intros r Hr Hrc. apply hs_recent; [done|lia].
  - intros k n r Hn. apply hs_visible. lia.
  - by rewrite Hcur.
  - by rewrite Hl.
Qed.

(** ** Transactions *)

Lemma TxnBegin_spec s a id : kv_ok s a -> a_dirty a = false ->
  kv_ok (TxnBegin s id) a /\ rv_sub (s_currentRev (TxnBegin s id)) = 0 /\ s_txnID (TxnBegin s id) = id
  /\ (forall id', lease_known (TxnBegin s id) id' <-> lease_known s id').
Proof.
  intros [[m Hok] Hle] Hd. destruct (k_sub _ _ _ Hok) as [H0 Hd'].
  assert (rv_sub (s_currentRev s) = 0) as Hs.
  { rewrite Hd in Hd'. symmetry in Hd'. rewrite Z.gtb_ltb, Z.ltb_ge in Hd'. lia. }
  assert (s_currentRev (TxnBegin s id) = s_currentRev s) as Er.
  { unfold TxnBegin. simpl. rewrite <- Hs. by destruct (s_currentRev s). }
  assert (frontier (TxnBegin s id) = frontier s) as Ef by (unfold frontier, cur_main; by rewrite Er).
  split; [split; [|exact Hle]|done]. exists m. destruct Hok as [? ? ? ? ? ? ? (H & L & Hh & ?)].
  split; try done; unfold cur_main; rewrite ?Er, ?Ef; try done.
  exists H, L. split; [|done]. eapply hist_weaken; [done|by rewrite Ef|done..].
Qed.

Lemma txnEnd_spec s a : kv_ok s a -> a_next a < MaxInt64 ->
  exists s', txnEnd s (s_txnID s) = (s', None) /\ kv_ok s' (a_end a)
  /\ (forall id, lease_known s' id <-> lease_known s id) /\ s_changes s' = s_changes s
  /\ cur_main s' = a_rev (a_end a).
Proof.
  intros [[m Hok] Hle] Hn. unfold txnEnd. rewrite Z.eqb_refl. cbn [negb].
  destruct (k_main _ _ _ Hok) as [Hm H1], (k_sub _ _ _ Hok) as [H0 Hd], (k_compact _ _ _ Hok) as [Hc Hcr].
  destruct (k_index _ _ _ Hok) as [Hti Hbef].
  set (s1 := s <| s_b := Unlock (s_b s) |>).
  set (mn := if negb (rv_sub (s_currentRev s1) =? 0) then i64 (cur_main s1 + 1) else cur_main s1).
  assert (mn = a_rev (a_end a)) as Emn.
  { unfold mn, s1, a_end. change (cur_main (s <| s_b := Unlock (s_b s) |>)) with (cur_main s). simpl. rewrite Hm, Hd.
    zif; simpl.
    - replace (rv_sub (s_currentRev s) >? 0) with false; [done|]. symmetry. rewrite Z.gtb_ltb, Z.ltb_ge. lia.
    - replace (rv_sub (s_currentRev s) >? 0) with true by (symmetry; apply Z.gtb_lt; lia).
      unfold a_next, MaxInt64 in *. apply i64_small. lia. }
  exists (s1 <| s_currentRev := Revision mn 0 |>). split; [done|].
  assert (a_at (a_end a) = a_at a) as Eat by done.
  assert (a_rev a <= mn) as Hle1 by (rewrite Emn; unfold a_end, a_next; simpl; destruct (a_dirty a); lia).
  assert (forall x, rev_lt x (frontier s) -> rev_lt x (frontier (s1 <| s_currentRev := Revision mn 0 |>))) as Hfr.
  { intros x. unfold frontier at 2. simpl. unfold cur_main. simpl. unfold frontier. rewrite Hm, Emn. unfold a_end. simpl. rewrite Hd.
    unfold rev_lt, a_next, MaxInt64 in *. zif; [|replace (rv_sub (s_currentRev s) >? 0) with true by (symmetry; apply Z.gtb_lt; lia)];
      simpl; [destruct (_ >? _); simpl; lia|lia]. }
  assert (a_now (a_end a) = a_now a) as Enow.
  { unfold a_now. rewrite Eat. assert (a_next (a_end a) = mn + 1) as -> by (by rewrite Emn).
    apply (a_at_of_view s a m); [done|lia|unfold a_next; lia|].
    intros k. apply (view_now s a m k Hok). unfold a_next. lia. }
  split; [split|].
  - exists m. split; simpl; try done.
    + split; [exact Emn|]. change (1 <= a_rev (a_end a)). rewrite <- Emn. lia.
    + split; [done|]. change (-1 <= a_compact a <= a_rev (a_end a)). rewrite <- Emn. lia.
    + split; [done|]. intros k ki Hk. apply Hfr. by eapply Hbef.
    + unfold s1. simpl. rewrite Unlock_tx. apply (k_bucket _ _ _ Hok).
    + unfold s1. simpl. rewrite Unlock_tx. apply (k_meta _ _ _ Hok).
    + apply (k_jobs _ _ _ Hok).
    + destruct (k_hist _ _ _ Hok) as (H & L & Hh & ?). exists H, L. split; [|done].
      eapply hist_weaken; [done|done|done|done| |done|done]. unfold a_end, a_cur. simpl. by destruct (a_dirty a).
  - intros id key. rewrite Enow. apply Hle.
  - split; [done|]. split; [done|]. exact Emn.
Qed.

(** ** Compaction *)

Definition a_compacted a (rev : Z) : akv := a <| a_compact := rev |>.

Lemma meta_put (b : backend M) k v mm : b_tx b !! metaBucketName = Some mm ->
  exists b', unsafePut b metaBucketName k v = Ok b'
  /\ b_tx b' !! keyBucketName = b_tx b !! keyBucketName /\ b_tx b' !! metaBucketName = Some (om_put k v mm).
Proof.
  intros Hmm. unfold unsafePut, tx_bucket. rewrite Hmm. gosimpl. eexists. split; [done|].
  unfold put_bucket. cbn [b_tx upd]. split; [by rewrite lookup_insert_ne|]. by rewrite lookup_insert_eq.
Qed.

(** The first key of a compaction is before all records. *)
Lemma zeros_first r rest : is_rev r -> 0 < rv_main r -> ~ bytes_lt (revToBytes r ++ rest) (replicate 17 0).
Proof.
  intros [Hr _] H0. change (replicate 17 0) with (PutUint64 (u64 0) ++ replicate 9 0).
  unfold bytes_lt, revToBytes. rewrite <- (assoc_L (++)), bytes_compare_app_2 by (by rewrite !PutUint64_length).
  unfold PutUint64. rewrite !u64_small by lia. rewrite be_bytes_compare by (simpl; lia).
  destruct (Z.compare_spec (rv_main r) 0); [lia|lia|done].
Qed.

(** Scheduling a compaction is noted in the meta bucket. *)
Lemma meta_scheduled s s' a mm rev keep start : meta_ok s a mm -> a_compact a < rev -> -1 <= a_compact a ->
  s_jobs s' = s_jobs s ++ [Job rev keep start] ->
  meta_ok s' (a_compacted a rev) (om_put scheduledCompactKeyName (revToBytes (Revision rev 0)) mm).
Proof.
  intros (_ & f & Hf & Hfin & Hs & Hl) Hrev Ha Hj. unfold meta_ok. rewrite om_get_put, om_get_put_ne by done.
  split; [unfold mark; simpl; zif; [lia|done]|]. exists f. split; [done|]. split; [done|].
  rewrite Hj, fmap_app, app_comm_cons. change (j_rev <$> [Job rev keep start]) with [rev]. split; [|by rewrite last_snoc].
  apply StronglySorted_app_2; [|done|by repeat constructor]. intros x y Hx ->%list_elem_of_singleton. simpl.
  destruct (last_Some (f :: (j_rev <$> s_jobs s)) (a_compact a)) as [Hls _]. destruct (Hls Hl) as [l' El].
  rewrite El in Hs, Hx. apply elem_of_app in Hx as [Hx| ->%list_elem_of_singleton]; [|done].
  assert (x < a_compact a); [|lia]. eapply StronglySorted_app_1_elem_of; [exact Hs|done|left].
Qed.

Lemma new_job (H L : list hrec) (ti : treeIndex (M := M)) rev (keep : gset revision) :
  h_sorted H -> Forall rec_ok H -> L `sublist_of` H -> 0 <= rev ->
  (forall k, answers (ti_view ti k rev) (seen H k rev)) ->
  (forall q, q ∈ keep <-> exists key c v, ti_view ti key rev = Some (q, c, v)) ->
  job_hist H L (Job rev keep (replicate 17 0)).
Proof.
  intros Hs HF Hsub Hrev Hix Hkeep. rewrite Forall_forall in HF.
  assert (forall q, q ∈ keep -> exists r, h_rev r = q /\ seen H (h_key r) rev = Some r) as Hseen.
  { intros q (key & c & v & Hv)%Hkeep. pose proof (Hix key) as Ha. rewrite Hv in Ha.
    destruct (seen H key rev) as [r|] eqn:E; [|done]. simpl in Ha. destruct (h_tomb r); [done|].
    destruct Ha as (c' & [= -> _ _] & _). exists r. split; [done|]. by destruct (seen_elem _ _ _ _ E) as (_ & -> & _). }
  split; cbn [j_keep j_rev j_last].
  - intros q (r & <- & Hr%seen_elem)%Hseen. fold (h_main r). lia.
  - intros r Hr (r' & E & Hr')%Hseen. assert (r' = r) as ->; [|done].
    apply seen_elem in Hr' as (? & _). by eapply sorted_rev_inj.
  - intros r Hr. apply (sublist_subseteq _ _ Hsub), HF in Hr. rewrite h_bytes_fst.
    destruct Hr as ([Hr _] & H1 & _). intros Hlt. exfalso. eapply zeros_first; [done| |done]. fold (h_main r). lia.
  - intros r rest Hr Hlt. apply zeros_first; [done|lia].
Qed.

Lemma hist_rec_ok s a H L : hist s a H L -> Forall rec_ok H.
Proof. intros []. eapply Forall_impl; [done|]. by intros r [? _]. Qed.

(** A compaction inside the range is taken; requests are refused as documented. *)
Lemma store_Compact_spec s a rev : kv_ok s a ->
  if rev <=? a_compact a then store_Compact s rev = Ok (s, Some ErrCompacted)
  else if rev >? a_rev a then store_Compact s rev = Ok (s, Some ErrFutureRev)
  else exists s', store_Compact s rev = Ok (s', None) /\ kv_ok s' (a_compacted a rev)
    /\ (forall id, lease_known s' id <-> lease_known s id) /\ s_currentRev s' = s_currentRev s.
Proof.
  intros [[m Hok] Hle]. unfold store_Compact.
  destruct (k_main _ _ _ Hok) as [Hm H1], (k_compact _ _ _ Hok) as [Hc Hcr], (k_index _ _ _ Hok) as [Hti Hbef].
  rewrite Hc, Hm. zif; [done|]. zif; [done|]. destruct (k_meta _ _ _ Hok) as (mm & Hmm & Hmeta).
  destruct (meta_put (s_b s) scheduledCompactKeyName (revToBytes (Revision rev 0)) mm Hmm) as (b1 & -> & Hb1 & Hb2).
  gosimpl. destruct (ti_Compact_spec (s_kvindex s) rev Hti) as (ti' & av & -> & Hti' & Hbef' & Hview' & Hav). gosimpl.
  eexists. split; [done|]. split; [|done]. split; [|exact Hle]. exists m.
  assert (b_tx (ForceCommit (Unlock b1)) = b_tx b1) as Eb by (unfold ForceCommit; by rewrite commit_tx, Unlock_tx).
  split; simpl; try done.
  - apply (k_sub _ _ _ Hok).
  - split; [done|lia].
  - split; [done|]. apply Hbef'. exact Hbef.
  - rewrite Eb, Hb1. apply (k_bucket _ _ _ Hok).
  - rewrite Eb, Hb2. eexists. split; [done|]. by eapply meta_scheduled; [|lia|lia|].
  - intros j [Hj|Hj]%elem_of_app.
    + destruct (k_jobs _ _ _ Hok j Hj) as [Hj1 Hj2]. split; [lia|]. intros key at_rev r c v Hat Hv Hr.
      rewrite Hview' in Hv by done. apply (Hj2 key at_rev r c v); [lia|done|done].
    + apply list_elem_of_singleton in Hj as ->. simpl. split; [lia|]. intros key at_rev r c v Hat Hv Hr.
      rewrite Hview' in Hv by done. apply Hav. exists key, c, v. by eapply ti_view_back.
  - destruct (k_hist _ _ _ Hok) as (Hi & L & Hh & El & Hj). exists Hi, L. split; [|split; [done|]].
    + eapply hist_weaken; [done|done|done|done|done|simpl; lia|done].
    + intros j [Hj'|Hj'%list_elem_of_singleton]%elem_of_app; [by apply Hj|]. subst j.
      eapply new_job; [apply (hs_sorted _ _ _ _ Hh)|by eapply hist_rec_ok|apply (hs_sub _ _ _ _ Hh)|lia| |done].
      intros k. apply (hs_index _ _ _ _ Hh). lia.
Qed.

(** What a batch reads lies before the end of the compaction. *)
Lemma cursor_loop_elem (items : list (list Z * list Z)) endKey limit kvs p :
  p ∈ cursor_loop items endKey limit kvs -> p ∈ kvs \/ p ∈ items /\ bytes_lt p.1 endKey.
Proof.
  revert kvs. induction items as [|[ck cv] items IH]; intros kvs; simpl; [by left|].
  destruct (bytes_ltb_reflect ck endKey) as [Hlt|]; [|by left].
  assert (p ∈ kvs ++ [(ck, cv)] -> p ∈ kvs \/ p ∈ (ck, cv) :: items /\ bytes_lt p.1 endKey) as Hhere.
  { intros [?|E%list_elem_of_singleton]%elem_of_app; [by left|right; subst]. split; [left|done]. }
  assert (p ∈ cursor_loop items endKey limit (kvs ++ [(ck, cv)]) ->
    p ∈ kvs \/ p ∈ (ck, cv) :: items /\ bytes_lt p.1 endKey) as Hlater.
  { intros [?|[? ?]]%IH; [auto|right]. split; [by right|done]. }
  destruct (_ && _); auto.
Qed.

Lemma before_end r rest j : is_rev r -> 0 <= j < MaxInt64 ->
  bytes_lt (revToBytes r ++ rest) (PutUint64 (u64 (j + 1))) -> rv_main r <= j.
Proof.
  intros [Hr _] Hj. unfold bytes_lt, revToBytes. rewrite <- (app_nil_r (PutUint64 (u64 (j + 1)))), <- (assoc_L (++)).
  rewrite bytes_compare_app_2 by (by rewrite !PutUint64_length). unfold PutUint64, MaxInt64 in *.
  rewrite !u64_small by lia. rewrite be_bytes_compare by (simpl; lia).
  destruct (Z.compare_spec (rv_main r) (j + 1)); [|lia|done]. done.
Qed.

(** The batch drops the records of [ks] whose revision is not kept. *)
Definition dropped (keep : gset revision) (ks : list (list Z)) (k : list Z) : bool :=
  bool_decide (k ∈ ks) && match bytesToRev k with Ok r => negb (bool_decide (r ∈ keep)) | Panic _ => false end.

Lemma compact_keys_spec keep ks (b : backend M) m rev0 : b_tx b !! keyBucketName = Some m ->
  Forall (fun k => exists r, bytesToRev k = Ok r) ks ->
  exists b' m' rev', foldM (compact_key keep) ks (b, rev0) = Ok (b', rev')
  /\ b_tx b' !! keyBucketName = Some m' /\ b_tx b' !! metaBucketName = b_tx b !! metaBucketName
  /\ (forall k, om_get k m' = if dropped keep ks k then None else om_get k m)
  /\ (forall k, last ks = Some k -> bytesToRev k = Ok rev').
Proof.
  intros Hb Hks. revert b m rev0 Hb. induction Hks as [|k ks [r Hk] Hks IH]; intros b m rev0 Hb.
  { exists b, m, rev0. split; [done|]. done. }
  cbn [foldM]. unfold compact_key at 1. cbn [fst]. rewrite Hk. gosimpl.
  assert (forall k', dropped keep (k :: ks) k' = dropped keep ks k' || bool_decide (k' = k) && negb (bool_decide (r ∈ keep))) as Hd.
  { intros k'. unfold dropped. destruct (decide (k' = k)) as [->|Hne].
    - rewrite Hk, !(bool_decide_true (k ∈ k :: ks)), (bool_decide_true (k = k)) by (done || left).
      destruct (bool_decide (k ∈ ks)), (bool_decide (r ∈ keep)); done.
    - rewrite (bool_decide_false (k' = k)) by done. cbn [andb]. rewrite orb_false_r. f_equal.
      apply bool_decide_ext. rewrite elem_of_cons. naive_solver. }
  assert (forall rev' k', (forall k, last ks = Some k -> bytesToRev k = Ok rev') -> (ks = [] -> rev' = r) ->
    last (k :: ks) = Some k' -> bytesToRev k' = Ok rev') as Hlast.
  { intros rev' k' H1 H2. destruct ks as [|k1 ks1]; [|by apply H1]. intros [= <-]. by rewrite H2. }
  destruct (bool_decide (r ∈ keep)) eqn:Ekeep.
  - gosimpl. destruct (IH b m r Hb) as (b' & m' & rev' & E & H1 & H2 & H3 & H4). rewrite E.
    exists b', m', rev'. split; [done|]. split; [done|]. split; [done|]. split.
    + intros k'. by rewrite H3, Hd, andb_false_r, orb_false_r.
    + intros k'. apply Hlast; [done|]. intros ->. simpl in E. by injection E.
  - unfold UnsafeDelete, tx_bucket. rewrite Hb. gosimpl.
    destruct (IH (put_bucket b keyBucketName (om_del k m)) (om_del k m) r) as (b' & m' & rev' & E & H1 & H2 & H3 & H4).
    { apply lookup_insert_eq. }
    rewrite E. exists b', m', rev'. split; [done|]. split; [done|].
    split; [rewrite H2; unfold put_bucket; cbn [b_tx upd]; by apply lookup_insert_ne|]. split.
    + intros k'. rewrite H3, Hd, andb_true_r, om_get_del_case. destruct (dropped keep ks k'); [done|].
      destruct (decide (k = k')) as [<-|]; [by rewrite bool_decide_true|by rewrite bool_decide_false].
    + intros k'. apply Hlast; [done|]. intros ->. simpl in E. by injection E.
Qed.

(** ** What a batch leaves *)

Lemma rec_bytesToRev r : rec_ok r -> bytesToRev (h_bytes r).1 = Ok (h_rev r).
Proof.
  intros ([[? ?] _] & _). rewrite h_bytes_fst. apply bytesToRev_revToBytes; lia.
Qed.

Lemma dropped_rec keep ks r : rec_ok r ->
  dropped keep ks (h_bytes r).1 = true <-> (h_bytes r).1 ∈ ks /\ h_rev r ∉ keep.
Proof.
  intros Hr. unfold dropped. rewrite (rec_bytesToRev r Hr), andb_true_iff, negb_true_iff, bool_decide_eq_true, bool_decide_eq_false.
  done.
Qed.

Lemma sublist_sorted (l1 l2 : list revision) : l1 `sublist_of` l2 -> StronglySorted rev_lt l2 -> StronglySorted rev_lt l1.
Proof.
  induction 1 as [|x l1 l2 Hl IH|x l1 l2 Hl IH]; intros Hs; [constructor| |].
  - apply StronglySorted_inv in Hs as [Hs HF]. constructor; [by apply IH|]. rewrite Forall_forall in *.
    intros y Hy. apply HF. by apply (sublist_subseteq _ _ Hl).
  - apply StronglySorted_inv in Hs as [Hs _]. by apply IH.
Qed.

(** The revisions before the successor of [q]. *)
Lemma rev_below r q rest : rev_ok r -> rev_ok q -> r <> q ->
  bytes_lt (revToBytes r ++ rest) (revToBytes (q <| rv_sub := rv_sub q + 1 |>)) -> rev_lt r q.
Proof.
  intros Hr Hq Hne Hlt. destruct (decide (bytes_lt (revToBytes r ++ rest) (revToBytes q))) as [Hc|Hc].
  - destruct Hr as [Hr _], Hq as [Hq _]. unfold bytes_lt in Hc. rewrite <- (app_nil_r (revToBytes q)), revToBytes_compare in Hc by done.
    destruct (rev_compare r q) eqn:E; [by destruct rest|by apply rev_compare_lt|done].
  - destruct Hne. by apply (between_revs q r rest).
Qed.

Section batch.
  Context s a m (Hi L : list hrec) (j : job) (ks : list (list Z)) (limit : Z).
  Hypothesis Hok : kv_core s a m.
  Hypothesis Hh : hist s a Hi L.
  Hypothesis El : om_items m = h_bytes <$> L.
  Hypothesis Hj : j ∈ s_jobs s.
  Hypothesis Hjh : job_hist Hi L j.
  Hypothesis Hmax : a_rev a < MaxInt64.
  Hypothesis Eks : ks = (cursor_loop (om_seek (j_last j) m) (PutUint64 (u64 (j_rev j + 1))) limit []).*1.

Let left_ : list hrec := filter (fun r => dropped (j_keep j) ks (h_bytes r).1 = false) L.

Lemma batch_rec r : r ∈ L -> r ∈ Hi /\ rec_ok r.
Proof.
  intros Hr. apply (sublist_subseteq _ _ (hs_sub _ _ _ _ Hh)) in Hr. split; [done|].
  pose proof (hs_recs _ _ _ _ Hh) as HF. rewrite Forall_forall in HF. by destruct (HF r Hr).
Qed.

Lemma batch_job : 0 <= j_rev j <= a_compact a /\ a_compact a <= a_rev a.
Proof. destruct (k_jobs _ _ _ Hok j Hj), (k_compact _ _ _ Hok). lia. Qed.

Lemma batch_keys k : k ∈ ks -> exists r, r ∈ L /\ (h_bytes r).1 = k /\ h_main r <= j_rev j.
Proof.
  rewrite Eks. intros ([k' v] & -> & Hin)%list_elem_of_fmap.
  apply cursor_loop_elem in Hin as [?%not_elem_of_nil|[Hin Hlt]]; [done|]. apply om_seek_get in Hin as [_ Hin].
  apply om_items_get in Hin. rewrite El in Hin. apply list_elem_of_fmap in Hin as (r & E & Hr).
  simpl in Hlt. assert (k' = (h_bytes r).1) as -> by (by rewrite <- E).
  exists r. split; [done|]. split; [done|]. rewrite h_bytes_fst in Hlt.
  destruct (batch_rec r Hr) as [_ ([Hrv _] & _)]. pose proof batch_job. unfold h_main. eapply before_end; [done| |done]. lia.
Qed.

(** The batch reads all records from its first key to its last one. *)
Lemma batch_closed r k : r ∈ L -> k ∈ ks -> bytes_lt (h_bytes r).1 k -> ~ bytes_lt (h_bytes r).1 (j_last j) -> (h_bytes r).1 ∈ ks.
Proof.
  rewrite Eks. intros Hr Hk Hlt Hge.
  destruct (cursor_loop_app (om_seek (j_last j) m) (PutUint64 (u64 (j_rev j + 1))) limit []) as (l & Ec & [post E]).
  rewrite Ec, app_nil_l in Hk |- *.
  assert (h_bytes r ∈ om_seek (j_last j) m) as Hin.
  { destruct (h_bytes r) as [k' v] eqn:Eb. apply om_seek_get. split; [done|]. apply om_items_get. rewrite El.
    rewrite <- Eb. by apply list_elem_of_fmap_2. }
  rewrite E in Hin. apply elem_of_app in Hin as [Hin|Hin]; [by apply list_elem_of_fmap_2|]. exfalso.
  assert (StronglySorted bytes_lt (om_seek (j_last j) m).*1) as Hs by apply sorted_filter, om_items_sorted.
  rewrite E, fmap_app in Hs.
  assert (bytes_lt k (h_bytes r).1) as Hlt' by (eapply StronglySorted_app_1_elem_of; [exact Hs|done|by apply list_elem_of_fmap_2]).
  destruct (irreflexivity bytes_lt k). by etrans.
Qed.

Lemma rec_lt_bytes r1 r2 : rec_ok r1 -> rec_ok r2 -> rev_lt (h_rev r1) (h_rev r2) -> bytes_lt (h_bytes r1).1 (h_bytes r2).1.
Proof. intros ([? _] & _) ([? _] & _) Hlt. rewrite !h_bytes_fst. by apply revToBytes_lt. Qed.

(** A record that is kept is the newest of its key up to the revision of the
    compaction: no later one is dropped. *)
Lemma batch_up r1 r2 : r1 ∈ L -> r2 ∈ L -> h_key r1 = h_key r2 -> rev_lt (h_rev r1) (h_rev r2) ->
  dropped (j_keep j) ks (h_bytes r1).1 = false -> dropped (j_keep j) ks (h_bytes r2).1 = false.
Proof.
  intros H1 H2 Hk Hlt Hq1. destruct (dropped _ _ (h_bytes r2).1) eqn:Hq2; [exfalso|done].
  destruct (batch_rec r1 H1) as [Hi1 Hr1], (batch_rec r2 H2) as [Hi2 Hr2].
  apply dropped_rec in Hq2 as [Hin2 Hkeep2]; [|done].
  assert (h_rev r1 ∈ j_keep j) as Hkeep1.
  { destruct (decide (h_rev r1 ∈ j_keep j)) as [|Hn]; [done|]. destruct (decide ((h_bytes r1).1 ∈ ks)) as [Hin1|Hin1].
    - assert (dropped (j_keep j) ks (h_bytes r1).1 = true) by (by apply dropped_rec). congruence.
    - apply (jh_done _ _ _ Hjh r1 H1). destruct (decide (bytes_lt (h_bytes r1).1 (j_last j))); [done|]. destruct Hin1.
      apply (batch_closed r1 (h_bytes r2).1); [done|done|by apply rec_lt_bytes|done]. }
  destruct (batch_keys _ Hin2) as (r & Hr & E & Hm). assert (r = r2) as ->.
  { destruct (batch_rec r Hr) as [Hir Hrr]. eapply sorted_rev_inj; [apply (hs_sorted _ _ _ _ Hh)|done|done|].
    pose proof (rec_bytesToRev r Hrr) as E1. rewrite E, (rec_bytesToRev r2 Hr2) in E1. congruence. }
  pose proof (jh_keep _ _ _ Hjh r1 Hi1 Hkeep1) as Hseen.
  eapply seen_max; [apply (hs_sorted _ _ _ _ Hh)|exact Hseen|done|done|done|done].
Qed.

Lemma batch_hist s' : frontier s' = frontier s -> s_kvindex s' = s_kvindex s -> hist s' a Hi left_.
Proof.
  intros Ef Eix. assert (forall r, r ∈ left_ <-> dropped (j_keep j) ks (h_bytes r).1 = false /\ r ∈ L) as Hleft.
  { intros r. unfold left_. by rewrite list_elem_of_filter. }
  pose proof batch_job as Hjr.
  assert (forall r, r ∈ L -> j_rev j < h_main r \/ h_rev r ∈ j_keep j -> r ∈ left_) as Hstay.
  { intros r Hr Hc. apply Hleft. split; [|done]. destruct (dropped _ _ _) eqn:Ed; [exfalso|done].
    destruct (batch_rec r Hr) as [Hir Hrr]. apply dropped_rec in Ed as [Hin Hn]; [|done]. destruct Hc as [Hc|]; [|done].
    destruct (batch_keys _ Hin) as (r' & Hr' & E & Hm). destruct (batch_rec r' Hr') as [_ Hrr'].
    pose proof (rec_bytesToRev r' Hrr') as E1. rewrite E, (rec_bytesToRev r Hrr) in E1. injection E1 as E1.
    unfold h_main in *. rewrite E1 in Hc. lia. }
  pose proof Hh as []. split; try done.
  - by rewrite Ef.
  - by rewrite Eix.
  - etrans; [apply sublist_filter|done].
  - intros k. etrans; [|apply hs_suffix]. unfold left_. rewrite on_filter. apply filter_suffix.
    intros pre r1 mid r2 post E. assert (r1 ∈ on k L /\ r2 ∈ on k L) as [H1 H2] by (rewrite E; set_solver).
    apply list_elem_of_filter in H1 as [Hk1 H1], H2 as [Hk2 H2]. apply batch_up; [done|done|congruence|].
    assert (StronglySorted rev_lt (h_rev <$> on k L)) as Hs.
    { apply sublist_sorted with (h_rev <$> Hi); [|done]. apply fmap_sublist. etrans; [apply sublist_filter|done]. }
    rewrite E, fmap_app in Hs. apply sorted_app_inv in Hs as (_ & Hs & _). rewrite fmap_cons in Hs.
    apply StronglySorted_inv in Hs as [_ HF]. rewrite Forall_forall in HF. apply HF, list_elem_of_fmap_2. set_solver.
  - intros r Hr Hc. apply Hstay; [by apply hs_recent|left; lia].
  - intros k n r Hn Hs Ht. apply Hstay; [by eapply hs_visible|].
    destruct (decide (j_rev j < h_main r)) as [|Hle]; [by left|right]. pose proof (hs_index k n Hn) as Ha.
    rewrite Hs in Ha. simpl in Ha. rewrite Ht in Ha. destruct Ha as (c & Ha & _).
    eapply (k_jobs _ _ _ Hok j Hj); [exact Hn|exact Ha|]. unfold h_main in Hle. lia.
Qed.
Lemma batch_items m' : (forall k, om_get k m' = if dropped (j_keep j) ks k then None else om_get k m) ->
  om_items m' = h_bytes <$> left_.
Proof.
  intros Hm'. transitivity (filter (fun p => dropped (j_keep j) ks p.1 = false) (om_items m)).
  - apply sorted_items_eq; [apply om_items_sorted|apply sorted_filter, om_items_sorted|]. intros [k v].
    rewrite list_elem_of_filter, !om_items_get, Hm'. cbn [fst]. destruct (dropped (j_keep j) ks k); naive_solver.
  - rewrite El. apply filter_fmap.
Qed.

Lemma batch_jobs j' : job_hist Hi L j' -> job_hist Hi left_ j'.
Proof.
  intros []. split; try done. intros r [_ Hr]%list_elem_of_filter. auto.
Qed.

(** The job after the batch. *)
Lemma batch_next k rev : last ks = Some k -> bytesToRev k = Ok rev ->
  job_hist Hi left_ (Job (j_rev j) (j_keep j) (revToBytes (rev <| rv_sub := i64 (rv_sub rev + 1) |>))).
Proof.
  intros Hlast Hrev. assert (k ∈ ks) as Hk by (by apply last_Some_elem_of).
  destruct (batch_keys k Hk) as (q & Hq & Eq & Hmq). destruct (batch_rec q Hq) as [HqH Hqr].
  rewrite <- Eq, (rec_bytesToRev q Hqr) in Hrev. injection Hrev as <-.
  pose proof Hqr as ([Hqrev Hqs] & _). unfold MaxInt64 in Hqs.
  assert (i64 (rv_sub (h_rev q) + 1) = rv_sub (h_rev q) + 1) as -> by (apply i64_small; destruct Hqrev; lia).
  set (nxt := (h_rev q) <| rv_sub := _ |>). assert (is_rev nxt) as Hnx by (destruct Hqrev; split; simpl; lia).
  pose proof Hjh as [Hrevs Hkeep Hdone Hahead]. split; cbn [j_rev j_keep j_last]; [done|done| |].
  - intros r [Hd Hr]%list_elem_of_filter Hlt. destruct (batch_rec r Hr) as [HrH Hrr].
    destruct (decide (bytes_lt (h_bytes r).1 (j_last j))) as [|Hge]; [by apply Hdone|].
    assert ((h_bytes r).1 ∈ ks) as Hin.
    { destruct (decide (h_rev r = h_rev q)) as [E|Hne].
      - assert (r = q) as -> by (by eapply sorted_rev_inj; [apply (hs_sorted _ _ _ _ Hh)|..]). by rewrite Eq.
      - apply (batch_closed r k); [done|done| |done]. rewrite <- Eq. apply rec_lt_bytes; [done..|].
        rewrite h_bytes_fst in Hlt. eapply rev_below; [apply Hrr|apply Hqr|done|exact Hlt]. }
    destruct (decide (h_rev r ∈ j_keep j)) as [|Hn]; [done|]. assert (dropped (j_keep j) ks (h_bytes r).1 = true) by (by apply dropped_rec).
    congruence.
  - intros r rest Hr Hm Hlt. destruct (irreflexivity bytes_lt (revToBytes r ++ rest)). etrans; [exact Hlt|].
    rewrite <- (app_nil_r (revToBytes nxt)). apply revToBytes_lt; [done..|]. left. simpl. unfold h_main in Hmq. lia.
Qed.
End batch.

Lemma meta_finished s s' a mm j jobs : meta_ok s a mm -> s_jobs s = j :: jobs -> s_jobs s' = jobs -> 0 <= j_rev j ->
  meta_ok s' a (om_put finishedCompactKeyName (revToBytes (Revision (j_rev j) 0)) mm).
Proof.
  intros (Hsch & f & Hf & _ & Hs & Hl) Ej Ej' H0. unfold meta_ok. rewrite om_get_put, om_get_put_ne by done.
  split; [done|]. exists (j_rev j). split; [lia|]. split; [unfold mark; zif; [lia|done]|].
  rewrite Ej, fmap_cons in Hs, Hl. rewrite Ej'. apply StronglySorted_inv in Hs as [Hs _]. done.
Qed.

Lemma meta_jobs s s' a mm : meta_ok s a mm -> j_rev <$> s_jobs s' = j_rev <$> s_jobs s -> meta_ok s' a mm.
Proof. intros Hm E. unfold meta_ok. by rewrite E. Qed.

(** Removing records that no visible change needs keeps the relation. *)
Lemma core_shrink s a m b' mm' m' jobs Hi L' : kv_core s a m ->
  b_tx b' !! keyBucketName = Some m' -> b_tx b' !! metaBucketName = Some mm' ->
  meta_ok (s <| s_jobs := jobs |>) a mm' ->
  hist (s <| s_b := b' |> <| s_jobs := jobs |>) a Hi L' -> om_items m' = h_bytes <$> L' ->
  (forall j, j ∈ jobs -> job_hist Hi L' j /\ exists j', j' ∈ s_jobs s /\ j_rev j = j_rev j' /\ j_keep j = j_keep j') ->
  kv_core (s <| s_b := b' |> <| s_jobs := jobs |>) a m'.
Proof.
  intros [] Hb Hmm Hmeta Hh El Hjobs. split; simpl; try done.
  - exists mm'. split; [done|]. by eapply meta_jobs.
  - intros j Hj. destruct (Hjobs j Hj) as (_ & j' & Hj' & -> & ->). by apply k_jobs.
  - exists Hi, L'. split; [done|]. split; [done|]. intros j Hj. by destruct (Hjobs j Hj).
Qed.

(** A batch of a compaction changes nothing that can be asked for. *)
Lemma compaction_step_spec s a : kv_ok s a -> a_rev a < MaxInt64 ->
  exists s', compaction_step s = Ok s' /\ kv_ok s' a /\ (forall id, lease_known s' id <-> lease_known s id)
  /\ s_currentRev s' = s_currentRev s.
Proof.
  intros [[m Hok] Hle] Hmax. unfold compaction_step. destruct (s_jobs s) as [|j jobs] eqn:Ej.
  { exists s. split; [done|]. split; [split; [by exists m|done]|done]. }
  assert (j ∈ s_jobs s) as Hj by (rewrite Ej; left).
  destruct (k_hist _ _ _ Hok) as (Hi & L & Hh & El & Hjh), (k_meta _ _ _ Hok) as (mm & Hmm & Hmeta).
  destruct (k_jobs _ _ _ Hok j Hj) as [Hj1 _].
  unfold UnsafeRange, tx_bucket. rewrite (k_bucket _ _ _ Hok). gosimpl.
  rewrite PutUint64_length. change (Z.of_nat 8 =? 0) with false. cbv iota. gosimpl.
  set (kvs := cursor_loop _ _ _ _).
  pose proof (fun k => batch_keys s a m Hi L j kvs.*1 batchsize Hok Hh El Hj Hmax eq_refl k) as Hkeys.
  destruct (compact_keys_spec (j_keep j) kvs.*1 (s_b s) m revision0 (k_bucket _ _ _ Hok)) as (b' & m' & rev' & -> & Hb' & Hmeta' & Hm' & Hlast).
  { apply Forall_forall. intros k (r & Hr & <- & _)%Hkeys. exists (h_rev r). by eapply rec_bytesToRev, batch_rec. }
  gosimpl. rewrite Hmm in Hmeta'.
  pose proof (fun s' => batch_hist s a m Hi L j kvs.*1 batchsize Hok Hh El Hj (Hjh j Hj) Hmax eq_refl s') as Hh'.
  pose proof (batch_items m L j kvs.*1 batchsize El eq_refl m' Hm') as El'. zif.
  - destruct (meta_put b' finishedCompactKeyName (revToBytes (Revision (j_rev j) 0)) mm Hmeta') as (b2 & -> & Hb2 & Hm2). gosimpl.
    eexists. split; [done|]. split; [|done]. split; [|exact Hle]. exists m'.
    eapply (core_shrink s a m); [done|by rewrite Unlock_tx, Hb2|by rewrite Unlock_tx| |by apply Hh'|done|].
    + eapply meta_finished; [done|done|done|lia].
    + intros j' Hj'. assert (j' ∈ s_jobs s) as Hin by (rewrite Ej; by right). split; [by apply batch_jobs, Hjh|eauto].
  - destruct (last kvs.*1) as [k|] eqn:Ek; [|apply last_None in Ek; apply (f_equal length) in Ek; rewrite length_fmap in Ek;
      simpl in Ek; unfold batchsize in *; lia].
    eexists. split; [done|]. split; [|done]. split; [|exact Hle]. exists m'.
    eapply (core_shrink s a m); [done|by rewrite Unlock_tx|by rewrite Unlock_tx| |by apply Hh'|done|].
    + eapply meta_jobs; [done|]. simpl. by rewrite Ej.
    + intros j' [->|Hj']%elem_of_cons.
      * split; [|exists j; by rewrite Ej; repeat split; [left|..]]. by eapply (batch_next s a m Hi L j _ batchsize); [..|apply Hjh| | | |apply Hlast].
      * assert (j' ∈ s_jobs s) as Hin by (rewrite Ej; by right). split; [by apply batch_jobs, Hjh|eauto].
Qed.
End compact.
