(* ===== verification/KVRun.v ===== *)
(** Runs of the store.

    [store_run_refines] composes the operations: from the empty store, any
    sequence of puts, deletions, transactions, compactions and batches of the
    scheduled compactions, in any order, keeps the store in step with the
    abstract one, so that every later range request returns what the abstract
    store holds at the revision asked for. *)

From S2P Require Import Prelude RaftPB Proto RaftCodec OrderedMap Revision KeyIndex TreeIndex StorePB Backend Lessor KVStore KVHistory KVSpec KVRefine KVCompact.

Section run.
  Context {M : Type -> Type} {om : OMap M} {laws : OMapLaws M}.
  Implicit Types (s : store M) (a : akv) (m : M (list Z)).

(** ** Room

    [n] counts the requests so far: it bounds the revisions, the versions and the
    number of keys, and its square the changes of one transaction. *)
Record within s a (n : Z) : Prop := {
  w_n : 0 <= n < 2147483648;
  w_rev : a_rev a <= n + 1;
  w_sub : rv_sub (s_currentRev s) <= n * n;
  w_size : Z.of_nat (size (a_now a)) <= n;
  w_ver : forall k kv, a_now a !! k = Some kv -> kvVersion kv <= n;
}.

Lemma within_roomy s a n : within s a n -> roomy s a.
Proof. intros []. unfold roomy, a_next, MaxInt64. nia. Qed.

Lemma within_weaken s s' a n n' : within s a n -> n <= n' < 2147483648 ->
  rv_sub (s_currentRev s') <= rv_sub (s_currentRev s) -> within s' a n'.
Proof.
  intros [? ? ? ? Hv] ? ?. split; try lia; [nia|]. intros k kv Hk. apply Hv in Hk. lia.
Qed.

Lemma within_put s s' a n key value lease : within s a n -> n + 1 < 2147483648 ->
  rv_sub (s_currentRev s') = rv_sub (s_currentRev s) + 1 -> within s' (a_put a key value lease) (n + 1).
Proof.
  intros [? ? ? Hs Hv] ? ?. split; [lia| |nia| |].
  - change (a_rev (a_put a key value lease)) with (a_rev a). lia.
  - unfold a_put. rewrite a_change_now, map_size_insert. destruct (a_now a !! key); simpl; lia.
  - intros k kv. unfold a_put. rewrite a_change_now. intros [[<- <-]|[_ Hk%Hv]]%lookup_insert_Some; [|lia].
    unfold a_value. destruct (a_now a !! key) as [old|] eqn:E; simpl; [apply Hv in E|]; lia.
Qed.

Lemma foldl_delete_now a ks : a_now (foldl a_delete a ks) ⊆ a_now a.
Proof.
  revert a. induction ks as [|k ks IH]; intros a; [done|]. simpl. etrans; [apply IH|].
  unfold a_delete. rewrite a_change_now. apply delete_subseteq.
Qed.

Lemma a_list_size (m : gmap (list Z) KeyValue) key endk : (length (a_list m key endk) <= size m)%nat.
Proof.
  unfold a_list. rewrite length_fmap, merge_sort_Permutation, <- length_map_to_list. apply length_filter.
Qed.

Lemma within_delete s s' a n key endk : within s a n -> n + 1 < 2147483648 ->
  rv_sub (s_currentRev s') = rv_sub (s_currentRev s) + zlen (a_list (a_now a) key endk) ->
  within s' (a_deleteRange a key endk) (n + 1).
Proof.
  intros [? ? ? Hs Hv] ? ?. pose proof (a_list_size (a_now a) key endk).
  unfold a_deleteRange. set (ks := kvKey <$> _). destruct (foldl_delete_next a ks) as (_ & Hr & _).
  pose proof (foldl_delete_now a ks) as Hsub. split; [lia|lia|nia| |].
  - apply map_subseteq_size in Hsub. lia.
  - intros k kv Hk. apply (lookup_weaken _ _ _ _ Hk), Hv in Hsub. lia.
Qed.

Lemma within_delete_room s a n key endk : within s a n -> delete_room s a (zlen (a_list (a_now a) key endk)).
Proof.
  intros [? ? ? Hs Hv]. pose proof (a_list_size (a_now a) key endk). unfold delete_room, a_next, MaxInt64.
  split; [lia|]. split; [nia|]. intros k kv Hk%Hv. lia.
Qed.

Lemma a_end_now s a m : kv_core s a m -> a_now (a_end a) = a_now a.
Proof.
  intros Hok. destruct (k_compact _ _ _ Hok) as [_ Hc]. unfold a_now, a_end, a_next. simpl.
  destruct (a_dirty a); [|done]. apply (a_at_of_view s a m); [done|unfold a_next; lia..|].
  intros k. apply (view_now s a m k Hok). unfold a_next. lia.
Qed.

Lemma within_end s s' a n : kv_ok s a -> within s a n -> n + 1 < 2147483648 ->
  rv_sub (s_currentRev s') = 0 -> within s' (a_end a) (n + 1).
Proof.
  intros [[m Hok] _] [? ? ? Hs Hv] ? Hz. split; [lia| |rewrite Hz; nia| |].
  - unfold a_end, a_next. simpl. destruct (a_dirty a); lia.
  - rewrite (a_end_now s a m) by done. lia.
  - rewrite (a_end_now s a m) by done. intros k kv Hk%Hv. lia.
Qed.

(** ** Runs *)

(** A put that names a lease names one that exists, and its record fits the
    wire format. *)
Definition put_fits (known : Z -> Prop) (key value : list Z) (lease : Z) : Prop :=
  zlen key + zlen value < 1000000000000000000 /\ is_i64 lease /\ (lease <> NoLease -> known lease).

Definition txn_fits (known : Z -> Prop) (op : txn_op) : Prop :=
  match op with TPut key value lease => put_fits known key value lease | _ => True end.

Definition kv_fit (known : Z -> Prop) (op : kv_op) : Prop :=
  match op with
  | KPut _ key value lease => put_fits known key value lease
  | KTxn _ ops => Forall (txn_fits known) ops
  | _ => True
  end.

Lemma txn_fits_mono (P Q : Z -> Prop) op : (forall id, P id -> Q id) -> txn_fits P op -> txn_fits Q op.
Proof. destruct op; [done| |done]. intros HPQ (? & ? & ?). split; [done|]. split; auto. Qed.

Lemma kv_fit_mono (P Q : Z -> Prop) op : (forall id, P id -> Q id) -> kv_fit P op -> kv_fit Q op.
Proof.
  intros HPQ. destruct op as [| | |id ops| | |]; try done.
  - intros (? & ? & ?). split; [done|]. split; auto.
  - intros Hf. eapply Forall_impl; [exact Hf|]. intros op. by apply txn_fits_mono.
Qed.

(** The number of requests, the end of a transaction being one. *)
Definition weight (op : kv_op) : Z :=
  match op with KTxn _ ops => zlen ops + 1 | _ => 2 end.

Definition weights (ops : list kv_op) : Z := foldr (fun op n => weight op + n) 0 ops.

Lemma weights_app ops1 ops2 : weights (ops1 ++ ops2) = weights ops1 + weights ops2.
Proof. induction ops1 as [|op ops1 IH]; [done|]. simpl. lia. Qed.

Lemma weights_pos ops : 0 <= weights ops.
Proof.
  induction ops as [|op ops IH]; [done|]. simpl.
  assert (0 <= weight op) by (destruct op; simpl; lia). lia.
Qed.

Lemma put_fits_ok s a n key value lease : put_fits (lease_known s) key value lease -> within s a n ->
  put_ok s a key value lease.
Proof.
  intros (Hs & Hl & Hk) Hw. split; [by eapply within_roomy|done|done|].
  destruct Hw as [? ? ? ? Hv]. unfold version_of, MaxInt64. destruct (a_now a !! key) as [kv|] eqn:E; [apply Hv in E|]; lia.
Qed.

Lemma cur_of_sub s a m : kv_core s a m -> a_next a < MaxInt64 ->
  (if rv_sub (s_currentRev s) >? 0 then i64 (cur_main s + 1) else cur_main s) = a_cur a.
Proof.
  intros Hok Hn. destruct (k_main _ _ _ Hok) as [-> H1], (k_sub _ _ _ Hok) as [H0 Hd].
  unfold a_cur. rewrite Hd. unfold a_next, MaxInt64 in *. by rewrite i64_small by lia.
Qed.

Lemma txn_step_spec s a n op : kv_ok s a -> within s a n -> n + 1 < 2147483648 -> txn_fits (lease_known s) op ->
  exists s', txn_step s (s_txnID s) op = Ok (s', (a_txn_step a op).2) /\ kv_ok s' (a_txn_step a op).1
  /\ (forall id, lease_known s' id <-> lease_known s id) /\ s_txnID s' = s_txnID s
  /\ within s' (a_txn_step a op).1 (n + 1).
Proof.
  intros Hok Hw Hn Hf. pose proof (within_roomy _ _ _ Hw) as [Hr _].
  destruct op as [key endk limit rev|key value lease|key endk]; simpl.
  - unfold TxnRange. rewrite Z.eqb_refl. cbn [negb]. pose proof Hok as [[m Hm] _].
    rewrite (rangeKeys_eq s a m) by (done || (unfold a_next in Hr; lia)). gosimpl.
    exists s. split; [done|]. split; [done|]. split; [done|]. split; [done|]. eapply within_weaken; [done| |done]. destruct Hw; lia.
  - unfold TxnPut. rewrite Z.eqb_refl. cbn [negb].
    destruct (store_put_spec s a key value lease) as (s' & -> & Hok' & Hl & Ht & _ & Hs); [done|by eapply put_fits_ok|].
    gosimpl. exists s'. pose proof Hok' as [[m Hm] _]. destruct (k_main _ _ _ Hm) as [-> H1].
    change (a_rev (a_put a key value lease)) with (a_rev a) in *.
    unfold a_next, MaxInt64 in *. rewrite i64_small by lia. split; [done|]. split; [done|]. split; [done|]. split; [done|].
    by apply (within_put s).
  - unfold TxnDeleteRange. rewrite Z.eqb_refl. cbn [negb].
    destruct (deleteRange_spec s a key endk) as (s' & -> & Hok' & Hl & Ht & _ & Hs); [done|by eapply within_delete_room|].
    gosimpl. exists s'. pose proof Hok' as [[m Hm] _]. destruct (foldl_delete_next a (kvKey <$> a_list (a_now a) key endk)) as (En & Er & _).
    split; [|by split_and!; [..|apply (within_delete s)]].
    do 3 f_equal. rewrite <- (cur_of_sub s' (a_deleteRange a key endk) m) by (done || (unfold a_deleteRange; by rewrite En)).
    destruct (k_sub _ _ _ Hm) as [H0 _]. pose proof Hok as [[m0 Hm0] _]. destruct (k_sub _ _ _ Hm0) as [H0' _].
    rewrite Hs. destruct (Z.eqb_spec (zlen (a_list (a_now a) key endk)) 0) as [E|E].
    + simpl. zif; zif; (done || lia).
    + simpl. by zif; [|lia].
Qed.

Lemma txn_steps_spec ops s a n : kv_ok s a -> within s a n -> n + zlen ops < 2147483648 -> Forall (txn_fits (lease_known s)) ops ->
  exists s', txn_steps s (s_txnID s) ops = Ok (s', (a_txn a ops).2) /\ kv_ok s' (a_txn a ops).1
  /\ (forall id, lease_known s' id <-> lease_known s id) /\ s_txnID s' = s_txnID s
  /\ within s' (a_txn a ops).1 (n + zlen ops).
Proof.
  revert s a n. induction ops as [|op ops IH]; intros s a n Hok Hw Hn Hf; simpl.
  { exists s. rewrite Z.add_0_r. done. }
  apply Forall_cons in Hf as [Hf1 Hf]. simpl in Hn.
  destruct (txn_step_spec s a n op) as (s1 & -> & Hok1 & Hl1 & Ht1 & Hw1); [done|done|lia|done|]. gosimpl.
  destruct (a_txn_step a op) as [a1 r1]. simpl in *.
  destruct (IH s1 a1 (n + 1)) as (s2 & E & Hok2 & Hl2 & Ht2 & Hw2); [done|done|lia| |].
  { eapply Forall_impl; [done|]. intros op'. by apply txn_fits_mono, Hl1. }
  rewrite <- Ht1, E. gosimpl. destruct (a_txn a1 ops) as [a2 rs]. simpl in *. exists s2. split; [done|].
  split; [done|]. split; [by intros; rewrite Hl2|]. split; [done|]. by replace (n + Z.of_nat (S (length ops))) with (n + 1 + zlen ops) by lia.
Qed.

Lemma clean_sub s a m : kv_core s a m -> a_dirty a = false -> rv_sub (s_currentRev s) = 0.
Proof.
  intros Hok Hd. destruct (k_sub _ _ _ Hok) as [H0 Hd']. rewrite Hd in Hd'. symmetry in Hd'.
  rewrite Z.gtb_ltb, Z.ltb_ge in Hd'. lia.
Qed.

(** The start and the end of a transaction around operations that take the
    store in step. *)
Lemma txn_begin_within s a n id : kv_ok s a -> a_dirty a = false -> within s a n ->
  kv_ok (TxnBegin s id) a /\ within (TxnBegin s id) a n.
Proof.
  intros Hok Hd Hw. destruct (TxnBegin_spec s a id) as (? & Hs & _); [done..|]. split; [done|].
  eapply within_weaken; [done|destruct Hw; lia|]. rewrite Hs. destruct Hok as [[m Hok] _]. by rewrite (clean_sub _ _ _ Hok).
Qed.

Lemma txn_end_within s a n : kv_ok s a -> within s a n -> n + 1 < 2147483648 ->
  exists s', txnEnd s (s_txnID s) = (s', None) /\ kv_ok s' (a_end a) /\ within s' (a_end a) (n + 1)
  /\ (forall id, lease_known s' id <-> lease_known s id) /\ cur_main s' = a_rev (a_end a).
Proof.
  intros Hok Hw Hn. destruct (within_roomy _ _ _ Hw) as [Hr _].
  destruct (txnEnd_spec s a) as (s' & E & Hok' & Hl & _ & Hc); [done..|]. exists s'. split; [done|]. split; [done|].
  split; [|done]. apply (within_end s); [done..|]. destruct Hok' as [[m Hm] _]. by apply (clean_sub _ _ _ Hm).
Qed.

(** What an operation that implements [a -> a'] and answers [r] has shown. *)
Definition implements s (res : outcome (store M * reply)) (a' : akv) (r : reply) (n : Z) : Prop :=
  exists s', res = Ok (s', r) /\ kv_ok s' a' /\ (forall id, lease_known s' id <-> lease_known s id)
  /\ a_dirty a' = false /\ within s' a' n.

Lemma Range_spec s a n id key endk limit rev : kv_ok s a -> a_dirty a = false -> within s a n -> n + 2 < 2147483648 ->
  implements s (kv_step s (KRange id key endk limit rev)) (a_end a) (ReplyRange (a_range a key endk limit rev)) (n + 2).
Proof.
  intros Hok Hd Hw Hn. pose proof (within_roomy _ _ _ Hw) as [Hr _].
  destruct (txn_begin_within s a n id) as [Hok1 Hw1]; [done..|]. simpl. unfold Range. pose proof Hok1 as [[m Hm] _].
  rewrite (rangeKeys_eq _ a m) by (done || (unfold a_next in Hr; lia)). gosimpl.
  destruct (txn_end_within (TxnBegin s id) a (n + 1)) as (s' & E & Hok' & Hw' & Hl' & _);
    [done|eapply within_weaken; [done|destruct Hw; lia|done]|lia|].
  change (s_txnID (TxnBegin s id)) with id in E. rewrite E. gosimpl. exists s'. split; [done|]. split; [done|].
  split; [done|]. split; [done|]. by replace (n + 2) with (n + 1 + 1) by lia.
Qed.

Lemma Put_spec s a n id key value lease : kv_ok s a -> a_dirty a = false -> within s a n -> n + 2 < 2147483648 ->
  put_fits (lease_known s) key value lease ->
  let a' := a_end (a_put a key value lease) in
  implements s (kv_step s (KPut id key value lease)) a' (ReplyPut (a_rev a')) (n + 2).
Proof.
  intros Hok Hd Hw Hn Hf a'. destruct (txn_begin_within s a n id) as [Hok1 Hw1]; [done..|]. simpl. unfold Put.
  destruct (store_put_spec (TxnBegin s id) a key value lease) as (s1 & -> & Hok2 & Hl2 & Ht2 & _ & Hs2); [done|by eapply put_fits_ok|].
  gosimpl. destruct (txn_end_within s1 (a_put a key value lease) (n + 1)) as (s' & E & Hok' & Hw' & Hl' & Hc);
    [done|apply (within_put (TxnBegin s id)); [done|lia|done]|lia|].
  rewrite Ht2 in E. change (s_txnID (TxnBegin s id)) with id in E. rewrite E. gosimpl. exists s'. rewrite Hc.
  split; [done|]. split; [done|]. split; [by intros; rewrite Hl', Hl2|]. split; [done|]. by replace (n + 2) with (n + 1 + 1) by lia.
Qed.

Lemma DeleteRange_spec s a n id key endk : kv_ok s a -> a_dirty a = false -> within s a n -> n + 2 < 2147483648 ->
  let a' := a_end (a_deleteRange a key endk) in
  implements s (kv_step s (KDelete id key endk)) a' (ReplyDelete (zlen (a_list (a_now a) key endk)) (a_rev a')) (n + 2).
Proof.
  intros Hok Hd Hw Hn a'. destruct (txn_begin_within s a n id) as [Hok1 Hw1]; [done..|]. simpl. unfold DeleteRange.
  destruct (deleteRange_spec (TxnBegin s id) a key endk) as (s1 & -> & Hok2 & Hl2 & Ht2 & _ & Hs2); [done|by eapply within_delete_room|].
  gosimpl. destruct (txn_end_within s1 (a_deleteRange a key endk) (n + 1)) as (s' & E & Hok' & Hw' & Hl' & Hc);
    [done|apply (within_delete (TxnBegin s id)); [done|lia|done]|lia|].
  rewrite Ht2 in E. change (s_txnID (TxnBegin s id)) with id in E. rewrite E. gosimpl. exists s'. rewrite Hc.
  split; [done|]. split; [done|]. split; [by intros; rewrite Hl', Hl2|]. split; [done|]. by replace (n + 2) with (n + 1 + 1) by lia.
Qed.

Lemma Txn_spec s a n id ops : kv_ok s a -> a_dirty a = false -> within s a n -> n + (zlen ops + 1) < 2147483648 ->
  Forall (txn_fits (lease_known s)) ops ->
  implements s (kv_step s (KTxn id ops)) (a_end (a_txn a ops).1) (ReplyTxn (a_txn a ops).2) (n + (zlen ops + 1)).
Proof.
  intros Hok Hd Hw Hn Hf. destruct (txn_begin_within s a n id) as [Hok1 Hw1]; [done..|]. simpl.
  destruct (txn_steps_spec ops (TxnBegin s id) a n) as (s1 & E1 & Hok2 & Hl2 & Ht2 & Hw2); [done|done|lia|done|].
  change (s_txnID (TxnBegin s id)) with id in E1, Ht2. rewrite E1. gosimpl.
  destruct (a_txn a ops) as [a2 rs]. cbn [fst snd] in *.
  destruct (txn_end_within s1 a2 (n + zlen ops)) as (s' & E & Hok' & Hw' & Hl' & _); [done|done|lia|].
  rewrite Ht2 in E. unfold TxnEnd. rewrite E. gosimpl. exists s'. split; [done|]. split; [done|].
  split; [by intros; rewrite Hl', Hl2|]. split; [done|]. by replace (n + (zlen ops + 1)) with (n + zlen ops + 1) by lia.
Qed.

Lemma Commit_core s a m : kv_core s a m -> kv_core (Commit s) a m.
Proof.
  intros [? ? ? ? ? ? ? (H & L & Hh & ?)]. split; try done; simpl; unfold ForceCommit; rewrite ?commit_tx; try done.
  exists H, L. split; [|done]. by eapply hist_weaken.
Qed.

Lemma kv_step_spec s a n op : kv_ok s a -> a_dirty a = false -> within s a n -> n + weight op < 2147483648 ->
  kv_fit (lease_known s) op ->
  implements s (kv_step s op) (a_step a op).1 (a_step a op).2 (n + weight op).
Proof.
  intros Hok Hd Hw Hn Hf. pose proof (within_roomy _ _ _ Hw) as [Hr _].
  assert (n + 2 < 2147483648 -> forall s', s_currentRev s' = s_currentRev s -> within s' a (n + 2)) as Hkeep.
  { intros Hn2 s' E. eapply within_weaken; [done| |by rewrite E]. destruct Hw; lia. }
  destruct op as [id key endk limit rev|id key value lease|id key endk|id ops|rev| |]; cbn [a_step weight kv_fit] in *.
  - by apply Range_spec.
  - by apply Put_spec.
  - by apply DeleteRange_spec.
  - pose proof (Txn_spec s a n id ops) as Ht. destruct (a_txn a ops). by apply Ht.
  - cbn [kv_step]. pose proof (store_Compact_spec s a rev Hok) as Hc.
    destruct (rev <=? a_compact a); [|destruct (rev >? a_rev a)].
    1-2: rewrite Hc; gosimpl; exists s; by split_and!; [..|apply Hkeep].
    destruct Hc as (s' & -> & Hok' & Hl' & Hc). gosimpl. exists s'. split_and!; [done..|].
    destruct (Hkeep Hn s' Hc). by split.
  - cbn [kv_step]. destruct (compaction_step_spec s a) as (s' & -> & Hok' & Hl' & Hc); [done|unfold a_next in Hr; lia|].
    gosimpl. exists s'. by split_and!; [..|apply Hkeep].
  - exists (Commit s). split; [done|]. split_and!; [|done..|by apply Hkeep].
    destruct Hok as [[m Hm] Hle]. split; [|exact Hle]. exists m. by apply Commit_core.
Qed.

Lemma kv_run_spec ops s a n : kv_ok s a -> a_dirty a = false -> within s a n -> n + weights ops < 2147483648 ->
  Forall (kv_fit (lease_known s)) ops ->
  exists s', kv_run s ops = Ok (s', (a_run a ops).2) /\ kv_ok s' (a_run a ops).1
  /\ (forall id, lease_known s' id <-> lease_known s id) /\ within s' (a_run a ops).1 (n + weights ops).
Proof.
  revert s a n. induction ops as [|op ops IH]; intros s a n Hok Hd Hw Hn Hf; simpl.
  { exists s. by rewrite Z.add_0_r. }
  apply Forall_cons in Hf as [Hf1 Hf]. simpl in Hn.
  pose proof (weights_pos ops) as H0.
  destruct (kv_step_spec s a n op) as (s1 & -> & Hok1 & Hl1 & Hd1 & Hw1); [done|done|done|lia|done|]. gosimpl.
  destruct (a_step a op) as [a1 r1]. simpl in *.
  destruct (IH s1 a1 (n + weight op)) as (s2 & -> & Hok2 & Hl2 & Hw2); [done|done|done|lia| |].
  { eapply Forall_impl; [done|]. intros op'. by apply kv_fit_mono, Hl1. }
  gosimpl. destruct (a_run a1 ops) as [a2 rs]. exists s2. split; [done|]. split; [done|].
  split; [by intros; rewrite Hl2|]. by rewrite Z.add_assoc.
Qed.

(** ** The empty store *)

Definition a_init : akv := AKV 1 false (-1) (fun _ => ∅) [].

Lemma a_init_now : a_now a_init = ∅.
Proof. done. Qed.

(** A lessor whose leases have no keys attached, as after [initAndRecover]. *)
Definition no_items (le : option lessor) : Prop :=
  forall l id x, le = Some l -> le_leaseMap l !! id = Some x -> l_itemSet x = ∅.

Definition knows (le : option lessor) (id : Z) : Prop :=
  exists l x, le = Some l /\ le_leaseMap l !! id = Some x.

Lemma empty_core (b : backend M) le : b_tx b !! keyBucketName = Some om_empty -> b_tx b !! metaBucketName = Some om_empty ->
  kv_core (Store b newTreeIndex le (Revision 1 0) (-1) 0 [] []) a_init om_empty.
Proof.
  intros Hk Hm. split; simpl; try done.
  - split; [apply new_ok|apply new_before].
  - exists om_empty. split; [done|]. unfold meta_ok. rewrite !om_get_empty. split; [done|]. exists (-1).
    split; [done|]. split; [done|]. split; [by repeat constructor|done].
  - by intros j []%not_elem_of_nil.
  - exists [], []. rewrite om_items_empty. split; [|split; [done|by intros j []%not_elem_of_nil]].
    split; try done; [by constructor|intros k; by intros []|intros; apply new_view|by left|].
    by intros r []%not_elem_of_nil.
Qed.

Lemma NewStore_empty (b : backend M) le : b_tx b !! keyBucketName = None -> b_tx b !! metaBucketName = None -> no_items le ->
  exists s, NewStore b le = Ok (s, None) /\ kv_ok s a_init /\ s_le s = le /\ rv_sub (s_currentRev s) = 0.
Proof.
  intros Hk Hm Hle. unfold NewStore, UnsafeCreateBucket. rewrite Hk. unfold put_bucket at 1. cbn [b_tx upd].
  rewrite lookup_insert_ne, Hm by done. set (b1 := put_bucket _ metaBucketName _).
  assert (b_tx (ForceCommit (Unlock b1)) = b_tx b1) as Eb by (unfold ForceCommit; by rewrite commit_tx, Unlock_tx).
  set (b2 := ForceCommit (Unlock b1)) in *.
  assert (b_tx b2 !! metaBucketName = Some om_empty) as Em by (rewrite Eb; apply lookup_insert_eq).
  assert (b_tx b2 !! keyBucketName = Some om_empty) as Ek.
  { rewrite Eb. unfold b1, put_bucket. cbn [b_tx upd]. rewrite lookup_insert_ne by done. apply lookup_insert_eq. }
  unfold restore. cbn [s_b upd]. unfold UnsafeRange at 1, tx_bucket. rewrite Em. gosimpl. simpl. rewrite om_get_empty. gosimpl.
  unfold UnsafeRange at 1, tx_bucket. cbn [s_b upd]. rewrite Ek. gosimpl.
  rewrite revToBytes_zlen. change (revBytesLen =? 0) with false. cbv iota.
  assert (om_seek (revToBytes (Revision 1 0)) (om_empty : M (list Z)) = []) as Hs by (unfold om_seek; by rewrite om_items_empty).
  rewrite Hs. gosimpl. cbn [cursor_loop foldM].
  gosimpl. unfold UnsafeRange, tx_bucket. cbn [s_b upd]. rewrite Em. gosimpl. simpl. rewrite om_get_empty. gosimpl.
  eexists. split; [done|]. split; [|done]. split.
  - exists om_empty. apply empty_core; cbn [upd s_b]; by rewrite Unlock_tx.
  - intros id key. split; [|intros (_ & kv & Hkv & _); by rewrite a_init_now, lookup_empty in Hkv].
    intros (l & x & El & Ex & Hin). simpl in El. rewrite (Hle l id x El Ex) in Hin. by apply not_elem_of_empty in Hin.
Qed.

Lemma a_init_within s : rv_sub (s_currentRev s) = 0 -> within s a_init 0.
Proof.
  intros Hs. split; [lia|simpl; lia|lia| |].
  - rewrite a_init_now, map_size_empty. lia.
  - intros k kv. by rewrite a_init_now, lookup_empty.
Qed.

Lemma store_run_eq (b : backend M) le ops :
  b_tx b !! keyBucketName = None -> b_tx b !! metaBucketName = None -> no_items le ->
  weights ops < 2147483648 -> Forall (kv_fit (knows le)) ops ->
  exists s0 s, NewStore b le = Ok (s0, None) /\ kv_run s0 ops = Ok (s, (a_run a_init ops).2)
  /\ kv_ok s (a_run a_init ops).1 /\ within s (a_run a_init ops).1 (weights ops)
  /\ (forall id, lease_known s id <-> knows le id).
Proof.
  intros Hk Hm Hle Hw Hf. destruct (NewStore_empty b le Hk Hm Hle) as (s0 & E0 & Hok & El & Hs).
  assert (forall id, lease_known s0 id <-> knows le id) as Hkn by (intros id; unfold lease_known; by rewrite El).
  destruct (kv_run_spec ops s0 a_init 0) as (s & E & Hok' & Hl & Hwi); [done|done|by apply a_init_within|lia| |].
  - eapply Forall_impl; [done|]. intros op. apply kv_fit_mono. by intros id ?%Hkn.
  - exists s0, s. split; [done|]. split; [done|]. split; [done|]. split; [done|]. intros id. by rewrite Hl.
Qed.

(** C3. From the empty store, any sequence of range requests, puts, range
    deletions, transactions of these, compactions, batches of the background
    compaction and backend commits, interleaved in any order, runs without a
    panic and answers every request as the abstract store does: a range at
    revision [r] gives the content the keys had at [r], in the order of the keys
    and cut at the limit; a transaction makes one revision; requests for
    compacted and future revisions are refused; and afterwards a key is attached
    to a lease exactly if its newest value names the lease.  The bound keeps the
    sub revisions, versions and revisions of the run in an int64. *)
Theorem store_run_refines (b : backend M) le ops :
  b_tx b !! keyBucketName = None -> b_tx b !! metaBucketName = None -> no_items le ->
  weights ops < 2147483648 -> Forall (kv_fit (knows le)) ops ->
  exists s0 s, NewStore b le = Ok (s0, None) /\ kv_run s0 ops = Ok (s, (a_run a_init ops).2)
  /\ leases_ok s (a_run a_init ops).1.
Proof.
  intros Hk Hm Hle Hw Hf. destruct (store_run_eq b le ops Hk Hm Hle Hw Hf) as (s0 & s & ? & ? & [_ ?] & _). by exists s0, s.
Qed.

(** ** Old revisions do not change *)

(** A change is seen from the next revision on only. *)
Definition extends a a' : Prop :=
  a_rev a <= a_rev a' /\ forall r, r <= a_rev a -> a_at a' r = a_at a r.

#[global] Instance extends_preorder : PreOrder extends.
Proof.
  split; [by split|]. intros a1 a2 a3 [H1 E1] [H2 E2]. split; [lia|]. intros r Hr. rewrite E2 by lia. auto.
Qed.

Lemma change_extends a lz f : extends a (a_change a lz f).
Proof.
  split; [done|]. intros r Hr. unfold a_change. simpl. zif; [|done]. unfold a_next in *. lia.
Qed.

Lemma deletes_extend ks a : extends a (foldl a_delete a ks).
Proof.
  revert a. induction ks as [|k ks IH]; intros a; [done|]. simpl. etrans; [apply (change_extends a)|apply IH].
Qed.

Lemma end_extends a : extends a (a_end a).
Proof. split; [|done]. unfold a_end, a_next. simpl. destruct (a_dirty a); lia. Qed.

Lemma txn_extends ops a : extends a (a_txn a ops).1.
Proof.
  revert a. induction ops as [|op ops IH]; intros a; [done|]. cbn [a_txn].
  assert (extends a (a_txn_step a op).1) as H1.
  { destruct op; [done|apply change_extends|apply deletes_extend]. }
  destruct (a_txn_step a op) as [a1 r1]. specialize (IH a1). destruct (a_txn a1 ops). by etrans.
Qed.

Lemma step_extends a op : extends a (a_step a op).1.
Proof.
  destruct op as [|id key value lease|id key endk|id ops|rev| |]; cbn [a_step fst]; [apply end_extends| | | | |done..].
  - etrans; [apply (change_extends a)|apply end_extends].
  - etrans; [apply (deletes_extend (kvKey <$> a_list (a_now a) key endk) a)|apply end_extends].
  - pose proof (txn_extends ops a). destruct (a_txn a ops). etrans; [done|apply end_extends].
  - destruct (_ <=? _); [done|]. by destruct (_ >? _).
Qed.

Lemma run_extends ops a : extends a (a_run a ops).1.
Proof.
  revert a. induction ops as [|op ops IH]; intros a; [done|]. cbn [a_run]. pose proof (step_extends a op) as H1.
  destruct (a_step a op) as [a1 r1]. specialize (IH a1). destruct (a_run a1 ops). by etrans.
Qed.

Lemma a_run_app a ops1 ops2 : a_run a (ops1 ++ ops2) =
  ((a_run (a_run a ops1).1 ops2).1, (a_run a ops1).2 ++ (a_run (a_run a ops1).1 ops2).2).
Proof.
  revert a. induction ops1 as [|op ops1 IH]; intros a; simpl; [by destruct (a_run a ops2)|].
  destruct (a_step a op) as [a1 r1]. rewrite IH. destruct (a_run a1 ops1) as [a2 rs2]. simpl. by destruct (a_run a2 ops2).
Qed.

Lemma run_clean ops a : a_dirty a = false -> a_dirty (a_run a ops).1 = false.
Proof.
  revert a. induction ops as [|op ops IH]; intros a Hd; [done|]. cbn [a_run].
  assert (a_dirty (a_step a op).1 = false) as Hd1.
  { destruct op as [| | |id ops'|rev| |]; cbn [a_step]; [done..| | |done|done].
    - by destruct (a_txn a ops').
    - destruct (_ <=? _); [done|]. by destruct (_ >? _). }
  destruct (a_step a op) as [a1 r1]. specialize (IH a1 Hd1). by destruct (a_run a1 ops).
Qed.

(** What a later request for the same revision answers. *)
Lemma a_range_again a a' key endk limit r kvs cur : extends a a' -> a_dirty a = false -> a_dirty a' = false ->
  0 < r -> a_compact a' < r ->
  a_range a key endk limit r = (kvs, cur, None) ->
  a_range a' key endk limit r = (kvs, a_rev a', None) /\ cur <= a_rev a'.
Proof.
  intros [Hr Hat] Hd Hd' H0 Hc. unfold a_range, a_cur. rewrite Hd, Hd', (proj2 (Z.leb_gt r 0)) by lia.
  destruct (Z.gtb_spec r (a_rev a)); [done|]. destruct (Z.leb_spec r (a_compact a)); [done|]. intros [= <- <-].
  destruct (Z.gtb_spec r (a_rev a')); [lia|]. destruct (Z.leb_spec r (a_compact a')); [lia|]. by rewrite Hat by lia.
Qed.

Lemma kv_run_app s ops1 ops2 : kv_run s (ops1 ++ ops2) =
  let! '(s1, rs1) := kv_run s ops1 in let! '(s2, rs2) := kv_run s1 ops2 in Ok (s2, rs1 ++ rs2).
Proof.
  revert s. induction ops1 as [|op ops1 IH]; intros s; simpl.
  - by destruct (kv_run s ops2) as [[s2 rs2]|].
  - destruct (kv_step s op) as [[s1 r1]|]; [|done]. gosimpl. rewrite IH.
    destruct (kv_run s1 ops1) as [[s2 rs2]|]; [|done]. gosimpl. by destruct (kv_run s2 ops2) as [[s3 rs3]|].
Qed.

Lemma store_run_split (b : backend M) le ops1 ops2 :
  b_tx b !! keyBucketName = None -> b_tx b !! metaBucketName = None -> no_items le ->
  weights (ops1 ++ ops2) < 2147483648 -> Forall (kv_fit (knows le)) (ops1 ++ ops2) ->
  exists s0 s1 s2, NewStore b le = Ok (s0, None) /\ kv_run s0 ops1 = Ok (s1, (a_run a_init ops1).2)
  /\ kv_run s1 ops2 = Ok (s2, (a_run (a_run a_init ops1).1 ops2).2)
  /\ kv_ok s1 (a_run a_init ops1).1 /\ kv_ok s2 (a_run a_init (ops1 ++ ops2)).1.
Proof.
  intros Hk Hm Hle Hw Hf. pose proof (weights_pos ops2).
  destruct (store_run_eq b le ops1 Hk Hm Hle) as (s0 & s1 & E0 & E1 & Hok1 & _).
  { rewrite weights_app in Hw. lia. }
  { by apply Forall_app in Hf as [? _]. }
  destruct (store_run_eq b le (ops1 ++ ops2) Hk Hm Hle Hw Hf) as (s0' & s2 & E0' & E12 & Hok2 & _).
  rewrite E0 in E0'. injection E0' as <-. rewrite kv_run_app, E1 in E12. cbn [gobind] in E12.
  destruct (kv_run s1 ops2) as [[s2' rs2]|] eqn:E2; [|done]. cbn [gobind] in E12. injection E12 as -> Ers.
  rewrite a_run_app in Ers. apply app_inv_head in Ers. subst rs2. by exists s0, s1, s2.
Qed.

(** The replies of a run whose last request is a range request. *)
Lemma last_range ops id key endk limit r a rs x : (a_run a (ops ++ [KRange id key endk limit r])).2 = rs ++ [x] ->
  x = ReplyRange (a_range (a_run a ops).1 key endk limit r).
Proof. rewrite a_run_app. simpl. by intros [_ E]%app_inj_tail. Qed.

(** C18. Reads of a revision repeat: when a range request at revision [r > 0] was
    answered, then after any further requests the same request gets the same
    keys and values, unless the revision was compacted meanwhile. *)
Theorem reads_repeat (b : backend M) le ops1 ops2 id id' key endk limit r s0 s1 rs1 kvs cur s2 rs2 :
  b_tx b !! keyBucketName = None -> b_tx b !! metaBucketName = None -> no_items le ->
  let ops := ops1 ++ KRange id key endk limit r :: ops2 ++ [KRange id' key endk limit r] in
  weights ops < 2147483648 -> Forall (kv_fit (knows le)) ops ->
  NewStore b le = Ok (s0, None) ->
  kv_run s0 (ops1 ++ [KRange id key endk limit r]) = Ok (s1, rs1 ++ [ReplyRange (kvs, cur, None)]) ->
  kv_run s1 ops2 = Ok (s2, rs2) -> 0 < r -> s_compactMainRev s2 < r ->
  exists s3 cur', kv_step s2 (KRange id' key endk limit r) = Ok (s3, ReplyRange (kvs, cur', None)) /\ cur <= cur'.
Proof.
  intros Hk Hm Hle ops Hw Hf Enew E1 E2 H0 Hc. set (q := KRange id key endk limit r) in *.
  set (q' := KRange id' key endk limit r) in *.
  assert (ops = (ops1 ++ [q]) ++ ops2 ++ [q']) as Eops by (unfold ops; by rewrite <- (assoc_L (++))).
  rewrite Eops in Hw, Hf.
  destruct (store_run_split b le (ops1 ++ [q]) (ops2 ++ [q']) Hk Hm Hle Hw Hf) as (s0' & s1' & s3 & Enew' & E1' & E3 & _).
  rewrite Enew in Enew'. injection Enew' as <-. rewrite E1 in E1'. injection E1' as <- Ers1.
  symmetry in Ers1. apply last_range in Ers1. injection Ers1 as Er.
  rewrite (assoc_L (++)) in Hw, Hf.
  destruct (store_run_split b le _ _ Hk Hm Hle Hw Hf) as (s0' & s2' & s3' & Enew' & E2' & E4 & [[m Hok2] _] & _).
  rewrite Enew in Enew'. injection Enew' as <-. rewrite kv_run_app, E1 in E2'. cbn [gobind] in E2'.
  rewrite E2 in E2'. cbn [gobind] in E2'. injection E2' as <- _.
  cbn [kv_run] in E4. destruct (kv_step s2 q') as [[s4 r4]|] eqn:Eq; [|done]. cbn [gobind] in E4. injection E4 as -> ->.
  destruct (k_compact _ _ _ Hok2) as [Hcc _].
  destruct (a_range_again (a_run a_init ops1).1 (a_run a_init ((ops1 ++ [q]) ++ ops2)).1 key endk limit r kvs cur) as [E' Hcur];
    [|by apply run_clean..|done|by rewrite <- Hcc|done|].
  { rewrite <- (assoc_L (++)), a_run_app. apply run_extends. }
  exists s3', (a_rev (a_run a_init ((ops1 ++ [q]) ++ ops2)).1). simpl. by rewrite E'.
Qed.
End run.

(** ** Examples *)

Definition ex_le : option lessor := Some (mkLessor true {[7 := mkLease 7 60 ∅ None]} []).

(** Puts with and without a lease, a transaction, deletions, a compaction with
    its batch, and reads. *)
Definition ex_kv_ops : list kv_op :=
  [KPut 1 [97] [1] 7; KPut 2 [98] [2] 0;
   KTxn 3 [TPut [97] [3] 0; TDelete [98] None; TRange [97] (Some [99]) 0 0; TPut [98] [4] 7];
   KDelete 4 [97] (Some [98]); KCompact 3; KBatch; KCommit; KRange 5 [97] (Some [99]) 0 4].

Lemma ex_no_items : no_items ex_le.
Proof.
  intros l id x [= <-]. cbn [le_leaseMap]. intros [<- <-]%lookup_singleton_Some. done.
Qed.

Lemma ex_fits : Forall (kv_fit (knows ex_le)) ex_kv_ops.
Proof.
  assert (knows ex_le 7) as H7 by (eexists _, _; split; [done|]; apply lookup_singleton_eq).
  repeat constructor; unfold txn_fits, put_fits, is_i64, NoLease; simpl; try lia; try done.
Qed.

Lemma store_run_refines_witness :
  exists s0 s, NewStore ex_backend ex_le = Ok (s0, None) /\ kv_run s0 ex_kv_ops = Ok (s, (a_run a_init ex_kv_ops).2)
  /\ leases_ok s (a_run a_init ex_kv_ops).1.
Proof.
  apply (store_run_refines ex_backend ex_le ex_kv_ops); [reflexivity|reflexivity|apply ex_no_items|reflexivity|apply ex_fits].
Defined.

Lemma ex_read : exists kvs cur,
  a_range (a_run a_init ex_kv_ops).1 [97] (Some [99]) 0 4 = (kvs, cur, None) /\ kvs <> [].
Proof. eexists _, _. split; [vm_compute; reflexivity|done]. Qed.

Lemma ex_run : exists s0 s1 kvs cur s2 rs2, NewStore ex_backend ex_le = Ok (s0, None)
  /\ kv_run s0 (ex_kv_ops ++ [KRange 9 [97] (Some [99]) 0 4])
     = Ok (s1, (a_run a_init ex_kv_ops).2 ++ [ReplyRange (kvs, cur, None)])
  /\ kvs <> [] /\ kv_run s1 [KDelete 9 [98] None] = Ok (s2, rs2) /\ s_compactMainRev s2 < 4.
Proof.
  set (ops := ex_kv_ops ++ [KRange 9 [97] (Some [99]) 0 4]).
  assert (Forall (kv_fit (knows ex_le)) (ops ++ [KDelete 9 [98] None])) as Hf.
  { apply Forall_app. split; [|by repeat constructor]. apply Forall_app. split; [apply ex_fits|by repeat constructor]. }
  destruct (store_run_split ex_backend ex_le ops [KDelete 9 [98] None]) as (s0 & s1 & s2 & E0 & E1 & E2 & _ & [[m Hok] _]);
    [done|done|apply ex_no_items|done|done|].
  destruct ex_read as (kvs & cur & Er & Hk). eexists s0, s1, kvs, cur, s2, _. split; [done|]. split.
  { rewrite E1. unfold ops. rewrite a_run_app. cbn [a_run a_step fst snd]. by rewrite Er. }
  split; [done|]. split; [exact E2|]. rewrite (proj1 (k_compact _ _ _ Hok)). vm_compute. reflexivity.
Qed.

Lemma reads_repeat_witness :
  exists s0 s1 rs1 kvs cur s2 rs2 s3 cur', NewStore ex_backend ex_le = Ok (s0, None)
  /\ kv_run s0 (ex_kv_ops ++ [KRange 9 [97] (Some [99]) 0 4]) = Ok (s1, rs1 ++ [ReplyRange (kvs, cur, None)])
  /\ kvs <> []
  /\ kv_run s1 [KDelete 9 [98] None] = Ok (s2, rs2)
  /\ kv_step s2 (KRange 10 [97] (Some [99]) 0 4) = Ok (s3, ReplyRange (kvs, cur', None)) /\ cur <= cur'.
Proof.
  destruct ex_run as (s0 & s1 & kvs & cur & s2 & rs2 & H0 & H1 & Hk & H2 & H3).
  destruct (reads_repeat ex_backend ex_le ex_kv_ops [KDelete 9 [98] None] 9 10 [97] (Some [99]) 0 4 s0 s1 (a_run a_init ex_kv_ops).2
    kvs cur s2 rs2) as (s3 & cur' & H4 & H5);
    [reflexivity|reflexivity|apply ex_no_items|reflexivity| |done|done|done|lia|done|].
  - apply Forall_app. split; [apply ex_fits|]. by repeat constructor.
  - eexists s0, s1, _, kvs, cur, s2, rs2, s3, cur'. done.
Defined.
