(* ===== verification/KVLease.v ===== *)
(** Revoking a lease.

    [Revoke] of lease/lessor.go deletes the keys attached to the lease through
    the store.  [revoke_deletes]: exactly the keys whose value names the lease
    are gone afterwards. *)

From S2P Require Import Prelude RaftPB Proto RaftCodec OrderedMap Revision KeyIndex TreeIndex StorePB Backend Lessor KVStore KVHistory KVSpec KVDisk KVRefine KVCompact KVRun.

Section lease.
  Context {M : Type -> Type} {om : OMap M} {laws : OMapLaws M}.
  Implicit Types (s : store M) (a : akv) (m : M (list Z)).

(** Deleting one key. *)
Lemma a_list_one (c : gmap (list Z) KeyValue) key : a_list c key None = match c !! key with Some kv => [kv] | None => [] end.
Proof.
  destruct (a_list_spec c key None) as (P & -> & Hs & Hin).
  assert (P = match c !! key with Some kv => [(key, kv)] | None => [] end) as ->; [|by destruct (c !! key)].
  apply sorted_items_eq; [done|destruct (c !! key); by repeat constructor|]. intros [k kv]. rewrite Hin. simpl.
  destruct (c !! key) as [kv'|] eqn:E; [rewrite list_elem_of_singleton|rewrite elem_of_nil]; naive_solver.
Qed.

Lemma delete_one s a n (tid : Z) key : kv_ok s a -> a_dirty a = false -> within s a n -> n + 2 < 2147483648 ->
  a_now (a_end (a_deleteRange a key None)) = delete key (a_now a).
Proof.
  intros Hok Hd Hw Hn. destruct (txn_begin_within s a n tid) as [Hok1 Hw1]; [done..|].
  destruct (deleteRange_spec (TxnBegin s tid) a key None) as (s1 & _ & [[m1 Hm1] _] & _); [done|by eapply within_delete_room|].
  rewrite (a_end_now s1 _ m1) by done. unfold a_deleteRange. rewrite a_list_one. destruct (a_now a !! key) as [kv|] eqn:E; simpl.
  - destruct Hok as [[m Hm] _]. destruct (shown_rec _ _ _ _ _ _ Hm E) as (r & _ & _ & <- & Hk).
    fold (h_key r). rewrite Hk. apply a_change_now.
  - symmetry. by apply delete_id.
Qed.

Lemma revoke_items items s a n : kv_ok s a -> a_dirty a = false -> within s a n -> n + 2 * zlen items < 2147483648 ->
  exists s' a', foldM (fun s it => let! '(s, _) := DeleteRange s it.1 it.2 None in Ok s) items s = Ok s'
  /\ kv_ok s' a' /\ a_dirty a' = false /\ within s' a' (n + 2 * zlen items)
  /\ (forall id, lease_known s' id <-> lease_known s id) /\ extends a a'
  /\ (forall k, a_now a' !! k = if decide (k ∈ items.*2) then None else a_now a !! k)
  /\ forall name, is_Some (b_tx (s_b s) !! name) -> is_Some (b_tx (s_b s') !! name).
Proof.
  revert s a n. induction items as [|[tid key] items IH]; intros s a n Hok Hd Hw Hn.
  { exists s, a. rewrite Z.add_0_r. split; [done|]. do 5 (split; [done|]). split; [|done].
    intros k. by rewrite decide_False by apply not_elem_of_nil. }
  cbn [length] in *. destruct (DeleteRange_spec s a n tid key None) as (s1 & E1 & Hok1 & Hl1 & Hd1 & Hw1); [done|done|done|lia|].
  cbn [kv_step] in E1. apply bind_Ok_inv in E1 as ([s2 [k1 r1]] & E1 & E2). injection E2 as -> _ _.
  cbn [foldM fst snd]. rewrite E1. gosimpl.
  destruct (IH s1 (a_end (a_deleteRange a key None)) (n + 2)) as (s' & a' & E' & Hok' & Hd' & Hw' & Hl' & Hext' & Hnow' & Hb');
    [done|done|done|lia|].
  exists s', a'. split; [done|]. split; [done|]. split; [done|].
  split; [by replace (n + 2 * Z.of_nat (S (length items))) with (n + 2 + 2 * zlen items) by lia|].
  split; [by intros; rewrite Hl'|]. split; [|split; [|intros; by eapply Hb', DeleteRange_buckets]].
  - etrans; [apply (deletes_extend (kvKey <$> a_list (a_now a) key None) a)|]. etrans; [apply end_extends|done].
  - intros k. rewrite Hnow', (delete_one s a n tid) by (done || lia). simpl.
    destruct (decide (k ∈ items.*2)) as [Hin|Hin]; [by rewrite decide_True by (by right)|].
    destruct (decide (k = key)) as [->|Hne]; [rewrite decide_True by left; apply lookup_delete_eq|].
    rewrite decide_False by (by intros [?|?]%elem_of_cons). by apply lookup_delete_ne.
Qed.

Lemma core_backend s a m (b : backend M) : kv_core s a m -> b_tx b !! keyBucketName = b_tx (s_b s) !! keyBucketName ->
  b_tx b !! metaBucketName = b_tx (s_b s) !! metaBucketName -> kv_core (s <| s_b := b |>) a m.
Proof.
  intros [? ? ? ? Hb (mm & Hmm & ?) ? (Hi & L & [] & ? & ?)] Ek Em. split; simpl; try done.
  - by rewrite Ek.
  - exists mm. by rewrite Em.
  - by exists Hi, L.
Qed.

(** The lease is gone. *)
Definition without_lease s (id : Z) (b : backend M) : store M :=
  s <| s_le := (fun le => le <| le_leaseMap := delete id (le_leaseMap le) |>) <$> s_le s |> <| s_b := b |>.

Lemma without_lease_known s id b id' : (lease_known (without_lease s id b) id' <-> lease_known s id' /\ id' <> id)
  /\ forall k, attached (without_lease s id b) id' k <-> attached s id' k /\ id' <> id.
Proof.
  unfold lease_known, attached, without_lease. simpl. destruct (s_le s) as [le|]; simpl; [|naive_solver].
  assert (forall l, delete id (le_leaseMap le) !! id' = Some l <-> le_leaseMap le !! id' = Some l /\ id' <> id) as Hd.
  { intros l. rewrite lookup_delete_Some. naive_solver. }
  split; [split|intros k; split].
  - intros (? & l & [= <-] & Hl%Hd). naive_solver.
  - intros [(? & l & [= <-] & Hl) Hne]. eexists _, l. split; [done|]. by apply Hd.
  - intros (? & l & [= <-] & Hl%Hd & Hin). naive_solver.
  - intros [(? & l & [= <-] & Hl & Hin) Hne]. eexists _, l. split; [done|]. split; [by apply Hd|done].
Qed.

(** ** The store as the range deleter of the lessor *)

(** The leases of a store, and their records, up to the keys attached. *)
Definition kept s s' : Prop :=
  match s_le s, s_le s' with
  | Some le, Some le' => same_leases le le'
  | None, None => True
  | _, _ => False
  end /\ b_tx (s_b s') !! leaseBucketName = b_tx (s_b s) !! leaseBucketName.

#[local] Instance kept_preorder : PreOrder kept.
Proof using.
  split.
  - intros s. split; [|done]. by destruct (s_le s).
  - intros s1 s2 s3 [H1 B1] [H2 B2]. split; [|congruence].
    destruct (s_le s1), (s_le s2), (s_le s3); try done. destruct H1 as [P1 L1], H2 as [P2 L2].
    split; [congruence|]. intros id. by rewrite L2, L1.
Qed.

Lemma detach_kept s id key why s' : detach s id key why = Ok s' -> kept s s'.
Proof using.
  unfold detach, kept. destruct (s_le s) as [le|]; [|done]. unfold Detach.
  destruct (le_leaseMap le !! id) as [l|] eqn:E; [|done]. intros [= <-]. simpl. split; [|done]. split; [done|].
  intros id'. simpl. rewrite lookup_insert. destruct (decide (id = id')) as [<-|]; [by rewrite E|done].
Qed.

Lemma store_delete_kept s key rev s' : store_delete s key rev = Ok s' -> kept s s'.
Proof using.
  unfold store_delete. intros (ib & _ & H)%bind_Ok_inv. apply bind_Ok_inv in H as (d & _ & H).
  apply bind_Ok_inv in H as (b & Hb & H). apply bind_Ok_inv in H as ([ti err] & _ & H). destruct err; [done|].
  apply bind_Ok_inv in H as (kv & _ & H). set (s1 := _ <| s_currentRev := _ |>) in H.
  assert (kept s s1) as H1.
  { split; [by unfold s1; simpl; destruct (s_le s)|]. unfold unsafePut in Hb. apply bind_Ok_inv in Hb as (m & _ & [= <-]).
    unfold s1, put_bucket. simpl. by rewrite lookup_insert_ne. }
  etrans; [exact H1|]. clearbody s1. destruct (negb _); [by eapply detach_kept|by injection H as <-].
Qed.

Lemma DeleteRange_kept s id key endk s' x : DeleteRange s id key endk = Ok (s', x) -> kept s s'.
Proof using.
  unfold DeleteRange. intros ([s2 n2] & H2 & H1)%bind_Ok_inv. trans s2.
  - trans (TxnBegin s id); [by split; [simpl; destruct (s_le s)|]|]. revert H2. generalize (TxnBegin s id). intros s0.
    unfold deleteRange. intros ([keys revs] & _ & H)%bind_Ok_inv. destruct (zlen keys =? 0); [by injection H as <- _|].
    apply bind_Ok_inv in H as (s1 & H & [= <- _]). revert s0 H.
    induction (zip keys revs) as [|[k r] krs IH]; intros s0 H; [by injection H as <-|].
    apply bind_Ok_inv in H as (s3 & H3%store_delete_kept & H). etrans; [exact H3|by apply IH].
  - unfold txnEnd in H1. destruct (negb _); injection H1 as <- _; [done|].
    split; simpl; [by destruct (s_le s2)|by rewrite Unlock_tx].
Qed.

(** The method behind the interface: the state is the store. *)
Definition kv_deleter : range_deleter (store M) :=
  Some (fun it st => let '(s, le, b) := st in
    let! '(s, _) := DeleteRange (s <| s_le := Some le |> <| s_b := b |>) it.1 it.2 None in
    match s_le s with Some le => Ok (s, le, s_b s) | None => Panic "nil pointer dereference" end).

Lemma kv_deleter_keeps : keeps_leases kv_deleter.
Proof using.
  intros D it s le b s' le' b' [= <-] H. apply bind_Ok_inv in H as ([s1 x] & H1 & H).
  apply DeleteRange_kept in H1 as [H1 H2]. simpl in H1, H2. destruct (s_le s1) as [le1|]; [|done]. by injection H as <- <- <-.
Qed.

Lemma DeleteRange_le s id key endk s' x le : s_le s = Some le -> DeleteRange s id key endk = Ok (s', x) -> is_Some (s_le s').
Proof using. intros Hle H%DeleteRange_kept. destruct H as [H _]. rewrite Hle in H. destruct (s_le s'); [by eexists|done]. Qed.

Lemma revoke_fold items s le : s_le s = Some le ->
  foldM (fun st it => default (fun _ _ => Panic "nil") kv_deleter it st) items (s, le, s_b s) =
  (let! s := foldM (fun s it => let! '(s, _) := DeleteRange s it.1 it.2 None in Ok s) items s in
   match s_le s with Some le => Ok (s, le, s_b s) | None => Panic "nil pointer dereference" end).
Proof using.
  revert s le. induction items as [|it items IH]; intros s le Hle; cbn [foldM]; [by cbn; rewrite Hle|].
  cbn [kv_deleter default from_option id]. assert (s <| s_le := Some le |> <| s_b := s_b s |> = s) as -> by (destruct s; simpl in *; by subst).
  destruct (DeleteRange s it.1 it.2 None) as [[s1 x]|] eqn:E; [|done]. cbn [gobind].
  destruct (DeleteRange_le _ _ _ _ _ _ _ Hle E) as [le1 Hle1]. rewrite Hle1. cbn [gobind]. by rewrite <- (IH s1 le1 Hle1).
Qed.

(** [Revoke] of the store is [Revoke] of its lessor with the store behind it. *)
Lemma Revoke_lessor s le id items : s_le s = Some le ->
  Revoke s id items =
  (let! '(s', le', b', err) := le_Revoke kv_deleter s le (s_b s) id items in
   Ok (s' <| s_le := Some le' |> <| s_b := b' |>, err)).
Proof using.
  intros Hle. unfold Revoke, le_Revoke. rewrite Hle. destruct (le_leaseMap le !! id) as [l|].
  2: { cbn. f_equal. f_equal. by destruct s; simpl in *; subst. }
  cbn [kv_deleter]. pose proof (revoke_fold items s le Hle) as Hf. cbn [kv_deleter default from_option Datatypes.id] in Hf.
  rewrite Hf. clear Hf. assert (forall s', foldM (fun s it => let! '(s, _) := DeleteRange s it.1 it.2 None in Ok s) items s = Ok s' ->
    is_Some (s_le s')) as Hs.
  { revert s le Hle. induction items as [|it items IH]; intros s le Hle s'; cbn [foldM]; [intros [= <-]; by rewrite Hle|].
    intros (s1 & H1 & H2)%bind_Ok_inv. apply bind_Ok_inv in H1 as ([s2 x] & H1 & [= <-]).
    destruct (DeleteRange_le _ _ _ _ _ _ _ Hle H1) as [le1 Hle1]. by eapply IH. }
  destruct (foldM _ items s) as [s'|]; [|done]. cbn [gobind]. destruct (Hs s' eq_refl) as [le1 Hle1]. rewrite Hle1. cbn [gobind].
  destruct (removeFrom l (s_b s')) as [b|]; [|done]. cbn [gobind]. by destruct s'; simpl in *; subst.
Qed.

(** C19. Revoking a lease deletes exactly the keys whose value names the lease:
    the other keys keep their values, every older revision can still be read, the
    lease is unknown afterwards and all other leases stay. *)
Theorem revoke_deletes s a n id le l items lm :
  kv_ok s a -> a_dirty a = false -> within s a n -> n + 2 * zlen items < 2147483648 ->
  s_le s = Some le -> le_leaseMap le !! id = Some l -> l_ID l = id -> id <> NoLease ->
  items.*2 ≡ₚ elements (l_itemSet l) -> b_tx (s_b s) !! leaseBucketName = Some lm ->
  exists s' a', Revoke s id items = Ok (s', None) /\ kv_ok s' a' /\ extends a a'
  /\ (forall k, a_now a' !! k = kv ← a_now a !! k; if kvLease kv =? id then None else Some kv)
  /\ forall id', lease_known s' id' <-> lease_known s id' /\ id' <> id.
Proof.
  intros Hok Hd Hw Hn Hle Hl Hid Hne Hitems Hlm. unfold Revoke. rewrite Hle, Hl.
  destruct (revoke_items items s a n) as (s1 & a1 & E1 & Hok1 & _ & _ & Hl1 & Hext & Hnow & Hb); [done..|]. rewrite E1. gosimpl.
  assert (forall k kv, a_now a !! k = Some kv -> k ∈ items.*2 <-> kvLease kv = id) as Hin.
  { intros k kv Hk. rewrite Hitems, elem_of_elements. destruct Hok as [_ Hlo]. pose proof (Hlo id k) as Ha.
    rewrite Hk in Ha. unfold attached in Ha. rewrite Hle in Ha. naive_solver. }
  assert (forall k, a_now a1 !! k = kv ← a_now a !! k; if kvLease kv =? id then None else Some kv) as Hnow1.
  { intros k. rewrite Hnow. destruct (a_now a !! k) as [kv|] eqn:E; simpl; [|by destruct (decide _)].
    specialize (Hin k kv E). destruct (decide _); zif; tauto. }
  destruct (Hb leaseBucketName) as [lm1 Hlm1]; [by rewrite Hlm|].
  unfold removeFrom, UnsafeDelete, tx_bucket. rewrite Hlm1. gosimpl. rewrite Hid.
  set (b' := Unlock _). exists (without_lease s1 id b'), a1. split; [done|].
  pose proof (without_lease_known s1 id b') as Hwl. split; [|split; [done|split; [done|]]].
  - destruct Hok1 as [[m1 Hm1] Hlo1]. split.
    + exists m1. apply core_backend; [by apply core_le| |]; unfold b'; rewrite Unlock_tx; unfold put_bucket; cbn [b_tx upd];
        by apply lookup_insert_ne.
    + intros id' k. rewrite (proj2 (Hwl id') k), (Hlo1 id' k). split; [by intros [? ?]|]. intros (Hnl & kv & Hkv & Hx).
      split; [split; [done|by exists kv]|]. intros ->. rewrite Hnow1 in Hkv. destruct (a_now a !! k) as [kv0|]; [|done].
      simpl in Hkv. destruct (Z.eqb_spec (kvLease kv0) id) as [|Hn']; [done|]. congruence.
  - intros id'. by rewrite (proj1 (Hwl id')), Hl1.
Qed.
End lease.

(** ** An example: a lease with one key left *)

Definition ex_lease_backend : backend (gmap (list Z)) := UnsafeCreateBucket ex_backend leaseBucketName.
Definition ex_revoked (s : store (gmap (list Z))) : bool :=
  match s_le s with
  | Some le =>
      match le_leaseMap le !! 7 with
      | Some l => bool_decide (l_ID l = 7 /\ elements (l_itemSet l) = [[98]] /\ is_Some (b_tx (s_b s) !! leaseBucketName))
      | None => false
      end
  | None => false
  end.

Lemma ex_lease_run : match NewStore ex_lease_backend ex_le with
  | Ok (s0, _) => match kv_run s0 ex_kv_ops with Ok (s, _) => ex_revoked s | _ => false end
  | _ => false
  end = true.
Proof. vm_compute. reflexivity. Qed.

Lemma ex_lease_state : exists (s : store (gmap (list Z))) a n le l lm, kv_ok s a /\ a_dirty a = false /\ within s a n /\ n < 1000
  /\ s_le s = Some le /\ le_leaseMap le !! 7 = Some l /\ l_ID l = 7 /\ elements (l_itemSet l) = [[98]]
  /\ b_tx (s_b s) !! leaseBucketName = Some lm /\ option_map kvLease (a_now a !! [98]) = Some 7.
Proof.
  destruct (store_run_eq ex_lease_backend ex_le ex_kv_ops) as (s0 & s & E0 & E1 & Hok & Hw & _);
    [done|done|apply ex_no_items|done|apply ex_fits|].
  pose proof ex_lease_run as Hx. rewrite E0, E1 in Hx. unfold ex_revoked in Hx.
  destruct (s_le s) as [le|] eqn:El; [|done]. destruct (le_leaseMap le !! 7) as [l|] eqn:E7; [|done].
  apply bool_decide_eq_true in Hx as (Hid & Hit & [lm Hlm]).
  exists s, (a_run a_init ex_kv_ops).1, (weights ex_kv_ops), le, l, lm. split; [done|]. split; [by apply run_clean|].
  split; [done|]. split; [done|]. do 5 (split; [done|]). vm_compute. reflexivity.
Qed.

Lemma revoke_deletes_witness : exists (s s' : store (gmap (list Z))) a a',
  Revoke s 7 [(1, [98])] = Ok (s', None) /\ kv_ok s' a'
  /\ option_map kvLease (a_now a !! [98]) = Some 7 /\ a_now a' !! [98] = None /\ ~ lease_known s' 7.
Proof.
  destruct ex_lease_state as (s & a & n & le & l & lm & Hok & Hd & Hw & Hn & Hle & Hl & Hid & Hit & Hlm & Hk).
  destruct (revoke_deletes s a n 7 le l [(1, [98])] lm) as (s' & a' & E & Hok' & _ & Hnow & Hkn);
    [done|done|done|simpl; lia|done|done|done|done|by rewrite Hit|done|].
  exists s, s', a, a'. split; [done|]. split; [done|]. split; [done|]. split.
  - rewrite Hnow. destruct (a_now a !! [98]) as [kv|]; [|done]. simpl in *. by injection Hk as ->.
  - intros H7%Hkn. by destruct H7.
Defined.
