(* ===== verification/KVRestart.v ===== *)
(** Restart of the store.

    [NewStore] rebuilds the index from the records of the backend.  The backend
    commits transactions in batches, so that a crash loses the operations since
    the last commit; [restart_recovers] shows that the store comes back as it
    was after some prefix of the operations that contains all committed ones.
    Two cases in which it does not are the theorems at the end of the file. *)

From S2P Require Import Prelude RaftPB Proto RaftCodec OrderedMap Revision KeyIndex TreeIndex StorePB Backend Lessor KVStore KVHistory KVSpec KVDisk KVRefine KVCompact KVRun KVLease.

Section restart.
  Context {M : Type -> Type} {om : OMap M} {laws : OMapLaws M}.
  Implicit Types (s : store M) (a : akv) (m : M (list Z)).

(** ** Replaying the bucket *)

Definition last_rev (l : list hrec) (d : revision) : revision := default d (h_rev <$> last l).

Lemma restore_key_Ok s r ti : rec_ok r -> kvLease (h_kv r) = NoLease -> replay_rec (s_kvindex s) r = Ok ti ->
  restore_key s (h_bytes r) = Ok (s <| s_kvindex := ti |> <| s_currentRev := h_rev r |>).
Proof.
  intros (([Hr1 Hr2] & _) & _ & Hf & _) Hl Hre. unfold restore_key, h_bytes. rewrite kv_unmarshal_Ok by done. gosimpl.
  assert (forall rest, slice2 (revToBytes (h_rev r) ++ rest) 0 revBytesLen = Ok (revToBytes (h_rev r))) as Hsl.
  { intros rest. unfold slice2. rewrite length_app, revToBytes_length. unfold revBytesLen. repeat (zif; [|lia]).
    change (Z.to_nat (17 - 0)) with 17%nat. change (Z.to_nat 0) with 0%nat. rewrite drop_0.
    by rewrite take_app_length' by (by rewrite revToBytes_length). }
  assert (bytesToRev (revToBytes (h_rev r)) = Ok (h_rev r)) as Hb.
  { rewrite <- (app_nil_r (revToBytes (h_rev r))). apply bytesToRev_revToBytes; lia. }
  unfold replay_rec in Hre. fold (h_key r). rewrite Hl. destruct (h_tomb r).
  - rewrite Hsl. gosimpl. rewrite Hb. gosimpl. rewrite isTombstone_marked. gosimpl.
    destruct (ti_Tombstone (s_kvindex s) (h_key r) (h_rev r)) as [[ti' err]|]; [|done]. gosimpl. by injection Hre as ->.
  - pose proof (Hsl []) as Hsl0. rewrite app_nil_r in Hsl0. rewrite Hsl0. gosimpl. rewrite Hb. gosimpl.
    rewrite isTombstone_normal. gosimpl. rewrite Hre. gosimpl. done.
Qed.

Lemma restore_keys_Ok l s ti : Forall rec_ok l -> Forall (fun r => kvLease (h_kv r) = NoLease) l ->
  foldM replay_rec l (s_kvindex s) = Ok ti ->
  foldM restore_key (h_bytes <$> l) s = Ok (s <| s_kvindex := ti |> <| s_currentRev := last_rev l (s_currentRev s) |>).
Proof.
  revert s. induction l as [|r l IH]; intros s Hr Hl Hre.
  { simpl in *. injection Hre as <-. by destruct s. }
  rewrite Forall_cons in Hr, Hl. destruct Hr as [Hr1 Hr], Hl as [Hl1 Hl]. rewrite fmap_cons. cbn [foldM] in *.
  apply bind_Ok_inv in Hre as (ti1 & E1 & Hre). rewrite (restore_key_Ok s r ti1) by done. gosimpl.
  rewrite IH by done. assert (last_rev (r :: l) (s_currentRev s) = last_rev l (h_rev r)) as ->; [|done].
  unfold last_rev. destruct l as [|r' l]; [done|]. rewrite last_cons_cons.
  by destruct (last (r' :: l)) eqn:E; [|apply last_None in E].
Qed.

(** The range of [restore] covers all records. *)
Lemma restore_range (b : backend M) m l : b_tx b !! keyBucketName = Some m -> om_items m = h_bytes <$> l -> Forall rec_ok l ->
  UnsafeRange b keyBucketName (revToBytes (Revision 1 0)) (revToBytes (Revision 9223372036854775807 9223372036854775807)) 0
  = Ok (h_bytes <$> l).
Proof.
  intros Hb El Hl. unfold UnsafeRange, tx_bucket. rewrite Hb. gosimpl. rewrite revToBytes_zlen.
  change (revBytesLen =? 0) with false. cbv iota. rewrite cursor_loop_all by apply sorted_filter, om_items_sorted.
  rewrite app_nil_l, <- El. f_equal.
  apply sorted_items_eq; [apply sorted_filter, sorted_filter, om_items_sorted|apply om_items_sorted|].
  intros [k v]. rewrite list_elem_of_filter, om_seek_get, om_items_get. cbn [fst]. split; [by intros (_ & _ & ?)|].
  intros Hk. split; [|split; [|done]].
  all: apply om_items_get in Hk; rewrite El in Hk; apply list_elem_of_fmap in Hk as (r & E & Hr);
    rewrite Forall_forall in Hl; destruct (Hl r Hr) as ([Hrv Hs] & Hm & _);
    assert (k = (h_bytes r).1) as -> by (by rewrite <- E); rewrite h_bytes_fst; unfold h_main, MaxInt64 in *.
  - rewrite <- (app_nil_r (revToBytes (Revision _ _))). apply revToBytes_lt; [done|done|].
    destruct Hrv. unfold rev_lt. simpl. lia.
  - intros Hlt. destruct (irreflexivity bytes_lt (revToBytes (Revision 1 0) ++ [])). etrans; [|rewrite app_nil_r; exact Hlt].
    apply revToBytes_lt; [done|done|]. left. simpl. lia.
Qed.

(** The index that [restore] builds. *)
Lemma rebuilt_index s a m H L : kv_core s a m -> hist s a H L ->
  exists ti : treeIndex (M := M), foldM replay_rec L newTreeIndex = Ok ti /\ ti_ok ti /\ ti_before ti (frontier s)
  /\ forall k n, a_compact a <= n -> answers (ti_view ti k n) (seen H k n).
Proof.
  intros Hok Hh. pose proof (hist_rec_ok _ _ _ _ Hh) as HF.
  assert (forall (P : hrec -> Prop), Forall P H -> Forall P L) as Hsub.
  { intros P HP. rewrite Forall_forall in *. intros r Hr. by apply HP, (sublist_subseteq _ _ (hs_sub _ _ _ _ Hh)). }
  destruct (replay_spec (M := M) L) as (ti & E & Hrp).
  - by apply Hsub.
  - eapply sublist_sorted; [|apply (hs_sorted _ _ _ _ Hh)]. by apply fmap_sublist, (hs_sub _ _ _ _ Hh).
  - intros k. eapply coherent_suffix; [apply (hs_suffix _ _ _ _ Hh)|apply (hs_coherent _ _ _ _ Hh)].
  - exists ti. split; [done|]. split; [apply (rp_ok _ _ Hrp)|]. split.
    + apply (rp_before _ _ Hrp), Hsub. eapply Forall_impl; [apply (hs_recs _ _ _ _ Hh)|]. by intros r [_ ?].
    + intros k n Hn. pose proof (rp_view _ _ Hrp k n) as Hv.
      destruct (seen_suffix H L k n (hs_suffix _ _ _ _ Hh k)) as [E1|[E1 Hgone]]; rewrite E1 in Hv; [done|].
      destruct (seen H k n) as [r|] eqn:Es; [|done]. simpl. destruct (h_tomb r) eqn:Et; [done|]. exfalso.
      pose proof (hs_visible _ _ _ _ Hh k n r Hn Es Et) as HrL. apply seen_elem in Es as (_ & Hk & Hm).
      specialize (Hgone r HrL Hk). lia.
Qed.

(** ** The store after a restart *)

(** The sub revision that [restore] leaves does not matter: the next transaction
    resets it. *)
Definition clean s : store M := s <| s_currentRev := (s_currentRev s) <| rv_sub := 0 |> |>.

(** The compaction that [restore] starts again. *)
Definition resume s (rev : option Z) : outcome (store M) :=
  match rev with None => Ok s | Some c => let! '(s, _) := store_Compact s c in Ok s end.

Lemma clean_frontier s a m : kv_core s a m -> a_dirty a = false -> frontier s = Revision (a_rev a) 9223372036854775808.
Proof.
  intros Hok Hd. unfold frontier. rewrite (clean_sub _ _ _ Hok Hd), (proj1 (k_main _ _ _ Hok)). done.
Qed.

Lemma core_rebuilt s a m H L (b' : backend M) ti le' rev txn ch jobs mm :
  kv_core s a m -> hist s a H L -> om_items m = h_bytes <$> L -> a_dirty a = false ->
  b_tx b' !! keyBucketName = Some m -> b_tx b' !! metaBucketName = Some mm ->
  rev = Revision (a_rev a) 0 ->
  meta_ok (Store b' ti le' rev (a_compact a) txn ch jobs) a mm ->
  ti_ok ti -> ti_before ti (frontier s) -> (forall k n, a_compact a <= n -> answers (ti_view ti k n) (seen H k n)) ->
  (forall j, j ∈ jobs -> job_hist H L j /\ 0 <= j_rev j <= a_compact a /\
     forall key at_rev r c v, a_compact a <= at_rev -> ti_view ti key at_rev = Some (r, c, v) -> rv_main r <= j_rev j -> r ∈ j_keep j) ->
  kv_core (Store b' ti le' rev (a_compact a) txn ch jobs) a m.
Proof.
  intros Hok Hh El Hd Hb Hmm -> Hmeta Hti Hbef Hix Hjobs.
  pose proof (clean_frontier s a m Hok Hd) as Hfr. rewrite Hfr in Hbef.
  destruct (k_main _ _ _ Hok) as [_ H1], (k_compact _ _ _ Hok) as [_ Hc].
  split; simpl; try done.
  - by exists mm.
  - intros j Hj. by destruct (Hjobs j Hj) as [_ ?].
  - exists H, L. split; [|split; [done|intros j Hj; by destruct (Hjobs j Hj)]].
    pose proof Hh as []. split; try done.
    by rewrite Hfr in hs_recs.
Qed.

(** The newest record has the current revision. *)
Lemma last_rev_main s a m H L : kv_core s a m -> hist s a H L -> a_dirty a = false ->
  a_rev a = 1 \/ a_compact a < a_rev a -> rv_main (last_rev L (Revision 1 0)) = a_rev a.
Proof.
  intros Hok Hh Hd Hc. pose proof (hs_recs _ _ _ _ Hh) as HF. rewrite Forall_forall in HF.
  rewrite (clean_frontier s a m Hok Hd) in HF. unfold last_rev.
  assert (forall r, r ∈ L -> 1 < h_main r <= a_rev a) as Hmain.
  { intros r Hr%(sublist_subseteq _ _ (hs_sub _ _ _ _ Hh)). destruct (HF r Hr) as [(_ & ? & _) Hlt].
    unfold rev_lt, h_main in *. simpl in Hlt. lia. }
  destruct (last L) as [q|] eqn:E; simpl.
  - assert (q ∈ L) as Hq by (by apply last_Some_elem_of). pose proof (Hmain q Hq). fold (h_main q).
    destruct (hs_last _ _ _ _ Hh) as [Hcur|(r & Hr & Hrm)]; unfold a_cur in *; rewrite Hd in *; [lia|].
    assert (r ∈ L) as HrL by (apply (hs_recent _ _ _ _ Hh); [done|lia]). apply last_Some in E as [L0 ->].
    apply elem_of_app in HrL as [HrL|HrL%list_elem_of_singleton]; [|by subst].
    assert (h_sorted (L0 ++ [q])) as Hs.
    { eapply sublist_sorted; [|apply (hs_sorted _ _ _ _ Hh)]. by apply fmap_sublist, (hs_sub _ _ _ _ Hh). }
    unfold h_sorted in Hs. rewrite fmap_app in Hs. apply sorted_app_inv in Hs as (_ & _ & Hlt).
    specialize (Hlt (h_rev r) (h_rev q)). unfold rev_lt, h_main in *. enough (rv_main (h_rev r) <= rv_main (h_rev q)) by lia.
    destruct Hlt; [by apply list_elem_of_fmap_2|left|lia..].
  - apply last_None in E. subst L. destruct (hs_last _ _ _ _ Hh) as [Hcur|(r & Hr & Hrm)]; unfold a_cur in *; rewrite Hd in *; [lia|].
    destruct Hc as [|Hc]; [lia|]. assert (r ∈ []) as []%not_elem_of_nil by (apply (hs_recent _ _ _ _ Hh); [done|lia]).
Qed.

Lemma mark_range (b : backend M) mm k f : b_tx b !! metaBucketName = Some mm -> om_get k mm = mark f ->
  UnsafeRange b metaBucketName k [] 0 = Ok (if f <? 0 then [] else [(k, revToBytes (Revision f 0))]).
Proof.
  intros Hb Hg. unfold UnsafeRange, tx_bucket. rewrite Hb. gosimpl. simpl. rewrite Hg. unfold mark. by destruct (f <? 0).
Qed.

Lemma mark_rev f : 0 <= f < 9223372036854775808 -> bytesToRev (revToBytes (Revision f 0)) = Ok (Revision f 0).
Proof. intros Hf. rewrite <- (app_nil_r (revToBytes _)). apply bytesToRev_revToBytes; simpl; lia. Qed.

Lemma last_mark f (l : list Z) c : StronglySorted Z.lt (f :: l) -> last (f :: l) = Some c -> f <= c /\ (l = [] -> f = c).
Proof.
  intros Hs Hl. split; [|by intros ->; injection Hl]. apply StronglySorted_inv in Hs as [_ HF].
  destruct l as [|x l]; [by injection Hl as ->|]. rewrite last_cons_cons in Hl. apply last_Some_elem_of in Hl.
  rewrite Forall_forall in HF. specialize (HF c Hl). lia.
Qed.

(** [restore] on a backend with the buckets of [s]. *)
Lemma restore_Ok s a m H L ti (b : backend M) le' txn ch : kv_core s a m -> hist s a H L -> om_items m = h_bytes <$> L ->
  a_rev a < MaxInt64 -> Forall (fun r => kvLease (h_kv r) = NoLease) H ->
  b_tx b = b_tx (s_b s) -> foldM replay_rec L newTreeIndex = Ok ti ->
  exists f, restore (Store b newTreeIndex le' (Revision 1 0) (-1) txn ch []) =
    Ok (Store (Unlock b) ti le' (last_rev L (Revision 1 0)) f txn ch [], if f <? a_compact a then Some (a_compact a) else None)
  /\ -1 <= f <= a_compact a
  /\ exists mm, b_tx b !! metaBucketName = Some mm
     /\ om_get scheduledCompactKeyName mm = mark (a_compact a) /\ om_get finishedCompactKeyName mm = mark f.
Proof.
  intros Hok Hh El Hmax Hl Hb Hti. destruct (k_meta _ _ _ Hok) as (mm & Hmm & Hsch & f & Hf & Hfin & Hs & Hlast).
  destruct (last_mark _ _ _ Hs Hlast) as [Hfc _]. destruct (k_compact _ _ _ Hok) as [_ Hc]. unfold MaxInt64 in Hmax.
  assert (Forall rec_ok L /\ Forall (fun r => kvLease (h_kv r) = NoLease) L) as [HL1 HL2].
  { pose proof (hist_rec_ok _ _ _ _ Hh) as HF. rewrite !Forall_forall in *.
    split; intros r Hr%(sublist_subseteq _ _ (hs_sub _ _ _ _ Hh)); auto. }
  rewrite <- Hb in Hmm. exists f. split; [|split; [lia|by exists mm]]. unfold restore. cbn [s_b upd].
  rewrite (mark_range b mm _ f) by done. gosimpl.
  assert ((match (if f <? 0 then [] else [(finishedCompactKeyName, revToBytes (Revision f 0))]) with
     | [] => Ok (Store b newTreeIndex le' (Revision 1 0) (-1) txn ch [])
     | (_, v) :: _ => let! rev := bytesToRev v in
        Ok ((Store b newTreeIndex le' (Revision 1 0) (-1) txn ch []) <| s_compactMainRev := rv_main rev |>)
     end) = Ok (Store b newTreeIndex le' (Revision 1 0) f txn ch [])) as ->.
  { zif; [by replace f with (-1) by lia|]. rewrite mark_rev by lia. done. }
  gosimpl. cbn [s_b upd]. rewrite (restore_range b m L); [|by rewrite Hb; apply (k_bucket _ _ _ Hok)|done|done]. gosimpl.
  rewrite (restore_keys_Ok L (Store b newTreeIndex le' (Revision 1 0) f txn ch []) ti) by done. gosimpl. cbn [s_b upd s_currentRev].
  rewrite (mark_range b mm _ (a_compact a)) by done. gosimpl. zif.
  - gosimpl. zif; [lia|done].
  - rewrite mark_rev by lia. gosimpl. cbn [rv_main s_compactMainRev upd]. rewrite Z.gtb_ltb. by destruct (f <? a_compact a).
Qed.

(** The interrupted compaction is started again. *)
Lemma resume_Ok s a m H L ti (b : backend M) mm le' rev txn ch f : kv_core s a m -> hist s a H L -> om_items m = h_bytes <$> L ->
  a_dirty a = false -> b_tx b = b_tx (s_b s) -> b_tx b !! metaBucketName = Some mm ->
  om_get scheduledCompactKeyName mm = mark (a_compact a) -> om_get finishedCompactKeyName mm = mark f ->
  -1 <= f <= a_compact a -> rv_main rev = a_rev a ->
  ti_ok ti -> ti_before ti (frontier s) -> (forall k n, a_compact a <= n -> answers (ti_view ti k n) (seen H k n)) ->
  exists s2, resume (Store b ti le' rev f txn ch []) (if f <? a_compact a then Some (a_compact a) else None) = Ok s2
  /\ kv_core (clean s2) a m /\ s_le s2 = le'.
Proof.
  intros Hok Hh El Hd Hb Hmm Hsch Hfin Hf Hrev Hti Hbef Hix. destruct (k_compact _ _ _ Hok) as [_ Hc].
  assert (b_tx b !! keyBucketName = Some m) as Hbk by (rewrite Hb; apply (k_bucket _ _ _ Hok)).
  assert (rev <| rv_sub := 0 |> = Revision (a_rev a) 0) as Er by (rewrite <- Hrev; done).
  destruct (Z.ltb_spec f (a_compact a)) as [Hlt|Hge].
  - cbn [resume]. unfold store_Compact, cur_main. cbn [s_compactMainRev s_currentRev s_b s_kvindex s_jobs upd].
    rewrite Hrev, (proj2 (Z.leb_gt (a_compact a) f)), Z.gtb_ltb, (proj2 (Z.ltb_ge (a_rev a) (a_compact a))) by lia.
    destruct (meta_put b scheduledCompactKeyName (revToBytes (Revision (a_compact a) 0)) mm Hmm) as (b1 & -> & Hb1 & Hb2). gosimpl.
    destruct (ti_Compact_spec ti (a_compact a) Hti) as (ti' & av & -> & Hti' & Hbef' & Hview' & Hav). gosimpl.
    eexists. split; [done|]. split; [|done]. unfold clean. cbn [upd s_currentRev]. rewrite Er.
    assert (b_tx (ForceCommit (Unlock b1)) = b_tx b1) as Eb by (unfold ForceCommit; by rewrite commit_tx, Unlock_tx).
    eapply (core_rebuilt s a m H L (ForceCommit (Unlock b1)) ti' le' _ txn ch [Job (a_compact a) av (replicate 17 0)]);
      [done|done|done|done|by rewrite Eb, Hb1|by rewrite Eb, Hb2|done| |done|by apply Hbef'| |].
    + unfold meta_ok. rewrite om_get_put, om_get_put_ne by done. split; [unfold mark; by zif; [lia|]|].
      exists f. split; [lia|]. split; [done|]. split; [|done]. by repeat constructor.
    + intros k n Hn. rewrite Hview' by done. by apply Hix.
    + intros j ->%list_elem_of_singleton. split.
      * eapply (new_job H L ti); [apply (hs_sorted _ _ _ _ Hh)|by eapply hist_rec_ok|apply (hs_sub _ _ _ _ Hh)|lia| |done].
        intros k. by apply Hix.
      * simpl. split; [lia|]. intros key at_rev r c v Hat Hv Hr. rewrite Hview' in Hv by done.
        apply Hav. exists key, c, v. by eapply ti_view_back.
  - assert (f = a_compact a) as -> by lia. eexists. split; [done|]. split; [|done]. unfold clean. cbn [upd s_currentRev]. rewrite Er.
    eapply (core_rebuilt s a m H L b ti le' _ txn ch []); [done..| |done|done|done|by intros j []%not_elem_of_nil].
    unfold meta_ok. split; [done|]. exists (a_compact a). split; [lia|]. split; [done|]. split; [by repeat constructor|done].
Qed.

Lemma UnsafeCreateBucket_old (b : backend M) name m : b_tx b !! name = Some m -> b_tx (UnsafeCreateBucket b name) = b_tx b.
Proof. intros Hb. unfold UnsafeCreateBucket. by rewrite Hb. Qed.

(** A store opened on the buckets of another one continues it. *)
Lemma NewStore_spec s a m (b : backend M) le' : kv_core s a m -> a_dirty a = false -> a_rev a < MaxInt64 ->
  Forall (eq NoLease) (a_named a) -> b_tx b = b_tx (s_b s) -> no_items le' ->
  a_rev a = 1 \/ a_compact a < a_rev a ->
  exists s1 res s2, NewStore b le' = Ok (s1, res) /\ resume s1 res = Ok s2 /\ kv_ok (clean s2) a /\ s_le s2 = le'.
Proof.
  intros Hok Hd Hmax Hnl Hb Hle Hrev. destruct (k_hist _ _ _ Hok) as (H & L & Hh & El & _).
  destruct (k_meta _ _ _ Hok) as (mm0 & Hmm0 & _).
  assert (Forall (fun r => kvLease (h_kv r) = NoLease) H) as Hl.
  { apply Forall_forall. intros r Hr%(hs_leases _ _ _ _ Hh). rewrite Forall_forall in Hnl. by rewrite <- (Hnl _ Hr). }
  destruct (rebuilt_index s a m H L Hok Hh) as (ti & Eti & Hti & Hbef & Hix).
  unfold NewStore. set (b1 := ForceCommit _).
  assert (b_tx b1 = b_tx (s_b s)) as Hb1.
  { unfold b1, ForceCommit. rewrite commit_tx, Unlock_tx, (UnsafeCreateBucket_old _ _ mm0), (UnsafeCreateBucket_old _ _ m), Hb;
      [done|by rewrite Hb; apply (k_bucket _ _ _ Hok)|].
    rewrite (UnsafeCreateBucket_old _ _ m), Hb; [done|by rewrite Hb; apply (k_bucket _ _ _ Hok)]. }
  destruct (restore_Ok s a m H L ti b1 le' 0 [] Hok Hh El Hmax Hl Hb1 Eti) as (f & -> & Hf & mm & Hmm & Hsch & Hfin).
  destruct (resume_Ok s a m H L ti (Unlock b1) mm le' (last_rev L (Revision 1 0)) 0 [] f) as (s2 & E2 & Hok2 & El2);
    [done|done|done|done|by rewrite Unlock_tx|by rewrite Unlock_tx|done|done|done|by eapply last_rev_main|done|done|done|].
  eexists _, _, s2. split; [done|]. split; [exact E2|]. split; [|done]. split; [by exists m|]. intros id key.
  assert (forall kv, a_now a !! key = Some kv -> kvLease kv = NoLease) as Hkv.
  { intros kv Hkv. unfold a_now in Hkv. rewrite (hs_shown _ _ _ _ Hh) in Hkv. unfold h_view in Hkv.
    destruct (seen H key (a_next a)) as [r|] eqn:Es; [|done]. simpl in Hkv. destruct (h_tomb r); [done|]. injection Hkv as <-.
    apply seen_elem in Es as [Hr _]. rewrite Forall_forall in Hl. auto. }
  split; [|intros (Hid & kv & Ha & <-); by rewrite Hkv in Hid]. intros (l & x & E & Ex & Hin).
  change (s_le (clean s2)) with (s_le s2) in E. rewrite El2 in E. rewrite (Hle l id x E Ex) in Hin. by apply not_elem_of_empty in Hin.
Qed.

(** ** What a crash loses *)

(** Of the operations after [ops1], none ended with a commit of the backend:
    each left changes pending. *)
Definition uncommitted s0 (ops1 ops2 : list kv_op) : Prop :=
  forall x y s rs, ops2 = x ++ y -> x <> [] -> kv_run s0 (ops1 ++ x) = Ok (s, rs) -> b_pending (s_b s) <> 0.

(** The disk holds the state after a prefix of the operations that contains all
    operations before the last commit. *)
Lemma run_disk ops s s' rs : kv_run s ops = Ok (s', rs) -> b_ok (s_b s) -> b_db (s_b s) = b_tx (s_b s) ->
  b_ok (s_b s') /\ exists ops1 ops2 s1 rs1, ops = ops1 ++ ops2 /\ uncommitted s ops1 ops2
  /\ kv_run s ops1 = Ok (s1, rs1) /\ b_db (s_b s') = b_tx (s_b s1).
Proof.
  assert (forall ops1, uncommitted s ops1 []) as Hnil.
  { intros ops1 x y s2 rs2 E Hne. symmetry in E. by apply app_eq_nil in E as [-> _]. }
  revert s' rs. induction ops as [|op ops IH] using rev_ind; intros s' rs H Hok Hd.
  { simpl in H. injection H as <- _. split; [done|]. exists [], [], s, []. split; [done|]. split; [apply Hnil|done]. }
  pose proof H as Hrun. rewrite kv_run_app in H. apply bind_Ok_inv in H as ([s2 rs2] & H2 & H).
  apply bind_Ok_inv in H as ([s3 rs3] & H3 & H). injection H as -> _.
  simpl in H3. apply bind_Ok_inv in H3 as ([s4 r4] & H4 & H3). injection H3 as -> _.
  destruct (IH _ _ H2 Hok Hd) as [Hok2 (ops1 & ops2 & s1 & rs1 & Eops & Hnc & H1 & Hd1)].
  destruct (kv_step_flushes _ _ _ _ H4 Hok2) as [Hok3 Hd3]. split; [done|].
  assert (b_db (s_b s') = b_tx (s_b s') -> exists ops1 ops2 s1 rs1, ops ++ [op] = ops1 ++ ops2 /\ uncommitted s ops1 ops2
    /\ kv_run s ops1 = Ok (s1, rs1) /\ b_db (s_b s') = b_tx (s_b s1)) as Hall.
  { intros E. exists (ops ++ [op]), [], s', rs. rewrite app_nil_r. split; [done|]. split; [apply Hnil|done]. }
  destruct Hd3 as [Hd3|Hd3]; [|by apply Hall].
  destruct (decide (b_pending (s_b s') = 0)) as [E0|E0]; [by apply Hall, Hok3|].
  exists ops1, (ops2 ++ [op]), s1, rs1. rewrite (assoc_L (++)), <- Eops. split; [done|]. split; [|split; [done|congruence]].
  intros x y sx rsx E Hne Hx. destruct y as [|z y _] using rev_ind.
  - rewrite app_nil_r in E. subst x. rewrite (assoc_L (++)), <- Eops, Hrun in Hx. by injection Hx as <- _.
  - rewrite (assoc_L (++)) in E. apply app_inj_tail in E as [E _]. by eapply Hnc.
Qed.

(** After a commit nothing is pending, so that it is not among those. *)
Lemma uncommitted_commit s0 ops1 ops2 s rs : kv_run s0 (ops1 ++ ops2) = Ok (s, rs) -> uncommitted s0 ops1 ops2 -> KCommit ∉ ops2.
Proof.
  intros Hrun Hu (x & y & ->)%list_elem_of_split. replace (x ++ KCommit :: y) with ((x ++ [KCommit]) ++ y) in * by by rewrite <- app_assoc.
  rewrite (assoc_L (++)), kv_run_app in Hrun. apply bind_Ok_inv in Hrun as ([s1 rs1] & H1 & _).
  eapply (Hu _ y s1 rs1); [done|by destruct x|done|]. rewrite (assoc_L (++)), kv_run_app in H1.
  apply bind_Ok_inv in H1 as ([s2 rs2] & _ & H1). apply bind_Ok_inv in H1 as ([s3 rs3] & H3 & H1). injection H1 as -> _.
  simpl in H3. injection H3 as <- _. simpl. unfold ForceCommit, commit. by zif.
Qed.

(** ** Stores that differ in the sub revision only *)

Lemma clean_txn s t id : clean s = clean t -> TxnBegin s id = TxnBegin t id.
Proof.
  intros E. change (TxnBegin s id) with ((clean s) <| s_txnID := id |>).
  change (TxnBegin t id) with ((clean t) <| s_txnID := id |>). by rewrite E.
Qed.

Lemma kv_step_sim s t op s' r : clean s = clean t -> kv_step s op = Ok (s', r) ->
  exists t', kv_step t op = Ok (t', r) /\ clean s' = clean t'.
Proof.
  intros E H. pose proof (fun id => clean_txn s t id E) as Eb.
  destruct op as [id key endk limit rev|id key value lease|id key endk|id ops|rev| |]; cbn [kv_step] in *.
  1-4: exists s'; split; [|done]; rewrite <- H; unfold Range, Put, DeleteRange; by rewrite Eb.
  all: destruct s as [b ti le [mn x] c txn ch jobs], t as [b' ti' le' [mn' y] c' txn' ch' jobs'].
  all: unfold clean in E; cbn [upd s_currentRev] in E; injection E as -> -> -> -> -> -> -> ->.
  - apply bind_Ok_inv in H as ([s1 err] & H1 & H). injection H as -> <-. unfold store_Compact in *.
    change (cur_main (Store b' ti' le' (Revision mn' x) c' txn' ch' jobs')) with mn' in H1.
    change (cur_main (Store b' ti' le' (Revision mn' y) c' txn' ch' jobs')) with mn'. cbn [s_compactMainRev s_b s_kvindex s_jobs] in *.
    destruct (rev <=? c'); [injection H1 as <- <-; gosimpl; eexists; split; done|].
    destruct (rev >? mn'); [injection H1 as <- <-; gosimpl; eexists; split; done|].
    apply bind_Ok_inv in H1 as (b1 & -> & H1). apply bind_Ok_inv in H1 as ([ti1 keep] & -> & H1). injection H1 as <- <-.
    gosimpl. by eexists.
  - apply bind_Ok_inv in H as (s1 & H1 & H). injection H as -> <-. unfold compaction_step in *. cbn [s_jobs s_b] in *.
    destruct jobs' as [|j jobs]; [injection H1 as <-; gosimpl; eexists; split; done|].
    apply bind_Ok_inv in H1 as (kvs & -> & H1). gosimpl. apply bind_Ok_inv in H1 as ([b1 rev'] & -> & H1). gosimpl.
    destruct (zlen kvs <? batchsize).
    + apply bind_Ok_inv in H1 as (b2 & -> & H1). injection H1 as <-. gosimpl. by eexists.
    + injection H1 as <-. gosimpl. by eexists.
  - injection H as <- <-. by eexists.
Qed.

Lemma kv_run_sim ops s t s' rs : clean s = clean t -> kv_run s ops = Ok (s', rs) ->
  exists t', kv_run t ops = Ok (t', rs).
Proof.
  revert s t s' rs. induction ops as [|op ops IH]; intros s t s' rs E H; simpl in *; [injection H as <- <-; by exists t|].
  apply bind_Ok_inv in H as ([s1 r1] & H1 & H). apply bind_Ok_inv in H as ([s2 rs2] & H2 & H). injection H as <- <-.
  destruct (kv_step_sim s t op s1 r1 E H1) as (t1 & -> & E1). gosimpl. destruct (IH _ _ _ _ E1 H2) as (t2 & ->). by exists t2.
Qed.

(** Opening a store commits. *)
Lemma restore_key_backend s p s' : restore_key s p = Ok s' -> s_b s' = s_b s.
Proof.
  destruct p as [key val]. unfold restore_key. intros (kv & _ & H)%bind_Ok_inv. apply bind_Ok_inv in H as (kb & _ & H).
  apply bind_Ok_inv in H as (rev & _ & H). apply bind_Ok_inv in H as (tomb & _ & H). apply bind_Ok_inv in H as (s1 & H1 & H).
  injection H as <-. change (s_b s1 = s_b s).
  assert (forall s2 f why, restore_lease s2 f why = Ok s1 -> s_b s1 = s_b s2) as Hle.
  { intros s2 f why. unfold restore_lease. destruct (s_le s2); [|done]. destruct (f _) as [le [[]|]]; try done; by intros [= <-]. }
  destruct tomb.
  - apply bind_Ok_inv in H1 as ([ti err] & _ & H1). destruct (negb _); [by apply Hle in H1|by injection H1 as <-].
  - apply bind_Ok_inv in H1 as (ti & _ & H1). destruct (negb _); [by apply Hle in H1|by injection H1 as <-].
Qed.

Lemma restore_backend s s' res : restore s = Ok (s', res) -> s_b s' = Unlock (s_b s).
Proof.
  unfold restore. intros (fin & _ & H)%bind_Ok_inv. apply bind_Ok_inv in H as (s1 & H1 & H).
  apply bind_Ok_inv in H as (kvs & _ & H). apply bind_Ok_inv in H as (s2 & H2 & H). apply bind_Ok_inv in H as (sch & _ & H).
  apply bind_Ok_inv in H as (r & _ & H). injection H as <- _. simpl. f_equal.
  assert (s_b s1 = s_b s) as <-.
  { destruct fin as [|[k v] fin]; [by injection H1 as <-|]. apply bind_Ok_inv in H1 as (rev & _ & H1). by injection H1 as <-. }
  eapply (foldM_inv (fun t => s_b t = s_b s1)); [|exact H2|done]. intros t p t' Ht E%restore_key_backend. congruence.
Qed.

Lemma NewStore_disk (b : backend M) le s res : NewStore b le = Ok (s, res) -> b_ok b ->
  b_ok (s_b s) /\ b_db (s_b s) = b_tx (s_b s).
Proof.
  unfold NewStore. intros ->%restore_backend Hb. cbn [s_b].
  assert (forall (b : backend M) name, b_ok b -> b_ok (UnsafeCreateBucket b name)) as Hc.
  { intros b0 name Hb0. unfold UnsafeCreateBucket. destruct (b_tx b0 !! name); [|by apply put_bucket_writes].
    destruct Hb0. split; simpl; lia. }
  set (b1 := UnsafeCreateBucket (UnsafeCreateBucket b keyBucketName) metaBucketName).
  destruct (Unlock_disk b1) as [Hu _]; [by apply Hc, Hc|]. destruct (ForceCommit_disk _ Hu) as [Hf Hd].
  destruct (Unlock_disk _ Hf) as [Hu2 Hd2]. split; [done|]. destruct Hd2 as [Hd2|Hd2]; [|done].
  rewrite Hd2, Unlock_tx. exact Hd.
Qed.

(** Requests that name no lease. *)
Definition leaseless_txn (op : txn_op) : Prop := match op with TPut _ _ lease => lease = NoLease | _ => True end.

Definition leaseless (op : kv_op) : Prop :=
  match op with KPut _ _ _ lease => lease = NoLease | KTxn _ ops => Forall leaseless_txn ops | _ => True end.

Lemma deletes_named ks a : Forall (eq NoLease) (a_named a) -> Forall (eq NoLease) (a_named (foldl a_delete a ks)).
Proof. revert a. induction ks as [|k ks IH]; intros a Ha; [done|]. apply IH. by constructor. Qed.

Lemma txn_named ops a : Forall leaseless_txn ops -> Forall (eq NoLease) (a_named a) -> Forall (eq NoLease) (a_named (a_txn a ops).1).
Proof.
  revert a. induction ops as [|op ops IH]; intros a Hl Ha; [done|]. apply Forall_cons in Hl as [Hl1 Hl]. cbn [a_txn].
  assert (Forall (eq NoLease) (a_named (a_txn_step a op).1)) as H1.
  { destruct op; simpl in *; [done|by constructor|by apply deletes_named]. }
  destruct (a_txn_step a op) as [a1 r1]. specialize (IH a1 Hl H1). by destruct (a_txn a1 ops).
Qed.

Lemma run_named ops a : Forall leaseless ops -> Forall (eq NoLease) (a_named a) -> Forall (eq NoLease) (a_named (a_run a ops).1).
Proof.
  revert a. induction ops as [|op ops IH]; intros a Hl Ha; [done|]. apply Forall_cons in Hl as [Hl1 Hl]. cbn [a_run].
  assert (Forall (eq NoLease) (a_named (a_step a op).1)) as H1.
  { destruct op as [| | |id ops'|rev| |]; cbn [a_step]; simpl in Hl1; [done|by constructor|by apply deletes_named| | |done|done].
    - pose proof (txn_named ops' a Hl1 Ha). by destruct (a_txn a ops').
    - destruct (_ <=? _); [done|]. by destruct (_ >? _). }
  destruct (a_step a op) as [a1 r1]. specialize (IH a1 Hl H1). by destruct (a_run a1 ops).
Qed.

(** C4. A restart after a crash, for requests that name no lease.  Let [ops1] be
    the requests up to the last commit of the backend, whether it was asked for,
    forced by a compaction or made because the batch was full: no later one
    leaves nothing pending.  If the newest revision after [ops1] is not
    compacted, the store that [NewStore] opens on the backend, with the
    compaction it starts again, answers every further sequence of requests as a
    store does that ran [ops1].  What goes wrong with leases and with a compacted
    newest revision is shown by [restore_keeps_lease] and
    [restore_forgets_revision]. *)
Theorem restart_recovers (b : backend M) le ops s0 s rs le' :
  b_ok b -> b_tx b !! keyBucketName = None -> b_tx b !! metaBucketName = None -> no_items le ->
  weights ops < 2147483648 -> Forall (kv_fit (knows le)) ops -> Forall leaseless ops ->
  NewStore b le = Ok (s0, None) -> kv_run s0 ops = Ok (s, rs) -> no_items le' ->
  exists ops1 ops2, ops = ops1 ++ ops2 /\ uncommitted s0 ops1 ops2 /\ KCommit ∉ ops2 /\
  let a := (a_run a_init ops1).1 in
  (a_rev a = 1 \/ a_compact a < a_rev a ->
   exists s1 res s2, NewStore (crash (s_b s)) le' = Ok (s1, res) /\ resume s1 res = Ok s2 /\
   forall ops', weights ops1 + weights ops' < 2147483648 -> Forall (kv_fit (knows le')) ops' ->
   exists s3, kv_run s2 ops' = Ok (s3, (a_run a ops').2)).
Proof.
  intros Hbok Hk Hm Hle Hw Hf Hnl Enew Erun Hle'.
  assert (b_ok (s_b s0) /\ b_db (s_b s0) = b_tx (s_b s0)) as [Hok0 Hd0].
  { by eapply NewStore_disk. }
  destruct (run_disk ops s0 s rs Erun Hok0 Hd0) as [_ (ops1 & ops2 & sp & rsp & -> & Hnc & Ep & Hdisk)].
  exists ops1, ops2. split; [done|]. split; [done|]. split; [by eapply uncommitted_commit|]. intros a Hrev.
  apply Forall_app in Hf as [Hf1 _], Hnl as [Hnl _]. rewrite weights_app in Hw. pose proof (weights_pos ops2).
  destruct (store_run_eq b le ops1 Hk Hm Hle) as (s0' & sp' & Enew' & Ep' & [[m Hok] _] & Hwi & Hkn); [lia|done|].
  rewrite Enew in Enew'. injection Enew' as <-. rewrite Ep in Ep'. injection Ep' as <- _.
  destruct (NewStore_spec sp a m (crash (s_b s)) le') as (s1 & res & s2 & E1 & E2 & Hok2 & El2);
    [done|by apply run_clean|fold a in Hwi; destruct Hwi; unfold MaxInt64; lia|by apply run_named|done|done|done|].
  exists s1, res, s2. split; [done|]. split; [done|]. intros ops' Hw' Hf'.
  destruct (kv_run_spec ops' (clean s2) a (weights ops1)) as (s3 & E3 & _); [done|by apply run_clean| |done| |].
  - fold a in Hwi. destruct Hwi. by split; try done; simpl; nia.
  - eapply Forall_impl; [done|]. intros op. apply kv_fit_mono. intros id (l & x & -> & Hx). exists l, x. by rewrite <- El2.
  - by eapply (kv_run_sim ops' (clean s2) s2).
Qed.
End restart.

(** ** Examples *)

(** Requests, a crash, and requests to the store opened afterwards: the revision
    before the crash, the revision and the compacted revision after it, and the
    replies. *)
Definition restart (le le' : option lessor) (ops ops' : list kv_op)
  : outcome ((Z * Z * Z * list reply) * store (gmap (list Z))) :=
  let! '(s0, _) := NewStore ex_lease_backend le in
  let! '(s, _) := kv_run s0 ops in
  let! '(s1, res) := NewStore (crash (s_b s)) le' in
  let! s2 := resume s1 res in
  let! '(s3, rs) := kv_run s2 ops' in
  Ok ((Rev s, Rev s2, FirstRev s2, rs), s3).

Definition ex_restart_ops : list kv_op :=
  [KPut 1 [97] [1] 0; KPut 2 [98] [2] 0; KTxn 3 [TPut [97] [3] 0; TDelete [98] None; TPut [98] [4] 0];
   KCompact 3; KBatch; KCommit; KDelete 4 [97] (Some [98])].

Definition ex_after_ops : list kv_op := [KRange 9 [97] (Some [99]) 0 0; KPut 10 [99] [5] 0].

(** The deletion after the commit may be lost, nothing else. *)
Lemma restart_recovers_witness : exists (s0 s : store (gmap (list Z))) rs s1 res s2 s3 ops1,
  NewStore ex_backend None = Ok (s0, None) /\ kv_run s0 ex_restart_ops = Ok (s, rs) /\
  NewStore (crash (s_b s)) None = Ok (s1, res) /\ resume s1 res = Ok s2 /\
  (ops1 = ex_restart_ops \/ ops1 = take 6 ex_restart_ops) /\
  kv_run s2 ex_after_ops = Ok (s3, (a_run (a_run a_init ops1).1 ex_after_ops).2).
Proof.
  assert (Forall (kv_fit (knows None)) ex_restart_ops) as Hf.
  { repeat constructor; unfold txn_fits, put_fits, is_i64, NoLease; simpl; try lia; try done. }
  destruct (store_run_eq ex_backend None ex_restart_ops) as (s0 & s & E0 & E1 & _); [done|done|done|done|done|].
  destruct (restart_recovers ex_backend None ex_restart_ops s0 s (a_run a_init ex_restart_ops).2 None)
    as (ops1 & ops2 & H1 & _ & H2 & H3);
    [done|reflexivity|reflexivity|done|reflexivity|exact Hf|by repeat constructor|exact E0|exact E1|done|].
  assert (ops1 = ex_restart_ops \/ ops1 = take 6 ex_restart_ops) as Hops1.
  { assert (6 <= length ops1)%nat as Hl.
    { destruct (decide (6 <= length ops1)%nat) as [|Hlt]; [done|]. destruct H2. apply (list_elem_of_lookup_2 _ (5 - length ops1)).
      assert (ex_restart_ops !! 5%nat = Some KCommit) as Hc by reflexivity. rewrite H1, lookup_app_r in Hc by lia. done. }
    assert (length ops1 + length ops2 = 7)%nat as Hlen by (rewrite <- length_app, <- H1; reflexivity).
    destruct ops2 as [|op ops2]; [left; by rewrite app_nil_r in H1|right].
    rewrite H1. rewrite take_app_le, take_ge; [done|simpl in Hlen; lia..]. }
  assert (weights ops1 + weights ex_after_ops < 2147483648 /\
    (a_rev (a_run a_init ops1).1 = 1 \/ a_compact (a_run a_init ops1).1 < a_rev (a_run a_init ops1).1)) as [Hw Hrev].
  { destruct Hops1 as [->| ->]; (split; [by vm_compute|right; by vm_compute]). }
  destruct (H3 Hrev) as (s1 & res & s2 & E2 & E3 & H4). destruct (H4 ex_after_ops Hw) as [s3 E4].
  { repeat constructor; unfold txn_fits, put_fits, is_i64, NoLease; simpl; try lia; try done. }
  by exists s0, s, (a_run a_init ex_restart_ops).2, s1, res, s2, s3, ops1.
Defined.

(** A restart forgets revisions: [restore] takes the revision of the newest
    record left in the bucket for the current one.  After a put, a deletion and a
    compaction of everything the bucket is empty; the store comes back at
    revision 1 with revision 3 compacted, refuses to read its current content
    and gives the next put a revision that was used before. *)
Theorem restore_forgets_revision :
  (let! '(r, _) := restart None None [KPut 1 [97] [1] 0; KDelete 2 [97] None; KCompact 3; KBatch; KCommit]
     [KRange 3 [97] None 0 0; KPut 4 [98] [2] 0] in Ok r)
  = Ok (3, 1, 3, [ReplyRange ([], 0, Some ErrCompacted); ReplyPut 2]).
Proof. vm_compute. reflexivity. Qed.

(** A restart attaches a key to every lease that one of its records names:
    [restore] detaches a key when it meets a tombstone with a lease, but
    tombstones carry none, and puts without a lease detach nothing.  Here the key
    is put with lease 7 and again without a lease; after the restart, revoking
    lease 7 deletes it. *)
Theorem restore_keeps_lease :
  (let! '(r, s) := restart ex_le ex_le [KPut 1 [97] [1] 7; KPut 2 [97] [2] 0; KCommit] [KRange 3 [97] None 0 0] in
   let! '(s', err) := Revoke s 7 ((fun k => (4, k)) <$> match s_le s ≫= fun le => le_leaseMap le !! 7 with
                                    | Some l => elements (l_itemSet l) | None => [] end) in
   let! kvs := rangeKeys s' [97] None 0 0 in
   Ok (r, err, kvs))
  = Ok ((3, 3, -1, [ReplyRange ([mkKeyValue [97] 2 3 2 [2] 0], 3, None)]), None, ([], 4, None)).
Proof. vm_compute. reflexivity. Qed.
