(* ===== verification/WalPB.v ===== *)
(** * The wire format of the write-ahead log and of the snapshot files

    [Record] and [Snapshot] of [src/wal/walpb/record.pb.go], [Snapshot] of
    [src/snap/snappb/snap.pb.go] and [Metadata] of
    [src/etcdserver/etcdserverpb/etcdserver.pb.go], over the pattern of
    [Proto].  A byte field that is nil is not written and one that is empty
    is, so they are kept apart. *)

From S2P Require Import Prelude RaftPB Proto RaftCodec StorePB.

(** [uint32(b)&0x7F << shift] *)
Definition u32 (z : Z) : Z := z mod 4294967296.
Arguments u32 : simpl never.

Definition is_u32 (z : Z) : Prop := 0 <= z < 4294967296.

Lemma u32_small z : is_u32 z -> u32 z = z.
Proof. apply Z.mod_small. Qed.

Lemma u32_range z : is_u32 (u32 z).
Proof. by apply Z.mod_pos_bound. Qed.

Lemma u32_bitwise : bitwise u32.
Proof.
  split; [done|]. intros a b. unfold u32. change 4294967296 with (2 ^ 32).
  rewrite <- !Z.land_ones by lia. apply Z.land_lor_distr_l.
Qed.

Lemma is_u32_u64 z : is_u32 z -> is_u64 z.
Proof. unfold is_u32, is_u64. lia. Qed.
#[export] Hint Resolve u32_bitwise is_u32_u64 : codec.

(** ** [walpb.Record] *)

Record WalRecord := mkWalRecord {
  recType : Z;
  recCrc : Z;
  recData : option (list Z);
  recXXX_unrecognized : option (list Z);
}.
#[global] Instance WalRecord_eta : Eta WalRecord := fun m =>
  mkWalRecord (recType m) (recCrc m) (recData m) (recXXX_unrecognized m).
Definition WalRecord0 : WalRecord := mkWalRecord 0 0 None None.

Definition WalRecord_Size (m : WalRecord) : Z :=
  (1 + sovRaft (u64 (recType m))) + (1 + sovRaft (recCrc m)) + size_bytes (recData m) +
  size_unrecognized (recXXX_unrecognized m).

Definition WalRecord_MarshalTo (m : WalRecord) : list Z :=
  put_varint 8 (u64 (recType m)) ++ put_varint 16 (recCrc m) ++ put_bytes 26 (recData m) ++
  put_unrecognized (recXXX_unrecognized m).

Definition WalRecord_Marshal (m : WalRecord) : outcome (list Z) :=
  marshal (WalRecord_Size m) (WalRecord_MarshalTo m).

Definition WalRecord_field (fieldNum w : Z) (data : list Z) (i : Z) (m : WalRecord) : dec (option (WalRecord * Z)) :=
  if fieldNum =? 1 then case_varint i64 (fun v => m <| recType := v |>) w data i else
  if fieldNum =? 2 then case_varint u32 (fun v => m <| recCrc := v |>) w data i else
  if fieldNum =? 3 then case_bytes (fun b => m <| recData := Some b |>) w data i else DOk None.

Definition WalRecord_Unmarshal (data : list Z) (m : WalRecord) : dec WalRecord :=
  unmarshal WalRecord_field
    (fun b m => m <| recXXX_unrecognized := keep_unrecognized (recXXX_unrecognized m) b |>) data m.

(** ** [walpb.Snapshot] *)

Record WalSnapshot := mkWalSnapshot {
  wsIndex : Z;
  wsTerm : Z;
  wsXXX_unrecognized : option (list Z);
}.
#[global] Instance WalSnapshot_eta : Eta WalSnapshot := fun m =>
  mkWalSnapshot (wsIndex m) (wsTerm m) (wsXXX_unrecognized m).
Definition WalSnapshot0 : WalSnapshot := mkWalSnapshot 0 0 None.

Definition WalSnapshot_Size (m : WalSnapshot) : Z :=
  (1 + sovRaft (wsIndex m)) + (1 + sovRaft (wsTerm m)) + size_unrecognized (wsXXX_unrecognized m).

Definition WalSnapshot_MarshalTo (m : WalSnapshot) : list Z :=
  put_varint 8 (wsIndex m) ++ put_varint 16 (wsTerm m) ++ put_unrecognized (wsXXX_unrecognized m).

Definition WalSnapshot_Marshal (m : WalSnapshot) : outcome (list Z) :=
  marshal (WalSnapshot_Size m) (WalSnapshot_MarshalTo m).

Definition WalSnapshot_field (fieldNum w : Z) (data : list Z) (i : Z) (m : WalSnapshot) : dec (option (WalSnapshot * Z)) :=
  if fieldNum =? 1 then case_varint u64 (fun v => m <| wsIndex := v |>) w data i else
  if fieldNum =? 2 then case_varint u64 (fun v => m <| wsTerm := v |>) w data i else DOk None.

Definition WalSnapshot_Unmarshal (data : list Z) (m : WalSnapshot) : dec WalSnapshot :=
  unmarshal WalSnapshot_field
    (fun b m => m <| wsXXX_unrecognized := keep_unrecognized (wsXXX_unrecognized m) b |>) data m.

(** ** [snappb.Snapshot] *)

Record SnapFile := mkSnapFile {
  sfCrc : Z;
  sfData : option (list Z);
  sfXXX_unrecognized : option (list Z);
}.
#[global] Instance SnapFile_eta : Eta SnapFile := fun m => mkSnapFile (sfCrc m) (sfData m) (sfXXX_unrecognized m).
Definition SnapFile0 : SnapFile := mkSnapFile 0 None None.

Definition SnapFile_Size (m : SnapFile) : Z :=
  (1 + sovRaft (sfCrc m)) + size_bytes (sfData m) + size_unrecognized (sfXXX_unrecognized m).

Definition SnapFile_MarshalTo (m : SnapFile) : list Z :=
  put_varint 8 (sfCrc m) ++ put_bytes 18 (sfData m) ++ put_unrecognized (sfXXX_unrecognized m).

Definition SnapFile_Marshal (m : SnapFile) : outcome (list Z) := marshal (SnapFile_Size m) (SnapFile_MarshalTo m).

Definition SnapFile_field (fieldNum w : Z) (data : list Z) (i : Z) (m : SnapFile) : dec (option (SnapFile * Z)) :=
  if fieldNum =? 1 then case_varint u32 (fun v => m <| sfCrc := v |>) w data i else
  if fieldNum =? 2 then case_bytes (fun b => m <| sfData := Some b |>) w data i else DOk None.

Definition SnapFile_Unmarshal (data : list Z) (m : SnapFile) : dec SnapFile :=
  unmarshal SnapFile_field
    (fun b m => m <| sfXXX_unrecognized := keep_unrecognized (sfXXX_unrecognized m) b |>) data m.

(** ** [etcdserverpb.Metadata] *)

Record Metadata := mkMetadata {
  mdNodeID : Z;
  mdClusterID : Z;
  mdXXX_unrecognized : option (list Z);
}.
#[global] Instance Metadata_eta : Eta Metadata := fun m =>
  mkMetadata (mdNodeID m) (mdClusterID m) (mdXXX_unrecognized m).
Definition Metadata0 : Metadata := mkMetadata 0 0 None.

Definition Metadata_Size (m : Metadata) : Z :=
  (1 + sovRaft (mdNodeID m)) + (1 + sovRaft (mdClusterID m)) + size_unrecognized (mdXXX_unrecognized m).

Definition Metadata_MarshalTo (m : Metadata) : list Z :=
  put_varint 8 (mdNodeID m) ++ put_varint 16 (mdClusterID m) ++ put_unrecognized (mdXXX_unrecognized m).

Definition Metadata_Marshal (m : Metadata) : outcome (list Z) := marshal (Metadata_Size m) (Metadata_MarshalTo m).

Definition Metadata_field (fieldNum w : Z) (data : list Z) (i : Z) (m : Metadata) : dec (option (Metadata * Z)) :=
  if fieldNum =? 1 then case_varint u64 (fun v => m <| mdNodeID := v |>) w data i else
  if fieldNum =? 2 then case_varint u64 (fun v => m <| mdClusterID := v |>) w data i else DOk None.

Definition Metadata_Unmarshal (data : list Z) (m : Metadata) : dec Metadata :=
  unmarshal Metadata_field
    (fun b m => m <| mdXXX_unrecognized := keep_unrecognized (mdXXX_unrecognized m) b |>) data m.

(** ** Round trips *)

Definition WalRecord_wf (m : WalRecord) : Prop :=
  is_i64 (recType m) /\ is_u32 (recCrc m) /\ recXXX_unrecognized m = None.
Definition WalSnapshot_wf (m : WalSnapshot) : Prop :=
  is_u64 (wsIndex m) /\ is_u64 (wsTerm m) /\ wsXXX_unrecognized m = None.
Definition SnapFile_wf (m : SnapFile) : Prop := is_u32 (sfCrc m) /\ sfXXX_unrecognized m = None.
Definition Metadata_wf (m : Metadata) : Prop :=
  is_u64 (mdNodeID m) /\ is_u64 (mdClusterID m) /\ mdXXX_unrecognized m = None.

Lemma WalRecord_len m : WalRecord_wf m -> zlen (WalRecord_MarshalTo m) = WalRecord_Size m.
Proof. intros (_ & ? & _). unfold WalRecord_MarshalTo, WalRecord_Size. size_step. lia. Qed.

Lemma WalSnapshot_len m : WalSnapshot_wf m -> zlen (WalSnapshot_MarshalTo m) = WalSnapshot_Size m.
Proof. intros (? & ? & _). unfold WalSnapshot_MarshalTo, WalSnapshot_Size. size_step. lia. Qed.

Lemma SnapFile_len m : SnapFile_wf m -> zlen (SnapFile_MarshalTo m) = SnapFile_Size m.
Proof. intros (? & _). unfold SnapFile_MarshalTo, SnapFile_Size. size_step. lia. Qed.

Lemma Metadata_len m : Metadata_wf m -> zlen (Metadata_MarshalTo m) = Metadata_Size m.
Proof. intros (? & ? & _). unfold Metadata_MarshalTo, Metadata_Size. size_step. lia. Qed.

(** Read the next varint field; [rw] brings the value read back to the field. *)
Ltac next_varint rw :=
  eapply decodes_app;
  [eapply decodes_varint; [| |vm_compute; reflexivity| | | |intros; reflexivity];
   [lia|reflexivity|lia|eauto with codec|eauto with codec]
  |rw;
   lazymatch goal with
   | |- decodes _ _ _ ?m _ => let m' := eval cbv -[u64 u32 i64 app] in m in change m with m'
   end].
Ltac next_bytes :=
  eapply decodes_app;
  [eapply decodes_bytes; [| |vm_compute; reflexivity| |intros; reflexivity]; [lia|reflexivity|lia]
  |lazymatch goal with
   | |- decodes _ _ _ ?m _ => let m' := eval cbv -[u64 u32 i64 app] in m in change m with m'
   end].

Lemma WalRecord_decodes m : WalRecord_wf m -> zlen (WalRecord_MarshalTo m) < 9223372036854775808 ->
  WalRecord_Unmarshal (WalRecord_MarshalTo m) WalRecord0 = DOk m.
Proof.
  intros (Ht & Hc & Hx) Hl. apply decodes_unmarshal; [done|].
  destruct m as [t c d u]; simpl in Ht, Hc, Hx. subst u.
  unfold WalRecord_MarshalTo, put_varint; cbn [recType recCrc recData recXXX_unrecognized].
  next_varint ltac:(rewrite i64_u64 by done). next_varint ltac:(rewrite u32_small by done).
  destruct d as [d|]; [next_bytes|]; read_done.
Qed.

Lemma WalSnapshot_decodes m : WalSnapshot_wf m -> zlen (WalSnapshot_MarshalTo m) < 9223372036854775808 ->
  WalSnapshot_Unmarshal (WalSnapshot_MarshalTo m) WalSnapshot0 = DOk m.
Proof.
  intros (Hi & Ht & Hx) Hl. apply decodes_unmarshal; [done|].
  destruct m as [i t u]; simpl in Hi, Ht, Hx. subst u.
  unfold WalSnapshot_MarshalTo, put_varint; cbn [wsIndex wsTerm wsXXX_unrecognized].
  do 2 next_varint ltac:(rewrite u64_id by done). read_done.
Qed.

Lemma SnapFile_decodes m : SnapFile_wf m -> zlen (SnapFile_MarshalTo m) < 9223372036854775808 ->
  SnapFile_Unmarshal (SnapFile_MarshalTo m) SnapFile0 = DOk m.
Proof.
  intros (Hc & Hx) Hl. apply decodes_unmarshal; [done|].
  destruct m as [c d u]; simpl in Hc, Hx. subst u.
  unfold SnapFile_MarshalTo, put_varint; cbn [sfCrc sfData sfXXX_unrecognized].
  next_varint ltac:(rewrite u32_small by done). destruct d as [d|]; [next_bytes|]; read_done.
Qed.

Lemma Metadata_decodes m : Metadata_wf m -> zlen (Metadata_MarshalTo m) < 9223372036854775808 ->
  Metadata_Unmarshal (Metadata_MarshalTo m) Metadata0 = DOk m.
Proof.
  intros (Hi & Ht & Hx) Hl. apply decodes_unmarshal; [done|].
  destruct m as [i t u]; simpl in Hi, Ht, Hx. subst u.
  unfold Metadata_MarshalTo, put_varint; cbn [mdNodeID mdClusterID mdXXX_unrecognized].
  do 2 next_varint ltac:(rewrite u64_id by done). read_done.
Qed.

#[export] Program Instance Wire_WalRecord : Wire WalRecord := {|
  wire_zero := WalRecord0; wire_wf := WalRecord_wf; wire_Size := WalRecord_Size;
  wire_Marshal := WalRecord_Marshal; wire_Unmarshal := WalRecord_Unmarshal |}.
Next Obligation. exact (wire_law _ _ _ _ _ WalRecord_len WalRecord_decodes). Qed.

#[export] Program Instance Wire_WalSnapshot : Wire WalSnapshot := {|
  wire_zero := WalSnapshot0; wire_wf := WalSnapshot_wf; wire_Size := WalSnapshot_Size;
  wire_Marshal := WalSnapshot_Marshal; wire_Unmarshal := WalSnapshot_Unmarshal |}.
Next Obligation. exact (wire_law _ _ _ _ _ WalSnapshot_len WalSnapshot_decodes). Qed.

#[export] Program Instance Wire_SnapFile : Wire SnapFile := {|
  wire_zero := SnapFile0; wire_wf := SnapFile_wf; wire_Size := SnapFile_Size;
  wire_Marshal := SnapFile_Marshal; wire_Unmarshal := SnapFile_Unmarshal |}.
Next Obligation. exact (wire_law _ _ _ _ _ SnapFile_len SnapFile_decodes). Qed.

#[export] Program Instance Wire_Metadata : Wire Metadata := {|
  wire_zero := Metadata0; wire_wf := Metadata_wf; wire_Size := Metadata_Size;
  wire_Marshal := Metadata_Marshal; wire_Unmarshal := Metadata_Unmarshal |}.
Next Obligation. exact (wire_law _ _ _ _ _ Metadata_len Metadata_decodes). Qed.
