(* ===== verification/FileSys.v ===== *)
(** * Files, directories and crashes; names in hexadecimal; checksums

    What the write-ahead log and the snapshot files rely on of the operating
    system and of Go's standard library.  A directory is a finite map from
    names to files; a file remembers how much of its data has been synced.  A
    disk records every directory state it went through, one per system call,
    so that a crash can be placed between any two of them.  After a crash a
    file holds a prefix of the data written to it that contains everything
    synced; creating and renaming a file take effect at once (the code never
    syncs the directory itself, and this is assumed not to matter).  System
    calls that fail are not modelled.

    Names are byte strings.  [strings.HasSuffix], [%016x] of [fmt.Sprintf] and
    [fmt.Sscanf], [hash/crc32] with the Castagnoli polynomial, little-endian
    integers and [bufio.Writer] are written out as far as they are used. *)

From S2P Require Import Prelude RaftPB Proto RaftCodec StorePB WalPB OrderedMap.

(** ** Hexadecimal names *)

(** The digits of [0123456789abcdef]. *)
Definition hex_digit (d : Z) : Z := if d <? 10 then 48 + d else 87 + d.

Definition hex_value (c : Z) : option Z :=
  if (48 <=? c) && (c <=? 57) then Some (c - 48)
  else if (97 <=? c) && (c <=? 102) then Some (c - 87)
  else if (65 <=? c) && (c <=? 70) then Some (c - 55) else None.

(** The low [n] digits of [v], the highest first. *)
Fixpoint hex (n : nat) (v : Z) : list Z :=
  match n with
  | O => []
  | S k => hex_digit ((v / 16 ^ Z.of_nat k) mod 16) :: hex k v
  end.

(** [fmt.Sprintf("%016x", v)] for a [uint64] *)
Definition Sprintf_016x (v : Z) : list Z := hex 16 v.

(** White space [Sscanf] skips before a number (in an ASCII name). *)
Fixpoint skip_space (s : list Z) : list Z :=
  match s with
  | c :: s' => if (c =? 32) || (c =? 9) || (c =? 11) || (c =? 12) || (c =? 13) then skip_space s' else s
  | [] => []
  end.

(** The longest run of at most [n] digits. *)
Fixpoint scan_digits (n : nat) (s : list Z) (acc : Z) : Z * list Z :=
  match n, s with
  | S k, c :: s' =>
      match hex_value c with Some d => scan_digits k s' (acc * 16 + d) | None => (acc, s) end
  | _, _ => (acc, s)
  end.

(** [%016x] of [Sscanf]: at least one digit, at most sixteen. *)
Definition Sscanf_016x (s : list Z) : option (Z * list Z) :=
  match skip_space s with
  | c :: s' => match hex_value c with Some _ => Some (scan_digits 16 (c :: s') 0) | None => None end
  | [] => None
  end.

(** A literal of the format. *)
Fixpoint Sscanf_lit (lit s : list Z) : option (list Z) :=
  match lit, s with
  | [], _ => Some s
  | c :: lit', c' :: s' => if c =? c' then Sscanf_lit lit' s' else None
  | _ :: _, [] => None
  end.

Definition HasSuffix (s suffix : list Z) : bool :=
  (length suffix <=? length s)%nat && bool_decide (drop (length s - length suffix) s = suffix).

Lemma HasSuffix_app s suffix : HasSuffix (s ++ suffix) suffix = true.
Proof.
  unfold HasSuffix. rewrite length_app. apply andb_true_intro. split; [apply Nat.leb_le; lia|].
  apply bool_decide_eq_true. replace (length s + length suffix - length suffix)%nat with (length s) by lia.
  apply drop_app_length.
Qed.

Lemma HasSuffix_false s suffix : (forall p, s <> p ++ suffix) -> HasSuffix s suffix = false.
Proof.
  intros H. unfold HasSuffix. destruct (Nat.leb_spec (length suffix) (length s)); [|done]. simpl.
  apply bool_decide_eq_false. intros E. apply (H (take (length s - length suffix) s)).
  rewrite <- (take_drop (length s - length suffix) s) at 1. by rewrite E.
Qed.

Lemma hex_length n v : length (hex n v) = n.
Proof. induction n; simpl; auto. Qed.

Lemma hex_digit_lt a b : 0 <= a < 16 -> 0 <= b < 16 -> (hex_digit a ?= hex_digit b) = (a ?= b).
Proof.
  intros. unfold hex_digit. repeat zif; try done.
  - destruct (Z.compare_spec a b), (Z.compare_spec (48 + a) (48 + b)); try done; lia.
  - destruct (Z.compare_spec a b), (Z.compare_spec (48 + a) (87 + b)); try done; lia.
  - destruct (Z.compare_spec a b), (Z.compare_spec (87 + a) (48 + b)); try done; lia.
  - destruct (Z.compare_spec a b), (Z.compare_spec (87 + a) (87 + b)); try done; lia.
Qed.

Lemma hex_value_digit d : 0 <= d < 16 -> hex_value (hex_digit d) = Some d.
Proof.
  intros. unfold hex_digit, hex_value. zif.
  - repeat (zcase; try lia); simpl; f_equal; lia.
  - repeat (zcase; try lia); simpl; f_equal; lia.
Qed.

Lemma hex_mod n v m : (n <= m)%nat -> hex n (v mod 16 ^ Z.of_nat m) = hex n v.
Proof.
  induction n as [|n IH]; intros Hm; simpl; [done|]. rewrite IH by lia. do 2 f_equal.
  replace (Z.of_nat m) with (Z.of_nat n + (1 + (Z.of_nat m - Z.of_nat n - 1))) by lia.
  rewrite Z.pow_add_r, Z.pow_add_r by lia. change (16 ^ 1) with 16.
  assert (0 < 16 ^ Z.of_nat n) by (apply Z.pow_pos_nonneg; lia).
  assert (0 < 16 ^ (Z.of_nat m - Z.of_nat n - 1)) by (apply Z.pow_pos_nonneg; lia).
  rewrite Z.rem_mul_r by lia. rewrite Z.add_comm, Z.mul_comm, Z.div_add_l by lia.
  rewrite (Z.div_small (v mod _)) by (apply Z.mod_pos_bound; lia).
  rewrite Z.add_0_r, Z.rem_mul_r by lia. rewrite (Z.mul_comm 16), Z.mod_add by lia. by rewrite Z.mod_mod.
Qed.

(** The high digit and the rest of a value below [16 ^ (n + 1)]. *)
Lemma hex_S n v : 0 <= v < 16 ^ Z.of_nat (S n) ->
  hex (S n) v = hex_digit (v / 16 ^ Z.of_nat n) :: hex n (v mod 16 ^ Z.of_nat n) /\
  0 <= v / 16 ^ Z.of_nat n < 16 /\ 0 <= v mod 16 ^ Z.of_nat n < 16 ^ Z.of_nat n.
Proof.
  intros Hv. rewrite hex_mod by lia. assert (0 < 16 ^ Z.of_nat n) by (apply Z.pow_pos_nonneg; lia).
  assert (0 <= v / 16 ^ Z.of_nat n < 16).
  { split; [apply Z.div_pos; lia|]. apply Z.div_lt_upper_bound; [lia|].
    rewrite Nat2Z.inj_succ, Z.pow_succ_r in Hv by lia. lia. }
  split_and!; [|lia|lia| |]; [|apply Z.mod_pos_bound; lia..].
  simpl. do 2 f_equal. by apply Z.mod_small.
Qed.

(** The order of names is the order of numbers. *)
Lemma hex_compare n x y : 0 <= x < 16 ^ Z.of_nat n -> 0 <= y < 16 ^ Z.of_nat n ->
  bytes_compare (hex n x) (hex n y) = (x ?= y).
Proof.
  revert x y. induction n as [|n IH]; intros x y Hx Hy.
  { rewrite Z.pow_0_r in *. by replace y with x by lia; rewrite Z.compare_refl. }
  destruct (hex_S n x Hx) as (-> & ? & ?), (hex_S n y Hy) as (-> & ? & ?). simpl.
  rewrite hex_digit_lt, IH by done. symmetry.
  pose proof (Z.div_mod x (16 ^ Z.of_nat n)). pose proof (Z.div_mod y (16 ^ Z.of_nat n)).
  destruct (Z.compare_spec (x / 16 ^ Z.of_nat n) (y / 16 ^ Z.of_nat n)) as [E|E|E].
  - destruct (Z.compare_spec (x mod 16 ^ Z.of_nat n) (y mod 16 ^ Z.of_nat n));
      [apply Z.compare_eq_iff|apply Z.compare_lt_iff|apply Z.compare_gt_iff]; nia.
  - apply Z.compare_lt_iff. nia.
  - apply Z.compare_gt_iff. nia.
Qed.

Lemma scan_hex n v rest acc : 0 <= v < 16 ^ Z.of_nat n ->
  scan_digits n (hex n v ++ rest) acc = (acc * 16 ^ Z.of_nat n + v, rest).
Proof.
  revert v acc. induction n as [|n IH]; intros v acc Hv.
  { rewrite Z.pow_0_r in *. simpl. f_equal. lia. }
  destruct (hex_S n v Hv) as (-> & ? & ?). cbn [app scan_digits]. rewrite hex_value_digit, IH by done.
  f_equal. rewrite Nat2Z.inj_succ, Z.pow_succ_r by lia. pose proof (Z.div_mod v (16 ^ Z.of_nat n)). nia.
Qed.

Lemma skip_space_hex d s : 0 <= d < 16 -> skip_space (hex_digit d :: s) = hex_digit d :: s.
Proof. intros. unfold hex_digit. cbn [skip_space]. repeat zif; try done; lia. Qed.

Lemma Sscanf_Sprintf v rest : is_u64 v -> Sscanf_016x (Sprintf_016x v ++ rest) = Some (v, rest).
Proof.
  intros Hv. change two64 with (16 ^ Z.of_nat 16) in Hv. unfold Sscanf_016x, Sprintf_016x.
  destruct (hex_S 15 v Hv) as (Hs & ? & ?). pose proof (scan_hex 16 v rest 0 Hv) as Hscan.
  rewrite Hs in *. cbn [app]. rewrite skip_space_hex, hex_value_digit by done. f_equal.
  cbn [app] in Hscan. rewrite Hscan. f_equal; lia.
Qed.

Lemma Sscanf_lit_app lit rest : Sscanf_lit lit (lit ++ rest) = Some rest.
Proof. induction lit as [|c lit IH]; simpl; [done|]. by rewrite Z.eqb_refl. Qed.

(** ** [hash/crc32] *)

(** One step of the table: [crc32.Castagnoli] reversed is [0x82f63b78]. *)
Fixpoint crc_bits (n : nat) (c : Z) : Z :=
  match n with
  | O => c
  | S k => crc_bits k (if Z.odd c then Z.lxor (Z.shiftr c 1) 2197175160 else Z.shiftr c 1)
  end.

(** [tab[byte(crc)^v] ^ (crc >> 8)] *)
Definition crc_byte (c v : Z) : Z :=
  Z.lxor (crc_bits 8 (Z.lxor (Z.land c 255) v)) (Z.shiftr c 8).

(** [crc32.Update(crc, crcTable, p)] *)
Definition crc_Update (crc : Z) (p : list Z) : Z := u32 (Z.lnot (foldl crc_byte (u32 (Z.lnot crc)) p)).
Arguments crc_Update : simpl never.

Lemma crc_Update_range crc p : is_u32 (crc_Update crc p).
Proof. apply u32_range. Qed.

Lemma lnot_twice c : is_u32 c -> u32 (Z.lnot (u32 (Z.lnot c))) = c.
Proof.
  unfold is_u32, u32, Z.lnot. intros. replace (Z.pred (- c)) with (4294967295 - c + (-1) * 4294967296) by lia.
  rewrite Z.mod_add, (Z.mod_small (4294967295 - c)) by lia.
  replace (Z.pred (- (4294967295 - c))) with (c + (-1) * 4294967296) by lia.
  rewrite Z.mod_add, Z.mod_small by lia. done.
Qed.

(** Writing nothing keeps the sum. *)
Lemma crc_Update_nil c : is_u32 c -> crc_Update c [] = c.
Proof. apply lnot_twice. Qed.

(** ** Little-endian integers *)

(** [binary.LittleEndian.PutUint64] *)
Definition PutUint64_le (v : Z) : list Z := rev (PutUint64 v).
Definition Uint64_le (b : list Z) : Z := be_value (rev b).

Lemma PutUint64_le_length v : length (PutUint64_le v) = 8%nat.
Proof. unfold PutUint64_le. by rewrite length_rev, PutUint64_length. Qed.

Lemma Uint64_PutUint64_le v : is_u64 v -> Uint64_le (PutUint64_le v) = v.
Proof. intros Hv. unfold Uint64_le, PutUint64_le. rewrite rev_involutive. by apply be_value_bytes. Qed.

(** ** Files and directories *)

(** [f_synced] bytes of the data are on the disk whatever happens. *)
Record file := mkFile { f_data : list Z; f_synced : nat }.
#[global] Instance file_eta : Eta file := fun f => mkFile (f_data f) (f_synced f).
#[global] Instance file_eq_dec : EqDecision file.
Proof. solve_decision. Defined.
Notation dir := (gmap (list Z) file).

Record disk := mkDisk { dk_dir : dir; dk_past : list dir }.
Definition disk0 : disk := mkDisk ∅ [].

(** A system call. *)
Definition sys (call : dir -> dir) (d : disk) : disk := mkDisk (call (dk_dir d)) (dk_past d ++ [dk_dir d]).

(** [os.OpenFile] with [O_CREATE], and with [O_TRUNC] *)
Definition fcreate (name : list Z) (d : dir) : dir :=
  match d !! name with Some _ => d | None => <[name := mkFile [] 0]> d end.
Definition fcreate_trunc (name : list Z) (d : dir) : dir := <[name := mkFile [] 0]> d.
(** [f.Write] of a file opened with [O_APPEND] *)
Definition fwrite (name b : list Z) (d : dir) : dir :=
  match d !! name with Some f => <[name := f <| f_data := f_data f ++ b |>]> d | None => d end.
Definition fsync (name : list Z) (d : dir) : dir :=
  match d !! name with Some f => <[name := f <| f_synced := length (f_data f) |>]> d | None => d end.
Definition ftruncate (name : list Z) (n : nat) (d : dir) : dir :=
  match d !! name with
  | Some f => <[name := mkFile (take n (f_data f)) (Nat.min n (f_synced f))]> d
  | None => d
  end.
Definition frename (old new : list Z) (d : dir) : dir :=
  match d !! old with Some f => <[new := f]> (delete old d) | None => d end.

(** [fstat.Size()] *)
Definition fsize (name : list Z) (d : dir) : Z :=
  match d !! name with Some f => zlen (f_data f) | None => 0 end.

Definition fdata (name : list Z) (d : dir) : list Z :=
  match d !! name with Some f => f_data f | None => [] end.

(** [fileutil.ReadDir]: the names, sorted *)
Definition ReadDir (d : dir) : list (list Z) := (om_items d).*1.

(** ** Crashes *)

(** What a crash may leave of a file. *)
Definition torn (f f' : file) : Prop :=
  exists k, (f_synced f <= k)%nat /\ f' = mkFile (take k (f_data f)) (length (take k (f_data f))).

Definition crashed (d d' : dir) : Prop :=
  forall name, match d !! name, d' !! name with
  | Some f, Some f' => torn f f'
  | None, None => True
  | _, _ => False
  end.

(** The directories a crash during the calls of [d] may leave. *)
Definition crash (d : disk) (d' : dir) : Prop := exists c, c ∈ dk_past d ++ [dk_dir d] /\ crashed c d'.

(** ** [bufio.Writer] *)

Definition bufio_size : nat := 4096.

(** [Write(p)]: what goes to the file, in order, and what stays in the buffer. *)
Fixpoint bufio_Write (fuel : nat) (buf p : list Z) : list (list Z) * list Z :=
  match fuel with
  | O => ([], buf ++ p)
  | S f =>
      if (length p <=? bufio_size - length buf)%nat then ([], buf ++ p) else
      match buf with
      | [] => let '(ws, b) := bufio_Write f [] [] in (p :: ws, b)
      | _ =>
          let n := (bufio_size - length buf)%nat in
          let '(ws, b) := bufio_Write f [] (drop n p) in ((buf ++ take n p) :: ws, b)
      end
  end.

(** Nothing is lost or reordered. *)
Lemma bufio_Write_bytes fuel buf p ws buf' :
  bufio_Write fuel buf p = (ws, buf') -> concat ws ++ buf' = buf ++ p.
Proof.
  revert buf p ws. induction fuel as [|f IH]; intros buf p ws; cbn [bufio_Write].
  { by intros [= <- <-]. }
  destruct (_ <=? _)%nat; [by intros [= <- <-]|]. destruct buf as [|c buf].
  - destruct (bufio_Write f [] []) as [ws' b'] eqn:E. intros [= <- <-]. apply IH in E.
    cbn [concat]. rewrite <- app_assoc, E. simpl. by rewrite app_nil_r.
  - destruct (bufio_Write f [] _) as [ws' b'] eqn:E. intros [<- <-]%pair_equal_spec. apply IH in E.
    cbn [concat]. rewrite <- app_assoc, E, <- app_assoc. cbn [app]. by rewrite take_drop.
Qed.
