(* ===== verification/Wal.v ===== *)
(** * The write-ahead log: [src/wal]

    [encoder.go], [decoder.go], [util.go], [wal.go] and [repair.go].  The log
    is a sequence of files in one directory, written through a buffer; records
    carry a checksum that is chained over all files.  The state of a [WAL] is
    the record below next to the [disk] of [FileSys]; the files read by
    [MultiReadCloser] are the concatenation of their data, taken when the log
    is opened.  Locks are the list of the names held; locking succeeds.

    [grow] is the capacity Go's [append] gives a slice that is full. *)

From S2P Require Import Prelude RaftPB Proto RaftCodec Storage Unstable RaftLog Progress Raft RawNode.
From S2P Require Import StorePB WalPB OrderedMap FileSys.

Inductive werror : Type :=
| ErrMetadataConflict
| ErrFileNotFound
| ErrCRCMismatch
| ErrSnapshotMismatch
| ErrSnapshotNotFound
| ErrMaxWALEntrySizeLimitExceeded
| ErrBlockType (t : Z)
| ErrRecordCRC
| ErrMalformed (e : perror)
| EOF
| UnexpectedEOF
| ErrExist.
#[global] Instance perror_eq_dec : EqDecision perror.
Proof. solve_decision. Defined.
#[global] Instance werror_eq_dec : EqDecision werror.
Proof. solve_decision. Defined.

(** [io.ErrUnexpectedEOF] is one value, whoever returns it. *)
Definition of_perror (e : perror) : werror :=
  match e with ErrUnexpectedEOF => UnexpectedEOF | _ => ErrMalformed e end.

(** ** [util.go]: the names of the files *)

Definition wal_suffix : list Z := [46; 119; 97; 108].
Definition tmp_suffix : list Z := [46; 116; 109; 112].
Definition broken_suffix : list Z := [46; 98; 114; 111; 107; 101; 110].

Definition walName (seq index : Z) : list Z := Sprintf_016x seq ++ [45] ++ Sprintf_016x index ++ wal_suffix.

Definition parseWalName (str : list Z) : option (Z * Z) :=
  if negb (HasSuffix str wal_suffix) then None else
  match Sscanf_016x str with
  | Some (seq, rest) =>
      match Sscanf_lit [45] rest with
      | Some rest =>
          match Sscanf_016x rest with
          | Some (index, rest) => match Sscanf_lit wal_suffix rest with Some _ => Some (seq, index) | None => None end
          | None => None
          end
      | None => None
      end
  | None => None
  end.

Definition checkWalNames (names : list (list Z)) : list (list Z) :=
  filter (fun n => parseWalName n <> None) names.

Definition Exist (d : dir) : bool := negb (length (ReadDir d) =? 0)%nat.

(** The loop of [searchIndex], from the last name down; [i] names are left. *)
Fixpoint searchIndex_loop (i : nat) (names : list (list Z)) (index : Z) : outcome (option nat) :=
  match i with
  | O => Ok None
  | S i' =>
      let! name := at_ names (Z.of_nat i') in
      match parseWalName name with
      | None => Panic "parse correct name should never fail"
      | Some (_, curIndex) => if index >=? curIndex then Ok (Some i') else searchIndex_loop i' names index
      end
  end.
Definition searchIndex (names : list (list Z)) (index : Z) : outcome (option nat) :=
  searchIndex_loop (length names) names index.

Fixpoint isValidSeq_loop (lastSeq : Z) (names : list (list Z)) : outcome bool :=
  match names with
  | [] => Ok true
  | name :: names' =>
      match parseWalName name with
      | None => Panic "parse correct name should never fail"
      | Some (curSeq, _) =>
          if negb (lastSeq =? 0) && negb (lastSeq =? curSeq ⊟ 1) then Ok false else isValidSeq_loop curSeq names'
      end
  end.
Definition isValidSeq (names : list (list Z)) : outcome bool := isValidSeq_loop 0 names.

(** ** [encoder.go] *)

Definition metadataType : Z := 1.
Definition entryType : Z := 2.
Definition stateType : Z := 3.
Definition crcType : Z := 4.
Definition snapshotType : Z := 5.

Definition segmentSizeBytes : Z := 64 * 1000 * 1000.

Record encoder := mkEncoder { en_f : list Z; en_buf : list Z; en_crc : Z }.
#[global] Instance encoder_eta : Eta encoder := fun e => mkEncoder (en_f e) (en_buf e) (en_crc e).

Definition newEncoder (f : list Z) (prevCrc : Z) : encoder := mkEncoder f [] prevCrc.

(** [e.bw.Write(p)] *)
Definition bw_Write (e : encoder) (p : list Z) (d : disk) : encoder * disk :=
  let '(ws, buf) := bufio_Write 3 (en_buf e) p in
  (e <| en_buf := buf |>, foldl (fun d b => sys (fwrite (en_f e) b) d) d ws).

Definition encode (e : encoder) (rec : WalRecord) (d : disk) : outcome (encoder * disk) :=
  let e := e <| en_crc := crc_Update (en_crc e) (default [] (recData rec)) |> in
  let rec := rec <| recCrc := en_crc e |> in
  let! data :=
    (if WalRecord_Size rec >? 1024 * 1024 then WalRecord_Marshal rec else marshal (1024 * 1024) (WalRecord_MarshalTo rec)) in
  let '(e, d) := bw_Write e (PutUint64_le (u64 (zlen data))) d in
  Ok (bw_Write e data d).

Definition flush (e : encoder) (d : disk) : encoder * disk :=
  match en_buf e with
  | [] => (e, d)
  | b => (e <| en_buf := [] |>, sys (fwrite (en_f e) b) d)
  end.

(** ** [decoder.go] *)

Definition maxWALEntrySizeLimit : Z := 10 * 1024 * 1024.

Record decoder := mkDecoder { dc_in : list Z; dc_crc : Z }.
#[global] Instance decoder_eta : Eta decoder := fun d => mkDecoder (dc_in d) (dc_crc d).

Definition newDecoder (bytes : list Z) : decoder := mkDecoder bytes 0.

(** [binary.Read] of eight bytes *)
Definition readInt64 (s : list Z) : Z * list Z + werror :=
  if (length s =? 0)%nat then inr EOF
  else if (length s <? 8)%nat then inr UnexpectedEOF
  else inl (i64 (Uint64_le (take 8 s)), drop 8 s).

(** [rec.Validate(crc)] *)
Definition Validate (rec : WalRecord) (crc : Z) : bool := recCrc rec =? crc.

Definition decode (d : decoder) : outcome (WalRecord * decoder + werror) :=
  match readInt64 (dc_in d) with
  | inr e => Ok (inr e)
  | inl (l, rest) =>
      if (l <? 0) || (l >=? maxWALEntrySizeLimit) then Ok (inr ErrMaxWALEntrySizeLimitExceeded) else
      if zlen rest <? l then Ok (inr UnexpectedEOF) else
      match WalRecord_Unmarshal (take (Z.to_nat l) rest) WalRecord0 with
      | DErr e => Ok (inr (of_perror e))
      | DPanic => Panic "slice bounds out of range"
      | DFuel => Panic "out of fuel"
      | DOk rec =>
          let d := d <| dc_in := drop (Z.to_nat l) rest |> in
          if recType rec =? crcType then Ok (inl (rec, d)) else
          let d := d <| dc_crc := crc_Update (dc_crc d) (default [] (recData rec)) |> in
          if Validate rec (dc_crc d) then Ok (inl (rec, d)) else Ok (inr ErrRecordCRC)
      end
  end.

Definition updateCRC (d : decoder) (prevCrc : Z) : decoder := d <| dc_crc := prevCrc |>.
Definition lastCRC (d : decoder) : Z := dc_crc d.

(** [pbutil.MustUnmarshal] into an empty message *)
Definition MustUnmarshal {M} `{Wire M} (data : option (list Z)) : outcome M :=
  match wire_Unmarshal (default [] data) wire_zero with
  | DOk m => Ok m
  | DErr _ => Panic "unmarshal should never fail"
  | DPanic => Panic "slice bounds out of range"
  | DFuel => Panic "out of fuel"
  end.

(** ** [wal.go] *)

Record WAL := mkWAL {
  w_metadata : option (list Z);
  w_state : HardState;
  w_start : WalSnapshot;
  w_decoder : option decoder;
  w_f : option (list Z);
  w_seq : Z;
  w_enti : Z;
  w_encoder : option encoder;
  w_locks : list (list Z);
}.
#[global] Instance WAL_eta : Eta WAL := fun w =>
  mkWAL (w_metadata w) (w_state w) (w_start w) (w_decoder w) (w_f w) (w_seq w) (w_enti w) (w_encoder w) (w_locks w).

(** [w.encoder.encode(rec)] *)
Definition w_encode (w : WAL) (rec : WalRecord) (d : disk) : outcome (WAL * disk) :=
  match w_encoder w with
  | None => Panic "nil pointer dereference"
  | Some e => let! '(e, d) := encode e rec d in Ok (w <| w_encoder := Some e |>, d)
  end.

Definition saveCrc (w : WAL) (prevCrc : Z) (d : disk) : outcome (WAL * disk) :=
  w_encode w (mkWalRecord crcType prevCrc None None) d.

Definition saveEntry (w : WAL) (e : Entry) (d : disk) : outcome (WAL * disk) :=
  let! b := Entry_Marshal e in
  let! '(w, d) := w_encode w (mkWalRecord entryType 0 (Some b) None) d in
  Ok (w <| w_enti := eIndex e |>, d).

Definition saveState (w : WAL) (s : HardState) (d : disk) : outcome (WAL * disk) :=
  if IsEmptyHardState s then Ok (w, d) else
  let w := w <| w_state := s |> in
  let! b := HardState_Marshal s in
  w_encode w (mkWalRecord stateType 0 (Some b) None) d.

(** [w.sync()] *)
Definition w_sync (w : WAL) (d : disk) : outcome (WAL * disk) :=
  let '(w, d) := match w_encoder w with
    | Some e => let '(e, d) := flush e d in (w <| w_encoder := Some e |>, d)
    | None => (w, d)
    end in
  match w_f w with
  | None => Panic "invalid memory address"
  | Some f => Ok (w, sys (fsync f) d)
  end.

(** The head of the new file: the sum so far, the metadata and the hard state. *)
Definition cut_head (w : WAL) (prevCrc : Z) (d : disk) : outcome (WAL * disk) :=
  let! '(w, d) := saveCrc w prevCrc d in
  let! '(w, d) := w_encode w (mkWalRecord metadataType 0 (w_metadata w) None) d in
  let! '(w, d) := saveState w (w_state w) d in
  w_sync w d.

Definition cut (w : WAL) (d : disk) : outcome (WAL * disk) :=
  let! '(w, d) := w_sync w d in
  let fpath := walName (w_seq w ⊞ 1) (w_enti w ⊞ 1) in
  let ftpath := fpath ++ tmp_suffix in
  let d := sys (fcreate_trunc ftpath) d in
  match w_encoder w with
  | None => Panic "nil pointer dereference"
  | Some e =>
      let prevCrc := en_crc e in
      let w := w <| w_f := Some ftpath |> <| w_encoder := Some (newEncoder ftpath prevCrc) |> in
      let! '(w, d) := cut_head w prevCrc d in
      let d := sys (frename ftpath fpath) d in
      match w_encoder w with
      | None => Panic "nil pointer dereference"
      | Some e =>
          Ok (w <| w_f := Some fpath |> <| w_encoder := Some (newEncoder fpath (en_crc e)) |>
                <| w_locks := w_locks w ++ [fpath] |> <| w_seq := w_seq w ⊞ 1 |>, d)
      end
  end.

Definition mustSync (st prevst : HardState) (entsnum : Z) : bool :=
  negb (entsnum =? 0) || negb (hsVote st =? hsVote prevst) || negb (hsTerm st =? hsTerm prevst).

Definition Save (w : WAL) (st : HardState) (ents : list Entry) (d : disk) : outcome (WAL * disk) :=
  if IsEmptyHardState st && (zlen ents =? 0) then Ok (w, d) else
  let sync := mustSync st (w_state w) (zlen ents) in
  let! '(w, d) := foldM (fun '(w, d) e => saveEntry w e d) ents (w, d) in
  let! '(w, d) := saveState w st d in
  match w_f w with
  | None => Panic "invalid memory address"
  | Some f =>
      if fsize f (dk_dir d) <? segmentSizeBytes then if sync then w_sync w d else Ok (w, d)
      else cut w d
  end.

Definition SaveSnapshot (w : WAL) (e : WalSnapshot) (d : disk) : outcome (WAL * disk) :=
  let! b := WalSnapshot_Marshal e in
  let! '(w, d) := w_encode w (mkWalRecord snapshotType 0 (Some b) None) d in
  let w := if w_enti w <? wsIndex e then w <| w_enti := wsIndex e |> else w in
  w_sync w d.

Definition Create (metadata : option (list Z)) (d : disk) : outcome (WAL * disk + werror) :=
  if Exist (dk_dir d) then Ok (inr ErrExist) else
  let p := walName 0 0 in
  let d := sys (fcreate p) d in
  let w := mkWAL metadata HardState0 WalSnapshot0 None (Some p) 0 0 (Some (newEncoder p 0)) [p] in
  let! '(w, d) := saveCrc w 0 d in
  let! '(w, d) := w_encode w (mkWalRecord metadataType 0 metadata None) d in
  let! '(w, d) := SaveSnapshot w WalSnapshot0 d in
  Ok (inl (w, d)).

Definition openAtIndex (snap : WalSnapshot) (write : bool) (d : disk) : outcome (WAL + werror) :=
  let names := checkWalNames (ReadDir (dk_dir d)) in
  if (length names =? 0)%nat then Ok (inr ErrFileNotFound) else
  let! found := searchIndex names (wsIndex snap) in
  match found with
  | None => Ok (inr ErrFileNotFound)
  | Some nameIndex =>
      let! ok := isValidSeq (drop nameIndex names) in
      if negb ok then Ok (inr ErrFileNotFound) else
      let rd := newDecoder (concat ((fun n => fdata n (dk_dir d)) <$> drop nameIndex names)) in
      let w := mkWAL None HardState0 snap (Some rd) None 0 0 None (drop nameIndex names) in
      if write then
        let! last := at_ names (zlen names - 1) in
        match parseWalName last with
        | None => Panic "bad wal name"
        | Some (seq, _) => Ok (inl (w <| w_f := Some last |> <| w_seq := seq |>))
        end
      else Ok (inl w)
  end.
Definition Open (snap : WalSnapshot) (d : disk) : outcome (WAL + werror) := openAtIndex snap true d.
Definition OpenForRead (snap : WalSnapshot) (d : disk) : outcome (WAL + werror) := openAtIndex snap false d.

Section read.
  Context (grow : nat -> nat).

(** A slice of entries: its array up to the capacity, and its length. *)
Record eslice := mkESlice { es_arr : list Entry; es_len : nat }.

(** [append(ents[:k], e)] *)
Definition es_append (s : eslice) (k : Z) (e : Entry) : outcome eslice :=
  if k >? zlen (es_arr s) then Panic "slice bounds out of range" else
  let k := Z.to_nat k in
  if (k <? length (es_arr s))%nat then Ok (mkESlice (<[k := e]> (es_arr s)) (S k))
  else Ok (mkESlice (es_arr s ++ e :: replicate (grow k - S k) Entry0) (S k)).

Definition es_ents (s : eslice) : list Entry := take (es_len s) (es_arr s).

(** The local variables of [ReadAll], and [w.enti]. *)
Record rstate := mkRState {
  rs_metadata : option (list Z);
  rs_state : HardState;
  rs_ents : eslice;
  rs_enti : Z;
  rs_match : bool;
}.
#[global] Instance rstate_eta : Eta rstate := fun s =>
  mkRState (rs_metadata s) (rs_state s) (rs_ents s) (rs_enti s) (rs_match s).

(** The switch on the type of a record. *)
Definition read_record (start : WalSnapshot) (rec : WalRecord) (d : decoder) (s : rstate)
  : outcome (rstate * decoder + werror) :=
  if recType rec =? entryType then
    let! e := (MustUnmarshal (recData rec) : outcome Entry) in
    let! ents := (if eIndex e >? wsIndex start then es_append (rs_ents s) (eIndex e ⊟ wsIndex start ⊟ 1) e
                  else Ok (rs_ents s)) in
    Ok (inl (s <| rs_ents := ents |> <| rs_enti := eIndex e |>, d))
  else if recType rec =? stateType then
    let! st := (MustUnmarshal (recData rec) : outcome HardState) in Ok (inl (s <| rs_state := st |>, d))
  else if recType rec =? metadataType then
    if bool_decide (rs_metadata s <> None) && negb (bool_decide (rs_metadata s = recData rec))
    then Ok (inr ErrMetadataConflict)
    else Ok (inl (s <| rs_metadata := recData rec |>, d))
  else if recType rec =? crcType then
    if negb (dc_crc d =? 0) && negb (Validate rec (dc_crc d)) then Ok (inr ErrCRCMismatch)
    else Ok (inl (s, updateCRC d (recCrc rec)))
  else if recType rec =? snapshotType then
    let! snap := (MustUnmarshal (recData rec) : outcome WalSnapshot) in
    if wsIndex snap =? wsIndex start then
      if negb (wsTerm snap =? wsTerm start) then Ok (inr ErrSnapshotMismatch)
      else Ok (inl (s <| rs_match := true |>, d))
    else Ok (inl (s, d))
  else Ok (inr (ErrBlockType (recType rec))).

(** The loop of [ReadAll]: ends with the error of [decode], or with [None] and
    the error that makes [ReadAll] return at once. *)
Fixpoint read_loop (fuel : nat) (start : WalSnapshot) (d : decoder) (s : rstate)
  : outcome (rstate * decoder * (werror + werror)) :=
  match fuel with
  | O => Panic "out of fuel"
  | S f =>
      let! r := decode d in
      match r with
      | inr e => Ok (s, d, inl e)
      | inl (rec, d) =>
          let! r := read_record start rec d s in
          match r with
          | inr e => Ok (s, d, inr e)
          | inl (s, d) => read_loop f start d s
          end
      end
  end.

(** Every record takes at least eight bytes. *)
Definition ReadAll (w : WAL) : outcome (WAL * (option (list Z) * HardState * list Entry) * option werror) :=
  match w_decoder w with
  | None => Panic "nil pointer dereference"
  | Some d =>
      let s := mkRState None HardState0 (mkESlice [] 0) (w_enti w) false in
      let! '(s, d, err) := read_loop (S (length (dc_in d))) (w_start w) d s in
      let w := w <| w_enti := rs_enti s |> <| w_decoder := Some d |> in
      let failed e := Ok (w, (None, HardState0, []), Some e) in
      match err with
      | inr e => failed e
      | inl e =>
          let ok := match w_f w with
            | None => bool_decide (e = EOF \/ e = UnexpectedEOF)
            | Some _ => bool_decide (e = EOF)
            end in
          if negb ok then failed e else
          let w := w <| w_start := WalSnapshot0 |> <| w_metadata := rs_metadata s |> in
          let w := match w_f w with
            | Some f => w <| w_encoder := Some (newEncoder f (lastCRC d)) |> <| w_decoder := None |>
            | None => w
            end in
          Ok (w, (rs_metadata s, rs_state s, es_ents (rs_ents s)), if rs_match s then None else Some ErrSnapshotNotFound)
      end
  end.
End read.

(** The first lock at or above [index]. *)
Fixpoint release_point (i : nat) (locks : list (list Z)) (index : Z) : option (option nat) :=
  match locks with
  | [] => Some None
  | name :: locks' =>
      match parseWalName name with
      | None => None
      | Some (_, lockIndex) => if lockIndex >=? index then Some (Some i) else release_point (S i) locks' index
      end
  end.

(** [None]: a name that does not parse. *)
Definition ReleaseLockTo (w : WAL) (index : Z) : option WAL :=
  match release_point 0 (w_locks w) index with
  | None => None
  | Some found =>
      let smaller := match found with
        | Some i => Z.of_nat i - 1
        | None => if negb (length (w_locks w) =? 0)%nat then zlen (w_locks w) - 1 else 0
        end in
      if smaller <=? 0 then Some w else Some (w <| w_locks := drop (Z.to_nat smaller) (w_locks w) |>)
  end.

(** [Close] *)
Definition w_Close (w : WAL) (d : disk) : outcome disk :=
  match w_f w with Some _ => let! '(_, d) := w_sync w d in Ok d | None => Ok d end.

(** ** [repair.go] *)

(** [openLast] *)
Definition openLast (d : disk) : option (list Z) := last (checkWalNames (ReadDir (dk_dir d))).

(** The loop of [Repair]: the bytes to keep, or [None] where it gives up. *)
Inductive repaired := Intact | TruncateTo (n : Z) | Unrepairable.

Fixpoint Repair_loop (fuel : nat) (n : Z) (d : decoder) : outcome repaired :=
  match fuel with
  | O => Panic "out of fuel"
  | S f =>
      let! r := decode d in
      match r with
      | inl (rec, d) =>
          let n := n + (8 + WalRecord_Size rec) in
          if recType rec =? crcType then
            if negb (dc_crc d =? 0) && negb (Validate rec (dc_crc d)) then Ok Unrepairable
            else Repair_loop f n (updateCRC d (recCrc rec))
          else Repair_loop f n d
      | inr EOF => Ok Intact
      | inr UnexpectedEOF => Ok (TruncateTo n)
      | inr _ => Ok Unrepairable
      end
  end.

Definition Repair (d : disk) : outcome (bool * disk) :=
  match openLast d with
  | None => Ok (false, d)
  | Some f =>
      let bytes := fdata f (dk_dir d) in
      let! r := Repair_loop (S (length bytes)) 0 (newDecoder bytes) in
      match r with
      | Unrepairable => Ok (false, d)
      | Intact => Ok (true, d)
      | TruncateTo n =>
          let d := sys (fcreate_trunc (f ++ broken_suffix)) d in
          let d := sys (fwrite (f ++ broken_suffix) bytes) d in
          let d := sys (ftruncate f (Z.to_nat n)) d in
          Ok (true, sys (fsync f) d)
      end
  end.
