(* ===== verification/WalStream.v ===== *)
(** * The byte stream of the write-ahead log

    A file of the log is a stream of framed records.  [encode] appends a frame
    (to the file or to the buffer), [decode] takes one off, and a stream that
    was cut somewhere inside ends with [UnexpectedEOF]. *)

From S2P Require Import Prelude RaftPB Proto RaftCodec Storage StorePB WalPB OrderedMap FileSys Wal.

(** What a record carries: its type and its data. *)
Notation item := (Z * option (list Z))%type.
Implicit Types (it : item) (items : list item) (crc : Z).

Definition frame crc it : WalRecord := mkWalRecord it.1 (crc_Update crc (default [] it.2)) it.2 None.

Definition frame_bytes crc it : list Z :=
  PutUint64_le (u64 (WalRecord_Size (frame crc it))) ++ WalRecord_MarshalTo (frame crc it).

Fixpoint stream crc items : list Z :=
  match items with
  | [] => []
  | it :: items' => frame_bytes crc it ++ stream (recCrc (frame crc it)) items'
  end.

Definition end_crc crc items : Z := foldl (fun c it => recCrc (frame c it)) crc items.

Arguments Entry_MarshalTo : simpl never.
Arguments HardState_MarshalTo : simpl never.
Arguments WalSnapshot_MarshalTo : simpl never.
Arguments WalRecord_MarshalTo : simpl never.
Arguments end_crc : simpl never.

(** The reader accepts the size. *)
Definition item_fits it : Prop := is_i64 it.1 /\ zlen (default [] it.2) + 64 <= maxWALEntrySizeLimit.

Lemma stream_app crc i1 i2 : stream crc (i1 ++ i2) = stream crc i1 ++ stream (end_crc crc i1) i2.
Proof.
  revert crc. induction i1 as [|it i1 IH]; intros crc; [done|].
  cbn [app stream end_crc foldl]. rewrite IH, <- app_assoc. done.
Qed.

Lemma end_crc_app crc i1 i2 : end_crc crc (i1 ++ i2) = end_crc (end_crc crc i1) i2.
Proof. unfold end_crc. apply foldl_app. Qed.

Lemma end_crc_range crc items : is_u32 crc -> is_u32 (end_crc crc items).
Proof.
  unfold end_crc. revert crc. induction items as [|it items IH]; intros crc Hc; [done|].
  apply IH, crc_Update_range.
Qed.

Lemma sovRaft_bound v : 0 < sovRaft v <= 10.
Proof. split; [pose proof (sovRaft_pos v); lia|apply sovRaft_loop_le]. Qed.

Lemma frame_wf crc it : is_i64 it.1 -> WalRecord_wf (frame crc it).
Proof. intros. split_and!; [done|apply crc_Update_range|done]. Qed.

Lemma frame_Size crc it :
  0 < WalRecord_Size (frame crc it) <= zlen (default [] it.2) + 33.
Proof.
  unfold WalRecord_Size, frame. cbn [recType recCrc recData recXXX_unrecognized size_unrecognized].
  generalize (sovRaft_bound (u64 it.1)), (sovRaft_bound (crc_Update crc (default [] it.2))).
  destruct it.2 as [b|]; cbn [default from_option id size_bytes length]; [pose proof (sovRaft_bound (zlen b))|]; lia.
Qed.

Lemma frame_len crc it : is_i64 it.1 -> zlen (WalRecord_MarshalTo (frame crc it)) = WalRecord_Size (frame crc it).
Proof. intros. by apply WalRecord_len, frame_wf. Qed.

Lemma frame_bytes_len crc it : is_i64 it.1 -> zlen (frame_bytes crc it) = 8 + WalRecord_Size (frame crc it).
Proof.
  intros. unfold frame_bytes. rewrite length_app, Nat2Z.inj_add, frame_len, PutUint64_le_length by done. lia.
Qed.

(** ** Writing *)

(** The calls of a buffered write: a list of writes to one file. *)
Definition write_all (f : list Z) (ws : list (list Z)) (d : disk) : disk :=
  foldl (fun d b => sys (fwrite f b) d) d ws.

Lemma write_all_app f ws1 ws2 d : write_all f (ws1 ++ ws2) d = write_all f ws2 (write_all f ws1 d).
Proof. apply foldl_app. Qed.

(** [encode] hands the frame of the record to the buffered writer. *)
Lemma encode_spec e t c0 data d :
  is_i64 t -> is_u32 (en_crc e) -> zlen (default [] data) < max_data ->
  exists ws buf,
    encode e (mkWalRecord t c0 data None) d =
      Ok (mkEncoder (en_f e) buf (end_crc (en_crc e) [(t, data)]), write_all (en_f e) ws d) /\
    concat ws ++ buf = en_buf e ++ stream (en_crc e) [(t, data)].
Proof.
  intros Ht Hc Hd. pose proof (frame_Size (en_crc e) (t, data)) as Hs. cbn in Hs.
  pose proof (frame_len (en_crc e) (t, data) Ht) as Hl.
  unfold encode. cbn [recData upd].
  change (_ <| recCrc := _ |>) with (frame (en_crc e) (t, data)).
  set (r := frame (en_crc e) (t, data)) in *.
  assert ((if WalRecord_Size r >? 1024 * 1024 then WalRecord_Marshal r
    else marshal (1024 * 1024) (WalRecord_MarshalTo r)) = Ok (WalRecord_MarshalTo r)) as ->.
  { unfold WalRecord_Marshal. zif; [by apply marshal_Ok|]. unfold marshal. by zif; [|lia]. }
  gosimpl. unfold bw_Write. cbn [en_buf en_f en_crc upd].
  destruct (bufio_Write 3 (en_buf e) _) as [ws1 b1] eqn:E1. cbn [en_buf en_f en_crc upd].
  destruct (bufio_Write 3 b1 _) as [ws2 b2] eqn:E2.
  apply bufio_Write_bytes in E1. apply bufio_Write_bytes in E2.
  exists (ws1 ++ ws2), b2. split.
  - rewrite write_all_app. done.
  - rewrite concat_app, <- app_assoc, E2, app_assoc, E1, <- app_assoc. cbn [stream]. rewrite app_nil_r.
    unfold frame_bytes. fold r. by rewrite Hl.
Qed.

Lemma flush_spec e d :
  exists ws, flush e d = (e <| en_buf := [] |>, write_all (en_f e) ws d) /\ concat ws = en_buf e.
Proof.
  destruct e as [f [|c b] crc]; unfold flush; cbn.
  - by exists [].
  - exists [c :: b]. split; [done|]. cbn. by rewrite app_nil_r.
Qed.

(** ** Reading *)

Lemma readInt64_encode n rest : 0 <= n < 9223372036854775808 ->
  readInt64 (PutUint64_le (u64 n) ++ rest) = inl (n, rest).
Proof.
  intros Hn. unfold readInt64. rewrite length_app, PutUint64_le_length.
  rewrite (proj2 (Nat.eqb_neq _ _)), (proj2 (Nat.ltb_ge _ _)) by lia.
  rewrite take_app_length', drop_app_length' by by rewrite PutUint64_le_length.
  rewrite Uint64_PutUint64_le by apply u64_range. rewrite i64_u64; [done|lia].
Qed.

(** A whole frame is read back, and the sums move on together. *)
Lemma decode_frame crc it rest dcrc :
  item_fits it -> dcrc = crc \/ it.1 = crcType ->
  decode (mkDecoder (frame_bytes crc it ++ rest) dcrc) =
    Ok (inl (frame crc it, mkDecoder rest (if it.1 =? crcType then dcrc else recCrc (frame crc it)))).
Proof.
  intros [Ht Hf] Hc. pose proof (frame_Size crc it). pose proof (frame_len crc it Ht) as Hl.
  assert (maxWALEntrySizeLimit = 10485760) as Hlim by done.
  unfold decode. cbn [dc_in]. unfold frame_bytes. rewrite <- app_assoc.
  rewrite readInt64_encode by lia. zif; [lia|]. zif; [lia|].
  rewrite length_app. zif; [lia|]. rewrite <- Hl, Nat2Z.id, take_app_length, drop_app_length.
  rewrite WalRecord_decodes; [|by apply frame_wf|lia].
  cbn [recType frame]. destruct (Z.eqb_spec it.1 crcType) as [E|E]; [done|].
  destruct Hc as [->|?]; [|done]. cbn [dc_crc upd recData recCrc]. unfold Validate. cbn [recCrc].
  by rewrite Z.eqb_refl.
Qed.

(** A frame that was cut: nothing, or too little. *)
Lemma decode_torn crc it t dcrc :
  item_fits it -> t `prefix_of` frame_bytes crc it -> t <> frame_bytes crc it ->
  decode (mkDecoder t dcrc) = Ok (inr (if (length t =? 0)%nat then EOF else UnexpectedEOF)).
Proof.
  intros [Ht Hf] [u Hu] Hne. pose proof (frame_Size crc it). pose proof (frame_len crc it Ht) as Hl.
  assert (maxWALEntrySizeLimit = 10485760) as Hlim by done.
  pose proof (frame_bytes_len crc it Ht) as Hb. unfold decode, readInt64. cbn [dc_in].
  destruct (Nat.eqb_spec (length t) 0) as [E|E]; [done|].
  destruct (Nat.ltb_spec (length t) 8) as [E8|E8]; [done|].
  assert (length t < length (frame_bytes crc it))%nat as Hlt.
  { rewrite Hu, length_app. destruct u; simpl; [|lia]. destruct Hne. by rewrite Hu, app_nil_r. }
  assert (take 8 t = PutUint64_le (u64 (WalRecord_Size (frame crc it)))) as ->.
  { apply (f_equal (take 8)) in Hu. rewrite take_app_le in Hu by lia. rewrite <- Hu.
    unfold frame_bytes. by rewrite take_app_length' by by rewrite PutUint64_le_length. }
  rewrite Uint64_PutUint64_le, i64_u64 by (apply u64_range || lia).
  zif; [lia|]. zif; [lia|]. rewrite length_drop. zif; [done|lia].
Qed.

Lemma decode_end dcrc : decode (mkDecoder [] dcrc) = Ok (inr EOF).
Proof. done. Qed.

(** ** Cut streams *)

(** A prefix of a stream is a stream of the first items and a part of the next
    frame. *)
Lemma prefix_stream crc items p :
  p `prefix_of` stream crc items ->
  exists k t, (k <= length items)%nat /\ p = stream crc (take k items) ++ t /\
    match items !! k with
    | None => t = []
    | Some it => t `prefix_of` frame_bytes (end_crc crc (take k items)) it /\
        t <> frame_bytes (end_crc crc (take k items)) it
    end.
Proof.
  revert crc p. induction items as [|it items IH]; intros crc p Hp.
  { apply prefix_nil_inv in Hp as ->. by exists 0%nat, []. }
  cbn [stream] in Hp. destruct (decide (frame_bytes crc it `prefix_of` p)) as [[p' ->]|Hn].
  - apply prefix_app_inv in Hp. destruct (IH _ _ Hp) as (k & t & Hk & -> & Hi).
    exists (S k), t. split_and!; [simpl; lia|by rewrite firstn_cons; cbn [stream]; rewrite app_assoc|done].
  - exists 0%nat, p. split_and!; [simpl; lia|done|]. cbn [lookup list_lookup take end_crc foldl]. split.
    + destruct (prefix_weak_total p (frame_bytes crc it) _ Hp) as [?|?]; [by apply prefix_app_r|done|done].
    + intros ->. done.
Qed.

Lemma stream_length_mono crc items k j : (k <= j)%nat ->
  (length (stream crc (take k items)) <= length (stream crc (take j items)))%nat.
Proof.
  intros Hk. replace j with (k + (j - k))%nat by lia. rewrite <- (take_take_drop items k (j - k)).
  rewrite stream_app, length_app. lia.
Qed.

(** A prefix that is long enough has all of the first items. *)
Lemma prefix_stream_durable crc items p m :
  Forall item_fits items -> (m <= length items)%nat ->
  p `prefix_of` stream crc items -> (length (stream crc (take m items)) <= length p)%nat ->
  exists k t, (m <= k <= length items)%nat /\ p = stream crc (take k items) ++ t /\
    match items !! k with
    | None => t = []
    | Some it => t `prefix_of` frame_bytes (end_crc crc (take k items)) it /\
        t <> frame_bytes (end_crc crc (take k items)) it
    end.
Proof.
  intros Hf Hm Hp Hlen. destruct (prefix_stream crc items p Hp) as (k & t & Hk & -> & Hi).
  exists k, t. split_and!; try done. destruct (decide (m <= k)%nat) as [|Hlt]; [done|].
  destruct (lookup_lt_is_Some_2 items k) as [it Hit]; [lia|]. rewrite Hit in Hi. destruct Hi as [[u Hu] Hne].
  assert (length (stream crc (take (S k) items)) <= length (stream crc (take m items)))%nat
    by (apply stream_length_mono; lia).
  rewrite (take_S_r _ _ _ Hit), stream_app, !length_app in *. cbn [stream] in *. rewrite app_nil_r in *.
  apply (f_equal length) in Hu as Hul. rewrite length_app in Hul.
  destruct u as [|c u]; [|rewrite length_cons in Hul; lia]. destruct Hne. by rewrite Hu, app_nil_r.
Qed.
