(* ===== verification/WalLog.v ===== *)
(** * What the write-ahead log records, and what reading it gives back

    The abstract content of the log is a list of operations: an entry, a hard
    state or a snapshot was saved.  [slog] is the raft log the operations leave
    behind: an entry replaces everything from its index on, a snapshot ahead of
    the log replaces all of it.  [reads_ops] says what the loop of [ReadAll]
    computes from the operations, wherever in the log it starts. *)

From S2P Require Import Prelude RaftPB Proto RaftCodec Storage Unstable RaftLog Progress Raft RawNode.
From S2P Require Import StorePB WalPB OrderedMap FileSys Wal WalStream.

Inductive wop : Type :=
| OpEntry (e : Entry)
| OpState (s : HardState)
| OpSnap (s : WalSnapshot).
Implicit Types (o : wop) (ops before : list wop) (L : alog).
#[local] Arguments a_append : simpl never.

Definition op_item o : item :=
  match o with
  | OpEntry e => (entryType, Some (Entry_MarshalTo e))
  | OpState s => (stateType, Some (HardState_MarshalTo s))
  | OpSnap s => (snapshotType, Some (WalSnapshot_MarshalTo s))
  end.

Definition op_wf o : Prop :=
  item_fits (op_item o) /\
  match o with
  | OpEntry e => Entry_wf e
  | OpState s => HardState_wf s /\ IsEmptyHardState s = false
  | OpSnap s => WalSnapshot_wf s
  end.

(** ** The raft log that was saved *)

Definition slog_step L o : alog :=
  match o with
  | OpEntry e => a_append L [e]
  | OpState _ => L
  | OpSnap s => if a_last L <? wsIndex s then mkAlog (wsIndex s) (wsTerm s) [] else L
  end.
Definition slog ops : alog := foldl slog_step (mkAlog 0 0 []) ops.

Definition snaps ops : list WalSnapshot := omap (fun o => match o with OpSnap s => Some s | _ => None end) ops.

(** The hard state saved last, [st] where there is none. *)
Definition state_from (st : HardState) ops : HardState :=
  foldl (fun st o => match o with OpState s => s | _ => st end) st ops.
Definition last_state ops : HardState := state_from HardState0 ops.

(** The entries after [start]. *)
Definition after (start : Z) L : list Entry := drop (Z.to_nat (start - a_off L)) (a_ents L).

(** What raft guarantees about the operations: an entry follows or overwrites
    the log above every snapshot, and snapshots of one index have one term. *)
Definition op_ok before o : Prop :=
  op_wf o /\
  match o with
  | OpEntry e => 0 < eIndex e <= a_last (slog before) + 1 /\ eIndex e < MaxUint64 /\
      Forall (fun s => wsIndex s < eIndex e) (snaps before)
  | OpState _ => True
  | OpSnap s => wsIndex s < MaxUint64 /\
      Forall (fun s' => wsIndex s' = wsIndex s -> wsTerm s' = wsTerm s) (snaps before)
  end.

Fixpoint ops_ok before ops : Prop :=
  match ops with
  | [] => True
  | o :: ops' => op_ok before o /\ ops_ok (before ++ [o]) ops'
  end.

Lemma ops_ok_app before ops1 ops2 :
  ops_ok before (ops1 ++ ops2) <-> ops_ok before ops1 /\ ops_ok (before ++ ops1) ops2.
Proof.
  revert before. induction ops1 as [|o ops1 IH]; intros before; simpl.
  - rewrite app_nil_r. tauto.
  - rewrite IH, <- app_assoc. tauto.
Qed.

Lemma slog_app before ops : slog (before ++ ops) = foldl slog_step (slog before) ops.
Proof. apply foldl_app. Qed.

Lemma slog_snoc before o : slog (before ++ [o]) = slog_step (slog before) o.
Proof. by rewrite slog_app. Qed.

Lemma snaps_app ops1 ops2 : snaps (ops1 ++ ops2) = snaps ops1 ++ snaps ops2.
Proof. apply omap_app. Qed.

Lemma last_state_app before ops : last_state (before ++ ops) = state_from (last_state before) ops.
Proof. apply foldl_app. Qed.

Lemma state_from_app st ops1 ops2 : state_from st (ops1 ++ ops2) = state_from (state_from st ops1) ops2.
Proof. apply foldl_app. Qed.

(** The saved log is well formed, reaches every snapshot, and starts at 0 or
    at a snapshot. *)
Definition slog_ok before : Prop :=
  let L := slog before in
  alog_wf L /\ Forall (fun s => wsIndex s <= a_last L) (snaps before) /\
  (a_off L = 0 \/ Exists (fun s => wsIndex s = a_off L) (snaps before)).

(** An entry lands inside the log or right after it. *)
Lemma entry_range before e : slog_ok before -> op_ok before (OpEntry e) -> a_off (slog before) < eIndex e.
Proof.
  intros (_ & _ & Hoff) (_ & (He & _ & Hs)). destruct Hoff as [->|Hex]; [lia|].
  apply Exists_exists in Hex as (s & Hin & <-). rewrite Forall_forall in Hs. by apply Hs.
Qed.

Lemma single_contiguous e : contiguous (eIndex e) [e].
Proof. apply contiguous_cons. split; [done|apply contiguous_nil]. Qed.

Lemma slog_step_last before o : slog_ok before -> op_ok before o ->
  a_last (slog_step (slog before) o) =
    match o with
    | OpEntry e => eIndex e
    | OpState _ => a_last (slog before)
    | OpSnap s => Z.max (a_last (slog before)) (wsIndex s)
    end.
Proof.
  intros Hok Ho. destruct o as [e|s|s]; simpl; [|done|].
  - pose proof (entry_range _ _ Hok Ho). destruct Ho as (_ & (He & _)).
    rewrite (a_last_append _ _ (eIndex e)); [simpl; lia|apply single_contiguous|lia|done].
  - zif; [|lia]. unfold a_last at 1. simpl. lia.
Qed.

Lemma slog_ok_snoc before o : slog_ok before -> op_ok before o -> slog_ok (before ++ [o]).
Proof.
  intros Hok Ho. pose proof (slog_step_last before o Hok Ho) as Hl. unfold slog_ok. rewrite slog_snoc, snaps_app.
  pose proof Hok as (Hwf & Hs & Hoff). destruct o as [e|s|s]; simpl in *; rewrite ?app_nil_r.
  - pose proof (entry_range _ _ Hok Ho). destruct Ho as (_ & (He & Hm & Hse)). split_and!.
    + apply (a_append_wf _ _ (eIndex e)); [done|apply single_contiguous|lia|simpl; lia].
    + rewrite Hl. eapply Forall_impl; [exact Hse|]. simpl. lia.
    + done.
  - done.
  - destruct Ho as ((_ & (Hi & _)) & (Hm & _)). split_and!.
    + zif; [|done]. split_and!; [unfold is_u64 in Hi; simpl; lia|rewrite ?Z.max_r in Hl by lia; unfold a_last in *; simpl in *; lia|].
      apply contiguous_nil.
    + apply Forall_app. split; [|apply Forall_singleton; lia]. eapply Forall_impl; [exact Hs|]. simpl. lia.
    + zif.
      * right. apply Exists_app. right. by apply Exists_cons_hd.
      * destruct Hoff as [?|?]; [by left|]. right. apply Exists_app. by left.
Qed.

Lemma slog_ok_app before ops : slog_ok before -> ops_ok before ops -> slog_ok (before ++ ops).
Proof.
  revert before. induction ops as [|o ops IH]; intros before Hok; simpl; [by rewrite app_nil_r|].
  intros [Ho Hops]. replace (before ++ o :: ops) with ((before ++ [o]) ++ ops) by by rewrite <- app_assoc.
  apply IH; [|done]. by apply slog_ok_snoc.
Qed.

Lemma slog_ok_nil : slog_ok [].
Proof. split_and!; [|constructor|by left]. split_and!; [done|done|apply contiguous_nil]. Qed.

Lemma slog_off_mono before ops : slog_ok before -> ops_ok before ops -> a_off (slog before) <= a_off (slog (before ++ ops)).
Proof.
  revert before. induction ops as [|o ops IH]; intros before Hok; simpl; [by rewrite app_nil_r|].
  intros [Ho Hops]. replace (before ++ o :: ops) with ((before ++ [o]) ++ ops) by by rewrite <- app_assoc.
  etrans; [|apply IH; [by apply slog_ok_snoc|done]]. rewrite slog_snoc.
  destruct o; simpl; [done|done|]. zif; [|done]. simpl. unfold a_last in *. lia.
Qed.

Lemma after_past start L : a_off L <= start -> a_last L <= start -> after start L = [].
Proof. intros. unfold after, a_last in *. apply drop_ge. lia. Qed.

(** Appending an entry above [start], seen from [start]. *)
Lemma after_append start L e : a_off L <= start < eIndex e -> eIndex e <= a_last L + 1 ->
  after start (a_append L [e]) = take (Z.to_nat (eIndex e - start - 1)) (after start L) ++ [e].
Proof.
  intros H1 H2. unfold after, a_last, a_append in *. cbn [a_off a_ents].
  set (n := Z.to_nat (start - a_off L)). set (k := Z.to_nat (eIndex e - start - 1)).
  replace (Z.to_nat (eIndex e - a_off L - 1)) with (n + k)%nat by lia.
  rewrite drop_app_le by (rewrite length_take; lia). f_equal. by rewrite take_drop_commute.
Qed.

(** ** The log as it shows from an index *)

(** A reader that starts at [i] does not see what a snapshot above [i] makes of
    the log. *)
Definition rstep (i : Z) L o : alog :=
  match o with
  | OpEntry e => a_append L [e]
  | OpState _ => L
  | OpSnap s => if (a_last L <? wsIndex s) && (wsIndex s <=? i) then mkAlog (wsIndex s) (wsTerm s) [] else L
  end.
Definition rlog (i : Z) ops : alog := foldl (rstep i) (mkAlog 0 0 []) ops.

(** The entries above [i] leave no gap. *)
Fixpoint gapless (i : Z) before ops : Prop :=
  match ops with
  | [] => True
  | o :: ops' =>
      match o with OpEntry e => i < eIndex e -> eIndex e <= a_last (rlog i before) + 1 | _ => True end /\
      gapless i (before ++ [o]) ops'
  end.

Lemma rlog_snoc i before o : rlog i (before ++ [o]) = rstep i (rlog i before) o.
Proof. unfold rlog. by rewrite foldl_app. Qed.

Lemma gapless_app i before ops1 ops2 :
  gapless i before (ops1 ++ ops2) <-> gapless i before ops1 /\ gapless i (before ++ ops1) ops2.
Proof.
  revert before. induction ops1 as [|o ops1 IH]; intros before; simpl; [rewrite app_nil_r; tauto|].
  rewrite IH, <- app_assoc. tauto.
Qed.

Lemma rlog_off i ops : 0 <= i -> a_off (rlog i ops) <= i.
Proof.
  intros Hi. induction ops as [|o ops IH] using rev_ind; [done|]. rewrite rlog_snoc.
  destruct o as [e|s|s]; simpl; [done|done|]. zcase; [|done]. zcase; [|done]. done.
Qed.

(** Where no snapshot lies above [i], the whole log shows. *)
Lemma rlog_slog i ops : Forall (fun s => wsIndex s <= i) (snaps ops) -> rlog i ops = slog ops.
Proof.
  induction ops as [|o ops IH] using rev_ind; [done|]. rewrite snaps_app, rlog_snoc, slog_snoc. intros [H1 H2]%Forall_app.
  rewrite IH by done. destruct o as [e|s|s]; simpl in *; [done|done|]. rewrite Forall_singleton in H2.
  rewrite (proj2 (Z.leb_le _ _)) by done. by rewrite andb_true_r.
Qed.

(** ... and where the log has not moved past [i]. *)
Lemma rlog_below i before ops :
  slog_ok before -> ops_ok before ops -> rlog i before = slog before -> a_off (slog (before ++ ops)) <= i ->
  rlog i (before ++ ops) = slog (before ++ ops) /\ gapless i before ops.
Proof.
  revert before. induction ops as [|o ops IH]; intros before Hok Hops Heq Hoff; [by rewrite app_nil_r|].
  destruct Hops as [Ho Hops]. pose proof (slog_ok_snoc _ _ Hok Ho) as Hok1.
  replace (before ++ o :: ops) with ((before ++ [o]) ++ ops) in * by by rewrite <- app_assoc.
  assert (a_off (slog (before ++ [o])) <= i) as Hoff1 by (etrans; [by apply slog_off_mono with (ops := ops)|done]).
  assert (rlog i (before ++ [o]) = slog (before ++ [o])) as Heq1.
  { rewrite rlog_snoc, slog_snoc in *. rewrite Heq. destruct o as [e|s|s]; simpl in *; [done|done|].
    destruct (Z.ltb_spec (a_last (slog before)) (wsIndex s)); [|done]. simpl in *.
    by rewrite (proj2 (Z.leb_le _ _)). }
  destruct (IH (before ++ [o]) Hok1 Hops Heq1 Hoff) as [H1 H2]. split; [done|]. split; [|done].
  destruct o as [e|s|s]; [|done|done]. rewrite Heq. destruct Ho as (_ & (He & _)). lia.
Qed.

(** In particular no entry is missing above an index the log has not jumped
    over. *)
Lemma gapless_reached i ops : ops_ok [] ops -> a_off (slog ops) <= i -> gapless i [] ops.
Proof. intros Hops Hoff. by apply (rlog_below i [] ops slog_ok_nil Hops eq_refl). Qed.

(** What the loop of [ReadAll] makes of the entries: one above [i] cuts the
    slice before its place and is appended; one below is passed over, and the
    slice stays as it is. *)
Definition collect_step (i : Z) (l : list Entry) o : list Entry :=
  match o with
  | OpEntry e => if i <? eIndex e then take (Z.to_nat (eIndex e - i - 1)) l ++ [e] else l
  | _ => l
  end.
Definition collected (i : Z) (l : list Entry) ops : list Entry := foldl (collect_step i) l ops.

Lemma contiguous_cut n l e : contiguous n l -> n <= eIndex e <= n + zlen l ->
  contiguous n (take (Z.to_nat (eIndex e - n)) l ++ [e]).
Proof.
  intros Hl He. apply contiguous_app. split; [by apply contiguous_take|]. rewrite length_take.
  replace (n + _) with (eIndex e) by lia. apply single_contiguous.
Qed.

(** What is collected leaves no gap and was recorded; it is the log after [i]
    as soon as that has an entry. *)
Lemma collected_spec i before ops :
  slog_ok before -> ops_ok before ops -> 0 <= i -> a_last (slog before) <= i -> gapless i before ops ->
  let l := collected i [] ops in
  contiguous (i + 1) l /\ Forall (fun e => OpEntry e ∈ ops) l /\
  (a_last (rlog i (before ++ ops)) <= i \/ l = after i (rlog i (before ++ ops))).
Proof.
  intros Hok Hops Hi Hlast. assert (rlog i before = slog before) as Hr.
  { apply rlog_slog. destruct Hok as (_ & Hs & _). eapply Forall_impl; [exact Hs|]. cbn. lia. }
  induction ops as [|o ops IH] using rev_ind; intros Hgap l.
  { rewrite app_nil_r, Hr. split_and!; [apply contiguous_nil|constructor|by left]. }
  apply ops_ok_app in Hops as [Hops [Ho _]]. apply gapless_app in Hgap as [Hgap [Hg _]].
  destruct (IH Hops Hgap) as (Hc & Hf & Hl). pose proof (slog_ok_app _ _ Hok Hops) as Hok1.
  pose proof (rlog_off i (before ++ ops) Hi) as Hoff. pose proof (slog_step_last _ _ Hok1 Ho) as Hstep.
  assert (l = collect_step i (collected i [] ops) o) as -> by (unfold l, collected; by rewrite foldl_app).
  assert (Forall (fun e => OpEntry e ∈ ops ++ [o]) (collected i [] ops)) as Hf'
    by (eapply Forall_impl; [exact Hf|]; intros e He; apply elem_of_app; by left).
  rewrite app_assoc, rlog_snoc. set (L := rlog i (before ++ ops)) in *. set (c := collected i [] ops) in *.
  destruct o as [e|st|sn]; cbn [collect_step rstep].
  - destruct Ho as (_ & Hcond & _ & Hse). zcase.
    + specialize (Hg ltac:(done)). assert (i + 1 <= eIndex e <= i + 1 + zlen c) as Hrange.
      { destruct Hl as [Hl|Hl]; [lia|]. rewrite Hl. unfold after, a_last in *. rewrite length_drop. lia. }
      replace (eIndex e - i - 1) with (eIndex e - (i + 1)) by lia. split_and!; [by apply contiguous_cut| |].
      * apply Forall_app. split; [by apply Forall_take|]. apply Forall_singleton, elem_of_app. right. by left.
      * right. rewrite after_append by lia. f_equal. replace (eIndex e - i - 1) with (eIndex e - (i + 1)) by lia.
        destruct Hl as [Hl|Hl]; [|by rewrite Hl]. replace (Z.to_nat _) with 0%nat by lia. done.
    + split_and!; [done|done|]. left. unfold L. rewrite rlog_slog.
      * cbn in Hstep. lia.
      * eapply Forall_impl; [exact Hse|]. cbn. lia.
  - done.
  - split_and!; [done|done|]. zcase; [|done]. zcase; [|done]. left. unfold a_last. cbn. lia.
Qed.

(** ** One record of the loop *)

(** The switch without the sums. *)
Definition read_item (grow : nat -> nat) (start : WalSnapshot) (it : item) (s : rstate) : outcome (rstate + werror) :=
  let! r := read_record grow start (mkWalRecord it.1 0 it.2 None) (mkDecoder [] 0) s in
  Ok (match r with inl (s, _) => inl s | inr e => inr e end).

Section reading.
  Context (grow : nat -> nat) (start : WalSnapshot).
  Implicit Types (s : rstate).

(** A record that carries a sum carries nothing else. *)
Definition plain_crc (it : item) : Prop := it.1 = crcType -> it.2 = None.

Lemma read_record_frame crc it s rest dcrc :
  is_u32 crc -> plain_crc it -> dcrc = crc \/ it.1 = crcType /\ dcrc = 0 ->
  read_record grow start (frame crc it) (mkDecoder rest (if it.1 =? crcType then dcrc else recCrc (frame crc it))) s =
  (let! r := read_item grow start it s in
   Ok (match r with inl s => inl (s, mkDecoder rest (recCrc (frame crc it))) | inr e => inr e end)).
Proof using.
  intros Hc Hp Hd. unfold read_item, read_record. cbn [recType recData frame]. destruct it as [t data]. cbn [fst snd] in *.
  destruct (Z.eqb_spec t crcType) as [->|Hne].
  - assert (data = None) as -> by by apply Hp. unfold updateCRC, Validate, frame. cbn.
    rewrite crc_Update_nil by done. destruct Hd as [->|[_ ->]]; [|done].
    rewrite Z.eqb_refl, andb_false_r. done.
  - destruct Hd as [->|[? _]]; [|done].
    repeat (destruct (_ =? _); [|]); try done.
    + destruct (MustUnmarshal data) as [e|]; [|done]. cbn [gobind]. destruct (if eIndex e >? _ then _ else _); done.
    + by destruct (MustUnmarshal data).
    + by destruct (_ && _).
    + destruct (MustUnmarshal data) as [sn|]; [|done]. cbn [gobind].
      destruct (_ =? _); [|done]. by destruct (negb _).
Qed.

(** The loop over records that are all accepted. *)
Fixpoint reads (items : list item) s s' : Prop :=
  match items with
  | [] => s = s'
  | it :: items' => exists s1, read_item grow start it s = Ok (inl s1) /\ reads items' s1 s'
  end.

Lemma reads_app i1 i2 s1 s2 s3 : reads i1 s1 s2 -> reads i2 s2 s3 -> reads (i1 ++ i2) s1 s3.
Proof using.
  revert s1. induction i1 as [|it i1 IH]; intros s1; simpl; [by intros ->|].
  intros (s & Hs & H) H2. eauto.
Qed.

Lemma read_loop_stream f items crc s s' t :
  is_u32 crc -> Forall item_fits items -> Forall plain_crc items -> reads items s s' ->
  read_loop grow (length items + f) start (mkDecoder (stream crc items ++ t) crc) s =
  read_loop grow f start (mkDecoder t (end_crc crc items)) s'.
Proof using.
  intros Hc Hf Hp. revert crc s Hc. induction items as [|it items IH]; intros crc s Hc Hr.
  { by simpl in Hr; subst. }
  apply Forall_cons in Hf as [Hf1 Hf]. apply Forall_cons in Hp as [Hp1 Hp]. destruct Hr as (s1 & Hs1 & Hr).
  cbn [length Nat.add read_loop stream]. rewrite <- app_assoc, decode_frame by auto. gosimpl.
  rewrite read_record_frame by auto. rewrite Hs1. gosimpl.
  rewrite IH; [done..|apply crc_Update_range|done].
Qed.

(** The first record of a file brings the sum of the files before it. *)
Lemma read_loop_file f items crc s s' t :
  is_u32 crc -> Forall item_fits items -> Forall plain_crc items ->
  reads ((crcType, None) :: items) s s' ->
  read_loop grow (S (length items) + f) start (mkDecoder (stream crc ((crcType, None) :: items) ++ t) 0) s =
  read_loop grow f start (mkDecoder t (end_crc crc ((crcType, None) :: items))) s'.
Proof using.
  intros Hc Hf Hp (s1 & Hs1 & Hr). cbn [Nat.add read_loop stream].
  rewrite <- app_assoc, decode_frame; [|by split; vm_compute|by right]. gosimpl.
  rewrite read_record_frame; [|done|done|by right]. rewrite Hs1. gosimpl.
  rewrite read_loop_stream with (s' := s'); [done|apply crc_Update_range|done..].
Qed.

(** ** Operations *)

Lemma MustUnmarshal_marshalled {M} `{Wire M} (m : M) (b : list Z) :
  wire_Unmarshal b wire_zero = DOk m -> (MustUnmarshal (Some b) : outcome M) = Ok m.
Proof using. intros E. unfold MustUnmarshal. cbn [default from_option id]. by rewrite E. Qed.

Lemma es_append_ok (es : eslice) k e :
  (es_len es <= length (es_arr es))%nat -> 0 <= k <= Z.of_nat (es_len es) ->
  exists es', es_append grow es k e = Ok es' /\ (es_len es' <= length (es_arr es'))%nat /\
    es_ents es' = take (Z.to_nat k) (es_ents es) ++ [e].
Proof using.
  intros Hl Hk. unfold es_append. zif; [lia|]. set (n := Z.to_nat k). unfold es_ents.
  rewrite take_take, Nat.min_l by lia.
  destruct (Nat.ltb_spec n (length (es_arr es))).
  - eexists. split; [done|]. cbn [es_len es_arr]. rewrite length_insert. split; [lia|].
    rewrite (take_S_r _ n e) by by apply list_lookup_insert_eq. by rewrite take_insert_ge by lia.
  - assert (n = length (es_arr es)) as Hn by lia.
    eexists. split; [done|]. cbn [es_len es_arr]. rewrite length_app. simpl. split; [lia|].
    rewrite Hn. rewrite (take_S_r _ _ e) by by rewrite list_lookup_middle.
    by rewrite take_app_length, take_ge.
Qed.

Definition is_entry_past (i : Z) o : Prop := match o with OpEntry e => i < eIndex e | _ => False end.
#[global] Instance is_entry_past_dec i o : Decision (is_entry_past i o).
Proof. destruct o; simpl; apply _. Defined.

Definition enti_from (i : Z) ops : Z := foldl (fun i o => match o with OpEntry e => eIndex e | _ => i end) i ops.

(** The slice read so far, against the log saved so far. *)
Definition read_inv before s : Prop :=
  (es_len (rs_ents s) <= length (es_arr (rs_ents s)))%nat /\
  (wsIndex start < a_last (rlog (wsIndex start) before) ->
   es_ents (rs_ents s) = after (wsIndex start) (rlog (wsIndex start) before)).

Lemma reads_op before o s :
  slog_ok before -> op_ok before o -> read_inv before s -> is_u64 (wsIndex start) ->
  gapless (wsIndex start) before [o] ->
  (forall sn, o = OpSnap sn -> wsIndex sn = wsIndex start -> wsTerm sn = wsTerm start) ->
  exists s1, read_item grow start (op_item o) s = Ok (inl s1) /\ read_inv (before ++ [o]) s1 /\
    rs_metadata s1 = rs_metadata s /\ rs_state s1 = state_from (rs_state s) [o] /\
    rs_enti s1 = enti_from (rs_enti s) [o] /\
    rs_match s1 = rs_match s || existsb (fun sn => wsIndex sn =? wsIndex start) (snaps [o]) /\
    (~ is_entry_past (wsIndex start) o -> rs_ents s1 = rs_ents s) /\
    es_ents (rs_ents s1) = collect_step (wsIndex start) (es_ents (rs_ents s)) o.
Proof using.
  intros Hok Ho [Hcap Hinv] Hst [Hgap _] Hsn. unfold read_item, read_record. unfold read_inv. rewrite rlog_snoc in *.
  pose proof (slog_step_last _ _ Hok Ho) as Hlast. destruct Ho as [[Hfit Hwf] Hcond].
  assert (maxWALEntrySizeLimit = 10485760) as Hlim by done. pose proof (rlog_off (wsIndex start) before) as Hoff.
  unfold is_u64 in Hst. set (L := rlog (wsIndex start) before) in *. specialize (Hoff ltac:(lia)).
  destruct Hfit as [_ Hfit]. destruct o as [e|st|sn]; cbn [op_item rstep slog_step fst snd default from_option id recType recData] in *;
    rewrite ?Z.eqb_refl; change (stateType =? entryType) with false; change (snapshotType =? _) with false; cbv iota.
  - rewrite (MustUnmarshal_marshalled e) by (apply Entry_decodes; [done|lia]).
    gosimpl. destruct Hcond as (He & Hm & Hse). zif.
    + u64_simp. set (k := eIndex e - wsIndex start - 1). specialize (Hgap ltac:(lia)).
      assert (0 <= k <= Z.of_nat (es_len (rs_ents s)) /\
        take (Z.to_nat k) (es_ents (rs_ents s)) = take (Z.to_nat k) (after (wsIndex start) L)) as [Hk Ht].
      { destruct (decide (wsIndex start < a_last L)) as [Hlt|Hge].
        - rewrite (Hinv Hlt). split; [|done]. pose proof (f_equal length (Hinv Hlt)) as HL.
          unfold es_ents, after in HL. rewrite length_take, length_drop in HL. unfold a_last in *. lia.
        - assert (k = 0) as -> by lia. split; [lia|done]. }
      destruct (es_append_ok (rs_ents s) k e Hcap Hk) as (es' & -> & Hcap' & Hents).
      gosimpl. eexists. split; [done|]. cbn. split_and!; try done; [|by rewrite orb_false_r|by rewrite Hents; zif; [|lia]].
      intros _. cbn [rs_ents upd]. rewrite Hents, Ht, after_append by lia. done.
    + gosimpl. eexists. split; [done|]. cbn. split_and!; try done; [|by rewrite orb_false_r|by zif; [lia|]].
      unfold L. rewrite rlog_slog, Hlast; [lia|]. eapply Forall_impl; [exact Hse|]. simpl. lia.
  - destruct Hwf as [Hwf _]. rewrite (MustUnmarshal_marshalled st) by (apply HardState_decodes; [done|lia]).
    eexists. split; [done|]. cbn. split_and!; try done. by rewrite orb_false_r.
  - rewrite (MustUnmarshal_marshalled sn) by (apply WalSnapshot_decodes; [done|lia]).
    assert (wsIndex start < a_last (if (a_last L <? wsIndex sn) && (wsIndex sn <=? wsIndex start) then mkAlog (wsIndex sn) (wsTerm sn) [] else L) ->
      (if (a_last L <? wsIndex sn) && (wsIndex sn <=? wsIndex start) then mkAlog (wsIndex sn) (wsTerm sn) [] else L) = L) as Hstay.
    { zcase; [|done]. zcase; [|done]. unfold a_last at 1. simpl. lia. }
    gosimpl. destruct (Z.eqb_spec (wsIndex sn) (wsIndex start)) as [E|E].
    + rewrite (proj2 (Z.eqb_eq (wsTerm sn) (wsTerm start))) by by apply Hsn. cbn [negb]. eexists. split; [done|]. cbn [rs_ents rs_metadata rs_state rs_enti rs_match upd].
      split_and!; try done; [|by cbn; rewrite E, Z.eqb_refl, orb_true_r].
      intros H. rewrite (Hstay H). apply Hinv. by rewrite (Hstay H) in H.
    + eexists. split; [done|]. cbn [rs_ents rs_metadata rs_state rs_enti rs_match upd].
      split_and!; try done; [|by cbn; rewrite (proj2 (Z.eqb_neq _ _)), !orb_false_r].
      intros H. rewrite (Hstay H). apply Hinv. by rewrite (Hstay H) in H.
Qed.

Lemma reads_ops before ops s :
  slog_ok before -> ops_ok before ops -> read_inv before s -> is_u64 (wsIndex start) ->
  gapless (wsIndex start) before ops ->
  Forall (fun sn => wsIndex sn = wsIndex start -> wsTerm sn = wsTerm start) (snaps ops) ->
  exists s1, reads (op_item <$> ops) s s1 /\ read_inv (before ++ ops) s1 /\
    rs_metadata s1 = rs_metadata s /\ rs_state s1 = state_from (rs_state s) ops /\
    rs_enti s1 = enti_from (rs_enti s) ops /\
    rs_match s1 = rs_match s || existsb (fun sn => wsIndex sn =? wsIndex start) (snaps ops) /\
    (Forall (fun o => ~ is_entry_past (wsIndex start) o) ops -> rs_ents s1 = rs_ents s) /\
    es_ents (rs_ents s1) = collected (wsIndex start) (es_ents (rs_ents s)) ops.
Proof using.
  intros Hok Hops Hinv Hst. revert before s Hok Hops Hinv. induction ops as [|o ops IH]; intros before s Hok Hops Hinv Hgap Hsn.
  { exists s. simpl. rewrite app_nil_r, orb_false_r. done. }
  destruct Hops as [Ho Hops]. change (o :: ops) with ([o] ++ ops) in *. rewrite app_assoc in *.
  apply gapless_app in Hgap as [Hgap1 Hgap]. rewrite snaps_app in *. apply Forall_app in Hsn as [Hsn1 Hsn].
  pose proof (slog_ok_snoc before o Hok Ho) as Hok1.
  destruct (reads_op before o s) as (s1 & Hr1 & Hinv1 & Hmd & Hs & Hen & Hma & Hents & Hcol); try done.
  { intros sn ->. simpl in Hsn1. by rewrite Forall_singleton in Hsn1. }
  destruct (IH (before ++ [o]) s1) as (s2 & Hr2 & Hinv2 & Hmd2 & Hs2 & Hen2 & Hma2 & Hents2 & Hcol2); try done.
  exists s2. split_and!; try done.
  - cbn [app fmap list_fmap]. exists s1. done.
  - by rewrite Hmd2.
  - by rewrite Hs2, Hs.
  - by rewrite Hen2, Hen.
  - by rewrite Hma2, Hma, existsb_app, orb_assoc.
  - intros [Hn Hall]%Forall_app. rewrite Hents2 by done. apply Hents. by rewrite Forall_singleton in Hn.
  - by rewrite Hcol2, Hcol.
Qed.
End reading.
