(* ===== verification/WalFiles.v ===== *)
(** * The files of the write-ahead log in their directory

    The names of the log's files sort by their sequence numbers, and other
    files in the directory do not matter.  [dir_is c L] says that the log's
    files in [c], in order, are [L]; the system calls are followed on [L]. *)

From S2P Require Import Prelude RaftPB Proto RaftCodec Storage StorePB WalPB OrderedMap FileSys Wal.

Lemma parse_walName seq index : is_u64 seq -> is_u64 index -> parseWalName (walName seq index) = Some (seq, index).
Proof.
  intros Hs Hi. unfold parseWalName, walName.
  rewrite !(assoc_L (++)), HasSuffix_app, <- !(assoc_L (++)). cbn [negb].
  rewrite Sscanf_Sprintf by done. rewrite Sscanf_lit_app, Sscanf_Sprintf by done.
  by rewrite <- (app_nil_r wal_suffix), Sscanf_lit_app.
Qed.

Lemma parse_no_suffix name : (forall p, name <> p ++ wal_suffix) -> parseWalName name = None.
Proof. intros H. unfold parseWalName. by rewrite HasSuffix_false. Qed.

(** The names the code puts next to the log's files. *)
Lemma parse_tmp name : parseWalName (name ++ tmp_suffix) = None.
Proof.
  apply parse_no_suffix. intros p E. apply (f_equal last) in E.
  unfold tmp_suffix, wal_suffix in E. rewrite !last_app in E. done.
Qed.

Lemma parse_broken name : parseWalName (name ++ broken_suffix) = None.
Proof.
  apply parse_no_suffix. intros p E. apply (f_equal last) in E.
  unfold broken_suffix, wal_suffix in E. rewrite !last_app in E. done.
Qed.

(** Names are in the order of the sequence numbers. *)
Lemma walName_lt s1 i1 s2 i2 : is_u64 s1 -> is_u64 s2 -> s1 < s2 -> bytes_lt (walName s1 i1) (walName s2 i2).
Proof.
  intros H1 H2 Hlt. unfold bytes_lt, walName, Sprintf_016x.
  rewrite bytes_compare_app_2 by by rewrite !hex_length.
  rewrite hex_compare by done. by apply Z.compare_lt_iff in Hlt as ->.
Qed.

(** ** The log's files of a directory *)

Definition is_wal (n : list Z) : Prop := parseWalName n <> None.
Implicit Types (L A : list (list Z * file)) (c : dir) (n : list Z) (f : file).

Definition dir_is c L : Prop :=
  StronglySorted bytes_lt L.*1 /\ Forall is_wal L.*1 /\
  forall n f, is_wal n -> c !! n = Some f <-> (n, f) ∈ L.

Lemma dir_is_names c L : dir_is c L -> checkWalNames (ReadDir c) = L.*1.
Proof.
  intros (Hs & Hw & Hl). unfold checkWalNames, ReadDir. rewrite filter_fst. f_equal.
  apply sorted_items_eq; [apply sorted_filter, om_items_sorted|done|].
  intros [n f]. rewrite list_elem_of_filter, om_items_get. cbn. split.
  - intros [Hn Hg]. by apply Hl.
  - intros Hin. assert (is_wal n) as Hn.
    { rewrite Forall_forall in Hw. apply Hw. by apply (list_elem_of_fmap_2 fst) in Hin. }
    split; [done|]. by apply Hl.
Qed.

Lemma dir_is_lookup c L n f : dir_is c L -> (n, f) ∈ L -> c !! n = Some f.
Proof.
  intros (_ & Hw & Hl) Hin. apply Hl; [|done].
  rewrite Forall_forall in Hw. apply Hw. by apply (list_elem_of_fmap_2 fst) in Hin.
Qed.

Lemma dir_is_data c L : dir_is c L -> (fun n => fdata n c) <$> L.*1 = (fun p => f_data p.2) <$> L.
Proof.
  intros Hd. rewrite <- list_fmap_compose. apply list_fmap_ext. intros i [n f] Hi.
  apply list_elem_of_lookup_2 in Hi. unfold compose, fdata. cbn. by rewrite (dir_is_lookup c L n f).
Qed.

(** A file that is not one of the log's. *)
Lemma dir_is_other c c' L : dir_is c L -> (forall n, is_wal n -> c' !! n = c !! n) -> dir_is c' L.
Proof. intros (Hs & Hw & Hl) Hc. split_and!; [done..|]. intros n f Hn. by rewrite Hc, Hl. Qed.

(** The last file changes. *)
Lemma dir_is_last c A n f f' : dir_is c (A ++ [(n, f)]) -> dir_is (<[n := f']> c) (A ++ [(n, f')]).
Proof.
  intros (Hs & Hw & Hl). assert ((A ++ [(n, f')]).*1 = (A ++ [(n, f)]).*1) as E by by rewrite !fmap_app.
  split_and!; [by rewrite E..|]. intros n1 f1 Hn1. assert (n ∉ A.*1) as Hnin.
  { rewrite fmap_app in Hs. apply sorted_NoDup, NoDup_app in Hs as (_ & Hd & _). intros Hin. apply (Hd n Hin). by left. }
  destruct (decide (n1 = n)) as [->|Hne].
  - rewrite lookup_insert_eq, elem_of_app, list_elem_of_singleton. split.
    + intros [= ->]. by right.
    + intros [Hin|[= ->]]; [|done]. destruct Hnin. by apply (list_elem_of_fmap_2 fst) in Hin.
  - rewrite lookup_insert_ne, Hl by done. rewrite !elem_of_app, !list_elem_of_singleton. naive_solver.
Qed.

(** A file is added behind the others. *)
Lemma dir_is_snoc c A n f : dir_is c A -> is_wal n -> Forall (fun m => bytes_lt m n) A.*1 ->
  dir_is (<[n := f]> c) (A ++ [(n, f)]).
Proof.
  intros (Hs & Hw & Hl) Hn Hlt. assert (n ∉ A.*1) as Hnin.
  { intros Hin. rewrite Forall_forall in Hlt. by apply (bytes_lt_irrefl n), Hlt. }
  rewrite Forall_forall in Hlt. split_and!.
  - rewrite fmap_app. apply StronglySorted_app. split_and!; [|done|by repeat constructor].
    cbn. intros x1 x2 Hx1 ->%list_elem_of_singleton. by apply Hlt.
  - rewrite fmap_app. apply Forall_app. split; [done|]. by apply Forall_singleton.
  - intros n1 f1 Hn1. rewrite elem_of_app, list_elem_of_singleton. destruct (decide (n1 = n)) as [->|Hne].
    + rewrite lookup_insert_eq. split; [intros [= ->]; by right|].
      intros [Hin|[= ->]]; [|done]. destruct Hnin. by apply (list_elem_of_fmap_2 fst) in Hin.
    + rewrite lookup_insert_ne, Hl by done. naive_solver.
Qed.

(** ** System calls *)

Lemma dir_is_fwrite c A n f b : dir_is c (A ++ [(n, f)]) ->
  dir_is (fwrite n b c) (A ++ [(n, mkFile (f_data f ++ b) (f_synced f))]).
Proof.
  intros Hd. unfold fwrite. rewrite (dir_is_lookup _ _ n f Hd) by (apply elem_of_app; right; by left).
  by eapply dir_is_last.
Qed.

Lemma dir_is_fsync c A n f : dir_is c (A ++ [(n, f)]) ->
  dir_is (fsync n c) (A ++ [(n, mkFile (f_data f) (length (f_data f)))]).
Proof.
  intros Hd. unfold fsync. rewrite (dir_is_lookup _ _ n f Hd) by (apply elem_of_app; right; by left).
  by eapply dir_is_last.
Qed.

Lemma dir_is_ftruncate c A n f k : dir_is c (A ++ [(n, f)]) ->
  dir_is (ftruncate n k c) (A ++ [(n, mkFile (take k (f_data f)) (Nat.min k (f_synced f)))]).
Proof.
  intros Hd. unfold ftruncate. rewrite (dir_is_lookup _ _ n f Hd) by (apply elem_of_app; right; by left).
  by eapply dir_is_last.
Qed.

Lemma other_ne n n1 : parseWalName n = None -> is_wal n1 -> n <> n1.
Proof. by intros ? ? ->. Qed.

Lemma dir_is_fcreate_trunc c L n : parseWalName n = None -> dir_is c L -> dir_is (fcreate_trunc n c) L.
Proof.
  intros Hn Hd. eapply dir_is_other; [done|]. intros n1 Hn1. unfold fcreate_trunc.
  rewrite lookup_insert_ne; [done|]. by eapply other_ne.
Qed.

Lemma dir_is_fwrite_other c L n b : parseWalName n = None -> dir_is c L -> dir_is (fwrite n b c) L.
Proof.
  intros Hn Hd. eapply dir_is_other; [done|]. intros n1 Hn1. unfold fwrite.
  destruct (c !! n); [|done]. rewrite lookup_insert_ne; [done|]. by eapply other_ne.
Qed.

Lemma dir_is_fsync_other c L n : parseWalName n = None -> dir_is c L -> dir_is (fsync n c) L.
Proof.
  intros Hn Hd. eapply dir_is_other; [done|]. intros n1 Hn1. unfold fsync.
  destruct (c !! n); [|done]. rewrite lookup_insert_ne; [done|]. by eapply other_ne.
Qed.

Lemma dir_is_frename c A old n f : parseWalName old = None -> is_wal n -> c !! old = Some f ->
  dir_is c A -> Forall (fun m => bytes_lt m n) A.*1 -> dir_is (frename old n c) (A ++ [(n, f)]).
Proof.
  intros Ho Hn Hf Hd Hlt. unfold frename. rewrite Hf. apply dir_is_snoc; [|done..].
  eapply dir_is_other; [done|]. intros n1 Hn1. rewrite lookup_delete_ne; [done|]. by eapply other_ne.
Qed.

(** ** Crashes *)

Definition full (f : file) : Prop := f_synced f = length (f_data f).

Lemma torn_full f f' : full f -> torn f f' -> f' = f.
Proof.
  intros Hf (k & Hk & ->). destruct f as [data syn]. unfold full in *. cbn in *. subst.
  by rewrite take_ge by lia.
Qed.

Lemma dir_is_crashed c c' A n f : dir_is c (A ++ [(n, f)]) -> Forall full A.*2 -> crashed c c' ->
  exists f', torn f f' /\ dir_is c' (A ++ [(n, f')]).
Proof.
  intros Hd HA Hc. pose proof (dir_is_lookup _ _ n f Hd ltac:(apply elem_of_app; right; by left)) as Hn.
  pose proof (Hc n) as Hcn. rewrite Hn in Hcn. destruct (c' !! n) as [f'|] eqn:Hn'; [|done].
  exists f'. split; [done|]. assert (dir_is (<[n := f']> c) (A ++ [(n, f')])) as Hd' by by eapply dir_is_last.
  eapply dir_is_other; [exact Hd'|]. intros n1 Hn1. destruct (decide (n1 = n)) as [->|Hne].
  { by rewrite lookup_insert_eq. }
  rewrite lookup_insert_ne by done. pose proof (Hc n1) as Hc1.
  destruct (c !! n1) as [f1|] eqn:E1, (c' !! n1) as [f1'|]; try done. f_equal.
  apply torn_full; [|done]. destruct Hd as (_ & _ & Hl). apply Hl in E1; [|done].
  apply elem_of_app in E1 as [Hin|[= -> ->]%list_elem_of_singleton]; [|done].
  rewrite Forall_forall in HA. apply HA. by apply (list_elem_of_fmap_2 snd) in Hin.
Qed.

(** ** Following a property through the calls *)

(** [P] holds of every directory the disk went through. *)
Definition always (P : dir -> Prop) (d : disk) : Prop := Forall P (dk_past d) /\ P (dk_dir d).

Lemma always_sys P call d : always P d -> P (call (dk_dir d)) -> always P (sys call d).
Proof. intros [Hp Hc] Hn. split; [|done]. apply Forall_app. split; [done|]. by apply Forall_singleton. Qed.

Lemma always_impl (P Q : dir -> Prop) d : (forall c, P c -> Q c) -> always P d -> always Q d.
Proof. intros H [Hp Hc]. split; [by eapply Forall_impl|auto]. Qed.

Lemma always_crash P d c : always P d -> crash d c -> exists c0, P c0 /\ crashed c0 c.
Proof.
  intros [Hp Hc] (c0 & Hin & Hcr). exists c0. split; [|done].
  apply elem_of_app in Hin as [Hin|Hin]; [rewrite Forall_forall in Hp; auto|].
  apply list_elem_of_singleton in Hin as ->. done.
Qed.
