(* ===== verification/WalSegs.v ===== *)
(** * Opening, reading and repairing the write-ahead log

    The log is a list of segments, one per file.  A segment starts with the
    sum of the files before it, the metadata and the hard state at the time
    it was cut, and goes on with operations.  An [origin] is what came before
    a segment: reading may start at any segment whose index is not above the
    snapshot it is opened at, and finds there everything it needs. *)

From S2P Require Import Prelude RaftPB Proto RaftCodec Storage Unstable RaftLog Progress Raft RawNode.
From S2P Require Import StorePB WalPB OrderedMap FileSys Wal WalStream WalLog WalFiles.

Record seg := mkSeg {
  sg_seq : Z;
  sg_index : Z;
  sg_crc : Z;
  sg_state : option HardState;
  sg_ops : list wop;
}.
Record origin := mkOrigin {
  og_ops : list wop;
  og_crc : Z;
  og_seq : Z;
  og_index : Z;
}.
Definition origin0 : origin := mkOrigin [] 0 0 0.
Implicit Types (sg cur : seg) (segs closed : list seg) (og : origin).

Definition seg_name sg : list Z := walName (sg_seq sg) (sg_index sg).
Definition all_ops segs : list wop := concat (sg_ops <$> segs).

(** The hard state written at the head of a new file. *)
Definition head_state (before : list wop) : option HardState :=
  if IsEmptyHardState (last_state before) then None else Some (last_state before).

Lemma all_ops_app s1 s2 : all_ops (s1 ++ s2) = all_ops s1 ++ all_ops s2.
Proof. unfold all_ops. by rewrite fmap_app, concat_app. Qed.

Lemma all_ops_one sg : all_ops [sg] = sg_ops sg.
Proof. unfold all_ops. cbn. by rewrite app_nil_r. Qed.

(** The last hard state is empty only where none was saved. *)
Lemma state_from_cases before st ops : ops_ok before ops ->
  state_from st ops = st \/ HardState_wf (state_from st ops) /\ IsEmptyHardState (state_from st ops) = false.
Proof.
  revert before st. induction ops as [|o ops IH]; intros before st; [by left|]. intros [Ho Hops].
  destruct (IH _ (match o with OpState s => s | _ => st end) Hops) as [E|E]; [|by right].
  unfold state_from in *. cbn [foldl]. rewrite E. destruct o as [e|s|s]; [by left| |by left].
  right. destruct Ho as [[_ Hs] _]. done.
Qed.

Lemma last_state_empty before : ops_ok [] before -> IsEmptyHardState (last_state before) = true -> last_state before = HardState0.
Proof. intros Hok E. destruct (state_from_cases [] HardState0 before Hok) as [?|[_ ?]]; unfold last_state in *; congruence. Qed.

Section segs.
  Context (md : option (list Z)).

Definition head sg : list item :=
  (crcType, None) :: (metadataType, md) ::
  match sg_state sg with Some s => [op_item (OpState s)] | None => [] end.
Definition seg_items sg : list item := head sg ++ (op_item <$> sg_ops sg).
Definition seg_bytes sg : list Z := stream (sg_crc sg) (seg_items sg).
Definition seg_file sg : list Z * file := (seg_name sg, mkFile (seg_bytes sg) (length (seg_bytes sg))).

Definition next_origin og sg : origin :=
  mkOrigin (og_ops og ++ sg_ops sg) (end_crc (og_crc og) (seg_items sg)) (og_seq og + 1)
    (a_last (slog (og_ops og ++ sg_ops sg)) + 1).

Definition origin_ok og : Prop :=
  ops_ok [] (og_ops og) /\ is_u32 (og_crc og) /\ 0 <= og_seq og /\ 0 <= og_index og <= a_last (slog (og_ops og)) + 1 /\
  (og_ops og = [] /\ og_index og = 0 \/ og_index og = a_last (slog (og_ops og)) + 1).

Fixpoint segs_ok og segs : Prop :=
  match segs with
  | [] => True
  | sg :: segs' =>
      (sg_seq sg = og_seq og /\ og_seq og < two64 /\ sg_index sg = og_index og /\ sg_crc sg = og_crc og /\
       sg_state sg = head_state (og_ops og) /\ ops_ok (og_ops og) (sg_ops sg)) /\
      segs_ok (next_origin og sg) segs'
  end.

Hypothesis Hmd : item_fits (metadataType, md).

Lemma origin_slog og : origin_ok og -> slog_ok (og_ops og).
Proof using. intros (Hops & _). rewrite <- (app_nil_l (og_ops og)). apply slog_ok_app; [apply slog_ok_nil|done]. Qed.

Lemma origin0_ok : origin_ok origin0.
Proof using. unfold origin_ok, origin0. cbn. split_and!; try done. by left. Qed.

Lemma next_origin_ok og sg : origin_ok og -> ops_ok (og_ops og) (sg_ops sg) -> origin_ok (next_origin og sg).
Proof using.
  intros Hog Hops. pose proof (origin_slog og Hog) as Hs. destruct Hog as (H1 & H2 & H3 & _). unfold next_origin.
  assert (ops_ok [] (og_ops og ++ sg_ops sg)) as H1' by (apply ops_ok_app; done).
  destruct (slog_ok_app _ _ Hs Hops) as ((? & _ & _) & _).
  unfold origin_ok. cbn [og_ops og_crc og_seq og_index]. split_and!; [done|by apply end_crc_range|lia|unfold a_last; lia|lia|by right].
Qed.

Definition origin_after og segs : origin := foldl next_origin og segs.

Lemma origin_after_app og s1 s2 : origin_after og (s1 ++ s2) = origin_after (origin_after og s1) s2.
Proof using. apply foldl_app. Qed.

Lemma segs_ok_app og s1 s2 : segs_ok og (s1 ++ s2) <-> segs_ok og s1 /\ segs_ok (origin_after og s1) s2.
Proof using.
  revert og. induction s1 as [|sg s1 IH]; intros og; simpl; [tauto|]. rewrite IH. tauto.
Qed.

Lemma origin_after_ok og segs : origin_ok og -> segs_ok og segs -> origin_ok (origin_after og segs).
Proof using.
  revert og. induction segs as [|sg segs IH]; intros og Hog; [done|]. intros [Hsg Hsegs].
  apply IH; [|done]. apply next_origin_ok; [done|apply Hsg].
Qed.

Lemma origin_after_ops og segs : og_ops (origin_after og segs) = og_ops og ++ all_ops segs.
Proof using.
  revert og. induction segs as [|sg segs IH]; intros og; simpl; [by rewrite app_nil_r|].
  unfold origin_after in *. rewrite IH. cbn. by rewrite <- app_assoc.
Qed.

Lemma ops_of_segs og segs : segs_ok og segs -> ops_ok (og_ops og) (all_ops segs).
Proof using.
  revert og. induction segs as [|sg segs IH]; intros og; [done|]. intros [Hsg Hsegs].
  change (sg :: segs) with ([sg] ++ segs). rewrite all_ops_app, all_ops_one. apply ops_ok_app.
  split; [apply Hsg|]. by apply (IH (next_origin og sg)).
Qed.

Lemma op_fits before ops : ops_ok before ops -> Forall item_fits (op_item <$> ops) /\ Forall plain_crc (op_item <$> ops).
Proof using.
  revert before. induction ops as [|o ops IH]; intros before; [done|]. intros [Ho Hops]. cbn.
  destruct (IH _ Hops). split; constructor; try done; [apply Ho|]. by destruct o.
Qed.

Lemma crc_fits : item_fits (crcType, None).
Proof using. by split; vm_compute. Qed.

Lemma state_fits st : HardState_wf st -> item_fits (op_item (OpState st)).
Proof using.
  intros Hwf. split; [done|]. assert (maxWALEntrySizeLimit = 10485760) as -> by done. cbn [op_item snd default from_option id].
  rewrite HardState_len by done. destruct Hwf as (_ & _ & _ & Hx). unfold HardState_Size. rewrite Hx. cbn [size_unrecognized].
  pose proof (sovRaft_bound (hsTerm st)). pose proof (sovRaft_bound (hsVote st)). pose proof (sovRaft_bound (hsCommit st)). lia.
Qed.

Lemma head_state_wf before st : ops_ok [] before -> head_state before = Some st -> HardState_wf st /\ st = last_state before /\ IsEmptyHardState st = false.
Proof using.
  intros Hok. unfold head_state. destruct (IsEmptyHardState (last_state before)) eqn:E; [done|]. intros [= <-].
  destruct (state_from_cases [] HardState0 before Hok) as [E1|[? ?]]; [|done].
  unfold last_state in *. by rewrite E1 in E.
Qed.

Lemma seg_fits og sg : origin_ok og -> segs_ok og [sg] ->
  Forall item_fits (seg_items sg) /\ Forall plain_crc (seg_items sg).
Proof using Hmd.
  intros (Hog & _) [(_ & _ & _ & _ & Hst & Hops) _]. unfold seg_items, head. destruct (op_fits _ _ Hops).
  split; (apply Forall_app; split; [|done]); (constructor; [|constructor]); try apply crc_fits; try done.
  - rewrite Hst. destruct (head_state _) as [st|] eqn:E; [|done]. apply Forall_singleton, state_fits.
    by eapply head_state_wf.
  - destruct (sg_state sg); by repeat constructor.
Qed.

Lemma segs_fit og segs : origin_ok og -> segs_ok og segs ->
  Forall item_fits (concat (seg_items <$> segs)) /\ Forall plain_crc (concat (seg_items <$> segs)).
Proof using Hmd.
  revert og. induction segs as [|sg segs IH]; intros og Hog; [done|]. intros [Hsg Hsegs]. cbn [fmap list_fmap concat].
  destruct (seg_fits og sg Hog) as [? ?]; [done|].
  destruct (IH (next_origin og sg)) as [? ?]; [by apply next_origin_ok; [|apply Hsg]|done|].
  split; by apply Forall_app.
Qed.

(** The files of consecutive segments are one stream. *)
Lemma segs_stream og segs : segs_ok og segs -> concat (seg_bytes <$> segs) = stream (og_crc og) (concat (seg_items <$> segs)).
Proof using.
  revert og. induction segs as [|sg segs IH]; intros og; [done|]. intros [Hsg Hsegs]. cbn [fmap list_fmap concat].
  rewrite stream_app, (IH _ Hsegs). unfold seg_bytes. destruct Hsg as (_ & _ & _ & -> & _). done.
Qed.

Lemma origin_after_crc og segs : og_crc (origin_after og segs) = end_crc (og_crc og) (concat (seg_items <$> segs)).
Proof using.
  revert og. induction segs as [|sg segs IH]; intros og; [done|]. cbn [fmap list_fmap concat].
  rewrite end_crc_app. unfold origin_after in *. cbn [foldl]. by rewrite IH.
Qed.

(** ** Names *)

Lemma seg_index_u64 og : origin_ok og -> is_u64 (og_index og).
Proof using.
  intros Hog. pose proof (origin_slog og Hog) as ((_ & Hm & _) & _). destruct Hog as (_ & _ & _ & ? & _). unfold is_u64. lia.
Qed.

Lemma segs_parse og segs : origin_ok og -> segs_ok og segs ->
  Forall (fun sg => parseWalName (seg_name sg) = Some (sg_seq sg, sg_index sg)) segs.
Proof using.
  revert og. induction segs as [|sg segs IH]; intros og Hog; [done|]. intros [Hsg Hsegs]. constructor.
  - pose proof (seg_index_u64 og Hog). destruct Hog as (_ & _ & ? & _). destruct Hsg as (E1 & ? & E2 & _).
    apply parse_walName; unfold is_u64 in *; rewrite ?E1, ?E2; lia.
  - apply (IH (next_origin og sg)); [|done]. apply next_origin_ok; [done|apply Hsg].
Qed.

Lemma origin_after_seq og segs : og_seq (origin_after og segs) = og_seq og + zlen segs.
Proof using.
  revert og. induction segs as [|sg segs IH]; intros og; [simpl; lia|]. unfold origin_after in *. cbn [foldl].
  rewrite IH. cbn. lia.
Qed.

(** The name of the next file is behind all others. *)
Lemma next_name_lt og segs index : origin_ok og -> segs_ok og segs -> og_seq (origin_after og segs) < two64 ->
  Forall (fun n => bytes_lt n (walName (og_seq (origin_after og segs)) index)) (seg_name <$> segs).
Proof using.
  intros Hog. rewrite origin_after_seq. pose proof Hog as (_ & _ & Hseq & _). intros Hok Hlt.
  apply Forall_fmap, Forall_forall. intros sg (i & Hi)%list_elem_of_lookup.
  pose proof (lookup_lt_Some _ _ _ Hi). apply (take_drop_middle _ _ _) in Hi as Hd. rewrite <- Hd in Hok.
  apply segs_ok_app in Hok as [_ [(E1 & ? & _) _]]. rewrite origin_after_seq, length_take in *.
  apply walName_lt; unfold is_u64; lia.
Qed.

Lemma searchIndex_loop_spec i segs index :
  (i <= length segs)%nat -> Forall (fun sg => parseWalName (seg_name sg) = Some (sg_seq sg, sg_index sg)) segs ->
  (exists j sg, (j < i)%nat /\ segs !! j = Some sg /\ sg_index sg <= index) ->
  exists k sg, searchIndex_loop i (seg_name <$> segs) index = Ok (Some k) /\ segs !! k = Some sg /\ sg_index sg <= index.
Proof using.
  intros Hi Hp (j & sgj & Hj & Hsj & Hle). induction i as [|i IH]; [lia|]. cbn [searchIndex_loop].
  destruct (lookup_lt_is_Some_2 segs i) as [sg Hsg]; [lia|].
  assert (at_ (seg_name <$> segs) (Z.of_nat i) = Ok (seg_name sg)) as ->.
  { apply at_Ok. split; [lia|]. by rewrite Nat2Z.id, list_lookup_fmap, Hsg. }
  gosimpl. rewrite Forall_forall in Hp. rewrite (Hp sg) by by eapply list_elem_of_lookup_2. zif.
  - by exists i, sg.
  - destruct (decide (j = i)) as [->|Hne]; [|apply IH; lia]. rewrite Hsj in Hsg. injection Hsg as ->. lia.
Qed.

Lemma isValidSeq_segs og segs last : origin_ok og -> segs_ok og segs -> 0 <= last -> last = 0 \/ last = og_seq og - 1 ->
  isValidSeq_loop last (seg_name <$> segs) = Ok true.
Proof using.
  revert og last. induction segs as [|sg segs IH]; intros og last Hog; [done|]. intros Hok Hl0 Hl.
  pose proof (segs_parse og _ Hog Hok) as Hp. apply Forall_cons in Hp as [Hp _]. destruct Hok as [Hsg Hsegs].
  cbn [fmap list_fmap isValidSeq_loop]. rewrite Hp. destruct Hog as (Ho1 & Ho2 & Hseq & Ho3). destruct Hsg as (E1 & Hlt & Hrest). rewrite E1.
  assert (negb (last =? 0) && negb (last =? og_seq og ⊟ 1) = false) as ->.
  { destruct Hl as [->| ->]; [done|]. destruct (Z.eqb_spec (og_seq og - 1) 0); [done|]. cbn [negb andb].
    u64_simp. by rewrite Z.eqb_refl. }
  apply (IH (next_origin og sg)); [|done|lia|right; cbn; lia]. apply next_origin_ok; [done|apply Hrest].
Qed.
End segs.
