(* ===== verification/WalRead.v ===== *)
(** * Reading the write-ahead log back

    A directory that holds the log, perhaps with a torn record at its end:
    [Open] picks the file to start from, [ReadAll] returns the metadata, the
    last hard state and the entries after the snapshot, [Repair] cuts a torn
    record off. *)

From S2P Require Import Prelude RaftPB Proto RaftCodec Storage Unstable RaftLog Progress Raft RawNode.
From S2P Require Import StorePB WalPB OrderedMap FileSys Wal WalStream WalLog WalFiles WalSegs.

Implicit Types (sg cur : seg) (segs closed : list seg) (og : origin).

(** What is left of a record that was not written to its end. *)
Definition torn_tail (crc : Z) (t : list Z) : Prop :=
  t = [] \/ exists it, item_fits it /\ t `prefix_of` frame_bytes crc it /\ t <> frame_bytes crc it.

Lemma decode_tail crc t dcrc : torn_tail crc t ->
  decode (mkDecoder t dcrc) = Ok (inr (if (length t =? 0)%nat then EOF else UnexpectedEOF)).
Proof. intros [->|(it & ? & ? & ?)]; [done|by eapply decode_torn]. Qed.

Section reading.
  Context (md : option (list Z)) (Hmd : item_fits (metadataType, md)).
  Context (grow : nat -> nat) (start : WalSnapshot) (Hstart : is_u64 (wsIndex start)).

(** What reading [ops] after [before] leaves. *)
Record read_done (before ops : list wop) (s s' : rstate) : Prop := {
  rd_inv : read_inv start (before ++ ops) s';
  rd_state : rs_state s' = last_state (before ++ ops);
  rd_match : rs_match s' = rs_match s || existsb (fun sn => wsIndex sn =? wsIndex start) (snaps ops);
  rd_enti : rs_enti s' = enti_from (rs_enti s) ops;
  rd_collected : es_ents (rs_ents s') = collected (wsIndex start) (es_ents (rs_ents s)) ops;
  rd_kept : Forall (fun o => ~ is_entry_past (wsIndex start) o) ops -> rs_ents s' = rs_ents s;
}.

Lemma reads_crc s : read_item grow start (crcType, None) s = Ok (inl s).
Proof using. done. Qed.

Lemma reads_metadata s : rs_metadata s = None \/ rs_metadata s = md ->
  read_item grow start (metadataType, md) s = Ok (inl (s <| rs_metadata := md |>)).
Proof using.
  intros Hm. unfold read_item, read_record. cbn [recType recData fst snd].
  change (metadataType =? entryType) with false. change (metadataType =? stateType) with false.
  rewrite Z.eqb_refl. cbv iota.
  assert (bool_decide (rs_metadata s <> None) && negb (bool_decide (rs_metadata s = md)) = false) as ->; [|done].
  destruct Hm as [->| ->].
  - done.
  - by rewrite (bool_decide_eq_true_2 (md = md)), andb_false_r.
Qed.

Lemma reads_state st s : HardState_wf st ->
  read_item grow start (op_item (OpState st)) s = Ok (inl (s <| rs_state := st |>)).
Proof using.
  intros Hwf. pose proof (state_fits st Hwf) as [_ Hf]. cbn [op_item snd default from_option id] in Hf.
  assert (maxWALEntrySizeLimit = 10485760) as Hlim by done.
  unfold read_item, read_record. cbn [op_item recType recData fst snd].
  change (stateType =? entryType) with false. rewrite Z.eqb_refl. cbv iota.
  by rewrite (MustUnmarshal_marshalled st) by (apply HardState_decodes; [done|lia]).
Qed.

(** The head of a file sets the metadata and the hard state. *)
Lemma reads_head og sg s : origin_ok og -> segs_ok md og [sg] ->
  rs_metadata s = None \/ rs_metadata s = md ->
  rs_state s = HardState0 \/ rs_state s = last_state (og_ops og) ->
  reads grow start (head md sg) s (s <| rs_metadata := md |> <| rs_state := last_state (og_ops og) |>).
Proof using.
  intros Hog [(_ & _ & _ & _ & Hst & _) _] Hm Hs. unfold head. cbn [reads]. eexists. split; [apply reads_crc|].
  eexists. split; [by apply reads_metadata|]. rewrite Hst. destruct (head_state (og_ops og)) as [st|] eqn:E.
  - apply head_state_wf in E as (Hwf & -> & _); [|apply Hog].
    cbn [reads]. eexists. split; [by apply reads_state|done].
  - unfold head_state in E. destruct (IsEmptyHardState _) eqn:E1; [|done].
    apply last_state_empty in E1; [|apply Hog]. rewrite E1 in *. destruct s; cbn in *. by destruct Hs; subst.
Qed.

Lemma reads_seg og sg s : origin_ok og -> segs_ok md og [sg] ->
  gapless (wsIndex start) (og_ops og) (sg_ops sg) ->
  Forall (fun sn => wsIndex sn = wsIndex start -> wsTerm sn = wsTerm start) (snaps (sg_ops sg)) ->
  rs_metadata s = None \/ rs_metadata s = md -> rs_state s = HardState0 \/ rs_state s = last_state (og_ops og) ->
  read_inv start (og_ops og) s ->
  exists s', reads grow start (seg_items md sg) s s' /\ rs_metadata s' = md /\ read_done (og_ops og) (sg_ops sg) s s'.
Proof using Hstart.
  intros Hog Hok Hoff Hsn Hm Hs Hinv. pose proof (origin_slog og Hog) as Hslog.
  pose proof (reads_head og sg s Hog Hok Hm Hs) as Hh. set (s1 := _ <| rs_state := _ |>) in Hh.
  destruct (reads_ops grow start (og_ops og) (sg_ops sg) s1) as (s2 & Hr & H1 & H2 & H3 & H4 & H5 & H6 & H7);
    try done; [apply Hok|]. exists s2. split_and!; [by eapply reads_app|done|].
  constructor; try done. by rewrite H3, last_state_app.
Qed.

Lemma reads_segs og segs s : origin_ok og -> segs_ok md og segs ->
  gapless (wsIndex start) (og_ops og) (all_ops segs) ->
  Forall (fun sn => wsIndex sn = wsIndex start -> wsTerm sn = wsTerm start) (snaps (all_ops segs)) ->
  rs_metadata s = None \/ rs_metadata s = md -> rs_state s = HardState0 \/ rs_state s = last_state (og_ops og) ->
  read_inv start (og_ops og) s -> segs <> [] ->
  exists s', reads grow start (concat (seg_items md <$> segs)) s s' /\ rs_metadata s' = md /\
    read_done (og_ops og) (all_ops segs) s s'.
Proof using Hstart.
  revert og s. induction segs as [|sg segs IH]; intros og s Hog Hok Hgap Hsn Hm Hs Hinv Hne; [done|].
  destruct Hok as [Hsg Hsegs]. change (sg :: segs) with ([sg] ++ segs) in *. rewrite all_ops_app, all_ops_one, snaps_app in *.
  apply gapless_app in Hgap as [Hgap1 Hgap2].
  apply Forall_app in Hsn as [Hsn1 Hsn2]. pose proof (next_origin_ok md og sg Hog ltac:(apply Hsg)) as Hog2.
  pose proof (origin_slog _ Hog2) as Hslog2. cbn [next_origin og_ops] in Hslog2.
  destruct (reads_seg og sg s) as (s1 & Hr1 & Hmd1 & Hd1); try done.
  destruct (decide (segs = [])) as [->|Hne2].
  { exists s1. cbn [fmap list_fmap concat app]. rewrite !app_nil_r. done. }
  destruct (IH (next_origin md og sg) s1) as (s2 & Hr2 & Hmd2 & Hd2); try done.
  { by right. }
  { right. apply Hd1. }
  { apply Hd1. }
  exists s2. split_and!; [cbn [app fmap list_fmap concat]; by eapply reads_app|done|].
  cbn [next_origin og_ops] in Hd2. destruct Hd1, Hd2. rewrite <- app_assoc in *. constructor; try done.
  - rewrite rd_match1, rd_match0, snaps_app, existsb_app. by rewrite orb_assoc.
  - rewrite rd_enti1, rd_enti0. unfold enti_from. by rewrite foldl_app.
  - rewrite rd_collected1, rd_collected0. unfold collected. by rewrite foldl_app.
  - intros [? ?]%Forall_app. rewrite rd_kept1, rd_kept0; done.
Qed.

(** ** A directory with the log, perhaps torn at its end *)

Definition view og (c : dir) segs (t : list Z) : Prop :=
  exists closed cur, segs = closed ++ [cur] /\ segs_ok md og segs /\
    dir_is c ((seg_file md <$> closed) ++
      [(seg_name cur, mkFile (seg_bytes md cur ++ t) (length (seg_bytes md cur ++ t)))]) /\
    torn_tail (end_crc (sg_crc cur) (seg_items md cur)) t.

Lemma view_names og c segs t : view og c segs t -> checkWalNames (ReadDir c) = seg_name <$> segs.
Proof using.
  intros (closed & cur & -> & _ & Hd & _). rewrite (dir_is_names _ _ Hd), !fmap_app. f_equal.
  rewrite <- list_fmap_compose. done.
Qed.

Lemma view_data og c s1 s2 t : view og c (s1 ++ s2) t -> s2 <> [] ->
  concat ((fun n => fdata n c) <$> (seg_name <$> s2)) = concat (seg_bytes md <$> s2) ++ t.
Proof using.
  intros (closed & cur & E & _ & Hd & _) Hne.
  destruct s2 as [|cur' s2' _] using rev_ind; [done|].
  rewrite app_assoc in E. apply app_inj_tail in E as [<- <-].
  pose proof (fun n f => dir_is_lookup _ _ n f Hd) as Hl. rewrite !fmap_app, !concat_app. cbn [fmap list_fmap concat].
  rewrite !app_nil_r. unfold fdata at 2.
  rewrite (Hl (seg_name cur') (mkFile (seg_bytes md cur' ++ t) (length (seg_bytes md cur' ++ t)))) by (apply elem_of_app; right; by left).
  cbn [f_data]. rewrite app_assoc. do 2 f_equal. rewrite <- list_fmap_compose. f_equal. apply list_fmap_ext.
  intros i sg Hi. unfold compose, fdata. rewrite (Hl (seg_name sg) (seg_file md sg).2); [done|].
  apply elem_of_app. left. apply (list_elem_of_fmap_2' (seg_file md)) with sg; [|done].
  apply elem_of_app. right. by eapply list_elem_of_lookup_2.
Qed.

(** The file to start from. *)
Lemma open_point og c segs t :
  origin_ok og -> view og c segs t -> og_index og <= wsIndex start ->
  exists s1 s2, segs = s1 ++ s2 /\ s2 <> [] /\ og_index (origin_after md og s1) <= wsIndex start /\
    searchIndex (seg_name <$> segs) (wsIndex start) = Ok (Some (length s1)).
Proof using.
  intros Hog (closed & cur & E & Hok & _) Hidx. pose proof (segs_parse md og segs Hog Hok) as Hp.
  assert (exists j sg, (j < length segs)%nat /\ segs !! j = Some sg /\ sg_index sg <= wsIndex start) as Hex.
  { destruct segs as [|sg segs]; [by destruct closed|]. exists 0%nat, sg. cbn.
    destruct Hok as [(_ & _ & -> & _) _]. split_and!; [lia|done|done]. }
  destruct (searchIndex_loop_spec (length segs) segs (wsIndex start) ltac:(lia) Hp Hex) as (k & sg & Hs & Hk & Hle).
  exists (take k segs), (drop k segs). rewrite take_drop, length_take.
  apply lookup_lt_Some in Hk as Hlt. rewrite Nat.min_l by lia.
  split_and!; [done| | |by unfold searchIndex; rewrite length_fmap].
  - intros H0. apply (f_equal length) in H0. rewrite length_drop in H0. simpl in H0. lia.
  - rewrite <- (take_drop_middle _ _ _ Hk) in Hok. by apply segs_ok_app in Hok as [_ [(_ & _ & <- & _) _]].
Qed.

Lemma Open_spec og d segs t :
  origin_ok og -> view og (dk_dir d) segs t -> og_index og <= wsIndex start ->
  exists s1 s2 cur, segs = s1 ++ s2 /\ s2 <> [] /\ og_index (origin_after md og s1) <= wsIndex start /\
    last segs = Some cur /\
    Open start d = Ok (inl (mkWAL None HardState0 start
      (Some (newDecoder (concat (seg_bytes md <$> s2) ++ t))) (Some (seg_name cur)) (sg_seq cur) 0 None (seg_name <$> s2))).
Proof using.
  intros Hog Hv Hidx. destruct (open_point og _ segs t Hog Hv Hidx) as (s1 & s2 & -> & Hne & Hle & Hs).
  pose proof (view_names _ _ _ _ Hv) as Hn. pose proof (view_data _ _ _ _ _ Hv Hne) as Hdata.
  pose proof Hv as (closed & cur & E & Hok & Hd & _). exists s1, s2, cur.
  split_and!; [done|done|done|by rewrite E, last_snoc|]. unfold Open, openAtIndex. rewrite Hn.
  assert ((length (seg_name <$> s1 ++ s2) =? 0)%nat = false) as ->.
  { rewrite E, length_fmap, length_app. apply Nat.eqb_neq. simpl. lia. }
  rewrite Hs. gosimpl. rewrite <- fmap_drop, drop_app_length.
  apply segs_ok_app in Hok as [Hok1 Hok2]. unfold isValidSeq.
  rewrite (isValidSeq_segs md (origin_after md og s1) s2); [|by apply origin_after_ok|done|done|by left].
  gosimpl. rewrite Hdata. assert (at_ (seg_name <$> s1 ++ s2) (zlen (seg_name <$> s1 ++ s2) - 1) = Ok (seg_name cur)) as ->.
  { rewrite E, fmap_app. apply at_Ok. rewrite length_app, length_fmap. cbn. split; [lia|].
    rewrite lookup_app_r by (rewrite length_fmap; lia). rewrite length_fmap.
    by replace (Z.to_nat _ - _)%nat with 0%nat by lia. }
  gosimpl. assert (segs_ok md og (s1 ++ s2)) as Hokall by (apply segs_ok_app; done).
  pose proof (segs_parse md og (s1 ++ s2) Hog Hokall) as Hp. rewrite E in Hp. apply Forall_app in Hp as [_ Hp].
  rewrite Forall_singleton in Hp. by rewrite Hp.
Qed.

(** Nothing that was overwritten shows after [start]: an entry above it is in
    the log, or none was ever recorded. *)
Definition nothing_stale (R : list wop) : Prop :=
  wsIndex start < a_last (rlog (wsIndex start) R) \/ Forall (fun o => ~ is_entry_past (wsIndex start) o) R.

(** What the log opened at [start] gives back, for the operations [R].  The
    entries follow [start] without a gap, and each was recorded; they begin
    with those of the log after [start], and are these alone when nothing is
    stale.  Otherwise they are entries that were overwritten.  In each case
    they are what the loop collects from the files it reads, before the first
    of which the log did not reach past [start]. *)
Record entries_read (R : list wop) (ents : list Entry) : Prop := {
  er_contiguous : contiguous (wsIndex start + 1) ents;
  er_recorded : Forall (fun e => OpEntry e ∈ R) ents;
  er_log : after (wsIndex start) (rlog (wsIndex start) R) `prefix_of` ents;
  er_exact : nothing_stale R -> ents = after (wsIndex start) (rlog (wsIndex start) R);
  er_files : exists R1 R2, R = R1 ++ R2 /\ a_last (slog R1) <= wsIndex start /\ ents = collected (wsIndex start) [] R2;
}.

Lemma collected_none i l ops : Forall (fun o => ~ is_entry_past i o) ops -> collected i l ops = l.
Proof using.
  revert l. induction ops as [|o ops IH]; intros l Hall; [done|]. apply Forall_cons in Hall as [Ho Hall].
  change (collected i l (o :: ops)) with (collected i (collect_step i l o) ops). rewrite IH by done.
  destruct o; cbn in *; [|done|done]. by zcase.
Qed.

Lemma entries_collected R1 R2 : slog_ok R1 -> ops_ok R1 R2 -> a_last (slog R1) <= wsIndex start ->
  gapless (wsIndex start) R1 R2 -> entries_read (R1 ++ R2) (collected (wsIndex start) [] R2).
Proof using Hstart.
  intros Hok Hops Hlast Hgap. unfold is_u64 in Hstart.
  destruct (collected_spec (wsIndex start) R1 R2 Hok Hops ltac:(lia) Hlast Hgap) as (Hc & Hf & Hl).
  pose proof (rlog_off (wsIndex start) (R1 ++ R2) ltac:(lia)) as Hoff. split; [done| | | |by exists R1, R2].
  - eapply Forall_impl; [exact Hf|]. intros e He. apply elem_of_app. by right.
  - destruct Hl as [Hl| ->]; [|done]. rewrite after_past by done. apply prefix_nil.
  - intros [Hlt|Hall]; [destruct Hl; [lia|done]|]. destruct Hl as [Hl|]; [|done].
    rewrite after_past by done. apply Forall_app in Hall as [_ Hall]. by apply collected_none.
Qed.

Lemma read_inv_start og s : origin_ok og -> og_index og <= wsIndex start ->
  (es_len (rs_ents s) <= length (es_arr (rs_ents s)))%nat -> read_inv start (og_ops og) s.
Proof using Hstart.
  intros Hog Hidx Hcap. split; [done|]. pose proof (origin_slog og Hog) as (_ & Hs & _).
  destruct Hog as (_ & _ & _ & _ & [[-> _]|E]).
  - unfold a_last. cbn. unfold is_u64 in Hstart. lia.
  - rewrite rlog_slog; [lia|]. eapply Forall_impl; [exact Hs|]. simpl. lia.
Qed.

(** The snapshot is recorded in the files that are read. *)
Lemma snap_after og s1 s2 : origin_ok og -> segs_ok md og (s1 ++ s2) ->
  og_index (origin_after md og s1) <= wsIndex start ->
  (exists sn, sn ∈ snaps (og_ops og ++ all_ops (s1 ++ s2)) /\ wsIndex sn = wsIndex start) ->
  existsb (fun sn => wsIndex sn =? wsIndex start) (snaps (all_ops s2)) = true.
Proof using.
  intros Hog Hok Hidx (sn & Hin & Hsn). apply segs_ok_app in Hok as [Hok1 Hok2].
  pose proof (origin_after_ok md og s1 Hog Hok1) as Hog1. pose proof (origin_after_ops md og s1) as Eops.
  apply existsb_exists. exists sn. split; [|by apply Z.eqb_eq]. apply list_elem_of_In.
  rewrite all_ops_app, app_assoc, snaps_app, <- Eops in Hin. apply elem_of_app in Hin as [Hin|Hin]; [|done].
  pose proof (origin_slog _ Hog1) as (_ & Hle & _). rewrite Forall_forall in Hle. specialize (Hle _ Hin).
  destruct Hog1 as (_ & _ & _ & _ & [[E _]|E]); [|lia]. rewrite E in Hin. by apply not_elem_of_nil in Hin.
Qed.

Lemma stream_items crc items : (length items <= length (stream crc items))%nat.
Proof using.
  revert crc. induction items as [|it items IH]; intros crc; [done|]. cbn [stream length].
  rewrite length_app. unfold frame_bytes. rewrite length_app, PutUint64_le_length.
  specialize (IH (recCrc (frame crc it))). lia.
Qed.

Definition rstate0 : rstate := mkRState None HardState0 (mkESlice [] 0) 0 false.

(** The loop of [ReadAll] over the files from [s2] on. *)
Lemma read_loop_segs og s1 s2 t :
  origin_ok og -> segs_ok md og (s1 ++ s2) -> s2 <> [] -> og_index (origin_after md og s1) <= wsIndex start ->
  torn_tail (og_crc (origin_after md og (s1 ++ s2))) t ->
  let R := og_ops og ++ all_ops (s1 ++ s2) in
  gapless (wsIndex start) [] R ->
  Forall (fun sn => wsIndex sn = wsIndex start -> wsTerm sn = wsTerm start) (snaps R) ->
  let bytes := concat (seg_bytes md <$> s2) ++ t in
  exists s', read_loop grow (S (length bytes)) start (newDecoder bytes) rstate0 =
      Ok (s', mkDecoder t (og_crc (origin_after md og (s1 ++ s2))),
          inl (if (length t =? 0)%nat then EOF else UnexpectedEOF)) /\
    rs_metadata s' = md /\ read_done (og_ops og ++ all_ops s1) (all_ops s2) rstate0 s'.
Proof using Hmd Hstart.
  intros Hog Hok Hne Hidx Ht R Hgap Hsn bytes. pose proof Hok as [Hok1 Hok2]%segs_ok_app.
  pose proof (origin_after_ok md og s1 Hog Hok1) as Hog1. pose proof (origin_after_ops md og s1) as Eops.
  unfold R in *. rewrite all_ops_app, app_assoc, snaps_app, <- Eops in *. apply Forall_app in Hsn as [_ Hsn].
  apply gapless_app in Hgap as [_ Hgap].
  destruct (reads_segs (origin_after md og s1) s2 rstate0) as (s' & Hr & Hm & Hd); try done; [by left..| |].
  { by apply read_inv_start. }
  exists s'. split_and!; [|done|done]. rewrite origin_after_app in *. set (og1 := origin_after md og s1) in *.
  destruct (segs_fit md Hmd og1 s2 Hog1 Hok2) as [Hfit Hplain].
  unfold bytes. rewrite (segs_stream md og1 s2 Hok2). rewrite origin_after_crc in *.
  destruct s2 as [|sg s2]; [done|]. cbn [fmap list_fmap concat] in *.
  set (items := seg_items md sg ++ concat (seg_items md <$> s2)) in *.
  assert (exists rest, items = (crcType, None) :: rest) as [rest Erest] by by eexists.
  pose proof (stream_items (og_crc og1) items) as Hlen. rewrite Erest in *.
  apply Forall_cons in Hfit as [_ Hfit]. apply Forall_cons in Hplain as [_ Hplain].
  rewrite length_app. replace (S (_ + length t)) with (S (length rest) + S (length (stream (og_crc og1) ((crcType, None) :: rest)) - S (length rest) + length t))%nat by (cbn [length] in Hlen; lia).
  unfold newDecoder. rewrite (read_loop_file grow start _ rest (og_crc og1) rstate0 s' t); [|apply Hog1|done..].
  cbn [Nat.add read_loop]. by rewrite (decode_tail _ _ _ Ht).
Qed.

(** [Open] and [ReadAll] on a log that ends cleanly. *)
Lemma ReadAll_clean og d segs :
  origin_ok og -> view og (dk_dir d) segs [] -> og_index og <= wsIndex start ->
  let R := og_ops og ++ all_ops segs in
  gapless (wsIndex start) [] R ->
  Forall (fun sn => wsIndex sn = wsIndex start -> wsTerm sn = wsTerm start) (snaps R) ->
  (exists sn, sn ∈ snaps R /\ wsIndex sn = wsIndex start) ->
  exists w w' cur ents, Open start d = Ok (inl w) /\
    ReadAll grow w = Ok (w', (md, last_state R, ents), None) /\ entries_read R ents /\ last segs = Some cur /\
    w_f w' = Some (seg_name cur) /\ w_metadata w' = md /\ w_seq w' = sg_seq cur /\ w_state w' = HardState0 /\
    w_encoder w' = Some (newEncoder (seg_name cur) (og_crc (origin_after md og segs))).
Proof using Hmd Hstart.
  intros Hog Hv Hidx R Hgap Hsn Hex.
  destruct (Open_spec og d segs [] Hog Hv Hidx) as (s1 & s2 & cur & -> & Hne & Hle & Hlast & Hopen).
  pose proof Hv as (closed & cur' & E & Hok & _ & _).
  destruct (read_loop_segs og s1 s2 [] Hog Hok Hne Hle ltac:(by left) Hgap Hsn) as (s' & Hloop & Hm & Hd).
  rewrite app_nil_r in *. eexists _, _, cur, (es_ents (rs_ents s')). split; [exact Hopen|].
  unfold ReadAll. cbn [w_decoder w_enti w_start dc_in newDecoder upd]. unfold rstate0 in Hloop.
  rewrite Hloop. gosimpl. cbn. rewrite Hm. destruct Hd as [Hinv Hst Hma _ Hcol _].
  rewrite Hma, (snap_after og s1 s2 Hog Hok Hle Hex). cbn [orb]. rewrite Hst, <- app_assoc, <- all_ops_app.
  split_and!; try done. cbn in Hcol. rewrite Hcol. apply segs_ok_app in Hok as [Hok1 Hok2].
  pose proof (origin_after_ok md og s1 Hog Hok1) as Hog1. pose proof (origin_after_ops md og s1) as Eops.
  unfold R in *. rewrite all_ops_app, app_assoc, <- Eops in *. apply gapless_app in Hgap as [_ Hgap].
  apply entries_collected; [by apply origin_slog|by apply (ops_of_segs md)| |done].
  destruct Hog1 as (_ & _ & _ & _ & [[-> _]|E']); [|lia]. unfold a_last. cbn. unfold is_u64 in Hstart. lia.
Qed.

(** ... and on one whose last record was torn. *)
Lemma ReadAll_torn og d segs t :
  origin_ok og -> view og (dk_dir d) segs t -> t <> [] -> og_index og <= wsIndex start ->
  let R := og_ops og ++ all_ops segs in
  gapless (wsIndex start) [] R ->
  Forall (fun sn => wsIndex sn = wsIndex start -> wsTerm sn = wsTerm start) (snaps R) ->
  exists w w' cur, Open start d = Ok (inl w) /\ ReadAll grow w = Ok (w', (None, HardState0, []), Some UnexpectedEOF) /\
    last segs = Some cur /\ w_f w' = Some (seg_name cur) /\ w_encoder w' = None.
Proof using Hmd Hstart.
  intros Hog Hv Ht Hidx R Hgap Hsn.
  destruct (Open_spec og d segs t Hog Hv Hidx) as (s1 & s2 & cur & -> & Hne & Hle & Hlast & Hopen).
  pose proof Hv as (closed & cur' & E & Hok & _ & Htail).
  destruct (read_loop_segs og s1 s2 t Hog Hok Hne Hle) as (s' & Hloop & Hm & Hd); try done.
  { rewrite E in *. rewrite origin_after_app. apply segs_ok_app in Hok as [_ [(_ & _ & _ & Hc & _) _]].
    cbn. rewrite <- Hc. done. }
  eexists _, _, cur. split; [exact Hopen|].
  unfold ReadAll. cbn [w_decoder w_enti w_start dc_in newDecoder upd]. unfold rstate0 in Hloop.
  rewrite Hloop. gosimpl. destruct t; [done|]. done.
Qed.

(** ** Repair *)

Lemma Repair_loop_stream f items crc n t :
  is_u32 crc -> Forall item_fits items -> Forall plain_crc items ->
  Repair_loop (length items + f) n (mkDecoder (stream crc items ++ t) crc) =
  Repair_loop f (n + zlen (stream crc items)) (mkDecoder t (end_crc crc items)).
Proof using.
  intros Hc Hf Hp. revert crc n Hc. induction items as [|it items IH]; intros crc n Hc.
  { cbn. f_equal. lia. }
  apply Forall_cons in Hf as [Hf1 Hf]. apply Forall_cons in Hp as [Hp1 Hp].
  cbn [length Nat.add Repair_loop stream]. rewrite <- app_assoc, decode_frame by auto. gosimpl.
  rewrite length_app, Nat2Z.inj_add, frame_bytes_len by apply Hf1. cbn [recType frame].
  assert (end_crc crc (it :: items) = end_crc (recCrc (frame crc it)) items) as -> by done.
  destruct (Z.eqb_spec it.1 crcType) as [E|E].
  - assert (recCrc (frame crc it) = crc) as Ec.
    { unfold frame. cbn. rewrite Hp1 by done. by apply crc_Update_nil. }
    cbn [dc_crc]. unfold Validate. rewrite Ec, Z.eqb_refl, andb_false_r. unfold updateCRC.
    change (_ <| dc_crc := crc |>) with (mkDecoder (stream crc items ++ t) crc).
    rewrite IH by done. f_equal. lia.
  - rewrite IH by (done || apply crc_Update_range). f_equal. lia.
Qed.

Lemma Repair_loop_file f items crc t :
  is_u32 crc -> Forall item_fits items -> Forall plain_crc items ->
  Repair_loop (S (length items) + f) 0 (mkDecoder (stream crc ((crcType, None) :: items) ++ t) 0) =
  Repair_loop f (zlen (stream crc ((crcType, None) :: items))) (mkDecoder t (end_crc crc ((crcType, None) :: items))).
Proof using.
  intros Hc Hf Hp. cbn [Nat.add Repair_loop stream].
  rewrite <- app_assoc, decode_frame; [|apply crc_fits|by right]. gosimpl. cbn [recType frame fst].
  rewrite Z.eqb_refl. cbn [dc_crc]. change (negb (0 =? 0)) with false. cbn [andb]. unfold updateCRC. cbn [dc_crc upd].
  set (fr := frame crc (crcType, None)).
  change (_ <| dc_crc := _ |>) with (mkDecoder (stream (recCrc fr) items ++ t) (recCrc fr)).
  rewrite Repair_loop_stream by (done || apply crc_Update_range).
  rewrite (length_app (frame_bytes _ _)), Nat2Z.inj_add, frame_bytes_len by done. f_equal.
Qed.

(** [Repair] cuts the torn record off. *)
Lemma Repair_spec og d segs t :
  origin_ok og -> view og (dk_dir d) segs t -> t <> [] ->
  exists d', Repair d = Ok (true, d') /\ view og (dk_dir d') segs [] /\
    (Forall (fun c => exists t, view og c segs t) (dk_past d) -> Forall (fun c => exists t, view og c segs t) (dk_past d')).
Proof using Hmd.
  intros Hog Hv Ht. pose proof (view_names _ _ _ _ Hv) as Hn.
  pose proof Hv as (closed & cur & E & Hok & Hd & Htail). unfold Repair, openLast. rewrite Hn, E, fmap_app.
  cbn [fmap list_fmap]. rewrite last_snoc. set (f := seg_name cur).
  assert (fdata f (dk_dir d) = seg_bytes md cur ++ t) as ->.
  { unfold fdata. by rewrite (dir_is_lookup _ _ _ _ Hd) by (apply elem_of_app; right; by left). }
  rewrite E in Hok. pose proof Hok as [Hok1 Hok2]%segs_ok_app.
  pose proof (origin_after_ok md og closed Hog Hok1) as Hog1.
  destruct (seg_fits md Hmd _ cur Hog1 Hok2) as [Hfit Hplain]. destruct Hok2 as [(_ & _ & _ & Hcrc & _) _].
  unfold seg_bytes at 1 2. pose proof (stream_items (sg_crc cur) (seg_items md cur)) as Hlen.
  assert (exists rest, seg_items md cur = (crcType, None) :: rest) as [rest Erest] by by eexists.
  rewrite Erest in *. apply Forall_cons in Hfit as [_ Hfit]. apply Forall_cons in Hplain as [_ Hplain].
  rewrite length_app. replace (S (_ + length t)) with (S (length rest) + S (length (stream (sg_crc cur) ((crcType, None) :: rest)) - S (length rest) + length t))%nat by (cbn [length] in Hlen; lia).
  unfold newDecoder. rewrite Repair_loop_file; [|rewrite Hcrc; apply Hog1|done..].
  cbn [Nat.add Repair_loop]. rewrite (decode_tail _ _ _ Htail). gosimpl.
  destruct (Nat.eqb_spec (length t) 0) as [E0|_]; [by apply nil_length_inv in E0|]. gosimpl.
  assert (parseWalName (f ++ broken_suffix) = None) as Hb by apply parse_broken.
  assert (stream (sg_crc cur) ((crcType, None) :: rest) = seg_bytes md cur) as ->.
  { unfold seg_bytes. by rewrite Erest. }
  pose proof (dir_is_fcreate_trunc _ _ _ Hb Hd) as Hd1.
  pose proof (dir_is_fwrite_other _ _ _ (seg_bytes md cur ++ t) Hb Hd1) as Hd2.
  pose proof (dir_is_ftruncate _ _ _ _ (length (seg_bytes md cur)) Hd2) as Hd3.
  cbn [f_data f_synced] in Hd3. rewrite take_app_length, Nat.min_l in Hd3 by (rewrite length_app; lia).
  pose proof (dir_is_fsync _ _ _ _ Hd3) as Hd4.
  assert (forall c t', dir_is c ((seg_file md <$> closed) ++
      [(seg_name cur, mkFile (seg_bytes md cur ++ t') (length (seg_bytes md cur ++ t')))]) ->
    torn_tail (end_crc (sg_crc cur) (seg_items md cur)) t' -> view og c segs t') as Hview.
  { intros c t' Hc Ht'. exists closed, cur. by rewrite E. }
  rewrite <- Erest in Htail. rewrite Nat2Z.id, <- E. eexists. split; [done|]. cbn [sys dk_dir dk_past]. split.
  - apply Hview; [by rewrite app_nil_r|by left].
  - intros Hpast. repeat (apply Forall_app; split; [|apply Forall_singleton]); try done.
    + by exists t.
    + exists t. by apply Hview.
    + exists t. by apply Hview.
    + exists []. apply Hview; [by rewrite app_nil_r|by left].
Qed.
End reading.
