(* ===== verification/WalWrite.v ===== *)
(** * Writing the write-ahead log

    The invariant of a log that is open for writing, and that saving, syncing
    and cutting keep it.  [survives R1 R2 c] says that a crash in the directory
    [c] loses nothing of the operations [R1] and leaves nothing but operations
    of [R2]; it is shown of every directory between two system calls. *)

From S2P Require Import Prelude RaftPB Proto RaftCodec Storage Unstable RaftLog Progress Raft RawNode.
From S2P Require Import StorePB WalPB OrderedMap FileSys Wal WalStream WalLog WalFiles WalSegs WalRead.

Implicit Types (sg cur : seg) (segs closed : list seg) (og : origin) (w : WAL) (d : disk) (P : dir -> Prop).

(** ** The calls of the encoder on a directory *)

Lemma write_all_raw P n f ws d :
  dk_dir d !! n = Some f -> always P d ->
  (forall p, f_data f `prefix_of` p -> p `prefix_of` f_data f ++ concat ws ->
     P (<[n := mkFile p (f_synced f)]> (dk_dir d))) ->
  let d' := write_all n ws d in
  always P d' /\ dk_dir d' = <[n := mkFile (f_data f ++ concat ws) (f_synced f)]> (dk_dir d).
Proof.
  revert f d. induction ws as [|b ws IH]; intros f d Hf Ha HP; cbn [write_all foldl concat].
  { split; [done|]. rewrite app_nil_r. symmetry. apply insert_id. by destruct f. }
  assert (fwrite n b (dk_dir d) = <[n := mkFile (f_data f ++ b) (f_synced f)]> (dk_dir d)) as Ew.
  { unfold fwrite. by rewrite Hf. }
  destruct (IH (mkFile (f_data f ++ b) (f_synced f)) (sys (fwrite n b) d)) as [H1 H2]; cbn [sys dk_dir f_data f_synced].
  - by rewrite Ew, lookup_insert_eq.
  - apply always_sys; [done|]. rewrite Ew. apply HP; [by apply prefix_app_r|]. cbn [concat].
    rewrite app_assoc. by apply prefix_app_r.
  - intros p Hp1 Hp2. rewrite Ew, insert_insert_eq. apply HP; [by etrans; [by apply prefix_app_r|exact Hp1]|].
    cbn [concat]. by rewrite app_assoc.
  - split; [exact H1|]. unfold write_all in H2. rewrite H2. cbn [sys dk_dir f_data f_synced].
    by rewrite Ew, insert_insert_eq, <- app_assoc.
Qed.

Lemma w_encode_raw P w n buf crc t c0 data f d :
  w_encoder w = Some (mkEncoder n buf crc) -> is_u32 crc -> is_i64 t -> zlen (default [] data) < max_data ->
  dk_dir d !! n = Some f -> always P d ->
  (forall p, f_data f `prefix_of` p -> p `prefix_of` f_data f ++ buf ++ stream crc [(t, data)] ->
     P (<[n := mkFile p (f_synced f)]> (dk_dir d))) ->
  exists d' buf' bytes,
    w_encode w (mkWalRecord t c0 data None) d =
      Ok (w <| w_encoder := Some (mkEncoder n buf' (end_crc crc [(t, data)])) |>, d') /\
    dk_dir d' = <[n := mkFile bytes (f_synced f)]> (dk_dir d) /\
    bytes ++ buf' = f_data f ++ buf ++ stream crc [(t, data)] /\ f_data f `prefix_of` bytes /\ always P d'.
Proof.
  intros He Hc Ht Hd Hf Ha HP.
  destruct (encode_spec (mkEncoder n buf crc) t c0 data d Ht Hc Hd) as (ws & buf' & Henc & Hb). cbn [en_buf en_f en_crc] in *.
  destruct (write_all_raw P n f ws d Hf Ha) as [Ha' Hd'].
  { intros p Hp1 Hp2. apply HP; [done|]. rewrite <- Hb, app_assoc. by apply prefix_app_r. }
  exists (write_all n ws d), buf', (f_data f ++ concat ws). unfold w_encode. rewrite He, Henc. gosimpl.
  split_and!; [done|done|by rewrite <- app_assoc, Hb|by apply prefix_app_r|done].
Qed.

Lemma w_sync_raw P w n buf crc f d :
  w_encoder w = Some (mkEncoder n buf crc) -> w_f w = Some n -> dk_dir d !! n = Some f -> always P d ->
  (forall p, f_data f `prefix_of` p -> p `prefix_of` f_data f ++ buf -> P (<[n := mkFile p (f_synced f)]> (dk_dir d))) ->
  let f' := mkFile (f_data f ++ buf) (length (f_data f ++ buf)) in
  P (<[n := f']> (dk_dir d)) ->
  exists d', w_sync w d = Ok (w <| w_encoder := Some (mkEncoder n [] crc) |>, d') /\
    dk_dir d' = <[n := f']> (dk_dir d) /\ always P d'.
Proof.
  intros He Hwf Hf Ha HP f' HP'. unfold w_sync. rewrite He.
  destruct (flush_spec (mkEncoder n buf crc) d) as (ws & -> & Hws). cbn [en_buf en_f upd] in *.
  destruct (write_all_raw P n f ws d Hf Ha) as [Ha' Hd']; [by rewrite Hws|]. rewrite Hws in Hd'.
  exists (sys (fsync n) (write_all n ws d)). change (w_f (_ <| w_encoder := _ |>)) with (w_f w). rewrite Hwf.
  assert (fsync n (dk_dir (write_all n ws d)) = <[n := f']> (dk_dir d)) as Es.
  { rewrite Hd'. unfold fsync. rewrite lookup_insert_eq. by rewrite insert_insert_eq. }
  split_and!; [done|done|]. apply always_sys; [done|]. by rewrite Es.
Qed.

Section writing.
  Context (md : option (list Z)) (Hmd : item_fits (metadataType, md)) (og : origin) (Hog : origin_ok og).

Definition with_ops sg (ops : list wop) : seg := mkSeg (sg_seq sg) (sg_index sg) (sg_crc sg) (sg_state sg) ops.

(** What a crash in [c] may leave: the first [m] operations are on disk. *)
Definition crash_ok segs (m : nat) (c : dir) : Prop :=
  exists closed cur data syn k, segs = closed ++ [cur] /\ segs_ok md og segs /\
    dir_is c ((seg_file md <$> closed) ++ [(seg_name cur, mkFile data syn)]) /\
    data `prefix_of` seg_bytes md cur /\ (syn <= length data)%nat /\
    (k <= length (sg_ops cur))%nat /\ m = (length (all_ops closed) + k)%nat /\
    (length (stream (sg_crc cur) (head md cur ++ (op_item <$> take k (sg_ops cur)))) <= syn)%nat.

Definition survives (R1 R2 : list wop) (c : dir) : Prop :=
  exists segs m, crash_ok segs m c /\ R1 `prefix_of` take m (all_ops segs) /\ all_ops segs `prefix_of` R2.

(** The invariant of a log open for writing; [m] operations are synced. *)
Definition wal_ok segs (m : nat) w d : Prop :=
  exists closed cur data syn buf k, segs = closed ++ [cur] /\ segs_ok md og segs /\
    dir_is (dk_dir d) ((seg_file md <$> closed) ++ [(seg_name cur, mkFile data syn)]) /\
    data ++ buf = seg_bytes md cur /\ (syn <= length data)%nat /\
    (k <= length (sg_ops cur))%nat /\ m = (length (all_ops closed) + k)%nat /\
    (length (stream (sg_crc cur) (head md cur ++ (op_item <$> take k (sg_ops cur)))) <= syn)%nat /\
    w_f w = Some (seg_name cur) /\ w_encoder w = Some (mkEncoder (seg_name cur) buf (og_crc (origin_after md og segs))) /\
    w_metadata w = md /\ w_seq w = sg_seq cur.

(** The hard state and the last index the log remembers are the saved ones. *)
Definition warm segs w : Prop :=
  w_state w = last_state (og_ops og ++ all_ops segs) /\ w_enti w = a_last (slog (og_ops og ++ all_ops segs)).

Lemma with_ops_bytes closed cur o :
  segs_ok md og (closed ++ [cur]) -> 
  seg_bytes md (with_ops cur (sg_ops cur ++ [o])) =
    seg_bytes md cur ++ stream (og_crc (origin_after md og (closed ++ [cur]))) [op_item o].
Proof using.
  intros Hok. unfold seg_bytes, seg_items. cbn [sg_crc sg_ops with_ops]. rewrite fmap_app, app_assoc.
  change (head md (with_ops cur _)) with (head md cur). rewrite (stream_app _ (head md cur ++ _)). do 2 f_equal.
  apply segs_ok_app in Hok as [_ [(_ & _ & _ & -> & _) _]]. by rewrite origin_after_app.
Qed.

Lemma with_ops_crc closed cur o :
  segs_ok md og (closed ++ [cur]) ->
  og_crc (origin_after md og (closed ++ [with_ops cur (sg_ops cur ++ [o])])) =
    end_crc (og_crc (origin_after md og (closed ++ [cur]))) [op_item o].
Proof using.
  intros Hok. rewrite !origin_after_app. cbn [origin_after foldl next_origin og_crc].
  unfold seg_items. cbn [sg_ops with_ops]. change (head md (with_ops cur _)) with (head md cur).
  by rewrite fmap_app, app_assoc, (end_crc_app _ (head md cur ++ _)).
Qed.

Lemma all_ops_snoc closed cur ops : all_ops (closed ++ [with_ops cur (sg_ops cur ++ ops)]) = all_ops (closed ++ [cur]) ++ ops.
Proof using. rewrite !all_ops_app, !all_ops_one. cbn. by rewrite app_assoc. Qed.

Lemma segs_ok_add closed cur o :
  segs_ok md og (closed ++ [cur]) -> op_ok (og_ops og ++ all_ops (closed ++ [cur])) o ->
  segs_ok md og (closed ++ [with_ops cur (sg_ops cur ++ [o])]).
Proof using.
  intros [Hc [(H1 & H2 & H3 & H4 & H5 & H6) _]]%segs_ok_app Ho. apply segs_ok_app. split; [done|].
  cbn [segs_ok with_ops sg_seq sg_index sg_crc sg_state sg_ops]. split_and!; try done.
  apply ops_ok_app. split; [done|]. rewrite all_ops_app, all_ops_one, app_assoc in Ho.
  rewrite origin_after_ops. done.
Qed.

(** A prefix of the operations of the last file. *)
Lemma segs_ok_take closed cur k :
  segs_ok md og (closed ++ [cur]) -> segs_ok md og (closed ++ [with_ops cur (take k (sg_ops cur))]).
Proof using.
  intros [Hc [(H1 & H2 & H3 & H4 & H5 & H6) _]]%segs_ok_app. apply segs_ok_app. split; [done|].
  cbn [segs_ok with_ops sg_seq sg_index sg_crc sg_state sg_ops]. split_and!; try done.
  rewrite <- (take_drop k (sg_ops cur)) in H6. by apply ops_ok_app in H6 as [? _].
Qed.

(** ** What a crash leaves *)

Lemma crash_view segs m c c' :
  crash_ok segs m c -> crashed c c' ->
  exists segs' t, view md og c' segs' t /\ take m (all_ops segs) `prefix_of` all_ops segs' /\
    all_ops segs' `prefix_of` all_ops segs.
Proof using Hmd Hog.
  intros (closed & cur & data & syn & k & -> & Hok & Hd & Hp & Hsyn & Hk & -> & Hdur) Hcr.
  pose proof Hok as [Hok1 Hok2]%segs_ok_app. pose proof (origin_after_ok md og closed Hog Hok1) as Hog1.
  destruct (seg_fits md Hmd _ cur Hog1 Hok2) as [Hfit Hplain].
  destruct (dir_is_crashed c c' _ _ _ Hd) as (f' & (j & Hj & ->) & Hd'); [|done|].
  { by apply Forall_fmap, Forall_fmap, Forall_forall. }
  cbn [f_data f_synced] in *. set (data' := take j data) in *.
  assert (data' `prefix_of` seg_bytes md cur) as Hp' by (etrans; [apply prefix_take|done]).
  set (h := head md cur) in *. set (its := op_item <$> sg_ops cur).
  assert (head md cur ++ (op_item <$> take k (sg_ops cur)) = take (length h + k) (seg_items md cur)) as Ek.
  { unfold seg_items. rewrite take_app_add. fold h. by rewrite fmap_take. }
  fold h in Ek. rewrite Ek in Hdur.
  destruct (prefix_stream_durable (sg_crc cur) (seg_items md cur) data' (length h + k)) as (q & t & Hq & Ed & Ht); try done.
  { unfold seg_items. rewrite length_app, length_fmap. fold h. lia. }
  { unfold data'. rewrite length_take. lia. }
  assert (take q (seg_items md cur) = seg_items md (with_ops cur (take (q - length h) (sg_ops cur)))) as Eq.
  { replace q with (length h + (q - length h))%nat at 1 by lia. unfold seg_items. fold h. rewrite take_app_add.
    cbn [sg_ops with_ops]. by rewrite fmap_take. }
  exists (closed ++ [with_ops cur (take (q - length h) (sg_ops cur))]), t. split_and!.
  - exists closed, (with_ops cur (take (q - length h) (sg_ops cur))). split_and!; [done|by apply segs_ok_take| |].
    + rewrite Ed, Eq in Hd'. exact Hd'.
    + cbn [sg_crc with_ops]. rewrite <- Eq. destruct (seg_items md cur !! q) as [it|] eqn:E; [|by left].
      right. exists it. split; [|done]. rewrite Forall_forall in Hfit. apply Hfit. by eapply list_elem_of_lookup_2.
  - rewrite !all_ops_app, !all_ops_one, take_app_add. cbn [with_ops sg_ops]. apply prefix_app.
    replace (q - length h)%nat with (k + (q - length h - k))%nat by lia.
    rewrite <- take_take_drop. by apply prefix_app_r.
  - rewrite !all_ops_app, !all_ops_one. cbn [with_ops sg_ops]. apply prefix_app, prefix_take.
Qed.

Lemma wal_ok_crash segs m w d : wal_ok segs m w d -> crash_ok segs m (dk_dir d).
Proof using.
  intros (closed & cur & data & syn & buf & k & -> & Hok & Hd & Hb & Hs & Hk & Hm & Hdur & _).
  exists closed, cur, data, syn, k. split_and!; try done. rewrite <- Hb. by apply prefix_app_r.
Qed.

Lemma wal_ok_bound segs m w d : wal_ok segs m w d -> (m <= length (all_ops segs))%nat /\ segs_ok md og segs.
Proof using.
  intros (closed & cur & data & syn & buf & k & -> & Hok & _ & _ & _ & Hk & -> & _).
  rewrite all_ops_app, all_ops_one, length_app. split; [lia|done].
Qed.

Lemma take_grow {A} (R1 l : list A) m x : (m <= length l)%nat -> R1 `prefix_of` take m l -> R1 `prefix_of` take m (l ++ x).
Proof using. intros Hm Hp. by rewrite take_app_le. Qed.

(** ** Appending a record *)

Lemma append_op R1 R2 segs m w d o c0 :
  wal_ok segs m w d -> op_ok (og_ops og ++ all_ops segs) o ->
  R1 `prefix_of` take m (all_ops segs) -> all_ops segs ++ [o] `prefix_of` R2 -> always (survives R1 R2) d ->
  exists w' d' segs', w_encode w (mkWalRecord (op_item o).1 c0 (op_item o).2 None) d = Ok (w', d') /\
    wal_ok segs' m w' d' /\ all_ops segs' = all_ops segs ++ [o] /\ length segs' = length segs /\
    always (survives R1 R2) d' /\ w_state w' = w_state w /\ w_enti w' = w_enti w.
Proof using Hog.
  intros Hw Ho HR1 HR2 Ha. destruct (wal_ok_bound _ _ _ _ Hw) as [Hm _].
  destruct Hw as (closed & cur & data & syn & buf & k & -> & Hok & Hd & Hb & Hs & Hk & Hmk & Hdur & Hwf & Henc & Hmeta & Hseq).
  pose proof (segs_ok_add closed cur o Hok Ho) as Hok'. set (cur' := with_ops cur (sg_ops cur ++ [o])) in *.
  pose proof (with_ops_bytes closed cur o Hok) as Hbytes. pose proof (with_ops_crc closed cur o Hok) as Hcrc. fold cur' in Hbytes, Hcrc.
  pose proof (origin_after_ok md og _ Hog Hok) as (_ & Hu & _).
  set (crc := og_crc (origin_after md og (closed ++ [cur]))) in *.
  assert (dk_dir d !! seg_name cur = Some (mkFile data syn)) as Hf.
  { apply (dir_is_lookup _ _ _ _ Hd), elem_of_app. right. by left. }
  assert ((op_item o).1 = (op_item o).1 /\ is_i64 (op_item o).1 /\ zlen (default [] (op_item o).2) < max_data) as (_ & Hi & Hz).
  { destruct Ho as [[[? ?] _] _]. assert (maxWALEntrySizeLimit = 10485760) by done. split_and!; [done..|lia]. }
  assert (forall p syn', data `prefix_of` p -> p `prefix_of` seg_bytes md cur' -> syn' = syn ->
    dir_is (<[seg_name cur := mkFile p syn']> (dk_dir d)) ((seg_file md <$> closed) ++ [(seg_name cur', mkFile p syn)]) /\
    crash_ok (closed ++ [cur']) m (<[seg_name cur := mkFile p syn']> (dk_dir d))) as Hcr.
  { intros p syn' Hp1 Hp2 ->. assert (dir_is (<[seg_name cur := mkFile p syn]> (dk_dir d))
      ((seg_file md <$> closed) ++ [(seg_name cur', mkFile p syn)])) as Hd' by by eapply dir_is_last.
    split; [done|]. exists closed, cur', p, syn, k. split_and!; try done.
    - apply prefix_length in Hp1. lia.
    - cbn. rewrite length_app. lia.
    - cbn [sg_crc sg_ops with_ops cur']. change (head md (with_ops cur _)) with (head md cur). by rewrite take_app_le. }
  destruct (w_encode_raw (survives R1 R2) w _ buf crc (op_item o).1 c0 (op_item o).2 _ d Henc Hu Hi Hz Hf Ha)
    as (d' & buf' & bytes & -> & Hdd & Hbb & Hpre & Ha').
  { cbn [f_data f_synced]. intros p Hp1 Hp2. exists (closed ++ [cur']), m. split_and!.
    - apply Hcr; [done| |done]. rewrite Hbytes, <- Hb, <- app_assoc. by destruct (op_item o).
    - unfold cur'. rewrite all_ops_snoc. by apply take_grow.
    - unfold cur'. by rewrite all_ops_snoc. }
  cbn [f_data f_synced] in *. assert (bytes ++ buf' = seg_bytes md cur') as Hb'.
  { rewrite Hbb, Hbytes, <- Hb, <- app_assoc. by destruct (op_item o). }
  destruct (Hcr bytes syn) as [Hd' _]; [done|rewrite <- Hb'; by apply prefix_app_r|done|].
  eexists _, d', (closed ++ [cur']). split; [done|]. split_and!; try done.
  - exists closed, cur', bytes, syn, buf', k. rewrite Hdd. split_and!; try done.
    + apply prefix_length in Hpre. lia.
    + cbn. rewrite length_app. lia.
    + cbn [sg_crc sg_ops with_ops cur']. change (head md (with_ops cur _)) with (head md cur). by rewrite take_app_le.
    + cbn. rewrite Hcrc. by destruct (op_item o).
  - apply all_ops_snoc.
  - by rewrite !length_app.
Qed.

(** ** [sync] *)

Lemma w_sync_spec R1 R2 segs m w d :
  wal_ok segs m w d -> R1 `prefix_of` take m (all_ops segs) -> all_ops segs `prefix_of` R2 -> always (survives R1 R2) d ->
  exists w' d', w_sync w d = Ok (w', d') /\ wal_ok segs (length (all_ops segs)) w' d' /\
    always (survives R1 R2) d' /\ w_state w' = w_state w /\ w_enti w' = w_enti w /\
    dir_is (dk_dir d') (seg_file md <$> segs) /\ w_locks w' = w_locks w.
Proof using.
  intros Hw HR1 HR2 Ha.
  destruct Hw as (closed & cur & data & syn & buf & k & -> & Hok & Hd & Hb & Hs & Hk & Hmk & Hdur & Hwf & Henc & Hmeta & Hseq).
  assert (dk_dir d !! seg_name cur = Some (mkFile data syn)) as Hf.
  { apply (dir_is_lookup _ _ _ _ Hd), elem_of_app. right. by left. }
  assert (seg_items md cur = head md cur ++ (op_item <$> take (length (sg_ops cur)) (sg_ops cur))) as Eall by by rewrite firstn_all.
  set (f' := mkFile (data ++ buf) (length (data ++ buf))).
  assert (dir_is (<[seg_name cur := f']> (dk_dir d)) (seg_file md <$> closed ++ [cur])) as Hd'.
  { unfold f'. rewrite fmap_app, Hb. by eapply dir_is_last. }
  assert (crash_ok (closed ++ [cur]) (length (all_ops (closed ++ [cur]))) (<[seg_name cur := f']> (dk_dir d))) as Hcr1.
  { exists closed, cur, (data ++ buf), (length (data ++ buf)), (length (sg_ops cur)). rewrite fmap_app in Hd'. rewrite Hb in *.
    split_and!; try done; [by rewrite all_ops_app, all_ops_one, length_app|]. by rewrite <- Eall. }
  destruct (w_sync_raw (survives R1 R2) w _ buf _ _ d Henc Hwf Hf Ha) as (d' & -> & Hdd & Ha').
  - cbn [f_data f_synced]. intros p Hp1 Hp2. exists (closed ++ [cur]), m. split_and!; [|done|done].
    exists closed, cur, p, syn, k. split_and!; try done; [by eapply dir_is_last|by rewrite <- Hb|].
    apply prefix_length in Hp1. lia.
  - eexists (closed ++ [cur]), _. split_and!; [exact Hcr1| |done]. rewrite firstn_all. etrans; [exact HR1|apply prefix_take].
  - eexists _, d'. split; [done|]. cbn [f_data] in Hdd. fold f' in Hdd. rewrite <- Hdd in *. split_and!; try done.
    exists closed, cur, (data ++ buf), (length (data ++ buf)), [], (length (sg_ops cur)).
    rewrite fmap_app in Hd'. rewrite Hb in *. rewrite app_nil_r. split_and!; try done.
    + by rewrite all_ops_app, all_ops_one, length_app.
    + by rewrite <- Eall.
Qed.
End writing.
