(* ===== verification/WalSave.v ===== *)
(** * The operations of the write-ahead log

    [cut], [Save], [SaveSnapshot] and [Create] keep the invariant of
    [WalWrite], extend the recorded operations, and survive a crash between
    any two system calls. *)

From S2P Require Import Prelude RaftPB Proto RaftCodec Storage Unstable RaftLog Progress Raft RawNode.
From S2P Require Import StorePB WalPB OrderedMap FileSys Wal WalStream WalLog WalFiles WalSegs WalRead WalWrite.

Implicit Types (sg cur : seg) (segs closed : list seg) (og : origin) (w : WAL) (d : disk).

(** The operations a call of [Save] records. *)
Definition save_ops (st : HardState) (ents : list Entry) : list wop :=
  (OpEntry <$> ents) ++ (if IsEmptyHardState st then [] else [OpState st]).

Lemma state_entries st ents : state_from st (OpEntry <$> ents) = st.
Proof. unfold state_from. induction ents; [done|]. cbn. done. Qed.

Section saving.
  Context (md : option (list Z)) (Hmd : item_fits (metadataType, md)) (og : origin) (Hog : origin_ok og).

Abbreviation wal_ok := (wal_ok md og).
Abbreviation survives := (survives md og).
Abbreviation warm := (warm og).

Lemma origin_slog_all segs : segs_ok md og segs -> slog_ok (og_ops og ++ all_ops segs).
Proof using Hog.
  intros Hok. apply slog_ok_app; [by apply origin_slog|]. by apply (ops_of_segs md og).
Qed.

(** ** [cut] *)

(** Writing to a file next to the log's. *)
Lemma side_encode P w n buf crc t c0 data f d base :
  w_encoder w = Some (mkEncoder n buf crc) -> is_u32 crc -> is_i64 t -> zlen (default [] data) < max_data ->
  dk_dir d = <[n := f]> base -> (forall f, P (<[n := f]> base)) -> always P d ->
  exists d' buf' f', w_encode w (mkWalRecord t c0 data None) d =
      Ok (w <| w_encoder := Some (mkEncoder n buf' (end_crc crc [(t, data)])) |>, d') /\
    dk_dir d' = <[n := f']> base /\ f_data f' ++ buf' = f_data f ++ buf ++ stream crc [(t, data)] /\ always P d'.
Proof using.
  intros He Hc Ht Hz Hd HP Ha.
  destruct (w_encode_raw P w n buf crc t c0 data f d He Hc Ht Hz) as (d' & buf' & bytes & -> & Hd' & Hb & _ & Ha'); [|done| |].
  - by rewrite Hd, lookup_insert_eq.
  - intros. rewrite Hd, insert_insert_eq. apply HP.
  - exists d', buf', (mkFile bytes (f_synced f)). split_and!; try done. by rewrite Hd', Hd, insert_insert_eq.
Qed.

(** The head of a new file, written and synced under its temporary name. *)
Lemma side_head P w n crc d base :
  w_encoder w = Some (mkEncoder n [] crc) -> w_f w = Some n -> is_u32 crc -> w_metadata w = md ->
  (IsEmptyHardState (w_state w) = false -> HardState_wf (w_state w)) ->
  dk_dir d = <[n := mkFile [] 0]> base -> (forall f, P (<[n := f]> base)) -> always P d ->
  let items := (crcType, None) :: (metadataType, md) :: (if IsEmptyHardState (w_state w) then [] else [op_item (OpState (w_state w))]) in
  exists w' d',
    cut_head w crc d = Ok (w', d') /\
    dk_dir d' = <[n := mkFile (stream crc items) (length (stream crc items))]> base /\ always P d' /\
    w_encoder w' = Some (mkEncoder n [] (end_crc crc items)) /\
    w_state w' = w_state w /\ w_enti w' = w_enti w /\ w_metadata w' = md /\
    w_seq w' = w_seq w /\ w_locks w' = w_locks w.
Proof using Hmd.
  intros He Hwf Hu Hm Hst Hd HP Ha. assert (maxWALEntrySizeLimit = 10485760) as Hlim by done.
  unfold cut_head, saveCrc.
  destruct (side_encode P w n [] crc crcType crc None (mkFile [] 0) d base He) as (d1 & b1 & f1 & -> & Hd1 & Hb1 & Ha1); try done.
  gosimpl. set (c1 := end_crc crc [(crcType, None)]) in *. assert (is_u32 c1) as Hu1 by by apply end_crc_range.
  cbn [w_metadata upd]. change (w_metadata (w <| w_encoder := _ |>)) with (w_metadata w). rewrite Hm.
  destruct Hmd as [Hmi Hmz]. cbn [fst snd] in *.
  destruct (side_encode P (w <| w_encoder := Some (mkEncoder n b1 c1) |>) n b1 c1 metadataType 0 md f1 d1 base)
    as (d2 & b2 & f2 & -> & Hd2 & Hb2 & Ha2); try done; [lia|].
  gosimpl. set (c2 := end_crc c1 [(metadataType, md)]) in *. assert (is_u32 c2) as Hu2 by by apply end_crc_range.
  set (w2 := _ <| w_encoder := Some (mkEncoder n b2 c2) |>). rewrite app_assoc, Hb1 in Hb2. cbn [f_data app] in Hb2.
  assert (forall w3 d3 b3 f3 items3, w_encoder w3 = Some (mkEncoder n b3 (end_crc crc items3)) -> w_f w3 = Some n ->
    dk_dir d3 = <[n := f3]> base -> f_data f3 ++ b3 = stream crc items3 -> always P d3 ->
    exists d', w_sync w3 d3 = Ok (w3 <| w_encoder := Some (mkEncoder n [] (end_crc crc items3)) |>, d') /\
      dk_dir d' = <[n := mkFile (stream crc items3) (length (stream crc items3))]> base /\ always P d') as Hsync.
  { intros w3 d3 b3 f3 items3 H1 H2 H3 H4 H5.
    destruct (w_sync_raw P w3 n b3 _ f3 d3 H1 H2) as (d' & -> & Hd' & Ha'); try done.
    - by rewrite H3, lookup_insert_eq.
    - intros. rewrite H3, insert_insert_eq. apply HP.
    - rewrite H3, insert_insert_eq. apply HP.
    - exists d'. split_and!; try done. by rewrite Hd', H3, insert_insert_eq, H4. }
  unfold saveState. change (w_state w2) with (w_state w). set (st := w_state w) in *. destruct (IsEmptyHardState st) eqn:Ee.
  - gosimpl. destruct (Hsync w2 d2 b2 f2 [(crcType, None); (metadataType, md)]) as (d' & -> & Hd' & Ha'); try done.
    { rewrite Hb2. symmetry. apply (stream_app crc [_] [_]). }
    by eexists _, d'.
  - unfold HardState_Marshal. rewrite marshal_Ok by (apply HardState_len; auto). gosimpl.
    destruct (state_fits st (Hst eq_refl)) as [_ Hz]. cbn [op_item snd default from_option id] in Hz.
    destruct (side_encode P (w2 <| w_state := st |>) n b2 c2 stateType 0 (Some (HardState_MarshalTo st)) f2 d2 base)
      as (d3 & b3 & f3 & -> & Hd3 & Hb3 & Ha3); try done; [cbn; lia|]. gosimpl.
    destruct (Hsync (w2 <| w_state := st |> <| w_encoder := Some (mkEncoder n b3 (end_crc c2 [(stateType, Some (HardState_MarshalTo st))])) |>)
      d3 b3 f3 [(crcType, None); (metadataType, md); op_item (OpState st)]) as (d' & -> & Hd' & Ha'); try done.
    { rewrite Hb3, app_assoc, Hb2. symmetry. etrans; [apply (stream_app crc [_; _] [_])|]. f_equal.
      apply (stream_app crc [_] [_]). }
    by eexists _, d'.
Qed.

(** The segment that follows [segs]. *)
Definition next_seg segs : seg :=
  let L := og_ops og ++ all_ops segs in
  mkSeg (og_seq (origin_after md og segs)) (a_last (slog L) + 1) (og_crc (origin_after md og segs)) (head_state L) [].

Lemma next_seg_ok segs : segs_ok md og segs -> segs <> [] -> og_seq og + zlen segs < two64 ->
  segs_ok md og (segs ++ [next_seg segs]) /\
  Forall (fun n => bytes_lt n (seg_name (next_seg segs))) (seg_file md <$> segs).*1 /\ is_wal (seg_name (next_seg segs)).
Proof using Hog.
  intros Hok Hne Hseq. pose proof (origin_after_ops md og segs) as Eops. pose proof (origin_after_seq md og segs) as Eseq.
  assert (segs_ok md og (segs ++ [next_seg segs])) as Hok'.
  { apply segs_ok_app. split; [done|]. cbn [segs_ok next_seg sg_seq sg_index sg_crc sg_state sg_ops]. rewrite Eops.
    split_and!; try done; [lia|]. destruct segs as [|sg0 segs0 _] using rev_ind; [done|].
    rewrite origin_after_app, all_ops_app, all_ops_one, app_assoc.
    cbn [origin_after foldl next_origin og_index]. by rewrite origin_after_ops. }
  split_and!; [done| |].
  - rewrite <- list_fmap_compose. apply (next_name_lt md og segs); [done..|lia].
  - pose proof (segs_parse md og _ Hog Hok') as Hp. apply Forall_app in Hp as [_ Hp]. rewrite Forall_singleton in Hp.
    unfold is_wal. by rewrite Hp.
Qed.

Lemma next_seg_items segs : seg_items md (next_seg segs) = (crcType, None) :: (metadataType, md) ::
  let L := og_ops og ++ all_ops segs in
  (if IsEmptyHardState (last_state L) then [] else [op_item (OpState (last_state L))]).
Proof using.
  unfold seg_items, head, next_seg, head_state. cbn [sg_state sg_ops fmap list_fmap]. rewrite app_nil_r.
  by destruct (IsEmptyHardState _).
Qed.

(** All files synced. *)
Lemma survives_synced R1 R2 segs m c : segs_ok md og segs -> segs <> [] -> dir_is c (seg_file md <$> segs) ->
  R1 `prefix_of` take m (all_ops segs) -> all_ops segs `prefix_of` R2 -> survives R1 R2 c.
Proof using.
  intros Hok Hne Hc HR1 HR2. exists segs, (length (all_ops segs)).
  split_and!; [|rewrite firstn_all; etrans; [exact HR1|apply prefix_take]|done].
  destruct segs as [|cur closed _] using rev_ind; [done|]. rewrite fmap_app in Hc.
  exists closed, cur, (seg_bytes md cur), (length (seg_bytes md cur)), (length (sg_ops cur)).
  rewrite firstn_all. split_and!; try done. by rewrite all_ops_app, all_ops_one, length_app.
Qed.

Lemma cut_spec R1 R2 segs m w d :
  wal_ok segs m w d -> warm segs w -> og_seq og + zlen segs < two64 ->
  R1 `prefix_of` take m (all_ops segs) -> all_ops segs `prefix_of` R2 -> always (survives R1 R2) d ->
  exists w' d' segs', cut w d = Ok (w', d') /\ wal_ok segs' (length (all_ops segs)) w' d' /\ warm segs' w' /\
    all_ops segs' = all_ops segs /\ length segs' = S (length segs) /\ always (survives R1 R2) d'.
Proof using Hmd Hog.
  intros Hw [Hst Hen] Hseq HR1 HR2 Ha. destruct (wal_ok_bound _ _ _ _ _ _ Hw) as [Hm Hok].
  pose proof (origin_slog_all segs Hok) as ((Hoff & Hmax & _) & _).
  pose proof (origin_after_ok md og segs Hog Hok) as Hog1. pose proof (origin_after_ops md og segs) as Eops.
  pose proof (origin_after_seq md og segs) as Eseq. pose proof Hog as (_ & _ & Hseq0 & _).
  unfold cut. destruct (w_sync_spec md og R1 R2 segs m w d Hw HR1 HR2 Ha) as (w1 & d1 & -> & Hw1 & Ha1 & Hs1 & He1 & Hd1 & Hl1).
  gosimpl. destruct Hw1 as (closed & cur & data & syn & buf & k & E & _ & _ & _ & _ & _ & _ & _ & Hwf & Henc & Hmeta & Hwseq).
  assert (segs <> []) as Hne by (rewrite E; by destruct closed).
  assert (sg_seq cur = og_seq og + zlen segs - 1) as Esq.
  { rewrite E in *. apply segs_ok_app in Hok as [_ [(-> & _) _]]. rewrite origin_after_seq, length_app. simpl. lia. }
  destruct (next_seg_ok segs Hok Hne Hseq) as (Hok' & Hlt & Hwal). pose proof (next_seg_items segs) as Eitems.
  set (new := next_seg segs) in *. set (L := og_ops og ++ all_ops segs) in *. cbn zeta in Eitems.
  assert (walName (w_seq w1 ⊞ 1) (w_enti w1 ⊞ 1) = seg_name new) as ->.
  { rewrite Hwseq, He1, Hen, Esq. unfold a_last in *. u64_simp. unfold new, next_seg, seg_name. cbn [sg_seq sg_index].
    fold L. unfold a_last. f_equal. lia. }
  rewrite Henc. cbn [en_crc]. set (crc := og_crc (origin_after md og segs)) in *. set (tmp := seg_name new ++ tmp_suffix).
  assert (parseWalName tmp = None) as Htmp by apply parse_tmp.
  assert (forall f, dir_is (<[tmp := f]> (dk_dir d1)) (seg_file md <$> segs)) as Hdir.
  { intros f. eapply dir_is_other; [exact Hd1|]. intros n Hn. apply lookup_insert_ne. by eapply other_ne. }
  assert (forall f, survives R1 R2 (<[tmp := f]> (dk_dir d1))) as Hside by (intros f; by apply (survives_synced R1 R2 segs m)).
  set (w2 := w1 <| w_f := Some tmp |> <| w_encoder := Some (newEncoder tmp crc) |>).
  assert (w_state w2 = last_state L) as Hst2 by (cbn; by rewrite Hs1).
  destruct (side_head (survives R1 R2) w2 tmp crc (sys (fcreate_trunc tmp) d1) (dk_dir d1))
    as (w3 & d3 & -> & Hd3 & Ha3 & Henc3 & Hst3 & Hen3 & Hmd3 & Hseq3 & Hlk3); try done.
  { apply Hog1. }
  { rewrite Hst2. intros Ee. apply (head_state_wf L (last_state L)); [|unfold head_state; by rewrite Ee].
    pose proof (proj1 Hog1) as H1. by rewrite Eops in H1. }
  { apply always_sys; [done|apply Hside]. }
  gosimpl. rewrite Henc3. cbn [en_crc]. rewrite Hst2, <- Eitems in *.
  change (stream crc (seg_items md new)) with (seg_bytes md new) in Hd3.
  assert (dir_is (frename tmp (seg_name new) (dk_dir d3)) (seg_file md <$> segs ++ [new])) as Hd4.
  { rewrite fmap_app. apply dir_is_frename; [done|done|by rewrite Hd3, lookup_insert_eq|rewrite Hd3; apply Hdir|done]. }
  eexists _, _, (segs ++ [new]). split; [done|].
  assert (all_ops (segs ++ [new]) = all_ops segs) as Eall by (rewrite all_ops_app, all_ops_one; cbn; by rewrite app_nil_r).
  split_and!; [| |done|rewrite length_app; simpl; lia|].
  - exists segs, new, (seg_bytes md new), (length (seg_bytes md new)), [], 0%nat.
    rewrite app_nil_r. rewrite fmap_app in Hd4. split_and!; try done.
    + rewrite origin_after_app. cbn [origin_after foldl next_origin og_crc]. done.
    + cbn. rewrite Hseq3. cbn. rewrite Hwseq, Esq. u64_simp. lia.
  - unfold WalWrite.warm. rewrite Eall. fold L. split; [exact Hst3|].
    change (w_enti w3 = a_last (slog L)). rewrite Hen3, <- Hen. exact He1.
  - apply always_sys; [done|]. apply (survives_synced _ _ (segs ++ [new]) m); [done|by destruct segs|done|by rewrite Eall..].
Qed.

(** ** [Save] *)

Lemma saveEntry_spec R1 R2 segs m w d e :
  wal_ok segs m w d -> op_ok (og_ops og ++ all_ops segs) (OpEntry e) ->
  R1 `prefix_of` take m (all_ops segs) -> all_ops segs ++ [OpEntry e] `prefix_of` R2 -> always (survives R1 R2) d ->
  exists w' d' segs', saveEntry w e d = Ok (w', d') /\
    wal_ok segs' m w' d' /\ all_ops segs' = all_ops segs ++ [OpEntry e] /\ length segs' = length segs /\
    always (survives R1 R2) d' /\ w_state w' = w_state w /\ w_enti w' = a_last (slog (og_ops og ++ all_ops segs')).
Proof using Hog.
  intros Hw Ho HR1 HR2 Ha. destruct (wal_ok_bound _ _ _ _ _ _ Hw) as [_ Hok].
  unfold saveEntry, Entry_Marshal. rewrite marshal_Ok by (apply Entry_len, Ho). gosimpl.
  destruct (append_op md og Hog R1 R2 segs m w d (OpEntry e) 0 Hw Ho HR1 HR2 Ha) as (w' & d' & segs' & Henc & Hw' & Hops & Hlen & Ha' & Hst & Hen).
  cbn [op_item fst snd] in Henc. rewrite Henc. gosimpl. eexists _, d', segs'. split; [done|]. split_and!; try done.
  rewrite Hops, app_assoc, slog_snoc. symmetry. apply (slog_step_last _ (OpEntry e)); [|done]. by apply origin_slog_all.
Qed.

Lemma saveEntries_spec R1 R2 ents segs m w d :
  wal_ok segs m w d -> ops_ok (og_ops og ++ all_ops segs) (OpEntry <$> ents) ->
  R1 `prefix_of` take m (all_ops segs) -> all_ops segs ++ (OpEntry <$> ents) `prefix_of` R2 -> always (survives R1 R2) d ->
  exists w' d' segs', foldM (fun '(w, d) e => saveEntry w e d) ents (w, d) = Ok (w', d') /\
    wal_ok segs' m w' d' /\ all_ops segs' = all_ops segs ++ (OpEntry <$> ents) /\ length segs' = length segs /\
    always (survives R1 R2) d' /\ w_state w' = w_state w /\
    (w_enti w = a_last (slog (og_ops og ++ all_ops segs)) \/ ents <> [] ->
     w_enti w' = a_last (slog (og_ops og ++ all_ops segs'))).
Proof using Hog.
  revert segs w d. induction ents as [|e ents IH]; intros segs w d Hw Hops HR1 HR2 Ha.
  { exists w, d, segs. cbn. rewrite app_nil_r. split_and!; try done. by intros [?|?]. }
  destruct Hops as [Ho Hops]. cbn [fmap list_fmap] in HR2. destruct (wal_ok_bound _ _ _ _ _ _ Hw) as [Hm _].
  destruct (saveEntry_spec R1 R2 segs m w d e Hw Ho HR1) as (w1 & d1 & segs1 & Hs1 & Hw1 & Hops1 & Hlen1 & Ha1 & Hst1 & Hen1); [|done|].
  { etrans; [|exact HR2]. apply prefix_app, prefix_cons, prefix_nil. }
  destruct (IH segs1 w1 d1) as (w2 & d2 & segs2 & Hs2 & Hw2 & Hops2 & Hlen2 & Ha2 & Hst2 & Hen2); try done.
  { by rewrite Hops1, app_assoc. }
  { rewrite Hops1. by apply take_grow. }
  { rewrite Hops1, <- app_assoc. done. }
  exists w2, d2, segs2. cbn [foldM]. rewrite Hs1. gosimpl. split_and!; try done.
  - by rewrite Hops2, Hops1, <- app_assoc.
  - by rewrite Hlen2.
  - by rewrite Hst2.
  - intros _. apply Hen2. by left.
Qed.

Lemma saveState_spec R1 R2 segs m w d st :
  wal_ok segs m w d -> ops_ok (og_ops og ++ all_ops segs) (save_ops st []) ->
  R1 `prefix_of` take m (all_ops segs) -> all_ops segs ++ save_ops st [] `prefix_of` R2 -> always (survives R1 R2) d ->
  exists w' d' segs', saveState w st d = Ok (w', d') /\
    wal_ok segs' m w' d' /\ all_ops segs' = all_ops segs ++ save_ops st [] /\ length segs' = length segs /\
    always (survives R1 R2) d' /\ w_enti w' = w_enti w /\
    (w_state w = last_state (og_ops og ++ all_ops segs) \/ IsEmptyHardState st = false ->
     w_state w' = last_state (og_ops og ++ all_ops segs')).
Proof using Hog.
  intros Hw Hops HR1 HR2 Ha. unfold save_ops, saveState in *. cbn [fmap list_fmap app] in *.
  destruct (IsEmptyHardState st) eqn:Ee.
  { exists w, d, segs. rewrite app_nil_r. split_and!; try done. by intros [?|?]. }
  destruct Hops as [Ho _]. pose proof Ho as [[_ [Hwf _]] _].
  unfold HardState_Marshal. rewrite marshal_Ok by by apply HardState_len. gosimpl.
  assert (wal_ok segs m (w <| w_state := st |>) d) as Hw1 by exact Hw.
  destruct (append_op md og Hog R1 R2 segs m (w <| w_state := st |>) d (OpState st) 0 Hw1 Ho HR1 HR2 Ha)
    as (w' & d' & segs' & Henc & Hw' & Hops' & Hlen & Ha' & Hst & Hen).
  cbn [op_item fst snd] in Henc. eexists w', d', segs'. split; [exact Henc|]. split_and!; try done.
  intros _. rewrite Hst, Hops', app_assoc, last_state_app. done.
Qed.

Lemma Save_spec R1 R2 segs m w d st ents :
  wal_ok segs m w d -> ops_ok (og_ops og ++ all_ops segs) (save_ops st ents) ->
  warm segs w \/ IsEmptyHardState st = false /\ ents <> [] -> og_seq og + zlen segs < two64 ->
  R1 `prefix_of` take m (all_ops segs) -> all_ops segs ++ save_ops st ents `prefix_of` R2 -> always (survives R1 R2) d ->
  exists w' d' segs' m', Save w st ents d = Ok (w', d') /\ wal_ok segs' m' w' d' /\ warm segs' w' /\
    all_ops segs' = all_ops segs ++ save_ops st ents /\ (length segs' <= S (length segs))%nat /\
    (m <= m')%nat /\ (mustSync st (w_state w) (zlen ents) = true -> save_ops st ents <> [] -> m' = length (all_ops segs')) /\
    always (survives R1 R2) d'.
Proof using Hmd Hog.
  intros Hw Hops Hwarm Hseq HR1 HR2 Ha. unfold Save.
  destruct (IsEmptyHardState st && (zlen ents =? 0)) eqn:Eskip.
  { apply andb_true_iff in Eskip as [Ee El%Z.eqb_eq]. destruct ents; [|simpl in El; lia].
    exists w, d, segs, m. unfold save_ops in *. rewrite Ee in *. cbn [fmap list_fmap app]. rewrite app_nil_r.
    split_and!; try done; [|lia]. destruct Hwarm as [?|[? ?]]; [done|congruence]. }
  assert (save_ops st ents = (OpEntry <$> ents) ++ save_ops st []) as Esplit by done.
  rewrite Esplit in *. pose proof Hops as [Hops1 Hops2]%ops_ok_app. destruct (wal_ok_bound _ _ _ _ _ _ Hw) as [Hm0 _].
  destruct (saveEntries_spec R1 R2 ents segs m w d Hw Hops1 HR1) as (w1 & d1 & segs1 & -> & Hw1 & Ho1 & Hl1 & Ha1 & Hst1 & Hen1); [|done|].
  { etrans; [|exact HR2]. rewrite app_assoc. by apply prefix_app_r. }
  gosimpl. rewrite app_assoc in HR2. rewrite <- app_assoc, <- Ho1 in Hops2. rewrite <- Ho1 in HR2.
  assert (R1 `prefix_of` take m (all_ops segs1)) as HR1'. { rewrite Ho1. by apply take_grow. }
  destruct (saveState_spec R1 R2 segs1 m w1 d1 st Hw1 Hops2 HR1' HR2 Ha1) as (w2 & d2 & segs2 & -> & Hw2 & Ho2 & Hl2 & Ha2 & Hen2 & Hst2).
  gosimpl. destruct (wal_ok_bound _ _ _ _ _ _ Hw1) as [Hm1 _]. destruct (wal_ok_bound _ _ _ _ _ _ Hw2) as [Hm2 _].
  assert (R1 `prefix_of` take m (all_ops segs2)) as HR1''. { rewrite Ho2. by apply take_grow. }
  rewrite <- Ho2 in HR2. assert (all_ops segs2 = all_ops segs ++ (OpEntry <$> ents) ++ save_ops st []) as Eops by by rewrite Ho2, Ho1, app_assoc.
  assert (warm segs2 w2) as Hwarm2.
  { split.
    - apply Hst2. destruct Hwarm as [[Hws _]|[? _]]; [left|by right].
      by rewrite Hst1, Hws, Ho1, app_assoc, (last_state_app (_ ++ _)), state_entries.
    - rewrite Hen2, Hen1 by (destruct Hwarm as [[_ ?]|[_ ?]]; [by left|by right]). rewrite Ho2, app_assoc, (slog_app (_ ++ _)).
      unfold save_ops. cbn [fmap list_fmap app]. by destruct (IsEmptyHardState st). }
  pose proof Hw2 as (closed & cur & data & syn & buf & k & E & _ & _ & _ & _ & _ & _ & _ & Hwf & _). rewrite Hwf.
  zif; [destruct (mustSync st (w_state w) (zlen ents))|].
  - destruct (w_sync_spec md og R1 R2 segs2 m w2 d2 Hw2 HR1'' HR2 Ha2) as (w3 & d3 & -> & Hw3 & Ha3 & Hs3 & He3 & _ & _).
    exists w3, d3, segs2, (length (all_ops segs2)). split_and!; try done; [|lia].
    unfold WalWrite.warm. rewrite Hs3, He3. done.
  - exists w2, d2, segs2, m. split_and!; try done. lia.
  - destruct (cut_spec R1 R2 segs2 m w2 d2 Hw2 Hwarm2) as (w3 & d3 & segs3 & -> & Hw3 & Hwarm3 & Ho3 & Hl3 & Ha3); try done.
    { by rewrite Hl2, Hl1. }
    exists w3, d3, segs3, (length (all_ops segs2)). rewrite Ho3. split_and!; try done. lia.
Qed.

(** ** [SaveSnapshot] *)

Lemma SaveSnapshot_spec R1 R2 segs m w d sn :
  wal_ok segs m w d -> op_ok (og_ops og ++ all_ops segs) (OpSnap sn) ->
  R1 `prefix_of` take m (all_ops segs) -> all_ops segs ++ [OpSnap sn] `prefix_of` R2 -> always (survives R1 R2) d ->
  exists w' d' segs', SaveSnapshot w sn d = Ok (w', d') /\ wal_ok segs' (length (all_ops segs')) w' d' /\
    (warm segs w -> warm segs' w') /\
    all_ops segs' = all_ops segs ++ [OpSnap sn] /\ length segs' = length segs /\ always (survives R1 R2) d'.
Proof using Hog.
  intros Hw Ho HR1 HR2 Ha. destruct (wal_ok_bound _ _ _ _ _ _ Hw) as [Hm Hok].
  pose proof Ho as [[_ Hwf] _]. unfold SaveSnapshot, WalSnapshot_Marshal.
  rewrite marshal_Ok by by apply WalSnapshot_len. gosimpl.
  destruct (append_op md og Hog R1 R2 segs m w d (OpSnap sn) 0 Hw Ho HR1 HR2 Ha) as (w1 & d1 & segs1 & Henc & Hw1 & Hops & Hlen & Ha1 & Hst & Hen).
  cbn [op_item fst snd] in Henc. rewrite Henc. gosimpl.
  set (w2 := if w_enti w1 <? wsIndex sn then _ else w1).
  assert (wal_ok segs1 m w2 d1) as Hw2 by (unfold w2; by zif).
  destruct (w_sync_spec md og R1 R2 segs1 m w2 d1 Hw2) as (w3 & d3 & -> & Hw3 & Ha3 & Hs3 & He3 & _ & _); try done.
  { rewrite Hops. by apply take_grow. }
  { by rewrite Hops. }
  exists w3, d3, segs1. split_and!; try done. intros [Hws Hwe]. split.
  - rewrite Hs3. assert (w_state w2 = w_state w1) as -> by (unfold w2; by zif).
    rewrite Hst, Hws, Hops, app_assoc, (last_state_app (_ ++ _)). done.
  - rewrite He3, Hops, app_assoc, slog_snoc. pose proof (slog_step_last _ (OpSnap sn) (origin_slog_all segs Hok) Ho) as ->.
    unfold w2. rewrite <- Hwe, <- Hen. zif; cbn; lia.
Qed.
End saving.

(** ** [Create] *)

Lemma Exist_empty (d : dir) : Exist d = false -> d = ∅.
Proof.
  unfold Exist, ReadDir. rewrite length_fmap. intros E%negb_false_iff%Nat.eqb_eq. apply map_eq. intros n.
  rewrite lookup_empty. destruct (d !! n) as [f|] eqn:Hn; [|done].
  assert ((n, f) ∈ om_items d) as Hin by by apply om_items_get.
  apply nil_length_inv in E. rewrite E in Hin. by apply not_elem_of_nil in Hin.
Qed.

Lemma stream3 crc i1 i2 i3 : stream crc [i1; i2; i3] =
  (stream crc [i1] ++ stream (end_crc crc [i1]) [i2]) ++ stream (end_crc (end_crc crc [i1]) [i2]) [i3].
Proof. rewrite (stream_app crc [i1; i2] [i3] : stream crc [i1; i2; i3] = _), (stream_app crc [i1] [i2] : stream crc [i1; i2] = _). done. Qed.

Lemma end_crc3 crc i1 i2 i3 : end_crc crc [i1; i2; i3] = end_crc (end_crc (end_crc crc [i1]) [i2]) [i3].
Proof. done. Qed.

Definition seg0 : seg := mkSeg 0 0 0 None [OpSnap WalSnapshot0].

Lemma op0_ok : op_ok [] (OpSnap WalSnapshot0).
Proof. repeat split; vm_compute; try done; constructor. Qed.

Lemma seg0_ok md : segs_ok md origin0 [seg0].
Proof. repeat split; try done; apply op0_ok. Qed.

Lemma Create_spec md (d : disk) : item_fits (metadataType, md) -> dk_dir d = ∅ ->
  exists w' d', Create md d = Ok (inl (w', d')) /\ wal_ok md origin0 [seg0] 1 w' d' /\ warm origin0 [seg0] w'.
Proof.
  intros Hmd Hd. assert (maxWALEntrySizeLimit = 10485760) as Hlim by done.
  unfold Create. assert (Exist (dk_dir d) = false) as -> by by rewrite Hd.
  set (p := walName 0 0). set (d1 := sys (fcreate p) d).
  assert (dk_dir d1 = <[p := mkFile [] 0]> ∅) as Hd1.
  { cbn. unfold fcreate. by rewrite Hd. }
  set (w0 := mkWAL _ _ _ _ _ _ _ _ _). set (P := fun _ : dir => True).
  assert (forall d, always P d) as HP by (intros; split; [by apply Forall_forall|done]).
  unfold saveCrc.
  destruct (side_encode P w0 p [] 0 crcType 0 None (mkFile [] 0) d1 ∅) as (d2 & b2 & f2 & -> & Hd2 & Hb2 & _); try done.
  gosimpl. set (c2 := end_crc 0 [(crcType, None)]) in *. destruct Hmd as [_ Hmz]. cbn [snd] in Hmz.
  set (w2 := w0 <| w_encoder := _ |>).
  destruct (side_encode P w2 p b2 c2 metadataType 0 md f2 d2 ∅) as (d3 & b3 & f3 & -> & Hd3 & Hb3 & _); try done.
  { lia. }
  gosimpl. set (c3 := end_crc c2 [(metadataType, md)]) in *. set (w3 := w2 <| w_encoder := _ |>).
  unfold SaveSnapshot. change (WalSnapshot_Marshal WalSnapshot0) with (Ok (WalSnapshot_MarshalTo WalSnapshot0)). gosimpl.
  destruct (side_encode P w3 p b3 c3 snapshotType 0 (Some (WalSnapshot_MarshalTo WalSnapshot0)) f3 d3 ∅) as (d4 & b4 & f4 & -> & Hd4 & Hb4 & _); try done.
  { apply end_crc_range, end_crc_range. done. }
  gosimpl. change (w_enti (_ <| w_encoder := _ |>)) with 0. cbn [Z.ltb wsIndex WalSnapshot0 Z.compare].
  set (w4 := w3 <| w_encoder := _ |>). set (c4 := end_crc c3 _) in w4.
  assert (f_data f4 ++ b4 = seg_bytes md seg0) as Hb.
  { rewrite Hb4, app_assoc, Hb3, app_assoc, Hb2. cbn [f_data app]. symmetry. unfold seg_bytes.
    unfold seg_items, head. cbn [sg_state sg_ops sg_crc seg0 fmap list_fmap app op_item]. apply stream3. }
  destruct (w_sync_raw P w4 p b4 c4 f4 d4) as (d5 & -> & Hd5 & _); try done.
  { by rewrite Hd4, lookup_insert_eq. }
  gosimpl. rewrite Hb, Hd4, insert_insert_eq in Hd5. eexists _, d5. split; [done|]. split.
  - assert (og_crc (origin_after md origin0 [seg0]) = c4) as Hcrc.
    { rewrite origin_after_crc. unfold seg_items, head.
      cbn [sg_state sg_ops sg_crc seg0 fmap list_fmap app op_item concat og_crc origin0]. apply end_crc3. }
    exists [], seg0, (seg_bytes md seg0), (length (seg_bytes md seg0)), [], 1%nat. rewrite Hd5, app_nil_r, Hcrc.
    split; [done|]. split; [apply seg0_ok|]. split.
    { cbn [fmap list_fmap app]. apply (dir_is_snoc ∅ []); [|done|constructor].
      split_and!; [constructor|constructor|]. intros n f _. rewrite lookup_empty. split; [done|]. by intros ?%not_elem_of_nil. }
    split; [done|]. split; [done|]. split; [cbn; lia|]. split; [done|]. split; [|done].
    change (take 1 (sg_ops seg0)) with (sg_ops seg0). apply Nat.le_refl.
  - done.
Qed.
