(* ===== verification/Snap.v ===== *)
(** * The snapshot files: [src/snap]

    [snapshotter.go] and [db.go].  A snapshot is written to a file of its own,
    named after its term and index, with a checksum; [Load] takes the newest
    file that reads back and renames the others it tried.  [ioutil.WriteFile]
    does not sync. *)

From S2P Require Import Prelude RaftPB Proto RaftCodec Storage Unstable RaftLog Progress Raft.
From S2P Require Import StorePB WalPB OrderedMap FileSys.

Inductive serror : Type :=
| ErrNoSnapshot
| ErrEmptySnapshot
| ErrSnapCRCMismatch
| ErrCorrupted (e : perror)
| ErrNotExist.

Definition snapSuffix : list Z := [46; 115; 110; 97; 112].
Definition dbSuffix : list Z := snapSuffix ++ [46; 100; 98].
Definition snapBroken : list Z := [46; 98; 114; 111; 107; 101; 110].

Definition snapName (term index : Z) : list Z := Sprintf_016x term ++ [45] ++ Sprintf_016x index ++ snapSuffix.

(** [Snapshotter.save] *)
Definition save (snapshot : Snapshot) (d : disk) : outcome disk :=
  let fname := snapName (smTerm (sMetadata snapshot)) (smIndex (sMetadata snapshot)) in
  let! b := Snapshot_Marshal snapshot in
  let crc := crc_Update 0 b in
  let! data := SnapFile_Marshal (mkSnapFile crc (Some b) None) in
  Ok (sys (fwrite fname data) (sys (fcreate_trunc fname) d)).

(** [Snapshotter.SaveSnap] *)
Definition ss_SaveSnap (snapshot : Snapshot) (d : disk) : outcome disk :=
  if IsEmptySnap snapshot then Ok d else save snapshot d.

(** [Read]: the bytes of the file *)
Definition Read (b : list Z) : outcome (Snapshot + serror) :=
  if zlen b =? 0 then Ok (inr ErrEmptySnapshot) else
  match SnapFile_Unmarshal b SnapFile0 with
  | DErr e => Ok (inr (ErrCorrupted e))
  | DPanic => Panic "slice bounds out of range"
  | DFuel => Panic "out of fuel"
  | DOk s =>
      let data := default [] (sfData s) in
      if (zlen data =? 0) || (sfCrc s =? 0) then Ok (inr ErrEmptySnapshot) else
      if negb (crc_Update 0 data =? sfCrc s) then Ok (inr ErrSnapCRCMismatch) else
      match Snapshot_Unmarshal data Snapshot0 with
      | DErr e => Ok (inr (ErrCorrupted e))
      | DPanic => Panic "slice bounds out of range"
      | DFuel => Panic "out of fuel"
      | DOk snap => Ok (inl snap)
      end
  end.

(** [loadSnap]: a file that does not read is renamed. *)
Definition loadSnap (name : list Z) (d : disk) : outcome (disk * (Snapshot + serror)) :=
  let! r := Read (fdata name (dk_dir d)) in
  match r with
  | inl snap => Ok (d, inl snap)
  | inr e => Ok (sys (frename name (name ++ snapBroken)) d, inr e)
  end.

Definition checkSuffix (names : list (list Z)) : list (list Z) := filter (fun n => HasSuffix n snapSuffix = true) names.

(** [snapNames]: from the newest to the oldest *)
Definition snapNames (d : dir) : list (list Z) := rev (checkSuffix (ReadDir d)).

Fixpoint Load_loop (names : list (list Z)) (d : disk) : outcome (disk * (Snapshot + serror)) :=
  match names with
  | [] => Ok (d, inr ErrNoSnapshot)
  | name :: names' =>
      let! '(d, r) := loadSnap name d in
      match r with
      | inl snap => Ok (d, inl snap)
      | inr _ => Load_loop names' d
      end
  end.

Definition Load (d : disk) : outcome (disk * (Snapshot + serror)) := Load_loop (snapNames (dk_dir d)) d.

(** ** [db.go] *)

Definition fremove (name : list Z) (d : dir) : dir := delete name d.

Definition dbName (id : Z) : list Z := Sprintf_016x id ++ dbSuffix.

(** [SaveDBFrom]: [tmp] is the name [ioutil.TempFile] chooses, [data] what the
    reader delivers. *)
Definition SaveDBFrom (tmp : list Z) (data : list Z) (id : Z) (d : disk) : disk :=
  let d := sys (fcreate_trunc tmp) d in
  let d := sys (fwrite tmp data) d in
  let d := sys (fsync tmp) d in
  let fn := dbName id in
  match dk_dir d !! fn with
  | Some _ => sys (fremove tmp) d
  | None => sys (frename tmp fn) d
  end.

Definition DBFilePath (id : Z) (d : disk) : list Z + serror :=
  if bool_decide (dbName id ∈ ReadDir (dk_dir d)) then inl (dbName id) else inr ErrNotExist.

(** ** A file that was saved reads back *)

Definition snap_bytes (sn : Snapshot) : list Z :=
  SnapFile_MarshalTo (mkSnapFile (crc_Update 0 (Snapshot_MarshalTo sn)) (Some (Snapshot_MarshalTo sn)) None).

(** A snapshot whose encoding, with the frame around it, fits in a Go slice. *)
Definition snap_fits (sn : Snapshot) : Prop := Snapshot_wf sn /\ Snapshot_Size sn < max_data - 64.

(** One that [Read] takes: a checksum of zero counts as a missing one. *)
Definition loadable (sn : Snapshot) : Prop := snap_fits sn /\ crc_Update 0 (Snapshot_MarshalTo sn) <> 0.

Lemma SnapFile_fits sn : Snapshot_wf sn -> Snapshot_Size sn < max_data ->
  SnapFile_wf (mkSnapFile (crc_Update 0 (Snapshot_MarshalTo sn)) (Some (Snapshot_MarshalTo sn)) None) /\
  zlen (snap_bytes sn) < 9223372036854775808.
Proof.
  intros Hwf Hs. assert (SnapFile_wf (mkSnapFile (crc_Update 0 (Snapshot_MarshalTo sn)) (Some (Snapshot_MarshalTo sn)) None)) as Hw.
  { split; [apply crc_Update_range|done]. }
  split; [done|]. unfold snap_bytes. rewrite SnapFile_len by done. unfold SnapFile_Size.
  cbn [sfCrc sfData sfXXX_unrecognized size_bytes size_unrecognized]. rewrite <- Snapshot_len in Hs by done.
  pose proof (sovRaft_loop_le 10 (crc_Update 0 (Snapshot_MarshalTo sn))) as H1.
  pose proof (sovRaft_loop_le 10 (zlen (Snapshot_MarshalTo sn))) as H2.
  fold (sovRaft (crc_Update 0 (Snapshot_MarshalTo sn))) in H1. fold (sovRaft (zlen (Snapshot_MarshalTo sn))) in H2. lia.
Qed.

Lemma Snapshot_nonempty sn : Snapshot_wf sn -> Snapshot_MarshalTo sn <> [].
Proof.
  intros Hwf E. pose proof (Snapshot_len sn Hwf) as Hl. rewrite E in Hl. unfold Snapshot_Size, size_message in Hl.
  pose proof (sovRaft_pos (u64 (SnapshotMetadata_Size (sMetadata sn)))).
  pose proof (SnapshotMetadata_len (sMetadata sn) ltac:(apply Hwf)).
  assert (0 <= size_bytes (sData sn)) by (destruct (sData sn); simpl; [pose proof (sovRaft_pos (zlen l))|]; lia).
  assert (0 <= size_unrecognized (sXXX_unrecognized sn)) by (destruct (sXXX_unrecognized sn); simpl; lia).
  cbn [length] in Hl. lia.
Qed.

Lemma Read_saved sn : snap_fits sn ->
  Read (snap_bytes sn) = Ok (if crc_Update 0 (Snapshot_MarshalTo sn) =? 0 then inr ErrEmptySnapshot else inl sn).
Proof.
  intros (Hwf & Hs). destruct (SnapFile_fits sn Hwf ltac:(lia)) as [Hw Hl]. pose proof (Snapshot_nonempty sn Hwf) as Hne.
  pose proof (SnapFile_decodes _ Hw Hl) as Hdec. unfold Read. fold (snap_bytes sn) in Hdec.
  assert (0 < zlen (snap_bytes sn)).
  { unfold snap_bytes. rewrite SnapFile_len by done. unfold SnapFile_Size.
    cbn [sfCrc sfData sfXXX_unrecognized size_bytes size_unrecognized].
    pose proof (sovRaft_pos (crc_Update 0 (Snapshot_MarshalTo sn))). pose proof (sovRaft_pos (zlen (Snapshot_MarshalTo sn))). lia. }
  zif; [lia|]. rewrite Hdec. cbn [sfData sfCrc default from_option id].
  assert (zlen (Snapshot_MarshalTo sn) =? 0 = false) as ->.
  { apply Z.eqb_neq. intros E. apply Hne, nil_length_inv. lia. }
  cbn [orb]. destruct (crc_Update 0 (Snapshot_MarshalTo sn) =? 0); [done|]. rewrite Z.eqb_refl. cbn [negb].
  rewrite Snapshot_decodes; [done|done|]. rewrite Snapshot_len by done. lia.
Qed.

(** ** A file that was cut short does not *)

(** All bytes of a varint but the last ask for more. *)
Lemma varint_loop_torn wrap f g v q data i s acc :
  (0 < f <= g)%nat -> 0 <= v -> s + 7 * (Z.of_nat f - 1) < 64 -> q `prefix_of` encodeVarint_loop f v ->
  q <> encodeVarint_loop f v -> at_pos data i q -> varint_loop g wrap data i s acc = DErr ErrUnexpectedEOF.
Proof.
  revert g v q i s acc. induction f as [|f IH]; intros g v q i s acc Hf Hv Hs Hp Hne Hat; [lia|].
  destruct g as [|g]; [lia|]. cbn [varint_loop]. zif; [lia|]. pose proof (at_pos_le _ _ _ Hat) as [Hi0 Hil].
  destruct q as [|b q]; [cbn in Hil; by zif; [|lia]|].
  apply at_pos_cons in Hat as (Hb & Hi & Hat). zif; [lia|]. rewrite Hb.
  cbn [encodeVarint_loop] in Hp, Hne. destruct (v >=? 128) eqn:Ev.
  - apply prefix_cons_inv_1 in Hp as Eb. apply prefix_cons_inv_2 in Hp. subst b.
    assert (128 <= Z.lor (Z.land v 127) 128) as Hge.
    { apply Z.ldiff_le; [rewrite Z.lor_nonneg, Z.land_nonneg; lia|]. apply Z.bits_inj'. intros n Hn.
      rewrite Z.ldiff_spec, Z.lor_spec, Z.bits_0. destruct (Z.testbit 128 n); [|done]. by rewrite orb_true_r. }
    zif; [lia|]. destruct (decide (f = 0)%nat) as [->|].
    { cbn in Hp, Hne. by apply prefix_nil_inv in Hp as ->. }
    eapply IH; [lia| | |exact Hp| |done]; [apply Z.shiftr_nonneg; lia|lia|congruence].
  - apply prefix_cons_inv_2 in Hp as Hq. apply prefix_cons_inv_1 in Hp as ->. apply prefix_nil_inv in Hq as ->. done.
Qed.

Lemma varint_torn wrap v q data i : 0 <= v -> q `prefix_of` encodeVarint v -> q <> encodeVarint v ->
  at_pos data i q -> varint wrap data i = DErr ErrUnexpectedEOF.
Proof. intros Hv Hp Hne Hat. by apply (varint_loop_torn wrap 10 11 v q data i 0 0); [lia|lia|lia| | |]. Qed.

(** A prefix of [a ++ b] ends in [a] or in [b]. *)
Lemma prefix_of_app (p a b : list Z) : p `prefix_of` a ++ b -> p <> a ++ b ->
  p `prefix_of` a /\ p <> a \/ exists q, p = a ++ q /\ q `prefix_of` b /\ q <> b.
Proof.
  intros Hp Hne. destruct (decide (a `prefix_of` p)) as [[q ->]|Hn].
  - right. exists q. apply prefix_app_inv in Hp. split_and!; [done|done|congruence].
  - left. destruct (prefix_weak_total p a _ Hp) as [?|?]; [by apply prefix_app_r|split; [done|by intros ->]|done].
Qed.

Abbreviation keep_snap := (fun b m => m <| sfXXX_unrecognized := keep_unrecognized (sfXXX_unrecognized m) b |>).

(** The loop at a field that is cut short. *)
Lemma fields_torn f data i m tag q w num :
  0 <= tag < 128 -> Z.land tag 7 = w -> w <> 4 -> i32 (Z.shiftr tag 3) = num -> 0 < num ->
  at_pos data i (tag :: q) -> SnapFile_field num w data (i + 1) m = DErr ErrUnexpectedEOF ->
  fields SnapFile_field keep_snap (S f) data i m = DErr ErrUnexpectedEOF.
Proof.
  intros Ht Hw Hw4 Hn Hn0 Hat Hfield. destruct (varint_tag tag data i q Ht Hat) as (Hv & Hi & _).
  cbn [fields]. zif; [|lia]. rewrite Hv. cbn [dbind]. rewrite Hw, Hn. zif; [lia|]. zif; [lia|]. by rewrite Hfield.
Qed.

Lemma delimited_torn b r data i : r `prefix_of` encodeVarint (zlen b) ++ b -> r <> encodeVarint (zlen b) ++ b ->
  zlen b < max_data -> zlen data < max_data -> at_pos data i r -> delimited data i = DErr ErrUnexpectedEOF.
Proof.
  intros Hp Hne Hb Hd Hat. pose proof (at_pos_le _ _ _ Hat) as [Hi0 Hil]. unfold delimited.
  destruct (prefix_of_app _ _ _ Hp Hne) as [[Hq Hqne]|(s & -> & Hs & Hsne)].
  - by rewrite (varint_torn i64 (zlen b) r) by (lia || done).
  - rewrite (varint_encode i64 (zlen b) data i s); [|apply i64_bitwise|unfold is_u64; lia|done]. cbn [dbind].
    rewrite i64_small by lia. zif; [lia|]. rewrite length_app in Hil.
    assert (zlen s < zlen b) as Hlt.
    { destruct Hs as [u ->]. rewrite length_app. destruct u; [|simpl; lia]. by rewrite app_nil_r in Hsne. }
    rewrite i64_small by (rewrite ?length_app in *; lia). zif; [done|lia].
Qed.

Lemma SnapFile_torn crc b p : is_u32 crc -> zlen b < max_data - 64 ->
  p `prefix_of` SnapFile_MarshalTo (mkSnapFile crc (Some b) None) ->
  p <> SnapFile_MarshalTo (mkSnapFile crc (Some b) None) ->
  p = [] \/ SnapFile_Unmarshal p SnapFile0 = DErr ErrUnexpectedEOF \/ SnapFile_Unmarshal p SnapFile0 = DOk (mkSnapFile crc None None).
Proof.
  intros Hc Hb. unfold SnapFile_MarshalTo. cbn [sfCrc sfData sfXXX_unrecognized put_unrecognized default put_bytes].
  rewrite app_nil_r. intros Hp Hne.
  assert (zlen p < max_data) as Hlen.
  { apply prefix_length in Hp. unfold put_varint in Hp. rewrite length_app, !length_cons, length_app in Hp.
    assert (forall v, 0 <= v -> zlen (encodeVarint v) <= 10) as He by (intros; rewrite encodeVarint_len by done; apply sovRaft_loop_le).
    pose proof (He crc). pose proof (He (zlen b)). unfold is_u32 in Hc. lia. }
  pose proof (at_pos_0 p) as Hat.
  destruct (prefix_of_app _ _ _ Hp Hne) as [[Hq Hqne]|(s & -> & Hs & Hsne)].
  - destruct p as [|t q]; [by left|]. right. left. unfold put_varint in *.
    apply prefix_cons_inv_1 in Hq as Et. apply prefix_cons_inv_2 in Hq. subst t.
    unfold SnapFile_Unmarshal, unmarshal. apply (fields_torn _ _ _ _ 8 q 0 1); [lia|done|done|done|done|done|].
    change (case_varint u32 (fun v => SnapFile0 <| sfCrc := v |>) 0 (8 :: q) 1 = DErr ErrUnexpectedEOF).
    unfold case_varint. change (negb (0 =? 0)) with false. cbv iota.
    apply at_pos_cons in Hat as (_ & _ & Hat). unfold is_u32 in Hc.
    rewrite (varint_torn u32 crc q) by (lia || congruence || done). done.
  - right. assert (decodes SnapFile_field keep_snap (put_varint 8 crc) SnapFile0 (mkSnapFile crc None None)) as Hdec.
    { pose proof (decodes_varint SnapFile_field keep_snap 8 1 u32 (fun v => mkSnapFile v None None) crc SnapFile0) as H.
      rewrite u32_small in H by done. apply H; [lia|done|done|lia|eauto with codec|unfold is_u32 in Hc; unfold is_u64; lia|done]. }
    destruct Hdec as (k & Hk & Hdec). unfold SnapFile_Unmarshal, unmarshal.
    destruct s as [|t s].
    { right. rewrite app_nil_r in *. apply (decodes_unmarshal SnapFile_field keep_snap (put_varint 8 crc)); [lia|]. by exists k. }
    left. rewrite length_app. replace (S _) with (k + S (length (put_varint 8 crc) + length (t :: s) - k))%nat by lia.
    erewrite Hdec; [|lia|exact Hat]. apply at_pos_app in Hat.
    apply prefix_cons_inv_1 in Hs as Et. apply prefix_cons_inv_2 in Hs. subst t.
    apply (fields_torn _ _ _ _ 18 s 2 2); [lia|done|done|done|done|done|].
    match goal with |- SnapFile_field _ _ ?data ?i ?m = _ =>
      change (case_bytes (fun b => m <| sfData := Some b |>) 2 data i = DErr ErrUnexpectedEOF) end.
    unfold case_bytes. change (negb (2 =? 2)) with false. cbv iota.
    apply at_pos_cons in Hat as (_ & _ & Hat).
    rewrite (delimited_torn b s); [done|done|congruence|lia|lia|done].
Qed.

(** Whatever a crash leaves of a snapshot file that is less than the whole is
    refused. *)
Lemma Read_torn sn p : snap_fits sn ->
  p `prefix_of` snap_bytes sn -> p <> snap_bytes sn -> exists e, Read p = Ok (inr e).
Proof.
  intros (Hwf & Hs) Hp Hne. unfold Read.
  destruct (SnapFile_torn (crc_Update 0 (Snapshot_MarshalTo sn)) (Snapshot_MarshalTo sn) p) as [->|[E|E]]; try done.
  - apply crc_Update_range.
  - rewrite Snapshot_len by done. lia.
  - by eexists.
  - zif; [by eexists|]. rewrite E. by eexists.
  - zif; [by eexists|]. rewrite E. by eexists.
Qed.

(** ** The newest file that is whole is the one that loads *)

Definition sn_name (sn : Snapshot) : list Z := snapName (smTerm (sMetadata sn)) (smIndex (sMetadata sn)).

(** The files named [*.snap] are what is left of snapshots that were saved;
    [P] is what is known of these. *)
Definition holds_snaps (P : Snapshot -> Prop) (c : dir) : Prop :=
  forall name f, c !! name = Some f -> HasSuffix name snapSuffix = true ->
    exists sn, snap_fits sn /\ P sn /\ name = sn_name sn /\ f_data f `prefix_of` snap_bytes sn.

Definition intact (c : dir) (sn : Snapshot) : Prop :=
  exists f, c !! sn_name sn = Some f /\ f_data f = snap_bytes sn.

(** The order in which [Load] prefers snapshots. *)
Definition not_newer (a b : Snapshot) : Prop :=
  smTerm (sMetadata a) < smTerm (sMetadata b) \/
  smTerm (sMetadata a) = smTerm (sMetadata b) /\ smIndex (sMetadata a) <= smIndex (sMetadata b).

Lemma sn_name_suffix sn : HasSuffix (sn_name sn) snapSuffix = true.
Proof. unfold sn_name, snapName. rewrite !app_assoc. apply HasSuffix_app. Qed.

Lemma sn_name_compare a b : Snapshot_wf a -> Snapshot_wf b ->
  bytes_compare (sn_name a) (sn_name b) =
    match smTerm (sMetadata a) ?= smTerm (sMetadata b) with
    | Eq => smIndex (sMetadata a) ?= smIndex (sMetadata b)
    | c => c
    end.
Proof.
  intros ((_ & Hia & Hta & _) & _) ((_ & Hib & Htb & _) & _). unfold sn_name, snapName, Sprintf_016x.
  rewrite bytes_compare_app_2 by by rewrite !hex_length. rewrite hex_compare by done.
  destruct (_ ?= _); try done. rewrite bytes_compare_app, bytes_compare_app_2 by by rewrite !hex_length.
  rewrite hex_compare by done. rewrite bytes_compare_refl. by destruct (_ ?= _).
Qed.

Lemma not_newer_name a b : Snapshot_wf a -> Snapshot_wf b -> bytes_compare (sn_name a) (sn_name b) <> Gt -> not_newer a b.
Proof.
  intros Ha Hb. rewrite sn_name_compare by done. unfold not_newer.
  destruct (Z.compare_spec (smTerm (sMetadata a)) (smTerm (sMetadata b))); [|by left|done].
  destruct (Z.compare_spec (smIndex (sMetadata a)) (smIndex (sMetadata b))); [right; lia|right; lia|done].
Qed.

Lemma broken_suffix name : HasSuffix (name ++ snapBroken) snapSuffix = false.
Proof.
  apply HasSuffix_false. intros p E. apply (f_equal (@rev Z)) in E. rewrite !rev_app_distr in E. discriminate E.
Qed.

Lemma loadSnap_spec name d sn : snap_fits sn -> fdata name (dk_dir d) `prefix_of` snap_bytes sn ->
  (fdata name (dk_dir d) = snap_bytes sn /\ loadable sn /\ loadSnap name d = Ok (d, inl sn)) \/
  exists e, Read (fdata name (dk_dir d)) = Ok (inr e) /\
    loadSnap name d = Ok (sys (frename name (name ++ snapBroken)) d, inr e).
Proof.
  intros Hok Hp. unfold loadSnap. destruct (decide (fdata name (dk_dir d) = snap_bytes sn)) as [E|E].
  - rewrite E, Read_saved by done. zif; [right; by eexists|]. left. by split_and!; [|split|].
  - right. destruct (Read_torn sn _ Hok Hp E) as [e ->]. by exists e.
Qed.

Lemma frename_other (old new name : list Z) (c : dir) : name <> old -> name <> new -> frename old new c !! name = c !! name.
Proof.
  intros. unfold frename. destruct (c !! old); [|done]. by rewrite lookup_insert_ne, lookup_delete_ne.
Qed.

Lemma Load_loop_spec (P : Snapshot -> Prop) names d :
  NoDup names ->
  (forall name, name ∈ names -> exists sn, snap_fits sn /\ P sn /\ name = sn_name sn /\ fdata name (dk_dir d) `prefix_of` snap_bytes sn) ->
  match Load_loop names d with
  | Ok (d', r) =>
      (forall sn, loadable sn -> intact (dk_dir d) sn -> intact (dk_dir d') sn) /\
      match r with
      | inl sn => exists l1 l2, names = l1 ++ sn_name sn :: l2 /\ loadable sn /\ P sn /\ fdata (sn_name sn) (dk_dir d) = snap_bytes sn /\
          forall sn', loadable sn' -> sn_name sn' ∈ l1 -> fdata (sn_name sn') (dk_dir d) <> snap_bytes sn'
      | inr e => e = ErrNoSnapshot /\ forall sn', loadable sn' -> sn_name sn' ∈ names -> fdata (sn_name sn') (dk_dir d) <> snap_bytes sn'
      end
  | Panic _ => False
  end.
Proof.
  revert d. induction names as [|name names IH]; intros d Hnd Hn.
  { cbn. split; [done|]. split; [done|]. intros sn' _ []%elem_of_nil. }
  apply NoDup_cons in Hnd as [Hni Hnd]. destruct (Hn name) as (sn & Hsn & HP & -> & Hp); [left|].
  cbn [Load_loop]. destruct (loadSnap_spec (sn_name sn) d sn Hsn Hp) as [(E & Hld & ->)|(e & E & ->)]; gosimpl.
  { split; [done|]. exists [], names. split_and!; [done|done|done|done|]. intros sn' _ []%elem_of_nil. }
  assert (forall sn', sn_name sn' <> sn_name sn ->
    frename (sn_name sn) (sn_name sn ++ snapBroken) (dk_dir d) !! sn_name sn' = dk_dir d !! sn_name sn') as Hother.
  { intros sn' Hne. apply frename_other; [done|]. intros E'. pose proof (sn_name_suffix sn') as H.
    by rewrite E', broken_suffix in H. }
  assert (forall sn', loadable sn' -> sn_name sn' = sn_name sn -> fdata (sn_name sn') (dk_dir d) <> snap_bytes sn') as Hsame.
  { intros sn' Hsn' En E'. rewrite <- En, E', Read_saved in E by apply Hsn'. zif in E; [|done]. by destruct Hsn'. }
  specialize (IH (sys (frename (sn_name sn) (sn_name sn ++ snapBroken)) d) Hnd). cbn [sys dk_dir] in IH.
  assert (forall sn', sn_name sn' ∈ names ->
    fdata (sn_name sn') (frename (sn_name sn) (sn_name sn ++ snapBroken) (dk_dir d)) = fdata (sn_name sn') (dk_dir d)) as Hfd.
  { intros sn' Hin. unfold fdata. rewrite Hother; [done|]. intros E'. by rewrite E' in Hin. }
  destruct (Load_loop names _) as [[d' r]|]; [|apply IH].
  2:{ intros name Hin. destruct (Hn name) as (sn' & Hsn' & HP' & -> & Hp'); [by right|]. exists sn'. by rewrite Hfd. }
  destruct IH as [Hint IH].
  { intros name Hin. destruct (Hn name) as (sn' & Hsn' & HP' & -> & Hp'); [by right|]. exists sn'. by rewrite Hfd. }
  split.
  { intros sn' Hsn' (f & Hf & Ef). apply Hint; [done|]. exists f. split; [|done]. rewrite Hother; [done|].
    intros En. apply (Hsame sn' Hsn' En). unfold fdata. by rewrite Hf. }
  destruct r as [sn'|e'].
  - destruct IH as (l1 & l2 & -> & Hsn' & HP' & Ef & Hl). exists (sn_name sn :: l1), l2.
    split_and!; [done|done|done| |]; [rewrite Hfd in Ef; [done|set_solver]|].
    intros sn2 Hsn2 [E2|Hin]%elem_of_cons; [by apply Hsame|]. rewrite <- Hfd; [by apply Hl|set_solver].
  - destruct IH as [-> Hl]. split; [done|]. intros sn2 Hsn2 [E2|Hin]%elem_of_cons; [by apply Hsame|].
    rewrite <- Hfd; [by apply Hl|done].
Qed.

Lemma rev_reverse {A : Type} (l : list A) : rev l = reverse l.
Proof. apply rev_alt. Qed.

Lemma snapNames_in c name : name ∈ snapNames c <-> is_Some (c !! name) /\ HasSuffix name snapSuffix = true.
Proof.
  unfold snapNames, checkSuffix, ReadDir. rewrite rev_reverse, elem_of_reverse, list_elem_of_filter, list_elem_of_fmap. split.
  - intros [Hs ([n f] & -> & Hin)]. cbn [fst] in *. apply om_items_get in Hin. split; [by exists f|done].
  - intros [[f Hf] Hs]. split; [done|]. exists (name, f). split; [done|]. by apply om_items_get.
Qed.

(** The names come in descending order. *)
Lemma snapNames_split c l1 l2 name n' : snapNames c = l1 ++ name :: l2 -> n' ∈ l2 -> bytes_lt n' name.
Proof.
  unfold snapNames. intros E Hin. apply (f_equal (@rev (list Z))) in E. rewrite rev_involutive, rev_app_distr in E.
  cbn [rev] in E. assert (StronglySorted bytes_lt (checkSuffix (ReadDir c))) as Hs.
  { unfold checkSuffix, ReadDir. rewrite filter_fst. apply sorted_filter, om_items_sorted. }
  rewrite E, <- app_assoc in Hs. apply StronglySorted_app_1_elem_of with (x1 := n') (x2 := name) in Hs; [done| |].
  - by rewrite rev_reverse, elem_of_reverse.
  - set_solver.
Qed.

Lemma snapNames_NoDup c : NoDup (snapNames c).
Proof. unfold snapNames. rewrite rev_reverse, reverse_Permutation. apply NoDup_filter. apply om_items_NoDup. Qed.

Lemma Load_spec P d : holds_snaps P (dk_dir d) ->
  match Load d with
  | Ok (d', inl sn) =>
      loadable sn /\ P sn /\ intact (dk_dir d) sn /\
      (forall sn', loadable sn' -> intact (dk_dir d) sn' -> intact (dk_dir d') sn' /\ not_newer sn' sn)
  | Ok (d', inr e) => e = ErrNoSnapshot /\ forall sn', loadable sn' -> ~ intact (dk_dir d) sn'
  | Panic _ => False
  end.
Proof.
  intros Hd. unfold Load. pose proof (Load_loop_spec P (snapNames (dk_dir d)) d (snapNames_NoDup _)) as H.
  ospecialize (H _).
  { intros name [[f Hf] Hs]%snapNames_in. destruct (Hd name f Hf Hs) as (sn' & ? & ? & -> & ?). exists sn'.
    unfold fdata. by rewrite Hf. }
  assert (forall sn, intact (dk_dir d) sn -> sn_name sn ∈ snapNames (dk_dir d) /\ fdata (sn_name sn) (dk_dir d) = snap_bytes sn) as Hin.
  { intros sn (f & Hf & E). rewrite snapNames_in, Hf. unfold fdata. rewrite Hf. split; [|done]. split; [done|apply sn_name_suffix]. }
  destruct (Load_loop _ d) as [[d' [sn|e]]|]; [destruct H as [Hk H]|destruct H as [Hk H]|done].
  - destruct H as (l1 & l2 & E & Hsn & HP & Ef & Hl). split; [done|]. split; [done|]. split.
    { assert (sn_name sn ∈ snapNames (dk_dir d)) as [[f Hf] _]%snapNames_in by (rewrite E; set_solver).
      exists f. split; [done|]. unfold fdata in Ef. by rewrite Hf in Ef. }
    intros sn' Hsn' Hint. split; [by apply Hk|]. destruct (Hin sn' Hint) as [Hmem Ef'].
    rewrite E in Hmem. apply elem_of_app in Hmem as [Hmem|Hmem]; [by apply Hl in Hmem|].
    apply not_newer_name; [apply Hsn'|apply Hsn|]. apply elem_of_cons in Hmem as [->|Hmem]; [by rewrite bytes_compare_refl|].
    pose proof (snapNames_split _ _ _ _ _ E Hmem) as Hlt. unfold bytes_lt in Hlt. by rewrite Hlt.
  - destruct H as [-> H]. split; [done|]. intros sn' Hsn' Hint. destruct (Hin sn' Hint). by eapply H.
Qed.

(** ** Saving and crashing keep the directory readable *)

Lemma holds_snaps_insert P c sn f : holds_snaps P c -> snap_fits sn -> P sn -> f_data f `prefix_of` snap_bytes sn ->
  holds_snaps P (<[sn_name sn := f]> c).
Proof.
  intros Hc Hsn HP Hp name f' Hf Hs. destruct (decide (name = sn_name sn)) as [->|Hne].
  - rewrite lookup_insert_eq in Hf. injection Hf as <-. by exists sn.
  - rewrite lookup_insert_ne in Hf by done. by apply (Hc name).
Qed.

Lemma holds_snaps_crashed P c c' : holds_snaps P c -> crashed c c' -> holds_snaps P c'.
Proof.
  intros Hc Hcr name f' Hf Hs. specialize (Hcr name). rewrite Hf in Hcr. destruct (c !! name) as [f|] eqn:E; [|done].
  destruct Hcr as (k & Hk & ->). destruct (Hc name f E Hs) as (sn & Hsn & HP & -> & Hp). exists sn. split_and!; [done|done|done|].
  cbn [f_data]. etrans; [apply prefix_take|done].
Qed.

Lemma holds_snaps_impl (P Q : Snapshot -> Prop) c : (forall sn, P sn -> Q sn) -> holds_snaps P c -> holds_snaps Q c.
Proof. intros HPQ Hc name f Hf Hs. destruct (Hc name f Hf Hs) as (sn & ? & ? & ? & ?). exists sn. auto. Qed.

Lemma SaveSnap_crash P sn d : snap_fits sn -> P sn -> holds_snaps P (dk_dir d) -> dk_past d = [] ->
  exists d', ss_SaveSnap sn d = Ok d' /\
    d' = (if IsEmptySnap sn then d else d') /\
    (IsEmptySnap sn = false -> dk_dir d' = <[sn_name sn := mkFile (snap_bytes sn) 0]> (dk_dir d)) /\
    holds_snaps P (dk_dir d') /\ forall c, crash d' c -> holds_snaps P c.
Proof.
  intros Hsn HP Hd Hp. pose proof Hsn as [Hwf Hs]. unfold ss_SaveSnap. destruct (IsEmptySnap sn) eqn:He.
  { exists d. split_and!; try done. intros c (c0 & Hin & Hcr). rewrite Hp in Hin.
    apply list_elem_of_singleton in Hin as ->. by eapply holds_snaps_crashed. }
  destruct (SnapFile_fits sn Hwf ltac:(lia)) as [Hw Hl]. unfold save, Snapshot_Marshal, SnapFile_Marshal.
  rewrite marshal_Ok by by apply Snapshot_len. gosimpl. rewrite marshal_Ok by by apply SnapFile_len. gosimpl.
  fold (sn_name sn). fold (snap_bytes sn). eexists. split; [done|]. split; [done|]. unfold sys, fwrite, fcreate_trunc. cbn [dk_dir dk_past].
  rewrite lookup_insert_eq, insert_insert_eq, Hp. split; [done|]. split; [by apply holds_snaps_insert|].
  intros c (c0 & Hin & Hcr). eapply holds_snaps_crashed; [|exact Hcr]. cbn [dk_dir dk_past app] in Hin.
  apply elem_of_cons in Hin as [->|Hin]; [done|].
  apply elem_of_cons in Hin as [->|Hin]; [apply holds_snaps_insert; [done|done|done|apply prefix_nil]|].
  apply elem_of_cons in Hin as [->|[]%elem_of_nil]. by apply holds_snaps_insert.
Qed.

Lemma sn_name_inj a b : Snapshot_wf a -> Snapshot_wf b -> sn_name a = sn_name b ->
  smTerm (sMetadata a) = smTerm (sMetadata b) /\ smIndex (sMetadata a) = smIndex (sMetadata b).
Proof.
  intros Ha Hb E. pose proof (sn_name_compare a b Ha Hb) as Hc. rewrite E, bytes_compare_refl in Hc.
  destruct (Z.compare_spec (smTerm (sMetadata a)) (smTerm (sMetadata b))); [|done|done].
  destruct (Z.compare_spec (smIndex (sMetadata a)) (smIndex (sMetadata b))); done.
Qed.

Lemma not_newer_anti a b : not_newer a b -> not_newer b a -> sn_name a = sn_name b.
Proof. unfold not_newer, sn_name. intros. f_equal; lia. Qed.

(** A file holds one snapshot. *)
Lemma saved_unique c a b : loadable a -> loadable b -> intact c a -> intact c b -> sn_name a = sn_name b -> a = b.
Proof.
  intros [Ha Hca] [Hb Hcb] (f & Hf & Ef) (f' & Hf' & Ef') En. rewrite En, Hf' in Hf. injection Hf as ->.
  pose proof (Read_saved a Ha) as R1. rewrite <- Ef, Ef', Read_saved in R1 by done.
  zif in R1; [done|]. zif in R1; [done|]. by injection R1.
Qed.

(** C23. Whatever a crash leaves of the directory while any snapshot is saved
    (with [index = 0], when nothing is written, included), [Load] returns the
    newest of the snapshots whose file is whole and whose checksum is not 0,
    keeping the files of all of these; it finds that there is none only when
    there is none.  What it returns was saved before ([P] holds of it).  A
    snapshot whose checksum happens to be 0 is not among them: [Read] takes the
    checksum for a missing one. *)
Theorem snapshots_survive P sn d : snap_fits sn -> P sn -> holds_snaps P (dk_dir d) -> dk_past d = [] ->
  exists d1, ss_SaveSnap sn d = Ok d1 /\ forall left, crash d1 left ->
    match Load (mkDisk left []) with
    | Ok (d2, inl sn') => P sn' /\ intact left sn' /\ loadable sn' /\
        (forall sn2, loadable sn2 -> intact left sn2 -> intact (dk_dir d2) sn2 /\ not_newer sn2 sn')
    | Ok (d2, inr e) => e = ErrNoSnapshot /\ forall sn2, loadable sn2 -> ~ intact left sn2
    | Panic _ => False
    end.
Proof.
  intros Hsn HP Hd Hp. destruct (SaveSnap_crash P sn d Hsn HP Hd Hp) as (d1 & Hs & _ & _ & _ & Hc).
  exists d1. split; [done|]. intros left Hcr. pose proof (Load_spec P (mkDisk left []) (Hc left Hcr)) as H.
  destruct (Load _) as [[d2 [sn'|e]]|]; [|done|done]. destruct H as (? & ? & ? & ?). done.
Qed.

(** C37. Without a crash.  [SaveSnap] of a snapshot with index 0 leaves the
    directory as it is.  After [SaveSnap] of any other, [Load] returns the
    snapshot just saved, if its checksum is not 0 and no whole file of the
    directory has a newer name; if one has, [Load] returns a snapshot of before,
    at least as new as that one; and a snapshot whose checksum is 0 is not
    returned. *)
Theorem SaveSnap_Load sn d : snap_fits sn -> holds_snaps (fun _ => True) (dk_dir d) -> dk_past d = [] ->
  exists d1, ss_SaveSnap sn d = Ok d1 /\ (smIndex (sMetadata sn) = 0 -> d1 = d) /\
  (smIndex (sMetadata sn) <> 0 -> exists d2 r, Load d1 = Ok (d2, r) /\
     (loadable sn -> (forall sn', loadable sn' -> intact (dk_dir d) sn' -> not_newer sn' sn) -> r = inl sn) /\
     (forall sn', loadable sn' -> intact (dk_dir d) sn' -> ~ not_newer sn' sn ->
        exists sn2, r = inl sn2 /\ intact (dk_dir d) sn2 /\ not_newer sn' sn2) /\
     (~ loadable sn -> r <> inl sn)).
Proof.
  intros Hsn Hd Hp. destruct (SaveSnap_crash (fun _ => True) sn d Hsn I Hd Hp) as (d1 & Hs & He & Hd1 & Hh & _).
  exists d1. split; [done|]. unfold IsEmptySnap in He, Hd1. split; [intros E; by rewrite E in He|]. intros Hi.
  specialize (Hd1 (proj2 (Z.eqb_neq _ _) Hi)). pose proof (Load_spec _ d1 Hh) as H.
  destruct (Load d1) as [[d2 r]|] eqn:El; [|done]. exists d2, r. split; [done|].
  assert (forall sn', sn_name sn' <> sn_name sn -> intact (dk_dir d1) sn' <-> intact (dk_dir d) sn') as Hother.
  { intros sn' Hne. unfold intact. by rewrite Hd1, lookup_insert_ne. }
  split_and!.
  - intros Hl Hnew. assert (intact (dk_dir d1) sn) as Hint by (eexists; rewrite Hd1; split; [apply lookup_insert_eq|done]).
    destruct r as [sn'|e]; [|by destruct (proj2 H sn Hl)]. destruct H as (Hsn' & _ & Hf & Hall).
    f_equal. eapply saved_unique; [exact Hsn'|exact Hl|exact Hf|exact Hint|]. apply not_newer_anti; [|by apply Hall].
    destruct (decide (sn_name sn' = sn_name sn)) as [En|En]; [|apply Hnew; [done|by apply Hother]].
    apply not_newer_name; [apply Hsn'|apply Hsn|]. by rewrite En, bytes_compare_refl.
  - intros sn' Hl' Hint' Hnn. assert (sn_name sn' <> sn_name sn) as Hne.
    { intros En. apply Hnn, not_newer_name; [apply Hl'|apply Hsn|]. by rewrite En, bytes_compare_refl. }
    apply Hother in Hint'; [|done]. destruct r as [sn2|e]; [|by destruct (proj2 H sn' Hl')].
    destruct H as (Hsn2 & _ & Hf & Hall). destruct (Hall sn' Hl' Hint') as [_ Hle]. exists sn2. split; [done|]. split; [|done].
    apply Hother; [|done]. intros En. apply sn_name_inj in En as [E1 E2]; [|apply Hsn2|apply Hsn].
    apply Hnn. unfold not_newer in *. lia.
  - intros Hn ->. by destruct H.
Qed.
