(* ===== verification/ServerStorage.v ===== *)
(** * The server's stable storage and its restart

    [src/etcdserver/storage.go] and the start and restart functions of
    [src/etcdserver/raft.go]: the write-ahead log and the snapshot files kept
    side by side, [readWAL] with its single repair, and the in-memory storage
    a restarted node begins with.  The two directories are two disks.  [grow]
    is the capacity Go gives a slice that [append] reallocates; [range] and
    [draw] are the orders and the random numbers of the raft node, as in
    [Raft]. *)

From S2P Require Import Prelude RaftPB Proto RaftCodec Storage Unstable RaftLog Progress Raft RawNode Delivery.
From S2P Require Import StorePB WalPB OrderedMap FileSys Wal Snap.

(** What the code stops the process with, [plog.Fatalf], is a panic. *)

(** [storage.SaveSnap] *)
Definition st_SaveSnap (w : WAL) (snap : Snapshot) (wd sd : disk) : outcome (WAL * disk * disk) :=
  let walsnap := mkWalSnapshot (smIndex (sMetadata snap)) (smTerm (sMetadata snap)) None in
  let! '(w, wd) := SaveSnapshot w walsnap wd in
  let! sd := ss_SaveSnap snap sd in
  match ReleaseLockTo w (smIndex (sMetadata snap)) with
  | Some w => Ok (w, wd, sd)
  | None => Panic "raft save snapshot error"
  end.

(** What [raftNode.start] does with a [Ready] on the two disks and on the
    in-memory storage. *)
Definition persist_ready (w : WAL) (ms : MemoryStorage) (rd : Ready) (wd sd : disk)
  : outcome (WAL * MemoryStorage * disk * disk) :=
  let! '(w, ms, wd, sd) :=
    (if negb (IsEmptySnap (rd_Snapshot rd))
     then let! '(w, wd, sd) := st_SaveSnap w (rd_Snapshot rd) wd sd in
          Ok (w, ms_ApplySnapshot ms (rd_Snapshot rd), wd, sd)
     else Ok (w, ms, wd, sd)) in
  let! '(w, wd) := Save w (rd_HardState rd) (rd_Entries rd) wd in
  let! '(ms, _) := ms_Append ms (rd_Entries rd) in
  Ok (w, ms, wd, sd).

Section restart.
  Context (grow : nat -> nat) (range : gmap Z Progress -> list Z) (draw : nat -> Z).

(** The loop of [readWAL]; it goes round at most twice. *)
Fixpoint readWAL_loop (fuel : nat) (repaired : bool) (snap : WalSnapshot) (d : disk)
  : outcome (WAL * (option (list Z) * HardState * list Entry) * disk) :=
  match fuel with
  | O => Panic "out of fuel"
  | S f =>
      let! r := Open snap d in
      match r with
      | inr _ => Panic "open wal error"
      | inl w =>
          let! '(w, res, err) := ReadAll grow w in
          match err with
          | None => Ok (w, res, d)
          | Some e =>
              let! d := w_Close w d in
              if repaired || negb (bool_decide (e = UnexpectedEOF))
              then Panic "read wal error and cannot be repaired" else
              let! '(ok, d) := Repair d in
              if negb ok then Panic "WAL error cannot be repaired" else readWAL_loop f true snap d
          end
      end
  end.

Definition readWAL (snap : WalSnapshot) (d : disk) : outcome (WAL * Z * Z * HardState * list Entry * disk) :=
  let! '(w, (wmetadata, st, ents), d) := readWAL_loop 2 false snap d in
  let! metadata := (MustUnmarshal wmetadata : outcome Metadata) in
  Ok (w, mdNodeID metadata, mdClusterID metadata, st, ents, d).

Definition numberOfCatchUpEntries : Z := 5000.
Definition maxSizePerMsg : Z := 1 * 1024 * 1024.
Definition maxInflightMsgs : Z := 4096 / 8.

(** The fields of [ServerConfig] that are used. *)
Record node_cfg := mkNodeCfg { nc_ElectionTicks : Z; nc_V3demo : bool }.

Definition node_config (cfg : node_cfg) (id : Z) (s : MemoryStorage) (checkQuorum : bool) : Config MemoryStorage :=
  mkConfig id [] (nc_ElectionTicks cfg) 1 s 0 maxSizePerMsg maxInflightMsgs checkQuorum.

(** The storage of a restarted node. *)
Definition restart_storage (snapshot : option Snapshot) (st : HardState) (ents : list Entry) : outcome MemoryStorage :=
  let s := NewMemoryStorage in
  let s := match snapshot with Some snap => ms_ApplySnapshot s snap | None => s end in
  let s := ms_SetHardState s st in
  let! '(s, _) := ms_Append s ents in Ok s.

Definition start_snap (snapshot : option Snapshot) : WalSnapshot :=
  match snapshot with
  | Some snap => mkWalSnapshot (smIndex (sMetadata snap)) (smTerm (sMetadata snap)) None
  | None => WalSnapshot0
  end.

(** Each [Tick] is a round of the node's loop; nobody takes its batches yet. *)
Definition advanceTicksForElection (n : node MemoryStorage) (electionTicks : Z) : outcome (node MemoryStorage) :=
  foldM (fun n i => let! r := run_round range n (EvTick (draw i)) in
                    match r with Some n => Ok n | None => Ok n end)
    (seq 0 (Z.to_nat (electionTicks - 1))) n.

(** [startNode]: [id] and [cid] are the ids of the member and of the cluster;
    [peers] carries the members in JSON. *)
Definition startNode (cfg : node_cfg) (id cid : Z) (peers : list Peer) (d : disk)
  : outcome (node MemoryStorage * MemoryStorage * WAL * disk) :=
  let! metadata := Metadata_Marshal (mkMetadata id cid None) in
  let! r := Create (Some metadata) d in
  match r with
  | inr _ => Panic "create wal error"
  | inl (w, d) =>
      let s := NewMemoryStorage in
      let! n := StartNode (node_config cfg id s (nc_V3demo cfg)) peers in
      let! n := advanceTicksForElection n (nc_ElectionTicks cfg) in
      Ok (n, s, w, d)
  end.

Definition restartNode (cfg : node_cfg) (snapshot : option Snapshot) (d : disk)
  : outcome (Z * Z * node MemoryStorage * MemoryStorage * WAL * disk) :=
  let! '(w, id, cid, st, ents, d) := readWAL (start_snap snapshot) d in
  let! s := restart_storage snapshot st ents in
  let! n := RestartNode (node_config cfg id s (nc_V3demo cfg)) in
  let! n := advanceTicksForElection n (nc_ElectionTicks cfg) in
  Ok (id, cid, n, s, w, d).

(** ** A new cluster from one member's data *)

(** The entries up to the first that is not committed. *)
Fixpoint discard_uncommitted (ents : list Entry) (commit : Z) : list Entry :=
  match ents with
  | [] => []
  | ent :: ents' => if eIndex ent >? commit then [] else ent :: discard_uncommitted ents' commit
  end.

(** [getIDs]: the keys of the Go map, sorted *)
Definition getIDs_entry (ids : gset Z) (e : Entry) : outcome (gset Z) :=
  if negb (bool_decide (eType e = EntryConfChange)) then Ok ids else
  let! cc := (MustUnmarshal (eData e) : outcome ConfChange) in
  match ccType cc with
  | ConfChangeAddNode => Ok ({[ccNodeID cc]} ∪ ids)
  | ConfChangeRemoveNode => Ok (ids ∖ {[ccNodeID cc]})
  | ConfChangeUpdateNode => Ok ids
  | _ => Panic "ConfChange Type should be either ConfChangeAddNode or ConfChangeRemoveNode!"
  end.

Definition getIDs (snap : option Snapshot) (ents : list Entry) : outcome (list Z) :=
  let ids : gset Z := match snap with
    | Some snap => list_to_set (csNodes (smConfState (sMetadata snap)))
    | None => ∅
    end in
  let! ids := foldM getIDs_entry ents ids in
  Ok (merge_sort Z.le (elements ids)).

(** The loop of [createConfigChangeEnts]: the entries, [next] and [found]. *)
Fixpoint remove_ents (ids : list Z) (self term next : Z) : outcome (list Entry * Z * bool) :=
  match ids with
  | [] => Ok ([], next, false)
  | id :: ids' =>
      if id =? self then let! '(ents, next, _) := remove_ents ids' self term next in Ok (ents, next, true)
      else
        let! d := ConfChange_Marshal (ConfChange0 <| ccType := ConfChangeRemoveNode |> <| ccNodeID := id |>) in
        let e := Entry0 <| eType := EntryConfChange |> <| eData := Some d |> <| eTerm := term |> <| eIndex := next |> in
        let! '(ents, next, found) := remove_ents ids' self term (next ⊞ 1) in Ok (e :: ents, next, found)
  end.

(** [ctx] is the JSON of a member with the id [self] and two local URLs. *)
Definition createConfigChangeEnts (ctx : list Z) (ids : list Z) (self term index : Z) : outcome (list Entry) :=
  let! '(ents, next, found) := remove_ents ids self term (index ⊞ 1) in
  if found then Ok ents else
  let! d := ConfChange_Marshal (ConfChange0 <| ccType := ConfChangeAddNode |> <| ccNodeID := self |> <| ccContext := Some ctx |>) in
  Ok (ents ++ [Entry0 <| eType := EntryConfChange |> <| eData := Some d |> <| eTerm := term |> <| eIndex := next |>]).

Definition restartAsStandaloneNode (cfg : node_cfg) (ctx : Z -> list Z) (snapshot : option Snapshot) (d : disk)
  : outcome (Z * Z * node MemoryStorage * MemoryStorage * WAL * disk) :=
  let! '(w, id, cid, st, ents, d) := readWAL (start_snap snapshot) d in
  let ents := discard_uncommitted ents (hsCommit st) in
  let! ids := getIDs snapshot ents in
  let! toAppEnts := createConfigChangeEnts (ctx id) ids id (hsTerm st) (hsCommit st) in
  let ents := ents ++ toAppEnts in
  let! '(w, d) := Save w HardState0 toAppEnts d in
  let st := match last ents with Some e => st <| hsCommit := eIndex e |> | None => st end in
  let! s := restart_storage snapshot st ents in
  let! n := RestartNode (node_config cfg id s false) in
  Ok (id, cid, n, s, w, d).

(** ** A snapshot of the server *)

(** [EtcdServer.snapshot]: [data] is the store's own serialisation; the index
    the log is then compacted to. *)
Definition snapshot_ (snapi : Z) (confState : ConfState) (data : option (list Z)) (w : WAL) (ms : MemoryStorage) (wd sd : disk)
  : outcome (WAL * MemoryStorage * disk * disk) :=
  let! '(ms, snap, err) := ms_CreateSnapshot ms snapi (Some confState) data in
  match err with
  | Some ErrSnapOutOfDate => Ok (w, ms, wd, sd)
  | Some _ => Panic "unexpected create snapshot error"
  | None =>
      let! '(w, wd, sd) := st_SaveSnap w snap wd sd in
      let compacti := if snapi >? numberOfCatchUpEntries then snapi ⊟ numberOfCatchUpEntries else 1 in
      let! '(ms, err) := ms_Compact ms compacti in
      match err with
      | Some ErrCompacted | None => Ok (w, ms, wd, sd)
      | Some _ => Panic "unexpected compaction error"
      end
  end.
End restart.
