(* ===== verification/Standalone.v ===== *)
(** * A member restarted on its own

    [restartAsStandaloneNode] of [src/etcdserver/raft.go] drops what is not
    committed and appends configuration changes: once they are applied, the
    member is alone in its cluster. *)

From S2P Require Import Prelude RaftPB Proto RaftCodec Storage Unstable RaftLog Progress Raft RawNode Delivery.
From S2P Require Import StorePB WalPB OrderedMap FileSys Wal WalLog Snap ServerStorage.

Implicit Types (ids : list Z) (X : gset Z) (e : Entry).

Definition conf_entry (cc : ConfChange) (term index : Z) : Entry :=
  Entry0 <| eType := EntryConfChange |> <| eData := Some (ConfChange_MarshalTo cc) |> <| eTerm := term |> <| eIndex := index |>.

Definition conf_fits (cc : ConfChange) : Prop := ConfChange_wf cc /\ zlen (default [] (ccContext cc)) < max_data.

Lemma conf_size cc : conf_fits cc -> zlen (ConfChange_MarshalTo cc) < 9223372036854775808.
Proof.
  intros [Hwf Hc]. rewrite ConfChange_len by done. destruct Hwf as (_ & _ & _ & Hx).
  unfold ConfChange_Size. rewrite Hx. cbn [size_unrecognized].
  assert (forall v, sovRaft v <= 10) as Hs by (intros v; apply (sovRaft_loop_le 10)).
  assert (size_bytes (ccContext cc) <= 11 + zlen (default [] (ccContext cc))).
  { destruct (ccContext cc) as [b|]; cbn [size_bytes default from_option id]; [pose proof (Hs (zlen b)); lia|simpl; lia]. }
  pose proof (Hs (ccID cc)). pose proof (Hs (ccNodeID cc)). pose proof (Hs (u64 (ConfChangeType_num (ccType cc)))). lia.
Qed.

(** What a configuration change does to the set. *)
Definition conf_apply X (cc : ConfChange) : gset Z :=
  match ccType cc with
  | ConfChangeAddNode => {[ccNodeID cc]} ∪ X
  | ConfChangeRemoveNode => X ∖ {[ccNodeID cc]}
  | _ => X
  end.

Lemma getIDs_conf X cc term index : conf_fits cc -> ccType cc = ConfChangeAddNode \/ ccType cc = ConfChangeRemoveNode ->
  getIDs_entry X (conf_entry cc term index) = Ok (conf_apply X cc).
Proof.
  intros Hf Ht. unfold getIDs_entry, conf_entry. cbn [eType eData upd]. rewrite bool_decide_eq_true_2 by done. cbn [negb].
  rewrite (MustUnmarshal_marshalled cc) by (apply ConfChange_decodes; [apply Hf|by apply conf_size]).
  gosimpl. unfold conf_apply. by destruct Ht as [-> | ->].
Qed.

Definition remove_conf (id : Z) : ConfChange := ConfChange0 <| ccType := ConfChangeRemoveNode |> <| ccNodeID := id |>.

Lemma remove_fits id : is_u64 id -> conf_fits (remove_conf id).
Proof. intros H. repeat split; try done; apply H. Qed.

(** The ids other than [self] are removed. *)
Lemma remove_ents_spec ids self term next :
  Forall is_u64 ids -> 0 <= next -> next + zlen ids < MaxUint64 ->
  exists es next', remove_ents ids self term next = Ok (es, next', bool_decide (self ∈ ids)) /\
    next' = next + zlen es /\ zlen es <= zlen ids /\ contiguous next es /\
    forall X, foldM getIDs_entry es X = Ok (X ∖ (list_to_set ids ∖ {[self]})).
Proof.
  revert next. induction ids as [|id ids IH]; intros next Hids Hn Hmax.
  { exists [], next. split; [done|]. split_and!; [simpl; lia|done|apply contiguous_nil|]. intros X. cbn. f_equal. set_solver. }
  apply Forall_cons in Hids as [Hid Hids]. cbn [remove_ents length] in *. destruct (Z.eqb_spec id self) as [->|Hne].
  - destruct (IH next Hids Hn ltac:(lia)) as (es & next' & -> & -> & Hl & Hc & HX). gosimpl. exists es, (next + zlen es).
    rewrite bool_decide_eq_true_2 by left. split; [done|]. split_and!; [done|lia|done|]. intros X. rewrite HX. f_equal. cbn. set_solver.
  - fold (remove_conf id). unfold ConfChange_Marshal. pose proof (remove_fits id Hid) as Hf. rewrite marshal_Ok by (apply ConfChange_len, Hf). gosimpl.
    u64_simp. destruct (IH (next + 1) Hids ltac:(lia) ltac:(lia)) as (es & next' & -> & -> & Hl & Hc & HX). gosimpl.
    fold (conf_entry (remove_conf id) term next). eexists (conf_entry (remove_conf id) term next :: es), (next + 1 + zlen es).
    split; [do 2 f_equal; apply bool_decide_ext; set_solver|]. split_and!.
    + cbn [length]. lia.
    + cbn [length]. lia.
    + apply contiguous_cons. done.
    + intros X. cbn [foldM]. rewrite getIDs_conf by (done || by right). gosimpl. rewrite HX. f_equal. unfold conf_apply. cbn. set_solver.
Qed.

Lemma getIDs_set snapshot ents ids : getIDs snapshot ents = Ok ids ->
  exists X, foldM getIDs_entry ents (match snapshot with
      | Some snap => list_to_set (csNodes (smConfState (sMetadata snap)))
      | None => ∅ end) = Ok X /\ list_to_set ids = X.
Proof.
  unfold getIDs. intros (X & HX & H)%bind_Ok_inv. injection H as <-. exists X. split; [done|].
  apply set_eq. intros x. by rewrite elem_of_list_to_set, merge_sort_Permutation, elem_of_elements.
Qed.

Lemma getIDs_of snapshot ents X : foldM getIDs_entry ents (match snapshot with
      | Some snap => list_to_set (csNodes (smConfState (sMetadata snap)))
      | None => ∅ end) = Ok X -> getIDs snapshot ents = Ok (merge_sort Z.le (elements X)).
Proof. intros H. unfold getIDs. by rewrite H. Qed.

(** C39. A server restarted with a forced new cluster is alone: whatever members
    the snapshot and the entries of its log make, the configuration changes that
    [createConfigChangeEnts] appends follow the log without a gap and leave the
    server itself as the only member. *)
Theorem standalone_alone ctx snapshot ents self term index ids :
  is_u64 self -> zlen ctx < max_data -> getIDs snapshot ents = Ok ids -> Forall is_u64 ids ->
  0 <= index -> index + zlen ids + 2 < MaxUint64 ->
  exists es, createConfigChangeEnts ctx ids self term index = Ok es /\ contiguous (index + 1) es /\
    getIDs snapshot (ents ++ es) = Ok [self].
Proof.
  intros Hself Hctx Hids Hu Hi Hmax. destruct (getIDs_set _ _ _ Hids) as (X & HX & EX).
  unfold createConfigChangeEnts. u64_simp.
  destruct (remove_ents_spec ids self term (index + 1) Hu ltac:(lia) ltac:(lia)) as (es & next' & -> & -> & Hl & Hc & HR). gosimpl.
  assert (forall es' Y, foldM getIDs_entry es' X = Ok Y -> Y = {[self]} -> getIDs snapshot (ents ++ es') = Ok [self]) as Hfin.
  { intros es' Y HY ->. rewrite (getIDs_of _ _ {[self]}); [by rewrite elements_singleton|]. rewrite foldM_app, HX. exact HY. }
  destruct (bool_decide (self ∈ ids)) eqn:Ein.
  - exists es. split_and!; [done|done|]. eapply Hfin; [apply HR|]. apply bool_decide_eq_true_1 in Ein. rewrite <- EX. apply set_eq. intros x.
    rewrite elem_of_difference, elem_of_difference, elem_of_list_to_set, elem_of_singleton. destruct (decide (x = self)) as [->|]; tauto.
  - apply bool_decide_eq_false_1 in Ein. set (cc := ConfChange0 <| ccType := _ |> <| ccNodeID := self |> <| ccContext := _ |>).
    assert (conf_fits cc) as Hf by (repeat split; try done; apply Hself).
    unfold ConfChange_Marshal. rewrite marshal_Ok by (apply ConfChange_len, Hf). gosimpl.
    fold (conf_entry cc term (index + 1 + zlen es)). eexists. split; [done|]. split.
    { apply contiguous_app. split; [done|]. apply contiguous_cons. split; [done|apply contiguous_nil]. }
    eapply Hfin; [rewrite foldM_app, HR; cbn [gobind foldM]; rewrite getIDs_conf by (done || by left); done|].
    unfold conf_apply. cbn. set_solver.
Qed.

Definition trio : Snapshot := mkSnapshot None (mkSnapshotMetadata (mkConfState [3; 1; 2] None) 10 4 None) None.

Lemma standalone_alone_witness :
  exists es, createConfigChangeEnts [123; 125] [1; 2; 3] 2 5 10 = Ok es /\ contiguous (10 + 1) es /\
    getIDs (Some trio) ([] ++ es) = Ok [2].
Proof.
  apply (standalone_alone [123; 125] (Some trio) [] 2 5 10 [1; 2; 3]); [done|done|vm_compute; reflexivity|by repeat constructor|done|vm_compute; reflexivity].
Defined.
