(* ===== verification/WalRecover.v ===== *)
(** * The write-ahead log across a crash

    A log is created and written by any sequence of [Save] and [SaveSnapshot];
    the process dies between any two system calls.  [readWAL] then succeeds at
    every snapshot it can be asked for, repairing a torn record where there is
    one, and returns what was recorded up to some point that is not before the
    last sync. *)

From S2P Require Import Prelude RaftPB Proto RaftCodec Storage Unstable RaftLog Progress Raft RawNode Delivery.
From S2P Require Import StorePB WalPB OrderedMap FileSys Wal WalStream WalLog WalFiles WalSegs WalRead WalWrite WalSave Snap ServerStorage.

Implicit Types (sg cur : seg) (segs closed : list seg) (w : WAL) (d : disk).

(** ** Calls *)

Inductive wcall : Type :=
| CSave (st : HardState) (ents : list Entry)
| CSnap (s : WalSnapshot).
Implicit Types (c : wcall) (cs : list wcall) (before : list wop).

Definition call_ops c : list wop :=
  match c with CSave st ents => save_ops st ents | CSnap s => [OpSnap s] end.
Definition calls_ops cs : list wop := concat (call_ops <$> cs).

Definition do_call w c d : outcome (WAL * disk) :=
  match c with CSave st ents => Save w st ents d | CSnap s => SaveSnapshot w s d end.

(** The states the disk has left behind are of no interest once a call is over. *)
Definition settle d : disk := mkDisk (dk_dir d) [].

Definition do_calls w cs d : outcome (WAL * disk) :=
  foldM (fun '(w, d) c => do_call w c (settle d)) cs (w, d).

(** Whether a call syncs, given the hard state saved before it. *)
Definition call_syncs (prev : HardState) c : bool :=
  match c with
  | CSave st ents => mustSync st prev (zlen ents) && negb (IsEmptyHardState st && (zlen ents =? 0))
  | CSnap _ => true
  end.

(** How many of the operations a sequence of calls has synced. *)
Fixpoint synced before (n : nat) cs : nat :=
  match cs with
  | [] => n
  | c :: cs' =>
      let all := before ++ call_ops c in
      synced all (if call_syncs (last_state before) c then length all else n) cs'
  end.

(** A new log records the empty snapshot. *)
Definition ops0 : list wop := [OpSnap WalSnapshot0].
Definition recorded cs : list wop := ops0 ++ calls_ops cs.
Definition durable cs : list wop := take (synced ops0 1 cs) (recorded cs).

Lemma synced_app before n cs1 cs2 :
  synced before n (cs1 ++ cs2) = synced (before ++ calls_ops cs1) (synced before n cs1) cs2.
Proof.
  revert before n. induction cs1 as [|c cs1 IH]; intros before n; [by rewrite app_nil_r|].
  cbn [app synced]. rewrite IH. unfold calls_ops. cbn [fmap list_fmap concat]. by rewrite <- app_assoc.
Qed.

Lemma save_ops_empty st ents : save_ops st ents = [] <-> IsEmptyHardState st && (zlen ents =? 0) = true.
Proof.
  unfold save_ops. destruct ents as [|e ents]; cbn.
  - rewrite andb_true_r. by destruct (IsEmptyHardState st).
  - rewrite andb_false_r. done.
Qed.

Lemma take_prefix_le {A : Type} (n m : nat) (l : list A) : (n <= m)%nat -> take n l `prefix_of` take m l.
Proof. intros H. exists (drop n (take m l)). rewrite <- (take_drop n (take m l)) at 1. by rewrite take_take, Nat.min_l. Qed.

Section recover.
  Context (md : option (list Z)) (Hmd : item_fits (metadataType, md)).
  Abbreviation wal_ok := (wal_ok md origin0).
  Abbreviation survives := (survives md origin0).
  Abbreviation warm := (warm origin0).
  Abbreviation view := (view md origin0).

Lemma do_call_spec segs m w d c :
  wal_ok segs m w d -> warm segs w -> ops_ok (all_ops segs) (call_ops c) -> zlen segs < two64 ->
  exists w' d' segs' m', do_call w c (settle d) = Ok (w', d') /\ wal_ok segs' m' w' d' /\ warm segs' w' /\
    all_ops segs' = all_ops segs ++ call_ops c /\ (length segs' <= S (length segs))%nat /\ (m <= m')%nat /\
    (call_syncs (last_state (all_ops segs)) c = true -> m' = length (all_ops segs')) /\
    always (survives (take m (all_ops segs)) (all_ops segs')) d'.
Proof using Hmd.
  intros Hw Hwarm Hops Hseq. assert (wal_ok segs m w (settle d)) as Hw' by exact Hw.
  assert (always (survives (take m (all_ops segs)) (all_ops segs ++ call_ops c)) (settle d)) as Ha.
  { split; [constructor|]. exists segs, m. split_and!; [by eapply wal_ok_crash|done|by apply prefix_app_r]. }
  destruct c as [st ents|s]; cbn [do_call call_ops call_syncs] in *.
  - destruct (Save_spec md Hmd origin0 origin0_ok (take m (all_ops segs)) (all_ops segs ++ save_ops st ents) segs m w (settle d) st ents)
      as (w' & d' & segs' & m' & -> & H1 & H2 & H3 & H4 & H5 & H6 & H7); try done; [by left|].
    exists w', d', segs', m'. rewrite H3 in *. split_and!; try done. intros [Hsy Hne]%andb_true_iff.
    apply H6; [by rewrite (proj1 Hwarm)|]. rewrite save_ops_empty. by destruct (_ && _).
  - destruct Hops as [Ho _]. destruct (wal_ok_bound _ _ _ _ _ _ Hw) as [Hm _].
    destruct (SaveSnapshot_spec md origin0 origin0_ok (take m (all_ops segs)) (all_ops segs ++ [OpSnap s]) segs m w (settle d) s)
      as (w' & d' & segs' & -> & H1 & H2 & H3 & H4 & H5); try done.
    exists w', d', segs', (length (all_ops segs')). rewrite H3 in *. split_and!; try done; [by apply H2|lia|].
    rewrite length_app. lia.
Qed.

Lemma do_calls_spec cs segs m w d n :
  wal_ok segs m w d -> warm segs w -> ops_ok (all_ops segs) (calls_ops cs) -> zlen segs + zlen cs <= two64 -> (n <= m)%nat ->
  exists w' d' segs' m', do_calls w cs d = Ok (w', d') /\ wal_ok segs' m' w' d' /\ warm segs' w' /\
    all_ops segs' = all_ops segs ++ calls_ops cs /\ zlen segs' <= zlen segs + zlen cs /\
    (synced (all_ops segs) n cs <= m')%nat.
Proof using Hmd.
  revert segs m w d n. induction cs as [|c cs IH]; intros segs m w d n Hw Hwarm Hops Hlen Hn.
  { exists w, d, segs, m. unfold calls_ops. cbn. rewrite app_nil_r. split_and!; try done. lia. }
  unfold calls_ops in Hops. cbn [fmap list_fmap concat length] in Hops, Hlen. apply ops_ok_app in Hops as [Hops1 Hops2].
  destruct (do_call_spec segs m w d c Hw Hwarm Hops1) as (w1 & d1 & segs1 & m1 & H1 & H2 & H3 & H4 & H5 & H6 & H7 & _); [lia|].
  rewrite <- H4 in Hops2.
  destruct (IH segs1 m1 w1 d1 (if call_syncs (last_state (all_ops segs)) c then length (all_ops segs1) else n))
    as (w2 & d2 & segs2 & m2 & G1 & G2 & G3 & G4 & G5 & G6); try done; [lia| |].
  { destruct (call_syncs _ c); [by rewrite H7|lia]. }
  exists w2, d2, segs2, m2. unfold do_calls in *. cbn [foldM]. rewrite H1. gosimpl.
  split_and!; try done; [|cbn [length]; lia|].
  - rewrite G4, H4. unfold calls_ops. cbn [fmap list_fmap concat]. by rewrite <- app_assoc.
  - cbn [synced]. by rewrite <- H4.
Qed.

(** ** Reading after a crash *)

Section reading.
  Context (grow : nat -> nat) (start : WalSnapshot) (Hstart : is_u64 (wsIndex start)).

Lemma view_close d segs t cur w :
  view (dk_dir d) segs t -> last segs = Some cur -> w_f w = Some (seg_name cur) -> w_encoder w = None ->
  exists d', w_Close w d = Ok d' /\ view (dk_dir d') segs t.
Proof using.
  intros (closed & cur' & -> & Hok & Hd & Ht) Hl Hf He. rewrite last_snoc in Hl. injection Hl as ->.
  unfold w_Close, w_sync. rewrite Hf, He, Hf. gosimpl. eexists. split; [done|]. exists closed, cur. split_and!; try done.
  pose proof (dir_is_fsync _ _ _ _ Hd) as Hd'. exact Hd'.
Qed.

Lemma readWAL_loop_spec (c : dir) segs t :
  view c segs t -> gapless (wsIndex start) [] (all_ops segs) ->
  Forall (fun sn => wsIndex sn = wsIndex start -> wsTerm sn = wsTerm start) (snaps (all_ops segs)) ->
  (exists sn, sn ∈ snaps (all_ops segs) /\ wsIndex sn = wsIndex start) ->
  exists w d cur ents, readWAL_loop grow 2 false start (mkDisk c []) = Ok (w, (md, last_state (all_ops segs), ents), d) /\
    entries_read start (all_ops segs) ents /\ view (dk_dir d) segs [] /\ last segs = Some cur /\
    w_f w = Some (seg_name cur) /\ w_metadata w = md /\ w_seq w = sg_seq cur /\ w_state w = HardState0 /\
    w_encoder w = Some (newEncoder (seg_name cur) (og_crc (origin_after md origin0 segs))).
Proof using Hmd Hstart.
  intros Hv Hgap Hsn Hex. assert (og_index origin0 <= wsIndex start) as Hidx by (unfold is_u64 in Hstart; cbn; lia).
  set (d0 := mkDisk c []). assert (view (dk_dir d0) segs t) as Hv0 by exact Hv.
  destruct (decide (t = [])) as [->|Hne].
  - destruct (ReadAll_clean md Hmd grow start Hstart origin0 d0 segs origin0_ok Hv0 Hidx Hgap Hsn Hex)
      as (w & w' & cur & ents & H1 & H2 & H3 & H4 & H5 & H6 & H7 & H8 & H9).
    exists w', d0, cur, ents. cbn [readWAL_loop]. rewrite H1. gosimpl. rewrite H2. gosimpl. done.
  - destruct (ReadAll_torn md Hmd grow start Hstart origin0 d0 segs t origin0_ok Hv0 Hne Hidx Hgap Hsn)
      as (w & w' & cur & H1 & H2 & H3 & H4 & H5).
    destruct (view_close d0 segs t cur w' Hv0 H3 H4 H5) as (d1 & Hc & Hv1).
    destruct (Repair_spec md Hmd origin0 d1 segs t origin0_ok Hv1 Hne) as (d2 & Hr & Hv2 & _).
    destruct (ReadAll_clean md Hmd grow start Hstart origin0 d2 segs origin0_ok Hv2 Hidx Hgap Hsn Hex)
      as (w2 & w3 & cur2 & ents & G1 & G2 & G3 & G4 & G5 & G6 & G7 & G8 & G9).
    exists w3, d2, cur2, ents. cbn [readWAL_loop]. rewrite H1. gosimpl. rewrite H2. gosimpl. rewrite Hc. gosimpl.
    rewrite bool_decide_eq_true_2 by done. cbn [orb negb]. rewrite Hr. gosimpl. rewrite G1. gosimpl. rewrite G2. gosimpl. done.
Qed.
End reading.
End recover.

(** ** The snapshots that are recorded *)

Lemma snaps_agree ops s s' : ops_ok [] ops -> s ∈ snaps ops -> s' ∈ snaps ops -> wsIndex s' = wsIndex s -> wsTerm s' = wsTerm s.
Proof.
  induction ops as [|o ops IH] using rev_ind; [by intros _ ?%not_elem_of_nil|].
  intros [Hops [Ho _]]%ops_ok_app. rewrite snaps_app, !elem_of_app. cbn [app] in Ho.
  destruct o as [e|st|sn]; cbn; [intros [?|?%not_elem_of_nil] [?|?%not_elem_of_nil]; try done; by apply IH..|].
  destruct Ho as (_ & _ & Hag). rewrite Forall_forall in Hag.
  intros [H1|H1%list_elem_of_singleton] [H2|H2%list_elem_of_singleton] E; subst; auto.
  symmetry. by apply Hag.
Qed.

Lemma snaps_wf ops s : ops_ok [] ops -> s ∈ snaps ops -> WalSnapshot_wf s.
Proof.
  induction ops as [|o ops IH] using rev_ind; [by intros _ ?%not_elem_of_nil|].
  intros [Hops [Ho _]]%ops_ok_app. rewrite snaps_app, elem_of_app. intros [Hin|Hin]; [by apply IH|].
  destruct o as [e|st|sn]; cbn in Hin; [by apply not_elem_of_nil in Hin..|].
  apply list_elem_of_singleton in Hin as ->. by destruct Ho as [[_ ?] _].
Qed.

Definition node_metadata (id cid : Z) : list Z := Metadata_MarshalTo (mkMetadata id cid None).

Lemma node_metadata_fits id cid : is_u64 id -> is_u64 cid -> item_fits (metadataType, Some (node_metadata id cid)).
Proof.
  intros Hi Hc. split; [done|]. assert (maxWALEntrySizeLimit = 10485760) as -> by done.
  change (zlen (node_metadata id cid) + 64 <= 10485760). unfold node_metadata. rewrite Metadata_len by done. unfold Metadata_Size. cbn [mdNodeID mdClusterID mdXXX_unrecognized size_unrecognized].
  pose proof (sovRaft_bound id). pose proof (sovRaft_bound cid). lia.
Qed.

Lemma node_metadata_read id cid : is_u64 id -> is_u64 cid ->
  (MustUnmarshal (Some (node_metadata id cid)) : outcome Metadata) = Ok (mkMetadata id cid None).
Proof.
  intros Hi Hc. apply MustUnmarshal_marshalled. apply Metadata_decodes; [done|].
  pose proof (node_metadata_fits id cid Hi Hc) as [_ H]. assert (maxWALEntrySizeLimit = 10485760) as Hl by done.
  change (zlen (node_metadata id cid) + 64 <= maxWALEntrySizeLimit) in H. unfold node_metadata in H. lia.
Qed.

(** [readWAL] at a recorded snapshot of the log a crash left. *)
Lemma readWAL_spec (grow : nat -> nat) (id cid : Z) (c : dir) segs (t : list Z) (sn : WalSnapshot) :
  is_u64 id -> is_u64 cid -> view (Some (node_metadata id cid)) origin0 c segs t ->
  sn ∈ snaps (all_ops segs) -> gapless (wsIndex sn) [] (all_ops segs) ->
  exists w d ents, readWAL grow sn (mkDisk c []) = Ok (w, id, cid, last_state (all_ops segs), ents, d) /\
    entries_read sn (all_ops segs) ents.
Proof.
  intros Hi Hc Hv Hin Hgap. pose proof (node_metadata_fits id cid Hi Hc) as Hmd.
  assert (ops_ok [] (all_ops segs)) as Hops.
  { destruct Hv as (closed & cur & _ & Hok & _). by apply (ops_of_segs (Some (node_metadata id cid)) origin0). }
  destruct (readWAL_loop_spec _ Hmd grow sn (proj1 (snaps_wf _ _ Hops Hin)) c segs t Hv Hgap)
    as (w & d & cur & ents & Hr & He & _).
  { apply Forall_forall. intros s Hs. by apply (snaps_agree (all_ops segs)). }
  { by exists sn. }
  exists w, d, ents. split; [|done]. unfold readWAL. rewrite Hr. gosimpl. by rewrite node_metadata_read.
Qed.

Lemma crash_always (md : option (list Z)) d (c : dir) (R1 R2 : list wop) : item_fits (metadataType, md) ->
  always (survives md origin0 R1 R2) d -> crash d c ->
  exists segs t, view md origin0 c segs t /\ R1 `prefix_of` all_ops segs /\ all_ops segs `prefix_of` R2.
Proof.
  intros Hmd Ha Hc. destruct (always_crash _ _ _ Ha Hc) as (c0 & (segs & m & Hok & H1 & H2) & Hcr).
  destruct (crash_view md Hmd origin0 origin0_ok segs m c0 c Hok Hcr) as (segs' & t & Hv & H3 & H4).
  exists segs', t. split_and!; [done|by etrans|by etrans].
Qed.

(** C9. The log survives a crash.  A process creates the log, makes any calls
    that save entries, states and snapshots, each record within the size the
    decoder accepts, and crashes during one more.  Then a part [R] of what was
    recorded is left that holds all that was saved durably, and from each
    snapshot recorded in [R] after which no entry is missing (as after every
    one the log has not jumped over), [readWAL] repairs the log, if its end is
    torn, and returns the metadata, the last state, and entries without a gap
    that were all recorded: those of the log after the snapshot, and, only when
    the log has none, those that were overwritten, if the files still hold any
    ([entries_read]).  A crash during [Create], and a log that was reopened and
    written again, are outside. *)
Theorem wal_recovers (grow : nat -> nat) (id cid : Z) cs c (d0 : disk) :
  is_u64 id -> is_u64 cid -> dk_dir d0 = ∅ ->
  ops_ok ops0 (calls_ops (cs ++ [c])) -> zlen cs < MaxUint64 ->
  exists w0 d1 w d w' d',
    Create (Some (node_metadata id cid)) d0 = Ok (inl (w0, d1)) /\
    do_calls w0 cs d1 = Ok (w, d) /\ do_call w c (settle d) = Ok (w', d') /\
    forall left, crash d' left -> exists R,
      durable cs `prefix_of` R /\ R `prefix_of` recorded (cs ++ [c]) /\
      (forall i, a_off (slog R) <= i -> gapless i [] R) /\
      forall sn, sn ∈ snaps R -> gapless (wsIndex sn) [] R ->
        exists w2 d2 ents, readWAL grow sn (mkDisk left []) = Ok (w2, id, cid, last_state R, ents, d2) /\
          entries_read sn R ents.
Proof.
  intros Hi Hc Hd Hops Hlen. pose proof (node_metadata_fits id cid Hi Hc) as Hmd.
  destruct (Create_spec _ d0 Hmd Hd) as (w0 & d1 & HC & Hw0 & Hwarm0). exists w0, d1.
  unfold calls_ops in Hops. rewrite fmap_app, concat_app in Hops. apply ops_ok_app in Hops as [Hops1 Hops2].
  cbn [fmap list_fmap concat] in Hops2. rewrite app_nil_r in Hops2.
  destruct (do_calls_spec _ Hmd cs [seg0] 1 w0 d1 1 Hw0 Hwarm0 Hops1) as (w & d & segs & m & HR & Hw & Hwarm & Hall & Hzl & Hm);
    [cbn [length]; lia|done|]. cbn [length] in Hzl.
  destruct (do_call_spec _ Hmd segs m w d c Hw Hwarm) as (w' & d' & segs' & m' & HD & _ & _ & Hall' & _ & _ & _ & Ha);
    [by rewrite Hall|lia|].
  exists w, d, w', d'. split_and!; try done. intros left Hcr.
  destruct (crash_always _ d' left _ _ Hmd Ha Hcr) as (segs2 & t & Hv & H1 & H2). exists (all_ops segs2).
  assert (recorded (cs ++ [c]) = all_ops segs') as ->.
  { unfold recorded, calls_ops. rewrite fmap_app, concat_app, app_assoc. cbn. by rewrite app_nil_r, Hall', Hall. }
  split_and!; [|done| |].
  - etrans; [|exact H1]. unfold durable, recorded. rewrite Hall. apply take_prefix_le. exact Hm.
  - intros i. apply gapless_reached. destruct Hv as (closed & cur & _ & Hok & _).
    by apply (ops_of_segs (Some (node_metadata id cid)) origin0).
  - intros sn Hin Hgap. by apply (readWAL_spec grow id cid left segs2 t sn).
Qed.
