(* ===== verification/ServerRecover.v ===== *)
(** * A server restarts from what it saved

    The write-ahead log and the snapshot files together: whatever a crash
    leaves of the two directories, [Load] and [readWAL] succeed, and the
    in-memory storage the restarted node begins with holds the snapshot, the
    entries after it and the hard state as they were recorded. *)

From S2P Require Import Prelude RaftPB Proto RaftCodec Storage Unstable RaftLog Progress Raft RawNode Delivery.
From S2P Require Import StorePB WalPB OrderedMap FileSys Wal WalStream WalLog WalFiles WalSegs WalRead WalWrite WalSave Snap ServerStorage WalRecover.

Implicit Types (sg cur : seg) (segs closed : list seg) (w : WAL) (d wd sd : disk).

(** ** The locks of the log *)

Definition locks_ok w : Prop := Forall is_wal (w_locks w).

Lemma walName_is_wal s i : is_u64 s -> is_u64 i -> is_wal (walName s i).
Proof. intros Hs Hi. unfold is_wal. by rewrite parse_walName. Qed.

Lemma w_encode_locks w rec d w' d' : w_encode w rec d = Ok (w', d') -> w_locks w' = w_locks w.
Proof. unfold w_encode. destruct (w_encoder w); [|done]. intros ([e' d1] & _ & H)%bind_Ok_inv. by injection H as <- <-. Qed.

Lemma w_sync_locks w d w' d' : w_sync w d = Ok (w', d') -> w_locks w' = w_locks w.
Proof.
  unfold w_sync. destruct (w_encoder w) as [e|]; [destruct (flush e d)|]; cbn; destruct (w_f w); intros H; try done;
    by injection H as <- <-.
Qed.

Lemma saveEntry_locks w e d w' d' : saveEntry w e d = Ok (w', d') -> w_locks w' = w_locks w.
Proof.
  unfold saveEntry. intros (b & _ & H)%bind_Ok_inv. apply bind_Ok_inv in H as ([w1 d1] & H1 & H).
  injection H as <- <-. by apply w_encode_locks in H1.
Qed.

Lemma saveState_locks w st d w' d' : saveState w st d = Ok (w', d') -> w_locks w' = w_locks w.
Proof.
  unfold saveState. destruct (IsEmptyHardState st); [by intros [= <- <-]|].
  intros (b & _ & H)%bind_Ok_inv. by apply w_encode_locks in H.
Qed.

Lemma saveEntries_locks ents w d w' d' :
  foldM (fun '(w, d) e => saveEntry w e d) ents (w, d) = Ok (w', d') -> w_locks w' = w_locks w.
Proof.
  revert w d. induction ents as [|e ents IH]; intros w d; cbn [foldM]; [by intros [= <- <-]|].
  intros ([w1 d1] & H1 & H)%bind_Ok_inv. apply IH in H. by rewrite H, (saveEntry_locks _ _ _ _ _ H1).
Qed.

Lemma cut_locks w d w' d' : cut w d = Ok (w', d') -> locks_ok w -> locks_ok w'.
Proof.
  unfold cut. intros ([w1 d1] & H1 & H)%bind_Ok_inv Hl. apply w_sync_locks in H1.
  destruct (w_encoder w1) as [e|]; [|done]. apply bind_Ok_inv in H as ([w2 d2] & H2 & H).
  unfold cut_head, saveCrc in H2. apply bind_Ok_inv in H2 as ([w3 d3] & H3 & H2). apply bind_Ok_inv in H2 as ([w4 d4] & H4 & H2).
  apply bind_Ok_inv in H2 as ([w5 d5] & H5 & H2). apply w_encode_locks in H3, H4. apply saveState_locks in H5. apply w_sync_locks in H2.
  assert (w_locks w2 = w_locks w) as E by (rewrite H2, H5, H4, H3; exact H1).
  destruct (w_encoder w2) as [e2|]; [|done]. injection H as <- _. unfold locks_ok in *. cbn. rewrite E.
  apply Forall_app. split; [done|]. apply Forall_singleton, walName_is_wal; apply u64_range.
Qed.

Lemma Save_locks w st ents d w' d' : Save w st ents d = Ok (w', d') -> locks_ok w -> locks_ok w'.
Proof.
  unfold Save. destruct (_ && _); [by intros [= <- <-]|]. intros ([w1 d1] & H1 & H)%bind_Ok_inv Hl.
  apply bind_Ok_inv in H as ([w2 d2] & H2 & H). apply saveEntries_locks in H1. apply saveState_locks in H2.
  assert (locks_ok w2) as Hl2 by (unfold locks_ok in *; by rewrite H2, H1).
  destruct (w_f w2); [|done]. zif in H; [|by eapply cut_locks].
  destruct (mustSync _ _ _); [|by injection H as <- <-]. apply w_sync_locks in H. unfold locks_ok in *. by rewrite H.
Qed.

Lemma SaveSnapshot_locks w s d w' d' : SaveSnapshot w s d = Ok (w', d') -> w_locks w' = w_locks w.
Proof.
  unfold SaveSnapshot. intros (b & _ & H)%bind_Ok_inv. apply bind_Ok_inv in H as ([w1 d1] & H1 & H).
  apply w_encode_locks in H1. apply w_sync_locks in H. rewrite H, <- H1. by destruct (_ <? _).
Qed.

Lemma Create_locks md d w' d' : Create md d = Ok (inl (w', d')) -> locks_ok w'.
Proof.
  unfold Create. destruct (Exist _); [done|]. intros ([w1 d1] & H1 & H)%bind_Ok_inv.
  apply bind_Ok_inv in H as ([w2 d2] & H2 & H). apply bind_Ok_inv in H as ([w3 d3] & H3 & H). injection H as <- _.
  apply w_encode_locks in H1, H2. apply SaveSnapshot_locks in H3. unfold locks_ok. rewrite H3, H2, H1.
  apply Forall_singleton, walName_is_wal; done.
Qed.

(** ** [ReleaseLockTo] *)

(** A file whose name carries an index below [index]. *)
Definition name_below (index : Z) (n : list Z) : Prop := exists s i, parseWalName n = Some (s, i) /\ i < index.

Lemma release_point_spec k names index :
  Forall is_wal names ->
  exists found, release_point k names index = Some found /\
    match found with
    | Some p => (k <= p < k + length names)%nat /\ Forall (name_below index) (take (p - k) names)
    | None => Forall (name_below index) names
    end.
Proof.
  revert k. induction names as [|n names IH]; intros k Hw; [by exists None|]. apply Forall_cons in Hw as [Hn Hw].
  cbn [release_point]. unfold is_wal in Hn. destruct (parseWalName n) as [[s i]|] eqn:En; [|done]. zif.
  - eexists. split; [done|]. cbn [length]. rewrite Nat.sub_diag. split; [lia|done].
  - assert (name_below index n) as Hb by (exists s, i; split; [done|lia]).
    destruct (IH (S k) Hw) as ([p|] & -> & Hp); eexists; (split; [done|]); cbn [length] in *; [|by constructor].
    destruct Hp as [? Hp]. split; [lia|]. replace (p - k)%nat with (S (p - S k)) by lia. by constructor.
Qed.

(** [searchIndex] finds the last file that is not above the index. *)
Lemma searchIndex_last n names index j q name : searchIndex_loop n names index = Ok (Some j) ->
  (q < n)%nat -> names !! q = Some name -> name_below index name -> (q <= j)%nat.
Proof.
  induction n as [|n IH]; [done|]. cbn [searchIndex_loop]. intros (nm & Hat & H)%bind_Ok_inv Hq Hname (s & i & Hp & Hi).
  apply at_Ok in Hat as [_ Hat]. rewrite Nat2Z.id in Hat. destruct (parseWalName nm) as [[s' i']|] eqn:En; [|done].
  zif in H; [injection H as <-; lia|]. destruct (decide (q = n)) as [->|].
  - rewrite Hname in Hat. injection Hat as ->. rewrite Hp in En. injection En as -> ->. lia.
  - apply IH; [done|lia|done|]. by exists s, i.
Qed.

(** C38. [ReleaseLockTo] never releases a file that is needed: the files that are
    read when the log is opened at [index] stay locked. *)
Theorem ReleaseLockTo_keeps w index j : locks_ok w -> searchIndex (w_locks w) index = Ok (Some j) ->
  exists w' k, ReleaseLockTo w index = Some w' /\ w_locks w' = drop k (w_locks w) /\ (k <= j)%nat.
Proof.
  intros Hl Hs. unfold ReleaseLockTo. destruct (release_point_spec 0 (w_locks w) index Hl) as (found & -> & Hf).
  assert (forall q, (q < length (w_locks w))%nat -> Forall (name_below index) (take (S q) (w_locks w)) -> (q <= j)%nat) as Hle.
  { intros q Hq Hall. destruct (lookup_lt_is_Some_2 (w_locks w) q Hq) as [name Hn].
    eapply searchIndex_last; [exact Hs|done|exact Hn|]. rewrite Forall_forall in Hall. apply Hall.
    apply (list_elem_of_lookup_2 _ q). rewrite lookup_take_lt by lia. exact Hn. }
  set (m := match found with Some _ => _ | None => _ end). zif.
  - exists w, 0%nat. split; [done|]. split; [done|lia].
  - eexists _, (Z.to_nat m). split; [done|]. split; [done|]. destruct found as [p|]; unfold m in *.
    + destruct Hf as [Hp Hf]. rewrite Nat.sub_0_r in Hf. apply Hle; [lia|].
      by replace (S (Z.to_nat (Z.of_nat p - 1))) with p by lia.
    + destruct (Nat.eqb_spec (length (w_locks w)) 0); cbn [negb] in *; [lia|]. apply Hle; [lia|].
      by apply Forall_take.
Qed.

Lemma ReleaseLockTo_locks w index : locks_ok w -> exists w', ReleaseLockTo w index = Some w' /\ locks_ok w' /\
  w' = w <| w_locks := w_locks w' |>.
Proof.
  intros Hl. unfold ReleaseLockTo. destruct (release_point_spec 0 (w_locks w) index Hl) as (found & -> & _).
  set (k := match found with Some _ => _ | None => _ end). zif; eexists; (split; [done|]).
  - split; [done|]. by destruct w.
  - split; [|by destruct w]. unfold locks_ok in *. cbn. by apply Forall_drop.
Qed.

(** ** The storage of a restarted node *)

Definition start_index (snapshot : option Snapshot) : Z := wsIndex (start_snap snapshot).
Definition start_term (snapshot : option Snapshot) : Z := wsTerm (start_snap snapshot).

Lemma restart_storage_spec snapshot st ents :
  0 <= start_index snapshot -> start_index snapshot + 1 + zlen ents <= MaxUint64 ->
  contiguous (start_index snapshot + 1) ents ->
  exists ms, restart_storage snapshot st ents = Ok ms /\ ms_inv ms /\ ms_hardState ms = st /\
    ms_snapshot ms = default Snapshot0 snapshot /\
    ms_log ms = mkAlog (start_index snapshot) (start_term snapshot) ents.
Proof.
  intros Hi Hmax Hc. unfold restart_storage.
  set (s := match snapshot with Some snap => ms_ApplySnapshot NewMemoryStorage snap | None => NewMemoryStorage end).
  assert (ms_inv (ms_SetHardState s st) /\ ms_log (ms_SetHardState s st) = mkAlog (start_index snapshot) (start_term snapshot) [] /\
    ms_snapshot s = default Snapshot0 snapshot) as (Hinv & Hlog & Hsn).
  { destruct snapshot as [sn|]; unfold s; cbn [default from_option id].
    - destruct (ms_ApplySnapshot_spec NewMemoryStorage sn) as [H1 H2]; [|done]. cbn in Hi, Hmax. lia.
    - split; [apply NewMemoryStorage_inv|done]. }
  destruct (decide (ents = [])) as [->|Hne]; [by eexists|].
  destruct (append_unstable _ _ ents _ _ _ Hinv Hc Hne Hmax Hlog) as (ms & Ha & Hi' & Hs' & Hl'); [cbn [length]; lia|].
  exists ms. rewrite Ha. gosimpl. split_and!; try done.
  - by destruct (ms_Append_rest _ _ _ _ Ha) as [_ ->].
  - by rewrite Hs'.
  - by rewrite Hl', take_nil.
Qed.

(** ** Calls on the two disks *)

Inductive scall : Type :=
| SSave (st : HardState) (ents : list Entry)
| SSnap (sn : Snapshot).
Implicit Types (c : scall) (cs : list scall).

Definition on_wal c : wcall := match c with SSave st ents => CSave st ents | SSnap sn => CSnap (start_snap (Some sn)) end.

Definition do_scall w c wd sd : outcome (WAL * disk * disk) :=
  match c with
  | SSave st ents => let! '(w, wd) := Save w st ents wd in Ok (w, wd, sd)
  | SSnap sn => st_SaveSnap w sn wd sd
  end.
Definition do_scalls w cs wd sd : outcome (WAL * disk * disk) :=
  foldM (fun '(w, wd, sd) c => do_scall w c (settle wd) (settle sd)) cs (w, wd, sd).

(** The snapshots the files can hold. *)
Definition scall_ok c : Prop := match c with SSave _ _ => True | SSnap sn => snap_fits sn end.

(** The log knows about the snapshot. *)
Definition known (ops : list wop) (sn : Snapshot) : Prop := start_snap (Some sn) ∈ snaps ops.

(** A crash during a call that ends with [wd'] and [sd']: the snapshot file is
    written after the log. *)
Definition crash_both sd wd' sd' (lw ls : dir) : Prop :=
  crash wd' lw /\ crashed (dk_dir sd) ls \/ crashed (dk_dir wd') lw /\ crash sd' ls.

Lemma snaps_prefix R1 R2 s : R1 `prefix_of` R2 -> s ∈ snaps R1 -> s ∈ snaps R2.
Proof. intros [k ->] Hin. rewrite snaps_app. apply elem_of_app. by left. Qed.

Section servers.
  Context (md : option (list Z)) (Hmd : item_fits (metadataType, md)).

Definition server_ok segs (m : nat) w wd sd : Prop :=
  wal_ok md origin0 segs m w wd /\ warm origin0 segs w /\ locks_ok w /\ holds_snaps (known (take m (all_ops segs))) (dk_dir sd).

Lemma do_scall_spec segs m w wd sd c :
  server_ok segs m w wd sd -> ops_ok (all_ops segs) (call_ops (on_wal c)) -> scall_ok c -> zlen segs < two64 ->
  exists w' wd' sd' segs' m', do_scall w c (settle wd) (settle sd) = Ok (w', wd', sd') /\ server_ok segs' m' w' wd' sd' /\
    all_ops segs' = all_ops segs ++ call_ops (on_wal c) /\ (length segs' <= S (length segs))%nat /\ (m <= m')%nat /\
    (call_syncs (last_state (all_ops segs)) (on_wal c) = true -> m' = length (all_ops segs')) /\
    forall lw ls, crash_both sd wd' sd' lw ls ->
      exists segs2 t, view md origin0 lw segs2 t /\ take m (all_ops segs) `prefix_of` all_ops segs2 /\
        all_ops segs2 `prefix_of` all_ops segs' /\ holds_snaps (known (all_ops segs2)) ls.
Proof using Hmd.
  intros (Hw & Hwarm & Hl & Hh) Hops Hc Hseq.
  destruct (do_call_spec md Hmd segs m w wd (on_wal c) Hw Hwarm Hops Hseq)
    as (w1 & wd1 & segs1 & m1 & H1 & Hw1 & Hwarm1 & Hall & Hlen & Hm & Hsync & Ha).
  assert (take m (all_ops segs) `prefix_of` take m1 (all_ops segs1)) as Hgrow.
  { destruct (wal_ok_bound _ _ _ _ _ _ Hw) as [Hb _]. etrans; [apply (take_grow _ (all_ops segs) m (call_ops (on_wal c))); [done|reflexivity]|].
    rewrite Hall. by apply take_prefix_le. }
  assert (forall R, take m (all_ops segs) `prefix_of` R -> holds_snaps (known R) (dk_dir sd)) as Hkn.
  { intros R HR. eapply holds_snaps_impl; [|exact Hh]. intros sn. by apply snaps_prefix. }
  assert (forall lw, crash wd1 lw -> exists segs2 t, view md origin0 lw segs2 t /\
    take m (all_ops segs) `prefix_of` all_ops segs2 /\ all_ops segs2 `prefix_of` all_ops segs1) as Hcrash.
  { intros lw. by apply crash_always. }
  assert (forall lw, crashed (dk_dir wd1) lw -> exists segs2 t, view md origin0 lw segs2 t /\
    take m1 (all_ops segs1) `prefix_of` all_ops segs2 /\ all_ops segs2 `prefix_of` all_ops segs1) as Hafter.
  { intros lw Hcr. apply (crash_view md Hmd origin0 origin0_ok segs1 m1 (dk_dir wd1)); [by eapply wal_ok_crash|done]. }
  destruct c as [st ents|sn]; cbn [on_wal do_call do_scall call_ops scall_ok] in *.
  - exists w1, wd1, (settle sd), segs1, m1. rewrite H1. gosimpl. split; [done|].
    split; [split_and!; [done|done|by eapply Save_locks|by apply Hkn]|]. split_and!; try done.
    intros lw ls [[Hcw Hcs]|[Hcw (c0 & Hin & Hcs)]].
    + destruct (Hcrash lw Hcw) as (segs2 & t & ? & ? & ?). exists segs2, t. split_and!; try done.
      eapply holds_snaps_crashed; [by apply Hkn|done].
    + apply list_elem_of_singleton in Hin as ->. destruct (Hafter lw Hcw) as (segs2 & t & ? & ? & ?).
      exists segs2, t. split_and!; try done; [by etrans|]. eapply holds_snaps_crashed; [apply Hkn; by etrans|done].
  - specialize (Hsync eq_refl). assert (known (all_ops segs1) sn) as Hsn.
    { unfold known. rewrite Hall, snaps_app. apply elem_of_app. right. by left. }
    assert (take m1 (all_ops segs1) = all_ops segs1) as Hfull by (rewrite Hsync; apply firstn_all).
    rewrite Hfull in *.
    destruct (SaveSnap_crash (known (all_ops segs1)) sn (settle sd) Hc Hsn (Hkn _ Hgrow) eq_refl) as (sd1 & Hs1 & _ & _ & Hh1 & Hcs1).
    unfold st_SaveSnap. change (mkWalSnapshot _ _ None) with (start_snap (Some sn)). rewrite H1. gosimpl. rewrite Hs1. gosimpl.
    assert (locks_ok w1) as Hl1 by (unfold locks_ok in *; by rewrite (SaveSnapshot_locks _ _ _ _ _ H1)).
    destruct (ReleaseLockTo_locks w1 (smIndex (sMetadata sn)) Hl1) as (w2 & -> & Hl2 & E2).
    exists w2, wd1, sd1, segs1, m1. split; [done|]. split.
    { split_and!; [rewrite E2; exact Hw1|rewrite E2; exact Hwarm1|done|by rewrite Hfull]. }
    split_and!; try done.
    + intros lw ls [[Hcw Hcs]|[Hcw Hcs]].
      * destruct (Hcrash lw Hcw) as (segs2 & t & ? & ? & ?). exists segs2, t. split_and!; try done.
        eapply holds_snaps_crashed; [by apply Hkn|done].
      * destruct (Hafter lw Hcw) as (segs2 & t & ? & H2 & H3). exists segs2, t. split_and!; try done; [by etrans|].
        eapply holds_snaps_impl; [|by apply Hcs1]. intros sn'. by apply snaps_prefix.
Qed.

Lemma do_scalls_spec cs segs m w wd sd n :
  server_ok segs m w wd sd -> ops_ok (all_ops segs) (calls_ops (on_wal <$> cs)) -> Forall scall_ok cs ->
  zlen segs + zlen cs <= two64 -> (n <= m)%nat ->
  exists w' wd' sd' segs' m', do_scalls w cs wd sd = Ok (w', wd', sd') /\ server_ok segs' m' w' wd' sd' /\
    all_ops segs' = all_ops segs ++ calls_ops (on_wal <$> cs) /\ zlen segs' <= zlen segs + zlen cs /\
    (m <= m')%nat /\ (synced (all_ops segs) n (on_wal <$> cs) <= m')%nat.
Proof using Hmd.
  revert segs m w wd sd n. induction cs as [|c cs IH]; intros segs m w wd sd n Hw Hops Hcs Hlen Hn.
  { exists w, wd, sd, segs, m. unfold calls_ops. cbn. rewrite app_nil_r. split_and!; try done. lia. }
  apply Forall_cons in Hcs as [Hc Hcs]. unfold calls_ops in Hops. cbn [fmap list_fmap concat length] in Hops, Hlen.
  apply ops_ok_app in Hops as [Hops1 Hops2].
  destruct (do_scall_spec segs m w wd sd c Hw Hops1 Hc) as (w1 & wd1 & sd1 & segs1 & m1 & H1 & H2 & H4 & H5 & H6 & H7 & _); [lia|].
  rewrite <- H4 in Hops2.
  destruct (IH segs1 m1 w1 wd1 sd1 (if call_syncs (last_state (all_ops segs)) (on_wal c) then length (all_ops segs1) else n))
    as (w2 & wd2 & sd2 & segs2 & m2 & G1 & G2 & G4 & G5 & G6 & G7); try done; [lia| |].
  { destruct (call_syncs _ _); [by rewrite H7|lia]. }
  exists w2, wd2, sd2, segs2, m2. unfold do_scalls in *. cbn [foldM]. rewrite H1. gosimpl.
  split; [done|]. split; [done|]. split_and!; [|cbn [length]; lia|lia|].
  - rewrite G4, H4. unfold calls_ops. cbn [fmap list_fmap concat]. by rewrite <- app_assoc.
  - cbn [fmap list_fmap synced]. by rewrite <- H4.
Qed.
End servers.

(** The snapshot a restart begins with. *)
Definition loaded (r : Snapshot + serror) : option Snapshot := match r with inl sn => Some sn | inr _ => None end.

Lemma entries_indexed R e : ops_ok [] R -> OpEntry e ∈ R -> eIndex e < MaxUint64.
Proof.
  induction R as [|o R IH] using rev_ind; [by intros _ ?%not_elem_of_nil|].
  intros [Hops [Ho _]]%ops_ok_app [Hin|Hin%list_elem_of_singleton]%elem_of_app; [by apply IH|].
  subst o. by destruct Ho as (_ & _ & Hm & _).
Qed.

(** Reading the log at the snapshot that loads. *)
Lemma restart_reads grow (id cid : Z) lw segs t snapshot :
  is_u64 id -> is_u64 cid -> view (Some (node_metadata id cid)) origin0 lw segs t ->
  let R := all_ops segs in let i := start_index snapshot in
  start_snap snapshot ∈ snaps R -> gapless i [] R ->
  exists w2 d2 ents ms,
    readWAL grow (start_snap snapshot) (mkDisk lw []) = Ok (w2, id, cid, last_state R, ents, d2) /\
    entries_read (start_snap snapshot) R ents /\
    restart_storage snapshot (last_state R) ents = Ok ms /\ ms_inv ms /\ ms_hardState ms = last_state R /\
    ms_snapshot ms = default Snapshot0 snapshot /\ ms_log ms = mkAlog i (start_term snapshot) ents.
Proof.
  intros Hid Hcid Hv R i Hin Hgap.
  assert (ops_ok [] R) as Hops.
  { destruct Hv as (closed & cur & _ & Hok & _). by apply (ops_of_segs (Some (node_metadata id cid)) origin0). }
  destruct (readWAL_spec grow id cid lw segs t (start_snap snapshot) Hid Hcid Hv Hin Hgap) as (w2 & d2 & ents & Hr & He).
  fold R in He. exists w2, d2, ents. pose proof (er_contiguous _ _ _ He) as Hc.
  change (wsIndex (start_snap snapshot)) with i in Hc.
  assert (0 <= i) as Hi by (pose proof (proj1 (snaps_wf _ _ Hops Hin)) as H; unfold is_u64 in H; unfold i, start_index; lia).
  destruct (restart_storage_spec snapshot (last_state R) ents) as (ms & H1 & H2 & H3 & H4 & H5); [done| |done|].
  - fold i. pose proof (slog_ok_app [] R slog_ok_nil Hops) as ((_ & Hm & _) & Hle & _). rewrite Forall_forall in Hle.
    specialize (Hle _ Hin). cbn [app] in Hle, Hm. change (wsIndex (start_snap snapshot)) with i in Hle.
    destruct (decide (ents = [])) as [->|Hne]; [cbn [length]; lia|].
    destruct (proj2 (last_is_Some ents) Hne) as [e El]. rewrite last_lookup in El.
    pose proof (Hc _ _ El) as Hidx. assert (eIndex e < MaxUint64) as Hmax.
    { apply (entries_indexed R); [done|]. pose proof (er_recorded _ _ _ He) as Hrec. rewrite Forall_forall in Hrec.
      by apply Hrec, (list_elem_of_lookup_2 _ _ _ El). }
    assert (length ents <> 0%nat) by by destruct ents. lia.
  - exists ms. split_and!; done.
Qed.

(** C5. The server's state survives a crash.  A server that created its log and
    saved batches and snapshots, of sizes the decoders accept, crashes during a
    call, with any part of what was not synced lost from the log and the
    snapshot directory.  Then the log holds at least all that was saved durably
    before the call and nothing that was not recorded.  [Load] finds the newest
    snapshot that is whole and has a checksum other than 0, and the log has a
    record of it.  If no entry is missing after that snapshot, which is so
    unless the log has jumped over it to a newer snapshot, [readWAL] returns the
    node's identity, its last state and entries without a gap: those of the log
    after the snapshot, and, only when the log has none, recorded ones that were
    overwritten ([entries_read]).  The node's storage is made of these again,
    well formed.  A crash during [Create], and a log that was reopened and
    written again, are outside. *)
Theorem server_recovers (grow : nat -> nat) (id cid : Z) cs c :
  is_u64 id -> is_u64 cid -> ops_ok ops0 (calls_ops (on_wal <$> cs ++ [c])) -> Forall scall_ok (cs ++ [c]) ->
  zlen cs < MaxUint64 ->
  exists w0 d1 w wd sd w' wd' sd',
    Create (Some (node_metadata id cid)) disk0 = Ok (inl (w0, d1)) /\
    do_scalls w0 cs d1 disk0 = Ok (w, wd, sd) /\ do_scall w c (settle wd) (settle sd) = Ok (w', wd', sd') /\
    forall lw ls, crash_both sd wd' sd' lw ls -> exists R sd2 r,
      durable (on_wal <$> cs) `prefix_of` R /\ R `prefix_of` recorded (on_wal <$> cs ++ [c]) /\
      Load (mkDisk ls []) = Ok (sd2, r) /\
      (forall sn, loadable sn -> intact ls sn -> exists sn', r = inl sn' /\ not_newer sn sn') /\
      (forall sn, r = inl sn -> intact ls sn /\ start_snap (Some sn) ∈ snaps R) /\
      let i := start_index (loaded r) in
      (a_off (slog R) <= i -> gapless i [] R) /\
      (gapless i [] R -> exists w2 d2 ents ms,
         readWAL grow (start_snap (loaded r)) (mkDisk lw []) = Ok (w2, id, cid, last_state R, ents, d2) /\
         entries_read (start_snap (loaded r)) R ents /\
         restart_storage (loaded r) (last_state R) ents = Ok ms /\ ms_inv ms /\ ms_hardState ms = last_state R /\
         ms_snapshot ms = default Snapshot0 (loaded r) /\ ms_log ms = mkAlog i (start_term (loaded r)) ents).
Proof.
  intros Hi Hc Hops Hcs Hlen. pose proof (node_metadata_fits id cid Hi Hc) as Hmd.
  destruct (Create_spec _ disk0 Hmd eq_refl) as (w0 & d1 & HC & Hw0 & Hwarm0). exists w0, d1.
  rewrite fmap_app in Hops. unfold calls_ops in Hops. rewrite fmap_app, concat_app in Hops.
  apply ops_ok_app in Hops as [Hops1 Hops2]. cbn [fmap list_fmap concat] in Hops2. rewrite app_nil_r in Hops2.
  apply Forall_app in Hcs as [Hcs Hsc]. rewrite Forall_singleton in Hsc.
  assert (server_ok (Some (node_metadata id cid)) [seg0] 1 w0 d1 disk0) as Hs0.
  { split_and!; [done|done|by eapply Create_locks|]. intros name f Hf. change (dk_dir disk0) with (∅ : dir) in Hf. by rewrite lookup_empty in Hf. }
  destruct (do_scalls_spec _ Hmd cs [seg0] 1 w0 d1 disk0 1 Hs0 Hops1 Hcs) as (w & wd & sd & segs & m & HR & Hs & Hall & Hzl & Hm1 & Hm);
    [cbn [length]; lia|done|]. cbn [length] in Hzl.
  destruct (do_scall_spec _ Hmd segs m w wd sd c Hs) as (w' & wd' & sd' & segs' & m' & HD & _ & Hall' & _ & _ & _ & Hcr);
    [by rewrite Hall|done|lia|].
  exists w, wd, sd, w', wd', sd'. split_and!; try done. intros lw ls Hb.
  destruct (Hcr lw ls Hb) as (segs2 & t & Hv & H1 & H2 & Hh). exists (all_ops segs2).
  assert (WalSnapshot0 ∈ snaps (all_ops segs2)) as H0.
  { eapply snaps_prefix; [exact H1|]. rewrite Hall. destruct m as [|m]; [lia|]. by left. }
  assert (durable (on_wal <$> cs) `prefix_of` all_ops segs2) as Hdur.
  { etrans; [|exact H1]. unfold durable, recorded. rewrite Hall. apply take_prefix_le. exact Hm. }
  assert (all_ops segs2 `prefix_of` recorded (on_wal <$> cs ++ [c])) as Hrec.
  { unfold recorded, calls_ops. rewrite !fmap_app, concat_app, app_assoc. cbn. rewrite app_nil_r.
    etrans; [exact H2|]. rewrite Hall', Hall. done. }
  pose proof (Load_spec _ (mkDisk ls []) Hh) as HL. destruct (Load (mkDisk ls [])) as [[sd2 r]|]; [|done].
  exists sd2, r. split; [done|]. split; [done|]. split; [done|]. cbv zeta. split_and!.
  - destruct r as [sn'|e]; [destruct HL as (_ & _ & _ & HL)|destruct HL as [_ HL]]; intros sn Hsn Hint; [|by destruct (HL sn Hsn)].
    exists sn'. split; [done|]. by apply HL.
  - intros sn ->. destruct HL as (_ & Hk & Hint & _). by split.
  - apply gapless_reached. destruct Hv as (closed & cur & _ & Hok & _). by apply (ops_of_segs (Some (node_metadata id cid)) origin0).
  - apply (restart_reads grow id cid lw segs2 t (loaded r) Hi Hc Hv). destruct r as [sn|e]; [by apply HL|done].
Qed.
