(* ===== verification/WalExamples.v ===== *)
(** * The write-ahead log and the snapshot files on concrete runs

    Witnesses for the theorems of [WalRecover], and runs that show what the
    code does where those theorems need a hypothesis: entries that were
    overwritten come back, a record can be too large to be read, a log that
    was never finished cannot be opened, a snapshot is not on stable storage
    when [SaveSnap] returns. *)

From S2P Require Import Prelude RaftPB Proto RaftCodec Storage Unstable RaftLog Progress Raft RawNode Delivery.
From S2P Require Import StorePB WalPB OrderedMap FileSys Wal WalStream WalLog WalFiles WalSegs WalRead WalWrite WalSave Snap ServerStorage WalRecover ServerRecover.

Definition keys (prs : gmap Z Progress) : list Z := (map_to_list prs).*1.
Definition doubling (n : nat) : nat := (2 * n)%nat.

(** The conditions on recorded operations can be computed. *)
#[global] Instance op_ok_dec before o : Decision (op_ok before o).
Proof.
  unfold op_ok, op_wf, item_fits, Entry_wf, is_i32, HardState_wf, WalSnapshot_wf, is_i64, is_u64.
  destruct o; apply _.
Defined.
#[global] Instance ops_ok_dec before ops : Decision (ops_ok before ops).
Proof. revert before. induction ops as [|o ops IH]; intros before; cbn [ops_ok]; apply _. Defined.

Definition run_calls : list wcall :=
  [CSave (mkHardState 1 1 0 None) [ent 1 1; ent 2 1; ent 3 1]; CSave (mkHardState 2 2 3 None) [];
   CSnap (mkWalSnapshot 2 1 None)].

#[global] Instance WalSnapshot_eq_dec : EqDecision WalSnapshot.
Proof. solve_decision. Defined.

(** A property of all that a crash may leave, by going through it. *)
Lemma between (P : list wop -> Prop) `{forall R, Decision (P R)} R1 R2 R :
  R1 `prefix_of` R -> R `prefix_of` R2 ->
  forallb (fun n => bool_decide (P (take n R2))) (seq (length R1) (S (length R2) - length R1)) = true -> P R.
Proof.
  intros H1 [k ->] Hall. rewrite forallb_forall in Hall. apply prefix_length in H1.
  specialize (Hall (length R)). rewrite take_app_length in Hall.
  eapply bool_decide_eq_true_1, Hall, in_seq. rewrite length_app. lia.
Qed.

Definition last_call : wcall := CSave (mkHardState 2 2 4 None) [ent 4 2].

Lemma wal_recovers_witness :
  exists w0 d1 w d w' d',
    Create (Some (node_metadata 7 9)) disk0 = Ok (inl (w0, d1)) /\
    do_calls w0 run_calls d1 = Ok (w, d) /\ do_call w last_call (settle d) = Ok (w', d') /\
    forall left, crash d' left -> exists R, durable run_calls `prefix_of` R /\ R `prefix_of` recorded (run_calls ++ [last_call]) /\
      exists w2 d2 ents, readWAL doubling (mkWalSnapshot 2 1 None) (mkDisk left []) = Ok (w2, 7, 9, last_state R, ents, d2) /\
        [ent 3 1] `prefix_of` ents.
Proof.
  destruct (wal_recovers doubling 7 9 run_calls last_call disk0) as (w0 & d1 & w & d & w' & d' & H1 & H2 & H3 & H4);
    [done|done|done|by apply (bool_decide_unpack _); vm_compute|vm_compute; done|].
  exists w0, d1, w, d, w', d'. split; [exact H1|]. split; [exact H2|]. split; [exact H3|]. intros left Hc.
  destruct (H4 left Hc) as (R & Hlo & Hhi & Hg & Hr). exists R. split; [done|]. split; [done|].
  destruct (Hr (mkWalSnapshot 2 1 None)) as (w2 & d2 & ents & Hrd & He).
  - by apply (between (fun R => mkWalSnapshot 2 1 None ∈ snaps R) _ _ _ Hlo Hhi); vm_compute.
  - apply Hg. by apply (between (fun R => a_off (slog R) <= 2) _ _ _ Hlo Hhi); vm_compute.
  - exists w2, d2, ents. split; [done|]. etrans; [|exact (er_log _ _ _ He)].
    by apply (between (fun R => [ent 3 1] `prefix_of` after 2 (rlog 2 R)) _ _ _ Hlo Hhi); vm_compute.
Defined.

(** ** Entries that were overwritten come back *)

Definition on_new_log {A} (k : WAL -> disk -> outcome A) : outcome A :=
  let! r := Create (Some (node_metadata 7 9)) disk0 in
  match r with inl (w, d) => k w d | inr _ => Panic "create wal error" end.

(** Entries 2 and 3 of term 2 replace 2 to 5 of term 1; 3 is committed, applied
    and covered by a snapshot. *)
Definition overwrite_calls : list wcall :=
  [CSave (mkHardState 1 1 1 None) [ent 1 1; ent 2 1; ent 3 1; ent 4 1; ent 5 1];
   CSave (mkHardState 2 2 1 None) [ent 2 2; ent 3 2]; CSave (mkHardState 2 2 3 None) []; CSnap (mkWalSnapshot 3 2 None)].

Definition snap3 : Snapshot := mkSnapshot None (mkSnapshotMetadata (mkConfState [7] None) 3 2 None) None.

(** The in-memory storage of the node that made the calls. *)
Definition overwrite_memory : outcome MemoryStorage :=
  let! '(ms, _) := ms_Append NewMemoryStorage [ent 1 1; ent 2 1; ent 3 1; ent 4 1; ent 5 1] in
  let! '(ms, _) := ms_Append ms [ent 2 2; ent 3 2] in Ok ms.

Definition overwrite_restart : outcome MemoryStorage :=
  on_new_log (fun w d =>
    let! '(w, d) := do_calls w overwrite_calls d in
    let! '(w, id, cid, st, ents, d) := readWAL doubling (start_snap (Some snap3)) (settle d) in
    restart_storage (Some snap3) st ents).

(** What a node answers to a candidate whose log ends at [(i, t)]. *)
Definition votes_for (ms : MemoryStorage) (i t : Z) : outcome bool :=
  let! l := newLog ms in isUpToDate l i t.

Theorem ReadAll_revives_overwritten :
  ops_ok ops0 (calls_ops overwrite_calls) /\
  exists ms ms', overwrite_memory = Ok ms /\ overwrite_restart = Ok ms' /\
    a_ents (ms_log ms) = [ent 1 1; ent 2 2; ent 3 2] /\ a_ents (ms_log ms') = [ent 4 1; ent 5 1] /\
    votes_for ms 5 1 = Ok false /\ votes_for ms' 5 1 = Ok true.
Proof.
  split; [by apply (bool_decide_unpack _); vm_compute|]. eexists _, _.
  split; [vm_compute; reflexivity|]. split; [vm_compute; reflexivity|]. by vm_compute.
Qed.

(** ** A record the encoder accepts and the decoder refuses *)

Theorem oversized_record_unreadable e t data d rest crc :
  is_i64 t -> is_u32 (en_crc e) -> maxWALEntrySizeLimit <= zlen data < max_data ->
  exists ws buf e', encode e (mkWalRecord t 0 (Some data) None) d = Ok (e', write_all (en_f e) ws d) /\
    en_buf e' = buf /\ concat ws ++ buf = en_buf e ++ frame_bytes (en_crc e) (t, Some data) /\
    decode (mkDecoder (frame_bytes (en_crc e) (t, Some data) ++ rest) crc) = Ok (inr ErrMaxWALEntrySizeLimitExceeded).
Proof.
  intros Ht Hc [Hlo Hhi]. destruct (encode_spec e t 0 (Some data) d Ht Hc Hhi) as (ws & buf & He & Hb).
  exists ws, buf. eexists. split; [exact He|]. split; [done|]. cbn [stream] in Hb. rewrite app_nil_r in Hb. split; [done|].
  pose proof (frame_bytes_len (en_crc e) (t, Some data) Ht) as Hl.
  assert (maxWALEntrySizeLimit = 10485760) as Hlim by done.
  assert (zlen data <= WalRecord_Size (frame (en_crc e) (t, Some data)) < max_data + 64) as Hs.
  { unfold WalRecord_Size, frame. cbn [recType recCrc recData recXXX_unrecognized size_bytes size_unrecognized snd fst default from_option id].
    pose proof (sovRaft_bound (u64 t)). pose proof (sovRaft_bound (crc_Update (en_crc e) data)).
    pose proof (sovRaft_bound (zlen data)). lia. }
  unfold decode, readInt64. cbn [dc_in]. unfold frame_bytes. rewrite <- app_assoc.
  set (n := WalRecord_Size _) in *. set (h := PutUint64_le _) in *. assert (length h = 8%nat) as Hh by apply PutUint64_le_length.
  destruct (Nat.eqb_spec (length (h ++ WalRecord_MarshalTo (frame (en_crc e) (t, Some data)) ++ rest)) 0) as [E|_].
  { rewrite length_app in E. lia. }
  destruct (Nat.ltb_spec (length (h ++ WalRecord_MarshalTo (frame (en_crc e) (t, Some data)) ++ rest)) 8) as [E|_].
  { rewrite length_app in E. lia. }
  rewrite take_app_le, take_ge by lia. unfold h.
  rewrite Uint64_PutUint64_le by (unfold is_u64, u64; pose proof (Z.mod_pos_bound n two64); lia).
  rewrite i64_u64 by lia. assert (n >=? maxWALEntrySizeLimit = true) as -> by (apply Z.geb_le; lia).
  by rewrite orb_true_r.
Qed.

(** ** A log whose creation was interrupted *)

Theorem Create_not_atomic :
  exists w d left, Create (Some (node_metadata 7 9)) disk0 = Ok (inl (w, d)) /\ crash d left /\ Exist left = true /\
    exists msg, readWAL doubling WalSnapshot0 (mkDisk left []) = Panic msg.
Proof.
  set (empty_log := {[walName 0 0 := mkFile [] 0]} : dir).
  assert (match Create (Some (node_metadata 7 9)) disk0 with
    | Ok (inl (_, d)) => bool_decide (dk_past d !! 1%nat = Some empty_log)
    | _ => false
    end = true) as Hpast by (vm_compute; reflexivity).
  destruct (Create (Some (node_metadata 7 9)) disk0) as [[[w d]|e]|]; [|done|done].
  apply bool_decide_eq_true_1 in Hpast. exists w, d, empty_log. split; [done|]. split.
  - exists empty_log. split; [apply elem_of_app; left; by eapply list_elem_of_lookup_2|].
    intros name. unfold empty_log. destruct (decide (name = walName 0 0)) as [->|Hne].
    + rewrite lookup_singleton_eq. by exists 0%nat.
    + by rewrite lookup_singleton_ne.
  - split; [vm_compute; reflexivity|]. eexists. vm_compute. reflexivity.
Qed.

(** ** Snapshots *)

Definition snap_at (i t : Z) (data : list Z) : Snapshot :=
  mkSnapshot (Some data) (mkSnapshotMetadata (mkConfState [7] None) i t None) None.

#[global] Instance snap_fits_dec sn : Decision (snap_fits sn).
Proof.
  unfold snap_fits, Snapshot_wf, SnapshotMetadata_wf, ConfState_wf, is_u64. apply _.
Defined.
#[global] Instance scall_ok_dec c : Decision (scall_ok c).
Proof. destruct c; cbn [scall_ok]; apply _. Defined.

Lemma no_snaps P : holds_snaps P (dk_dir disk0).
Proof. intros name f Hf. change (dk_dir disk0) with (∅ : dir) in Hf. by rewrite lookup_empty in Hf. Qed.

#[global] Instance loadable_dec sn : Decision (loadable sn).
Proof. unfold loadable. apply _. Defined.

Lemma snapshots_survive_witness :
  exists d1, ss_SaveSnap (snap_at 2 1 [5]) disk0 = Ok d1 /\ forall left, crash d1 left ->
    match Load (mkDisk left []) with
    | Ok (d2, inl sn') => sn' = snap_at 2 1 [5]
    | Ok (d2, inr e) => e = ErrNoSnapshot /\ ~ intact left (snap_at 2 1 [5])
    | Panic _ => False
    end.
Proof.
  destruct (snapshots_survive (fun sn => sn = snap_at 2 1 [5]) (snap_at 2 1 [5]) disk0) as (d1 & H1 & H2);
    [by apply (bool_decide_unpack _); vm_compute|done|apply no_snaps|done|].
  exists d1. split; [exact H1|]. intros left Hc. specialize (H2 left Hc).
  destruct (Load _) as [[d2 [sn'|e]]|]; [by destruct H2| |done]. destruct H2 as [-> H2]. split; [done|].
  apply H2. by apply (bool_decide_unpack _); vm_compute.
Defined.

Lemma SaveSnap_Load_witness :
  exists d1, ss_SaveSnap (snap_at 2 1 [5]) disk0 = Ok d1 /\ exists d2, Load d1 = Ok (d2, inl (snap_at 2 1 [5])).
Proof.
  destruct (SaveSnap_Load (snap_at 2 1 [5]) disk0) as (d1 & H1 & _ & H2);
    [by apply (bool_decide_unpack _); vm_compute|apply no_snaps|done|].
  exists d1. split; [exact H1|]. destruct (H2 ltac:(done)) as (d2 & r & H3 & H4 & _). exists d2. rewrite H3, H4; [done| |].
  - by apply (bool_decide_unpack _); vm_compute.
  - intros sn' _ (f & Hf & _). change (dk_dir disk0) with (∅ : dir) in Hf. by rewrite lookup_empty in Hf.
Defined.

Definition run_scalls : list scall :=
  [SSave (mkHardState 1 1 0 None) [ent 1 1; ent 2 1; ent 3 1]; SSave (mkHardState 2 2 3 None) [];
   SSnap (snap_at 2 1 [5])].

Definition last_scall : scall := SSave (mkHardState 2 2 4 None) [ent 4 2].

Lemma server_recovers_witness :
  exists w0 d1 w wd sd w' wd' sd',
    Create (Some (node_metadata 7 9)) disk0 = Ok (inl (w0, d1)) /\
    do_scalls w0 run_scalls d1 disk0 = Ok (w, wd, sd) /\
    do_scall w last_scall (settle wd) (settle sd) = Ok (w', wd', sd') /\
    forall lw ls, crash_both sd wd' sd' lw ls -> exists R sd2 r,
      durable (on_wal <$> run_scalls) `prefix_of` R /\ Load (mkDisk ls []) = Ok (sd2, r) /\
      exists w2 d2 ents ms,
        readWAL doubling (start_snap (loaded r)) (mkDisk lw []) = Ok (w2, 7, 9, last_state R, ents, d2) /\
        restart_storage (loaded r) (last_state R) ents = Ok ms /\ ms_inv ms /\
        ms_log ms = mkAlog (start_index (loaded r)) (start_term (loaded r)) ents.
Proof.
  destruct (server_recovers doubling 7 9 run_scalls last_scall)
    as (w0 & d1 & w & wd & sd & w' & wd' & sd' & H1 & H2 & H3 & H4);
    [done|done|by apply (bool_decide_unpack _); vm_compute|by apply (bool_decide_unpack _); vm_compute|vm_compute; done|].
  exists w0, d1, w, wd, sd, w', wd', sd'. split; [exact H1|]. split; [exact H2|]. split; [exact H3|]. intros lw ls Hc.
  destruct (H4 lw ls Hc) as (R & sd2 & r & Hlo & Hhi & HL & _ & Hr & Hg & HR). exists R, sd2, r. split; [done|]. split; [done|].
  destruct HR as (w2 & d2 & ents & ms & G1 & _ & G2 & G3 & _ & _ & G4); [|exists w2, d2, ents, ms; exact (conj G1 (conj G2 (conj G3 G4)))].
  apply Hg. trans 0; [by apply (between (fun R => a_off (slog R) <= 0) _ _ _ Hlo Hhi); vm_compute|].
  destruct r as [sn|e]; [|done]. destruct (Hr sn eq_refl) as [_ Hin]. change (0 <= wsIndex (start_snap (Some sn))).
  revert Hin. generalize (start_snap (Some sn)). intros s Hin. assert (Forall (fun s => 0 <= wsIndex s) (snaps R)) as Hall.
  { by apply (between (fun R => Forall (fun s => 0 <= wsIndex s) (snaps R)) _ _ _ Hlo Hhi); vm_compute. }
  rewrite Forall_forall in Hall. by apply Hall.
Defined.

(** A snapshot whose checksum is zero counts as no snapshot. *)
Definition zero_crc : Snapshot :=
  mkSnapshot (Some [152; 144; 252; 56]) (mkSnapshotMetadata (mkConfState [] None) 1 1 None) None.

Theorem Read_refuses_zero_checksum :
  Snapshot_wf zero_crc /\ IsEmptySnap zero_crc = false /\
  exists d1 d2, ss_SaveSnap zero_crc disk0 = Ok d1 /\ Load d1 = Ok (d2, inr ErrNoSnapshot).
Proof.
  split; [by repeat split|]. split; [done|].
  assert (match ss_SaveSnap zero_crc disk0 with
    | Ok d => match Load d with Ok (_, inr ErrNoSnapshot) => true | _ => false end
    | Panic _ => false
    end = true) as H by (vm_compute; reflexivity).
  destruct (ss_SaveSnap zero_crc disk0) as [d1|]; [|done]. destruct (Load d1) as [[d2 [|[]]]|] eqn:El; try done.
  by exists d1, d2.
Qed.

(** A follower receives the snapshot at 10 and the entry after it; a crash then
    takes the snapshot file, which was never synced, and the server does not
    come up again. *)
Definition lost_run : outcome (disk * disk) :=
  on_new_log (fun w d =>
    let! '(w, wd, sd) := do_scalls w [SSnap (snap_at 10 2 [5]); SSave (mkHardState 2 0 11 None) [ent 11 2]] d disk0 in
    Ok (wd, sd)).

Theorem SaveSnap_not_stable :
  exists wd sd left sd2 msg, lost_run = Ok (wd, sd) /\ crash sd left /\ Load (mkDisk left []) = Ok (sd2, inr ErrNoSnapshot) /\
    restartNode doubling keys (fun _ => 0) (mkNodeCfg 10 false) None (settle wd) = Panic msg.
Proof.
  set (n := sn_name (snap_at 10 2 [5])). set (c := {[n := mkFile (snap_bytes (snap_at 10 2 [5])) 0]} : dir).
  assert (match lost_run with Ok (_, sd) => bool_decide (dk_dir sd = c) | Panic _ => false end = true) as Hsd
    by (vm_compute; reflexivity).
  assert ((let! '(wd, sd) := lost_run in restartNode doubling keys (fun _ => 0) (mkNodeCfg 10 false) None (settle wd)) =
    Panic "slice bounds out of range") as Hwd by (vm_compute; reflexivity).
  assert (match Load (mkDisk {[n := mkFile [] 0]} []) with Ok (_, inr ErrNoSnapshot) => true | _ => false end = true) as Hl
    by (vm_compute; reflexivity).
  destruct lost_run as [[wd sd]|]; cbn [gobind] in Hwd; [|discriminate Hsd]. apply bool_decide_eq_true_1 in Hsd.
  destruct (Load _) as [[sd2 [|[]]]|] eqn:El; try discriminate Hl.
  exists wd, sd, {[n := mkFile [] 0]}, sd2, "slice bounds out of range"%string. split; [reflexivity|]. split; [|split; [exact El|exact Hwd]].
  exists c. split; [rewrite Hsd; apply elem_of_app; right; by left|].
  intros name. unfold c. destruct (decide (name = n)) as [->|Hne].
  - rewrite !lookup_singleton_eq. exists 0%nat. split; [apply Nat.le_refl|]. cbn [f_data]. rewrite take_0. reflexivity.
  - by rewrite !lookup_singleton_ne.
Qed.

(** ** A log that was reopened *)

(** After a restart the log does not know the hard state it has read nor the
    index it has reached: the next file it starts lacks the one and is named
    after the other. *)
Definition reopened : outcome (WAL * disk) :=
  on_new_log (fun w d =>
    let! '(w, d) := do_calls w [CSnap (mkWalSnapshot 10 2 None); CSave (mkHardState 2 2 10 None) []] d in
    let! '(w, id, cid, st, ents, d) := readWAL doubling (mkWalSnapshot 10 2 None) (settle d) in
    if isHardStateEqual st (mkHardState 2 2 10 None) then Ok (w, d) else Panic "the hard state was not read").

Theorem reopened_log_forgets :
  exists w d w' d' msg, reopened = Ok (w, d) /\ w_state w = HardState0 /\ w_enti w = 0 /\
    cut w d = Ok (w', d') /\ w_f w' = Some (walName 1 1) /\
    readWAL doubling (mkWalSnapshot 10 2 None) (settle d') = Panic msg.
Proof.
  assert ((let! '(w, d) := reopened in let! '(w', d') := cut w d in Ok (w_state w, w_enti w, w_f w')) =
    Ok (HardState0, 0, Some (walName 1 1))) as Hw by (vm_compute; reflexivity).
  assert ((let! '(w, d) := reopened in let! '(w', d') := cut w d in
    let! _ := readWAL doubling (mkWalSnapshot 10 2 None) (settle d') in Ok tt) =
    Panic "read wal error and cannot be repaired") as Hr by (vm_compute; reflexivity).
  destruct reopened as [[w d]|]; cbn [gobind] in Hw, Hr; [|done]. exists w, d.
  destruct (cut w d) as [[w' d']|] eqn:Ec; cbn [gobind] in Hw, Hr; [|done]. injection Hw as H1 H2 H3. exists w', d'.
  destruct (readWAL _ _ _) as [x|msg] eqn:Er; [done|]. exists msg. split_and!; done.
Qed.

(** ** Witnesses *)

Lemma oversized_record_unreadable_witness :
  let data := replicate (Z.to_nat maxWALEntrySizeLimit) 0 in
  exists ws buf e', encode (newEncoder [] 0) (mkWalRecord entryType 0 (Some data) None) disk0 = Ok (e', write_all [] ws disk0) /\
    en_buf e' = buf /\ concat ws ++ buf = [] ++ frame_bytes 0 (entryType, Some data) /\
    decode (mkDecoder (frame_bytes 0 (entryType, Some data) ++ []) 0) = Ok (inr ErrMaxWALEntrySizeLimitExceeded).
Proof.
  intros data. apply (oversized_record_unreadable (newEncoder [] 0) entryType data disk0 [] 0); [done|done|].
  unfold data. rewrite length_replicate. assert (maxWALEntrySizeLimit = 10485760) as -> by reflexivity. lia.
Defined.

Definition locked : WAL := mkWAL None HardState0 WalSnapshot0 None None 3 0 None [walName 0 0; walName 1 5; walName 2 9; walName 3 14].

Lemma ReleaseLockTo_keeps_witness :
  exists w' k, ReleaseLockTo locked 10 = Some w' /\ w_locks w' = drop k (w_locks locked) /\ (k <= 2)%nat.
Proof.
  apply ReleaseLockTo_keeps; [|vm_compute; reflexivity].
  unfold locks_ok, locked, is_wal. cbn [w_locks]. repeat constructor; vm_compute; discriminate.
Defined.
