(* ===== verification/GoPath.v ===== *)
(** * Slash-separated paths

    What [src/store] uses of Go's packages [path], [strings] and [strconv].
    Strings are lists of bytes.  A cleaned path that starts at the root is
    [render p] for a list [p] of names; the lemmas below say how the functions
    act on such paths. *)

From S2P Require Import Prelude.

Notation str := (list Z).
Definition slash : Z := 47.
Definition dot : str := [46].
Definition dotdot : str := [46; 46].

(** The bytes of a string constant. *)
Definition bytes (s : string) : str := map (fun a => Z.of_nat (Ascii.nat_of_ascii a)) (String.list_ascii_of_string s).

(** [strings.Split(s, "/")] *)
Fixpoint Split (s : str) : list str :=
  match s with
  | [] => [[]]
  | c :: s' =>
      if c =? slash then [] :: Split s'
      else match Split s' with h :: t => (c :: h) :: t | [] => [[c]] end
  end.

(** The elements joined by slashes. *)
Fixpoint join (l : list str) : str :=
  match l with
  | [] => []
  | [x] => x
  | x :: l' => x ++ slash :: join l'
  end.

(** One element of the path; the names kept so far, the last first. *)
Definition clean_step (rooted : bool) (st : list str) (c : str) : list str :=
  if bool_decide (c = []) || bool_decide (c = dot) then st
  else if bool_decide (c = dotdot) then
    match st with
    | [] => if rooted then [] else [dotdot]
    | top :: st' => if bool_decide (top = dotdot) then dotdot :: st else st'
    end
  else c :: st.

Definition clean_elems (rooted : bool) (p : str) : list str := rev (foldl (clean_step rooted) [] (Split p)).

(** [path.Clean] *)
Definition Clean (p : str) : str :=
  match p with
  | [] => dot
  | c :: _ =>
      if c =? slash then slash :: join (clean_elems true p)
      else match join (clean_elems false p) with [] => dot | s => s end
  end.

(** [path.Join] of two elements *)
Definition Join (a b : str) : str :=
  match a, b with
  | [], [] => []
  | [], _ => Clean b
  | _, [] => Clean a
  | _, _ => Clean (a ++ slash :: b)
  end.

(** [path.Split]: up to the last slash, and the rest *)
Fixpoint path_Split (p : str) : str * str :=
  match p with
  | [] => ([], [])
  | c :: p' =>
      let '(d, f) := path_Split p' in
      match d with
      | [] => if c =? slash then ([c], f) else ([], c :: f)
      | _ => (c :: d, f)
      end
  end.

Fixpoint HasPrefix (s prefix : str) : bool :=
  match prefix, s with
  | [], _ => true
  | c :: prefix', c' :: s' => (c =? c') && HasPrefix s' prefix'
  | _ :: _, [] => false
  end.

(** [strings.Contains] *)
Fixpoint Contains (s sub : str) : bool :=
  HasPrefix s sub || match s with [] => false | _ :: s' => Contains s' sub end.

(** [strconv.FormatUint(v, 10)] *)
Fixpoint digits (fuel : nat) (v : Z) : str :=
  match fuel with
  | O => []
  | S f => if v <? 10 then [48 + v] else digits f (v / 10) ++ [48 + v mod 10]
  end.
Definition FormatUint (v : Z) : str := digits 20 v.

(** [fmt.Sprintf("%020s", s)] *)
Definition Sprintf_020s (s : str) : str := replicate (20 - length s) 48 ++ s.

(** ** Names and cleaned paths *)

Definition name_ok (n : str) : Prop := n <> [] /\ slash ∉ n /\ n <> dot /\ n <> dotdot.
#[global] Instance name_ok_dec n : Decision (name_ok n).
Proof. unfold name_ok. apply _. Defined.

Definition render (p : list str) : str := slash :: join p.

(** The names of a path, taken from the root. *)
Definition names_of (x : str) : list str := clean_elems true (slash :: x).

Lemma Split_ne s : Split s <> [].
Proof. destruct s as [|c s]; [done|]. cbn. destruct (c =? slash); [done|]. by destruct (Split s). Qed.

Lemma Split_plain n : slash ∉ n -> Split n = [n].
Proof.
  induction n as [|c n IH]; intros Hn; [done|]. cbn. destruct (Z.eqb_spec c slash) as [->|_]; [set_solver|].
  rewrite IH by set_solver. done.
Qed.

Lemma Split_app n s : slash ∉ n -> Split (n ++ slash :: s) = n :: Split s.
Proof.
  induction n as [|c n IH]; intros Hn; [done|]. cbn. destruct (Z.eqb_spec c slash) as [->|_]; [set_solver|].
  rewrite IH by set_solver. done.
Qed.

Lemma Split_no_slash s : Forall (fun n => slash ∉ n) (Split s).
Proof.
  induction s as [|c s IH]; cbn; [repeat constructor; set_solver|].
  destruct (Z.eqb_spec c slash) as [_|Hne]; [constructor; [set_solver|done]|].
  destruct (Split s) as [|h t]; [repeat constructor; set_solver|].
  apply Forall_cons in IH as [? ?]. constructor; [set_solver|done].
Qed.

Lemma Split_join l : l <> [] -> Forall (fun n => slash ∉ n) l -> Split (join l) = l.
Proof.
  induction l as [|x l IH]; intros Hne Hl; [done|]. apply Forall_cons in Hl as [Hx Hl].
  destruct l as [|y l]; [by apply Split_plain|]. change (join (x :: y :: l)) with (x ++ slash :: join (y :: l)).
  rewrite Split_app by done. by rewrite IH.
Qed.

Lemma Split_render p : Forall name_ok p -> Split (render p) = [] :: match p with [] => [[]] | _ => p end.
Proof.
  intros Hp. unfold render. cbn [Split]. rewrite Z.eqb_refl. f_equal. destruct p as [|x p]; [done|].
  apply Split_join; [done|]. eapply Forall_impl; [exact Hp|]. intros n. by intros (_ & ? & _).
Qed.

Lemma clean_step_ok st c : Forall name_ok st -> slash ∉ c -> Forall name_ok (clean_step true st c).
Proof.
  intros Hst Hc. unfold clean_step. repeat case_bool_decide; cbn [orb]; try done.
  - destruct st as [|t st]; [done|]. apply Forall_cons in Hst as [Ht Hst]. case_bool_decide; [|done].
    subst t. by destruct Ht as (_ & _ & _ & ?).
  - by constructor.
Qed.

Lemma clean_elems_ok x : Forall name_ok (clean_elems true x).
Proof.
  unfold clean_elems. apply Forall_rev. assert (Forall name_ok []) as H0 by constructor. revert H0.
  generalize (@nil str). pose proof (Split_no_slash x) as Hs. induction (Split x) as [|c l IH]; intros st Hst; [done|].
  apply Forall_cons in Hs as [Hc Hs]. cbn. apply IH; [done|]. by apply clean_step_ok.
Qed.

Lemma names_of_ok x : Forall name_ok (names_of x).
Proof. apply clean_elems_ok. Qed.

(** Names that are already clean stay. *)
Lemma clean_fold p st : Forall name_ok p -> foldl (clean_step true) st p = rev p ++ st.
Proof.
  revert st. induction p as [|x p IH]; intros st Hp; [done|]. apply Forall_cons in Hp as [(H1 & _ & H3 & H4) Hp]. cbn [foldl].
  rewrite IH by done. unfold clean_step. rewrite !bool_decide_eq_false_2 by done. cbn. by rewrite <- app_assoc.
Qed.

Lemma clean_elems_render p : Forall name_ok p -> clean_elems true (render p) = p.
Proof.
  intros Hp. unfold clean_elems. rewrite Split_render by done. cbn [foldl]. change (clean_step true [] []) with (@nil str).
  destruct p as [|x p]; [done|]. rewrite clean_fold by done. by rewrite app_nil_r, rev_involutive.
Qed.

Lemma Clean_render p : Forall name_ok p -> Clean (render p) = render p.
Proof. intros Hp. unfold Clean. cbn [render]. rewrite Z.eqb_refl. by rewrite clean_elems_render. Qed.

Lemma Clean_rooted x : Clean (slash :: x) = render (names_of x).
Proof. unfold Clean, render, names_of. by rewrite Z.eqb_refl. Qed.

Lemma clean_elems_slash x : clean_elems true (slash :: slash :: x) = clean_elems true (slash :: x).
Proof. unfold clean_elems. cbn. done. Qed.

(** [path.Clean(path.Join("/", x))], the first thing every request does *)
Lemma Clean_Join x : Clean (Join [slash] x) = render (names_of x).
Proof.
  assert (Join [slash] x = render (names_of x)) as ->.
  { unfold Join. destruct x as [|c x]; [done|]. cbn [app]. rewrite Clean_rooted. unfold names_of. by rewrite clean_elems_slash. }
  apply Clean_render, names_of_ok.
Qed.

Lemma names_of_render p : Forall name_ok p -> names_of (render p) = p.
Proof. intros Hp. unfold names_of, render. rewrite clean_elems_slash. by apply clean_elems_render. Qed.

Lemma render_inj p q : Forall name_ok p -> Forall name_ok q -> render p = render q -> p = q.
Proof. intros Hp Hq E. rewrite <- (names_of_render p), <- (names_of_render q) by done. by rewrite E. Qed.

Lemma join_snoc p n : p <> [] -> join (p ++ [n]) = join p ++ slash :: n.
Proof.
  induction p as [|x p IH]; [done|]. intros _. destruct p as [|y p]; [done|].
  change (join ((x :: y :: p) ++ [n])) with (x ++ slash :: join ((y :: p) ++ [n])). rewrite IH by done.
  change (join (x :: y :: p)) with (x ++ slash :: join (y :: p)). by rewrite <- app_assoc.
Qed.

(** The directory part of a path, as [path.Split] gives it. *)
Definition dir_part (p : list str) : str := match p with [] => [slash] | _ => render p ++ [slash] end.

Lemma path_Split_plain n : slash ∉ n -> path_Split n = ([], n).
Proof.
  induction n as [|c n IH]; intros Hn; [done|]. cbn. rewrite IH by set_solver.
  destruct (Z.eqb_spec c slash) as [->|_]; [set_solver|done].
Qed.

Lemma path_Split_app s n : slash ∉ n -> path_Split (s ++ slash :: n) = (s ++ [slash], n).
Proof.
  intros Hn. induction s as [|c s IH]; cbn.
  - by rewrite path_Split_plain.
  - rewrite IH. destruct (s ++ [slash]) eqn:E; [by destruct s|done].
Qed.

Lemma render_snoc p n : render (p ++ [n]) = dir_part p ++ n.
Proof.
  unfold render, dir_part. destruct p as [|x p]; [done|]. rewrite join_snoc by done. unfold render.
  cbn [app]. by rewrite <- app_assoc.
Qed.

Lemma path_Split_render p n : slash ∉ n -> path_Split (render (p ++ [n])) = (dir_part p, n).
Proof.
  intros Hn. unfold render, dir_part. destruct p as [|x p].
  - cbn [app join]. exact (path_Split_app [] n Hn).
  - rewrite join_snoc by done. exact (path_Split_app (slash :: join (x :: p)) n Hn).
Qed.

Lemma Split_dir_part p : Forall name_ok p -> Split (dir_part p) = [] :: p ++ [[]].
Proof.
  intros Hp. destruct p as [|x p]; [done|]. unfold dir_part, render.
  assert (Forall (fun n => slash ∉ n) (x :: p)) as Hs by (eapply Forall_impl; [exact Hp|]; intros n; by intros (_ & ? & _)).
  cbn [Split app]. rewrite Z.eqb_refl. f_equal. change (slash :: []) with (slash :: join [[]]).
  rewrite <- join_snoc by done. apply Split_join; [by destruct p|]. change (x :: p ++ [[]]) with ((x :: p) ++ [[]]). apply Forall_app. split; [done|]. repeat constructor. set_solver.
Qed.

(** [path.Join(parent.Path, name)] *)
Lemma Join_render p n : Forall name_ok p -> name_ok n -> Join (render p) n = render (p ++ [n]).
Proof.
  intros Hp Hn. assert (Forall name_ok (p ++ [n])) as Hpn by (apply Forall_app; split; [done|by apply Forall_singleton]).
  unfold Join, render at 1. destruct n as [|c n]; [by destruct Hn|]. destruct p as [|x p].
  - change (Clean (slash :: render [c :: n]) = render [c :: n]). rewrite Clean_rooted. by rewrite names_of_render.
  - change (Clean ((slash :: join (x :: p)) ++ slash :: c :: n) = render ((x :: p) ++ [c :: n])).
    assert ((slash :: join (x :: p)) ++ slash :: c :: n = render ((x :: p) ++ [c :: n])) as ->.
    { unfold render. by rewrite join_snoc. }
    by apply Clean_render.
Qed.
