(* ===== verification/TTLHeap.v ===== *)
(** * The heap of keys with a time to live: [src/store/ttl_key_heap.go]

    A binary heap of node pointers, ordered by the expiry times the nodes have
    at the time of the comparison ([key]), with a map from pointers to
    positions; and what it uses of [container/heap].  The heap always has the
    element with the least expiry time on top, also after the expiry time of
    an element was changed under it, as [node.UpdateTTL] does. *)

From S2P Require Import Prelude.

Record ttlKeyHeap := mkTtlKeyHeap { h_array : list Z; h_keyMap : gmap Z nat }.

Definition newTtlKeyHeap : ttlKeyHeap := mkTtlKeyHeap [] ∅.

Section heap.
  Context (key : Z -> Z).
  Implicit Types (h : ttlKeyHeap) (l : list Z).

Definition h_Len h : nat := length (h_array h).

Definition h_Less h (i j : nat) : outcome bool :=
  match h_array h !! i, h_array h !! j with
  | Some a, Some b => Ok (key a <? key b)
  | _, _ => Panic "index out of range"
  end.

Definition h_Swap h (i j : nat) : outcome ttlKeyHeap :=
  match h_array h !! i, h_array h !! j with
  | Some a, Some b =>
      let l := <[j := a]> (<[i := b]> (h_array h)) in
      Ok (mkTtlKeyHeap l (<[a := j]> (<[b := i]> (h_keyMap h))))
  | _, _ => Panic "index out of range"
  end.

Definition h_Push h (n : Z) : ttlKeyHeap := mkTtlKeyHeap (h_array h ++ [n]) (<[n := length (h_array h)]> (h_keyMap h)).

Definition h_Pop h : outcome (ttlKeyHeap * Z) :=
  match last (h_array h) with
  | Some x => Ok (mkTtlKeyHeap (take (length (h_array h) - 1) (h_array h)) (delete x (h_keyMap h)), x)
  | None => Panic "index out of range"
  end.

(** ** [container/heap] *)

Fixpoint up (fuel : nat) h (j : nat) : outcome ttlKeyHeap :=
  match fuel with
  | O => Panic "out of fuel"
  | S f =>
      let i := ((j - 1) / 2)%nat in
      if (i =? j)%nat then Ok h else
      let! less := h_Less h j i in
      if negb less then Ok h else
      let! h := h_Swap h i j in up f h i
  end.

Fixpoint down (fuel : nat) h (i n : nat) : outcome ttlKeyHeap :=
  match fuel with
  | O => Panic "out of fuel"
  | S f =>
      let j1 := (2 * i + 1)%nat in
      if (n <=? j1)%nat then Ok h else
      let j2 := (j1 + 1)%nat in
      let! less12 := (if (j2 <? n)%nat then h_Less h j1 j2 else Ok true) in
      let j := if less12 then j1 else j2 in
      let! less := h_Less h j i in
      if negb less then Ok h else
      let! h := h_Swap h i j in down f h j n
  end.

(** [heap.Push], [heap.Pop], [heap.Remove] *)
Definition heap_Push h (x : Z) : outcome ttlKeyHeap :=
  let h := h_Push h x in up (S (h_Len h)) h (h_Len h - 1).

Definition heap_Pop h : outcome (ttlKeyHeap * Z) :=
  let n := (h_Len h - 1)%nat in
  let! h := h_Swap h 0 n in
  let! h := down (S (h_Len h)) h 0 n in
  h_Pop h.

Definition heap_Remove h (i : nat) : outcome (ttlKeyHeap * Z) :=
  let n := (h_Len h - 1)%nat in
  let! h :=
    (if negb (n =? i)%nat then
       let! h := h_Swap h i n in
       let! h := down (S (h_Len h)) h i n in up (S (h_Len h)) h i
     else Ok h) in
  h_Pop h.

(** ** The operations of the store *)

Definition ttl_top h : option Z := h_array h !! 0%nat.
Definition ttl_pop h : outcome ttlKeyHeap := let! '(h, _) := heap_Pop h in Ok h.
Definition ttl_push h (n : Z) : outcome ttlKeyHeap := heap_Push h n.

Definition ttl_update h (n : Z) : outcome ttlKeyHeap :=
  match h_keyMap h !! n with
  | Some index => let! '(h, _) := heap_Remove h index in heap_Push h n
  | None => Ok h
  end.

Definition ttl_remove h (n : Z) : outcome ttlKeyHeap :=
  match h_keyMap h !! n with
  | Some index => let! '(h, _) := heap_Remove h index in Ok h
  | None => Ok h
  end.

(** ** Positions *)

Definition positions l (km : gmap Z nat) : Prop := forall x i, km !! x = Some i <-> l !! i = Some x.

Lemma positions_NoDup l km : positions l km -> NoDup l.
Proof.
  intros Hp. apply NoDup_alt. intros i j x Hi Hj. apply Hp in Hi, Hj. congruence.
Qed.

Definition swap l (i j : nat) : list Z := <[j := l !!! i]> (<[i := l !!! j]> l).

Lemma swap_length l i j : length (swap l i j) = length l.
Proof. unfold swap. by rewrite !length_insert. Qed.

Lemma swap_at l i j k : (i < length l)%nat -> (j < length l)%nat -> (k < length l)%nat ->
  swap l i j !!! k = if decide (k = j) then l !!! i else if decide (k = i) then l !!! j else l !!! k.
Proof.
  intros Hi Hj Hk. unfold swap. destruct (decide (k = j)) as [->|Hkj].
  - apply list_lookup_total_insert_eq. by rewrite length_insert.
  - rewrite list_lookup_total_insert_ne by done. destruct (decide (k = i)) as [->|Hki].
    + by apply list_lookup_total_insert_eq.
    + by rewrite list_lookup_total_insert_ne.
Qed.

Lemma swap_Permutation l i j : (i < length l)%nat -> (j < length l)%nat -> swap l i j ≡ₚ l.
Proof.
  intros Hi Hj. destruct (lookup_lt_is_Some_2 l i Hi) as [a Ha], (lookup_lt_is_Some_2 l j Hj) as [b Hb].
  unfold swap. rewrite (list_lookup_total_correct _ _ _ Ha), (list_lookup_total_correct _ _ _ Hb).
  by apply Permutation_insert_swap.
Qed.

Lemma h_Swap_spec h i j : (i < h_Len h)%nat -> (j < h_Len h)%nat -> positions (h_array h) (h_keyMap h) ->
  exists h', h_Swap h i j = Ok h' /\ h_array h' = swap (h_array h) i j /\ positions (h_array h') (h_keyMap h').
Proof.
  unfold h_Len. intros Hi Hj Hp.
  destruct (lookup_lt_is_Some_2 _ i Hi) as [a Ha], (lookup_lt_is_Some_2 _ j Hj) as [b Hb].
  unfold h_Swap. rewrite Ha, Hb. eexists; split; [done|]. unfold swap.
  rewrite (list_lookup_total_correct _ _ _ Ha), (list_lookup_total_correct _ _ _ Hb). cbn. split; [done|].
  set (l := h_array h) in *. pose proof (proj2 (Hp a i) Ha) as Ka. pose proof (proj2 (Hp b j) Hb) as Kb.
  intros x k. destruct (decide (k = j)) as [->|Hkj].
  { rewrite list_lookup_insert_eq by (by rewrite length_insert).
    destruct (decide (a = x)) as [->|Hax]; [by rewrite lookup_insert_eq|]. rewrite lookup_insert_ne by done.
    split; [|congruence]. destruct (decide (b = x)) as [->|Hbx].
    - rewrite lookup_insert_eq. intros [= ->]. congruence.
    - rewrite lookup_insert_ne by done. intros Hx. apply Hp in Hx. congruence. }
  rewrite list_lookup_insert_ne by done. destruct (decide (k = i)) as [->|Hki].
  { rewrite list_lookup_insert_eq by done. destruct (decide (a = x)) as [->|Hax].
    - rewrite lookup_insert_eq. split; [congruence|]. intros [= ->]. congruence.
    - rewrite lookup_insert_ne by done. destruct (decide (b = x)) as [->|Hbx]; [by rewrite lookup_insert_eq|].
      rewrite lookup_insert_ne by done. split; [|congruence]. intros Hx. apply Hp in Hx. congruence. }
  rewrite list_lookup_insert_ne by done. destruct (decide (a = x)) as [->|Hax].
  { rewrite lookup_insert_eq. split; [congruence|]. intros Hx. apply Hp in Hx. congruence. }
  rewrite lookup_insert_ne by done. destruct (decide (b = x)) as [->|Hbx].
  { rewrite lookup_insert_eq. split; [congruence|]. intros Hx. apply Hp in Hx. congruence. }
  rewrite lookup_insert_ne by done. apply Hp.
Qed.

Lemma h_Less_spec h i j : (i < h_Len h)%nat -> (j < h_Len h)%nat ->
  h_Less h i j = Ok (key (h_array h !!! i) <? key (h_array h !!! j)).
Proof.
  unfold h_Len. intros Hi Hj. unfold h_Less.
  destruct (lookup_lt_is_Some_2 _ i Hi) as [a Ha], (lookup_lt_is_Some_2 _ j Hj) as [b Hb].
  by rewrite Ha, Hb, (list_lookup_total_correct _ _ _ Ha), (list_lookup_total_correct _ _ _ Hb).
Qed.

(** ** Heap order on the first [n] elements *)

Definition edge (i c : nat) : Prop := (c = 2 * i + 1 \/ c = 2 * i + 2)%nat.
Definition key_at l (i : nat) : Z := key (l !!! i).

Definition ordered l (n : nat) : Prop := forall a c, edge a c -> (c < n)%nat -> key_at l a <= key_at l c.

(** In order but for the element at [i] against its children and its parent. *)
Definition loose l (n i : nat) : Prop :=
  (forall a c, edge a c -> (c < n)%nat -> a <> i -> c <> i -> key_at l a <= key_at l c) /\
  (forall a c, edge a i -> edge i c -> (c < n)%nat -> key_at l a <= key_at l c).

(** In order but for the element at [i] against its parent. *)
Definition light l (n i : nat) : Prop :=
  (forall a c, edge a c -> (c < n)%nat -> c <> i -> key_at l a <= key_at l c) /\
  (forall a c, edge a i -> edge i c -> (c < n)%nat -> key_at l a <= key_at l c).

Lemma swap_key l i j k : (i < length l)%nat -> (j < length l)%nat -> (k < length l)%nat ->
  key_at (swap l i j) k = if decide (k = j) then key_at l i else if decide (k = i) then key_at l j else key_at l k.
Proof. intros. unfold key_at. rewrite swap_at by done. by repeat case_decide. Qed.

Lemma parent_edge j : j <> 0%nat -> edge ((j - 1) / 2) j.
Proof.
  intros Hj. pose proof (Nat.div_mod_eq (j - 1) 2). pose proof (Nat.mod_upper_bound (j - 1) 2). unfold edge. lia.
Qed.

Lemma edge_parent a c : edge a c -> a = ((c - 1) / 2)%nat /\ (a < c)%nat.
Proof.
  intros He. pose proof (Nat.div_mod_eq (c - 1) 2). pose proof (Nat.mod_upper_bound (c - 1) 2). unfold edge in He. lia.
Qed.

Lemma edge_inj a b c : edge a c -> edge b c -> a = b.
Proof. unfold edge. lia. Qed.

Lemma swap_tail l i j n : (i < n)%nat -> (j < n)%nat -> drop n (swap l i j) = drop n l.
Proof. intros. unfold swap. by rewrite !drop_insert_lt. Qed.

(** What a run of [up] or [down] leaves in place. *)
Definition moved n h h' : Prop :=
  positions (h_array h') (h_keyMap h') /\ h_array h' ≡ₚ h_array h /\ drop n (h_array h') = drop n (h_array h).

Lemma moved_len n h h' : moved n h h' -> h_Len h' = h_Len h.
Proof. intros (_ & Hp & _). by apply Permutation_length. Qed.

Lemma swap_moved h i j n : (i < n)%nat -> (j < n)%nat -> (n <= h_Len h)%nat -> positions (h_array h) (h_keyMap h) ->
  exists h', h_Swap h i j = Ok h' /\ h_array h' = swap (h_array h) i j /\ moved n h h'.
Proof.
  intros Hi Hj Hn Hp. destruct (h_Swap_spec h i j) as (h' & Hs & Ha & Hp'); [lia..|done|].
  exists h'. split_and!; [done..|]. unfold h_Len in *. split_and!; [done|rewrite Ha..].
  - apply swap_Permutation; lia.
  - by apply swap_tail.
Qed.

Lemma moved_trans n h1 h2 h3 : moved n h1 h2 -> moved n h2 h3 -> moved n h1 h3.
Proof. intros (? & Ha & Hb) (? & Hc & Hd). split_and!; [done|by rewrite Hc|by rewrite Hd]. Qed.

Lemma swap_up l i j n : edge i j -> (j < n)%nat -> (n <= length l)%nat -> key_at l j < key_at l i -> light l n j ->
  light (swap l i j) n i.
Proof.
  intros He Hj Hn Hl [Ho Hg]. pose proof (edge_parent _ _ He) as [_ Hij]. split.
  - intros a c Hac Hc Hci. pose proof (edge_parent _ _ Hac) as [_ ?]. rewrite !swap_key by lia.
    repeat case_decide; subst; try lia.
    + by apply Hg.
    + pose proof (Ho i c Hac Hc ltac:(done)). lia.
    + pose proof (edge_inj _ _ _ Hac He). lia.
    + by apply Ho.
  - intros a c Hai Hic Hc. pose proof (edge_parent _ _ Hai) as [_ ?]. pose proof (edge_parent _ _ Hic) as [_ ?].
    rewrite !swap_key by lia. pose proof (Ho a i Hai ltac:(lia) ltac:(lia)).
    repeat case_decide; subst; try lia. pose proof (Ho i c Hic Hc ltac:(done)). lia.
Qed.

Lemma up_spec f h j n : (j < f)%nat -> (j < n)%nat -> (n <= h_Len h)%nat -> positions (h_array h) (h_keyMap h) ->
  light (h_array h) n j ->
  exists h', up f h j = Ok h' /\ moved n h h' /\ ordered (h_array h') n.
Proof.
  revert h j. induction f as [|f IH]; intros h j Hf Hj Hn Hp Hlight; [lia|]. pose proof Hlight as [Ho Hg]. cbn [up].
  destruct (decide (j = 0)%nat) as [->|Hz].
  { exists h. split; [done|split; [by split_and!|]]. intros a c He Hc. apply Ho; [done..|]. pose proof (edge_parent _ _ He). lia. }
  pose proof (parent_edge j Hz) as He. set (i := ((j - 1) / 2)%nat) in *. pose proof (edge_parent _ _ He) as [_ Hij].
  rewrite (proj2 (Nat.eqb_neq i j)), h_Less_spec by lia. cbn [gobind]. fold (key_at (h_array h) j) (key_at (h_array h) i).
  destruct (Z.ltb_spec (key_at (h_array h) j) (key_at (h_array h) i)) as [Hl|Hl]; cbn [negb].
  2:{ exists h. split; [done|split; [by split_and!|]]. intros a c Hac Hc. destruct (decide (c = j)) as [->|Hcj]; [|by apply Ho].
      by rewrite (edge_inj _ _ _ Hac He). }
  destruct (swap_moved h i j n) as (h1 & -> & Ha1 & Hm1); [lia..|done|]. cbn [gobind].
  destruct (IH h1 i) as (h' & Hup & Hm' & Hord); [lia..|rewrite (moved_len _ _ _ Hm1); lia|apply Hm1| |].
  - rewrite Ha1. by apply swap_up.
  - exists h'. split_and!; [done|by eapply moved_trans|done].
Qed.

(** [down] from [i] leaves everything outside the subtree of [i] in place, and
    what it puts at [i] is no less than a bound of the old element at [i] and
    of its children. *)
Lemma swap_down l i j n : edge i j -> (j < n)%nat -> (n <= length l)%nat -> key_at l j < key_at l i ->
  (forall c, edge i c -> (c < n)%nat -> key_at l j <= key_at l c) -> loose l n i -> loose (swap l i j) n j.
Proof.
  intros He Hj Hn Hl Hmin [Ho Hg]. pose proof (edge_parent _ _ He) as [_ Hij]. split.
  - intros a c Hac Hc Haj Hcj. pose proof (edge_parent _ _ Hac) as [_ ?]. rewrite !swap_key by lia.
    repeat case_decide; subst; try lia.
    + by apply Hmin.
    + by apply (Hg a j).
    + by apply Ho.
  - intros a c Haj Hjc Hc. rewrite (edge_inj _ _ _ Haj He). pose proof (edge_parent _ _ Hjc) as [_ ?].
    rewrite !swap_key by lia. repeat case_decide; subst; try lia. apply Ho; [done..|lia|lia].
Qed.

Lemma smaller_child h i n : (2 * i + 1 < n)%nat -> (n <= h_Len h)%nat ->
  exists less12, (if (2 * i + 1 + 1 <? n)%nat then h_Less h (2 * i + 1) (2 * i + 1 + 1) else Ok true) = Ok less12 /\
    let j := if less12 then (2 * i + 1)%nat else (2 * i + 1 + 1)%nat in
    edge i j /\ (j < n)%nat /\ forall c, edge i c -> (c < n)%nat -> key_at (h_array h) j <= key_at (h_array h) c.
Proof.
  intros Hi Hn. destruct (Nat.ltb_spec (2 * i + 1 + 1) n) as [H2|H2].
  - rewrite h_Less_spec by lia. eexists; split; [done|]. fold (key_at (h_array h) (2 * i + 1)) (key_at (h_array h) (2 * i + 1 + 1)).
    destruct (Z.ltb_spec (key_at (h_array h) (2 * i + 1)) (key_at (h_array h) (2 * i + 1 + 1))); cbn zeta;
      (split_and!; [unfold edge; lia|lia|]; intros c [-> | ->] Hc; [lia|replace (2 * i + 2)%nat with (2 * i + 1 + 1)%nat by lia; lia]).
  - eexists; split; [done|]. cbn zeta. split_and!; [unfold edge; lia|lia|]. intros c [-> | ->] Hc; lia.
Qed.

Lemma down_spec f h i n : (n < f + i)%nat -> (i < n)%nat -> (n <= h_Len h)%nat -> positions (h_array h) (h_keyMap h) ->
  loose (h_array h) n i ->
  exists h', down f h i n = Ok h' /\ moved n h h' /\ light (h_array h') n i /\
    (forall k, (k < i)%nat -> h_array h' !!! k = h_array h !!! k) /\
    (forall b, b <= key_at (h_array h) i -> (forall c, edge i c -> (c < n)%nat -> b <= key_at (h_array h) c) ->
      b <= key_at (h_array h') i).
Proof.
  revert h i. induction f as [|f IH]; intros h i Hf Hi Hn Hp Hloose; [lia|]. pose proof Hloose as [Ho Hg]. cbn [down].
  destruct (Nat.leb_spec n (2 * i + 1)) as [Hleaf|Hleaf].
  { exists h. split; [done|split; [by split_and!|split; [|done]]]. split; [|exact Hg].
    intros a c Hac Hc Hci. apply Ho; [done..| |done]. intros ->. unfold edge in Hac. lia. }
  destruct (smaller_child h i n Hleaf Hn) as (less12 & -> & Hej & Hjn & Hmin). cbn [gobind].
  set (j := if less12 then _ else _) in *. pose proof (edge_parent _ _ Hej) as [_ Hij].
  rewrite h_Less_spec by lia. cbn [gobind]. fold (key_at (h_array h) j) (key_at (h_array h) i).
  destruct (Z.ltb_spec (key_at (h_array h) j) (key_at (h_array h) i)) as [Hl|Hl]; cbn [negb].
  2:{ exists h. split; [done|split; [by split_and!|split; [|done]]]. split; [|exact Hg]. intros a c Hac Hc Hci.
      destruct (decide (a = i)) as [->|Hai]; [|by apply Ho]. pose proof (Hmin c Hac Hc). lia. }
  destruct (swap_moved h i j n) as (h1 & -> & Ha1 & Hm1); [lia..|done|]. cbn [gobind].
  assert (n <= length (h_array h))%nat as Hn' by done.
  destruct (IH h1 j) as (h' & Hdown & Hm' & [Hlo Hlg] & Hsame & Hlow); [lia..|rewrite (moved_len _ _ _ Hm1); lia|apply Hm1| |].
  { rewrite Ha1. by apply swap_down. }
  assert (key_at (h_array h') i = key_at (h_array h) j) as Hi'.
  { unfold key_at at 1. rewrite Hsame, Ha1 by done. fold (key_at (swap (h_array h) i j) i). rewrite swap_key by lia.
    by rewrite decide_False, decide_True by lia. }
  assert (forall c, edge i c -> (c < n)%nat -> key_at (h_array h) j <= key_at (h_array h') c) as Hci.
  { intros c Hc Hcn. destruct (decide (c = j)) as [->|Hcj].
    - apply Hlow; rewrite Ha1.
      + rewrite swap_key by lia. by rewrite decide_True by done; lia.
      + intros c Hjc Hc'. pose proof (edge_parent _ _ Hjc) as [_ ?]. rewrite swap_key by lia.
        rewrite !decide_False by lia. apply Ho; [done..|lia|lia].
    - rewrite <- Hi'. by apply Hlo. }
  exists h'. split_and!; [done|by eapply moved_trans| | |].
  - split; [intros a c Hac Hc Hcni|intros a c Hai Hic Hc].
    + destruct (decide (c = j)) as [->|Hcj]; [|by apply Hlo]. rewrite (edge_inj _ _ _ Hac Hej), Hi'. by apply Hci.
    + pose proof (edge_parent _ _ Hai) as [_ ?]. etrans; [|by apply Hci]. unfold key_at at 1.
      rewrite Hsame, Ha1 by lia. fold (key_at (swap (h_array h) i j) a). rewrite swap_key by lia.
      rewrite !decide_False by lia. by apply Hg.
  - intros k Hk. rewrite Hsame, Ha1 by lia. unfold swap. by rewrite !list_lookup_total_insert_ne by lia.
  - intros b Hb Hbc. rewrite Hi'. by apply Hbc.
Qed.

Definition heap_ok h : Prop := positions (h_array h) (h_keyMap h) /\ ordered (h_array h) (h_Len h).

Lemma ordered_take l n m : (m <= n)%nat -> (m <= length l)%nat -> ordered l m -> ordered (take n l) m.
Proof.
  intros Hm Hl Ho a c He Hc. pose proof (edge_parent _ _ He) as [_ ?]. unfold key_at.
  rewrite !lookup_total_take_lt by lia. by apply Ho.
Qed.

Lemma Pop_spec h l x : h_array h = l ++ [x] -> positions (h_array h) (h_keyMap h) -> ordered (h_array h) (length l) ->
  exists h', h_Pop h = Ok (h', x) /\ h_array h' = l /\ heap_ok h'.
Proof.
  intros Ha Hp Ho. unfold h_Pop. rewrite Ha, last_snoc, length_app. cbn [length].
  replace (take _ (l ++ [x])) with l by (rewrite take_app_length'; [done|lia]).
  eexists; split_and!; [done..|]. unfold heap_ok, h_Len. cbn [h_array h_keyMap]. pose proof (positions_NoDup _ _ Hp) as Hnd.
  rewrite Ha in Hp, Ho, Hnd. apply NoDup_app in Hnd as (_ & Hx & _). split.
  - intros y k. rewrite lookup_delete_Some, (Hp y k). split.
    + intros [Hne Hk]. apply lookup_app_Some in Hk as [?|[_ Hk]]; [done|]. apply list_lookup_singleton_Some in Hk as [_ ->]. done.
    + intros Hk. split; [|by apply lookup_app_l_Some]. intros ->. apply list_elem_of_lookup_2 in Hk. by apply Hx in Hk; set_solver.
  - replace l with (take (length l) (l ++ [x])) at 1 by (by apply take_app_length). apply ordered_take; [done| |done].
    rewrite length_app. lia.
Qed.

Lemma heap_Push_spec h x : heap_ok h -> x ∉ h_array h ->
  exists h', heap_Push h x = Ok h' /\ heap_ok h' /\ h_array h' ≡ₚ x :: h_array h.
Proof.
  intros [Hp Ho] Hx. unfold heap_Push. set (h1 := h_Push h x).
  assert (h_Len h1 = S (h_Len h)) as Hlen by (unfold h1, h_Len; cbn; rewrite length_app; cbn; lia).
  destruct (up_spec (S (h_Len h1)) h1 (h_Len h1 - 1) (h_Len h1)) as (h' & -> & Hm & Hord); [lia..| | |].
  - intros y k. cbn. rewrite lookup_insert_Some, lookup_app_Some, list_lookup_singleton_Some, (Hp y k). split.
    + intros [[-> <-]|[_ ?]]; [right; split; [lia|]; split; [lia|done]|by left].
    + intros [Hk|(Hge & Hk & ->)]; [right|left; split; [done|lia]]. split; [|done]. intros ->. apply list_elem_of_lookup_2 in Hk. done.
  - cbn [h_Push h_array]. rewrite Hlen. split; intros a c He; [|intros He'; pose proof (edge_parent _ _ He'); lia].
    intros Hc Hcn. pose proof (edge_parent _ _ He) as [_ ?]. unfold key_at, h_Len in *. cbn [h1 h_array h_Push] in *.
    rewrite !lookup_total_app_l by lia. apply Ho; [done|unfold h_Len; lia].
  - exists h'. pose proof (moved_len _ _ _ Hm) as Hl. destruct Hm as (? & Hperm & _). split; [done|]. split.
    + split; [done|by rewrite Hl].
    + rewrite Hperm. cbn. by rewrite (comm app).
Qed.
End heap.

#[global] Arguments heap_ok key h : clear implicits.

(** The order is by the expiry times of the moment: the one of the element
    that goes may have changed since the heap was in order. *)
Lemma loose_of_ordered (key0 key : Z -> Z) l i x : (S i < length l)%nat -> NoDup l -> l !! i = Some x ->
  ordered key0 l (length l) -> (forall m, m ∈ l -> m <> x -> key m = key0 m) ->
  loose key (swap l i (length l - 1)) (length l - 1) i.
Proof.
  intros Hi Hnd Hx Ho Hk.
  assert (forall k, (k < length l)%nat -> k <> i -> key_at key l k = key_at key0 l k) as Hat.
  { intros k Hkl Hki. unfold key_at. destruct (lookup_lt_is_Some_2 l k Hkl) as [y Hy].
    rewrite (list_lookup_total_correct _ _ _ Hy). apply Hk; [by eapply list_elem_of_lookup_2|]. intros ->.
    by pose proof (NoDup_lookup _ _ _ _ Hnd Hx Hy). }
  split.
  - intros a c He Hc Ha Hci. pose proof (edge_parent _ _ He) as [_ ?]. rewrite !swap_key by lia.
    rewrite !decide_False by lia. rewrite !Hat by lia. apply Ho; [done|lia].
  - intros a c Hai Hic Hc. pose proof (edge_parent _ _ Hai) as [_ ?]. pose proof (edge_parent _ _ Hic) as [_ ?].
    rewrite !swap_key by lia. rewrite !decide_False by lia. rewrite !Hat by lia.
    etrans; apply Ho; try done; lia.
Qed.

(** The last step of [heap.Pop] and [heap.Remove]. *)
Lemma swap_Pop (key : Z -> Z) h h1 h3 i x (n := (length (h_array h) - 1)%nat) : h_array h !! i = Some x ->
  h_array h1 = swap (h_array h) i n -> moved n h1 h3 -> ordered key (h_array h3) n ->
  exists h', h_Pop h3 = Ok (h', x) /\ heap_ok key h' /\ x :: h_array h' ≡ₚ h_array h.
Proof.
  intros Hx Ha1 Hm Ho3. pose proof (moved_len _ _ _ Hm) as Hlen3. destruct Hm as (Hp3 & Hperm & Hdrop).
  pose proof (lookup_lt_Some _ _ _ Hx) as Hi.
  assert (length (h_array h1) = length (h_array h)) as Hl1 by (by rewrite Ha1, swap_length).
  assert (drop n (h_array h3) = [x]) as Hd3.
  { rewrite Hdrop, Ha1. unfold swap. rewrite (list_lookup_total_correct _ _ _ Hx), drop_insert_ge, Nat.sub_diag by lia.
    destruct (drop n (<[i := _]> (h_array h))) as [|z [|]] eqn:Hd; apply (f_equal length) in Hd;
      rewrite length_drop, length_insert in Hd; cbn in Hd; [lia|done|lia]. }
  pose proof (take_drop n (h_array h3)) as Hsplit. rewrite Hd3 in Hsplit.
  assert (length (take n (h_array h3)) = n) as Htl by (rewrite length_take; unfold h_Len in *; lia).
  destruct (Pop_spec key h3 (take n (h_array h3)) x) as (h' & -> & Ha & Hok); [done..|by rewrite Htl|].
  exists h'. split_and!; [done..|]. rewrite Ha, Permutation_cons_append, Hsplit, Hperm, Ha1.
  apply swap_Permutation; lia.
Qed.

Lemma heap_Remove_spec (key0 key : Z -> Z) h i x : heap_ok key0 h -> h_array h !! i = Some x ->
  (forall m, m ∈ h_array h -> m <> x -> key m = key0 m) ->
  exists h', heap_Remove key h i = Ok (h', x) /\ heap_ok key h' /\ x :: h_array h' ≡ₚ h_array h.
Proof.
  intros [Hp Ho] Hx Hk. pose proof (lookup_lt_Some _ _ _ Hx) as Hi. pose proof (positions_NoDup _ _ Hp) as Hnd.
  unfold heap_Remove, h_Len. destruct (Nat.eqb_spec (length (h_array h) - 1) i) as [He|He]; cbn [negb gobind].
  - destruct (exists_last (l := h_array h)) as (l & y & Hl); [by intros Hn; rewrite Hn in Hx|].
    assert (length (h_array h) = S (length l)) as Hlen by (rewrite Hl, length_app; cbn; lia).
    assert (y = x) as ->. { rewrite Hl, lookup_app_r in Hx by lia. replace (i - length l)%nat with 0%nat in Hx by lia. by inv Hx. }
    destruct (Pop_spec key h l x) as (h' & -> & Ha & Hok); [done..| |].
    { intros a c Hac Hc. pose proof (edge_parent _ _ Hac) as [_ ?]. unfold key_at. rewrite Hl, !lookup_total_app_l by lia.
      rewrite Hl in Hnd. apply NoDup_app in Hnd as (_ & Hxl & _).
      assert (forall k, (k < length l)%nat -> key (l !!! k) = key0 (l !!! k)) as Hat.
      { intros k Hkl. destruct (lookup_lt_is_Some_2 l k Hkl) as [z Hz]. rewrite (list_lookup_total_correct _ _ _ Hz).
        apply list_elem_of_lookup_2 in Hz. apply Hk; [rewrite Hl; set_solver|]. intros ->. by apply Hxl in Hz; set_solver. }
      rewrite !Hat by lia. specialize (Ho a c Hac ltac:(unfold h_Len; lia)). unfold key_at in Ho.
      by rewrite Hl, !lookup_total_app_l in Ho by lia. }
    exists h'. split_and!; [done..|]. by rewrite Ha, Hl, Permutation_cons_append.
  - set (n := (length (h_array h) - 1)%nat) in *.
    destruct (h_Swap_spec h i n) as (h1 & -> & Ha1 & Hp1); [unfold h_Len; lia..|done|]. cbn [gobind].
    assert (h_Len h1 = length (h_array h)) as Hl1 by (unfold h_Len; by rewrite Ha1, swap_length). fold (h_Len h1).
    destruct (down_spec key (S (h_Len h1)) h1 i n) as (h2 & -> & Hm2 & Hl2 & _); [lia..|done| |]; cbn [gobind].
    { rewrite Ha1. by apply (loose_of_ordered key0 key _ i x); [lia|..]. }
    pose proof (moved_len _ _ _ Hm2) as Hlen2. fold (h_Len h2).
    destruct (up_spec key (S (h_Len h2)) h2 i n) as (h3 & -> & Hm3 & Ho3); [lia..|apply Hm2|done|]; cbn [gobind].
    exact (swap_Pop key h h1 h3 i x Hx Ha1 (moved_trans _ _ _ _ Hm2 Hm3) Ho3).
Qed.

Lemma heap_Pop_spec (key : Z -> Z) h x : heap_ok key h -> h_array h !! 0%nat = Some x ->
  exists h', heap_Pop key h = Ok (h', x) /\ heap_ok key h' /\ x :: h_array h' ≡ₚ h_array h.
Proof.
  intros [Hp Ho] Hx. pose proof (lookup_lt_Some _ _ _ Hx) as Hi. pose proof (positions_NoDup _ _ Hp) as Hnd.
  unfold heap_Pop, h_Len. set (n := (length (h_array h) - 1)%nat).
  destruct (h_Swap_spec h 0 n) as (h1 & -> & Ha1 & Hp1); [unfold h_Len; lia..|done|]. cbn [gobind].
  assert (h_Len h1 = length (h_array h)) as Hl1 by (unfold h_Len; by rewrite Ha1, swap_length). fold (h_Len h1).
  destruct (decide (n = 0)%nat) as [Hn|Hn].
  { rewrite Hn. cbn [down gobind Nat.leb]. apply (swap_Pop key h h1 h1 0 x Hx Ha1); [by split_and!|]. intros a c _ Hc. lia. }
  destruct (down_spec key (S (h_Len h1)) h1 0 n) as (h2 & -> & Hm2 & [Hl2 _] & _); [lia..|done| |]; cbn [gobind].
  { rewrite Ha1. by apply (loose_of_ordered key key _ 0 x); [lia|..]. }
  apply (swap_Pop key h h1 h2 0 x Hx Ha1 Hm2). intros a c He Hc. apply Hl2; [done..|].
  pose proof (edge_parent _ _ He). lia.
Qed.

(** ** What the store's operations do *)

Lemma newTtlKeyHeap_ok key : heap_ok key newTtlKeyHeap.
Proof. split; [intros x i; cbn; by rewrite lookup_empty, lookup_nil|intros a c _ Hc; cbn in Hc; lia]. Qed.

Lemma heap_ok_ext (key0 key : Z -> Z) h : (forall m, m ∈ h_array h -> key m = key0 m) -> heap_ok key0 h -> heap_ok key h.
Proof.
  intros Hk [Hp Ho]. split; [done|]. intros a c He Hc. pose proof (edge_parent _ _ He) as [_ ?]. unfold key_at, h_Len in *.
  rewrite !Hk by (apply list_elem_of_lookup_total_2; lia). by apply Ho.
Qed.

Lemma heap_mem (key : Z -> Z) h n : heap_ok key h -> n ∈ h_array h <-> is_Some (h_keyMap h !! n).
Proof.
  intros [Hp _]. rewrite list_elem_of_lookup. split; intros [i Hi]; exists i; by apply Hp.
Qed.

Lemma heap_NoDup (key : Z -> Z) h : heap_ok key h -> NoDup (h_array h).
Proof. intros [Hp _]. by eapply positions_NoDup. Qed.

Lemma ttl_push_spec (key : Z -> Z) h n : heap_ok key h -> n ∉ h_array h ->
  exists h', ttl_push key h n = Ok h' /\ heap_ok key h' /\ h_array h' ≡ₚ n :: h_array h.
Proof. apply heap_Push_spec. Qed.

Lemma ttl_remove_spec (key0 key : Z -> Z) h n : heap_ok key0 h ->
  (forall m, m ∈ h_array h -> m <> n -> key m = key0 m) ->
  exists h', ttl_remove key h n = Ok h' /\ heap_ok key h' /\ (forall m, m ∈ h_array h' <-> m ∈ h_array h /\ m <> n).
Proof.
  intros Hh Hk. pose proof Hh as [Hp _]. unfold ttl_remove. destruct (h_keyMap h !! n) as [i|] eqn:Hi.
  - apply Hp in Hi. destruct (heap_Remove_spec key0 key h i n Hh Hi Hk) as (h' & -> & Hok & Hperm). cbn [gobind].
    exists h'. split_and!; [done..|]. intros m. pose proof (heap_NoDup _ _ Hh) as Hnd. rewrite <- Hperm in Hnd |- *.
    apply NoDup_cons in Hnd as [Hn _]. rewrite elem_of_cons. split; [|tauto]. intros Hm. split; [by right|]. by intros ->.
  - exists h. assert (n ∉ h_array h) as Hn by (rewrite (heap_mem _ _ n Hh), Hi; by intros [? ?]).
    split_and!; [done|apply (heap_ok_ext key0); [|done]; intros m Hm; apply Hk; [done|by intros ->]|].
    intros m. split; [|tauto]. intros Hm. split; [done|]. by intros ->.
Qed.

Lemma ttl_update_spec (key0 key : Z -> Z) h n : heap_ok key0 h -> n ∈ h_array h ->
  (forall m, m ∈ h_array h -> m <> n -> key m = key0 m) ->
  exists h', ttl_update key h n = Ok h' /\ heap_ok key h' /\ h_array h' ≡ₚ h_array h.
Proof.
  intros Hh Hn Hk. pose proof Hh as [Hp _]. unfold ttl_update. apply (heap_mem _ _ n Hh) in Hn as [i Hi].
  rewrite Hi. apply Hp in Hi. destruct (heap_Remove_spec key0 key h i n Hh Hi Hk) as (h1 & -> & Hok & Hperm). cbn [gobind].
  pose proof (heap_NoDup _ _ Hh) as Hnd. rewrite <- Hperm in Hnd. apply NoDup_cons in Hnd as [Hn1 _].
  destruct (heap_Push_spec key h1 n Hok Hn1) as (h' & Hpush & Hok' & Hperm'). exists h'. split_and!; [done..|].
  by rewrite Hperm'.
Qed.

Lemma ttl_top_spec (key : Z -> Z) h n m : heap_ok key h -> ttl_top h = Some n -> m ∈ h_array h -> key n <= key m.
Proof.
  intros [_ Ho] Hn Hm. apply list_elem_of_lookup in Hm as [i Hi]. revert m Hi.
  induction i as [i IH] using lt_wf_ind. intros m Hi. destruct (decide (i = 0)%nat) as [->|Hz].
  { unfold ttl_top in Hn. rewrite Hn in Hi. inv Hi. lia. }
  pose proof (parent_edge i Hz) as He. pose proof (edge_parent _ _ He) as [_ Hlt].
  pose proof (lookup_lt_Some _ _ _ Hi) as Hl. destruct (lookup_lt_is_Some_2 (h_array h) ((i - 1) / 2)) as [q Hq]; [lia|].
  pose proof (Ho _ _ He Hl) as Hle. unfold key_at in Hle.
  rewrite (list_lookup_total_correct _ _ _ Hi), (list_lookup_total_correct _ _ _ Hq) in Hle.
  specialize (IH _ Hlt _ Hq). lia.
Qed.

Lemma ttl_top_None h : ttl_top h = None -> h_array h = [].
Proof. unfold ttl_top. by destruct (h_array h). Qed.
