(* ===== verification/V2Event.v ===== *)
(** * Events and their history: [src/store/event.go], [node_extern.go],
    [event_queue.go], [event_history.go], [src/error/error.go]

    The history is a ring buffer of the last events of the store.  An event
    has the index of the operation that made it, and the history finds an
    index by its distance from the first one: it relies on the indices being
    consecutive, which is an invariant of the store.  [scan] is compared with
    a search of the list of events. *)

From S2P Require Import Prelude Proto GoPath.

(** ** Errors *)

Record Error := mkError { ErrorCode : Z; Message : string; Cause : str; err_Index : Z }.
#[global] Instance Error_eta : Eta Error := fun e => mkError (ErrorCode e) (Message e) (Cause e) (err_Index e).

Definition EcodeKeyNotFound := 100.
Definition EcodeTestFailed := 101.
Definition EcodeNotFile := 102.
Definition EcodeNotDir := 104.
Definition EcodeNodeExist := 105.
Definition EcodeRootROnly := 107.
Definition EcodeDirNotEmpty := 108.
Definition EcodeEventIndexCleared := 401.

(** The messages of the codes that the store uses. *)
Definition errors (code : Z) : string :=
  if code =? EcodeKeyNotFound then "Key not found"
  else if code =? EcodeTestFailed then "Compare failed"
  else if code =? EcodeNotFile then "Not a file"
  else if code =? EcodeNotDir then "Not a directory"
  else if code =? EcodeNodeExist then "Key already exists"
  else if code =? EcodeRootROnly then "Root is read only"
  else if code =? EcodeDirNotEmpty then "Directory not empty"
  else if code =? EcodeEventIndexCleared then "The event in requested index is outdated and cleared"
  else EmptyString.

Definition NewError (errorCode : Z) (cause : str) (index : Z) : Error := mkError errorCode (errors errorCode) cause index.

(** ** Events *)

Inductive NodeExtern := mkNodeExtern {
  ne_Key : str;
  ne_Value : option str;
  ne_Dir : bool;
  ne_Expiration : option Z;
  ne_TTL : Z;
  ne_Nodes : list NodeExtern;
  ne_ModifiedIndex : Z;
  ne_CreatedIndex : Z
}.
#[global] Instance NodeExtern_eta : Eta NodeExtern := fun n =>
  mkNodeExtern (ne_Key n) (ne_Value n) (ne_Dir n) (ne_Expiration n) (ne_TTL n) (ne_Nodes n) (ne_ModifiedIndex n)
    (ne_CreatedIndex n).

Fixpoint NodeExtern_Clone (n : NodeExtern) : NodeExtern :=
  mkNodeExtern (ne_Key n) (ne_Value n) (ne_Dir n) (ne_Expiration n) (ne_TTL n)
    (map NodeExtern_Clone (ne_Nodes n)) (ne_ModifiedIndex n) (ne_CreatedIndex n).

Inductive Action := ActGet | ActCreate | ActSet | ActUpdate | ActDelete | ActCompareAndSwap | ActCompareAndDelete | ActExpire.
#[global] Instance Action_eq_dec : EqDecision Action.
Proof. solve_decision. Defined.

Record Event := mkEvent {
  ev_Action : Action;
  ev_Node : NodeExtern;
  ev_PrevNode : option NodeExtern;
  ev_EtcdIndex : Z;
  ev_Refresh : bool
}.
#[global] Instance Event_eta : Eta Event := fun e =>
  mkEvent (ev_Action e) (ev_Node e) (ev_PrevNode e) (ev_EtcdIndex e) (ev_Refresh e).

Definition newEvent (action : Action) (key : str) (modifiedIndex createdIndex : Z) : Event :=
  mkEvent action (mkNodeExtern key None false None 0 [] modifiedIndex createdIndex) None 0 false.

Definition Event_Index (e : Event) : Z := ne_ModifiedIndex (ev_Node e).

(** The clone is not marked as a refresh. *)
Definition Event_Clone (e : Event) : Event :=
  mkEvent (ev_Action e) (NodeExtern_Clone (ev_Node e)) (NodeExtern_Clone <$> ev_PrevNode e) (ev_EtcdIndex e) false.

Definition SetRefresh (e : Event) : Event := e <| ev_Refresh := true |>.

(** ** The queue *)

Record eventQueue := mkEventQueue {
  eq_Events : list (option Event);
  eq_Size : Z;
  eq_Front : Z;
  eq_Back : Z;
  eq_Capacity : Z
}.
#[global] Instance eventQueue_eta : Eta eventQueue := fun q =>
  mkEventQueue (eq_Events q) (eq_Size q) (eq_Front q) (eq_Back q) (eq_Capacity q).

Definition insert_event (q : eventQueue) (e : Event) : outcome eventQueue :=
  let! es := set_at (eq_Events q) (eq_Back q) (Some e) in
  let q := q <| eq_Events := es |> <| eq_Back := Z.rem (eq_Back q + 1) (eq_Capacity q) |> in
  Ok (if eq_Size q =? eq_Capacity q then q <| eq_Front := Z.rem (eq_Front q + 1) (eq_Capacity q) |>
      else q <| eq_Size := eq_Size q + 1 |>).

(** ** The history *)

Record EventHistory := mkEventHistory { eh_Queue : eventQueue; eh_StartIndex : Z; eh_LastIndex : Z }.

Definition newEventHistory (capacity : Z) : EventHistory :=
  mkEventHistory (mkEventQueue (replicate (Z.to_nat capacity) None) 0 0 0 capacity) 0 0.

(** An element of the slice of events; the code dereferences it. *)
Definition event_at (q : eventQueue) (i : Z) : outcome Event :=
  let! e := at_ (eq_Events q) i in
  match e with Some e => Ok e | None => Panic "nil pointer dereference" end.

Definition addEvent (eh : EventHistory) (e : Event) : outcome EventHistory :=
  let! q := insert_event (eh_Queue eh) e in
  let! front := event_at q (eq_Front q) in
  Ok (mkEventHistory q (Event_Index front) (Event_Index e)).

(** [key] cleaned and with a trailing slash *)
Definition add_slash (key : str) : outcome str :=
  let key := Clean key in
  match last key with
  | None => Panic "index out of range"
  | Some c => Ok (if c =? slash then key else key ++ [slash])
  end.

(** One event of the search: whether it matches, and the key for the rest of
    the search. *)
Definition scan_event (key : str) (recursive : bool) (e : Event) : outcome (bool * str) :=
  if negb (ev_Refresh e) then
    let ok := bool_decide (ne_Key (ev_Node e) = key) in
    let! '(ok, key) :=
      (if recursive then
         let! key := add_slash key in
         Ok (ok || HasPrefix (ne_Key (ev_Node e)) key, key)
       else Ok (ok, key)) in
    let gone := bool_decide (ev_Action e = ActDelete) || bool_decide (ev_Action e = ActExpire) in
    let ok :=
      match ev_PrevNode e with
      | Some prev => if gone && ne_Dir prev then ok || HasPrefix key (ne_Key prev) else ok
      | None => ok
      end in
    Ok (ok, key)
  else Ok (false, key).

Fixpoint scan_loop (fuel : nat) (q : eventQueue) (key : str) (recursive : bool) (i : Z) : outcome (option Event) :=
  match fuel with
  | O => Panic "out of fuel"
  | S f =>
      let! e := event_at q i in
      let! '(ok, key) := scan_event key recursive e in
      if ok : bool then Ok (Some e) else
      let i := Z.rem (i + 1) (eq_Capacity q) in
      if i =? eq_Back q then Ok None else scan_loop f q key recursive i
  end.

Definition scan (eh : EventHistory) (key : str) (recursive : bool) (index : Z) : outcome (option Event + Error) :=
  if index <? eh_StartIndex eh then
    Ok (inr (NewError EcodeEventIndexCleared
      (bytes "the requested history has been cleared [" ++ FormatUint (eh_StartIndex eh) ++ bytes "/" ++
       FormatUint index ++ bytes "]") 0))
  else if eh_LastIndex eh <? index then Ok (inl None)
  else
    let offset := index ⊟ eh_StartIndex eh in
    let i := Z.rem (eq_Front (eh_Queue eh) + i64 offset) (eq_Capacity (eh_Queue eh)) in
    let! r := scan_loop (length (eq_Events (eh_Queue eh))) (eh_Queue eh) key recursive i in
    Ok (inl r).

(** The elements of the slice are shared, the slice is not. *)
Definition EventHistory_clone (eh : EventHistory) : EventHistory :=
  let q := eh_Queue eh in
  mkEventHistory (mkEventQueue (eq_Events q) (eq_Size q) (eq_Front q) (eq_Back q) (eq_Capacity q))
    (eh_StartIndex eh) (eh_LastIndex eh).

(** ** The queue as a list *)

Definition slot (q : eventQueue) (k : nat) : nat := Z.to_nat ((eq_Front q + Z.of_nat k) mod eq_Capacity q).

Record queue_ok (q : eventQueue) (l : list Event) : Prop := {
  qo_cap : 0 < eq_Capacity q;
  qo_len : zlen (eq_Events q) = eq_Capacity q;
  qo_size : eq_Size q = zlen l;
  qo_fits : zlen l <= eq_Capacity q;
  qo_front : 0 <= eq_Front q < eq_Capacity q;
  qo_back : eq_Back q = (eq_Front q + zlen l) mod eq_Capacity q;
  qo_at : forall k e, l !! k = Some e -> eq_Events q !! slot q k = Some (Some e)
}.

Definition keep_last (n : Z) (l : list Event) : list Event := drop (Z.to_nat (zlen l - n)) l.

Lemma mod_add_ne a k k' c : 0 < c -> 0 <= k < k' -> k' < k + c -> (a + k) mod c <> (a + k') mod c.
Proof.
  intros Hc Hk Hk' He. assert ((k' - k) mod c = 0) as H0.
  { replace (k' - k) with ((a + k') - (a + k)) by lia. rewrite Zminus_mod, <- He, Z.sub_diag. by apply Zmod_0_l. }
  rewrite Z.mod_small in H0 by lia. lia.
Qed.

(** Writing at the back changes no slot of the queue, but the first one when
    the queue is full. *)
Lemma write_back q l e : queue_ok q l ->
  let es := <[Z.to_nat (eq_Back q) := Some e]> (eq_Events q) in
  es !! slot q (length l) = Some (Some e) /\
  (forall k x, l !! k = Some x -> (zlen l = eq_Capacity q -> k <> 0%nat) -> es !! slot q k = Some (Some x)).
Proof.
  intros [Hc Hlen Hsz Hfit Hf Hb Hat]. set (c := eq_Capacity q) in *. cbn zeta.
  pose proof (Z.mod_pos_bound (eq_Front q + zlen l) c Hc) as Hbr. split.
  - unfold slot. fold c. rewrite Hb. apply list_lookup_insert_eq. lia.
  - intros k x Hx Hnz. rewrite list_lookup_insert_ne; [by apply Hat|]. unfold slot. fold c. rewrite Hb.
    pose proof (lookup_lt_Some _ _ _ Hx). pose proof (Z.mod_pos_bound (eq_Front q + Z.of_nat k) c Hc).
    pose proof (mod_add_ne (eq_Front q) (Z.of_nat k) (zlen l) c Hc). lia.
Qed.

Lemma keep_all n l : zlen l <= n -> keep_last n l = l.
Proof. intros Hn. unfold keep_last. by replace (Z.to_nat _) with 0%nat by lia. Qed.

Lemma keep_tail n l e : 0 < n -> zlen l = n -> keep_last n (l ++ [e]) = drop 1 l ++ [e].
Proof.
  intros Hn Hl. unfold keep_last. rewrite length_app. cbn [length]. replace (Z.to_nat _) with 1%nat by lia.
  destruct l; cbn in *; [lia|done].
Qed.

Lemma insert_event_spec q l e : queue_ok q l ->
  exists q', insert_event q e = Ok q' /\ eq_Capacity q' = eq_Capacity q /\ queue_ok q' (keep_last (eq_Capacity q) (l ++ [e])).
Proof.
  intros Hq. destruct (write_back q l e Hq) as [Hnew Hkeep]. destruct Hq as [Hc Hlen Hsz Hfit Hf Hb Hat].
  set (c := eq_Capacity q) in *. pose proof (Z.mod_pos_bound (eq_Front q + zlen l) c Hc) as Hbr.
  unfold insert_event. rewrite set_at_Ok by lia. cbn [gobind]. eexists; split; [done|].
  unfold upd, eventQueue_eta; cbn. fold c. rewrite !Z.rem_mod_nonneg by lia.
  assert ((eq_Back q + 1) mod c = (eq_Front q + (zlen l + 1)) mod c) as ->.
  { rewrite Hb, Zplus_mod_idemp_l. f_equal. lia. }
  destruct (Z.eqb_spec (eq_Size q) c) as [Hfull|Hfull]; cbn; (split; [done|]).
  - rewrite keep_tail by lia. assert (length (drop 1 l ++ [e]) = length l) as Hl by (rewrite length_app, length_drop; cbn; lia).
    pose proof (Z.mod_pos_bound (eq_Front q + 1) c Hc).
    constructor; cbn; rewrite ?Hl, ?length_insert; try done.
    + rewrite Zplus_mod_idemp_l. f_equal. lia.
    + intros k x Hx. assert (slot _ k = slot q (S k)) as ->.
      { unfold slot. cbn. fold c. rewrite Zplus_mod_idemp_l. do 2 f_equal. lia. }
      apply lookup_app_Some in Hx as [Hx|[Hge Hx]].
      * rewrite lookup_drop in Hx. by apply Hkeep.
      * rewrite length_drop in *. apply list_lookup_singleton_Some in Hx as [Hk <-].
        replace (S k) with (length l) by lia. done.
  - rewrite keep_all by (rewrite length_app; cbn; lia).
    constructor; cbn; rewrite ?length_app, ?length_insert; cbn [length]; try done; try lia.
    intros k x Hx. change (slot _ k) with (slot q k). apply lookup_app_Some in Hx as [Hx|[Hge Hx]].
    + apply Hkeep; [done|lia].
    + apply list_lookup_singleton_Some in Hx as [Hk <-]. by replace k with (length l) by lia.
Qed.

(** ** The history as a list of consecutive events *)

Record history_ok (eh : EventHistory) (l : list Event) : Prop := {
  ho_queue : queue_ok (eh_Queue eh) l;
  ho_start : match l with [] => eh_StartIndex eh = 0 | e :: _ => eh_StartIndex eh = Event_Index e end;
  ho_last : eh_LastIndex eh = (eh_StartIndex eh + zlen l) - (if l then 0 else 1);
  ho_index : forall k e, l !! k = Some e -> Event_Index e = eh_StartIndex eh + Z.of_nat k
}.

Lemma newEventHistory_ok c : 0 < c -> history_ok (newEventHistory c) [].
Proof.
  intros Hc. constructor; cbn; try done. constructor; cbn; try done; try lia.
  rewrite length_replicate. lia.
Qed.

Lemma event_at_spec q l k e : queue_ok q l -> l !! k = Some e -> event_at q (Z.of_nat (slot q k)) = Ok e.
Proof.
  intros Hq He. pose proof (qo_at _ _ Hq _ _ He) as Hs. unfold event_at.
  assert (at_ (eq_Events q) (Z.of_nat (slot q k)) = Ok (Some e)) as -> by (apply at_Ok; rewrite Nat2Z.id; split; [lia|done]).
  done.
Qed.

Lemma slot_0 q l : queue_ok q l -> Z.of_nat (slot q 0) = eq_Front q.
Proof. intros [? ? ? ? Hf ? ?]. unfold slot. rewrite Z.add_0_r, Z.mod_small by lia. lia. Qed.

(** The next event is added at the end; the oldest one goes when the queue is full. *)
Lemma addEvent_spec eh l e : history_ok eh l -> (l <> [] -> Event_Index e = eh_LastIndex eh + 1) ->
  exists eh', addEvent eh e = Ok eh' /\ eq_Capacity (eh_Queue eh') = eq_Capacity (eh_Queue eh) /\
    eh_LastIndex eh' = Event_Index e /\ history_ok eh' (keep_last (eq_Capacity (eh_Queue eh)) (l ++ [e])).
Proof.
  intros [Hq Hstart Hlast Hidx] He. destruct (insert_event_spec _ _ e Hq) as (q' & Hi & Hc & Hq'). unfold addEvent.
  rewrite Hi. cbn [gobind]. set (l' := keep_last _ _) in *.
  assert (exists e0 r, l' = e0 :: r) as (e0 & r & Hl').
  { destruct l' as [|e0 r] eqn:Hz; [|eauto]. apply (f_equal length) in Hz. unfold l', keep_last in Hz.
    pose proof (qo_cap _ _ Hq). rewrite length_drop, length_app in Hz. cbn in Hz. lia. }
  assert (event_at q' (eq_Front q') = Ok e0) as ->.
  { rewrite <- (slot_0 _ _ Hq'). eapply event_at_spec; [done|]. by rewrite Hl'. }
  cbn [gobind]. eexists; split_and!; [done|done|done|].
  assert (forall k x, (l ++ [e]) !! k = Some x -> Event_Index x = Event_Index e - zlen l + Z.of_nat k) as Hall.
  { intros k x Hx. apply lookup_app_Some in Hx as [Hx|[Hge Hx]].
    - pose proof (lookup_lt_Some _ _ _ Hx). rewrite (Hidx _ _ Hx), He, Hlast by (by intros ->).
      destruct l; [cbn in *; lia|]. cbn [length] in *. lia.
    - apply list_lookup_singleton_Some in Hx as [Hk <-]. lia. }
  assert (forall k x, l' !! k = Some x -> Event_Index x = Event_Index e0 + Z.of_nat k) as Hall'.
  { assert (l' !! 0%nat = Some e0) as H0 by (by rewrite Hl'). intros k x Hx. unfold l', keep_last in Hx, H0.
    rewrite lookup_drop in Hx, H0. rewrite (Hall _ _ Hx), (Hall _ _ H0). lia. }
  constructor; cbn; [done|by rewrite Hl'| |done].
  assert (l' !! (length l' - 1)%nat = Some e) as Hle.
  { unfold l', keep_last. rewrite lookup_drop, length_drop, length_app. cbn [length]. pose proof (qo_cap _ _ Hq).
    apply list_lookup_middle. lia. }
  rewrite (Hall' _ _ Hle). rewrite Hl'. cbn. lia.
Qed.

(** ** The search of the history *)

Definition gone (e : Event) : bool := bool_decide (ev_Action e = ActDelete) || bool_decide (ev_Action e = ActExpire).

(** Whether an event matches, when [exact] is the key of the search by now and
    [under] the key with a slash. *)
Definition hit (exact under : str) (recursive : bool) (e : Event) : bool :=
  negb (ev_Refresh e) &&
  (bool_decide (ne_Key (ev_Node e) = exact) || (recursive && HasPrefix (ne_Key (ev_Node e)) under) ||
   match ev_PrevNode e with
   | Some prev => gone e && ne_Dir prev && HasPrefix (if recursive then under else exact) (ne_Key prev)
   | None => false
   end).

(** The search of a list of events: a recursive search goes on with the
    slashed key after the first event that is not a refresh. *)
Fixpoint search (exact under : str) (recursive : bool) (l : list Event) : option Event :=
  match l with
  | [] => None
  | e :: l' =>
      if hit exact under recursive e then Some e
      else search (if recursive && negb (ev_Refresh e) then under else exact) under recursive l'
  end.

Lemma last_dir_part p : last (dir_part p) = Some slash.
Proof. destruct p; [done|]. unfold dir_part. by rewrite last_snoc. Qed.

Lemma dir_part_eq p : dir_part p = if p then [slash] else render p ++ [slash].
Proof. by destruct p. Qed.

Lemma last_render n p : Forall name_ok (n :: p) -> last (render (n :: p)) <> Some slash.
Proof.
  intros Hp. destruct (exists_last (l := n :: p)) as (q & x & Hq); [done|]. rewrite Hq in *.
  apply Forall_app in Hp as [_ Hx]. apply Forall_singleton in Hx as (Hne & Hs & _). rewrite render_snoc.
  destruct (exists_last Hne) as (y & c & ->). rewrite (assoc app), last_snoc. intros [= ->]. apply Hs. set_solver.
Qed.

Lemma last_render_Some p : is_Some (last (render p)).
Proof. unfold render. destruct (join p) as [|c s]; [done|]. cbn. by destruct (last (c :: s)) eqn:Hl; [|apply last_None in Hl]. Qed.

Lemma Clean_dir_part p : Forall name_ok p -> Clean (dir_part p) = render p.
Proof.
  intros Hp. destruct p as [|n p]; [done|]. unfold dir_part. change (render (n :: p) ++ [slash]) with (slash :: join (n :: p) ++ [slash]).
  rewrite Clean_rooted. f_equal. unfold names_of, clean_elems. change (slash :: join (n :: p) ++ [slash]) with (dir_part (n :: p)).
  rewrite Split_dir_part by done. change ([] :: (n :: p) ++ [[]]) with ([[]] ++ (n :: p) ++ [[]]).
  rewrite !foldl_app. change (foldl (clean_step true) [] [[]]) with (@nil str).
  rewrite (clean_fold (n :: p)), app_nil_r by done. apply rev_involutive.
Qed.

Lemma add_slash_render p : Forall name_ok p -> add_slash (render p) = Ok (dir_part p).
Proof.
  intros Hp. unfold add_slash. rewrite Clean_render by done. destruct p as [|n p]; [done|].
  destruct (last_render_Some (n :: p)) as [c Hc]. rewrite Hc. pose proof (last_render n p Hp) as Hl.
  destruct (Z.eqb_spec c slash) as [->|_]; [by rewrite Hc in Hl|done].
Qed.

Lemma add_slash_dir_part p : Forall name_ok p -> add_slash (dir_part p) = Ok (dir_part p).
Proof.
  intros Hp. unfold add_slash. rewrite Clean_dir_part by done. pose proof (add_slash_render p Hp) as H.
  unfold add_slash in H. by rewrite Clean_render in H.
Qed.

Lemma scan_event_spec p exact recursive e : Forall name_ok p -> exact = render p \/ exact = dir_part p ->
  scan_event exact recursive e =
  Ok (hit exact (dir_part p) recursive e, if recursive && negb (ev_Refresh e) then dir_part p else exact).
Proof.
  intros Hp He. unfold scan_event, hit. fold (gone e). destruct (ev_Refresh e); cbn [negb andb].
  { by rewrite andb_false_r. }
  destruct recursive; cbn [andb gobind].
  - assert (add_slash exact = Ok (dir_part p)) as -> by (destruct He as [-> | ->]; [by apply add_slash_render|by apply add_slash_dir_part]).
    cbn [gobind]. destruct (ev_PrevNode e) as [prev|]; [|by rewrite orb_false_r].
    destruct (gone e && ne_Dir prev); [done|by rewrite orb_false_r].
  - rewrite orb_false_r. destruct (ev_PrevNode e) as [prev|]; [|by rewrite orb_false_r].
    destruct (gone e && ne_Dir prev); [done|by rewrite orb_false_r].
Qed.

Lemma scan_loop_spec p recursive q l k f exact : Forall name_ok p -> exact = render p \/ exact = dir_part p ->
  queue_ok q l -> (k < length l)%nat -> (length l - k <= f)%nat ->
  scan_loop f q exact recursive (Z.of_nat (slot q k)) = Ok (search exact (dir_part p) recursive (drop k l)).
Proof.
  intros Hp. revert k exact. induction f as [|f IH]; intros k exact He Hq Hk Hf; [lia|]. cbn [scan_loop].
  destruct (lookup_lt_is_Some_2 l k Hk) as [e Hek]. rewrite (event_at_spec _ _ _ _ Hq Hek). cbn [gobind].
  rewrite (scan_event_spec p exact recursive e Hp He). cbn [gobind].
  rewrite (drop_S l e k Hek). cbn [search]. destruct (hit exact (dir_part p) recursive e); [done|].
  pose proof Hq as [Hc _ _ Hfit Hfr Hb _].
  pose proof (Z.mod_pos_bound (eq_Front q + Z.of_nat k) (eq_Capacity q) Hc).
  assert (Z.rem (Z.of_nat (slot q k) + 1) (eq_Capacity q) = Z.of_nat (slot q (S k))) as ->.
  { unfold slot. rewrite Z.rem_mod_nonneg by lia. rewrite !Z2Nat.id by (try apply Z.mod_pos_bound; lia).
    rewrite Zplus_mod_idemp_l. f_equal. lia. }
  assert (Z.of_nat (slot q (S k)) = (eq_Front q + Z.of_nat (S k)) mod eq_Capacity q) as Hs.
  { unfold slot. rewrite Z2Nat.id; [done|]. by apply Z.mod_pos_bound. }
  destruct (Z.eqb_spec (Z.of_nat (slot q (S k))) (eq_Back q)) as [Hend|Hend].
  - destruct (decide (S k = length l)) as [Hl|Hl]; [by rewrite drop_ge by lia|].
    rewrite Hs, Hb in Hend. exfalso. eapply mod_add_ne; [done| |..|exact Hend]; lia.
  - assert (S k <> length l) by (intros Hl; apply Hend; rewrite Hs, Hb, Hl; done).
    apply IH; [destruct (recursive && _); [by right|done]|done|lia|lia].
Qed.

(** [scan] searches the events from the given index on; it refuses an index
    before the first one kept. *)
Lemma scan_spec eh l p recursive index : history_ok eh l -> Forall name_ok p -> 0 < index < two64 ->
  0 <= eh_StartIndex eh -> zlen l < 9223372036854775808 ->
  scan eh (render p) recursive index =
  Ok (if index <? eh_StartIndex eh then
        inr (NewError EcodeEventIndexCleared
          (bytes "the requested history has been cleared [" ++ FormatUint (eh_StartIndex eh) ++ bytes "/" ++
           FormatUint index ++ bytes "]") 0)
      else inl (search (render p) (dir_part p) recursive (drop (Z.to_nat (index - eh_StartIndex eh)) l))).
Proof.
  intros [Hq Hstart Hlast Hidx] Hp Hi H0 Hl. unfold scan. destruct (Z.ltb_spec index (eh_StartIndex eh)); [done|].
  destruct (Z.ltb_spec (eh_LastIndex eh) index) as [Hlt|Hge].
  { rewrite drop_ge; [done|]. destruct l; cbn [length] in *; lia. }
  pose proof Hq as [Hc Hlen _ Hfit Hfr Hb _].
  assert (l <> []) as Hne by (intros ->; cbn in *; lia).
  assert (Z.of_nat (length l) = eh_LastIndex eh - eh_StartIndex eh + 1) as Hll by (destruct l; [done|lia]).
  u64_simp. assert (i64 (index - eh_StartIndex eh) = index - eh_StartIndex eh) as ->.
  { unfold i64. rewrite Z.mod_small by lia. lia. }
  set (k := Z.to_nat (index - eh_StartIndex eh)).
  replace (Z.rem _ _) with (Z.of_nat (slot (eh_Queue eh) k)).
  2:{ unfold slot. rewrite Z.rem_mod_nonneg by lia. rewrite Z2Nat.id by (by apply Z.mod_pos_bound). f_equal. lia. }
  rewrite (scan_loop_spec p recursive _ l k) by (try done; try (by left); lia). done.
Qed.
