(* ===== verification/WatcherHub.v ===== *)
(** * Watchers: [src/store/watcher.go], [src/store/watcher_hub.go]

    The hub has the list of watchers of each key, and notifies the watchers of
    an event's key and of the directories above it.  Watchers are objects:
    the store and the clients hold pointers to them, so they live in a heap.
    The buffered channel of a watcher is a list; taking an event from it is
    the client's step. *)

From S2P Require Import Prelude Proto GoPath V2Event.

Record watcher := mkWatcher {
  w_eventChan : list Event;
  w_closed : bool;
  w_stream : bool;
  w_recursive : bool;
  w_sinceIndex : Z;
  w_startIndex : Z;
  w_removed : bool;
  w_remove : option str   (* the closure over the list of this key, or nil *)
}.
#[global] Instance watcher_eta : Eta watcher := fun w =>
  mkWatcher (w_eventChan w) (w_closed w) (w_stream w) (w_recursive w) (w_sinceIndex w) (w_startIndex w) (w_removed w)
    (w_remove w).

Record watcherHub := mkWatcherHub {
  wh_count : Z;
  wh_watchers : gmap str (list Z);
  wh_EventHistory : EventHistory;
  wh_heap : gmap Z watcher;
  wh_next : Z
}.
#[global] Instance watcherHub_eta : Eta watcherHub := fun h =>
  mkWatcherHub (wh_count h) (wh_watchers h) (wh_EventHistory h) (wh_heap h) (wh_next h).

Definition newWatchHub (capacity : Z) : watcherHub := mkWatcherHub 0 ∅ (newEventHistory capacity) ∅ 0.

(** The capacity of a watcher's channel. *)
Definition chan_cap : Z := 100.

Definition wh_deref (wh : watcherHub) (w : Z) : outcome watcher :=
  match wh_heap wh !! w with Some x => Ok x | None => Panic "nil pointer dereference" end.

Definition wh_set (wh : watcherHub) (w : Z) (x : watcher) : watcherHub := wh <| wh_heap ::= insert w x |>.

Definition list_Remove (w : Z) (l : list Z) : list Z := filter (fun v => v <> w) l.

(** [l.Remove(elem)] on the list of [key] *)
Definition wh_unlink (wh : watcherHub) (key : str) (w : Z) : watcherHub :=
  wh <| wh_watchers ::= alter (list_Remove w) key |>.

(** [if l.Len() == 0 { delete(wh.watchers, key) }] *)
Definition wh_drop_empty (wh : watcherHub) (key : str) : watcherHub :=
  match wh_watchers wh !! key with
  | Some [] => wh <| wh_watchers ::= delete key |>
  | _ => wh
  end.

(** The function [w.remove] that [watch] makes. *)
Definition watcher_remove (wh : watcherHub) (w : Z) : outcome watcherHub :=
  let! x := wh_deref wh w in
  match w_remove x with
  | None => Panic "nil pointer dereference"
  | Some key =>
      if w_removed x then Ok wh else
      let wh := wh_set wh w (x <| w_removed := true |>) in
      let wh := wh_unlink wh key w in
      let wh := wh <| wh_count := wh_count wh - 1 |> in
      Ok (wh_drop_empty wh key)
  end.

Definition watcher_notify (wh : watcherHub) (w : Z) (e : Event) (originalPath deleted : bool) : outcome (watcherHub * bool) :=
  let! x := wh_deref wh w in
  if (w_recursive x || originalPath || deleted) && (w_sinceIndex x <=? Event_Index e) then
    if w_closed x then Panic "send on closed channel"
    else if zlen (w_eventChan x) <? chan_cap then Ok (wh_set wh w (x <| w_eventChan := w_eventChan x ++ [e] |>), true)
    else let! wh := watcher_remove wh w in Ok (wh, true)
  else Ok (wh, false).

(** [watcher.Remove] *)
Definition watcher_Remove (wh : watcherHub) (w : Z) : outcome watcherHub :=
  let! x := wh_deref wh w in
  if w_closed x then Panic "close of closed channel" else
  let wh := wh_set wh w (x <| w_closed := true |>) in
  match w_remove x with Some _ => watcher_remove wh w | None => Ok wh end.

(** The client takes an event from the channel. *)
Definition watcher_recv (wh : watcherHub) (w : Z) : outcome (watcherHub * option Event) :=
  let! x := wh_deref wh w in
  match w_eventChan x with
  | e :: es => Ok (wh_set wh w (x <| w_eventChan := es |>), Some e)
  | [] => Ok (wh, None)
  end.

Definition hub_watch (wh : watcherHub) (key : str) (recursive stream : bool) (index storeIndex : Z)
    : outcome (watcherHub * (Z + Error)) :=
  let! r := scan (wh_EventHistory wh) key recursive index in
  match r with
  | inr err => Ok (wh, inr (err <| err_Index := storeIndex |>))
  | inl event =>
      let w := wh_next wh in
      let x := mkWatcher [] false stream recursive index storeIndex false None in
      let wh := wh <| wh_next := w + 1 |> in
      match event with
      | Some event =>
          let ne := (Event_Clone event) <| ev_EtcdIndex := storeIndex |> in
          Ok (wh_set wh w (x <| w_eventChan := [ne] |>), inl w)
      | None =>
          let l := match wh_watchers wh !! key with Some l => l | None => [] end in
          let wh := wh <| wh_watchers ::= insert key (l ++ [w]) |> in
          let wh := wh_set wh w (x <| w_remove := Some key |>) in
          Ok (wh <| wh_count := wh_count wh + 1 |>, inl w)
      end
  end.

Definition hub_add (wh : watcherHub) (e : Event) : outcome watcherHub :=
  let! eh := addEvent (wh_EventHistory wh) e in Ok (wh <| wh_EventHistory := eh |>).

Definition isHidden (watchPath keyPath : str) : bool :=
  if zlen keyPath <? zlen watchPath then false
  else Contains (Clean (slash :: drop (length watchPath) keyPath)) (bytes "/_").

(** One element of the list of [nodePath]. *)
Definition notify_elem (e : Event) (nodePath : str) (deleted : bool) (wh : watcherHub) (w : Z) : outcome watcherHub :=
  let originalPath := bool_decide (ne_Key (ev_Node e) = nodePath) in
  if originalPath || negb (isHidden nodePath (ne_Key (ev_Node e))) then
    let! '(wh, ok) := watcher_notify wh w e originalPath deleted in
    let! x := wh_deref wh w in
    if (ok && negb (w_stream x)) then
      let wh := wh_set wh w (x <| w_removed := true |>) in
      let wh := wh_unlink wh nodePath w in
      Ok (wh <| wh_count := wh_count wh - 1 |>)
    else Ok wh
  else Ok wh.

Definition notifyWatchers (wh : watcherHub) (e : Event) (nodePath : str) (deleted : bool) : outcome watcherHub :=
  match wh_watchers wh !! nodePath with
  | None => Ok wh
  | Some l =>
      let! wh := foldM (notify_elem e nodePath deleted) l wh in
      Ok (wh_drop_empty wh nodePath)
  end.

(** The walk through the segments of the key. *)
Definition notify_segment (e : Event) (st : watcherHub * str) (segment : str) : outcome (watcherHub * str) :=
  let '(wh, currPath) := st in
  let currPath := Join currPath segment in
  let! wh := notifyWatchers wh e currPath false in
  Ok (wh, currPath).

Definition hub_notify (wh : watcherHub) (e : Event) : outcome watcherHub :=
  let! wh := hub_add wh e in
  let! '(wh, _) := foldM (notify_segment e) (Split (ne_Key (ev_Node e))) (wh, [slash]) in
  Ok wh.

(** The clone has no watchers.  Its map of watchers is nil: it can be read and
    saved, which is all that is done with a clone. *)
Definition watcherHub_clone (wh : watcherHub) : watcherHub :=
  mkWatcherHub 0 ∅ (EventHistory_clone (wh_EventHistory wh)) ∅ 0.

(** ** The lists of watchers agree with the watchers *)

(** The key in whose list a watcher is. *)
Definition registered (x : watcher) : option str := if w_removed x then None else w_remove x.

Definition waiting (heap : gmap Z watcher) : gmap Z watcher := filter (fun p => is_Some (registered p.2)) heap.

Record hub_core (wh : watcherHub) : Prop := {
  hc_lists : forall key w, (exists l, wh_watchers wh !! key = Some l /\ w ∈ l) <->
    (exists x, wh_heap wh !! w = Some x /\ registered x = Some key);
  hc_nodup : forall key l, wh_watchers wh !! key = Some l -> NoDup l;
  hc_count : wh_count wh = Z.of_nat (size (waiting (wh_heap wh)));
  hc_chan : forall w x, wh_heap wh !! w = Some x -> is_Some (registered x) ->
    w_closed x = false /\ (w_stream x = false -> w_eventChan x = []);
  hc_next : forall w x, wh_heap wh !! w = Some x -> w < wh_next wh
}.

Record hub_ok (wh : watcherHub) : Prop := {
  hu_core : hub_core wh;
  hu_tidy : forall key l, wh_watchers wh !! key = Some l -> l <> []
}.

Lemma newWatchHub_ok c : hub_ok (newWatchHub c).
Proof.
  constructor; [constructor|]; cbn; try done.
  all: try (intros ?? H; by rewrite lookup_empty in H).
  intros key w. split; [intros (l & Hl & _)|intros (x & Hx & _)]; by rewrite lookup_empty in *.
Qed.

(** Changes of a watcher that leave it where it is. *)
Lemma core_set wh w x x' : hub_core wh -> wh_heap wh !! w = Some x -> registered x' = registered x ->
  (is_Some (registered x) -> w_closed x' = false /\ (w_stream x' = false -> w_eventChan x' = [])) ->
  hub_core (wh_set wh w x').
Proof.
  intros [Hl Hn Hc Hch Hnx] Hx Hr Hok. constructor; unfold wh_set, upd; cbn.
  - intros key v. rewrite Hl. destruct (decide (v = w)) as [->|Hne].
    + rewrite lookup_insert_eq. split; intros (y & Hy & Hk); eexists; (split; [done|]); congruence.
    + by rewrite lookup_insert_ne.
  - done.
  - rewrite Hc. f_equal. unfold waiting. destruct (decide (is_Some (registered x'))) as [Hs|Hs].
    + rewrite map_filter_insert_True by done. rewrite map_size_insert, map_lookup_filter_Some_2 with (x := x); [done|done|].
      cbn. by rewrite <- Hr.
    + rewrite map_filter_insert_False by done. rewrite map_filter_delete, delete_id; [done|].
      apply map_lookup_filter_None_2. right. intros y Hy. rewrite Hx in Hy. inv Hy. cbn. by rewrite <- Hr.
  - intros v y. destruct (decide (v = w)) as [->|Hne].
    + rewrite lookup_insert_eq. intros [= <-] Hs. apply Hok. by rewrite <- Hr.
    + rewrite lookup_insert_ne by done. apply Hch.
  - intros v y. destruct (decide (v = w)) as [->|Hne]; [intros _; by eapply Hnx|]. rewrite lookup_insert_ne by done. apply Hnx.
Qed.

(** A watcher that leaves its list. *)
Lemma core_unlink wh w x x' key : hub_core wh -> wh_heap wh !! w = Some x -> registered x = Some key ->
  registered x' = None -> hub_core ((wh_unlink (wh_set wh w x') key w) <| wh_count := wh_count wh - 1 |>).
Proof.
  intros [Hl Hn Hc Hch Hnx] Hx Hr Hr'. constructor; unfold wh_set, wh_unlink, upd; cbn.
  - intros k v. destruct (decide (v = w)) as [->|Hne].
    + rewrite lookup_insert_eq. split; [|intros (y & [= <-] & Hy); congruence].
      intros (l & Hlk & Hin). destruct (decide (k = key)) as [->|Hk].
      * apply lookup_alter_Some in Hlk as [(_ & l0 & _ & ->)|[? _]]; [|done]. unfold list_Remove in Hin.
        apply list_elem_of_filter in Hin as [? _]. done.
      * rewrite lookup_alter_ne in Hlk by done. destruct (proj1 (Hl k w)) as (y & Hy & Hyk); [eauto|]. congruence.
    + rewrite lookup_insert_ne by done. rewrite <- Hl. destruct (decide (k = key)) as [->|Hk].
      * rewrite lookup_alter_eq. destruct (wh_watchers wh !! key) as [l|]; cbn; [|done].
        split; intros (l' & [= <-] & Hin); eexists; (split; [done|]); unfold list_Remove in *; rewrite list_elem_of_filter in *; tauto.
      * by rewrite lookup_alter_ne.
  - intros k l Hk. apply lookup_alter_Some in Hk as [(-> & l0 & Hl0 & ->)|[_ Hk]]; [|by eapply Hn].
    apply NoDup_filter. by eapply Hn.
  - rewrite Hc. unfold waiting. rewrite map_filter_insert_False by (cbn; rewrite Hr'; by intros [? ?]).
    rewrite map_filter_delete, map_size_delete, map_lookup_filter_Some_2 with (x := x); [|done|cbn; by rewrite Hr].
    assert (size (filter (fun p : Z * watcher => is_Some (registered p.2)) (wh_heap wh)) <> 0%nat) as Hsz.
    { intros H0%map_size_empty_inv. eapply (map_filter_empty_not_lookup _ _ w x H0); [cbn; by rewrite Hr|done]. }
    lia.
  - intros v y. destruct (decide (v = w)) as [->|Hne].
    + rewrite lookup_insert_eq. intros [= <-] [k Hk]. congruence.
    + rewrite lookup_insert_ne by done. apply Hch.
  - intros v y. destruct (decide (v = w)) as [->|Hne]; [intros _; by eapply Hnx|]. rewrite lookup_insert_ne by done. apply Hnx.
Qed.

Lemma core_drop_empty wh key : hub_core wh -> hub_core (wh_drop_empty wh key).
Proof.
  intros Hwh. unfold wh_drop_empty. destruct (wh_watchers wh !! key) as [[|]|] eqn:Hk; [|done|done].
  destruct Hwh as [Hl Hn Hc Hch Hnx]. constructor; unfold upd; cbn; try done.
  - intros k w. rewrite <- Hl. destruct (decide (k = key)) as [->|Hne].
    + rewrite lookup_delete_eq, Hk. split; intros (l & Hl' & Hin); [done|]. inv Hl'. by apply not_elem_of_nil in Hin.
    + by rewrite lookup_delete_ne.
  - intros k l Hkl. apply lookup_delete_Some in Hkl as [_ ?]. by eapply Hn.
Qed.

(** What the delivery of an event at [nodePath] does to a watcher of that path. *)
Definition interested (e : Event) (nodePath : str) (deleted : bool) (x : watcher) : bool :=
  let originalPath := bool_decide (ne_Key (ev_Node e) = nodePath) in
  (originalPath || negb (isHidden nodePath (ne_Key (ev_Node e)))) &&
  ((w_recursive x || originalPath || deleted) && (w_sinceIndex x <=? Event_Index e)).

Definition deliver (e : Event) (nodePath : str) (deleted : bool) (x : watcher) : watcher :=
  if interested e nodePath deleted x then
    if zlen (w_eventChan x) <? chan_cap
    then (if w_stream x then x <| w_eventChan := w_eventChan x ++ [e] |>
          else x <| w_eventChan := w_eventChan x ++ [e] |> <| w_removed := true |>)
    else x <| w_removed := true |>
  else x.

(** Nothing but the watchers of one key changes. *)
Definition hub_at (key : str) (wh wh' : watcherHub) : Prop :=
  wh_EventHistory wh' = wh_EventHistory wh /\ wh_next wh' = wh_next wh /\
  (forall k, k <> key -> wh_watchers wh' !! k = wh_watchers wh !! k).

Lemma hub_at_trans key a b c : hub_at key a b -> hub_at key b c -> hub_at key a c.
Proof. intros (? & ? & H1) (? & ? & H2). split_and!; [congruence..|]. intros k Hk. by rewrite H2, H1. Qed.

Lemma drop_empty_at wh key : hub_at key wh (wh_drop_empty wh key).
Proof.
  unfold wh_drop_empty, hub_at. destruct (wh_watchers wh !! key) as [[|]|]; unfold upd; cbn; split_and!; try done.
  intros k Hk. by rewrite lookup_delete_ne.
Qed.

Lemma drop_empty_heap wh key : wh_heap (wh_drop_empty wh key) = wh_heap wh.
Proof. unfold wh_drop_empty. by destruct (wh_watchers wh !! key) as [[|]|]. Qed.

Lemma unlink_at wh w x key n : hub_at key wh ((wh_unlink (wh_set wh w x) key w) <| wh_count := n |>).
Proof. unfold hub_at, wh_unlink, wh_set, upd; cbn. split_and!; try done. intros k Hk. by rewrite lookup_alter_ne. Qed.

Lemma watcher_remove_spec wh w x key : hub_core wh -> wh_heap wh !! w = Some x -> registered x = Some key ->
  exists wh', watcher_remove wh w = Ok wh' /\ hub_core wh' /\ hub_at key wh wh' /\
    wh_heap wh' = <[w := x <| w_removed := true |>]> (wh_heap wh).
Proof.
  intros Hwh Hx Hr. unfold watcher_remove, wh_deref. rewrite Hx. cbn [gobind]. unfold registered in Hr.
  destruct (w_removed x) eqn:Hrm; [done|]. rewrite Hr. eexists; split; [done|].
  assert (registered x = Some key) as Hreg by (unfold registered; by rewrite Hrm). split_and!.
  - apply core_drop_empty. by apply (core_unlink wh w x).
  - eapply hub_at_trans; [apply unlink_at|apply drop_empty_at].
  - by rewrite drop_empty_heap.
Qed.

Lemma notify_elem_spec wh w x e nodePath deleted : hub_core wh -> wh_heap wh !! w = Some x -> registered x = Some nodePath ->
  exists wh', notify_elem e nodePath deleted wh w = Ok wh' /\ hub_core wh' /\ hub_at nodePath wh wh' /\
    wh_heap wh' = <[w := deliver e nodePath deleted x]> (wh_heap wh).
Proof.
  intros Hwh Hx Hr. assert (hub_at nodePath wh wh) as Hrefl by done.
  destruct (hc_chan _ Hwh w x Hx ltac:(by eexists)) as [Hcl Hns].
  unfold notify_elem, deliver, interested. set (orig := bool_decide _).
  destruct (orig || negb (isHidden nodePath (ne_Key (ev_Node e)))); cbn [andb].
  2:{ exists wh. split_and!; [done..|]. by rewrite insert_id. }
  unfold watcher_notify. assert (wh_deref wh w = Ok x) as -> by (unfold wh_deref; by rewrite Hx). cbn [gobind].
  destruct (((w_recursive x || orig) || deleted) && (w_sinceIndex x <=? Event_Index e)); cbn [gobind].
  2:{ unfold wh_deref. rewrite Hx. cbn. exists wh. split_and!; [done..|]. by rewrite insert_id. }
  rewrite Hcl. destruct (Z.ltb_spec (zlen (w_eventChan x)) chan_cap) as [Hroom|Hfull]; cbn [gobind].
  - unfold wh_deref at 1. unfold wh_set at 1, upd at 1; cbn. rewrite lookup_insert_eq. cbn [gobind].
    set (x1 := upd w_eventChan _ x). change (w_stream x1) with (w_stream x). destruct (w_stream x) eqn:Hst; cbn [negb].
    + exists (wh_set wh w x1). split_and!; [done| |done|done]. apply (core_set wh w x); [done|done|done|].
      intros _. split; [done|]. unfold x1, upd; cbn. rewrite Hst. discriminate.
    + eexists; split; [done|]. replace (wh_set (wh_set wh w x1) w _) with (wh_set wh w (x1 <| w_removed := true |>)).
      2:{ unfold wh_set, upd; cbn. by rewrite insert_insert_eq. }
      split_and!; [by apply (core_unlink wh w x)|apply unlink_at|done].
  - destruct (w_stream x) eqn:Hst; [|exfalso; rewrite Hns in Hfull by done; unfold chan_cap in Hfull; cbn in Hfull; lia].
    destruct (watcher_remove_spec wh w x nodePath Hwh Hx Hr) as (wh' & -> & Hcore & Hat & Hheap). cbn [gobind].
    unfold wh_deref. rewrite Hheap, lookup_insert_eq. cbn [gobind]. unfold upd at 1; cbn. rewrite Hst. cbn [negb].
    exists wh'. done.
Qed.

Definition deliver_to (e : Event) (nodePath : str) (deleted : bool) (x : watcher) : watcher :=
  if decide (registered x = Some nodePath) then deliver e nodePath deleted x else x.

Lemma notify_loop_spec e nodePath deleted l wh : hub_core wh -> NoDup l ->
  (forall w, w ∈ l -> exists x, wh_heap wh !! w = Some x /\ registered x = Some nodePath) ->
  exists wh', foldM (notify_elem e nodePath deleted) l wh = Ok wh' /\ hub_core wh' /\ hub_at nodePath wh wh' /\
    (forall w, wh_heap wh' !! w = if decide (w ∈ l) then deliver e nodePath deleted <$> wh_heap wh !! w else wh_heap wh !! w).
Proof.
  revert wh. induction l as [|w l IH]; intros wh Hwh Hnd Hreg; cbn [foldM].
  { exists wh. split_and!; [done..|]. intros w. by rewrite decide_False by set_solver. }
  apply NoDup_cons in Hnd as [Hw Hnd]. destruct (Hreg w) as (x & Hx & Hr); [set_solver|].
  destruct (notify_elem_spec wh w x e nodePath deleted Hwh Hx Hr) as (wh1 & -> & Hcore & Hat & Hheap). cbn [gobind].
  destruct (IH wh1 Hcore Hnd) as (wh' & Hf & Hcore' & Hat' & Hheap').
  { intros v Hv. rewrite Hheap, lookup_insert_ne by (by intros ->). apply Hreg. set_solver. }
  exists wh'. split_and!; [done..|by eapply hub_at_trans|]. intros v. rewrite Hheap', Hheap.
  destruct (decide (v = w)) as [->|Hne].
  - rewrite decide_False by done. rewrite decide_True by set_solver. by rewrite lookup_insert_eq, Hx.
  - rewrite lookup_insert_ne by done. destruct (decide (v ∈ l)); [rewrite decide_True by set_solver|rewrite decide_False by set_solver]; done.
Qed.

Lemma drop_empty_tidy wh key : (forall k l, k <> key -> wh_watchers wh !! k = Some l -> l <> []) ->
  forall k l, wh_watchers (wh_drop_empty wh key) !! k = Some l -> l <> [].
Proof.
  intros Ht k l. unfold wh_drop_empty. destruct (decide (k = key)) as [->|Hne].
  - destruct (wh_watchers wh !! key) as [[|]|] eqn:Hk; unfold upd; cbn; rewrite ?lookup_delete_eq, ?Hk; congruence.
  - destruct (wh_watchers wh !! key) as [[|]|]; unfold upd; cbn; rewrite ?lookup_delete_ne by done; by apply Ht.
Qed.

Lemma notifyWatchers_spec wh e nodePath deleted : hub_ok wh ->
  exists wh', notifyWatchers wh e nodePath deleted = Ok wh' /\ hub_ok wh' /\ hub_at nodePath wh wh' /\
    wh_heap wh' = deliver_to e nodePath deleted <$> wh_heap wh.
Proof.
  intros [Hcore Htidy]. unfold notifyWatchers. pose proof Hcore as [Hl Hn _ _ _].
  destruct (wh_watchers wh !! nodePath) as [l|] eqn:Hk.
  - destruct (notify_loop_spec e nodePath deleted l wh Hcore) as (wh1 & -> & Hcore1 & Hat & Hheap); [by eapply Hn|intros w Hw; apply Hl; eauto|].
    cbn [gobind]. eexists; split; [done|]. split_and!.
    + split; [by apply core_drop_empty|]. apply drop_empty_tidy. intros k l' Hne Hk'. rewrite (proj2 (proj2 Hat)) in Hk' by done. by eapply Htidy.
    + eapply hub_at_trans; [done|apply drop_empty_at].
    + rewrite drop_empty_heap. apply map_eq. intros w. rewrite Hheap, lookup_fmap. unfold deliver_to.
      destruct (wh_heap wh !! w) as [x|] eqn:Hx; cbn; [|by destruct (decide (w ∈ l))].
      destruct (decide (w ∈ l)) as [Hin|Hin], (decide (registered x = Some nodePath)) as [Hr|Hr]; try done.
      * destruct (proj1 (Hl nodePath w)) as (y & Hy & Hyr); [eauto|]. congruence.
      * destruct (proj2 (Hl nodePath w)) as (l' & Hl' & Hin'); [eauto|]. congruence.
  - exists wh. split_and!; [done..|]. apply map_eq. intros w. rewrite lookup_fmap. unfold deliver_to.
    destruct (wh_heap wh !! w) as [x|] eqn:Hx; cbn; [|done]. rewrite decide_False; [done|]. intros Hr.
    destruct (proj2 (Hl nodePath w)) as (l' & Hl' & _); [eauto|]. congruence.
Qed.

(** ** A notification *)

(** The paths [notify] walks through. *)
Fixpoint walk_paths (pre p : list str) : list str :=
  match p with [] => [] | n :: p' => render (pre ++ [n]) :: walk_paths (pre ++ [n]) p' end.
Definition above (p : list str) : list str := render [] :: walk_paths [] p.

Definition notified (e : Event) (paths : list str) (deleted : bool) (heap : gmap Z watcher) : gmap Z watcher :=
  foldl (fun heap P => deliver_to e P deleted <$> heap) heap paths.

Definition hub_rest (wh wh' : watcherHub) : Prop := wh_EventHistory wh' = wh_EventHistory wh /\ wh_next wh' = wh_next wh.

Lemma notify_paths_spec e pre p wh : hub_ok wh -> Forall name_ok pre -> Forall name_ok p ->
  exists wh', foldM (notify_segment e) p (wh, render pre) = Ok (wh', render (pre ++ p)) /\ hub_ok wh' /\ hub_rest wh wh' /\
    wh_heap wh' = notified e (walk_paths pre p) false (wh_heap wh).
Proof.
  revert pre wh. induction p as [|n p IH]; intros pre wh Hwh Hpre Hp; cbn [foldM].
  { exists wh. rewrite app_nil_r. done. }
  apply Forall_cons in Hp as [Hn Hp]. cbn [notify_segment]. rewrite Join_render by done.
  destruct (notifyWatchers_spec wh e (render (pre ++ [n])) false Hwh) as (wh1 & -> & Hok1 & (He1 & Hn1 & _) & Hh1). cbn [gobind].
  destruct (IH (pre ++ [n]) wh1) as (wh' & -> & Hok' & [He' Hn'] & Hh'); [done|apply Forall_app; split; [done|by constructor]|done|].
  exists wh'. rewrite <- (assoc app). split_and!; [done..| |]; [split; congruence|]. rewrite Hh', Hh1. done.
Qed.

Lemma hub_notify_spec wh l e p : hub_ok wh -> history_ok (wh_EventHistory wh) l -> p <> [] -> Forall name_ok p ->
  ne_Key (ev_Node e) = render p -> (l <> [] -> Event_Index e = eh_LastIndex (wh_EventHistory wh) + 1) ->
  exists wh', hub_notify wh e = Ok wh' /\ hub_ok wh' /\ wh_next wh' = wh_next wh /\
    addEvent (wh_EventHistory wh) e = Ok (wh_EventHistory wh') /\
    history_ok (wh_EventHistory wh') (keep_last (eq_Capacity (eh_Queue (wh_EventHistory wh))) (l ++ [e])) /\
    wh_heap wh' = notified e (above p) false (wh_heap wh).
Proof.
  intros [Hcore Htidy] Hh Hne Hp Hkey Hidx. unfold hub_notify, hub_add.
  destruct (addEvent_spec _ _ e Hh Hidx) as (eh & Hadd & _ & _ & Hh'). rewrite Hadd. cbn [gobind]. rewrite Hkey, Split_render by done.
  set (wh1 := wh <| wh_EventHistory := eh |>). assert (hub_ok wh1) as Hok1 by (split; [by destruct Hcore|done]).
  replace (match p with [] => _ | _ => p end) with p by (by destruct p). cbn [foldM notify_segment].
  change (Join [slash] []) with (render []).
  destruct (notifyWatchers_spec wh1 e (render []) false Hok1) as (wh2 & -> & Hok2 & (He2 & Hn2 & _) & Hh2). cbn [gobind].
  destruct (notify_paths_spec e [] p wh2 Hok2) as (wh' & -> & Hok' & [He' Hn'] & Hheap'); [done..|]. cbn [gobind].
  exists wh'. split_and!; [done..| | | |].
  - by rewrite Hn', Hn2.
  - by rewrite He', He2.
  - rewrite He', He2. exact Hh'.
  - rewrite Hheap', Hh2. done.
Qed.
