(* ===== verification/V2Store.v ===== *)
(** * The version 2 store: [src/store/node.go], [src/store/store.go],
    [src/store/stats.go], [src/store/node_extern.go]

    The store is a tree of nodes linked by pointers in both directions, with a
    heap of the nodes that expire and a hub of watchers.  Nodes live in a map
    from pointers; an operation takes the store and returns it with its result.
    Times are nanoseconds since the zero time, which is 0.  The clock is read
    once for an operation, as a clock that does not advance during it.

    [range m] is the order in which a loop visits the map [m]. *)

From S2P Require Import Prelude Proto OrderedMap GoPath TTLHeap V2Event WatcherHub.

Record node := mkNode {
  n_Path : str;
  n_CreatedIndex : Z;
  n_ModifiedIndex : Z;
  n_Parent : option Z;
  n_ExpireTime : Z;
  n_Value : str;
  n_Children : option (gmap str Z)
}.
#[global] Instance node_eta : Eta node := fun n =>
  mkNode (n_Path n) (n_CreatedIndex n) (n_ModifiedIndex n) (n_Parent n) (n_ExpireTime n) (n_Value n) (n_Children n).

(** ** Statistics *)

Inductive stats_field :=
  SetSuccess | SetFail | DeleteSuccess | DeleteFail | CreateSuccess | CreateFail | UpdateSuccess | UpdateFail |
  CompareAndSwapSuccess | CompareAndSwapFail | GetSuccess | GetFail | ExpireCount | CompareAndDeleteSuccess |
  CompareAndDeleteFail.
#[global] Instance stats_field_eq_dec : EqDecision stats_field.
Proof. solve_decision. Defined.

(** One counter of 64 bits per field. *)
Definition Stats : Type := stats_field -> Z.
Definition newStats : Stats := fun _ => 0.
Definition Stats_Inc (st : Stats) (field : stats_field) : Stats :=
  fun f => if decide (f = field) then st f ⊞ 1 else st f.

(** ** The store *)

Record store := mkStore {
  s_nodes : gmap Z node;
  s_next : Z;
  s_Root : Z;
  s_WatcherHub : watcherHub;
  s_CurrentIndex : Z;
  s_Stats : Stats;
  s_CurrentVersion : Z;
  s_ttlKeyHeap : ttlKeyHeap;
  s_readonlySet : gset str
}.
#[global] Instance store_eta : Eta store := fun s =>
  mkStore (s_nodes s) (s_next s) (s_Root s) (s_WatcherHub s) (s_CurrentIndex s) (s_Stats s) (s_CurrentVersion s)
    (s_ttlKeyHeap s) (s_readonlySet s).

Definition Inc (s : store) (field : stats_field) : store := s <| s_Stats := Stats_Inc (s_Stats s) field |>.

Definition deref (s : store) (p : Z) : outcome node :=
  match s_nodes s !! p with Some n => Ok n | None => Panic "nil pointer dereference" end.
Definition put_node (s : store) (p : Z) (n : node) : store := s <| s_nodes ::= insert p n |>.
Definition new_node (s : store) (n : node) : store * Z := (s <| s_nodes ::= insert (s_next s) n |> <| s_next := s_next s + 1 |>, s_next s).

(** The expiry times by which the heap of keys is ordered. *)
Definition expire_of (s : store) (p : Z) : Z := match s_nodes s !! p with Some n => n_ExpireTime n | None => 0 end.

Definition Permanent : Z := 0.
Definition second : Z := 1000000000.
(** 2000-01-01T00:00:00Z *)
Definition minExpireTime : Z := 63082281600 * second.

Definition newKV (nodePath value : str) (createdIndex : Z) (parent : option Z) (expireTime : Z) : node :=
  mkNode nodePath createdIndex createdIndex parent expireTime value None.
Definition newDir (nodePath : str) (createdIndex : Z) (parent : option Z) (expireTime : Z) : node :=
  mkNode nodePath createdIndex createdIndex parent expireTime [] (Some ∅).

(** ** Methods of a node *)

Definition IsHidden (n : node) : outcome bool :=
  let '(_, name) := path_Split (n_Path n) in
  let! c := at_ name 0 in Ok (c =? 95).

Definition IsPermanent (n : node) : bool := n_ExpireTime n =? 0.
Definition IsDir (n : node) : bool := if n_Children n then true else false.

Definition Read (s : store) (n : node) : str + Error :=
  if IsDir n then inr (NewError EcodeNotFile [] (s_CurrentIndex s)) else inl (n_Value n).

Definition Write (s : store) (p : Z) (value : str) (index : Z) : outcome (store * option Error) :=
  let! n := deref s p in
  if IsDir n then Ok (s, Some (NewError EcodeNotFile [] (s_CurrentIndex s)))
  else Ok (put_node s p (n <| n_Value := value |> <| n_ModifiedIndex := index |>), None).

(** [t.Sub(u)]: the difference, saturated at the width of a [Duration] *)
Definition time_Sub (t u : Z) : Z := Z.max (-9223372036854775808) (Z.min 9223372036854775807 (t - u)).

Definition expirationAndTTL (n : node) (now : Z) : option Z * Z :=
  if negb (IsPermanent n) then
    let ttlN := time_Sub (n_ExpireTime n) now in
    let ttl := Z.quot ttlN second in
    (Some (n_ExpireTime n), if 0 <? Z.rem ttlN second then ttl + 1 else ttl)
  else (None, 0).

Definition key_le (a b : NodeExtern) : Prop := bytes_compare (ne_Key a) (ne_Key b) <> Gt.
#[global] Instance key_le_dec a b : Decision (key_le a b).
Proof. unfold key_le. apply _. Defined.

(** [sort.Sort]; the keys in a directory differ, so there is one order. *)
Definition sort_nodes (l : list NodeExtern) : list NodeExtern := merge_sort key_le l.

Inductive compare_result := CompareMatch | CompareIndexNotMatch | CompareValueNotMatch | CompareNotMatch.

Definition Compare (n : node) (prevValue : str) (prevIndex : Z) : bool * compare_result :=
  let indexMatch := (prevIndex =? 0) || (n_ModifiedIndex n =? prevIndex) in
  let valueMatch := bool_decide (prevValue = []) || bool_decide (n_Value n = prevValue) in
  (valueMatch && indexMatch,
   if valueMatch && indexMatch then CompareMatch
   else if indexMatch && negb valueMatch then CompareValueNotMatch
   else if valueMatch && negb indexMatch then CompareIndexNotMatch
   else CompareNotMatch).

Definition getCompareFailCause (n : node) (which : compare_result) (prevValue : str) (prevIndex : Z) : str :=
  let index := bytes "[" ++ FormatUint prevIndex ++ bytes " != " ++ FormatUint (n_ModifiedIndex n) ++ bytes "]" in
  let value := bytes "[" ++ prevValue ++ bytes " != " ++ n_Value n ++ bytes "]" in
  match which with
  | CompareIndexNotMatch => index
  | CompareValueNotMatch => value
  | _ => value ++ bytes " " ++ index
  end.

(** [UpdateTTL] *)
Definition UpdateTTL (s : store) (p : Z) (expireTime : Z) : outcome store :=
  let! n := deref s p in
  if negb (IsPermanent n) then
    let s := put_node s p (n <| n_ExpireTime := expireTime |>) in
    if expireTime =? 0 then
      let! h := ttl_remove (expire_of s) (s_ttlKeyHeap s) p in Ok (s <| s_ttlKeyHeap := h |>)
    else
      let! h := ttl_update (expire_of s) (s_ttlKeyHeap s) p in Ok (s <| s_ttlKeyHeap := h |>)
  else if expireTime =? 0 then Ok s
  else
    let s := put_node s p (n <| n_ExpireTime := expireTime |>) in
    let! h := ttl_push (expire_of s) (s_ttlKeyHeap s) p in Ok (s <| s_ttlKeyHeap := h |>).

Definition GetChild (s : store) (p : Z) (name : str) : outcome (option Z + Error) :=
  let! n := deref s p in
  match n_Children n with
  | None => Ok (inr (NewError EcodeNotDir (n_Path n) (s_CurrentIndex s)))
  | Some m => Ok (inl (m !! name))
  end.

Definition Add (s : store) (p child : Z) : outcome (store * option Error) :=
  let! n := deref s p in
  match n_Children n with
  | None => Ok (s, Some (NewError EcodeNotDir [] (s_CurrentIndex s)))
  | Some m =>
      let! c := deref s child in
      let '(_, name) := path_Split (n_Path c) in
      if m !! name then Ok (s, Some (NewError EcodeNodeExist [] (s_CurrentIndex s)))
      else Ok (put_node s p (n <| n_Children := Some (<[name := child]> m) |>), None)
  end.

(** [callback]: nil, or the closure of the caller, which notifies the watchers
    of a path that is deleted by the event. *)
Definition run_callback (s : store) (callback : option Event) (path : str) : outcome store :=
  match callback with
  | None => Ok s
  | Some e => let! wh := notifyWatchers (s_WatcherHub s) e path true in Ok (s <| s_WatcherHub := wh |>)
  end.

(** [n.Parent != nil && n.Parent.Children[name] == n] *)
Definition in_parent (s : store) (p : Z) (n : node) (name : str) : outcome (option (Z * node * gmap str Z)) :=
  match n_Parent n with
  | None => Ok None
  | Some q =>
      let! parent := deref s q in
      match n_Children parent with
      | Some m => Ok (if bool_decide (m !! name = Some p) then Some (q, parent, m) else None)
      | None => Ok None
      end
  end.

Definition unlink_child (s : store) (at_parent : Z * node * gmap str Z) (name : str) : store :=
  let '(q, parent, m) := at_parent in put_node s q (parent <| n_Children := Some (delete name m) |>).

Definition remove_ttl (s : store) (p : Z) (n : node) : outcome store :=
  if negb (IsPermanent n) then let! h := ttl_remove (expire_of s) (s_ttlKeyHeap s) p in Ok (s <| s_ttlKeyHeap := h |>)
  else Ok s.

Section range.
  Context (range : gmap str Z -> list (str * Z)).

(** [Remove].  The children are removed with their errors ignored; a child
    takes only itself out of the map that the loop visits. *)
Fixpoint Remove (fuel : nat) (s : store) (p : Z) (dir recursive : bool) (callback : option Event)
    : outcome (store * option Error) :=
  match fuel with
  | O => Panic "out of fuel"
  | S f =>
      let! n := deref s p in
      let '(_, name) := path_Split (n_Path n) in
      match n_Children n with
      | None =>
          let! at_parent := in_parent s p n name in
          let s := match at_parent with Some x => unlink_child s x name | None => s end in
          let! s := run_callback s callback (n_Path n) in
          let! s := remove_ttl s p n in
          Ok (s, None)
      | Some children =>
          if negb dir then Ok (s, Some (NewError EcodeNotFile (n_Path n) (s_CurrentIndex s)))
          else if negb (bool_decide (children = ∅)) && negb recursive then
            Ok (s, Some (NewError EcodeDirNotEmpty (n_Path n) (s_CurrentIndex s)))
          else
            let! s := foldM (fun s '(_, child) => let! '(s, _) := Remove f s child true true callback in Ok s)
                        (range children) s in
            let! at_parent := in_parent s p n name in
            match at_parent with
            | None => Ok (s, None)
            | Some x =>
                let s := unlink_child s x name in
                let! s := run_callback s callback (n_Path n) in
                let! s := remove_ttl s p n in
                Ok (s, None)
            end
      end
  end.

(** [Repr], and its loop over the children that are not hidden *)
Fixpoint Repr (fuel : nat) (s : store) (p : Z) (recursive sorted : bool) (now : Z) : outcome NodeExtern :=
  match fuel with
  | O => Panic "out of fuel"
  | S f =>
      let! n := deref s p in
      let '(expiration, ttl) := expirationAndTTL n now in
      match n_Children n with
      | None => Ok (mkNodeExtern (n_Path n) (Some (n_Value n)) false expiration ttl [] (n_ModifiedIndex n) (n_CreatedIndex n))
      | Some children =>
          let node nodes := mkNodeExtern (n_Path n) None true expiration ttl nodes (n_ModifiedIndex n) (n_CreatedIndex n) in
          if negb recursive then Ok (node []) else
          let! nodes :=
            foldM (fun acc '(_, child) =>
              let! c := deref s child in
              let! hidden := IsHidden c in
              if hidden : bool then Ok acc
              else let! r := Repr f s child recursive sorted now in Ok (acc ++ [r])) (range children) [] in
          Ok (node (if sorted then sort_nodes nodes else nodes))
      end
  end.

(** Enough for the depth of any tree made of these nodes. *)
Definition fuel_of (s : store) : nat := S (size (s_nodes s)).

Definition loadInternalNode (s : store) (eNode : NodeExtern) (p : Z) (recursive sorted : bool) (now : Z) : outcome NodeExtern :=
  let! n := deref s p in
  let! eNode :=
    match n_Children n with
    | Some children =>
        let! nodes :=
          foldM (fun acc '(_, child) =>
            let! c := deref s child in
            let! hidden := IsHidden c in
            if hidden : bool then Ok acc
            else let! r := Repr (fuel_of s) s child recursive sorted now in Ok (acc ++ [r])) (range children) [] in
        Ok (eNode <| ne_Dir := true |> <| ne_Nodes := if sorted then sort_nodes nodes else nodes |>)
    | None => Ok (eNode <| ne_Value := match Read s n with inl v => Some v | inr _ => Some [] end |>)
    end in
  let '(expiration, ttl) := expirationAndTTL n now in
  Ok (eNode <| ne_Expiration := expiration |> <| ne_TTL := ttl |>).
End range.

(** ** Methods of the store *)

Record TTLOptionSet := mkTTLOptionSet { o_ExpireTime : Z; o_Refresh : bool }.

Definition defaultVersion : Z := 2.

(** [newStore]: the errors of [Add] are ignored. *)
Definition newStore (namespaces : list str) : outcome store :=
  let s := mkStore ∅ 0 0 (newWatchHub 1000) 0 newStats defaultVersion newTtlKeyHeap
             (list_to_set (namespaces ++ [[slash]])) in
  let '(s, root) := new_node s (newDir [slash] (s_CurrentIndex s) None Permanent) in
  let s := s <| s_Root := root |> in
  foldM (fun s namespace =>
    let '(s, c) := new_node s (newDir namespace (s_CurrentIndex s) (Some (s_Root s)) Permanent) in
    let! '(s, _) := Add s (s_Root s) c in Ok s) namespaces s.

(** The loop of [walk], and [walk] *)
Fixpoint walk_loop (walkFunc : store -> Z -> str -> outcome (store * (Z + Error))) (components : list str) (s : store) (curr : Z)
    : outcome (store * (Z + Error)) :=
  match components with
  | [] => Ok (s, inl curr)
  | c :: components' =>
      if bool_decide (c = []) then Ok (s, inl curr) else
      let! '(s, r) := walkFunc s curr c in
      match r with
      | inr err => Ok (s, inr err)
      | inl curr => walk_loop walkFunc components' s curr
      end
  end.

Definition walk (s : store) (nodePath : str) (walkFunc : store -> Z -> str -> outcome (store * (Z + Error)))
    : outcome (store * (Z + Error)) :=
  walk_loop walkFunc (drop 1 (Split nodePath)) s (s_Root s).

(** The function that [internalGet] walks with. *)
Definition get_child (s : store) (parent : Z) (name : str) : outcome (store * (Z + Error)) :=
  let! n := deref s parent in
  match n_Children n with
  | None => Ok (s, inr (NewError EcodeNotDir (n_Path n) (s_CurrentIndex s)))
  | Some m =>
      match m !! name with
      | Some child => Ok (s, inl child)
      | None => Ok (s, inr (NewError EcodeKeyNotFound (Join (n_Path n) name) (s_CurrentIndex s)))
      end
  end.

Definition internalGet (s : store) (nodePath : str) : outcome (Z + Error) :=
  let nodePath := Clean (Join [slash] nodePath) in
  let! '(_, r) := walk s nodePath get_child in Ok r.

Definition checkDir (s : store) (parent : Z) (dirName : str) : outcome (store * (Z + Error)) :=
  let! n := deref s parent in
  match n_Children n ≫= lookup dirName with
  | Some c =>
      let! x := deref s c in
      if IsDir x then Ok (s, inl c) else Ok (s, inr (NewError EcodeNotDir (n_Path x) (s_CurrentIndex s)))
  | None =>
      let '(s, c) := new_node s (newDir (Join (n_Path n) dirName) (s_CurrentIndex s ⊞ 1) (Some parent) Permanent) in
      match n_Children n with
      | None => Panic "assignment to entry in nil map"
      | Some m => Ok (put_node s parent (n <| n_Children := Some (<[dirName := c]> m) |>), inl c)
      end
  end.

Section operations.
  Context (range : gmap str Z -> list (str * Z)).

Definition Get (s : store) (nodePath : str) (recursive sorted : bool) (now : Z) : outcome (store * (Event + Error)) :=
  let nodePath := Clean (Join [slash] nodePath) in
  let! r := internalGet s nodePath in
  match r with
  | inr err => Ok (Inc s GetFail, inr err)
  | inl p =>
      let! n := deref s p in
      let e := newEvent ActGet nodePath (n_ModifiedIndex n) (n_CreatedIndex n) in
      let e := e <| ev_EtcdIndex := s_CurrentIndex s |> in
      let! eNode := loadInternalNode range s (ev_Node e) p recursive sorted now in
      Ok (Inc s GetSuccess, inl (e <| ev_Node := eNode |>))
  end.

Definition internalCreate (s : store) (nodePath : str) (dir : bool) (value : str) (unique replace : bool)
    (expireTime : Z) (action : Action) (now : Z) : outcome (store * (Event + Error)) :=
  let currIndex := s_CurrentIndex s in
  let nextIndex := s_CurrentIndex s ⊞ 1 in
  let nodePath := if unique then nodePath ++ slash :: Sprintf_020s (FormatUint nextIndex) else nodePath in
  let nodePath := Clean (Join [slash] nodePath) in
  if bool_decide (nodePath ∈ s_readonlySet s) then Ok (s, inr (NewError EcodeRootROnly [slash] currIndex)) else
  let expireTime := if expireTime <? minExpireTime then Permanent else expireTime in
  let '(dirName, nodeName) := path_Split nodePath in
  let! '(s, r) := walk s dirName checkDir in
  match r with
  | inr err => Ok (Inc s SetFail, inr (err <| err_Index := currIndex |>))
  | inl d =>
      let e := newEvent action nodePath nextIndex nextIndex in
      let! child := GetChild s d nodeName in
      let n := match child with inl n => n | inr _ => None end in
      let! '(s, e, stop) :=
        match n with
        | None => Ok (s, e, None)
        | Some n =>
            if replace then
              let! x := deref s n in
              if IsDir x then Ok (s, e, Some (NewError EcodeNotFile nodePath currIndex)) else
              let! prev := Repr range (fuel_of s) s n false false now in
              let! '(s, _) := Remove range (fuel_of s) s n false false None in
              Ok (s, e <| ev_PrevNode := Some prev |>, None)
            else Ok (s, e, Some (NewError EcodeNodeExist nodePath currIndex))
        end in
      match stop with
      | Some err => Ok (s, inr err)
      | None =>
          let eNode := if negb dir then (ev_Node e) <| ne_Value := Some value |> else (ev_Node e) <| ne_Dir := true |> in
          let x := if negb dir then newKV nodePath value nextIndex (Some d) expireTime
                   else newDir nodePath nextIndex (Some d) expireTime in
          let '(s, n) := new_node s x in
          let! '(s, _) := Add s d n in
          let! '(s, eNode) :=
            (if negb (IsPermanent x) then
               let! h := ttl_push (expire_of s) (s_ttlKeyHeap s) n in
               let '(expiration, ttl) := expirationAndTTL x now in
               Ok (s <| s_ttlKeyHeap := h |>, eNode <| ne_Expiration := expiration |> <| ne_TTL := ttl |>)
             else Ok (s, eNode)) in
          Ok (s <| s_CurrentIndex := nextIndex |>, inl (e <| ev_Node := eNode |>))
      end
  end.

(** [s.WatcherHub.notify(e)], [s.WatcherHub.add(e)] *)
Definition s_notify (s : store) (e : Event) : outcome store :=
  let! wh := hub_notify (s_WatcherHub s) e in Ok (s <| s_WatcherHub := wh |>).
Definition s_add (s : store) (e : Event) : outcome store :=
  let! wh := hub_add (s_WatcherHub s) e in Ok (s <| s_WatcherHub := wh |>).

(** A refresh is kept in the history and not notified. *)
Definition publish (s : store) (e : Event) (refresh : bool) : outcome (store * Event) :=
  if negb refresh then let! s := s_notify s e in Ok (s, e)
  else let e := SetRefresh e in let! s := s_add s e in Ok (s, e).

Definition Create (s : store) (nodePath : str) (dir : bool) (value : str) (unique : bool) (expireOpts : TTLOptionSet) (now : Z)
    : outcome (store * (Event + Error)) :=
  let! '(s, r) := internalCreate s nodePath dir value unique false (o_ExpireTime expireOpts) ActCreate now in
  match r with
  | inr err => Ok (Inc s CreateFail, inr err)
  | inl e =>
      let e := e <| ev_EtcdIndex := s_CurrentIndex s |> in
      let! s := s_notify s e in
      Ok (Inc s CreateSuccess, inl e)
  end.

Definition Set_ (s : store) (nodePath : str) (dir : bool) (value : str) (expireOpts : TTLOptionSet) (now : Z)
    : outcome (store * (Event + Error)) :=
  let! got := internalGet s nodePath in
  let refused := match got with inr err => negb (ErrorCode err =? EcodeKeyNotFound) || o_Refresh expireOpts | inl _ => false end in
  match got, refused with
  | inr getErr, true => Ok (Inc s SetFail, inr getErr)
  | _, _ =>
      let! value :=
        match got with
        | inl n => if o_Refresh expireOpts then let! x := deref s n in Ok (n_Value x) else Ok value
        | inr _ => Ok value
        end in
      let! '(s, r) := internalCreate s nodePath dir value false true (o_ExpireTime expireOpts) ActSet now in
      match r with
      | inr err => Ok (Inc s SetFail, inr err)
      | inl e =>
          let e := e <| ev_EtcdIndex := s_CurrentIndex s |> in
          let! e :=
            match got with
            | inl n =>
                let! x := deref s n in
                let prev := newEvent ActGet nodePath (n_ModifiedIndex x) (n_CreatedIndex x) in
                let! prevNode := loadInternalNode range s (ev_Node prev) n false false now in
                Ok (e <| ev_PrevNode := Some prevNode |>)
            | inr _ => Ok e
            end in
          let! '(s, e) := publish s e (o_Refresh expireOpts) in
          Ok (Inc s SetSuccess, inl e)
      end
  end.

Definition Update (s : store) (nodePath newValue : str) (expireOpts : TTLOptionSet) (now : Z) : outcome (store * (Event + Error)) :=
  let nodePath := Clean (Join [slash] nodePath) in
  if bool_decide (nodePath ∈ s_readonlySet s) then
    Ok (Inc s UpdateSuccess, inr (NewError EcodeRootROnly [slash] (s_CurrentIndex s))) else
  let currIndex := s_CurrentIndex s in
  let nextIndex := s_CurrentIndex s ⊞ 1 in
  let! r := internalGet s nodePath in
  match r with
  | inr err => Ok (Inc s UpdateFail, inr err)
  | inl p =>
      let! n := deref s p in
      if IsDir n && negb (bool_decide (newValue = [])) then
        Ok (Inc s UpdateSuccess, inr (NewError EcodeNotFile nodePath currIndex)) else
      let newValue := if o_Refresh expireOpts then n_Value n else newValue in
      let e := newEvent ActUpdate nodePath nextIndex (n_CreatedIndex n) in
      let e := e <| ev_EtcdIndex := nextIndex |> in
      let! prev := Repr range (fuel_of s) s p false false now in
      let e := e <| ev_PrevNode := Some prev |> in
      let! '(s, _) := Write s p newValue nextIndex in
      let eNode := if IsDir n then (ev_Node e) <| ne_Dir := true |> else (ev_Node e) <| ne_Value := Some newValue |> in
      let! s := UpdateTTL s p (o_ExpireTime expireOpts) in
      let! n := deref s p in
      let '(expiration, ttl) := expirationAndTTL n now in
      let e := e <| ev_Node := eNode <| ne_Expiration := expiration |> <| ne_TTL := ttl |> |> in
      let! '(s, e) := publish s e (o_Refresh expireOpts) in
      Ok (Inc (s <| s_CurrentIndex := nextIndex |>) UpdateSuccess, inl e)
  end.

Definition CompareAndSwap (s : store) (nodePath prevValue : str) (prevIndex : Z) (value : str) (expireOpts : TTLOptionSet) (now : Z)
    : outcome (store * (Event + Error)) :=
  let nodePath := Clean (Join [slash] nodePath) in
  if bool_decide (nodePath ∈ s_readonlySet s) then
    Ok (Inc s CompareAndSwapSuccess, inr (NewError EcodeRootROnly [slash] (s_CurrentIndex s))) else
  let! r := internalGet s nodePath in
  match r with
  | inr err => Ok (Inc s CompareAndSwapFail, inr err)
  | inl p =>
      let! n := deref s p in
      if IsDir n then Ok (Inc s CompareAndSwapFail, inr (NewError EcodeNotFile nodePath (s_CurrentIndex s))) else
      let '(ok, which) := Compare n prevValue prevIndex in
      if negb ok then
        let cause := getCompareFailCause n which prevValue prevIndex in
        Ok (Inc s CompareAndSwapFail, inr (NewError EcodeTestFailed cause (s_CurrentIndex s))) else
      let value := if o_Refresh expireOpts then n_Value n else value in
      let s := s <| s_CurrentIndex := s_CurrentIndex s ⊞ 1 |> in
      let e := newEvent ActCompareAndSwap nodePath (s_CurrentIndex s) (n_CreatedIndex n) in
      let e := e <| ev_EtcdIndex := s_CurrentIndex s |> in
      let! prev := Repr range (fuel_of s) s p false false now in
      let e := e <| ev_PrevNode := Some prev |> in
      let! '(s, _) := Write s p value (s_CurrentIndex s) in
      let! s := UpdateTTL s p (o_ExpireTime expireOpts) in
      let! n := deref s p in
      let '(expiration, ttl) := expirationAndTTL n now in
      let eNode := (ev_Node e) <| ne_Value := Some value |> <| ne_Expiration := expiration |> <| ne_TTL := ttl |> in
      let! '(s, e) := publish s (e <| ev_Node := eNode |>) (o_Refresh expireOpts) in
      Ok (Inc s CompareAndSwapSuccess, inl e)
  end.

Definition Delete (s : store) (nodePath : str) (dir recursive : bool) (now : Z) : outcome (store * (Event + Error)) :=
  let nodePath := Clean (Join [slash] nodePath) in
  if bool_decide (nodePath ∈ s_readonlySet s) then
    Ok (Inc s DeleteSuccess, inr (NewError EcodeRootROnly [slash] (s_CurrentIndex s))) else
  let dir := if recursive then true else dir in
  let! r := internalGet s nodePath in
  match r with
  | inr err => Ok (Inc s DeleteFail, inr err)
  | inl p =>
      let! n := deref s p in
      let nextIndex := s_CurrentIndex s ⊞ 1 in
      let e := newEvent ActDelete nodePath nextIndex (n_CreatedIndex n) in
      let e := e <| ev_EtcdIndex := nextIndex |> in
      let! prev := Repr range (fuel_of s) s p false false now in
      let e := e <| ev_PrevNode := Some prev |> in
      let e := if IsDir n then e <| ev_Node := (ev_Node e) <| ne_Dir := true |> |> else e in
      let! '(s, err) := Remove range (fuel_of s) s p dir recursive (Some e) in
      match err with
      | Some err => Ok (Inc s DeleteFail, inr err)
      | None =>
          let s := s <| s_CurrentIndex := s_CurrentIndex s ⊞ 1 |> in
          let! s := s_notify s e in
          Ok (Inc s DeleteSuccess, inl e)
      end
  end.

Definition CompareAndDelete (s : store) (nodePath prevValue : str) (prevIndex : Z) (now : Z) : outcome (store * (Event + Error)) :=
  let nodePath := Clean (Join [slash] nodePath) in
  let! r := internalGet s nodePath in
  match r with
  | inr err => Ok (Inc s CompareAndDeleteFail, inr err)
  | inl p =>
      let! n := deref s p in
      if IsDir n then Ok (Inc s CompareAndDeleteSuccess, inr (NewError EcodeNotFile nodePath (s_CurrentIndex s))) else
      let '(ok, which) := Compare n prevValue prevIndex in
      if negb ok then
        let cause := getCompareFailCause n which prevValue prevIndex in
        Ok (Inc s CompareAndDeleteSuccess, inr (NewError EcodeTestFailed cause (s_CurrentIndex s))) else
      let s := s <| s_CurrentIndex := s_CurrentIndex s ⊞ 1 |> in
      let e := newEvent ActCompareAndDelete nodePath (s_CurrentIndex s) (n_CreatedIndex n) in
      let e := e <| ev_EtcdIndex := s_CurrentIndex s |> in
      let! prev := Repr range (fuel_of s) s p false false now in
      let e := e <| ev_PrevNode := Some prev |> in
      let! '(s, err) := Remove range (fuel_of s) s p false false (Some e) in
      match err with
      | Some err => Ok (Inc s CompareAndDeleteFail, inr err)
      | None =>
          let! s := s_notify s e in
          Ok (Inc s CompareAndDeleteSuccess, inl e)
      end
  end.

Definition Watch (s : store) (key : str) (recursive stream : bool) (sinceIndex : Z) : outcome (store * (Z + Error)) :=
  let key := Clean (Join [slash] key) in
  let sinceIndex := if sinceIndex =? 0 then s_CurrentIndex s ⊞ 1 else sinceIndex in
  let! '(wh, r) := hub_watch (s_WatcherHub s) key recursive stream sinceIndex (s_CurrentIndex s) in
  Ok (s <| s_WatcherHub := wh |>, r).

(** [DeleteExpiredKeys]: a round takes at least one node from the heap. *)
Definition expire_key (s : store) (p : Z) (now : Z) : outcome store :=
  let! n := deref s p in
  let s := s <| s_CurrentIndex := s_CurrentIndex s ⊞ 1 |> in
  let e := newEvent ActExpire (n_Path n) (s_CurrentIndex s) (n_CreatedIndex n) in
  let e := e <| ev_EtcdIndex := s_CurrentIndex s |> in
  let! prev := Repr range (fuel_of s) s p false false now in
  let e := e <| ev_PrevNode := Some prev |> in
  let! h := ttl_pop (expire_of s) (s_ttlKeyHeap s) in
  let s := s <| s_ttlKeyHeap := h |> in
  let! '(s, _) := Remove range (fuel_of s) s p true true (Some e) in
  s_notify (Inc s ExpireCount) e.

Fixpoint expire_loop (fuel : nat) (s : store) (cutoff now : Z) : outcome store :=
  match fuel with
  | O => Panic "out of fuel"
  | S f =>
      match ttl_top (s_ttlKeyHeap s) with
      | None => Ok s
      | Some p =>
          let! n := deref s p in
          if cutoff <? n_ExpireTime n then Ok s else
          let! s := expire_key s p now in expire_loop f s cutoff now
      end
  end.

Definition DeleteExpiredKeys (s : store) (cutoff now : Z) : outcome store :=
  expire_loop (S (h_Len (s_ttlKeyHeap s))) s cutoff now.

(** ** Clone and recovery *)

(** [node.Clone]: the copies keep the parent of the original. *)
Fixpoint node_Clone (fuel : nat) (s : store) (p : Z) : outcome (store * Z) :=
  match fuel with
  | O => Panic "out of fuel"
  | S f =>
      let! n := deref s p in
      match n_Children n with
      | None =>
          let newkv := newKV (n_Path n) (n_Value n) (n_CreatedIndex n) (n_Parent n) (n_ExpireTime n) in
          Ok (new_node s (newkv <| n_ModifiedIndex := n_ModifiedIndex n |>))
      | Some children =>
          let clone := newDir (n_Path n) (n_CreatedIndex n) (n_Parent n) (n_ExpireTime n) in
          let '(s, c) := new_node s (clone <| n_ModifiedIndex := n_ModifiedIndex n |>) in
          let! s :=
            foldM (fun s '(key, child) =>
              let! '(s, c') := node_Clone f s child in
              let! x := deref s c in
              match n_Children x with
              | None => Panic "assignment to entry in nil map"
              | Some m => Ok (put_node s c (x <| n_Children := Some (<[key := c']> m) |>))
              end) (range children) s in
          Ok (s, c)
      end
  end.

(** [recoverAndclean] *)
Fixpoint recoverAndclean (fuel : nat) (s : store) (p : Z) : outcome store :=
  match fuel with
  | O => Panic "out of fuel"
  | S f =>
      let! n := deref s p in
      let! s :=
        match n_Children n with
        | None => Ok s
        | Some children =>
            foldM (fun s '(_, child) =>
              let! x := deref s child in
              recoverAndclean f (put_node s child (x <| n_Parent := Some p |>)) child) (range children) s
        end in
      let! n := deref s p in
      if negb (n_ExpireTime n =? 0) then
        let! h := ttl_push (expire_of s) (s_ttlKeyHeap s) p in Ok (s <| s_ttlKeyHeap := h |>)
      else Ok s
  end.

(** [store.Clone]: the clone is made in the same memory.  The root that its
    [newStore] made is dropped. *)
Definition store_Clone (s : store) : outcome (store * store) :=
  let '(s, _) := new_node s (newDir [slash] 0 None Permanent) in
  let! '(s, root) := node_Clone (fuel_of s) s (s_Root s) in
  Ok (s, mkStore (s_nodes s) (s_next s) root (watcherHub_clone (s_WatcherHub s)) (s_CurrentIndex s) (s_Stats s)
           (s_CurrentVersion s) newTtlKeyHeap {[ [slash] ]}).

(** [store.Recovery], after the state was decoded into the store *)
Definition recover_store (s : store) : outcome store :=
  recoverAndclean (fuel_of s) (s <| s_ttlKeyHeap := newTtlKeyHeap |>) (s_Root s).
End operations.
