(* ===== verification/V2Tree.v ===== *)
(** * The tree of the version 2 store

    The nodes reachable from the root form a tree: [A] maps the path of each
    to its pointer.  The invariant says that the map of children, the parent
    pointer and the path of every node agree with [A], and that the heap of
    expiring keys has exactly the nodes of the tree that expire. *)

From S2P Require Import Prelude Proto OrderedMap GoPath TTLHeap V2Event WatcherHub V2Store.

Abbreviation tree := (gmap (list str) Z).

Definition child_of (n : node) (name : str) : option Z := n_Children n ≫= lookup name.

Record tree_ok (s : store) (A : tree) : Prop := {
  to_root : A !! [] = Some (s_Root s);
  to_node : forall p q, A !! p = Some q -> exists n, s_nodes s !! q = Some n /\ n_Path n = render p /\
    (forall name, child_of n name = A !! (p ++ [name]));
  to_top : forall n, s_nodes s !! s_Root s = Some n -> n_Parent n = None /\ n_ExpireTime n = 0 /\ n_Children n <> None;
  to_up : forall p name c, A !! (p ++ [name]) = Some c -> name_ok name /\ exists q, A !! p = Some q /\
    forall n, s_nodes s !! c = Some n -> n_Parent n = Some q;
  to_fresh : forall q n, s_nodes s !! q = Some n -> q < s_next s;
  to_empty : forall p q n, A !! p = Some q -> s_nodes s !! q = Some n -> n_Children n <> None -> n_Value n = []
}.

(** The heap, without the node [x] if one is given. *)
Record ttl_but (x : option Z) (s : store) (A : tree) : Prop := {
  tt_heap : heap_ok (expire_of s) (s_ttlKeyHeap s);
  tt_mem : forall q, q ∈ h_array (s_ttlKeyHeap s) <-> (exists p, A !! p = Some q) /\ expire_of s q <> 0 /\ x <> Some q
}.
Abbreviation ttl_ok := (ttl_but None).

(** What the maps of children say of the tree, without the parents. *)
Record down_ok (s : store) (A : tree) : Prop := {
  do_root : A !! [] = Some (s_Root s);
  do_node : forall p q, A !! p = Some q -> exists n, s_nodes s !! q = Some n /\ n_Path n = render p /\
    (forall name, child_of n name = A !! (p ++ [name]));
  do_up : forall p name c, A !! (p ++ [name]) = Some c -> name_ok name /\ is_Some (A !! p);
  do_empty : forall p q n, A !! p = Some q -> s_nodes s !! q = Some n -> n_Children n <> None -> n_Value n = []
}.

Lemma tree_down s A : tree_ok s A -> down_ok s A.
Proof.
  intros [Hr Hn _ Hu _ He]. constructor; [done|done| |done]. intros p name c Hc. destruct (Hu p name c Hc) as (? & q & Hq & _). split; [done|by exists q].
Qed.

Section down.
  Context (s : store) (A : tree) (HA : down_ok s A).

Lemma down_names p q : A !! p = Some q -> Forall name_ok p.
Proof.
  revert q. induction p as [|n p IH] using rev_ind; intros q Hq; [done|].
  destruct (do_up _ _ HA _ _ _ Hq) as (Hn & q' & Hq'). apply Forall_app. split; [by eapply IH|by constructor].
Qed.

Lemma down_inj p p' q : A !! p = Some q -> A !! p' = Some q -> p = p'.
Proof.
  intros H H'. destruct (do_node _ _ HA _ _ H) as (n & Hn & Hp & _), (do_node _ _ HA _ _ H') as (n' & Hn' & Hp' & _).
  apply render_inj; [by eapply down_names..|congruence].
Qed.

Lemma down_prefix p r q : A !! (p ++ r) = Some q -> exists q', A !! p = Some q'.
Proof.
  revert q. induction r as [|n r IH] using rev_ind; intros q Hq; [rewrite app_nil_r in Hq; eauto|].
  rewrite (assoc app) in Hq. destruct (do_up _ _ HA _ _ _ Hq) as (_ & q' & Hq'). by eapply IH.
Qed.

(** The nodes on the way to a node are as many as its path is long. *)
Lemma down_depth p q : A !! p = Some q -> (length p < size (s_nodes s))%nat.
Proof.
  intros Hq. set (f := fun i => default 0 (A !! take i p)).
  assert (forall i, A !! take i p = Some (f i)) as Hf.
  { intros i. unfold f. destruct (down_prefix (take i p) (drop i p) q) as [q' ->]; [by rewrite take_drop|done]. }
  assert (NoDup (f <$> seq 0 (S (length p)))) as Hnd.
  { apply NoDup_fmap_2_strong; [|apply NoDup_seq]. intros i j Hi Hj He. apply elem_of_seq in Hi, Hj.
    pose proof (down_inj (take i p) (take j p) (f i) (Hf i)) as Hin. rewrite He in Hin. specialize (Hin (Hf j)).
    apply (f_equal length) in Hin. rewrite !length_take in Hin. lia. }
  assert ((f <$> seq 0 (S (length p))) ⊆ elements (dom (s_nodes s))) as Hsub.
  { intros x Hx. apply list_elem_of_fmap in Hx as (i & -> & _). apply elem_of_elements, elem_of_dom.
    destruct (do_node _ _ HA _ _ (Hf i)) as (n & Hn & _). eauto. }
  pose proof (submseteq_length _ _ (NoDup_submseteq _ _ Hnd Hsub)) as Hl.
  rewrite length_fmap, length_seq in Hl. change (length (elements (dom (s_nodes s)))) with (size (dom (s_nodes s))) in Hl.
  rewrite size_dom in Hl. lia.
Qed.

End down.

Section tree.
  Context (s : store) (A : tree) (HA : tree_ok s A).

Lemma tree_names p q : A !! p = Some q -> Forall name_ok p.
Proof. by apply (down_names s), tree_down. Qed.

Lemma tree_inj p p' q : A !! p = Some q -> A !! p' = Some q -> p = p'.
Proof. by apply (down_inj s), tree_down. Qed.

Lemma tree_prefix p r q : A !! (p ++ r) = Some q -> exists q', A !! p = Some q'.
Proof. by apply (down_prefix s), tree_down. Qed.

Lemma tree_depth p q : A !! p = Some q -> (length p < size (s_nodes s))%nat.
Proof. by apply down_depth, tree_down. Qed.

Lemma tree_child p q n name c : A !! p = Some q -> s_nodes s !! q = Some n -> child_of n name = Some c ->
  A !! (p ++ [name]) = Some c.
Proof. intros Hq Hn Hc. destruct (to_node _ _ HA _ _ Hq) as (n' & Hn' & _ & Hch). by rewrite <- Hch, <- Hc; simplify_eq. Qed.
End tree.

(** ** Walking to a node *)

(** Where the walk along [p] from a node at [pre] ends: at the node, or at the
    first name that is not there, below a directory or below a file. *)
Fixpoint find_path (s : store) (A : tree) (pre p : list str) : Z + Error :=
  match p with
  | [] => match A !! pre with Some q => inl q | None => inl 0 end
  | name :: p' =>
      match A !! (pre ++ [name]) with
      | Some _ => find_path s A (pre ++ [name]) p'
      | None =>
          match A !! pre ≫= fun q => s_nodes s !! q with
          | Some n =>
              inr (if IsDir n then NewError EcodeKeyNotFound (render (pre ++ [name])) (s_CurrentIndex s)
                   else NewError EcodeNotDir (render pre) (s_CurrentIndex s))
          | None => inl 0
          end
      end
  end.

Lemma walk_get s A pre p q rest : tree_ok s A -> A !! pre = Some q -> Forall name_ok p -> (rest = [] \/ exists r, rest = [] :: r) ->
  walk_loop get_child (p ++ rest) s q = Ok (s, find_path s A pre p).
Proof.
  intros HA. revert pre q. induction p as [|name p IH]; intros pre q Hq Hp Hrest; cbn [app walk_loop find_path].
  { rewrite Hq. destruct Hrest as [->|[r ->]]; done. }
  apply Forall_cons in Hp as [Hn Hp]. rewrite bool_decide_false by (by destruct Hn).
  destruct (to_node _ _ HA _ _ Hq) as (n & Hnode & Hpath & Hch). rewrite Hq. cbn [mbind option_bind].
  unfold get_child at 1, deref. rewrite Hnode. cbn [gobind]. rewrite <- Hch. unfold child_of, IsDir.
  destruct (n_Children n) as [m|] eqn:Hm; cbn [mbind option_bind gobind]; [|by rewrite Hpath].
  destruct (m !! name) as [c|] eqn:Hc; cbn [gobind].
  - eapply IH; [|done..]. rewrite <- Hch. unfold child_of. by rewrite Hm.
  - rewrite Hpath, Join_render; [done|by eapply tree_names|done].
Qed.

Lemma internalGet_spec s A x : tree_ok s A -> internalGet s x = Ok (find_path s A [] (names_of x)).
Proof.
  intros HA. unfold internalGet, walk. rewrite Clean_Join, Split_render by apply names_of_ok.
  pose proof (names_of_ok x) as Hn.
  destruct (names_of x) as [|n p] eqn:Hx.
  - cbn -[walk_loop]. pose proof (walk_get s A [] [] (s_Root s) [[]] HA (to_root _ _ HA)) as Hw. cbn [app] in Hw. rewrite Hw; [done|done|by right; exists []].
  - cbn -[walk_loop find_path]. pose proof (walk_get s A [] (n :: p) (s_Root s) [] HA (to_root _ _ HA) Hn) as Hw. rewrite app_nil_r in Hw.
    rewrite Hw; [done|by left].
Qed.

Lemma find_path_Some s A pre p q : tree_ok s A -> A !! (pre ++ p) = Some q -> find_path s A pre p = inl q.
Proof.
  intros HA. revert pre. induction p as [|n p IH]; intros pre Hq; cbn [find_path].
  { rewrite app_nil_r in Hq. by rewrite Hq. }
  rewrite (cons_middle n pre p), (assoc app) in Hq. destruct (tree_prefix _ _ HA _ _ _ Hq) as [q' ->]. by apply IH.
Qed.

Lemma find_path_inl s A pre p q : tree_ok s A -> is_Some (A !! pre) -> find_path s A pre p = inl q -> A !! (pre ++ p) = Some q.
Proof.
  intros HA. revert pre. induction p as [|n p IH]; intros pre [q0 Hq0] Hf; cbn [find_path] in Hf.
  { rewrite Hq0 in Hf. inv Hf. by rewrite app_nil_r. }
  destruct (A !! (pre ++ [n])) as [c|] eqn:Hc.
  - rewrite (cons_middle n pre p), (assoc app). apply IH; [by rewrite Hc|done].
  - rewrite Hq0 in Hf. cbn in Hf. destruct (to_node _ _ HA _ _ Hq0) as (x & Hx & _). rewrite Hx in Hf. by destruct (IsDir x).
Qed.

(** A missing node: the walk fails at the first missing name. *)
Lemma find_path_None s A pre p : tree_ok s A -> is_Some (A !! pre) -> A !! (pre ++ p) = None ->
  exists r name r' q n, p = r ++ name :: r' /\ A !! (pre ++ r) = Some q /\ s_nodes s !! q = Some n /\
    A !! (pre ++ r ++ [name]) = None /\
    find_path s A pre p =
      inr (if IsDir n then NewError EcodeKeyNotFound (render (pre ++ r ++ [name])) (s_CurrentIndex s)
           else NewError EcodeNotDir (render (pre ++ r)) (s_CurrentIndex s)).
Proof.
  intros HA. revert pre. induction p as [|x p IH]; intros pre [q0 Hq0] Hn; cbn [find_path].
  { rewrite app_nil_r in Hn. congruence. }
  destruct (A !! (pre ++ [x])) as [c|] eqn:Hc.
  - destruct (IH (pre ++ [x])) as (r & name & r' & q & n & -> & Hq & Hqn & Hmiss & Hf); [by rewrite Hc|by rewrite <- (assoc app)|].
    rewrite <- (assoc app) in Hq, Hmiss, Hf. exists (x :: r), name, r', q, n.
    rewrite <- (assoc app (pre)) in *. cbn [app] in *. done.
  - destruct (to_node _ _ HA _ _ Hq0) as (n & Hn0 & _). exists [], x, p, q0, n. rewrite app_nil_r. cbn [app].
    rewrite Hq0. cbn [mbind option_bind]. rewrite Hn0. done.
Qed.

(** ** Changes of the tree *)

Lemma tree_ext s s' A : tree_ok s A -> s_nodes s' = s_nodes s -> s_next s' = s_next s -> s_Root s' = s_Root s -> tree_ok s' A.
Proof. intros [Hr Hn Ht Hu Hf He] E1 E2 E3. constructor; rewrite ?E1, ?E2, ?E3; done. Qed.

(** The links of a node. *)
Definition same_links (n n' : node) : Prop :=
  n_Path n' = n_Path n /\ n_Parent n' = n_Parent n /\ n_Children n' = n_Children n /\ (n_Children n <> None -> n_Value n' = n_Value n).

Lemma tree_put s A q n n' : tree_ok s A -> s_nodes s !! q = Some n -> same_links n n' ->
  (q = s_Root s -> n_ExpireTime n' = 0) -> tree_ok (put_node s q n') A.
Proof.
  intros [Hr Hn Ht Hu Hf He] Hq (Ep & Eu & Ec & Ev) Hroot. constructor; unfold put_node, upd; cbn; [done|..].
  - intros p c Hc. destruct (Hn p c Hc) as (x & Hx & Hp & Hch). destruct (decide (c = q)) as [->|Hne].
    + exists n'. rewrite lookup_insert_eq. simplify_eq. split_and!; [done|congruence|]. intros name.
      rewrite <- Hch. unfold child_of. by rewrite Ec.
    + exists x. by rewrite lookup_insert_ne.
  - intros x. destruct (decide (s_Root s = q)) as [<-|Hne]; [|rewrite lookup_insert_ne by done; apply Ht].
    rewrite lookup_insert_eq. intros [= <-]. destruct (Ht n Hq) as (? & ? & ?). split_and!; [congruence|by apply Hroot|congruence].
  - intros p name c Hc. destruct (Hu p name c Hc) as (Hok & q' & Hq' & Hpar). split; [done|]. exists q'. split; [done|].
    intros x. destruct (decide (c = q)) as [->|Hne]; [|rewrite lookup_insert_ne by done; apply Hpar].
    rewrite lookup_insert_eq. intros [= <-]. rewrite Eu. by apply Hpar.
  - intros c x. destruct (decide (c = q)) as [->|Hne]; [intros _; by eapply Hf|]. rewrite lookup_insert_ne by done. apply Hf.
  - intros p c x Hc. destruct (decide (c = q)) as [->|Hne]; [|rewrite lookup_insert_ne by done; by apply (He p)].
    rewrite lookup_insert_eq. intros [= <-] Hx. rewrite Ec in Hx. rewrite Ev by done. by apply (He p q).
Qed.

Lemma snoc_inj {X} (p p' : list X) a b : p ++ [a] = p' ++ [b] -> p = p' /\ a = b.
Proof. intros H. apply app_inj_tail in H. done. Qed.

(** A new node below a directory. *)
Lemma tree_add s A p q n m name x : tree_ok s A -> A !! p = Some q -> s_nodes s !! q = Some n -> n_Children n = Some m ->
  m !! name = None -> name_ok name -> n_Path x = render (p ++ [name]) -> n_Parent x = Some q ->
  (forall y, child_of x y = None) -> (n_Children x <> None -> n_Value x = []) ->
  tree_ok (put_node (new_node s x).1 q (n <| n_Children := Some (<[name := s_next s]> m) |>)) (<[p ++ [name] := s_next s]> A).
Proof.
  intros HA Hq Hnq Hm Hmn Hok Hpath Hpar Hleaf Hxe. pose proof HA as [Hr Hn Ht Hu Hf He]. pose proof (Hf _ _ Hnq) as Hlt.
  assert (forall c y, s_nodes s !! c = Some y -> c <> s_next s) as Hold by (intros c y Hc ->; apply Hf in Hc; lia).
  assert (forall r c, A !! r = Some c -> c <> s_next s) as HoldA by (intros r c Hc; destruct (Hn r c Hc) as (y & Hy & _); by eapply Hold).
  assert (A !! (p ++ [name]) = None) as Hmiss.
  { destruct (to_node _ _ HA _ _ Hq) as (n0 & Hn0 & _ & Hch). simplify_eq. rewrite <- Hch. unfold child_of. by rewrite Hm. }
  assert (forall (r : list str) y, r <> r ++ [y]) as Hlong.
  { intros r y E. apply (f_equal length) in E. rewrite length_app in E. cbn in E. lia. }
  constructor; unfold put_node, new_node, upd; cbn [s_nodes s_Root s_next fst].
  - rewrite lookup_insert_ne; [done|]. by destruct p.
  - intros r c Hc. apply lookup_insert_Some in Hc as [[<- <-]|[Hne Hc]].
    + exists x. rewrite lookup_insert_ne by lia. rewrite lookup_insert_eq. split_and!; [done..|]. intros y. rewrite Hleaf.
      symmetry. rewrite lookup_insert_ne by apply Hlong.
      destruct (A !! ((p ++ [name]) ++ [y])) as [c|] eqn:Hc; [|done]. destruct (Hu _ _ _ Hc) as (_ & q' & Hq' & _). congruence.
    + destruct (Hn r c Hc) as (y & Hy & Hyp & Hch). pose proof (HoldA _ _ Hc). destruct (decide (c = q)) as [->|Hcq].
      * assert (r = p) as -> by (by eapply tree_inj). simplify_eq. eexists. rewrite lookup_insert_eq. split_and!; [done..|].
        intros z. unfold child_of, upd; cbn. destruct (decide (z = name)) as [->|Hz].
        -- by rewrite !lookup_insert_eq.
        -- rewrite !lookup_insert_ne by (try done; intros [_ ?]%snoc_inj; done). rewrite <- Hch. unfold child_of. by rewrite Hm.
      * exists y. rewrite !lookup_insert_ne by congruence. split_and!; [done..|]. intros z. rewrite Hch.
        rewrite lookup_insert_ne; [done|]. intros [<- _]%snoc_inj. congruence.
  - intros y. destruct (decide (s_Root s = q)) as [Erq|Hne].
    + rewrite Erq, lookup_insert_eq. intros [= <-]. destruct (Ht n ltac:(by rewrite Erq)) as (? & ? & ?). by split_and!.
    + rewrite lookup_insert_ne by done. rewrite lookup_insert_ne by (symmetry; by eapply HoldA). apply Ht.
  - intros r y c Hc. apply lookup_insert_Some in Hc as [[E <-]|[Hne Hc]].
    + apply snoc_inj in E as [<- <-]. split; [done|]. exists q. split; [by rewrite lookup_insert_ne by (symmetry; apply Hlong)|].
      intros z. rewrite lookup_insert_ne by lia. rewrite lookup_insert_eq. by intros [= <-].
    + destruct (Hu _ _ _ Hc) as (Hyok & q' & Hq' & Hqp). split; [done|]. exists q'. split.
      * rewrite lookup_insert_ne; [done|]. intros E. by rewrite <- E, Hmiss in Hq'.
      * intros z. pose proof (HoldA _ _ Hc). destruct (decide (c = q)) as [->|Hcq].
        -- rewrite lookup_insert_eq. intros [= <-]. exact (Hqp n Hnq).
        -- rewrite !lookup_insert_ne by congruence. apply Hqp.
  - intros c y. destruct (decide (c = q)) as [->|Hcq]; [lia|]. rewrite lookup_insert_ne by done.
    destruct (decide (c = s_next s)) as [->|Hcn]; [lia|]. rewrite lookup_insert_ne by done. intros Hc%Hf. lia.
  - intros r c y Hc. apply lookup_insert_Some in Hc as [[_ <-]|[_ Hc]].
    + rewrite lookup_insert_ne by lia. rewrite lookup_insert_eq. by intros [= <-].
    + pose proof (HoldA _ _ Hc). destruct (decide (c = q)) as [->|Hcq].
      * rewrite lookup_insert_eq. intros [= <-] _. apply (He p q n); [done..|by rewrite Hm].
      * rewrite !lookup_insert_ne by congruence. by apply (He r c).
Qed.

(** A node without children leaves the tree. *)
Lemma tree_unlink s A p q n m name : tree_ok s A -> A !! p = Some q -> s_nodes s !! q = Some n -> n_Children n = Some m ->
  (forall y, A !! (p ++ [name] ++ [y]) = None) ->
  tree_ok (put_node s q (n <| n_Children := Some (delete name m) |>)) (delete (p ++ [name]) A).
Proof.
  intros HA Hq Hnq Hm Hleaf. pose proof HA as [Hr Hn Ht Hu Hf He].
  constructor; unfold put_node, upd; cbn [s_nodes s_Root s_next].
  - rewrite lookup_delete_ne; [done|]. by destruct p.
  - intros r c Hc. apply lookup_delete_Some in Hc as [Hne Hc]. destruct (Hn r c Hc) as (y & Hy & Hyp & Hch).
    destruct (decide (c = q)) as [->|Hcq].
    + assert (r = p) as -> by (by eapply tree_inj). simplify_eq. eexists. rewrite lookup_insert_eq. split_and!; [done..|].
      intros z. unfold child_of; cbn. destruct (decide (z = name)) as [->|Hz]; [by rewrite !lookup_delete_eq|].
      rewrite !lookup_delete_ne by (try done; intros [_ ?]%snoc_inj; done). rewrite <- Hch. unfold child_of. by rewrite Hm.
    + exists y. rewrite !lookup_insert_ne by congruence. split_and!; [done..|]. intros z. rewrite Hch.
      rewrite lookup_delete_ne; [done|]. intros [<- _]%snoc_inj. congruence.
  - intros y. destruct (decide (s_Root s = q)) as [Erq|Hne]; [|rewrite lookup_insert_ne by done; apply Ht].
    rewrite Erq, lookup_insert_eq. intros [= <-]. destruct (Ht n ltac:(by rewrite Erq)) as (? & ? & ?). by split_and!.
  - intros r y c Hc. apply lookup_delete_Some in Hc as [Hne Hc]. destruct (Hu _ _ _ Hc) as (Hyok & q' & Hq' & Hqp).
    split; [done|]. exists q'. split.
    + rewrite lookup_delete_ne; [done|]. intros <-. rewrite <- (assoc app) in Hc. by rewrite Hleaf in Hc.
    + intros z. destruct (decide (c = q)) as [->|Hcq]; [|rewrite !lookup_insert_ne by congruence; apply Hqp].
      rewrite lookup_insert_eq. intros [= <-]. exact (Hqp n Hnq).
  - intros c y. destruct (decide (c = q)) as [->|Hcq]; [intros _; by eapply Hf|]. rewrite lookup_insert_ne by done. apply Hf.
  - intros r c y [_ Hc]%lookup_delete_Some. destruct (decide (c = q)) as [->|Hcq]; [|rewrite lookup_insert_ne by done; by apply (He r c)].
    rewrite lookup_insert_eq. intros [= <-] _. apply (He p q n); [done..|by rewrite Hm].
Qed.

(** ** Removing a subtree *)

Definition cut (p : list str) (A : tree) : tree := filter (fun x => ~ p `prefix_of` x.1) A.
Definition prune (p : list str) (A : tree) : tree := filter (fun x => p `prefix_of` x.1 -> x.1 = p) A.

Lemma lookup_cut p A r c : cut p A !! r = Some c <-> A !! r = Some c /\ ~ p `prefix_of` r.
Proof. apply map_lookup_filter_Some. Qed.

Lemma cut_prune p A : cut p A = delete p (prune p A).
Proof.
  apply map_eq. intros r. apply option_eq. intros c.
  rewrite lookup_cut, lookup_delete_Some. unfold prune. rewrite map_lookup_filter_Some. cbn. split.
  - intros [Hc Hn]. split_and!; [by intros ->|done|done].
  - intros (Hne & Hc & Hp). split; [done|]. intros Hpre. by apply Hne, eq_sym, Hp.
Qed.

(** What is kept of a node when nodes below it go. *)
Definition data (n : node) : node := n <| n_Children ::= fmap (fun _ => ∅) |>.
Definition same_data (s s' : store) : Prop := forall q, data <$> s_nodes s' !! q = data <$> s_nodes s !! q.

(** The parts of the store that a removal leaves alone. *)
Definition same_rest (s s' : store) : Prop :=
  s_next s' = s_next s /\ s_Root s' = s_Root s /\ s_CurrentIndex s' = s_CurrentIndex s /\ s_Stats s' = s_Stats s /\
  s_CurrentVersion s' = s_CurrentVersion s /\ s_readonlySet s' = s_readonlySet s.

(** What the callback has done, having been called for [paths]. *)
Definition called (cb : option Event) (paths : list str) (wh wh' : watcherHub) : Prop :=
  match cb with
  | None => wh' = wh
  | Some e => hub_ok wh' /\ hub_rest wh wh' /\ wh_heap wh' = notified e paths true (wh_heap wh)
  end.

#[export] Instance same_data_refl : Reflexive same_data.
Proof. by intros s q. Qed.
#[export] Instance same_data_trans : Transitive same_data.
Proof. intros a b c H1 H2 q. by rewrite (H2 q), (H1 q). Qed.
#[export] Instance same_rest_refl : Reflexive same_rest.
Proof. by intros s. Qed.
#[export] Instance same_rest_trans : Transitive same_rest.
Proof. unfold same_rest. intros a b c. intuition congruence. Qed.

Lemma called_nil cb wh : hub_ok wh -> called cb [] wh wh.
Proof. by destruct cb. Qed.

Lemma called_app cb l1 l2 a b c : called cb l1 a b -> called cb l2 b c -> called cb (l1 ++ l2) a c.
Proof.
  destruct cb as [e|]; cbn; [|congruence]. intros (_ & [H1 H2] & H3) (? & [H4 H5] & H6). split_and!; [done|split; congruence|].
  rewrite H6, H3. unfold notified. by rewrite foldl_app.
Qed.

Lemma called_ok cb l a b : hub_ok a -> called cb l a b -> hub_ok b.
Proof. destruct cb as [e|]; cbn; [tauto|by intros ? ->]. Qed.

Lemma same_data_lookup s s' q n : same_data s s' -> s_nodes s !! q = Some n ->
  exists n', s_nodes s' !! q = Some n' /\ data n' = data n.
Proof. intros Hd Hn. specialize (Hd q). rewrite Hn in Hd. destruct (s_nodes s' !! q) as [n'|]; [|done]. exists n'. split; [done|]. by apply (inj Some). Qed.

Lemma data_fields n n' : data n' = data n -> n_Path n' = n_Path n /\ n_Parent n' = n_Parent n /\ n_ExpireTime n' = n_ExpireTime n /\
  n_Value n' = n_Value n /\ n_CreatedIndex n' = n_CreatedIndex n /\ n_ModifiedIndex n' = n_ModifiedIndex n /\ IsDir n' = IsDir n.
Proof.
  destruct n as [? ? ? ? ? ? ch], n' as [? ? ? ? ? ? ch']. unfold data, upd; cbn. intros [= ? ? ? ? ? ? Hc]. split_and!; try done.
  unfold IsDir; cbn. by destruct ch, ch'.
Qed.

Lemma same_data_expire s s' q : same_data s s' -> expire_of s' q = expire_of s q.
Proof.
  intros Hd. specialize (Hd q). unfold expire_of. destruct (s_nodes s !! q) as [n|], (s_nodes s' !! q) as [n'|]; try done.
  apply (inj Some) in Hd. by apply data_fields in Hd as (_ & _ & ? & _).
Qed.

Lemma same_data_size s s' : same_data s s' -> size (s_nodes s') = size (s_nodes s).
Proof.
  intros Hd. rewrite <- !size_dom. f_equal. apply set_eq. intros q. rewrite !elem_of_dom. specialize (Hd q).
  destruct (s_nodes s !! q), (s_nodes s' !! q); try done; split; intros [? ?]; done.
Qed.

Lemma run_callback_spec s cb path : hub_ok (s_WatcherHub s) ->
  exists wh, run_callback s cb path = Ok (s <| s_WatcherHub := wh |>) /\ called cb [path] (s_WatcherHub s) wh.
Proof.
  intros Hh. destruct cb as [e|]; cbn.
  - destruct (notifyWatchers_spec (s_WatcherHub s) e path true Hh) as (wh & -> & Hok & (He & Hn & _) & Hheap). cbn.
    exists wh. split_and!; done.
  - exists (s_WatcherHub s). split; [|done]. by destruct s.
Qed.

Lemma same_data_unlink s q n m name : s_nodes s !! q = Some n -> n_Children n = Some m ->
  same_data s (put_node s q (n <| n_Children := Some (delete name m) |>)).
Proof.
  intros Hn Hm c. unfold put_node, upd; cbn. destruct (decide (c = q)) as [->|Hne]; [|by rewrite lookup_insert_ne].
  rewrite lookup_insert_eq, Hn. cbn. f_equal. unfold data, upd; cbn. by rewrite Hm.
Qed.

Lemma remove_ttl_spec x s A s1 p c n : tree_ok s A -> ttl_but x s A -> A !! p = Some c -> s_nodes s !! c = Some n ->
  same_data s s1 -> s_ttlKeyHeap s1 = s_ttlKeyHeap s ->
  exists h, remove_ttl s1 c n = Ok (s1 <| s_ttlKeyHeap := h |>) /\ ttl_but x (s1 <| s_ttlKeyHeap := h |>) (delete p A).
Proof.
  intros HA [Hheap Hmem] Hc Hn Hd Hs1. assert (expire_of s c = n_ExpireTime n) as Hexp by (unfold expire_of; by rewrite Hn).
  assert (forall q, (exists r, delete p A !! r = Some q) <-> (exists r, A !! r = Some q) /\ q <> c) as Hdel.
  { intros q. split.
    - intros (r & Hr). apply lookup_delete_Some in Hr as [Hne Hr]. split; [eauto|]. intros ->. by pose proof (tree_inj _ _ HA _ _ _ Hc Hr).
    - intros [(r & Hr) Hne]. exists r. apply lookup_delete_Some. split; [|done]. intros ->. congruence. }
  unfold remove_ttl, IsPermanent. destruct (Z.eqb_spec (n_ExpireTime n) 0) as [Hz|Hz]; cbn [negb].
  - exists (s_ttlKeyHeap s1). split; [by destruct s1|]. rewrite Hs1. split; cbn.
    + eapply heap_ok_ext; [|exact Hheap]. intros q _. by apply same_data_expire.
    + intros q. rewrite Hmem, Hdel. change (expire_of _ q) with (expire_of s1 q) at 2. rewrite (same_data_expire _ _ q Hd).
      destruct (decide (q = c)) as [->|Hne]; [|tauto]. split; [intros (_ & ? & _); congruence|tauto].
  - destruct (ttl_remove_spec (expire_of s) (expire_of s1) (s_ttlKeyHeap s1) c) as (h & -> & Hok & Hm).
    + by rewrite Hs1.
    + intros q _ _. by apply same_data_expire.
    + cbn [gobind]. exists h. split; [done|]. split; cbn; [done|]. intros q. rewrite Hm, Hs1, Hmem, Hdel.
      change (expire_of _ q) with (expire_of s1 q) at 2. rewrite (same_data_expire _ _ q Hd). tauto.
Qed.

(** The end of [Remove]: the node itself, its children gone. *)
Definition removed (x : option Z) (cb : option Event) (paths : list str) (s : store) (s' : store) (A' : tree) : Prop :=
  tree_ok s' A' /\ ttl_but x s' A' /\ called cb paths (s_WatcherHub s) (s_WatcherHub s') /\ same_data s s' /\ same_rest s s'.

Lemma drop_self x s A p name q n0 m c n cb : tree_ok s A -> hub_ok (s_WatcherHub s) -> ttl_but x s A -> A !! p = Some q ->
  s_nodes s !! q = Some n0 -> n_Children n0 = Some m -> A !! (p ++ [name]) = Some c -> s_nodes s !! c = Some n ->
  (forall y, A !! (p ++ [name] ++ [y]) = None) ->
  exists s1 s', run_callback (unlink_child s (q, n0, m) name) cb (n_Path n) = Ok s1 /\ remove_ttl s1 c n = Ok s' /\
    removed x cb [render (p ++ [name])] s s' (delete (p ++ [name]) A).
Proof.
  intros HA Hh Ht Hq Hn0 Hm Hc Hn Hleaf. unfold unlink_child. set (s0 := put_node s q _).
  assert (tree_ok s0 (delete (p ++ [name]) A)) as HA0 by (by apply tree_unlink).
  destruct (run_callback_spec s0 cb (n_Path n) Hh) as (wh & -> & Hcall). set (s1 := s0 <| s_WatcherHub := wh |>).
  assert (same_data s s1) as Hd by exact (same_data_unlink s q n0 m name Hn0 Hm).
  destruct (remove_ttl_spec x s A s1 (p ++ [name]) c n HA Ht Hc Hn Hd eq_refl) as (h & Hrt & Hbut).
  exists s1, (s1 <| s_ttlKeyHeap := h |>). split_and!; [done..|]. unfold removed. split_and!.
  - by apply (tree_ext s0).
  - done.
  - destruct (to_node _ _ HA _ _ Hc) as (n' & Hn' & Hpath & _). simplify_eq. by rewrite <- Hpath.
  - exact Hd.
  - done.
Qed.

Lemma removed_trans x cb l1 l2 a b c A1 A2 : removed x cb l1 a b A1 -> removed x cb l2 b c A2 -> removed x cb (l1 ++ l2) a c A2.
Proof.
  intros (_ & _ & Hc1 & Hd1 & Hr1) (? & ? & Hc2 & Hd2 & Hr2).
  split_and!; [done..|by eapply called_app|by etrans|by etrans].
Qed.

Definition cuts (p : list str) (l : list (str * Z)) (A : tree) : tree := foldl (fun A y => cut (p ++ [y.1]) A) A l.

Lemma lookup_cuts p l A r c : cuts p l A !! r = Some c <-> A !! r = Some c /\ forall y, y ∈ l -> ~ (p ++ [y.1]) `prefix_of` r.
Proof.
  revert A. induction l as [|y l IH]; intros A.
  - cbn. split; [|tauto]. intros Hr. split; [done|]. intros y Hy. by apply not_elem_of_nil in Hy.
  - change (cuts p (y :: l) A) with (cuts p l (cut (p ++ [y.1]) A)). rewrite IH, lookup_cut. split.
    + intros [[Hr Hy] Hl]. split; [done|]. intros z [-> | Hz]%elem_of_cons; auto.
    + intros [Hr Hl]. split_and!; [done|apply Hl; set_solver|]. intros z Hz. apply Hl. set_solver.
Qed.

(** The paths at and below [p]. *)
Definition paths_at (A : tree) (p : list str) (paths : list str) : Prop :=
  NoDup paths /\ forall P, P ∈ paths <-> exists r c, P = render (p ++ r) /\ A !! (p ++ r) = Some c.

Definition paths_below (A : tree) (p : list str) (l : list (str * Z)) (paths : list str) : Prop :=
  NoDup paths /\ forall P, P ∈ paths <-> exists y r c, y ∈ l /\ P = render (p ++ [y.1] ++ r) /\ A !! (p ++ [y.1] ++ r) = Some c.

Lemma prefix_names (p : list str) a b r : (p ++ [a]) `prefix_of` (p ++ [b] ++ r) -> a = b.
Proof. intros [k Hk]. rewrite <- (assoc app) in Hk. apply app_inv_head in Hk. by inv Hk. Qed.

Lemma paths_below_cons s A p y l ps1 ps2 : tree_ok s A -> y.1 ∉ l.*1 -> paths_at A (p ++ [y.1]) ps1 ->
  paths_below (cut (p ++ [y.1]) A) p l ps2 -> paths_below A p (y :: l) (ps1 ++ ps2).
Proof.
  intros HA Hy [Hnd1 Hps1] [Hnd2 Hps2].
  assert (forall z r c, z ∈ l -> A !! (p ++ [z.1] ++ r) = Some c -> cut (p ++ [y.1]) A !! (p ++ [z.1] ++ r) = Some c) as Hkeep.
  { intros z r c Hz Hc. apply lookup_cut. split; [done|]. intros Hpre. apply Hy.
    rewrite (prefix_names p y.1 z.1 r Hpre). by apply list_elem_of_fmap_2. }
  split.
  - apply NoDup_app. split_and!; [done| |done]. intros P (r & c & -> & Hc)%Hps1 Hin.
    apply Hps2 in Hin as (z & r' & c' & Hz & He & Hc'). apply lookup_cut in Hc' as [Hc' _].
    assert ((p ++ [y.1]) ++ r = p ++ [z.1] ++ r') as E by (apply render_inj; [by eapply tree_names|by eapply tree_names|done]).
    rewrite <- (assoc app) in E. apply app_inv_head in E. injection E as E _. apply Hy. rewrite E. by apply list_elem_of_fmap_2.
  - intros P. rewrite elem_of_app, Hps1, Hps2. split.
    + intros [(r & c & -> & Hc)|(z & r & c & Hz & -> & Hc)].
      * exists y, r, c. rewrite <- (assoc app) in *. split_and!; [set_solver|done|done].
      * apply lookup_cut in Hc as [Hc _]. exists z, r, c. split_and!; [set_solver|done|done].
    + intros (z & r & c & [-> |Hz]%elem_of_cons & -> & Hc).
      * left. exists r, c. by rewrite <- (assoc app).
      * right. exists z, r, c. eauto.
Qed.

Lemma paths_at_cons s A p l ps c : tree_ok s A -> A !! p = Some c -> paths_below A p l ps ->
  (forall name r c', A !! (p ++ [name] ++ r) = Some c' -> exists y, y ∈ l /\ y.1 = name) ->
  paths_at A p (ps ++ [render p]).
Proof.
  intros HA Hc [Hnd Hps] Hall. split.
  - apply NoDup_app. split_and!; [done| |apply NoDup_singleton]. intros P (y & r & c' & Hy & -> & Hc')%Hps Heq%list_elem_of_singleton.
    assert (p ++ [y.1] ++ r = p) as E by (apply render_inj; [by eapply tree_names..|done]).
    apply (f_equal length) in E. rewrite !length_app in E. cbn in E. lia.
  - intros P. rewrite elem_of_app, Hps, list_elem_of_singleton. split.
    + intros [(y & r & c' & Hy & -> & Hc')| ->]; [eauto|]. exists [], c. by rewrite app_nil_r.
    + intros (r & c' & -> & Hc'). destruct r as [|name r]; [right; by rewrite app_nil_r|].
      left. destruct (Hall name r c' Hc') as (y & Hy & <-). exists y, r, c'. done.
Qed.

Section remove.
  Context (range : gmap str Z -> list (str * Z)) (Hrange : forall m, range m ≡ₚ map_to_list m).

Lemma range_elem m name c : (name, c) ∈ range m <-> m !! name = Some c.
Proof. by rewrite (Hrange m), elem_of_map_to_list. Qed.

Lemma range_NoDup m : NoDup (range m).*1.
Proof. rewrite (Hrange m). apply NoDup_fst_map_to_list. Qed.

Lemma in_parent_spec s A p name q n0 c n : tree_ok s A -> A !! p = Some q -> s_nodes s !! q = Some n0 ->
  A !! (p ++ [name]) = Some c -> s_nodes s !! c = Some n ->
  exists m, n_Children n0 = Some m /\ in_parent s c n name = Ok (Some (q, n0, m)).
Proof.
  intros HA Hq Hn0 Hc Hn. destruct (to_up _ _ HA _ _ _ Hc) as (_ & q' & Hq' & Hpar). simplify_eq.
  destruct (to_node _ _ HA _ _ Hq) as (n1 & Hn1 & _ & Hch). simplify_eq. rewrite <- Hch in Hc. unfold child_of in Hc.
  destruct (n_Children n0) as [m|] eqn:Hm; [|done]. exists m. split; [done|]. unfold in_parent, deref.
  rewrite (Hpar n Hn), Hn0. cbn [gobind]. by rewrite Hm, bool_decide_true.
Qed.

Lemma tree_split s A p c : tree_ok s A -> A !! p = Some c -> p <> [] ->
  exists p' name q n0, p = p' ++ [name] /\ name_ok name /\ A !! p' = Some q /\ s_nodes s !! q = Some n0.
Proof.
  intros HA Hc Hne. destruct (exists_last Hne) as (p' & name & ->). destruct (to_up _ _ HA _ _ _ Hc) as (Hok & q & Hq & _).
  destruct (to_node _ _ HA _ _ Hq) as (n0 & Hn0 & _). exists p', name, q, n0. done.
Qed.

Definition remove_child (f : nat) (cb : option Event) (s : store) (y : str * Z) : outcome store :=
  let '(_, child) := y in let! '(s, _) := Remove range f s child true true cb in Ok s.

(** [Remove] of a node with all that is below it. *)
Definition removes (f : nat) : Prop := forall x s A p c cb, tree_ok s A -> hub_ok (s_WatcherHub s) -> ttl_but x s A ->
  A !! p = Some c -> p <> [] -> (forall r c', A !! (p ++ r) = Some c' -> (length r < f)%nat) ->
  exists s' paths, Remove range f s c true true cb = Ok (s', None) /\ removed x cb paths s s' (cut p A) /\ paths_at A p paths.

Lemma remove_children f x s A p cb l : removes f -> tree_ok s A -> hub_ok (s_WatcherHub s) -> ttl_but x s A -> NoDup l.*1 ->
  (forall y, y ∈ l -> A !! (p ++ [y.1]) = Some y.2) ->
  (forall r c', A !! (p ++ r) = Some c' -> (length r < S f)%nat) ->
  exists s' paths, foldM (remove_child f cb) l s = Ok s' /\ removed x cb paths s s' (cuts p l A) /\ paths_below A p l paths.
Proof.
  intros IHf. revert s A. induction l as [|[name c] l IH]; intros s A HA Hh Ht Hnd Hl Hf; cbn [foldM].
  { exists s, []. split; [done|]. split; [split_and!; [done..|by apply called_nil|done|done]|].
    split; [apply NoDup_nil_2|]. intros P. split; [by intros ?%not_elem_of_nil|]. intros (y & _ & _ & Hy & _). by apply not_elem_of_nil in Hy. }
  apply NoDup_cons in Hnd as [Hname Hnd]. pose proof (Hl (name, c) ltac:(set_solver)) as Hc. cbn in Hc.
  destruct (IHf x s A (p ++ [name]) c cb) as (s1 & ps1 & Hrm & Hrem1 & Hps1); [done..| | |].
  { by destruct p. }
  { intros r c' Hr. rewrite <- (assoc app) in Hr. specialize (Hf _ _ Hr). cbn in Hf. lia. }
  cbn [remove_child]. rewrite Hrm. cbn [gobind]. pose proof Hrem1 as (HA1 & Ht1 & Hcall1 & _ & _).
  destruct (IH s1 (cut (p ++ [name]) A)) as (s' & ps2 & -> & Hrem2 & Hps2); [done|by eapply called_ok|done|done| | |].
  { intros y Hy. apply lookup_cut. split; [apply Hl; set_solver|]. intros Hpre. apply Hname.
    rewrite <- (app_nil_r [y.1]) in Hpre. pose proof (prefix_names p name y.1 [] Hpre) as ->. apply list_elem_of_fmap; by exists y. }
  { intros r c' [Hr _]%lookup_cut. by eapply Hf. }
  exists s', (ps1 ++ ps2). split_and!; [done|by eapply removed_trans|by eapply (paths_below_cons s A p (name, c))].
Qed.

Lemma cuts_prune s A p c n m : tree_ok s A -> A !! p = Some c -> s_nodes s !! c = Some n -> n_Children n = Some m ->
  cuts p (range m) A = prune p A.
Proof.
  intros HA Hc Hn Hm. destruct (to_node _ _ HA _ _ Hc) as (n' & Hn' & _ & Hch). simplify_eq.
  apply map_eq. intros r. apply option_eq. intros d. rewrite lookup_cuts. unfold prune. rewrite map_lookup_filter_Some. cbn.
  split; intros [Hd Hr]; (split; [done|]).
  - intros [k ->]. destruct k as [|a k]; [by rewrite app_nil_r|]. exfalso.
    rewrite (cons_middle a p k), (assoc app) in Hd. destruct (tree_prefix _ _ HA _ _ _ Hd) as [e He].
    apply (Hr (a, e)).
    + apply range_elem. rewrite <- Hch in He. unfold child_of in He. by rewrite Hm in He.
    + exists k. by rewrite <- (assoc app).
  - intros y _ Hpre. assert (p `prefix_of` r) as Hp by (destruct Hpre as [k ->]; rewrite <- (assoc app); by eexists).
    rewrite (Hr Hp) in Hpre. apply prefix_length in Hpre. rewrite length_app in Hpre. cbn in Hpre. lia.
Qed.

Lemma lookup_prune p A r c : prune p A !! r = Some c <-> A !! r = Some c /\ (p `prefix_of` r -> r = p).
Proof. apply map_lookup_filter_Some. Qed.

Lemma in_parent_ext s c n n' name : n_Parent n' = n_Parent n -> in_parent s c n' name = in_parent s c n name.
Proof. unfold in_parent. by intros ->. Qed.

Lemma remove_ttl_ext s c n n' : n_ExpireTime n' = n_ExpireTime n -> remove_ttl s c n' = remove_ttl s c n.
Proof. unfold remove_ttl, IsPermanent. by intros ->. Qed.

(** The last part of [Remove] for a node [n], whose children are gone by now. *)
Lemma Remove_end x s A p name c n cb : tree_ok s A -> hub_ok (s_WatcherHub s) -> ttl_but x s A -> A !! (p ++ [name]) = Some c ->
  (exists n', s_nodes s !! c = Some n' /\ data n' = data n) -> (forall y, A !! (p ++ [name] ++ [y]) = None) ->
  exists at_parent s1 s', in_parent s c n name = Ok (Some at_parent) /\
    run_callback (unlink_child s at_parent name) cb (n_Path n) = Ok s1 /\ remove_ttl s1 c n = Ok s' /\
    removed x cb [render (p ++ [name])] s s' (delete (p ++ [name]) A).
Proof.
  intros HA Hh Ht Hc (n' & Hn' & Hd) Hleaf. apply data_fields in Hd as (Ep & Eu & Ex & _).
  destruct (to_up _ _ HA _ _ _ Hc) as (_ & q & Hq & _). destruct (to_node _ _ HA _ _ Hq) as (n0 & Hn0 & _).
  destruct (in_parent_spec s A p name q n0 c n' HA Hq Hn0 Hc Hn') as (m & Hm & Hin).
  destruct (drop_self x s A p name q n0 m c n' cb) as (s1 & s' & H1 & H2 & H3); [done..|].
  exists (q, n0, m), s1, s'. rewrite <- (in_parent_ext s c n n' name), <- (remove_ttl_ext s1 c n n'), <- Ep by done. done.
Qed.

Lemma Remove_all f : removes f.
Proof.
  induction f as [|f IH]; intros x s A p c cb HA Hh Ht Hc Hne Hf.
  { specialize (Hf [] c). rewrite app_nil_r in Hf. specialize (Hf Hc). cbn in Hf. lia. }
  destruct (tree_split s A p c HA Hc Hne) as (p' & name & q & n0 & -> & Hok & _ & _).
  destruct (to_node _ _ HA _ _ Hc) as (n & Hn & Hpath & Hch). cbn [Remove]. unfold deref at 1. rewrite Hn. cbn [gobind].
  assert (path_Split (n_Path n) = (dir_part p', name)) as -> by (rewrite Hpath; apply path_Split_render, Hok).
  destruct (n_Children n) as [children|] eqn:Hchn; cbn [negb].
  - rewrite andb_false_r. change (foldM _ (range children) s) with (foldM (remove_child f cb) (range children) s).
    destruct (remove_children f x s A (p' ++ [name]) cb (range children) IH HA Hh Ht) as (s1 & ps & -> & Hrem1 & Hps);
      [apply range_NoDup| |done|].
    { intros [y d] Hy%range_elem. rewrite <- Hch. unfold child_of. by rewrite Hchn. }
    cbn [gobind]. rewrite (cuts_prune s A _ c n children HA Hc Hn Hchn) in Hrem1. pose proof Hrem1 as (HA1 & Ht1 & Hcall1 & Hd1 & Hr1).
    destruct (Remove_end x s1 (prune (p' ++ [name]) A) p' name c n cb HA1) as (ap & s2 & s' & -> & Hcb & Hrt & Hrem2).
    + by eapply called_ok.
    + done.
    + by apply lookup_prune.
    + by apply (same_data_lookup s).
    + intros y. apply eq_None_not_Some. intros [d [_ Hd]%lookup_prune]. rewrite (assoc app) in Hd.
      specialize (Hd ltac:(by eexists)). apply (f_equal length) in Hd. rewrite length_app in Hd. cbn in Hd. lia.
    + cbn [gobind]. rewrite Hcb. cbn [gobind]. rewrite Hrt. cbn [gobind]. rewrite cut_prune.
      exists s', (ps ++ [render (p' ++ [name])]). split_and!; [done|by eapply removed_trans|].
      apply (paths_at_cons s A _ (range children) ps c); [done..|]. intros y r d Hd. rewrite (assoc app) in Hd.
      destruct (tree_prefix _ _ HA _ _ _ Hd) as [e He]. exists (y, e). split; [|done]. apply range_elem.
      rewrite <- Hch in He. unfold child_of in He. by rewrite Hchn in He.
  - assert (forall r d, A !! ((p' ++ [name]) ++ r) = Some d -> r = []) as Hnone.
    { intros [|y r] d Hd; [done|]. exfalso. rewrite (cons_middle y _ r), (assoc app) in Hd.
      destruct (tree_prefix _ _ HA _ _ _ Hd) as [e He]. rewrite <- Hch in He. unfold child_of in He. by rewrite Hchn in He. }
    destruct (Remove_end x s A p' name c n cb HA Hh Ht Hc) as (ap & s2 & s' & -> & Hcb & Hrt & Hrem).
    + eauto.
    + intros y. apply eq_None_not_Some. intros [d Hd]. rewrite (assoc app) in Hd. by pose proof (Hnone _ _ Hd).
    + cbn [gobind]. rewrite Hcb. cbn [gobind]. rewrite Hrt. cbn [gobind].
      assert (cut (p' ++ [name]) A = delete (p' ++ [name]) A) as ->.
      { apply map_eq. intros r. apply option_eq. intros d. rewrite lookup_cut, lookup_delete_Some. split; intros [H1 H2].
        - split; [by intros <-|done].
        - split; [done|]. intros [k ->]. rewrite (Hnone _ _ H2), app_nil_r in H1. done. }
      exists s', [render (p' ++ [name])]. split_and!; [done..|]. split; [apply NoDup_singleton|]. intros P.
      rewrite list_elem_of_singleton. split; [intros ->; exists [], c; by rewrite app_nil_r|].
      intros (r & d & -> & Hd). by rewrite (Hnone _ _ Hd), app_nil_r.
Qed.
End remove.
