(* ===== verification/V2Spec.v ===== *)
(** * What the version 2 store promises

    The store as a map from paths, lists of names, to what is at them, with
    the index of the last change.  [v_step] is the meaning of each operation
    on this map: when it is refused and how, what it returns, and the map
    afterwards. *)

From S2P Require Import Prelude Proto OrderedMap GoPath TTLHeap V2Event WatcherHub V2Store.

Record anode := mkANode { a_dir : bool; a_value : str; a_created : Z; a_modified : Z; a_expire : Z }.
#[global] Instance anode_eta : Eta anode := fun x => mkANode (a_dir x) (a_value x) (a_created x) (a_modified x) (a_expire x).

Abbreviation vtree := (gmap (list str) anode).

Record vstore := mkVStore { v_tree : vtree; v_index : Z; v_readonly : gset str }.

(** ** Looking up *)

(** Why there is nothing at [pre ++ p], if so: the first missing name is below
    a directory or below a file. *)
Fixpoint missing (t : vtree) (index : Z) (pre p : list str) : option Error :=
  match p with
  | [] => None
  | name :: p' =>
      if t !! (pre ++ [name]) then missing t index (pre ++ [name]) p'
      else Some (match t !! pre with
                 | Some (mkANode false _ _ _ _) => NewError EcodeNotDir (render pre) index
                 | _ => NewError EcodeKeyNotFound (render (pre ++ [name])) index
                 end)
  end.

Definition v_find (st : vstore) (p : list str) : anode + Error :=
  match v_tree st !! p, missing (v_tree st) (v_index st) [] p with
  | Some x, _ => inl x
  | None, Some err => inr err
  | None, None => inr (NewError EcodeKeyNotFound (render p) (v_index st))
  end.

(** ** What is shown of a node *)

Definition ttl_shown (expire now : Z) : option Z * Z :=
  if expire =? 0 then (None, 0)
  else
    let d := Z.max (-9223372036854775808) (Z.min 9223372036854775807 (expire - now)) in
    (Some expire, if 0 <? Z.rem d second then Z.quot d second + 1 else Z.quot d second).

Definition show_at (key : str) (x : anode) (now : Z) : NodeExtern :=
  let '(expiration, ttl) := ttl_shown (a_expire x) now in
  mkNodeExtern key (if a_dir x then None else Some (a_value x)) (a_dir x) expiration ttl [] (a_modified x) (a_created x).

Definition show (p : list str) (x : anode) (now : Z) : NodeExtern := show_at (render p) x now.

(** ** Changing *)

Definition proper_prefixes (p : list str) : list (list str) := (fun i => take i p) <$> seq 0 (length p).

(** The file in the way of a node at [p]. *)
Definition file_above (t : vtree) (p : list str) : option (list str) :=
  head (filter (fun q => a_dir <$> t !! q = Some false) (proper_prefixes p)).

(** The directories above [p], made if they are not there. *)
Definition mkdirs (t : vtree) (p : list str) (index : Z) : vtree :=
  t ∪ list_to_map ((fun q => (q, mkANode true [] index index 0)) <$> proper_prefixes p).

Definition v_insert (st : vstore) (p : list str) (x : anode) : vstore :=
  mkVStore (<[p := x]> (mkdirs (v_tree st) p (v_index st + 1))) (v_index st + 1) (v_readonly st).

Definition effective_expire (t : Z) : Z := if t <? minExpireTime then 0 else t.

Definition v_create (st : vstore) (p : list str) (dir : bool) (value : str) (replace : bool) (expire : Z) (action : Action) (now : Z)
    : vstore * (Event + Error) :=
  let index := v_index st in
  if decide (render p ∈ v_readonly st) then (st, inr (NewError EcodeRootROnly [slash] index)) else
  match file_above (v_tree st) p with
  | Some q => (st, inr (NewError EcodeNotDir (render q) index))
  | None =>
      match v_tree st !! p with
      | Some old =>
          if replace then
            if a_dir old then (st, inr (NewError EcodeNotFile (render p) index))
            else
              let x := mkANode dir (if dir then [] else value) (index + 1) (index + 1) (effective_expire expire) in
              (v_insert st p x, inl (mkEvent action (show p x now) (Some (show p old now)) 0 false))
          else (st, inr (NewError EcodeNodeExist (render p) index))
      | None =>
          let x := mkANode dir (if dir then [] else value) (index + 1) (index + 1) (effective_expire expire) in
          (v_insert st p x, inl (mkEvent action (show p x now) None 0 false))
      end
  end.

Definition v_put (st : vstore) (p : list str) (x : anode) : vstore :=
  mkVStore (<[p := x]> (v_tree st)) (v_index st + 1) (v_readonly st).

Definition v_cut (st : vstore) (p : list str) : vstore :=
  mkVStore (filter (fun y => ~ p `prefix_of` y.1) (v_tree st)) (v_index st + 1) (v_readonly st).

(** The prefix of [p] is empty: nothing is below it. *)
Definition has_children (t : vtree) (p : list str) : bool :=
  negb (bool_decide (filter (fun y => p `prefix_of` y.1 /\ y.1 <> p) t = ∅)).

Definition v_compare (x : anode) (prevValue : str) (prevIndex : Z) : option str :=
  let index := (prevIndex =? 0) || (a_modified x =? prevIndex) in
  let value := bool_decide (prevValue = []) || bool_decide (a_value x = prevValue) in
  let ci := bytes "[" ++ FormatUint prevIndex ++ bytes " != " ++ FormatUint (a_modified x) ++ bytes "]" in
  let cv := bytes "[" ++ prevValue ++ bytes " != " ++ a_value x ++ bytes "]" in
  match value, index with
  | true, true => None
  | true, false => Some ci
  | false, true => Some cv
  | false, false => Some (cv ++ bytes " " ++ ci)
  end.

(** ** The operations *)

Inductive vop :=
| OpCreate (path : str) (dir : bool) (value : str) (unique : bool) (opts : TTLOptionSet)
| OpSet (path : str) (dir : bool) (value : str) (opts : TTLOptionSet)
| OpUpdate (path value : str) (opts : TTLOptionSet)
| OpCompareAndSwap (path prevValue : str) (prevIndex : Z) (value : str) (opts : TTLOptionSet)
| OpDelete (path : str) (dir recursive : bool)
| OpCompareAndDelete (path prevValue : str) (prevIndex : Z).

Definition v_step (st : vstore) (o : vop) (now : Z) : vstore * (Event + Error) :=
  let index := v_index st in
  match o with
  | OpCreate path dir value unique opts =>
      let p := names_of (if unique then path ++ slash :: Sprintf_020s (FormatUint (index + 1)) else path) in
      match v_create st p dir value false (o_ExpireTime opts) ActCreate now with
      | (st', inl e) => (st', inl (e <| ev_EtcdIndex := index + 1 |>))
      | r => r
      end
  | OpSet path dir value opts =>
      let p := names_of path in
      match v_find st p with
      | inl old =>
          match v_create st p dir (if o_Refresh opts then a_value old else value) true (o_ExpireTime opts) ActSet now with
          | (st', inl e) =>
              (st', inl (mkEvent (ev_Action e) (ev_Node e) (Some (show_at path old now)) (index + 1) (o_Refresh opts)))
          | r => r
          end
      | inr err =>
          if negb (ErrorCode err =? EcodeKeyNotFound) || o_Refresh opts then (st, inr err)
          else
            match v_create st p dir value true (o_ExpireTime opts) ActSet now with
            | (st', inl e) => (st', inl (e <| ev_EtcdIndex := index + 1 |>))
            | r => r
            end
      end
  | OpUpdate path value opts =>
      let p := names_of path in
      if decide (render p ∈ v_readonly st) then (st, inr (NewError EcodeRootROnly [slash] index)) else
      match v_find st p with
      | inr err => (st, inr err)
      | inl old =>
          if a_dir old && negb (bool_decide (value = [])) then (st, inr (NewError EcodeNotFile (render p) index)) else
          let x := if a_dir old then old
                   else mkANode false (if o_Refresh opts then a_value old else value) (a_created old) (index + 1) (a_expire old) in
          let x := x <| a_expire := o_ExpireTime opts |> in
          (v_put st p x,
           inl (mkEvent ActUpdate ((show p x now) <| ne_ModifiedIndex := index + 1 |>) (Some (show p old now)) (index + 1) (o_Refresh opts)))
      end
  | OpCompareAndSwap path prevValue prevIndex value opts =>
      let p := names_of path in
      if decide (render p ∈ v_readonly st) then (st, inr (NewError EcodeRootROnly [slash] index)) else
      match v_find st p with
      | inr err => (st, inr err)
      | inl old =>
          if a_dir old then (st, inr (NewError EcodeNotFile (render p) index)) else
          match v_compare old prevValue prevIndex with
          | Some cause => (st, inr (NewError EcodeTestFailed cause index))
          | None =>
              let x := mkANode false (if o_Refresh opts then a_value old else value) (a_created old) (index + 1) (o_ExpireTime opts) in
              (v_put st p x, inl (mkEvent ActCompareAndSwap (show p x now) (Some (show p old now)) (index + 1) (o_Refresh opts)))
          end
      end
  | OpDelete path dir recursive =>
      let p := names_of path in
      if decide (render p ∈ v_readonly st) then (st, inr (NewError EcodeRootROnly [slash] index)) else
      match v_find st p with
      | inr err => (st, inr err)
      | inl old =>
          if a_dir old && negb (dir || recursive) then (st, inr (NewError EcodeNotFile (render p) index))
          else if a_dir old && has_children (v_tree st) p && negb recursive then (st, inr (NewError EcodeDirNotEmpty (render p) index))
          else
            (v_cut st p,
             inl (mkEvent ActDelete (mkNodeExtern (render p) None (a_dir old) None 0 [] (index + 1) (a_created old))
                    (Some (show p old now)) (index + 1) false))
      end
  | OpCompareAndDelete path prevValue prevIndex =>
      let p := names_of path in
      match v_find st p with
      | inr err => (st, inr err)
      | inl old =>
          if a_dir old then (st, inr (NewError EcodeNotFile (render p) index)) else
          match v_compare old prevValue prevIndex with
          | Some cause => (st, inr (NewError EcodeTestFailed cause index))
          | None =>
              (v_cut st p,
               inl (mkEvent ActCompareAndDelete (mkNodeExtern (render p) None false None 0 [] (index + 1) (a_created old))
                      (Some (show p old now)) (index + 1) false))
          end
      end
  end.

(** The operation of the store that each stands for. *)
Definition do_op (range : gmap str Z -> list (str * Z)) (s : store) (o : vop) (now : Z) : outcome (store * (Event + Error)) :=
  match o with
  | OpCreate path dir value unique opts => Create range s path dir value unique opts now
  | OpSet path dir value opts => Set_ range s path dir value opts now
  | OpUpdate path value opts => Update range s path value opts now
  | OpCompareAndSwap path prevValue prevIndex value opts => CompareAndSwap range s path prevValue prevIndex value opts now
  | OpDelete path dir recursive => Delete range s path dir recursive now
  | OpCompareAndDelete path prevValue prevIndex => CompareAndDelete range s path prevValue prevIndex now
  end.
