(* ===== verification/V2Refine.v ===== *)
(** * The version 2 store refines its specification

    [abs] forgets the pointers: it maps the paths of the tree to the contents
    of their nodes.  Each lemma of this file says what a part of an operation
    does to the tree and, through [abs], to the map of the specification. *)

From S2P Require Import Prelude Proto OrderedMap GoPath TTLHeap V2Event WatcherHub V2Store V2Tree V2Spec.

Definition view (n : node) : anode := mkANode (IsDir n) (n_Value n) (n_CreatedIndex n) (n_ModifiedIndex n) (n_ExpireTime n).

Definition abs_tree (s : store) (A : tree) : vtree := omap (fun q => view <$> s_nodes s !! q) A.
Definition abs (s : store) (A : tree) : vstore := mkVStore (abs_tree s A) (s_CurrentIndex s) (s_readonlySet s).

Record store_ok (s : store) (A : tree) (l : list Event) : Prop := {
  so_tree : tree_ok s A;
  so_ttl : ttl_ok s A;
  so_hub : hub_ok (s_WatcherHub s);
  so_history : history_ok (wh_EventHistory (s_WatcherHub s)) l;
  so_last : eh_LastIndex (wh_EventHistory (s_WatcherHub s)) = s_CurrentIndex s;
  so_cap : eq_Capacity (eh_Queue (wh_EventHistory (s_WatcherHub s))) = 1000;
  so_root : [slash] ∈ s_readonlySet s;
  so_index : 0 <= s_CurrentIndex s;
  so_count : zlen l <= s_CurrentIndex s
}.

Lemma lookup_abs s A p : tree_ok s A ->
  abs_tree s A !! p = match A !! p with Some q => view <$> s_nodes s !! q | None => None end.
Proof. intros HA. unfold abs_tree. rewrite lookup_omap. by destruct (A !! p). Qed.

Lemma abs_Some s A p q n : A !! p = Some q -> s_nodes s !! q = Some n -> abs_tree s A !! p = Some (view n).
Proof. intros Hq Hn. unfold abs_tree. rewrite lookup_omap, Hq. cbn. by rewrite Hn. Qed.

Lemma abs_None s A p : tree_ok s A -> abs_tree s A !! p = None <-> A !! p = None.
Proof.
  intros HA. rewrite lookup_abs by done. destruct (A !! p) as [q|] eqn:Hq; [|done].
  destruct (to_node _ _ HA _ _ Hq) as (n & -> & _). done.
Qed.

Lemma abs_inv s A p x : tree_ok s A -> abs_tree s A !! p = Some x ->
  exists q n, A !! p = Some q /\ s_nodes s !! q = Some n /\ x = view n /\ n_Path n = render p.
Proof.
  intros HA. rewrite lookup_abs by done. destruct (A !! p) as [q|] eqn:Hq; [|done].
  destruct (to_node _ _ HA _ _ Hq) as (n & Hn & Hp & _). rewrite Hn. intros [= <-]. eauto 10.
Qed.

(** ** Finding *)

Lemma missing_spec s A pre p : tree_ok s A -> is_Some (A !! pre) ->
  match find_path s A pre p with
  | inl q => missing (abs_tree s A) (s_CurrentIndex s) pre p = None /\ A !! (pre ++ p) = Some q
  | inr err => missing (abs_tree s A) (s_CurrentIndex s) pre p = Some err /\ A !! (pre ++ p) = None
  end.
Proof.
  intros HA. revert pre. induction p as [|name p IH]; intros pre [q Hq]; cbn [find_path missing].
  { rewrite Hq, app_nil_r. done. }
  destruct (A !! (pre ++ [name])) as [c|] eqn:Hc.
  - destruct (to_node _ _ HA _ _ Hc) as (n & Hn & _). rewrite (abs_Some _ _ _ _ _ Hc Hn).
    specialize (IH (pre ++ [name]) ltac:(by rewrite Hc)). by rewrite <- app_assoc in IH.
  - rewrite (proj2 (abs_None s A _ HA) Hc). rewrite Hq. cbn [mbind option_bind].
    destruct (to_node _ _ HA _ _ Hq) as (n & Hn & _). rewrite Hn, (abs_Some _ _ _ _ _ Hq Hn). cbn. split.
    + unfold view. by destruct (IsDir n).
    + apply eq_None_not_Some. intros [d Hd]. rewrite (cons_middle name pre p), (assoc app) in Hd.
      destruct (tree_prefix _ _ HA _ _ _ Hd) as [e He]. congruence.
Qed.

Lemma find_spec s A p : tree_ok s A ->
  match find_path s A [] p with
  | inl q => exists n, A !! p = Some q /\ s_nodes s !! q = Some n /\ n_Path n = render p /\ v_find (abs s A) p = inl (view n)
  | inr err => A !! p = None /\ v_find (abs s A) p = inr err
  end.
Proof.
  intros HA. pose proof (missing_spec s A [] p HA ltac:(by rewrite (to_root _ _ HA))) as Hm. cbn [app] in Hm.
  unfold v_find, abs; cbn [v_tree v_index]. destruct (find_path s A [] p) as [q|err]; destruct Hm as [Hm Hq].
  - destruct (to_node _ _ HA _ _ Hq) as (n & Hn & Hp & _). exists n. by rewrite (abs_Some _ _ _ _ _ Hq Hn).
  - by rewrite (proj2 (abs_None s A _ HA) Hq), Hm.
Qed.

(** ** Showing a node *)

Lemma expirationAndTTL_spec n now : expirationAndTTL n now = ttl_shown (n_ExpireTime n) now.
Proof. unfold expirationAndTTL, ttl_shown, IsPermanent. by destruct (n_ExpireTime n =? 0). Qed.

Lemma Repr_flat range f s q n sorted now : s_nodes s !! q = Some n ->
  Repr range (S f) s q false sorted now = Ok (show_at (n_Path n) (view n) now).
Proof.
  intros Hn. cbn [Repr]. unfold deref. rewrite Hn. cbn [gobind]. rewrite expirationAndTTL_spec.
  unfold show_at, view, IsDir; cbn. destruct (ttl_shown (n_ExpireTime n) now) as [e t].
  by destruct (n_Children n).
Qed.

(** ** Removing *)

Lemma abs_tree_data s s' A : same_data s s' -> abs_tree s' A = abs_tree s A.
Proof.
  intros Hd. apply map_eq. intros p. unfold abs_tree. rewrite !lookup_omap. destruct (A !! p) as [q|]; cbn; [|done].
  specialize (Hd q). destruct (s_nodes s !! q) as [n|], (s_nodes s' !! q) as [n'|]; try done. apply (inj Some) in Hd.
  apply data_fields in Hd as (_ & _ & E1 & E2 & E3 & E4 & E5). cbn. f_equal. unfold view. by rewrite E1, E2, E3, E4, E5.
Qed.

Lemma abs_tree_cut s A p : tree_ok s A -> abs_tree s (cut p A) = filter (fun y => ~ p `prefix_of` y.1) (abs_tree s A).
Proof.
  intros HA. apply map_eq. intros r. apply option_eq. intros x. rewrite map_lookup_filter_Some. cbn. unfold abs_tree.
  rewrite !lookup_omap_Some. split.
  - intros (q & Hx & [Hq Hr]%lookup_cut). eauto.
  - intros [(q & Hx & Hq) Hr]. exists q. split; [done|]. by apply lookup_cut.
Qed.

(** How the flags of [Remove] matter. *)
Lemma Remove_flags range f s q n dir recursive cb : s_nodes s !! q = Some n ->
  Remove range (S f) s q dir recursive cb =
  match n_Children n with
  | Some m =>
      if negb dir then Ok (s, Some (NewError EcodeNotFile (n_Path n) (s_CurrentIndex s)))
      else if negb (bool_decide (m = ∅)) && negb recursive then Ok (s, Some (NewError EcodeDirNotEmpty (n_Path n) (s_CurrentIndex s)))
      else Remove range (S f) s q true true cb
  | None => Remove range (S f) s q true true cb
  end.
Proof.
  intros Hn. cbn [Remove]. assert (deref s q = Ok n) as -> by (unfold deref; by rewrite Hn). cbn [gobind]. destruct (path_Split (n_Path n)) as [d name].
  destruct (n_Children n) as [m|]; [|done]. destruct dir; cbn [negb]; [|done].
  rewrite andb_false_r. by destruct (negb (bool_decide (m = ∅)) && negb recursive).
Qed.

(** A directory without children. *)
Lemma no_children s A p q n m : tree_ok s A -> A !! p = Some q -> s_nodes s !! q = Some n -> n_Children n = Some m ->
  bool_decide (m = ∅) = negb (has_children (abs_tree s A) p).
Proof.
  intros HA Hq Hn Hm. unfold has_children. rewrite negb_involutive. apply bool_decide_ext.
  destruct (to_node _ _ HA _ _ Hq) as (n' & Hn' & _ & Hch). simplify_eq. rewrite map_empty_filter. unfold map_Forall. split.
  - intros -> r x Hr [Hpre Hne]. cbn in Hpre, Hne. destruct Hpre as [k ->]. destruct k as [|a k]; [by rewrite app_nil_r in Hne|].
    apply abs_inv in Hr as (c & nc & Hc & _); [|done]. rewrite (cons_middle a p k), (assoc app) in Hc.
    destruct (tree_prefix _ _ HA _ _ _ Hc) as [d Hd]. rewrite <- Hch in Hd. unfold child_of in Hd. by rewrite Hm in Hd.
  - intros Hall. apply map_empty. intros name. apply eq_None_not_Some. intros [c Hc].
    assert (A !! (p ++ [name]) = Some c) as Hcc by (rewrite <- Hch; unfold child_of; by rewrite Hm).
    destruct (to_node _ _ HA _ _ Hcc) as (nc & Hnc & _). apply (Hall (p ++ [name]) (view nc)); [by eapply abs_Some|]. split; [by eexists|].
    cbn. intros E. apply (f_equal length) in E. rewrite length_app in E. cbn in E. lia.
Qed.

(** ** Adding *)

Lemma abs_tree_put s A p q n n' : tree_ok s A -> A !! p = Some q -> s_nodes s !! q = Some n ->
  abs_tree (put_node s q n') A = <[p := view n']> (abs_tree s A).
Proof.
  intros HA Hq Hn. apply map_eq. intros r. unfold abs_tree, put_node, upd; cbn. rewrite lookup_omap.
  destruct (decide (r = p)) as [->|Hne].
  - rewrite Hq. cbn. by rewrite !lookup_insert_eq.
  - rewrite (lookup_insert_ne (omap _ _)), lookup_omap by done. destruct (A !! r) as [c|] eqn:Hc; cbn; [|done].
    rewrite lookup_insert_ne; [done|]. intros ->. by pose proof (tree_inj _ _ HA _ _ _ Hc Hq).
Qed.

Definition linked (s : store) (x : node) (q : Z) (n : node) (m : gmap str Z) (name : str) : store :=
  put_node (new_node s x).1 q (n <| n_Children := Some (<[name := s_next s]> m) |>).

Lemma abs_tree_linked s A p q n m name x : tree_ok s A -> A !! p = Some q -> s_nodes s !! q = Some n -> n_Children n = Some m ->
  abs_tree (linked s x q n m name) (<[p ++ [name] := s_next s]> A) = <[p ++ [name] := view x]> (abs_tree s A).
Proof.
  intros HA Hq Hn Hm. pose proof (to_fresh _ _ HA _ _ Hn) as Hlt. apply map_eq. intros r.
  unfold abs_tree, linked, put_node, new_node, upd; cbn. rewrite lookup_omap. destruct (decide (r = p ++ [name])) as [->|Hne].
  - rewrite !lookup_insert_eq. cbn. rewrite lookup_insert_ne by lia. by rewrite lookup_insert_eq.
  - rewrite lookup_insert_ne by done. rewrite (lookup_insert_ne (omap _ _)), lookup_omap by done.
    destruct (A !! r) as [c|] eqn:Hc; cbn; [|done]. destruct (to_node _ _ HA _ _ Hc) as (nc & Hnc & _).
    pose proof (to_fresh _ _ HA _ _ Hnc). destruct (decide (c = q)) as [->|Hcq].
    + rewrite lookup_insert_eq, Hn. cbn. f_equal. unfold view, IsDir, upd; cbn. by rewrite Hm.
    + rewrite !lookup_insert_ne by lia. done.
Qed.

(** The other parts of the store. *)
Definition same_else (s s' : store) : Prop :=
  s_Root s' = s_Root s /\ s_WatcherHub s' = s_WatcherHub s /\ s_CurrentIndex s' = s_CurrentIndex s /\ s_Stats s' = s_Stats s /\
  s_CurrentVersion s' = s_CurrentVersion s /\ s_readonlySet s' = s_readonlySet s.

Lemma same_else_trans a b c : same_else a b -> same_else b c -> same_else a c.
Proof. unfold same_else. intuition congruence. Qed.

(** No node is lost, and no more than the map of children of a node changes. *)
Definition grows (s s' : store) : Prop := forall q n, s_nodes s !! q = Some n -> exists n', s_nodes s' !! q = Some n' /\ data n' = data n.

#[export] Instance grows_refl : Reflexive grows.
Proof. intros s q n Hn. eauto. Qed.
#[export] Instance grows_trans : Transitive grows.
Proof. intros a b c H1 H2 q n Hn. destruct (H1 q n Hn) as (n1 & Hn1 & E1), (H2 q n1 Hn1) as (n2 & Hn2 & E2). exists n2. by rewrite E2. Qed.

Lemma same_data_grows s s' : same_data s s' -> grows s s'.
Proof. intros Hd q n Hn. by apply (same_data_lookup s). Qed.

Lemma linked_grows s A q n m name x : tree_ok s A -> s_nodes s !! q = Some n -> n_Children n = Some m -> grows s (linked s x q n m name).
Proof.
  intros HA Hn Hm c nc Hc. pose proof (to_fresh _ _ HA _ _ Hc). unfold linked, put_node, new_node, upd; cbn.
  destruct (decide (c = q)) as [->|Hcq].
  - simplify_eq. rewrite lookup_insert_eq. eexists; split; [done|]. unfold data, upd; cbn. by rewrite Hm.
  - rewrite lookup_insert_ne by done. rewrite lookup_insert_ne by lia. eauto.
Qed.

Lemma grows_file s s' q n : grows s s' -> s_nodes s !! q = Some n -> IsDir n = false -> s_nodes s' !! q = Some n.
Proof.
  intros Hg Hn Hf. destruct (Hg q n Hn) as (n' & Hn' & E). pose proof (data_fields _ _ E) as (E1 & E2 & E3 & E4 & E5 & E6 & E7).
  rewrite Hn'. f_equal. destruct n as [? ? ? ? ? ? ch], n' as [? ? ? ? ? ? ch']; cbn in *. unfold IsDir in *; cbn in *.
  destruct ch; [done|]. destruct ch'; [done|]. congruence.
Qed.

Lemma expire_linked s A q n m name x c : tree_ok s A -> s_nodes s !! q = Some n -> c <> s_next s ->
  expire_of (linked s x q n m name) c = expire_of s c.
Proof.
  intros HA Hn Hc. unfold expire_of, linked, put_node, new_node, upd; cbn. destruct (decide (c = q)) as [->|Hcq].
  - by rewrite lookup_insert_eq, Hn.
  - by rewrite !lookup_insert_ne by congruence.
Qed.

Lemma expire_linked_new s A q n m name x : tree_ok s A -> s_nodes s !! q = Some n ->
  expire_of (linked s x q n m name) (s_next s) = n_ExpireTime x.
Proof.
  intros HA Hn. pose proof (to_fresh _ _ HA _ _ Hn). unfold expire_of, linked, put_node, new_node, upd; cbn.
  rewrite lookup_insert_ne by lia. by rewrite lookup_insert_eq.
Qed.

(** The heap after a node was added: the new one is not in it. *)
Lemma ttl_linked s A p q n m name x : tree_ok s A -> ttl_ok s A -> A !! p = Some q -> s_nodes s !! q = Some n -> A !! (p ++ [name]) = None ->
  ttl_but (Some (s_next s)) (linked s x q n m name) (<[p ++ [name] := s_next s]> A).
Proof.
  intros HA [Hheap Hmem] Hq Hn Hnone.
  assert (forall c, c ∈ h_array (s_ttlKeyHeap s) -> c <> s_next s) as Hold.
  { intros c [(r & Hr) _]%Hmem ->. destruct (to_node _ _ HA _ _ Hr) as (nc & Hnc & _). apply (to_fresh _ _ HA) in Hnc. lia. }
  split.
  - eapply heap_ok_ext; [|exact Hheap]. intros c Hc. eapply expire_linked; [done..|by apply Hold].
  - intros c. change (s_ttlKeyHeap (linked s x q n m name)) with (s_ttlKeyHeap s). rewrite Hmem. split.
    + intros ((r & Hr) & Hz & _). assert (c <> s_next s) as Hc by (apply Hold, Hmem; eauto).
      split_and!; [exists r; rewrite lookup_insert_ne; [done|congruence]|by erewrite expire_linked|congruence].
    + intros ((r & Hr) & Hz & Hne). assert (c <> s_next s) as Hc by congruence.
      apply lookup_insert_Some in Hr as [[_ ?]|[_ Hr]]; [done|]. split_and!; [eauto| |done].
      by erewrite expire_linked in Hz.
Qed.

Lemma ttl_permanent s A c : ttl_but (Some c) s A -> expire_of s c = 0 -> ttl_ok s A.
Proof.
  intros [Hh Hm] Hz. split; [done|]. intros q. rewrite Hm. split; [intros (? & ? & _); by split_and!|]. intros (? & ? & _). split_and!; [done..|]. congruence.
Qed.

(** What [checkDir] along a path does to the map: it makes the directories
    that are missing, or stops at a file. *)
Fixpoint mk_path (t : vtree) (index : Z) (pre p : list str) : vtree + list str :=
  match p with
  | [] => inl t
  | name :: p' =>
      match t !! (pre ++ [name]) with
      | Some x => if a_dir x then mk_path t index (pre ++ [name]) p' else inr (pre ++ [name])
      | None => mk_path (<[pre ++ [name] := mkANode true [] index index 0]> t) index (pre ++ [name]) p'
      end
  end.

(** Below a new directory there is no file. *)
Lemma mk_path_fresh t i pre p : (forall r, r <> [] -> t !! (pre ++ r) = None) -> exists t', mk_path t i pre p = inl t'.
Proof.
  revert t pre. induction p as [|name p IH]; intros t pre Hnone; cbn [mk_path]; [eauto|].
  rewrite Hnone by done. apply IH. intros r Hr. rewrite lookup_insert_ne, <- app_assoc; [by apply Hnone|].
  intros E. apply (f_equal length) in E. rewrite !length_app in E. destruct r; [done|]. cbn in E. lia.
Qed.

Lemma checkDir_found s q n name c x : s_nodes s !! q = Some n -> child_of n name = Some c -> s_nodes s !! c = Some x ->
  checkDir s q name = Ok (s, if IsDir x then inl c else inr (NewError EcodeNotDir (n_Path x) (s_CurrentIndex s))).
Proof.
  intros Hn Hc Hx. unfold checkDir, deref. rewrite Hn. cbn [gobind]. unfold child_of in Hc. rewrite Hc, Hx. cbn [gobind].
  by destruct (IsDir x).
Qed.

Lemma checkDir_new s q n name m : s_nodes s !! q = Some n -> child_of n name = None -> n_Children n = Some m ->
  checkDir s q name =
  Ok (linked s (newDir (Join (n_Path n) name) (s_CurrentIndex s ⊞ 1) (Some q) Permanent) q n m name, inl (s_next s)).
Proof. intros Hn Hc Hm. unfold checkDir, deref. rewrite Hn. cbn [gobind]. unfold child_of in Hc. rewrite Hc, Hm. done. Qed.

Lemma walk_checkDir s A pre p q n : tree_ok s A -> ttl_ok s A -> A !! pre = Some q -> s_nodes s !! q = Some n -> IsDir n = true ->
  Forall name_ok p -> 0 <= s_CurrentIndex s < two64 - 1 ->
  exists s' A', tree_ok s' A' /\ ttl_ok s' A' /\ same_else s s' /\ grows s s' /\
    match mk_path (abs_tree s A) (s_CurrentIndex s + 1) pre p with
    | inl t => exists d nd, walk_loop checkDir (p ++ [[]]) s q = Ok (s', inl d) /\ A' !! (pre ++ p) = Some d /\ s_nodes s' !! d = Some nd /\
        IsDir nd = true /\ abs_tree s' A' = t
    | inr r => walk_loop checkDir (p ++ [[]]) s q = Ok (s', inr (NewError EcodeNotDir (render r) (s_CurrentIndex s))) /\ s' = s /\ A' = A
    end.
Proof.
  revert s A pre q n. induction p as [|name p IH]; intros s A pre q n HA Ht Hq Hn Hd Hp Hi; cbn [app walk_loop mk_path].
  { exists s, A. split_and!; [done..|]. exists q, n. rewrite app_nil_r. done. }
  apply Forall_cons in Hp as [Hname Hp]. rewrite bool_decide_false by (by destruct Hname).
  destruct (to_node _ _ HA _ _ Hq) as (n' & Hn' & Hpath & Hch). simplify_eq.
  destruct (A !! (pre ++ [name])) as [c|] eqn:Hc.
  - destruct (to_node _ _ HA _ _ Hc) as (nc & Hnc & Hcp & _). rewrite (abs_Some _ _ _ _ _ Hc Hnc).
    rewrite (checkDir_found s q n name c nc) by (by rewrite ?Hch). cbn [gobind view a_dir]. destruct (IsDir nc) eqn:Hdc; cbn [gobind].
    + destruct (IH s A (pre ++ [name]) c nc) as (s' & A' & ? & ? & ? & ? & Hr); [done..|]. exists s', A'. split_and!; [done..|].
      by rewrite <- app_assoc in Hr.
    + exists s, A. split_and!; [done..| |done|done]. by rewrite Hcp.
  - rewrite (proj2 (abs_None s A _ HA) Hc). destruct (n_Children n) as [m|] eqn:Hm; [|by unfold IsDir in Hd; rewrite Hm in Hd].
    rewrite (checkDir_new s q n name m) by (by rewrite ?Hch). u64_simp. cbn [gobind]. set (x := newDir _ _ _ _).
    assert (m !! name = None) as Hmn by (specialize (Hch name); unfold child_of in Hch; rewrite Hm in Hch; cbn in Hch; congruence).
    assert (n_Path x = render (pre ++ [name])) as Hxp by (cbn; rewrite Hpath; apply Join_render; [by eapply tree_names|done]).
    pose proof (tree_add s A pre q n m name x HA Hq Hn Hm Hmn Hname Hxp eq_refl ltac:(intros y; unfold child_of; cbn; apply lookup_empty) ltac:(done)) as HA1.
    fold (linked s x q n m name) in HA1.
    pose proof (ttl_linked s A pre q n m name x HA Ht Hq Hn Hc) as Ht1.
    apply ttl_permanent in Ht1; [|by erewrite expire_linked_new].
    assert (s_nodes (linked s x q n m name) !! s_next s = Some x) as Hx.
    { unfold linked, put_node, new_node, upd; cbn. pose proof (to_fresh _ _ HA _ _ Hn). rewrite lookup_insert_ne by lia. by rewrite lookup_insert_eq. }
    destruct (IH (linked s x q n m name) (<[pre ++ [name] := s_next s]> A) (pre ++ [name]) (s_next s) x HA1 Ht1) as (s' & A' & ? & ? & Hse & Hg & Hr); [by rewrite lookup_insert_eq|done|done|done|done|].
    rewrite (abs_tree_linked s A pre q n m name x HA Hq Hn Hm) in Hr.
    exists s', A'. split_and!; [done..|etrans; [by eapply linked_grows|exact Hg]|]. rewrite <- app_assoc in Hr.
    destruct (mk_path_fresh (<[pre ++ [name] := view x]> (abs_tree s A)) (s_CurrentIndex s + 1) (pre ++ [name]) p) as [t Ht'].
    { intros r Hr'. rewrite <- app_assoc, lookup_insert_ne by (intros E%app_inv_head; by inv E). apply abs_None; [done|].
      apply eq_None_not_Some. intros [d Hd']. rewrite app_assoc in Hd'. destruct (tree_prefix _ _ HA _ _ _ Hd'). congruence. }
    change (mkANode true [] (s_CurrentIndex s + 1) (s_CurrentIndex s + 1) 0) with (view x).
    change (s_CurrentIndex (linked s x q n m name)) with (s_CurrentIndex s) in Hr. rewrite Ht' in Hr |- *. exact Hr.
Qed.

(** The paths above a node, the root apart. *)
Fixpoint steps (pre p : list str) : list (list str) :=
  match p with [] => [] | name :: p' => (pre ++ [name]) :: steps (pre ++ [name]) p' end.

Lemma steps_eq pre p : steps pre p = (fun i => pre ++ take i p) <$> seq 1 (length p).
Proof.
  revert pre. induction p as [|n p IH]; intros pre; [done|].
  cbn [steps length]. change (seq 1 (S (length p))) with (1%nat :: seq 2 (length p)). rewrite IH, fmap_cons. f_equal.
  rewrite <- (fmap_S_seq 1), <- list_fmap_compose. apply list_fmap_ext. intros i j _. cbn. by rewrite <- app_assoc.
Qed.

Lemma proper_prefixes_eq p name : proper_prefixes (p ++ [name]) = [] :: steps [] p.
Proof.
  unfold proper_prefixes. rewrite length_app, Nat.add_1_r. cbn [seq]. rewrite fmap_cons. f_equal.
  rewrite steps_eq. apply list_fmap_ext. intros i j Hj. apply list_elem_of_lookup_2, elem_of_seq in Hj. cbn.
  apply take_app_le. lia.
Qed.

Lemma steps_length pre p q : q ∈ steps pre p -> (length pre < length q)%nat.
Proof.
  rewrite steps_eq, list_elem_of_fmap. intros (i & -> & Hi). apply elem_of_seq in Hi. rewrite length_app, length_take. lia.
Qed.

Lemma filter_agree {X} (P Q : X -> Prop) `{!forall x, Decision (P x), !forall x, Decision (Q x)} (l : list X) :
  (forall x, x ∈ l -> P x <-> Q x) -> filter P l = filter Q l.
Proof.
  induction l as [|x l IH]; intros Hl; [done|]. pose proof (Hl x ltac:(set_solver)) as Hx.
  assert (filter P l = filter Q l) as E by (apply IH; set_solver). destruct (decide (P x)).
  - rewrite !filter_cons_True by tauto. by rewrite E.
  - rewrite !filter_cons_False by tauto. done.
Qed.

Lemma mk_path_steps t i pre p :
  mk_path t i pre p =
  match head (filter (fun q => a_dir <$> t !! q = Some false) (steps pre p)) with
  | Some q => inr q
  | None => inl (t ∪ list_to_map ((fun q => (q, mkANode true [] i i 0)) <$> steps pre p))
  end.
Proof.
  revert t pre. induction p as [|name p IH]; intros t pre; cbn [mk_path steps fmap list_fmap].
  { cbn. by rewrite map_union_empty. }
  destruct (t !! (pre ++ [name])) as [x|] eqn:Hx.
  - destruct (a_dir x) eqn:Hd.
    + rewrite filter_cons_False by (rewrite Hx; cbn; congruence). rewrite IH. destruct (head _); [done|]. f_equal.
      cbn [list_to_map foldr fst snd curry uncurry]. apply map_eq. intros r.
      destruct (decide (r = pre ++ [name])) as [->|Hne]; [by rewrite !lookup_union_l' by (by rewrite Hx)|].
      rewrite !lookup_union. cbn. by rewrite lookup_insert_ne.
    + rewrite filter_cons_True by (rewrite Hx; cbn; congruence). done.
  - rewrite filter_cons_False by (rewrite Hx; done). rewrite IH.
    assert (forall q, q ∈ steps (pre ++ [name]) p -> q <> pre ++ [name]) as Hlong.
    { intros q Hq ->. apply steps_length in Hq. lia. }
    rewrite (filter_agree _ (fun q => a_dir <$> t !! q = Some false)).
    2:{ intros q Hq. by rewrite lookup_insert_ne by (symmetry; by apply Hlong). }
    destruct (head _); [done|]. f_equal. cbn. by rewrite <- insert_union_l, insert_union_r.
Qed.

Lemma mk_path_spec s A p name i : tree_ok s A ->
  mk_path (abs_tree s A) i [] p =
  match file_above (abs_tree s A) (p ++ [name]) with
  | Some q => inr q
  | None => inl (mkdirs (abs_tree s A) (p ++ [name]) i)
  end.
Proof.
  intros HA. rewrite mk_path_steps. unfold file_above, mkdirs. rewrite proper_prefixes_eq.
  destruct (to_node _ _ HA _ _ (to_root _ _ HA)) as (n & Hn & _). pose proof (abs_Some _ _ _ _ _ (to_root _ _ HA) Hn) as Hroot.
  destruct (to_top _ _ HA n Hn) as (_ & _ & Hdir).
  rewrite filter_cons_False by (rewrite Hroot; cbn; unfold IsDir; by destruct (n_Children n)).
  destruct (head _); [done|]. f_equal. cbn [fmap list_fmap]. apply map_eq. intros r.
  destruct (decide (r = [])) as [->|Hne]; [by rewrite !lookup_union_l' by (by rewrite Hroot)|].
  rewrite !lookup_union. cbn. by rewrite lookup_insert_ne.
Qed.
