(* ===== verification/V2Ops.v ===== *)
(** * Parts of the operations of the version 2 store

    What the operations of [src/store/store.go] share: changing a time to live,
    removing and replacing nodes, [internalCreate], and publishing the event. *)

From S2P Require Import Prelude Proto OrderedMap GoPath TTLHeap V2Event WatcherHub V2Store V2Tree V2Spec V2Refine.

(** ** Parts of the operations *)

Lemma path_ne s A p q n : tree_ok s A -> A !! p = Some q -> s_nodes s !! q = Some n -> n_ExpireTime n <> 0 -> p <> [].
Proof.
  intros HA Hq Hn Hz ->. rewrite (to_root _ _ HA) in Hq. inv Hq. by destruct (to_top _ _ HA n Hn) as (_ & ? & _).
Qed.

Lemma expire_put s q n c : expire_of (put_node s q n) c = if decide (c = q) then n_ExpireTime n else expire_of s c.
Proof.
  unfold expire_of, put_node, upd; cbn. destruct (decide (c = q)) as [->|Hne]; [by rewrite lookup_insert_eq|by rewrite lookup_insert_ne].
Qed.

Lemma put_same s q n : s_nodes s !! q = Some n -> put_node s q n = s.
Proof. intros Hn. destruct s. unfold put_node, upd; cbn in *. by rewrite insert_id. Qed.

Lemma UpdateTTL_spec s A p q n e : tree_ok s A -> ttl_ok s A -> A !! p = Some q -> s_nodes s !! q = Some n ->
  exists h, let s' := (put_node s q (n <| n_ExpireTime := e |>)) <| s_ttlKeyHeap := h |> in
    UpdateTTL s q e = Ok s' /\ ttl_ok s' A.
Proof.
  intros HA [Hheap Hmem] Hq Hn. unfold UpdateTTL, deref. rewrite Hn. cbn [gobind]. unfold IsPermanent.
  assert (expire_of s q = n_ExpireTime n) as Hexp by (unfold expire_of; by rewrite Hn).
  set (s1 := put_node s q _).
  assert (forall c, expire_of s1 c = if decide (c = q) then e else expire_of s c) as Hs1 by (intros c; unfold s1; by rewrite expire_put).
  assert (forall m, m ∈ h_array (s_ttlKeyHeap s) -> m <> q -> expire_of s1 m = expire_of s m) as Hk.
  { intros m _ Hm. by rewrite Hs1, decide_False. }
  destruct (Z.eqb_spec (n_ExpireTime n) 0) as [Hz|Hz]; cbn [negb]; destruct (Z.eqb_spec e 0) as [He|He].
  - exists (s_ttlKeyHeap s). assert (s1 = s) as Hss.
    { unfold s1. replace (n <| n_ExpireTime := e |>) with n; [by apply put_same|]. destruct n; unfold upd; cbn in *. congruence. }
    rewrite Hss. destruct s; done.
  - destruct (ttl_push_spec (expire_of s1) (s_ttlKeyHeap s) q) as (h & Hp & Hok & Hperm).
    + eapply heap_ok_ext; [|exact Hheap]. intros m Hm. apply Hk; [done|]. intros ->. apply Hmem in Hm as (_ & ? & _). congruence.
    + intros (_ & ? & _)%Hmem. congruence.
    + exists h. cbn zeta. change (s_ttlKeyHeap s1) with (s_ttlKeyHeap s). rewrite Hp. split; [done|]. split; [done|]. intros c. cbn.
      rewrite Hperm, elem_of_cons, Hmem. change (expire_of _ c) with (expire_of s1 c) at 2. rewrite Hs1.
      destruct (decide (c = q)) as [->|Hne]; [|naive_solver]. split; [intros _; split_and!; [eauto|done|done]|by left].
  - destruct (ttl_remove_spec (expire_of s) (expire_of s1) (s_ttlKeyHeap s) q Hheap Hk) as (h & Hp & Hok & Hm).
    exists h. cbn zeta. change (s_ttlKeyHeap s1) with (s_ttlKeyHeap s). rewrite Hp. split; [done|]. split; [done|]. intros c. cbn.
    rewrite Hm, Hmem. change (expire_of _ c) with (expire_of s1 c) at 2. rewrite Hs1.
    destruct (decide (c = q)) as [->|Hne]; naive_solver.
  - destruct (ttl_update_spec (expire_of s) (expire_of s1) (s_ttlKeyHeap s) q Hheap) as (h & Hp & Hok & Hperm).
    + apply Hmem. split_and!; [eauto|congruence|done].
    + done.
    + exists h. cbn zeta. change (s_ttlKeyHeap s1) with (s_ttlKeyHeap s). rewrite Hp. split; [done|]. split; [done|]. intros c. cbn.
      rewrite Hperm, Hmem. change (expire_of _ c) with (expire_of s1 c) at 2. rewrite Hs1.
      destruct (decide (c = q)) as [->|Hne]; [|naive_solver]. rewrite Hexp. naive_solver.
Qed.

Section ops.
  Context (range : gmap str Z -> list (str * Z)) (Hrange : forall m, range m ≡ₚ map_to_list m).

Lemma remove_op x s A p q cb : tree_ok s A -> hub_ok (s_WatcherHub s) -> ttl_but x s A -> A !! p = Some q -> p <> [] ->
  exists s' paths, Remove range (fuel_of s) s q true true cb = Ok (s', None) /\ removed x cb paths s s' (cut p A) /\ paths_at A p paths.
Proof.
  intros HA Hh Ht Hq Hne. apply (Remove_all range Hrange); try done. intros r c Hr. pose proof (tree_depth _ _ HA _ _ Hr) as Hd.
  rewrite length_app in Hd. unfold fuel_of. lia.
Qed.

(** ** [internalCreate] *)

Lemma new_child s A p d nd name x : tree_ok s A -> ttl_ok s A -> A !! p = Some d -> s_nodes s !! d = Some nd -> IsDir nd = true ->
  A !! (p ++ [name]) = None -> name_ok name -> n_Path x = render (p ++ [name]) -> n_Parent x = Some d -> (n_Children x = None \/ n_Children x = Some ∅ /\ n_Value x = []) ->
  exists s1 s', (let '(s1, c) := new_node s x in Add s1 d c) = Ok (s1, None) /\
    (if negb (IsPermanent x) then let! h := ttl_push (expire_of s1) (s_ttlKeyHeap s1) (s_next s) in Ok (s1 <| s_ttlKeyHeap := h |>) else Ok s1) = Ok s' /\
    tree_ok s' (<[p ++ [name] := s_next s]> A) /\ ttl_ok s' (<[p ++ [name] := s_next s]> A) /\ same_else s s' /\ grows s s' /\
    abs_tree s' (<[p ++ [name] := s_next s]> A) = <[p ++ [name] := view x]> (abs_tree s A).
Proof.
  intros HA Ht Hd Hnd Hdir Hnone Hname Hxp Hxu Hxc. destruct (to_node _ _ HA _ _ Hd) as (nd' & Hnd' & Hpath & Hch). simplify_eq.
  destruct (n_Children nd) as [m|] eqn:Hm; [|by unfold IsDir in Hdir; rewrite Hm in Hdir].
  assert (m !! name = None) as Hmn by (specialize (Hch name); unfold child_of in Hch; rewrite Hm in Hch; cbn in Hch; congruence).
  assert (forall y, child_of x y = None) as Hleaf by (intros y; unfold child_of; by destruct Hxc as [-> | [-> _]]; cbn; rewrite ?lookup_empty).
  pose proof (tree_add s A p d nd m name x HA Hd Hnd Hm Hmn Hname Hxp Hxu Hleaf ltac:(intros ?; by destruct Hxc as [?|[_ ?]])) as HA1. fold (linked s x d nd m name) in HA1.
  pose proof (ttl_linked s A p d nd m name x HA Ht Hd Hnd Hnone) as Ht1. pose proof (expire_linked_new s A d nd m name x HA Hnd) as Hxe.
  set (s1 := linked s x d nd m name) in *. pose proof (to_fresh _ _ HA _ _ Hnd) as Hlt.
  assert ((let '(s1, c) := new_node s x in Add s1 d c) = Ok (s1, None)) as Hadd.
  { cbn [new_node]. unfold Add, deref. unfold upd; cbn. rewrite lookup_insert_ne, Hnd by lia. cbn [gobind]. rewrite Hm.
    rewrite lookup_insert_eq. cbn [gobind]. rewrite Hxp, path_Split_render by apply Hname. by rewrite Hmn. }
  assert (grows s s1) as Hg by (by eapply linked_grows).
  assert (abs_tree s1 (<[p ++ [name] := s_next s]> A) = <[p ++ [name] := view x]> (abs_tree s A)) as Habs by (by apply abs_tree_linked).
  unfold IsPermanent. destruct (Z.eqb_spec (n_ExpireTime x) 0) as [Hz|Hz]; cbn [negb].
  - exists s1, s1. split_and!; try done. eapply ttl_permanent; [exact Ht1|congruence].
  - destruct Ht1 as [Hheap Hmem]. destruct (ttl_push_spec (expire_of s1) (s_ttlKeyHeap s1) (s_next s) Hheap) as (h & Hp & Hok & Hperm).
    { intros (_ & _ & ?)%Hmem. done. }
    exists s1, (s1 <| s_ttlKeyHeap := h |>). rewrite Hp. split_and!; try done; [by apply (tree_ext s1)|]. split; [done|]. intros c. cbn.
    rewrite Hperm, elem_of_cons, Hmem. change (expire_of _ c) with (expire_of s1 c) at 2.
    destruct (decide (c = s_next s)) as [->|Hne]; [|naive_solver]. split; [intros _|by left].
    split_and!; [exists (p ++ [name]); by rewrite lookup_insert_eq|congruence|done].
Qed.

(** The part of [internalCreate] after the old node is gone. *)
Lemma create_tail s A p d nd name dir value nextIndex expire action prev now : tree_ok s A -> ttl_ok s A -> A !! p = Some d ->
  s_nodes s !! d = Some nd -> IsDir nd = true -> A !! (p ++ [name]) = None -> name_ok name ->
  let nodePath := render (p ++ [name]) in
  let e := mkEvent action (mkNodeExtern nodePath None false None 0 [] nextIndex nextIndex) prev 0 false in
  let v := mkANode dir (if dir then [] else value) nextIndex nextIndex expire in
  exists s', tree_ok s' (<[p ++ [name] := s_next s]> A) /\ ttl_ok s' (<[p ++ [name] := s_next s]> A) /\ same_else s s' /\ grows s s' /\
    abs_tree s' (<[p ++ [name] := s_next s]> A) = <[p ++ [name] := v]> (abs_tree s A) /\
    (let eNode := if negb dir then (ev_Node e) <| ne_Value := Some value |> else (ev_Node e) <| ne_Dir := true |> in
     let x := if negb dir then newKV nodePath value nextIndex (Some d) expire else newDir nodePath nextIndex (Some d) expire in
     let '(s, n) := new_node s x in
     let! '(s, _) := Add s d n in
     let! '(s, eNode) :=
       (if negb (IsPermanent x) then
          let! h := ttl_push (expire_of s) (s_ttlKeyHeap s) n in
          let '(expiration, ttl) := expirationAndTTL x now in
          Ok (s <| s_ttlKeyHeap := h |>, eNode <| ne_Expiration := expiration |> <| ne_TTL := ttl |>)
        else Ok (s, eNode)) in
     Ok (s <| s_CurrentIndex := nextIndex |>, inl (e <| ev_Node := eNode |>))) =
    Ok (s' <| s_CurrentIndex := nextIndex |>, @inl Event Error (mkEvent action (show (p ++ [name]) v now) prev 0 false)).
Proof.
  intros HA Ht Hd Hnd Hdir Hnone Hname nodePath e v. cbn zeta.
  set (x := if negb dir then newKV nodePath value nextIndex (Some d) expire else newDir nodePath nextIndex (Some d) expire).
  assert (view x = v) as Hv by (by destruct dir). assert (n_ExpireTime x = expire) as Hxe by (by destruct dir).
  destruct (new_child s A p d nd name x HA Ht Hd Hnd Hdir Hnone Hname) as (s1 & s' & Hadd & Hpush & HA' & Ht' & Hse & Hg & Habs);
    [by destruct dir|by destruct dir|by destruct dir; [right|left]|].
  exists s'. rewrite <- Hv. split_and!; [done..|]. cbn [new_node] in Hadd |- *. rewrite Hadd. cbn [gobind].
  rewrite Hv. unfold show, show_at, v. cbn [a_expire a_dir a_value a_modified a_created]. rewrite expirationAndTTL_spec, Hxe.
  unfold IsPermanent in *. rewrite Hxe in *. unfold ttl_shown. destruct (expire =? 0); cbn [negb] in *.
  - inv Hpush. cbn [gobind]. by destruct dir.
  - apply bind_Ok_inv in Hpush as (h & Hh & [= <-]). rewrite Hh. cbn [gobind]. by destruct dir.
Qed.

Lemma mkdirs_self t p i : mkdirs t p i !! p = t !! p.
Proof.
  unfold mkdirs. rewrite lookup_union_l; [done|]. apply not_elem_of_list_to_map_1. rewrite <- list_fmap_compose.
  intros (q & Hq & Hin)%list_elem_of_fmap. cbn in Hq. subst q. unfold proper_prefixes in Hin.
  apply list_elem_of_fmap in Hin as (j & Hj & Hjs). apply elem_of_seq in Hjs. apply (f_equal length) in Hj. rewrite length_take in Hj. lia.
Qed.

Lemma mkdirs_id s A p q i : tree_ok s A -> A !! p = Some q -> mkdirs (abs_tree s A) p i = abs_tree s A.
Proof.
  intros HA Hq. unfold mkdirs. apply map_eq. intros r. rewrite lookup_union.
  destruct (abs_tree s A !! r) as [x|] eqn:Hr; [by destruct (list_to_map _ !! r)|].
  rewrite (left_id None _). apply not_elem_of_list_to_map_1. rewrite <- list_fmap_compose. intros (y & -> & Hin)%list_elem_of_fmap. cbn in Hr.
  unfold proper_prefixes in Hin. apply list_elem_of_fmap in Hin as (j & -> & _). apply abs_None in Hr; [|done].
  destruct (tree_prefix _ _ HA (take j p) (drop j p) q) as [? ?]; [by rewrite take_drop|]. congruence.
Qed.

(** A file has nothing below it. *)
Lemma file_leaf s A p q n r c : tree_ok s A -> A !! p = Some q -> s_nodes s !! q = Some n -> IsDir n = false -> A !! (p ++ r) = Some c -> r = [].
Proof.
  intros HA Hq Hn Hf Hc. destruct r as [|a r]; [done|]. rewrite (cons_middle a p r), app_assoc in Hc.
  destruct (tree_prefix _ _ HA _ _ _ Hc) as [d Hd]. destruct (to_node _ _ HA _ _ Hq) as (n' & Hn' & _ & Hch). simplify_eq.
  rewrite <- Hch in Hd. unfold child_of in Hd. unfold IsDir in Hf. by destruct (n_Children n).
Qed.

Lemma insert_cut_file s A p q n x : tree_ok s A -> A !! p = Some q -> s_nodes s !! q = Some n -> IsDir n = false ->
  <[p := x]> (filter (fun y => ~ p `prefix_of` y.1) (abs_tree s A)) = <[p := x]> (abs_tree s A).
Proof.
  intros HA Hq Hn Hf. apply map_eq. intros r. destruct (decide (r = p)) as [->|Hne]; [by rewrite !lookup_insert_eq|].
  rewrite !lookup_insert_ne by done. apply option_eq. intros y. rewrite map_lookup_filter_Some. cbn. split; [tauto|].
  intros Hy. split; [done|]. intros [k ->]. apply abs_inv in Hy as (c & _ & Hc & _); [|done].
  rewrite (file_leaf s A p q n k c HA Hq Hn Hf Hc), app_nil_r in Hne. done.
Qed.

Lemma root_dir s A : tree_ok s A -> exists n, s_nodes s !! s_Root s = Some n /\ IsDir n = true.
Proof.
  intros HA. destruct (to_node _ _ HA _ _ (to_root _ _ HA)) as (n & Hn & _). exists n. split; [done|].
  destruct (to_top _ _ HA n Hn) as (_ & _ & Hd). unfold IsDir. by destruct (n_Children n).
Qed.

Lemma GetChild_spec s A p q n name : tree_ok s A -> A !! p = Some q -> s_nodes s !! q = Some n -> IsDir n = true ->
  GetChild s q name = Ok (inl (A !! (p ++ [name]))).
Proof.
  intros HA Hq Hn Hd. destruct (to_node _ _ HA _ _ Hq) as (n' & Hn' & _ & Hch). simplify_eq. rewrite <- Hch.
  unfold GetChild, deref, child_of. rewrite Hn. cbn [gobind]. unfold IsDir in Hd. by destruct (n_Children n).
Qed.

(** Replacing a file: it is removed without a notification. *)
Lemma remove_old s A p d nd name c nc now : tree_ok s A -> ttl_ok s A -> hub_ok (s_WatcherHub s) -> A !! p = Some d -> s_nodes s !! d = Some nd ->
  IsDir nd = true -> A !! (p ++ [name]) = Some c -> s_nodes s !! c = Some nc -> IsDir nc = false ->
  exists s' nd', Repr range (fuel_of s) s c false false now = Ok (show (p ++ [name]) (view nc) now) /\
    Remove range (fuel_of s) s c false false None = Ok (s', None) /\
    tree_ok s' (cut (p ++ [name]) A) /\ ttl_ok s' (cut (p ++ [name]) A) /\ same_else s s' /\ grows s s' /\
    cut (p ++ [name]) A !! p = Some d /\ s_nodes s' !! d = Some nd' /\ IsDir nd' = true /\
    abs_tree s' (cut (p ++ [name]) A) = filter (fun y => ~ (p ++ [name]) `prefix_of` y.1) (abs_tree s A).
Proof.
  intros HA Ht Hh Hd Hnd Hdir Hc Hnc Hf. destruct (to_node _ _ HA _ _ Hc) as (nc' & Hnc' & Hpath & _). simplify_eq.
  destruct (remove_op None s A (p ++ [name]) c None HA Hh Ht Hc) as (s' & paths & Hrm & (HA' & Ht' & Hcall & Hsd & Hsr) & _).
  { by destruct p. }
  destruct (same_data_lookup s s' d nd Hsd Hnd) as (nd' & Hnd' & E). apply data_fields in E as (_ & _ & _ & _ & _ & _ & Ed).
  exists s', nd'. split_and!.
  - unfold fuel_of. rewrite (Repr_flat range _ s c nc) by done. by rewrite Hpath.
  - unfold fuel_of in *. rewrite (Remove_flags range _ s c nc) by done. unfold IsDir in Hf. by destruct (n_Children nc).
  - done.
  - done.
  - destruct Hsr as (? & ? & ? & ? & ? & ?). by split_and!.
  - by apply same_data_grows.
  - apply lookup_cut. split; [done|]. intros Hpre%prefix_length. rewrite length_app in Hpre. cbn in Hpre. lia.
  - done.
  - congruence.
  - rewrite (abs_tree_data s s') by done. by apply abs_tree_cut.
Qed.

Lemma same_else_abs s s' A A' : same_else s s' -> abs_tree s' A' = abs_tree s A -> abs s' A' = abs s A.
Proof. intros (_ & _ & E1 & _ & _ & E2) E3. unfold abs. by rewrite E1, E2, E3. Qed.

Lemma abs_insert s s' A A' p x : s_CurrentIndex s' = s_CurrentIndex s + 1 -> s_readonlySet s' = s_readonlySet s ->
  abs_tree s' A' = <[p := x]> (mkdirs (abs_tree s A) p (s_CurrentIndex s + 1)) -> v_insert (abs s A) p x = abs s' A'.
Proof. intros E1 E2 E3. unfold v_insert, abs. cbn. by rewrite E1, E2, E3. Qed.

(** The store with the new node and the new index. *)
Lemma create_done s A s1 s3 A3 p x : same_else s s1 -> grows s s1 -> tree_ok s3 A3 -> ttl_ok s3 A3 -> same_else s1 s3 -> grows s1 s3 ->
  abs_tree s3 A3 = <[p := x]> (mkdirs (abs_tree s A) p (s_CurrentIndex s + 1)) ->
  let s' := s3 <| s_CurrentIndex := s_CurrentIndex s + 1 |> in
  v_insert (abs s A) p x = abs s' A3 /\ tree_ok s' A3 /\ ttl_ok s' A3 /\ s_WatcherHub s' = s_WatcherHub s /\ grows s s'.
Proof.
  intros (_ & Ew1 & _ & _ & _ & Er1) Hg1 HA3 Ht3 (_ & Ew3 & _ & _ & _ & Er3) Hg3 Habs s'. split_and!.
  - apply abs_insert; [done|by rewrite <- Er1, <- Er3|exact Habs].
  - by apply (tree_ext s3).
  - by destruct Ht3.
  - by rewrite <- Ew1, <- Ew3.
  - etrans; [exact Hg1|exact Hg3].
Qed.

Lemma internalCreate_spec s A l path dir value unique replace expire action now : store_ok s A l -> s_CurrentIndex s < two64 - 1 ->
  exists s' A' r, internalCreate range s path dir value unique replace expire action now = Ok (s', r) /\
    v_create (abs s A) (names_of (if unique then path ++ slash :: Sprintf_020s (FormatUint (s_CurrentIndex s + 1)) else path))
      dir value replace expire action now = (abs s' A', r) /\
    tree_ok s' A' /\ ttl_ok s' A' /\ s_WatcherHub s' = s_WatcherHub s /\ grows s s'.
Proof.
  intros [HA Ht Hh Hhist Hlast Hcap Hro Hidx _] Hmax. unfold internalCreate. u64_simp. rewrite Clean_Join.
  set (p := names_of _). unfold v_create. cbn [abs v_index v_readonly v_tree].
  destruct (decide (render p ∈ s_readonlySet s)) as [Hin|Hin]; [rewrite bool_decide_true by done|rewrite bool_decide_false by done].
  { exists s, A, (inr (NewError EcodeRootROnly [slash] (s_CurrentIndex s))). split_and!; done. }
  pose proof (names_of_ok (if unique then path ++ slash :: Sprintf_020s (FormatUint (s_CurrentIndex s + 1)) else path)) as Hpn. fold p in Hpn. clearbody p.
  destruct (exists_last (l := p)) as (p' & name & ->); [intros ->; by apply Hin|].
  apply Forall_app in Hpn as [Hp' [Hname _]%Forall_cons].
  rewrite path_Split_render by apply Hname. unfold walk. rewrite Split_dir_part by done. cbn [drop skipn]. rewrite drop_0.
  destruct (root_dir s A HA) as (nr & Hnr & Hdr).
  destruct (walk_checkDir s A [] p' (s_Root s) nr HA Ht (to_root _ _ HA) Hnr Hdr Hp' ltac:(lia)) as (s1 & A1 & HA1 & Ht1 & Hse1 & Hg1 & Hw).
  rewrite (mk_path_spec s A p' name) in Hw by done. destruct (file_above (abs_tree s A) (p' ++ [name])) as [r|].
  { destruct Hw as (-> & -> & ->). cbn [gobind]. exists (Inc s SetFail), A. eexists. split_and!; [done..|by apply (tree_ext s)|by destruct Ht|done|done]. }
  destruct Hw as (d & nd & -> & Hd & Hnd & Hdd & Habs1). cbn [app] in Hd. cbn [gobind]. rewrite (GetChild_spec s1 A1 p' d nd) by done. cbn [gobind].
  pose proof Hse1 as (_ & Ewh & Eci & _ & _ & Ero).
  assert (abs_tree s1 A1 !! (p' ++ [name]) = abs_tree s A !! (p' ++ [name])) as Hself by (rewrite Habs1; apply mkdirs_self).
  destruct (A1 !! (p' ++ [name])) as [c|] eqn:Hc.
  - destruct (to_node _ _ HA1 _ _ Hc) as (nc & Hnc & Hcp & _). rewrite <- Hself, (abs_Some _ _ _ _ _ Hc Hnc). cbn [view a_dir].
    assert (abs_tree s1 A1 = abs_tree s A) as Hsame.
    { destruct (abs_inv s A (p' ++ [name]) (view nc) HA) as (c0 & _ & Hc0 & _); [by rewrite <- Hself; eapply abs_Some|].
      rewrite Habs1. by eapply mkdirs_id. }
    destruct replace; cbn [gobind].
    2:{ exists s1, A1. eexists. split_and!; [done|by rewrite (same_else_abs s s1 A A1)|done..]. }
    unfold deref at 1. rewrite Hnc. cbn [gobind]. destruct (IsDir nc) eqn:Hdc; cbn [gobind].
    { exists s1, A1. eexists. split_and!; [done|by rewrite (same_else_abs s s1 A A1)|done..]. }
    destruct (remove_old s1 A1 p' d nd name c nc now) as (s2 & nd2 & Hrepr & Hrm & HA2 & Ht2 & Hse2 & Hg2 & Hd2 & Hnd2 & Hdd2 & Habs2);
      [done|done|by rewrite Ewh|done..|].
    rewrite Hrepr. cbn [gobind]. rewrite Hrm. cbn [gobind].
    destruct (create_tail s2 (cut (p' ++ [name]) A1) p' d nd2 name dir value (s_CurrentIndex s + 1) (effective_expire expire) action
      (Some (show (p' ++ [name]) (view nc) now)) now HA2 Ht2 Hd2 Hnd2 Hdd2) as (s3 & HA3 & Ht3 & Hse3 & Hg3 & Habs3 & Htail); [|done|].
    { apply eq_None_not_Some. intros [e He]. apply lookup_cut in He as [_ He]. by apply He. }
    rewrite Habs2, (insert_cut_file s1 A1 _ c nc), Habs1 in Habs3 by done.
    destruct (create_done s A s2 s3 _ (p' ++ [name]) _ (same_else_trans _ _ _ Hse1 Hse2) (transitivity Hg1 Hg2) HA3 Ht3 Hse3 Hg3 Habs3) as (E & Hrest).
    eexists _, _, _. split; [exact Htail|]. split; [by f_equal|exact Hrest].
  - rewrite <- Hself, (proj2 (abs_None s1 A1 _ HA1) Hc). cbn [gobind].
    destruct (create_tail s1 A1 p' d nd name dir value (s_CurrentIndex s + 1) (effective_expire expire) action
      None now HA1 Ht1 Hd Hnd Hdd Hc Hname) as (s3 & HA3 & Ht3 & Hse3 & Hg3 & Habs3 & Htail).
    rewrite Habs1 in Habs3. destruct (create_done s A s1 s3 _ (p' ++ [name]) _ Hse1 Hg1 HA3 Ht3 Hse3 Hg3 Habs3) as (E & Hrest).
    eexists _, _, _. split; [exact Htail|]. split; [by f_equal|exact Hrest].
Qed.

(** ** Publishing an event *)

(** The hub after an event [e] for [p] is published. *)
Record published (wh wh' : watcherHub) (l : list Event) (e : Event) (p : list str) (refresh : bool) : Prop := {
  pu_hub : hub_ok wh';
  pu_history : history_ok (wh_EventHistory wh') (keep_last 1000 (l ++ [e]));
  pu_last : eh_LastIndex (wh_EventHistory wh') = Event_Index e;
  pu_cap : eq_Capacity (eh_Queue (wh_EventHistory wh')) = 1000;
  pu_next : wh_next wh' = wh_next wh;
  pu_heap : wh_heap wh' = if refresh then wh_heap wh else notified e (above p) false (wh_heap wh)
}.

Lemma notify_published wh l e p : hub_ok wh -> history_ok (wh_EventHistory wh) l -> eq_Capacity (eh_Queue (wh_EventHistory wh)) = 1000 ->
  ne_Key (ev_Node e) = render p -> p <> [] -> Forall name_ok p -> Event_Index e = eh_LastIndex (wh_EventHistory wh) + 1 ->
  exists wh', hub_notify wh e = Ok wh' /\ published wh wh' l e p false.
Proof.
  intros Hh Hl Hc Hk Hne Hp Hi. destruct (hub_notify_spec wh l e p Hh Hl Hne Hp Hk) as (wh' & Hn & Hh' & Hnext & Hadd & Hl' & Hheap); [done|].
  destruct (addEvent_spec _ _ e Hl) as (eh & Hadd' & Hcap & Hlast & _); [done|]. rewrite Hadd in Hadd'. inv Hadd'.
  rewrite Hc in Hl', Hcap. exists wh'. split; [done|]. by constructor.
Qed.

Lemma publish_spec s l e p refresh : hub_ok (s_WatcherHub s) -> history_ok (wh_EventHistory (s_WatcherHub s)) l ->
  eq_Capacity (eh_Queue (wh_EventHistory (s_WatcherHub s))) = 1000 -> ev_Refresh e = false ->
  ne_Key (ev_Node e) = render p -> p <> [] -> Forall name_ok p -> Event_Index e = eh_LastIndex (wh_EventHistory (s_WatcherHub s)) + 1 ->
  exists wh', let e' := mkEvent (ev_Action e) (ev_Node e) (ev_PrevNode e) (ev_EtcdIndex e) refresh in
    publish s e refresh = Ok (s <| s_WatcherHub := wh' |>, e') /\ published (s_WatcherHub s) wh' l e' p refresh.
Proof.
  intros Hh Hl Hc Hr Hk Hne Hp Hi. unfold publish. destruct refresh; cbn [negb].
  - set (e' := SetRefresh e). destruct (addEvent_spec _ _ e' Hl) as (eh & Hadd & Hcap & Hlast & Hl'); [done|].
    unfold s_add, hub_add. rewrite Hadd. cbn [gobind]. eexists; split; [done|]. rewrite Hc in Hl', Hcap.
    constructor; try done. destruct Hh as [Hcore Htidy]. split; [by destruct Hcore|done].
  - destruct (notify_published _ l e p Hh Hl Hc Hk Hne Hp Hi) as (wh' & Hn & Hpub). unfold s_notify. rewrite Hn. cbn [gobind].
    exists wh'. destruct e; cbn in *. subst. done.
Qed.

(** ** What an operation does *)

(** The callback was run for [paths], all at or below [p], and for every key
    and directory that is no longer in the tree. *)
Definition removal_told (A A' : tree) (e : Event) (p : list str) (paths : list str) : Prop :=
  (forall P, P ∈ paths -> exists r, P = render (p ++ r)) /\
  forall q, is_Some (A !! q) -> A' !! q = None -> p `prefix_of` q /\ render q ∈ paths /\ ev_Refresh e = false.

(** An operation is refused and changes nothing, or makes one event. *)
Definition outcome_ok (s : store) (A : tree) (l : list Event) (s' : store) (A' : tree) (r : Event + Error) : Prop :=
  match r with
  | inr _ => store_ok s' A' l /\ s_WatcherHub s' = s_WatcherHub s /\ forall q, is_Some (A !! q) -> is_Some (A' !! q)
  | inl e => store_ok s' A' (keep_last 1000 (l ++ [e])) /\
      exists p paths, ne_Key (ev_Node e) = render p /\ p <> [] /\ Forall name_ok p /\ Event_Index e = s_CurrentIndex s + 1 /\
        removal_told A A' e p paths /\
        wh_next (s_WatcherHub s') = wh_next (s_WatcherHub s) /\
        wh_heap (s_WatcherHub s') =
          if ev_Refresh e then wh_heap (s_WatcherHub s)
          else notified e (above p) false (notified e paths true (wh_heap (s_WatcherHub s)))
  end.

(** Nothing is removed. *)
Lemma removal_none A A' e p : (forall q, is_Some (A !! q) -> is_Some (A' !! q)) -> removal_told A A' e p [].
Proof. intros H. split; [by intros P ?%not_elem_of_nil|]. intros q Hq Hn. destruct (H q Hq). congruence. Qed.

Lemma removal_cut A e p paths : paths_at A p paths -> ev_Refresh e = false -> removal_told A (cut p A) e p paths.
Proof.
  intros [_ Hp] Hr. split; [intros P (r & c & -> & _)%Hp; by exists r|]. intros q [c Hc] Hn.
  destruct (decide (p `prefix_of` q)) as [Hpre|Hpre].
  - split_and!; [done| |done]. apply Hp. destruct Hpre as [r ->]. by exists r, c.
  - assert (cut p A !! q = Some c) by (by apply lookup_cut). congruence.
Qed.

Definition refines (s : store) (A : tree) (l : list Event) (run : outcome (store * (Event + Error))) (spec : vstore * (Event + Error)) : Prop :=
  exists s' A' r, run = Ok (s', r) /\ spec = (abs s' A', r) /\ outcome_ok s A l s' A' r.

Lemma store_Inc s A l f : store_ok s A l -> store_ok (Inc s f) A l.
Proof. intros [? [] ? ? ? ? ? ? ?]. constructor; try done. by apply (tree_ext s). Qed.

(** An operation that is refused counts it and returns the error. *)
Lemma refused s A l f err : store_ok s A l -> refines s A l (Ok (Inc s f, inr err)) (abs s A, inr err).
Proof. intros Hs. exists (Inc s f), A, (inr err). split_and!; [done..|]. split_and!; [by apply store_Inc|done|done]. Qed.

(** The end of an operation that changed the tree. *)
Lemma store_published s s1 A A1 l wh e p refresh : store_ok s A l -> tree_ok s1 A1 -> ttl_ok s1 A1 ->
  s_CurrentIndex s1 = s_CurrentIndex s + 1 -> s_readonlySet s1 = s_readonlySet s -> Event_Index e = s_CurrentIndex s + 1 ->
  s_WatcherHub s1 = wh -> (exists wh0, published wh0 wh l e p refresh) -> store_ok s1 A1 (keep_last 1000 (l ++ [e])).
Proof.
  intros [] HA Ht Ei Er Hi <- (wh0 & [Hh Hl Hlast Hc Hn Hheap]). constructor; try done; [congruence|by rewrite Er|rewrite Ei; lia|].
  rewrite Ei. unfold keep_last. rewrite length_drop, length_app. cbn [length]. lia.
Qed.
End ops.
