(* ===== verification/V2OpsSpec.v ===== *)
(** * Each operation of the version 2 store refines its specification

    [Create], [Set], [Update], [CompareAndSwap], [Delete] and
    [CompareAndDelete] of [src/store/store.go], one by one. *)

From S2P Require Import Prelude Proto OrderedMap GoPath TTLHeap V2Event WatcherHub V2Store V2Tree V2Spec V2Refine V2Ops.

Lemma v_create_cases st p dir value replace expire action now st' r :
  v_create st p dir value replace expire action now = (st', r) ->
  match r with
  | inr _ => st' = st
  | inl e => (forall q, is_Some (v_tree st !! q) -> is_Some (v_tree st' !! q)) /\ v_index st' = v_index st + 1 /\ v_readonly st' = v_readonly st /\ ne_Key (ev_Node e) = render p /\
      Event_Index e = v_index st + 1 /\ ev_Refresh e = false /\ render p ∉ v_readonly st /\
      (forall old, v_tree st !! p = Some old -> a_dir old = false)
  end.
Proof.
  unfold v_create. case_decide as Hro; [by intros [= <- <-]|]. destruct (file_above (v_tree st) p); [by intros [= <- <-]|].
  assert (forall x q, is_Some (v_tree st !! q) -> is_Some (v_tree (v_insert st p x) !! q)) as Hgrow.
  { intros x q [y Hy]. unfold v_insert, mkdirs. cbn [v_tree]. rewrite lookup_insert. case_decide; [by eexists|].
    exists y. by apply lookup_union_Some_l. }
  unfold show, show_at, Event_Index. cbn [a_expire a_dir a_value a_modified a_created].
  destruct (ttl_shown _ now) as [ex ttl].
  destruct (v_tree st !! p) as [old|].
  - destruct replace; [|by intros [= <- <-]]. destruct (a_dir old) eqn:Hd; [by intros [= <- <-]|]. intros [= <- <-]. split_and!; try done; [apply Hgrow|by intros ? [= <-]].
  - intros [= <- <-]. split_and!; try done. apply Hgrow.
Qed.

Lemma abs_eq_inv s A s' A' : abs s' A' = abs s A -> s_CurrentIndex s' = s_CurrentIndex s /\ s_readonlySet s' = s_readonlySet s.
Proof. by intros [= _ -> ->]. Qed.

(** A refused creation leaves the store as it is, but for directories of the
    tree that nothing shows. *)
Lemma store_same s s' A A' l : store_ok s A l -> tree_ok s' A' -> ttl_ok s' A' -> s_WatcherHub s' = s_WatcherHub s ->
  abs s' A' = abs s A -> store_ok s' A' l.
Proof.
  intros [] HA Ht Ew Ea. apply abs_eq_inv in Ea as [Ei Er]. constructor; rewrite ?Ew, ?Ei, ?Er; done.
Qed.

Lemma abs_grows s A s' A' : tree_ok s A -> tree_ok s' A' ->
  (forall q, is_Some (abs_tree s A !! q) -> is_Some (abs_tree s' A' !! q)) -> forall q, is_Some (A !! q) -> is_Some (A' !! q).
Proof.
  intros HA HA' H q Hq. apply not_eq_None_Some. rewrite <- (abs_None s') by done. apply not_eq_None_Some, H.
  apply not_eq_None_Some. rewrite abs_None by done. by apply not_eq_None_Some.
Qed.

Lemma abs_same s A s' A' : tree_ok s A -> tree_ok s' A' -> abs s' A' = abs s A -> forall q, is_Some (A !! q) -> is_Some (A' !! q).
Proof. intros HA HA' Ea. apply (abs_grows s A s' A'); [done..|]. injection Ea as Ea _ _. by rewrite Ea. Qed.

Section ops.
  Context (range : gmap str Z -> list (str * Z)) (Hrange : forall m, range m ≡ₚ map_to_list m).

(** A creation that succeeded is published, with the previous node [prev]. *)
Lemma creation_published s A l s1 A1 e p prev refresh f : store_ok s A l -> tree_ok s1 A1 -> ttl_ok s1 A1 ->
  s_WatcherHub s1 = s_WatcherHub s -> Forall name_ok p ->
  (forall q, is_Some (abs_tree s A !! q) -> is_Some (abs_tree s1 A1 !! q)) ->
  v_index (abs s1 A1) = s_CurrentIndex s + 1 -> v_readonly (abs s1 A1) = s_readonlySet s -> ne_Key (ev_Node e) = render p ->
  Event_Index e = s_CurrentIndex s + 1 -> ev_Refresh e = false -> render p ∉ s_readonlySet s ->
  exists wh, let s2 := Inc (s1 <| s_WatcherHub := wh |>) f in
    let e1 := mkEvent (ev_Action e) (ev_Node e) prev (s_CurrentIndex s1) false in
    let e2 := mkEvent (ev_Action e) (ev_Node e) prev (s_CurrentIndex s + 1) refresh in
    publish s1 e1 refresh = Ok (s1 <| s_WatcherHub := wh |>, e2) /\ abs s2 A1 = abs s1 A1 /\ outcome_ok s A l s2 A1 (inl e2).
Proof.
  intros Hs HA Ht Ew Hp Hgrow Ei Er Hk Hi Hr Hro. cbn in Ei, Er. pose proof Hs as [HA0 _ Hh Hl Hlast Hc Hroot Hidx _].
  assert (p <> []) as Hne by (intros ->; by apply Hro).
  set (e1 := mkEvent (ev_Action e) (ev_Node e) prev (s_CurrentIndex s1) false).
  destruct (publish_spec s1 l e1 p refresh) as (wh & Hpub & Hok); rewrite ?Ew; try done; [by rewrite Hlast|].
  exists wh. cbn zeta in *. rewrite Hpub. cbn [e1 ev_Action ev_Node ev_PrevNode ev_EtcdIndex] in Hok |- *. rewrite Ei in Hok |- *.
  split_and!; [done..|]. unfold outcome_ok. split.
  - eapply (store_published s); [done|by apply (tree_ext s1)|by destruct Ht|done|done|done|done|by exists (s_WatcherHub s1)].
  - exists p, []. destruct Hok as [_ _ _ _ Hn Hheap]. rewrite Ew in *. split_and!; try done. by apply removal_none, (abs_grows s A s1 A1).
Qed.

Lemma Create_refines s A l path dir value unique opts now : store_ok s A l -> s_CurrentIndex s < two64 - 1 ->
  refines s A l (Create range s path dir value unique opts now) (v_step (abs s A) (OpCreate path dir value unique opts) now).
Proof.
  intros Hs Hmax. unfold Create, v_step. cbn [abs v_index]. fold (abs s A).
  destruct (internalCreate_spec range Hrange s A l path dir value unique false (o_ExpireTime opts) ActCreate now Hs Hmax)
    as (s1 & A1 & r & -> & Hv & HA1 & Ht1 & Ew & Hg).
  cbn [gobind]. rewrite Hv. pose proof (v_create_cases _ _ _ _ _ _ _ _ _ _ Hv) as Hcases. destruct r as [e|err].
  - destruct Hcases as (Hgr & Ei & Er & Hk & Hidx & Href & Hro & _).
    destruct (creation_published s A l s1 A1 e _ (ev_PrevNode e) false CreateSuccess Hs HA1 Ht1 Ew (names_of_ok _) Hgr Ei Er Hk Hidx Href Hro)
      as (wh & Hpub & Habs & Hout). cbn zeta in *. unfold publish in Hpub. cbn [negb] in Hpub. apply bind_Ok_inv in Hpub as (s2 & Hn & Hs2). inv Hs2.
    destruct e as [a nd pn ei rf]. cbn in Href. subst rf. unfold upd; cbn in *. rewrite Hn. cbn [gobind].
    rewrite Ei. eexists _, A1, _. split; [done|]. split; [by rewrite Habs|done].
  - exists (Inc s1 CreateFail), A1, (inr err). split_and!; [done..|]. split_and!; [by apply store_Inc, (store_same s s1 A A1)|done|apply (abs_same s A s1 A1); [apply Hs|done|done]].
Qed.

Lemma load_file s q n key now : s_nodes s !! q = Some n -> IsDir n = false ->
  loadInternalNode range s (ev_Node (newEvent ActGet key (n_ModifiedIndex n) (n_CreatedIndex n))) q false false now =
  Ok (show_at key (view n) now).
Proof.
  intros Hn Hf. unfold loadInternalNode, deref. rewrite Hn. cbn [gobind]. unfold Read. rewrite Hf. unfold show_at. cbn [view a_expire a_dir a_value].
  rewrite expirationAndTTL_spec, Hf. unfold IsDir in Hf. destruct (n_Children n); [done|]. cbn [gobind].
  by destruct (ttl_shown (n_ExpireTime n) now).
Qed.

(** The part of [Set] after the search for the old node. *)
Lemma set_refines s A l path dir value opts now got prev : store_ok s A l -> s_CurrentIndex s < two64 - 1 ->
  match got with
  | inl q => exists n, A !! names_of path = Some q /\ s_nodes s !! q = Some n /\ prev = Some (show_at path (view n) now)
  | inr _ => prev = None /\ A !! names_of path = None
  end ->
  refines s A l
    (let! '(s, r) := internalCreate range s path dir value false true (o_ExpireTime opts) ActSet now in
     match r with
     | inr err => Ok (Inc s SetFail, inr err)
     | inl e =>
         let e := e <| ev_EtcdIndex := s_CurrentIndex s |> in
         let! e :=
           match got : Z + Error with
           | inl n =>
               let! x := deref s n in
               let prev := newEvent ActGet path (n_ModifiedIndex x) (n_CreatedIndex x) in
               let! prevNode := loadInternalNode range s (ev_Node prev) n false false now in
               Ok (e <| ev_PrevNode := Some prevNode |>)
           | inr _ => Ok e
           end in
         let! '(s, e) := publish s e (o_Refresh opts) in
         Ok (Inc s SetSuccess, inl e)
     end)
    (match v_create (abs s A) (names_of path) dir value true (o_ExpireTime opts) ActSet now with
     | (st', inl e) => (st', inl (mkEvent (ev_Action e) (ev_Node e) (if got then prev else ev_PrevNode e) (s_CurrentIndex s + 1) (o_Refresh opts)))
     | r => r
     end).
Proof.
  intros Hs Hmax Hgot.
  destruct (internalCreate_spec range Hrange s A l path dir value false true (o_ExpireTime opts) ActSet now Hs Hmax)
    as (s1 & A1 & r & -> & Hv & HA1 & Ht1 & Ew & Hg).
  cbn [gobind]. rewrite Hv. pose proof (v_create_cases _ _ _ _ _ _ _ _ _ _ Hv) as Hcases. destruct r as [e|err].
  2:{ exists (Inc s1 SetFail), A1, (inr err). split_and!; [done..|]. split_and!; [by apply store_Inc, (store_same s s1 A A1)|done|apply (abs_same s A s1 A1); [apply Hs|done|done]]. }
  destruct Hcases as (Hgr & Ei & Er & Hk & Hidx & Href & Hro & Hold).
  destruct (creation_published s A l s1 A1 e _ (if got then prev else ev_PrevNode e) (o_Refresh opts) SetSuccess Hs HA1 Ht1 Ew (names_of_ok _) Hgr Ei Er Hk Hidx Href Hro)
    as (wh & Hpub & Habs & Hout). cbn zeta in *.
  destruct e as [act nd pn ei rf]. cbn in Href. subst rf. cbn [ev_Action ev_Node ev_PrevNode] in Hpub, Hout |- *.
  destruct got as [q|g].
  - destruct Hgot as (n & Hq & Hn & ->). pose proof (Hold (view n) (abs_Some _ _ _ _ _ Hq Hn)) as Hf.
    pose proof (grows_file s s1 q n Hg Hn Hf) as Hn1. unfold deref at 1. rewrite Hn1. cbn [gobind].
    rewrite (load_file s1 q n path now Hn1 Hf). cbn [gobind]. unfold upd; cbn -[publish Inc]. rewrite Hpub. cbn [gobind].
    eexists _, A1, _. split; [done|]. split; [by rewrite Habs|done].
  - unfold upd; cbn -[publish Inc]. rewrite Hpub. cbn [gobind]. eexists _, A1, _. split; [done|]. split; [by rewrite Habs|done].
Qed.

Lemma Set_refines s A l path dir value opts now : store_ok s A l -> s_CurrentIndex s < two64 - 1 ->
  refines s A l (Set_ range s path dir value opts now) (v_step (abs s A) (OpSet path dir value opts) now).
Proof.
  intros Hs Hmax. unfold Set_, v_step. cbn [abs v_index]. fold (abs s A). rewrite (internalGet_spec s A path) by apply Hs. cbn [gobind].
  pose proof (find_spec s A (names_of path) (so_tree _ _ _ Hs)) as Hf. destruct (find_path s A [] (names_of path)) as [q|err].
  - destruct Hf as (n & Hq & Hn & Hp & ->). cbn [view a_value]. unfold deref at 1. rewrite Hn. cbn [gobind].
    replace (if o_Refresh opts then Ok (n_Value n) else Ok value) with (Ok (if o_Refresh opts then n_Value n else value)) by (by destruct (o_Refresh opts)).
    cbn [gobind]. apply (set_refines s A l path dir _ opts now (inl q) (Some (show_at path (view n) now)) Hs Hmax). eauto.
  - destruct Hf as [Hnone ->]. destruct (negb (ErrorCode err =? EcodeKeyNotFound) || o_Refresh opts) eqn:Hr; cbn [gobind].
    { by apply refused. }
    pose proof (set_refines s A l path dir value opts now (inr err) None Hs Hmax ltac:(done)) as H. apply orb_false_iff in Hr as [_ Hr].
    rewrite Hr in *. unfold refines in *. destruct H as (s' & A' & r & H1 & H2 & H3). exists s', A', r. split; [exact H1|]. split; [|done].
    rewrite <- H2. destruct (v_create _ _ _ _ _ _ _ _) as [st [e|e]] eqn:Hv; [|done]. apply v_create_cases in Hv as (_ & _ & _ & _ & _ & Href & _).
    destruct e; cbn in *. by subst.
Qed.

Definition written (n : node) (value : str) (index expire : Z) : node :=
  (if IsDir n then n else n <| n_Value := value |> <| n_ModifiedIndex := index |>) <| n_ExpireTime := expire |>.

Lemma view_written n value index expire : view (written n value index expire) =
  mkANode (IsDir n) (if IsDir n then n_Value n else value) (n_CreatedIndex n) (if IsDir n then n_ModifiedIndex n else index) expire.
Proof. destruct n as [? ? ? ? ? ? [|]]; done. Qed.

(** [Write] and [UpdateTTL] on a node that is not the root. *)
Lemma write_ttl s A p q n value index expire : tree_ok s A -> ttl_ok s A -> A !! p = Some q -> p <> [] -> s_nodes s !! q = Some n ->
  exists s1 err h, let s2 := (put_node s q (written n value index expire)) <| s_ttlKeyHeap := h |> in
    Write s q value index = Ok (s1, err) /\ UpdateTTL s1 q expire = Ok s2 /\ tree_ok s2 A /\ ttl_ok s2 A /\
    deref s2 q = Ok (written n value index expire) /\
    abs_tree s2 A = <[p := view (written n value index expire)]> (abs_tree s A).
Proof.
  intros HA Ht Hq Hne Hn.
  set (n1 := if IsDir n then n else n <| n_Value := value |> <| n_ModifiedIndex := index |>).
  set (s1 := put_node s q n1).
  assert (q <> s_Root s) as Hnr by (intros ->; apply Hne; by apply (tree_inj _ _ HA _ _ _ Hq), to_root).
  assert (tree_ok s1 A) as HA1 by (apply (tree_put s A q n); [done|done|unfold n1; destruct n as [? ? ? ? ? ? [|]]; by split_and!|done]).
  assert (s_nodes s1 !! q = Some n1) as Hn1 by (unfold s1, put_node, upd; cbn; apply lookup_insert_eq).
  assert (ttl_ok s1 A) as Ht1.
  { destruct Ht as [Hheap Hmem]. assert (forall c, expire_of s1 c = expire_of s c) as He.
    { intros c. unfold s1. rewrite expire_put. case_decide; [|done]. subst. unfold expire_of. rewrite Hn. unfold n1. by destruct (IsDir n). }
    split; [eapply heap_ok_ext; [|exact Hheap]; intros; apply He|]. intros c. rewrite He. apply Hmem. }
  destruct (UpdateTTL_spec s1 A p q n1 expire HA1 Ht1 Hq Hn1) as (h & Hu & Ht2). cbn zeta in *.
  assert (put_node s1 q (n1 <| n_ExpireTime := expire |>) = put_node s q (written n value index expire)) as E.
  { unfold s1, put_node, upd; cbn. by rewrite insert_insert_eq. }
  rewrite E in Hu, Ht2. exists s1, (if IsDir n then Some (NewError EcodeNotFile [] (s_CurrentIndex s)) else None), h. split_and!; [|done| |done| |].
  - unfold Write, deref. rewrite Hn. cbn [gobind]. unfold s1, n1. destruct (IsDir n); [|done]. by rewrite put_same.
  - apply (tree_ext (put_node s q (written n value index expire))); [|done..].
    apply (tree_put s A q n); [done|done|unfold written; destruct n as [? ? ? ? ? ? [|]]; by split_and!|done].
  - unfold deref, put_node, upd; cbn. by rewrite lookup_insert_eq.
  - exact (abs_tree_put s A p q n (written n value index expire) HA Hq Hn).
Qed.

(** The publication of a change of a node. *)
Lemma change_published s A l q n n' p h e refresh f : store_ok s A l -> p <> [] -> Forall name_ok p -> A !! p = Some q -> s_nodes s !! q = Some n ->
  let s1 := (put_node s q n') <| s_ttlKeyHeap := h |> in
  tree_ok s1 A -> ttl_ok s1 A -> ne_Key (ev_Node e) = render p -> Event_Index e = s_CurrentIndex s + 1 -> ev_Refresh e = false ->
  exists wh, let e2 := mkEvent (ev_Action e) (ev_Node e) (ev_PrevNode e) (ev_EtcdIndex e) refresh in
    let s2 := s1 <| s_WatcherHub := wh |> <| s_CurrentIndex := s_CurrentIndex s + 1 |> in
    publish s1 e refresh = Ok (s1 <| s_WatcherHub := wh |>, e2) /\
    publish (s1 <| s_CurrentIndex := s_CurrentIndex s + 1 |>) e refresh = Ok (s2, e2) /\
    abs (Inc s2 f) A = v_put (abs s A) p (view n') /\ outcome_ok s A l (Inc s2 f) A (inl e2).
Proof.
  intros Hs Hne Hp Hq Hn s1 HA1 Ht1 Hk Hi Hr. pose proof Hs as [HA _ Hh Hl Hlast Hc Hro Hidx _].
  destruct (publish_spec s1 l e p refresh) as (wh & Hpub & Hok); try done; [by rewrite <- Hlast in Hi|].
  destruct (publish_spec (s1 <| s_CurrentIndex := s_CurrentIndex s + 1 |>) l e p refresh) as (wh' & Hpub' & _); try done; [by rewrite <- Hlast in Hi|].
  cbn zeta in *. assert (wh' = wh) as ->.
  { unfold publish, s_notify, s_add in *. cbn [s_WatcherHub upd] in *. destruct refresh; cbn [negb] in *.
    - apply bind_Ok_inv in Hpub as (x & (w & Hw & [= <-])%bind_Ok_inv & [= <-]).
      apply bind_Ok_inv in Hpub' as (x & (w' & Hw' & [= <-])%bind_Ok_inv & E). cbn in E. injection E as E. cbn in Hw, Hw'. congruence.
    - apply bind_Ok_inv in Hpub as (x & (w & Hw & [= <-])%bind_Ok_inv & [= <-]).
      apply bind_Ok_inv in Hpub' as (x & (w' & Hw' & [= <-])%bind_Ok_inv & E). cbn in E. injection E as E. cbn in Hw, Hw'. congruence. }
  exists wh. split_and!; [done..| |].
  - unfold abs, v_put. cbn. f_equal. exact (abs_tree_put s A p q n n' HA Hq Hn).
  - unfold outcome_ok. split.
    + eapply (store_published s); [done|by apply (tree_ext s1)|by destruct Ht1|done|done|done|done|by exists (s_WatcherHub s)].
    + exists p, []. destruct Hok as [_ _ _ _ Hnx Hheap]. split_and!; try done. by apply removal_none.
Qed.

Lemma not_root s A l p : store_ok s A l -> render p ∉ s_readonlySet s -> p <> [].
Proof. intros Hs Hp ->. by apply Hp, (so_root _ _ _ Hs). Qed.

Lemma clean_idem path : Clean (Join [slash] (Clean (Join [slash] path))) = Clean (Join [slash] path).
Proof. rewrite !Clean_Join. by rewrite names_of_render by apply names_of_ok. Qed.

(** [internalGet] of the cleaned path, as the operations call it. *)
Lemma get_clean s A path : tree_ok s A -> internalGet s (render (names_of path)) = Ok (find_path s A [] (names_of path)).
Proof. intros HA. rewrite (internalGet_spec s A) by done. by rewrite names_of_render by apply names_of_ok. Qed.

Lemma Repr_show s q n p sorted now : s_nodes s !! q = Some n -> n_Path n = render p ->
  Repr range (fuel_of s) s q false sorted now = Ok (show p (view n) now).
Proof. intros Hn Hp. unfold fuel_of, show. by rewrite (Repr_flat range _ s q n), Hp. Qed.

Lemma Compare_spec n prevValue prevIndex :
  let '(ok, which) := Compare n prevValue prevIndex in
  match v_compare (view n) prevValue prevIndex with
  | None => ok = true
  | Some cause => ok = false /\ getCompareFailCause n which prevValue prevIndex = cause
  end.
Proof.
  unfold Compare, v_compare, getCompareFailCause, view. cbn.
  destruct (bool_decide (prevValue = []) || bool_decide (n_Value n = prevValue)), ((prevIndex =? 0) || (n_ModifiedIndex n =? prevIndex)); done.
Qed.

Lemma Update_refines s A l path value opts now : store_ok s A l -> s_CurrentIndex s < two64 - 1 ->
  refines s A l (Update range s path value opts now) (v_step (abs s A) (OpUpdate path value opts) now).
Proof.
  intros Hs Hmax. pose proof Hs as [HA Ht _ _ _ _ _ Hidx _]. unfold Update, v_step. cbn [abs v_index v_readonly]. fold (abs s A).
  rewrite Clean_Join. set (p := names_of path) in *. u64_simp.
  destruct (decide (render p ∈ s_readonlySet s)) as [Hin|Hin]; [rewrite bool_decide_true by done; by apply refused|rewrite bool_decide_false by done].
  assert (internalGet s (render p) = Ok (find_path s A [] p)) as -> by (by apply get_clean). cbn [gobind]. pose proof (find_spec s A p HA) as Hf.
  destruct (find_path s A [] p) as [q|err]; [|destruct Hf as [_ ->]; by apply refused].
  destruct Hf as (n & Hq & Hn & Hpath & ->). unfold deref at 1. rewrite Hn. cbn [gobind view a_dir a_value a_created a_expire].
  destruct (IsDir n && negb (bool_decide (value = []))) eqn:Hbad; [by apply refused|].
  rewrite (Repr_show s q n p) by done. cbn [gobind].
  set (v := if o_Refresh opts then n_Value n else value).
  assert (p <> []) as Hne by (by eapply not_root).
  destruct (write_ttl s A p q n v (s_CurrentIndex s + 1) (o_ExpireTime opts) HA Ht Hq Hne Hn) as (s1 & werr & h & Hw & Hu & HA2 & Ht2 & Hder & _).
  cbn zeta in *. rewrite Hw. cbn [gobind]. rewrite Hu. cbn [gobind]. rewrite Hder. cbn [gobind]. rewrite expirationAndTTL_spec.
  set (n2 := written n v (s_CurrentIndex s + 1) (o_ExpireTime opts)) in *.
  destruct (ttl_shown (n_ExpireTime n2) now) as [ex ttl] eqn:Httl.
  match goal with |- context [publish _ ?ev _] => set (e := ev) end.
  destruct (change_published s A l q n n2 p h e (o_Refresh opts) UpdateSuccess Hs Hne (names_of_ok _) Hq Hn HA2 Ht2) as (wh & Hpub & _ & Habs & Hout);
    [unfold e; cbn; by destruct (IsDir n)..|]. cbn zeta in *. rewrite Hpub. cbn [gobind].
  eexists _, A, _. split; [done|]. split; [|exact Hout]. f_equal.
  - etrans; [|symmetry; exact Habs]. f_equal. unfold n2. rewrite view_written. unfold v. by destruct (IsDir n) eqn:Hd; unfold view; rewrite ?Hd.
  - f_equal. unfold e. cbn. f_equal. change (n_ExpireTime n2) with (o_ExpireTime opts) in Httl. unfold show, show_at, v.
    by destruct (IsDir n) eqn:Hd; cbn; rewrite ?Httl, ?Hd.
Qed.

Lemma CompareAndSwap_refines s A l path prevValue prevIndex value opts now : store_ok s A l -> s_CurrentIndex s < two64 - 1 ->
  refines s A l (CompareAndSwap range s path prevValue prevIndex value opts now)
    (v_step (abs s A) (OpCompareAndSwap path prevValue prevIndex value opts) now).
Proof.
  intros Hs Hmax. pose proof Hs as [HA Ht _ _ _ _ _ Hidx _]. unfold CompareAndSwap, v_step. cbn [abs v_index v_readonly]. fold (abs s A).
  rewrite Clean_Join. set (p := names_of path) in *. u64_simp.
  destruct (decide (render p ∈ s_readonlySet s)) as [Hin|Hin]; [rewrite bool_decide_true by done; by apply refused|rewrite bool_decide_false by done].
  assert (internalGet s (render p) = Ok (find_path s A [] p)) as -> by (by apply get_clean). cbn [gobind]. pose proof (find_spec s A p HA) as Hf.
  destruct (find_path s A [] p) as [q|err]; [|destruct Hf as [_ ->]; by apply refused].
  destruct Hf as (n & Hq & Hn & Hpath & ->). unfold deref at 1. rewrite Hn. cbn [gobind]. cbn [view a_dir a_value a_created].
  destruct (IsDir n) eqn:Hd; [by apply refused|].
  pose proof (Compare_spec n prevValue prevIndex) as Hcmp. destruct (Compare n prevValue prevIndex) as [ok which].
  fold (view n). destruct (v_compare (view n) prevValue prevIndex) as [cause|].
  { destruct Hcmp as [-> ->]. cbn [negb]. by apply refused. }
  rewrite Hcmp. cbn [negb]. set (si := s <| s_CurrentIndex := s_CurrentIndex s + 1 |>).
  rewrite (Repr_show si q n p) by done. cbn [gobind]. set (v := if o_Refresh opts then n_Value n else value).
  assert (p <> []) as Hne by (by eapply not_root).
  destruct (write_ttl si A p q n v (s_CurrentIndex s + 1) (o_ExpireTime opts)) as (s1 & werr & h & Hw & Hu & HA2 & Ht2 & Hder & _);
    [by apply (tree_ext s)|by destruct Ht|done..|].
  cbn zeta in *. change (s_CurrentIndex si) with (s_CurrentIndex s + 1). rewrite Hw. cbn [gobind]. rewrite Hu. cbn [gobind]. rewrite Hder.
  cbn [gobind]. rewrite expirationAndTTL_spec. set (n2 := written n v (s_CurrentIndex s + 1) (o_ExpireTime opts)) in *.
  destruct (ttl_shown (n_ExpireTime n2) now) as [ex ttl] eqn:Httl.
  match goal with |- context [publish _ ?ev _] => set (e := ev) end.
  destruct (change_published s A l q n n2 p h e (o_Refresh opts) CompareAndSwapSuccess Hs Hne (names_of_ok _) Hq Hn) as (wh & _ & Hpub & Habs & Hout);
    [by apply (tree_ext _ _ _ HA2)|by destruct Ht2|done..|]. cbn zeta in *.
  gorun Hpub. eexists _, A, _. split; [done|]. split; [|exact Hout]. f_equal.
  - etrans; [|symmetry; exact Habs]. f_equal. unfold n2. rewrite view_written, Hd. done.
  - f_equal. unfold e. cbn. f_equal. change (n_ExpireTime n2) with (o_ExpireTime opts) in Httl. unfold show, show_at. cbn. by rewrite Httl.
Qed.

(** The end of an operation that removed the node at [p]. *)
Lemma removal_published s A l p s1 e paths f : store_ok s A l -> p <> [] -> Forall name_ok p -> removed None (Some e) paths s s1 (cut p A) -> paths_at A p paths ->
  ne_Key (ev_Node e) = render p -> Event_Index e = s_CurrentIndex s + 1 -> ev_Refresh e = false ->
  exists s2, let s3 := Inc s2 f in
    s_notify (s1 <| s_CurrentIndex := s_CurrentIndex s + 1 |>) e = Ok s2 /\
    abs s3 (cut p A) = v_cut (abs s A) p /\ outcome_ok s A l s3 (cut p A) (inl e).
Proof.
  intros Hs Hne Hp (HA1 & Ht1 & Hcall & Hsd & (_ & _ & Ei & _ & _ & Er)) Hpaths Hk Hi Hr. pose proof Hs as [HA _ Hh Hl Hlast Hc Hro Hidx _].
  destruct Hcall as (Hh1 & [Ehist Enext] & Hheap1).
  destruct (notify_published (s_WatcherHub s1) l e p) as (wh & Hn & Hok); [done|by rewrite Ehist|by rewrite Ehist|done..|by rewrite Ehist, Hlast|].
  unfold s_notify. cbn [s_WatcherHub upd]. rewrite Hn. cbn [gobind]. eexists. cbn zeta. split; [done|]. split.
  - unfold abs, v_cut. cbn. f_equal; [|done]. change (abs_tree _ (cut p A)) with (abs_tree s1 (cut p A)) at 1.
    rewrite (abs_tree_data s s1) by done. by apply abs_tree_cut.
  - unfold outcome_ok. split.
    + eapply (store_published s); [done|by apply (tree_ext s1)|by destruct Ht1|done|done|done|done|by exists (s_WatcherHub s1)].
    + exists p, paths. destruct Hok as [_ _ _ _ Hnx Hheap]. rewrite Hr, <- Hheap1, <- Enext. split_and!; try done. by apply removal_cut.
Qed.

(** When [Remove] refuses, and that it removes otherwise. *)
Lemma Remove_spec s A l p q n dir recursive e : store_ok s A l -> A !! p = Some q -> p <> [] -> s_nodes s !! q = Some n -> n_Path n = render p ->
  if IsDir n && negb dir then
    Remove range (fuel_of s) s q dir recursive (Some e) = Ok (s, Some (NewError EcodeNotFile (render p) (s_CurrentIndex s)))
  else if IsDir n && has_children (abs_tree s A) p && negb recursive then
    Remove range (fuel_of s) s q dir recursive (Some e) = Ok (s, Some (NewError EcodeDirNotEmpty (render p) (s_CurrentIndex s)))
  else exists s' paths, Remove range (fuel_of s) s q dir recursive (Some e) = Ok (s', None) /\ removed None (Some e) paths s s' (cut p A) /\ paths_at A p paths.
Proof.
  intros [HA Ht Hh _ _ _ _ _ _] Hq Hne Hn Hp. destruct (remove_op range Hrange None s A p q (Some e) HA Hh Ht Hq Hne) as (s' & paths & Hrm & Hrem & Hpaths).
  unfold fuel_of in *. rewrite (Remove_flags range _ s q n) by done. unfold IsDir. destruct (n_Children n) as [m|] eqn:Hm; cbn [andb]; [|eauto].
  rewrite (no_children s A p q n m HA Hq Hn Hm), negb_involutive, Hp. destruct dir; cbn [negb]; [|done].
  destruct (has_children (abs_tree s A) p && negb recursive); [done|eauto].
Qed.

Lemma Delete_refines s A l path dir recursive now : store_ok s A l -> s_CurrentIndex s < two64 - 1 ->
  refines s A l (Delete range s path dir recursive now) (v_step (abs s A) (OpDelete path dir recursive) now).
Proof.
  intros Hs Hmax. pose proof Hs as [HA Ht _ _ _ _ _ Hidx _]. unfold Delete, v_step. cbn [abs v_index v_readonly v_tree]. fold (abs s A).
  rewrite Clean_Join. set (p := names_of path) in *. u64_simp.
  destruct (decide (render p ∈ s_readonlySet s)) as [Hin|Hin]; [rewrite bool_decide_true by done; by apply refused|rewrite bool_decide_false by done].
  assert (internalGet s (render p) = Ok (find_path s A [] p)) as -> by (by apply get_clean). cbn [gobind]. pose proof (find_spec s A p HA) as Hf.
  destruct (find_path s A [] p) as [q|err]; [|destruct Hf as [_ ->]; by apply refused].
  destruct Hf as (n & Hq & Hn & Hpath & ->). unfold deref at 1. rewrite Hn. cbn [gobind view a_dir a_created].
  rewrite (Repr_show s q n p) by done. cbn [gobind]. match goal with |- context [Remove _ _ _ _ _ _ (Some ?ev)] => set (e := ev) end.
  assert (p <> []) as Hne by (by eapply not_root).
  pose proof (Remove_spec s A l p q n (if recursive then true else dir) recursive e Hs Hq Hne Hn Hpath) as Hrm.
  replace (if recursive then true else dir) with (dir || recursive) in * by (by destruct dir, recursive).
  destruct (IsDir n && negb (dir || recursive)); [rewrite Hrm; by apply refused|].
  destruct (IsDir n && has_children (abs_tree s A) p && negb recursive); [rewrite Hrm; by apply refused|].
  destruct Hrm as (s1 & paths & -> & Hrem & Hpaths). cbn [gobind]. pose proof Hrem as (_ & _ & _ & _ & (_ & _ & Ei & _)). rewrite Ei. u64_simp.
  destruct (removal_published s A l p s1 e paths DeleteSuccess Hs Hne (names_of_ok _) Hrem Hpaths) as (s2 & Hn2 & Habs & Hout);
    [unfold e; by destruct (IsDir n)..|]. cbn zeta in *. rewrite Hn2. cbn [gobind]. eexists _, _, _. split; [done|]. split; [|exact Hout].
  rewrite Habs. do 2 f_equal. unfold e. by destruct (IsDir n).
Qed.

Lemma CompareAndDelete_refines s A l path prevValue prevIndex now : store_ok s A l -> s_CurrentIndex s < two64 - 1 ->
  refines s A l (CompareAndDelete range s path prevValue prevIndex now) (v_step (abs s A) (OpCompareAndDelete path prevValue prevIndex) now).
Proof.
  intros Hs Hmax. pose proof Hs as [HA Ht _ _ _ _ _ Hidx _]. unfold CompareAndDelete, v_step. cbn [abs v_index v_readonly v_tree]. fold (abs s A).
  rewrite Clean_Join. set (p := names_of path) in *. u64_simp.
  assert (internalGet s (render p) = Ok (find_path s A [] p)) as -> by (by apply get_clean). cbn [gobind]. pose proof (find_spec s A p HA) as Hf.
  destruct (find_path s A [] p) as [q|err]; [|destruct Hf as [_ ->]; by apply refused].
  destruct Hf as (n & Hq & Hn & Hpath & ->). unfold deref at 1. rewrite Hn. cbn [gobind]. cbn [view a_dir a_created].
  destruct (IsDir n) eqn:Hd; [by apply refused|].
  pose proof (Compare_spec n prevValue prevIndex) as Hcmp. destruct (Compare n prevValue prevIndex) as [ok which].
  fold (view n). destruct (v_compare (view n) prevValue prevIndex) as [cause|].
  { destruct Hcmp as [-> ->]. cbn [negb]. by apply refused. }
  rewrite Hcmp. cbn [negb]. set (si := s <| s_CurrentIndex := s_CurrentIndex s + 1 |>).
  rewrite (Repr_show si q n p) by done. cbn [gobind]. match goal with |- context [Remove _ _ _ _ _ _ (Some ?ev)] => set (e := ev) end.
  assert (p <> []) as Hne.
  { intros E. rewrite E, (to_root _ _ HA) in Hq. inv Hq. destruct (root_dir s A HA) as (n' & Hn' & Hd'). congruence. }
  destruct (remove_op range Hrange None si A p q (Some e)) as (s1 & paths & Hrm & Hrem & Hpaths);
    [by apply (tree_ext s)|apply Hs|by destruct Ht|done..|].
  assert (Remove range (fuel_of si) si q false false (Some e) = Ok (s1, None)) as ->.
  { unfold fuel_of in *. rewrite (Remove_flags range _ si q n) by done. unfold IsDir in Hd. by destruct (n_Children n). }
  cbn [gobind]. pose proof Hrem as (_ & _ & _ & _ & (_ & _ & Ei & _)).
  destruct (removal_published s A l p (s1 <| s_CurrentIndex := s_CurrentIndex s |>) e paths CompareAndDeleteSuccess Hs Hne (names_of_ok _))
    as (s2 & Hn2 & Habs & Hout); [|done..|].
  { destruct Hrem as (HA1 & Ht1 & Hc1 & Hd1 & (E1 & E2 & E3 & E4 & E5 & E6)).
    split_and!; [by apply (tree_ext s1)|by destruct Ht1|exact Hc1|exact Hd1|by split_and!]. }
  cbn zeta in *. assert (s_notify s1 e = Ok s2) as ->.
  { rewrite <- Hn2. f_equal. destruct s1. cbn in Ei. unfold upd; cbn. by rewrite Ei. }
  cbn [gobind]. eexists _, _, _. split; [done|]. split; [|exact Hout]. by rewrite Habs.
Qed.

(** Every operation returns, does what the specification says, and keeps the
    invariant of the store. *)
Lemma do_op_refines s A l o now : store_ok s A l -> s_CurrentIndex s < two64 - 1 ->
  refines s A l (do_op range s o now) (v_step (abs s A) o now).
Proof.
  intros Hs Hmax. destruct o.
  - by apply Create_refines.
  - by apply Set_refines.
  - by apply Update_refines.
  - by apply CompareAndSwap_refines.
  - by apply Delete_refines.
  - by apply CompareAndDelete_refines.
Qed.
End ops.
