(* ===== verification/V2Run.v ===== *)
(** * Runs of the version 2 store

    A store made by [newStore] satisfies the invariant, and any sequence of
    operations on it returns, in order, what the specification says. *)

From S2P Require Import Prelude Proto OrderedMap GoPath TTLHeap V2Event WatcherHub V2Store V2Tree V2Spec V2Refine V2Ops V2OpsSpec.

(** ** The new store *)

Definition root_store (namespaces : list str) : store :=
  mkStore {[ 0 := newDir [slash] 0 None Permanent ]} 1 0 (newWatchHub 1000) 0 newStats defaultVersion newTtlKeyHeap
    (list_to_set (namespaces ++ [[slash]])).

Lemma root_store_tree ns : tree_ok (root_store ns) {[ [] := 0 ]}.
Proof.
  constructor; cbn.
  - apply lookup_singleton_eq.
  - intros p q [<- <-]%lookup_singleton_Some. eexists. split_and!; [apply lookup_singleton_eq|done|].
    intros name. symmetry. by apply lookup_singleton_None.
  - intros n. rewrite lookup_singleton_eq. by intros [= <-].
  - intros p name c [H _]%lookup_singleton_Some. by destruct p.
  - intros q n [<- _]%lookup_singleton_Some. lia.
  - intros p q n _ [_ <-]%lookup_singleton_Some. done.
Qed.

(** The directories of the namespaces. *)
Definition namespace_tree (names : list str) : vtree :=
  list_to_map (([], mkANode true [] 0 0 0) :: ((fun n => ([n], mkANode true [] 0 0 0)) <$> names)).

Lemma add_namespaces s A names : tree_ok s A -> ttl_ok s A -> s_CurrentIndex s = 0 -> Forall name_ok names -> NoDup names ->
  (forall n, n ∈ names -> A !! [n] = None) ->
  exists s' A', foldM (fun s namespace =>
      let '(s, c) := new_node s (newDir namespace (s_CurrentIndex s) (Some (s_Root s)) Permanent) in
      let! '(s, _) := Add s (s_Root s) c in Ok s) ((fun n => render [n]) <$> names) s = Ok s' /\
    tree_ok s' A' /\ ttl_ok s' A' /\ same_else s s' /\
    abs_tree s' A' = list_to_map ((fun n => ([n], mkANode true [] 0 0 0)) <$> names) ∪ abs_tree s A.
Proof.
  revert s A. induction names as [|n names IH]; intros s A HA Ht Hi Hok Hnd Hnew; cbn [fmap list_fmap foldM].
  { exists s, A. split_and!; [done..|]. cbn. by rewrite (left_id_L ∅ (∪)). }
  apply Forall_cons in Hok as [Hn Hok]. apply NoDup_cons in Hnd as [Hnn Hnd]. destruct (root_dir s A HA) as (nr & Hnr & Hdr).
  set (x := newDir (render [n]) (s_CurrentIndex s) (Some (s_Root s)) Permanent).
  destruct (new_child s A [] (s_Root s) nr n x HA Ht (to_root _ _ HA) Hnr Hdr (Hnew n ltac:(set_solver)) Hn)
    as (s1 & s1' & Hadd & Hpush & HA1 & Ht1 & Hse1 & _ & Habs1); [done|done|by right|]. inv Hpush. cbn [app] in *.
  cbn [new_node] in Hadd |- *. gorun Hadd. pose proof Hse1 as (Er & _ & Ei & _).
  destruct (IH s1' (<[[n] := s_next s]> A)) as (s' & A' & Hf & HA' & Ht' & Hse' & Habs'); [done|done|congruence|done|done| |].
  { intros m Hm. rewrite lookup_insert_ne by (intros [= ->]; done). apply Hnew. set_solver. }
  exists s', A'. split_and!; [exact Hf|done|done| |].
  - destruct Hse1 as (? & ? & ? & ? & ? & ?), Hse' as (? & ? & ? & ? & ? & ?). split_and!; congruence.
  - rewrite Habs', Habs1. cbn. rewrite <- insert_union_l. symmetry. rewrite <- insert_union_r.
    + unfold x, view. cbn. by rewrite Hi.
    + apply not_elem_of_list_to_map_1. rewrite <- list_fmap_compose. intros (m & Hm & Hin)%list_elem_of_fmap. cbn in Hm. by inv Hm.
Qed.

Lemma newStore_spec names : Forall name_ok names -> NoDup names ->
  exists s A, newStore ((fun n => render [n]) <$> names) = Ok s /\ store_ok s A [] /\
    abs s A = mkVStore (namespace_tree names) 0 (list_to_set (((fun n => render [n]) <$> names) ++ [[slash]])).
Proof.
  intros Hok Hnd. set (ns := (fun n => render [n]) <$> names).
  destruct (add_namespaces (root_store ns) {[ [] := 0 ]} names) as (s & A & Hf & HA & Ht & (Er & Ew & Ei & _ & _ & Ero) & Habs).
  - apply root_store_tree.
  - split; [apply newTtlKeyHeap_ok|]. intros q. cbn. split; [by intros ?%not_elem_of_nil|].
    intros ((p & [<- <-]%lookup_singleton_Some) & Hz & _). unfold expire_of in Hz. cbn in Hz. by rewrite lookup_singleton_eq in Hz.
  - done.
  - done.
  - done.
  - intros n _. by apply lookup_singleton_None.
  - exists s, A. split_and!; [exact Hf| |].
    + constructor; rewrite ?Ew, ?Ei, ?Ero; [done|done|apply newWatchHub_ok|by apply newEventHistory_ok|done|done| |done|done].
      apply elem_of_list_to_set, elem_of_app. right. by left.
    + unfold abs. rewrite Ei, Ero. cbn. f_equal. rewrite Habs. unfold namespace_tree. cbn.
      replace (abs_tree (root_store ns) {[ [] := 0 ]}) with ({[ [] := mkANode true [] 0 0 0 ]} : vtree).
      2:{ unfold abs_tree. apply map_eq. intros p. rewrite lookup_omap. destruct (decide (p = [])) as [->|Hne].
          - by rewrite !lookup_singleton_eq.
          - by rewrite !lookup_singleton_ne. }
      rewrite <- insert_empty, <- insert_union_r, (right_id_L ∅ (∪)); [done|].
      apply not_elem_of_list_to_map_1. rewrite <- list_fmap_compose. by intros (m & Hm & _)%list_elem_of_fmap.
Qed.

(** ** Runs *)

Section run.
  Context (range : gmap str Z -> list (str * Z)) (Hrange : forall m, range m ≡ₚ map_to_list m).

Fixpoint do_ops (s : store) (ops : list (vop * Z)) : outcome (store * list (Event + Error)) :=
  match ops with
  | [] => Ok (s, [])
  | (o, now) :: ops' =>
      let! '(s, r) := do_op range s o now in
      let! '(s, rs) := do_ops s ops' in
      Ok (s, r :: rs)
  end.

Fixpoint v_steps (st : vstore) (ops : list (vop * Z)) : vstore * list (Event + Error) :=
  match ops with
  | [] => (st, [])
  | (o, now) :: ops' => let '(st, r) := v_step st o now in let '(st, rs) := v_steps st ops' in (st, r :: rs)
  end.

Lemma v_step_index st o now st' r : v_step st o now = (st', r) ->
  v_index st' = match r with inl _ => v_index st + 1 | inr _ => v_index st end.
Proof.
  assert (forall p dir value replace expire action now st' r, v_create st p dir value replace expire action now = (st', r) ->
    v_index st' = match r with inl _ => v_index st + 1 | inr _ => v_index st end) as Hc.
  { intros * Hv. apply v_create_cases in Hv. destruct r0; [by destruct Hv as (_ & ? & _)|by subst]. }
  destruct o; cbn [v_step].
  - destruct (v_create _ _ _ _ _ _ _ _) as [st1 [e|err]] eqn:Hv; intros [= <- <-]; by apply Hc in Hv.
  - destruct (v_find _ _) as [old|err].
    + destruct (v_create _ _ _ _ _ _ _ _) as [st1 [e|err]] eqn:Hv; intros [= <- <-]; by apply Hc in Hv.
    + destruct (_ || _); [by intros [= <- <-]|].
      destruct (v_create _ _ _ _ _ _ _ _) as [st1 [e|err']] eqn:Hv; intros [= <- <-]; by apply Hc in Hv.
  - case_decide; [by intros [= <- <-]|]. destruct (v_find _ _); [|by intros [= <- <-]]. destruct (_ && _); by intros [= <- <-].
  - case_decide; [by intros [= <- <-]|]. destruct (v_find _ _) as [old|]; [|by intros [= <- <-]]. destruct (a_dir old); [by intros [= <- <-]|].
    destruct (v_compare _ _ _); by intros [= <- <-].
  - case_decide; [by intros [= <- <-]|]. destruct (v_find _ _) as [old|]; [|by intros [= <- <-]]. destruct (_ && _); [by intros [= <- <-]|].
    destruct (_ && _); by intros [= <- <-].
  - destruct (v_find _ _) as [old|]; [|by intros [= <- <-]]. destruct (a_dir old); [by intros [= <- <-]|].
    destruct (v_compare _ _ _); by intros [= <- <-].
Qed.

Lemma do_ops_refines ops s A l : store_ok s A l -> s_CurrentIndex s + zlen ops < two64 ->
  exists s' A' l' rs, do_ops s ops = Ok (s', rs) /\ store_ok s' A' l' /\ v_steps (abs s A) ops = (abs s' A', rs).
Proof.
  revert s A l. induction ops as [|[o now] ops IH]; intros s A l Hs Hmax; cbn [do_ops v_steps].
  { exists s, A, l, []. done. }
  cbn [length] in Hmax. destruct (do_op_refines range Hrange s A l o now Hs ltac:(lia)) as (s1 & A1 & r & -> & Hv & Hout).
  cbn [gobind]. rewrite Hv. pose proof (v_step_index _ _ _ _ _ Hv) as Hi. cbn [abs v_index] in Hi.
  assert (exists l1, store_ok s1 A1 l1) as [l1 Hs1] by (destruct r; cbn in Hout; naive_solver).
  destruct (IH s1 A1 l1 Hs1) as (s' & A' & l' & rs & -> & Hs' & Hv'); [destruct r; lia|].
  cbn [gobind]. rewrite Hv'. exists s', A', l', (r :: rs). done.
Qed.

(** C6. A version 2 store made with some namespaces refines its
    specification: every sequence of operations on it returns, no operation
    panics or runs out of fuel, the events and errors returned are those of
    the specification, and so is the tree of keys and directories at the end,
    which the pointers, maps of children, parents, paths and the heap of
    expiring keys represent. *)
Theorem v2_store_refines names ops : Forall name_ok names -> NoDup names -> zlen ops < two64 ->
  exists s s' A' l rs, newStore ((fun n => render [n]) <$> names) = Ok s /\ do_ops s ops = Ok (s', rs) /\ store_ok s' A' l /\
    v_steps (mkVStore (namespace_tree names) 0 (list_to_set (((fun n => render [n]) <$> names) ++ [[slash]]))) ops = (abs s' A', rs).
Proof.
  intros Hok Hnd Hmax. destruct (newStore_spec names Hok Hnd) as (s & A & Hnew & Hs & Habs).
  destruct (do_ops_refines ops s A [] Hs) as (s' & A' & l & rs & Hrun & Hs' & Hv).
  { apply (f_equal v_index) in Habs. cbn in Habs. lia. }
  exists s, s', A', l, rs. rewrite <- Habs. done.
Qed.
End run.
