(* ===== verification/V2Expire.v ===== *)
(** * Expiry in the version 2 store

    [DeleteExpiredKeys] removes exactly the nodes that are due, and what is
    below them. *)

From S2P Require Import Prelude Proto OrderedMap GoPath TTLHeap V2Event WatcherHub V2Store V2Tree V2Spec V2Refine V2Ops V2OpsSpec.

(** A node is due when it or a directory above it expires no later than the
    cutoff. *)
Definition due_node (cutoff : Z) (x : anode) : bool := negb (a_expire x =? 0) && (a_expire x <=? cutoff).
Definition due (t : vtree) (cutoff : Z) (r : list str) : Prop :=
  Exists (fun i => match t !! take i r with Some x => due_node cutoff x = true | None => False end) (seq 0 (S (length r))).
#[global] Instance due_dec t cutoff r : Decision (due t cutoff r).
Proof.
  apply Exists_dec. intros i. destruct (t !! take i r) as [x|]; [|right; tauto].
  destruct (due_node cutoff x); [by left|by right].
Defined.

Lemma due_spec t cutoff r : due t cutoff r <-> exists q x, q `prefix_of` r /\ t !! q = Some x /\ due_node cutoff x = true.
Proof.
  unfold due. rewrite Exists_exists. split.
  - intros (i & _ & Hi). destruct (t !! take i r) as [x|] eqn:Hx; [|done]. exists (take i r), x. split_and!; [by apply prefix_take|done|done].
  - intros (q & x & [k ->] & Hx & Hd). exists (length q). rewrite take_app_length, Hx. split; [|done]. apply elem_of_seq.
    rewrite length_app. lia.
Qed.

Definition not_due (cutoff : Z) (t : vtree) : vtree := filter (fun y => ~ due t cutoff y.1) t.

(** Removing a node that is due changes nothing of what will be left. *)
Lemma not_due_cut cutoff t p x : t !! p = Some x -> due_node cutoff x = true ->
  not_due cutoff (filter (fun y => ~ p `prefix_of` y.1) t) = not_due cutoff t.
Proof.
  intros Hp Hx. unfold not_due. apply map_eq. intros r. apply option_eq. intros y.
  rewrite !map_lookup_filter_Some. cbn. rewrite !due_spec. split.
  - intros [[Hr Hpr] Hnd]. split; [done|]. intros (q & z & Hq & Hz & Hd). apply Hnd. exists q, z. split_and!; [done| |done].
    apply map_lookup_filter_Some. split; [done|]. cbn. intros Hpq. apply Hpr. by etrans.
  - intros [Hr Hnd]. split_and!; [done| |].
    + intros Hpr. apply Hnd. eauto.
    + intros (q & z & Hq & Hz & Hd). apply map_lookup_filter_Some in Hz as [Hz _]. apply Hnd. eauto.
Qed.

Lemma not_due_none cutoff t : (forall r x, t !! r = Some x -> due_node cutoff x = false) -> not_due cutoff t = t.
Proof.
  intros H. unfold not_due. apply map_filter_id. intros r x _. cbn. rewrite due_spec. intros (q & z & _ & Hz & Hd).
  rewrite (H q z Hz) in Hd. done.
Qed.

Section expire.
  Context (range : gmap str Z -> list (str * Z)) (Hrange : forall m, range m ≡ₚ map_to_list m).

(** A round of [DeleteExpiredKeys]. *)
Lemma expire_key_spec s A l q now : store_ok s A l -> ttl_top (s_ttlKeyHeap s) = Some q -> s_CurrentIndex s < two64 - 1 ->
  exists p n s' e, A !! p = Some q /\ s_nodes s !! q = Some n /\ n_ExpireTime n <> 0 /\ expire_key range s q now = Ok s' /\
    abs s' (cut p A) = v_cut (abs s A) p /\ outcome_ok s A l s' (cut p A) (inl e) /\
    ev_Action e = ActExpire /\ ev_PrevNode e = Some (show p (view n) now) /\
    (h_Len (s_ttlKeyHeap s') < h_Len (s_ttlKeyHeap s))%nat.
Proof.
  intros Hs Htop Hmax. pose proof Hs as [HA [Hheap Hmem] Hh _ _ _ _ Hidx _].
  assert (q ∈ h_array (s_ttlKeyHeap s)) as Hin by (by eapply list_elem_of_lookup_2).
  pose proof Hin as ((p & Hq) & Hz & _)%Hmem. destruct (to_node _ _ HA _ _ Hq) as (n & Hn & Hpath & _).
  assert (expire_of s q = n_ExpireTime n) as Hexp by (unfold expire_of; by rewrite Hn).
  assert (p <> []) as Hne by (eapply path_ne; [done..|congruence]).
  unfold expire_key. unfold deref at 1. rewrite Hn. cbn [gobind]. u64_simp. set (si := s <| s_CurrentIndex := s_CurrentIndex s + 1 |>).
  rewrite (Repr_show range si q n p) by done. cbn [gobind]. rewrite Hpath. match goal with |- context [Remove _ _ _ _ _ _ (Some ?ev)] => set (e := ev) end.
  destruct (heap_Pop_spec (expire_of s) (s_ttlKeyHeap s) q Hheap Htop) as (h & Hpop & Hok & Hperm).
  assert (ttl_pop (expire_of si) (s_ttlKeyHeap si) = Ok h) as Hpop' by (unfold ttl_pop; change (heap_Pop _ _) with (heap_Pop (expire_of s) (s_ttlKeyHeap s)); by rewrite Hpop).
  gorun Hpop'. set (s0 := si <| s_ttlKeyHeap := h |>).
  pose proof (heap_NoDup _ _ Hheap) as Hnd. rewrite <- Hperm in Hnd. apply NoDup_cons in Hnd as [Hqh _].
  assert (ttl_but (Some q) s0 A) as Ht0.
  { split; [done|]. intros c. change (h_array (s_ttlKeyHeap s0)) with (h_array h). change (expire_of s0 c) with (expire_of s c).
    assert (c ∈ h_array h <-> c ∈ h_array (s_ttlKeyHeap s) /\ c <> q) as ->.
    { rewrite <- Hperm, elem_of_cons. split; [|tauto]. intros Hc. split; [by right|]. by intros ->. }
    rewrite Hmem. split; [intros [(Hc & ? & _) ?]|intros (Hc & ? & ?)]; split_and!; try done; congruence. }
  destruct (remove_op range Hrange (Some q) s0 A p q (Some e)) as (s1 & paths & Hrm & Hrem & Hpaths); [by apply (tree_ext s)|done..|].
  gorun Hrm. pose proof Hrem as (HA1 & [Hheap1 Hmem1] & Hc1 & Hd1 & (E1 & E2 & E3 & E4 & E5 & E6)).
  assert (forall c, (exists r, cut p A !! r = Some c) -> c <> q) as Hgone.
  { intros c (r & Hr) ->. apply lookup_cut in Hr as [Hr Hpr]. apply Hpr. by rewrite (tree_inj _ _ HA _ _ _ Hr Hq). }
  destruct (removal_published s A l p (s1 <| s_CurrentIndex := s_CurrentIndex s |>) e paths ExpireCount Hs Hne) as (s2 & Hn2 & Habs & Hout); [|split_and!..|done|done|done|done|].
  - exact (tree_names _ _ HA _ _ Hq).
  - by apply (tree_ext s1).
  - split; [done|]. intros c. cbn. rewrite Hmem1. change (expire_of _ c) with (expire_of s1 c) at 2. split; [naive_solver|].
    intros (Hc & ? & _). split_and!; [done..|]. intros [= ->]. by apply (Hgone c).
  - exact Hc1.
  - exact Hd1.
  - by split_and!.
  - cbn zeta in *. exists p, n, (Inc s2 ExpireCount), e. apply bind_Ok_inv in Hn2 as (wh & Hwh & [= <-]). split_and!; try done; [congruence|..].
    + unfold s_notify. change (s_WatcherHub (Inc s1 ExpireCount)) with (s_WatcherHub s1). cbn in Hwh. rewrite Hwh. cbn [gobind]. f_equal.
      destruct s1. cbn in E3. by subst.
    + unfold h_Len. rewrite <- (Permutation_length Hperm). cbn [length]. apply Nat.lt_succ_r, submseteq_length, NoDup_submseteq; [by eapply heap_NoDup|].
      intros c (Hc & Hcz & Hcq)%Hmem1. assert (c ∈ q :: h_array h) as [->|?]%elem_of_cons; [|by destruct Hcq|done].
      rewrite Hperm. apply Hmem. destruct Hc as (r & [Hr _]%lookup_cut). split_and!; [eauto| |done].
      intros E. apply Hcz. rewrite (same_data_expire _ _ c Hd1). exact E.
Qed.

(** The rounds; a property of the store that an event preserves is preserved. *)
Lemma expire_loop_spec (P : store -> tree -> list Event -> Prop) f s A l cutoff now :
  (forall s A l s' A' e, store_ok s A l -> P s A l -> outcome_ok s A l s' A' (inl e) -> P s' A' (keep_last 1000 (l ++ [e]))) ->
  P s A l -> store_ok s A l -> (h_Len (s_ttlKeyHeap s) < f)%nat ->
  s_CurrentIndex s + Z.of_nat (h_Len (s_ttlKeyHeap s)) < two64 ->
  exists s' A' l', expire_loop range f s cutoff now = Ok s' /\ store_ok s' A' l' /\ P s' A' l' /\
    abs_tree s' A' = not_due cutoff (abs_tree s A) /\ s_readonlySet s' = s_readonlySet s /\
    s_CurrentIndex s <= s_CurrentIndex s' <= s_CurrentIndex s + Z.of_nat (h_Len (s_ttlKeyHeap s)).
Proof.
  intros HP. revert s A l. induction f as [|f IH]; intros s A l HPs Hs Hf Hmax; [lia|]. cbn [expire_loop].
  pose proof Hs as [HA [Hheap Hmem] _ _ _ _ _ Hidx _]. destruct (ttl_top (s_ttlKeyHeap s)) as [q|] eqn:Htop.
  - assert (h_Len (s_ttlKeyHeap s) <> 0)%nat as Hlen by (unfold ttl_top in Htop; unfold h_Len; by destruct (h_array (s_ttlKeyHeap s))).
    destruct (expire_key_spec s A l q now Hs Htop ltac:(lia)) as (p & n & s1 & e & Hq & Hn & Hz & Hrun & Habs & Hout & _ & _ & Hshort).
    unfold deref at 1. rewrite Hn. cbn [gobind]. assert (expire_of s q = n_ExpireTime n) as Hexp by (unfold expire_of; by rewrite Hn).
    destruct (Z.ltb_spec cutoff (n_ExpireTime n)) as [Hlate|Hdue].
    + exists s, A, l. split_and!; [done..| |done|lia|lia]. symmetry. apply not_due_none. intros r x Hr.
      apply abs_inv in Hr as (c & nc & Hc & Hnc & -> & _); [|done]. unfold due_node. cbn.
      destruct (Z.eqb_spec (n_ExpireTime nc) 0) as [Hcz|Hcz]; [done|]. cbn [negb andb]. apply Z.leb_gt.
      assert (expire_of s c = n_ExpireTime nc) as Hce by (unfold expire_of; by rewrite Hnc).
      pose proof (ttl_top_spec (expire_of s) _ q c Hheap Htop) as Hmin. rewrite Hexp, Hce in Hmin.
      assert (c ∈ h_array (s_ttlKeyHeap s)) as Hin by (apply Hmem; split_and!; [eauto|congruence|done]). specialize (Hmin Hin). lia.
    + gorun Hrun. pose proof (HP _ _ _ _ _ _ Hs HPs Hout) as HP1. destruct Hout as [Hs1 _].
      assert (s_CurrentIndex s1 = s_CurrentIndex s + 1 /\ s_readonlySet s1 = s_readonlySet s) as [Ei Er] by (by injection Habs).
      destruct (IH s1 (cut p A) _ HP1 Hs1) as (s' & A' & l' & Hrun' & Hs' & HP' & Habs' & Hro & Hi); [lia..|].
      exists s', A', l'. split_and!; [done..| |congruence|lia|lia]. rewrite Habs'.
      apply (f_equal v_tree) in Habs. cbn in Habs. rewrite Habs. eapply not_due_cut; [by eapply abs_Some|].
      unfold due_node. cbn. apply andb_true_iff. split; [by apply negb_true_iff, Z.eqb_neq|by apply Z.leb_le].
  - exists s, A, l. split_and!; [done..| |done|lia|lia]. symmetry. apply not_due_none. intros r x Hr.
    apply abs_inv in Hr as (c & nc & Hc & Hnc & -> & _); [|done]. unfold due_node. cbn.
    destruct (Z.eqb_spec (n_ExpireTime nc) 0) as [Hcz|Hcz]; [done|]. exfalso. apply ttl_top_None in Htop.
    assert (c ∈ h_array (s_ttlKeyHeap s)) as Hin by (apply Hmem; split_and!; [eauto|unfold expire_of; by rewrite Hnc|done]).
    rewrite Htop in Hin. by apply not_elem_of_nil in Hin.
Qed.

(** C21. [DeleteExpiredKeys] always returns, and the tree it leaves is the tree
    it found without the keys and directories that expire at the cutoff or
    before, and without what is below such directories; the invariant of the
    store holds, and the index grows by one for each of at most as many events
    as there are keys with a time to live. *)
Theorem expired_keys_removed s A l cutoff now : store_ok s A l -> s_CurrentIndex s + Z.of_nat (h_Len (s_ttlKeyHeap s)) < two64 ->
  exists s' A' l', DeleteExpiredKeys range s cutoff now = Ok s' /\ store_ok s' A' l' /\
    abs_tree s' A' = not_due cutoff (abs_tree s A) /\
    s_CurrentIndex s <= s_CurrentIndex s' <= s_CurrentIndex s + Z.of_nat (h_Len (s_ttlKeyHeap s)).
Proof.
  intros Hs Hmax. destruct (expire_loop_spec (fun _ _ _ => True) (S (h_Len (s_ttlKeyHeap s))) s A l cutoff now)
    as (s' & A' & l' & ? & ? & _ & ? & _ & ?); [done|done|done|lia..|].
  exists s', A', l'. done.
Qed.
End expire.
