(* ===== verification/V2Watch.v ===== *)
(** * Watching the version 2 store

    What a watcher gets: an event of the history it asked for, or the first
    event after it was registered.  The search of the history and the
    notification of a waiting watcher do not agree on which events a watch is
    about; [sees] and [concerns] say what each of them gives. *)

From S2P Require Import Prelude Proto OrderedMap GoPath TTLHeap V2Event WatcherHub V2Store V2Tree V2Spec V2Refine V2Ops V2OpsSpec V2Expire.

(** ** Notifications and one watcher *)

(** How a watcher changes when it is told of [e]: events are added at the end
    of its channel, and what it watches stays. *)
Definition told (e : Event) (x x' : watcher) : Prop :=
  w_recursive x' = w_recursive x /\ w_sinceIndex x' = w_sinceIndex x /\ w_startIndex x' = w_startIndex x /\ w_stream x' = w_stream x /\
  exists m, w_eventChan x' = w_eventChan x ++ replicate m e /\ (m = 0%nat -> w_eventChan x = [] -> x' = x) /\
    (m <> 0%nat -> w_sinceIndex x <= Event_Index e).

Lemma told_refl e x : told e x x.
Proof. split_and!; try done. exists 0%nat. split_and!; [by rewrite app_nil_r|done|lia]. Qed.

Lemma told_trans e x y z : told e x y -> told e y z -> told e x z.
Proof.
  intros (E1 & E2 & E3 & E4 & m & Em & Hm & Im) (F1 & F2 & F3 & F4 & k & Ek & Hk & Ik). split_and!; try congruence.
  exists (m + k)%nat. split_and!; [rewrite Ek, Em, <- app_assoc; f_equal; symmetry; apply replicate_add| |].
  2:{ intros Hz. destruct (decide (m = 0%nat)); [rewrite E2 in Ik; apply Ik; lia|by apply Im]. }
  intros Hz Hx. assert (m = 0%nat) as -> by lia. assert (k = 0%nat) as -> by lia. rewrite Hm in * by done. by apply Hk.
Qed.

Lemma deliver_told e P deleted x : told e x (deliver_to e P deleted x).
Proof.
  unfold deliver_to. case_decide; [|apply told_refl]. unfold deliver.
  destruct (interested e P deleted x) eqn:Hi; [|apply told_refl]. unfold interested in Hi. rewrite !andb_true_iff, Z.leb_le in Hi.
  destruct (Z.ltb_spec (zlen (w_eventChan x)) chan_cap) as [Hl|Hl].
  - destruct (w_stream x) eqn:Hs; (split_and!; [done..|]; exists 1%nat; split_and!; [done|lia|tauto]).
  - split_and!; try done. exists 0%nat. split_and!; [by rewrite app_nil_r| |lia]. intros _ Hx. rewrite Hx in Hl. unfold chan_cap in Hl. cbn in Hl. lia.
Qed.

Lemma notified_told e paths deleted h w x : h !! w = Some x -> exists x', notified e paths deleted h !! w = Some x' /\ told e x x'.
Proof.
  revert h x. induction paths as [|P paths IH]; intros h x Hx; cbn.
  { exists x. split; [done|apply told_refl]. }
  destruct (IH (deliver_to e P deleted <$> h) (deliver_to e P deleted x)) as (x' & Hx' & Ht); [by rewrite lookup_fmap, Hx|].
  exists x'. split; [done|]. eapply told_trans; [apply deliver_told|done].
Qed.

(** A watcher that waits at [K] gets the event if it is told of it there. *)
Lemma notified_gets e paths deleted h w x K : h !! w = Some x -> w_eventChan x = [] -> registered x = Some K -> K ∈ paths ->
  interested e K deleted x = true ->
  exists x' m, notified e paths deleted h !! w = Some x' /\ told e x x' /\ w_eventChan x' = e :: replicate m e.
Proof.
  revert h x. induction paths as [|P paths IH]; intros h x Hx Hc Hr Hin Hi; [by apply not_elem_of_nil in Hin|].
  change (notified e (P :: paths) deleted h) with (notified e paths deleted (deliver_to e P deleted <$> h)).
  set (y := deliver_to e P deleted x). assert ((deliver_to e P deleted <$> h) !! w = Some y) as Hy by (by rewrite lookup_fmap, Hx).
  destruct (decide (P = K)) as [->|Hne].
  - destruct (notified_told e paths deleted _ w y Hy) as (x' & Hx' & Ht). assert (w_eventChan y = [e]) as Hyc.
    { unfold y, deliver_to. rewrite decide_True by done. unfold deliver. rewrite Hi, Hc. cbn. by destruct (w_stream x). }
    pose proof Ht as (_ & _ & _ & _ & m & Em & _ & _). rewrite Hyc in Em. exists x', m. split_and!; [done| |done].
    eapply told_trans; [apply deliver_told|exact Ht].
  - assert (y = x) as E by (unfold y, deliver_to; by rewrite decide_False by congruence). rewrite E in Hy.
    apply IH; [done..|set_solver|done].
Qed.

(** Only a watcher that waits at one of the paths gets it. *)
Lemma notified_only e paths deleted h w x x' : h !! w = Some x -> w_eventChan x = [] -> notified e paths deleted h !! w = Some x' ->
  w_eventChan x' <> [] -> exists K, registered x = Some K /\ K ∈ paths /\ interested e K deleted x = true.
Proof.
  revert h. induction paths as [|P paths IH]; intros h Hx Hc Hx' Hne; [cbn in Hx'; congruence|].
  change (notified e (P :: paths) deleted h) with (notified e paths deleted (deliver_to e P deleted <$> h)) in Hx'.
  assert ((registered x = Some P /\ interested e P deleted x = true) \/ deliver_to e P deleted x = x) as [[Hr Hi]|Hsame].
  { unfold deliver_to, deliver. case_decide; [|by right]. destruct (interested e P deleted x); auto. }
  - exists P. split_and!; [done|by left|done].
  - destruct (IH (deliver_to e P deleted <$> h)) as (K & ? & ? & ?); [by rewrite lookup_fmap, Hx; cbn; rewrite Hsame|done..|].
    exists K. split_and!; [done|by right|done].
Qed.

(** ** The paths of a notification *)

Lemma HasPrefix_app a b : HasPrefix (a ++ b) a = true.
Proof. induction a as [|c a IH]; [by destruct b|]. cbn. by rewrite Z.eqb_refl. Qed.

Lemma render_below k r : r <> [] -> exists t, render (k ++ r) = dir_part k ++ t.
Proof.
  induction r as [|b r IH] using rev_ind; [done|]. intros _. rewrite app_assoc, render_snoc.
  destruct (decide (r = [])) as [->|Hr]; [rewrite app_nil_r; eauto|]. destruct (IH Hr) as (t & Ht).
  rewrite (dir_part_eq (k ++ r)). destruct (k ++ r) as [|c q] eqn:E; [by destruct k, r|]. rewrite Ht. exists (t ++ [slash] ++ b).
  by rewrite <- !app_assoc.
Qed.

Lemma dir_part_render k : exists t, dir_part k = render k ++ t.
Proof. rewrite dir_part_eq. destruct k; [by exists []|eauto]. Qed.

Lemma render_prefix k r : exists t, render (k ++ r) = render k ++ t.
Proof.
  destruct (decide (r = [])) as [->|Hr]; [exists []; by rewrite !app_nil_r|]. destruct (render_below k r Hr) as (t & ->).
  destruct (dir_part_render k) as (u & ->). rewrite <- app_assoc. eauto.
Qed.

(** The path of a directory is shorter than the paths below it. *)
Lemma render_longer k r : r <> [] -> Forall name_ok (k ++ r) -> zlen (render k) < zlen (render (k ++ r)).
Proof.
  intros Hr Hn. destruct (exists_last Hr) as (r' & b & ->). rewrite app_assoc in *. apply Forall_app in Hn as [_ (Hb & _)%Forall_singleton].
  rewrite render_snoc, length_app. destruct (render_prefix k r') as (t & Ht). destruct (dir_part_render (k ++ r')) as (u & ->).
  rewrite Ht, !length_app. destruct b; [done|]. cbn [length]. lia.
Qed.

Lemma walk_paths_elem pre r a : render (pre ++ r ++ [a]) ∈ walk_paths pre (r ++ [a]).
Proof.
  revert pre. induction r as [|n r IH]; intros pre; [by left|]. cbn. right. specialize (IH (pre ++ [n])). by rewrite <- app_assoc in IH.
Qed.

Lemma walk_paths_app pre p r : walk_paths pre (p ++ r) = walk_paths pre p ++ walk_paths (pre ++ p) r.
Proof.
  revert pre. induction p as [|n p IH]; intros pre; cbn; [by rewrite app_nil_r|]. by rewrite IH, <- app_assoc.
Qed.

Lemma above_elem k r : render k ∈ above (k ++ r).
Proof.
  unfold above. destruct k as [|n k] using rev_ind; [by left|]. right. rewrite walk_paths_app. apply elem_of_app. left.
  apply (walk_paths_elem [] k n).
Qed.

(** ** The promise to a watcher *)

(** The events that a watch of [k] from [since], made at index [start], never
    passes over:
    - those at [k];
    - for a recursive watch, those below [k] that are not hidden from it;
    - in the history, the removal of a directory above [k].
    A recursive watch may pass over an event at [k] that happened before it was
    made, unless that is the very event it asks for: the search of the
    history looks for [k] with a slash after the first event. *)
Definition sees (k : list str) (recursive : bool) (since start : Z) (e : Event) : Prop :=
  ev_Refresh e = false /\
  ((ne_Key (ev_Node e) = render k /\ (recursive = true -> Event_Index e = since \/ start < Event_Index e)) \/
   (recursive = true /\ exists r, r <> [] /\ Forall name_ok (k ++ r) /\ ne_Key (ev_Node e) = render (k ++ r) /\
      isHidden (render k) (render (k ++ r)) = false) \/
   (Event_Index e <= start /\ gone e = true /\
      exists prev p, ev_PrevNode e = Some prev /\ ne_Dir prev = true /\ ne_Key prev = render p /\ p `prefix_of` k)).

(** The events that a watch of [k] gives: at [k], below it for a recursive
    watch, and removals whose path is the beginning of the watched one. *)
Definition concerns (k : list str) (recursive : bool) (e : Event) : Prop :=
  ne_Key (ev_Node e) = render k \/
  (recursive = true /\ HasPrefix (ne_Key (ev_Node e)) (dir_part k) = true) \/
  HasPrefix (dir_part k) (ne_Key (ev_Node e)) = true \/
  exists prev, ev_PrevNode e = Some prev /\ gone e = true /\ ne_Dir prev = true /\ HasPrefix (dir_part k) (ne_Key prev) = true.

(** The watcher [w] waits and has missed nothing, or an event is in its
    channel that concerns it and is no later than any event it watches for. *)
Definition watching (k : list str) (recursive : bool) (since start : Z) (w : Z) (s : store) (l : list Event) : Prop :=
  exists x, wh_heap (s_WatcherHub s) !! w = Some x /\ w_recursive x = recursive /\ w_sinceIndex x = since /\ w_startIndex x = start /\
    ((w_eventChan x = [] /\ registered x = Some (render k) /\ forall e, e ∈ l -> since <= Event_Index e -> ~ sees k recursive since start e) \/
     exists e1 rest, w_eventChan x = e1 :: rest /\ since <= Event_Index e1 <= s_CurrentIndex s /\ concerns k recursive e1 /\
       forall e, e ∈ l -> since <= Event_Index e -> sees k recursive since start e -> Event_Index e1 <= Event_Index e).

(** Something is in its channel. *)
Definition has_event (w : Z) (s : store) : Prop := exists x e rest, wh_heap (s_WatcherHub s) !! w = Some x /\ w_eventChan x = e :: rest.

Lemma sees_interested k since start p e x : sees k (w_recursive x) since start e -> start < Event_Index e ->
  ne_Key (ev_Node e) = render p -> Forall name_ok p -> Forall name_ok k ->
  w_sinceIndex x <= Event_Index e -> render k ∈ above p /\ interested e (render k) false x = true.
Proof.
  intros [_ Hs] Hst Hp Hpn Hkn Hi. unfold interested. rewrite (proj2 (Z.leb_le _ _) Hi), andb_true_r.
  destruct Hs as [[Hk _]|[(Hrec & r & Hr & Hrn & Hk & Hh)|[? _]]]; [| |lia].
  - assert (p = k) as -> by (apply render_inj; [done..|congruence]). split.
    + rewrite <- (app_nil_r k) at 2. apply above_elem.
    + rewrite bool_decide_true by done. by destruct (w_recursive x).
  - assert (p = k ++ r) as -> by (apply render_inj; [done..|congruence]). split; [apply above_elem|].
    rewrite Hk, Hh, Hrec. cbn. by rewrite orb_true_r.
Qed.

Lemma walk_paths_inv pre p P : P ∈ walk_paths pre p -> exists q r, p = q ++ r /\ P = render (pre ++ q).
Proof.
  revert pre. induction p as [|n p IH]; intros pre; cbn; [by intros ?%not_elem_of_nil|]. intros [->|Hin]%elem_of_cons; [by exists [n], p|].
  destruct (IH _ Hin) as (q & r & -> & ->). exists (n :: q), r. by rewrite <- app_assoc.
Qed.

Lemma above_inv p P : P ∈ above p -> exists q r, p = q ++ r /\ P = render q.
Proof. intros [->|Hin]%elem_of_cons; [by exists [], p|]. by apply (walk_paths_inv [] p). Qed.

(** A watcher of [k] is told of events that concern it: on the way to the
    event's key, or at a path that is removed. *)
Lemma above_concerns k p e x : ne_Key (ev_Node e) = render p -> Forall name_ok p -> Forall name_ok k -> render k ∈ above p ->
  interested e (render k) false x = true -> concerns k (w_recursive x) e.
Proof.
  intros Hp Hpn Hkn (q & r & -> & E)%above_inv Hi. pose proof Hpn as [Hqn _]%Forall_app. apply render_inj in E as <-; [|done..].
  apply andb_true_iff in Hi as [_ [Hi _]%andb_true_iff]. rewrite orb_false_r, orb_true_iff, bool_decide_eq_true in Hi.
  destruct Hi as [Hrec|Hown]; [|by left]. destruct (decide (r = [])) as [->|Hr]; [left; by rewrite Hp, app_nil_r|].
  right; left. split; [done|]. destruct (render_below k r Hr) as (t & Ht). by rewrite Hp, Ht, HasPrefix_app.
Qed.

Lemma removed_concerns k p r e recursive : ne_Key (ev_Node e) = render p -> render k = render (p ++ r) -> concerns k recursive e.
Proof.
  intros Hp Hk. right; right; left. destruct (dir_part_render k) as (t & ->). destruct (render_prefix p r) as (u & Hu).
  by rewrite Hk, Hu, Hp, <- app_assoc, HasPrefix_app.
Qed.

Lemma keep_last_elem n l e : e ∈ keep_last n l -> e ∈ l.
Proof. unfold keep_last. intros (i & Hi)%list_elem_of_lookup. rewrite lookup_drop in Hi. by eapply list_elem_of_lookup_2. Qed.

(** The index goes on by one with an event. *)
Lemma outcome_index s A l s' A' e : outcome_ok s A l s' A' (inl e) -> s_CurrentIndex s' = s_CurrentIndex s + 1 /\ Event_Index e = s_CurrentIndex s + 1.
Proof.
  intros [Hs' (p & paths & _ & _ & _ & Hi & _)]. split; [|done].
  rewrite <- (so_last _ _ _ Hs'), <- Hi. pose proof (so_history _ _ _ Hs') as [_ _ Hl Hidx]. pose proof (so_last _ _ _ Hs') as Hl'.
  assert (keep_last 1000 (l ++ [e]) !! (length (keep_last 1000 (l ++ [e])) - 1)%nat = Some e) as Hlast.
  { unfold keep_last. rewrite lookup_drop, length_drop, length_app. cbn [length]. apply list_lookup_middle. lia. }
  rewrite (Hidx _ _ Hlast), Hl. pose proof (lookup_lt_Some _ _ _ Hlast). destruct (keep_last 1000 (l ++ [e])); [done|]. cbn [length] in *. lia.
Qed.

(** What one event does to one watcher: it is told, and when its channel was
    empty and is not any more, the event concerns it. *)
Lemma outcome_told k w x s A l s' A' e : Forall name_ok k -> outcome_ok s A l s' A' (inl e) -> wh_heap (s_WatcherHub s) !! w = Some x ->
  exists x', wh_heap (s_WatcherHub s') !! w = Some x' /\ told e x x' /\
    (w_eventChan x = [] -> registered x = Some (render k) ->
      (w_eventChan x' <> [] -> concerns k (w_recursive x) e) /\
      (w_eventChan x' = [] -> forall since start, w_sinceIndex x <= Event_Index e -> start < Event_Index e -> ~ sees k (w_recursive x) since start e) /\
      (is_Some (A !! k) -> A' !! k = None -> w_sinceIndex x <= Event_Index e -> w_eventChan x' <> [])).
Proof.
  intros Hk [Hs' (p & paths & Hkey & Hne & Hp & Hi & [Hbelow Hall] & _ & Hheap)] Hx. destruct (ev_Refresh e) eqn:Href.
  { exists x. rewrite Hheap. split_and!; [done|apply told_refl|]. intros Hc _. split_and!; [done| |].
    - intros _ since start _ _ [? _]. congruence.
    - intros HA HA'. by destruct (Hall k HA HA') as (_ & _ & ?). }
  destruct (notified_told e paths true (wh_heap (s_WatcherHub s)) w x Hx) as (x1 & Hx1 & Ht1).
  destruct (notified_told e (above p) false _ w x1 Hx1) as (x2 & Hx2 & Ht2). exists x2. rewrite Hheap.
  split_and!; [done|by eapply told_trans|]. intros Hc Hr. pose proof Ht1 as (Er1 & _ & _ & _ & m1 & Em1 & Hm1 & _).
  pose proof Ht2 as (_ & _ & _ & _ & m2 & Em2 & _). destruct m1 as [|m1].
  2:{ assert (w_eventChan x2 <> []) as Hne2 by (by rewrite Em2, Em1, Hc). split_and!; [|done|done]. intros _.
      destruct (notified_only e paths true _ w x x1 Hx Hc Hx1) as (K & HK & Hin & _); [by rewrite Em1, Hc|]. rewrite Hr in HK. injection HK as <-.
      destruct (Hbelow _ Hin) as (r & Hr'). by apply (removed_concerns k p r). }
  rewrite Hm1 in * by done. split_and!.
  - intros Hne2. destruct (notified_only e (above p) false _ w x x2 Hx1 Hc Hx2 Hne2) as (K & HK & Hin & Hint). rewrite Hr in HK. injection HK as <-.
    by apply (above_concerns k p).
  - intros Hc2 since start Hge Hst Hse. destruct (sees_interested k since start p e x) as [Habove Hint]; [done..|].
    destruct (notified_gets e (above p) false _ w x (render k) Hx1 Hc Hr Habove Hint) as (y & m & Hy & _ & Hcy). congruence.
  - intros HA HA' Hge. destruct (Hall k HA HA') as ([r ->] & Hin & _). exfalso.
    destruct (notified_gets e paths true _ w x (render (p ++ r)) Hx Hc Hr Hin) as (y & m & Hy & _ & Hcy); [|congruence].
    unfold interested. rewrite (proj2 (Z.leb_le _ _) Hge), orb_true_r, andb_true_r, Hkey.
    destruct (decide (r = [])) as [->|Hr0]; [by rewrite app_nil_r, bool_decide_true|].
    unfold isHidden. rewrite (proj2 (Z.ltb_lt _ _) (render_longer p r Hr0 Hk)). apply orb_true_r.
Qed.

(** Every event keeps the promise. *)
Lemma watching_event k recursive since start w s A l s' A' e : Forall name_ok k -> store_ok s A l -> start <= s_CurrentIndex s ->
  watching k recursive since start w s l ->
  outcome_ok s A l s' A' (inl e) -> watching k recursive since start w s' (keep_last 1000 (l ++ [e])).
Proof.
  intros Hk Hs Hst (x & Hx & Erec & Esince & Estart & Hcase) Hout. destruct (outcome_index _ _ _ _ _ _ Hout) as [Ei' Hi].
  destruct (outcome_told k w x s A l s' A' e Hk Hout Hx) as (x' & Hx' & Ht & Hnew).
  pose proof Ht as (F1 & F2 & F3 & F4 & m & Em & Hm & Im). exists x'. split_and!; [done|congruence..|].
  assert (forall e0, e0 ∈ keep_last 1000 (l ++ [e]) -> e0 ∈ l \/ e0 = e) as Hel.
  { intros e0 He0%keep_last_elem. apply elem_of_app in He0 as [?|?%list_elem_of_singleton]; auto. }
  destruct Hcase as [(Hc & Hr & Hnone)|(e1 & rest & Hc & Hb & Hcon & Hall)].
  2:{ right. exists e1, (rest ++ replicate m e). rewrite Em, Hc. split_and!; [done|lia|lia|done|]. intros e0 [He0| ->]%Hel Hge Hse; [by apply Hall|lia]. }
  destruct (Hnew Hc Hr) as (Hcon & Hmiss & _). rewrite Erec, ?Esince in *. destruct m as [|m].
  - assert (x' = x) as -> by (by apply Hm). left. split_and!; [done..|]. intros e0 [He0| ->]%Hel Hge; [by apply Hnone|]. apply Hmiss; [done|done|lia].
  - right. exists e, (replicate m e). rewrite Em, Hc. split_and!; [done|by apply Im|lia|apply Hcon; by rewrite Em, Hc|].
    intros e0 [He0| ->]%Hel Hge Hse; [|lia]. exfalso. by eapply Hnone.
Qed.

(** A watcher is told when its key goes. *)
Lemma removal_event k recursive since start w s A l s' A' e : Forall name_ok k -> since <= s_CurrentIndex s + 1 ->
  watching k recursive since start w s l -> outcome_ok s A l s' A' (inl e) ->
  is_Some (A !! k) \/ has_event w s -> is_Some (A' !! k) \/ has_event w s'.
Proof.
  intros Hk Hsi (x & Hx & _ & Esince & _ & Hcase) Hout Hold. destruct (outcome_index _ _ _ _ _ _ Hout) as [_ Hi].
  destruct (outcome_told k w x s A l s' A' e Hk Hout Hx) as (x' & Hx' & (_ & _ & _ & _ & m & Em & _) & Hnew).
  destruct Hcase as [(Hc & Hr & _)|(e1 & rest & Hc & _)].
  - destruct (A' !! k) eqn:HA'; [by left|]. right. destruct Hold as [HA|(y & e0 & r0 & Hy & Hcy)]; [|congruence].
    destruct (Hnew Hc Hr) as (_ & _ & Hgone). destruct (w_eventChan x') as [|e0 r0] eqn:Hc'; [|by exists x', e0, r0].
    exfalso. apply Hgone; [done|done|lia|done].
  - right. exists x', e1, (rest ++ replicate m e). by rewrite Em, Hc.
Qed.

(** ** The start of a watch *)

(** An event that a search finds wherever it is in the history. *)
Definition sure_hit (exact under : str) (recursive : bool) (e : Event) : Prop :=
  hit exact under recursive e = true /\ (recursive = true -> hit under under recursive e = true).

Lemma search_Some exact under recursive l ev : search exact under recursive l = Some ev ->
  exists i, l !! i = Some ev /\ forall j e, l !! j = Some e ->
    hit exact under recursive e = true -> (j <> 0%nat -> sure_hit exact under recursive e) -> (i <= j)%nat.
Proof.
  revert exact. induction l as [|e0 l IH]; intros exact; cbn [search]; [done|]. destruct (hit exact under recursive e0) eqn:Hh.
  - intros [= ->]. exists 0%nat. split; [done|]. intros. lia.
  - intros Hs. destruct (IH _ Hs) as (i & Hi & Hmin). exists (S i). split; [done|]. intros [|j] e Hj He Hsure; [cbn in Hj; congruence|].
    destruct (Hsure ltac:(done)) as [He1 He2]. assert (i <= j)%nat; [|lia].
    apply (Hmin j e Hj); destruct recursive; cbn [andb]; try done; destruct (negb (ev_Refresh e0)); try done; try (by apply He2); intros _; split; auto.
Qed.

Lemma search_None exact under recursive l j e : search exact under recursive l = None -> l !! j = Some e ->
  hit exact under recursive e = true -> (j <> 0%nat -> sure_hit exact under recursive e) -> False.
Proof.
  revert exact j. induction l as [|e0 l IH]; intros exact j; cbn [search]; [done|].
  destruct (hit exact under recursive e0) eqn:Hh; [done|]. intros Hs Hj He Hsure. destruct j as [|j]; [cbn in Hj; congruence|].
  destruct (Hsure ltac:(done)) as [He1 He2].
  apply (IH _ j Hs Hj); destruct recursive; cbn [andb]; try done; destruct (negb (ev_Refresh e0)); try done; try (by apply He2); intros _; split; auto.
Qed.

Lemma sees_sure k recursive since start e : sees k recursive since start e -> Event_Index e <= start -> Event_Index e <> since ->
  sure_hit (render k) (dir_part k) recursive e.
Proof.
  intros [Hr Hs] Hi Hns. unfold sure_hit, hit. rewrite Hr. cbn [negb andb].
  destruct Hs as [[Hk Hnew]|[(-> & r & Hne & _ & Hk & _)|(_ & Hg & prev & p & Hprev & Hdir & Hpk & r & ->)]].
  - destruct recursive; [destruct (Hnew eq_refl); lia|]. by rewrite bool_decide_true.
  - destruct (render_below k r Hne) as (t & Ht). rewrite Hk, Ht, HasPrefix_app. cbn [andb]. split; [|intros _]; by rewrite orb_true_r.
  - rewrite Hprev, Hg, Hdir, Hpk. cbn [andb]. destruct (render_prefix p r) as (t & Ht). destruct (dir_part_render (p ++ r)) as (u & Hu).
    assert (HasPrefix (render (p ++ r)) (render p) = true) as H1 by (rewrite Ht; apply HasPrefix_app).
    assert (HasPrefix (dir_part (p ++ r)) (render p) = true) as H2 by (rewrite Hu, Ht, <- app_assoc; apply HasPrefix_app).
    destruct recursive; rewrite ?H1, ?H2, !orb_true_r; done.
Qed.

(** The event asked for is searched for with the key itself. *)
Lemma sees_first k recursive since start e : sees k recursive since start e -> Event_Index e <= start ->
  hit (render k) (dir_part k) recursive e = true.
Proof.
  intros Hs Hi. destruct (decide (ne_Key (ev_Node e) = render k)) as [Hk|Hk].
  - unfold hit. destruct Hs as [-> _]. by rewrite bool_decide_true.
  - apply (sees_sure k recursive (Event_Index e - 1) start e); [|done|lia]. destruct Hs as [Hr [[? _]|Hs]]; [done|]. split; [done|]. by right.
Qed.

Lemma HasPrefix_more a b p : HasPrefix a p = true -> HasPrefix (a ++ b) p = true.
Proof.
  revert p. induction a as [|c a IH]; intros [|d p]; cbn; try done; [by destruct b|]. rewrite !andb_true_iff. intros [-> ?]. auto.
Qed.

(** What the search finds concerns the watch. *)
Lemma hit_concerns k exact recursive e : exact = render k \/ (recursive = true /\ exact = dir_part k) ->
  hit exact (dir_part k) recursive e = true -> concerns k recursive e.
Proof.
  intros Hex. unfold hit. rewrite andb_true_iff, !orb_true_iff, andb_true_iff, bool_decide_eq_true. intros [_ [[He|[Hrec Hp]]|Hprev]].
  - destruct Hex as [->|[Hrec ->]]; [by left|]. right; left. split; [done|]. rewrite He, <- (app_nil_r (dir_part k)) at 1. apply HasPrefix_app.
  - by right; left.
  - destruct (ev_PrevNode e) as [prev|] eqn:Ep; [|done]. rewrite !andb_true_iff in Hprev. destruct Hprev as [[Hg Hd] Hpre].
    right; right; right. exists prev. split_and!; [done..|]. destruct recursive; [done|]. destruct Hex as [->|[? _]]; [|done].
    destruct (dir_part_render k) as (t & ->). by apply HasPrefix_more.
Qed.

Lemma search_concerns k exact recursive l ev : exact = render k \/ (recursive = true /\ exact = dir_part k) ->
  search exact (dir_part k) recursive l = Some ev -> concerns k recursive ev.
Proof.
  revert exact. induction l as [|e l IH]; intros exact Hex; cbn [search]; [done|]. destruct (hit exact (dir_part k) recursive e) eqn:Hh.
  - intros [= <-]. by eapply hit_concerns.
  - apply IH. destruct recursive; cbn [andb]; [|done]. destruct (negb (ev_Refresh e)); auto.
Qed.

Lemma concerns_clone k recursive e i : concerns k recursive e -> concerns k recursive ((Event_Clone e) <| ev_EtcdIndex := i |>).
Proof.
  assert (forall n, ne_Key (NodeExtern_Clone n) = ne_Key n /\ ne_Dir (NodeExtern_Clone n) = ne_Dir n) as HC by (by intros []).
  unfold concerns. cbn. rewrite (proj1 (HC _)). intros [?|[?|[?|(prev & Hp & Hg & Hd & Hpre)]]]; [by left|by right; left|by right; right; left|].
  right; right; right. exists (NodeExtern_Clone prev). rewrite Hp, (proj1 (HC _)), (proj2 (HC _)). done.
Qed.

Lemma drop_history eh l k since e : history_ok eh l -> drop (Z.to_nat (since - eh_StartIndex eh)) l !! k = Some e ->
  eh_StartIndex eh <= since -> Event_Index e = since + Z.of_nat k.
Proof. intros [_ _ _ Hidx] Hk Hs. rewrite lookup_drop in Hk. rewrite (Hidx _ _ Hk). lia. Qed.

Lemma history_from eh l since e : history_ok eh l -> e ∈ l -> eh_StartIndex eh <= since -> since <= Event_Index e ->
  exists k, drop (Z.to_nat (since - eh_StartIndex eh)) l !! k = Some e /\ Event_Index e = since + Z.of_nat k.
Proof.
  intros Hh (i & Hi)%list_elem_of_lookup Hs He. pose proof (ho_index _ _ Hh _ _ Hi) as Hx.
  exists (i - Z.to_nat (since - eh_StartIndex eh))%nat. rewrite lookup_drop.
  replace (Z.to_nat (since - eh_StartIndex eh) + (i - Z.to_nat (since - eh_StartIndex eh)))%nat with i by lia. split; [done|lia].
Qed.

Lemma NodeExtern_Clone_index n : ne_ModifiedIndex (NodeExtern_Clone n) = ne_ModifiedIndex n.
Proof. by destruct n. Qed.

(** The heap of watchers gets a new one. *)
Lemma core_new wh w x : hub_core wh -> w = wh_next wh -> registered x = None -> hub_core (wh_set (wh <| wh_next := w + 1 |>) w x).
Proof.
  intros [Hl Hn Hc Hch Hnx] -> Hr. assert (wh_heap wh !! wh_next wh = None) as Hnone.
  { apply eq_None_not_Some. intros [y Hy]. apply Hnx in Hy. lia. }
  constructor; unfold wh_set, upd; cbn; [|done| | |].
  - intros k v. rewrite Hl. destruct (decide (v = wh_next wh)) as [->|Hne]; [|by rewrite lookup_insert_ne].
    rewrite lookup_insert_eq, Hnone. split; intros (y & Hy & Hk); [done|]. congruence.
  - rewrite Hc. unfold waiting. rewrite map_filter_insert_False by (cbn; rewrite Hr; by intros [? ?]). by rewrite delete_id.
  - intros v y. destruct (decide (v = wh_next wh)) as [->|Hne]; [|rewrite lookup_insert_ne by done; apply Hch].
    rewrite lookup_insert_eq. intros [= <-] [? ?]. congruence.
  - intros v y. destruct (decide (v = wh_next wh)) as [->|Hne]; [lia|]. rewrite lookup_insert_ne by done. intros ?%Hnx. lia.
Qed.

(** A new watcher is put at the end of the list of its key. *)
Lemma core_link wh key x : hub_core wh -> registered x = Some key -> w_closed x = false -> w_eventChan x = [] ->
  let l := match wh_watchers wh !! key with Some l => l | None => [] end in
  let wh1 := wh <| wh_next := wh_next wh + 1 |> <| wh_watchers ::= insert key (l ++ [wh_next wh]) |> in
  hub_core ((wh_set wh1 (wh_next wh) x) <| wh_count := wh_count wh + 1 |>).
Proof.
  intros [Hl Hn Hc Hch Hnx] Hr Hcl Hem l wh1. assert (wh_heap wh !! wh_next wh = None) as Hnone.
  { apply eq_None_not_Some. intros [y Hy]. apply Hnx in Hy. lia. }
  assert (forall v, v ∈ l <-> exists l0, wh_watchers wh !! key = Some l0 /\ v ∈ l0) as Hin.
  { intros v. unfold l. destruct (wh_watchers wh !! key) as [l0|]; [naive_solver|]. split; [by intros ?%not_elem_of_nil|naive_solver]. }
  constructor; unfold wh_set, upd; cbn.
  - intros k v. destruct (decide (v = wh_next wh)) as [->|Hne].
    + rewrite lookup_insert_eq. split.
      * intros (l' & Hl' & Hv). destruct (decide (k = key)) as [->|Hk]; [eauto|]. rewrite lookup_insert_ne in Hl' by done.
        destruct (proj1 (Hl k (wh_next wh))) as (y & Hy & _); [eauto|]. congruence.
      * intros (y & [= <-] & Hk). rewrite Hr in Hk. inv Hk. eexists. rewrite lookup_insert_eq. split; [done|]. set_solver.
    + rewrite (lookup_insert_ne (wh_heap wh)) by done. rewrite <- Hl. destruct (decide (k = key)) as [->|Hk]; [|by rewrite lookup_insert_ne].
      rewrite lookup_insert_eq, <- Hin. split; [intros (l' & [= <-] & Hv); set_solver|intros Hv; eexists; split; [done|set_solver]].
  - intros k l' Hk. apply lookup_insert_Some in Hk as [[<- <-]|[_ Hk]]; [|by eapply Hn]. apply NoDup_app. split_and!; [| |apply NoDup_singleton].
    + unfold l. destruct (wh_watchers wh !! key) eqn:E; [by eapply Hn|apply NoDup_nil_2].
    + intros v (l0 & Hl0 & Hv)%Hin ->%list_elem_of_singleton. destruct (proj1 (Hl key (wh_next wh))) as (y & Hy & _); [eauto|]. congruence.
  - rewrite Hc. unfold waiting. rewrite map_filter_insert_True by (cbn; by rewrite Hr). rewrite map_size_insert, map_lookup_filter_None_2; [lia|by left].
  - intros v y. destruct (decide (v = wh_next wh)) as [->|Hne]; [|rewrite lookup_insert_ne by done; apply Hch].
    rewrite lookup_insert_eq. intros [= <-] _. done.
  - intros v y. destruct (decide (v = wh_next wh)) as [->|Hne]; [lia|]. rewrite lookup_insert_ne by done. intros ?%Hnx. lia.
Qed.

Lemma Watch_spec s A l key recursive stream since : store_ok s A l -> s_CurrentIndex s < two64 - 1 -> 0 <= since < two64 ->
  let k := names_of key in
  let from := if since =? 0 then s_CurrentIndex s + 1 else since in
  let first := eh_StartIndex (wh_EventHistory (s_WatcherHub s)) in
  exists s1 r, Watch s key recursive stream since = Ok (s1, r) /\
    match r with
    | inl w => store_ok s1 A l /\ first <= from /\ watching k recursive from (s_CurrentIndex s) w s1 l /\ s_CurrentIndex s1 = s_CurrentIndex s
    | inr err => s1 = s /\ from < first /\ ErrorCode err = EcodeEventIndexCleared /\ err_Index err = s_CurrentIndex s
    end.
Proof.
  intros Hs Hmax Hsince k from first. pose proof Hs as [HA Ht [Hcore Htidy] Hh Hlast Hc Hro Hidx Hcount].
  pose proof (names_of_ok key) as Hk. pose proof Hh as [_ Hstart Hl Hix].
  assert (0 <= first) as H0 by (unfold first; destruct l; [lia|cbn [length] in *; lia]).
  assert (zlen l <= 1000) as Hlen by (rewrite <- Hc; apply Hh).
  unfold Watch. u64_simp. fold from. rewrite Clean_Join. fold k. unfold hub_watch.
  assert (0 < from < two64) as Hf by (unfold from; zcase; lia).
  rewrite (scan_spec _ l k recursive from Hh Hk) by (try done; lia). fold first. cbn [gobind].
  destruct (Z.ltb_spec from first) as [Hcl|Hfrom]; cbn [gobind].
  { eexists s, (inr _). split; [by destruct s|]. by split_and!. }
  set (start := s_CurrentIndex s). assert (forall e, e ∈ l -> Event_Index e <= start) as Hold.
  { intros e (i & Hi)%list_elem_of_lookup. rewrite (Hix _ _ Hi). apply lookup_lt_Some in Hi. unfold start. destruct l; [cbn in Hi; lia|cbn [length] in *; lia]. }
  assert (forall wh1, hub_ok wh1 -> wh_EventHistory wh1 = wh_EventHistory (s_WatcherHub s) -> store_ok (s <| s_WatcherHub := wh1 |>) A l) as Hok1.
  { intros wh1 Hh1 Ee. constructor; cbn; rewrite ?Ee; try done; [by apply (tree_ext s)|by destruct Ht]. }
  destruct (search (render k) (dir_part k) recursive _) as [ev|] eqn:Hsearch; cbn [gobind].
  - destruct (search_Some _ _ _ _ _ Hsearch) as (i & Hi & Hmin). pose proof (drop_history _ _ _ _ _ Hh Hi Hfrom) as Hev. fold first in Hi, Hev.
    eexists _, _. split; [done|]. split_and!; [|done| |done].
    + apply Hok1; [|done]. split; [by apply core_new|done].
    + eexists. cbn. rewrite lookup_insert_eq. split_and!; [done..|]. right.
      pose proof (concerns_clone _ _ _ (s_CurrentIndex s) (search_concerns k _ _ _ _ (or_introl eq_refl) Hsearch)) as Hcon.
      exists ((Event_Clone ev) <| ev_EtcdIndex := s_CurrentIndex s |>), []. split; [done|].
      assert (Event_Index ((Event_Clone ev) <| ev_EtcdIndex := s_CurrentIndex s |>) = Event_Index ev) as -> by (apply NodeExtern_Clone_index).
      split_and!; [lia| |exact Hcon|].
      * apply Hold. rewrite lookup_drop in Hi. by eapply list_elem_of_lookup_2.
      * intros e He Hge Hse. destruct (history_from _ _ from e Hh He Hfrom Hge) as (j & Hj & Hje).
        specialize (Hmin j e Hj (sees_first _ _ _ _ _ Hse (Hold e He))). enough (i <= j)%nat by lia. apply Hmin. intros Hj0.
        apply (sees_sure _ _ _ _ _ Hse (Hold e He)). lia.
  - eexists _, _. split; [done|]. split_and!; [|done| |done].
    + apply Hok1; [|done]. split.
      { exact (core_link (s_WatcherHub s) (render k) (mkWatcher [] false stream recursive from start false (Some (render k))) Hcore eq_refl eq_refl eq_refl). }
      cbn. intros k' l' Hkl.
      apply lookup_insert_Some in Hkl as [[_ <-]|[_ Hkl]]; [by destruct (wh_watchers _ !! _) as [[|]|]|by eapply Htidy].
    + eexists. cbn. rewrite lookup_insert_eq. split_and!; [done..|]. left. split_and!; [done|done|].
      intros e He Hge Hse. destruct (history_from _ _ from e Hh He Hfrom Hge) as (j & Hj & Hje).
      apply (search_None _ _ _ _ j e Hsearch Hj (sees_first _ _ _ _ _ Hse (Hold e He))). intros Hj0.
      apply (sees_sure _ _ _ _ _ Hse (Hold e He)). lia.
Qed.

(** ** Runs *)

Section run.
  Context (range : gmap str Z -> list (str * Z)) (Hrange : forall m, range m ≡ₚ map_to_list m).

(** The steps of the server: the operations and the removal of expired keys,
    as long as the index does not wrap. *)
Inductive store_steps : store -> store -> Prop :=
| steps_nil s : store_steps s s
| steps_op s o now s1 r s2 : s_CurrentIndex s < two64 - 1 -> do_op range s o now = Ok (s1, r) -> store_steps s1 s2 -> store_steps s s2
| steps_expire s cutoff now s1 s2 : s_CurrentIndex s + Z.of_nat (h_Len (s_ttlKeyHeap s)) < two64 ->
    DeleteExpiredKeys range s cutoff now = Ok s1 -> store_steps s1 s2 -> store_steps s s2.

(** The promise and the index it was made at. *)
Definition kept (k : list str) (recursive : bool) (since start : Z) (w : Z) (P : Prop) (s : store) (A : tree) (l : list Event) : Prop :=
  start <= s_CurrentIndex s /\ watching k recursive since start w s l /\
  (P -> since <= s_CurrentIndex s + 1 /\ (is_Some (A !! k) \/ has_event w s)).

Lemma kept_event k recursive since start w P s A l s' A' e : Forall name_ok k -> store_ok s A l -> kept k recursive since start w P s A l ->
  outcome_ok s A l s' A' (inl e) -> kept k recursive since start w P s' A' (keep_last 1000 (l ++ [e])).
Proof.
  intros Hk Hs (Hst & Hw & Hp) Hout. destruct (outcome_index _ _ _ _ _ _ Hout) as [Ei _]. split_and!; [lia|by eapply (watching_event k recursive since start w s A)|].
  intros [Hsi Hold]%Hp. split; [lia|]. by eapply (removal_event k recursive since start w s A).
Qed.

Lemma kept_steps k recursive since start w P s s' A l : Forall name_ok k -> store_steps s s' -> store_ok s A l ->
  kept k recursive since start w P s A l -> exists A' l', store_ok s' A' l' /\ kept k recursive since start w P s' A' l'.
Proof.
  intros Hk Hsteps. revert A l. induction Hsteps as [s|s o now s1 r s2 Hmax Hdo _ IH|s cutoff now s1 s2 Hmax Hdo _ IH]; intros A l Hs Hw; [eauto|..].
  - destruct (do_op_refines range Hrange s A l o now Hs Hmax) as (s1' & A1 & r' & Hdo' & _ & Hout). rewrite Hdo in Hdo'. inv Hdo'.
    destruct r' as [e|err].
    + eapply IH; [apply Hout|]. by eapply (kept_event k recursive since start w P s A l).
    + destruct Hout as (Hs1 & Ewh & Hgrow). eapply IH; [done|].
      assert (s_CurrentIndex s1' = s_CurrentIndex s) as Ei by (rewrite <- (so_last _ _ _ Hs), <- (so_last _ _ _ Hs1), Ewh; done).
      unfold kept, watching, has_event in *. rewrite Ewh, Ei. destruct Hw as (Hst & Hw & Hp). split_and!; [done..|].
      intros [? [?|?]]%Hp; (split; [done|]); [left; by apply Hgrow|by right].
  - destruct (expire_loop_spec range Hrange (kept k recursive since start w P) (S (h_Len (s_ttlKeyHeap s))) s A l cutoff now)
      as (s' & A' & l' & Hdo' & Hs' & Hw' & _); [|done|done|lia|done|].
    { intros. by eapply (kept_event k recursive since start w P s0 A0 l0). }
    unfold DeleteExpiredKeys in Hdo. rewrite Hdo in Hdo'. inv Hdo'. by eapply IH.
Qed.

(** C10. What a watch gives.  [Watch] returns a watcher, unless the history no
    longer reaches back to the index asked for, which it says.  From then on,
    whatever operations and expirations follow, the watcher waits and no event
    that it sees, from that index on, is in the history of the store; or its
    channel holds first an event that concerns it, from that index on, that is
    no later than any of those.  It sees every event at its key, below it when
    it is recursive and the event is not hidden, and the removals of
    directories above it that are in the history when it is made; but a
    recursive watch may miss an event at its own key that happened before it
    was made and is not the one at the index asked for, which the code's
    search does not find ([scan_misses_own_key]).  And when the watched key is
    in the tree, and later is not, by its own removal, the removal of a
    directory above it or an expiration, an event is in the channel, if the
    index asked for had come. *)
Theorem watch_gets_first_event s A l key recursive stream since : store_ok s A l -> s_CurrentIndex s < two64 - 1 -> 0 <= since < two64 ->
  let k := names_of key in
  let from := if since =? 0 then s_CurrentIndex s + 1 else since in
  exists s1 r, Watch s key recursive stream since = Ok (s1, r) /\
    match r with
    | inl w => forall s2, store_steps s1 s2 ->
        exists A2 l2, store_ok s2 A2 l2 /\ watching k recursive from (s_CurrentIndex s) w s2 l2 /\
          forall s3, from <= s_CurrentIndex s2 + 1 -> is_Some (A2 !! k) -> store_steps s2 s3 ->
            exists A3 l3, store_ok s3 A3 l3 /\ (A3 !! k = None -> has_event w s3)
    | inr err => from < eh_StartIndex (wh_EventHistory (s_WatcherHub s)) /\ ErrorCode err = EcodeEventIndexCleared
    end.
Proof.
  intros Hs Hmax Hsince k from. destruct (Watch_spec s A l key recursive stream since Hs Hmax Hsince) as (s1 & r & Hrun & Hr).
  exists s1, r. split; [done|]. destruct r as [w|err]; [|by destruct Hr as (_ & ? & ? & _)].
  destruct Hr as (Hs1 & _ & Hw & Ei). pose proof (names_of_ok key) as Hk. intros s2 Hsteps.
  destruct (kept_steps k recursive from (s_CurrentIndex s) w False s1 s2 A l Hk Hsteps Hs1) as (A2 & l2 & Hs2 & Hst & Hw2 & _); [by split_and!; [lia|..]|].
  exists A2, l2. split_and!; [done..|]. intros s3 Hfrom HA2 Hsteps3.
  destruct (kept_steps k recursive from (s_CurrentIndex s) w True s2 s3 A2 l2 Hk Hsteps3 Hs2) as (A3 & l3 & Hs3 & _ & _ & Hp); [by split_and!; auto|].
  exists A3, l3. split; [done|]. intros HA3. destruct (Hp I) as [_ [[? ?]|?]]; [congruence|done].
Qed.
End run.
