(* ===== verification/V2Get.v ===== *)
(** * Reading the version 2 store

    What [Get] returns for a directory: every node below it, or every child,
    that is not hidden and not below a hidden one, once, and in order of the
    keys when a sorted result was asked for. *)

From S2P Require Import Prelude Proto OrderedMap GoPath TTLHeap V2Event WatcherHub V2Store V2Tree V2Spec V2Refine V2Ops V2OpsSpec.

(** A name that does not start with an underscore. *)
Definition visible (name : str) : Prop := head name <> Some 95.
#[global] Instance visible_dec name : Decision (visible name).
Proof. unfold visible. apply _. Defined.

(** A result without its nodes, and all the nodes of a result. *)
Definition bare (n : NodeExtern) : NodeExtern := n <| ne_Nodes := [] |>.
Fixpoint flat (n : NodeExtern) : list NodeExtern := bare n :: concat (map flat (ne_Nodes n)).

Inductive sorted_tree : NodeExtern -> Prop :=
| sorted_node n : Sorted key_le (ne_Nodes n) -> (forall c, c ∈ ne_Nodes n -> sorted_tree c) -> sorted_tree n.

(** [L] shows the nodes at [p ++ r] for the [r] that satisfy [R], each once. *)
Definition lists (t : vtree) (p : list str) (now : Z) (R : list str -> Prop) (L : list NodeExtern) : Prop :=
  NoDup (ne_Key <$> L) /\
  forall y, y ∈ L <-> exists r x, R r /\ Forall visible r /\ t !! (p ++ r) = Some x /\ y = show (p ++ r) x now.

Lemma lists_perm t p now R L L' : L ≡ₚ L' -> lists t p now R L -> lists t p now R L'.
Proof. intros Hp [Hnd HL]. split; [by rewrite <- Hp|]. intros y. by rewrite <- Hp. Qed.

Lemma lists_iff t p now R R' L : (forall r, Forall visible r -> is_Some (t !! (p ++ r)) -> R r <-> R' r) -> lists t p now R L -> lists t p now R' L.
Proof.
  intros HR [Hnd HL]. split; [done|]. intros y. rewrite HL. split; intros (r & x & Hr & Hv & Hx & ->); exists r, x; split_and!; try done;
    apply HR; eauto.
Qed.

Lemma show_key p x now : ne_Key (show p x now) = render p.
Proof. unfold show, show_at. by destruct (ttl_shown (a_expire x) now). Qed.

Lemma show_bare p x now : bare (show p x now) = show p x now.
Proof. unfold show, show_at. by destruct (ttl_shown (a_expire x) now). Qed.

#[export] Instance key_le_total : Total key_le.
Proof.
  intros a b. unfold key_le. rewrite (bytes_compare_antisym (ne_Key b) (ne_Key a)).
  destruct (bytes_compare (ne_Key b) (ne_Key a)); cbn; [left|right|left]; done.
Qed.

Lemma sort_perm l : sort_nodes l ≡ₚ l.
Proof. apply merge_sort_Permutation. Qed.

Lemma sort_sorted l : Sorted key_le (sort_nodes l).
Proof. apply (Sorted_merge_sort key_le). Qed.

Lemma flat_concat_perm (l l' : list NodeExtern) : l ≡ₚ l' -> concat (map flat l) ≡ₚ concat (map flat l').
Proof.
  induction 1 as [| |x y l|]; cbn -[flat]; [done|by f_equiv| |by etrans]. rewrite !app_assoc. f_equiv. apply (comm (++)).
Qed.

Section get.
  Context (range : gmap str Z -> list (str * Z)) (Hrange : forall m, range m ≡ₚ map_to_list m).
  Context (s : store) (A : tree) (HA : tree_ok s A) (now : Z).

Lemma IsHidden_spec p name c n : A !! (p ++ [name]) = Some c -> s_nodes s !! c = Some n ->
  IsHidden n = Ok (negb (bool_decide (visible name))).
Proof.
  intros Hc Hn. destruct (to_node _ _ HA _ _ Hc) as (n' & Hn' & Hp & _). simplify_eq.
  destruct (to_up _ _ HA _ _ _ Hc) as ((Hne & Hs & _) & _). unfold IsHidden. rewrite Hp, path_Split_render by done.
  destruct name as [|b name]; [done|]. rewrite at_head. cbn [gobind]. f_equal. unfold visible. cbn [head]. destruct (Z.eqb_spec b 95) as [->|Hb].
  - rewrite bool_decide_false; [done|]. by intros H.
  - rewrite bool_decide_true; [done|]. congruence.
Qed.

(** The loop over children, with [show_child] for each that is not hidden. *)
Definition list_children (show_child : Z -> outcome NodeExtern) (acc : list NodeExtern) (y : str * Z) : outcome (list NodeExtern) :=
  let '(_, child) := y in
  let! c := deref s child in
  let! hidden := IsHidden c in
  if hidden : bool then Ok acc else let! r := show_child child in Ok (acc ++ [r]).

(** [L] shows what is at and below the children [l] of [p]. *)
Definition lists_below (p : list str) (R : list str -> Prop) (l : list (str * Z)) (L : list NodeExtern) : Prop :=
  NoDup (ne_Key <$> L) /\
  forall y, y ∈ L <-> exists name c r x, (name, c) ∈ l /\ visible name /\ R r /\ Forall visible r /\
    abs_tree s A !! (p ++ [name] ++ r) = Some x /\ y = show (p ++ [name] ++ r) x now.

Lemma lists_below_cons p R name c l L1 L2 : name ∉ l.*1 -> visible name -> lists (abs_tree s A) (p ++ [name]) now R L1 ->
  lists_below p R l L2 -> lists_below p R ((name, c) :: l) (L1 ++ L2).
Proof.
  intros Hname Hvis [Hnd1 HL1] [Hnd2 HL2]. split.
  - rewrite fmap_app. apply NoDup_app. split_and!; [done| |done].
    intros k (y & -> & Hy)%list_elem_of_fmap (y' & Hk & Hy')%list_elem_of_fmap.
    apply HL1 in Hy as (r & x & _ & _ & Hx & ->). apply HL2 in Hy' as (name' & c' & r' & x' & Hin & _ & _ & _ & Hx' & ->).
    rewrite !show_key in Hk. apply abs_inv in Hx as (q & _ & Hq & _), Hx' as (q' & _ & Hq' & _); [|done..].
    apply render_inj in Hk; [|by eapply tree_names..]. rewrite <- app_assoc in Hk. apply app_inv_head in Hk. injection Hk as -> _.
    apply Hname, list_elem_of_fmap. by exists (name', c').
  - intros y. rewrite elem_of_app, HL1, HL2. split.
    + intros [(r & x & HR & Hr & Hx & ->)|(name' & c' & r & x & Hin & ?)].
      * exists name, c, r, x. rewrite <- app_assoc in *. split_and!; [by left|done..].
      * exists name', c', r, x. split; [by right|done].
    + intros (name' & c' & r & x & [[= -> ->]|Hin]%elem_of_cons & Hv & HR & Hr & Hx & ->).
      * left. exists r, x. by rewrite <- app_assoc.
      * right. exists name', c', r, x. done.
Qed.

Lemma lists_below_hidden p R name c l L : ~ visible name -> lists_below p R l L -> lists_below p R ((name, c) :: l) L.
Proof.
  intros Hv [Hnd HL]. split; [done|]. intros y. rewrite HL. split.
  - intros (name' & c' & r & x & Hin & ?). exists name', c', r, x. split; [by right|done].
  - intros (name' & c' & r & x & [[= -> ->]|Hin]%elem_of_cons & Hv' & ?); [done|]. exists name', c', r, x. done.
Qed.

Lemma list_children_spec (show_child : Z -> outcome NodeExtern) (Q : NodeExtern -> Prop) R p l acc : NoDup l.*1 ->
  (forall name c, (name, c) ∈ l -> A !! (p ++ [name]) = Some c /\
    exists ne, show_child c = Ok ne /\ Q ne /\ lists (abs_tree s A) (p ++ [name]) now R (flat ne)) ->
  exists L, foldM (list_children show_child) l acc = Ok (acc ++ L) /\ Forall Q L /\ lists_below p R l (concat (map flat L)).
Proof.
  revert acc. induction l as [|[name c] l IH]; intros acc Hnd Hl; cbn [foldM].
  { exists []. rewrite app_nil_r. split_and!; [done..|]. split; [apply NoDup_nil_2|]. intros y.
    split; [by intros ?%not_elem_of_nil|]. intros (? & ? & ? & ? & Hin & _). by apply not_elem_of_nil in Hin. }
  apply NoDup_cons in Hnd as [Hname Hnd]. destruct (Hl name c) as (Hc & ne & Hne & HQ & HL); [by left|].
  destruct (to_node _ _ HA _ _ Hc) as (n & Hn & _). cbn [list_children]. unfold deref at 1. rewrite Hn. cbn [gobind].
  rewrite (IsHidden_spec p name c n Hc Hn). cbn [gobind]. case_bool_decide as Hv; cbn [negb gobind].
  - rewrite Hne. cbn [gobind]. destruct (IH (acc ++ [ne]) Hnd) as (L & -> & HQL & HLL); [intros; apply Hl; by right|].
    exists (ne :: L). rewrite <- app_assoc. split_and!; [done|by constructor|]. by apply lists_below_cons.
  - destruct (IH acc Hnd) as (L & -> & HQL & HLL); [intros; apply Hl; by right|]. exists L. split_and!; [done..|]. by apply lists_below_hidden.
Qed.

Lemma lists_children p R q n m L : A !! p = Some q -> s_nodes s !! q = Some n -> n_Children n = Some m ->
  lists_below p R (range m) L ->
  lists (abs_tree s A) p now (fun r => match r with [] => False | _ :: r' => R r' end) L.
Proof.
  intros Hq Hn Hm [Hnd HL]. split; [done|]. intros y. rewrite HL. split.
  - intros (name & c & r & x & _ & Hv & HR & Hr & Hx & ->). exists (name :: r), x. split_and!; [done|by constructor|done|done].
  - intros ([|name r] & x & HR & Hr & Hx & ->); [done|]. apply Forall_cons in Hr as [Hv Hr].
    pose proof Hx as (c' & _ & Hc' & _)%abs_inv; [|done]. rewrite (cons_middle name p r), app_assoc in Hc'.
    destruct (tree_prefix _ _ HA _ _ _ Hc') as [c Hc]. destruct (to_node _ _ HA _ _ Hq) as (n' & Hn' & _ & Hch). simplify_eq.
    rewrite <- Hch in Hc. unfold child_of in Hc. rewrite Hm in Hc.
    exists name, c, r, x. split_and!; try done. by apply range_elem.
Qed.

Lemma range_children p q n m name c : A !! p = Some q -> s_nodes s !! q = Some n -> n_Children n = Some m ->
  (name, c) ∈ range m -> A !! (p ++ [name]) = Some c.
Proof.
  intros Hq Hn Hm Hin%range_elem; [|done]. eapply tree_child; [done..|]. unfold child_of. by rewrite Hm.
Qed.

Definition maybe_sorted (sorted : bool) (L : list NodeExtern) : list NodeExtern := if sorted then sort_nodes L else L.

Lemma maybe_sorted_perm sorted L : maybe_sorted sorted L ≡ₚ L.
Proof. destruct sorted; [apply sort_perm|done]. Qed.

(** A node shown with nodes below it. *)
Definition with_nodes (ne : NodeExtern) (nodes : list NodeExtern) : NodeExtern := ne <| ne_Nodes := nodes |>.

Definition sorted_if (sorted : bool) (ne : NodeExtern) : Prop := sorted = true -> sorted_tree ne.

Lemma sorted_with sorted ne L : Forall (sorted_if sorted) L -> sorted_if sorted (with_nodes ne (maybe_sorted sorted L)).
Proof.
  intros HL ->. constructor; cbn; [apply sort_sorted|]. intros c. rewrite sort_perm. intros Hc.
  rewrite Forall_forall in HL. by apply HL.
Qed.

Lemma lists_self p q n L : A !! p = Some q -> s_nodes s !! q = Some n ->
  lists (abs_tree s A) p now (fun r => match r with [] => False | _ :: _ => True end) L ->
  lists (abs_tree s A) p now (fun _ => True) (show p (view n) now :: L).
Proof.
  intros Hq Hn [Hnd HL]. pose proof (abs_Some _ _ _ _ _ Hq Hn) as Hp. split.
  - rewrite fmap_cons. apply NoDup_cons. split; [|done]. intros (y & Hk & (r & x & HR & _ & Hx & ->)%HL)%list_elem_of_fmap.
    rewrite !show_key in Hk. apply abs_inv in Hx as (c & _ & Hc & _); [|done]. apply render_inj in Hk; [|by eapply tree_names..].
    destruct r; [done|]. apply (f_equal length) in Hk. rewrite length_app in Hk. cbn in Hk. lia.
  - intros y. rewrite elem_of_cons, HL. split.
    + intros [->|(r & x & HR & Hr & Hx & ->)]; [|by exists r, x]. exists [], (view n). rewrite app_nil_r. done.
    + intros (r & x & _ & Hr & Hx & ->). destruct r as [|a r]; [left|right; by exists (a :: r), x].
      rewrite app_nil_r in *. congruence.
Qed.

(** [Repr] of a whole subtree. *)
Lemma Repr_spec f sorted p q : A !! p = Some q -> (forall r c, A !! (p ++ r) = Some c -> (length r < f)%nat) ->
  exists ne, Repr range f s q true sorted now = Ok ne /\ sorted_if sorted ne /\ lists (abs_tree s A) p now (fun _ => True) (flat ne).
Proof.
  revert p q. induction f as [|f IH]; intros p q Hq Hf.
  { specialize (Hf [] q). rewrite app_nil_r in Hf. specialize (Hf Hq). cbn in Hf. lia. }
  destruct (to_node _ _ HA _ _ Hq) as (n & Hn & Hp & Hch). cbn [Repr]. unfold deref at 1. rewrite Hn. cbn [gobind negb].
  rewrite expirationAndTTL_spec, Hp. destruct (ttl_shown (n_ExpireTime n) now) as [ex ttl] eqn:Httl.
  assert (forall b v, IsDir n = b -> (if b then None else Some (n_Value n)) = v ->
    show p (view n) now = mkNodeExtern (render p) v b ex ttl [] (n_ModifiedIndex n) (n_CreatedIndex n)) as Hshow.
  { intros b v <- <-. unfold show, show_at, view. cbn. by rewrite Httl. }
  destruct (n_Children n) as [m|] eqn:Hm.
  - destruct (list_children_spec (fun c => Repr range f s c true sorted now) (sorted_if sorted) (fun _ => True) p (range m) [])
      as (L & Hrun & HQ & HL); [by apply range_NoDup| |].
    { intros name c Hin. pose proof (range_children p q n m name c Hq Hn Hm Hin) as Hc. split; [done|]. apply IH; [done|].
      intros r d Hr. rewrite <- app_assoc in Hr. specialize (Hf _ _ Hr). cbn in Hf. lia. }
    gorun Hrun. cbn [app]. eexists; split; [done|]. split.
    + exact (sorted_with sorted (mkNodeExtern (render p) None true ex ttl [] (n_ModifiedIndex n) (n_CreatedIndex n)) L HQ).
    + cbn [flat ne_Nodes]. unfold bare, upd; cbn. rewrite <- (Hshow true None) by (by unfold IsDir; rewrite ?Hm).
      apply (lists_self p q n _ Hq Hn). eapply lists_perm; [symmetry; apply flat_concat_perm, maybe_sorted_perm|].
      by eapply (lists_children p (fun _ => True)).
  - eexists; split; [done|]. split; [intros _; constructor; [constructor|cbn; by intros c ?%not_elem_of_nil]|]. cbn [flat ne_Nodes map concat].
    unfold bare, upd; cbn. rewrite <- (Hshow false (Some (n_Value n))) by (by unfold IsDir; rewrite ?Hm).
    apply (lists_self p q n _ Hq Hn). split; [apply NoDup_nil_2|]. intros y. split; [by intros ?%not_elem_of_nil|].
    intros ([|a r] & x & HR & _ & Hx & _); [done|]. apply abs_inv in Hx as (c & _ & Hc & _); [|done].
    assert (IsDir n = false) as Hfile by (unfold IsDir; by rewrite Hm). by pose proof (file_leaf s A p q n _ c HA Hq Hn Hfile Hc).
Qed.

(** [Repr] of one node. *)
Lemma Repr_one f sorted p q : A !! p = Some q ->
  exists ne, Repr range (S f) s q false sorted now = Ok ne /\ sorted_if sorted ne /\ lists (abs_tree s A) p now (fun r => r = []) (flat ne).
Proof.
  intros Hq. destruct (to_node _ _ HA _ _ Hq) as (n & Hn & Hp & _). rewrite (Repr_flat range f s q n) by done. rewrite Hp. fold (show p (view n) now).
  exists (show p (view n) now). split; [done|].
  assert (ne_Nodes (show p (view n) now) = []) as Hnil by (unfold show, show_at; by destruct (ttl_shown _ _)).
  assert (flat (show p (view n) now) = [show p (view n) now]) as ->.
  { transitivity (bare (show p (view n) now) :: concat (map flat (ne_Nodes (show p (view n) now)))); [by destruct (show p (view n) now)|].
    by rewrite Hnil, show_bare. }
  split; [intros _; constructor; rewrite Hnil; [constructor|by intros c ?%not_elem_of_nil]|].
  split; [apply NoDup_singleton|]. intros y. rewrite list_elem_of_singleton. split.
  - intros ->. exists [], (view n). rewrite app_nil_r. split_and!; [done..|by eapply abs_Some|done].
  - intros (r & x & -> & _ & Hx & ->). rewrite app_nil_r in *. rewrite (abs_Some _ _ _ _ _ Hq Hn) in Hx. by inv Hx.
Qed.

(** What is listed below a node: everything, or the children alone. *)
Definition listed (recursive : bool) (r : list str) : Prop := if recursive then r <> [] else length r = 1%nat.

Lemma loadInternalNode_spec p q n recursive sorted : A !! p = Some q -> s_nodes s !! q = Some n ->
  exists nodes, loadInternalNode range s (mkNodeExtern (render p) None false None 0 [] (n_ModifiedIndex n) (n_CreatedIndex n)) q recursive sorted now = Ok (with_nodes (show p (view n) now) nodes) /\
    (sorted = true -> Sorted key_le nodes /\ Forall sorted_tree nodes) /\
    lists (abs_tree s A) p now (listed recursive) (concat (map flat nodes)).
Proof.
  intros Hq Hn. unfold loadInternalNode. unfold deref at 1. rewrite Hn. cbn [gobind]. rewrite expirationAndTTL_spec.
  unfold show, show_at. cbn [view a_expire a_dir a_value a_modified a_created].
  destruct (ttl_shown (n_ExpireTime n) now) as [ex ttl] eqn:Httl.
  destruct (n_Children n) as [m|] eqn:Hm.
  - destruct (list_children_spec (fun c => Repr range (fuel_of s) s c recursive sorted now) (sorted_if sorted)
      (if recursive then fun _ => True else fun r => r = []) p (range m) []) as (L & Hrun & HQ & HL); [by apply range_NoDup| |].
    { intros name c Hin. pose proof (range_children p q n m name c Hq Hn Hm Hin) as Hc. split; [done|].
      destruct recursive; [apply Repr_spec; [done|]|by apply Repr_one].
      intros r d Hr. pose proof (tree_depth _ _ HA _ _ Hr) as Hd. rewrite length_app in Hd. unfold fuel_of. lia. }
    assert (lists (abs_tree s A) p now (listed recursive) (concat (map flat (maybe_sorted sorted L)))) as Hlist.
    { eapply lists_perm; [symmetry; apply flat_concat_perm, maybe_sorted_perm|].
      eapply lists_iff; [|by eapply lists_children]. intros [|a [|b r]] _ _; destruct recursive; cbn; split; try done; try lia. }
    exists (maybe_sorted sorted L). split_and!; [|intros ->; split|done].
    + match goal with |- gobind (gobind ?x _) _ = _ => change x with (foldM (list_children (fun c => Repr range (fuel_of s) s c recursive sorted now)) (range m) []) end.
      rewrite Hrun. cbn [gobind app]. unfold IsDir. by rewrite Hm.
    + apply sort_sorted.
    + cbn. rewrite sort_perm. eapply Forall_impl; [exact HQ|]. intros x Hx. by apply Hx.
  - cbn [gobind]. unfold Read, IsDir. rewrite Hm. exists []. split_and!; [done|intros _; by split|].
    split; [apply NoDup_nil_2|]. intros y. split; [by intros ?%not_elem_of_nil|]. intros (r & x & HR & _ & Hx & _).
    apply abs_inv in Hx as (c & _ & Hc & _); [|done].
    assert (IsDir n = false) as Hfile by (unfold IsDir; by rewrite Hm). pose proof (file_leaf s A p q n r c HA Hq Hn Hfile Hc) as ->.
    by destruct recursive.
Qed.
End get.

(** [Get] on both branches. *)
Lemma get_found range s A l path recursive sorted now : (forall m, range m ≡ₚ map_to_list m) -> store_ok s A l ->
  let p := names_of path in
  match v_find (abs s A) p with
  | inr err => Get range s path recursive sorted now = Ok (Inc s GetFail, inr err)
  | inl x => exists nodes,
      Get range s path recursive sorted now =
        Ok (Inc s GetSuccess, inl (mkEvent ActGet (with_nodes (show p x now) nodes) None (s_CurrentIndex s) false)) /\
      (sorted = true -> Sorted key_le nodes /\ Forall sorted_tree nodes) /\
      lists (v_tree (abs s A)) p now (listed recursive) (concat (map flat nodes))
  end.
Proof.
  intros Hrange Hs p. pose proof (so_tree _ _ _ Hs) as HA. unfold Get. rewrite Clean_Join. fold p.
  assert (internalGet s (render p) = Ok (find_path s A [] p)) as -> by (by apply get_clean). cbn [gobind].
  pose proof (find_spec s A p HA) as Hf. destruct (find_path s A [] p) as [q|err]; [|by destruct Hf as [_ ->]].
  destruct Hf as (n & Hq & Hn & Hpath & ->). unfold deref at 1. rewrite Hn. cbn [gobind].
  destruct (loadInternalNode_spec range Hrange s A HA now p q n recursive sorted Hq Hn) as (nodes & Hrun & Hsorted & Hlists).
  gorun Hrun. exists nodes. done.
Qed.

Lemma get_ok range : (forall m, range m ≡ₚ map_to_list m) -> forall s A l path recursive sorted now, store_ok s A l ->
  exists f r, Get range s path recursive sorted now = Ok (Inc s f, r).
Proof.
  intros Hrange s A l path recursive sorted now Hs. pose proof (get_found range s A l path recursive sorted now Hrange Hs) as H. cbn zeta in H.
  destruct (v_find (abs s A) (names_of path)) as [x|err]; [destruct H as (nodes & H & _)|]; eauto.
Qed.

(** C22. [Get] returns, counts itself, and changes nothing else.  It fails as
    the specification's lookup does.  Otherwise it returns the node at the
    path, and, for a directory, exactly the nodes below it (only the children
    if the request is not recursive) none of whose names below that directory
    is hidden, each once; sorted requests are sorted at every level. *)
Theorem Get_spec range s A l path recursive sorted now : (forall m, range m ≡ₚ map_to_list m) -> store_ok s A l ->
  let p := names_of path in
  match v_find (abs s A) p with
  | inr err => Get range s path recursive sorted now = Ok (Inc s GetFail, inr err)
  | inl x => exists nodes,
      Get range s path recursive sorted now =
        Ok (Inc s GetSuccess, inl (mkEvent ActGet (with_nodes (show p x now) nodes) None (s_CurrentIndex s) false)) /\
      (sorted = true -> Sorted key_le nodes /\ Forall sorted_tree nodes) /\
      lists (v_tree (abs s A)) p now (listed recursive) (concat (map flat nodes))
  end.
Proof. intros Hrange Hs. by apply (get_found range s A l). Qed.
