(* ===== verification/V2Reach.v ===== *)
(** * Every state of the version 2 store is well formed

    All the operations on the store and on its watchers, in any order: the
    pointers, the heap of expiring keys, the history and the lists of watchers
    agree in every state that is reached, and nothing panics but the removal
    of a watcher that was removed before. *)

From S2P Require Import Prelude Proto OrderedMap GoPath TTLHeap V2Event WatcherHub V2Store V2Tree V2Spec V2Refine V2Ops V2OpsSpec V2Run V2Expire V2Watch V2Get.

(** ** The client's side of a watcher *)

Lemma wh_set_twice wh w x y : wh_set (wh_set wh w x) w y = wh_set wh w y.
Proof. unfold wh_set, upd; cbn. by rewrite insert_insert_eq. Qed.

Lemma watcher_recv_spec wh w x : hub_ok wh -> wh_heap wh !! w = Some x ->
  exists wh' r, watcher_recv wh w = Ok (wh', r) /\ hub_ok wh' /\ hub_rest wh wh' /\ r = head (w_eventChan x) /\
    wh_heap wh' !! w = Some (x <| w_eventChan := tail (w_eventChan x) |>).
Proof.
  intros [Hcore Htidy] Hx. unfold watcher_recv, wh_deref. rewrite Hx. cbn [gobind].
  destruct (w_eventChan x) as [|e es] eqn:Hc.
  - exists wh, None. split_and!; [done..|]. rewrite Hx. f_equal. destruct x; cbn in *. by subst.
  - exists (wh_set wh w (x <| w_eventChan := es |>)), (Some e). split_and!; [done| |done|done|].
    + split; [|done]. apply (core_set wh w x); [done..|]. intros Hr. destruct (hc_chan _ Hcore w x Hx Hr) as [Hcl Hns].
      split; [done|]. intros Hst. specialize (Hns Hst). congruence.
    + unfold wh_set, upd; cbn. by rewrite lookup_insert_eq.
Qed.

Lemma watcher_Remove_spec wh w x : hub_ok wh -> wh_heap wh !! w = Some x -> w_closed x = false ->
  exists wh' x', watcher_Remove wh w = Ok wh' /\ hub_ok wh' /\ hub_rest wh wh' /\
    wh_heap wh' !! w = Some x' /\ w_closed x' = true /\ registered x' = None.
Proof.
  intros [Hcore Htidy] Hx Hcl. unfold watcher_Remove. assert (wh_deref wh w = Ok x) as -> by (unfold wh_deref; by rewrite Hx).
  cbn [gobind]. rewrite Hcl. set (xc := x <| w_closed := true |>). set (wh1 := wh_set wh w xc).
  assert (wh_deref wh1 w = Ok xc) as Hd1 by (unfold wh_deref, wh1, wh_set, upd; cbn; by rewrite lookup_insert_eq).
  assert (registered x = None -> hub_ok wh1) as Hout.
  { intros Hr. split; [|done]. apply (core_set wh w x); [done..|]. rewrite Hr. by intros [? ?]. }
  assert (wh_heap wh1 !! w = Some xc) as Hx1 by (unfold wh1, wh_set, upd; cbn; by rewrite lookup_insert_eq).
  destruct (w_remove x) as [key|] eqn:Hrm.
  2:{ exists wh1, xc. assert (registered x = None) as Hr by (unfold registered; rewrite Hrm; by destruct (w_removed x)). split_and!; auto; done. }
  unfold watcher_remove. rewrite Hd1. cbn [gobind]. change (w_remove xc) with (w_remove x). change (w_removed xc) with (w_removed x). rewrite Hrm.
  destruct (w_removed x) eqn:Hrd.
  { exists wh1, xc. assert (registered x = None) as Hr by (unfold registered; by rewrite Hrd). split_and!; auto; done. }
  eexists _, (xc <| w_removed := true |>). split; [done|]. unfold wh1. rewrite wh_set_twice.
  assert (registered x = Some key) as Hr by (unfold registered; by rewrite Hrd).
  pose proof (core_unlink wh w x (xc <| w_removed := true |>) key Hcore Hx Hr eq_refl) as Hcore'.
  set (wh2 := upd wh_count _ _) in Hcore'. split_and!.
  - split; [by apply core_drop_empty|]. apply drop_empty_tidy. intros k l Hne Hl. unfold wh2, wh_unlink, wh_set, upd in Hl; cbn in Hl.
    rewrite lookup_alter_ne in Hl by done. by eapply Htidy.
  - destruct (drop_empty_at wh2 key) as (E1 & E2 & _). by split.
  - change (wh_heap (wh_drop_empty wh2 key) !! w = Some (xc <| w_removed := true |>)). rewrite drop_empty_heap.
    unfold wh2, wh_unlink, wh_set, upd; cbn. by rewrite lookup_insert_eq.
  - done.
  - done.
Qed.

Lemma store_hub s A l wh' : store_ok s A l -> hub_ok wh' -> wh_EventHistory wh' = wh_EventHistory (s_WatcherHub s) -> store_ok (s <| s_WatcherHub := wh' |>) A l.
Proof.
  intros [HA [] Hh Hl Hlast Hc Hro Hi Hn] Hh' E. constructor; cbn; rewrite ?E; try done. by apply (tree_ext s).
Qed.

(** ** All the steps *)

Inductive vcall :=
| CallOp (o : vop) (now : Z)
| CallGet (path : str) (recursive sorted : bool) (now : Z)
| CallWatch (key : str) (recursive stream : bool) (since : Z)
| CallExpire (cutoff now : Z)
| CallRecv (w : Z)
| CallRemove (w : Z).

Section reach.
  Context (range : gmap str Z -> list (str * Z)) (Hrange : forall m, range m ≡ₚ map_to_list m).

(** The store after a call. *)
Definition do_vcall (s : store) (c : vcall) : outcome store :=
  match c with
  | CallOp o now => let! '(s, _) := do_op range s o now in Ok s
  | CallGet path recursive sorted now => let! '(s, _) := Get range s path recursive sorted now in Ok s
  | CallWatch key recursive stream since => let! '(s, _) := Watch s key recursive stream since in Ok s
  | CallExpire cutoff now => DeleteExpiredKeys range s cutoff now
  | CallRecv w => let! '(wh, _) := watcher_recv (s_WatcherHub s) w in Ok (s <| s_WatcherHub := wh |>)
  | CallRemove w => let! wh := watcher_Remove (s_WatcherHub s) w in Ok (s <| s_WatcherHub := wh |>)
  end.

(** A call that a client can make: on a watcher it was given and has not
    removed, with an index of 64 bits, before the index of the store wraps. *)
Definition call_ok (s : store) (c : vcall) : Prop :=
  s_CurrentIndex s + Z.of_nat (h_Len (s_ttlKeyHeap s)) < two64 - 1 /\
  match c with
  | CallWatch _ _ _ since => 0 <= since < two64
  | CallRecv w => is_Some (wh_heap (s_WatcherHub s) !! w)
  | CallRemove w => exists x, wh_heap (s_WatcherHub s) !! w = Some x /\ w_closed x = false
  | _ => True
  end.

Lemma do_vcall_ok s A l c : store_ok s A l -> call_ok s c -> exists s' A' l', do_vcall s c = Ok s' /\ store_ok s' A' l'.
Proof.
  intros Hs [Hmax Hc]. destruct c as [o now|path recursive sorted now|key recursive stream since|cutoff now|w|w]; cbn [do_vcall].
  - destruct (do_op_refines range Hrange s A l o now Hs ltac:(lia)) as (s' & A' & r & -> & _ & Hout). cbn [gobind].
    destruct r; [destruct Hout as [? _]|destruct Hout as [? _]]; eauto.
  - pose proof (get_ok range Hrange s A l path recursive sorted now Hs) as (f & r & ->). cbn [gobind].
    exists (Inc s f), A, l. split; [done|by apply store_Inc].
  - destruct (Watch_spec s A l key recursive stream since Hs ltac:(lia) Hc) as (s' & r & -> & Hr). cbn [gobind].
    destruct r as [w|err]; [destruct Hr as (? & _); eauto|destruct Hr as (-> & _); eauto].
  - destruct (expire_loop_spec range Hrange (fun _ _ _ => True) (S (h_Len (s_ttlKeyHeap s))) s A l cutoff now)
      as (s' & A' & l' & ? & ? & _); [done|done|done|lia..|]. eauto.
  - destruct Hc as [x Hx]. destruct (watcher_recv_spec _ w x (so_hub _ _ _ Hs) Hx) as (wh' & r & -> & Hh & [E _] & _). cbn [gobind].
    eexists _, A, l. split; [done|]. by apply store_hub.
  - destruct Hc as (x & Hx & Hcl). destruct (watcher_Remove_spec _ w x (so_hub _ _ _ Hs) Hx Hcl) as (wh' & x' & -> & Hh & [E _] & _). cbn [gobind].
    eexists _, A, l. split; [done|]. by apply store_hub.
Qed.

Inductive reached (names : list str) : store -> Prop :=
| reached_new s : newStore ((fun n => render [n]) <$> names) = Ok s -> reached names s
| reached_call s c s' : reached names s -> call_ok s c -> do_vcall s c = Ok s' -> reached names s'.

(** C12. Every state of a version 2 store is well formed, whatever calls were
    made on it and on its watchers: there is a tree of paths that the nodes'
    paths, parents and maps of children agree with, the heap has the expiring
    nodes of that tree in heap order, the history has consecutive events up to
    the current index, the lists of watchers agree with the watchers and their
    number; and each further call returns. *)
Theorem v2_store_well_formed names s : Forall name_ok names -> NoDup names -> reached names s ->
  (exists A l, store_ok s A l) /\ forall c, call_ok s c -> is_Ok (do_vcall s c).
Proof.
  intros Hok Hnd Hr. assert (exists A l, store_ok s A l) as (A & l & Hs).
  { induction Hr as [s Hnew|s c s' _ (A & l & Hs) Hc Hdo].
    - destruct (newStore_spec names Hok Hnd) as (s' & A & Hnew' & Hs & _). rewrite Hnew in Hnew'. inv Hnew'. eauto.
    - destruct (do_vcall_ok s A l c Hs Hc) as (s1 & A1 & l1 & Hdo1 & Hs1). rewrite Hdo in Hdo1. inv Hdo1. eauto. }
  split; [eauto|]. intros c Hc. destruct (do_vcall_ok s A l c Hs Hc) as (s1 & _ & _ & Hdo & _). by exists s1.
Qed.
End reach.
