(* ===== verification/V2Clone.v ===== *)
(** * Saving and recovering the version 2 store

    A saved state is made from a clone of the store, and recovering decodes
    such a state and then sets the parents and the heap of expiring keys again.
    The clone shows what the original shows and shares no node with it, and
    the store that is recovered from anything that shows the same as a clone is
    well formed and equal, for its clients, to the store that was cloned.
    What is saved and how it is decoded is in [V2Json]. *)

From S2P Require Import Prelude Proto OrderedMap GoPath TTLHeap V2Event WatcherHub V2Store V2Tree V2Spec V2Refine V2Ops V2OpsSpec V2Run.

(** ** Recovering *)

Definition forget (n : node) : node := n <| n_Parent := None |>.

(** The nodes but for their parents. *)
Definition same_but_parents (s s' : store) : Prop := forall c, forget <$> s_nodes s' !! c = forget <$> s_nodes s !! c.

#[export] Instance same_but_parents_refl : Reflexive same_but_parents.
Proof. by intros s c. Qed.
#[export] Instance same_but_parents_trans : Transitive same_but_parents.
Proof. intros a b c H1 H2 q. by rewrite (H2 q), (H1 q). Qed.

Lemma same_but_parents_lookup s s' c n : same_but_parents s s' -> s_nodes s !! c = Some n ->
  exists n', s_nodes s' !! c = Some n' /\ forget n' = forget n.
Proof. intros Hs Hn. specialize (Hs c). rewrite Hn in Hs. destruct (s_nodes s' !! c) as [n'|]; [|done]. exists n'. split; [done|]. by apply (inj Some). Qed.

Lemma forget_fields n n' : forget n' = forget n -> n_Path n' = n_Path n /\ n_Children n' = n_Children n /\ n_ExpireTime n' = n_ExpireTime n /\ view n' = view n.
Proof. destruct n, n'. unfold forget, upd; cbn. intros [= -> -> -> -> -> ->]. done. Qed.

Lemma same_but_parents_expire s s' c : same_but_parents s s' -> expire_of s' c = expire_of s c.
Proof.
  intros Hs. specialize (Hs c). unfold expire_of. destruct (s_nodes s !! c) as [n|], (s_nodes s' !! c) as [n'|]; try done.
  apply (inj Some) in Hs. by apply forget_fields in Hs as (_ & _ & ? & _).
Qed.

Lemma down_forget s s' A : down_ok s A -> same_but_parents s s' -> s_Root s' = s_Root s -> down_ok s' A.
Proof.
  intros [Hr Hn Hu He] Hs Er. constructor; [by rewrite Er| |done|].
  2:{ intros p q n' Hq Hn' Hd. destruct (Hn p q Hq) as (n & Hnq & _). destruct (same_but_parents_lookup s s' q n Hs Hnq) as (n'' & Hn'' & E).
      rewrite Hn' in Hn''. apply (inj Some) in Hn'' as <-. apply forget_fields in E as (_ & E2 & _ & E4). injection E4 as _ E4 _ _ _. rewrite E4. apply (He p q n); [done..|congruence]. }
  intros p q Hq. destruct (Hn p q Hq) as (n & Hnq & Hp & Hch).
  destruct (same_but_parents_lookup s s' q n Hs Hnq) as (n' & Hn' & E). apply forget_fields in E as (E1 & E2 & _).
  exists n'. split_and!; [done|congruence|]. intros name. rewrite <- Hch. unfold child_of. by rewrite E2.
Qed.

Lemma abs_forget s s' A : same_but_parents s s' -> abs_tree s' A = abs_tree s A.
Proof.
  intros Hs. apply map_eq. intros p. unfold abs_tree. rewrite !lookup_omap. destruct (A !! p) as [q|]; cbn; [|done].
  specialize (Hs q). destruct (s_nodes s !! q) as [n|], (s_nodes s' !! q) as [n'|]; try done. apply (inj Some) in Hs.
  apply forget_fields in Hs as (_ & _ & _ & E). cbn. by f_equal.
Qed.

(** The parents of the nodes at the paths in [U] are set, the nodes at the
    paths in [V] are put in the heap if they expire, and nothing else changes. *)
Record recovered (A : tree) (U V : list str -> Prop) (s s' : store) : Prop := {
  rc_same : same_but_parents s s';
  rc_set : forall p name c n, A !! (p ++ [name]) = Some c -> U (p ++ [name]) -> s_nodes s' !! c = Some n -> n_Parent n = A !! p;
  rc_keep : forall p c, A !! p = Some c -> ~ U p -> s_nodes s' !! c = s_nodes s !! c;
  rc_heap : heap_ok (expire_of s') (s_ttlKeyHeap s');
  rc_mem : forall c, c ∈ h_array (s_ttlKeyHeap s') <-> c ∈ h_array (s_ttlKeyHeap s) \/ exists p, V p /\ A !! p = Some c /\ expire_of s c <> 0;
  rc_rest : s_next s' = s_next s /\ same_else s s'
}.

Lemma recovered_trans A U1 V1 U2 V2 a b c : (forall p, U1 p -> ~ U2 p) -> recovered A U1 V1 a b -> recovered A U2 V2 b c ->
  recovered A (fun p => U1 p \/ U2 p) (fun p => V1 p \/ V2 p) a c.
Proof.
  intros Hdis [S1 P1 K1 H1 M1 [N1 E1]] [S2 P2 K2 H2 M2 [N2 E2]]. constructor.
  - by etrans.
  - intros p name q n Hq [HU|HU] Hn; [|by eapply P2]. rewrite (K2 _ _ Hq (Hdis _ HU)) in Hn. by eapply P1.
  - intros p q Hq HU. rewrite (K2 p q) by (done || tauto). apply (K1 p); [done|tauto].
  - done.
  - intros q. rewrite M2, M1. rewrite (same_but_parents_expire a b q S1). split.
    + intros [[?|(p & Hp & ?)]|(p & Hp & ?)]; [by left|right; exists p; tauto..].
    + intros [?|(p & [Hp|Hp] & ?)]; [by left; left|left; right; eauto|right; eauto].
  - split; [congruence|by eapply same_else_trans].
Qed.

Lemma recovered_iff A U V U' V' s s' : (forall p, is_Some (A !! p) -> U p <-> U' p) -> (forall p, is_Some (A !! p) -> V p <-> V' p) ->
  recovered A U V s s' -> recovered A U' V' s s'.
Proof.
  intros HU HV [S P K H M E]. constructor; try done.
  - intros p name c n Hc HUp. apply (P p name c n Hc). by apply HU.
  - intros p c Hc HUp. apply (K p c Hc). by rewrite HU.
  - intros c. rewrite M. split; (intros [?|(p & Hp & Hc & Hz)]; [by left|right; exists p; split_and!; [|done|done]; apply HV; eauto]).
Qed.

(** Nothing done. *)
Lemma recovered_nil A s : heap_ok (expire_of s) (s_ttlKeyHeap s) -> recovered A (fun _ => False) (fun _ => False) s s.
Proof. intros Hh. constructor; try done. intros c. split; [by left|]. intros [?|(? & [] & _)]. done. Qed.

(** One parent set. *)
Lemma recovered_parent s A p q name c n : down_ok s A -> heap_ok (expire_of s) (s_ttlKeyHeap s) -> A !! p = Some q -> A !! (p ++ [name]) = Some c ->
  s_nodes s !! c = Some n -> recovered A (fun t => t = p ++ [name]) (fun _ => False) s (put_node s c (n <| n_Parent := Some q |>)).
Proof.
  intros HA Hh Hq Hc Hn.
  assert (same_but_parents s (put_node s c (n <| n_Parent := Some q |>))) as Hs.
  { intros d. unfold put_node, upd; cbn. destruct (decide (d = c)) as [->|Hne]; [by rewrite lookup_insert_eq, Hn|by rewrite lookup_insert_ne]. }
  constructor; try done.
  - intros t x d n' Hd [-> ->]%snoc_inj Hn'. simplify_eq. unfold put_node, upd in Hn'; cbn in Hn'. rewrite lookup_insert_eq in Hn'. by inv Hn'.
  - intros t d Hd Hne. unfold put_node, upd; cbn. apply lookup_insert_ne. intros ->. by apply Hne, (down_inj s A HA _ _ d).
  - eapply heap_ok_ext; [|exact Hh]. intros d _. by apply same_but_parents_expire.
  - intros d. split; [by left|]. intros [?|(? & [] & _)]. done.
Qed.

(** A node put in the heap. *)
Lemma recovered_push s A p q n : down_ok s A -> heap_ok (expire_of s) (s_ttlKeyHeap s) -> A !! p = Some q -> s_nodes s !! q = Some n ->
  q ∉ h_array (s_ttlKeyHeap s) ->
  exists s', (if negb (n_ExpireTime n =? 0) then
      let! h := ttl_push (expire_of s) (s_ttlKeyHeap s) q in Ok (s <| s_ttlKeyHeap := h |>) else Ok s) = Ok s' /\
    recovered A (fun _ => False) (fun t => t = p) s s'.
Proof.
  intros HA Hh Hq Hn Hin. assert (expire_of s q = n_ExpireTime n) as He by (unfold expire_of; by rewrite Hn).
  destruct (Z.eqb_spec (n_ExpireTime n) 0) as [Hz|Hz]; cbn [negb].
  - exists s. split; [done|]. constructor; try done. intros c. split; [by left|]. intros [?|(t & -> & Hc & Hcz)]; [done|]. simplify_eq. congruence.
  - destruct (ttl_push_spec (expire_of s) (s_ttlKeyHeap s) q Hh Hin) as (h & -> & Hok & Hperm). cbn [gobind]. eexists; split; [done|].
    constructor; try done. intros c. cbn. rewrite Hperm, elem_of_cons. split.
    + intros [->|?]; [right; exists p; split_and!; [done|done|congruence]|by left].
    + intros [?|(t & -> & Hc & _)]; [by right|left; congruence].
Qed.

Section recover.
  Context (range : gmap str Z -> list (str * Z)) (Hrange : forall m, range m ≡ₚ map_to_list m).

Definition recover_child (f : nat) (p : Z) (s : store) (y : str * Z) : outcome store :=
  let '(_, child) := y in
  let! x := deref s child in recoverAndclean range f (put_node s child (x <| n_Parent := Some p |>)) child.

Definition recovers (f : nat) : Prop := forall s A p q, down_ok s A -> heap_ok (expire_of s) (s_ttlKeyHeap s) -> A !! p = Some q ->
  (forall r c, A !! (p ++ r) = Some c -> (length r < f)%nat /\ c ∉ h_array (s_ttlKeyHeap s)) ->
  exists s', recoverAndclean range f s q = Ok s' /\ recovered A (fun t => p `prefix_of` t /\ t <> p) (fun t => p `prefix_of` t) s s'.

Definition below (p : list str) (l : list (str * Z)) (t : list str) : Prop := exists y, y ∈ l /\ (p ++ [y.1]) `prefix_of` t.

Lemma below_disjoint p name l t : name ∉ l.*1 -> (p ++ [name]) `prefix_of` t -> ~ below p l t.
Proof.
  intros Hname [k ->] (y & Hy & [k' Hk]). rewrite <- !app_assoc in Hk. apply app_inv_head in Hk. injection Hk as Hk _.
  apply Hname. rewrite Hk. by apply list_elem_of_fmap_2.
Qed.

Lemma below_cons p name c l t : below p ((name, c) :: l) t <-> (p ++ [name]) `prefix_of` t \/ below p l t.
Proof.
  unfold below. split.
  - intros (y & [->|Hy]%elem_of_cons & Ht); [by left|right; eauto].
  - intros [Ht|(y & Hy & Ht)]; [exists (name, c); split; [by left|done]|exists y; split; [by right|done]].
Qed.

Lemma recover_children f s A p q l : recovers f -> down_ok s A -> heap_ok (expire_of s) (s_ttlKeyHeap s) -> A !! p = Some q -> NoDup l.*1 ->
  (forall y, y ∈ l -> A !! (p ++ [y.1]) = Some y.2) ->
  (forall y r c, y ∈ l -> A !! (p ++ [y.1] ++ r) = Some c -> (length r < f)%nat /\ c ∉ h_array (s_ttlKeyHeap s)) ->
  exists s', foldM (recover_child f q) l s = Ok s' /\ recovered A (below p l) (below p l) s s'.
Proof.
  intros IHf. revert s. induction l as [|[name c] l IH]; intros s HA Hh Hq Hnd Hl Hf; cbn [foldM].
  { exists s. split; [done|]. eapply recovered_iff; [| |by apply recovered_nil]; intros t _; (split; [done|]); intros (y & Hy & _); by apply not_elem_of_nil in Hy. }
  apply NoDup_cons in Hnd as [Hname Hnd]. pose proof (Hl (name, c) ltac:(by left)) as Hc. cbn [fst snd] in Hc.
  destruct (do_node _ _ HA _ _ Hc) as (n & Hn & _). cbn [recover_child]. unfold deref at 1. rewrite Hn. cbn [gobind].
  pose proof (recovered_parent s A p q name c n HA Hh Hq Hc Hn) as R1. set (s1 := put_node s c _) in *.
  pose proof (rc_rest _ _ _ _ _ R1) as (_ & (Er1 & _)).
  assert (down_ok s1 A) as HA1 by (eapply down_forget; [done|apply R1|done]).
  destruct (IHf s1 A (p ++ [name]) c HA1 (rc_heap _ _ _ _ _ R1) Hc) as (s2 & -> & R2).
  { intros r d Hd. rewrite <- app_assoc in Hd. apply (Hf (name, c)); [by left|done]. }
  cbn [gobind]. assert (recovered A (fun t => (p ++ [name]) `prefix_of` t) (fun t => (p ++ [name]) `prefix_of` t) s s2) as R12.
  { eapply recovered_iff; [| |eapply recovered_trans; [|exact R1|exact R2]]; [|tauto|intros t -> [_ ?]; done].
    intros t _. destruct (decide (t = p ++ [name])) as [->|]; [|tauto]. split; [done|by left]. }
  pose proof (rc_rest _ _ _ _ _ R12) as (_ & (Er2 & _)).
  destruct (IH s2) as (s' & -> & R3); [eapply down_forget; [exact HA|apply R12|done]|apply R12|done|done|intros; apply Hl; by right| |].
  { intros y r d Hy Hd. destruct (Hf y r d) as [Hlen Hnin]; [by right|done|]. split; [done|]. rewrite (rc_mem _ _ _ _ _ R12).
    intros [?|(t & Ht & Htd & _)]; [done|]. rewrite (down_inj s A HA _ _ _ Htd Hd) in Ht. apply (below_disjoint p name l _ Hname Ht).
    exists y. split; [done|]. rewrite app_assoc. by eexists. }
  exists s'. split; [done|]. eapply recovered_iff; [| |eapply recovered_trans; [|exact R12|exact R3]].
  - intros t _. by rewrite below_cons.
  - intros t _. by rewrite below_cons.
  - intros t Ht. by apply (below_disjoint p name l).
Qed.

(** The first name on the way from a node to one below it. *)
Lemma next_name s A p q n t : down_ok s A -> A !! p = Some q -> s_nodes s !! q = Some n -> is_Some (A !! t) -> p `prefix_of` t -> t <> p ->
  exists a e, child_of n a = Some e /\ (p ++ [a]) `prefix_of` t.
Proof.
  intros HA Hq Hn [d Hd] [k ->] Hne. destruct k as [|a k]; [by rewrite app_nil_r in Hne|].
  rewrite (cons_middle a p k), app_assoc in Hd. destruct (down_prefix s A HA _ _ _ Hd) as [e He].
  destruct (do_node _ _ HA _ _ Hq) as (n' & Hn' & _ & Hch). simplify_eq. exists a, e. rewrite Hch. split; [done|].
  exists k. by rewrite <- app_assoc.
Qed.

Lemma recoverAndclean_spec f : recovers f.
Proof.
  induction f as [|f IH]; intros s A p q HA Hh Hq Hf.
  { destruct (Hf [] q) as [Hlen _]; [by rewrite app_nil_r|]. lia. }
  cbn [recoverAndclean]. destruct (do_node _ _ HA _ _ Hq) as (n & Hn & _ & Hch). unfold deref at 1. rewrite Hn. cbn [gobind].
  assert (exists s1, match n_Children n with None => Ok s | Some children => foldM (recover_child f q) (range children) s end = Ok s1 /\
    recovered A (fun t => p `prefix_of` t /\ t <> p) (fun t => p `prefix_of` t /\ t <> p) s s1) as (s1 & Hrun & R1).
  { destruct (n_Children n) as [m|] eqn:Hm.
    - destruct (recover_children f s A p q (range m) IH HA Hh Hq) as (s1 & Hrun & R); [by apply range_NoDup| | |].
      + intros [y d] Hy%range_elem; [|done]. cbn. rewrite <- Hch. unfold child_of. by rewrite Hm.
      + intros y r c _ Hc. destruct (Hf _ _ Hc) as [Hlen Hnin]. cbn in Hlen. split; [lia|done].
      + exists s1. split; [done|]. assert (forall t, is_Some (A !! t) -> below p (range m) t <-> p `prefix_of` t /\ t <> p) as Hbelow.
        { intros t Ht. split.
          - intros (y & _ & Hy). split; [etrans; [by eexists|exact Hy]|]. intros ->. apply prefix_length in Hy. rewrite length_app in Hy. cbn in Hy. lia.
          - intros [Hp Hne]. destruct (next_name s A p q n t HA Hq Hn Ht Hp Hne) as (a & e & He & Hat). exists (a, e). split; [|done].
            apply range_elem; [done|]. unfold child_of in He. by rewrite Hm in He. }
        by eapply recovered_iff; [..|exact R].
    - exists s. split; [done|]. assert (forall t, is_Some (A !! t) -> False <-> p `prefix_of` t /\ t <> p) as Hbelow.
      { intros t Ht. split; [done|]. intros [Hp Hne]. destruct (next_name s A p q n t HA Hq Hn Ht Hp Hne) as (a & e & He & _).
        unfold child_of in He. by rewrite Hm in He. }
      by eapply recovered_iff; [..|apply recovered_nil]. }
  gorun Hrun. pose proof R1 as [S1 _ K1 H1 M1 [N1 E1]].
  assert (s_nodes s1 !! q = Some n) as Hn1 by (rewrite (K1 p q Hq); [done|tauto]). unfold deref. rewrite Hn1. cbn [gobind].
  destruct (recovered_push s1 A p q n) as (s' & Hpush & R2); [eapply down_forget; [done..|apply E1]|done|done|done| |].
  { rewrite M1. intros [Hin|(t & [Ht Hne] & Htq & _)]; [|by apply Hne, (down_inj s A HA _ _ q)].
    destruct (Hf [] q) as [_ Hnin]; [by rewrite app_nil_r|done]. }
  exists s'. split; [exact Hpush|]. eapply recovered_iff; [| |eapply recovered_trans; [|exact R1|exact R2]]; [tauto| |tauto].
  intros t _. destruct (decide (t = p)) as [->|]; [|tauto]. split; [done|by right].
Qed.

Definition top_ok (s : store) : Prop :=
  (forall n, s_nodes s !! s_Root s = Some n -> n_Parent n = None /\ n_ExpireTime n = 0 /\ n_Children n <> None) /\
  (forall q n, s_nodes s !! q = Some n -> q < s_next s).

Lemma recover_store_spec s A : down_ok s A -> top_ok s ->
  exists s', recover_store range s = Ok s' /\ tree_ok s' A /\ ttl_ok s' A /\ same_but_parents s s' /\ same_else s s'.
Proof.
  intros HA [Htop Hfresh]. set (s0 := s <| s_ttlKeyHeap := newTtlKeyHeap |>).
  assert (down_ok s0 A) as HA0 by (by apply (down_forget s)). pose proof (do_root _ _ HA) as Hroot.
  destruct (recoverAndclean_spec (fuel_of s) s0 A [] (s_Root s) HA0 (newTtlKeyHeap_ok _) Hroot) as (s' & Hrun & [S P K H M [N E]]).
  { intros r c Hc. split; [|apply not_elem_of_nil]. pose proof (down_depth s A HA _ _ Hc). unfold fuel_of. cbn in *. lia. }
  exists s'. pose proof E as (Er & _). assert (down_ok s' A) as HA' by (by apply (down_forget s0)). split_and!; [exact Hrun| | |exact S|exact E].
  - constructor; [apply HA'|apply HA'| | | |apply HA'].
    + intros n. rewrite Er. change (s_Root s0) with (s_Root s). rewrite (K [] (s_Root s) Hroot) by tauto. apply Htop.
    + intros p name c Hc. destruct (do_up _ _ HA' _ _ _ Hc) as (Hok & q & Hq). split; [done|]. exists q. split; [done|].
      intros n Hn. rewrite <- Hq. apply (P p name c n Hc); [|done]. split; [apply prefix_nil|]. by destruct p.
    + intros q n Hn. rewrite N. specialize (S q). rewrite Hn in S. cbn in S. destruct (s_nodes s !! q) as [n0|] eqn:Hn0; [by eapply Hfresh|done].
  - split; [done|]. intros q. rewrite M. split.
    + intros [?%not_elem_of_nil|(p & _ & Hp & Hz)]; [done|]. split_and!; [eauto|by rewrite (same_but_parents_expire s0 s')|done].
    + intros ((p & Hp) & Hz & _). right. exists p. split_and!; [apply prefix_nil|done|by rewrite (same_but_parents_expire s0 s') in Hz].
Qed.
End recover.

(** ** What a saved state shows *)

(** The node at the end of a path, from a node. *)
Fixpoint find_ptr (s : store) (c : Z) (r : list str) : option Z :=
  match r with
  | [] => Some c
  | name :: r' => s_nodes s !! c ≫= fun n => child_of n name ≫= fun c' => find_ptr s c' r'
  end.
Definition node_from (s : store) (c : Z) (r : list str) : option node := find_ptr s c r ≫= fun q => s_nodes s !! q.

(** The fields of a node that are saved, its children apart. *)
Definition saved (n : node) : node := data (forget n).

Lemma find_ptr_app s c r r' : find_ptr s c (r ++ r') = find_ptr s c r ≫= fun q => find_ptr s q r'.
Proof.
  revert c. induction r as [|name r IH]; intros c; cbn [app find_ptr]; [done|].
  destruct (s_nodes s !! c) as [n|]; cbn; [|done]. destruct (child_of n name) as [c'|]; cbn; [apply IH|done].
Qed.

Lemma find_ptr_down s A p q r : down_ok s A -> A !! p = Some q -> find_ptr s q r = A !! (p ++ r).
Proof.
  intros HA. revert p q. induction r as [|name r IH]; intros p q Hq; cbn [find_ptr]; [by rewrite app_nil_r|].
  destruct (do_node _ _ HA _ _ Hq) as (n & Hn & _ & Hch). rewrite Hn. cbn [mbind option_bind]. rewrite Hch.
  destruct (A !! (p ++ [name])) as [c|] eqn:Hc; cbn [mbind option_bind].
  - rewrite (IH (p ++ [name]) c Hc), <- app_assoc. done.
  - symmetry. apply eq_None_not_Some. intros [d Hd]. rewrite (cons_middle name p r), app_assoc in Hd.
    destruct (down_prefix s A HA _ _ _ Hd). congruence.
Qed.

(** ** Cloning *)

(** The store after more nodes were made, with nothing changed but perhaps
    the node [x]. *)
Record more (x : option Z) (s s' : store) : Prop := {
  mo_next : s_next s <= s_next s';
  mo_old : forall d n, s_nodes s !! d = Some n -> x <> Some d -> s_nodes s' !! d = Some n;
  mo_fresh : forall d n, s_nodes s' !! d = Some n -> d < s_next s';
  mo_rest : same_else s s' /\ s_ttlKeyHeap s' = s_ttlKeyHeap s
}.

Lemma more_refl x s : (forall d n, s_nodes s !! d = Some n -> d < s_next s) -> more x s s.
Proof. intros Hf. by constructor. Qed.

Lemma more_trans x a b c : more x a b -> more x b c -> more x a c.
Proof.
  intros [N1 O1 F1 [E1 T1]] [N2 O2 F2 [E2 T2]]. constructor; [lia|eauto|done|]. split; [by eapply same_else_trans|congruence].
Qed.

Lemma more_weaken x s s' : more None s s' -> more x s s'.
Proof. intros [N O F E]. constructor; try done. intros d n Hn _. by apply O. Qed.

(** The clone at [c] shows what [q] shows in [s0], and its nodes are not below
    [b]. *)
Definition copied (s0 : store) (q : Z) (b : Z) (s : store) (c : Z) : Prop :=
  (forall r, saved <$> node_from s c r = saved <$> node_from s0 q r) /\
  (forall r d, find_ptr s c r = Some d -> b <= d /\ is_Some (s_nodes s !! d)).

Lemma find_ptr_more s s' b c r : (forall d, b <= d -> is_Some (s_nodes s !! d) -> s_nodes s' !! d = s_nodes s !! d) ->
  (forall r d, find_ptr s c r = Some d -> b <= d /\ is_Some (s_nodes s !! d)) -> find_ptr s' c r = find_ptr s c r.
Proof.
  intros Hs. revert c. induction r as [|name r IH]; intros c Hc; cbn [find_ptr]; [done|].
  destruct (Hc [] c eq_refl) as [Hb Hsome]. rewrite (Hs c Hb Hsome). destruct (s_nodes s !! c) as [n|] eqn:Hn; cbn [mbind option_bind]; [|done].
  destruct (child_of n name) as [c'|] eqn:Hch; cbn [mbind option_bind]; [|done]. apply IH. intros r' d Hd. apply (Hc (name :: r')).
  cbn [find_ptr]. rewrite Hn. cbn. by rewrite Hch.
Qed.

Lemma copied_more s0 q b s s' c : (forall d, b <= d -> is_Some (s_nodes s !! d) -> s_nodes s' !! d = s_nodes s !! d) ->
  copied s0 q b s c -> copied s0 q b s' c.
Proof.
  intros Hs [Hv Hp]. assert (forall r, find_ptr s' c r = find_ptr s c r) as Hf by (intros r; by eapply find_ptr_more). split.
  - intros r. rewrite <- Hv. unfold node_from. rewrite Hf. destruct (find_ptr s c r) as [d|] eqn:Hd; cbn; [|done].
    destruct (Hp r d Hd) as [Hb Hsome]. by rewrite (Hs d Hb Hsome).
  - intros r d Hd. rewrite Hf in Hd. destruct (Hp r d Hd) as [Hb Hsome]. split; [done|]. by rewrite (Hs d Hb Hsome).
Qed.

(** A clone of a directory whose children are clones. *)
Lemma copied_dir s0 q n s c x m' b : s_nodes s0 !! q = Some n -> s_nodes s !! c = Some x -> saved x = saved n -> n_Children x = Some m' -> b <= c ->
  (forall name, match child_of n name with
                | Some d => exists c', m' !! name = Some c' /\ copied s0 d b s c'
                | None => m' !! name = None
                end) -> copied s0 q b s c.
Proof.
  intros Hn Hx Hsv Hm Hb Hch. split.
  - intros [|name r]; unfold node_from; cbn [find_ptr mbind option_bind]; [by rewrite Hx, Hn; cbn; rewrite Hsv|].
    rewrite Hx, Hn. cbn [mbind option_bind]. unfold child_of at 1. rewrite Hm. cbn [mbind option_bind]. specialize (Hch name).
    destruct (child_of n name) as [d|]; [|by rewrite Hch]. destruct Hch as (c' & -> & [Hv _]). cbn [mbind option_bind]. exact (Hv r).
  - intros [|name r] d; cbn [find_ptr]; [intros [= <-]; by rewrite Hx|]. rewrite Hx. cbn [mbind option_bind]. unfold child_of. rewrite Hm. cbn [mbind option_bind].
    specialize (Hch name). destruct (m' !! name) as [c'|] eqn:Hc'; [|done]. cbn. destruct (child_of n name) as [d0|]; [|done].
    destruct Hch as (c'' & [= <-] & [_ Hp]). apply Hp.
Qed.

Section clone.
  Context (range : gmap str Z -> list (str * Z)) (Hrange : forall m, range m ≡ₚ map_to_list m).
  Context (s0 : store) (A : tree) (HA : tree_ok s0 A).

Definition clones (f : nat) : Prop := forall s p q, more None s0 s -> A !! p = Some q ->
  (forall r d, A !! (p ++ r) = Some d -> (length r < f)%nat) ->
  exists s' c, node_Clone range f s q = Ok (s', c) /\ more None s s' /\ s_next s <= c /\ copied s0 q (s_next s) s' c /\
    (forall x n, s_nodes s0 !! q = Some n -> s_nodes s' !! c = Some x -> n_Parent x = n_Parent n).

Definition clone_child (f : nat) (c : Z) (s : store) (y : str * Z) : outcome store :=
  let '(key, child) := y in
  let! '(s, c') := node_Clone range f s child in
  let! x := deref s c in
  match n_Children x with
  | None => Panic "assignment to entry in nil map"
  | Some m => Ok (put_node s c (x <| n_Children := Some (<[key := c']> m) |>))
  end.

Lemma more_put s c x x' s' : more None s s' -> s_nodes s' !! c = Some x -> more (Some c) s (put_node s' c x').
Proof.
  intros [N O F E] Hx. constructor; unfold put_node, upd; cbn; [done| | |done].
  - intros d n Hn Hne. rewrite lookup_insert_ne by congruence. by apply O.
  - intros d n. destruct (decide (d = c)) as [->|Hne]; [intros _; by eapply F|]. rewrite lookup_insert_ne by done. apply F.
Qed.

Lemma clone_children f p c l s x m b : clones f -> more None s0 s -> (forall d n, s_nodes s0 !! d = Some n -> d <> c) ->
  s_nodes s !! c = Some x -> n_Children x = Some m -> c < b -> b <= s_next s -> NoDup l.*1 ->
  (forall y, y ∈ l -> A !! (p ++ [y.1]) = Some y.2) -> (forall y r d, y ∈ l -> A !! (p ++ [y.1] ++ r) = Some d -> (length r < f)%nat) ->
  exists s' m', foldM (clone_child f c) l s = Ok s' /\ more (Some c) s s' /\
    s_nodes s' !! c = Some (x <| n_Children := Some m' |>) /\
    (forall name, name ∉ l.*1 -> m' !! name = m !! name) /\
    (forall name d, (name, d) ∈ l -> exists c', m' !! name = Some c' /\ copied s0 d b s' c').
Proof.
  intros IHf. revert s x m. induction l as [|[name d] l IH]; intros s x m Hmore Hnew Hx Hm Hcb Hb Hnd Hl Hf; cbn [foldM].
  { exists s, m. split_and!; [done|apply more_refl, Hmore| |done|].
    - rewrite Hx. f_equal. destruct x; cbn in *. by subst.
    - by intros ? ? ?%not_elem_of_nil. }
  apply NoDup_cons in Hnd as [Hname Hnd]. pose proof (Hl (name, d) ltac:(by left)) as Hd. cbn [fst snd] in Hd.
  destruct (IHf s (p ++ [name]) d Hmore Hd) as (s1 & c' & Hrun & Hmore1 & Hc' & Hcopy & _).
  { intros r e He. rewrite <- app_assoc in He. apply (Hf (name, d) r e); [by left|done]. }
  cbn [clone_child]. rewrite Hrun. cbn [gobind]. pose proof (mo_old _ _ _ Hmore1 c x Hx ltac:(done)) as Hx1. unfold deref at 1. rewrite Hx1.
  cbn [gobind]. rewrite Hm. cbn [gobind]. set (x2 := x <| n_Children := Some (<[name := c']> m) |>). set (s2 := put_node s1 c x2).
  assert (more (Some c) s s2) as Hmore2 by (by eapply more_put).
  assert (s_nodes s2 !! c = Some x2) as Hx2 by (unfold s2, put_node, upd; cbn; apply lookup_insert_eq).
  assert (more None s0 s2) as Hmore02.
  { pose proof (more_trans _ _ _ _ (more_weaken (Some c) _ _ Hmore) Hmore2) as [N O F E]. constructor; try done. intros e n Hn _.
    apply O; [done|]. intros [= <-]. by apply (Hnew c n). }
  destruct (IH s2 x2 (<[name := c']> m) Hmore02 Hnew Hx2 eq_refl Hcb) as (s' & m' & -> & Hmore' & Hxc & Hsame & Hall);
    [pose proof (mo_next _ _ _ Hmore2); lia|done|intros; apply Hl; by right|intros y r e Hy; apply Hf; by right|].
  exists s', m'. split_and!; [done|by eapply more_trans|exact Hxc| |].
  - intros y Hy. rewrite Hsame by (intros ?; apply Hy; by right). apply lookup_insert_ne. intros ->. apply Hy. by left.
  - intros y e [[= -> ->]|Hin]%elem_of_cons; [|by apply Hall]. exists c'. rewrite Hsame by done. split; [apply lookup_insert_eq|].
    destruct Hcopy as [Hv Hp]. assert (copied s0 d b s1 c') as Hcopy.
    { split; [done|]. intros r g Hg. destruct (Hp r g Hg). split; [lia|done]. }
    eapply copied_more; [|exact Hcopy]. intros g Hg [n Hn]. rewrite Hn. apply (mo_old _ _ _ Hmore'); [|intros [= ->]; lia].
    unfold s2, put_node, upd; cbn. rewrite lookup_insert_ne by lia. done.
Qed.

Lemma node_Clone_spec f : clones f.
Proof.
  induction f as [|f IH]; intros s p q Hmore Hq Hf.
  { specialize (Hf [] q). rewrite app_nil_r in Hf. specialize (Hf Hq). cbn in Hf. lia. }
  destruct (to_node _ _ HA _ _ Hq) as (n & Hn & _ & Hch). cbn [node_Clone]. unfold deref at 1.
  rewrite (mo_old _ _ _ Hmore q n Hn) by done. cbn [gobind]. pose proof (mo_fresh _ _ _ Hmore) as Hfresh.
  assert (forall y, more None s (new_node s y).1 /\ s_nodes (new_node s y).1 !! s_next s = Some y) as Hnew.
  { intros y. unfold new_node, upd; cbn. split; [|by rewrite lookup_insert_eq]. constructor; cbn; [lia| | |done].
    - intros d n' Hd _. rewrite lookup_insert_ne; [done|]. apply Hfresh in Hd. lia.
    - intros d n'. destruct (decide (d = s_next s)) as [->|Hne]; [lia|]. rewrite lookup_insert_ne by done. intros ?%Hfresh. lia. }
  destruct (n_Children n) as [m|] eqn:Hm.
  - set (x := (newDir _ _ _ _) <| n_ModifiedIndex := _ |>). destruct (Hnew x) as [Hmore1 Hx]. cbn [new_node].
    change (upd s_next _ _) with (new_node s x).1. set (s1 := (new_node s x).1) in *.
    destruct (clone_children f p (s_next s) (range m) s1 x ∅ (s_next s + 1) IH) as (s' & m' & Hrun & Hmore' & Hx' & Hsame & Hall).
    + by eapply more_trans.
    + intros d n' Hd ->. apply (mo_old _ _ _ Hmore) in Hd; [|done]. apply Hfresh in Hd. lia.
    + done.
    + done.
    + lia.
    + done.
    + by apply range_NoDup.
    + intros [y d] Hy%range_elem; [|done]. cbn. rewrite <- Hch. unfold child_of. by rewrite Hm.
    + intros y r d _ Hd. specialize (Hf _ _ Hd). cbn in Hf. lia.
    + gorun Hrun. exists s', (s_next s). split; [done|]. split_and!; [|lia| |].
      * pose proof (more_trans _ _ _ _ (more_weaken (Some (s_next s)) _ _ Hmore1) Hmore') as [N O F E]. constructor; try done. intros d n' Hd _.
        apply O; [done|]. intros [= <-]. apply Hfresh in Hd. lia.
      * eapply (copied_dir s0 q n s' (s_next s) _ m'); [done|exact Hx'| |done|lia|].
        { unfold saved, data, forget, upd; cbn. rewrite Hm. cbn. f_equal. symmetry. apply (to_empty _ _ HA p q n); [done..|by rewrite Hm]. }
        intros name. unfold child_of. rewrite Hm. cbn [mbind option_bind]. destruct (m !! name) as [d|] eqn:Hd.
        -- destruct (Hall name d) as (c' & Hc' & [Hv Hp]); [by apply range_elem|]. exists c'. split; [done|]. split; [done|].
           intros r g Hg. destruct (Hp r g Hg). split; [lia|done].
        -- rewrite Hsame; [apply lookup_empty|]. intros ([y d] & -> & Hy)%list_elem_of_fmap. apply range_elem in Hy; [|done]. cbn in Hd. congruence.
      * intros y n' Hn' Hy. rewrite Hx' in Hy. simplify_eq. done.
  - set (x := (newKV _ _ _ _ _) <| n_ModifiedIndex := _ |>). destruct (Hnew x) as [Hmore1 Hx].
    exists (new_node s x).1, (s_next s). split; [done|]. split_and!; [done|lia| |intros y n' Hn' Hy; rewrite Hx in Hy; by simplify_eq].
    assert (saved x = saved n) as Hsv by (unfold saved, data, forget, upd; cbn; by rewrite Hm). split.
    + intros [|name r]; unfold node_from; cbn [find_ptr mbind option_bind]; [by rewrite Hx, Hn; cbn; rewrite Hsv|].
      rewrite Hx, Hn. cbn [mbind option_bind]. unfold child_of at 2. by rewrite Hm.
    + intros [|name r] d; cbn [find_ptr]; [intros [= <-]; rewrite Hx; split; [lia|done]|]. rewrite Hx. done.
Qed.
End clone.

(** ** Decoding *)

(** The index of the store in an event is not saved. *)
Definition unindexed (e : Event) : Event := e <| ev_EtcdIndex := 0 |>.

Definition saved_history (eh : EventHistory) : EventHistory :=
  let q := eh_Queue eh in
  mkEventHistory (q <| eq_Events := map (option_map unindexed) (eq_Events q) |>) (eh_StartIndex eh) (eh_LastIndex eh).

(** [d] is a store into which the saved state of [c] was decoded: what was
    saved is as in [c], and the rest is that of the store it was decoded
    into. *)
Record decoded (c d : store) : Prop := {
  dc_nodes : forall r, saved <$> node_from d (s_Root d) r = saved <$> node_from c (s_Root c) r;
  dc_ptrs : forall r q, find_ptr d (s_Root d) r = Some q -> is_Some (s_nodes d !! q);
  dc_fresh : forall q n, s_nodes d !! q = Some n -> q < s_next d;
  dc_root : forall n, s_nodes d !! s_Root d = Some n -> n_Parent n = None;
  dc_hub : hub_ok (s_WatcherHub d);
  dc_history : saved_history (wh_EventHistory (s_WatcherHub d)) = saved_history (wh_EventHistory (s_WatcherHub c));
  dc_index : s_CurrentIndex d = s_CurrentIndex c;
  dc_readonly : [slash] ∈ s_readonlySet d
}.

Lemma saved_fields n n' : saved n' = saved n -> n_Path n' = n_Path n /\ n_ExpireTime n' = n_ExpireTime n /\ view n' = view n.
Proof.
  destruct n as [? ? ? ? ? ? ch], n' as [? ? ? ? ? ? ch']. unfold saved, data, forget, upd; cbn. intros [= -> -> -> -> -> Hc]. split_and!; try done.
  unfold view, IsDir; cbn. by destruct ch, ch'.
Qed.

Lemma IsDir_children n : IsDir n = true <-> n_Children n <> None.
Proof. unfold IsDir. by destruct (n_Children n). Qed.

Lemma choose_list {X Y} (P : nat -> X -> Y -> Prop) l : (forall k x, l !! k = Some x -> exists y, P k x y) ->
  exists l', length l' = length l /\ forall k x y, l !! k = Some x -> l' !! k = Some y -> P k x y.
Proof.
  revert P. induction l as [|x l IH]; intros P HP; [by exists []|]. destruct (HP 0%nat x eq_refl) as [y Hy].
  destruct (IH (fun k => P (S k))) as (l' & Hlen & Hl'); [intros k; apply (HP (S k))|]. exists (y :: l'). split; [cbn; by rewrite Hlen|].
  intros [|k] x' y'; cbn; [by intros [= <-] [= <-]|apply Hl'].
Qed.

(** The events of a history that was saved. *)
Lemma history_saved eh eh' l : saved_history eh' = saved_history eh -> history_ok eh l ->
  exists l', history_ok eh' l' /\ unindexed <$> l' = unindexed <$> l.
Proof.
  destruct eh as [[es sz fr bk cap] st la], eh' as [[es' sz' fr' bk' cap'] st' la']. unfold saved_history; cbn. unfold upd; cbn.
  intros [= He -> -> -> -> -> ->] [[Hcap Hlen Hsz Hfits Hfr Hbk Hat] Hst Hla Hix]. cbn in *.
  assert (forall i, option_map unindexed <$> es' !! i = option_map unindexed <$> es !! i) as Hes by
    (intros i; rewrite <- !list_lookup_fmap; exact (f_equal (lookup i) He)).
  destruct (choose_list (fun k e e' => es' !! slot (mkEventQueue es sz fr bk cap) k = Some (Some e') /\ unindexed e' = unindexed e) l) as (l' & El & Hl').
  { intros k e Hk. specialize (Hes (slot (mkEventQueue es sz fr bk cap) k)). rewrite (Hat k e Hk) in Hes.
    destruct (es' !! _) as [[e'|]|]; try done. exists e'. split; [done|]. by apply (inj Some), (inj Some) in Hes. }
  assert (zlen l' = zlen l) as Ez by (unfold zlen; by rewrite El).
  assert (forall k e', l' !! k = Some e' -> exists e, l !! k = Some e /\ unindexed e' = unindexed e) as Hback.
  { intros k e' Hk. destruct (lookup_lt_is_Some_2 l k) as [e Hk']; [rewrite <- El; by eapply lookup_lt_Some|]. exists e. by destruct (Hl' k e e'). }
  assert (forall e e', unindexed e' = unindexed e -> Event_Index e' = Event_Index e) as Hidx.
  { intros e e' E. exact (f_equal Event_Index E). }
  exists l'. split.
  - constructor; cbn; [constructor; cbn; rewrite ?Ez; try done| | |].
    + unfold zlen in *. apply (f_equal length) in He. rewrite !length_map in He. by rewrite He.
    + intros k e' Hk. destruct (Hback k e' Hk) as (e & Hk' & _). by destruct (Hl' k e e').
    + destruct l as [|e l], l' as [|e' l']; try done. rewrite Hst. symmetry. apply Hidx. destruct (Hback 0%nat e') as (e0 & [= <-] & ?); done.
    + rewrite Hla, Ez. by destruct l, l'.
    + intros k e' Hk. destruct (Hback k e' Hk) as (e & Hk' & E). rewrite (Hidx _ _ E). by apply Hix.
  - apply list_eq_same_length with (length l); rewrite ?length_fmap; [done|done|]. intros k x y _. rewrite !list_lookup_fmap.
    destruct (l' !! k) as [e'|] eqn:Hk'; [|done]. destruct (l !! k) as [e|] eqn:Hk; [|done]. cbn. intros [= <-] [= <-]. by destruct (Hl' k e e').
Qed.

Section decode.
  Context (s : store) (A : tree) (HA : down_ok s A) (d : store).
  Context (Hd : forall r, saved <$> node_from d (s_Root d) r = saved <$> node_from s (s_Root s) r).
  Context (Hp : forall r q, find_ptr d (s_Root d) r = Some q -> is_Some (s_nodes d !! q)).

Definition decoded_tree : tree := map_imap (fun p _ => find_ptr d (s_Root d) p) A.

Lemma node_from_tree r : node_from s (s_Root s) r = A !! r ≫= fun q => s_nodes s !! q.
Proof. unfold node_from. by rewrite (find_ptr_down s A [] (s_Root s) r HA (do_root _ _ HA)). Qed.

Lemma decoded_node p c : find_ptr d (s_Root d) p = Some c ->
  exists n q n0, s_nodes d !! c = Some n /\ A !! p = Some q /\ s_nodes s !! q = Some n0 /\ saved n = saved n0.
Proof.
  intros Hc. destruct (Hp p c Hc) as [n Hn]. specialize (Hd p). rewrite node_from_tree in Hd. unfold node_from in Hd. rewrite Hc in Hd.
  cbn in Hd. rewrite Hn in Hd. destruct (A !! p) as [q|]; [|done]. cbn in Hd. destruct (s_nodes s !! q) as [n0|] eqn:Hn0; [|done].
  apply (inj Some) in Hd. eauto 10.
Qed.

Lemma decoded_tree_lookup p : decoded_tree !! p = find_ptr d (s_Root d) p.
Proof.
  unfold decoded_tree. rewrite map_lookup_imap. destruct (find_ptr d (s_Root d) p) as [c|] eqn:Hc; [|by destruct (A !! p)].
  destruct (decoded_node p c Hc) as (_ & q & _ & _ & -> & _). done.
Qed.

Lemma decoded_down : down_ok d decoded_tree.
Proof.
  constructor.
  - by rewrite decoded_tree_lookup.
  - intros p c. rewrite decoded_tree_lookup. intros Hc. destruct (decoded_node p c Hc) as (n & q & n0 & Hn & Hq & Hn0 & Hsv).
    apply saved_fields in Hsv as (Epath & _ & _). destruct (do_node _ _ HA _ _ Hq) as (n1 & Hn1 & Hpath & _). exists n. split_and!; [done|congruence|].
    intros name. rewrite decoded_tree_lookup, find_ptr_app, Hc. cbn [mbind option_bind find_ptr]. rewrite Hn. cbn. by destruct (child_of n name).
  - intros p name c. rewrite !decoded_tree_lookup. intros Hc. destruct (decoded_node _ c Hc) as (_ & q & _ & _ & Hq & _).
    split; [by eapply do_up|]. rewrite find_ptr_app in Hc. by destruct (find_ptr d (s_Root d) p).
  - intros p c n. rewrite decoded_tree_lookup. intros Hc Hn Hdir. destruct (decoded_node p c Hc) as (n' & q & n0 & Hn' & Hq & Hn0 & Hsv).
    rewrite Hn in Hn'. apply (inj Some) in Hn' as <-. apply saved_fields in Hsv as (_ & _ & Ev). injection Ev as E1 E2 _ _ _.
    rewrite E2. apply (do_empty _ _ HA p q n0); [done..|]. apply IsDir_children. rewrite <- E1. by apply IsDir_children.
Qed.

Lemma decoded_abs : abs_tree d decoded_tree = abs_tree s A.
Proof.
  apply map_eq. intros p. unfold abs_tree. rewrite !lookup_omap, decoded_tree_lookup.
  pose proof (Hd p) as Hdp. rewrite node_from_tree in Hdp. unfold node_from in Hdp.
  change (option_bind _ _ _ _) with (find_ptr d (s_Root d) p ≫= fun q => view <$> s_nodes d !! q).
  assert (forall o o' : option node, saved <$> o = saved <$> o' -> view <$> o = view <$> o') as Hview.
  { intros [n|] [n'|] E; try done. apply (inj Some), saved_fields in E as (_ & _ & E). cbn. by f_equal. }
  apply Hview in Hdp. by destruct (find_ptr d (s_Root d) p), (A !! p).
Qed.
End decode.

Section save.
  Context (range : gmap str Z -> list (str * Z)) (Hrange : forall m, range m ≡ₚ map_to_list m).

Lemma store_Clone_spec s A l : store_ok s A l ->
  exists s1 c, store_Clone range s = Ok (s1, c) /\ more None s s1 /\ s_nodes c = s_nodes s1 /\
    (forall r, saved <$> node_from c (s_Root c) r = saved <$> node_from s (s_Root s) r) /\
    (forall r q, find_ptr c (s_Root c) r = Some q -> s_nodes s !! q = None) /\ decoded c c /\
    wh_EventHistory (s_WatcherHub c) = wh_EventHistory (s_WatcherHub s) /\ s_CurrentIndex c = s_CurrentIndex s.
Proof.
  intros [HA _ _ _ _ _ _ _ _]. pose proof (to_fresh _ _ HA) as Hfresh. unfold store_Clone. cbn [new_node].
  set (s0 := upd s_next _ _). assert (more None s s0) as Hmore0.
  { constructor; cbn; [lia| | |done].
    - intros q n Hn _. rewrite lookup_insert_ne; [done|]. apply Hfresh in Hn. lia.
    - intros q n. destruct (decide (q = s_next s)) as [->|Hne]; [lia|]. rewrite lookup_insert_ne by done. intros ?%Hfresh. lia. }
  destruct (node_Clone_spec range Hrange s A HA (fuel_of s0) s0 [] (s_Root s) Hmore0 (to_root _ _ HA)) as (s1 & c & Hrun & Hmore1 & Hc & [Hv Hp] & Hpar).
  { intros r q Hq. cbn in Hq. pose proof (tree_depth _ _ HA _ _ Hq). unfold fuel_of. cbn. rewrite map_size_insert_None; [lia|].
    apply eq_None_not_Some. intros [n Hn]. apply Hfresh in Hn. lia. }
  pose proof (more_trans _ _ _ _ Hmore0 Hmore1) as Hmore. gorun Hrun.
  destruct (mo_rest _ _ _ Hmore) as [(_ & Ew & Ei & Es & Ev & _) _].
  eexists s1, _. split; [done|]. set (cs := mkStore _ _ _ _ _ _ _ _ _).
  assert (forall r c0, find_ptr cs c0 r = find_ptr s1 c0 r) as Hf.
  { intros r. induction r as [|name r IH]; intros c0; cbn [find_ptr]; [done|]. change (s_nodes cs) with (s_nodes s1).
    destruct (s_nodes s1 !! c0); cbn; [|done]. destruct (child_of _ _); cbn; [apply IH|done]. }
  assert (wh_EventHistory (s_WatcherHub cs) = wh_EventHistory (s_WatcherHub s)) as Ehist.
  { cbn. rewrite Ew. by destruct (wh_EventHistory (s_WatcherHub s)) as [[] ? ?]. }
  split_and!; [done|done| | | |done|done].
  - intros r. rewrite <- Hv. unfold node_from. by rewrite Hf.
  - intros r q. rewrite Hf. intros Hq. destruct (Hp r q Hq) as [Hge _]. apply eq_None_not_Some. intros [n Hn]. apply Hfresh in Hn. cbn in Hge. lia.
  - constructor; try done.
    + intros r q. rewrite Hf. intros Hq. by destruct (Hp r q Hq).
    + apply Hmore.
    + intros x Hx. destruct (to_node _ _ HA _ _ (to_root _ _ HA)) as (n & Hn & _). rewrite (Hpar x n Hn Hx). by apply (to_top _ _ HA).
    + pose proof (newWatchHub_ok 1) as [[] ?]. by split; [constructor|].
Qed.

(** Cloning a store returns and leaves it as it
    was; the clone shares no node with it.  From any store into which the saved
    state of the clone was decoded, recovery returns a well-formed store, with
    parents and the heap of expiring keys made again, that has the tree, the
    index and, but for the indexes of the store in them, the events of the
    history of the store that was cloned. *)
Lemma clone_recover s A l : store_ok s A l ->
  exists s1 c, store_Clone range s = Ok (s1, c) /\ store_ok s1 A l /\ abs s1 A = abs s A /\
    (forall r q, find_ptr c (s_Root c) r = Some q -> s_nodes s !! q = None) /\ decoded c c /\
    forall d, decoded c d -> exists d' A' l', recover_store range d = Ok d' /\ store_ok d' A' l' /\ unindexed <$> l' = unindexed <$> l /\
      v_tree (abs d' A') = v_tree (abs s A) /\ s_CurrentIndex d' = s_CurrentIndex s /\
      s_readonlySet d' = s_readonlySet d /\ s_WatcherHub d' = s_WatcherHub d.
Proof.
  intros Hs. destruct (store_Clone_spec s A l Hs) as (s1 & c & Hrun & [N O F [Else Eh]] & En & Hv & Hnew & Hcc & Ehist & Eidx).
  pose proof Hs as [HA Ht Hh Hl Hlast Hcap Hro Hidx Hcount]. pose proof Else as (Er & Ew & Ei & _ & _ & Ero).
  assert (forall p q, A !! p = Some q -> s_nodes s1 !! q = s_nodes s !! q) as Hsame.
  { intros p q Hq. destruct (to_node _ _ HA _ _ Hq) as (n & Hn & _). rewrite Hn. by apply O. }
  assert (forall p q, A !! p = Some q -> expire_of s1 q = expire_of s q) as Hexp by (intros p q Hq; unfold expire_of; by rewrite (Hsame p)).
  assert (store_ok s1 A l) as Hs1.
  { constructor; rewrite ?Ew, ?Ei, ?Ero; try done.
    - destruct HA as [Hr Hn Htop Hu Hf He]. constructor; [by rewrite Er| | | |done|].
      + intros p q Hq. destruct (Hn p q Hq) as (n & ? & ?). exists n. by rewrite (Hsame p).
      + intros n. rewrite Er, (Hsame [] (s_Root s)) by done. apply Htop.
      + intros p name q Hq. destruct (Hu p name q Hq) as (? & q' & ? & Hpar). split; [done|]. exists q'. split; [done|]. intros n. rewrite (Hsame _ _ Hq). apply Hpar.
      + intros p q n Hq. rewrite (Hsame _ _ Hq). by apply (He p q).
    - destruct Ht as [Hheap Hmem]. split; rewrite Eh.
      + eapply heap_ok_ext; [|exact Hheap]. intros q ((p & Hq) & _)%Hmem. by eapply Hexp.
      + intros q. rewrite Hmem. split; intros ((p & Hq) & Hz & _); (split_and!; [eauto| |done]); by rewrite (Hexp p) in *. }
  exists s1, c. split_and!; [done|done| |done|done|].
  - unfold abs. rewrite Ei, Ero. f_equal. unfold abs_tree. apply map_eq. intros p. rewrite !lookup_omap. destruct (A !! p) as [q|] eqn:Hq; [|done].
    cbn. by rewrite (Hsame p).
  - intros d [Dn Dp Df Dr Dh Dhist Didx Dro]. pose proof (tree_down _ _ HA) as Hdown.
    assert (forall r, saved <$> node_from d (s_Root d) r = saved <$> node_from s (s_Root s) r) as Hds by (intros r; by rewrite Dn).
    pose proof (decoded_down s A Hdown d Hds Dp) as HB. set (B := decoded_tree A d) in *.
    destruct (recover_store_spec range Hrange d B HB) as (d' & Hrec & HA' & Ht' & Hsbp & Helse).
    { split; [|done]. intros n Hn. split; [by apply Dr|]. specialize (Hds []). unfold node_from in Hds. cbn in Hds. rewrite Hn in Hds.
      destruct (to_node _ _ HA _ _ (to_root _ _ HA)) as (n0 & Hn0 & _). rewrite Hn0 in Hds. apply (inj Some), saved_fields in Hds as (_ & E & Ev).
      destruct (to_top _ _ HA n0 Hn0) as (_ & Hz & Hdir). split; [congruence|]. apply IsDir_children. injection Ev as -> _. by apply IsDir_children. }
    destruct Helse as (_ & Ewd & Eid & _ & _ & Erod). rewrite Ehist in Dhist. destruct (history_saved _ _ _ Dhist Hl) as (l' & Hl' & El').
    injection Dhist as _ _ _ _ Ecap _ Elast. assert (zlen l' = zlen l) as Ez by (apply (f_equal length) in El'; rewrite !length_fmap in El'; unfold zlen; by rewrite El').
    exists d', B, l'. split_and!; [done| |done| |congruence|done|done].
    + constructor; rewrite ?Ewd, ?Eid, ?Erod, ?Didx, ?Eidx, ?Ecap, ?Elast, ?Ez; done.
    + cbn. rewrite (abs_forget d d') by done. by apply decoded_abs.
Qed.
End save.
