(* ===== verification/V2Json.v ===== *)
(** * What the version 2 store saves: [Save], [SaveNoCopy] and [Recovery] of
    [src/store/store.go], with the structures they encode: [node] of
    [src/store/node.go], [Event] of [src/store/event.go], [NodeExtern] of
    [src/store/node_extern.go]

    The documents that [json.Marshal] makes of a store, as trees with the
    fields of the structures: a field that the structure leaves out when it is
    empty is an option.  Strings are made valid UTF-8 by the encoder.  A time
    is the instant that its text stands for, and is refused outside the years
    0 to 9999.  The text of a document is not modelled.

    [json.Unmarshal] decodes into the store as it is: the root, the hub and the
    history are there and are written over, the map of the root's children
    keeps what it has, a slot of the history that has an event is decoded into
    that event, and what a document leaves out stays. *)

From S2P Require Import Prelude Proto OrderedMap GoPath TTLHeap V2Event WatcherHub V2Store V2Tree V2Spec V2Refine V2Ops V2OpsSpec V2Run V2Clone.

(** ** Strings *)

Definition within (lo hi c : Z) : bool := (lo <=? c) && (c <=? hi).
Definition cont (c : Z) : bool := within 128 191 c.

(** The bytes of the first rune of a string, by [utf8.DecodeRuneInString]; 0
    for an invalid byte. *)
Definition rune_len (s : str) : nat :=
  match s with
  | [] => 0%nat
  | a :: s1 =>
      if a <? 128 then 1%nat else
      match s1 with
      | [] => 0%nat
      | b :: s2 =>
          if within 194 223 a && cont b then 2%nat else
          match s2 with
          | [] => 0%nat
          | c :: s3 =>
              if ((a =? 224) && within 160 191 b || (within 225 236 a || within 238 239 a) && cont b || (a =? 237) && within 128 159 b) && cont c
              then 3%nat else
              match s3 with
              | [] => 0%nat
              | d :: _ =>
                  if ((a =? 240) && within 144 191 b || within 241 243 a && cont b || (a =? 244) && within 128 143 b) && cont c && cont d
                  then 4%nat else 0%nat
              end
          end
      end
  end.

(** A string as the encoder writes it: U+FFFD for every invalid byte. *)
Fixpoint coerce_loop (fuel : nat) (s : str) : str :=
  match fuel, s with
  | S f, c :: s' =>
      match rune_len s with
      | O => [239; 191; 189] ++ coerce_loop f s'
      | n => take n s ++ coerce_loop f (drop n s)
      end
  | _, _ => []
  end.
Definition coerce (s : str) : str := coerce_loop (length s) s.

Fixpoint valid_loop (fuel : nat) (s : str) : bool :=
  match fuel, s with
  | S f, _ :: _ => match rune_len s with O => false | n => valid_loop f (drop n s) end
  | _, _ => true
  end.
Definition utf8_valid (s : str) : bool := valid_loop (length s) s.

Lemma coerce_valid s : utf8_valid s = true -> coerce s = s.
Proof.
  unfold utf8_valid, coerce. assert (length s <= length s)%nat as Hf by done. revert Hf. generalize (length s) at 2 3 4. intros f.
  revert s. induction f as [|f IH]; intros [|c s] Hf; cbn [valid_loop coerce_loop length] in *; try done; [lia|].
  destruct (rune_len (c :: s)) as [|n] eqn:Hn; [done|]. intros Hv. rewrite IH; [by rewrite take_drop| |done]. rewrite length_drop. cbn. lia.
Qed.

(** The instants of the years that a time can be encoded in, from the zero
    time. *)
Definition year_ok (t : Z) : bool := (-31622400 * second <=? t) && (t <? 315537897600 * second).

(** ** Documents *)

Inductive jnode := JNode (Path : str) (CreatedIndex ModifiedIndex ExpireTime : Z) (Value : str) (Children : option (list (str * jnode))).

Inductive jextern := JExtern (Key Value : option str) (Dir : option bool) (Expiration TTL : option Z) (Nodes : option (list jextern))
  (ModifiedIndex CreatedIndex : option Z).

Record jevent := mkJEvent { je_Action : Action; je_Node : jextern; je_PrevNode : option jextern; je_Refresh : option bool }.

Record jstore := mkJStore {
  js_Root : jnode;
  js_Events : list (option jevent);
  js_Size : Z;
  js_Front : Z;
  js_Back : Z;
  js_Capacity : Z;
  js_StartIndex : Z;
  js_LastIndex : Z;
  js_CurrentIndex : Z;
  js_Stats : Stats;
  js_CurrentVersion : Z
}.

(** ** Encoding *)

(** The encoder writes a map in the order of its keys. *)
Definition name_le (a b : str * Z) : Prop := bytes_compare a.1 b.1 <> Gt.
#[global] Instance name_le_dec a b : Decision (name_le a b).
Proof. unfold name_le. apply _. Defined.
Definition sorted_children (m : gmap str Z) : list (str * Z) := merge_sort name_le (map_to_list m).

(** One entry of the map of children. *)
Definition add_entry (name : str) (acc : option (list (str * jnode))) (j : option jnode) : option (list (str * jnode)) :=
  match acc, j with Some l, Some j => Some (l ++ [(coerce name, j)]) | _, _ => None end.

(** A node; [None] is the error of a time that cannot be encoded. *)
Fixpoint marshal_node (fuel : nat) (s : store) (p : Z) : outcome (option jnode) :=
  match fuel with
  | O => Panic "out of fuel"
  | S f =>
      let! n := deref s p in
      let! children :=
        match n_Children n with
        | None => Ok (Some None)
        | Some m =>
            let! l := foldM (fun acc '(name, c) => let! j := marshal_node f s c in Ok (add_entry name acc j)) (sorted_children m) (Some []) in
            Ok (Some <$> l)
        end in
      Ok (if year_ok (n_ExpireTime n) then
            JNode (coerce (n_Path n)) (n_CreatedIndex n) (n_ModifiedIndex n) (n_ExpireTime n) (coerce (n_Value n)) <$> children
          else None)
  end.

Definition all_some {X} (l : list (option X)) : option (list X) :=
  foldr (fun o acc => match o, acc with Some x, Some l => Some (x :: l) | _, _ => None end) (Some []) l.

Definition omit_zero (z : Z) : option Z := if z =? 0 then None else Some z.
Definition omit_false (b : bool) : option bool := if b then Some true else None.
Definition omit_empty (s : str) : option str := match s with [] => None | _ => Some (coerce s) end.

Fixpoint marshal_extern (n : NodeExtern) : option jextern :=
  match n with
  | mkNodeExtern key value dir expiration ttl nodes modified created =>
      if (match expiration with Some t => year_ok t | None => true end) then
        (fun js => JExtern (omit_empty key) (coerce <$> value) (omit_false dir) expiration (omit_zero ttl)
                     (match js with [] => None | _ => Some js end) (omit_zero modified) (omit_zero created))
          <$> all_some (map marshal_extern nodes)
      else None
  end.

(** An event of the history; its index of the store is not encoded. *)
Definition marshal_event (e : Event) : option jevent :=
  match marshal_extern (ev_Node e), ev_PrevNode e with
  | Some node, None => Some (mkJEvent (ev_Action e) node None (omit_false (ev_Refresh e)))
  | Some node, Some prev => (fun prev => mkJEvent (ev_Action e) node (Some prev) (omit_false (ev_Refresh e))) <$> marshal_extern prev
  | None, _ => None
  end.

(** A slot of the queue; a nil pointer is null. *)
Definition marshal_slot (o : option Event) : option (option jevent) :=
  match o with Some e => Some <$> marshal_event e | None => Some None end.

Definition Marshal (s : store) : outcome (option jstore) :=
  let! root := marshal_node (fuel_of s) s (s_Root s) in
  let eh := wh_EventHistory (s_WatcherHub s) in
  let q := eh_Queue eh in
  Ok (match root, all_some (map marshal_slot (eq_Events q)) with
      | Some root, Some events =>
          Some (mkJStore root events (eq_Size q) (eq_Front q) (eq_Back q) (eq_Capacity q) (eh_StartIndex eh) (eh_LastIndex eh)
                  (s_CurrentIndex s) (s_Stats s) (s_CurrentVersion s))
      | _, _ => None
      end).

(** ** Decoding *)

(** A new node, and its children before it. *)
Fixpoint unmarshal_node (j : jnode) (s : store) : store * Z :=
  match j with
  | JNode path created modified expire value children =>
      let '(s, m) :=
        match children with
        | None => (s, None)
        | Some l =>
            let '(s, m) := foldl (fun '(s, m) '(name, j) => let '(s, c) := unmarshal_node j s in (s, <[name := c]> m)) (s, ∅) l in
            (s, Some m)
        end in
      new_node s (mkNode path created modified None expire value m)
  end.

(** The entries of an object, decoded into a map. *)
Definition unmarshal_children (l : list (str * jnode)) (s : store) (m : gmap str Z) : store * gmap str Z :=
  foldl (fun '(s, m) '(name, j) => let '(s, c) := unmarshal_node j s in (s, <[name := c]> m)) (s, m) l.

(** The root is decoded in place. *)
Definition unmarshal_root (j : jnode) (s : store) : outcome store :=
  let! n := deref s (s_Root s) in
  match j with
  | JNode path created modified expire value children =>
      let '(s, m) :=
        match children with
        | None => (s, None)
        | Some l => let '(s, m) := unmarshal_children l s (default ∅ (n_Children n)) in (s, Some m)
        end in
      Ok (put_node s (s_Root s) (mkNode path created modified (n_Parent n) expire value m))
  end.

Definition zero_extern : NodeExtern := mkNodeExtern [] None false None 0 [] 0 0.

(** Fields that the document has are written over. *)
Fixpoint unmarshal_extern (old : NodeExtern) (j : jextern) : NodeExtern :=
  match j with
  | JExtern key value dir expiration ttl nodes modified created =>
      mkNodeExtern (default (ne_Key old) key) (match value with Some v => Some v | None => ne_Value old end) (default (ne_Dir old) dir)
        (match expiration with Some t => Some t | None => ne_Expiration old end) (default (ne_TTL old) ttl)
        (match nodes with
         | None => ne_Nodes old
         | Some js => imap (fun i f => f (default zero_extern (ne_Nodes old !! i))) (map (fun j old => unmarshal_extern old j) js)
         end)
        (default (ne_ModifiedIndex old) modified) (default (ne_CreatedIndex old) created)
  end.

(** Into a new event, or into the one that a slot has. *)
Definition unmarshal_event (old : option Event) (j : jevent) : Event :=
  let old := default (mkEvent (je_Action j) zero_extern None 0 false) old in
  mkEvent (je_Action j) (unmarshal_extern (ev_Node old) (je_Node j))
    (match je_PrevNode j with
     | Some prev => Some (unmarshal_extern (default zero_extern (ev_PrevNode old)) prev)
     | None => ev_PrevNode old
     end)
    (ev_EtcdIndex old) (default (ev_Refresh old) (je_Refresh j)).

(** The slice of events, element by element. *)
Definition unmarshal_events (old : list (option Event)) (js : list (option jevent)) : list (option Event) :=
  imap (fun i j => unmarshal_event (old !! i ≫= Datatypes.id) <$> j) js.

Definition Unmarshal (j : jstore) (s : store) : outcome store :=
  let! s := unmarshal_root (js_Root j) s in
  let wh := s_WatcherHub s in
  let events := unmarshal_events (eq_Events (eh_Queue (wh_EventHistory wh))) (js_Events j) in
  let q := mkEventQueue events (js_Size j) (js_Front j) (js_Back j) (js_Capacity j) in
  Ok (s <| s_WatcherHub := wh <| wh_EventHistory := mkEventHistory q (js_StartIndex j) (js_LastIndex j) |> |>
        <| s_CurrentIndex := js_CurrentIndex j |> <| s_Stats := js_Stats j |> <| s_CurrentVersion := js_CurrentVersion j |>).

(** ** Saving and recovering *)

Section operations.
  Context (range : gmap str Z -> list (str * Z)).

(** [None] is an error of the encoder. *)
Definition Save (s : store) : outcome (store * option jstore) :=
  let! '(s, clone) := store_Clone range s in
  let! b := Marshal clone in
  Ok (s, b).

Definition SaveNoCopy (s : store) : outcome (option jstore) := Marshal s.

Definition Recovery (s : store) (state : jstore) : outcome store :=
  let! s := Unmarshal state s in
  recover_store range s.
End operations.

(** ** Events come back *)

Section extern_ind.
  Context (P : NodeExtern -> Prop).
  Context (HP : forall key value dir expiration ttl nodes modified created, Forall P nodes ->
    P (mkNodeExtern key value dir expiration ttl nodes modified created)).
Fixpoint extern_ind (n : NodeExtern) : P n :=
  match n with
  | mkNodeExtern key value dir expiration ttl nodes modified created =>
      HP key value dir expiration ttl nodes modified created
        ((fix go l : Forall P l := match l with [] => Forall_nil_2 P | x :: l' => Forall_cons_2 P x l' (extern_ind x) (go l') end) nodes)
  end.
End extern_ind.

(** What can be encoded and decoded without loss. *)
Fixpoint extern_ok (n : NodeExtern) : bool :=
  match n with
  | mkNodeExtern key value _ expiration _ nodes _ _ =>
      utf8_valid key && match value with Some v => utf8_valid v | None => true end &&
      match expiration with Some t => year_ok t | None => true end && forallb Datatypes.id (map extern_ok nodes)
  end.
Definition event_ok (e : Event) : bool := extern_ok (ev_Node e) && match ev_PrevNode e with Some prev => extern_ok prev | None => true end.
Definition slot_ok (o : option Event) : bool := match o with Some e => event_ok e | None => true end.

Lemma all_some_Some {X} (l : list (option X)) l' : l = Some <$> l' -> all_some l = Some l'.
Proof. intros ->. induction l' as [|x l' IH]; [done|]. unfold all_some in *. cbn. by rewrite IH. Qed.

(** A list of encoded things. *)
Lemma encode_list {X Y} (f : X -> option Y) (P : X -> Y -> Prop) l : Forall (fun x => exists y, f x = Some y /\ P x y) l ->
  exists l', all_some (map f l) = Some l' /\ Forall2 P l l'.
Proof.
  induction 1 as [|x l (y & Hy & HP) _ (l' & Hl' & Hall)]; [by exists []|]. exists (y :: l'). split; [|by constructor].
  unfold all_some in *. cbn. by rewrite Hy, Hl'.
Qed.

Lemma omit_zero_default z : default 0 (omit_zero z) = z.
Proof. unfold omit_zero. by destruct (Z.eqb_spec z 0) as [->|]. Qed.
Lemma omit_false_default b : default false (omit_false b) = b.
Proof. by destruct b. Qed.
Lemma omit_empty_default s : utf8_valid s = true -> default [] (omit_empty s) = s.
Proof. intros Hs. unfold omit_empty. destruct s; [done|]. by rewrite coerce_valid. Qed.

Lemma extern_round n : extern_ok n = true -> exists j, marshal_extern n = Some j /\ unmarshal_extern zero_extern j = n.
Proof.
  induction n as [key value dir expiration ttl nodes modified created IH] using extern_ind. cbn [extern_ok marshal_extern].
  rewrite !andb_true_iff. intros [[[Hk Hv] He] Hn]. rewrite He.
  destruct (encode_list marshal_extern (fun n j => unmarshal_extern zero_extern j = n) nodes) as (js & -> & Hall).
  { rewrite forallb_forall in Hn. apply Forall_forall. intros x Hx. rewrite Forall_forall in IH. apply IH; [done|].
    apply Hn. apply in_map. by apply list_elem_of_In. }
  cbn. eexists. split; [done|]. cbn. rewrite !omit_zero_default, omit_false_default, (omit_empty_default key Hk). f_equal.
  - destruct value as [v|]; [|done]. cbn. by rewrite coerce_valid.
  - by destruct expiration.
  - assert (imap (fun i f => f (default zero_extern (([] : list NodeExtern) !! i))) (map (fun j old => unmarshal_extern old j) js) = nodes) as Hnodes.
    { apply list_eq. intros i. rewrite list_lookup_imap, list_lookup_fmap, lookup_nil. cbn. apply Forall2_lookup with (i := i) in Hall.
      inversion Hall as [x y Hxy Hx Hy|Hx Hy]; cbn; [by rewrite Hxy|done]. }
    destruct js; [cbn in *; done|exact Hnodes].
Qed.

Lemma event_round e : event_ok e = true -> exists j, marshal_event e = Some j /\ unmarshal_event None j = unindexed e.
Proof.
  unfold event_ok, marshal_event. intros [Hn Hp]%andb_true_iff. destruct (extern_round _ Hn) as (jn & -> & En).
  destruct e as [action node prev index refresh]; cbn in *. destruct prev as [prev|].
  - destruct (extern_round _ Hp) as (jp & -> & Ep). eexists. split; [done|]. unfold unmarshal_event, unindexed, upd; cbn. rewrite En, Ep. by destruct refresh.
  - eexists. split; [done|]. unfold unmarshal_event, unindexed, upd; cbn. rewrite En. by destruct refresh.
Qed.

Lemma events_round es : forallb slot_ok es = true ->
  exists js, all_some (map marshal_slot es) = Some js /\
    forall old, Forall (fun o => o = None) old -> unmarshal_events old js = map (option_map unindexed) es.
Proof.
  rewrite forallb_forall. intros Hes.
  destruct (encode_list marshal_slot (fun o j => unmarshal_event None <$> j = option_map unindexed o) es) as (js & Hjs & Hall).
  { apply Forall_forall. intros o Ho%list_elem_of_In. specialize (Hes o Ho). destruct o as [e|]; [|by exists None].
    destruct (event_round e Hes) as (j & Hj & E). exists (Some j). cbn. by rewrite Hj, E. }
  exists js. split; [done|]. intros old Hold. apply list_eq. intros i. unfold unmarshal_events. rewrite list_lookup_imap.
  change (map (option_map unindexed) es) with (option_map unindexed <$> es). rewrite list_lookup_fmap.
  assert (old !! i ≫= Datatypes.id = None) as ->.
  { destruct (old !! i) as [o|] eqn:Ho; [|done]. rewrite Forall_forall in Hold. by rewrite (Hold o (list_elem_of_lookup_2 _ _ _ Ho)). }
  apply Forall2_lookup with (i := i) in Hall. inversion Hall as [x y Hxy Hx Hy|Hx Hy]; cbn; [by f_equal|done].
Qed.

(** ** The tree comes back *)

Section jnode_ind.
  Context (P : jnode -> Prop).
  Context (HP : forall path created modified expire value children,
    (forall l, children = Some l -> Forall (fun y => P y.2) l) -> P (JNode path created modified expire value children)).
Fixpoint jnode_all (j : jnode) : P j :=
  let go := fix go (l : list (str * jnode)) : Forall (fun y => P y.2) l :=
    match l with [] => Forall_nil_2 _ | y :: l' => Forall_cons_2 _ y l' (jnode_all y.2) (go l') end in
  match j with
  | JNode path created modified expire value children =>
      HP path created modified expire value children
        (match children return forall l, children = Some l -> Forall (fun y => P y.2) l with
         | Some l0 => fun l E => eq_rect l0 (fun l => Forall (fun y => P y.2) l) (go l0) l (Some_inj _ _ E)
         | None => fun l E => match E with end
         end)
  end.
End jnode_ind.

(** The node [q], at a pointer in [Q], is what [j] describes. *)
Inductive shows (Q : Z -> Prop) (s : store) : jnode -> Z -> Prop :=
| shows_file path created modified expire value q n : Q q -> s_nodes s !! q = Some n ->
    saved n = mkNode path created modified None expire value None -> shows Q s (JNode path created modified expire value None) q
| shows_dir path created modified expire value l q n m : Q q -> s_nodes s !! q = Some n ->
    saved n = mkNode path created modified None expire value (Some ∅) -> n_Children n = Some m ->
    NoDup l.*1 -> (forall name, is_Some (m !! name) -> name ∈ l.*1) ->
    (forall name j, (name, j) ∈ l -> exists c, m !! name = Some c /\ shows Q s j c) ->
    shows Q s (JNode path created modified expire value (Some l)) q.

(** What is not below other nodes keeps its description. *)
Lemma shows_ext Q s s' j : (forall q n, Q q -> s_nodes s !! q = Some n -> s_nodes s' !! q = Some n) -> forall q, shows Q s j q -> shows Q s' j q.
Proof.
  intros Hs. induction j as [path created modified expire value children IH] using jnode_all.
  intros q Hj. inversion Hj as [? ? ? ? ? ? n HQ Hn Hsv|? ? ? ? ? l ? n m HQ Hn Hsv Hm Hnd Hdom Hall]; subst; [by eapply shows_file; eauto|].
  eapply (shows_dir _ _ _ _ _ _ _ l q n m); eauto. intros name j Hin. destruct (Hall name j Hin) as (c & Hc & Hshows). exists c. split; [done|].
  specialize (IH l eq_refl). rewrite Forall_forall in IH. by apply (IH (name, j)).
Qed.

Lemma shows_weaken (Q Q' : Z -> Prop) s j : (forall q, Q q -> Q' q) -> forall q, shows Q s j q -> shows Q' s j q.
Proof.
  intros HQQ. induction j as [path created modified expire value children IH] using jnode_all.
  intros q Hj. inversion Hj as [? ? ? ? ? ? n HQ Hn Hsv|? ? ? ? ? l ? n m HQ Hn Hsv Hm Hnd Hdom Hall]; subst; [by eapply shows_file; eauto|].
  eapply (shows_dir _ _ _ _ _ _ _ l q n m); eauto. intros name j Hin. destruct (Hall name j Hin) as (c & Hc & Hshows). exists c. split; [done|].
  specialize (IH l eq_refl). rewrite Forall_forall in IH. by apply (IH (name, j)).
Qed.

(** Two nodes of one description show the same. *)
Lemma shows_same Q Q' s s' j q q' r : shows Q s j q -> shows Q' s' j q' -> saved <$> node_from s q r = saved <$> node_from s' q' r.
Proof.
  revert j q q'. induction r as [|name r IH]; intros j q q' H H'.
  - unfold node_from. cbn. destruct H; inversion H'; subst; cbn;
      repeat match goal with Hn : s_nodes _ !! _ = Some _ |- _ => rewrite Hn; clear Hn end; cbn; congruence.
  - unfold node_from. cbn [find_ptr]. destruct H as [? ? ? ? ? q n _ Hn Hsv|? ? ? ? ? l q n m _ Hn Hsv Hm Hnd Hdom Hall];
      inversion H' as [? ? ? ? ? ? n' _ Hn' Hsv'|? ? ? ? ? ? ? n' m' _ Hn' Hsv' Hm' _ Hdom' Hall']; subst; rewrite Hn, Hn'; cbn [mbind option_bind]; unfold child_of.
    + assert (forall x, saved x = mkNode path created modified None expire value None -> n_Children x = None) as Hnil.
      { intros x. unfold saved, data, forget, upd; cbn. by destruct (n_Children x). }
      by rewrite (Hnil n Hsv), (Hnil n' Hsv').
    + rewrite Hm, Hm'. cbn [mbind option_bind]. destruct (decide (name ∈ l.*1)) as [Hin|Hin].
      * apply list_elem_of_fmap in Hin as ([name' j] & -> & Hin). cbn [fst]. destruct (Hall _ _ Hin) as (c & -> & Hc), (Hall' _ _ Hin) as (c' & -> & Hc').
        cbn [mbind option_bind]. by eapply IH.
      * assert (m !! name = None) as -> by (apply eq_None_not_Some; naive_solver).
        assert (m' !! name = None) as -> by (apply eq_None_not_Some; naive_solver). done.
Qed.

Lemma shows_ptr Q s j q r d : shows Q s j q -> find_ptr s q r = Some d -> is_Some (s_nodes s !! d).
Proof.
  revert j q. induction r as [|name r IH]; intros j q H; cbn [find_ptr].
  - intros [= <-]. by destruct H as [? ? ? ? ? q n _ -> _|? ? ? ? ? ? q n ? _ -> _].
  - destruct H as [? ? ? ? ? q n _ Hn Hsv|? ? ? ? ? l q n m _ Hn Hsv Hm Hnd Hdom Hall]; rewrite Hn; cbn [mbind option_bind]; unfold child_of.
    + assert (n_Children n = None) as ->; [|done]. unfold saved, data, forget, upd in Hsv; cbn in Hsv. by destruct (n_Children n).
    + rewrite Hm. cbn [mbind option_bind]. destruct (m !! name) as [c|] eqn:Hc; [|done]. cbn [mbind option_bind].
      destruct (proj1 (list_elem_of_fmap fst l name) (Hdom name ltac:(by rewrite Hc))) as ([name' j] & -> & Hin).
      destruct (Hall _ _ Hin) as (c' & Hc' & Hj). cbn in Hc. rewrite Hc in Hc'. injection Hc' as <-. by eapply IH.
Qed.

(** A node whose strings and time can be encoded without loss. *)
Definition node_ok (n : node) : bool := utf8_valid (n_Path n) && utf8_valid (n_Value n) && year_ok (n_ExpireTime n).

Lemma sorted_perm m : sorted_children m ≡ₚ map_to_list m.
Proof. apply merge_sort_Permutation. Qed.

Section marshal.
  Context (s : store) (A : tree) (HA : down_ok s A).
  Context (Hok : forall p q n, A !! p = Some q -> s_nodes s !! q = Some n -> Forall (fun name => utf8_valid name = true) p /\ node_ok n = true).

Definition any (q : Z) : Prop := True.

Definition marshals (f : nat) : Prop := forall p q, A !! p = Some q -> (forall r d, A !! (p ++ r) = Some d -> (length r < f)%nat) ->
  exists j, marshal_node f s q = Ok (Some j) /\ shows any s j q.

Lemma marshal_children f p l acc : marshals f -> (forall y, y ∈ l -> A !! (p ++ [y.1]) = Some y.2) ->
  (forall y r d, y ∈ l -> A !! (p ++ [y.1] ++ r) = Some d -> (length r < f)%nat) ->
  exists js, foldM (fun acc '(name, c) => let! j := marshal_node f s c in Ok (add_entry name acc j)) l (Some acc) = Ok (Some (acc ++ js)) /\
    Forall2 (fun y x => y.1 = x.1 /\ shows any s x.2 y.2) l js.
Proof.
  intros IHf. revert acc. induction l as [|[name c] l IH]; intros acc Hl Hf; cbn [foldM].
  { exists []. by rewrite app_nil_r. }
  pose proof (Hl (name, c) ltac:(by left)) as Hc. cbn [fst snd] in Hc.
  destruct (IHf (p ++ [name]) c Hc) as (j & -> & Hj).
  { intros r d Hd. rewrite <- app_assoc in Hd. apply (Hf (name, c) r d); [by left|done]. }
  cbn [gobind add_entry]. assert (coerce name = name) as ->.
  { apply coerce_valid. destruct (do_node _ _ HA _ _ Hc) as (n & Hn & _). destruct (Hok _ _ _ Hc Hn) as [Hv _].
    apply Forall_app in Hv as [_ Hv]. exact (proj1 (Forall_singleton _ _) Hv). }
  destruct (IH (acc ++ [(name, j)])) as (js & -> & Hjs); [intros; apply Hl; by right|intros y r d Hy; apply Hf; by right|].
  exists ((name, j) :: js). rewrite <- app_assoc. split; [done|]. by constructor.
Qed.

Lemma marshal_node_spec f : marshals f.
Proof.
  induction f as [|f IH]; intros p q Hq Hf.
  { specialize (Hf [] q). rewrite app_nil_r in Hf. specialize (Hf Hq). cbn in Hf. lia. }
  destruct (do_node _ _ HA _ _ Hq) as (n & Hn & _ & Hch). destruct (Hok _ _ _ Hq Hn) as [_ Hnok]. unfold node_ok in Hnok.
  rewrite !andb_true_iff in Hnok. destruct Hnok as [[Hpv Hvv] Hy]. cbn [marshal_node]. unfold deref. rewrite Hn. cbn [gobind].
  rewrite Hy, !coerce_valid by done. destruct (n_Children n) as [m|] eqn:Hm.
  - assert (forall name c, (name, c) ∈ sorted_children m <-> m !! name = Some c) as Hel by (intros; by rewrite sorted_perm, elem_of_map_to_list).
    destruct (marshal_children f p (sorted_children m) [] IH) as (js & -> & Hjs).
    + intros [name c] Hin%Hel. cbn. rewrite <- Hch. unfold child_of. by rewrite Hm.
    + intros y r d _ Hd. specialize (Hf _ _ Hd). cbn in Hf. lia.
    + assert ((sorted_children m).*1 = js.*1) as Enames.
      { apply list_eq. intros i. rewrite !list_lookup_fmap. apply Forall2_lookup with (i := i) in Hjs. inversion Hjs as [x y [Hxy _] Hx Hy'|Hx Hy']; cbn; by rewrite ?Hxy. }
      cbn [gobind app fmap option_fmap option_map]. eexists. split; [done|]. apply (shows_dir _ _ _ _ _ _ _ js q n m); [done|done| |done| | |].
      * unfold saved, data, forget, upd; cbn. by rewrite Hm.
      * rewrite <- Enames, sorted_perm. apply NoDup_fst_map_to_list.
      * intros name [c Hc%Hel]. rewrite <- Enames. apply list_elem_of_fmap. by exists (name, c).
      * intros name j (i & Hi)%list_elem_of_lookup. destruct (Forall2_lookup_r _ _ _ i _ Hjs Hi) as ([name' c] & Hc & Hnm & Hshow). cbn in *. subst name'.
        exists c. split; [|done]. apply Hel. by eapply list_elem_of_lookup_2.
  - cbn [gobind fmap option_fmap option_map]. eexists. split; [done|]. apply (shows_file _ _ _ _ _ _ _ q n); [done|done|].
    unfold saved, data, forget, upd; cbn. by rewrite Hm.
Qed.

Lemma marshal_root : exists j, marshal_node (fuel_of s) s (s_Root s) = Ok (Some j) /\ shows any s j (s_Root s).
Proof.
  apply (marshal_node_spec (fuel_of s) [] (s_Root s) (do_root _ _ HA)). intros r d Hd. cbn in Hd.
  pose proof (down_depth s A HA _ _ Hd). unfold fuel_of. lia.
Qed.
End marshal.

(** ** Decoding into a store *)

Lemma more_new s x : (forall d n, s_nodes s !! d = Some n -> d < s_next s) ->
  more None s (new_node s x).1 /\ s_nodes (new_node s x).1 !! s_next s = Some x.
Proof.
  intros Hfresh. unfold new_node, upd; cbn. split; [|by rewrite lookup_insert_eq]. constructor; cbn; [lia| | |done].
  - intros d n' Hd _. rewrite lookup_insert_ne; [done|]. apply Hfresh in Hd. lia.
  - intros d n'. destruct (decide (d = s_next s)) as [->|Hne]; [lia|]. rewrite lookup_insert_ne by done. intros ?%Hfresh. lia.
Qed.

Definition not_below (b q : Z) : Prop := b <= q.

(** A description that some node has is decoded into new nodes that have it. *)
Definition decodes (j : jnode) : Prop := forall s, (forall d n, s_nodes s !! d = Some n -> d < s_next s) ->
  more None s (unmarshal_node j s).1 /\ shows (not_below (s_next s)) (unmarshal_node j s).1 j (unmarshal_node j s).2.

Lemma unmarshal_children_spec l s m b : Forall (fun y => decodes y.2) l -> NoDup l.*1 -> (forall d n, s_nodes s !! d = Some n -> d < s_next s) -> b <= s_next s ->
  let '(s', m') := unmarshal_children l s m in
  more None s s' /\ (forall name, name ∉ l.*1 -> m' !! name = m !! name) /\
  forall name j, (name, j) ∈ l -> exists c, m' !! name = Some c /\ shows (not_below b) s' j c.
Proof.
  revert s m. induction l as [|[name j] l IH]; intros s m Hl Hnd Hfresh Hb; cbn [unmarshal_children foldl].
  { split_and!; [by apply more_refl|done|]. by intros ? ? ?%not_elem_of_nil. }
  apply Forall_cons in Hl as [Hj Hl]. apply NoDup_cons in Hnd as [Hname Hnd]. cbn [fst snd] in *. destruct (Hj s Hfresh) as [Hmore Hshow].
  destruct (unmarshal_node j s) as [s1 c] eqn:Hu. cbn [fst snd] in *.
  specialize (IH s1 (<[name := c]> m) Hl Hnd (mo_fresh _ _ _ Hmore)). pose proof (mo_next _ _ _ Hmore). specialize (IH ltac:(lia)).
  unfold unmarshal_children in IH. destruct (foldl _ (s1, _) l) as [s' m']. destruct IH as (Hmore' & Hout & Hin).
  split_and!; [by eapply more_trans| |].
  - intros x Hx. rewrite Hout by (intros ?; apply Hx; by right). apply lookup_insert_ne. intros ->. apply Hx. by left.
  - intros x jx [[= -> ->]|Hx]%elem_of_cons; [|by apply Hin]. exists c. rewrite Hout by done. split; [apply lookup_insert_eq|].
    eapply shows_ext; [|eapply shows_weaken; [|exact Hshow]]; [intros d n _ Hd; by apply (mo_old _ _ _ Hmore')|unfold not_below; lia].
Qed.

Lemma unmarshal_node_spec Q s0 j : forall q, shows Q s0 j q -> decodes j.
Proof.
  induction j as [path created modified expire value children IH] using jnode_all. intros q Hq s Hfresh. cbn [unmarshal_node].
  inversion Hq as [? ? ? ? ? ? n _ Hn Hsv|? ? ? ? ? l ? n m0 _ Hn Hsv Hm Hnd Hdom Hall]; subst.
  - set (x := mkNode _ _ _ _ _ _ _). destruct (more_new s x Hfresh) as [Hmore Hx]. split; [done|].
    apply (shows_file _ _ _ _ _ _ _ _ x); [unfold not_below; cbn; lia|done|done].
  - pose proof (unmarshal_children_spec l s ∅ (s_next s)) as Hl. unfold unmarshal_children in Hl.
    destruct (foldl _ (s, ∅) l) as [s1 m] eqn:Hf. destruct Hl as (Hmore1 & Hout & Hin); [|done|done|done|].
    { specialize (IH l eq_refl). rewrite Forall_forall in *. intros [name j] Hy. destruct (Hall name j Hy) as (c & _ & Hc). by apply (IH _ Hy c). }
    set (x := mkNode _ _ _ _ _ _ _). destruct (more_new s1 x (mo_fresh _ _ _ Hmore1)) as [Hmore2 Hx]. split; [by eapply more_trans|].
    apply (shows_dir _ _ _ _ _ _ _ l _ x m); [|done|done|done|done| |].
    + unfold not_below. cbn. apply Hmore1.
    + intros name Hs. apply dec_stable. intros Hno. rewrite Hout in Hs by done. by rewrite lookup_empty in Hs; destruct Hs.
    + intros name j Hj. destruct (Hin name j Hj) as (c & Hc & Hshow). exists c. split; [done|]. eapply shows_ext; [|exact Hshow].
      intros d n' _ Hd. by apply (mo_old _ _ _ Hmore2).
Qed.

(** The root of a store whose children are all in the document. *)
Lemma unmarshal_root_spec Q c q j d B : shows Q c j q -> tree_ok d B ->
  (exists n, s_nodes c !! q = Some n /\ n_Children n <> None /\ forall name, is_Some (B !! [name]) -> is_Some (child_of n name)) ->
  exists d1, unmarshal_root j d = Ok d1 /\ shows any d1 j (s_Root d1) /\ (forall x n, s_nodes d1 !! x = Some n -> x < s_next d1) /\
    (forall n, s_nodes d1 !! s_Root d1 = Some n -> n_Parent n = None) /\ same_else d d1.
Proof.
  intros Hj HB (n & Hn & Hdir & Hsub). destruct (to_node _ _ HB _ _ (to_root _ _ HB)) as (nd & Hnd & _ & Hchd).
  inversion Hj as [? ? ? ? ? ? n' _ Hn' Hsv|path created modified expire value l ? n' m0 _ Hn' Hsv Hm Hnd' Hdom Hall]; subst;
    rewrite Hn in Hn'; injection Hn' as <-; [unfold saved, data, forget, upd in Hsv; cbn in Hsv; by destruct (n_Children n)|].
  unfold unmarshal_root, deref. rewrite Hnd. cbn [gobind]. pose proof (to_fresh _ _ HB) as Hfresh.
  pose proof (unmarshal_children_spec l d (default ∅ (n_Children nd)) (s_next d)) as Hl.
  destruct (unmarshal_children l d _) as [s1 m]. destruct Hl as (Hmore & Hout & Hin); [|done|done|done|].
  { apply Forall_forall. intros [name j] Hy. destruct (Hall name j Hy) as (x & _ & Hx). by apply (unmarshal_node_spec Q c j x). }
  set (x := mkNode _ _ _ _ _ _ _). destruct Hmore as [N O F [(Er & Else) _]]. pose proof (Hfresh _ _ Hnd) as Hlt.
  eexists. split; [done|]. rewrite Er. unfold put_node, upd; cbn. rewrite Er. split_and!; [| | |done..].
  - apply (shows_dir _ _ _ _ _ _ _ l _ x m); [done|by cbn; rewrite lookup_insert_eq|done|done|done| |].
    + intros name Hs. apply dec_stable. intros Hno. rewrite Hout in Hs by done. apply Hno, Hdom.
      assert (is_Some (child_of n name)) as Hc; [|unfold child_of in Hc; by rewrite Hm in Hc]. apply Hsub. specialize (Hchd name). cbn [app] in Hchd. rewrite <- Hchd. unfold child_of.
      destruct (n_Children nd); [done|]. cbn in Hs. by rewrite lookup_empty in Hs; destruct Hs.
    + intros name j Hy. destruct (Hin name j Hy) as (p & Hp & Hshow). exists p. split; [done|].
      apply (shows_weaken (not_below (s_next d))); [done|]. eapply shows_ext; [|exact Hshow]. unfold not_below. intros z n' Hz Hn'. cbn.
      rewrite lookup_insert_ne by lia. done.
  - intros z n'. cbn. destruct (decide (z = s_Root d)) as [->|Hne]; [intros _; lia|]. rewrite lookup_insert_ne by done. apply F.
  - intros n'. rewrite lookup_insert_eq. intros [= <-]. cbn. by apply (to_top _ _ HB).
Qed.

(** What is saved comes back as it was: the strings are valid UTF-8 and the
    times are of the years that can be encoded. *)
Record encodable (s : store) : Prop := {
  en_nodes : forall r n, node_from s (s_Root s) r = Some n -> Forall (fun name => utf8_valid name = true) r /\ node_ok n = true;
  en_events : forallb slot_ok (eq_Events (eh_Queue (wh_EventHistory (s_WatcherHub s)))) = true
}.

(** A store to recover into, for a saved one with the tree [A]: no event was
    made in it, and it has no key at the top that the saved one does not have. *)
Record recovers_into (A : tree) (d : store) (B : tree) : Prop := {
  ri_events : Forall (fun o => o = None) (eq_Events (eh_Queue (wh_EventHistory (s_WatcherHub d))));
  ri_top : forall name, is_Some (B !! [name]) -> is_Some (A !! [name])
}.

(** ** The clone of an encodable store *)

Section clone.
  Context (s : store) (A : tree) (HA : tree_ok s A) (c : store) (Hcc : decoded c c).
  Context (Hsv : forall r, saved <$> node_from c (s_Root c) r = saved <$> node_from s (s_Root s) r).

Lemma clone_down : down_ok c (decoded_tree A c).
Proof. apply (decoded_down s A (tree_down _ _ HA) c Hsv). apply Hcc. Qed.

Lemma clone_lookup p : decoded_tree A c !! p = find_ptr c (s_Root c) p.
Proof. apply (decoded_tree_lookup s A (tree_down _ _ HA) c Hsv). apply Hcc. Qed.

Lemma clone_encoded : encodable s -> exists j, marshal_node (fuel_of c) c (s_Root c) = Ok (Some j) /\ shows any c j (s_Root c).
Proof.
  intros [Henc _]. apply (marshal_root c _ clone_down). intros p q n Hq Hn. rewrite clone_lookup in Hq. pose proof (tree_down _ _ HA) as Hdown.
  destruct (decoded_node s A Hdown c Hsv (dc_ptrs _ _ Hcc) p q Hq) as (n1 & q0 & n0 & Hn1 & Hq0 & Hn0 & E). rewrite Hn in Hn1. injection Hn1 as <-.
  destruct (Henc p n0) as [Hp Hok]; [rewrite (node_from_tree s A Hdown), Hq0; exact Hn0|]. split; [done|].
  apply saved_fields in E as (E1 & E2 & E3). injection E3 as _ E3 _ _ _. unfold node_ok in *. by rewrite E1, E2, E3.
Qed.

(** The clone has the children that the root has. *)
Lemma clone_top : exists n, s_nodes c !! s_Root c = Some n /\ n_Children n <> None /\
  forall name, is_Some (A !! [name]) -> is_Some (child_of n name).
Proof.
  destruct (do_node _ _ clone_down _ _ (do_root _ _ clone_down)) as (n & Hn & _ & Hch). exists n. split_and!; [done| |].
  - pose proof (Hsv []) as E. unfold node_from in E. cbn in E. rewrite Hn in E. destruct (to_node _ _ HA _ _ (to_root _ _ HA)) as (n0 & Hn0 & _).
    rewrite Hn0 in E. apply (inj Some), saved_fields in E as (_ & _ & E). injection E as E _. apply IsDir_children. rewrite E.
    apply IsDir_children. by apply (to_top _ _ HA).
  - intros name [y Hy]. rewrite Hch, clone_lookup. cbn [app]. destruct (find_ptr c (s_Root c) [name]) as [x|] eqn:Hx; [done|].
    pose proof (Hsv [name]) as E. unfold node_from at 1 in E. rewrite Hx, (node_from_tree s A (tree_down _ _ HA)), Hy in E.
    destruct (to_node _ _ HA _ _ Hy) as (n0 & Hn0 & _). cbn in E. by rewrite Hn0 in E.
Qed.

(** It is encoded, and decoding gives what recovery needs. *)
Lemma Marshal_clone : encodable s -> wh_EventHistory (s_WatcherHub c) = wh_EventHistory (s_WatcherHub s) ->
  exists j, Marshal c = Ok (Some j) /\
    forall d B m, store_ok d B m -> recovers_into A d B ->
      exists d1, Unmarshal j d = Ok d1 /\ decoded c d1 /\ s_readonlySet d1 = s_readonlySet d /\ wh_heap (s_WatcherHub d1) = wh_heap (s_WatcherHub d).
Proof.
  intros Henc Ehist. destruct (clone_encoded Henc) as (root & Hroot & Hshow). pose proof (en_events _ Henc) as Hev. rewrite <- Ehist in Hev.
  destruct (events_round _ Hev) as (js & Hjs & Hback). unfold Marshal. rewrite Hroot. cbn [gobind]. rewrite Hjs.
  eexists. split; [done|]. intros d B m [HB _ Hhub _ _ _ Hro _ _] [Hslots Htop].
  destruct (unmarshal_root_spec any c (s_Root c) root d B Hshow HB) as (d1 & Hd1 & Hshow1 & Hfresh1 & Hpar1 & (Er & Ew & _ & _ & _ & Ero)).
  { destruct clone_top as (n & Hn & Hdir & Hch). exists n. split_and!; [done..|]. intros name Hb. by apply Hch, Htop. }
  unfold Unmarshal. cbn [js_Root]. rewrite Hd1. cbn [gobind]. eexists. split; [done|]. set (d2 := upd s_CurrentVersion _ _).
  assert (shows any d2 root (s_Root d2)) as Hshow2 by (by apply (shows_ext any d1 d2)).
  split_and!; [|exact Ero|cbn; by rewrite Ew]. constructor; cbn -[unmarshal_events].
  - intros r. exact (shows_same _ _ _ _ _ _ _ r Hshow2 Hshow).
  - intros r q. by apply (shows_ptr any d2 root).
  - done.
  - done.
  - rewrite Ew. destruct Hhub as [[] ?]. by split; [constructor|].
  - unfold d2, saved_history, upd; cbn -[unmarshal_events]. rewrite Hback by (by rewrite Ew). do 2 f_equal. rewrite map_map. apply map_ext. by intros [[]|].
  - done.
  - by rewrite Ero.
Qed.
End clone.

(** ** Saving and recovering *)

Section save.
  Context (range : gmap str Z -> list (str * Z)) (Hrange : forall m, range m ≡ₚ map_to_list m).

(** C13. Saving and recovering.  [Save] of a store whose strings are valid UTF-8
    and whose times are of the years 0 to 9999 returns a document and leaves
    the store as it was.  [Recovery] from the document, into any well-formed
    store in which no event was made and that has no key at the top that the
    saved one does not have, returns a well-formed store with the tree, the
    index and, but for the indexes of the store in them, the events of the
    history of the saved one, and with the watchers and the read-only keys of
    the one recovered into.  Keys that have expired are in it: it is the next
    [DeleteExpiredKeys] that removes them. *)
Theorem save_recover s A l : store_ok s A l -> encodable s ->
  exists s1 j, Save range s = Ok (s1, Some j) /\ store_ok s1 A l /\ abs s1 A = abs s A /\
    forall d B m, store_ok d B m -> recovers_into A d B ->
      exists d' A' l', Recovery range d j = Ok d' /\ store_ok d' A' l' /\ unindexed <$> l' = unindexed <$> l /\
        v_tree (abs d' A') = v_tree (abs s A) /\ s_CurrentIndex d' = s_CurrentIndex s /\
        s_readonlySet d' = s_readonlySet d /\ wh_heap (s_WatcherHub d') = wh_heap (s_WatcherHub d).
Proof.
  intros Hs Henc. destruct (store_Clone_spec range Hrange s A l Hs) as (s1 & c & Hrun & _ & _ & Hsv & _ & Hcc & Ehist & _).
  destruct (clone_recover range Hrange s A l Hs) as (s1' & c' & Hrun' & Hs1 & Habs & _ & _ & Hrec).
  rewrite Hrun in Hrun'. injection Hrun' as <- <-.
  destruct (Marshal_clone s A (so_tree _ _ _ Hs) c Hcc Hsv Henc Ehist) as (j & Hj & Hun). exists s1, j. unfold Save. rewrite Hrun. cbn [gobind].
  rewrite Hj. split_and!; [done..|]. intros d B m Hd Hinto. destruct (Hun d B m Hd Hinto) as (d1 & Hd1 & Hdec & Ero & Eheap).
  destruct (Hrec d1 Hdec) as (d' & A' & l' & Hr & Hs' & El & Et & Ei & Ero' & Ew'). exists d', A', l'. unfold Recovery. rewrite Hd1. cbn [gobind].
  split_and!; [done..| |]; congruence.
Qed.
End save.
