(* ===== verification/V2Examples.v ===== *)
(** * Examples of the version 2 store

    Witnesses of the theorems on concrete stores, and behaviours of the store
    that its comments do not lead one to expect. *)

From S2P Require Import Prelude Proto OrderedMap GoPath TTLHeap V2Event WatcherHub V2Store V2Tree V2Spec V2Refine V2Ops V2OpsSpec V2Run V2Expire V2Watch V2Get V2Reach V2Clone V2Json.

Definition forever : TTLOptionSet := mkTTLOptionSet 0 false.
Definition set_key (key value : string) : vop * Z := (OpSet (bytes key) false (bytes value) forever, 0).

(** What a watcher has in its channel: keys and indices of events. *)
Definition chan_of (s : store) (w : Z) : outcome (list (str * Z)) :=
  let! x := wh_deref (s_WatcherHub s) w in
  Ok (map (fun e => (ne_Key (ev_Node e), Event_Index e)) (w_eventChan x)).

(** A new store, operations, a watch, operations, and the watcher's channel. *)
Definition watched (before : list (vop * Z)) (key : string) (recursive stream : bool) (since : Z) (after : list (vop * Z))
    : outcome (list (str * Z)) :=
  let! s := newStore [] in
  let! '(s, _) := do_ops map_to_list s before in
  let! '(s, r) := Watch s (bytes key) recursive stream since in
  match r with
  | inr _ => Panic "refused"
  | inl w => let! '(s, _) := do_ops map_to_list s after in chan_of s w
  end.

(** A recursive watch from an index in the past does not see an event at the
    watched key itself, unless it is the first event looked at: [scan] compares
    the later ones with the key and a slash.  The same watch that is not
    recursive sees it. *)
Theorem scan_misses_own_key : let ops := [set_key "/bar" "1"; set_key "/foo" "2"] in
  watched ops "/foo" true false 1 [] = Ok [] /\ watched ops "/foo" false false 1 [] = Ok [(bytes "/foo", 2)].
Proof. vm_compute. split; reflexivity. Qed.

(** After the removal of the directory /foo, a watch of /foobar from an index
    in the past is told of it: [scan] compares prefixes of strings, not of
    paths. *)
Theorem scan_takes_string_prefix :
  watched [(OpCreate (bytes "/foo") true [] false forever, 0); (OpDelete (bytes "/foo") true false, 0)] "/foobar" false false 1 [] =
  Ok [(bytes "/foo", 2)].
Proof. vm_compute. reflexivity. Qed.

(** A hidden key is hidden from a recursive watcher that waits, and not from
    one that asks for the past. *)
Theorem scan_shows_hidden : watched [] "/a" true false 1 [set_key "/a/_b" "1"] = Ok [] /\
  watched [set_key "/a/_b" "1"] "/a" true false 1 [] = Ok [(bytes "/a/_b", 1)].
Proof. vm_compute. split; reflexivity. Qed.

(** A stream watcher of a key gets the event of its removal twice: from the
    callback of [Remove] and from the notification. *)
Theorem delete_notified_twice : watched [set_key "/a" "1"] "/a" false true 0 [(OpDelete (bytes "/a") false false, 0)] = Ok [(bytes "/a", 2); (bytes "/a", 2)].
Proof. vm_compute. reflexivity. Qed.

(** The counters after operations on a new store. *)
Definition counted (ops : list (vop * Z)) : outcome (list (Event + Error) * Stats) :=
  let! s := newStore [] in let! '(s, rs) := do_ops map_to_list s ops in Ok (rs, s_Stats s).
Definition refused_with (code : Z) (r : Event + Error) : bool := match r with inr err => ErrorCode err =? code | inl _ => false end.

(** Operations that return an error are counted as successes when the error is
    not put in [err]; a failed creation below a file is counted as a failed
    set as well. *)
Theorem stats_count_errors :
  match counted [set_key "/f" "1"; (OpUpdate (bytes "/") [] forever, 0); (OpDelete (bytes "/") true true, 0);
                 (OpCompareAndDelete (bytes "/f") (bytes "2") 0, 0); (OpCreate (bytes "/f/x") false [] false forever, 0)] with
  | Ok ([_; r1; r2; r3; r4], st) =>
      refused_with EcodeRootROnly r1 = true /\ refused_with EcodeRootROnly r2 = true /\ refused_with EcodeTestFailed r3 = true /\
      refused_with EcodeNotDir r4 = true /\
      st UpdateSuccess = 1 /\ st UpdateFail = 0 /\ st DeleteSuccess = 1 /\ st CompareAndDeleteSuccess = 1 /\ st CreateFail = 1 /\ st SetFail = 1
  | _ => False
  end.
Proof. vm_compute. repeat split; reflexivity. Qed.

(** An update of a directory reports an index that the directory does not get. *)
Definition updated_dir : outcome (Z * Z) :=
  let! s := newStore [] in
  let! '(s, rs) := do_ops map_to_list s [(OpCreate (bytes "/d") true [] false forever, 0); (OpUpdate (bytes "/d") [] forever, 0)] in
  let! '(_, r) := Get map_to_list s (bytes "/d") false false 0 in
  match rs, r with
  | [_; inl e], inl g => Ok (Event_Index e, Event_Index g)
  | _, _ => Panic "refused"
  end.
Theorem update_dir_keeps_index : updated_dir = Ok (2, 1).
Proof. vm_compute. reflexivity. Qed.

(** A watcher whose channel is full is removed and its channel is left open. *)
Definition overflowing : outcome (bool * Z * Z) :=
  let! s := newStore [] in
  let! '(s, r) := Watch s (bytes "/a") false true 0 in
  match r with
  | inr _ => Panic "refused"
  | inl w =>
      let! '(s, _) := do_ops map_to_list s (replicate 101 (set_key "/a" "1")) in
      let! x := wh_deref (s_WatcherHub s) w in
      Ok (w_closed x, zlen (w_eventChan x), wh_count (s_WatcherHub s))
  end.
Theorem overflow_leaves_open : overflowing = Ok (false, 100, 0).
Proof. vm_compute. reflexivity. Qed.

(** Recovery decodes into the store as it is.  A store with the key [/b], set
    twice, recovers from the state of a store with the keys [/a] and [/c]: it
    has [/b] still, and the event that made [/c] has the value of [/b] as its
    previous node, which a watch of [/c] from that event is given. *)
Definition recovered_over : outcome (bool * bool * option (option str)) :=
  let! s := newStore [] in
  let! '(s, _) := do_ops map_to_list s [set_key "/a" "1"; set_key "/c" "2"] in
  let! d := newStore [] in
  let! '(d, _) := do_ops map_to_list d [set_key "/b" "3"; set_key "/b" "4"] in
  let! '(_, j) := Save map_to_list s in
  match j with
  | None => Panic "not encoded"
  | Some j =>
      let! d := Recovery map_to_list d j in
      let! c := internalGet d (bytes "/c") in
      let! b := internalGet d (bytes "/b") in
      let! '(d, w) := Watch d (bytes "/c") false false 2 in
      match w with
      | inr _ => Panic "refused"
      | inl w =>
          let! x := wh_deref (s_WatcherHub d) w in
          Ok (if c then true else false, if b then true else false,
              match w_eventChan x with e :: _ => ne_Value <$> ev_PrevNode e | [] => None end)
      end
  end.
Theorem recovery_keeps_old_state : recovered_over = Ok (true, true, Some (Some (bytes "3"))).
Proof. vm_compute. reflexivity. Qed.

(** A key that expired before the state was saved is in the store that is
    recovered from it. *)
Definition recovered_expired : outcome (bool * bool) :=
  let! s := newStore [] in
  let! '(s, _) := do_ops map_to_list s [(OpSet (bytes "/e") false (bytes "1") (mkTTLOptionSet minExpireTime false), minExpireTime)] in
  let! '(s, j) := Save map_to_list s in
  let! d := newStore [] in
  match j with
  | None => Panic "not encoded"
  | Some j =>
      let! d := Recovery map_to_list d j in
      let! kept := internalGet d (bytes "/e") in
      let! d := DeleteExpiredKeys map_to_list d (minExpireTime + second) (minExpireTime + second) in
      let! later := internalGet d (bytes "/e") in
      Ok (if kept then true else false, if later then true else false)
  end.
Theorem recovery_keeps_expired : recovered_expired = Ok (true, false).
Proof. vm_compute. reflexivity. Qed.

(** ** Witnesses *)

(** The store after operations, from a new one. *)
Definition after (ops : list (vop * Z)) : outcome store :=
  let! s := newStore [] in let! '(s, _) := do_ops map_to_list s ops in Ok s.

Lemma after_ok ops : zlen ops < two64 -> exists s A l, after ops = Ok s /\ store_ok s A l.
Proof.
  intros Hops. destruct (newStore_spec [] ltac:(constructor) ltac:(constructor)) as (s0 & A0 & Hnew & Hs0 & Habs).
  destruct (do_ops_refines map_to_list (fun m => reflexivity _) ops s0 A0 [] Hs0) as (s & A & l & rs & Hrun & Hs & _).
  { apply (f_equal v_index) in Habs. cbn in Habs. lia. }
  exists s, A, l. split; [|done]. unfold after. cbn [fmap list_fmap] in Hnew. rewrite Hnew. cbn [gobind]. by rewrite Hrun.
Qed.

(** A fact of the store after concrete operations, by computation. *)
Lemma after_fact ops s (P : store -> bool) : after ops = Ok s -> match after ops with Ok s => P s | Panic _ => false end = true -> P s = true.
Proof. by intros ->. Qed.

Definition soon : Z := minExpireTime + 5 * second.
Definition some_keys : list (vop * Z) :=
  [(OpSet (bytes "/a/b") false (bytes "1") (mkTTLOptionSet soon false), minExpireTime); (OpCreate (bytes "/q") false (bytes "x") true forever, minExpireTime);
   (OpUpdate (bytes "/a") [] (mkTTLOptionSet (soon + second) false), minExpireTime); set_key "/a/_c" "2";
   (OpCompareAndSwap (bytes "/a/b") (bytes "1") 0 (bytes "3") (mkTTLOptionSet soon true), minExpireTime);
   (OpDelete (bytes "/q") true true, minExpireTime); (OpCompareAndDelete (bytes "/a/_c") (bytes "9") 0, minExpireTime)].

Lemma v2_store_refines_witness : exists s s' A' l rs,
  newStore [bytes "/0"; bytes "/1"] = Ok s /\ do_ops map_to_list s some_keys = Ok (s', rs) /\ store_ok s' A' l /\
  v_steps (mkVStore (namespace_tree [bytes "0"; bytes "1"]) 0 (list_to_set [bytes "/0"; bytes "/1"; bytes "/"])) some_keys = (abs s' A', rs).
Proof.
  apply (v2_store_refines map_to_list (fun m => reflexivity _) [bytes "0"; bytes "1"] some_keys).
  - apply (bool_decide_unpack _). vm_compute. exact I.
  - apply (bool_decide_unpack _). vm_compute. exact I.
  - reflexivity.
Defined.

Lemma expired_keys_removed_witness : exists s A l s' A' l',
  after some_keys = Ok s /\ store_ok s A l /\ DeleteExpiredKeys map_to_list s soon soon = Ok s' /\ store_ok s' A' l' /\
  abs_tree s' A' = not_due soon (abs_tree s A).
Proof.
  destruct (after_ok some_keys ltac:(reflexivity)) as (s & A & l & Hs & Hok).
  assert (s_CurrentIndex s + Z.of_nat (h_Len (s_ttlKeyHeap s)) < two64) as Hmax.
  { apply Z.ltb_lt. apply (after_fact some_keys s (fun s => s_CurrentIndex s + Z.of_nat (h_Len (s_ttlKeyHeap s)) <? two64) Hs).
    vm_compute. reflexivity. }
  destruct (expired_keys_removed map_to_list (fun m => reflexivity _) s A l soon soon Hok Hmax) as (s' & A' & l' & H1 & H2 & H3 & _).
  exists s, A, l, s', A', l'. exact (conj Hs (conj Hok (conj H1 (conj H2 H3)))).
Defined.

(** Whether a path is in the tree, as the store finds it. *)
Definition present (s : store) (path : str) : bool := match internalGet s path with Ok (inl _) => true | _ => false end.

Lemma present_spec s A l path : store_ok s A l -> present s path = true <-> is_Some (A !! names_of path).
Proof.
  intros Hs. unfold present. rewrite (internalGet_spec s A) by apply Hs. pose proof (find_spec s A (names_of path) (so_tree _ _ _ Hs)) as Hf.
  destruct (find_path s A [] (names_of path)); [destruct Hf as (n & -> & _)|destruct Hf as [-> _]]; split; done.
Qed.

(** A watch of [/a/b], and the removal of the directory [/a]. *)
Definition removed_above (s : store) : bool :=
  match Watch s (bytes "/a/b") false false 0 with
  | Ok (s1, inl w) =>
      match do_op map_to_list s1 (OpDelete (bytes "/a") true true) minExpireTime with
      | Ok (s2, _) => (s_CurrentIndex s <? two64 - 1) && (s_CurrentIndex s1 =? s_CurrentIndex s) && present s1 (bytes "/a/b") && negb (present s2 (bytes "/a/b"))
      | Panic _ => false
      end
  | _ => false
  end.

Lemma watch_gets_first_event_witness : exists s s1 w s2 r2,
  after some_keys = Ok s /\ Watch s (bytes "/a/b") false false 0 = Ok (s1, inl w) /\
  do_op map_to_list s1 (OpDelete (bytes "/a") true true) minExpireTime = Ok (s2, r2) /\
  (exists A1 l1, store_ok s1 A1 l1 /\ watching [bytes "a"; bytes "b"] false (s_CurrentIndex s + 1) (s_CurrentIndex s) w s1 l1) /\ has_event w s2.
Proof.
  destruct (after_ok some_keys ltac:(reflexivity)) as (s & A & l & Hs & Hok).
  assert (removed_above s = true) as Hc by (apply (after_fact some_keys s removed_above Hs); vm_compute; reflexivity). unfold removed_above in Hc.
  destruct (Watch s (bytes "/a/b") false false 0) as [[s1 [w|]]|] eqn:HW; [|discriminate Hc..].
  destruct (do_op map_to_list s1 (OpDelete (bytes "/a") true true) minExpireTime) as [[s2 r2]|] eqn:Hd; [|discriminate Hc].
  apply andb_true_iff in Hc as [Hc Hp2%negb_true_iff]. apply andb_true_iff in Hc as [Hc Hp1].
  apply andb_true_iff in Hc as [Hmax%Z.ltb_lt Ei%Z.eqb_eq].
  destruct (watch_gets_first_event map_to_list (fun m => reflexivity _) s A l (bytes "/a/b") false false 0 Hok Hmax) as (s1' & r & H1 & H2); [lia|].
  rewrite HW in H1. injection H1 as <- <-. destruct (H2 s1 (steps_nil _ _)) as (A1 & l1 & Hs1 & Hw1 & Hgone).
  exists s, s1, w, s2, r2. split; [exact Hs|]. split; [exact HW|]. split; [exact Hd|]. split; [exists A1, l1; exact (conj Hs1 Hw1)|].
  assert (is_Some (A1 !! names_of (bytes "/a/b"))) as HA1 by (apply (present_spec s1 A1 l1 _ Hs1); exact Hp1).
  destruct (Hgone s2) as (A2 & l2 & Hs2 & Hev); [cbn; lia|exact HA1| |].
  - apply (steps_op map_to_list s1 (OpDelete (bytes "/a") true true) minExpireTime s2 r2 s2); [lia|exact Hd|apply steps_nil].
  - apply Hev. apply eq_None_not_Some. intros HS. apply (present_spec s2 A2 l2 _ Hs2) in HS. congruence.
Defined.

Lemma Get_spec_witness : exists s A l, after some_keys = Ok s /\ store_ok s A l /\
  match v_find (abs s A) [bytes "a"] with
  | inr err => Get map_to_list s (bytes "/a") true true 0 = Ok (Inc s GetFail, inr err)
  | inl x => exists nodes,
      Get map_to_list s (bytes "/a") true true 0 =
        Ok (Inc s GetSuccess, inl (mkEvent ActGet (with_nodes (show [bytes "a"] x 0) nodes) None (s_CurrentIndex s) false)) /\
      (true = true -> Sorted key_le nodes /\ Forall sorted_tree nodes) /\
      lists (v_tree (abs s A)) [bytes "a"] 0 (listed true) (concat (map flat nodes))
  end.
Proof.
  destruct (after_ok some_keys ltac:(reflexivity)) as (s & A & l & Hs & Hok). exists s, A, l. split; [exact Hs|]. split; [exact Hok|].
  exact (Get_spec map_to_list s A l (bytes "/a") true true 0 (fun m => reflexivity _) Hok).
Defined.

(** A test that a store can be encoded: all its nodes can. *)
Definition node_text (n : node) : bool :=
  node_ok n && match n_Children n with Some m => forallb (fun y => utf8_valid y.1) (map_to_list m) | None => true end.
Definition store_text (s : store) : bool :=
  forallb (fun y => node_text y.2) (map_to_list (s_nodes s)) && forallb slot_ok (eq_Events (eh_Queue (wh_EventHistory (s_WatcherHub s)))).

Lemma store_text_encodable s : store_text s = true -> encodable s.
Proof.
  intros [Hn He]%andb_true_iff. split; [|done]. rewrite forallb_forall in Hn.
  assert (forall q n, s_nodes s !! q = Some n -> node_text n = true) as Hall.
  { intros q n Hq. apply (Hn (q, n)), list_elem_of_In, elem_of_map_to_list. done. }
  generalize (s_Root s) as q. intros q r. revert q. induction r as [|name r IH]; intros q n; unfold node_from; cbn [find_ptr mbind option_bind].
  - intros Hq%Hall. apply andb_true_iff in Hq as [? _]. done.
  - destruct (s_nodes s !! q) as [n0|] eqn:Hq; cbn [mbind option_bind]; [|done]. destruct (child_of n0 name) as [c|] eqn:Hc; cbn [mbind option_bind]; [|done].
    intros Hr. destruct (IH c n Hr) as [Hv ?]. split; [|done]. constructor; [|done]. apply Hall in Hq. apply andb_true_iff in Hq as [_ Hq].
    unfold child_of in Hc. destruct (n_Children n0) as [m|]; [|done]. rewrite forallb_forall in Hq. apply (Hq (name, c)), list_elem_of_In, elem_of_map_to_list. done.
Qed.

(** A new store can be recovered into. *)
Lemma new_recovers_into A : exists d B, newStore [] = Ok d /\ store_ok d B [] /\ recovers_into A d B.
Proof.
  destruct (newStore_spec [] ltac:(constructor) ltac:(constructor)) as (d & B & Hnew & Hd & Habs). exists d, B. split_and!; [done..|]. split.
  - cbn [fmap list_fmap] in Hnew. injection Hnew as <-. by apply Forall_replicate.
  - intros name [q Hq]. apply (f_equal v_tree) in Habs. cbn in Habs.
    assert (B !! [name] = None); [|congruence]. apply (abs_None d B); [apply Hd|]. rewrite Habs. unfold namespace_tree. cbn. by rewrite lookup_insert_ne.
Qed.

Lemma save_recover_witness : exists s A l s1 j d d' A' l',
  after some_keys = Ok s /\ store_ok s A l /\ Save map_to_list s = Ok (s1, Some j) /\ newStore [] = Ok d /\
  Recovery map_to_list d j = Ok d' /\ store_ok d' A' l' /\ v_tree (abs d' A') = v_tree (abs s A) /\ s_CurrentIndex d' = s_CurrentIndex s.
Proof.
  destruct (after_ok some_keys ltac:(reflexivity)) as (s & A & l & Hs & Hok).
  assert (encodable s) as Henc.
  { apply store_text_encodable. apply (after_fact some_keys s store_text Hs). vm_compute. reflexivity. }
  destruct (save_recover map_to_list (fun m => reflexivity _) s A l Hok Henc) as (s1 & j & H1 & _ & _ & Hall).
  destruct (new_recovers_into A) as (d & B & Hd & Hdok & Hinto).
  destruct (Hall d B [] Hdok Hinto) as (d' & A' & l' & H2 & H3 & _ & H4 & H5 & _).
  exists s, A, l, s1, j, d, d', A', l'. exact (conj Hs (conj Hok (conj H1 (conj Hd (conj H2 (conj H3 (conj H4 H5))))))).
Defined.

Definition some_calls : list vcall :=
  [CallWatch (bytes "/1/a") true true 0; CallOp (OpSet (bytes "/1/a/b") false (bytes "x") (mkTTLOptionSet soon false)) minExpireTime; CallRecv 0;
   CallExpire soon soon; CallRemove 0].

(** What a call needs, as a test. *)
Definition can_call (c : vcall) (s : store) : bool :=
  (s_CurrentIndex s + Z.of_nat (h_Len (s_ttlKeyHeap s)) <? two64 - 1) &&
  match c with
  | CallWatch _ _ _ since => (0 <=? since) && (since <? two64)
  | CallRecv w => match wh_heap (s_WatcherHub s) !! w with Some _ => true | None => false end
  | CallRemove w => match wh_heap (s_WatcherHub s) !! w with Some x => negb (w_closed x) | None => false end
  | _ => true
  end.

Lemma can_call_ok c s : can_call c s = true -> call_ok s c.
Proof.
  unfold can_call, call_ok. intros [H1%Z.ltb_lt H2]%andb_true_iff. split; [done|]. destruct c; try done.
  - apply andb_true_iff in H2 as [?%Z.leb_le ?%Z.ltb_lt]. done.
  - by destruct (wh_heap _ !! w).
  - destruct (wh_heap _ !! w) as [x|]; [|done]. exists x. split; [done|]. by apply negb_true_iff.
Qed.

(** Calls that can all be made, one after the other. *)
Fixpoint can_call_all (cs : list vcall) (s : store) : bool :=
  match cs with
  | [] => true
  | c :: cs => can_call c s && match do_vcall map_to_list s c with Ok s' => can_call_all cs s' | Panic _ => false end
  end.

Lemma reached_all names cs s : reached map_to_list names s -> can_call_all cs s = true ->
  exists s', foldM (do_vcall map_to_list) cs s = Ok s' /\ reached map_to_list names s'.
Proof.
  revert s. induction cs as [|c cs IH]; intros s Hr; [by exists s|]. cbn [can_call_all foldM].
  intros [Hc Hcs]%andb_true_iff. destruct (do_vcall map_to_list s c) as [s1|] eqn:Hdo; [|done]. cbn [gobind].
  apply IH; [|done]. eapply reached_call; [done| |done]. by apply can_call_ok.
Qed.

Lemma v2_store_well_formed_witness : exists s0 s : store, newStore [bytes "/0"; bytes "/1"] = Ok s0 /\ foldM (do_vcall map_to_list) some_calls s0 = Ok s /\
  (exists A l, store_ok s A l) /\ forall c, call_ok s c -> is_Ok (do_vcall map_to_list s c).
Proof.
  assert (match newStore [bytes "/0"; bytes "/1"] with Ok s => can_call_all some_calls s | Panic _ => false end = true) as Hrun by (vm_compute; reflexivity).
  destruct (newStore _) as [s0|] eqn:Hnew; [|discriminate].
  destruct (reached_all [bytes "0"; bytes "1"] some_calls s0) as (s & Hs & Hr); [by apply reached_new|exact Hrun|].
  exists s0, s. split; [done|]. split; [exact Hs|].
  apply (v2_store_well_formed map_to_list (fun m => reflexivity _) [bytes "0"; bytes "1"]); [| |exact Hr].
  - apply (bool_decide_unpack _). vm_compute. exact I.
  - apply (bool_decide_unpack _). vm_compute. exact I.
Defined.
